(* ===== verification/_CoqProject ===== *)
-Q . S2P
Prelude.v
Net.v
Limits.v
AuthBudget.v
Std.v
Names.v
Canonical.v
Prepare.v
Radix.v
RadixBuild.v
RadixLookup.v
RadixDisk.v
RadixDiskWalk.v
RadixDiskSafe.v
RadixStored.v
RadixDiskRound.v
ParseSource.v
Lru.v
Dns.v
Ecs.v
Wire.v
Protocol.v
CacheData.v
CacheAdmit.v
Sharing.v
SharingSafe.v
CacheStore.v
Cache.v
CacheInv.v
CacheOps.v
CacheAdmission.v
CacheSafe.v
CacheClaims.v
BlockAnswer.v
Policy.v
PolicySafe.v
Refresh.v
Flight.v
Resolver.v
ResolverSafe.v
Text.v
Upstreams.v
UpstreamsSafe.v
Download.v
DownloadSafe.v
Transport.v
TransportSafe.v
Release.v
ReleaseSafe.v
SourceStore.v
SourceStoreSteps.v
SourceStoreSafe.v
Journal.v
Updater.v
Readiness.v
UpdaterSteps.v
UpdaterSafe.v
UpdaterLive.v
Installer.v
UpdaterClaims.v
Coordinator.v
CoordinatorSafe.v
Offers.v
UpdateTasks.v
UpdateTasksSafe.v
UpdateTasksClaims.v
