(* ===== verification/Prelude.v ===== *)
(** * PariNS: a verification library of the DNS server

    PariNS (Rust, [src/]) is a self-hosted filtering DNS server. This
    library models the parts of it that decide what a client is answered and
    what survives a failure, and proves what each part promises to the next.
    Paths are relative to the root of the repository.

    ** The program and the files that model it

    A datagram or a stream message is decoded and admitted ([src/protocol.rs]),
    filtered by the local policy and the subscriptions ([src/policy.rs],
    [src/policy/]), looked up in the response cache ([src/cache.rs],
    [src/cache/]), exchanged with an upstream when it misses ([src/resolver.rs],
    [src/flight.rs], [src/upstreams.rs], [src/upstreams/], [src/tls.rs]), and
    encoded for its hop. Around it run admission limits per client network
    ([src/limits.rs]), background refreshes ([src/resolver/refresh.rs]), the
    login budget ([src/manage/auth_budget.rs]), the saved form of the filter
    index, subscribed rule sources, which are downloaded and kept on disk
    ([src/filter_subscriptions/]), and updates of the program, which the manager
    ([src/manage/updates.rs]) asks of a privileged helper ([src/update/]).

    - [Prelude], [Std], [Net], [Names], [Dns], [Lru], [Text]: outcomes and the
      state and error monad with its weakest preconditions; the standard library
      and the crates the sources call, as interfaces with their documented laws
      and an implementation that shows they can hold.
    - [Limits] ([src/limits.rs]): token buckets in a bounded table. State
      [Limits.State]; operations [acquire_at], [permit_drop].
    - [AuthBudget] ([src/manage/auth_budget.rs]): five password attempts a minute.
    - [Canonical], [Prepare], [ParseSource] ([src/policy/canonical.rs]): rule
      keys, the memory budget, the rule builder, the streaming parser, dropping
      of redundant rules.
    - [Radix], [RadixBuild], [RadixLookup] ([src/policy/radix.rs]): the index,
      its stack machine and its lookups. [RadixDisk], [RadixDiskWalk],
      [RadixDiskSafe], [RadixDiskRound] ([src/policy/radix_disk.rs]): its stored
      form.
    - [BlockAnswer], [Policy], [PolicySafe] ([src/policy.rs],
      [src/policy/response.rs]): local rules, decisions, blocked answers, alias
      chains.
    - [Ecs] ([src/ecs.rs]), [Wire], [Protocol] ([src/protocol.rs]): client
      subnets, message bounds, admission, padding, truncation, work keys.
    - [CacheData], [CacheAdmit], [CacheStore], [Cache], [CacheInv], [CacheOps],
      [CacheAdmission], [CacheSafe], [CacheClaims] ([src/cache.rs],
      [src/cache/decision.rs]): what may be stored and for how long, one shard as
      a heap of shared entries, the sharded cache and its interleaved callers.
      [Sharing], [SharingSafe] ([src/cache/sharing.rs]): answers learned to be
      the same for every network.
    - [Refresh] ([src/resolver/refresh.rs]), [Flight] ([src/flight.rs]):
      background refreshes and shared work as interleaved steps.
    - [Resolver], [ResolverSafe] ([src/resolver.rs]): from bytes to a reply.
    - [Upstreams], [UpstreamsSafe] ([src/upstreams.rs], [src/tls/pool.rs]):
      endpoints, weighted selection, races. [Transport], [TransportSafe]
      ([src/upstream.rs], [src/upstreams/transport.rs], [src/upstreams/h3.rs],
      [src/tls.rs]): one exchange over each transport.
    - [Download], [DownloadSafe] ([src/https_reader.rs],
      [src/filter_subscriptions/download.rs]): which URLs and addresses may be
      reached, and a download into the staging file. [SourceStore],
      [SourceStoreSteps], [SourceStoreSafe] ([src/filter_subscriptions/store.rs],
      [src/private_files.rs]): the objects of the sources and the catalog that
      selects them. State [SourceStore.World]: the disk, of which a power failure
      keeps any unsynchronized part, and the open [Store].
    - [Release], [ReleaseSafe] ([src/update/contract.rs]), [Journal]
      ([src/update/ipc.rs], [src/update/executor/journal.rs]), [Updater],
      [Readiness], [UpdaterSteps], [UpdaterSafe], [UpdaterLive], [UpdaterClaims]
      ([src/update/executor/mod.rs]): release contracts, the journal, and the
      transaction that replaces the installed program. [Installer]
      ([scripts/install.sh]): the installer and its rollback as a state machine
      beside the helper. State [Installer.System]: the disk, the installer with
      its backup, and whether one was cut off while it exchanged the program and
      the journal.
    - [Coordinator], [CoordinatorSafe], [Offers] ([src/manage/updates/state.rs],
      [src/manage/updates.rs]), [UpdateTasks], [UpdateTasksSafe],
      [UpdateTasksClaims] ([src/manage/updates/operation.rs], the mutation permit
      of [src/manage/mod.rs]): the unprivileged half of an update: which releases
      are offered, the saved state, and the tasks that ask root to stage and
      commit while the configuration is frozen. State [UpdateTasks.World]: the
      files of the directory, the process with its tasks, and a log of what
      happened; one step is the code between two points where another task may
      run.

    ** How the model reads

    A function with state and errors is a computation of [M S E A]: the state
    survives an error as the fields of [&mut self] do. [Panic] is every way the
    code unwinds: an index out of range, [expect], an assertion. A loop has fuel,
    and [Diverge] is what running out of it gives; [wp m Q R s] excludes both, so
    a theorem in that form says that the code returns. Machine integers are [Z]
    with the wrap-around, saturation or check the code has written out; times are
    nanoseconds. Code behind a lock is one step; what can interleave is a step
    relation over the shared state, and its theorems hold in every reachable
    state. The fuel of each loop is a definition next to it ([walk_fuel],
    [build_fuel], [S (length query)] ...), and the theorems that exclude [Diverge]
    are the proof that it is enough.

    ** What the theorems show

    - The pipeline: every request of any bytes and any behaviour of the
      upstreams gets the reply its class demands, an exchange changes nothing
      but its own accounts, and a query is never sent twice once a byte of it
      may have been read ([ResolverSafe], [TransportSafe]).
    - Filtering: from the text of the rules to the decision on every name,
      through redundancy elimination, the index and its stored form; and the
      alias chain of an answer is followed to its end or refused ([PolicySafe],
      [RadixLookup], [Prepare], [RadixDiskSafe], [RadixDiskRound]).
    - The cache: an invariant of every reachable cache, bounds on memory, exact
      admission and lifetimes, what a lookup may serve, and that an invalidated
      answer is gone for good ([CacheClaims], [CacheAdmit], [SharingSafe]).
    - Limits: the table refines one bucket per source, rates hold across
      eviction, attempts per minute, permits of races and refreshes are bounded
      ([Limits], [AuthBudget], [UpstreamsSafe], [Refresh], [Flight]). A caller
      reads the clock before it takes the lock, so the stamps come in any order:
      the rates of queries and refreshes name how far a stamp was behind the
      latest one.
    - Subscriptions: a download reaches public addresses only and writes no more
      than its limit; on every disk that any operations, faults, crashes and power
      failures leave, the catalog selects only whole objects, and a commit
      replaces the selection as a whole ([DownloadSafe], [SourceStoreSafe]).
    - Updates: on every disk that any sequence of commands, installers, faults
      and crashes leaves, the installed program is the recorded one or the old
      one can be put back, and at boot it is; or an installer was cut off between
      the program and its record, and then the helper leaves both alone
      ([UpdaterClaims]). On the manager's side, a
      request to commit is written only after its checks, and from then on, over
      crashes and restarts, the configuration keeps the revision that the request
      and the health receipts name, until root's verdict; the verdict thaws it
      ([UpdateTasksClaims]). What is offered can be installed ([Offers]).

    ** Bounds and assumptions

    Interfaces ([NameLib], [MessageLib], [IpNetLib], [LruLib], [Sha256Lib],
    [SliceLib], [Host] ...) stand for crates and the allocator; their laws are
    documented behaviour, each has an instance in this library, and every
    theorem with hypotheses has a witness. Hashes are functions: where a theorem
    needs more (a length, no collision) it says so. The clock is an argument. The
    updater and the subscription store run over disks whose every change may
    succeed, fail, or be cut off by a crash before or after it; a rename that
    reports an error did not take effect. One installer is at work at a time, also
    while it waits, without the lock, for the new program. For the coordinator
    root is any sequence of statuses, a write that fails may have taken effect,
    identifiers drawn at random do not repeat, and one reading of the clock serves
    one change. A process that cannot read its state file at the start neither
    writes it nor freezes for it; the theorems say what then no longer holds.

    ** What is not modelled, and why

    - Sockets, TLS sessions, QUIC and HTTP framing, tokio's scheduling:
      [src/server.rs], [src/doh.rs], [src/quic.rs], [src/quic/],
      [src/transport/], [src/ingress.rs], [src/admin.rs],
      [src/tls/certificates.rs]. They move bytes between libraries and the parts
      above, and their behaviour is those libraries'.
    - Recursion ([src/recursion.rs]) drives the hickory recursor and validator,
      which do the resolving; the request pipeline takes either source of answers
      as its environment.
    - SQLite ([src/storage/]) owns retention and statistics through SQL text.
    - The management plane ([src/manage/]) is HTTP routing, JSON forms and the
      start and stop of generations, apart from the login budget and the
      coordinator of updates.
    - Reports, metrics and logs ([src/metrics.rs], [src/query_log.rs],
      [src/upstreams/diagnostics.rs]) observe and never decide; the pipeline's
      model keeps the counters that its theorems mention. *)

From stdpp Require Export base numbers list gmap sorting strings ssreflect.
From Stdlib Require Export ZArith Lia.

Set Default Goal Selector "!".
Set Warnings "-rewrite-rw".

(** ** Outcomes of Rust code

    [Ok] and [Err] are the two constructors of [Result]; [Panic] is an
    unwinding panic (an index out of range, a failed [expect] or [assert!], an
    arithmetic overflow check); [Diverge] is a loop that ran out of fuel, which
    every theorem about a loop excludes. *)
Inductive outcome (E A : Type) : Type :=
  | Ok (a : A)
  | Err (e : E)
  | Panic
  | Diverge.
Arguments Ok {E A} a.
Arguments Err {E A} e.
Arguments Panic {E A}.
Arguments Diverge {E A}.

#[export] Instance outcome_eq_dec {E A} `{EqDecision E, EqDecision A} : EqDecision (outcome E A).
Proof. solve_decision. Defined.

Definition is_ok {E A} (o : outcome E A) : bool := match o with Ok _ => true | _ => false end.

(** Decides a closed decidable proposition by evaluation. *)
Ltac by_compute := refine (bool_decide_unpack _ _); vm_compute; exact I.

(** Code that mutates a state of type [S]: the state survives an error, as the
    fields of a [&mut self] do. *)
Definition M (S E A : Type) : Type := S → outcome E A * S.

Section monad.
Context {S E : Type}.

Definition ret {A} (a : A) : M S E A := λ s, (Ok a, s).
Definition fail {A} (e : E) : M S E A := λ s, (Err e, s).
Definition panic {A} : M S E A := λ s, (Panic, s).
Definition diverge {A} : M S E A := λ s, (Diverge, s).
Definition bind {A B} (m : M S E A) (k : A → M S E B) : M S E B := λ s,
  match m s with
  | (Ok a, s') => k a s'
  | (Err e, s') => (Err e, s')
  | (Panic, s') => (Panic, s')
  | (Diverge, s') => (Diverge, s')
  end.
Definition get : M S E S := λ s, (Ok s, s).
Definition put (s : S) : M S E unit := λ _, (Ok tt, s).
Definition lift {A} (o : outcome E A) : M S E A := λ s, (o, s).
(** [o.ok_or(e)?] and [o.expect(..)]. *)
Definition ok_or {A} (e : E) (o : option A) : M S E A :=
  match o with Some a => ret a | None => fail e end.
Definition expect {A} (o : option A) : M S E A :=
  match o with Some a => ret a | None => panic end.

(** [while]/[loop]: the body either goes on with a new loop state ([inl]) or
    leaves the loop with a result ([inr]). *)
Fixpoint loop {L A} (fuel : nat) (body : L → M S E (L + A)) (l : L) : M S E A :=
  match fuel with
  | O => diverge
  | Datatypes.S fuel => bind (body l) (λ r,
      match r with
      | inl l' => loop fuel body l'
      | inr a => ret a
      end)
  end.
End monad.

Declare Scope rust_scope.
Delimit Scope rust_scope with rust.
Notation "'let*' x := m 'in' k" := (bind m (λ x, k))
  (at level 10, x pattern, m at level 100, k at level 200,
   format "'[v' 'let*'  x  :=  m  'in' '/' k ']'") : rust_scope.
Notation "m ;;; k" := (bind m (λ _, k))
  (at level 199, right associativity) : rust_scope.

(** ** A weakest precondition for [M]

    [wp m Q R s]: from state [s], [m] neither panics nor diverges; it ends in
    [Ok a] with [Q a], or in [Err e] with [R e]. *)
Definition wp {S E A} (m : M S E A) (Q : A → S → Prop) (R : E → S → Prop) (s : S) : Prop :=
  match m s with
  | (Ok a, s') => Q a s'
  | (Err e, s') => R e s'
  | (Panic, _) => False
  | (Diverge, _) => False
  end.

Section wp.
Context {S E : Type}.
Implicit Types s : S.

Lemma wp_ret {A} (a : A) (Q : A → S → Prop) (R : E → S → Prop) s :
  Q a s → wp (ret a) Q R s.
Proof. done. Qed.

Lemma wp_fail {A} (e : E) (Q : A → S → Prop) (R : E → S → Prop) s :
  R e s → wp (fail e) Q R s.
Proof. done. Qed.

Lemma wp_bind {A B} (m : M S E A) (k : A → M S E B) Q R s :
  wp m (λ a, wp (k a) Q R) R s → wp (bind m k) Q R s.
Proof. rewrite /wp /bind. by destruct (m s) as [[]]. Qed.

Lemma wp_get (Q : S → S → Prop) (R : E → S → Prop) s : Q s s → wp get Q R s.
Proof. done. Qed.

Lemma wp_put (Q : unit → S → Prop) (R : E → S → Prop) s s' : Q tt s' → wp (put s') Q R s.
Proof. done. Qed.

Lemma wp_mono {A} (m : M S E A) (Q Q' : A → S → Prop) (R R' : E → S → Prop) s :
  (∀ a s', Q a s' → Q' a s') → (∀ e s', R e s' → R' e s') →
  wp m Q R s → wp m Q' R' s.
Proof. intros HQ HR. rewrite /wp. destruct (m s) as [[] ?]; eauto. Qed.

Lemma wp_ok_or {A} (e : E) (o : option A) (Q : A → S → Prop) R s :
  (∀ a, o = Some a → Q a s) → (o = None → R e s) → wp (ok_or e o) Q R s.
Proof. destruct o; rewrite /wp /=; eauto. Qed.

Lemma wp_expect {A} (o : option A) (Q : A → S → Prop) (R : E → S → Prop) s a :
  o = Some a → Q a s → wp (expect o) Q R s.
Proof. by intros ->. Qed.

Lemma wp_state {A} (m : M S E A) (P : S → Prop) s : wp m (λ _, P) (λ _, P) s → P (m s).2.
Proof. rewrite /wp. by destruct (m s) as [[] ?]. Qed.

Lemma wp_result {A} (m : M S E A) Q R s a s' : m s = (Ok a, s') → wp m Q R s → Q a s'.
Proof. rewrite /wp. by intros ->. Qed.
(** Without errors to return, total correctness gives a result. *)
Lemma wp_total {A} (m : M S E A) Q s : wp m Q (λ _ _, False) s → ∃ a s', m s = (Ok a, s') ∧ Q a s'.
Proof. rewrite /wp. destruct (m s) as [[a|e| |] s']; try done. intros HQ. by exists a, s'. Qed.

(** Total correctness of a loop: an invariant and a decreasing measure. *)
Lemma wp_loop {L A} (body : L → M S E (L + A)) (Inv : L → S → Prop) (m : L → nat)
    (Q : A → S → Prop) (R : E → S → Prop) fuel l s :
  (∀ l s, Inv l s →
    wp (body l) (λ r s', match r with
                         | inl l' => Inv l' s' ∧ m l' < m l
                         | inr a => Q a s'
                         end) R s) →
  Inv l s → m l < fuel → wp (loop fuel body l) Q R s.
Proof.
  intros Hbody. revert l s. induction fuel as [|fuel IH]; intros l s HI Hm; [lia|].
  simpl. apply wp_bind. eapply wp_mono; [| |by apply Hbody]; [|done].
  intros [l'|a] s' H; [|done]. destruct H as [??]. apply IH; [done|lia].
Qed.

(** More fuel never hurts. *)
Lemma wp_loop_fuel {L A} (body : L → M S E (L + A)) Q R fuel fuel' l s :
  fuel ≤ fuel' → wp (loop fuel body l) Q R s → wp (loop fuel' body l) Q R s.
Proof.
  revert fuel' l s. induction fuel as [|fuel IH]; intros [|fuel'] l s Hle; simpl; try done.
  { lia. }
  rewrite /wp /bind. destruct (body l s) as [[[l'|a]| | |] s']; try done.
  intros H. apply (IH fuel' l' s'); [lia|done].
Qed.

Lemma wp_loop_step {L A} (body : L → M S E (L + A)) Q R fuel l s :
  wp (body l) (λ r s', match r with
                       | inl l' => wp (loop fuel body l') Q R s'
                       | inr a => Q a s'
                       end) R s →
  wp (loop (Datatypes.S fuel) body l) Q R s.
Proof.
  intros H. simpl. apply wp_bind. eapply wp_mono; [| |exact H]; [|done].
  by intros [l'|a] s'.
Qed.
End wp.

Arguments wp : simpl never.
Arguments bind : simpl never.
Arguments get : simpl never.
Arguments put : simpl never.
Arguments ret : simpl never.
Arguments fail : simpl never.
Arguments expect : simpl never.
Arguments ok_or : simpl never.

(** Runs the sequencing, state and return steps at the head of a [wp] goal. *)
Ltac wp_pure :=
  repeat lazymatch goal with
    | |- wp (bind _ _) _ _ _ => apply wp_bind
    | |- wp get _ _ _ => apply wp_get
    | |- wp (put _) _ _ _ => apply wp_put
    | |- wp (ret _) _ _ _ => apply wp_ret
    | |- wp (fail _) _ _ _ => apply wp_fail
    | |- wp (expect (Some _)) _ _ _ => eapply wp_expect; [reflexivity|]
    | H : ?o = Some _ |- wp (expect ?o) _ _ _ => eapply wp_expect; [exact H|]
    | |- wp _ _ _ _ => progress cbv beta iota zeta
    end.

(** ** Fixed-width integers *)
Definition u8_max : Z := 255.
Definition u16_max : Z := 65535.
Definition u32_max : Z := 4294967295.
Definition u64_max : Z := 18446744073709551615.
(** The released binaries target 64-bit Linux: [usize] is 64 bits wide. *)
Definition usize_max : Z := u64_max.
Definition u128_max : Z := 340282366920938463463374607431768211455.

Definition as_u8 (x : Z) : Z := x mod 256.
Definition as_u16 (x : Z) : Z := x mod 65536.
Definition as_u32 (x : Z) : Z := x mod 4294967296.
Definition as_u64 (x : Z) : Z := x mod 18446744073709551616.

Definition checked_add (x y : Z) : option Z :=
  if decide (x + y ≤ usize_max)%Z then Some (x + y)%Z else None.
Definition checked_mul (x y : Z) : option Z :=
  if decide (x * y ≤ usize_max)%Z then Some (x * y)%Z else None.
Definition saturating_sub (x y : Z) : Z := Z.max 0 (x - y).
Definition saturating_add (max x y : Z) : Z := Z.min max (x + y).

Lemma as_u8_small x : (0 ≤ x ≤ 255)%Z → as_u8 x = x.
Proof. intros. apply Z.mod_small. lia. Qed.
Lemma as_u16_small x : (0 ≤ x ≤ 65535)%Z → as_u16 x = x.
Proof. intros. apply Z.mod_small. lia. Qed.
Lemma as_u32_small x : (0 ≤ x ≤ 4294967295)%Z → as_u32 x = x.
Proof. intros. apply Z.mod_small. lia. Qed.
Lemma as_u64_small x : (0 ≤ x ≤ u64_max)%Z → as_u64 x = x.
Proof. intros. apply Z.mod_small. unfold u64_max in *. lia. Qed.

(** ** Filters *)
Section filter.
Context {A : Type} (P : A → Prop) `{!∀ x, Decision (P x)}.

Lemma filter_all l : Forall P l → filter P l = l.
Proof.
  induction 1 as [|x l Hx _ IH]; [done|]. by rewrite filter_cons decide_True // IH.
Qed.

Lemma Forall_filter_sub (Q : A → Prop) l : Forall Q l → Forall Q (filter P l).
Proof.
  rewrite !Forall_forall. intros Hl x. rewrite list_elem_of_filter. naive_solver.
Qed.

Lemma Forall_filter_self l : Forall P (filter P l).
Proof. apply Forall_forall. intros x. rewrite list_elem_of_filter. naive_solver. Qed.

Lemma StronglySorted_filter (R : relation A) l :
  StronglySorted R l → StronglySorted R (filter P l).
Proof.
  induction 1 as [|x l Hs IH Hx]; [constructor|]. rewrite filter_cons. case_decide; [|done].
  constructor; [done|]. by apply Forall_filter_sub.
Qed.
End filter.

(** ** A queue that lists the keys of a table once each

    The bounded reclamation scans rotate such a queue. *)
Section queue.
Context {K V : Type} `{Countable K}.
Implicit Types (m : gmap K V) (q : list K).

Lemma queue_head m c q :
  c :: q ≡ₚ elements (dom m) →
  ∃ v, m !! c = Some v ∧ c ∉ q ∧ q ≡ₚ elements (dom (delete c m)).
Proof.
  intros Hq. assert (c ∈ dom m) as Hin.
  { rewrite -elem_of_elements -Hq. set_solver. }
  pose proof (NoDup_elements (dom m)) as Hnd. rewrite -Hq in Hnd.
  apply NoDup_cons in Hnd as [Hnin Hnd].
  apply elem_of_dom in Hin as [v Hv]. exists v. split_and!; [done..|].
  apply NoDup_Permutation; [done|apply NoDup_elements|]. intros x.
  rewrite elem_of_elements dom_delete elem_of_difference elem_of_singleton.
  assert (x ∈ c :: q ↔ x ∈ dom m) as Hx by (by rewrite Hq elem_of_elements).
  rewrite elem_of_cons in Hx. naive_solver.
Qed.

Lemma queue_push m c v q :
  q ≡ₚ elements (dom m) → m !! c = None → q ++ [c] ≡ₚ elements (dom (<[c:=v]> m)).
Proof.
  intros Hq Hc. rewrite dom_insert_L elements_union_singleton.
  - rewrite Hq. symmetry. apply Permutation_cons_append.
  - by rewrite elem_of_dom Hc.
Qed.

Lemma queue_update m c v v' q :
  q ≡ₚ elements (dom m) → m !! c = Some v → q ≡ₚ elements (dom (<[c:=v']> m)).
Proof. intros Hq Hc. by rewrite dom_insert_lookup_L. Qed.

Lemma queue_rotate m c q :
  c :: q ≡ₚ elements (dom m) → q ++ [c] ≡ₚ elements (dom m).
Proof. intros <-. symmetry. apply Permutation_cons_append. Qed.
End queue.

Create HintDb parins.
#[export] Hint Resolve wp_ret wp_fail : parins.
