(* ===== verification/Net.v ===== *)
(** * Addresses and networks

    [std::net::IpAddr] as the standard library documents it, and the interface
    [IpNetLib] of the [ipnet] crate's [IpNet], which the sources only call. The
    interface names the operations the code uses; its laws are the crate's
    documented behaviour. [Module ListNet] gives one implementation, so that
    every theorem stated against the interface has concrete instances. *)

From S2P Require Import Prelude.
Set Default Goal Selector "!".
Set Warnings "-rewrite-rw".
Local Open Scope Z_scope.

(** ** [std::net::IpAddr] *)
Inductive IpAddr : Type :=
  | V4 (bits : Z)
  | V6 (bits : Z).

#[export] Instance IpAddr_eq_dec : EqDecision IpAddr.
Proof. solve_decision. Defined.
#[export] Instance IpAddr_countable : Countable IpAddr.
Proof.
  refine (inj_countable' (λ a, match a with V4 b => inl b | V6 b => inr b end)
    (λ s, match s with inl b => V4 b | inr b => V6 b end) _); by intros [].
Defined.

Definition is_ipv4 (a : IpAddr) : bool :=
  match a with V4 _ => true | V6 _ => false end.
Definition ip_bits (a : IpAddr) : Z :=
  match a with V4 b => b | V6 b => b end.
Definition ip_width (a : IpAddr) : Z :=
  match a with V4 _ => 32 | V6 _ => 128 end.
(** The number fits the address family. *)
Definition ip_valid (a : IpAddr) : Prop := 0 ≤ ip_bits a < 2 ^ ip_width a.
#[export] Instance ip_valid_dec a : Decision (ip_valid a).
Proof. unfold ip_valid. apply _. Defined.

(** [Ipv6Addr::to_ipv4_mapped]: [::ffff:a.b.c.d]. *)
Definition to_ipv4_mapped (b : Z) : option Z :=
  if decide (Z.shiftr b 32 = 65535) then Some (Z.land b (Z.ones 32)) else None.
(** [IpAddr::to_canonical]. *)
Definition to_canonical (a : IpAddr) : IpAddr :=
  match a with
  | V6 b => match to_ipv4_mapped b with Some v4 => V4 v4 | None => a end
  | V4 _ => a
  end.
Definition is_unspecified (a : IpAddr) : bool := bool_decide (ip_bits a = 0).
Definition is_multicast (a : IpAddr) : bool :=
  match a with
  | V4 b => bool_decide (224 ≤ Z.shiftr b 24 ≤ 239)
  | V6 b => bool_decide (Z.shiftr b 120 = 255)
  end.
Definition is_loopback (a : IpAddr) : bool :=
  match a with
  | V4 b => bool_decide (Z.shiftr b 24 = 127)
  | V6 b => bool_decide (b = 1)
  end.
Definition is_broadcast (b : Z) : bool := bool_decide (b = u32_max).

(** The [p] leading bits, the rest cleared. *)
Definition mask (a : IpAddr) (p : Z) : IpAddr :=
  let clear b := Z.shiftl (Z.shiftr b (ip_width a - p)) (ip_width a - p) in
  match a with V4 b => V4 (clear b) | V6 b => V6 (clear b) end.

Lemma is_ipv4_mask a p : is_ipv4 (mask a p) = is_ipv4 a.
Proof. by destruct a. Qed.
Lemma ip_width_mask a p : ip_width (mask a p) = ip_width a.
Proof. by destruct a. Qed.

Lemma mask_mask_le a p q :
  0 ≤ p ≤ q → q ≤ ip_width a → mask (mask a q) p = mask a p.
Proof.
  intros Hpq Hq. unfold mask. destruct a as [b|b]; simpl in *; f_equal;
    rewrite Z.shiftr_shiftl_r; try lia; rewrite ?Z.shiftr_shiftr; try lia;
    repeat f_equal; lia.
Qed.

Lemma mask_full a : ip_valid a → mask a (ip_width a) = a.
Proof.
  intros _. unfold mask. destruct a; simpl; by rewrite Z.shiftr_0_r Z.shiftl_0_r.
Qed.

Lemma mask_valid a p : ip_valid a → 0 ≤ p ≤ ip_width a → ip_valid (mask a p).
Proof.
  unfold ip_valid, mask. intros [H1 H2] Hp.
  assert (0 ≤ Z.shiftl (Z.shiftr (ip_bits a) (ip_width a - p)) (ip_width a - p)
    ≤ ip_bits a) as Hle.
  { rewrite Z.shiftl_mul_pow2; [|lia]. rewrite Z.shiftr_div_pow2; [|lia].
    pose proof (Z.pow_pos_nonneg 2 (ip_width a - p)).
    split; [apply Z.mul_nonneg_nonneg; [apply Z.div_pos|]; lia|].
    rewrite Z.mul_comm. apply Z.mul_div_le. lia. }
  destruct a; simpl in *; lia.
Qed.

(** ** The [ipnet] crate *)
Class IpNetLib : Type := {
  IpNet : Type;
  IpNet_eq_dec :: EqDecision IpNet;
  IpNet_countable :: Countable IpNet;
  (** [IpNet::new(addr, prefix).ok()] *)
  net_new : IpAddr → Z → option IpNet;
  net_addr : IpNet → IpAddr;
  net_prefix_len : IpNet → Z;
  net_trunc : IpNet → IpNet;
  (** [IpNet::contains(&IpAddr)] *)
  net_contains : IpNet → IpAddr → bool;
}.

Class IpNetSpec (L : IpNetLib) : Prop := {
  (** [new] fails exactly on a prefix longer than the address. *)
  net_new_Some a p : ip_valid a → 0 ≤ p ≤ ip_width a →
    ∃ n, net_new a p = Some n ∧ net_addr n = a ∧ net_prefix_len n = p;
  net_new_None a p : ip_width a < p → net_new a p = None;
  net_addr_valid n : ip_valid (net_addr n);
  net_prefix_bound n : 0 ≤ net_prefix_len n ≤ ip_width (net_addr n);
  (** derived [PartialEq]: the address and the prefix. *)
  net_ext n m : net_addr n = net_addr m → net_prefix_len n = net_prefix_len m → n = m;
  net_trunc_addr n : net_addr (net_trunc n) = mask (net_addr n) (net_prefix_len n);
  net_trunc_prefix n : net_prefix_len (net_trunc n) = net_prefix_len n;
  net_contains_spec n a :
    net_contains n a = bool_decide (is_ipv4 (net_addr n) = is_ipv4 a ∧
      mask a (net_prefix_len n) = mask (net_addr n) (net_prefix_len n));
}.

Section ipnet.
Context {L : IpNetLib} `{!IpNetSpec L}.
Implicit Types n m : IpNet.

Lemma net_new_inv a p n :
  ip_valid a → 0 ≤ p → net_new a p = Some n →
  net_addr n = a ∧ net_prefix_len n = p ∧ p ≤ ip_width a.
Proof.
  intros Ha Hp Hn. destruct (decide (p ≤ ip_width a)) as [Hle|Hgt].
  - destruct (net_new_Some a p) as (n' & Hn' & ? & ?); [done|done|]. naive_solver.
  - rewrite net_new_None in Hn; [done|lia].
Qed.

Lemma net_trunc_idemp n : net_trunc (net_trunc n) = net_trunc n.
Proof.
  pose proof (net_prefix_bound n). apply net_ext; rewrite ?net_trunc_addr ?net_trunc_prefix //.
  apply mask_mask_le; lia.
Qed.

(** Two networks overlap exactly when one contains the other's address, and
    then they agree on the shorter prefix. *)
Lemma net_contains_shorter n m :
  net_contains n (net_addr m) = true → net_prefix_len n ≤ net_prefix_len m →
  ∀ a, net_contains m a = true → net_contains n a = true.
Proof.
  intros H1 Hle a H2. rewrite ->net_contains_spec in *.
  apply bool_decide_eq_true in H1 as [Hf1 Hm1], H2 as [Hf2 Hm2].
  apply bool_decide_eq_true. split; [congruence|].
  pose proof (net_prefix_bound n). pose proof (net_prefix_bound m).
  assert (ip_width a = ip_width (net_addr m)) as Hw
    by (destruct a, (net_addr m); done).
  rewrite -(mask_mask_le a _ (net_prefix_len m)); [|lia|lia].
  rewrite Hm2 mask_mask_le; [done|lia|lia].
Qed.
End ipnet.

(** ** One implementation of the interface *)
Module ListNet.
Definition wf (p : IpAddr * Z) : Prop := ip_valid p.1 ∧ 0 ≤ p.2 ≤ ip_width p.1.
#[export] Instance wf_dec p : Decision (wf p).
Proof. unfold wf. apply _. Defined.
Definition net : Type := dsig wf.

Definition new (a : IpAddr) (p : Z) : option net :=
  match decide (wf (a, p)) with
  | left H => Some (dexist (a, p) H)
  | right _ => None
  end.
Lemma trunc_wf (n : net) : wf (mask (`n).1 (`n).2, (`n).2).
Proof.
  pose proof (proj2_dsig n) as [Ha Hp]. split; simpl.
  - by apply mask_valid.
  - by rewrite ip_width_mask.
Qed.

#[export] Instance lib : IpNetLib := {
  IpNet := net;
  net_new := new;
  net_addr n := (`n).1;
  net_prefix_len n := (`n).2;
  net_trunc n := dexist _ (trunc_wf n);
  net_contains n a := bool_decide (is_ipv4 (`n).1 = is_ipv4 a ∧
    mask a (`n).2 = mask (`n).1 (`n).2);
}.

(** [0.0.0.0/0]. *)
Lemma any_wf : wf (V4 0, 0).
Proof. split; unfold ip_valid; simpl; lia. Qed.
Definition any : net := dexist _ any_wf.

#[export] Instance spec : IpNetSpec lib.
Proof.
  split; simpl.
  - intros a p Ha Hp. unfold new. destruct (decide (wf (a, p))) as [H|[]]; [|done].
    by exists (dexist (a, p) H).
  - intros a p Hp. unfold new. destruct (decide (wf (a, p))) as [[? H]|]; simpl in *; [lia|done].
  - intros n. apply (proj2_dsig n).
  - intros n. apply (proj2_dsig n).
  - intros n m Ha Hp. apply dsig_eq. destruct (`n), (`m); simpl in *; congruence.
  - done.
  - done.
  - done.
Qed.
End ListNet.
