(* ===== verification/Limits.v ===== *)
(** * Source admission limits (src/src/limits.rs)

    A token bucket and two concurrency counters per client network, kept in a
    bounded table. [Entry], [State] and [Settings] are the source's structs;
    [acquire_at] and [permit_drop] are its two operations on the table. Time is
    an [Instant] in nanoseconds.

    The table is a cache: an absent source behaves as an inactive entry with
    full credit ([view]). [acquire_refines] proves the operation against that
    abstract limiter, [reachable_inv] the table invariant and the agreement of
    the counters with the permits that are still held, and
    [admitted_query_rate] the rate bound across evictions. *)

From S2P Require Import Prelude Net.
Set Default Goal Selector "!".
Set Warnings "-rewrite-rw".
Local Open Scope Z_scope.
Local Open Scope rust_scope.

Definition TOKEN : Z := 1000000000.
Definition RECLAIM_SCAN : nat := 16.
Arguments RECLAIM_SCAN : simpl never.

Record Settings : Type := mkSettings {
  enabled : bool;
  rate_per_sec : Z;
  burst : Z;
  max_sources : Z;
  ipv4_prefix : Z;
  ipv6_prefix : Z;
  max_inflight : Z;
  max_connections : Z;
}.

Definition default_settings : Settings := {|
  enabled := false; rate_per_sec := 100; burst := 200; max_sources := 4096;
  ipv4_prefix := 32; ipv6_prefix := 64; max_inflight := 32; max_connections := 8;
|}.

(** [Settings::validate]; an error names the rejected field. *)
Definition validate (s : Settings) : outcome string unit :=
  let in_range (lo hi v : Z) := bool_decide (lo ≤ v ≤ hi) in
  if negb (in_range 1 1000000 (rate_per_sec s)) then Err "rate_per_sec"%string
  else if negb (in_range 1 1000000 (burst s)) then Err "burst"%string
  else if negb (in_range 1 65536 (max_sources s)) then Err "max_sources"%string
  else if negb (in_range 1 65536 (max_inflight s)) then Err "max_inflight"%string
  else if negb (in_range 1 65536 (max_connections s)) then Err "max_connections"%string
  else if negb (bool_decide (ipv4_prefix s ≤ 32)) then Err "ipv4_prefix"%string
  else if negb (bool_decide (ipv6_prefix s ≤ 128)) then Err "ipv6_prefix"%string
  else Ok tt.

Inductive Denied : Type := Rate | Inflight | Connections | TableFull.
Inductive Kind : Type := KQuery | KConnection.

#[export] Instance Denied_eq_dec : EqDecision Denied.
Proof. solve_decision. Defined.
#[export] Instance Kind_eq_dec : EqDecision Kind.
Proof. solve_decision. Defined.

Record Entry : Type := mkEntry {
  credit : Z;
  updated : Z;
  queries : Z;
  connections : Z;
}.

(** [Entry::refill]: the accounting clock never moves backward. *)
Definition refill (now : Z) (set : Settings) (e : Entry) : Entry :=
  if decide (updated e < now) then
    let added := (now - updated e) * rate_per_sec set in
    {| credit := as_u64 (Z.min (credit e + added) (burst set * TOKEN));
       updated := now; queries := queries e; connections := connections e |}
  else e.

Section limits.
Context {L : IpNetLib}.

Record State : Type := mkState {
  entries : gmap IpNet Entry;
  sweep : list IpNet;
}.

Record Limiter : Type := mkLimiter {
  settings : Settings;
  state : option State;
}.

(** [Limiter::new]: no table while disabled. *)
Definition new (set : Settings) : Limiter :=
  {| settings := set;
     state := if enabled set then Some {| entries := ∅; sweep := [] |} else None |}.

(** What a [Permit] owns, for a limiter it belongs to. *)
Record Permit : Type := mkPermit { owner : option (IpNet * Kind) }.

#[export] Instance Permit_eq_dec : EqDecision Permit.
Proof. solve_decision. Defined.

(** [Limiter::source]: IPv4-mapped peers are IPv4 clients. *)
Definition source (set : Settings) (peer : IpAddr) : option IpNet :=
  let peer := to_canonical peer in
  let prefix := if is_ipv4 peer then ipv4_prefix set else ipv6_prefix set in
  net_trunc <$> net_new peer prefix.

(** The bounded scan of a full table: [for _ in 0..RECLAIM_SCAN.min(sweep.len())]. *)
Fixpoint reclaim (set : Settings) (now : Z) (n : nat) : M State Denied unit :=
  match n with
  | O => ret tt
  | S n =>
      let* st := get in
      let* candidate := expect (head (sweep st)) in
      let* entry := expect (entries st !! candidate) in
      let entry := refill now set entry in
      if bool_decide (queries entry = 0 ∧ connections entry = 0 ∧
                      credit entry = burst set * TOKEN) then
        put {| entries := delete candidate (entries st); sweep := tail (sweep st) |}
      else
        put {| entries := <[candidate := entry]> (entries st);
               sweep := tail (sweep st) ++ [candidate] |} ;;;
        reclaim set now n
  end.

(** The last part of [acquire_at]: the entry is in the table. *)
Definition charge_entry (set : Settings) (s : IpNet) (kind : Kind) (now : Z) : M State Denied Permit :=
  let* st := get in
  let* entry := expect (entries st !! s) in
  let entry := refill now set entry in
  let save e := put {| entries := <[s := e]> (entries st); sweep := sweep st |} in
  save entry ;;;
  match kind with
  | KQuery =>
      if bool_decide (queries entry >= max_inflight set) then fail Inflight
      else if bool_decide (credit entry < TOKEN) then fail Rate
      else
        save {| credit := credit entry - TOKEN; updated := updated entry;
                queries := queries entry + 1; connections := connections entry |} ;;;
        ret {| owner := Some (s, kind) |}
  | KConnection =>
      if bool_decide (connections entry >= max_connections set) then fail Connections
      else
        save {| credit := credit entry; updated := updated entry;
                queries := queries entry; connections := connections entry + 1 |} ;;;
        ret {| owner := Some (s, kind) |}
  end.

(** [acquire_at] on an enabled limiter, under its lock. *)
Definition acquire_locked (set : Settings) (peer : IpAddr) (kind : Kind) (now : Z) :
    M State Denied Permit :=
  let* source := expect (source set peer) in
  let* st := get in
  (if bool_decide (entries st !! source = None) then
    (if bool_decide (Z.of_nat (size (entries st)) = max_sources set) then
      reclaim set now (RECLAIM_SCAN `min` length (sweep st)) ;;;
      let* st := get in
      if bool_decide (Z.of_nat (size (entries st)) = max_sources set)
      then fail TableFull else ret tt
     else ret tt) ;;;
    let* st := get in
    put {| entries := <[source := {| credit := burst set * TOKEN; updated := now;
                                     queries := 0; connections := 0 |}]> (entries st);
           sweep := sweep st ++ [source] |}
   else ret tt) ;;;
  charge_entry set source kind now.

(** [Limiter::acquire_at]: disabled mode takes no lock and holds nothing. *)
Definition acquire_at (peer : IpAddr) (kind : Kind) (now : Z) : M Limiter Denied Permit :=
  λ l, match state l with
       | None => (Ok {| owner := None |}, l)
       | Some st =>
           let '(r, st') := acquire_locked (settings l) peer kind now st in
           (r, {| settings := settings l; state := Some st' |})
       end.

(** [Drop for Permit]; a counter below zero would panic. *)
Definition permit_drop (p : Permit) : M Limiter Denied unit :=
  λ l, match owner p with
       | None => (Ok tt, l)
       | Some (source, kind) =>
           match state l with
           | None => (Panic, l)
           | Some st =>
               match entries st !! source with
               | None => (Panic, l)
               | Some e =>
                   let e' := match kind with
                     | KQuery => {| credit := credit e; updated := updated e;
                                    queries := queries e - 1; connections := connections e |}
                     | KConnection => {| credit := credit e; updated := updated e;
                                         queries := queries e; connections := connections e - 1 |}
                     end in
                   if bool_decide (queries e' < 0 ∨ connections e' < 0) then (Panic, l)
                   else (Ok tt, {| settings := settings l;
                     state := Some {| entries := <[source := e']> (entries st);
                                      sweep := sweep st |} |})
               end
           end
       end.
End limits.

(** ** The abstract limiter

    Every source has a bucket; a source the table does not hold has never been
    seen, or was reclaimed full and idle, and both look the same. *)
Definition full (set : Settings) (now : Z) : Entry :=
  {| credit := burst set * TOKEN; updated := now; queries := 0; connections := 0 |}.

Section abstract.
Context {L : IpNetLib}.

Definition view (set : Settings) (now : Z) (st : State) (s : IpNet) : Entry :=
  match entries st !! s with
  | Some e => refill now set e
  | None => full set now
  end.

(** What a request does to the bucket of its own source. *)
Definition spec_acquire (set : Settings) (kind : Kind) (e : Entry) : Denied + Entry :=
  match kind with
  | KQuery =>
      if bool_decide (queries e >= max_inflight set) then inl Inflight
      else if bool_decide (credit e < TOKEN) then inl Rate
      else inr {| credit := credit e - TOKEN; updated := updated e;
                  queries := queries e + 1; connections := connections e |}
  | KConnection =>
      if bool_decide (connections e >= max_connections set) then inl Connections
      else inr {| credit := credit e; updated := updated e;
                  queries := queries e; connections := connections e + 1 |}
  end.

(** The counter a permit of this kind holds. *)
Definition counter (kind : Kind) (e : Entry) : Z :=
  match kind with KQuery => queries e | KConnection => connections e end.

Definition entry_ok (set : Settings) (now : Z) (e : Entry) : Prop :=
  0 ≤ credit e ≤ burst set * TOKEN ∧ updated e ≤ now ∧
  0 ≤ queries e ≤ max_inflight set ∧ 0 ≤ connections e ≤ max_connections set.

Record table_ok (set : Settings) (now : Z) (st : State) : Prop := {
  table_sweep : sweep st ≡ₚ elements (dom (entries st));
  table_size : Z.of_nat (size (entries st)) ≤ max_sources set;
  table_entries : map_Forall (λ _, entry_ok set now) (entries st);
}.
End abstract.

(** ** Runs of the limiter

    A run interleaves requests, in the order in which they take the lock, with
    the drops of the permits they produced. A request reads the clock before it
    takes the lock, so the stamps come in any order; [clock] is the latest one.
    [granted_queries] is the history of admitted queries: their source, and how
    far their stamp was behind the latest one. *)
Section runs.
Context {L : IpNetLib}.

Record World : Type := mkWorld {
  limiter : Limiter;
  held : list (IpNet * Kind);
  clock : Z;
  granted_queries : list (IpNet * Z);
}.

Definition start (set : Settings) (now : Z) : World :=
  {| limiter := new set; held := []; clock := now; granted_queries := [] |}.

Inductive step : World → World → Prop :=
  | step_grant w peer kind now s lim :
      acquire_at peer kind now (limiter w) = (Ok {| owner := Some (s, kind) |}, lim) →
      step w {| limiter := lim; held := (s, kind) :: held w; clock := Z.max (clock w) now;
                granted_queries := match kind with
                  | KQuery => (s, Z.max (clock w) now - now) :: granted_queries w
                  | KConnection => granted_queries w
                  end |}
  | step_refuse w peer kind now d lim :
      acquire_at peer kind now (limiter w) = (Err d, lim) →
      step w {| limiter := lim; held := held w; clock := Z.max (clock w) now;
                granted_queries := granted_queries w |}
  | step_drop w s kind rest lim :
      held w ≡ₚ (s, kind) :: rest →
      permit_drop {| owner := Some (s, kind) |} (limiter w) = (Ok tt, lim) →
      step w {| limiter := lim; held := rest; clock := clock w;
                granted_queries := granted_queries w |}.

Definition count {A} `{EqDecision A} (x : A) (l : list A) : Z :=
  Z.of_nat (length (filter (λ y, y = x) l)).
(** The queries admitted for a source, and how much their stamps lagged. *)
Definition queries_of (s : IpNet) (w : World) : Z := count s (granted_queries w).*1.
Definition lag_of (s : IpNet) (w : World) : Z := foldr Z.add 0 (filter (λ g, g.1 = s) (granted_queries w)).*2.

(** The table is well formed and counts exactly the permits still held. *)
Record world_ok (set : Settings) (w : World) (st : State) : Prop := {
  world_limiter : limiter w = {| settings := set; state := Some st |};
  world_table : table_ok set (clock w) st;
  world_held s kind : counter kind (view set (clock w) st s) = count (s, kind) (held w);
}.
End runs.

Lemma validate_ok set :
  validate set = Ok tt →
  1 ≤ rate_per_sec set ≤ 1000000 ∧ 1 ≤ burst set ≤ 1000000 ∧
  1 ≤ max_sources set ≤ 65536 ∧ 1 ≤ max_inflight set ≤ 65536 ∧
  1 ≤ max_connections set ≤ 65536 ∧ ipv4_prefix set ≤ 32 ∧ ipv6_prefix set ≤ 128.
Proof.
  unfold validate. repeat case_bool_decide; simpl; naive_solver.
Qed.

Section proofs.
Context {L : IpNetLib} `{!IpNetSpec L}.
Context (set : Settings) (Hset : validate set = Ok tt).
Implicit Types (st : State) (s : IpNet) (e : Entry).

Let Hrate : 0 < rate_per_sec set.
Proof. apply validate_ok in Hset. lia. Qed.
Let Hburst : 0 < burst set * TOKEN ≤ u64_max.
Proof. apply validate_ok in Hset. unfold TOKEN, u64_max. lia. Qed.

Lemma refill_eq now e :
  0 ≤ credit e ≤ burst set * TOKEN → updated e ≤ now →
  refill now set e = {|
    credit := Z.min (credit e + (now - updated e) * rate_per_sec set) (burst set * TOKEN);
    updated := now; queries := queries e; connections := connections e |}.
Proof.
  intros Hc Hu. unfold refill. case_decide as Hlt.
  - f_equal. apply as_u64_small. nia.
  - assert (updated e = now) as <- by lia. rewrite Z.sub_diag Z.mul_0_l Z.add_0_r Z.min_l; [|lia].
    by destruct e.
Qed.

Lemma entry_ok_refill now now' e :
  entry_ok set now e → now ≤ now' → entry_ok set now' (refill now' set e).
Proof.
  intros (Hc & Hu & ? & ?) Hle. rewrite refill_eq; [|lia|lia].
  unfold entry_ok; simpl. split; [|lia]. split; [|lia].
  apply Z.min_glb; [|lia]. nia.
Qed.

(** A refill with an earlier stamp than the entry's changes nothing. *)
Lemma refill_stale now e : now ≤ updated e → refill now set e = e.
Proof. intros. unfold refill. rewrite decide_False //. lia. Qed.
Lemma refill_updated now e : now ≤ updated (refill now set e).
Proof. unfold refill. case_decide; simpl; lia. Qed.
Lemma refill_any top now e : entry_ok set top e → now ≤ top → entry_ok set top (refill now set e).
Proof.
  intros He Hle. destruct (decide (updated e ≤ now)) as [Hu|Hu]; [|rewrite refill_stale //; lia].
  assert (entry_ok set now e) as He' by (destruct He as (?&?&?&?); split_and!; lia).
  pose proof (entry_ok_refill now now e He' ltac:(lia)) as (?&?&?&?). split_and!; lia.
Qed.
Lemma refill_refill top now e :
  entry_ok set top e → now ≤ top → refill top set (refill now set e) = refill top set e.
Proof.
  intros He Hle. destruct (decide (updated e ≤ now)) as [Hu|Hu]; [|rewrite (refill_stale now) //; lia].
  pose proof (refill_any top now e He Hle) as (Hc' & Hu' & _). destruct He as (Hc & _ & _).
  rewrite (refill_eq top); [|done..]. rewrite (refill_eq now); [|lia..]. rewrite (refill_eq top); [|lia..]. simpl.
  f_equal. nia.
Qed.

Lemma refill_full now now' : now ≤ now' → refill now' set (full set now) = full set now'.
Proof.
  intros. rewrite refill_eq; simpl; [|lia|lia]. unfold full. f_equal. nia.
Qed.

(** Time passing only refills the buckets. *)
Lemma view_later now top st s :
  table_ok set top st → now ≤ top →
  view set top st s = refill top set (view set now st s).
Proof.
  intros [_ _ Ht] Hle. unfold view. destruct (entries st !! s) as [e|] eqn:E.
  - symmetry. apply refill_refill; [|done]. apply (Ht s e E).
  - by rewrite refill_full.
Qed.

Lemma view_ok top now st s : table_ok set top st → now ≤ top → entry_ok set top (view set now st s).
Proof.
  intros [_ _ Ht] Hle. pose proof (validate_ok _ Hset). unfold view.
  destruct (entries st !! s) as [e|] eqn:E.
  - apply refill_any; [|done]. apply (Ht s e E).
  - unfold entry_ok, full; simpl. unfold TOKEN. lia.
Qed.

Lemma table_ok_later now now' st : table_ok set now st → now ≤ now' → table_ok set now' st.
Proof.
  intros [? ? Ht] ?. split; [done..|]. intros s e E. destruct (Ht s e E) as (?&?&?&?).
  unfold entry_ok. lia.
Qed.

(** ** The bounded scan *)
Lemma sweep_head now st c rest :
  table_ok set now st → sweep st = c :: rest →
  ∃ e, entries st !! c = Some e ∧ c ∉ rest ∧ rest ≡ₚ elements (dom (delete c (entries st))).
Proof. intros [Hs _ _] Hc. apply queue_head. by rewrite -Hc. Qed.

(** Writing an entry back keeps the table well formed. *)
Lemma table_ok_update now st s e e' :
  table_ok set now st → entries st !! s = Some e → entry_ok set now e' →
  table_ok set now {| entries := <[s := e']> (entries st); sweep := sweep st |}.
Proof.
  intros [Hs Hz Ht] E He'. split; simpl.
  - by eapply queue_update.
  - rewrite map_size_insert_Some //.
  - by apply map_Forall_insert_2.
Qed.

Lemma reclaim_spec top now n st :
  now ≤ top → table_ok set top st → (n ≤ length (sweep st))%nat →
  wp (reclaim set now n) (λ _ st',
    table_ok set top st' ∧ (∀ s, view set top st' s = view set top st s) ∧
    ∀ s, entries st !! s = None → entries st' !! s = None) (λ _ _, False) st.
Proof.
  intros Hle. revert st. induction n as [|n IH]; intros st Hok Hn; simpl; [by apply wp_ret|].
  wp_pure. destruct (sweep st) as [|c rest] eqn:Hsw; simpl in *; [lia|].
  destruct (sweep_head top st c rest) as (e & E & Hnin & Hrest); [done..|].
  eapply wp_expect; [done|]. wp_pure.
  pose proof (table_entries _ _ _ Hok c e E) as He. pose proof (refill_any top now e He Hle) as He'.
  pose proof (refill_refill top now e He Hle) as Htop.
  case_bool_decide as Hfull; wp_pure.
  - destruct Hfull as (Hq & Hc & Hcr). split_and!.
    + destruct Hok as [Hs Hz Ht]. split; simpl; [done| |by apply map_Forall_delete].
      rewrite map_size_delete_Some; [lia|by eauto].
    + intros s. unfold view; simpl. destruct (decide (s = c)) as [->|].
      * rewrite lookup_delete_eq E -Htop (refill_eq top); [|apply He'..]. rewrite Hq Hc Hcr Z.min_r //.
        destruct He' as (_ & ? & _). nia.
      * by rewrite lookup_delete_ne.
    + intros s Hs. rewrite lookup_delete. by case_decide.
  - eapply wp_mono; [| |apply IH]; simpl.
    + intros _ st' (? & Hv & Hnone). split_and!; [done| |].
      * intros s. rewrite Hv. unfold view; simpl. destruct (decide (s = c)) as [->|].
        { by rewrite lookup_insert_eq E. }
        by rewrite lookup_insert_ne.
      * intros s Hs. apply Hnone. rewrite lookup_insert_ne //. congruence.
    + done.
    + destruct (table_ok_update top st c e (refill now set e)) as [Hs Hz Ht]; simpl in *; [done..|].
      split; simpl; [|done..]. apply queue_rotate. by rewrite -Hs Hsw.
    + rewrite length_app /=. lia.
Qed.

(** A fresh entry takes a slot the table has. *)
Lemma table_ok_insert top now st s :
  now ≤ top → table_ok set top st → entries st !! s = None →
  Z.of_nat (size (entries st)) ≠ max_sources set →
  table_ok set top {| entries := <[s := full set now]> (entries st); sweep := sweep st ++ [s] |}.
Proof.
  intros Hle [Hs Hz Ht] E Hne. split; simpl.
  - by apply queue_push.
  - rewrite map_size_insert_None //. lia.
  - apply map_Forall_insert_2; [|done]. pose proof (validate_ok _ Hset).
    unfold entry_ok, full; simpl. unfold TOKEN. lia.
Qed.

Lemma entry_ok_spec_acquire top kind e e' :
  entry_ok set top e → spec_acquire set kind e = inr e' → entry_ok set top e' ∧ updated e' = updated e.
Proof.
  unfold spec_acquire, entry_ok. intros He.
  destruct kind; repeat case_bool_decide; intros [= <-]; simpl; unfold TOKEN in *; (split; [|done]); lia.
Qed.

(** What a request stamped [now] leaves in the table, against the abstract
    buckets; [top] is the latest stamp so far, its own included. *)
Definition granted (top : Z) (st : State) (s : IpNet) (kind : Kind) (now : Z) (p : Permit) (st' : State) :=
  table_ok set top st' ∧ owner p = Some (s, kind) ∧
  (∀ s', s' ≠ s → view set top st' s' = view set top st s') ∧
  spec_acquire set kind (view set now st s) = inr (view set now st' s).
Definition refused (top : Z) (st : State) (s : IpNet) (kind : Kind) (now : Z) (d : Denied) (st' : State) :=
  table_ok set top st' ∧ (∀ s', view set top st' s' = view set top st s') ∧
  (d = TableFull ∧ entries st !! s = None ∧ Z.of_nat (size (entries st)) = max_sources set ∨
   spec_acquire set kind (view set now st s) = inl d).

(** Storing an up-to-date entry changes the view of its own source only. *)
Lemma view_save top now st s e e' :
  table_ok set top st → entries st !! s = Some e → entry_ok set top e' → now ≤ updated e' →
  let st' := {| entries := <[s := e']> (entries st); sweep := sweep st |} in
  table_ok set top st' ∧ view set now st' s = e' ∧ view set top st' s = refill top set e' ∧
  ∀ t s', s' ≠ s → view set t st' s' = view set t st s'.
Proof.
  intros Hok E He' Hu st'. split_and!.
  - by eapply table_ok_update.
  - unfold view, st'; simpl. rewrite lookup_insert_eq. by apply refill_stale.
  - unfold view, st'; simpl. by rewrite lookup_insert_eq.
  - intros t s' Hne. unfold view, st'; simpl. by rewrite lookup_insert_ne.
Qed.

Lemma charge_entry_spec top now s kind st e :
  now ≤ top → table_ok set top st → entries st !! s = Some e →
  wp (charge_entry set s kind now) (granted top st s kind now) (refused top st s kind now) st.
Proof.
  intros Hle Hok E. unfold charge_entry. wp_pure.
  assert (view set now st s = refill now set e ∧ view set top st s = refill top set (refill now set e)) as [Hv Hvt].
  { unfold view. rewrite E refill_refill //. by apply (table_entries _ _ _ Hok s). }
  pose proof (view_ok top now st s Hok Hle) as He. rewrite Hv in He. pose proof (refill_updated now e) as Hu.
  pose proof (λ e', entry_ok_spec_acquire top kind _ e' He) as Hspec.
  revert Hv Hvt He Hu Hspec. generalize (refill now set e) as e1. intros e1 Hv Hvt He Hu Hspec.
  assert (∀ d, spec_acquire set kind e1 = inl d → refused top st s kind now d
      {| entries := <[s := e1]> (entries st); sweep := sweep st |}) as Href.
  { intros d Hd. destruct (view_save top now st s e e1) as (? & _ & H1 & H2); [done..|].
    split_and!; [done| |right; by rewrite Hv]. intros s'.
    destruct (decide (s' = s)) as [->|]; [congruence|by apply H2]. }
  assert (∀ e', spec_acquire set kind e1 = inr e' → granted top st s kind now
      {| owner := Some (s, kind) |} {| entries := <[s := e']> (entries st); sweep := sweep st |}) as Hgr.
  { intros e' Hd. destruct (Hspec e' Hd) as [Hok' Hu'].
    destruct (view_save top now st s e e') as (? & H1 & _ & H2); [done|done|done|lia|].
    split_and!; [done|done|by intros; apply H2|]. by rewrite H1 Hv. }
  unfold spec_acquire in Href, Hgr. destruct kind; repeat case_bool_decide; wp_pure; auto.
Qed.

Lemma acquire_spec top now peer s kind st :
  now ≤ top → table_ok set top st → source set peer = Some s →
  wp (acquire_locked set peer kind now) (granted top st s kind now) (refused top st s kind now) st.
Proof.
  intros Hle Hok Hs. unfold acquire_locked. rewrite Hs. apply wp_bind. eapply wp_expect; [done|].
  wp_pure. case_bool_decide as E.
  - assert (view set now st s = full set now) as Hnow by (unfold view; by rewrite E).
    assert (∀ st', table_ok set top st' → (∀ s, view set top st' s = view set top st s) →
      entries st' !! s = None → Z.of_nat (size (entries st')) ≠ max_sources set →
      wp (charge_entry set s kind now) (granted top st s kind now) (refused top st s kind now)
        {| entries := <[s := full set now]> (entries st'); sweep := sweep st' ++ [s] |}) as Hins.
    { intros st' Hok' Hv' E' Hne. set (st1 := {| entries := _; sweep := _ |}).
      assert (view set now st1 s = full set now) as Hnow1.
      { unfold view, st1; simpl. by rewrite lookup_insert_eq refill_full. }
      assert (∀ s', view set top st1 s' = view set top st s') as Htop.
      { intros s'. rewrite -Hv'. unfold view, st1; simpl.
        destruct (decide (s' = s)) as [->|]; [by rewrite lookup_insert_eq E' refill_full|by rewrite lookup_insert_ne]. }
      eapply wp_mono; [| |apply (charge_entry_spec top now s kind st1 (full set now))].
      - intros p st2 (?&?&H1&H2). split_and!; [done..| |].
        + intros s' Hs'. by rewrite H1 // Htop.
        + by rewrite -H2 Hnow Hnow1.
      - intros d st2 (?&H1&H2). split_and!; [done| |].
        + intros s'. by rewrite H1 Htop.
        + destruct H2 as [(_&H2&_)|H2]; simpl in *; [by rewrite lookup_insert_eq in H2|].
          right. by rewrite -H2 Hnow Hnow1.
      - done.
      - by apply table_ok_insert.
      - by rewrite /= lookup_insert_eq. }
    wp_pure. case_bool_decide as Hfull; wp_pure; [|by apply Hins].
    eapply wp_mono; [| |apply (reclaim_spec top now); [done|done|apply Nat.le_min_r]]; [|done].
    intros _ st' (Hok' & Hv' & Hnone). wp_pure. case_bool_decide as Hfull'; wp_pure.
    + split_and!; [done..|]. left. by split_and!.
    + apply Hins; auto.
  - wp_pure. apply not_eq_None_Some in E as [e E]. by eapply charge_entry_spec.
Qed.

Lemma count_cons {A} `{EqDecision A} (x y : A) l :
  count x (y :: l) = (if decide (y = x) then 1 else 0) + count x l.
Proof.
  unfold count. rewrite filter_cons. case_decide; simpl; lia.
Qed.

Lemma counter_refill kind now e : counter kind (refill now set e) = counter kind e.
Proof. unfold refill. destruct kind; by case_decide. Qed.

Lemma counter_spec_acquire kind kind' e e' :
  spec_acquire set kind e = inr e' →
  counter kind' e' = (if decide (kind = kind') then 1 else 0) + counter kind' e.
Proof.
  unfold spec_acquire. destruct kind, kind'; repeat case_bool_decide; intros [= <-]; simpl;
    repeat case_decide; (done || lia).
Qed.

Lemma world_ok_later w st top :
  world_ok set w st → clock w ≤ top →
  table_ok set top st ∧ ∀ s kind, counter kind (view set top st s) = count (s, kind) (held w).
Proof.
  intros [_ Ht Hh] Hle. pose proof (table_ok_later _ top _ Ht Hle) as Ht'. split; [done|]. intros s kind.
  rewrite (view_later (clock w)) // counter_refill. apply Hh.
Qed.

(** [acquire_locked] panics exactly when the peer has no network, which a
    validated prefix and a well-formed peer exclude. *)
Lemma acquire_inv top now peer kind st r st' :
  now ≤ top → table_ok set top st → acquire_locked set peer kind now st = (r, st') →
  match r with
  | Ok p => ∃ s, source set peer = Some s ∧ granted top st s kind now p st'
  | Err d => ∃ s, source set peer = Some s ∧ refused top st s kind now d st'
  | _ => source set peer = None
  end.
Proof.
  intros Hle Hok Hr. destruct (source set peer) as [s|] eqn:Hs.
  - pose proof (acquire_spec top now peer s kind st Hle Hok Hs) as H. unfold wp in H.
    rewrite Hr in H. destruct r; naive_solver.
  - unfold acquire_locked, bind in Hr. rewrite Hs in Hr. unfold expect, panic in Hr. by simplify_eq.
Qed.

Lemma permit_drop_ok w st s kind rest :
  world_ok set w st → held w ≡ₚ (s, kind) :: rest →
  ∃ st', permit_drop {| owner := Some (s, kind) |} (limiter w) =
           (Ok tt, {| settings := set; state := Some st' |}) ∧
    table_ok set (clock w) st' ∧
    (∀ s', s' ≠ s → view set (clock w) st' s' = view set (clock w) st s') ∧
    credit (view set (clock w) st' s) = credit (view set (clock w) st s) ∧
    ∀ kind', counter kind' (view set (clock w) st' s) =
      counter kind' (view set (clock w) st s) - (if decide (kind = kind') then 1 else 0).
Proof.
  intros [Hl Ht Hh] Hp.
  assert (1 ≤ counter kind (view set (clock w) st s)) as Hge.
  { rewrite Hh. unfold count. rewrite (Permutation_length (filter_Permutation _ _ _ Hp)).
    rewrite filter_cons_True //=. lia. }
  unfold view in Hge. destruct (entries st !! s) as [e|] eqn:E; [|by destruct kind; simpl in Hge].
  rewrite counter_refill in Hge.
  pose proof (table_entries _ _ _ Ht s e E) as (Hc & Hu & Hq & Hn).
  unfold permit_drop; simpl. rewrite Hl /= E.
  set (e' := match kind with KQuery => _ | KConnection => _ end).
  assert (credit e' = credit e ∧ updated e' = updated e ∧
    (∀ k, counter k e' = counter k e - (if decide (kind = k) then 1 else 0)) ∧
    0 ≤ queries e' ∧ 0 ≤ connections e' ∧ queries e' ≤ queries e ∧
    connections e' ≤ connections e) as (Hc' & Hu' & Hk & Hq' & Hn' & Hq2 & Hn2).
  { subst e'. destruct kind; simpl in *; split_and!; try done; try lia;
      intros []; simpl; lia. }
  rewrite bool_decide_eq_false_2; [|lia].
  eexists. split; [done|]. split_and!.
  - eapply table_ok_update; [done..|]. unfold entry_ok. rewrite Hc' Hu'. lia.
  - intros s' Hne. unfold view; simpl. by rewrite lookup_insert_ne.
  - unfold view; simpl. rewrite lookup_insert_eq E !refill_eq //=; lia.
  - intros kind'. unfold view; simpl. by rewrite lookup_insert_eq E !counter_refill Hk.
Qed.

Lemma queries_of_grant s lim h c q w :
  queries_of s (mkWorld lim h c (q :: granted_queries w)) = (if decide (q.1 = s) then 1 else 0) + queries_of s w.
Proof. unfold queries_of. by rewrite fmap_cons count_cons. Qed.
Lemma lag_of_grant s lim h c q w :
  lag_of s (mkWorld lim h c (q :: granted_queries w)) = (if decide (q.1 = s) then q.2 else 0) + lag_of s w.
Proof. unfold lag_of. cbn [granted_queries]. rewrite filter_cons. by case_decide. Qed.
(** A granted query takes a token from its bucket, of which a lagging stamp
    may have let some refill twice. *)
Lemma granted_credit top now e e' :
  entry_ok set top e → now ≤ updated e → spec_acquire set KQuery e = inr e' →
  credit (refill top set e') + TOKEN ≤ credit (refill top set e) + rate_per_sec set * (top - now).
Proof.
  intros He Hu Hsp. destruct (entry_ok_spec_acquire top KQuery e e' He Hsp) as [He' Hu'].
  destruct He as (Hc & Hut & _), He' as (Hc' & Hut' & _). rewrite !refill_eq; [|done..]. simpl. rewrite Hu'.
  unfold spec_acquire in Hsp. repeat case_bool_decide; simplify_eq/=. nia.
Qed.
Lemma granted_world w st top now s kind p st' :
  world_ok set w st → clock w ≤ top → now ≤ top → granted top st s kind now p st' →
  (∀ s' kind', counter kind' (view set top st' s') = count (s', kind') ((s, kind) :: held w)) ∧
  (∀ s', credit (view set top st' s') + (if decide (kind = KQuery ∧ s = s') then TOKEN else 0) ≤
    credit (view set top st s') + rate_per_sec set * (if decide (kind = KQuery ∧ s = s') then top - now else 0)).
Proof.
  intros Hw Htop Hnow (Ht' & _ & Hother & Hspec). destruct (world_ok_later w st top Hw Htop) as [Ht Hh].
  assert (∀ kind', counter kind' (view set top st' s) = (if decide (kind = kind') then 1 else 0) + counter kind' (view set top st s)) as Hcount.
  { intros kind'. rewrite !(view_later now top) // !counter_refill. by apply counter_spec_acquire. }
  split.
  - intros s' kind'. rewrite count_cons -Hh. destruct (decide (s' = s)) as [->|Hne].
    + rewrite Hcount. repeat case_decide; naive_solver.
    + rewrite Hother // decide_False //. congruence.
  - intros s'. destruct (decide (s' = s)) as [->|Hne]; [|rewrite Hother //; repeat (rewrite decide_False; [|naive_solver]); lia].
    rewrite !(view_later now top) //. pose proof (view_ok top now st s Ht Hnow) as He.
    assert (now ≤ updated (view set now st s)) as Hu.
    { unfold view. destruct (entries st !! s); [apply refill_updated|simpl; lia]. }
    destruct kind; [rewrite !decide_True //; by apply granted_credit|].
    repeat (rewrite decide_False; [|naive_solver]).
    destruct (entry_ok_spec_acquire top KConnection _ _ He Hspec) as [He' Hu']. destruct He as (Hc & Hut & _), He' as (Hc' & Hut' & _).
    rewrite !refill_eq; [|done..]. simpl. rewrite Hu'. unfold spec_acquire in Hspec. case_bool_decide; simplify_eq/=.
    match goal with H : _ = view _ _ st' s |- _ => rewrite -H end. simpl. lia.
Qed.
Lemma step_ok w w' st :
  world_ok set w st → step w w' →
  clock w ≤ clock w' ∧ ∃ st', world_ok set w' st' ∧ ∀ s,
    credit (view set (clock w') st' s) + (queries_of s w' - queries_of s w) * TOKEN ≤
    credit (view set (clock w') st s) + rate_per_sec set * (lag_of s w' - lag_of s w).
Proof.
  intros Hw Hstep.
  destruct Hstep as [w peer kind now s lim Hr|w peer kind now d lim Hr|w s kind rest lim Hp Hr];
    simpl; (split; [lia|]).
  - set (top := Z.max (clock w) now). assert (clock w ≤ top ∧ now ≤ top) as [Htop Hnow] by lia.
    destruct (world_ok_later w st top Hw Htop) as [Ht _].
    unfold acquire_at in Hr. rewrite (world_limiter _ _ _ Hw) /= in Hr.
    destruct (acquire_locked set peer kind now st) as [r st'] eqn:Ha. simplify_eq/=.
    apply (acquire_inv top) in Ha as (s' & _ & Hgr); [|done..]. pose proof Hgr as (Ht' & [= <-] & _).
    destruct (granted_world w st top now s kind _ st' Hw Htop Hnow Hgr) as [Hh Hc].
    exists st'. split; [by split|]. intros s2. specialize (Hc s2).
    destruct kind; simpl in *.
    + rewrite queries_of_grant lag_of_grant. cbn [fst snd]. repeat case_decide; try naive_solver; lia.
    + repeat (rewrite decide_False in Hc; [|naive_solver]). unfold queries_of, lag_of. simpl. lia.
  - set (top := Z.max (clock w) now). assert (clock w ≤ top ∧ now ≤ top) as [Htop Hnow] by lia.
    destruct (world_ok_later w st top Hw Htop) as [Ht Hh].
    unfold acquire_at in Hr. rewrite (world_limiter _ _ _ Hw) /= in Hr.
    destruct (acquire_locked set peer kind now st) as [r st'] eqn:Ha. simplify_eq/=.
    apply (acquire_inv top) in Ha as (s & _ & Ht' & Hv & _); [|done..].
    exists st'. split; [split; [done..|]; intros; by rewrite /= Hv -Hh|].
    intros s2. rewrite Hv. unfold queries_of, lag_of. simpl. lia.
  - destruct (permit_drop_ok w st s kind rest) as (st' & Hd & Ht' & Hother & Hc & Hk); [done..|].
    rewrite Hd in Hr. simplify_eq. exists st'. split.
    + split; [done..|]. intros s2 kind2; simpl.
      assert (count (s2, kind2) (held w) = count (s2, kind2) ((s, kind) :: rest)) as Heq.
      { unfold count. by rewrite (Permutation_length (filter_Permutation _ _ _ Hp)). }
      rewrite count_cons -(world_held _ _ _ Hw) in Heq.
      destruct (decide (s2 = s)) as [->|Hne].
      * rewrite Hk. repeat case_decide; simplify_eq; lia.
      * rewrite Hother // Heq decide_False //. congruence.
    + intros s2. unfold queries_of, lag_of. simpl. destruct (decide (s2 = s)) as [->|Hne]; [|rewrite Hother //]; lia.
Qed.

Lemma steps_ok w w' st :
  world_ok set w st → rtc step w w' →
  clock w ≤ clock w' ∧ ∃ st', world_ok set w' st' ∧ ∀ s,
    credit (view set (clock w') st' s) + (queries_of s w' - queries_of s w) * TOKEN ≤
    credit (view set (clock w) st s) + rate_per_sec set * (clock w' - clock w + (lag_of s w' - lag_of s w)).
Proof.
  intros Hw Hr. revert st Hw. induction Hr as [w|w w1 w2 Hs _ IH]; intros st Hw.
  { split; [done|]. exists st. split; [done|]. intros. lia. }
  destruct (step_ok w w1 st Hw Hs) as (Hle & st1 & Hw1 & Hc1).
  destruct (IH st1 Hw1) as (Hle2 & st2 & Hw2 & Hc2). split; [lia|].
  exists st2. split; [done|]. intros s. specialize (Hc1 s). specialize (Hc2 s).
  pose proof (world_table _ _ _ Hw) as Ht.
  rewrite (view_later (clock w) (clock w1) st s) // in Hc1; [|by eapply table_ok_later].
  destruct (view_ok (clock w) (clock w) st s Ht ltac:(lia)) as (Hc & Hu & _).
  assert (updated (view set (clock w) st s) = clock w) as Hnow.
  { unfold view. destruct (entries st !! s) as [e|] eqn:E; [|done].
    by rewrite refill_eq; [|apply (table_entries _ _ _ Ht s e E)..]. }
  rewrite refill_eq /= in Hc1; [|lia..]. rewrite Hnow in Hc1. lia.
Qed.

Lemma start_ok now : enabled set = true → world_ok set (start set now) {| entries := ∅; sweep := [] |}.
Proof.
  intros He. pose proof (validate_ok _ Hset). split; simpl.
  - unfold new. by rewrite He.
  - split; simpl; [by rewrite dom_empty_L elements_empty|rewrite map_size_empty; lia|done].
  - intros s kind. unfold view; simpl. rewrite lookup_empty. by destruct kind.
Qed.

(** C19. Limiter::acquire_at implements the abstract limiter. For a table that
    satisfies its invariant, a peer whose network is [s] and a stamp that need not
    be the latest one ([top]), the call never panics and keeps the invariant; a
    grant moves only the bucket of [s] and exactly as [spec_acquire] says (one
    token and one slot for a query, one slot for a connection); a refusal changes
    no bucket, and is either the abstract refusal or [TableFull], which needs a
    full table and a new source. *)
Theorem acquire_refines top now peer s kind st :
  now ≤ top → table_ok set top st → source set peer = Some s →
  wp (acquire_locked set peer kind now) (granted top st s kind now) (refused top st s kind now) st.
Proof. apply acquire_spec. Qed.

(** In every world a run reaches, the table holds at most [max_sources]
    entries, its sweep queue lists exactly the keys of the table, every
    bucket is within its limits, and the counters of every source equal the
    permits still held, so an entry with a held permit is never reclaimed and
    dropping any held permit succeeds. *)
Theorem reachable_inv t0 w :
  enabled set = true → rtc step (start set t0) w →
  ∃ st, world_ok set w st ∧
    ∀ s kind, (s, kind) ∈ held w →
      ∃ st', permit_drop {| owner := Some (s, kind) |} (limiter w) =
        (Ok tt, {| settings := set; state := Some st' |}).
Proof.
  intros He Hr. destruct (steps_ok _ w _ (start_ok t0 He) Hr) as (_ & st & Hw & _).
  exists st. split; [done|]. intros s kind Hin.
  apply list_elem_of_split in Hin as (l1 & l2 & Hl).
  destruct (permit_drop_ok w st s kind (l1 ++ l2)) as (st' & ? & _); [done| |eauto].
  rewrite Hl. by rewrite Permutation_middle.
Qed.

(** C28. The rate limit, with the stamps of the requests in any order. Between
    two reachable worlds a source is granted at most [burst] queries plus
    [rate_per_sec] per second that the latest stamp advanced, whatever other
    sources do, whatever is refused, and even when its table entry was reclaimed
    and created again in between; to that each query granted to this source adds
    at most what refills in the time its stamp was behind the latest one, which
    is nothing when the requests take the lock in the order of their stamps. *)
Theorem admitted_query_rate t0 w w' s :
  enabled set = true → rtc step (start set t0) w → rtc step w w' →
  (queries_of s w' - queries_of s w) * TOKEN ≤
    burst set * TOKEN + rate_per_sec set * (clock w' - clock w + (lag_of s w' - lag_of s w)).
Proof.
  intros He Hr Hr'. destruct (steps_ok _ w _ (start_ok t0 He) Hr) as (_ & st & Hw & _).
  destruct (steps_ok w w' st Hw Hr') as (_ & st' & Hw' & Hc). specialize (Hc s).
  destruct (view_ok _ (clock w) st s (world_table _ _ _ Hw) ltac:(lia)) as ([_ H1] & _).
  destruct (view_ok _ (clock w') st' s (world_table _ _ _ Hw') ltac:(lia)) as ([H2 _] & _). lia.
Qed.
End proofs.

(** ** Witnesses *)
Module LimitsWitness.
#[local] Existing Instance ListNet.lib.
#[local] Existing Instance ListNet.spec.
Definition set : Settings :=
  {| enabled := true; rate_per_sec := 1; burst := 2; max_sources := 2;
     ipv4_prefix := 24; ipv6_prefix := 64; max_inflight := 4; max_connections := 1 |}.
Definition peer : IpAddr := V4 3232235777.
Definition network : IpNet := default ListNet.any (source set peer).
Definition world1 : World := {|
  limiter := (acquire_at peer KQuery 7 (new set)).2; held := [(network, KQuery)];
  clock := 7; granted_queries := [(network, 0)] |}.
(** The next request read the clock before the first one did. *)
Definition world2 : World := {|
  limiter := (acquire_at peer KQuery 5 (limiter world1)).2; held := [(network, KQuery); (network, KQuery)];
  clock := 7; granted_queries := [(network, 2); (network, 0)] |}.

Lemma valid : validate set = Ok tt.
Proof. reflexivity. Qed.

Lemma first_step : step (start set 0) world1.
Proof.
  apply (step_grant (start set 0) peer KQuery 7 network (acquire_at peer KQuery 7 (new set)).2).
  simpl. rewrite (surjective_pairing (acquire_at peer KQuery 7 (new set))). by f_equal.
Qed.
Lemma second_step : step world1 world2.
Proof.
  apply (step_grant world1 peer KQuery 5 network (acquire_at peer KQuery 5 (limiter world1)).2).
  rewrite (surjective_pairing (acquire_at peer KQuery 5 (limiter world1))). by f_equal.
Qed.

Lemma acquire_refines_witness :
  source set peer = Some network ∧
  wp (acquire_locked set peer KQuery 7) (granted set 9 {| entries := ∅; sweep := [] |} network KQuery 7)
    (refused set 9 {| entries := ∅; sweep := [] |} network KQuery 7) {| entries := ∅; sweep := [] |}.
Proof.
  split; [by_compute|]. apply (acquire_refines set valid).
  - lia.
  - split; [by_compute|by_compute|intros ?? H; by rewrite lookup_empty in H].
  - by_compute.
Defined.

Lemma reachable_inv_witness : ∃ st, world_ok set world1 st.
Proof.
  destruct (reachable_inv set valid 0 world1) as (st & Hw & _).
  - reflexivity.
  - apply rtc_once, first_step.
  - exists st. exact Hw.
Defined.

Lemma admitted_query_rate_witness :
  (queries_of network world2 - queries_of network (start set 0)) * TOKEN ≤
    burst set * TOKEN + rate_per_sec set * (clock world2 - clock (start set 0) + (lag_of network world2 - lag_of network (start set 0))).
Proof.
  apply (admitted_query_rate set valid 0 (start set 0) world2 network).
  - reflexivity.
  - apply rtc_refl.
  - apply (rtc_l step _ world1 _ first_step). apply rtc_once, second_step.
Defined.
End LimitsWitness.
