(* ===== verification/AuthBudget.v ===== *)
(** * Authentication attempt budget (src/src/manage/auth_budget.rs)

    A sliding window of at most five attempts per minute for each socket peer
    (an IPv6 peer counts as its /64), in a bounded table that a rotating scan
    reclaims. The state is [Sources]; [attempt_at] is the whole operation. *)

From S2P Require Import Prelude Net.
Set Default Goal Selector "!".
Set Warnings "-rewrite-rw".
Local Open Scope Z_scope.
Local Open Scope rust_scope.

Definition WINDOW : Z := 60000000000.
Definition ATTEMPTS : Z := 5.
Definition MAX_SOURCES : Z := 1024.
Definition RECLAIM_SCAN : nat := 16.

Record Sources : Type := mkSources {
  entries : gmap IpAddr (list Z);
  sweep : list IpAddr;
}.

(** The [LOGIN_LIMIT] answer of [limited]. *)
Inductive ApiError : Type := LoginLimit.

(** [expire]: drops attempts older than the window from the front. *)
Fixpoint expire (attempts : list Z) (now : Z) : list Z :=
  match attempts with
  | at_ :: rest =>
      if bool_decide (saturating_sub now at_ >= WINDOW) then expire rest now else attempts
  | [] => []
  end.

(** The charged identity of a peer. *)
Definition identity (peer : IpAddr) : IpAddr :=
  match peer with
  | V6 ip =>
      match to_ipv4_mapped ip with
      | Some v4 => V4 v4
      | None => V6 (Z.land ip (Z.lxor u128_max u64_max))
      end
  | V4 _ => peer
  end.

(** [for _ in 0..RECLAIM_SCAN.min(sources.sweep.len())]. *)
Fixpoint scan (now : Z) (n : nat) : M Sources ApiError unit :=
  match n with
  | O => ret tt
  | S n =>
      let* st := get in
      let* source := expect (head (sweep st)) in
      let* attempts := expect (entries st !! source) in
      let attempts := expire attempts now in
      (if bool_decide (attempts = []) then
         put {| entries := delete source (entries st); sweep := tail (sweep st) |}
       else
         put {| entries := <[source := attempts]> (entries st);
                sweep := tail (sweep st) ++ [source] |}) ;;;
      scan now n
  end.

(** The charge of one attempt to a source of the table; the queue stays
    ordered when contending callers take the lock in another order. *)
Definition charge (peer : IpAddr) (now : Z) : M Sources ApiError unit :=
  let* st := get in
  let* attempts := expect (entries st !! peer) in
  let attempts := expire attempts now in
  let save l := put {| entries := <[peer := l]> (entries st); sweep := sweep st |} in
  save attempts ;;;
  if bool_decide (Z.of_nat (length attempts) = ATTEMPTS) then fail LoginLimit
  else save (attempts ++ [match last attempts with Some t => Z.max t now | None => now end]).

Definition attempt_at (peer : IpAddr) (now : Z) : M Sources ApiError unit :=
  let peer := identity peer in
  let* st := get in
  scan now (RECLAIM_SCAN `min` length (sweep st)) ;;;
  let* st := get in
  (if bool_decide (entries st !! peer = None) then
     if bool_decide (Z.of_nat (size (entries st)) = MAX_SOURCES) then fail LoginLimit
     else put {| entries := <[peer := []]> (entries st); sweep := sweep st ++ [peer] |}
   else ret tt) ;;;
  charge peer now.

(** ** Invariant and history

    The clock is read before the lock is taken, so the stamps of the attempts
    come in any order; [top] is the latest stamp seen. *)

(** The live attempts of a source: those the window still counts at [top]. *)
Definition live (top : Z) (st : Sources) (s : IpAddr) : list Z :=
  expire (default [] (entries st !! s)) top.

(** What the table keeps for one source. *)
Definition attempts_ok (top : Z) (l : list Z) : Prop :=
  StronglySorted Z.le l ∧ Forall (λ t, t ≤ top) l ∧ Z.of_nat (length l) ≤ ATTEMPTS.

Record sources_ok (top : Z) (st : Sources) : Prop := {
  sources_sweep : sweep st ≡ₚ elements (dom (entries st));
  sources_size : Z.of_nat (size (entries st)) ≤ MAX_SOURCES;
  sources_attempts : map_Forall (λ _ l, attempts_ok top l) (entries st);
}.

(** An attempt that went on to the password check: who, when it read the clock
    and the stamp it is charged under. *)
Record Grant : Type := mkGrant { g_source : IpAddr; g_stamp : Z; g_charged : Z }.
(** A run of attempts in the order in which they take the lock. *)
Record World : Type := mkWorld {
  sources : Sources;
  clock : Z;
  granted : list Grant;
}.
Definition start (now : Z) : World :=
  {| sources := {| entries := ∅; sweep := [] |}; clock := now; granted := [] |}.
(** The last stamp the table holds for a source. *)
Definition newest (s : IpAddr) (st : Sources) : option Z := entries st !! s ≫= last.
Inductive step : World → World → Prop :=
  | step_attempt w peer now st charged :
      attempt_at peer now (sources w) = (Ok tt, st) → newest (identity peer) st = Some charged →
      step w {| sources := st; clock := Z.max (clock w) now; granted := mkGrant (identity peer) now charged :: granted w |}
  | step_limited w peer now st :
      attempt_at peer now (sources w) = (Err LoginLimit, st) →
      step w {| sources := st; clock := Z.max (clock w) now; granted := granted w |}.

(** The attempts of [s] granted within the minute before [top], by the time
    they were made and by the time they are charged for. *)
Definition of_source (s : IpAddr) (w : World) : list Grant := filter (λ g, g_source g = s) (granted w).
Definition within (top : Z) (l : list Z) : list Z := filter (λ t, top - t < WINDOW) l.
Definition recent (top : Z) (w : World) (s : IpAddr) : list Z := within top (g_stamp <$> of_source s w).
Definition debt (top : Z) (w : World) (s : IpAddr) : list Z := within top (g_charged <$> of_source s w).

Record world_ok (w : World) : Prop := {
  world_sources : sources_ok (clock w) (sources w);
  world_stamps : Forall (λ g, g_stamp g ≤ g_charged g ≤ clock w) (granted w);
  world_debt s : live (clock w) (sources w) s = reverse (debt (clock w) w s);
}.

Lemma expire_filter l now : StronglySorted Z.le l → expire l now = within now l.
Proof.
  unfold within. intros Hs. induction Hs as [|t l Hs IH Ht]; simpl; [done|].
  unfold saturating_sub, WINDOW in *. rewrite filter_cons. case_bool_decide as Hb.
  - rewrite decide_False; [|lia]. by apply IH.
  - rewrite decide_True; [|lia]. f_equal. rewrite filter_all //.
    eapply Forall_impl; [exact Ht|simpl; lia].
Qed.

Lemma attempts_ok_later top top' l : attempts_ok top l → top ≤ top' → attempts_ok top' l.
Proof.
  intros (?&Hl&?) ?. split_and!; [done| |done]. eapply Forall_impl; [exact Hl|simpl; lia].
Qed.

Lemma expire_ok top now l : attempts_ok top l → attempts_ok top (expire l now).
Proof.
  intros (Hs & Hl & Hlen). rewrite expire_filter //. split_and!.
  - by apply StronglySorted_filter.
  - by apply Forall_filter_sub.
  - pose proof (length_filter (λ t, now - t < WINDOW) l). unfold within. lia.
Qed.

Lemma within_within now top l : now ≤ top → within top (within now l) = within top l.
Proof. intros Hle. apply list_filter_filter_l. intros. lia. Qed.
(** An expiry with a later stamp subsumes one with an earlier stamp. *)
Lemma expire_expire top now l :
  attempts_ok top l → now ≤ top → expire (expire l now) top = expire l top.
Proof.
  intros Hok Hle. destruct (expire_ok top now l Hok) as (Hs1 & _). destruct Hok as (Hs & _).
  by rewrite !(expire_filter _ top) // expire_filter // within_within.
Qed.

Lemma entry_attempts_ok top st s :
  sources_ok top st → attempts_ok top (default [] (entries st !! s)).
Proof.
  intros [_ _ Ha]. destruct (entries st !! s) as [l|] eqn:E; simpl; [by apply (Ha s l E)|].
  split_and!; [constructor..|]. unfold ATTEMPTS. simpl. lia.
Qed.

Lemma live_later now top st s :
  sources_ok top st → now ≤ top → live top st s = expire (live now st s) top.
Proof. intros Hok Hle. symmetry. apply expire_expire; [|done]. by apply entry_attempts_ok. Qed.

Lemma live_ok top now st s : sources_ok top st → attempts_ok top (live now st s).
Proof. intros. by apply expire_ok, entry_attempts_ok. Qed.

Lemma sources_ok_later top top' st : sources_ok top st → top ≤ top' → sources_ok top' st.
Proof.
  intros [? ? Ha] ?. split; [done..|]. intros s l E. by eapply attempts_ok_later; [apply (Ha s l E)|].
Qed.

Lemma sources_ok_update top st s l l' :
  sources_ok top st → entries st !! s = Some l → attempts_ok top l' →
  sources_ok top {| entries := <[s := l']> (entries st); sweep := sweep st |}.
Proof.
  intros [Hs Hz Ha] E Hl'. split; simpl.
  - by eapply queue_update.
  - rewrite map_size_insert_Some //.
  - by apply map_Forall_insert_2.
Qed.

Lemma live_insert top st s l q s' :
  live top {| entries := <[s := l]> (entries st); sweep := q |} s' =
  if decide (s = s') then expire l top else live top st s'.
Proof. unfold live; simpl. rewrite lookup_insert. by case_decide. Qed.

(** The scan forgets only attempts the window of its own stamp no longer
    counts: from that stamp on every source looks the same. *)
Definition same_debts (now top : Z) (st st' : Sources) : Prop :=
  ∀ t s, now ≤ t ≤ top → live t st' s = live t st s.
Lemma scan_spec top now n st :
  now ≤ top → sources_ok top st → (n ≤ length (sweep st))%nat →
  wp (scan now n) (λ _ st', sources_ok top st' ∧ same_debts now top st st') (λ _ _, False) st.
Proof.
  intros Hle. revert st. induction n as [|n IH]; intros st Hok Hn; simpl; [by apply wp_ret|].
  wp_pure. destruct (sweep st) as [|c rest] eqn:Hsw; simpl in *; [lia|].
  pose proof (sources_sweep _ _ Hok) as Hq. rewrite Hsw in Hq.
  destruct (queue_head _ _ _ Hq) as (l & E & Hnin & Hrest). wp_pure.
  pose proof (sources_attempts _ _ Hok c l E) as Hl. pose proof (expire_ok top now l Hl) as Hl'.
  assert (∀ t, now ≤ t ≤ top → expire (expire l now) t = live t st c) as Hlive.
  { intros t [Ht Ht']. unfold live. rewrite E /=. destruct Hl as (Hs & _), Hl' as (Hs' & _).
    by rewrite !(expire_filter _ t) // expire_filter // within_within. }
  case_bool_decide as Hnil; wp_pure.
  - eapply wp_mono; [| |apply IH]; simpl.
    + intros _ st' [? Hv]. split; [done|]. intros t s Ht. rewrite (Hv t s Ht).
      destruct (decide (s = c)) as [->|Hne]; [|unfold live; simpl; by rewrite lookup_delete_ne].
      rewrite -Hlive // Hnil. unfold live; simpl. by rewrite lookup_delete_eq.
    + done.
    + destruct Hok as [? Hz Ha]. split; simpl; [done| |by apply map_Forall_delete].
      rewrite map_size_delete_Some; [lia|by eauto].
    + lia.
  - eapply wp_mono; [| |apply IH]; simpl.
    + intros _ st' [? Hv]. split; [done|]. intros t s Ht. rewrite (Hv t s Ht) live_insert.
      case_decide; [subst; by apply Hlive|done].
    + done.
    + destruct (sources_ok_update top st c l (expire l now)) as [Hs ? ?]; [done..|].
      split; simpl; [|done..]. apply queue_rotate. simpl in Hs. by rewrite -Hs Hsw.
    + rewrite length_app /=. lia.
Qed.

(** What an attempt stamped [now] does: it is charged to its identity exactly
    when fewer than five live attempts are on record and the table has room, and
    no other debt changes. *)
Definition charged (top : Z) (st : Sources) (s : IpAddr) (now : Z) (_ : unit) (st' : Sources) : Prop :=
  sources_ok top st' ∧ Z.of_nat (length (live now st s)) < ATTEMPTS ∧
  ∃ t, newest s st' = Some t ∧ now ≤ t ≤ top ∧ (∀ x, x ∈ live now st s → x ≤ t) ∧ (t = now ∨ t ∈ live now st s) ∧
  ∀ s', live top st' s' = if decide (s = s') then live top st s ++ within top [t] else live top st s'.
Definition limited (top : Z) (st : Sources) (s : IpAddr) (now : Z) (_ : ApiError) (st' : Sources) : Prop :=
  sources_ok top st' ∧ (∀ s', live top st' s' = live top st s') ∧
  (Z.of_nat (length (live now st s)) = ATTEMPTS ∨
   entries st' !! s = None ∧ Z.of_nat (size (entries st')) = MAX_SOURCES).

Lemma last_max l now : StronglySorted Z.le l → ∀ x, x ∈ l → x ≤ match last l with Some t => Z.max t now | None => now end.
Proof.
  intros Hs x Hx. destruct (last l) as [t|] eqn:E; [|by apply last_None in E as ->; apply elem_of_nil in Hx].
  apply last_Some in E as [l' ->]. apply elem_of_app in Hx as [Hx|Hx%list_elem_of_singleton]; [|lia].
  rewrite StronglySorted_app in Hs. destruct Hs as (Hle & _). specialize (Hle x t Hx ltac:(by apply list_elem_of_singleton)). lia.
Qed.

Lemma attempts_ok_push top l t :
  attempts_ok top l → t ≤ top → (∀ x, x ∈ l → x ≤ t) → Z.of_nat (length l) ≠ ATTEMPTS → attempts_ok top (l ++ [t]).
Proof.
  intros (Hs & Hl & Hlen) Ht Hmax Hne. split_and!.
  - apply StronglySorted_app_2; [|done|by repeat constructor].
    intros x y Hx Hy. apply list_elem_of_singleton in Hy as ->. by apply Hmax.
  - apply Forall_app. split; [done|]. by constructor.
  - rewrite length_app /=. lia.
Qed.

Lemma charge_spec top now s st l :
  now ≤ top → sources_ok top st → entries st !! s = Some l →
  wp (charge s now) (charged top st s now) (λ _ st', sources_ok top st' ∧
    (∀ s', live top st' s' = live top st s') ∧ Z.of_nat (length (live now st s)) = ATTEMPTS) st.
Proof.
  intros Hle Hok E. unfold charge. wp_pure.
  assert (live now st s = expire l now ∧ live top st s = expire l top) as [Hnow Htop] by (unfold live; by rewrite E).
  pose proof (sources_attempts _ _ Hok s l E) as Hl.
  pose proof (expire_expire top now l Hl Hle) as Hidem.
  pose proof (expire_ok top now l Hl) as Hl'. case_bool_decide as Hfive; wp_pure.
  - split_and!; [by eapply sources_ok_update| |by rewrite Hnow].
    intros s'. rewrite live_insert. case_decide; [subst; by rewrite Hidem Htop|done].
  - set (t := match last _ with Some _ => _ | None => _ end). pose proof Hl' as (Hsort & Hall & Hlen).
    pose proof (last_max _ now Hsort) as Hmax. fold t in Hmax.
    assert (now ≤ t ≤ top ∧ (t = now ∨ t ∈ expire l now)) as [Ht Hone].
    { unfold t. destruct (last (expire l now)) as [x|] eqn:Hx; [|split; [lia|by left]].
      apply last_Some_elem_of in Hx. pose proof Hall as Hall'. rewrite ->Forall_forall in Hall'. specialize (Hall' x Hx). simpl in Hall'.
      split; [lia|]. destruct (decide (x ≤ now)); [left; lia|right]. by rewrite Z.max_l; [|lia]. }
    assert (attempts_ok top (expire l now ++ [t])) as Hp by (apply attempts_ok_push; [done|lia|done|done]).
    clearbody t. split_and!; [by eapply sources_ok_update|rewrite Hnow; lia|]. exists t. rewrite Hnow. split_and!; [|lia|lia|done|done|].
    + unfold newest; simpl. by rewrite lookup_insert_eq /= last_snoc.
    + intros s'. rewrite live_insert. case_decide; [|done]. subst s'. rewrite Htop -Hidem.
      rewrite !(expire_filter _ top); [|apply Hl'|apply Hp]. unfold within. by rewrite filter_app.
Qed.

Lemma attempt_spec top now peer st :
  now ≤ top → sources_ok top st →
  wp (attempt_at peer now) (charged top st (identity peer) now) (limited top st (identity peer) now) st.
Proof.
  intros Hle Hok. unfold attempt_at. generalize (identity peer) as s. intros s. wp_pure.
  eapply wp_mono; [| |apply (scan_spec top); [done|done|apply Nat.le_min_r]]; [|done].
  intros _ st1 [Hok1 Hv1].
  assert (∀ st2, sources_ok top st2 → is_Some (entries st2 !! s) → same_debts now top st st2 →
    wp (charge s now) (charged top st s now) (limited top st s now) st2) as Hcharge.
  { intros st2 Hok2 [l E] Hv2. assert (∀ s', live top st2 s' = live top st s') as Htop by (intros; apply Hv2; lia).
    assert (live now st2 s = live now st s) as Hnow by (apply Hv2; lia).
    eapply wp_mono; [| |by eapply (charge_spec top)].
    - intros [] st3 (?&?&t&?&?&?&?&Hv). split_and!; [done|by rewrite -Hnow|]. exists t. rewrite -Hnow. split_and!; try done; [lia|lia|].
      intros s'. by rewrite Hv !Htop.
    - intros [] st3 (?&Hv&?). split_and!; [done|by intros; rewrite Hv|left; by rewrite -Hnow]. }
  wp_pure. case_bool_decide as E.
  - case_bool_decide as Hfull; wp_pure; [split_and!; [done|by intros; apply Hv1; lia|by right]|].
    apply Hcharge; simpl; [|by rewrite lookup_insert_eq|].
    + destruct Hok1 as [? ? ?]. split; simpl; [by apply queue_push| |].
      * rewrite map_size_insert_None //. lia.
      * apply map_Forall_insert_2; [|done]. split_and!; [constructor..|]. unfold ATTEMPTS; simpl; lia.
    + intros t s' Ht. rewrite live_insert -(Hv1 t s' Ht). case_decide; [subst|done]. unfold live. by rewrite E.
  - wp_pure. apply Hcharge; [done|by apply not_eq_None_Some|done].
Qed.

Lemma auth_start_ok now : world_ok (start now).
Proof.
  split; simpl; [|constructor|].
  - split; simpl; [by rewrite dom_empty_L elements_empty|rewrite map_size_empty; unfold MAX_SOURCES; lia|done].
  - intros s. unfold live. by rewrite /= lookup_empty.
Qed.

Lemma debt_later w top s :
  world_ok w → clock w ≤ top → live top (sources w) s = reverse (debt top w s).
Proof.
  intros [Hok _ Hdebt] Hle. pose proof (sources_ok_later _ _ _ Hok Hle) as Hok'.
  rewrite (live_later (clock w)) // expire_filter; [|by apply (live_ok top)].
  rewrite Hdebt /debt /within filter_reverse. f_equal. by apply within_within.
Qed.

(** The attempts since are at most those the table charges. *)
Lemma recent_debt top w s :
  Forall (λ g, g_stamp g ≤ g_charged g ≤ clock w) (granted w) → (length (recent top w s) ≤ length (debt top w s))%nat.
Proof.
  intros Hw. unfold recent, debt, within, of_source. induction Hw as [|g l Hg _ IH]; [done|].
  rewrite filter_cons. case_decide; [|done]. rewrite !fmap_cons !filter_cons. repeat case_decide; simpl; lia.
Qed.

Lemma auth_step_ok w w' : world_ok w → step w w' → world_ok w'.
Proof.
  intros Hw Hstep.
  destruct Hstep as [w peer now st t Hr Hnew|w peer now st Hr]; set (top := Z.max (clock w) now);
    (assert (clock w ≤ top ∧ now ≤ top) as [Htop Hnow] by lia);
    pose proof (attempt_spec top now peer (sources w) Hnow
      (sources_ok_later _ _ _ (world_sources _ Hw) Htop)) as Hspec;
    unfold wp in Hspec; rewrite Hr in Hspec;
    (assert (Forall (λ g, g_stamp g ≤ g_charged g ≤ top) (granted w)) as Hall
      by (eapply Forall_impl; [apply (world_stamps _ Hw)|simpl; lia])).
  - destruct Hspec as (Hok & _ & t' & Ht' & Hrange & _ & _ & Hv). rewrite Hnew in Ht'. simplify_eq.
    split; simpl; [done|constructor; [simpl; lia|done]|]. intros s. rewrite Hv. unfold debt, of_source. cbn [granted].
    rewrite filter_cons. cbn [g_source]. case_decide as Hs; [|by rewrite (debt_later w top)]. subst s.
    rewrite fmap_cons (debt_later w top) //. unfold within. rewrite filter_cons filter_cons. cbn [g_charged].
    case_decide; [by rewrite reverse_cons|by rewrite app_nil_r].
  - destruct Hspec as (Hok & Hv & _). split; simpl; [done|done|]. intros s. by rewrite Hv (debt_later w top).
Qed.

Lemma auth_steps_ok t0 w : rtc step (start t0) w → world_ok w.
Proof.
  intros Hr. assert (world_ok (start t0)) as Hw by apply auth_start_ok. revert Hw.
  induction Hr as [w|w1 w2 w3 Hs _ IH]; [done|]. intros Hw. by apply IH, (auth_step_ok w1).
Qed.

(** C24. The attempt limit, with the stamps of the attempts in any order. In
    every world a run reaches, no identity (an IPv4 address, an IPv4-mapped
    address as its IPv4 address, or an IPv6 /64) was granted more than five
    attempts with stamps in the minute before the latest stamp, and the table
    holds at most 1024 identities. An attempt is charged under its own stamp or a
    later one of its identity, never one after the latest. And the limit refuses
    nobody else: the next attempt that reads the clock after all others does not
    panic, is granted only while fewer than five attempts are charged within its
    minute, and is refused only when exactly five are, or when its identity is not
    in a table of 1024. *)
Theorem attempt_window t0 w :
  rtc step (start t0) w →
  (∀ s, Z.of_nat (length (recent (clock w) w s)) ≤ ATTEMPTS) ∧ Z.of_nat (size (entries (sources w))) ≤ MAX_SOURCES ∧
  Forall (λ g, g_stamp g ≤ g_charged g ≤ clock w) (granted w) ∧
  ∀ peer now, clock w ≤ now →
    wp (attempt_at peer now) (λ _ _, Z.of_nat (length (debt now w (identity peer))) < ATTEMPTS)
      (λ _ st', Z.of_nat (length (debt now w (identity peer))) = ATTEMPTS ∨
        entries st' !! identity peer = None ∧ Z.of_nat (size (entries st')) = MAX_SOURCES) (sources w).
Proof.
  intros Hw%auth_steps_ok. split_and!; [|apply (world_sources _ Hw)|apply (world_stamps _ Hw)|].
  - intros s. pose proof (live_ok _ (clock w) _ s (world_sources _ Hw)) as (_ & _ & Hlen).
    rewrite (world_debt _ Hw) length_reverse in Hlen. pose proof (recent_debt (clock w) w s (world_stamps _ Hw)). lia.
  - intros peer now Hle. pose proof (debt_later w now (identity peer) Hw Hle) as Hd.
    eapply wp_mono; [| |apply (attempt_spec now); [lia|by eapply sources_ok_later, Hle; apply Hw]].
    + intros [] st (_ & Hlt & _). by rewrite Hd length_reverse in Hlt.
    + intros [] st (_ & _ & Hor). by rewrite Hd length_reverse in Hor.
Qed.

(** Budget::attempt_at on every branch: it never panics; it charges the
    peer's identity, and only it, when fewer than five live attempts are on
    record and the table has room for a new identity, and refuses otherwise
    without changing any live attempt. *)
Theorem attempt_charges top now peer st :
  now ≤ top → sources_ok top st →
  wp (attempt_at peer now) (charged top st (identity peer) now) (limited top st (identity peer) now) st.
Proof. apply attempt_spec. Qed.

(** ** Witnesses *)
Module AuthWitness.
Definition peer : IpAddr := V6 42540766411282592856903984951653826561.
Definition world1 : World :=
  {| sources := (attempt_at peer 3 (sources (start 0))).2; clock := 3;
     granted := [mkGrant (identity peer) 3 3] |}.
(** The second attempt read the clock before the first one, and is charged
    under the stamp of the first. *)
Definition world2 : World :=
  {| sources := (attempt_at peer 2 (sources world1)).2; clock := 3;
     granted := [mkGrant (identity peer) 2 3; mkGrant (identity peer) 3 3] |}.

Lemma auth_first_step : step (start 0) world1.
Proof.
  apply (step_attempt (start 0) peer 3 (attempt_at peer 3 (sources (start 0))).2 3).
  - rewrite (surjective_pairing (attempt_at peer 3 (sources (start 0)))). by f_equal.
  - by_compute.
Qed.
Lemma auth_second_step : step world1 world2.
Proof.
  apply (step_attempt world1 peer 2 (attempt_at peer 2 (sources world1)).2 3).
  - rewrite (surjective_pairing (attempt_at peer 2 (sources world1))). by f_equal.
  - by_compute.
Qed.

Lemma attempt_window_witness :
  Z.of_nat (length (recent (clock world2) world2 (identity peer))) ≤ ATTEMPTS ∧
  Z.of_nat (size (entries (sources world2))) ≤ MAX_SOURCES ∧ length (debt 4 world2 (identity peer)) = 2%nat.
Proof.
  destruct (attempt_window 0 world2) as (Hs & Hsize & _).
  - apply (rtc_l step _ world1 _ auth_first_step). apply rtc_once, auth_second_step.
  - split; [apply Hs|]. split; [exact Hsize|by_compute].
Defined.

Lemma attempt_charges_witness :
  wp (attempt_at peer 3) (charged 3 (sources (start 0)) (identity peer) 3)
    (limited 3 (sources (start 0)) (identity peer) 3) (sources (start 0)).
Proof. apply attempt_charges; [lia|]. apply (world_sources (start 3)), auth_start_ok. Defined.
End AuthWitness.
