(* ===== verification/Std.v ===== *)
(** * Byte slices, orderings and vectors of the Rust standard library

    Byte strings are lists of [Z] (0..255). This file holds the ordering of
    byte slices ([Ord for [u8]]) with the facts about prefixes the filter index
    depends on, [Ordering::then], the contracts of [sort_unstable_by] and
    [binary_search_by] (the standard library leaves the order of equal elements
    and the index found among equal elements open, so both are operations of an
    interface), vectors with a capacity, ASCII helpers and UTF-8 validity. *)
From S2P Require Import Prelude.
Set Default Goal Selector "!".
Set Warnings "-rewrite-rw".
Local Open Scope Z_scope.

(** ** Running code on a part of the state *)
Definition zoom {S T E A} (view : S → T) (set : T → S → S) (m : M T E A) : M S E A :=
  λ s, let '(r, t) := m (view s) in (r, set t s).

Lemma wp_zoom {S T E A} (view : S → T) (set : T → S → S) (m : M T E A) Q R s :
  wp m (λ a t, Q a (set t s)) (λ e t, R e (set t s)) (view s) → wp (zoom view set m) Q R s.
Proof. unfold wp, zoom. destruct (m (view s)) as [[] t]; done. Qed.
Arguments zoom : simpl never.

(** ** Orderings *)
Definition then_ (c d : comparison) : comparison := match c with Eq => d | _ => c end.

Fixpoint cmp_bytes (a b : list Z) : comparison :=
  match a, b with
  | [], [] => Eq
  | [], _ :: _ => Lt
  | _ :: _, [] => Gt
  | x :: a, y :: b => then_ (x ?= y) (cmp_bytes a b)
  end.

(** A comparator that is a total preorder, as [sort_unstable_by] requires. *)
Record total_cmp {A} (cmp : A → A → comparison) : Prop := {
  cmp_flip a b : cmp b a = CompOpp (cmp a b);
  cmp_trans a b c : cmp a b ≠ Gt → cmp b c ≠ Gt → cmp a c ≠ Gt;
}.
Arguments cmp_flip {A cmp} _ _ _.
Arguments cmp_trans {A cmp} _ _ _ _ _ _.

Lemma cmp_eq_l {A} (cmp : A → A → comparison) a b c :
  total_cmp cmp → cmp a b = Eq → cmp a c = cmp b c.
Proof.
  intros [Hf Ht] Hab. pose proof (Hf a b) as Hba. rewrite Hab in Hba. simpl in Hba.
  pose proof (Ht a b c) as H1. pose proof (Ht b a c) as H2.
  pose proof (Ht c a b) as H3. pose proof (Ht c b a) as H4.
  rewrite !(Hf _ c) in H3, H4. rewrite Hab in H1. rewrite Hba in H2. rewrite Hab in H3. rewrite Hba in H4.
  destruct (cmp a c) eqn:E1, (cmp b c) eqn:E2; rewrite ?E1 ?E2 /= in H1 H2 H3 H4; try done; exfalso; naive_solver.
Qed.

Lemma total_cmp_on {A B} (f : A → B) (cmp : B → B → comparison) :
  total_cmp cmp → total_cmp (λ a b, cmp (f a) (f b)).
Proof. intros [Hf Ht]. split; eauto. Qed.

Lemma total_cmp_then {A} (c1 c2 : A → A → comparison) :
  total_cmp c1 → total_cmp c2 → total_cmp (λ a b, then_ (c1 a b) (c2 a b)).
Proof.
  intros H1 H2. split.
  - intros a b. rewrite (cmp_flip H1) (cmp_flip H2). by destruct (c1 a b).
  - intros a b c Hab Hbc Hac.
    assert (c1 a b ≠ Gt) as Hab1 by (by destruct (c1 a b)).
    assert (c1 b c ≠ Gt) as Hbc1 by (by destruct (c1 b c)).
    pose proof (cmp_trans H1 _ _ _ Hab1 Hbc1) as Hac1.
    destruct (c1 a c) eqn:Eac; simpl in Hac; [|done..].
    destruct (c1 a b) eqn:Eab; [| |done]; simpl in Hab.
    + rewrite (cmp_eq_l c1 a b c) // in Eac. rewrite Eac in Hbc. simpl in Hbc.
      by apply (cmp_trans H2 _ _ _ Hab Hbc).
    + rewrite (cmp_eq_l c1 a c b) // (cmp_flip H1 b c) in Eab.
      by destruct (c1 b c).
Qed.

Lemma total_cmp_Z : total_cmp Z.compare.
Proof.
  split; [apply Z.compare_antisym|]. intros a b c ??. change (a ≤ c). trans b; done.
Qed.

Lemma cmp_bytes_eq a b : cmp_bytes a b = Eq ↔ a = b.
Proof.
  revert b; induction a as [|x a IH]; intros [|y b]; simpl; try done.
  destruct (Z.compare_spec x y); simpl; rewrite ?IH; naive_solver lia.
Qed.

Lemma cmp_bytes_refl a : cmp_bytes a a = Eq.
Proof. by apply cmp_bytes_eq. Qed.

Lemma total_cmp_bytes : total_cmp cmp_bytes.
Proof.
  split.
  - induction a as [|x a IH]; intros [|y b]; simpl; try done.
    rewrite Z.compare_antisym IH. by destruct (x ?= y).
  - induction a as [|x a IH]; intros [|y b] [|z c]; simpl; try done.
    destruct (Z.compare_spec x y), (Z.compare_spec y z), (Z.compare_spec x z);
      simpl; try done; subst; try lia. apply IH.
Qed.

(** The order [≤] of byte slices. *)
Definition ble (a b : list Z) : Prop := cmp_bytes a b ≠ Gt.

Lemma ble_refl a : ble a a.
Proof. unfold ble. by rewrite cmp_bytes_refl. Qed.
Lemma ble_trans a b c : ble a b → ble b c → ble a c.
Proof. apply (cmp_trans total_cmp_bytes). Qed.
Lemma ble_antisym a b : ble a b → ble b a → a = b.
Proof.
  unfold ble. rewrite (cmp_flip total_cmp_bytes a b). intros. apply cmp_bytes_eq.
  by destruct (cmp_bytes a b).
Qed.
Lemma ble_total a b : ble a b ∨ ble b a.
Proof.
  unfold ble. rewrite (cmp_flip total_cmp_bytes a b). destruct (cmp_bytes a b); naive_solver.
Qed.
Lemma ble_cons x y a b : ble (x :: a) (y :: b) ↔ x < y ∨ x = y ∧ ble a b.
Proof.
  unfold ble; simpl. destruct (Z.compare_spec x y); simpl; naive_solver lia.
Qed.
Lemma ble_app_inv p a b : ble (p ++ a) (p ++ b) ↔ ble a b.
Proof.
  induction p as [|x p IH]; simpl; [done|]. rewrite ble_cons IH. naive_solver lia.
Qed.

Lemma prefix_ble a b : a `prefix_of` b → ble a b.
Proof.
  intros [k ->]. induction a as [|x a IH]; simpl; [by destruct k|]. apply ble_cons. auto.
Qed.

(** Keys between a prefix and its extension share the prefix. *)
Lemma prefix_between p a b : p `prefix_of` b → ble p a → ble a b → p `prefix_of` a.
Proof.
  revert a b. induction p as [|x p IH]; intros a b Hp Hpa Hab; [apply prefix_nil|].
  destruct b as [|y b]; [by apply prefix_nil_not in Hp|].
  pose proof (prefix_cons_inv_1 _ _ _ _ Hp) as ->.
  apply prefix_cons_inv_2 in Hp. destruct a as [|z a]; [by destruct Hpa|].
  apply ble_cons in Hpa, Hab. assert (y = z) as -> by lia.
  apply prefix_cons, (IH a b); [done| |]; naive_solver lia.
Qed.

Lemma prefix_length_eq {A} (a b : list A) : a `prefix_of` b → length a = length b → a = b.
Proof.
  intros [k ->]. rewrite length_app. destruct k; simpl; [by rewrite app_nil_r|lia].
Qed.
Lemma prefix_shorter {A} (a b c : list A) :
  a `prefix_of` c → b `prefix_of` c → (length a ≤ length b)%nat → a `prefix_of` b.
Proof.
  intros Ha Hb Hle. destruct (prefix_weak_total a b c Ha Hb) as [|Hba]; [done|].
  by rewrite (prefix_length_eq _ _ Hba); [|apply prefix_length in Hba; lia].
Qed.

Lemma elem_of_snoc {A} (x y : A) l : x ∈ l ++ [y] ↔ x ∈ l ∨ x = y.
Proof. by rewrite elem_of_app list_elem_of_singleton. Qed.

(** ** Slices: sorting and searching *)
Definition corder (c : comparison) : Z := match c with Lt => 0 | Eq => 1 | Gt => 2 end.

Class SliceLib := {
  sort_unstable_by {A} : (A → A → comparison) → list A → list A;
  (** [Ok] and [Err] of the position are [inl] and [inr]. *)
  binary_search_by {A} : (A → comparison) → list A → nat + nat;
}.
Class SliceSpec (L : SliceLib) : Prop := {
  sort_perm {A} (cmp : A → A → comparison) l :
    total_cmp cmp → sort_unstable_by cmp l ≡ₚ l;
  sort_sorted {A} (cmp : A → A → comparison) l :
    total_cmp cmp → StronglySorted (λ a b, cmp a b ≠ Gt) (sort_unstable_by cmp l);
  search_found {A} (f : A → comparison) l i :
    StronglySorted (λ a b, corder (f a) ≤ corder (f b)) l →
    binary_search_by f l = inl i → ∃ x, l !! i = Some x ∧ f x = Eq;
  search_missing {A} (f : A → comparison) l i x :
    StronglySorted (λ a b, corder (f a) ≤ corder (f b)) l →
    binary_search_by f l = inr i → x ∈ l → f x ≠ Eq;
}.

(** An instance: insertion sort and a linear search. *)
Module ListSlice.
Fixpoint insert_by {A} (cmp : A → A → comparison) (x : A) (l : list A) : list A :=
  match l with
  | [] => [x]
  | y :: l => match cmp x y with Gt => y :: insert_by cmp x l | _ => x :: y :: l end
  end.
Fixpoint sort_by {A} (cmp : A → A → comparison) (l : list A) : list A :=
  match l with [] => [] | x :: l => insert_by cmp x (sort_by cmp l) end.
Fixpoint search_by {A} (f : A → comparison) (l : list A) : nat + nat :=
  match l with
  | [] => inr O
  | x :: l => match f x with
              | Eq => inl O
              | _ => match search_by f l with inl i => inl (S i) | inr i => inr (S i) end
              end
  end.
Definition lib : SliceLib := {| sort_unstable_by := @sort_by; binary_search_by := @search_by |}.

Lemma insert_perm {A} (cmp : A → A → comparison) x l : insert_by cmp x l ≡ₚ x :: l.
Proof.
  induction l as [|y l IH]; simpl; [done|]. destruct (cmp x y); [done..|]. rewrite IH. apply Permutation_swap.
Qed.
Lemma insert_sorted {A} (cmp : A → A → comparison) x l :
  total_cmp cmp → StronglySorted (λ a b, cmp a b ≠ Gt) l →
  StronglySorted (λ a b, cmp a b ≠ Gt) (insert_by cmp x l).
Proof.
  intros Hc. induction 1 as [|y l Hs IH Hy]; simpl; [repeat constructor|].
  assert (cmp x y ≠ Gt → StronglySorted (λ a b, cmp a b ≠ Gt) (x :: y :: l)) as Hfront.
  { intros Hxy. constructor; [by constructor|]. constructor; [done|].
    eapply Forall_impl; [done|]. intros z Hyz. by apply (cmp_trans Hc _ y). }
  destruct (cmp x y) eqn:E; [by apply Hfront..|]. constructor; [done|].
  rewrite Forall_forall. intros z. rewrite insert_perm elem_of_cons.
  intros [->|Hz]; [rewrite (cmp_flip Hc x y) E; done|]. by apply (proj1 (Forall_forall _ _) Hy).
Qed.

Lemma spec : SliceSpec lib.
Proof.
  split; intros A.
  - intros cmp l _. induction l as [|x l IH]; simpl; [done|]. rewrite insert_perm. by f_equiv.
  - intros cmp l Hc. induction l as [|x l IH]; simpl; [constructor|]. by apply insert_sorted.
  - intros f l i _. simpl. revert i. induction l as [|y l IH]; intros i; simpl; [done|].
    assert ((match search_by f l with inl i => inl (S i) | inr i => inr (S i) end) = inl i →
      ∃ x, (y :: l) !! i = Some x ∧ f x = Eq) as Hrec.
    { destruct (search_by f l) as [j|]; [|done]. intros [= <-]. by apply IH. }
    destruct (f y) eqn:E; [|done..]. intros [= <-]. by exists y.
  - intros f l i x _. simpl. revert i. induction l as [|y l IH]; intros i; simpl; [by rewrite elem_of_nil|].
    rewrite elem_of_cons.
    destruct (f y) eqn:E; [done|..]; (destruct (search_by f l) as [|j]; [done|]);
      intros _ [->|Hx]; rewrite ?E //; by apply (IH j).
Qed.
End ListSlice.

(** ** Vectors with a capacity *)
Record Vec (A : Type) : Type := mkVec { items : list A; capacity : Z }.
Arguments mkVec {A} _ _.
Arguments items {A} _.
Arguments capacity {A} _.
Definition vec_new {A} : Vec A := mkVec [] 0.
Definition vec_len {A} (v : Vec A) : Z := Z.of_nat (length (items v)).

(** ** ASCII *)
Definition to_ascii_lowercase (b : Z) : Z :=
  if bool_decide (65 ≤ b ≤ 90) then b + 32 else b.
Definition is_ascii_alphanumeric (b : Z) : bool :=
  bool_decide (65 ≤ b ≤ 90) || bool_decide (97 ≤ b ≤ 122) || bool_decide (48 ≤ b ≤ 57).
Definition is_ascii_whitespace (b : Z) : bool :=
  bool_decide (b = 32 ∨ b = 9 ∨ b = 10 ∨ b = 12 ∨ b = 13).

(** ** UTF-8 ([std::str::from_utf8]) *)
Definition continuation (b : Z) : bool := bool_decide (128 ≤ b ≤ 191).
Fixpoint utf8_valid (l : list Z) : bool :=
  match l with
  | [] => true
  | b0 :: l =>
      if bool_decide (0 ≤ b0 ≤ 127) then utf8_valid l
      else if bool_decide (194 ≤ b0 ≤ 223) then
        match l with b1 :: l => continuation b1 && utf8_valid l | _ => false end
      else if bool_decide (224 ≤ b0 ≤ 239) then
        match l with
        | b1 :: b2 :: l =>
            bool_decide ((if bool_decide (b0 = 224) then 160 else 128) ≤ b1 ≤
                         (if bool_decide (b0 = 237) then 159 else 191)) && continuation b2 && utf8_valid l
        | _ => false
        end
      else if bool_decide (240 ≤ b0 ≤ 244) then
        match l with
        | b1 :: b2 :: b3 :: l =>
            bool_decide ((if bool_decide (b0 = 240) then 144 else 128) ≤ b1 ≤
                         (if bool_decide (b0 = 244) then 143 else 191)) &&
            continuation b2 && continuation b3 && utf8_valid l
        | _ => false
        end
      else false
  end.

Lemma utf8_ascii l : Forall (λ b, 0 ≤ b ≤ 127) l → utf8_valid l = true.
Proof. induction 1 as [|b l Hb _ IH]; simpl; [done|]. by rewrite bool_decide_true. Qed.

(** ** Hashing *)
(** [sha2::Sha256] of a byte string (the concatenation of the updates). *)
Class Sha256Lib := { sha256 : list Z → list Z }.

(** [x.to_be_bytes()] of an [n]-byte integer. *)
Fixpoint be_bytes (n : nat) (x : Z) : list Z :=
  match n with
  | O => []
  | S n => (x / 256 ^ Z.of_nat n) mod 256 :: be_bytes n x
  end.
Lemma length_be_bytes n x : length (be_bytes n x) = n.
Proof. induction n as [|n IH]; simpl; [done|]. by rewrite IH. Qed.
Lemma be_bytes_inj n x y :
  0 ≤ x < 256 ^ Z.of_nat n → 0 ≤ y < 256 ^ Z.of_nat n → be_bytes n x = be_bytes n y → x = y.
Proof.
  assert (∀ n x y, be_bytes n x = be_bytes n y → x mod 256 ^ Z.of_nat n = y mod 256 ^ Z.of_nat n) as Hmod.
  { clear. induction n as [|n IH]; intros x y; [by rewrite !Z.mod_1_r|]. cbn [be_bytes]. intros [= Hh Ht%IH].
    rewrite Nat2Z.inj_succ Z.pow_succ_r; [|lia]. rewrite (Z.mul_comm 256).
    rewrite !Z.rem_mul_r; [|lia..]. by rewrite Hh Ht. }
  intros Hx Hy Heq%Hmod. by rewrite !Z.mod_small in Heq.
Qed.
