(* ===== verification/Names.v ===== *)
(** * Domain names

    The interface of [hickory_proto::rr::Name] that the rule keys, the index,
    the cache and the ECS code share. *)
From S2P Require Import Prelude.
Set Default Goal Selector "!".
Set Warnings "-rewrite-rw".

(** [hickory_proto::rr::Name]: a domain name gives its labels, leftmost first.
    The DNS limits hold for every value of the type: labels of 1 to 63 octets,
    at most 255 octets on the wire (each label with its length octet, and the
    root octet). *)
Class NameLib := {
  Name : Type;
  name_iter : Name → list (list Z);
}.
Definition wire_len (labels : list (list Z)) : nat :=
  sum_list_with (λ l, S (length l)) labels.
Class NameSpec (L : NameLib) : Prop := {
  name_label_len n l : l ∈ name_iter n → (1 ≤ length l ≤ 63)%nat;
  name_wire_len n : (wire_len (name_iter n) ≤ 254)%nat;
}.
