(* ===== verification/Canonical.v ===== *)
(** * Rule keys, the memory budget and the rule builder

    [src/policy/canonical.rs] up to [Builder::add_inner]: the memory budget and
    the charged growth of vectors, the encoding of domains as keys (reversed,
    length-prefixed, lower-cased labels), and the builder that appends rules to
    an arena. *)
From S2P Require Import Prelude Std Names.
Set Default Goal Selector "!".
Set Warnings "-rewrite-rw".
Local Open Scope Z_scope.
Local Open Scope rust_scope.

(** ** Third-party and host interfaces *)

Inductive ErrorKind : Type :=
  | InvalidDomain | InvalidSource | InvalidLimits | MemoryLimit | RuleLimit | Allocation
  | InputLimit | LineLimit | InvalidUtf8 | UnsupportedSyntax | HostsRewrite | EmptySource
  | Io | Cancelled.
Record Error : Type := mkError { line : Z; kind : ErrorKind }.
Definition error (k : ErrorKind) : Error := {| line := 0; kind := k |}.
#[export] Instance ErrorKind_eq_dec : EqDecision ErrorKind.
Proof. solve_decision. Defined.
#[export] Instance Error_eq_dec : EqDecision Error.
Proof. solve_decision. Defined.

(** What the process around a compilation decides, call by call: how much
    capacity an allocation request gets (at least what was asked for, or a
    failure), and whether the caller's check lets the work go on. The states
    below carry the number of such calls made so far. *)
Class Host := {
  try_reserve_exact : nat → Z → option Z;
  check_result : nat → option Error;
}.
Class HostSpec (H : Host) : Prop := {
  reserve_enough n want got : try_reserve_exact n want = Some got → want ≤ got;
}.

Section host.
Context {H : Host}.
Definition alloc {S} (want : Z) : M (S * nat) Error (option Z) :=
  λ '(s, n), (Ok (try_reserve_exact n want), (s, Datatypes.S n)).
Definition check {S} : M (S * nat) Error unit :=
  λ '(s, n), (match check_result n with None => Ok tt | Some e => Err e end, (s, Datatypes.S n)).
End host.

(** ** Data *)
Inductive Group : Type := AllowSuffix | AllowExact | BlockSuffix | BlockExact.
#[export] Instance Group_eq_dec : EqDecision Group.
Proof. solve_decision. Defined.
(** [group as u8] / [group as usize]. *)
Definition group_index (g : Group) : nat :=
  match g with AllowSuffix => 0 | AllowExact => 1 | BlockSuffix => 2 | BlockExact => 3 end.

Record Entry : Type := mkEntry { offset : Z; len : Z; source_slot : Z }.
Record Record_ : Type := mkRecord { entry : Entry; group : Group }.
Definition ENTRY_SIZE : Z := 8.
Definition RECORD_SIZE : Z := 16.
#[export] Instance Entry_eq_dec : EqDecision Entry.
Proof. solve_decision. Defined.
#[export] Instance Record_eq_dec : EqDecision Record_.
Proof. solve_decision. Defined.

Record Limits : Type := mkLimits {
  max_rules : Z;
  max_memory_bytes : Z;
  retained_bytes : Z;
}.
Definition default_limits : Limits :=
  {| max_rules := 1000000; max_memory_bytes := 128 * 1024 * 1024; retained_bytes := 0 |}.

(** ** The memory budget *)
Record Budget : Type := mkBudget { live : Z; peak : Z; limit : Z }.

Definition reserve (bytes : Z) : M (Budget * nat) Error unit :=
  let* (b, n) := get in
  let* next := ok_or (error MemoryLimit) (checked_add (live b) bytes) in
  if bool_decide (next > limit b) then fail (error MemoryLimit)
  else put ({| live := next; peak := Z.max (peak b) next; limit := limit b |}, n).

(** [self.live -= bytes], which must not underflow. *)
Definition release (bytes : Z) : M (Budget * nat) Error unit :=
  let* (b, n) := get in
  if bool_decide (bytes ≤ live b)
  then put ({| live := live b - bytes; peak := peak b; limit := limit b |}, n)
  else panic.

Definition is_err {S E A} (m : M S E A) : M S E bool := λ s,
  match m s with
  | (Ok _, s') => (Ok false, s')
  | (Err _, s') => (Ok true, s')
  | (Panic, s') => (Panic, s')
  | (Diverge, s') => (Diverge, s')
  end.

(** [grow] for elements of [size] bytes. *)
Definition grow {H : Host} {T} (size : Z) (buffer : Vec T) (needed : Z)
    : M (Budget * nat) Error (Vec T) :=
  if bool_decide (needed ≤ capacity buffer) then ret buffer else
  let* half := ok_or (error MemoryLimit) (checked_add (capacity buffer) (capacity buffer / 2)) in
  let target := Z.max needed half in
  let* bytes := ok_or (error MemoryLimit) (checked_mul target size) in
  reserve bytes ;;;
  let* next := alloc target in
  match next with
  | None => release bytes ;;; fail (error Allocation)
  | Some got =>
      let* actual := ok_or (error MemoryLimit) (checked_mul got size) in
      let* over := (if bool_decide (actual > bytes) then is_err (reserve (actual - bytes)) else ret false) in
      if (over : bool) then release bytes ;;; fail (error MemoryLimit)
      else
        let old := capacity buffer * size in
        release old ;;;
        ret {| items := items buffer; capacity := got |}
  end.

(** ** Keys *)

(** A key is the written part of its 255-byte buffer. *)
Definition KEY_BYTES : nat := 255.
Fixpoint key_write (bytes : list Z) : M (list Z) Error unit :=
  match bytes with
  | [] => ret tt
  | b :: bytes =>
      let* k := get in
      (if bool_decide (length k < KEY_BYTES)%nat then put (k ++ [b]) else panic) ;;;
      key_write bytes
  end.
Definition push (label : list Z) : M (list Z) Error unit :=
  key_write [as_u8 (Z.of_nat (length label))] ;;;
  key_write (to_ascii_lowercase <$> label).

Definition key_done (r : outcome Error unit * list Z) : outcome Error (list Z) :=
  match r with
  | (Ok _, k) => Ok k
  | (Err e, _) => Err e
  | (Panic, _) => Panic
  | (Diverge, _) => Diverge
  end.

Fixpoint push_labels (labels : list (list Z)) : M (list Z) Error unit :=
  match labels with
  | [] => ret tt
  | l :: labels => push l ;;; push_labels labels
  end.
Definition key_query `{NameLib} (name : Name) : outcome Error (list Z) :=
  key_done (push_labels (reverse (name_iter name)) []).

(** [text.split(c)]. *)
Fixpoint split_on (c : Z) (text : list Z) : list (list Z) :=
  match text with
  | [] => [[]]
  | x :: text =>
      if bool_decide (x = c) then [] :: split_on c text
      else match split_on c text with
           | w :: ws => (x :: w) :: ws
           | [] => [[x]]
           end
  end.
Definition DOT : Z := 46.
Definition strip_suffix_dot (text : list Z) : list Z :=
  if bool_decide (last text = Some DOT) then take (length text - 1) text else text.
Definition label_byte (b : Z) : bool :=
  is_ascii_alphanumeric b || bool_decide (b = 45) || bool_decide (b = 95).

Fixpoint rule_labels (labels : list (list Z)) : M (list Z) Error unit :=
  match labels with
  | [] => ret tt
  | l :: labels =>
      if bool_decide (l = []) || bool_decide (63 < length l)%nat || negb (forallb label_byte l)
      then fail (error InvalidDomain)
      else push l ;;; rule_labels labels
  end.
Definition key_rule (text : list Z) : outcome Error (list Z) :=
  let text := strip_suffix_dot text in
  if bool_decide (text = []) || bool_decide (253 < length text)%nat then Err (error InvalidDomain)
  else key_done (rule_labels (reverse (split_on DOT text)) []).

(** The slice [arena[offset .. offset + len]]; [None] is an index out of range. *)
Definition key (arena : list Z) (e : Entry) : option (list Z) :=
  if bool_decide (0 ≤ offset e ∧ 0 ≤ len e ∧ offset e + len e ≤ Z.of_nat (length arena))
  then Some (take (Z.to_nat (len e)) (drop (Z.to_nat (offset e)) arena))
  else None.

(** ** The builder *)
Record Builder : Type := mkBuilder {
  arena : Vec Z;
  records : Vec Record_;
  budget : Budget;
  local_slots : Z;
  classes : list Z;
  b_max_rules : Z;
  decoded_bytes : Z;
  failed : option Error;
}.
Definition with_arena (f : Vec Z → Vec Z) (b : Builder) : Builder :=
  mkBuilder (f (arena b)) (records b) (budget b) (local_slots b) (classes b) (b_max_rules b)
    (decoded_bytes b) (failed b).
Definition with_records (f : Vec Record_ → Vec Record_) (b : Builder) : Builder :=
  mkBuilder (arena b) (f (records b)) (budget b) (local_slots b) (classes b) (b_max_rules b)
    (decoded_bytes b) (failed b).
Definition with_budget (f : Budget → Budget) (b : Builder) : Builder :=
  mkBuilder (arena b) (records b) (f (budget b)) (local_slots b) (classes b) (b_max_rules b)
    (decoded_bytes b) (failed b).
Definition with_decoded (n : Z) (b : Builder) : Builder :=
  mkBuilder (arena b) (records b) (budget b) (local_slots b) (classes b) (b_max_rules b)
    n (failed b).
Definition with_failed (e : option Error) (b : Builder) : Builder :=
  mkBuilder (arena b) (records b) (budget b) (local_slots b) (classes b) (b_max_rules b)
    (decoded_bytes b) e.

(** Builder methods: the builder and the number of host calls so far. *)
Definition B (A : Type) : Type := M (Builder * nat) Error A.
Definition get_b : B Builder := let* s := get in ret s.1.
Definition modify_b (f : Builder → Builder) : B unit := let* s := get in put (f s.1, s.2).
Definition on_budget {A} (m : M (Budget * nat) Error A) : B A :=
  zoom (λ s, (budget s.1, s.2)) (λ t s, (with_budget (λ _, t.1) s.1, t.2)) m.

(** A method on a builder that refuses once poisoned. *)
Definition unpoisoned {A} (m : B A) : B A :=
  let* b := get_b in
  match failed b with Some e => fail e | None => m end.
(** Remembers the error of [m]. *)
Definition poisoning {A} (m : B A) : B A := λ s,
  match m s with
  | (Err e, s') => (Err e, (with_failed (Some e) s'.1, s'.2))
  | r => r
  end.

Definition MAX_AGGREGATE : Z := 32 * 1024 * 1024.
Definition account_local_text (bytes : Z) : B unit :=
  unpoisoned (
    let* b := get_b in
    match checked_add (decoded_bytes b) bytes with
    | Some total =>
        if bool_decide (total ≤ MAX_AGGREGATE) then modify_b (with_decoded total)
        else modify_b (with_failed (Some (error InputLimit))) ;;; fail (error InputLimit)
    | None => modify_b (with_failed (Some (error InputLimit))) ;;; fail (error InputLimit)
    end).

Definition new_builder (l : Limits) : outcome Error Builder :=
  if bool_decide (max_rules l = 0) || bool_decide (max_rules l > 5000000) ||
     bool_decide (max_memory_bytes l = 0) || bool_decide (max_memory_bytes l > 512 * 1024 * 1024)
  then Err (error InvalidLimits)
  else match reserve (retained_bytes l) ({| live := 0; peak := 0; limit := max_memory_bytes l |}, 0%nat) with
       | (Ok _, (bu, _)) => Ok {| arena := vec_new; records := vec_new; budget := bu; local_slots := 1;
             classes := []; b_max_rules := max_rules l; decoded_bytes := 0; failed := None |}
       | (Err e, _) => Err e
       | (Panic, _) => Panic
       | (Diverge, _) => Diverge
       end.
Definition set_classes (c : list Z) (b : Builder) : Builder :=
  mkBuilder (arena b) (records b) (budget b) (local_slots b) c (b_max_rules b) (decoded_bytes b) (failed b).

Section add.
Context {H : Host}.

Definition add_inner (domain : list Z) (g : Group) (slot : Z) : B unit :=
  if bool_decide (slot = u16_max) then fail (error InvalidSource) else
  let* encoded := lift (key_rule domain) in
  let* b := get_b in
  if bool_decide (b_max_rules b ≤ vec_len (records b)) then fail (error RuleLimit) else
  let* end_ := ok_or (error MemoryLimit)
    (match checked_add (vec_len (arena b)) (Z.of_nat (length encoded)) with
     | Some n => if bool_decide (n ≤ u32_max) then Some n else None
     | None => None
     end) in
  let* a := on_budget (grow 1 (arena b) end_) in
  modify_b (with_arena (λ _, a)) ;;;
  let* b := get_b in
  let* r := on_budget (grow RECORD_SIZE (records b) (vec_len (records b) + 1)) in
  modify_b (with_records (λ _, r)) ;;;
  let* b := get_b in
  let e := {| offset := as_u32 (vec_len (arena b)); len := as_u16 (Z.of_nat (length encoded));
              source_slot := slot |} in
  modify_b (with_arena (λ v, {| items := items v ++ encoded; capacity := capacity v |})) ;;;
  modify_b (with_records (λ v, {| items := items v ++ [{| entry := e; group := g |}];
                                  capacity := capacity v |})).

Definition add (domain : list Z) (g : Group) (slot : Z) : B unit :=
  unpoisoned (poisoning (add_inner domain g slot)).
End add.

(** ** The budget never exceeds its limit *)
Record budget_ok (b : Budget) : Prop := {
  budget_live : 0 ≤ live b ≤ peak b;
  budget_peak : peak b ≤ limit b;
  budget_limit : limit b ≤ 512 * 1024 * 1024;
}.
Record vec_ok {T} (v : Vec T) : Prop := {
  vec_fits : vec_len v ≤ capacity v;
}.
Lemma vec_cap_nonneg {T} (v : Vec T) : vec_ok v → 0 ≤ capacity v.
Proof. intros [Hv]. unfold vec_len in Hv. lia. Qed.

Lemma wp_is_err {S E A} (m : M S E A) (Q : bool → S → Prop) (R : E → S → Prop) s :
  wp m (λ _, Q false) (λ _, Q true) s → wp (is_err m) Q R s.
Proof. unfold wp, is_err. by destruct (m s) as [[] ?]. Qed.
Arguments is_err : simpl never.

Lemma reserve_wp bytes b n (Q : unit → Budget * nat → Prop) (R : Error → Budget * nat → Prop) :
  budget_ok b → 0 ≤ bytes →
  (∀ b', budget_ok b' → live b' = live b + bytes → limit b' = limit b → peak b ≤ peak b' →
    Q tt (b', n)) →
  R (error MemoryLimit) (b, n) → wp (reserve bytes) Q R (b, n).
Proof.
  intros [Hl Hp Hm] Hb HQ HR. unfold reserve. wp_pure. apply wp_ok_or; [|done].
  intros next Hn. unfold checked_add in Hn. case_decide; simplify_eq.
  case_bool_decide; wp_pure; [done|]. apply HQ; [split|..]; simpl; lia.
Qed.

Lemma release_wp bytes b n (Q : unit → Budget * nat → Prop) (R : Error → Budget * nat → Prop) :
  budget_ok b → 0 ≤ bytes ≤ live b →
  (∀ b', budget_ok b' → live b' = live b - bytes → limit b' = limit b → peak b ≤ peak b' →
    Q tt (b', n)) →
  wp (release bytes) Q R (b, n).
Proof.
  intros [Hl Hp Hm] Hb HQ. unfold release. wp_pure. rewrite bool_decide_true; [|lia].
  wp_pure. apply HQ; [split|..]; simpl; lia.
Qed.

Section grow.
Context {H : Host} `{!HostSpec H}.

Lemma wp_alloc {S} want (s : S) n (Q : option Z → S * nat → Prop) R :
  (∀ got, want ≤ got → Q (Some got) (s, Datatypes.S n)) → Q None (s, Datatypes.S n) →
  wp (alloc want) Q R (s, n).
Proof.
  unfold wp, alloc. destruct (try_reserve_exact n want) as [got|] eqn:E; [|done].
  intros HQ _. by apply HQ, (reserve_enough n).
Qed.

(** An error the caller's check gave. *)
Definition cancelled (e : Error) : Prop := ∃ n, check_result n = Some e.
Lemma wp_check {S} (s : S) n (Q : unit → S * nat → Prop) R :
  Q tt (s, Datatypes.S n) → (∀ e, cancelled e → R e (s, Datatypes.S n)) → wp check Q R (s, n).
Proof. unfold wp, check, cancelled. destruct (check_result n) eqn:E; eauto. Qed.

(** Growing charges the new capacity before it is allocated and gives back the
    old one: the live bytes follow the capacities exactly. *)
Record grown {T} (size : Z) (v : Vec T) (needed : Z) (b : Budget) (v' : Vec T) (b' : Budget) : Prop := {
  grown_items : items v' = items v;
  grown_capacity : needed ≤ capacity v' ∧ capacity v ≤ capacity v';
  grown_live : live b' = live b + (capacity v' - capacity v) * size;
  grown_budget : budget_ok b' ∧ limit b' = limit b ∧ peak b ≤ peak b';
}.

(** The errors of memory accounting. *)
Definition memory_error (e : Error) : Prop := e = error MemoryLimit ∨ e = error Allocation.
Lemma grow_wp {T} size (v : Vec T) needed b n (Q : Vec T → Budget * nat → Prop) R :
  0 < size → vec_ok v → budget_ok b → capacity v * size ≤ live b →
  (∀ v' b' n', grown size v needed b v' b' → Q v' (b', n')) →
  (∀ e b' n', memory_error e → budget_ok b' → limit b' = limit b → live b ≤ live b' → R e (b', n')) →
  wp (grow size v needed) Q R (b, n).
Proof.
  intros Hsize Hv Hb Hcap HQ HR. pose proof (vec_cap_nonneg _ Hv) as Hc0. unfold grow.
  case_bool_decide as Hn; wp_pure.
  { apply HQ. split; [done|lia|lia|]. split_and!; [done..|lia]. }
  apply wp_ok_or; [|intros; apply HR; [unfold memory_error; auto|done|congruence|lia]]. intros half Hhalf. unfold checked_add in Hhalf. case_decide; simplify_eq.
  pose proof (Z.div_pos (capacity v) 2 Hc0 ltac:(lia)) as Hd.
  wp_pure. apply wp_ok_or; [|intros; apply HR; [unfold memory_error; auto|done|congruence|lia]]. intros bytes Hbytes. unfold checked_mul in Hbytes.
  case_decide as Hm; simplify_eq. wp_pure.
  set (target := Z.max needed (capacity v + capacity v / 2)) in *.
  assert (0 ≤ target) by lia. assert (0 ≤ target * size) by nia.
  apply reserve_wp; [done|done| |intros; apply HR; [unfold memory_error; auto|done|congruence|lia]]. intros b1 Hb1 Hl1 Hlim1 Hp1.
  wp_pure. apply wp_alloc; [|wp_pure; apply release_wp; [done|pose proof (budget_live _ Hb); lia|];
                   intros; wp_pure; apply HR; [unfold memory_error; auto|done|congruence|lia]].
  intros got Hgot. wp_pure. apply wp_ok_or; [|intros; apply HR; [unfold memory_error; auto|done|congruence|lia]].
  intros actual Ha. unfold checked_mul in Ha. case_decide; simplify_eq. wp_pure.
  assert (target * size ≤ got * size) by nia.
  assert (∀ b2 n2, budget_ok b2 → live b2 = live b + got * size → limit b2 = limit b → peak b ≤ peak b2 →
    wp (release (capacity v * size) ;;; ret {| items := items v; capacity := got |}) Q R (b2, n2)) as Hend.
  { intros b2 n2 Hb2 Hl2 Hlim2 Hp2. wp_pure. apply release_wp; [done|nia|].
    intros b3 Hb3 Hl3 Hlim3 Hp3. wp_pure. apply HQ. split; simpl; [done|lia|lia|].
    split_and!; [done|lia..]. }
  case_bool_decide.
  - apply wp_is_err, reserve_wp; [done|lia| |].
    + intros b2 Hb2 Hl2 Hlim2 Hp2. apply Hend; [done|lia..].
    + wp_pure. apply release_wp; [done|pose proof (budget_live _ Hb); lia|]. intros; wp_pure; apply HR; [unfold memory_error; auto|done|congruence|lia].
  - apply wp_ret, Hend; [done|lia..].
Qed.
End grow.
Arguments grow : simpl never.
Arguments reserve : simpl never.
Arguments release : simpl never.

(** ** Keys as encoded labels *)
Fixpoint encode (labels : list (list Z)) : list Z :=
  match labels with
  | [] => []
  | l :: labels => Z.of_nat (length l) :: l ++ encode labels
  end.
Definition lower (l : list Z) : list Z := to_ascii_lowercase <$> l.

(** Labels of a rule key. *)
Definition rule_label (l : list Z) : Prop :=
  (1 ≤ length l ≤ 63)%nat ∧ Forall (λ b, label_byte b ∧ to_ascii_lowercase b = b) l.
Definition label_len (l : list Z) : Prop := (1 ≤ length l ≤ 63)%nat.
Definition wf_key (k : list Z) : Prop :=
  ∃ ls, k = encode ls ∧ ls ≠ [] ∧ Forall rule_label ls ∧ (length k ≤ 254)%nat.

Lemma encode_app l1 l2 : encode (l1 ++ l2) = encode l1 ++ encode l2.
Proof. induction l1 as [|l l1 IH]; simpl; [done|]. by rewrite IH app_assoc. Qed.
Lemma length_encode ls : length (encode ls) = wire_len ls.
Proof. unfold wire_len. induction ls as [|l ls IH]; simpl; [done|]. rewrite length_app IH. lia. Qed.
Lemma wire_len_perm l1 l2 : l1 ≡ₚ l2 → wire_len l1 = wire_len l2.
Proof. unfold wire_len. induction 1; simpl; lia. Qed.
Lemma wire_len_app l1 l2 : wire_len (l1 ++ l2) = (wire_len l1 + wire_len l2)%nat.
Proof. unfold wire_len. induction l1; simpl; lia. Qed.
Lemma wire_len_lower ls : wire_len (lower <$> ls) = wire_len ls.
Proof. unfold wire_len. induction ls as [|l ls IH]; simpl; [done|]. by rewrite IH /lower length_fmap. Qed.

(** The length octets make label boundaries unambiguous: a byte prefix is a
    label prefix. *)
Lemma encode_prefix ls1 ls2 : encode ls1 `prefix_of` encode ls2 ↔ ls1 `prefix_of` ls2.
Proof.
  split; [|intros [k ->]; rewrite encode_app; by apply prefix_app_r].
  revert ls2. induction ls1 as [|l1 ls1 IH]; intros [|l2 ls2] Hp; simpl in *;
    [apply prefix_nil|apply prefix_nil|by apply prefix_nil_not in Hp|].
  pose proof (prefix_cons_inv_1 _ _ _ _ Hp) as Hlen. apply prefix_cons_inv_2 in Hp.
  destruct Hp as [k Hk]. rewrite -app_assoc in Hk. symmetry in Hk.
  apply app_inj_1 in Hk as [-> Hk]; [|lia]. apply prefix_cons, IH. by exists k.
Qed.
Lemma encode_inj ls1 ls2 : encode ls1 = encode ls2 → ls1 = ls2.
Proof.
  intros He. apply (anti_symm prefix); apply encode_prefix; by rewrite He.
Qed.

(** Nested keys differ by at least one label, so by at least two bytes. *)
Lemma wf_key_prefix k1 k2 :
  wf_key k1 → wf_key k2 → k1 `prefix_of` k2 → k1 ≠ k2 → (length k1 + 2 ≤ length k2)%nat.
Proof.
  intros (l1&->&_&_&_) (l2&->&_&Hl&_) Hp%encode_prefix Hne. destruct Hp as [k ->].
  rewrite encode_app length_app !length_encode. destruct k as [|l k]; [by rewrite app_nil_r in Hne|].
  apply Forall_app in Hl as [_ [[Hl _] _]%Forall_cons]. unfold wire_len; simpl. lia.
Qed.
Lemma wf_key_len k : wf_key k → (2 ≤ length k ≤ 254)%nat.
Proof.
  intros (ls&->&Hne&Hl&Hle). destruct ls as [|l ls]; [done|].
  apply Forall_cons in Hl as [[Hl _] _]. rewrite length_encode in Hle |- *.
  unfold wire_len in *. simpl in *. lia.
Qed.

Lemma key_write_wp bs k (Q : unit → list Z → Prop) R :
  (length k + length bs ≤ KEY_BYTES)%nat → Q tt (k ++ bs) → wp (key_write bs) Q R k.
Proof.
  revert k. induction bs as [|b bs IH]; intros k Hlen HQ; simpl in *; wp_pure.
  { by rewrite app_nil_r in HQ. }
  rewrite bool_decide_true; [|lia]. wp_pure. apply IH.
  - rewrite length_app /=. lia.
  - by rewrite -app_assoc.
Qed.
Lemma push_wp l k (Q : unit → list Z → Prop) R :
  (length l ≤ 63)%nat → (length k + S (length l) ≤ KEY_BYTES)%nat → Q tt (k ++ encode [lower l]) →
  wp (push l) Q R k.
Proof.
  intros Hl Hk HQ. unfold push. wp_pure. apply key_write_wp; [simpl; lia|].
  apply key_write_wp; [rewrite length_app length_fmap /=; lia|].
  rewrite as_u8_small; [|lia]. rewrite /= app_nil_r length_fmap in HQ. by rewrite -app_assoc.
Qed.
Arguments push : simpl never.
Arguments key_write : simpl never.

Lemma push_labels_wp ls k (Q : unit → list Z → Prop) R :
  Forall (λ l, (length l ≤ 63)%nat) ls → (length k + wire_len ls ≤ KEY_BYTES)%nat →
  Q tt (k ++ encode (lower <$> ls)) → wp (push_labels ls) Q R k.
Proof.
  revert k. unfold wire_len. induction ls as [|l ls IH]; intros k Hl Hk HQ; simpl in *; wp_pure.
  { by rewrite app_nil_r in HQ. }
  apply Forall_cons in Hl as [Hl Hls]. apply push_wp; [done|lia|].
  apply IH; [done| |].
  - rewrite length_app /= length_app /lower length_fmap /=. lia.
  - rewrite -app_assoc -encode_app. done.
Qed.

Lemma key_done_wp (m : M (list Z) Error unit) Q k r :
  wp m (λ _ k', k' = r) Q k → key_done (m k) = Ok r ∨ ∃ e k', Q e k' ∧ key_done (m k) = Err e.
Proof. unfold wp, key_done. destruct (m k) as [[] k']; naive_solver. Qed.

(** [Key::query]: the encoding of the lower-cased labels, root side first; the
    buffer never overflows. *)
Definition query_key `{NameLib} (n : Name) : list Z := encode (lower <$> reverse (name_iter n)).
Lemma key_query_ok `{!NameLib, !NameSpec _} n : key_query n = Ok (query_key n).
Proof.
  unfold key_query. destruct (key_done_wp (push_labels (reverse (name_iter n))) (λ _ _, False) []
    (query_key n)) as [?|(?&?&[]&_)]; [|done].
  apply push_labels_wp; [|simpl|done].
  - apply Forall_forall. intros l. rewrite elem_of_reverse. intros ?%name_label_len. lia.
  - rewrite (wire_len_perm _ (name_iter n)); [|by rewrite reverse_Permutation].
    pose proof (name_wire_len n). unfold KEY_BYTES. lia.
Qed.

(** [Key::rule]: the labels a domain text names, or none when it is not a
    domain. *)
Definition valid_label (l : list Z) : Prop := (1 ≤ length l ≤ 63)%nat ∧ forallb label_byte l.
#[export] Instance valid_label_dec l : Decision (valid_label l).
Proof. unfold valid_label. apply _. Defined.
Definition domain_labels (text : list Z) : option (list (list Z)) :=
  let text := strip_suffix_dot text in
  let ls := reverse (split_on DOT text) in
  if bool_decide ((length text ≤ 253)%nat ∧ Forall valid_label ls) then Some (lower <$> ls) else None.

Lemma split_on_ne c t : split_on c t ≠ [].
Proof. destruct t; simpl; [done|]. case_bool_decide; [done|]. by destruct (split_on c t). Qed.
Lemma wire_len_split c t : wire_len (split_on c t) = S (length t).
Proof.
  unfold wire_len. induction t as [|x t IH]; simpl; [done|]. case_bool_decide; simpl; [lia|].
  destruct (split_on c t) as [|w ws] eqn:E; [by apply split_on_ne in E|]. simpl in *. lia.
Qed.
Lemma wire_len_domain t : wire_len (reverse (split_on DOT t)) = S (length t).
Proof. rewrite (wire_len_perm _ (split_on DOT t)) ?reverse_Permutation //. apply wire_len_split. Qed.

Lemma label_byte_lower b : label_byte b → label_byte (to_ascii_lowercase b) ∧
  to_ascii_lowercase (to_ascii_lowercase b) = to_ascii_lowercase b.
Proof.
  unfold label_byte, is_ascii_alphanumeric, to_ascii_lowercase.
  repeat (case_bool_decide; simpl; try done; try lia).
Qed.
Lemma valid_label_lower l : valid_label l → rule_label (lower l).
Proof.
  intros [Hlen Hl]. split; [by rewrite /lower length_fmap|]. apply Forall_fmap, Forall_forall.
  intros b Hb. apply label_byte_lower. apply forallb_True in Hl. by apply (proj1 (Forall_forall _ _) Hl).
Qed.

Lemma rule_labels_wp ls k :
  (length k + wire_len ls ≤ KEY_BYTES)%nat →
  wp (rule_labels ls) (λ _ k', Forall valid_label ls ∧ k' = k ++ encode (lower <$> ls))
    (λ e _, e = error InvalidDomain ∧ ¬ Forall valid_label ls) k.
Proof.
  revert k. induction ls as [|l ls IH]; intros k Hk; simpl; wp_pure.
  { by rewrite app_nil_r. }
  unfold wire_len in *. simpl in Hk.
  destruct (bool_decide (l = []) || bool_decide (63 < length l)%nat || negb (forallb label_byte l)) eqn:E.
  - wp_pure. split; [done|]. intros [[? Hl] _]%Forall_cons. revert E.
    rewrite (Is_true_true_1 _ Hl) !orb_true_iff !bool_decide_eq_true. intros [[->|?]|?]; simpl in *; [lia|lia|done].
  - rewrite !orb_false_iff !bool_decide_eq_false negb_false_iff in E. destruct E as [[Hne Hle] Hl].
    assert (valid_label l) as Hv.
    { split; [destruct l; simpl in *; [done|lia]|]. by apply Is_true_true. }
    wp_pure. apply push_wp; [lia|lia|]. eapply wp_mono; [| |apply IH].
    + intros [] k' [Hls ->]. split; [by constructor|]. by rewrite -app_assoc -encode_app.
    + intros e k' [-> Hn]. split; [done|]. by intros [_ ?]%Forall_cons.
    + rewrite length_app /= length_app /lower length_fmap /=. lia.
Qed.

Lemma key_rule_ok text :
  key_rule text = match domain_labels text with
                  | Some ls => Ok (encode ls)
                  | None => Err (error InvalidDomain)
                  end.
Proof.
  unfold key_rule, domain_labels. generalize (strip_suffix_dot text). clear text. intros t.
  destruct (bool_decide (t = []) || bool_decide (253 < length t)%nat) eqn:E.
  { rewrite bool_decide_false //. intros [Hle Hl].
    rewrite orb_true_iff !bool_decide_eq_true in E. destruct E as [->|?]; [|lia].
    apply Forall_singleton in Hl as [Hl _]. simpl in Hl. lia. }
  rewrite orb_false_iff !bool_decide_eq_false in E. destruct E as [_ Hle].
  pose proof (rule_labels_wp (reverse (split_on DOT t)) []) as Hwp. unfold wp in Hwp.
  rewrite wire_len_domain in Hwp. specialize (Hwp ltac:(unfold KEY_BYTES; simpl; lia)).
  unfold key_done. destruct (rule_labels _ []) as [[]]; [| |done..].
  - destruct Hwp as [? ->]. rewrite bool_decide_true //. split; [lia|done].
  - destruct Hwp as [-> ?]. rewrite bool_decide_false //. naive_solver.
Qed.

Lemma domain_labels_ok text ls :
  domain_labels text = Some ls → ls ≠ [] ∧ Forall rule_label ls ∧ (wire_len ls ≤ 254)%nat.
Proof.
  unfold domain_labels. case_bool_decide as Hd; intros [= <-]. destruct Hd as [Hlen Hls]. split_and!.
  - intros Hr%fmap_nil_inv. apply (f_equal length) in Hr. rewrite length_reverse in Hr.
    apply nil_length_inv in Hr. by apply split_on_ne in Hr.
  - apply Forall_fmap. eapply Forall_impl; [done|]. apply valid_label_lower.
  - rewrite wire_len_lower wire_len_domain. lia.
Qed.
Lemma domain_wf text ls : domain_labels text = Some ls → wf_key (encode ls).
Proof.
  intros (?&?&?)%domain_labels_ok. exists ls. by rewrite length_encode.
Qed.

(** ** The builder's rules and invariant *)

(** A rule as the compiler sees it: group, key and source slot. *)
Record Rule : Type := mkRule { r_group : Group; r_key : list Z; r_slot : Z }.
Definition key_of (arena : list Z) (r : Record_) : list Z := default [] (key arena (entry r)).
Definition rule_of (arena : list Z) (r : Record_) : Rule :=
  {| r_group := group r; r_key := key_of arena r; r_slot := source_slot (entry r) |}.
Definition record_ok (arena : list Z) (r : Record_) : Prop :=
  key arena (entry r) = Some (key_of arena r) ∧ wf_key (key_of arena r) ∧
  0 ≤ source_slot (entry r) < u16_max.
Definition rules (b : Builder) : list Rule := rule_of (items (arena b)) <$> items (records b).

Record builder_ok (retained : Z) (b : Builder) : Prop := {
  ok_arena : vec_ok (arena b);
  ok_records : vec_ok (records b);
  ok_budget : budget_ok (budget b);
  ok_retained : 0 ≤ retained ≤ live (budget b);
  ok_charged : failed b = None →
    live (budget b) = retained + capacity (arena b) + RECORD_SIZE * capacity (records b);
  ok_rules : Forall (record_ok (items (arena b))) (items (records b));
  ok_count : vec_len (records b) ≤ b_max_rules b;
}.

Lemma key_app arena more e k : key arena e = Some k → key (arena ++ more) e = Some k.
Proof.
  unfold key. case_bool_decide as Hd; intros [= <-]. rewrite bool_decide_true; [|rewrite length_app; lia].
  f_equal. rewrite drop_app_le; [|lia]. rewrite take_app_le //. rewrite length_drop. lia.
Qed.
Lemma key_of_app arena more r :
  record_ok arena r → key_of (arena ++ more) r = key_of arena r.
Proof. intros [Hk _]. unfold key_of at 1. by rewrite (key_app _ _ _ _ Hk). Qed.
Lemma record_ok_app arena more r : record_ok arena r → record_ok (arena ++ more) r.
Proof.
  intros Hr. pose proof Hr as (Hk & Hwf & Hs). unfold record_ok. rewrite key_of_app //.
  split; [by apply key_app|done].
Qed.
Lemma rules_app arena more rs :
  Forall (record_ok arena) rs → rule_of (arena ++ more) <$> rs = rule_of arena <$> rs.
Proof.
  intros Hrs. apply list_fmap_ext. intros i r Hr. unfold rule_of.
  by rewrite (key_of_app _ _ _ (Forall_lookup_1 _ _ _ _ Hrs Hr)).
Qed.
Lemma key_last (arena k : list Z) slot :
  key (arena ++ k) {| offset := Z.of_nat (length arena); len := Z.of_nat (length k); source_slot := slot |}
  = Some k.
Proof.
  unfold key; simpl. rewrite bool_decide_true; [|rewrite length_app; lia].
  rewrite !Nat2Z.id drop_app_length. by rewrite take_ge.
Qed.

(** What a builder method leaves alone. *)
Record frame (b b' : Builder) : Prop := {
  frame_slots : local_slots b' = local_slots b;
  frame_classes : classes b' = classes b;
  frame_max : b_max_rules b' = b_max_rules b;
  frame_limit : limit (budget b') = limit (budget b);
}.

Lemma wp_on_budget {A} (m : M (Budget * nat) Error A) (Q : A → Builder * nat → Prop) R b n :
  wp m (λ a t, Q a (with_budget (λ _, t.1) b, t.2)) (λ e t, R e (with_budget (λ _, t.1) b, t.2))
    (budget b, n) → wp (on_budget m) Q R (b, n).
Proof. intros Hm. by apply wp_zoom. Qed.
Arguments on_budget : simpl never.
Lemma wp_get_b (Q : Builder → Builder * nat → Prop) R b n : Q b (b, n) → wp get_b Q R (b, n).
Proof. done. Qed.
Lemma wp_modify_b f (Q : unit → Builder * nat → Prop) R b n : Q tt (f b, n) → wp (modify_b f) Q R (b, n).
Proof. done. Qed.
Arguments get_b : simpl never.
Arguments modify_b : simpl never.
Lemma wp_lift {S E A} (o : outcome E A) (Q : A → S → Prop) R s :
  match o with Ok a => Q a s | Err e => R e s | Panic | Diverge => False end → wp (lift o) Q R s.
Proof. by destruct o. Qed.
Arguments lift : simpl never.
Lemma wp_unpoisoned {A} (m : B A) (Q : A → Builder * nat → Prop) R b n :
  (∀ e, failed b = Some e → R e (b, n)) → (failed b = None → wp m Q R (b, n)) →
  wp (unpoisoned m) Q R (b, n).
Proof.
  intros HR Hm. unfold unpoisoned. apply wp_bind, wp_get_b. destruct (failed b) eqn:E; [|by apply Hm].
  apply wp_fail. by apply HR.
Qed.
Lemma wp_poisoning {A} (m : B A) (Q : A → Builder * nat → Prop) R s :
  wp m Q (λ e s', R e (with_failed (Some e) s'.1, s'.2)) s → wp (poisoning m) Q R s.
Proof. unfold wp, poisoning. by destruct (m s) as [[] ?]. Qed.
Arguments poisoning : simpl never.

Ltac wp_b :=
  repeat lazymatch goal with
    | |- wp (bind _ _) _ _ _ => apply wp_bind
    | |- wp get_b _ _ _ => apply wp_get_b
    | |- wp (modify_b _) _ _ _ => apply wp_modify_b
    | |- wp (ret _) _ _ _ => apply wp_ret
    | |- wp (fail _) _ _ _ => apply wp_fail
    | |- wp _ _ _ _ => progress cbv beta iota zeta
    end.

Section add_proof.
Context {H : Host} `{!HostSpec H}.

Definition added (retained : Z) (b : Builder) (r : Rule) (b' : Builder) : Prop :=
  builder_ok retained b' ∧ failed b' = None ∧ rules b' = rules b ++ [r] ∧
  decoded_bytes b' = decoded_bytes b ∧ frame b b'.

Lemma rules_same b b' :
  items (arena b') = items (arena b) → items (records b') = items (records b) → rules b' = rules b.
Proof. unfold rules. by intros -> ->. Qed.

Lemma add_inner_wp retained b n domain g slot :
  builder_ok retained b → failed b = None → 0 ≤ slot ≤ u16_max →
  wp (poisoning (add_inner domain g slot))
    (λ _ s, ∃ ls, domain_labels domain = Some ls ∧ slot ≠ u16_max ∧
       added retained b {| r_group := g; r_key := encode ls; r_slot := slot |} s.1)
    (λ e s, builder_ok retained s.1 ∧ failed s.1 = Some e ∧ rules s.1 = rules b ∧ frame b s.1 ∧
       items (records s.1) = items (records b) ∧ decoded_bytes s.1 = decoded_bytes b ∧
       (slot ≠ u16_max → domain_labels domain = None → e = error InvalidDomain)) (b, n).
Proof.
  intros [Ha Hr Hb Hret Hch Hrules Hcnt] Hf Hslot. specialize (Hch Hf).
  apply wp_poisoning. unfold add_inner.
  case_bool_decide as Hmax; wp_b.
  { simpl. split_and!; try done; by split. }
  rewrite key_rule_ok. apply wp_lift. destruct (domain_labels domain) as [ls|] eqn:Hd.
  2: { simpl. split_and!; try done; by split. }
  wp_b. case_bool_decide as Hfull; wp_b.
  { simpl. split_and!; try done; by split. }
  pose proof (vec_cap_nonneg _ Ha) as Ha0. pose proof (vec_cap_nonneg _ Hr) as Hr0.
  pose proof (vec_fits _ Ha) as Hav. pose proof (vec_fits _ Hr) as Hrv. unfold RECORD_SIZE in *.
  apply wp_ok_or; [|intros _; simpl; split_and!; try done; by split].
  intros end_ Hend. unfold checked_add in Hend. case_decide; [|done]. case_bool_decide; [|done].
  injection Hend as <-. wp_b.
  apply wp_on_budget, grow_wp; [lia|done|done|lia| |].
  2: { intros e b' n' _ Hb' Hlim' Hlive'. simpl. split_and!; try done; split; simpl; done || lia. }
  intros a b1 n1 [Hai [Hac Hac'] Hal [Hb1 [Hlim1 Hpk1]]]. simpl. wp_b. simpl.
  assert (vec_len a = vec_len (arena b)) as Hlen by (unfold vec_len; by rewrite Hai).
  apply wp_on_budget, grow_wp; simpl; [lia|done|done|lia| |].
  2: { intros e b' n' _ Hb' Hlim' Hlive'. split_and!; simpl; try done; [|by apply rules_same|].
       - split; simpl; try done; [split; lia|lia|by rewrite Hai].
       - split; simpl; [done..|congruence]. }
  intros r b2 n2 [Hri [Hrc Hrc'] Hrl [Hb2 [Hlim2 Hpk2]]]. wp_b. simpl.
  pose proof (domain_wf _ _ Hd) as Hwf. pose proof (wf_key_len _ Hwf) as Hkl.
  rewrite as_u32_small; [|unfold u32_max, vec_len in *; lia]. rewrite as_u16_small; [|lia].
  exists ls. split; [done|]. split; [done|].
  assert (record_ok (items a ++ encode ls) {| entry := {| offset := vec_len a;
      len := Z.of_nat (length (encode ls)); source_slot := slot |}; group := g |}) as Hnew.
  { unfold record_ok, key_of; simpl. unfold vec_len. rewrite key_last /=.
    split; [done|]. split; [done|]. lia. }
  split_and!; simpl; try done.
  - split; simpl; try done.
    + split. unfold vec_len in *; simpl. rewrite length_app. lia.
    + split. unfold vec_len in *; simpl. rewrite length_app Hri /=. lia.
    + lia.
    + intros _. unfold RECORD_SIZE. lia.
    + apply Forall_app. rewrite Hri. split; [|by apply Forall_singleton]. rewrite Hai.
      eapply Forall_impl; [done|]. intros. by apply record_ok_app.
    + unfold vec_len in *; simpl. rewrite length_app Hri /=. lia.
  - unfold rules; simpl. rewrite Hri fmap_app Hai rules_app //=. do 2 f_equal.
    unfold rule_of, key_of; simpl. unfold vec_len. by rewrite Hai key_last.
  - split; simpl; [done..|congruence].
Qed.
End add_proof.

(** ** The builder's operations keep the invariant *)
Lemma new_builder_ok l b :
  0 ≤ retained_bytes l → 0 < max_rules l → new_builder l = Ok b →
  builder_ok (retained_bytes l) b ∧ failed b = None ∧ rules b = [] ∧ local_slots b = 1 ∧ classes b = [].
Proof.
  intros Hret Hmax. unfold new_builder.
  destruct (_ || _) eqn:E; [done|]. rewrite !orb_false_iff !bool_decide_eq_false in E.
  destruct (decide (0 < max_memory_bytes l)) as [Hmem|Hmem].
  - pose proof (reserve_wp (retained_bytes l) {| live := 0; peak := 0; limit := max_memory_bytes l |} 0%nat
      (λ _ s, budget_ok s.1 ∧ live s.1 = retained_bytes l) (λ _ _, True)) as Hw.
    unfold wp in Hw. destruct (reserve _ _) as [[] [bu n]]; try done. intros [= <-].
    destruct Hw as [Hbu Hl]; [split; simpl; lia|done|naive_solver|done|].
    split_and!; try done. split; simpl in *; try done; try (unfold vec_len; simpl; lia).
  - unfold reserve, wp, bind, get, ok_or, put, fail, ret; simpl. unfold checked_add.
    case_decide; [|done]. rewrite bool_decide_true; [|lia]. done.
Qed.

Section builder_ops.
Context {H : Host} `{!HostSpec H}.

(** What an operation that fails leaves behind. *)
Definition poisoned (retained : Z) (b : Builder) (e : Error) (b' : Builder) : Prop :=
  builder_ok retained b' ∧ failed b' = Some e ∧ frame b b'.

Lemma add_wp retained b n domain g slot :
  builder_ok retained b → 0 ≤ slot ≤ u16_max →
  wp (add domain g slot)
    (λ _ s, ∃ ls, domain_labels domain = Some ls ∧ slot ≠ u16_max ∧ failed b = None ∧
       added retained b {| r_group := g; r_key := encode ls; r_slot := slot |} s.1)
    (λ e s, poisoned retained b e s.1 ∧ rules s.1 = rules b ∧
       (failed b = None → slot ≠ u16_max → domain_labels domain = None → e = error InvalidDomain)) (b, n).
Proof.
  intros Hb Hslot. unfold add. apply wp_unpoisoned.
  - intros e He. split; [|split; [done|by rewrite He]]. by split_and!.
  - intros Hf. eapply wp_mono; [| |by apply (add_inner_wp retained b n domain g slot)].
    + intros [] s (ls & ? & ? & ?). eauto.
    + intros e s (?&?&?&?&?&?&?). split; [|split; [done|by auto]]. done.
Qed.

Lemma account_local_text_wp retained b n bytes :
  builder_ok retained b → 0 ≤ bytes →
  wp (account_local_text bytes)
    (λ _ s, builder_ok retained s.1 ∧ failed s.1 = None ∧ rules s.1 = rules b ∧ frame b s.1 ∧
       decoded_bytes s.1 = decoded_bytes b + bytes ∧ decoded_bytes s.1 ≤ MAX_AGGREGATE)
    (λ e s, poisoned retained b e s.1 ∧ rules s.1 = rules b) (b, n).
Proof.
  intros Hb Hbytes. unfold account_local_text. apply wp_unpoisoned.
  { intros e He. split; [|done]. by split_and!. }
  intros Hf. wp_b.
  assert (poisoned retained b (error InputLimit) (with_failed (Some (error InputLimit)) b)) as Hp.
  { split_and!; [|done|done]. destruct Hb. by split. }
  destruct (checked_add _ _) as [total|] eqn:E; [|by wp_b].
  unfold checked_add in E. case_decide; simplify_eq.
  case_bool_decide; wp_b; [|done]. split_and!; try done. destruct Hb. by split.
Qed.
End builder_ops.

(** ** Claims *)

(** A suffix rule covers exactly the names below its domain: for a rule text
    that parses, its key is a byte prefix of a query name's key iff the name's
    labels end with the rule's labels, ASCII case aside. Neither encoding can
    overflow its 255-byte buffer. *)
Theorem suffix_key_matches `{!NameLib, !NameSpec _} text n k :
  key_rule text = Ok k →
  ∃ q, key_query n = Ok q ∧
    (k `prefix_of` q ↔ (lower <$> split_on DOT (strip_suffix_dot text)) `suffix_of` (lower <$> name_iter n)).
Proof.
  rewrite key_rule_ok. unfold domain_labels. case_bool_decide; [|done]. intros [= <-].
  exists (query_key n). split; [apply key_query_ok|]. unfold query_key.
  by rewrite encode_prefix !fmap_reverse -suffix_prefix_reverse.
Qed.

(** [Builder::add] on every branch: a parsed domain appends exactly one
    rule; any error poisons the builder, leaves its rules as they were and
    is reported by every later call; an unparsable domain is refused as an
    invalid domain. The charged bytes equal the retained bytes plus the exact
    capacities of the arena and the records, never above the limit. *)
Theorem add_rule {H : Host} `{!HostSpec H} retained b n domain g slot :
  builder_ok retained b → 0 ≤ slot ≤ u16_max →
  wp (add domain g slot)
    (λ _ s, ∃ ls, domain_labels domain = Some ls ∧ slot ≠ u16_max ∧ failed b = None ∧
       added retained b {| r_group := g; r_key := encode ls; r_slot := slot |} s.1)
    (λ e s, poisoned retained b e s.1 ∧ rules s.1 = rules b ∧
       (failed b = None → slot ≠ u16_max → domain_labels domain = None → e = error InvalidDomain)) (b, n).
Proof. apply add_wp. Qed.

(** ** Witnesses *)
Module CanonicalWitness.
(** Names of two labels below the root: [w.ab] and [x.ab]. *)
Definition names : NameLib := {| Name := bool; name_iter n := [[if n then 119 else 120]; [97; 66]] |}.
Lemma names_spec : NameSpec names.
Proof.
  split.
  - intros [] l; simpl; rewrite !elem_of_cons elem_of_nil; intros [->|[->|[]]]; simpl; lia.
  - intros []; vm_compute; lia.
Qed.
(** Allocation gives what is asked for, no check fails. *)
Definition host : Host := {| try_reserve_exact _ want := Some want; check_result _ := None |}.
Lemma host_spec : HostSpec host.
Proof. split. simpl. intros n want got [= ->]. done. Qed.
#[local] Existing Instance names.
#[local] Existing Instance names_spec.
#[local] Existing Instance host.
#[local] Existing Instance host_spec.

Definition text : list Z := [65; 98; 46].
Lemma suffix_key_matches_witness :
  key_rule text = Ok [2; 97; 98] ∧
  ∃ q, key_query (true : Name) = Ok q ∧
    ([2; 97; 98] `prefix_of` q ↔
      (lower <$> split_on DOT (strip_suffix_dot text)) `suffix_of` (lower <$> name_iter (true : Name))).
Proof. split; [by_compute|]. apply suffix_key_matches. by_compute. Defined.

Definition limits : Limits := {| max_rules := 100; max_memory_bytes := 65536; retained_bytes := 1024 |}.
Definition empty : Builder :=
  match new_builder limits with
  | Ok b => b
  | _ => mkBuilder vec_new vec_new (mkBudget 0 0 0) 0 [] 0 0 None
  end.
Lemma empty_ok : builder_ok 1024 empty ∧ failed empty = None.
Proof.
  destruct (new_builder_ok limits empty) as (Hok & Hf & _); [by_compute|by_compute|done|]. done.
Qed.
Lemma add_rule_witness :
  wp (add text BlockSuffix 0)
    (λ _ s, ∃ ls, domain_labels text = Some ls ∧ 0 ≠ u16_max ∧ failed empty = None ∧
       added 1024 empty {| r_group := BlockSuffix; r_key := encode ls; r_slot := 0 |} s.1)
    (λ e s, poisoned 1024 empty e s.1 ∧ rules s.1 = rules empty ∧
       (failed empty = None → 0 ≠ u16_max → domain_labels text = None → e = error InvalidDomain))
    (empty, 0%nat).
Proof. apply add_rule; [apply empty_ok|by_compute]. Defined.
End CanonicalWitness.
