(* ===== verification/Prepare.v ===== *)
(** * Dropping redundant rules

    [Builder::prepare_with_check] of [src/policy/canonical.rs]: the rules are
    sorted by group, key and slot, and a rule that cannot change a decision or
    an answer is dropped. The proofs relate the in-place compaction to a
    declarative reading of a rule list: which names are allowed or blocked, and
    which block rule chooses the answer. *)
From S2P Require Import Prelude Std Names Canonical.
Set Default Goal Selector "!".
Set Warnings "-rewrite-rw".
Local Open Scope Z_scope.
Local Open Scope rust_scope.

Record Canonical : Type := mkCanonical {
  c_arena : Vec Z;
  c_records : Vec Record_;
  c_budget : Budget;
  semantic_digest : list Z;
  input_rules : nat;
}.

(** The slice [l[lo..hi]]. *)
Definition slice {A} (l : list A) (lo hi : nat) : option (list A) :=
  if bool_decide (lo ≤ hi ≤ length l)%nat then Some (take (hi - lo) (drop lo l)) else None.

Definition record_cmp (arena : list Z) (a b : Record_) : comparison :=
  then_ (then_ (Z.of_nat (group_index (group a)) ?= Z.of_nat (group_index (group b)))
               (cmp_bytes (key_of arena a) (key_of arena b)))
    (source_slot (entry a) ?= source_slot (entry b)).

(** [slice.sort_unstable_by], whose comparator slices the arena. *)
Definition sort_records `{SliceLib} {S} (cmp : list Z → Record_ → Record_ → comparison)
    (arena : list Z) (rs : list Record_) : M S Error (list Record_) :=
  if forallb (λ r, bool_decide (is_Some (key arena (entry r)))) rs
  then ret (sort_unstable_by (cmp arena) rs) else panic.

Fixpoint uniform (classes : list Z) : bool :=
  match classes with
  | x :: (y :: _) as rest => bool_decide (x = y) && uniform rest
  | _ => true
  end.
Definition class_of (classes : list Z) (slot : Z) : Z :=
  default 0 (classes !! Z.to_nat slot).
Definition covers (local : Z) (classes : list Z) (g : nat) (cover e : Z) : bool :=
  let local s := bool_decide (s < local) in
  bool_decide (g < 2)%nat || uniform classes || (local cover && negb (local e)) ||
  (bool_decide (class_of classes cover = class_of classes e) && eqb (local cover) (local e)).

Definition MAX_LABELS : nat := 128.

Section prepare.
Context {H : Host} {SL : SliceLib} {SH : Sha256Lib}.

(** ** [longest_cover] *)
Definition boundary_step {S} (bytes : list Z) : list nat * nat → M S Error ((list nat * nat) + list nat) :=
  λ '(boundaries, position),
    match bytes !! position with
    | None => ret (inr boundaries)
    | Some b =>
        let position := (position + (1 + Z.to_nat b))%nat in
        if bool_decide (length boundaries < MAX_LABELS)%nat
        then ret (inl (position :: boundaries, position)) else panic
    end.
Fixpoint find_cover {S} (arena : list Z) (suffixes : list Record_) (bytes : list Z) (ends : list nat)
    : M S Error (option Entry) :=
  match ends with
  | [] => ret None
  | end_ :: ends =>
      if bool_decide (end_ ≤ length bytes)%nat then
        match binary_search_by (λ r, cmp_bytes (key_of arena r) (take end_ bytes)) suffixes with
        | inl i => let* r := expect (suffixes !! i) in ret (Some (entry r))
        | inr _ => find_cover arena suffixes bytes ends
        end
      else panic
  end.
Definition longest_cover {S} (arena : list Z) (suffixes : list Record_) (bytes : list Z)
    : M S Error (option Entry) :=
  let* ends := loop (Datatypes.S (length bytes)) (boundary_step bytes) ([], O) in
  find_cover arena suffixes bytes ends.

(** ** The compaction *)
Record Prep : Type := mkPrep { p_records : list Record_; read : nat; write : nat }.
(** [ancestors[..depth]], last pushed first. *)
Record Scan : Type := mkScan { ancestors : list Entry; last_ : option Entry }.

Fixpoint pop_ancestors {S} (arena bytes : list Z) (st : list Entry) : M S Error (list Entry) :=
  match st with
  | [] => ret []
  | top :: rest =>
      let* k := expect (key arena top) in
      if bool_decide (k `prefix_of` bytes) then ret st else pop_ancestors arena bytes rest
  end.

Definition is_suffix (g : nat) : bool := Nat.even g.

Section group.
Context (b : Builder) (g : nat) (ranges : list (nat * nat)).
Let ar := items (arena b).

Definition cover_of (p : Prep) (s : Scan) (bytes : list Z)
    : M (unit * nat) Error (option Entry * list Entry) :=
  if is_suffix g then
    let* st := pop_ancestors ar bytes (ancestors s) in
    ret (head st, st)
  else
    let* range := expect (ranges !! (g - 1)%nat) in
    let* suffixes := expect (slice (p_records p) range.1 range.2) in
    let* c := longest_cover ar suffixes bytes in
    ret (c, ancestors s).

Definition scan_record (p : Prep) (s : Scan) (r : Record_) : M (unit * nat) Error (Prep * Scan) :=
  (if bool_decide (read p mod 4096 = 0)%nat then check else ret tt) ;;;
  let e := entry r in
  let* bytes := expect (key ar e) in
  let* duplicate := match last_ s with
    | None => ret false
    | Some l => let* k := expect (key ar l) in ret (bool_decide (bytes = k))
    end in
  let* (cover, st) := cover_of p s bytes in
  let redundant := duplicate || match cover with
    | None => false
    | Some c => covers (local_slots b) (classes b) g (source_slot c) (source_slot e)
    end in
  let* st := (if negb redundant && is_suffix g then
      if bool_decide (length st < MAX_LABELS)%nat then ret (e :: st) else panic
    else ret st) in
  let s := {| ancestors := st; last_ := Some e |} in
  if redundant then ret ({| p_records := p_records p; read := read p + 1; write := write p |}, s)
  else if bool_decide (write p < length (p_records p))%nat then
    ret ({| p_records := <[write p := r]> (p_records p); read := read p + 1; write := write p + 1 |}, s)
  else panic.

Definition scan_step (ps : Prep * Scan) : M (unit * nat) Error ((Prep * Scan) + Prep) :=
  match p_records ps.1 !! read ps.1 with
  | Some r =>
      if bool_decide (group_index (group r) = g)
      then let* ps := scan_record ps.1 ps.2 r in ret (inl ps)
      else ret (inr ps.1)
  | None => ret (inr ps.1)
  end.

Definition scan_group (p : Prep) : M (unit * nat) Error Prep :=
  loop (Datatypes.S (length (p_records p))) scan_step (p, {| ancestors := []; last_ := None |}).
End group.

Fixpoint scan_groups (b : Builder) (groups : list nat) (p : Prep) (ranges : list (nat * nat))
    : M (unit * nat) Error (Prep * list (nat * nat)) :=
  match groups with
  | [] => ret (p, ranges)
  | g :: groups =>
      let start := write p in
      let* p := scan_group b g ranges p in
      scan_groups b groups p (ranges ++ [(start, write p)])
  end.

(** ** The semantic digest *)
Definition SEMANTICS : list Z :=
  (* parins-policy-semantics-v1\0 *)
  [112;97;114;105;110;115;45;112;111;108;105;99;121;45;115;101;109;97;110;116;105;99;115;45;118;49;0].
Definition record_bytes (arena : list Z) (r : Record_) : list Z :=
  be_bytes 2 (len (entry r)) ++ key_of arena r.
Fixpoint group_bytes (arena : list Z) (g : nat) (groups : list (list Record_)) : list Z :=
  match groups with
  | [] => []
  | rs :: groups =>
      [as_u8 (Z.of_nat g)] ++ be_bytes 8 (Z.of_nat (length rs)) ++ mjoin (record_bytes arena <$> rs)
      ++ group_bytes arena (Datatypes.S g) groups
  end.

Definition prepare_with_check (b : Builder) : M (unit * nat) Error Canonical :=
  check ;;;
  match failed b with
  | Some e => fail e
  | None =>
      let input := length (items (records b)) in
      let* sorted := sort_records record_cmp (items (arena b)) (items (records b)) in
      check ;;;
      let* (p, ranges) := scan_groups b [0; 1; 2; 3]%nat {| p_records := sorted; read := 0; write := 0 |} [] in
      let kept := take (write p) (p_records p) in
      let* groups := expect (mapM (λ r, slice kept r.1 r.2) ranges) in
      let digest := sha256 (SEMANTICS ++ group_bytes (items (arena b)) 0 groups) in
      check ;;;
      ret {| c_arena := arena b; c_records := {| items := kept; capacity := capacity (records b) |};
             c_budget := budget b; semantic_digest := digest; input_rules := input |}
  end.
End prepare.

(** ** What a rule list means

    A suffix rule matches the names below its domain, an exact rule its domain
    alone; keys are compared as byte strings. *)
Definition suffix_group (g : Group) : bool :=
  match g with AllowSuffix | BlockSuffix => true | _ => false end.
Definition allow_group (g : Group) : bool :=
  match g with AllowSuffix | AllowExact => true | _ => false end.
Definition matches (r : Rule) (q : list Z) : Prop :=
  if suffix_group (r_group r) then r_key r `prefix_of` q else r_key r = q.
#[export] Instance matches_dec r q : Decision (matches r q).
Proof. unfold matches. destruct (suffix_group _); apply _. Defined.

Definition allowed (rs : list Rule) (q : list Z) : Prop :=
  ∃ r, r ∈ rs ∧ allow_group (r_group r) = true ∧ matches r q.
(** Block rules that match a name. *)
Definition blocking (rs : list Rule) (q : list Z) (r : Rule) : Prop :=
  r ∈ rs ∧ allow_group (r_group r) = false ∧ matches r q.

(** Local before subscription, exact before suffix, longer before shorter,
    then the lower slot. *)
Definition rank (local : Z) (r : Rule) : list Z :=
  [if bool_decide (r_slot r < local) then 0 else 1; if suffix_group (r_group r) then 1 else 0;
   - Z.of_nat (length (r_key r)); r_slot r].
Definition chosen (local : Z) (rs : list Rule) (q : list Z) (r : Rule) : Prop :=
  ¬ allowed rs q ∧ blocking rs q r ∧ ∀ r', blocking rs q r' → ble (rank local r) (rank local r').

(** A rule list [O] obtained from [I] by dropping rules, each of which has an
    earlier rule with its key that is kept, or covered by the longest kept
    suffix above it. *)
Definition suffix_of_group (g : Group) : Group := if allow_group g then AllowSuffix else BlockSuffix.
Definition covered_by (local : Z) (classes : list Z) (O : list Rule) (f c : Rule) : Prop :=
  c ∈ O ∧ r_group c = suffix_of_group (r_group f) ∧ r_key c `prefix_of` r_key f ∧
  (∀ k, k ∈ O → r_group k = r_group c → r_key k `prefix_of` r_key f →
    (length (r_key k) ≤ length (r_key c))%nat) ∧
  covers local classes (group_index (r_group f)) (r_slot c) (r_slot f) = true.
Definition justified (local : Z) (classes : list Z) (I O : list Rule) (r : Rule) : Prop :=
  ∃ f, f ∈ I ∧ r_group f = r_group r ∧ r_key f = r_key r ∧ r_slot f ≤ r_slot r ∧
    (f ∈ O ∨ ∃ c, covered_by local classes O f c).
(** No kept rule is covered by the longest kept suffix above it; an exact rule
    lies below the suffix rule of its own domain too. *)
Definition lies_below (f c : Rule) : Prop :=
  r_group c = suffix_of_group (r_group f) ∧ r_key c `prefix_of` r_key f ∧ (suffix_group (r_group f) = true → r_key c ≠ r_key f).
Definition irredundant (local : Z) (classes : list Z) (O : list Rule) : Prop :=
  ∀ f c, f ∈ O → c ∈ O → lies_below f c → (∀ k, k ∈ O → lies_below f k → (length (r_key k) ≤ length (r_key c))%nat) →
    covers local classes (group_index (r_group f)) (r_slot c) (r_slot f) = false.
Record reduced (local : Z) (classes : list Z) (I O : list Rule) : Prop := {
  red_sub r : r ∈ O → r ∈ I;
  red_unique r1 r2 : r1 ∈ O → r2 ∈ O → r_group r1 = r_group r2 → r_key r1 = r_key r2 → r1 = r2;
  red_lowest r1 r2 : r1 ∈ O → r2 ∈ I → r_group r1 = r_group r2 → r_key r1 = r_key r2 →
    r_slot r1 ≤ r_slot r2;
  red_just r : r ∈ I → justified local classes I O r;
}.

Lemma matches_suffix_of f c q :
  r_group c = suffix_of_group (r_group f) → r_key c `prefix_of` r_key f → matches f q → matches c q.
Proof.
  unfold matches. intros -> Hp. assert (suffix_group (suffix_of_group (r_group f)) = true) as ->
    by (by destruct (r_group f)).
  destruct (suffix_group (r_group f)); [by intros; trans (r_key f)|by intros <-].
Qed.
Lemma matches_same f r q : r_group f = r_group r → r_key f = r_key r → matches r q → matches f q.
Proof. unfold matches. by intros -> ->. Qed.
Lemma allow_suffix_of g : allow_group (suffix_of_group g) = allow_group g.
Proof. by destruct g. Qed.

Lemma rank_min local (l : list Rule) :
  l ≠ [] → ∃ m, m ∈ l ∧ ∀ r, r ∈ l → ble (rank local m) (rank local r).
Proof.
  induction l as [|x l IH]; [done|]. intros _. destruct (decide (l = [])) as [->|Hne].
  { exists x. split; [left|]. intros r Hr%list_elem_of_singleton. subst. apply ble_refl. }
  destruct (IH Hne) as (m & Hm & Hmin). destruct (ble_total (rank local x) (rank local m)) as [Hx|Hx].
  - exists x. split; [left|]. intros r [->|Hr]%elem_of_cons; [apply ble_refl|].
    by apply (ble_trans _ (rank local m)); [|apply Hmin].
  - exists m. split; [by right|]. intros r [->|Hr]%elem_of_cons; [done|]. by apply Hmin.
Qed.
Lemma chosen_exists local rs q r :
  ¬ allowed rs q → blocking rs q r → ∃ m, chosen local rs q m.
Proof.
  intros Ha (Hr & Hg & Hm).
  set (l := filter (λ r, allow_group (r_group r) = false ∧ matches r q) rs).
  assert (∀ x, x ∈ l ↔ blocking rs q x) as Hl.
  { intros x. unfold l, blocking. rewrite list_elem_of_filter. naive_solver. }
  destruct (rank_min local l) as (m & Hm' & Hmin).
  { intros Hn. assert (r ∈ l) as Hin by (by apply Hl). rewrite Hn in Hin. by apply elem_of_nil in Hin. }
  exists m. split_and!; [done|by apply Hl|]. intros r' Hr'. by apply Hmin, Hl.
Qed.

Lemma ble_rank local r1 r2 :
  let lo r := if bool_decide (r_slot r < local) then 0 else 1 in
  let su r := if suffix_group (r_group r) then 1 else 0 in
  ble (rank local r1) (rank local r2) ↔
    lo r1 < lo r2 ∨ lo r1 = lo r2 ∧ (su r1 < su r2 ∨ su r1 = su r2 ∧
      ((length (r_key r2) < length (r_key r1))%nat ∨ length (r_key r1) = length (r_key r2) ∧
        r_slot r1 ≤ r_slot r2)).
Proof.
  intros lo su. unfold rank. fold (lo r1) (lo r2) (su r1) (su r2). rewrite !ble_cons.
  assert (ble [] []) by apply ble_refl. split; [naive_solver lia|].
  intros [?|[-> [?|[-> [?|[? ?]]]]]]; [by left|right; split; [done|]..].
  - by left.
  - right. split; [done|]. left. lia.
  - right. split; [done|]. right. split; [lia|]. destruct (decide (r_slot r1 = r_slot r2)); [right|left]; naive_solver lia.
Qed.

Lemma uniform_all classes i j x y :
  uniform classes = true → classes !! i = Some x → classes !! j = Some y → x = y.
Proof.
  intros Hu. assert (∀ i z, classes !! i = Some z → head classes = Some z) as Hh.
  { clear x y i j. induction classes as [|x classes IH]; intros i z; [done|].
    destruct i as [|i]; [done|]. simpl. intros Hz. destruct classes as [|y classes]; [done|].
    simpl in Hu. apply andb_true_iff in Hu as [He Hu]. apply bool_decide_eq_true in He as ->.
    by rewrite -(IH Hu i z Hz). }
  intros Hx Hy. apply Hh in Hx, Hy. congruence.
Qed.

(** Every slot of a rule list has a class: one is listed, or the list is empty
    and all slots answer alike. *)
Definition classified (classes : list Z) (rs : list Rule) : Prop :=
  classes = [] ∨ ∀ r, r ∈ rs → 0 ≤ r_slot r < Z.of_nat (length classes).
Lemma uniform_class classes rs r1 r2 :
  uniform classes = true → classified classes rs → r1 ∈ rs → r2 ∈ rs →
  class_of classes (r_slot r1) = class_of classes (r_slot r2).
Proof.
  intros Hu [->|Hc] H1 H2; [done|]. pose proof (Hc _ H1) as Hb1. pose proof (Hc _ H2) as Hb2. unfold class_of.
  destruct (lookup_lt_is_Some_2 classes (Z.to_nat (r_slot r1))) as [x Hx]; [lia|].
  destruct (lookup_lt_is_Some_2 classes (Z.to_nat (r_slot r2))) as [y Hy]; [lia|].
  rewrite Hx Hy /=. by apply (uniform_all classes (Z.to_nat (r_slot r1)) (Z.to_nat (r_slot r2))).
Qed.

Section reduced.
Context {local : Z} {classes : list Z} {I O : list Rule} (Hred : reduced local classes I O).

(** Every match has a kept match on the same side. *)
Lemma reduced_match r q : r ∈ I → matches r q →
  ∃ r', r' ∈ O ∧ allow_group (r_group r') = allow_group (r_group r) ∧ matches r' q.
Proof.
  intros Hr Hm. destruct (red_just _ _ _ _ Hred r Hr) as (f & Hf & Hg & Hk & _ & Hc).
  pose proof (matches_same _ _ _ Hg Hk Hm) as Hmf. rewrite -Hg. destruct Hc as [Hin|[c (Hc & Hcg & Hcp & _)]].
  - by exists f.
  - exists c. rewrite Hcg allow_suffix_of. split_and!; [done..|]. by apply (matches_suffix_of f).
Qed.
Lemma reduced_allowed q : allowed I q ↔ allowed O q.
Proof.
  split; intros (r & Hr & Hg & Hm).
  - destruct (reduced_match r q Hr Hm) as (r'&?&?&?). exists r'. by rewrite -Hg.
  - exists r. split; [|done]. by apply (red_sub _ _ _ _ Hred).
Qed.
Lemma reduced_blocking_sub q r : blocking O q r → blocking I q r.
Proof. intros (Hr & ? & ?). split; [|done]. by apply (red_sub _ _ _ _ Hred). Qed.
Lemma reduced_blocked q : (∃ r, blocking I q r) ↔ (∃ r, blocking O q r).
Proof.
  split; intros [r Hr].
  - destruct Hr as (Hr & Hg & Hm). destruct (reduced_match r q Hr Hm) as (r'&?&?&?).
    exists r'. split_and!; [done|by rewrite -Hg|done].
  - exists r. by apply reduced_blocking_sub.
Qed.

Lemma chosen_class_covered q f b c :
  classified classes I → chosen local I q f → chosen local O q b → f ∈ I → covered_by local classes O f c →
  class_of classes (r_slot f) = class_of classes (r_slot b).
Proof.
  intros Hcl (Ha & Hbf & Hmin) (_ & Hbb & Hminb) Hf (Hc & Hcg & Hcp & Hlong & Hcov).
  destruct Hbf as (_ & Hgf & Hmf).
  assert (matches c q) as Hmc by (by apply (matches_suffix_of f)).
  assert (blocking O q c) as Hbc by (split_and!; [done|by rewrite Hcg allow_suffix_of|done]).
  pose proof (Hminb _ Hbc) as Hrc. pose proof (Hmin _ (reduced_blocking_sub _ _ Hbb)) as Hrb.
  destruct Hbb as (Hb & Hgb & Hmb).
  assert (r_group c = BlockSuffix) as Hcs by (rewrite Hcg /suffix_of_group Hgf //).
  unfold covers in Hcov. rewrite !orb_true_iff in Hcov. rewrite bool_decide_eq_true in Hcov.
  destruct Hcov as [[[Hlt|Hu]|Hl]|Hs].
  - destruct (r_group f); simpl in *; [done|done|lia..].
  - apply (uniform_class _ I); [done..|]. by apply (red_sub _ _ _ _ Hred).
  - apply andb_true_iff in Hl as [Hl1 Hl2]. rewrite negb_true_iff in Hl2.
    pose proof (ble_trans _ _ _ Hrb Hrc) as Hfc. apply ble_rank in Hfc. rewrite Hl1 Hl2 in Hfc. lia.
  - apply andb_true_iff in Hs as [Hs1 Hs2]. apply bool_decide_eq_true in Hs1. apply eqb_prop in Hs2.
    apply ble_rank in Hrc, Hrb. rewrite Hs2 Hcs /= in Hrc.
    assert (suffix_group (r_group b) = true → b = c) as Hbc'.
    { intros Hsb. assert (r_group b = BlockSuffix) as Hgb' by (by destruct (r_group b)).
      assert (r_key b `prefix_of` r_key f) as Hpb.
      { unfold matches in Hmb, Hmf. rewrite Hsb in Hmb. destruct (suffix_group (r_group f)) eqn:Hsf; [|by rewrite Hmf].
        apply (prefix_shorter _ _ q); [done..|]. rewrite Hsb in Hrc, Hrb. lia. }
      assert (length (r_key b) ≤ length (r_key c))%nat as Hle by (apply Hlong; congruence).
      apply (red_unique _ _ _ _ Hred); [done|done|congruence|].
      apply prefix_length_eq; [by apply (prefix_shorter _ _ (r_key f))|]. rewrite Hsb in Hrc, Hrb. lia. }
    destruct (suffix_group (r_group b)) eqn:Hsb; [by rewrite Hbc'|].
    (* an exact rule answers: [f] has its key *)
    destruct (suffix_group (r_group f)) eqn:Hsf; [lia|].
    unfold matches in Hmb, Hmf. rewrite Hsb in Hmb. rewrite Hsf in Hmf.
    assert (r_slot b ≤ r_slot f).
    { apply (red_lowest _ _ _ _ Hred); [done|done| |congruence].
      destruct (r_group b), (r_group f); done. }
    assert (r_slot b = r_slot f) as ->; [|done]. rewrite Hmb Hmf in Hrb. lia.
Qed.

(** The rule that answers may change, its answer class does not. *)
Lemma chosen_class q e b :
  classified classes I → chosen local I q e → chosen local O q b →
  class_of classes (r_slot e) = class_of classes (r_slot b).
Proof.
  intros Hcl He Hb. pose proof He as (Ha & Hbe & Hmin).
  destruct (red_just _ _ _ _ Hred e) as (f & Hf & Hg & Hk & Hs & Hc); [apply Hbe|].
  assert (blocking I q f) as Hbf.
  { destruct Hbe as (_ & Hge & Hme). split_and!; [done|congruence|]. by apply (matches_same f e). }
  assert (r_slot f = r_slot e) as Hfe.
  { pose proof (Hmin _ Hbf) as Hr. apply ble_rank in Hr. rewrite Hg Hk in Hr.
    revert Hr. repeat case_bool_decide; lia. }
  assert (chosen local I q f) as Hcf.
  { split_and!; [done..|]. intros r' Hr'. specialize (Hmin _ Hr'). unfold rank in *.
    by rewrite Hg Hk Hfe. }
  rewrite -Hfe. destruct Hc as [Hin|[c Hc]]; [|by apply (chosen_class_covered q f b c)].
  destruct Hb as (_ & Hbb & Hminb). assert (blocking O q f) as HbO by (by destruct Hbf).
  pose proof (Hminb _ HbO) as H1. destruct Hcf as (_ & _ & Hminf).
  pose proof (Hminf _ (reduced_blocking_sub _ _ Hbb)) as H2.
  pose proof (ble_antisym _ _ H1 H2) as He'. unfold rank in He'. injection He' as _ _ _ ->. done.
Qed.
End reduced.

(** ** The scan of one group

    [D] are the records of the group read so far and [K] those kept; [S] are
    the kept suffix records that cover ([K] itself while suffixes are read, the
    preceding group's range while exact rules are). *)
Lemma total_record_cmp ar : total_cmp (record_cmp ar).
Proof.
  unfold record_cmp.
  apply (total_cmp_then (λ a b, then_ _ _) (λ a b, _)); [apply (total_cmp_then (λ a b, _) (λ a b, _))|].
  - apply (total_cmp_on (λ a, Z.of_nat (group_index (group a)))), total_cmp_Z.
  - apply (total_cmp_on (key_of ar)), total_cmp_bytes.
  - apply (total_cmp_on (λ a, source_slot (entry a))), total_cmp_Z.
Qed.

Section scan.
Context (ar : list Z) (local : Z) (classes : list Z) (g : nat).
Notation kf := (key_of ar).
Notation slot r := (source_slot (entry r)).

(** The order of the sorted records of one group. *)
Definition rle (a b : Record_) : Prop := ble (kf a) (kf b) ∧ (kf a = kf b → slot a ≤ slot b).
Definition strict (K : list Record_) : Prop := StronglySorted (λ a b, ble (kf a) (kf b) ∧ kf a ≠ kf b) K.
Definition cov (S : list Record_) (f c : Record_) : Prop :=
  c ∈ S ∧ kf c `prefix_of` kf f ∧
  (∀ k, k ∈ S → kf k `prefix_of` kf f → (length (kf k) ≤ length (kf c))%nat).

Definition under (f c : Record_) : Prop := kf c `prefix_of` kf f ∧ (is_suffix g = true → kf c ≠ kf f).
Record scanned (D K S : list Record_) : Prop := {
  sc_sub : K ⊆ D;
  sc_strict : strict K;
  sc_lowest k f : k ∈ K → f ∈ D → kf k = kf f → slot k ≤ slot f;
  sc_just r : r ∈ D → ∃ f, f ∈ D ∧ kf f = kf r ∧ slot f ≤ slot r ∧
    (f ∈ K ∨ ∃ c, cov S f c ∧ covers local classes g (slot c) (slot f) = true);
  sc_needed k c : k ∈ K → c ∈ S → under k c → (∀ d, d ∈ S → under k d → (length (kf d) ≤ length (kf c))%nat) →
    covers local classes g (slot c) (slot k) = false;
}.

Lemma record_cmp_rle a b :
  group a = group b → record_cmp ar a b ≠ Gt → rle a b.
Proof.
  unfold record_cmp, rle, ble. intros ->. rewrite Z.compare_refl /=.
  destruct (cmp_bytes (kf a) (kf b)) eqn:E; simpl; [|intros _; split; [done|]|done].
  - intros Hs. split; [done|]. intros _. done.
  - intros He. by rewrite He cmp_bytes_refl in E.
Qed.
Lemma strict_unique K k1 k2 : strict K → k1 ∈ K → k2 ∈ K → kf k1 = kf k2 → k1 = k2.
Proof.
  unfold strict. induction 1 as [|k K Hs IH Hk]; [by intros ?%elem_of_nil|].
  rewrite Forall_forall in Hk. intros [->|H1]%elem_of_cons [->|H2]%elem_of_cons He; [done| | |by apply IH].
  - by destruct (Hk k2 H2).
  - by destruct (Hk k1 H1) as [_ []].
Qed.

Lemma scanned_nil S : scanned [] [] S.
Proof. split; [done|constructor|..]; by intros ??%elem_of_nil || intros ?? ?%elem_of_nil. Qed.

(** A redundant record is left out. *)
Lemma scanned_drop D K S r :
  scanned D K S → Forall (λ d, rle d r) D →
  (∃ l, l ∈ D ∧ kf l = kf r) ∨
    (∃ c, cov S r c ∧ covers local classes g (slot c) (slot r) = true) →
  scanned (D ++ [r]) K S.
Proof.
  intros [Hsub Hstr Hlow Hjust Hneed] Hle Hred. rewrite Forall_forall in Hle. split; [set_solver|done| | |exact Hneed].
  - intros k f Hk [Hf| ->]%elem_of_snoc He; [by apply Hlow|].
    apply (proj2 (Hle k (Hsub _ Hk)) He).
  - intros x [Hx| ->]%elem_of_snoc.
    + destruct (Hjust x Hx) as (f&?&?&?&?). exists f. split_and!; [set_solver|done..].
    + destruct Hred as [(l & Hl & He)|Hc].
      * destruct (Hjust l Hl) as (f & Hf & Hfe & Hfs & Hfc). exists f.
        split_and!; [set_solver|congruence| |done]. pose proof (proj2 (Hle l Hl) He). lia.
      * exists r. split_and!; [set_solver|done|lia|by right].
Qed.

(** A record with a new key is kept. *)
Lemma scanned_keep D K S S' r :
  scanned D K S → Forall (λ d, rle d r) D → (∀ d, d ∈ D → kf d ≠ kf r) →
  S' = S ∨ S = K ∧ S' = K ++ [r] ∧ is_suffix g = true →
  (∀ c, c ∈ S → under r c → (∀ d, d ∈ S → under r d → (length (kf d) ≤ length (kf c))%nat) → covers local classes g (slot c) (slot r) = false) →
  scanned (D ++ [r]) (K ++ [r]) S'.
Proof.
  intros [Hsub Hstr Hlow Hjust Hneed] Hle Hnew HS Hr. rewrite Forall_forall in Hle. split; [set_solver|..].
  - apply StronglySorted_app_2; [|done|repeat constructor].
    intros a b Ha Hb%list_elem_of_singleton. subst b. split; [|by apply Hnew, Hsub]. apply (proj1 (Hle a (Hsub _ Ha))).
  - intros k f [Hk| ->]%elem_of_snoc [Hf| ->]%elem_of_snoc He.
    + by apply Hlow.
    + by destruct (Hnew k (Hsub _ Hk)).
    + by destruct (Hnew f Hf).
    + lia.
  - intros x [Hx| ->]%elem_of_snoc.
    + destruct (Hjust x Hx) as (f&Hf&Hfe&Hfs&Hfc). exists f. split_and!; [set_solver|done|done|].
      destruct Hfc as [Hk|(c & (Hc & Hcp & Hlong) & Hcov)]; [left; set_solver|]. right. exists c. split; [|done].
      destruct HS as [->|(-> & -> & _)]; [done|]. split_and!; [set_solver|done|].
      intros k [Hk| ->]%elem_of_snoc Hp; [by apply Hlong|].
      destruct (Hnew f Hf). apply ble_antisym; [apply Hle, Hf|by apply prefix_ble].
    + exists r. split_and!; [set_solver|done|lia|left; set_solver].
  - assert (S ⊆ S') as Hsub' by (destruct HS as [->|(-> & -> & _)]; set_solver).
    assert (∀ k c, k ∈ K ++ [r] → c ∈ S' → under k c → c ∈ S) as Hold.
    { intros k c Hk Hc [Hp Hu]. destruct HS as [->|(-> & -> & Hs)]; [done|]. apply elem_of_snoc in Hc as [Hc| ->]; [done|].
      destruct (Hu Hs). apply elem_of_snoc in Hk as [Hk| ->]; [|done].
      apply ble_antisym; [by apply prefix_ble|]. by apply Hle, Hsub. }
    intros k c Hk Hc Hu Hlong. pose proof (Hold k c Hk Hc Hu) as HcS. apply elem_of_snoc in Hk as [Hk| ->]; [apply Hneed|apply Hr]; auto.
Qed.

(** The stack of ancestors: the kept suffixes above [q], longest first. *)
Definition stack_ok (K : list Record_) (q : list Z) (st : list Record_) : Prop :=
  (∀ k, k ∈ st ↔ k ∈ K ∧ kf k `prefix_of` q) ∧
  StronglySorted (λ a b, kf b `prefix_of` kf a ∧ kf a ≠ kf b) st.

Lemma pop_ancestors_wp {S} K q st bytes (s : S) :
  stack_ok K q st → Forall (record_ok ar) st → (∀ k, k ∈ K → ble (kf k) q) → ble q bytes →
  wp (pop_ancestors ar bytes (entry <$> st))
    (λ r s', s' = s ∧ ∃ st', r = entry <$> st' ∧ stack_ok K bytes st' ∧ Forall (record_ok ar) st') (λ _ _, False) s.
Proof.
  intros [Hst Hso] Hok HK Hq.
  assert (∀ pre, Forall (λ k, ¬ kf k `prefix_of` bytes) pre → (∀ k, k ∈ pre ++ st ↔ k ∈ K ∧ kf k `prefix_of` q) →
    wp (pop_ancestors ar bytes (entry <$> st))
    (λ r s', s' = s ∧ ∃ st', r = entry <$> st' ∧ stack_ok K bytes st' ∧ Forall (record_ok ar) st') (λ _ _, False) s)
    as Hgen; [|by apply (Hgen [])].
  clear Hst. induction st as [|k st IH]; intros pre Hpre Hst; simpl.
  - apply wp_ret. split; [done|]. exists []. split_and!; [done| |constructor]. split; [|constructor].
    intros k. split; [by intros ?%elem_of_nil|]. intros [Hk Hp]. exfalso. rewrite app_nil_r in Hst.
    assert (k ∈ pre) as Hin by (apply Hst; split; [done|]; apply (prefix_between _ _ bytes); auto).
    rewrite Forall_forall in Hpre. by apply (Hpre k).
  - apply Forall_cons in Hok as [Hk Hok]. apply StronglySorted_inv in Hso as [Hso Hall].
    eapply wp_bind, wp_expect; [apply Hk|]. case_bool_decide as Hp.
    + apply wp_ret. split; [done|]. exists (k :: st). split_and!; [done| |by constructor]. split; [|by constructor].
      intros x. rewrite Forall_forall in Hall. rewrite Forall_forall in Hpre. split.
      * intros Hx. split; [apply Hst; set_solver|]. apply elem_of_cons in Hx as [->|Hx]; [done|].
        trans (kf k); [|done]. by apply Hall.
      * intros [Hx Hpx]. assert (x ∈ pre ++ k :: st) as [Hin|?]%elem_of_app; [|by destruct (Hpre x Hin)|done].
        apply Hst. split; [done|]. apply (prefix_between _ _ bytes); auto.
    + apply (IH Hso Hok (pre ++ [k])).
      * apply Forall_app. split; [done|by apply Forall_singleton].
      * intros x. rewrite -Hst. rewrite -app_assoc. done.
Qed.

(** A stack of nested keys is at most 127 deep. *)
Lemma stack_depth K q st : stack_ok K q st → Forall (record_ok ar) st → (length st ≤ 127)%nat.
Proof.
  intros [_ Hso] Hok. assert (match st with [] => True | k :: _ => 2 * length st ≤ length (kf k) end)%nat as Hb.
  { induction Hso as [|k st Hso IH Hall]; [done|]. apply Forall_cons in Hok as [(_ & Hwf & _) Hok].
    destruct st as [|k' st]; simpl in *; [by apply wf_key_len in Hwf; lia|].
    apply Forall_cons in Hall as [[Hp Hne] _]. apply Forall_cons in Hok as Hok'.
    destruct Hok' as [(_ & Hwf' & _) _].
    pose proof (wf_key_prefix _ _ Hwf' Hwf Hp (not_eq_sym Hne)). specialize (IH Hok). lia. }
  destruct st as [|k st]; [simpl; lia|]. apply Forall_cons in Hok as [(_ & Hwf & _) _].
  apply wf_key_len in Hwf. lia.
Qed.
Lemma stack_push K q st r :
  stack_ok K q st → q = kf r → (∀ k, k ∈ K → kf k ≠ kf r) → stack_ok (K ++ [r]) q (r :: st).
Proof.
  intros [Hst Hso] -> Hnew. split.
  - intros k. rewrite elem_of_cons Hst elem_of_app list_elem_of_singleton. naive_solver.
  - constructor; [done|]. apply Forall_forall. intros k [Hk Hp]%Hst. split; [done|]. by apply not_eq_sym, Hnew.
Qed.
Lemma stack_cov K q st r :
  stack_ok K q st → q = kf r →
  match st with [] => ∀ k, k ∈ K → ¬ kf k `prefix_of` kf r | c :: _ => cov K r c end.
Proof.
  intros [Hst Hso] ->. destruct st as [|c st].
  - intros k Hk Hp. assert (k ∈ []) as ?%elem_of_nil; [by apply Hst|done].
  - destruct (proj1 (Hst c) ltac:(left)) as [Hc Hp]. split_and!; [done..|].
    intros k Hk Hpk. apply StronglySorted_inv in Hso as [_ Hall]. rewrite Forall_forall in Hall.
    assert (k ∈ c :: st) as [->|Hin]%elem_of_cons; [by apply Hst|done|].
    by apply prefix_length, Hall.
Qed.
End scan.

(** ** [longest_cover] searches every label boundary *)
Lemma corder_mono a b p : ble a b → corder (cmp_bytes a p) ≤ corder (cmp_bytes b p).
Proof.
  intros Hab. destruct (cmp_bytes a p) eqn:Ea, (cmp_bytes b p) eqn:Eb; simpl; try lia; exfalso.
  - apply cmp_bytes_eq in Ea as ->. apply Hab. rewrite (cmp_flip total_cmp_bytes) Eb. done.
  - apply cmp_bytes_eq in Eb as ->. by apply Hab.
  - assert (ble a p) as Hap by (apply (ble_trans a b p Hab); unfold ble; by rewrite Eb). by apply Hap.
Qed.
Lemma strict_search ar K p :
  strict ar K → StronglySorted (λ a b, corder (cmp_bytes (key_of ar a) p) ≤ corder (cmp_bytes (key_of ar b) p)) K.
Proof.
  unfold strict. induction 1 as [|k K Hs IH Hk]; constructor; [done|].
  eapply Forall_impl; [done|]. intros b [Hb _]. by apply corder_mono.
Qed.

Definition boundaries (ls : list (list Z)) (n : nat) : list nat :=
  (λ i, wire_len (take i ls)) <$> reverse (seq 1 n).
Lemma boundaries_S ls n : boundaries ls (S n) = wire_len (take (S n) ls) :: boundaries ls n.
Proof. unfold boundaries. by rewrite seq_S reverse_app. Qed.
Lemma length_boundaries ls n : length (boundaries ls n) = n.
Proof. unfold boundaries. by rewrite length_fmap length_reverse length_seq. Qed.
Lemma take_encode ls i : take (wire_len (take i ls)) (encode ls) = encode (take i ls).
Proof.
  rewrite -{2}(take_drop i ls) encode_app -length_encode. by rewrite take_app_length.
Qed.
Lemma wire_len_twice ls : Forall rule_label ls → (2 * length ls ≤ wire_len ls)%nat.
Proof. unfold wire_len. induction 1 as [|l ls [Hl _] _ IH]; simpl; lia. Qed.

Section longest_cover_proof.
Context {SL : SliceLib} `{!SliceSpec SL}.

Lemma boundary_loop_wp {S} ls (s : S) :
  Forall rule_label ls → (wire_len ls ≤ 254)%nat →
  wp (loop (Datatypes.S (length (encode ls))) (boundary_step (encode ls)) ([], O))
    (λ r s', s' = s ∧ r = boundaries ls (length ls)) (λ _ _, False) s.
Proof.
  intros Hls Hlen. pose proof (wire_len_twice _ Hls) as Htw.
  apply (wp_loop _ (λ bp s', s' = s ∧ ∃ i, (i ≤ length ls)%nat ∧ bp.1 = boundaries ls i ∧
      bp.2 = wire_len (take i ls)) (λ bp, length (encode ls) - bp.2)%nat).
  - intros [bs pos] s' [-> (i & Hi & Hbs & Hpos)]. simpl in Hbs, Hpos. subst bs pos. unfold boundary_step.
    destruct (decide (i = length ls)) as [->|Hne].
    { rewrite lookup_ge_None_2; [|rewrite length_encode take_ge; lia]. by apply wp_ret. }
    destruct (lookup_lt_is_Some_2 ls i) as [l Hl]; [lia|].
    assert (Forall rule_label (take i ls)) as Htake by (by apply Forall_take).
    destruct (Forall_lookup_1 _ _ _ _ Hls Hl) as [Hll _].
    assert (encode ls = encode (take i ls) ++ Z.of_nat (length l) :: l ++ encode (drop (Datatypes.S i) ls)) as He.
    { rewrite -{1}(take_drop_middle ls i l Hl) encode_app. done. }
    rewrite He lookup_app_r length_encode; [|lia]. rewrite Nat.sub_diag /=.
    rewrite length_boundaries bool_decide_true; [|unfold MAX_LABELS; lia]. apply wp_ret.
    assert (wire_len (take (Datatypes.S i) ls) = wire_len (take i ls) + (1 + Z.to_nat (Z.of_nat (length l))))%nat as Hw.
    { rewrite (take_S_r _ _ _ Hl) wire_len_app /wire_len /=. lia. }
    split.
    + split; [done|]. exists (Datatypes.S i). split; [lia|]. simpl. by rewrite boundaries_S Hw.
    + simpl. rewrite length_app /= length_app length_encode. lia.
  - split; [done|]. exists O. split; [lia|done].
  - simpl. lia.
Qed.

Definition cover_found (ar : list Z) (K : list Record_) (bytes : list Z) (o : option Entry) : Prop :=
  match o with
  | None => ∀ k, k ∈ K → ¬ key_of ar k `prefix_of` bytes
  | Some e => ∃ c, c ∈ K ∧ entry c = e ∧ key_of ar c `prefix_of` bytes ∧
      ∀ k, k ∈ K → key_of ar k `prefix_of` bytes → (length (key_of ar k) ≤ length (key_of ar c))%nat
  end.

Lemma find_cover_wp {S} ar K ls n (s : S) :
  strict ar K → Forall (record_ok ar) K → (n ≤ length ls)%nat →
  (∀ k lk, k ∈ K → key_of ar k = encode lk → lk `prefix_of` ls → (length lk ≤ n)%nat) →
  wp (find_cover ar K (encode ls) (boundaries ls n))
    (λ r s', s' = s ∧ cover_found ar K (encode ls) r) (λ _ _, False) s.
Proof.
  intros Hstr Hok. rewrite Forall_forall in Hok.
  assert (∀ k, k ∈ K → key_of ar k `prefix_of` encode ls →
    ∃ lk, key_of ar k = encode lk ∧ lk `prefix_of` ls ∧ lk ≠ []) as Hlab.
  { intros k Hk Hp. destruct (Hok k Hk) as (_ & (lk & He & Hne & _) & _). exists lk.
    split_and!; [done| |done]. apply encode_prefix. by rewrite -He. }
  induction n as [|n IH]; intros Hn Hbound.
  - simpl. apply wp_ret. split; [done|]. intros k Hk Hp. destruct (Hlab k Hk Hp) as (lk & He & Hpk & Hne).
    specialize (Hbound k lk Hk He Hpk). destruct lk; simpl in *; [done|lia].
  - rewrite boundaries_S. simpl. rewrite take_encode.
    rewrite bool_decide_true; [|rewrite length_encode -{2}(take_drop (Datatypes.S n) ls) wire_len_app; lia].
    destruct (binary_search_by _ K) as [i|i] eqn:E.
    + apply search_found in E as (c & Hc & He); [|by apply strict_search].
      eapply wp_bind, wp_expect; [done|]. apply wp_ret. split; [done|].
      apply cmp_bytes_eq in He. exists c. apply list_elem_of_lookup_2 in Hc.
      split_and!; [done|done|rewrite He; apply encode_prefix; by exists (drop (Datatypes.S n) ls); rewrite take_drop|].
      intros k Hk Hp. destruct (Hlab k Hk Hp) as (lk & Hek & Hpk & _).
      rewrite He Hek. apply prefix_length, encode_prefix.
      apply (prefix_shorter _ _ ls); [done|by exists (drop (Datatypes.S n) ls); rewrite take_drop|].
      rewrite length_take. specialize (Hbound k lk Hk Hek Hpk). lia.
    + apply IH; [lia|]. intros k lk Hk He Hpk.
      specialize (Hbound k lk Hk He Hpk). destruct (decide (length lk = Datatypes.S n)) as [Heq|?]; [|lia].
      eapply search_missing in E; [|by apply strict_search|done]. destruct E.
      apply cmp_bytes_eq. rewrite He. f_equal. destruct Hpk as [more ->]. by rewrite -Heq take_app_length.
Qed.

Lemma longest_cover_wp {S} ar K bytes (s : S) :
  strict ar K → Forall (record_ok ar) K → wf_key bytes →
  wp (longest_cover ar K bytes) (λ r s', s' = s ∧ cover_found ar K bytes r) (λ _ _, False) s.
Proof.
  intros Hstr Hok (ls & -> & _ & Hls & Hlen). rewrite length_encode in Hlen.
  unfold longest_cover. apply wp_bind. eapply wp_mono; [| |by apply boundary_loop_wp]; [|done].
  intros ends s' [-> ->]. apply find_cover_wp; [done..|]. intros k lk _ _ Hp. by apply prefix_length.
Qed.
End longest_cover_proof.

(** ** The in-place compaction of one group *)
Lemma slice_insert {A} (l : list A) lo hi i x :
  (hi ≤ i)%nat → slice (<[i:=x]> l) lo hi = slice l lo hi.
Proof.
  intros Hi. unfold slice. rewrite length_insert. case_bool_decide as Hd; [|done]. f_equal.
  rewrite !take_drop_commute. f_equal. rewrite take_insert_ge //. lia.
Qed.
Lemma take_insert_next {A} (l : list A) i x :
  (i < length l)%nat → take (i + 1) (<[i:=x]> l) = take i l ++ [x].
Proof.
  intros Hi. rewrite Nat.add_1_r (take_S_r _ _ x); [|by apply list_lookup_insert_eq].
  by rewrite take_insert_ge.
Qed.
Lemma drop_cons_lookup {A} (l : list A) i x rest : drop i l = x :: rest → l !! i = Some x.
Proof.
  intros Hd. rewrite -(Nat.add_0_r i) -lookup_drop Hd. done.
Qed.

Section scan_group_proof.
Context {H : Host} {SL : SliceLib} `{!SliceSpec SL}.
Context (b : Builder) (g : nat) (ranges : list (nat * nat)).
Notation ar := (items (arena b)).
Notation rcmp := (λ x y, record_cmp ar x y ≠ Gt).

Record scan_inv (p0 : Prep) (todo P : list Record_) (p : Prep) (s : Scan) (D K : list Record_) : Prop := {
  si_len : length (p_records p) = length (p_records p0);
  si_todo : todo = D ++ drop (read p) (p_records p);
  si_group : Forall (λ r, group_index (group r) = g) D;
  si_kept : take (write p) (p_records p) = take (write p0) (p_records p0) ++ K;
  si_write : (write p = write p0 + length K)%nat;
  si_order : (write p ≤ read p)%nat;
  si_read : (read p = read p0 + length D)%nat;
  si_scanned : scanned ar (local_slots b) (classes b) g D K (if is_suffix g then K else P);
  si_last : last_ s = entry <$> last D;
  si_stack : is_suffix g = true → ∃ st, ancestors s = entry <$> st ∧ Forall (record_ok ar) st ∧
    match last D with None => st = [] | Some l => stack_ok ar K (key_of ar l) st end;
  si_prev : is_suffix g = false → ∃ lo hi, ranges !! (g - 1)%nat = Some (lo, hi) ∧ (hi ≤ write p0)%nat ∧
    slice (p_records p) lo hi = Some P;
}.

Context (p0 : Prep) (todo P : list Record_).
Context (Hsorted : StronglySorted rcmp todo) (Hok : Forall (record_ok ar) todo).
Context (HP : strict ar P) (HPok : Forall (record_ok ar) P).

(** The next record follows those read. *)
Lemma next_rle D r rest :
  todo = D ++ r :: rest → Forall (λ r, group_index (group r) = g) D → group_index (group r) = g →
  Forall (λ d, rle ar d r) D.
Proof.
  intros Ht HD Hr. rewrite Forall_forall in HD. apply Forall_forall. intros d Hd.
  apply record_cmp_rle.
  - specialize (HD d Hd). rewrite -Hr in HD. by destruct (group d), (group r).
  - pose proof Hsorted as Hs. rewrite Ht in Hs. by apply (StronglySorted_app_1_elem_of _ _ _ _ _ Hs); [|left].
Qed.

(** Equal keys are adjacent: a key unlike the last one read is new. *)
Lemma fresh_key D r rest :
  todo = D ++ r :: rest → Forall (λ r, group_index (group r) = g) D → group_index (group r) = g →
  (∀ l, last D = Some l → key_of ar r ≠ key_of ar l) → ∀ d, d ∈ D → key_of ar d ≠ key_of ar r.
Proof.
  intros Ht HD Hg Hlast d Hd Hdr. pose proof (next_rle D r rest Ht HD Hg) as Hle. rewrite Forall_forall in Hle.
  destruct (last D) as [l|] eqn:El; [|apply last_None in El as ->; by apply elem_of_nil in Hd].
  apply last_Some in El as [D' HD']. apply (Hlast l eq_refl). symmetry.
  apply ble_antisym; [apply Hle; set_solver|]. rewrite -Hdr.
  rewrite HD' in Hd. apply elem_of_snoc in Hd as [Hd| ->]; [|apply ble_refl].
  rewrite HD' in HD. apply Forall_app in HD as [Hgr Hgl%Forall_inv].
  assert (todo = D' ++ l :: r :: rest) as Ht' by (by rewrite Ht HD' -app_assoc).
  pose proof (next_rle D' l (r :: rest) Ht' Hgr Hgl) as Hl. rewrite Forall_forall in Hl. apply Hl, Hd.
Qed.

Lemma cover_of_wp p s D K r rest n :
  scan_inv p0 todo P p s D K → todo = D ++ r :: rest → group_index (group r) = g →
  wp (cover_of b g ranges p s (key_of ar r))
    (λ cs n', n' = n ∧ cover_found ar (if is_suffix g then K else P) (key_of ar r) cs.1 ∧
      (is_suffix g = true → ∃ st, cs.2 = entry <$> st ∧ Forall (record_ok ar) st ∧
        stack_ok ar K (key_of ar r) st)) (λ _ _, False) n.
Proof.
  intros HI Ht Hg. pose proof (next_rle D r rest Ht (si_group _ _ _ _ _ _ _ HI) Hg) as Hle.
  rewrite Forall_forall in Hle. pose proof (si_scanned _ _ _ _ _ _ _ HI) as Hsc.
  unfold cover_of. destruct (is_suffix g) eqn:Esuf.
  - destruct (si_stack _ _ _ _ _ _ _ HI Esuf) as (st & -> & Hst & Hstack). apply wp_bind.
    assert (stack_ok ar K (default (key_of ar r) (key_of ar <$> last D)) st) as Hstack'.
    { destruct (last D) as [l|] eqn:El; [done|]. simpl. subst st. split; [|constructor].
      apply last_None in El as ->. intros k. split; [by intros ?%elem_of_nil|].
      intros [?%(sc_sub _ _ _ _ _ _ _ Hsc)%elem_of_nil _]. done. }
    eapply wp_mono; [| |apply (pop_ancestors_wp ar K _ st (key_of ar r) n Hstack' Hst)]; [|done| |].
    + intros st1 n1 [-> (st' & -> & Hst' & Hok')]. apply wp_ret. split; [done|]. split; [|by eauto].
      pose proof (stack_cov ar K _ st' r Hst' eq_refl) as Hcov. destruct st' as [|c st']; simpl; [done|].
      destruct Hcov as (?&?&?). by exists c.
    + intros k Hk%(sc_sub _ _ _ _ _ _ _ Hsc). destruct (last D) as [l|] eqn:El; simpl; [|apply Hle, Hk].
      apply last_Some in El as [D' HD]. rewrite HD in Hk. apply elem_of_snoc in Hk as [Hk| ->]; [|apply ble_refl].
      pose proof (si_group _ _ _ _ _ _ _ HI) as Hgr. rewrite HD in Hgr.
      apply Forall_app in Hgr as [Hgr Hgl%Forall_inv].
      assert (todo = D' ++ l :: r :: rest) as Ht' by (by rewrite Ht HD -app_assoc).
      pose proof (next_rle D' l (r :: rest) Ht' Hgr Hgl) as Hl. rewrite Forall_forall in Hl. apply Hl, Hk.
    + destruct (last D) as [l|] eqn:El; simpl; [|apply ble_refl]. apply last_Some in El as [D' ->].
      apply Hle. set_solver.
  - destruct (si_prev _ _ _ _ _ _ _ HI Esuf) as (lo & hi & Hr & _ & Hsl).
    eapply wp_bind, wp_expect; [done|]. eapply wp_bind, wp_expect; [done|]. apply wp_bind.
    eapply wp_mono; [| |apply longest_cover_wp]; [|done..|].
    + intros c n' [-> Hc]. apply wp_ret. done.
    + apply (proj1 (Forall_forall _ _) Hok). rewrite Ht. set_solver.
Qed.

(** The invariant once [r] is read: dropped, or kept at the write position. *)
Lemma scan_inv_drop p s D K r rest st :
  scan_inv p0 todo P p s D K → todo = D ++ r :: rest → group_index (group r) = g →
  drop (read p) (p_records p) = r :: rest →
  (∃ l, l ∈ D ∧ key_of ar l = key_of ar r) ∨
    (∃ c, cov ar (if is_suffix g then K else P) r c ∧
       covers (local_slots b) (classes b) g (source_slot (entry c)) (source_slot (entry r)) = true) →
  (is_suffix g = true → ∃ st', st = entry <$> st' ∧ Forall (record_ok ar) st' ∧ stack_ok ar K (key_of ar r) st') →
  scan_inv p0 todo P {| p_records := p_records p; read := read p + 1; write := write p |}
    {| ancestors := st; last_ := Some (entry r) |} (D ++ [r]) K.
Proof.
  intros HI Ht Hg Hd Hred Hst. pose proof (next_rle D r rest Ht (si_group _ _ _ _ _ _ _ HI) Hg) as Hle.
  destruct HI as [Hlen Htodo Hgr Hk Hw Ho Hr Hsc Hl Hs Hp]. split; simpl; try done.
  - rewrite -drop_drop Hd /= -app_assoc drop_0. done.
  - apply Forall_app. split; [done|by constructor].
  - lia.
  - rewrite length_app /=. lia.
  - by apply scanned_drop.
  - by rewrite last_snoc.
  - intros Hsuf. destruct (Hst Hsuf) as (st' & ? & ? & ?). exists st'. by rewrite last_snoc.
Qed.
Lemma scan_inv_keep p s D K r rest st :
  scan_inv p0 todo P p s D K → todo = D ++ r :: rest → group_index (group r) = g →
  drop (read p) (p_records p) = r :: rest → (∀ d, d ∈ D → key_of ar d ≠ key_of ar r) →
  (let S := if is_suffix g then K else P in ∀ c, c ∈ S → under ar g r c →
     (∀ d, d ∈ S → under ar g r d → (length (key_of ar d) ≤ length (key_of ar c))%nat) →
     covers (local_slots b) (classes b) g (source_slot (entry c)) (source_slot (entry r)) = false) →
  (is_suffix g = true → ∃ st', st = entry <$> (r :: st') ∧ Forall (record_ok ar) (r :: st') ∧
     stack_ok ar K (key_of ar r) st') →
  (write p < length (p_records p))%nat →
  scan_inv p0 todo P {| p_records := <[write p := r]> (p_records p); read := read p + 1; write := write p + 1 |}
    {| ancestors := st; last_ := Some (entry r) |} (D ++ [r]) (K ++ [r]).
Proof.
  intros HI Ht Hg Hd Hnew Hneed Hst Hin.
  pose proof (next_rle D r rest Ht (si_group _ _ _ _ _ _ _ HI) Hg) as Hle.
  destruct HI as [Hlen Htodo Hgr Hk Hw Ho Hr Hsc Hl Hs Hp]. split; simpl.
  - by rewrite length_insert.
  - rewrite drop_insert_lt; [|lia]. rewrite -drop_drop Hd /= -app_assoc drop_0. done.
  - apply Forall_app. split; [done|by constructor].
  - rewrite take_insert_next // Hk app_assoc. done.
  - rewrite length_app /=. lia.
  - lia.
  - rewrite length_app /=. lia.
  - apply (scanned_keep _ _ _ _ D K (if is_suffix g then K else P)); [done..| |done]. destruct (is_suffix g); auto.
  - by rewrite last_snoc.
  - intros Hsuf. destruct (Hst Hsuf) as (st' & ? & ? & ?). exists (r :: st'). rewrite last_snoc.
    split_and!; [done..|]. apply stack_push; [done..|]. intros k Hk'. by apply Hnew, (sc_sub _ _ _ _ _ _ _ Hsc).
  - intros Hsuf. destruct (Hp Hsuf) as (lo & hi & ? & ? & ?). exists lo, hi. split_and!; [done..|].
    rewrite slice_insert //. lia.
Qed.

(** A record that its cover does not make redundant is needed. *)
Lemma cover_needed S r co : strict ar S → cover_found ar S (key_of ar r) co →
  (is_suffix g = true → ∀ k, k ∈ S → key_of ar k ≠ key_of ar r) →
  match co with None => false | Some c => covers (local_slots b) (classes b) g (source_slot c) (source_slot (entry r)) end = false →
  ∀ c, c ∈ S → under ar g r c → (∀ d, d ∈ S → under ar g r d → (length (key_of ar d) ≤ length (key_of ar c))%nat) →
    covers (local_slots b) (classes b) g (source_slot (entry c)) (source_slot (entry r)) = false.
Proof.
  intros Hstr Hco Hne Hcov c Hc [Hp Hu] Hlong. destruct co as [e|]; [|by destruct (Hco c Hc)].
  destruct Hco as (c0 & Hc0 & <- & Hp0 & Hlong0). assert (c0 = c) as <-; [|done].
  assert (length (key_of ar c0) ≤ length (key_of ar c))%nat as Hle by (apply Hlong; [done|]; split; [done|]; intros Hs; by apply Hne).
  pose proof (Hlong0 c Hc Hp) as Hge. apply (strict_unique ar S); [done..|]. apply prefix_length_eq; [by apply (prefix_shorter _ _ (key_of ar r))|lia].
Qed.
Lemma scan_record_wp p s D K r rest n :
  scan_inv p0 todo P p s D K → todo = D ++ r :: rest → group_index (group r) = g →
  drop (read p) (p_records p) = r :: rest →
  wp (scan_record b g ranges p s r) (λ ps n', ∃ K', scan_inv p0 todo P ps.1 ps.2 (D ++ [r]) K')
    (λ e _, cancelled e) n.
Proof.
  intros HI Ht Hg Hd. unfold scan_record. apply wp_bind.
  assert (∀ Q : unit → unit * nat → Prop, (∀ m, Q tt m) → wp (if bool_decide (read p mod 4096 = 0)%nat then check
    else ret tt) Q (λ e _, cancelled e) n) as Hchk.
  { intros Q HQ. case_bool_decide; [|by apply wp_ret]. destruct n. by apply wp_check. }
  apply Hchk. intros m. clear Hchk n.
  assert (record_ok ar r) as (Hkey & Hwf & Hslot).
  { apply (proj1 (Forall_forall _ _) Hok). rewrite Ht. set_solver. }
  eapply wp_bind, wp_expect; [exact Hkey|].
  pose proof (next_rle D r rest Ht (si_group _ _ _ _ _ _ _ HI) Hg) as Hle. rewrite Forall_forall in Hle.
  assert (∀ l, last D = Some l → record_ok ar l) as Hlok.
  { intros l Hl. apply (proj1 (Forall_forall _ _) Hok). rewrite Ht. apply last_Some in Hl as [? ->]. set_solver. }
  set (dup := match last D with None => false | Some l => bool_decide (key_of ar r = key_of ar l) end).
  apply wp_bind, (wp_mono _ (λ a m', a = dup ∧ m' = m) _ (λ _ _, False)); [|done|].
  2: { rewrite (si_last _ _ _ _ _ _ _ HI). unfold dup. destruct (last D) as [l|]; simpl; [|by apply wp_ret].
    destruct (Hlok l eq_refl) as (Hk & _). eapply wp_bind, wp_expect; [exact Hk|]. by apply wp_ret. }
  intros a m1 [-> ->]. apply wp_bind.
  eapply wp_mono; [| |by apply (cover_of_wp p s D K r rest)]; [|done].
  intros [co st] m' (-> & Hco & Hst). simpl in Hco, Hst.
  assert (dup = true → ∃ l, l ∈ D ∧ key_of ar l = key_of ar r) as Hdup1.
  { unfold dup. destruct (last D) as [l|] eqn:El; [|done]. intros He%bool_decide_eq_true.
    exists l. split; [|done]. apply last_Some in El as [? ->]. set_solver. }
  assert (dup = false → ∀ d, d ∈ D → key_of ar d ≠ key_of ar r) as Hdup2.
  { intros Hd0. apply (fresh_key D r rest Ht (si_group _ _ _ _ _ _ _ HI) Hg). intros l Hl He.
    unfold dup in Hd0. rewrite Hl in Hd0. by apply bool_decide_eq_false in Hd0. }
  set (red := dup || match co with
    | None => false
    | Some c => covers (local_slots b) (classes b) g (source_slot c) (source_slot (entry r))
    end).
  destruct red eqn:Er; simpl.
  - apply wp_bind, wp_ret, wp_ret. exists K. simpl. apply (scan_inv_drop p s D K r rest); [done..| |done].
    unfold red in Er. destruct dup; [left; auto|]. simpl in Er. destruct co as [e|]; [|done].
    destruct Hco as (c & Hc & <- & Hp & Hlong). right. exists c. split; [|done]. done.
  - assert (write p < length (p_records p))%nat as Hin.
    { pose proof (si_order _ _ _ _ _ _ _ HI). apply drop_cons_lookup, lookup_lt_Some in Hd. lia. }
    assert (dup = false) as Hd0 by (unfold red in Er; by destruct dup).
    assert (let S := if is_suffix g then K else P in ∀ c, c ∈ S → under ar g r c →
      (∀ d, d ∈ S → under ar g r d → (length (key_of ar d) ≤ length (key_of ar c))%nat) →
      covers (local_slots b) (classes b) g (source_slot (entry c)) (source_slot (entry r)) = false) as Hneed.
    { pose proof (si_scanned _ _ _ _ _ _ _ HI) as Hsc. apply (cover_needed _ r co); [|done| |by unfold red in Er; rewrite Hd0 in Er].
      - destruct (is_suffix g); [apply Hsc|done].
      - intros Hsuf k. rewrite Hsuf. intros Hk. by apply Hdup2, Hsc. }
    destruct (is_suffix g) eqn:Esuf; simpl.
    + destruct (Hst eq_refl) as (st' & -> & Hst' & Hso). rewrite length_fmap.
      pose proof (stack_depth ar K _ st' Hso Hst'). rewrite bool_decide_true; [|unfold MAX_LABELS; lia].
      apply wp_bind, wp_ret. rewrite bool_decide_true //. apply wp_ret. exists (K ++ [r]).
      apply (scan_inv_keep p s D K r rest); [done..|by apply Hdup2|by rewrite Esuf| |done]. intros _. exists st'.
      split_and!; [done| |done]. constructor; [|done]. done.
    + apply wp_bind, wp_ret. rewrite bool_decide_true //. apply wp_ret. exists (K ++ [r]).
      apply (scan_inv_keep p s D K r rest); [done..|by apply Hdup2|by rewrite Esuf| |done]. by rewrite Esuf.
Qed.

(** The group's records end where the next group begins. *)
Record scan_done (p : Prep) (D K : list Record_) : Prop := {
  sd_len : length (p_records p) = length (p_records p0);
  sd_todo : todo = D ++ drop (read p) (p_records p);
  sd_group : Forall (λ r, group_index (group r) = g) D;
  sd_rest : Forall (λ r, (g < group_index (group r))%nat) (drop (read p) (p_records p));
  sd_kept : take (write p) (p_records p) = take (write p0) (p_records p0) ++ K;
  sd_write : (write p = write p0 + length K)%nat;
  sd_order : (write p ≤ read p)%nat;
  sd_scanned : scanned ar (local_slots b) (classes b) g D K (if is_suffix g then K else P);
}.

Lemma scan_group_wp n :
  drop (read p0) (p_records p0) = todo → (write p0 ≤ read p0)%nat →
  Forall (λ r, (g ≤ group_index (group r))%nat) todo →
  (is_suffix g = false → ∃ lo hi, ranges !! (g - 1)%nat = Some (lo, hi) ∧ (hi ≤ write p0)%nat ∧
    slice (p_records p0) lo hi = Some P) →
  wp (scan_group b g ranges p0) (λ p _, ∃ D K, scan_done p D K) (λ e _, cancelled e) n.
Proof.
  intros Htodo Hwr Hge Hprev. unfold scan_group.
  apply (wp_loop _ (λ ps _, ∃ D K, scan_inv p0 todo P ps.1 ps.2 D K)
    (λ ps, length (p_records p0) - read ps.1)%nat).
  - intros [p s] m (D & K & HI). simpl in HI. unfold scan_step. simpl.
    pose proof (si_todo _ _ _ _ _ _ _ HI) as Ht.
    assert (∀ q, q = p → Forall (λ r, (g < group_index (group r))%nat) (drop (read q) (p_records q)) →
      ∃ D K, scan_done q D K) as Hdone.
    { intros q -> Hrest. exists D, K. destruct HI. by split. }
    destruct (p_records p !! read p) as [r|] eqn:Er.
    2: { apply wp_ret, Hdone; [done|]. rewrite drop_ge; [constructor|by apply lookup_ge_None]. }
    pose proof (drop_S _ _ _ Er) as Hd. rewrite Hd in Ht. case_bool_decide as Hg.
    + apply wp_bind. eapply wp_mono; [| |by apply (scan_record_wp p s D K r _ m HI Ht Hg Hd)]; [|done].
      intros ps m' [K' HI']. apply wp_ret. split; [by eauto|].
      pose proof (si_read _ _ _ _ _ _ _ HI') as Hr'. pose proof (si_read _ _ _ _ _ _ _ HI) as Hr.
      pose proof (si_len _ _ _ _ _ _ _ HI) as Hl. apply lookup_lt_Some in Er.
      rewrite length_app /= in Hr'. lia.
    + apply wp_ret, Hdone; [done|]. rewrite Hd. pose proof Hge as Hge'. pose proof Hsorted as Hs.
      rewrite Ht in Hge', Hs. apply Forall_app in Hge' as [_ Hge'].
      apply StronglySorted_app_1_r, StronglySorted_inv in Hs as [_ Hs].
      apply Forall_cons in Hge' as [Hgr Hge']. constructor; [lia|].
      eapply Forall_impl; [exact Hs|]. intros x Hx. unfold record_cmp in Hx.
      destruct (Z.compare_spec (Z.of_nat (group_index (group r))) (Z.of_nat (group_index (group x)))); simpl in Hx; lia || done.
  - exists [], []. split; simpl; rewrite ?app_nil_r; try done; try lia; [apply scanned_nil|by exists []].
  - simpl. lia.
Qed.
End scan_group_proof.

Lemma slice_kept {A} (l pre k : list A) w w' :
  take w' l = pre ++ k → (w' = w + length k)%nat → pre = take w l → (w' ≤ length l)%nat →
  slice l w w' = Some k.
Proof.
  intros Ht -> -> Hl. unfold slice. rewrite bool_decide_true; [|lia]. f_equal.
  rewrite take_drop_commute. replace (w + (w + length k - w))%nat with (w + length k)%nat by lia.
  rewrite Ht drop_app_ge length_take; [|lia]. rewrite Nat.min_l; [|lia]. by rewrite Nat.sub_diag.
Qed.

(** ** All four groups *)
Record groups_done (b : Builder) (sorted kept : list Record_) (D K : Group → list Record_) : Prop := {
  gd_sorted : sorted = D AllowSuffix ++ D AllowExact ++ D BlockSuffix ++ D BlockExact;
  gd_kept : kept = K AllowSuffix ++ K AllowExact ++ K BlockSuffix ++ K BlockExact;
  gd_group γ r : r ∈ D γ → group r = γ;
  gd_scanned γ : scanned (items (arena b)) (local_slots b) (classes b) (group_index γ) (D γ) (K γ)
    (K (suffix_of_group γ));
}.

Lemma slice_middle {A} (a k c : list A) : slice (a ++ k ++ c) (length a) (length a + length k) = Some k.
Proof.
  unfold slice. rewrite bool_decide_true; [|rewrite !length_app; lia]. f_equal.
  rewrite drop_app_length. replace (length a + length k - length a)%nat with (length k) by lia.
  by rewrite take_app_length.
Qed.
Lemma kept_fits {A} (l l' k : list A) w w' :
  take w' l' = take w l ++ k → (w' = w + length k)%nat → length l = length l' → (w ≤ length l)%nat →
  (w' ≤ length l')%nat.
Proof. intros Ht Hw Hl Hle. apply (f_equal length) in Ht. rewrite length_app !length_take in Ht. lia. Qed.
Lemma Forall_sub {A} (P : A → Prop) (l k : list A) : Forall P l → k ⊆ l → Forall P k.
Proof. rewrite !Forall_forall. intros Hl Hk x Hx. by apply Hl, Hk. Qed.

Section prepare_proof.
Context {H : Host} {SL : SliceLib} `{!SliceSpec SL}.

(** A suffix group and the exact group after it. *)
Record pair_done (b : Builder) (g : nat) (p0 p : Prep) (todo D K D' K' : list Record_) : Prop := {
  pd_todo : todo = D ++ D' ++ drop (read p) (p_records p);
  pd_rest : Forall (λ r, (S (S g) ≤ group_index (group r))%nat) (drop (read p) (p_records p));
  pd_group : Forall (λ r, group_index (group r) = g) D;
  pd_group' : Forall (λ r, group_index (group r) = S g) D';
  pd_kept : take (write p) (p_records p) = take (write p0) (p_records p0) ++ K ++ K';
  pd_write : (write p = write p0 + length K + length K')%nat;
  pd_order : (write p ≤ read p)%nat;
  pd_scanned : scanned (items (arena b)) (local_slots b) (classes b) g D K K;
  pd_scanned' : scanned (items (arena b)) (local_slots b) (classes b) (S g) D' K' K;
}.

Lemma scan_pair_wp b g gs ranges p0 todo n (Q : Prep * list (nat * nat) → unit * nat → Prop) :
  is_suffix g = true → is_suffix (S g) = false → length ranges = g →
  StronglySorted (λ x y, record_cmp (items (arena b)) x y ≠ Gt) todo →
  Forall (record_ok (items (arena b))) todo →
  drop (read p0) (p_records p0) = todo → (write p0 ≤ read p0)%nat → (write p0 ≤ length (p_records p0))%nat →
  Forall (λ r, (g ≤ group_index (group r))%nat) todo →
  (∀ p D K D' K' n', pair_done b g p0 p todo D K D' K' → (write p ≤ length (p_records p))%nat →
    wp (scan_groups b gs p (ranges ++ [(write p0, write p0 + length K)%nat;
      (write p0 + length K, write p0 + length K + length K')%nat])) Q (λ e _, cancelled e) n') →
  wp (scan_groups b (g :: S g :: gs) p0 ranges) Q (λ e _, cancelled e) n.
Proof.
  intros Hs1 Hs2 Hlen Hsorted Hok Htodo Hwr Hwl Hge HQ. simpl. apply wp_bind.
  eapply wp_mono; [| |apply (scan_group_wp b g ranges p0 todo [])]; [|done|..]; try done;
    [|constructor|by rewrite Hs1].
  intros p1 n1 (D & K & H1). apply wp_bind. pose proof (sd_todo _ _ _ _ _ _ _ _ H1) as Ht1.
  pose proof (sd_scanned _ _ _ _ _ _ _ _ H1) as Hsc. rewrite Hs1 in Hsc.
  pose proof Hsorted as Hsorted1. rewrite Ht1 in Hsorted1. apply StronglySorted_app_1_r in Hsorted1.
  pose proof Hok as Hok1. rewrite Ht1 in Hok1. apply Forall_app in Hok1 as [HokD Hok1].
  pose proof (sd_len _ _ _ _ _ _ _ _ H1) as Hl1. pose proof (sd_write _ _ _ _ _ _ _ _ H1) as Hw1.
  pose proof (sd_order _ _ _ _ _ _ _ _ H1) as Ho1.
  pose proof (kept_fits _ _ _ _ _ (sd_kept _ _ _ _ _ _ _ _ H1) Hw1 (eq_sym Hl1) Hwl) as Hwl1.
  eapply wp_mono; [| |apply (scan_group_wp b (S g) _ p1 _ K Hsorted1 Hok1)]; [|done|..]; try done.
  - intros p2 n2 (D' & K' & H2). pose proof (sd_scanned _ _ _ _ _ _ _ _ H2) as Hsc'. rewrite Hs2 in Hsc'.
    pose proof (sd_write _ _ _ _ _ _ _ _ H2) as Hw2. rewrite Hw2 Hw1 -app_assoc /=.
    apply (HQ p2 D K D' K' n2); [|].
    + split; try done; [| | | | |by rewrite Hw2 Hw1|]; try by apply H1 || apply H2.
      * by rewrite Ht1 {1}(sd_todo _ _ _ _ _ _ _ _ H2).
      * rewrite (sd_kept _ _ _ _ _ _ _ _ H2) (sd_kept _ _ _ _ _ _ _ _ H1) app_assoc. done.
    + apply (kept_fits _ _ _ _ _ (sd_kept _ _ _ _ _ _ _ _ H2) Hw2 (eq_sym (sd_len _ _ _ _ _ _ _ _ H2)) Hwl1).
  - apply Hsc.
  - apply (Forall_sub _ D); [done|apply Hsc].
  - apply H1.
  - intros _. exists (write p0), (write p1). rewrite lookup_app_r; [|lia].
    split_and!; [by replace (S g - 1 - length ranges)%nat with O by lia|done|].
    apply (slice_kept _ (take (write p0) (p_records p0)) K); [apply H1|done| |done].
    pose proof (f_equal (take (write p0)) (sd_kept _ _ _ _ _ _ _ _ H1)) as Hk.
    rewrite take_take take_app_le ?length_take in Hk; [|lia]. rewrite take_take in Hk.
    rewrite !Nat.min_l in Hk; lia || done.
Qed.

Lemma scan_groups_wp b sorted n :
  StronglySorted (λ x y, record_cmp (items (arena b)) x y ≠ Gt) sorted →
  Forall (record_ok (items (arena b))) sorted →
  wp (scan_groups b [0; 1; 2; 3]%nat {| p_records := sorted; read := 0; write := 0 |} [])
    (λ pr _, ∃ D K, groups_done b sorted (take (write pr.1) (p_records pr.1)) D K ∧
      mapM (λ r, slice (take (write pr.1) (p_records pr.1)) r.1 r.2) pr.2
        = Some [K AllowSuffix; K AllowExact; K BlockSuffix; K BlockExact])
    (λ e _, cancelled e) n.
Proof.
  intros Hsorted Hok.
  apply (scan_pair_wp b 0 _ [] _ sorted); try done; [simpl; lia|apply Forall_true; lia|].
  intros p1 D0 K0 D1 K1 n1 H1 Hl1. pose proof (pd_todo _ _ _ _ _ _ _ _ _ H1) as Ht1.
  pose proof (pd_write _ _ _ _ _ _ _ _ _ H1) as Hw1. simpl in Hw1.
  apply (scan_pair_wp b 2 _ _ _ (drop (read p1) (p_records p1))); try done.
  - rewrite Ht1 app_assoc in Hsorted. by apply StronglySorted_app_1_r in Hsorted.
  - rewrite Ht1 app_assoc in Hok. by apply Forall_app in Hok as [_ ?].
  - apply H1.
  - apply H1.
  - intros p2 D2 K2 D3 K3 n2 H2 Hl2. simpl. apply wp_ret. simpl.
    pose proof (pd_todo _ _ _ _ _ _ _ _ _ H2) as Ht2.
    assert (drop (read p2) (p_records p2) = []) as Hend.
    { pose proof (pd_rest _ _ _ _ _ _ _ _ _ H2) as Hr.
      destruct (drop (read p2) (p_records p2)) as [|r l]; [done|]. apply Forall_inv in Hr. destruct (group r); simpl in Hr; lia. }
    rewrite Hend app_nil_r in Ht2.
    assert (take (write p2) (p_records p2) = K0 ++ K1 ++ K2 ++ K3) as Hkept.
    { rewrite (pd_kept _ _ _ _ _ _ _ _ _ H2) (pd_kept _ _ _ _ _ _ _ _ _ H1) /= -!app_assoc. done. }
    set (pick a b' c d (γ : Group) := match γ with
      | AllowSuffix => a | AllowExact => b' | BlockSuffix => c | BlockExact => d end : list Record_).
    exists (pick D0 D1 D2 D3), (pick K0 K1 K2 K3). split.
    + split; simpl; [by rewrite Ht1 Ht2|done| |].
      * assert (∀ γ l r, Forall (λ r, group_index (group r) = group_index γ) l → r ∈ l → group r = γ) as Hgr.
        { intros γ l r Hl Hr. rewrite Forall_forall in Hl. specialize (Hl r Hr). by destruct (group r), γ. }
        intros [] r; simpl; apply Hgr; apply H1 || apply H2.
      * intros []; simpl; apply H1 || apply H2.
    + rewrite Hkept Hw1 /=.
      assert (slice (K0 ++ K1 ++ K2 ++ K3) 0 (length K0) = Some K0) as ->
        by apply (slice_middle [] K0 (K1 ++ K2 ++ K3)).
      rewrite slice_middle /=. replace (K0 ++ K1 ++ K2 ++ K3) with ((K0 ++ K1) ++ K2 ++ K3) by (by rewrite -!app_assoc).
      rewrite -(length_app K0 K1) slice_middle /=.
      replace ((K0 ++ K1) ++ K2 ++ K3) with (((K0 ++ K1) ++ K2) ++ K3 ++ []) by (by rewrite app_nil_r -!app_assoc).
      rewrite -(length_app (K0 ++ K1) K2) slice_middle. done.
Qed.
End prepare_proof.

Section reduced_groups.
Context {b : Builder} {sorted kept : list Record_} {D K : Group → list Record_}.
Context (Hgd : groups_done b sorted kept D K).
Notation ar := (items (arena b)).

Lemma kept_group γ r : r ∈ K γ → group r = γ.
Proof. intros Hr. apply (gd_group _ _ _ _ _ Hgd). by apply (sc_sub _ _ _ _ _ _ _ (gd_scanned _ _ _ _ _ Hgd γ)). Qed.
Lemma in_sorted r : r ∈ sorted ↔ r ∈ D (group r).
Proof.
  rewrite (gd_sorted _ _ _ _ _ Hgd) !elem_of_app. split.
  - intros [Hr|[Hr|[Hr|Hr]]]; by rewrite (gd_group _ _ _ _ _ Hgd _ _ Hr).
  - destruct (group r); auto.
Qed.
Lemma in_kept r : r ∈ kept ↔ r ∈ K (group r).
Proof.
  rewrite (gd_kept _ _ _ _ _ Hgd) !elem_of_app. split.
  - intros [Hr|[Hr|[Hr|Hr]]]; by rewrite (kept_group _ _ Hr).
  - destruct (group r); auto.
Qed.

Lemma reduced_groups :
  reduced (local_slots b) (classes b) (rule_of ar <$> sorted) (rule_of ar <$> kept).
Proof.
  split.
  - intros ? (r & -> & Hr%in_kept)%list_elem_of_fmap. apply list_elem_of_fmap_2, in_sorted.
    by apply (sc_sub _ _ _ _ _ _ _ (gd_scanned _ _ _ _ _ Hgd _)).
  - intros ? ? (r1 & -> & H1%in_kept)%list_elem_of_fmap (r2 & -> & H2%in_kept)%list_elem_of_fmap Hg Hk.
    simpl in *. rewrite -Hg in H2. f_equal.
    by apply (strict_unique ar _ r1 r2 (sc_strict _ _ _ _ _ _ _ (gd_scanned _ _ _ _ _ Hgd (group r1)))).
  - intros ? ? (r1 & -> & H1%in_kept)%list_elem_of_fmap (r2 & -> & H2%in_sorted)%list_elem_of_fmap Hg Hk.
    simpl in *. rewrite -Hg in H2. by apply (sc_lowest _ _ _ _ _ _ _ (gd_scanned _ _ _ _ _ Hgd (group r1))).
  - intros ? (r & -> & Hr%in_sorted)%list_elem_of_fmap.
    destruct (sc_just _ _ _ _ _ _ _ (gd_scanned _ _ _ _ _ Hgd (group r)) r Hr) as (f & Hf & Hk & Hs & Hc).
    pose proof (gd_group _ _ _ _ _ Hgd _ _ Hf) as Hgf.
    exists (rule_of ar f). split_and!; simpl; try done.
    { apply list_elem_of_fmap_2, in_sorted. by rewrite Hgf. }
    destruct Hc as [Hc|(c & (Hc & Hp & Hlong) & Hcov)].
    + left. apply list_elem_of_fmap_2, in_kept. by rewrite Hgf.
    + right. exists (rule_of ar c). pose proof (kept_group _ _ Hc) as Hgc. split_and!; simpl; try done.
      * apply list_elem_of_fmap_2, in_kept. by rewrite Hgc.
      * by rewrite Hgc Hgf.
      * intros ? (k & -> & Hk'%in_kept)%list_elem_of_fmap. simpl. intros Hg. apply Hlong. by rewrite -Hgc -Hg.
      * by rewrite Hgf.
Qed.

Lemma irredundant_groups : irredundant (local_slots b) (classes b) (rule_of ar <$> kept).
Proof.
  intros ? ? (f & -> & Hf%in_kept)%list_elem_of_fmap (c & -> & Hc%in_kept)%list_elem_of_fmap (Hg & Hp & Hne) Hlong. simpl in *.
  rewrite Hg in Hc. apply (sc_needed _ _ _ _ _ _ _ (gd_scanned _ _ _ _ _ Hgd (group f))); [done|done| |].
  - split; [done|]. intros Hs. apply Hne. by destruct (group f).
  - intros d Hd [Hpd Hnd]. apply (Hlong (rule_of ar d)); [apply list_elem_of_fmap_2, in_kept; by rewrite (kept_group _ _ Hd)|].
    split_and!; [by simpl; rewrite (kept_group _ _ Hd)|done|]. simpl. intros Hs. apply Hnd. by destruct (group f).
Qed.

Lemma strict_nodup K' : strict ar K' → NoDup (key_of ar <$> K').
Proof.
  unfold strict. induction 1 as [|k l Hs IH Hk]; [constructor|]. simpl. constructor; [|done].
  intros (x & Hx & Hin)%list_elem_of_fmap. rewrite Forall_forall in Hk. by destruct (Hk x Hin).
Qed.
Lemma kept_nodup : NoDup ((λ r, (group r, key_of ar r)) <$> kept).
Proof.
  assert (∀ γ, NoDup ((λ r, (group r, key_of ar r)) <$> K γ)) as Hone.
  { intros γ. apply (NoDup_fmap_1 snd). rewrite -list_fmap_compose.
    apply strict_nodup, (gd_scanned _ _ _ _ _ Hgd γ). }
  assert (∀ γ x, x ∈ (λ r, (group r, key_of ar r)) <$> K γ → x.1 = γ) as Hfst.
  { intros γ x (r & -> & Hr)%list_elem_of_fmap. by apply kept_group. }
  rewrite (gd_kept _ _ _ _ _ Hgd) !fmap_app.
  repeat (apply NoDup_app; split_and!; [done| |]); [..|done].
  all: intros x Hx; rewrite ?elem_of_app; intros Hy; apply Hfst in Hx;
    destruct_or? Hy; apply Hfst in Hy; congruence.
Qed.
End reduced_groups.

(** What [prepare_with_check] hands to the index builder. *)
Definition c_rules (c : Canonical) : list Rule := rule_of (items (c_arena c)) <$> items (c_records c).
Record canonical_ok (retained : Z) (c : Canonical) : Prop := {
  co_arena : vec_ok (c_arena c);
  co_records : vec_ok (c_records c);
  co_budget : budget_ok (c_budget c);
  co_retained : 0 ≤ retained;
  co_charged : live (c_budget c) = retained + capacity (c_arena c) + RECORD_SIZE * capacity (c_records c);
  co_rules : Forall (record_ok (items (c_arena c))) (items (c_records c));
  co_nodup : NoDup ((λ r, (group r, key_of (items (c_arena c)) r)) <$> items (c_records c));
}.

(** The kept records group by group, each group in the order of its keys; they
    are what the semantic digest covers. *)
Record grouped (ar : list Z) (kept : list Record_) (K : Group → list Record_) : Prop := {
  gr_kept : kept = K AllowSuffix ++ K AllowExact ++ K BlockSuffix ++ K BlockExact;
  gr_group γ r : r ∈ K γ → group r = γ;
  gr_sorted γ : strict ar (K γ);
}.
Record prepared {SH : Sha256Lib} (b : Builder) (c : Canonical) : Prop := {
  pr_irredundant : irredundant (local_slots b) (classes b) (c_rules c);
  pr_digest : ∃ K, grouped (items (c_arena c)) (items (c_records c)) K ∧
    semantic_digest c = sha256 (SEMANTICS ++ group_bytes (items (c_arena c)) 0 [K AllowSuffix; K AllowExact; K BlockSuffix; K BlockExact]);
}.

Section prepare_theorem.
Context {H : Host} {SL : SliceLib} `{!SliceSpec SL} {SH : Sha256Lib}.

Lemma sort_records_wp {S} ar rs cmp (s : S) (Q : list Record_ → S → Prop) R :
  (∀ ar, total_cmp (cmp ar)) → Forall (record_ok ar) rs →
  (∀ l, l ≡ₚ rs → StronglySorted (λ x y, cmp ar x y ≠ Gt) l → Q l s) →
  wp (sort_records cmp ar rs) Q R s.
Proof.
  intros Hc Hok HQ. unfold sort_records.
  assert (forallb (λ r, bool_decide (is_Some (key ar (entry r)))) rs = true) as ->.
  { apply Is_true_true, forallb_True. eapply Forall_impl; [done|]. intros r (Hk & _).
    apply bool_decide_pack. by rewrite Hk. }
  apply wp_ret, HQ; [by apply sort_perm|by apply sort_sorted].
Qed.

Lemma prepare_wp retained b n :
  builder_ok retained b →
  wp (prepare_with_check b)
    (λ c _, canonical_ok retained c ∧ input_rules c = length (rules b) ∧ c_budget c = budget b ∧ prepared b c ∧
      ∃ I, I ≡ₚ rules b ∧ reduced (local_slots b) (classes b) I (c_rules c))
    (λ e _, failed b = Some e ∨ cancelled e) (tt, n).
Proof.
  intros Hb. unfold prepare_with_check. apply wp_bind, wp_check; [|by auto].
  destruct (failed b) as [e|] eqn:Ef; [by apply wp_fail; auto|]. cbv zeta.
  apply wp_bind, sort_records_wp; [apply total_record_cmp|apply Hb|]. intros sorted Hperm Hsorted.
  assert (Forall (record_ok (items (arena b))) sorted) as Hok by (rewrite Hperm; apply Hb).
  apply wp_bind, wp_check; [|by auto]. apply wp_bind.
  eapply wp_mono; [| |by apply scan_groups_wp]; [|by auto].
  intros [p ranges] [[] m] (D & K & Hgd & Hslices). simpl in Hgd, Hslices.
  eapply wp_bind, wp_expect; [exact Hslices|]. apply wp_bind, wp_check; [|by auto]. apply wp_ret.
  assert (∀ r, r ∈ take (write p) (p_records p) → r ∈ sorted) as Hsub.
  { intros r Hr%(in_kept Hgd). apply (in_sorted Hgd). by apply (sc_sub _ _ _ _ _ _ _ (gd_scanned _ _ _ _ _ Hgd _)). }
  assert (length (take (write p) (p_records p)) ≤ length (items (records b)))%nat as Hlen.
  { rewrite -Hperm. apply submseteq_length, NoDup_submseteq; [|done].
    eapply NoDup_fmap_1, (kept_nodup Hgd). }
  split_and!; [|by rewrite /rules length_fmap|done| |].
  - destruct Hb as [Ha Hr Hbu Hret Hch Hru _]. split; simpl; try done.
    + split. unfold vec_len; simpl. destruct Hr as [Hr]. unfold vec_len in Hr. lia.
    + lia.
    + by apply Hch.
    + apply (Forall_sub _ sorted); [done|]. exact Hsub.
    + by apply (kept_nodup Hgd).
  - split; [apply (irredundant_groups Hgd)|]. exists K. split; [|done]. split; simpl.
    + apply (gd_kept _ _ _ _ _ Hgd).
    + apply (kept_group Hgd).
    + intros γ. apply (gd_scanned _ _ _ _ _ Hgd γ).
  - exists (rule_of (items (arena b)) <$> sorted). split; [unfold rules; by rewrite Hperm|].
    unfold c_rules. simpl. apply (reduced_groups Hgd).
Qed.
End prepare_theorem.

Lemma allowed_perm rs rs' q : rs ≡ₚ rs' → allowed rs q ↔ allowed rs' q.
Proof. intros Hp. unfold allowed. by setoid_rewrite Hp. Qed.
Lemma blocking_perm rs rs' q r : rs ≡ₚ rs' → blocking rs q r ↔ blocking rs' q r.
Proof. intros Hp. unfold blocking. by rewrite Hp. Qed.
Lemma chosen_perm local rs rs' q r : rs ≡ₚ rs' → chosen local rs q r ↔ chosen local rs' q r.
Proof.
  intros Hp. unfold chosen. rewrite (allowed_perm _ _ _ Hp) (blocking_perm _ _ _ _ Hp).
  by setoid_rewrite (blocking_perm _ _ _ _ Hp).
Qed.
Lemma classified_perm classes rs rs' : rs ≡ₚ rs' → classified classes rs ↔ classified classes rs'.
Proof. intros Hp. unfold classified. by setoid_rewrite Hp. Qed.

(** ** Claims *)

(** C29. Dropping redundant rules changes no decision and no answer: for every
    query key, the prepared rules allow it iff the input rules do, some
    prepared block rule matches iff some input block rule does, and the rule
    that answers (local before subscription, exact before suffix, longest
    suffix, lowest slot) has the answer class of the one that answered before.
    The work ends without a panic; it fails only for a poisoned builder or a
    cancelled check. *)
Theorem prepare_preserves {H : Host} {SL : SliceLib} `{!SliceSpec SL} {SH : Sha256Lib} retained b n :
  builder_ok retained b → classified (classes b) (rules b) →
  wp (prepare_with_check b)
    (λ c _, (∀ q, allowed (c_rules c) q ↔ allowed (rules b) q) ∧
      (∀ q, (∃ r, blocking (c_rules c) q r) ↔ ∃ r, blocking (rules b) q r) ∧
      (∀ q r r', chosen (local_slots b) (rules b) q r → chosen (local_slots b) (c_rules c) q r' →
        class_of (classes b) (r_slot r') = class_of (classes b) (r_slot r)))
    (λ e _, failed b = Some e ∨ cancelled e) (tt, n).
Proof.
  intros Hb Hcl. eapply wp_mono; [| |by apply (prepare_wp retained)]; [|done].
  intros c s (_ & _ & _ & _ & I & Hp & Hred). split_and!.
  - intros q. by rewrite -(reduced_allowed Hred) (allowed_perm _ _ _ Hp).
  - intros q. rewrite -(reduced_blocked Hred). by setoid_rewrite (blocking_perm _ _ _ _ Hp).
  - intros q r r' Hr Hr'. symmetry. apply (chosen_class Hred q); [|by apply (chosen_perm _ _ _ _ _ Hp)|done].
    by apply (classified_perm _ _ _ Hp).
Qed.

(** The prepared rules are a subset of the input with one rule per group and
    key, the lowest slot of its key, over intact memory accounting. *)
Theorem prepare_canonical {H : Host} {SL : SliceLib} `{!SliceSpec SL} {SH : Sha256Lib} retained b n :
  builder_ok retained b →
  wp (prepare_with_check b)
    (λ c _, canonical_ok retained c ∧ input_rules c = length (rules b) ∧
      ∀ r, r ∈ c_rules c → r ∈ rules b ∧
        ∀ r', r' ∈ rules b → r_group r' = r_group r → r_key r' = r_key r → r_slot r ≤ r_slot r')
    (λ e _, failed b = Some e ∨ cancelled e) (tt, n).
Proof.
  intros Hb. eapply wp_mono; [| |by apply (prepare_wp retained)]; [|done].
  intros c s (Hok & Hin & _ & _ & I & Hp & Hred). split_and!; [done..|]. intros r Hr. split.
  - rewrite -Hp. by apply (red_sub _ _ _ _ Hred).
  - intros r' Hr' Hg Hk. rewrite -Hp in Hr'. by apply (red_lowest _ _ _ _ Hred).
Qed.

(** ** Witnesses *)
Module PrepareWitness.
Import CanonicalWitness.
#[local] Existing Instance host.
#[local] Existing Instance host_spec.
#[local] Existing Instance ListSlice.lib.
#[local] Existing Instance ListSlice.spec.
Definition sha : Sha256Lib := {| sha256 b := b |}.
#[local] Existing Instance sha.

(** [.ab] blocked by slot 0 covers [x.ab] of slot 3. *)
Definition two : Builder * nat :=
  ((add text BlockSuffix 0 ;;; add [120; 46; 97; 98] BlockExact 3) (empty, 0%nat)).2.
Lemma two_ok : builder_ok 1024 two.1 ∧ classified (classes two.1) (rules two.1).
Proof.
  split; [|left; by vm_compute].
  apply (wp_state _ (λ s : Builder * nat, builder_ok 1024 s.1)).
  apply wp_bind. eapply wp_mono; [| |apply (add_wp 1024)]; [..|apply empty_ok|by_compute].
  - intros [] [b m] (ls & _ & _ & _ & Hb & _). eapply wp_mono; [| |apply (add_wp 1024)]; [..|done|by_compute].
    + intros [] s (ls' & _ & _ & _ & Hb' & _). done.
    + intros e s [[Hb' _] _]. done.
  - intros e s [[Hb' _] _]. done.
Qed.
Lemma prepare_preserves_witness :
  wp (prepare_with_check two.1)
    (λ c _, (∀ q, allowed (c_rules c) q ↔ allowed (rules two.1) q) ∧
      (∀ q, (∃ r, blocking (c_rules c) q r) ↔ ∃ r, blocking (rules two.1) q r) ∧
      (∀ q r r', chosen (local_slots two.1) (rules two.1) q r → chosen (local_slots two.1) (c_rules c) q r' →
        class_of (classes two.1) (r_slot r') = class_of (classes two.1) (r_slot r)))
    (λ e _, failed two.1 = Some e ∨ cancelled e) (tt, 0%nat).
Proof. apply (prepare_preserves 1024); apply two_ok. Defined.
Lemma prepare_canonical_witness :
  wp (prepare_with_check two.1)
    (λ c _, canonical_ok 1024 c ∧ input_rules c = length (rules two.1) ∧
      ∀ r, r ∈ c_rules c → r ∈ rules two.1 ∧
        ∀ r', r' ∈ rules two.1 → r_group r' = r_group r → r_key r' = r_key r → r_slot r ≤ r_slot r')
    (λ e _, failed two.1 = Some e ∨ cancelled e) (tt, 0%nat).
Proof. apply prepare_canonical, two_ok. Defined.
(** The covered rule is dropped. *)
Example covered_dropped :
  match prepare_with_check two.1 (tt, 0%nat) with
  | (Ok c, _) => length (items (c_records c)) = 1%nat ∧ input_rules c = 2%nat
  | _ => False
  end.
Proof. by vm_compute. Qed.
End PrepareWitness.
