(* ===== verification/Radix.v ===== *)
(** * The compressed radix index

    [src/policy/radix.rs]: the prepared rules are sorted by key and group and
    built into nodes with an explicit stack of frames; [lookup] and
    [block_match] walk the nodes along a query key. *)
From S2P Require Import Prelude Std Names Canonical Prepare.
Set Default Goal Selector "!".
Set Warnings "-rewrite-rw".
Local Open Scope Z_scope.
Local Open Scope rust_scope.

Definition NONE : Z := u16_max.
Definition MAX_BUILD_DEPTH : nat := 255.
Definition FRAME_SIZE : Z := 40.
Definition NODE_SIZE : Z := 20.

(** [next_child] is [None] for the source's [usize::MAX]: not opened yet. *)
Record Frame : Type := mkFrame {
  parent : nat;
  start : nat;
  end_ : nat;
  depth : nat;
  next_child : option nat;
}.
Definition frame_new (parent start end_ depth : nat) : Frame :=
  {| parent := parent; start := start; end_ := end_; depth := depth; next_child := None |}.

Record Node : Type := mkNode {
  edge_offset : Z;
  first_child : Z;
  child_count : Z;
  edge_len : Z;
  first_byte : Z;
  sources : list Z;
}.
Definition node_empty : Node :=
  {| edge_offset := 0; first_child := 0; child_count := 0; edge_len := 0; first_byte := 0;
     sources := [NONE; NONE; NONE; NONE] |}.

Record Index : Type := mkIndex {
  nodes : Vec Node;
  edges : Vec Z;
  x_digest : list Z;
  x_input_rules : nat;
  index_rules : nat;
  peak_bytes : Z;
}.
Record Match_ : Type := mkMatch { m_group : Group; m_slot : Z; matched_key_len : Z }.
#[export] Instance Match_eq_dec : EqDecision Match_.
Proof. solve_decision. Defined.

(** The index under construction and the budget of its input. *)
Record Build : Type := mkBuild { b_nodes : Vec Node; b_edges : Vec Z; b_budget : Budget }.
Definition W (A : Type) : Type := M (Build * nat) Error A.
Definition get_w : W Build := let* s := get in ret s.1.
Definition modify_w (f : Build → Build) : W unit := let* s := get in put (f s.1, s.2).
Definition w_budget {A} (m : M (Budget * nat) Error A) : W A :=
  zoom (λ s, (b_budget s.1, s.2)) (λ t s, (mkBuild (b_nodes s.1) (b_edges s.1) t.1, t.2)) m.
Definition set_nodes (f : list Node → list Node) (b : Build) : Build :=
  mkBuild {| items := f (items (b_nodes b)); capacity := capacity (b_nodes b) |} (b_edges b) (b_budget b).
Definition set_edges (f : list Z → list Z) (b : Build) : Build :=
  mkBuild (b_nodes b) {| items := f (items (b_edges b)); capacity := capacity (b_edges b) |} (b_budget b).

(** [self.nodes[i] = f(self.nodes[i])]. *)
Definition update_node (i : nat) (f : Node → Node) : W unit :=
  let* b := get_w in
  let* n := expect (items (b_nodes b) !! i) in
  modify_w (set_nodes (λ l, <[i := f n]> l)).

Section build.
Context {H : Host} {SL : SliceLib}.
Context (ar : list Z) (recs : list Record_).

Definition grow_nodes (needed : Z) : W unit :=
  let* b := get_w in
  let* v := w_budget (grow NODE_SIZE (b_nodes b) needed) in
  modify_w (λ b, mkBuild v (b_edges b) (b_budget b)).
Definition grow_edges (needed : Z) : W unit :=
  let* b := get_w in
  let* v := w_budget (grow 1 (b_edges b) needed) in
  modify_w (λ b, mkBuild (b_nodes b) v (b_budget b)).

(** [key(&input.arena, input.records[position].entry)[depth]]. *)
Definition byte_at (position depth : nat) : W Z :=
  let* r := expect (recs !! position) in
  let* k := expect (key ar (entry r)) in
  expect (k !! depth).

(** The inner scan shared by the counting pass and the assignment of a child:
    the end of the run of keys with [byte] at [depth]. *)
Definition run_step (d stop_at : nat) (byte : Z) (position : nat) : W (nat + nat) :=
  if bool_decide (position < stop_at)%nat then
    let* b := byte_at position d in
    if bool_decide (b = byte) then
      let position := S position in
      (if bool_decide (position mod 4096 = 0)%nat then check else ret tt) ;;;
      ret (inl position)
    else ret (inr position)
  else ret (inr position).
Definition run_end (d stop_at : nat) (byte : Z) (position : nat) : W nat :=
  loop (S (stop_at - position)) (run_step d stop_at byte) position.

(** Rules that end at the frame's node. *)
Definition terminal_step (f : Frame) (st : nat) : W (nat + nat) :=
  if bool_decide (st < end_ f)%nat then
    let* r := expect (recs !! st) in
    if bool_decide (len (entry r) = Z.of_nat (depth f)) then
      update_node (parent f) (λ n, mkNode (edge_offset n) (first_child n) (child_count n) (edge_len n)
        (first_byte n) (<[group_index (group r) := source_slot (entry r)]> (sources n))) ;;;
      ret (inl (S st))
    else ret (inr st)
  else ret (inr st).

(** The number of children: runs of equal bytes at the frame's depth. *)
Definition count_step (f : Frame) (cp : nat * nat) : W ((nat * nat) + nat) :=
  let (count, position) := cp in
  if bool_decide (position < end_ f)%nat then
    let* byte := byte_at position (depth f) in
    let* position := run_end (depth f) (end_ f) byte (S position) in
    ret (inl (S count, position))
  else ret (inr count).

Definition open_frame (f : Frame) : W Frame :=
  let* st := loop (S (end_ f - start f)) (terminal_step f) (start f) in
  let* count := loop (S (end_ f - st)) (count_step f) (O, st) in
  let* b := get_w in
  let first := length (items (b_nodes b)) in
  grow_nodes (Z.of_nat (first + count)) ;;;
  modify_w (set_nodes (λ l, l ++ replicate count node_empty)) ;;;
  update_node (parent f) (λ n, mkNode (edge_offset n) (as_u32 (Z.of_nat first)) (as_u16 (Z.of_nat count))
    (edge_len n) (first_byte n) (sources n)) ;;;
  ret {| parent := parent f; start := st; end_ := end_ f; depth := depth f; next_child := Some first |}.

(** The first position past [common] where the keys differ. *)
Fixpoint common_end (fuel : nat) (first last : list Z) (common : nat) : nat :=
  match fuel with
  | O => common
  | S fuel =>
      if bool_decide (common < length first `min` length last)%nat &&
         bool_decide (first !! common = last !! common)
      then common_end fuel first last (S common) else common
  end.

Definition assign_child (f : Frame) (child : nat) (frames : nat) : W (Frame * Frame) :=
  let* r := expect (recs !! start f) in
  let* first := expect (key ar (entry r)) in
  let* byte := expect (first !! depth f) in
  let* stop := run_end (depth f) (end_ f) byte (S (start f)) in
  let* r := expect (recs !! (stop - 1)%nat) in
  let* last := expect (key ar (entry r)) in
  let common := common_end (length first) first last (S (depth f)) in
  let* b := get_w in
  let offset := length (items (b_edges b)) in
  grow_edges (Z.of_nat (offset + common - depth f)) ;;;
  let* edge := expect (slice first (depth f) common) in
  modify_w (set_edges (λ l, l ++ edge)) ;;;
  update_node child (λ _, mkNode (as_u32 (Z.of_nat offset)) 0 0 (as_u8 (Z.of_nat (common - depth f))) byte
    [NONE; NONE; NONE; NONE]) ;;;
  (if bool_decide (frames < MAX_BUILD_DEPTH)%nat then ret tt else panic) ;;;
  ret (frame_new child (start f) stop common,
       {| parent := parent f; start := stop; end_ := end_ f; depth := depth f; next_child := Some (S child) |}).

(** The top frame is done, or its next child becomes the top frame. *)
Definition advance (processed : nat) (f : Frame) (rest : list Frame) : W ((list Frame * nat) + unit) :=
  if bool_decide (start f = end_ f) then ret (inl (rest, processed))
  else
    let* child := expect (next_child f) in
    let* (child, f) := assign_child f child (length (f :: rest)) in
    ret (inl (child :: f :: rest, processed)).
Definition children_step (st : list Frame * nat) : W ((list Frame * nat) + unit) :=
  let (frames, processed) := st in
  match frames with
  | [] => ret (inr tt)
  | f :: rest =>
      let processed := S processed in
      (if bool_decide (processed mod 4096 = 0)%nat then check else ret tt) ;;;
      let* f := match next_child f with None => open_frame f | Some _ => ret f end in
      advance processed f rest
  end.

(** Enough iterations: one to open or pop each frame, one per pushed frame. *)
Definition build_fuel : nat := (3 + 2 * sum_list_with (λ r, Z.to_nat (len (entry r))) recs)%nat.

Definition children : W unit :=
  let* frames := w_budget (grow FRAME_SIZE (@vec_new Frame) (Z.of_nat MAX_BUILD_DEPTH)) in
  loop build_fuel children_step ([frame_new 0 0 (length recs) 0], O) ;;;
  w_budget (release (capacity frames * FRAME_SIZE)) ;;;
  check.
End build.

(** The order of [build_with_check]: by key, then by group. *)
Definition key_group_cmp (ar : list Z) (a b : Record_) : comparison :=
  then_ (cmp_bytes (key_of ar a) (key_of ar b))
    (Z.of_nat (group_index (group a)) ?= Z.of_nat (group_index (group b))).

Definition build_with_check {H : Host} {SL : SliceLib} (c : Canonical) : M (Build * nat) Error Index :=
  check ;;;
  let* recs := sort_records key_group_cmp (items (c_arena c)) (items (c_records c)) in
  check ;;;
  modify_w (λ _, mkBuild vec_new vec_new (c_budget c)) ;;;
  grow_nodes 1 ;;;
  modify_w (set_nodes (λ l, l ++ [node_empty])) ;;;
  children (items (c_arena c)) recs ;;;
  let* b := get_w in
  ret {| nodes := b_nodes b; edges := b_edges b; x_digest := semantic_digest c;
         x_input_rules := input_rules c; index_rules := length (items (c_records c));
         peak_bytes := peak (b_budget b) |}.

(** ** Walking the index *)
Section walk.
Context {SL : SliceLib}.
Context (x : Index) (query : list Z).
Definition L (A : Type) : Type := M unit Error A.

Definition found (n : Node) (position : nat) (g : Group) : L (option Match_) :=
  let* s := expect (sources n !! group_index g) in
  ret (if bool_decide (s = NONE) then None
       else Some {| m_group := g; m_slot := s; matched_key_len := as_u16 (Z.of_nat position) |}).

(** The child to go on with: its index and the position after its edge, or
    [None] when the query leaves the index. *)
Definition descend (n : Node) (position : nat) : L (option (nat * nat)) :=
  let fc := Z.to_nat (first_child n) in
  let* kids := expect (slice (items (nodes x)) fc (fc + Z.to_nat (child_count n))) in
  let* b := expect (query !! position) in
  match binary_search_by (λ k, first_byte k ?= b) kids with
  | inr _ => ret None
  | inl i =>
      let index := (fc + i)%nat in
      let* next := expect (items (nodes x) !! index) in
      let off := Z.to_nat (edge_offset next) in
      let* edge := expect (slice (items (edges x)) off (off + Z.to_nat (edge_len next))) in
      if bool_decide (edge `prefix_of` drop position query)
      then ret (Some (index, position + length edge)%nat) else ret None
  end.

Definition or_else {A} (a b : option A) : option A := match a with Some _ => a | None => b end.

Definition lookup_step (st : nat * nat * option Match_) : L ((nat * nat * option Match_) + option Match_) :=
  let '(index, position, blocked) := st in
  let* n := expect (items (nodes x) !! index) in
  let* allow := found n position AllowSuffix in
  match allow with
  | Some _ => ret (inr allow)
  | None =>
      let* suffix := found n position BlockSuffix in
      if bool_decide (position = length query) then
        let* allow := found n position AllowExact in
        match allow with
        | Some _ => ret (inr allow)
        | None =>
            let* exact := found n position BlockExact in
            ret (inr (or_else (or_else blocked suffix) exact))
        end
      else
        let blocked := or_else blocked suffix in
        let* next := descend n position in
        match next with
        | None => ret (inr blocked)
        | Some (index, position) => ret (inl (index, position, blocked))
        end
  end.
Definition lookup_key : L (option Match_) :=
  loop (S (length query)) lookup_step (O, O, None).

(** (subscription, suffix, shorter, slot): lower ranks win. *)
Definition match_rank (local : Z) (m : Match_) : list Z :=
  [if bool_decide (m_slot m < local) then 0 else 1;
   if bool_decide (m_group m = BlockSuffix) then 1 else 0;
   - matched_key_len m; m_slot m].
Definition consider (local : Z) (best : option Match_) (m : option Match_) : option Match_ :=
  match m with
  | None => best
  | Some new =>
      match best with
      | None => Some new
      | Some old => match cmp_bytes (match_rank local new) (match_rank local old) with
                    | Lt => Some new
                    | _ => Some old
                    end
      end
  end.
Definition block_step (local : Z) (st : nat * nat * option Match_)
    : L ((nat * nat * option Match_) + option Match_) :=
  let '(index, position, best) := st in
  let* n := expect (items (nodes x) !! index) in
  let* allow := found n position AllowSuffix in
  match allow with
  | Some _ => ret (inr None)
  | None =>
      let* suffix := found n position BlockSuffix in
      let best := consider local best suffix in
      if bool_decide (position = length query) then
        let* allow := found n position AllowExact in
        match allow with
        | Some _ => ret (inr None)
        | None =>
            let* exact := found n position BlockExact in
            ret (inr (consider local best exact))
        end
      else
        let* next := descend n position in
        match next with
        | None => ret (inr best)
        | Some (index, position) => ret (inl (index, position, best))
        end
  end.
Definition block_match_key (local : Z) : L (option Match_) :=
  loop (S (length query)) (block_step local) (O, O, None).
End walk.

Definition lookup `{SliceLib, NameLib} (x : Index) (name : Name) : L (option Match_) :=
  let* q := lift (key_query name) in lookup_key x q.
Definition block_match `{SliceLib, NameLib} (x : Index) (name : Name) (local : Z) : L (option Match_) :=
  let* q := lift (key_query name) in block_match_key x q local.
Definition index_bytes (x : Index) : Z := capacity (edges x) + capacity (nodes x) * NODE_SIZE.

(** ** The text of a matched rule *)
Definition RULE_LABELS : nat := 127.
Definition label_step (st : list (list Z) * list Z) : L ((list (list Z) * list Z) + list (list Z)) :=
  let (labels, bytes) := st in
  match bytes with
  | [] => ret (inr labels)
  | len :: rest =>
      let* label := expect (slice rest 0 (Z.to_nat len)) in
      if bool_decide (length labels < RULE_LABELS)%nat
      then ret (inl (labels ++ [label], drop (Z.to_nat len) rest)) else panic
  end.
Fixpoint push_rule (result : list Z) (labels : list (list Z)) : L (list Z) :=
  match labels with
  | [] => ret result
  | l :: labels =>
      let result := if bool_decide (result = []) then result else result ++ [DOT] in
      if utf8_valid l then push_rule (result ++ l) labels else panic
  end.
Definition rule `{NameLib} (name : Name) (m : Match_) : L (list Z) :=
  let* k := lift (key_query name) in
  let* bytes := expect (slice k 0 (Z.to_nat (matched_key_len m))) in
  let* labels := loop (S (length bytes)) label_step ([], bytes) in
  push_rule [] (reverse labels).
