(* ===== verification/RadixBuild.v ===== *)
(** * The radix build is correct

    The nodes that [Index::build_with_check] produces, described by a ghost
    labelling: every node stands for the sorted run of rules below its prefix,
    its sources are those of the rules that end there, and its children split
    the remaining rules by their next byte. The stack machine of [children]
    establishes the labelling without a panic, within its depth bound and its
    fuel. *)
From S2P Require Import Prelude Std Names Canonical Prepare Radix.
Set Default Goal Selector "!".
Set Warnings "-rewrite-rw".
Local Open Scope Z_scope.
Local Open Scope rust_scope.

Lemma mjoin_cons {A} (x : list A) l : mjoin (x :: l) = x ++ mjoin l.
Proof. done. Qed.

Lemma mjoin_app {A} (l1 l2 : list (list A)) : mjoin (l1 ++ l2) = mjoin l1 ++ mjoin l2.
Proof. induction l1 as [|x l1 IH]; simpl; [done|]. by rewrite IH app_assoc. Qed.

(** ** The order of the nodes *)
(** Depth first: each node takes the next free indices for its children and
    the next free bytes for its edge when it is reached. The nodes reached, the
    first free index and byte, and the path to the current node with the number
    of children done at each of its nodes. *)
Inductive dfs (ns : list Node) : list nat → nat → nat → list (nat * nat) → Prop :=
  | dfs_root n : ns !! 0%nat = Some n → first_child n = 1 → edge_offset n = 0 → edge_len n = 0 → first_byte n = 0 →
      dfs ns [0%nat] (1 + Z.to_nat (child_count n)) 0 [(0, 0)%nat]
  | dfs_push o a e i j st n c : dfs ns o a e ((i, j) :: st) → ns !! i = Some n → Z.of_nat j < child_count n →
      ns !! (Z.to_nat (first_child n) + j)%nat = Some c → first_child c = Z.of_nat a → edge_offset c = Z.of_nat e →
      dfs ns (o ++ [(Z.to_nat (first_child n) + j)%nat]) (a + Z.to_nat (child_count c)) (e + Z.to_nat (edge_len c))
        ((Z.to_nat (first_child n) + j, 0)%nat :: (i, S j) :: st)
  | dfs_pop o a e i j st n : dfs ns o a e ((i, j) :: st) → ns !! i = Some n → Z.of_nat j = child_count n → dfs ns o a e st.

Lemma dfs_reached ns o a e st : dfs ns o a e st → (1 ≤ a)%nat ∧ (∀ i, i ∈ o → ∃ n, ns !! i = Some n ∧ 1 ≤ first_child n) ∧ ∀ i j, (i, j) ∈ st → i ∈ o.
Proof.
  induction 1 as [n Hn Hf _ _ _|o a e i j st n c _ (Ha & Ho & Hst) Hn Hj Hc Hf _|o a e i j st n _ (Ha & Ho & Hst) _ _]; split_and!; try lia; try done.
  - intros i ->%list_elem_of_singleton. exists n. split; [done|lia].
  - intros i j [= -> _]%list_elem_of_singleton. by left.
  - intros k [Hk| ->]%elem_of_snoc; [by apply Ho|]. exists c. split; [done|lia].
  - intros k m Hk. rewrite !elem_of_cons in Hk. apply elem_of_snoc. destruct Hk as [[= -> _]|[[= -> _]|Hk]]; [by right|left; eapply Hst; left|left; eapply Hst; by right].
  - intros k m Hk. eapply Hst. by right.
Qed.
(** Only the nodes reached matter. *)
Lemma dfs_later ns ns' o a e st : dfs ns o a e st → (∀ i n, i ∈ o → ns !! i = Some n → ns' !! i = Some n) → dfs ns' o a e st.
Proof.
  induction 1 as [n Hn Hf Ho He Hb|o a e i j st n c Hd IH Hn Hj Hc Hf He|o a e i j st n Hd IH Hn Hj]; intros Hsame.
  - apply dfs_root; try done. apply Hsame; [by left|done].
  - pose proof (dfs_reached _ _ _ _ _ Hd) as (_ & _ & Hst). assert (i ∈ o) as Hi by (eapply Hst; left).
    apply dfs_push; try done; [|apply Hsame; [set_solver|done]..]. apply IH. intros k m Hk. apply Hsame. set_solver.
  - pose proof (dfs_reached _ _ _ _ _ Hd) as (_ & _ & Hst). assert (i ∈ o) as Hi by (eapply Hst; left).
    apply (dfs_pop _ _ _ _ i j _ n); [by apply IH|by apply Hsame|done].
Qed.

(** ** Segments of the sorted records *)
Section seg.
Context {A : Type} (recs : list A).
Definition seg (lo hi : nat) : list A := take (hi - lo) (drop lo recs).

Lemma seg_length lo hi : (hi ≤ length recs)%nat → length (seg lo hi) = (hi - lo)%nat.
Proof. intros Hh. unfold seg. rewrite length_take length_drop. lia. Qed.
Lemma seg_nil lo : seg lo lo = [].
Proof. unfold seg. by rewrite Nat.sub_diag. Qed.
Lemma seg_cons lo hi r : (lo < hi)%nat → recs !! lo = Some r → seg lo hi = r :: seg (S lo) hi.
Proof.
  intros Hlt Hr. unfold seg. rewrite (drop_S _ _ _ Hr).
  replace (hi - lo)%nat with (S (hi - S lo)) by lia. done.
Qed.
Lemma seg_app lo mid hi : (lo ≤ mid ≤ hi)%nat → seg lo mid ++ seg mid hi = seg lo hi.
Proof.
  intros Hle. unfold seg. replace (hi - lo)%nat with ((mid - lo) + (hi - mid))%nat by lia.
  rewrite -take_take_drop drop_drop. by replace (lo + (mid - lo))%nat with mid by lia.
Qed.
Lemma seg_lookup_lt lo hi : (lo < hi ≤ length recs)%nat → ∃ r, recs !! lo = Some r ∧ seg lo hi = r :: seg (S lo) hi.
Proof.
  intros Hlt. destruct (lookup_lt_is_Some_2 recs lo) as [r Hr]; [lia|]. exists r. split; [done|].
  apply seg_cons; [lia|done].
Qed.
Lemma seg_all : seg 0 (length recs) = recs.
Proof. unfold seg. rewrite drop_0 Nat.sub_0_r. by apply take_ge. Qed.
Lemma seg_last lo hi : (lo < hi ≤ length recs)%nat →
  ∃ r, recs !! (hi - 1)%nat = Some r ∧ seg lo hi = seg lo (hi - 1) ++ [r].
Proof.
  intros Hlt. destruct (seg_lookup_lt (hi - 1) hi) as (r & Hr & Hs); [lia|]. exists r. split; [done|].
  rewrite -(seg_app lo (hi - 1) hi); [|lia]. rewrite Hs. replace (S (hi - 1)) with hi by lia. by rewrite seg_nil.
Qed.
End seg.

Lemma wf_key_bytes k b : wf_key k → b ∈ k → 0 ≤ b ≤ 255.
Proof.
  intros (ls & -> & _ & Hls & _). induction Hls as [|l ls [Hl Hb] _ IH]; simpl; [by intros ?%elem_of_nil|].
  rewrite elem_of_cons elem_of_app. intros [->|[Hin|Hin]]; [lia| |by apply IH].
  rewrite Forall_forall in Hb. destruct (Hb b Hin) as [Hlb _]. revert Hlb.
  unfold label_byte, is_ascii_alphanumeric. repeat (case_bool_decide; simpl); try lia; done.
Qed.

(** A strictly increasing list of bytes has at most 256 elements. *)
Lemma increasing_bytes (l : list Z) :
  StronglySorted Z.lt l → Forall (λ b, 0 ≤ b ≤ 255) l → (length l ≤ 256)%nat.
Proof.
  intros Hs Hl. assert (∀ b, Forall (λ x, b ≤ x) l → b ≤ 256 → Z.of_nat (length l) ≤ 256 - b) as Hgen.
  { induction Hs as [|x l Hs IH Hx]; intros b Hb Hle; simpl; [lia|].
    apply Forall_cons in Hl as [Hx1 Hl]. apply Forall_cons in Hb as [Hbx Hb].
    assert (Z.of_nat (length l) ≤ 256 - (x + 1)); [|lia]. apply IH; [done| |lia].
    eapply Forall_impl; [exact Hx|]. simpl. lia. }
  assert (Z.of_nat (length l) ≤ 256 - 0); [|lia]. apply Hgen; [|lia].
  eapply Forall_impl; [exact Hl|]. simpl. lia.
Qed.

Section labelling.
Context (ar : list Z) (recs : list Record_).
Notation kf := (key_of ar).
Notation slot r := (source_slot (entry r)).

(** The next byte of a key at depth [d], and the number of runs of equal next
    bytes. *)
Definition nb (d : nat) (r : Record_) : Z := default 0 (kf r !! d).
Fixpoint runs (d : nat) (l : list Record_) : nat :=
  match l with
  | [] => 0
  | r :: l => match l with
              | [] => 1
              | r' :: _ => if bool_decide (nb d r = nb d r') then runs d l else S (runs d l)
              end
  end.

Lemma runs_same d r same rest :
  Forall (λ x, nb d x = nb d r) same → (∀ x, head rest = Some x → nb d x ≠ nb d r) →
  runs d (r :: same ++ rest) = S (runs d rest).
Proof.
  revert r. induction same as [|y same IH]; intros r Hs Hr; simpl.
  - destruct rest as [|x rest]; [done|]. rewrite bool_decide_false //. intros He.
    by apply (Hr x eq_refl).
  - apply Forall_cons in Hs as [Hy Hs]. rewrite bool_decide_true //.
    apply (IH y); rewrite Hy //.
Qed.
Lemma runs_pos d r l : (1 ≤ runs d (r :: l))%nat.
Proof.
  revert r. induction l as [|r' l IH]; intros r; simpl; [lia|]. specialize (IH r'). simpl in IH.
  case_bool_decide; lia.
Qed.
Lemma runs_nil d l : runs d l = O → l = [].
Proof. destruct l as [|r l]; [done|]. pose proof (runs_pos d r l). lia. Qed.

(** The rules that end at a node are its sources. *)
Definition sources_ok (ts : list Record_) (src : list Z) : Prop :=
  length src = 4%nat ∧ ∀ g, ∃ s, src !! group_index g = Some s ∧ (s = NONE → ∀ r, r ∈ ts → group r ≠ g) ∧
    (s ≠ NONE → ∃ r, r ∈ ts ∧ group r = g ∧ slot r = s).

Lemma sources_ok_nil : sources_ok [] [NONE; NONE; NONE; NONE].
Proof. split; [done|]. intros []; exists NONE; (split; [done|]; split; [|done]); by intros _ r ?%elem_of_nil. Qed.
Lemma sources_ok_snoc ts src r :
  sources_ok ts src → 0 ≤ slot r < u16_max →
  sources_ok (ts ++ [r]) (<[group_index (group r) := slot r]> src).
Proof.
  intros [Hl Hs] Hr. split; [by rewrite length_insert|]. intros g. destruct (Hs g) as (s & Hg & Hn & Hsome). destruct (decide (g = group r)) as [->|Hne].
  - exists (slot r). split; [by apply list_lookup_insert_eq; eapply lookup_lt_Some|]. split; [unfold NONE; lia|].
    intros _. exists r. split; [set_solver|done].
  - exists s. rewrite list_lookup_insert_ne; [|by destruct g, (group r)]. split; [done|]. split.
    + intros He x [Hx| ->]%elem_of_snoc; [by apply Hn|congruence].
    + intros He. destruct (Hsome He) as (x & ? & ?). exists x. set_solver.
Qed.

(** ** The labelling *)
Notation Label := (option (list Z * list Record_)).
Record view : Type := mkView { v_nodes : list Node; v_edges : list Z; v_labels : list Label }.

Definition edge_of (n : Node) (E : list Z) : option (list Z) :=
  let off := Z.to_nat (edge_offset n) in slice E off (off + Z.to_nat (edge_len n)).
Definition child_ok (v : view) (p : list Z) (c : nat) (ks : list Record_) : Prop :=
  ∃ n edge, v_nodes v !! c = Some n ∧ edge_of n (v_edges v) = Some edge ∧
    head edge = Some (first_byte n) ∧ v_labels v !! c = Some (Some (p ++ edge, ks)) ∧ ks ≠ [].

(** A node whose rules that end there are recorded and whose first [length kss]
    children are in place; [rem] are the rules that still wait for a child. *)
Record opened_at (v : view) (i : nat) (p : list Z) (rs : list Record_) (fc : nat) (rem : list Record_)
    (n : Node) (ts : list Record_) (kss : list (list Record_)) : Prop := {
  op_node : v_nodes v !! i = Some n;
  op_split : rs = ts ++ mjoin kss ++ rem;
  op_ends : Forall (λ r, kf r = p) ts;
  op_longer : Forall (λ r, (length p < length (kf r))%nat) (mjoin kss ++ rem);
  op_sources : sources_ok ts (sources n);
  op_first : Z.to_nat (first_child n) = fc;
  op_count : child_count n = Z.of_nat (length kss + runs (length p) rem);
  op_range : (fc + length kss + runs (length p) rem ≤ length (v_nodes v))%nat;
  op_kids j ks : kss !! j = Some ks → child_ok v p (fc + j)%nat ks;
  op_sorted : StronglySorted (λ a b, ∀ x y, x ∈ a → y ∈ b → nb (length p) x < nb (length p) y) (kss ++ [rem]);
}.
Definition opened (v : view) (i : nat) (p : list Z) (rs : list Record_) (fc j : nat) (rem : list Record_) : Prop :=
  ∃ n ts kss, opened_at v i p rs fc rem n ts kss ∧ j = length kss.

Definition label_ok (p : list Z) (rs : list Record_) : Prop :=
  Forall (λ r, p `prefix_of` kf r) rs ∧ StronglySorted (λ a b, ble (kf a) (kf b)) rs ∧
  (∀ r, r ∈ rs → r ∈ recs).

(** A finished index: the root stands for all records, every labelled node is
    complete. *)
Record complete (v : view) : Prop := {
  cp_root : v_labels v !! 0%nat = Some (Some ([], recs));
  cp_label i p rs : v_labels v !! i = Some (Some (p, rs)) → label_ok p rs;
  cp_opened i p rs : v_labels v !! i = Some (Some (p, rs)) → ∃ fc j, opened v i p rs fc j [];
}.

(** ** Growing a view *)
Record same_edge (n n' : Node) : Prop := {
  se_offset : edge_offset n' = edge_offset n;
  se_len : edge_len n' = edge_len n;
  se_byte : first_byte n' = first_byte n;
}.
Record extends (v v' : view) : Prop := {
  ex_edges : v_edges v `prefix_of` v_edges v';
  ex_nodes : (length (v_nodes v) ≤ length (v_nodes v'))%nat;
  ex_labels c l : v_labels v !! c = Some (Some l) → v_labels v' !! c = Some (Some l);
  ex_same c l n : v_labels v !! c = Some (Some l) → v_nodes v !! c = Some n →
    ∃ n', v_nodes v' !! c = Some n' ∧ same_edge n n';
}.

Lemma slice_prefix {A} (E E' : list A) lo hi k : slice E lo hi = Some k → E `prefix_of` E' → slice E' lo hi = Some k.
Proof.
  unfold slice. intros Hs [more ->]. case_bool_decide as Hd; [|done]. injection Hs as <-.
  rewrite bool_decide_true; [|rewrite length_app; lia]. f_equal.
  rewrite drop_app_le; [|lia]. rewrite take_app_le //. rewrite length_drop. lia.
Qed.
Lemma child_ok_extends v v' p c ks : extends v v' → child_ok v p c ks → child_ok v' p c ks.
Proof.
  intros He (n & edge & Hn & Hedge & Hh & Hl & Hne).
  destruct (ex_same _ _ He _ _ _ Hl Hn) as (n' & Hn' & [Ho Hlen Hb]). exists n', edge.
  split_and!; [done| |by rewrite Hb|by apply (ex_labels _ _ He)|done].
  unfold edge_of in *. rewrite Ho Hlen. eapply slice_prefix; [done|apply He].
Qed.
Lemma opened_extends v v' i p rs fc j rem :
  extends v v' → v_nodes v' !! i = v_nodes v !! i → opened v i p rs fc j rem → opened v' i p rs fc j rem.
Proof.
  intros He Hi (n & ts & kss & Ho & ->). exists n, ts, kss. split; [|done]. destruct Ho. split; try done.
  - by rewrite Hi.
  - pose proof (ex_nodes _ _ He). lia.
  - intros j ks Hj. by apply (child_ok_extends v), (op_kids0 j).
Qed.

(** Assigning the next child of an opened node. *)
Definition with_child (v : view) (c : nat) (n : Node) (edge p : list Z) (ks : list Record_) : view :=
  mkView (<[c := n]> (v_nodes v)) (v_edges v ++ edge) (<[c := Some (p ++ edge, ks)]> (v_labels v)).
Record new_child (v : view) (n : Node) (edge : list Z) (byte : Z) : Prop := {
  nc_offset : edge_offset n = Z.of_nat (length (v_edges v));
  nc_len : edge_len n = Z.of_nat (length edge);
  nc_byte : first_byte n = byte;
  nc_head : head edge = Some byte;
  nc_first : first_child n = 0;
  nc_sources : sources n = [NONE; NONE; NONE; NONE];
}.

Lemma extends_child v c n edge p ks :
  v_labels v !! c = Some None → extends v (with_child v c n edge p ks).
Proof.
  intros Hc. assert (∀ i l, v_labels v !! i = Some (Some l) → c ≠ i) as Hne.
  { intros i l Hi ->. congruence. }
  split; simpl; [by apply prefix_app_r|by rewrite length_insert| |].
  - intros i l Hi. by rewrite list_lookup_insert_ne; [|by apply (Hne i l)].
  - intros i l m Hi Hm. exists m. rewrite list_lookup_insert_ne; [done|by apply (Hne i l)].
Qed.
Lemma child_ok_new v c n edge byte p ks :
  new_child v n edge byte → v_labels v !! c = Some None → (c < length (v_nodes v))%nat → ks ≠ [] →
  child_ok (with_child v c n edge p ks) p c ks.
Proof.
  intros [Ho Hl Hb Hh _ _] Hc Hlt Hne. exists n, edge. split_and!; simpl.
  - by apply list_lookup_insert_eq.
  - unfold edge_of. rewrite Ho Hl !Nat2Z.id -{1}(app_nil_r edge). apply slice_middle.
  - by rewrite Hb.
  - apply list_lookup_insert_eq. by eapply lookup_lt_Some.
  - done.
Qed.

Lemma nb_prefix p edge byte r :
  head edge = Some byte → p ++ edge `prefix_of` kf r → nb (length p) r = byte.
Proof.
  intros Hh [more Hk]. unfold nb. rewrite Hk -app_assoc lookup_app_r; [|done].
  rewrite Nat.sub_diag. destruct edge; simpl in *; congruence.
Qed.

Lemma opened_child v i p rs fc j grp rem n edge byte :
  opened v i p rs fc j (grp ++ rem) → new_child v n edge byte → v_labels v !! (fc + j)%nat = Some None →
  v_labels v !! i ≠ Some None → grp ≠ [] → Forall (λ r, p ++ edge `prefix_of` kf r) grp →
  Forall (λ r, byte < nb (length p) r) rem → length (v_labels v) = length (v_nodes v) →
  opened (with_child v (fc + j) n edge p grp) i p rs fc (S j) rem.
Proof.
  intros (m & ts & kss & Ho & ->) Hnew Hc Hi Hne Hgrp Hrem Hlen.
  pose proof (extends_child v _ n edge p grp Hc) as Hext.
  assert (fc + length kss < length (v_nodes v))%nat as Hlt by (apply lookup_lt_Some in Hc; lia).
  assert (Forall (λ r, nb (length p) r = byte) grp) as Hbyte.
  { eapply Forall_impl; [exact Hgrp|]. intros r. apply nb_prefix, Hnew. }
  assert (runs (length p) (grp ++ rem) = S (runs (length p) rem)) as Hruns.
  { destruct grp as [|r grp]; [done|]. apply Forall_cons in Hbyte as [Hr Hb]. simpl app. apply runs_same.
    - eapply Forall_impl; [exact Hb|]. simpl. congruence.
    - intros x Hx. destruct rem as [|y rem]; simplify_eq/=. apply Forall_inv in Hrem. lia. }
  exists m, ts, (kss ++ [grp]). split; [|by rewrite length_app /= Nat.add_1_r].
  destruct Ho as [On Os Oe Ol Osrc Of Oc Or Ok Oso]. rewrite Hruns in Oc, Or. split; try done.
  - simpl. rewrite list_lookup_insert_ne //. intros Heq. apply Hi. by rewrite -Heq.
  - by rewrite mjoin_app /= app_nil_r -app_assoc.
  - by rewrite mjoin_app /= app_nil_r -app_assoc.
  - rewrite Oc length_app /=. lia.
  - simpl. rewrite length_insert length_app /=. lia.
  - intros j ks. rewrite lookup_app. destruct (kss !! j) as [ks'|] eqn:E.
    + intros [= <-]. by apply (child_ok_extends v), (Ok j).
    + intros Hj. apply list_lookup_singleton_Some in Hj as [Hj <-].
      assert (j = length kss) as -> by (apply lookup_ge_None in E; lia).
      by apply (child_ok_new _ _ _ _ byte).
  - rewrite -app_assoc. simpl. apply StronglySorted_app in Oso as (Ho1 & Ho2 & Ho3).
    apply StronglySorted_app_2; [|done|].
    + intros a b Ha [->|Hb%list_elem_of_singleton]%elem_of_cons x y Hx Hy; [|subst b];
        apply (Ho1 a (grp ++ rem)); set_solver.
    + constructor; [repeat constructor|]. constructor; [|done]. intros x y Hx Hy.
      rewrite Forall_forall in Hbyte. rewrite Forall_forall in Hrem. rewrite (Hbyte x Hx). by apply Hrem.
Qed.

(** ** The stack of frames *)
Definition pend (f : Frame) : list nat :=
  match next_child f with
  | None => []
  | Some nc => seq nc (runs (depth f) (seg recs (start f) (end_ f)))
  end.
Definition frame_ok (v : view) (f : Frame) : Prop :=
  ∃ p rs, v_labels v !! parent f = Some (Some (p, rs)) ∧ length p = depth f ∧
    (start f ≤ end_ f ≤ length recs)%nat ∧
    match next_child f with
    | None => seg recs (start f) (end_ f) = rs ∧
        ∃ n, v_nodes v !! parent f = Some n ∧ sources n = [NONE; NONE; NONE; NONE]
    | Some nc => ∃ fc j, nc = (fc + j)%nat ∧ opened v (parent f) p rs fc j (seg recs (start f) (end_ f))
    end.
Record stack_inv (v : view) (frames : list Frame) : Prop := {
  iv_len : length (v_labels v) = length (v_nodes v);
  iv_root : v_labels v !! 0%nat = Some (Some ([], recs));
  iv_label i p rs : v_labels v !! i = Some (Some (p, rs)) → label_ok p rs;
  iv_frames f : f ∈ frames → frame_ok v f;
  iv_pend f c : f ∈ frames → c ∈ pend f → v_labels v !! c = Some None;
  iv_disj : NoDup (mjoin (pend <$> frames));
  iv_parents : NoDup (parent <$> frames);
  iv_depth : StronglySorted (λ a b, (depth b < depth a)%nat) frames;
  iv_top : Forall (λ f, next_child f ≠ None) (tail frames);
  iv_cover i p rs : v_labels v !! i = Some (Some (p, rs)) →
    i ∈ parent <$> frames ∨ ∃ fc j, opened v i p rs fc j [];
}.

Lemma extends_refl v : extends v v.
Proof. split; [done|lia|done|]. intros c l n _ Hn. by exists n. Qed.

Lemma inv_pop v f fs nc :
  stack_inv v (f :: fs) → next_child f = Some nc → start f = end_ f → stack_inv v fs.
Proof.
  intros [Hl Hr Hla Hf Hp Hd Hpa Hde Ht Hc] Hn He. split; try done.
  - intros g Hg. apply Hf. by right.
  - intros g c Hg. apply Hp. by right.
  - rewrite fmap_cons mjoin_cons in Hd. by apply NoDup_app in Hd as (_ & _ & ?).
  - rewrite fmap_cons NoDup_cons in Hpa. naive_solver.
  - by apply StronglySorted_inv in Hde as [? _].
  - simpl in Ht. destruct fs; [constructor|]. by apply Forall_cons in Ht as [_ ?].
  - intros i p rs Hi. destruct (Hc i p rs Hi) as [Hin|?]; [|by right].
    rewrite fmap_cons elem_of_cons in Hin. destruct Hin as [->|Hin]; [|by left]. right.
    destruct (Hf f ltac:(left)) as (p' & rs' & Hi' & _ & _ & Ho). rewrite Hi in Hi'. simplify_eq.
    rewrite Hn in Ho. destruct Ho as (fc & j & _ & Ho). rewrite He seg_nil in Ho. eauto.
Qed.

(** Opening the top frame: its node's sources are set, children are appended. *)
Lemma extends_open v i n n' count :
  v_nodes v !! i = Some n → same_edge n n' →
  extends v (mkView (<[i := n']> (v_nodes v) ++ replicate count node_empty) (v_edges v)
    (v_labels v ++ replicate count None)).
Proof.
  intros Hi Hs. split; simpl; [done| | |].
  - rewrite length_app length_insert. lia.
  - intros c l Hc. by apply lookup_app_l_Some.
  - intros c l m Hc Hm. destruct (decide (c = i)) as [->|Hne].
    + exists n'. simplify_eq. split; [|done]. apply lookup_app_l_Some, list_lookup_insert_eq.
      by eapply lookup_lt_Some.
    + exists m. split; [|done]. apply lookup_app_l_Some. by rewrite list_lookup_insert_ne.
Qed.
Lemma inv_open v f fs p rs n n' ts st :
  stack_inv v (f :: fs) → next_child f = None →
  v_labels v !! parent f = Some (Some (p, rs)) → v_nodes v !! parent f = Some n → same_edge n n' →
  (start f ≤ st ≤ end_ f)%nat → rs = ts ++ seg recs st (end_ f) →
  Forall (λ r, kf r = p) ts → Forall (λ r, (length p < length (kf r))%nat) (seg recs st (end_ f)) →
  sources_ok ts (sources n') → first_child n' = Z.of_nat (length (v_nodes v)) →
  child_count n' = Z.of_nat (runs (depth f) (seg recs st (end_ f))) →
  stack_inv (mkView (<[parent f := n']> (v_nodes v) ++ replicate (runs (depth f) (seg recs st (end_ f))) node_empty)
      (v_edges v) (v_labels v ++ replicate (runs (depth f) (seg recs st (end_ f))) None))
    ({| parent := parent f; start := st; end_ := end_ f; depth := depth f; next_child := Some (length (v_nodes v)) |} :: fs).
Proof.
  intros HI Hnone Hlab Hnode Hse Hst Hrs Hts Hlong Hsrc Hfc Hcnt.
  set (count := runs (depth f) (seg recs st (end_ f))) in *.
  pose proof (extends_open v _ _ _ count Hnode Hse) as Hext.
  set (v' := mkView _ _ _) in *.
  destruct HI as [Hl Hr Hla Hf Hp Hd Hpa Hde Ht Hc].
  destruct (Hf f ltac:(left)) as (p' & rs' & Hlab' & Hdep & Hrange & _).
  subst rs. rewrite Hlab in Hlab'. injection Hlab' as <- <-.
  assert (∀ i l, v_labels v' !! i = Some (Some l) → v_labels v !! i = Some (Some l)) as Hback.
  { intros i l Hi. simpl in Hi. apply lookup_app_Some in Hi as [Hi|[_ Hi]]; [done|].
    by apply lookup_replicate in Hi as [? _]. }
  assert (∀ i, i ≠ parent f → (i < length (v_nodes v))%nat → v_nodes v' !! i = v_nodes v !! i) as Hsame.
  { intros i Hi Hlt. simpl. rewrite lookup_app_l; [|by rewrite length_insert]. by rewrite list_lookup_insert_ne. }
  rewrite fmap_cons NoDup_cons in Hpa. destruct Hpa as [Hnin Hpa].
  assert (∀ c, (length (v_nodes v) ≤ c < length (v_nodes v) + count)%nat → v_labels v' !! c = Some None) as Hnew.
  { intros c Hcr. simpl. rewrite lookup_app_r; [|lia]. apply lookup_replicate_2. lia. }
  assert (Hopen : opened v' (parent f) p (ts ++ seg recs st (end_ f)) (length (v_nodes v)) 0 (seg recs st (end_ f))).
  { exists n', ts, []. split; [|done]. split; simpl; try done.
    - apply lookup_app_l_Some, list_lookup_insert_eq. by eapply lookup_lt_Some.
    - rewrite Hfc. lia.
    - by rewrite Hdep.
    - rewrite length_app length_insert length_replicate Hdep. fold count. lia.
    - repeat constructor. }
  split.
  - simpl. rewrite !length_app length_insert !length_replicate. lia.
  - simpl. by apply lookup_app_l_Some.
  - intros i q l Hi%Hback. by apply (Hla i).
  - intros g [->|Hg]%elem_of_cons.
    + exists p, (ts ++ seg recs st (end_ f)). split_and!; simpl; [by apply lookup_app_l_Some|done|lia|lia|].
      exists (length (v_nodes v)), O. split; [lia|done].
    + destruct (Hf g ltac:(by right)) as (q & l & Hq & Hqd & Hqr & Ho). exists q, l.
      split_and!; [by apply (ex_labels _ _ Hext)|done|lia|lia|].
      assert (v_nodes v' !! parent g = v_nodes v !! parent g) as Hg'.
      { apply Hsame; [intros He; apply Hnin; rewrite -He; by apply list_elem_of_fmap_2|].
        apply lookup_lt_Some in Hq. lia. }
      destruct (next_child g) as [nc|].
      * destruct Ho as (fc & j & Hnc & Ho). exists fc, j. split; [done|]. by apply (opened_extends v).
      * destruct Ho as (Hs & m & Hm & Hmn). split; [done|]. exists m. by rewrite Hg'.
  - intros g c [->|Hg]%elem_of_cons Hin.
    + unfold pend in Hin. simpl in Hin. apply elem_of_seq in Hin. apply Hnew. unfold count. lia.
    + simpl. apply lookup_app_l_Some, (Hp g); [by right|done].
  - rewrite fmap_cons mjoin_cons. rewrite fmap_cons mjoin_cons in Hd. apply NoDup_app in Hd as (_ & _ & Hd).
    apply NoDup_app. split_and!; [apply NoDup_seq| |done]. intros c Hin Hin'. unfold pend in Hin. simpl in Hin.
    apply elem_of_seq in Hin. apply list_elem_of_join in Hin' as (l & Hcl & Hl').
    apply list_elem_of_fmap in Hl' as (g & -> & Hg). specialize (Hp g c ltac:(by right) Hcl).
    apply lookup_lt_Some in Hp. lia.
  - rewrite fmap_cons NoDup_cons. done.
  - apply StronglySorted_inv in Hde as [? ?]. by constructor.
  - done.
  - intros i q l Hi%Hback. destruct (Hc i q l Hi) as [Hin|(fc & j & Ho)]; [by left|].
    destruct (decide (i = parent f)) as [->|Hne]; [left; by left|]. right. exists fc, j.
    apply (opened_extends v); [done| |done]. apply Hsame; [done|]. apply lookup_lt_Some in Hi. lia.
Qed.

Lemma inv_assign v f fs p rs fc j stop edge byte n :
  stack_inv v (f :: fs) → v_labels v !! parent f = Some (Some (p, rs)) →
  next_child f = Some (fc + j)%nat → opened v (parent f) p rs fc j (seg recs (start f) (end_ f)) →
  (start f < stop ≤ end_ f)%nat → new_child v n edge byte →
  Forall (λ r, p ++ edge `prefix_of` kf r) (seg recs (start f) stop) →
  Forall (λ r, byte < nb (length p) r) (seg recs stop (end_ f)) →
  stack_inv (with_child v (fc + j) n edge p (seg recs (start f) stop))
    (frame_new (fc + j) (start f) stop (length p + length edge) ::
     {| parent := parent f; start := stop; end_ := end_ f; depth := depth f; next_child := Some (S (fc + j)) |} :: fs).
Proof.
  intros HI Hlab Hnc Ho Hst Hnew Hgrp Hrem.
  set (grp := seg recs (start f) stop) in *. set (rem := seg recs stop (end_ f)) in *.
  destruct HI as [Hl Hr Hla Hf Hp Hd Hpa Hde Ht Hc].
  destruct (Hf f ltac:(left)) as (p' & rs' & Hlab' & Hdep & Hrange & _).
  rewrite Hlab in Hlab'. injection Hlab' as <- <-.
  assert (seg recs (start f) (end_ f) = grp ++ rem) as Hseg by (unfold grp, rem; rewrite seg_app //; lia).
  assert (grp ≠ []) as Hne.
  { intros He. apply (f_equal length) in He. unfold grp in He. rewrite seg_length /= in He; lia. }
  assert (runs (depth f) (grp ++ rem) = S (runs (depth f) rem)) as Hruns.
  { destruct grp as [|r grp']; [done|]. apply Forall_cons in Hgrp as [Hgr Hgs]. rewrite -Hdep. simpl app.
    pose proof (nb_prefix p edge byte r ltac:(apply Hnew) Hgr) as Hnr. apply runs_same.
    - eapply Forall_impl; [exact Hgs|]. intros x Hx. rewrite Hnr. apply (nb_prefix p edge); [apply Hnew|done].
    - intros x Hx. destruct rem as [|y rem']; simplify_eq/=. apply Forall_inv in Hrem. lia. }
  assert (pend f = (fc + j)%nat :: seq (S (fc + j)) (runs (depth f) rem)) as Hpend.
  { unfold pend. by rewrite Hnc Hseg Hruns. }
  assert (v_labels v !! (fc + j)%nat = Some None) as Hnone by (apply (Hp f); [left|rewrite Hpend; left]).
  pose proof (extends_child v (fc + j) n edge p grp Hnone) as Hext.
  set (v' := with_child _ _ _ _ _ _) in *.
  assert (∀ i l, v_labels v !! i = Some (Some l) → v_nodes v' !! i = v_nodes v !! i) as Hsame.
  { intros i l Hi. simpl. rewrite list_lookup_insert_ne //. intros <-. congruence. }
  assert (opened v' (parent f) p rs fc (S j) rem) as Ho'.
  { rewrite Hseg in Ho. apply (opened_child v _ _ _ _ _ _ _ _ _ byte); try done. congruence. }
  assert (label_ok (p ++ edge) grp) as Hlok.
  { destruct (Hla _ _ _ Hlab) as (_ & Hs & Hin). destruct Ho as (m & ts & kss & Ho & _).
    pose proof (op_split _ _ _ _ _ _ _ _ _ Ho) as Hrs. rewrite Hseg in Hrs. rewrite Hrs in Hs, Hin.
    split_and!; [done| |set_solver]. do 2 apply StronglySorted_app_1_r in Hs. by apply StronglySorted_app_1_l in Hs. }
  split.
  - simpl. by rewrite !length_insert.
  - by apply (ex_labels _ _ Hext).
  - intros i q l Hi. simpl in Hi. destruct (decide (fc + j = i)%nat) as [<-|Hi'].
    + rewrite list_lookup_insert_eq in Hi; [|by eapply lookup_lt_Some]. by simplify_eq.
    + rewrite list_lookup_insert_ne // in Hi. by apply (Hla i).
  - intros g [->|[->|Hg]%elem_of_cons]%elem_of_cons.
    + exists (p ++ edge), grp. split_and!; simpl; [|by rewrite length_app|lia|lia|split; [done|]].
      * apply list_lookup_insert_eq. by eapply lookup_lt_Some.
      * exists n. split; [|apply Hnew]. apply list_lookup_insert_eq. apply lookup_lt_Some in Hnone. lia.
    + exists p, rs. split_and!; simpl; [by apply (ex_labels _ _ Hext)|done|lia|lia|].
      exists fc, (S j). split; [lia|done].
    + destruct (Hf g ltac:(by do 1 right)) as (q & l & Hq & Hqd & Hqr & Hgo). exists q, l.
      split_and!; [by apply (ex_labels _ _ Hext)|done|lia|lia|]. destruct (next_child g) as [nc|].
      * destruct Hgo as (fc' & j' & Hnc' & Hgo). exists fc', j'. split; [done|].
        apply (opened_extends v); [done|by apply (Hsame _ _ Hq)|done].
      * destruct Hgo as (Hs & m & Hm & Hmn). split; [done|]. exists m. by rewrite (Hsame _ _ Hq).
  - assert (∀ c, c ∈ mjoin (pend <$> f :: fs) → c ≠ (fc + j)%nat → v_labels v' !! c = Some None) as Hpc.
    { intros c Hcin Hcne. simpl. rewrite list_lookup_insert_ne //.
      apply list_elem_of_join in Hcin as (l & Hcl & Hl'). apply list_elem_of_fmap in Hl' as (g & -> & Hg). by apply (Hp g). }
    rewrite fmap_cons mjoin_cons Hpend in Hd, Hpc. simpl in Hd. apply NoDup_cons in Hd as [Hnin Hd].
    intros g c [->|[->|Hg]%elem_of_cons]%elem_of_cons Hin; [by apply elem_of_nil in Hin|..].
    + apply Hpc; [set_solver|]. intros ->. set_solver.
    + assert (c ∈ mjoin (pend <$> fs)) as Hin'.
      { apply list_elem_of_join. exists (pend g). split; [done|]. by apply list_elem_of_fmap_2. }
      apply Hpc; [set_solver|]. intros ->. set_solver.
  - rewrite !fmap_cons !mjoin_cons. rewrite fmap_cons mjoin_cons Hpend in Hd.
    simpl in Hd. by apply NoDup_cons in Hd as [_ ?].
  - rewrite !fmap_cons NoDup_cons. split; [|done]. simpl.
    intros Hin. assert ((fc + j)%nat ∈ parent <$> f :: fs) as (g & Hg & Hgin)%list_elem_of_fmap by done.
    destruct (Hf g Hgin) as (q & l & Hq & _). congruence.
  - apply StronglySorted_inv in Hde as [Hde1 Hde2]. pose proof (nc_head _ _ _ _ Hnew) as Hh.
    assert (0 < length edge)%nat by (destruct edge; simpl in *; [done|lia]).
    constructor; [by constructor|]. constructor; simpl; [lia|].
    eapply Forall_impl; [exact Hde2|]. simpl. lia.
  - simpl. constructor; [done|]. done.
  - intros i q l Hi. simpl in Hi. destruct (decide (fc + j = i)%nat) as [<-|Hi']; [left; simpl; by left|].
    rewrite list_lookup_insert_ne // in Hi. destruct (Hc i q l Hi) as [Hin|(fc' & j' & Hoi)].
    + left. rewrite !fmap_cons /=. right. done.
    + right. exists fc', j'. apply (opened_extends v); [done|by apply (Hsame _ _ Hi)|done].
Qed.
(** ** The layout of the nodes *)
(** The nodes reached so far, by the frames that wait for their next child. *)
Definition stacked (v : view) (f : Frame) (e : nat * nat) : Prop :=
  parent f = e.1 ∧ ∃ n, v_nodes v !! e.1 = Some n ∧ next_child f = Some (Z.to_nat (first_child n) + e.2)%nat.
Definition reached (v : view) (o : list nat) (a : nat) : Prop :=
  a = length (v_nodes v) ∧ ∀ i, i ∈ o → ∃ l, v_labels v !! i = Some (Some l).
Inductive trail (v : view) : list Frame → Prop :=
  | trail_start f : next_child f = None → parent f = O → v_nodes v = [node_empty] → v_edges v = [] → trail v [f]
  | trail_opened o a e fs st : dfs (v_nodes v) o a e st → Forall2 (stacked v) fs st → reached v o a → e = length (v_edges v) → trail v fs
  | trail_assigned o a e f g fs i j st n c : next_child f = None → dfs (v_nodes v) o a e ((i, j) :: st) → v_nodes v !! i = Some n →
      Z.of_nat j < child_count n → parent f = (Z.to_nat (first_child n) + j)%nat → v_nodes v !! parent f = Some c → first_child c = 0 →
      edge_offset c = Z.of_nat e → Forall2 (stacked v) (g :: fs) ((i, S j) :: st) → reached v o a →
      length (v_edges v) = (e + Z.to_nat (edge_len c))%nat → trail v (f :: g :: fs).
(** The label of a node is all that its rules share. *)
Definition shared (p : list Z) (rs : list Record_) : Prop := ∀ q, Forall (λ r, q `prefix_of` kf r) rs → (length q ≤ length p)%nat.
Definition all_shared (v : view) : Prop := ∀ i p rs, i ≠ O → v_labels v !! i = Some (Some (p, rs)) → shared p rs.

Lemma stacked_same v v' fs st : (∀ i n, (∃ j, (i, j) ∈ st) → v_nodes v !! i = Some n → v_nodes v' !! i = Some n) → Forall2 (stacked v) fs st → Forall2 (stacked v') fs st.
Proof.
  intros Hsame Hst. induction Hst as [|f [i j] fs st (Hp & n & Hn & Hf) _ IH]; constructor.
  - split; [done|]. exists n. split; [|done]. apply Hsame; [exists j; left|done].
  - apply IH. intros k m [j' Hj]. apply Hsame. exists j'. by right.
Qed.
Lemma trail_pop v f fs nc : stack_inv v (f :: fs) → trail v (f :: fs) → next_child f = Some nc → start f = end_ f → trail v fs.
Proof.
  intros Hi Ht Hnc Hend. destruct (iv_frames _ _ Hi f ltac:(left)) as (p & rs & _ & _ & _ & Ho). rewrite Hnc Hend seg_nil in Ho.
  destruct Ho as (fc & j & -> & (n & ts & kss & Ho & ->)).
  inversion Ht as [|o a e fs' st Hd Hst Hr He|]; [congruence| |congruence]. subst fs'.
  apply Forall2_cons_inv_l in Hst as ([i j] & st' & (Hp & n' & Hn & Hf) & Hst & ->). simpl in Hp, Hn, Hf. subst i.
  rewrite (op_node _ _ _ _ _ _ _ _ _ Ho) in Hn. injection Hn as <-. rewrite (op_first _ _ _ _ _ _ _ _ _ Ho) Hnc in Hf. injection Hf as Hf.
  apply (trail_opened _ o a e _ st'); [|done..]. apply (dfs_pop _ _ _ _ (parent f) j _ n); [done|apply Ho|].
  rewrite (op_count _ _ _ _ _ _ _ _ _ Ho) /=. lia.
Qed.
Lemma trail_open v f fs st n n' count : next_child f = None → trail v (f :: fs) → v_nodes v !! parent f = Some n → same_edge n n' →
  first_child n' = Z.of_nat (length (v_nodes v)) → child_count n' = Z.of_nat count →
  (∃ l, v_labels v !! parent f = Some (Some l)) →
  trail (mkView (<[parent f := n']> (v_nodes v) ++ replicate count node_empty) (v_edges v) (v_labels v ++ replicate count None))
    ({| parent := parent f; start := st; end_ := end_ f; depth := depth f; next_child := Some (length (v_nodes v)) |} :: fs).
Proof.
  intros Hnone Ht Hn [Hso Hsl Hsb] Hfirst Hcount [l Hl]. set (v' := mkView _ _ _). pose proof (lookup_lt_Some _ _ _ Hn) as Hlt.
  assert (v_nodes v' !! parent f = Some n') as Hn' by (by apply lookup_app_l_Some, list_lookup_insert_eq).
  assert (∀ i m, i ≠ parent f → v_nodes v !! i = Some m → v_nodes v' !! i = Some m) as Hsame.
  { intros i m Hi Hm. apply lookup_app_l_Some. by rewrite list_lookup_insert_ne. }
  assert (∀ i, (∃ l, v_labels v !! i = Some (Some l)) → ∃ l, v_labels v' !! i = Some (Some l)) as Hlab.
  { intros i [k Hk]. exists k. by apply lookup_app_l_Some. }
  assert (length (v_nodes v') = length (v_nodes v) + count)%nat as Hlen by (simpl; by rewrite length_app length_insert length_replicate).
  inversion Ht as [f' _ Hp Hns He|o a e fs' st' Hd Hst _ _|o a e f' g fs' i j st' m c _ Hd Hm Hj Hp Hc Hc0 Hco Hst [Ha Hr] He].
  - subst. rewrite Hp in Hn Hn', Hl. rewrite Hns in Hn, Hfirst. injection Hn as <-. simpl in Hfirst.
    apply (trail_opened _ [0%nat] (1 + Z.to_nat (child_count n')) 0 _ [(0, 0)%nat]).
    + by apply dfs_root; [|rewrite ?Hso ?Hsl ?Hsb..].
    + constructor; [|constructor]. split; [done|]. exists n'. split; [done|]. by rewrite /= Hns Hfirst.
    + split; [rewrite Hlen Hns Hcount /=; lia|]. intros i ->%list_elem_of_singleton. apply Hlab. eauto.
    + by rewrite /= He.
  - apply Forall2_cons_inv_l in Hst as ([i j] & ? & (_ & ? & _ & Hf) & _). congruence.
  - subst f' fs. rewrite Hn in Hc. injection Hc as <-. pose proof (dfs_reached _ _ _ _ _ Hd) as (_ & Ho & Hin).
    assert (∀ k, k ∈ o → k ≠ parent f) as Hne.
    { intros k Hk ->. destruct (Ho _ Hk) as (m' & Hm' & Hm1). rewrite Hn in Hm'. injection Hm' as <-. lia. }
    assert (i ≠ parent f) as Hi by (apply Hne, (Hin i j); left).
    apply (trail_opened _ (o ++ [parent f]) (a + Z.to_nat (child_count n')) (e + Z.to_nat (edge_len n')) _ ((parent f, 0)%nat :: (i, S j) :: st')).
    + rewrite Hp. rewrite Hp in Hn'. apply (dfs_push _ _ _ _ _ _ _ m n'); [|by apply Hsame|done|done|by rewrite Hfirst Ha|by rewrite Hso].
      apply (dfs_later (v_nodes v)); [done|]. intros k m' Hk. apply Hsame, Hne, Hk.
    + constructor.
      * split; [done|]. exists n'. split; [done|]. rewrite /= Hfirst. f_equal. lia.
      * apply (stacked_same v); [|done]. intros k m' [j' Hk]. apply Hsame, Hne. rewrite elem_of_cons in Hk.
        destruct Hk as [[= -> _]|Hk]; [apply (Hin i j); left|apply (Hin k j'); by right].
    + split; [rewrite Hlen Hcount Ha; lia|]. intros k [Hk| ->]%elem_of_snoc; apply Hlab; [by apply Hr|eauto].
    + by rewrite /= He Hsl.
Qed.
Lemma trail_assign v f fs p rs fc j stop edge byte n : stack_inv v (f :: fs) → trail v (f :: fs) → v_labels v !! parent f = Some (Some (p, rs)) →
  next_child f = Some (fc + j)%nat → opened v (parent f) p rs fc j (seg recs (start f) (end_ f)) → (start f < end_ f)%nat →
  new_child v n edge byte →
  trail (with_child v (fc + j) n edge p (seg recs (start f) stop))
    (frame_new (fc + j) (start f) stop (length p + length edge) ::
     {| parent := parent f; start := stop; end_ := end_ f; depth := depth f; next_child := Some (S (fc + j)) |} :: fs).
Proof.
  intros Hi Ht Hlab Hnc (m & ts & kss & Ho & Hj) Hse [Hno Hnl Hnb Hnh Hnf _]. set (v' := with_child _ _ _ _ _ _).
  destruct (iv_frames _ _ Hi f ltac:(left)) as (p' & rs' & Hlab' & Hdep & Hrange & _). rewrite Hlab in Hlab'. injection Hlab' as <- <-.
  assert (0 < runs (length p) (seg recs (start f) (end_ f)))%nat as Hpos.
  { destruct (seg_lookup_lt recs (start f) (end_ f)) as (r & _ & ->); [lia|]. pose proof (runs_pos (length p) r (seg recs (S (start f)) (end_ f))). lia. }
  assert (v_labels v !! (fc + j)%nat = Some None) as Hnone.
  { apply (iv_pend _ _ Hi f); [left|]. unfold pend. rewrite Hnc -Hdep. apply elem_of_seq. lia. }
  inversion Ht as [|o a e fs' st Hd Hst [Ha Hr] He|]; [congruence| |congruence]. subst fs'.
  apply Forall2_cons_inv_l in Hst as ([i j'] & st' & (Hp & n' & Hn & Hf) & Hst & ->). simpl in Hp, Hn, Hf. subst i.
  rewrite (op_node _ _ _ _ _ _ _ _ _ Ho) in Hn. injection Hn as <-. pose proof (op_first _ _ _ _ _ _ _ _ _ Ho) as Hfc. rewrite Hfc Hnc in Hf. injection Hf as Hf.
  assert (j' = j) as -> by lia. pose proof (dfs_reached _ _ _ _ _ Hd) as (_ & _ & Hin).
  assert (∀ k m', k ∈ o → v_nodes v !! k = Some m' → v_nodes v' !! k = Some m') as Hsame.
  { intros k m' Hk Hm'. simpl. rewrite list_lookup_insert_ne //. intros <-. destruct (Hr _ Hk) as [l Hl]. congruence. }
  assert (parent f ∈ o) as Hpo by (apply (Hin _ j); left).
  assert (v_nodes v' !! parent f = Some m) as Hm by (apply Hsame; [done|apply Ho]).
  assert (fc + j < length (v_nodes v))%nat as Hlt by (apply lookup_lt_Some in Hnone; by rewrite (iv_len _ _ Hi) in Hnone).
  apply (trail_assigned _ o a e _ _ _ (parent f) j st' m n); simpl; try done.
  - apply (dfs_later (v_nodes v)); [done|]. intros k m'. apply Hsame.
  - rewrite (op_count _ _ _ _ _ _ _ _ _ Ho) Hj. lia.
  - by rewrite Hfc.
  - by apply list_lookup_insert_eq.
  - by rewrite Hno He.
  - constructor.
    + split; [done|]. exists m. split; [done|]. simpl. rewrite Hfc. f_equal. lia.
    + apply (stacked_same v); [|done]. intros k m' [j' Hk]. apply Hsame, (Hin k j'). by right.
  - split; [by rewrite length_insert|]. intros k Hk. destruct (Hr _ Hk) as [l Hl]. exists l. rewrite list_lookup_insert_ne //. congruence.
  - rewrite length_app He Hnl. lia.
Qed.
Lemma shared_open v frames i l : all_shared v → all_shared (mkView frames i (v_labels v ++ replicate l None)).
Proof.
  intros Hs k p rs Hk Hl. simpl in Hl. apply lookup_app_Some in Hl as [Hl|[_ Hl]]; [by apply (Hs k)|]. by apply lookup_replicate in Hl as [? _].
Qed.
Lemma shared_assign v c n edge p ks : all_shared v → shared (p ++ edge) ks → all_shared (with_child v c n edge p ks).
Proof.
  intros Hs Hk i q rs Hi Hl. simpl in Hl. apply list_lookup_insert_Some in Hl as [(_ & [= <- <-] & _)|[_ Hl]]; [done|by apply (Hs i)].
Qed.
End labelling.

(** A finished index: its nodes are in depth-first order, and no node could be
    merged with its only child. *)
Record built_view (ar : list Z) (recs : list Record_) (v : view) : Prop := {
  bv_complete : complete ar recs v;
  bv_shared : all_shared ar v;
  bv_order : ∃ o, dfs (v_nodes v) o (length (v_nodes v)) (length (v_edges v)) [];
}.

(** ** The loops of the build *)
Record mem_ok (base : Z) (b : Build) : Prop := {
  mo_nodes : vec_ok (b_nodes b);
  mo_edges : vec_ok (b_edges b);
  mo_budget : budget_ok (b_budget b);
  mo_base : 0 ≤ base;
  mo_live : live (b_budget b) = base + capacity (b_nodes b) * NODE_SIZE + capacity (b_edges b);
}.
Definition view_of (b : Build) (labels : list (option (list Z * list Record_))) : view :=
  mkView (items (b_nodes b)) (items (b_edges b)) labels.

Lemma key_len ar e k : key ar e = Some k → Z.of_nat (length k) = len e.
Proof.
  unfold key. case_bool_decide as Hd; intros [= <-]. rewrite length_take length_drop. lia.
Qed.
Lemma record_len ar r : record_ok ar r → len (entry r) = Z.of_nat (length (key_of ar r)).
Proof. intros (Hk & _). by rewrite -(key_len _ _ _ Hk). Qed.

Lemma head_take_drop {A} (l : list A) d m x : l !! d = Some x → (0 < m)%nat → head (take m (drop d l)) = Some x.
Proof. intros Hx Hm. rewrite (drop_S _ _ _ Hx). by destruct m; [lia|]. Qed.
Lemma prefix_take_eq {A} (p k : list A) : p `prefix_of` k → take (length p) k = p.
Proof. intros [more ->]. by rewrite take_app_length. Qed.
Lemma prefix_longer (p k : list Z) : p `prefix_of` k → p ≠ k → (length p < length k)%nat.
Proof.
  intros Hp Hne. pose proof (prefix_length _ _ Hp). destruct (decide (length p = length k)) as [He|?]; [|lia].
  by destruct Hne; apply prefix_length_eq.
Qed.

Section sorted_keys.
Context (ar : list Z).
Notation kf := (key_of ar).
(** Keys below one prefix, all longer than it, are ordered by their next byte. *)
Lemma nb_sorted p a b :
  p `prefix_of` kf a → p `prefix_of` kf b → (length p < length (kf a))%nat → (length p < length (kf b))%nat →
  ble (kf a) (kf b) → nb ar (length p) a ≤ nb ar (length p) b.
Proof.
  intros [ka Ha] [kb Hb] Hla Hlb Hle. unfold nb. rewrite Ha in Hle Hla |- *. rewrite Hb in Hle Hlb |- *.
  rewrite !lookup_app_r; [|lia..]. rewrite Nat.sub_diag. apply ble_app_inv in Hle. rewrite !length_app in Hla Hlb.
  destruct ka as [|x ka], kb as [|y kb]; simpl in *; try lia. apply ble_cons in Hle. lia.
Qed.
Lemma nb_in (p : list Z) a : (length p < length (kf a))%nat → kf a !! length p = Some (nb ar (length p) a).
Proof. intros Hl. unfold nb. by destruct (lookup_lt_is_Some_2 _ _ Hl) as [x ->]. Qed.

Lemma runs_bytes d r l :
  StronglySorted (λ a b, nb ar d a ≤ nb ar d b) (r :: l) → Forall (λ x, 0 ≤ nb ar d x ≤ 255) (r :: l) →
  ∃ bs, runs ar d (r :: l) = S (length bs) ∧ StronglySorted Z.lt (nb ar d r :: bs) ∧ Forall (λ b, 0 ≤ b ≤ 255) bs.
Proof.
  revert r. induction l as [|y l IH]; intros r Hs Hb.
  { exists []. split; [done|]. split; repeat constructor. }
  apply StronglySorted_inv in Hs as [Hs Hr]. apply Forall_cons in Hb as [Hbr Hb].
  destruct (IH y Hs Hb) as (bs & Hruns & Hlt & Hbs).
  change (runs ar d (r :: y :: l)) with (if bool_decide (nb ar d r = nb ar d y) then runs ar d (y :: l)
    else S (runs ar d (y :: l))). case_bool_decide as He.
  - exists bs. by rewrite He.
  - exists (nb ar d y :: bs). rewrite Hruns. apply Forall_inv in Hr. split; [done|]. split.
    + constructor; [done|]. constructor; [lia|]. apply StronglySorted_inv in Hlt as [_ Hlt].
      eapply Forall_impl; [exact Hlt|]. simpl. lia.
    + constructor; [|done]. by apply Forall_inv in Hb.
Qed.
Lemma runs_bound d l :
  StronglySorted (λ a b, nb ar d a ≤ nb ar d b) l → Forall (λ x, 0 ≤ nb ar d x ≤ 255) l →
  (runs ar d l ≤ 256)%nat.
Proof.
  intros Hs Hb. destruct l as [|r l]; [simpl; lia|].
  destruct (runs_bytes d r l Hs Hb) as (bs & -> & Hlt & Hbs). apply Forall_inv in Hb.
  pose proof (increasing_bytes _ Hlt ltac:(by constructor)) as Hle. done.
Qed.
Lemma sorted_nb p l :
  Forall (λ r, p `prefix_of` kf r) l → Forall (λ r, (length p < length (kf r))%nat) l →
  StronglySorted (λ a b, ble (kf a) (kf b)) l → StronglySorted (λ a b, nb ar (length p) a ≤ nb ar (length p) b) l.
Proof.
  intros Hp Hl Hs. induction Hs as [|r l Hs IH Hr]; constructor.
  - apply Forall_cons in Hp as [_ Hp]. apply Forall_cons in Hl as [_ Hl]. by apply IH.
  - apply Forall_cons in Hp as [Hpr Hp]. apply Forall_cons in Hl as [Hlr Hl].
    rewrite Forall_forall in Hp. rewrite Forall_forall in Hl. rewrite Forall_forall in Hr.
    apply Forall_forall. intros x Hx. apply nb_sorted; auto.
Qed.
End sorted_keys.

Definition build_error {H : Host} (e : Error) : Prop := cancelled e ∨ memory_error e.

Section loops.
Context {H : Host} `{!HostSpec H}.
Context (ar : list Z) (recs : list Record_).
Context (Hok : Forall (record_ok ar) recs).
Context (Hsort : StronglySorted (λ a b, ble (key_of ar a) (key_of ar b)) recs).
Notation kf := (key_of ar).
Notation seg := (seg recs).

Lemma wp_get_w (Q : Build → Build * nat → Prop) R b n : Q b (b, n) → wp get_w Q R (b, n).
Proof. done. Qed.
Lemma wp_modify_w f (Q : unit → Build * nat → Prop) R b n : Q tt (f b, n) → wp (modify_w f) Q R (b, n).
Proof. done. Qed.
Lemma wp_w_budget {A} (m : M (Budget * nat) Error A) (Q : A → Build * nat → Prop) R b n :
  wp m (λ a t, Q a (mkBuild (b_nodes b) (b_edges b) t.1, t.2)) (λ e t, R e (mkBuild (b_nodes b) (b_edges b) t.1, t.2))
    (b_budget b, n) → wp (w_budget m) Q R (b, n).
Proof. intros Hm. by apply wp_zoom. Qed.
Lemma update_node_wp i f n b m (Q : unit → Build * nat → Prop) R :
  items (b_nodes b) !! i = Some n → Q tt (set_nodes (λ l, <[i := f n]> l) b, m) → wp (update_node i f) Q R (b, m).
Proof. intros Hn HQ. unfold update_node. apply wp_bind, wp_get_w, wp_bind. eapply wp_expect; [exact Hn|]. done. Qed.
Lemma wp_maybe_check (c : bool) b n (Q : unit → Build * nat → Prop) R :
  (∀ n', Q tt (b, n')) → (∀ e s, build_error e → R e s) → wp (if c then check else ret tt) Q R (b, n).
Proof. intros HQ HR. destruct c; [|by apply wp_ret]. apply wp_check; [done|]. intros e He. apply HR. by left. Qed.

Lemma grow_nodes_wp base needed b n (Q : unit → Build * nat → Prop) R :
  mem_ok base b →
  (∀ v bu n', items v = items (b_nodes b) → needed ≤ capacity v → mem_ok base (mkBuild v (b_edges b) bu) →
    Q tt (mkBuild v (b_edges b) bu, n')) →
  (∀ e s, build_error e → R e s) → wp (grow_nodes needed) Q R (b, n).
Proof.
  intros [Hn He Hb Hbase Hl] HQ HR. unfold grow_nodes. apply wp_bind, wp_get_w, wp_bind, wp_w_budget.
  pose proof (vec_cap_nonneg _ He) as Hec. apply grow_wp; [unfold NODE_SIZE; lia|done|done|lia| |].
  - intros v bu n' [Hi [Hc Hc'] Hlive (Hbu & _)]. apply wp_modify_w. simpl. apply HQ; [done|done|].
    split; simpl; try done; [|lia]. split. unfold vec_len. rewrite Hi. pose proof (vec_fits _ Hn). unfold vec_len in *. lia.
  - intros e b' n' Hm _ _ _. apply HR. by right.
Qed.
Lemma grow_edges_wp base needed b n (Q : unit → Build * nat → Prop) R :
  mem_ok base b →
  (∀ v bu n', items v = items (b_edges b) → needed ≤ capacity v → mem_ok base (mkBuild (b_nodes b) v bu) →
    Q tt (mkBuild (b_nodes b) v bu, n')) →
  (∀ e s, build_error e → R e s) → wp (grow_edges needed) Q R (b, n).
Proof.
  intros [Hn He Hb Hbase Hl] HQ HR. unfold grow_edges. apply wp_bind, wp_get_w, wp_bind, wp_w_budget.
  pose proof (vec_cap_nonneg _ Hn) as Hec. unfold NODE_SIZE in *. apply grow_wp; [lia|done|done|lia| |].
  - intros v bu n' [Hi [Hc Hc'] Hlive (Hbu & _)]. apply wp_modify_w. simpl. apply HQ; [done|done|].
    split; simpl; try done; [|unfold NODE_SIZE; lia]. split. unfold vec_len. rewrite Hi. pose proof (vec_fits _ He). unfold vec_len in *. lia.
  - intros e b' n' Hm _ _ _. apply HR. by right.
Qed.

Lemma byte_at_wp pos r (p : list Z) b n (Q : Z → Build * nat → Prop) R :
  recs !! pos = Some r → (length p < length (kf r))%nat → Q (nb ar (length p) r) (b, n) →
  wp (byte_at ar recs pos (length p)) Q R (b, n).
Proof.
  intros Hr Hl HQ. unfold byte_at. eapply wp_bind, wp_expect; [exact Hr|].
  destruct (Forall_lookup_1 _ _ _ _ Hok Hr) as (Hk & _). eapply wp_bind, wp_expect; [exact Hk|].
  eapply wp_expect; [by apply nb_in|done].
Qed.

Lemma run_end_wp (p : list Z) stop byte pos b n (Q : nat → Build * nat → Prop) R :
  (pos ≤ stop ≤ length recs)%nat → Forall (λ r, (length p < length (kf r))%nat) (seg pos stop) →
  (∀ pos' n', (pos ≤ pos' ≤ stop)%nat → Forall (λ r, nb ar (length p) r = byte) (seg pos pos') →
    (∀ x, head (seg pos' stop) = Some x → nb ar (length p) x ≠ byte) → Q pos' (b, n')) →
  (∀ e s, build_error e → R e s) → wp (run_end ar recs (length p) stop byte pos) Q R (b, n).
Proof.
  intros Hps Hlen HQ HR. unfold run_end.
  apply (wp_loop _ (λ q s, s.1 = b ∧ (pos ≤ q ≤ stop)%nat ∧ Forall (λ r, nb ar (length p) r = byte) (seg pos q))
    (λ q, stop - q)%nat).
  - intros q [b' m] (Hb & Hq & Hall). simpl in Hb. subst b'. unfold run_step. case_bool_decide as Hlt.
    2: { apply wp_ret, HQ; [lia|done|]. replace q with stop by lia. by rewrite seg_nil. }
    destruct (seg_lookup_lt recs q stop) as (r & Hr & Hseg); [lia|].
    assert (length p < length (kf r))%nat as Hlr.
    { rewrite -(seg_app recs pos q stop) in Hlen; [|lia]. apply Forall_app in Hlen as [_ Hlen].
      rewrite Hseg in Hlen. by apply Forall_inv in Hlen. }
    apply wp_bind, (byte_at_wp _ r); [done|done|]. case_bool_decide as Hb.
    + apply wp_bind, wp_maybe_check; [|done]. intros n'. apply wp_ret. split_and!; try done; try lia.
      rewrite -(seg_app recs pos q (S q)); [|lia]. apply Forall_app. split; [done|].
      rewrite (seg_cons recs q (S q) r); [|lia|done]. rewrite seg_nil. by constructor.
    + apply wp_ret, HQ; [lia|done|]. rewrite Hseg. by intros x [= <-].
  - split_and!; [done|lia|lia|]. by rewrite seg_nil.
  - lia.
Qed.

(** The rules that end at the node come first. *)
Lemma terminal_loop_wp f p b n nd (Q : nat → Build * nat → Prop) R :
  (start f ≤ end_ f ≤ length recs)%nat → length p = depth f →
  Forall (λ r, p `prefix_of` kf r) (seg (start f) (end_ f)) →
  items (b_nodes b) !! parent f = Some nd → sources nd = [NONE; NONE; NONE; NONE] →
  (∀ st nd' ts n', (start f ≤ st ≤ end_ f)%nat → seg (start f) (end_ f) = ts ++ seg st (end_ f) →
    Forall (λ r, kf r = p) ts → Forall (λ r, (length p < length (kf r))%nat) (seg st (end_ f)) →
    sources_ok ts (sources nd') → same_edge nd nd' → Q st (set_nodes (λ l, <[parent f := nd']> l) b, n')) →
  wp (loop (S (end_ f - start f)) (terminal_step recs f) (start f)) Q R (b, n).
Proof.
  intros Hr Hp Hpre Hnd Hsrc HQ.
  apply (wp_loop _ (λ st s, (start f ≤ st ≤ end_ f)%nat ∧ Forall (λ r, kf r = p) (seg (start f) st) ∧
    ∃ nd', sources_ok (seg (start f) st) (sources nd') ∧ same_edge nd nd' ∧
      s.1 = set_nodes (λ l, <[parent f := nd']> l) b) (λ st, end_ f - st)%nat).
  - intros st [b' m] (Hst & Hts & nd' & Hso & Hse & Hb). simpl in Hb. subst b'. unfold terminal_step.
    assert (Forall (λ r, (length p < length (kf r))%nat) (seg st (end_ f)) →
      Q st (set_nodes (λ l, <[parent f := nd']> l) b, m)) as Hend.
    { intros Hlong. apply (HQ st nd' (seg (start f) st)); try done. by rewrite seg_app. }
    case_bool_decide as Hlt; [|apply wp_ret, Hend; replace st with (end_ f) by lia; by rewrite seg_nil].
    destruct (seg_lookup_lt recs st (end_ f)) as (r & Hr' & Hseg); [lia|].
    eapply wp_bind, wp_expect; [exact Hr'|].
    pose proof (Forall_lookup_1 _ _ _ _ Hok Hr') as Hrok.
    assert (Forall (λ r, p `prefix_of` kf r) (seg st (end_ f))) as Hpre'.
    { rewrite -(seg_app recs (start f) st (end_ f)) in Hpre; [|lia]. by apply Forall_app in Hpre as [_ ?]. }
    rewrite (record_len _ _ Hrok). case_bool_decide as Hlen.
    + apply wp_bind. eapply update_node_wp; [simpl; apply list_lookup_insert_eq; by eapply lookup_lt_Some|].
      apply wp_ret. simpl.
      assert (seg (start f) (S st) = seg (start f) st ++ [r]) as Hsnoc.
      { rewrite -(seg_app recs (start f) st (S st)); [|lia]. f_equal. rewrite (seg_cons recs st (S st) r); [|lia|done].
        by rewrite seg_nil. }
      rewrite Hsnoc. split_and!; [lia|lia| | |lia].
      * apply Forall_app. split; [done|]. constructor; [|done]. symmetry. apply prefix_length_eq; [|lia].
        rewrite Hseg in Hpre'. by apply Forall_inv in Hpre'.
      * exists (mkNode (edge_offset nd') (first_child nd') (child_count nd') (edge_len nd') (first_byte nd')
          (<[group_index (group r) := source_slot (entry r)]> (sources nd'))). split; [|split].
        -- simpl. apply sources_ok_snoc; [done|apply Hrok].
        -- destruct Hse. by split.
        -- unfold set_nodes; simpl. by rewrite list_insert_insert_eq.
    + apply wp_ret, Hend. rewrite Forall_forall in Hpre'. apply Forall_forall. intros x Hx.
      apply prefix_longer; [by apply Hpre'|]. intros He.
      assert (ble (kf r) (kf x)) as Hle.
      { rewrite Hseg in Hx. apply elem_of_cons in Hx as [->|Hx]; [apply ble_refl|].
        pose proof Hsort as Hs. rewrite -(take_drop st recs) in Hs. apply StronglySorted_app_1_r in Hs.
        rewrite (drop_S _ _ _ Hr') in Hs. apply StronglySorted_inv in Hs as [_ Hs]. rewrite Forall_forall in Hs.
        apply Hs. unfold RadixBuild.seg in Hx. apply (subseteq_take (end_ f - S st)). exact Hx. }
      assert (p `prefix_of` kf r) as Hpr by (apply Hpre'; rewrite Hseg; left).
      assert (p = kf r) as Hpe by (apply ble_antisym; [by apply prefix_ble|by rewrite He]). rewrite -Hpe in Hlen. lia.
  - split_and!; [lia|lia|by rewrite seg_nil|]. exists nd. rewrite seg_nil Hsrc. split; [apply sources_ok_nil|].
    split; [done|]. unfold set_nodes. rewrite list_insert_id //. by destruct b as [[]].
  - lia.
Qed.

Lemma count_loop_wp f (p : list Z) st b n (Q : nat → Build * nat → Prop) R :
  (st ≤ end_ f ≤ length recs)%nat → length p = depth f →
  Forall (λ r, (length p < length (kf r))%nat) (seg st (end_ f)) →
  (∀ n', Q (runs ar (depth f) (seg st (end_ f))) (b, n')) →
  (∀ e s, build_error e → R e s) → wp (loop (S (end_ f - st)) (count_step ar recs f) (O, st)) Q R (b, n).
Proof.
  intros Hr Hp Hlong HQ HR.
  apply (wp_loop _ (λ cp s, s.1 = b ∧ (st ≤ cp.2 ≤ end_ f)%nat ∧
    (cp.1 + runs ar (depth f) (seg cp.2 (end_ f)) = runs ar (depth f) (seg st (end_ f)))%nat) (λ cp, end_ f - cp.2)%nat).
  - intros [count q] [b' m] (Hb & Hq & Hc). simpl in Hb, Hq, Hc. subst b'. unfold count_step. case_bool_decide as Hlt.
    2: { apply wp_ret. assert (q = end_ f) as -> by lia. rewrite seg_nil /= Nat.add_0_r in Hc. rewrite Hc. apply HQ. }
    destruct (seg_lookup_lt recs q (end_ f)) as (r & Hr' & Hseg); [lia|].
    assert (Forall (λ r, (length p < length (kf r))%nat) (seg q (end_ f))) as Hlq.
    { rewrite -(seg_app recs st q (end_ f)) in Hlong; [|lia]. by apply Forall_app in Hlong as [_ ?]. }
    rewrite Hseg in Hlq. apply Forall_cons in Hlq as [Hlr Hlq]. rewrite -Hp.
    apply wp_bind, (byte_at_wp _ r); [done|done|]. apply wp_bind, run_end_wp; [lia|done| |done].
    intros q' n' Hq' Hsame Hdiff. apply wp_ret. simpl. split_and!; [done|lia|lia| |lia].
    rewrite Hp -Hc Hseg -(seg_app recs (S q) q' (end_ f)); [|lia]. rewrite -Hp runs_same //.
  - simpl. split_and!; [done|lia..].
  - simpl. lia.
Qed.

(** What the build keeps true: memory accounting and the stack invariant. *)
Definition building (base : Z) (b : Build) (frames : list Frame) : Prop :=
  mem_ok base b ∧ ∃ labels, let v := view_of b labels in
    stack_inv ar recs v frames ∧ trail v frames ∧ all_shared ar v.

Lemma mem_small base b : mem_ok base b →
  0 ≤ vec_len (b_nodes b) ≤ u32_max ∧ 0 ≤ vec_len (b_edges b) ≤ u32_max.
Proof.
  intros [[Hn] [He] Hb Hbase Hl]. destruct Hb as [Hb1 Hb2 Hb3]. unfold vec_len, u32_max, NODE_SIZE in *. lia.
Qed.
Lemma mem_set_nodes base b l :
  mem_ok base b → Z.of_nat (length l) ≤ capacity (b_nodes b) → mem_ok base (set_nodes (λ _, l) b).
Proof. intros [Hn He Hb Hbase Hl] Hlen. split; simpl; try done. Qed.

Lemma open_frame_wp base f fs b n (Q : Frame → Build * nat → Prop) R :
  building base b (f :: fs) → next_child f = None →
  (∀ st b' n' nc, building base b' ({| parent := parent f; start := st; end_ := end_ f; depth := depth f;
       next_child := Some nc |} :: fs) → (start f ≤ st ≤ end_ f)%nat →
     Q {| parent := parent f; start := st; end_ := end_ f; depth := depth f; next_child := Some nc |} (b', n')) →
  (∀ e s, build_error e → R e s) → wp (open_frame ar recs f) Q R (b, n).
Proof.
  intros [Hmem (labels & Hinv & Htrail & Hshared)] Hnone HQ HR.
  destruct (iv_frames _ _ _ _ Hinv f ltac:(left)) as (p & rs & Hlab & Hdep & Hrange & Hf). rewrite Hnone in Hf.
  destruct Hf as (Hseg & nd & Hnd & Hsrc). destruct (iv_label _ _ _ _ Hinv _ _ _ Hlab) as (Hpre & Hsorted & Hin).
  unfold open_frame. apply wp_bind. rewrite -Hseg in Hpre.
  eapply (terminal_loop_wp f p b n nd); [done..|]. intros st nd' ts n1 Hst Hsplit Hts Hlong Hso Hse.
  apply wp_bind, (count_loop_wp f p); [lia|done|done| |done]. intros n2.
  apply wp_bind, wp_get_w. cbv zeta. simpl.
  set (count := runs ar (depth f) (seg st (end_ f))).
  set (first := length (<[parent f:=nd']> (items (b_nodes b)))).
  assert (first = length (items (b_nodes b))) as Hfirst by apply length_insert.
  assert (count ≤ 256)%nat as Hcount.
  { unfold count. rewrite -Hdep. rewrite Hsplit in Hpre. apply Forall_app in Hpre as [_ Hpre].
    rewrite -Hseg Hsplit in Hsorted. apply StronglySorted_app_1_r in Hsorted.
    apply runs_bound; [by apply sorted_nb|]. rewrite Forall_forall in Hlong. apply Forall_forall. intros r Hr.
    apply (wf_key_bytes (kf r)).
    - apply (proj1 (Forall_forall _ _) Hok r). apply Hin. rewrite -Hseg Hsplit. set_solver.
    - apply list_elem_of_lookup_2 with (length p). by apply nb_in, Hlong. }
  apply wp_bind, (grow_nodes_wp base).
  { apply (mem_set_nodes base b); [done|]. fold first. rewrite Hfirst. apply (mo_nodes _ _ Hmem). }
  2: done.
  intros v bu n3 Hitems Hcap Hmem2. simpl in Hitems. apply wp_bind, wp_modify_w. unfold set_nodes at 1. simpl. rewrite Hitems.
  apply wp_bind. eapply update_node_wp.
  { simpl. apply lookup_app_l_Some, list_lookup_insert_eq. by eapply lookup_lt_Some. }
  pose proof (mem_small _ _ Hmem) as [Hsm _]. unfold vec_len, u32_max in Hsm.
  apply wp_ret. simpl. rewrite as_u32_small; [|lia]. rewrite as_u16_small; [|lia]. apply HQ; [|done].
  unfold set_nodes. simpl. rewrite insert_app_l; [|apply lookup_lt_Some in Hnd; simpl in Hnd; rewrite length_insert; done].
  rewrite list_insert_insert_eq. split.
  - destruct Hmem2 as [Hn2 He2 Hb2 Hbase2 Hl2]. split; simpl; try done.
    split. unfold vec_len in *; simpl. rewrite length_app length_insert length_replicate. lia.
  - exists (labels ++ replicate count None). rewrite Hfirst.
    set (n' := mkNode _ _ _ _ _ _). assert (same_edge nd n') as Hse' by (by destruct Hse). split_and!.
    + apply (inv_open ar recs (view_of b labels) f fs p rs nd n' ts st); simpl; try done. by rewrite -Hseg.
    + apply (trail_open (view_of b labels) f fs st nd n' count); try done. by eexists.
    + by apply (shared_open ar (view_of b labels)).
Qed.

(** ** Assigning a child *)
Lemma common_end_spec fuel (first last : list Z) c :
  (c ≤ length first)%nat → (c ≤ length last)%nat → take c first = take c last → (length first ≤ c + fuel)%nat →
  let r := common_end fuel first last c in
  (c ≤ r ≤ length first)%nat ∧ (r ≤ length last)%nat ∧ take r first = take r last ∧
  ((r < length first)%nat → (r < length last)%nat → first !! r ≠ last !! r).
Proof.
  revert c. induction fuel as [|fuel IH]; intros c Hf Hl He Hfuel; simpl; [split_and!; [done..|lia]|].
  case_bool_decide as Hlt; simpl; [|split_and!; [done..|lia]]. case_bool_decide as Hb; [|done].
  destruct (IH (S c)) as (?&?&?&?); [lia|lia| |lia|split_and!; [lia..|done|done]].
  destruct (lookup_lt_is_Some_2 first c) as [x Hx]; [lia|].
  rewrite (take_S_r _ _ _ Hx). rewrite Hb in Hx. by rewrite (take_S_r _ _ _ Hx) He.
Qed.

(** Frames nest strictly, so the stack is no deeper than the top frame. *)
Lemma frames_depth fs : StronglySorted (λ a b, (depth b < depth a)%nat) fs →
  match fs with [] => True | f :: _ => (length fs ≤ S (depth f))%nat end.
Proof.
  induction 1 as [|f fs Hs IH Hf]; [done|]. destruct fs as [|g fs]; simpl in *; [lia|].
  apply Forall_inv in Hf. lia.
Qed.

(** The keys between the first and the last of a run share their common prefix. *)
Lemma run_prefix st stop first last c r :
  recs !! st = Some first → recs !! (stop - 1)%nat = Some last → (st < stop ≤ length recs)%nat →
  take c (kf first) = take c (kf last) → r ∈ seg st stop → take c (kf first) `prefix_of` kf r.
Proof.
  intros Hf Hl Hst He Hr.
  assert (∀ i j x y, (i ≤ j)%nat → recs !! i = Some x → recs !! j = Some y → ble (kf x) (kf y)) as Hle.
  { intros i j x y Hij Hx Hy. destruct (decide (i = j)) as [->|Hne]; [simplify_eq; apply ble_refl|].
    pose proof Hsort as Hs. rewrite -(take_drop_middle recs i x Hx) in Hs.
    apply StronglySorted_app_1_r, StronglySorted_inv in Hs as [_ Hs]. rewrite Forall_forall in Hs. apply Hs.
    apply list_elem_of_lookup_2 with (j - S i)%nat. rewrite lookup_drop. by replace (S i + (j - S i))%nat with j by lia. }
  apply list_elem_of_lookup in Hr as [k Hk]. unfold RadixBuild.seg in Hk.
  apply lookup_take_Some in Hk as [Hk Hlt]. rewrite lookup_drop in Hk.
  apply (prefix_between _ _ (kf last)).
  - rewrite He. apply prefix_take.
  - apply (ble_trans _ (kf first)); [apply prefix_ble, prefix_take|]. apply (Hle st (st + k)%nat); [lia|done..].
  - apply (Hle (st + k)%nat (stop - 1)%nat); [lia|done..].
Qed.

(** A common prefix of a run ends where its first and its last key part. *)
Lemma run_shared c r0 r1 p ks : length p = c → r0 ∈ ks → r1 ∈ ks → (c ≤ length (kf r0))%nat → (c ≤ length (kf r1))%nat →
  ((c < length (kf r0))%nat → (c < length (kf r1))%nat → kf r0 !! c ≠ kf r1 !! c) → shared ar p ks.
Proof.
  intros <- H0 H1 Hl0 Hl1 Hne q Hq. rewrite Forall_forall in Hq. pose proof (Hq _ H0) as Hp0. pose proof (Hq _ H1) as Hp1.
  pose proof (prefix_length _ _ Hp0). pose proof (prefix_length _ _ Hp1). destruct (decide (length q ≤ length p)%nat) as [|Hlt]; [done|].
  destruct (lookup_lt_is_Some_2 q (length p)) as [b Hb]; [lia|]. exfalso. apply Hne; [lia..|].
  by rewrite (prefix_lookup_Some _ _ _ _ Hb Hp0) (prefix_lookup_Some _ _ _ _ Hb Hp1).
Qed.
Lemma assign_child_wp base f fs nc b n (Q : Frame * Frame → Build * nat → Prop) R :
  building base b (f :: fs) → next_child f = Some nc → (start f < end_ f)%nat →
  (∀ stop common b' n', let fs' := frame_new nc (start f) stop common ::
       {| parent := parent f; start := stop; end_ := end_ f; depth := depth f; next_child := Some (S nc) |} :: fs in
     building base b' fs' → (start f < stop ≤ end_ f)%nat → (depth f < common)%nat →
     Forall (λ r, (common ≤ length (kf r))%nat) (seg (start f) stop) →
     Q (frame_new nc (start f) stop common,
        {| parent := parent f; start := stop; end_ := end_ f; depth := depth f; next_child := Some (S nc) |}) (b', n')) →
  (∀ e s, build_error e → R e s) → wp (assign_child ar recs f nc (length (f :: fs))) Q R (b, n).
Proof.
  intros [Hmem (labels & Hinv & Htrail & Hshared)] Hnc Hse HQ HR.
  destruct (iv_frames _ _ _ _ Hinv f ltac:(left)) as (p & rs & Hlab & Hdep & Hrange & Hf). rewrite Hnc in Hf.
  destruct Hf as (fc & j & -> & Hop). pose proof Hop as (nd & ts & kss & Ho & Hj).
  destruct (iv_label _ _ _ _ Hinv _ _ _ Hlab) as (Hpre & Hsorted & Hin).
  pose proof (op_split _ _ _ _ _ _ _ _ _ _ Ho) as Hrs. pose proof (op_longer _ _ _ _ _ _ _ _ _ _ Ho) as Hlong.
  rewrite Hrs in Hpre, Hsorted. apply Forall_app in Hlong as [_ Hlong].
  do 2 apply Forall_app in Hpre as [_ Hpre]. do 2 apply StronglySorted_app_1_r in Hsorted.
  destruct (seg_lookup_lt recs (start f) (end_ f)) as (r0 & Hr0 & Hseg); [lia|].
  assert (length p < length (kf r0))%nat as Hl0 by (rewrite Hseg in Hlong; by apply Forall_inv in Hlong).
  assert (p `prefix_of` kf r0) as Hp0 by (rewrite Hseg in Hpre; by apply Forall_inv in Hpre).
  destruct (Forall_lookup_1 _ _ _ _ Hok Hr0) as (Hk0 & Hwf0 & _).
  unfold assign_child. eapply wp_bind, wp_expect; [exact Hr0|]. eapply wp_bind, wp_expect; [exact Hk0|].
  rewrite -Hdep. eapply wp_bind, wp_expect; [by apply nb_in|]. set (byte := nb ar (length p) r0).
  assert (Forall (λ r, (length p < length (kf r))%nat) (seg (S (start f)) (end_ f))) as Hlong1.
  { rewrite Hseg in Hlong. by apply Forall_cons in Hlong as [_ ?]. }
  apply wp_bind, run_end_wp; [lia|done| |done]. intros stop n1 Hstop Hsame Hdiff.
  destruct (seg_last recs (start f) stop) as (r1 & Hr1 & _); [lia|].
  destruct (Forall_lookup_1 _ _ _ _ Hok Hr1) as (Hk1 & _).
  eapply wp_bind, wp_expect; [exact Hr1|]. eapply wp_bind, wp_expect; [exact Hk1|]. cbv zeta.
  assert (Forall (λ r, nb ar (length p) r = byte) (seg (start f) stop)) as Hbytes.
  { rewrite (seg_cons recs _ _ r0); [|lia|done]. by constructor. }
  assert (r1 ∈ seg (start f) stop) as Hr1in.
  { destruct (seg_last recs (start f) stop) as (r1' & Hr1' & ->); [lia|]. simplify_eq. set_solver. }
  assert (seg (start f) (end_ f) = seg (start f) stop ++ seg stop (end_ f)) as Happ by (rewrite seg_app //; lia).
  rewrite Happ in Hpre, Hlong, Hsorted. apply Forall_app in Hpre as [Hpre1 Hpre2].
  apply Forall_app in Hlong as [Hlo1 Hlo2]. rewrite !Forall_forall in Hpre1 Hlo1 Hbytes.
  assert (take (S (length p)) (kf r0) = take (S (length p)) (kf r1)) as Htake.
  { rewrite (take_S_r _ _ byte); [|by apply nb_in]. rewrite (take_S_r _ _ byte).
    - by rewrite (prefix_take_eq _ _ Hp0) (prefix_take_eq _ _ (Hpre1 r1 Hr1in)).
    - rewrite -(Hbytes r1 Hr1in). by apply nb_in, Hlo1. }
  destruct (common_end_spec (length (kf r0)) (kf r0) (kf r1) (S (length p)) Hl0 (Hlo1 r1 Hr1in) Htake ltac:(lia))
    as (Hc1 & Hc2 & Hc3 & Hc4). set (common := common_end _ _ _ _) in *.
  set (edge := take (common - length p) (drop (length p) (kf r0))).
  assert (p ++ edge = take common (kf r0)) as Hedge.
  { unfold edge. destruct Hp0 as [k ->]. rewrite drop_app_length take_app_ge; [done|]. lia. }
  assert (length edge = common - length p)%nat as Hel.
  { unfold edge. rewrite length_take length_drop. lia. }
  apply wp_bind, wp_get_w. apply wp_bind, (grow_edges_wp base); [done| |done].
  intros v bu n2 Hitems Hcap Hmem2.
  eapply wp_bind, wp_expect.
  { unfold slice. rewrite bool_decide_true; [reflexivity|lia]. }
  apply wp_bind, wp_modify_w. fold edge.
  assert (labels !! (fc + j)%nat = Some None) as Hcl.
  { apply (iv_pend _ _ _ _ Hinv f); [left|]. unfold pend. rewrite Hnc. apply elem_of_seq.
    rewrite Hseg. pose proof (runs_pos ar (depth f) r0 (seg (S (start f)) (end_ f))). lia. }
  assert (fc + j < length (items (b_nodes b)))%nat as Hclt.
  { pose proof (iv_len _ _ _ _ Hinv) as Hlen. simpl in Hlen. apply lookup_lt_Some in Hcl. lia. }
  destruct (lookup_lt_is_Some_2 _ _ Hclt) as [cn Hcn].
  apply wp_bind. eapply update_node_wp; [exact Hcn|].
  pose proof (wf_key_len _ Hwf0) as Hkl. pose proof (mem_small _ _ Hmem) as [_ Hsm]. unfold vec_len, u32_max in Hsm.
  pose proof (frames_depth _ (iv_depth _ _ _ _ Hinv)) as Hfd. cbv iota in Hfd.
  rewrite bool_decide_true; [|unfold MAX_BUILD_DEPTH; lia].
  apply wp_bind, wp_ret, wp_ret. rewrite as_u32_small; [|lia]. rewrite as_u8_small; [|lia].
  rewrite Hdep. apply HQ; [|lia|lia|].
  - split.
    + destruct Hmem2 as [Hn2 He2 Hb2 Hbase2 Hl2]. split; simpl; try done.
      * split. destruct Hn2 as [Hn2]. unfold vec_len in *; simpl in *. by rewrite length_insert.
      * split. unfold vec_len in *; simpl. rewrite length_app Hitems Hel. lia.
    + exists (<[(fc + j)%nat := Some (p ++ edge, seg (start f) stop)]> labels).
      replace common with (length p + length edge)%nat by lia.
      set (n' := mkNode (Z.of_nat (length (items (b_edges b)))) 0 0 (Z.of_nat (length edge)) byte [NONE; NONE; NONE; NONE]).
      assert (new_child (view_of b labels) n' edge byte) as Hnew.
      { split; simpl; try done. unfold edge. apply head_take_drop; [by apply nb_in|lia]. }
      pose proof (inv_assign ar recs (view_of b labels) f fs p rs fc j stop edge byte n' Hinv Hlab Hnc Hop) as Hass.
      pose proof (trail_assign ar recs (view_of b labels) f fs p rs fc j stop edge byte n' Hinv Htrail Hlab Hnc Hop Hse Hnew) as Htr.
      assert (shared ar (p ++ edge) (seg (start f) stop)) as Hsh.
      { apply (run_shared common r0 r1); [rewrite Hedge length_take; lia| |done|lia|lia|done]. rewrite (seg_cons recs _ _ r0); [left|lia|done]. }
      pose proof (shared_assign ar (view_of b labels) (fc + j) n' edge p (seg (start f) stop) Hshared Hsh) as Hsha.
      unfold n', with_child, view_of in *. simpl in *. rewrite Hitems. replace (length p + length edge - length p)%nat with (length edge) by lia.
      replace (length p + length edge - depth f)%nat with (length edge) by lia.
      split; [|by split]. apply Hass; [lia|done| |].
      * apply Forall_forall. intros r Hr. rewrite Hedge. apply (run_prefix (start f) stop r0 r1); try done. lia.
      * assert (∀ x, x ∈ seg stop (end_ f) → byte ≤ nb ar (length p) x) as Hge.
        { intros x Hx. rewrite Forall_forall in Hpre2. rewrite Forall_forall in Hlo2.
          apply nb_sorted; auto. apply StronglySorted_app in Hsorted as (Hs & _ & _). apply Hs; [|done].
          rewrite (seg_cons recs _ _ r0); [left|lia|done]. }
        apply StronglySorted_app_1_r in Hsorted. destruct (seg stop (end_ f)) as [|x l] eqn:El; [constructor|].
        assert (byte < nb ar (length p) x) as Hx.
        { pose proof (Hge x ltac:(left)). specialize (Hdiff x eq_refl). fold byte in Hdiff. lia. }
        constructor; [done|]. pose proof (sorted_nb ar p (x :: l) Hpre2 Hlo2 Hsorted) as Hnb.
        apply StronglySorted_inv in Hnb as [_ Hnb]. eapply Forall_impl; [exact Hnb|]. simpl. lia.
  - apply Forall_forall. intros r Hr.
    pose proof (prefix_length _ _ (run_prefix (start f) stop r0 r1 common r Hr0 Hr1 ltac:(lia) Hc3 Hr)) as Hpl.
    rewrite length_take in Hpl. lia.
Qed.

(** ** Termination: bytes below the frames *)
Definition weight (d : nat) (l : list Record_) : nat := sum_list_with (λ r, length (kf r) - d)%nat l.
Definition potential (frames : list Frame) : nat :=
  sum_list_with (λ f, S (2 * weight (depth f) (seg (start f) (end_ f)))) frames.

Lemma weight_app d l1 l2 : weight d (l1 ++ l2) = (weight d l1 + weight d l2)%nat.
Proof. unfold weight. induction l1; simpl; lia. Qed.
Lemma weight_deeper d d' l :
  (d < d')%nat → l ≠ [] → Forall (λ r, (d' ≤ length (kf r))%nat) l → (weight d' l < weight d l)%nat.
Proof.
  intros Hd Hne Hl. destruct Hl as [|r l Hr Hl]; [done|]. clear Hne. unfold weight. simpl.
  assert (sum_list_with (λ r, length (kf r) - d')%nat l ≤ sum_list_with (λ r, length (kf r) - d)%nat l)%nat; [|lia].
  induction Hl; simpl; lia.
Qed.

Lemma children_step_wp base frames processed b n :
  building base b frames →
  wp (children_step ar recs (frames, processed))
    (λ r s, match r with
            | inl st => building base s.1 st.1 ∧ (potential st.1 < potential frames)%nat
            | inr _ => building base s.1 []
            end) (λ e _, build_error e) (b, n).
Proof.
  intros Hb. unfold children_step. destruct frames as [|f fs]; [by apply wp_ret|].
  apply wp_bind, wp_maybe_check; [|done]. intros n1.
  assert (∀ f' b' n', building base b' (f' :: fs) → next_child f' ≠ None →
    depth f' = depth f → end_ f' = end_ f → (start f ≤ start f' ≤ end_ f)%nat →
    wp (advance ar recs (S processed) f' fs)
    (λ r s, match r with
            | inl st => building base s.1 st.1 ∧ (potential st.1 < potential (f :: fs))%nat
            | inr _ => building base s.1 []
            end) (λ e _, build_error e) (b', n')) as Hgo.
  { intros f' b' n' [Hm (labels & Hi & Ht & Hsh)] Hnc Hd He Hs.
    unfold advance. destruct (next_child f') as [nc|] eqn:En; [|done]. case_bool_decide as Hempty.
    - apply wp_ret. split; [split; [done|exists labels; split; [by apply (inv_pop _ _ _ f' fs nc)|split; [|done]; by apply (trail_pop ar recs _ f' fs nc)]]|].
      unfold potential; simpl. lia.
    - eapply wp_bind, wp_expect; [done|]. apply wp_bind, (assign_child_wp base f' fs nc); [split; [done|by exists labels]|done|lia| |done].
      intros stop common b2 n2 fs' Hb2 Hst Hco Hlen. apply wp_ret. split; [exact Hb2|].
      destruct Hb2 as [_ (labels2 & Hi2 & _)]. destruct (iv_frames _ _ _ _ Hi2 _ ltac:(left)) as (? & ? & _ & _ & Hr2 & _).
      simpl in Hr2. unfold potential; simpl. rewrite Hd.
      assert (seg (start f) (end_ f) = seg (start f) (start f') ++ seg (start f') stop ++ seg stop (end_ f')) as ->.
      { rewrite seg_app; [|lia]. rewrite seg_app; [|lia]. by rewrite He. }
      rewrite !weight_app. pose proof (weight_deeper (depth f) common (seg (start f') stop)) as Hw.
      specialize (Hw ltac:(lia)). assert (weight common (seg (start f') stop) < weight (depth f) (seg (start f') stop))%nat; [|lia].
      apply Hw; [|done]. intros Hn. apply (f_equal length) in Hn. rewrite seg_length /= in Hn; lia. }
  apply wp_bind. destruct (next_child f) as [nc|] eqn:En.
  - apply wp_ret. destruct Hb as [Hm (labels & Hi & Ht & Hsh)].
    destruct (iv_frames _ _ _ _ Hi f ltac:(left)) as (p & rs & _ & _ & Hr & _).
    apply Hgo; [split; [done|by exists labels]|by rewrite En|done|done|lia].
  - apply (open_frame_wp base f fs); [done|done| |done]. intros st b' n' nc Hb' Hst. by apply Hgo.
Qed.

Lemma complete_of_stack v : stack_inv ar recs v [] → complete ar recs v.
Proof.
  intros [Hl Hr Hla _ _ _ _ _ _ Hc]. split; [done|done|]. intros i p rs Hi.
  destruct (Hc i p rs Hi) as [Hin|?]; [by apply elem_of_nil in Hin|done].
Qed.
Lemma built_of_stack v : stack_inv ar recs v [] → trail v [] → all_shared ar v → built_view ar recs v.
Proof.
  intros Hi Ht Hs. split; [by apply complete_of_stack|done|]. inversion Ht as [|o a e fs st Hd Hst [Ha _] He|].
  apply Forall2_nil_inv_l in Hst as ->. exists o. by rewrite -Ha -He.
Qed.
Lemma weight_recs l : Forall (record_ok ar) l → weight 0 l = sum_list_with (λ r, Z.to_nat (len (entry r))) l.
Proof.
  unfold weight. induction 1 as [|r l Hr _ IH]; simpl; [done|]. rewrite IH (record_len _ _ Hr). lia.
Qed.

Lemma children_wp base b n :
  mem_ok base b → items (b_nodes b) = [node_empty] → items (b_edges b) = [] →
  wp (children ar recs)
    (λ _ s, mem_ok base s.1 ∧ ∃ labels, built_view ar recs (view_of s.1 labels))
    (λ e _, build_error e) (b, n).
Proof.
  intros Hm Hn He. unfold children. apply wp_bind, wp_w_budget.
  pose proof (mo_live _ _ Hm) as Hlive. pose proof (vec_cap_nonneg _ (mo_nodes _ _ Hm)) as Hc1.
  pose proof (vec_cap_nonneg _ (mo_edges _ _ Hm)) as Hc2. pose proof (mo_base _ _ Hm) as Hbase.
  apply grow_wp; [unfold FRAME_SIZE; lia|split; unfold vec_len; simpl; lia|apply Hm|simpl; unfold NODE_SIZE in *; lia| |].
  2: { intros e b' n' Hme _ _ _. by right. }
  intros v bu n1 [Hvi [Hvc _] Hvl (Hbu & _)]. simpl in Hvl. rewrite Z.sub_0_r in Hvl. apply wp_bind.
  assert (0 ≤ capacity v * FRAME_SIZE) as Hfr by (unfold FRAME_SIZE, MAX_BUILD_DEPTH in *; lia).
  eapply wp_mono; [| |apply (wp_loop _ (λ st s, building (base + capacity v * FRAME_SIZE) s.1 st.1) (λ st, potential st.1)
    (λ _ s, building (base + capacity v * FRAME_SIZE) s.1 []) (λ e _, build_error e))]; [|done| | |].
  - intros [] [b2 n2] [Hm2 (labels & Hi & Ht & Hsh)]. simpl in Hm2, Hi, Ht, Hsh. apply wp_bind, wp_w_budget.
    pose proof (mo_live _ _ Hm2) as Hl2. pose proof (vec_cap_nonneg _ (mo_nodes _ _ Hm2)) as Hc3.
    pose proof (vec_cap_nonneg _ (mo_edges _ _ Hm2)) as Hc4.
    apply release_wp; [apply Hm2|unfold NODE_SIZE in *; lia|]. intros b3 Hb3 Hl3 _ _.
    apply wp_check; [|intros e Hce; by left]. simpl. split.
    + destruct Hm2. split; simpl; try done. lia.
    + exists labels. by apply built_of_stack.
  - intros [frames processed] [b2 n2] Hb2. by apply children_step_wp.
  - split.
    + destruct Hm. split; simpl; try done; lia.
    + exists [Some ([], recs)]. cbv zeta. unfold view_of; simpl. rewrite Hn He. split; [|split; [by apply trail_start|]].
      2: { intros i p rs Hi Hl. apply list_lookup_singleton_Some in Hl as [? _]. congruence. }
      split; simpl; try done.
      * intros i p rs Hi. apply list_lookup_singleton_Some in Hi as [_ [= <- <-]]. split_and!; [|done|done].
        apply Forall_true. intros x. apply prefix_nil.
      * intros f ->%list_elem_of_singleton. exists [], recs. split_and!; simpl; [done|done|lia|lia|].
        split; [apply seg_all|by exists node_empty].
      * intros f c ->%list_elem_of_singleton. simpl. by intros ?%elem_of_nil.
      * constructor.
      * constructor; [apply not_elem_of_nil|constructor].
      * repeat constructor.
      * intros i p rs Hi. apply list_lookup_singleton_Some in Hi as [-> _]. left. left.
  - unfold potential, build_fuel; simpl. rewrite seg_all weight_recs //. lia.
Qed.
End loops.

(** ** The index build *)
Lemma total_key_group ar : total_cmp (key_group_cmp ar).
Proof.
  unfold key_group_cmp. apply (total_cmp_then (λ a b, _) (λ a b, _)).
  - apply (total_cmp_on (key_of ar)), total_cmp_bytes.
  - apply (total_cmp_on (λ a, Z.of_nat (group_index (group a)))), total_cmp_Z.
Qed.

(** An index that represents a list of records over an arena. *)
Definition represents (x : Index) (ar : list Z) (rs : list Record_) : Prop :=
  ∃ recs labels, recs ≡ₚ rs ∧ complete ar recs (mkView (items (nodes x)) (items (edges x)) labels).

(** An index as the build leaves it. *)
Definition built (x : Index) (ar : list Z) (rs : list Record_) : Prop :=
  ∃ recs labels, recs ≡ₚ rs ∧ built_view ar recs (mkView (items (nodes x)) (items (edges x)) labels).
Lemma built_represents x ar rs : built x ar rs → represents x ar rs.
Proof. intros (recs & labels & Hp & Hb). exists recs, labels. split; [done|apply Hb]. Qed.

Section build_theorem.
Context {H : Host} `{!HostSpec H} {SL : SliceLib} `{!SliceSpec SL}.

Lemma build_wp retained c s0 n :
  canonical_ok retained c →
  wp (build_with_check c)
    (λ x _, built x (items (c_arena c)) (items (c_records c)) ∧
      index_rules x = length (items (c_records c)) ∧ x_input_rules x = input_rules c ∧
      x_digest x = semantic_digest c ∧ peak_bytes x ≤ 512 * 1024 * 1024 ∧ 0 ≤ index_bytes x ≤ peak_bytes x)
    (λ e _, build_error e) (s0, n).
Proof.
  intros Hc. unfold build_with_check. apply wp_bind, wp_check; [|intros; by left].
  apply wp_bind, sort_records_wp; [apply total_key_group|apply Hc|]. intros recs Hperm Hsorted.
  apply wp_bind, wp_check; [|intros; by left]. apply wp_bind, wp_modify_w.
  assert (Forall (record_ok (items (c_arena c))) recs) as Hok by (rewrite Hperm; apply Hc).
  set (base := retained + capacity (c_arena c) + RECORD_SIZE * capacity (c_records c)).
  pose proof (vec_cap_nonneg _ (co_arena _ _ Hc)). pose proof (vec_cap_nonneg _ (co_records _ _ Hc)).
  pose proof (co_retained _ _ Hc). assert (0 ≤ base) as Hbase by (unfold base, RECORD_SIZE; lia).
  apply wp_bind, (grow_nodes_wp base); [| |done].
  { split; simpl; try done; [split; unfold vec_len; simpl; lia..|apply Hc|].
    rewrite (co_charged _ _ Hc). unfold base. lia. }
  intros v bu n1 Hv Hcap Hm. apply wp_bind, wp_modify_w. simpl in Hv. apply wp_bind.
  assert (StronglySorted (λ a b, ble (key_of (items (c_arena c)) a) (key_of (items (c_arena c)) b)) recs) as Hs.
  { clear -Hsorted. unfold key_group_cmp in Hsorted. induction Hsorted as [|r l Hs IH Hr]; constructor; [done|].
    eapply Forall_impl; [exact Hr|]. intros x. unfold ble. by destruct (cmp_bytes _ _). }
  eapply wp_mono; [| |apply (children_wp _ recs Hok Hs base)].
  - intros [] [b n2] [Hm2 [labels Hcomp]]. apply wp_bind, wp_get_w, wp_ret. simpl in *.
    split_and!; [|done..| | |].
    + exists recs, labels. done.
    + pose proof (budget_peak _ (mo_budget _ _ Hm2)). pose proof (budget_limit _ (mo_budget _ _ Hm2)). lia.
    + unfold index_bytes; simpl. pose proof (vec_cap_nonneg _ (mo_nodes _ _ Hm2)).
      pose proof (vec_cap_nonneg _ (mo_edges _ _ Hm2)). unfold NODE_SIZE. lia.
    + unfold index_bytes; simpl. pose proof (mo_live _ _ Hm2) as Hl2.
      pose proof (budget_live _ (mo_budget _ _ Hm2)). unfold NODE_SIZE in *. lia.
  - done.
  - apply (mem_set_nodes base (mkBuild v vec_new bu)); [done|]. rewrite Hv. simpl. lia.
  - simpl. by rewrite Hv.
  - done.
Qed.
End build_theorem.
