(* ===== verification/RadixLookup.v ===== *)
(** * Lookups in the radix index answer as the rules do

    [Index::lookup] and [Index::block_match] of [src/policy/radix.rs] on an
    index that represents a rule list, the whole compilation from a builder to
    answers, and [Index::rule], the text of a matched rule. *)
From S2P Require Import Prelude Std Names Canonical Prepare Radix RadixBuild.
Set Default Goal Selector "!".
Set Warnings "-rewrite-rw".
Local Open Scope Z_scope.
Local Open Scope rust_scope.

Definition match_of (r : Rule) : Match_ :=
  {| m_group := r_group r; m_slot := r_slot r; matched_key_len := Z.of_nat (length (r_key r)) |}.

(** [lookup]: the matching rule of the first group in declaration order
    (allow before block, suffix before exact), the shortest of its group. *)
Definition before (r r' : Rule) : Prop :=
  (group_index (r_group r) < group_index (r_group r'))%nat ∨
  r_group r = r_group r' ∧ (length (r_key r) ≤ length (r_key r'))%nat.
Definition lookup_spec (rs : list Rule) (q : list Z) (o : option Match_) : Prop :=
  match o with
  | None => ∀ r, r ∈ rs → ¬ matches r q
  | Some m => ∃ r, r ∈ rs ∧ matches r q ∧ m = match_of r ∧ ∀ r', r' ∈ rs → matches r' q → before r r'
  end.
(** [block_match]: the rule that chooses the answer. *)
Definition block_spec (local : Z) (rs : list Rule) (q : list Z) (o : option Match_) : Prop :=
  match o with
  | None => ∀ r, ¬ chosen local rs q r
  | Some m => ∃ r, chosen local rs q r ∧ m = match_of r
  end.

Lemma StronglySorted_lookups {A} (R : A → A → Prop) (l : list A) :
  (∀ i j x y, (i < j)%nat → l !! i = Some x → l !! j = Some y → R x y) → StronglySorted R l.
Proof.
  induction l as [|a l IH]; intros Hl; constructor.
  - apply IH. intros i j x y Hij Hx Hy. apply (Hl (S i) (S j)); [lia|done..].
  - apply Forall_forall. intros y [j Hj]%list_elem_of_lookup. apply (Hl O (S j)); [lia|done..].
Qed.
Lemma StronglySorted_lookup_lt {A} (R : A → A → Prop) (l : list A) i j x y :
  StronglySorted R l → (i < j)%nat → l !! i = Some x → l !! j = Some y → R x y.
Proof.
  intros Hs. revert i j. induction Hs as [|a l Hs IH Ha]; intros [|i] [|j] Hij Hx Hy; simpl in *; try done; try lia.
  - simplify_eq. apply list_elem_of_lookup_2 in Hy. by apply (proj1 (Forall_forall _ _) Ha).
  - by apply (IH i j); [lia|..].
Qed.

Section walk_proof.
Context {SL : SliceLib} `{!SliceSpec SL}.
Context (x : Index) (ar : list Z) (recs : list Record_) (labels : list (option (list Z * list Record_))).
Context (Hcomp : complete ar recs (mkView (items (nodes x)) (items (edges x)) labels)).
Context (q : list Z) (Hq : (length q ≤ 255)%nat).
Notation kf := (key_of ar).
Notation v := (mkView (items (nodes x)) (items (edges x)) labels).

Record at_node (i : nat) (p : list Z) (rs : list Record_) : Prop := {
  an_label : labels !! i = Some (Some (p, rs));
  an_prefix : p `prefix_of` q;
  an_rest r : r ∈ recs → kf r `prefix_of` q → (length (kf r) < length p)%nat ∨ r ∈ rs;
}.

(** Rules that end at the node. *)
Lemma found_wp i p rs nd g (Q : option Match_ → unit → Prop) R :
  at_node i p rs → items (nodes x) !! i = Some nd →
  (∀ o, match o with
        | None => ∀ r, r ∈ recs → kf r = p → group r ≠ g
        | Some m => ∃ r, r ∈ recs ∧ kf r = p ∧ group r = g ∧ m = match_of (rule_of ar r)
        end → Q o tt) →
  wp (found nd (length p) g) Q R tt.
Proof.
  intros [Hlab Hp Hrest] Hnd HQ. destruct (cp_opened _ _ _ Hcomp _ _ _ Hlab) as (fc & j & nd' & ts & kss & Ho & _).
  pose proof (op_node _ _ _ _ _ _ _ _ _ _ Ho) as Hnd'. simpl in Hnd'. simplify_eq.
  destruct (proj2 (op_sources _ _ _ _ _ _ _ _ _ _ Ho) g) as (s & Hs & Hnone & Hsome).
  unfold found. eapply wp_bind, wp_expect; [exact Hs|]. apply wp_ret, HQ.
  pose proof (op_ends _ _ _ _ _ _ _ _ _ _ Ho) as Hts. rewrite Forall_forall in Hts.
  pose proof (op_split _ _ _ _ _ _ _ _ _ _ Ho) as Hrs. pose proof (op_longer _ _ _ _ _ _ _ _ _ _ Ho) as Hlong.
  rewrite Forall_forall in Hlong. destruct (cp_label _ _ _ Hcomp _ _ _ Hlab) as (_ & _ & Hin).
  case_bool_decide as He.
  - intros r Hr Hk. apply Hnone; [done|]. destruct (Hrest r Hr) as [?|Hrin]; [by rewrite Hk|by rewrite Hk in H; lia|].
    rewrite Hrs in Hrin. apply elem_of_app in Hrin as [?|Hrin]; [done|]. specialize (Hlong r Hrin). rewrite Hk in Hlong. lia.
  - destruct (Hsome He) as (r & Hr & Hg & Hslot). exists r. split_and!; [apply Hin; rewrite Hrs; set_solver|by apply Hts|done|].
    pose proof (prefix_length _ _ Hp). unfold match_of, rule_of; simpl. rewrite as_u16_small; [|lia].
    by rewrite Hg Hslot (Hts r Hr).
Qed.

Lemma child_byte p c ks r b :
  child_ok v p c ks → r ∈ ks → kf r `prefix_of` q → q !! length p = Some b →
  ∃ nd edge, items (nodes x) !! c = Some nd ∧ edge_of nd (items (edges x)) = Some edge ∧ first_byte nd = b ∧
    labels !! c = Some (Some (p ++ edge, ks)) ∧ p ++ edge `prefix_of` q.
Proof.
  intros (nd & edge & Hn & He & Hh & Hl & Hne) Hr Hp Hb. simpl in *.
  destruct (cp_label _ _ _ Hcomp _ _ _ Hl) as (Hpre & _ & _). rewrite Forall_forall in Hpre.
  assert (p ++ edge `prefix_of` q) as Hpq by (trans (kf r); [by apply Hpre|done]).
  exists nd, edge. split_and!; try done. destruct Hpq as [more ->].
  rewrite -app_assoc lookup_app_r // Nat.sub_diag in Hb. destruct edge; simpl in *; congruence.
Qed.

(** The rules below a child share its byte. *)
Lemma kid_byte i p rs fc nd ts kss j k n :
  opened_at ar v i p rs fc [] nd ts kss → kss !! j = Some k → items (nodes x) !! (fc + j)%nat = Some n →
  ∃ r, r ∈ k ∧ nb ar (length p) r = first_byte n.
Proof.
  intros Ho Hk Hn. destruct (op_kids _ _ _ _ _ _ _ _ _ _ Ho _ _ Hk) as (n' & edge & Hn' & _ & Hh & Hl & Hne).
  simpl in *. simplify_eq. destruct k as [|r k]; [done|]. exists r. split; [left|].
  destruct (cp_label _ _ _ Hcomp _ _ _ Hl) as (Hpre & _ & _). apply Forall_inv in Hpre. by apply (nb_prefix ar p edge).
Qed.
(** Children are in the order of their bytes. *)
Lemma kid_order i p rs fc nd ts kss j1 j2 n1 n2 :
  opened_at ar v i p rs fc [] nd ts kss → (j1 < j2 < length kss)%nat →
  items (nodes x) !! (fc + j1)%nat = Some n1 → items (nodes x) !! (fc + j2)%nat = Some n2 →
  first_byte n1 < first_byte n2.
Proof.
  intros Ho Hj Hn1 Hn2. destruct (lookup_lt_is_Some_2 kss j1) as [k1 Hk1]; [lia|].
  destruct (lookup_lt_is_Some_2 kss j2) as [k2 Hk2]; [lia|].
  destruct (kid_byte _ _ _ _ _ _ _ _ _ _ Ho Hk1 Hn1) as (r1 & Hr1 & <-).
  destruct (kid_byte _ _ _ _ _ _ _ _ _ _ Ho Hk2 Hn2) as (r2 & Hr2 & <-).
  pose proof (op_sorted _ _ _ _ _ _ _ _ _ _ Ho) as Hs. apply StronglySorted_app_1_l in Hs.
  apply (StronglySorted_lookup_lt _ _ j1 j2 k1 k2 Hs); [lia|done..].
Qed.

Lemma kids_sorted i p rs fc nd ts kss kids b :
  opened_at ar v i p rs fc [] nd ts kss → slice (items (nodes x)) fc (fc + length kss) = Some kids →
  StronglySorted (λ a c, corder (first_byte a ?= b) ≤ corder (first_byte c ?= b)) kids.
Proof.
  intros Ho Hkids. apply StronglySorted_lookups. intros j1 j2 n1 n2 Hj H1 H2.
  assert (∀ j n, kids !! j = Some n → items (nodes x) !! (fc + j)%nat = Some n ∧ (j < length kss)%nat) as Hlook.
  { intros j n Hn. unfold slice in Hkids. case_bool_decide; [|done]. injection Hkids as <-.
    apply lookup_take_Some in Hn as [Hn Hlt]. rewrite lookup_drop in Hn. split; [done|lia]. }
  destruct (Hlook _ _ H1) as [Hn1 Hl1]. destruct (Hlook _ _ H2) as [Hn2 Hl2].
  pose proof (kid_order _ _ _ _ _ _ _ _ _ _ _ Ho (conj Hj Hl2) Hn1 Hn2) as Hlt.
  destruct (Z.compare_spec (first_byte n1) b), (Z.compare_spec (first_byte n2) b); simpl; lia.
Qed.

(** A rule that goes on below a node lies under the child of its byte. *)
Lemma below_child i p rs fc nd ts kss b :
  at_node i p rs → opened_at ar v i p rs fc [] nd ts kss → q !! length p = Some b →
  ∀ r, r ∈ recs → kf r `prefix_of` q → (length p < length (kf r))%nat →
    ∃ j ks n edge, kss !! j = Some ks ∧ r ∈ ks ∧ first_byte n = b ∧
      items (nodes x) !! (fc + j)%nat = Some n ∧ edge_of n (items (edges x)) = Some edge ∧
      labels !! (fc + j)%nat = Some (Some (p ++ edge, ks)) ∧ p ++ edge `prefix_of` q.
Proof.
  intros [Hlab Hp Hrest] Ho Hb r Hr Hpr Hlen. destruct (Hrest r Hr Hpr) as [?|Hin]; [lia|].
  rewrite (op_split _ _ _ _ _ _ _ _ _ _ Ho) app_nil_r in Hin. apply elem_of_app in Hin as [Hin|Hin].
  { pose proof (op_ends _ _ _ _ _ _ _ _ _ _ Ho) as Hts. rewrite Forall_forall in Hts. rewrite (Hts r Hin) in Hlen. lia. }
  apply list_elem_of_join in Hin as (ks & Hrk & [j Hj]%list_elem_of_lookup).
  destruct (child_byte p (fc + j) ks r b) as (n & edge & ? & ? & ? & ? & ?);
    [by apply (op_kids _ _ _ _ _ _ _ _ _ _ Ho)|done..|].
  by exists j, ks, n, edge.
Qed.

(** One step down the index keeps every rule that can still match. *)
Lemma descend_wp i p rs nd (Q : option (nat * nat) → unit → Prop) R :
  at_node i p rs → items (nodes x) !! i = Some nd → (length p < length q)%nat →
  (∀ o, match o with
        | None => ∀ r, r ∈ recs → kf r `prefix_of` q → (length (kf r) ≤ length p)%nat
        | Some (i', pos) => ∃ p' rs', at_node i' p' rs' ∧ pos = length p' ∧ (length p < length p')%nat ∧
            ∀ r, r ∈ recs → kf r `prefix_of` q → (length (kf r) ≤ length p)%nat ∨ (length p' ≤ length (kf r))%nat
        end → Q o tt) →
  wp (descend x q nd (length p)) Q R tt.
Proof.
  intros [Hlab Hp Hrest] Hnd Hlt HQ. destruct (cp_opened _ _ _ Hcomp _ _ _ Hlab) as (fc & j & nd' & ts & kss & Ho & _).
  pose proof (op_node _ _ _ _ _ _ _ _ _ _ Ho) as Hnd'. simpl in Hnd'. rewrite Hnd in Hnd'. injection Hnd' as <-.
  pose proof (op_count _ _ _ _ _ _ _ _ _ _ Ho) as Hcnt. simpl in Hcnt. rewrite Nat.add_0_r in Hcnt.
  pose proof (op_range _ _ _ _ _ _ _ _ _ _ Ho) as Hrange. simpl in Hrange. rewrite Nat.add_0_r in Hrange.
  pose proof (op_split _ _ _ _ _ _ _ _ _ _ Ho) as Hrs. rewrite app_nil_r in Hrs.
  unfold descend. rewrite (op_first _ _ _ _ _ _ _ _ _ _ Ho) Hcnt Nat2Z.id.
  destruct (slice (items (nodes x)) fc (fc + length kss)) as [kids|] eqn:Hkids.
  2: { unfold slice in Hkids. case_bool_decide; [done|lia]. }
  eapply wp_bind, wp_expect; [done|]. destruct (lookup_lt_is_Some_2 q (length p) Hlt) as [b Hb].
  eapply wp_bind, wp_expect; [exact Hb|].
  assert (∀ j, (j < length kss)%nat → kids !! j = items (nodes x) !! (fc + j)%nat) as Hlook.
  { intros j' Hj'. unfold slice in Hkids. case_bool_decide; [|done]. injection Hkids as <-.
    rewrite lookup_take_lt; [|lia]. by rewrite lookup_drop. }
  pose proof (below_child _ _ _ _ _ _ _ _ (Build_at_node _ _ _ Hlab Hp Hrest) Ho Hb) as Hbelow.
  pose proof (kids_sorted _ _ _ _ _ _ _ _ b Ho Hkids) as Hsorted.
  destruct (binary_search_by _ kids) as [j'|j'] eqn:Es.
  - apply search_found in Es as (n & Hn & Hcmp); [|done]. apply Z.compare_eq in Hcmp.
    assert (j' < length kss)%nat as Hj'.
    { apply lookup_lt_Some in Hn. unfold slice in Hkids. case_bool_decide; [|done]. injection Hkids as <-.
      rewrite length_take length_drop in Hn. lia. }
    rewrite Hlook // in Hn. eapply wp_bind, wp_expect; [exact Hn|].
    destruct (lookup_lt_is_Some_2 kss j' Hj') as [ks Hks].
    destruct (op_kids _ _ _ _ _ _ _ _ _ _ Ho _ _ Hks) as (n' & edge & Hn' & He & Hh & Hl & Hne).
    simpl in Hn', He, Hl. rewrite Hn in Hn'. injection Hn' as <-.
    eapply wp_bind, wp_expect; [exact He|].
    (* the only child with the byte *)
    assert (∀ j2 n2, items (nodes x) !! (fc + j2)%nat = Some n2 → first_byte n2 = b → (j2 < length kss)%nat → j2 = j') as Huniq.
    { intros j2 n2 Hn2 Hb2 Hlt2. destruct (lt_eq_lt_dec j2 j') as [[Hlt'|?]|Hlt']; [|done|].
      - pose proof (kid_order _ _ _ _ _ _ _ _ _ _ _ Ho (conj Hlt' Hj') Hn2 Hn). lia.
      - pose proof (kid_order _ _ _ _ _ _ _ _ _ _ _ Ho (conj Hlt' Hlt2) Hn Hn2). lia. }
    assert (∀ r, r ∈ recs → kf r `prefix_of` q → (length p < length (kf r))%nat → r ∈ ks ∧ p ++ edge `prefix_of` q) as Hin.
    { intros r Hr Hpr Hlen. destruct (Hbelow r Hr Hpr Hlen) as (j2 & k2 & n2 & e2 & Hk2 & Hr2 & Hb2 & Hm2 & He2 & _ & Hpe).
      assert (j2 = j') as -> by (apply (Huniq j2 n2); [done..|by eapply lookup_lt_Some]).
      rewrite Hks in Hk2. rewrite Hn in Hm2. injection Hk2 as <-. injection Hm2 as <-.
      unfold edge_of in He2. simpl in He2. unfold edge_of in He. rewrite He in He2. by injection He2 as <-. }
    case_bool_decide as Hpe.
    + apply wp_ret, HQ. exists (p ++ edge), ks.
      assert (p ++ edge `prefix_of` q) as Hpeq.
      { destruct Hp as [more Hmore]. rewrite Hmore. apply prefix_app. by rewrite Hmore drop_app_length in Hpe. }
      assert (0 < length edge)%nat as Hel by (destruct edge; simpl in *; [done|lia]).
      assert (∀ r, r ∈ ks → (length (p ++ edge) ≤ length (kf r))%nat) as Hks_len.
      { intros r Hr. destruct (cp_label _ _ _ Hcomp _ _ _ Hl) as (Hpre & _ & _).
        rewrite Forall_forall in Hpre. by apply prefix_length, Hpre. }
      rewrite length_app in Hks_len |- *. split_and!; [|done|lia|].
      * split; [done|done|]. intros r Hr Hpr. rewrite length_app. destruct (decide (length p < length (kf r))%nat) as [Hlen|?]; [|lia].
        right. by apply (Hin r Hr Hpr Hlen).
      * intros r Hr Hpr. destruct (decide (length p < length (kf r))%nat) as [Hlen|?]; [|lia].
        right. apply Hks_len, (Hin r Hr Hpr Hlen).
    + apply wp_ret, HQ. intros r Hr Hpr. destruct (decide (length p < length (kf r))%nat) as [Hlen|?]; [|lia].
      exfalso. apply Hpe. destruct (Hin r Hr Hpr Hlen) as [_ Hpq]. destruct Hp as [more Hmore].
      rewrite Hmore drop_app_length. rewrite Hmore in Hpq. by apply prefix_app_inv in Hpq.
  - apply wp_ret, HQ. intros r Hr Hpr. destruct (decide (length p < length (kf r))%nat) as [Hlen|?]; [|lia].
    destruct (Hbelow r Hr Hpr Hlen) as (j2 & k2 & n2 & e2 & Hk2 & _ & Hb2 & Hn2 & _).
    rewrite -Hlook in Hn2; [|by eapply lookup_lt_Some].
    eapply search_missing in Es; [|done|by eapply list_elem_of_lookup_2]. destruct Es. rewrite Hb2. apply Z.compare_refl.
Qed.

(** ** [lookup] *)
Notation rof := (rule_of ar).

(** The shortest block-suffix rule above the current node. *)
Definition blocked_above (d : nat) (o : option Match_) : Prop :=
  match o with
  | None => ∀ r, r ∈ recs → group r = BlockSuffix → kf r `prefix_of` q → ¬ (length (kf r) < d)%nat
  | Some m => ∃ r, r ∈ recs ∧ group r = BlockSuffix ∧ kf r `prefix_of` q ∧ (length (kf r) < d)%nat ∧ m = match_of (rof r) ∧
      ∀ r', r' ∈ recs → group r' = BlockSuffix → kf r' `prefix_of` q → (length (kf r) ≤ length (kf r'))%nat
  end.
Definition no_allow_above (d : nat) : Prop :=
  ∀ r, r ∈ recs → group r = AllowSuffix → kf r `prefix_of` q → ¬ (length (kf r) < d)%nat.

Lemma matches_prefix r : matches (rof r) q → kf r `prefix_of` q.
Proof. unfold matches; simpl. destruct (suffix_group (group r)); [done|]. by intros ->. Qed.
Lemma matches_suffix r : suffix_group (group r) = true → kf r `prefix_of` q → matches (rof r) q.
Proof. unfold matches; simpl. by intros ->. Qed.

Lemma blocked_here p rs i d o o' :
  at_node i p rs → blocked_above (length p) o →
  match o' with
  | None => ∀ r, r ∈ recs → kf r = p → group r ≠ BlockSuffix
  | Some m => ∃ r, r ∈ recs ∧ kf r = p ∧ group r = BlockSuffix ∧ m = match_of (rof r)
  end →
  (length p < d)%nat →
  (∀ r, r ∈ recs → kf r `prefix_of` q → (length (kf r) ≤ length p)%nat ∨ (d ≤ length (kf r))%nat) →
  blocked_above d (or_else o o').
Proof.
  intros Hat Ho Ho' Hd Hgap. destruct o as [m|]; simpl.
  - destruct Ho as (r & ? & ? & ? & ? & ? & ?). exists r. split_and!; try done. lia.
  - destruct o' as [m|]; simpl.
    + destruct Ho' as (r & Hr & Hk & Hg & ->). exists r. rewrite Hk. split_and!; try done; [apply Hat|].
      intros r' Hr' Hg' Hp'. specialize (Ho r' Hr' Hg' Hp'). lia.
    + intros r Hr Hg Hp Hlt. destruct (Hgap r Hr Hp) as [Hle|]; [|lia].
      specialize (Ho r Hr Hg Hp). apply (Ho' r Hr); [|done].
      apply prefix_length_eq; [|lia]. apply (prefix_shorter _ _ q); [done|apply Hat|lia].
Qed.

Lemma lookup_end d o :
  (∀ r, r ∈ recs → kf r `prefix_of` q → (length (kf r) < d)%nat) → (d ≤ length q)%nat →
  no_allow_above d → blocked_above d o → lookup_spec (rof <$> recs) q o.
Proof.
  intros Hall Hd Hna Ho.
  assert (∀ r, r ∈ recs → matches (rof r) q → group r = BlockSuffix) as Hbs.
  { intros r Hr Hm. pose proof (matches_prefix r Hm) as Hp. pose proof (Hall r Hr Hp) as Hlt.
    unfold matches in Hm; simpl in Hm. destruct (group r) eqn:Hg; simpl in Hm; try done.
    - by destruct (Hna r Hr Hg Hp).
    - rewrite Hm in Hlt. lia.
    - rewrite Hm in Hlt. lia. }
  destruct o as [m|]; simpl.
  - destruct Ho as (r & Hr & Hg & Hp & _ & -> & Hmin). exists (rof r). split_and!; try done.
    + by apply list_elem_of_fmap_2.
    + apply matches_suffix; [by rewrite Hg|done].
    + intros ? (r' & -> & Hr')%list_elem_of_fmap Hm. right. simpl. rewrite Hg (Hbs r' Hr' Hm). split; [done|].
      apply Hmin; [done|by apply Hbs|by apply matches_prefix].
  - intros ? (r & -> & Hr)%list_elem_of_fmap Hm. apply (Ho r Hr); [by apply Hbs|by apply matches_prefix|].
    apply Hall; [done|by apply matches_prefix].
Qed.

(** At the end of the query every group is decided. *)
Lemma lookup_at_end i p rs o suffix exact :
  at_node i p rs → p = q → no_allow_above (length p) → blocked_above (length p) o →
  (∀ r, r ∈ recs → kf r = p → group r ≠ AllowSuffix ∧ group r ≠ AllowExact) →
  match suffix with
  | None => ∀ r, r ∈ recs → kf r = p → group r ≠ BlockSuffix
  | Some m => ∃ r, r ∈ recs ∧ kf r = p ∧ group r = BlockSuffix ∧ m = match_of (rof r)
  end →
  match exact with
  | None => ∀ r, r ∈ recs → kf r = p → group r ≠ BlockExact
  | Some m => ∃ r, r ∈ recs ∧ kf r = p ∧ group r = BlockExact ∧ m = match_of (rof r)
  end →
  lookup_spec (rof <$> recs) q (or_else (or_else o suffix) exact).
Proof.
  intros Hat -> Hna Ho Hallow Hsuf Hex.
  assert (blocked_above (S (length q)) (or_else o suffix)) as Hb.
  { apply (blocked_here q rs i); try done; [lia|]. intros r _ Hp%prefix_length. lia. }
  assert (∀ r, r ∈ recs → matches (rof r) q → group r = BlockSuffix ∨ group r = BlockExact) as Hbl.
  { intros r Hr Hm. destruct (group r) eqn:Hg; auto; exfalso.
    - pose proof (matches_prefix r Hm) as Hp. destruct (decide (length (kf r) < length q)%nat) as [Hlt|Hge].
      + by apply (Hna r Hr Hg Hp).
      + destruct (Hallow r Hr) as [? _]; [|done]. pose proof (prefix_length _ _ Hp). apply prefix_length_eq; [done|lia].
    - unfold matches in Hm; simpl in Hm. rewrite Hg in Hm. simpl in Hm. by destruct (Hallow r Hr Hm). }
  destruct (or_else o suffix) as [m|]; simpl.
  - destruct Hb as (r & Hr & Hg & Hp & _ & -> & Hmin). exists (rof r). split_and!; try done.
    + by apply list_elem_of_fmap_2.
    + apply matches_suffix; [by rewrite Hg|done].
    + intros ? (r' & -> & Hr')%list_elem_of_fmap Hm. unfold before; simpl. rewrite Hg.
      destruct (Hbl r' Hr' Hm) as [Hg'|Hg']; rewrite Hg'; [right|left; simpl; lia]. split; [done|].
      apply Hmin; [done|done|by apply matches_prefix].
  - assert (∀ r, r ∈ recs → matches (rof r) q → group r = BlockExact ∧ kf r = q) as Hbe.
    { intros r Hr Hm. destruct (Hbl r Hr Hm) as [Hg|Hg].
      - pose proof (matches_prefix r Hm) as Hp. destruct (Hb r Hr Hg Hp). apply prefix_length in Hp. lia.
      - split; [done|]. unfold matches in Hm; simpl in Hm. by rewrite Hg in Hm. }
    destruct exact as [m|]; simpl.
    + destruct Hex as (r & Hr & Hk & Hg & ->). exists (rof r). split_and!; try done.
      * by apply list_elem_of_fmap_2.
      * unfold matches; simpl. by rewrite Hg.
      * intros ? (r' & -> & Hr')%list_elem_of_fmap Hm. right. simpl. destruct (Hbe r' Hr' Hm) as [-> ->]. by rewrite Hg Hk.
    + intros ? (r & -> & Hr)%list_elem_of_fmap Hm. destruct (Hbe r Hr Hm). by apply (Hex r Hr).
Qed.

Definition lookup_inv (st : nat * nat * option Match_) : Prop :=
  let '(i, pos, o) := st in
  ∃ p rs, at_node i p rs ∧ pos = length p ∧ no_allow_above pos ∧ blocked_above pos o.
Lemma lookup_inv_start : lookup_inv (O, O, None).
Proof.
  exists [], recs. split_and!; [|done|by intros ???? ?%Nat.nlt_0_r|by intros ???? ?%Nat.nlt_0_r].
  split; [apply Hcomp|apply prefix_nil|]. intros r Hr _. by right.
Qed.

Lemma found_allow_suffix i p rs r :
  at_node i p rs → no_allow_above (length p) → r ∈ recs → kf r = p → group r = AllowSuffix →
  lookup_spec (rof <$> recs) q (Some (match_of (rof r))).
Proof.
  intros Hat Hna Hr Hk Hg. exists (rof r). split_and!; [by apply list_elem_of_fmap_2| |done|].
  - apply matches_suffix; [by rewrite Hg|]. rewrite Hk. apply Hat.
  - intros ? (r' & -> & Hr')%list_elem_of_fmap Hm. pose proof (matches_prefix r' Hm) as Hp. unfold before; simpl.
    rewrite Hg. destruct (group r') eqn:Hg'; simpl; [right|left; lia..]. split; [done|].
    specialize (Hna r' Hr' Hg' Hp). rewrite Hk. lia.
Qed.
Lemma found_allow_exact i p rs r :
  at_node i p rs → no_allow_above (length p) → p = q →
  (∀ r, r ∈ recs → kf r = p → group r ≠ AllowSuffix) → r ∈ recs → kf r = p → group r = AllowExact →
  lookup_spec (rof <$> recs) q (Some (match_of (rof r))).
Proof.
  intros Hat Hna -> Hns Hr Hk Hg. exists (rof r). split_and!; [by apply list_elem_of_fmap_2| |done|].
  - unfold matches; simpl. by rewrite Hg.
  - intros ? (r' & -> & Hr')%list_elem_of_fmap Hm. pose proof (matches_prefix r' Hm) as Hp. unfold before; simpl.
    rewrite Hg. destruct (group r') eqn:Hg'; simpl; [exfalso|right|left; lia..].
    + pose proof (prefix_length _ _ Hp) as Hle. specialize (Hna r' Hr' Hg' Hp).
      apply (Hns r' Hr'); [|done]. apply prefix_length_eq; [done|lia].
    + unfold matches in Hm; simpl in Hm. rewrite Hg' in Hm. simpl in Hm. by rewrite Hm Hk.
Qed.

Lemma lookup_key_wp :
  wp (lookup_key x q) (λ o _, lookup_spec (rof <$> recs) q o) (λ _ _, False) tt.
Proof.
  unfold lookup_key. apply (wp_loop _ (λ st _, lookup_inv st ∧ (st.1.2 ≤ length q)%nat) (λ st, length q - st.1.2)%nat).
  - intros [[i pos] o] [] [(p & rs & Hat & -> & Hna & Hb) Hle]. simpl in Hle. unfold lookup_step.
    destruct (cp_opened _ _ _ Hcomp _ _ _ (an_label _ _ _ Hat)) as (fc & j & nd & ts & kss & Ho & _).
    pose proof (op_node _ _ _ _ _ _ _ _ _ _ Ho) as Hnd. simpl in Hnd. clear Ho.
    eapply wp_bind, wp_expect; [exact Hnd|]. apply wp_bind, (found_wp i p rs nd); [done|done|].
    intros [m|] Has; [apply wp_ret; destruct Has as (r & Hr & Hk & Hg & ->); by apply (found_allow_suffix i p rs)|].
    apply wp_bind, (found_wp i p rs nd); [done|done|]. intros suffix Hsuf. case_bool_decide as Hend.
    + assert (p = q) as Hpq by (apply prefix_length_eq; [apply Hat|done]).
      apply wp_bind, (found_wp i p rs nd); [done|done|].
      intros [m|] Hae; [apply wp_ret; destruct Hae as (r & Hr & Hk & Hg & ->); by apply (found_allow_exact i p rs)|].
      apply wp_bind, (found_wp i p rs nd); [done|done|]. intros exact Hex. apply wp_ret.
      apply (lookup_at_end i p rs); try done. intros r Hr Hk. split; [by apply Has|by apply Hae].
    + apply wp_bind, (descend_wp i p rs nd); [done|done|lia|].
      intros [[i' pos']|] Hd; apply wp_ret.
      * destruct Hd as (p' & rs' & Hat' & -> & Hlt & Hgap). pose proof (prefix_length _ _ (an_prefix _ _ _ Hat')).
        split; [split; [|done]|simpl; lia]. exists p', rs'. split_and!; [done|done| |].
        -- intros r Hr Hg Hp Hlt'. destruct (Hgap r Hr Hp) as [Hle'|]; [|lia].
           destruct (decide (length (kf r) < length p)%nat) as [?|Hge]; [by apply (Hna r)|].
           apply (Has r Hr); [|done]. apply prefix_length_eq; [|lia]. apply (prefix_shorter _ _ q); [done|apply Hat|lia].
        -- by apply (blocked_here p rs i).
      * apply (lookup_end (S (length p))); [|lia| |].
        -- intros r Hr Hp. specialize (Hd r Hr Hp). lia.
        -- intros r Hr Hg Hp Hlt'.
           destruct (decide (length (kf r) < length p)%nat) as [?|Hge]; [by apply (Hna r)|].
           apply (Has r Hr); [|done]. apply prefix_length_eq; [|lia]. apply (prefix_shorter _ _ q); [done|apply Hat|lia].
        -- apply (blocked_here p rs i); try done; [lia|]. intros r Hr Hp. specialize (Hd r Hr Hp). lia.
  - split; [apply lookup_inv_start|simpl; lia].
  - simpl. lia.
Qed.

(** ** [block_match] *)
Context (Hunique : ∀ r1 r2, r1 ∈ recs → r2 ∈ recs → group r1 = group r2 → kf r1 = kf r2 → r1 = r2).
Context (local : Z).
Notation rk r := (rank local (rof r)).

(** The best of a set of block rules. *)
Definition best_of (P : Record_ → Prop) (o : option Match_) : Prop :=
  match o with
  | None => ∀ r, r ∈ recs → ¬ P r
  | Some m => ∃ r, r ∈ recs ∧ P r ∧ m = match_of (rof r) ∧ ∀ r', r' ∈ recs → P r' → ble (rk r) (rk r')
  end.
Lemma match_rank_of r :
  allow_group (group r) = false → match_rank local (match_of (rof r)) = rk r.
Proof. unfold match_rank, rank; simpl. by destruct (group r). Qed.

Lemma best_of_consider (P P' : Record_ → Prop) o o' g :
  (∀ r, P r → allow_group (group r) = false) → allow_group g = false →
  best_of P o → best_of (λ r, P' r ∧ group r = g) o' →
  (∀ r1 r2, r1 ∈ recs → r2 ∈ recs → P' r1 → P' r2 → group r1 = g → group r2 = g → r1 = r2) →
  best_of (λ r, P r ∨ P' r ∧ group r = g) (consider local o o').
Proof.
  intros HP Hg Ho Ho' Huni. destruct o' as [m'|]; cbn [consider].
  - destruct Ho' as (r' & Hr' & HP' & -> & Hmin'). destruct o as [m|]; cbn [consider].
    + destruct Ho as (r & Hr & HPr & -> & Hmin). rewrite (match_rank_of r'); [|by rewrite (proj2 HP')]. rewrite (match_rank_of r); [|by apply HP].
      destruct (cmp_bytes (rk r') (rk r)) eqn:Ec.
      * exists r. split_and!; [done|by left|done|]. intros r2 Hr2 [?|?]; [by apply Hmin|].
        apply cmp_bytes_eq in Ec. rewrite -Ec. by apply Hmin'.
      * exists r'. split_and!; [done|by right|done|]. intros r2 Hr2 [?|?]; [|by apply Hmin'].
        apply (ble_trans _ (rk r)); [unfold ble; by rewrite Ec|by apply Hmin].
      * exists r. split_and!; [done|by left|done|]. intros r2 Hr2 [?|?]; [by apply Hmin|].
        apply (ble_trans _ (rk r')); [|by apply Hmin']. unfold ble. rewrite (cmp_flip total_cmp_bytes (rk r') (rk r)) Ec. done.
    + exists r'. split_and!; [done|by right|done|]. intros r2 Hr2 [?|?]; [by destruct (Ho r2 Hr2)|by apply Hmin'].
  - destruct o as [m|].
    + destruct Ho as (r & Hr & HPr & -> & Hmin). exists r. split_and!; [done|by left|done|].
      intros r2 Hr2 [?|?]; [by apply Hmin|by destruct (Ho' r2 Hr2)].
    + intros r Hr [?|?]; [by apply (Ho r)|by apply (Ho' r)].
Qed.
Lemma best_of_iff P P' o : (∀ r, r ∈ recs → P r ↔ P' r) → best_of P o → best_of P' o.
Proof.
  intros HP. destruct o as [m|]; simpl.
  - intros (r & Hr & HPr & -> & Hmin). exists r. split_and!; [done|by apply HP|done|].
    intros r' Hr' HP'. apply Hmin; [done|by apply HP].
  - intros Ho r Hr HPr. apply (Ho r Hr). by apply HP.
Qed.
Lemma best_of_found p g o :
  match o with
  | None => ∀ r, r ∈ recs → kf r = p → group r ≠ g
  | Some m => ∃ r, r ∈ recs ∧ kf r = p ∧ group r = g ∧ m = match_of (rof r)
  end → best_of (λ r, kf r = p ∧ group r = g) o.
Proof.
  destruct o as [m|]; simpl.
  - intros (r & Hr & Hk & Hg & ->). exists r. split_and!; [done..|]. intros r' Hr' [Hk' Hg'].
    rewrite (Hunique r r') //; [apply ble_refl|congruence|congruence].
  - intros Ho r Hr [Hk Hg]. by apply (Ho r Hr).
Qed.

(** Block-suffix rules on the path, down to depth [d]. *)
Definition suffix_to (d : nat) (r : Record_) : Prop :=
  group r = BlockSuffix ∧ kf r `prefix_of` q ∧ (length (kf r) < d)%nat.
Definition block_inv (st : nat * nat * option Match_) : Prop :=
  let '(i, pos, o) := st in
  ∃ p rs, at_node i p rs ∧ pos = length p ∧ no_allow_above pos ∧ best_of (suffix_to pos) o.

Lemma best_suffix i p rs d o o' :
  at_node i p rs → best_of (suffix_to (length p)) o → best_of (λ r, kf r = p ∧ group r = BlockSuffix) o' →
  (length p < d)%nat →
  (∀ r, r ∈ recs → kf r `prefix_of` q → (length (kf r) ≤ length p)%nat ∨ (d ≤ length (kf r))%nat) →
  best_of (suffix_to d) (consider local o o').
Proof.
  intros Hat Ho Ho' Hd Hgap.
  eapply best_of_iff; [|apply (best_of_consider (suffix_to (length p)) (λ r, kf r = p) o o' BlockSuffix)]; try done.
  - intros r Hr. unfold suffix_to. split.
    + intros [(? & ? & ?)|[<- ?]]; [split_and!; [done..|lia]|]. split_and!; [done|apply Hat|done].
    + intros (Hg & Hp & Hlt). destruct (Hgap r Hr Hp) as [Hle|]; [|lia].
      destruct (decide (length (kf r) < length p)%nat) as [?|Hge]; [by left|]. right. split; [|done].
      apply prefix_length_eq; [|lia]. apply (prefix_shorter _ _ q); [done|apply Hat|lia].
  - by intros r (-> & _).
  - intros r1 r2 H1 H2 Hk1 Hk2 Hg1 Hg2. apply Hunique; congruence.
Qed.

Lemma allowed_of r : r ∈ recs → allow_group (group r) = true → matches (rof r) q → allowed (rof <$> recs) q.
Proof. intros Hr Hg Hm. exists (rof r). split; [by apply list_elem_of_fmap_2|done]. Qed.

Lemma block_end (P : Record_ → Prop) o :
  ¬ allowed (rof <$> recs) q →
  (∀ r, r ∈ recs → P r ↔ allow_group (group r) = false ∧ matches (rof r) q) →
  best_of P o → block_spec local (rof <$> recs) q o.
Proof.
  intros Hna HP Ho. destruct o as [m|]; simpl.
  - destruct Ho as (r & Hr & HPr & -> & Hmin). exists (rof r). split; [|done].
    apply HP in HPr as [Hg Hm]; [|done]. split_and!; [done| |].
    + split_and!; [by apply list_elem_of_fmap_2|done|done].
    + intros ? ((r' & -> & Hr')%list_elem_of_fmap & Hg' & Hm'). apply Hmin; [done|]. by apply HP.
  - intros ? (_ & ((r & -> & Hr)%list_elem_of_fmap & Hg & Hm) & _). apply (Ho r Hr). by apply HP.
Qed.
Lemma block_allowed : allowed (rof <$> recs) q → block_spec local (rof <$> recs) q None.
Proof. intros Ha r (Hna & _). done. Qed.

(** No allow rule matches when none ended above and none can match here. *)
Lemma not_allowed d :
  no_allow_above d → (∀ r, r ∈ recs → group r = AllowSuffix → kf r `prefix_of` q → (length (kf r) < d)%nat) →
  (∀ r, r ∈ recs → kf r = q → group r ≠ AllowExact) → ¬ allowed (rof <$> recs) q.
Proof.
  intros Hna Hs He (? & (r & -> & Hr)%list_elem_of_fmap & Hg & Hm). simpl in Hg.
  pose proof (matches_prefix r Hm) as Hp. unfold matches in Hm; simpl in Hm.
  destruct (group r) eqn:Eg; try done.
  - by apply (Hna r Hr Eg Hp), Hs.
  - by apply (He r Hr).
Qed.
Lemma no_allow_next i p rs d :
  at_node i p rs → no_allow_above (length p) → (∀ r, r ∈ recs → kf r = p → group r ≠ AllowSuffix) →
  (∀ r, r ∈ recs → kf r `prefix_of` q → (length (kf r) ≤ length p)%nat ∨ (d ≤ length (kf r))%nat) →
  no_allow_above d.
Proof.
  intros Hat Hna Has Hgap r Hr Hg Hp Hlt. destruct (Hgap r Hr Hp) as [Hle|]; [|lia].
  destruct (decide (length (kf r) < length p)%nat) as [?|Hge]; [by apply (Hna r)|].
  apply (Has r Hr); [|done]. apply prefix_length_eq; [|lia]. apply (prefix_shorter _ _ q); [done|apply Hat|lia].
Qed.

Lemma block_match_key_wp :
  wp (block_match_key x q local) (λ o _, block_spec local (rof <$> recs) q o) (λ _ _, False) tt.
Proof.
  unfold block_match_key.
  apply (wp_loop _ (λ st _, block_inv st ∧ (st.1.2 ≤ length q)%nat) (λ st, length q - st.1.2)%nat).
  - intros [[i pos] o] [] [(p & rs & Hat & -> & Hna & Hb) Hle]. simpl in Hle. unfold block_step.
    destruct (cp_opened _ _ _ Hcomp _ _ _ (an_label _ _ _ Hat)) as (fc & j & nd & ts & kss & Ho & _).
    pose proof (op_node _ _ _ _ _ _ _ _ _ _ Ho) as Hnd. simpl in Hnd. clear Ho.
    eapply wp_bind, wp_expect; [exact Hnd|]. apply wp_bind, (found_wp i p rs nd); [done|done|].
    intros [m|] Has.
    { apply wp_ret, block_allowed. destruct Has as (r & Hr & Hk & Hg & _). apply (allowed_of r); [done|by rewrite Hg|].
      apply matches_suffix; [by rewrite Hg|rewrite Hk; apply Hat]. }
    apply wp_bind, (found_wp i p rs nd); [done|done|]. intros suffix Hsuf%best_of_found. case_bool_decide as Hend.
    + assert (p = q) as Hpq by (apply prefix_length_eq; [apply Hat|done]).
      apply wp_bind, (found_wp i p rs nd); [done|done|]. intros [m|] Hae.
      { apply wp_ret, block_allowed. destruct Hae as (r & Hr & Hk & Hg & _). apply (allowed_of r); [done|by rewrite Hg|].
        unfold matches; simpl. by rewrite Hg Hk. }
      apply wp_bind, (found_wp i p rs nd); [done|done|]. intros exact Hex%best_of_found. apply wp_ret.
      assert (∀ r, r ∈ recs → kf r `prefix_of` q → (length (kf r) ≤ length p)%nat ∨ (S (length q) ≤ length (kf r))%nat) as Hgap.
      { intros r _ Hp%prefix_length. rewrite Hpq. lia. }
      apply (block_end (λ r, suffix_to (S (length q)) r ∨ kf r = p ∧ group r = BlockExact)).
      * apply (not_allowed (S (length q))); [by apply (no_allow_next i p rs)| |].
        -- intros r _ _ Hp%prefix_length. lia.
        -- intros r Hr Hk. apply Hae; [done|congruence].
      * intros r Hr. unfold suffix_to, matches; simpl. rewrite Hpq.
        destruct (group r); simpl; try (split; [by intros [(?&_)|[_ ?]]|by intros [? _]]).
        2: { split; [intros [(?&_)|[? _]]; done|]. intros [_ Hk]. by right. }
        split; [intros [(_&?&_)|[_ ?]]; done|]. intros [_ Hp]. left. split_and!; [done..|]. apply prefix_length in Hp. lia.
      * apply (best_of_consider (suffix_to (S (length q))) (λ r, kf r = p)); try done.
        -- by intros r (-> & _).
        -- apply (best_suffix i p rs); try done. rewrite Hpq. lia.
        -- intros r1 r2 H1 H2 Hk1 Hk2 Hg1 Hg2. apply Hunique; congruence.
    + apply wp_bind, (descend_wp i p rs nd); [done|done|lia|].
      intros [[i' pos']|] Hd; apply wp_ret.
      * destruct Hd as (p' & rs' & Hat' & -> & Hlt & Hgap). pose proof (prefix_length _ _ (an_prefix _ _ _ Hat')).
        split; [split; [|done]|simpl; lia]. exists p', rs'. split_and!; [done|done|by apply (no_allow_next i p rs)|].
        by apply (best_suffix i p rs).
      * assert (∀ r, r ∈ recs → kf r `prefix_of` q → (length (kf r) ≤ length p)%nat ∨ (S (length p) ≤ length (kf r))%nat)
          as Hgap by (intros r Hr Hp; left; by apply Hd).
        apply (block_end (suffix_to (S (length p)))).
        -- apply (not_allowed (S (length p))); [by apply (no_allow_next i p rs)| |].
           ++ intros r Hr _ Hp. specialize (Hd r Hr Hp). lia.
           ++ intros r Hr Hk. specialize (Hd r Hr ltac:(by rewrite Hk)). rewrite Hk in Hd. lia.
        -- intros r Hr. unfold suffix_to, matches; simpl.
           destruct (group r); simpl; try (split; [by intros (?&_)|by intros [? _]]).
           ++ split; [by intros (_&?&_)|]. intros [_ Hp]. split_and!; [done..|]. specialize (Hd r Hr Hp). lia.
           ++ split; [by intros (?&_)|]. intros [_ Hk]. specialize (Hd r Hr ltac:(by rewrite Hk)). rewrite Hk in Hd. lia.
        -- apply (best_suffix i p rs); try done. lia.
  - split; [|simpl; lia]. exists [], recs. split_and!; [|done|by intros ???? ?%Nat.nlt_0_r|].
    + split; [apply Hcomp|apply prefix_nil|]. intros r Hr _. by right.
    + by intros r Hr (_ & _ & ?%Nat.nlt_0_r).
  - simpl. lia.
Qed.
End walk_proof.

(** ** The text of a matched rule *)
Lemma split_on_app_sep c a l : split_on c (a ++ c :: l) = split_on c a ++ split_on c l.
Proof.
  induction a as [|x a IH]; simpl; [by rewrite bool_decide_true|]. rewrite IH.
  case_bool_decide; [done|]. destruct (split_on c a) eqn:E; [by apply split_on_ne in E|]. done.
Qed.
Lemma split_on_none c l : c ∉ l → split_on c l = [l].
Proof.
  induction l as [|x l IH]; simpl; [done|]. rewrite not_elem_of_cons. intros [Hx Hl].
  rewrite bool_decide_false; [|congruence]. by rewrite IH.
Qed.
Lemma split_on_last c t : last t = Some c → last (split_on c t) = Some [].
Proof. intros [t' ->]%last_Some. by rewrite split_on_app_sep /= last_snoc. Qed.

Definition clean_label (l : list Z) : Prop := l ≠ [] ∧ DOT ∉ l ∧ Forall (λ b, 0 ≤ b ≤ 127) l.
Lemma rule_label_clean l : rule_label l → clean_label l.
Proof.
  intros [Hl Hb]. rewrite Forall_forall in Hb. split_and!.
  - by destruct l; simpl in *; [lia|].
  - intros Hin. by destruct (Hb _ Hin) as [? _].
  - apply Forall_forall. intros b Hin. destruct (Hb _ Hin) as [Hlb _]. revert Hlb.
    unfold label_byte, is_ascii_alphanumeric. repeat (case_bool_decide; simpl); try lia; done.
Qed.

Lemma push_rule_wp result ls :
  Forall clean_label ls →
  wp (push_rule result ls) (λ t _, split_on DOT t = match ls with
    | [] => split_on DOT result
    | _ => if bool_decide (result = []) then ls else split_on DOT result ++ ls
    end) (λ _ _, False) tt.
Proof.
  revert result. induction ls as [|l ls IH]; intros result Hls; simpl; [by apply wp_ret|].
  apply Forall_cons in Hls as [(Hne & Hdot & Hasc) Hls]. rewrite (utf8_ascii _ Hasc).
  assert (split_on DOT ((if bool_decide (result = []) then result else result ++ [DOT]) ++ l) =
    if bool_decide (result = []) then [l] else split_on DOT result ++ [l]) as Hsplit.
  { case_bool_decide as Hr; [subst; by apply split_on_none|].
    rewrite -app_assoc /= split_on_app_sep. by rewrite (split_on_none DOT l). }
  eapply wp_mono; [| |by apply IH]; [|done]. intros t [] Ht. rewrite Ht Hsplit.
  assert ((if bool_decide (result = []) then result else result ++ [DOT]) ++ l ≠ []) as Hnn.
  { by intros [_ ?]%app_nil. }
  destruct ls as [|l' ls]; [done|]. rewrite (bool_decide_false _ Hnn).
  case_bool_decide; [done|]. by rewrite -app_assoc.
Qed.

Lemma label_loop_wp ls :
  Forall rule_label ls → (wire_len ls ≤ 254)%nat →
  wp (loop (S (length (encode ls))) label_step ([], encode ls)) (λ r _, r = ls) (λ _ _, False) tt.
Proof.
  intros Hls Hlen. pose proof (wire_len_twice _ Hls) as Htw.
  apply (wp_loop _ (λ st _, ∃ done todo, ls = done ++ todo ∧ st = (done, encode todo)) (λ st, length st.2)).
  - intros ? [] (done & todo & -> & ->). simpl. destruct todo as [|l todo]; simpl; [apply wp_ret; by rewrite app_nil_r|].
    rewrite Nat2Z.id. eapply wp_bind, wp_expect.
    { unfold slice. rewrite bool_decide_true; [|rewrite length_app; lia]. by rewrite drop_0 Nat.sub_0_r take_app_length. }
    rewrite drop_app_length bool_decide_true; [|rewrite length_app /= in Htw; unfold RULE_LABELS; lia].
    apply wp_ret. split; [|simpl; rewrite length_app; lia]. exists (done ++ [l]), todo. by rewrite -app_assoc.
  - by exists [], ls.
  - simpl. lia.
Qed.

Lemma lower_rule_labels ls : Forall rule_label ls → lower <$> ls = ls.
Proof.
  induction 1 as [|l ls [_ Hl] _ IH]; [done|]. rewrite fmap_cons IH. f_equal. unfold lower. clear -Hl.
  induction Hl as [|b l [_ Hb] _ IH]; [done|]. by rewrite fmap_cons Hb IH.
Qed.
Lemma no_last_dot t ls : split_on DOT t = reverse ls → Forall rule_label ls → ls ≠ [] → last t ≠ Some DOT.
Proof.
  intros Hs Hls Hne Hl%split_on_last. rewrite Hs last_reverse in Hl. destruct ls as [|l ls]; [done|]. injection Hl as ->.
  apply Forall_inv in Hls as [Hl _]. simpl in Hl. lia.
Qed.
Lemma domain_of_labels t ls :
  split_on DOT t = reverse ls → ls ≠ [] → Forall rule_label ls → (wire_len ls ≤ 254)%nat →
  key_rule t = Ok (encode ls).
Proof.
  intros Hs Hne Hls Hlen. assert (strip_suffix_dot t = t) as Hstrip.
  { unfold strip_suffix_dot. case_bool_decide as Hl; [|done]. by destruct (no_last_dot t ls). }
  rewrite key_rule_ok. unfold domain_labels. rewrite Hstrip Hs reverse_involutive bool_decide_true.
  - by rewrite lower_rule_labels.
  - split.
    + pose proof (wire_len_split DOT t) as Hw. rewrite Hs (wire_len_perm _ ls) ?reverse_Permutation // in Hw. lia.
    + eapply Forall_impl; [exact Hls|]. intros l [Hl Hb]. split; [done|]. apply forallb_True.
      eapply Forall_impl; [exact Hb|]. intros b [? _]. done.
Qed.

Section rule_text.
Context `{!NameLib, !NameSpec _}.

Lemma rule_wp name r :
  wf_key (r_key r) → matches r (query_key name) →
  wp (rule name (match_of r)) (λ t _, key_rule t = Ok (r_key r) ∧ last t ≠ Some DOT) (λ _ _, False) tt.
Proof.
  intros (ls & He & Hne & Hls & Hlen) Hm.
  assert (r_key r `prefix_of` query_key name) as Hp.
  { unfold matches in Hm. destruct (suffix_group _); [done|by rewrite Hm]. }
  unfold rule. rewrite key_query_ok. apply wp_bind, wp_lift. simpl. rewrite Nat2Z.id.
  eapply wp_bind, wp_expect.
  { unfold slice. rewrite bool_decide_true; [|pose proof (prefix_length _ _ Hp); lia].
    rewrite drop_0 Nat.sub_0_r (prefix_take_eq _ _ Hp). reflexivity. }
  rewrite He in Hlen |- *. rewrite length_encode in Hlen. apply wp_bind.
  eapply wp_mono; [| |by apply label_loop_wp]; [|done]. intros labels [] ->.
  eapply wp_mono; [| |apply push_rule_wp]; [|done|].
  - intros t [] Ht. assert (split_on DOT t = reverse ls) as Hsp; [|split; [by apply domain_of_labels|by eapply no_last_dot]].
    rewrite Ht bool_decide_true //. destruct (reverse ls) eqn:Er; [|done]. apply (f_equal length) in Er. rewrite length_reverse in Er.
    by destruct ls.
  - apply Forall_reverse. eapply Forall_impl; [exact Hls|]. apply rule_label_clean.
Qed.
End rule_text.

(** ** Lookups in a built index *)
Lemma nodup_unique ar (rs : list Record_) r1 r2 :
  NoDup ((λ r, (group r, key_of ar r)) <$> rs) → r1 ∈ rs → r2 ∈ rs → group r1 = group r2 → key_of ar r1 = key_of ar r2 →
  r1 = r2.
Proof.
  intros Hnd [i Hi]%list_elem_of_lookup [j Hj]%list_elem_of_lookup Hg Hk.
  assert (i = j) as ->; [|congruence]. eapply NoDup_lookup; [exact Hnd|by rewrite list_lookup_fmap Hi|].
  rewrite list_lookup_fmap Hj /=. by rewrite Hg Hk.
Qed.

Section answers.
Context {H : Host} `{!HostSpec H} {SL : SliceLib} `{!SliceSpec SL} `{!NameLib, !NameSpec _}.

Lemma query_key_length name : (length (query_key name) ≤ 255)%nat.
Proof.
  unfold query_key. rewrite length_encode wire_len_lower (wire_len_perm _ (name_iter name)) ?reverse_Permutation //.
  pose proof (name_wire_len name). lia.
Qed.

Definition answers (rs : list Rule) (x : Index) : Prop :=
  ∀ name local,
    wp (lookup x name) (λ o _, lookup_spec rs (query_key name) o) (λ _ _, False) tt ∧
    wp (block_match x name local) (λ o _, block_spec local rs (query_key name) o) (λ _ _, False) tt.

Lemma lookup_spec_perm rs rs' q o : rs ≡ₚ rs' → lookup_spec rs q o → lookup_spec rs' q o.
Proof. intros Hp. unfold lookup_spec. destruct o; by setoid_rewrite Hp. Qed.
Lemma block_spec_perm local rs rs' q o : rs ≡ₚ rs' → block_spec local rs q o → block_spec local rs' q o.
Proof.
  intros Hp. unfold block_spec. destruct o; [|intros Ho r; rewrite -(chosen_perm _ _ _ _ _ Hp); apply Ho].
  intros (r & Hc & ->). exists r. by rewrite -(chosen_perm _ _ _ _ _ Hp).
Qed.

Lemma represents_answers x ar rs :
  represents x ar rs → NoDup ((λ r, (group r, key_of ar r)) <$> rs) → answers (rule_of ar <$> rs) x.
Proof.
  intros (recs & labels & Hp & Hcomp) Hnd name local.
  assert (rule_of ar <$> recs ≡ₚ rule_of ar <$> rs) as Hpr by (by rewrite Hp).
  split; [unfold lookup|unfold block_match]; rewrite key_query_ok; apply wp_bind, wp_lift.
  - eapply wp_mono; [| |by eapply lookup_key_wp, query_key_length]; [|done].
    intros o [] Ho. by apply (lookup_spec_perm _ _ _ _ Hpr).
  - eapply wp_mono; [| |eapply block_match_key_wp; [done|apply query_key_length|]]; [|done|].
    + intros o [] Ho. by apply (block_spec_perm _ _ _ _ _ Hpr).
    + intros r1 r2 H1 H2. rewrite Hp in H1, H2. by apply (nodup_unique ar rs).
Qed.

Lemma build_answers retained c s0 n :
  canonical_ok retained c → wp (build_with_check c) (λ x _, answers (c_rules c) x) (λ e _, build_error e) (s0, n).
Proof.
  intros Hc. eapply wp_mono; [| |by apply (build_wp retained)]; [|done].
  intros x s (Hx%built_represents & _). apply represents_answers; [done|apply Hc].
Qed.

(** The built index answers exactly as its rules: [lookup] returns the
    matching rule of the first group in allow-suffix, allow-exact,
    block-suffix, block-exact order and the shortest of it, or nothing when no
    rule matches; [block_match] returns the rule that chooses the answer, or
    nothing when the name is allowed or unmatched. The build and both walks
    end without a panic: no index or slice is out of range, no cast loses
    bits, and the frame stack never exceeds its 255 entries. *)
Theorem built_index_answers retained c s0 n :
  canonical_ok retained c → wp (build_with_check c) (λ x _, answers (c_rules c) x) (λ e _, build_error e) (s0, n).
Proof. apply build_answers. Qed.

(** C17. From rules to answers: the index compiled from a builder allows, blocks
    or passes a name as the added rules do, and the block rule it answers with
    has the answer class of the rule that ranks first among the added rules. *)
Theorem compiled_index_decides {SH : Sha256Lib} retained b n c s1 s0 n1 x s2 name :
  builder_ok retained b → classified (classes b) (rules b) →
  prepare_with_check b (tt, n) = (Ok c, s1) → build_with_check c (s0, n1) = (Ok x, s2) →
  wp (lookup x name) (λ o _, match o with
    | None => ¬ allowed (rules b) (query_key name) ∧ ∀ r, ¬ blocking (rules b) (query_key name) r
    | Some m => if allow_group (m_group m) then allowed (rules b) (query_key name)
        else ¬ allowed (rules b) (query_key name) ∧ ∃ r, blocking (rules b) (query_key name) r
    end) (λ _ _, False) tt ∧
  wp (block_match x name (local_slots b)) (λ o _, match o with
    | None => ∀ r, ¬ chosen (local_slots b) (rules b) (query_key name) r
    | Some m => ∃ r, chosen (local_slots b) (rules b) (query_key name) r ∧
        class_of (classes b) (m_slot m) = class_of (classes b) (r_slot r)
    end) (λ _ _, False) tt.
Proof.
  intros Hb Hcl Hprep Hbuild. set (q := query_key name).
  pose proof (prepare_wp retained b n Hb) as Hp. unfold wp in Hp. rewrite Hprep in Hp.
  destruct Hp as (Hc & _ & _ & _ & I & HI & Hred).
  pose proof (build_answers retained c s0 n1 Hc) as Hx. unfold wp in Hx. rewrite Hbuild in Hx.
  destruct (Hx name (local_slots b)) as [Hlook Hblock].
  assert (allowed (rules b) q ↔ allowed (c_rules c) q) as Hal by (by rewrite -(reduced_allowed Hred) (allowed_perm _ _ _ HI)).
  assert ((∃ r, blocking (rules b) q r) ↔ ∃ r, blocking (c_rules c) q r) as Hbl.
  { rewrite -(reduced_blocked Hred). by setoid_rewrite (blocking_perm _ _ _ _ HI). }
  split.
  - eapply wp_mono; [| |exact Hlook]; [|done]. intros [m|] [] Ho; simpl in Ho.
    + destruct Ho as (r & Hr & Hm & -> & Hmin). simpl. destruct (allow_group (r_group r)) eqn:Hg.
      { apply Hal. by exists r. }
      rewrite Hal Hbl. split; [|by exists r]. intros (r' & Hr' & Hg' & Hm'). specialize (Hmin r' Hr' Hm').
      unfold before in Hmin. destruct (r_group r), (r_group r'); simpl in *; try done; destruct Hmin as [?|[? _]]; done || lia.
    + rewrite Hal. split; [intros (r & Hr & _ & Hm); by apply (Ho r)|].
      intros r Hr. destruct (proj1 Hbl (ex_intro _ r Hr)) as (r' & Hr' & _ & Hm'). by apply (Ho r').
  - eapply wp_mono; [| |exact Hblock]; [|done]. intros [m|] [] Ho; simpl in Ho.
    + destruct Ho as (r & Hch & ->). simpl. destruct Hch as (Hna & Hbr & Hmin).
      destruct (proj2 Hbl (ex_intro _ r Hbr)) as [r0 Hr0].
      destruct (chosen_exists (local_slots b) (rules b) q r0) as [r1 Hr1]; [by rewrite Hal|done|].
      exists r1. split; [done|]. symmetry. apply (chosen_class Hred q); [by apply (classified_perm _ _ _ HI)|
        by apply (chosen_perm _ _ _ _ _ HI)|done].
    + intros r (Hna & Hbr & _). destruct (proj1 Hbl (ex_intro _ r Hbr)) as [r0 Hr0].
      destruct (chosen_exists (local_slots b) (c_rules c) q r0) as [r1 Hr1]; [by rewrite -Hal|done|]. by apply (Ho r1).
Qed.

(** [Index::rule] prints a matched rule so that it parses back to the
    matched key; the label array and the UTF-8 check never fail. *)
Theorem rule_text_roundtrip name r :
  wf_key (r_key r) → matches r (query_key name) →
  wp (rule name (match_of r)) (λ t _, key_rule t = Ok (r_key r)) (λ _ _, False) tt.
Proof. intros. eapply wp_mono; [| |by apply rule_wp]; [|done]. by intros t s [? _]. Qed.
End answers.

(** ** Witnesses *)
Module RadixWitness.
Import CanonicalWitness PrepareWitness.
#[local] Existing Instance names.
#[local] Existing Instance names_spec.
#[local] Existing Instance host.
#[local] Existing Instance host_spec.
#[local] Existing Instance ListSlice.lib.
#[local] Existing Instance ListSlice.spec.
#[local] Existing Instance sha.

Definition empty_build : Build := mkBuild vec_new vec_new (mkBudget 0 0 0).
(** The two rules of the builder [two], compiled. *)
Lemma built_index_answers_witness :
  ∃ c s1, prepare_with_check two.1 (tt, 0%nat) = (Ok c, s1) ∧
    wp (build_with_check c) (λ x _, answers (c_rules c) x) (λ e _, build_error e) (empty_build, 0%nat).
Proof.
  assert (is_ok (prepare_with_check two.1 (tt, 0%nat)).1 = true) as Hrun by by_compute.
  pose proof (prepare_wp 1024 two.1 0 (proj1 two_ok)) as Hp.
  destruct (prepare_with_check two.1 (tt, 0%nat)) as [[c| | |] s1] eqn:E; [|discriminate Hrun..].
  exists c, s1. split; [reflexivity|]. apply (built_index_answers 1024). apply (wp_result _ _ _ _ _ _ E Hp).
Defined.

Lemma compiled_index_decides_witness :
  ∃ c s1 x s2, prepare_with_check two.1 (tt, 0%nat) = (Ok c, s1) ∧
    build_with_check c (empty_build, 0%nat) = (Ok x, s2) ∧
  let q := query_key (true : Name) in
  wp (lookup x (true : Name)) (λ o _, match o with
    | None => ¬ allowed (rules two.1) q ∧ ∀ r, ¬ blocking (rules two.1) q r
    | Some m => if allow_group (m_group m) then allowed (rules two.1) q
        else ¬ allowed (rules two.1) q ∧ ∃ r, blocking (rules two.1) q r
    end) (λ _ _, False) tt ∧
  wp (block_match x (true : Name) (local_slots two.1)) (λ o _, match o with
    | None => ∀ r, ¬ chosen (local_slots two.1) (rules two.1) q r
    | Some m => ∃ r, chosen (local_slots two.1) (rules two.1) q r ∧
        class_of (classes two.1) (m_slot m) = class_of (classes two.1) (r_slot r)
    end) (λ _ _, False) tt.
Proof.
  assert (match prepare_with_check two.1 (tt, 0%nat) with
    | (Ok c, _) => is_ok (build_with_check c (empty_build, 0%nat)).1
    | _ => false
    end = true) as Hrun by by_compute.
  destruct (prepare_with_check two.1 (tt, 0%nat)) as [[c| | |] s1] eqn:Hprep; [|discriminate Hrun..].
  destruct (build_with_check c (empty_build, 0%nat)) as [[x| | |] s2] eqn:Hbuild; [|discriminate Hrun..].
  exists c, s1, x, s2. split; [reflexivity|]. split; [exact Hbuild|].
  apply (compiled_index_decides 1024 two.1 0 c s1 empty_build 0 x s2 (true : @Name names));
    [apply two_ok|apply two_ok|exact Hprep|exact Hbuild].
Defined.

Definition ab : Rule := {| r_group := BlockSuffix; r_key := [2; 97; 98]; r_slot := 0 |}.
Lemma ab_wf : wf_key (r_key ab).
Proof. apply (domain_wf text [[97; 98]]). by vm_compute. Qed.
Lemma rule_text_roundtrip_witness :
  wp (rule (true : Name) (match_of ab)) (λ t _, key_rule t = Ok (r_key ab)) (λ _ _, False) tt.
Proof. apply rule_text_roundtrip; [apply ab_wf|by_compute]. Defined.

(** [w.ab] is blocked by the suffix rule [.ab]. *)
Definition blocked_below : outcome Error (option Match_) :=
  match prepare_with_check two.1 (tt, 0%nat) with
  | (Ok c, _) => match build_with_check c (empty_build, 0%nat) with
                 | (Ok x, _) => (lookup x (true : Name) tt).1
                 | _ => Panic
                 end
  | _ => Panic
  end.
Example blocked_below_ok : blocked_below = Ok (Some (match_of ab)).
Proof. by_compute. Qed.
End RadixWitness.
