(* ===== verification/RadixDisk.v ===== *)
(** * The stored form of the radix index

    [src/policy/radix_disk.rs]: an index is written as portable bytes with a
    checksum, and read back only if its graph is canonical and its rules have
    the digest it was stored under. *)
From S2P Require Import Prelude Std Names Canonical Prepare Radix.
Set Default Goal Selector "!".
Set Warnings "-rewrite-rw".
Local Open Scope Z_scope.
Local Open Scope rust_scope.

Definition MAX_DEPTH : nat := 255.
Definition KEY_BUFFER : nat := 254.
(** Two [usize], two [u16], two bytes, aligned. *)
Definition WALK_FRAME_SIZE : Z := 24.
Definition SCRATCH_BYTES : Z := Z.of_nat MAX_DEPTH * WALK_FRAME_SIZE + Z.of_nat KEY_BUFFER.
Definition DERIVED_PREFIX : list Z := [80; 82; 78; 83; 82; 68; 88; 0; 0; 0; 0; 1; 0; 0; 0; 1].
Definition MAX_LOCAL_RESPONSES : nat := 1024.

Inductive DiskError : Type :=
  | InvalidIds | Truncated | Io | UnsupportedFormat | InputMismatch | RuleLimit_ | Dimensions | SourcesMismatch | SourceMismatch
  | ChecksumMismatch | TrailingBytes | InvalidRoot | KeyLength | EdgeLayout | EdgeBounds | OrderingByte | GraphAllocation | ChildBounds
  | ChildrenUnsorted | DeadPath | EmptyRule | LabelLength | LabelBounds | LabelEncoding | InvalidSlot | RedundantSuffix | RedundantExact
  | GraphDepth | UnreachableData | TerminalCount | SemanticMismatch | TooLong | FromCheck (e : Error) | FromBudget (e : Error).
#[export] Instance DiskError_eq_dec : EqDecision DiskError.
Proof. solve_decision. Defined.
Definition ensure {S} (b : bool) (e : DiskError) : M S DiskError unit := if b then ret tt else fail e.

(** ** Source identifiers *)
(** [iter().take_while(..)]. *)
Fixpoint take_while {A} (f : A → bool) (l : list A) : list A :=
  match l with x :: l => if f x then x :: take_while f l else [] | [] => [] end.
Definition id_byte (b : Z) : bool := bool_decide (97 ≤ b ≤ 122) || bool_decide (48 ≤ b ≤ 57) || bool_decide (b = 45).
Fixpoint distinct (l : list (list Z)) : bool :=
  match l with x :: l => bool_decide (x ∉ l) && distinct l | [] => true end.
Definition source_ids_valid (ids : list (list Z)) : bool :=
  let local := length (take_while (λ id, bool_decide (id = [])) ids) in
  let sources := drop local ids in
  bool_decide (1 ≤ local ≤ MAX_LOCAL_RESPONSES + 1)%nat && bool_decide (length sources ≤ 16)%nat &&
  forallb (λ id, bool_decide (1 ≤ length id ≤ 32)%nat && forallb id_byte id) sources && distinct sources.

(** ** The walk *)
Record WalkFrame : Type := mkWalkFrame {
  w_node : nat;
  prefix_len : nat;
  w_next_child : nat;
  (** The bits of [ancestor_suffixes]: an allow suffix, a block suffix. *)
  allow_above : bool;
  block_above : bool;
  (** Slot of the nearest ancestor block suffix, or [NONE]. *)
  block_suffix : Z;
  entered : bool;
}.
Definition new_walk_frame (i prefix : nat) (allow block : bool) (suffix : Z) : WalkFrame := mkWalkFrame i prefix 0 allow block suffix false.
Definition next_walk_child (f : WalkFrame) : WalkFrame :=
  mkWalkFrame (w_node f) (prefix_len f) (S (w_next_child f)) (allow_above f) (block_above f) (block_suffix f) (entered f).
Definition enter_walk_frame (f : WalkFrame) : WalkFrame :=
  mkWalkFrame (w_node f) (prefix_len f) (w_next_child f) (allow_above f) (block_above f) (block_suffix f) true.
(** [key[from..to].copy_from_slice(edge)]. *)
Definition copy_into (key : list Z) (from : nat) (edge : list Z) : list Z := take from key ++ edge ++ drop (from + length edge) key.
Definition key_char (b : Z) : bool := bool_decide (97 ≤ b ≤ 122) || bool_decide (48 ≤ b ≤ 57) || bool_decide (b = 45) || bool_decide (b = 95).
Fixpoint validate_labels {S} (fuel : nat) (key : list Z) : M S DiskError unit :=
  match fuel with
  | O => diverge
  | Datatypes.S fuel =>
      match key with
      | [] => ret tt
      | n :: rest =>
          ensure (bool_decide (1 ≤ n ≤ 63)) LabelLength;;;
          let* label := ok_or LabelBounds (slice rest 0 (Z.to_nat n)) in
          ensure (forallb key_char label) LabelEncoding;;;
          validate_labels fuel (drop (Z.to_nat n) rest)
      end
  end.
Definition validate_key {S} (key : list Z) : M S DiskError unit :=
  ensure (negb (bool_decide (key = []))) EmptyRule;;; validate_labels (Datatypes.S (length key)) key.
Fixpoint increasing (l : list Z) : bool :=
  match l with
  | x :: (y :: _) as rest => bool_decide (x < y) && increasing rest
  | _ => true
  end.
(** The rules at a node: their slots, and none that a rule above or beside it
    makes redundant. *)
Fixpoint check_sources {S} (group : nat) (l : list Z) (n : Node) (f : WalkFrame) (source_count : nat) : M S DiskError unit :=
  match l with
  | [] => ret tt
  | s :: l =>
      ensure (bool_decide (s = NONE) || bool_decide (s < Z.of_nat source_count)) InvalidSlot;;;
      (if bool_decide (s = NONE) then ret tt
       else if bool_decide (group < 2)%nat then
         ensure (negb (allow_above f)) RedundantSuffix;;;
         ensure (bool_decide (group = O) || bool_decide (sources n !! 0%nat = Some NONE)) RedundantExact
       else
         ensure (negb (bool_decide (block_suffix f = s))) RedundantSuffix;;;
         ensure (bool_decide (group = 2%nat) || negb (bool_decide (sources n !! 2%nat = Some s))) RedundantExact);;;
      check_sources (Datatypes.S group) l n f source_count
  end.

Section disk.
Context {H : Host} {SH : Sha256Lib}.

(** What the walk keeps outside the frames, and what its visitor gathers. *)
Record Walk (T : Type) : Type := mkWalk { w_key : list Z; next_allocation : nat; next_edge : nat; visited : nat; w_ticks : nat; gathered : T }.
Arguments mkWalk {T}. Arguments w_key {T}. Arguments next_allocation {T}. Arguments next_edge {T}.
Arguments visited {T}. Arguments w_ticks {T}. Arguments gathered {T}.
Section walk.
Context {T : Type} (x : Index) (source_count : nat) (visit : T → list Z → list Z → T).
Definition V (A : Type) : Type := M (Walk T) DiskError A.
Definition v_check : V unit := λ w,
  (match check_result (w_ticks w) with None => Ok tt | Some e => Err (FromCheck e) end,
   mkWalk (w_key w) (next_allocation w) (next_edge w) (visited w) (S (w_ticks w)) (gathered w)).
(** The edge of a node other than the root. *)
Definition take_edge (f : WalkFrame) (n : Node) : V unit :=
  let* w := get in
  ensure (negb (bool_decide (edge_len n = 0)) && bool_decide (Z.to_nat (edge_offset n) = next_edge w)) EdgeLayout;;;
  let edge_end := (next_edge w + Z.to_nat (edge_len n))%nat in
  let* edge := ok_or EdgeBounds (slice (items (edges x)) (next_edge w) edge_end) in
  let* b := expect (head edge) in
  ensure (bool_decide (b = first_byte n)) OrderingByte;;;
  put (mkWalk (copy_into (w_key w) (prefix_len f) edge) (next_allocation w) edge_end (visited w) (w_ticks w) (gathered w)).
Definition take_children (n : Node) : V unit :=
  let* w := get in
  ensure (bool_decide (Z.to_nat (first_child n) = next_allocation w) && bool_decide (child_count n ≤ 256)) GraphAllocation;;;
  let next := (next_allocation w + Z.to_nat (child_count n))%nat in
  let* children := ok_or ChildBounds (slice (items (nodes x)) (Z.to_nat (first_child n)) next) in
  ensure (increasing (first_byte <$> children)) ChildrenUnsorted;;;
  put (mkWalk (w_key w) next (next_edge w) (visited w) (w_ticks w) (gathered w)).
Definition terminal (n : Node) : bool := existsb (λ s, negb (bool_decide (s = NONE))) (sources n).
Definition enter (f : WalkFrame) (n : Node) (end_ : nat) : V unit :=
  let* w := get in
  (if bool_decide (visited w mod 4096 = 0)%nat then v_check else ret tt);;;
  let* w := get in
  put (mkWalk (w_key w) (next_allocation w) (next_edge w) (S (visited w)) (w_ticks w) (gathered w));;;
  ensure (bool_decide (end_ ≤ KEY_BUFFER)%nat) KeyLength;;;
  (if bool_decide (w_node f = O) then ret tt else take_edge f n);;;
  take_children n;;;
  ensure (bool_decide (w_node f = O) || terminal n || bool_decide (2 ≤ child_count n)) DeadPath;;;
  let* w := get in
  (if terminal n then validate_key (take end_ (w_key w)) else ret tt);;;
  check_sources 0 (sources n) n f source_count;;;
  let* w := get in
  put (mkWalk (w_key w) (next_allocation w) (next_edge w) (visited w) (w_ticks w) (visit (gathered w) (take end_ (w_key w)) (sources n))).
Definition child_frame (f : WalkFrame) (n : Node) (end_ : nat) : V WalkFrame :=
  let child := (Z.to_nat (first_child n) + w_next_child f)%nat in
  let* allow := expect (sources n !! 0%nat) in
  let* block := expect (sources n !! 2%nat) in
  ret (new_walk_frame child end_ (allow_above f || negb (bool_decide (allow = NONE)))
    (block_above f || negb (bool_decide (block = NONE))) (if bool_decide (block = NONE) then block_suffix f else block)).
Definition walk_step (frames : list WalkFrame) : V (list WalkFrame + unit) :=
  match frames with
  | [] => ret (inr tt)
  | f :: rest =>
      let* n := expect (items (nodes x) !! w_node f) in
      let end_ := (prefix_len f + Z.to_nat (edge_len n))%nat in
      (if entered f then ret tt else enter f n end_);;;
      let f := enter_walk_frame f in
      if bool_decide (Z.of_nat (w_next_child f) = child_count n) then ret (inl rest) else
      let* child := child_frame f n end_ in
      ensure (bool_decide (length frames < MAX_DEPTH)%nat) GraphDepth;;;
      ret (inl (child :: next_walk_child f :: rest))
  end.
(** Enough turns: one to pop each node, one to push it. *)
Definition walk_fuel : nat := (2 * length (items (nodes x)) + 2)%nat.
Definition walk_frames : V unit :=
  loop walk_fuel walk_step [new_walk_frame 0 0 false false NONE];;;
  let* w := get in
  ensure (bool_decide (visited w = length (items (nodes x))) && bool_decide (next_allocation w = length (items (nodes x))) &&
          bool_decide (next_edge w = length (items (edges x)))) UnreachableData.
Definition walk (a : T) : M nat DiskError T := λ ticks,
  match items (nodes x) !! 0%nat with
  | None => (Panic, ticks)
  | Some root =>
      if bool_decide (edge_offset root = 0) && bool_decide (edge_len root = 0) && bool_decide (first_byte root = 0) &&
         bool_decide (sources root = [NONE; NONE; NONE; NONE])
      then match walk_frames (mkWalk (replicate KEY_BUFFER 0) 1 0 0 ticks a) with
           | (Ok _, w) => (Ok (gathered w), w_ticks w)
           | (Err e, w) => (Err e, w_ticks w)
           | (Panic, w) => (Panic, w_ticks w)
           | (Diverge, w) => (Diverge, w_ticks w)
           end
      else (Err InvalidRoot, ticks)
  end.
End walk.

(** ** Writing *)
Definition PUBLICATION : list Z :=
  (* parins-policy-witness-v1\0 *)
  [112;97;114;105;110;115;45;112;111;108;105;99;121;45;119;105;116;110;101;115;115;45;118;49;0].
Fixpoint publication_bytes (source_ids : list (list Z)) (group : nat) (key l : list Z) : list Z :=
  match l with
  | [] => []
  | s :: l =>
      (if bool_decide (s = NONE) then []
       else let id := default [] (source_ids !! Z.to_nat s) in
            [as_u8 (Z.of_nat group)] ++ be_bytes 2 (Z.of_nat (length key)) ++ key ++ [as_u8 (Z.of_nat (length id))] ++ id) ++
      publication_bytes source_ids (S group) key l
  end.
Definition node_bytes (n : Node) : list Z :=
  be_bytes 4 (edge_offset n) ++ be_bytes 4 (first_child n) ++ be_bytes 2 (child_count n) ++ [edge_len n] ++ [first_byte n] ++
  mjoin (be_bytes 2 <$> sources n).
Definition u32_len (n : nat) : M (list Z) DiskError (list Z) :=
  if bool_decide (Z.of_nat n ≤ u32_max) then ret (be_bytes 4 (Z.of_nat n)) else fail TooLong.
Definition put_bytes (l : list Z) : M (list Z) DiskError unit := let* out := get in put (out ++ l).
Fixpoint put_lengths (l : list nat) : M (list Z) DiskError unit :=
  match l with [] => ret tt | n :: l => let* b := u32_len n in put_bytes b;;; put_lengths l end.
Fixpoint put_nodes (count : nat) (l : list Node) : M (list Z) DiskError unit :=
  match l with
  | [] => ret tt
  | n :: l =>
      ensure (forallb (λ s, bool_decide (s = NONE) || bool_decide (s < Z.of_nat count)) (sources n)) InvalidSlot;;;
      put_bytes (node_bytes n);;;
      put_nodes count l
  end.
(** The writer takes every byte: an I/O error ends the write, and what was
    written is not read. The state is the output. *)
Definition write_to (x : Index) (input_digest : list Z) (source_ids : list (list Z)) : M (list Z) DiskError unit :=
  ensure (source_ids_valid source_ids) InvalidIds;;;
  put_bytes DERIVED_PREFIX;;;
  put_bytes input_digest;;;
  put_bytes (x_digest x);;;
  put_lengths [length (items (nodes x)); length (items (edges x)); x_input_rules x; index_rules x];;;
  put_bytes (be_bytes 2 (as_u16 (Z.of_nat (length source_ids))));;;
  put_bytes (mjoin ((λ id, as_u8 (Z.of_nat (length id)) :: id) <$> source_ids));;;
  put_nodes (length source_ids) (items (nodes x));;;
  put_bytes (items (edges x));;;
  let* out := get in
  put_bytes (sha256 out).

(** ** Reading *)
(** The bytes still to come, those hashed so far, the budget and the number of
    host calls. *)
Record Disk : Type := mkDisk { rest : list Z; hashed : list Z; d_budget : Budget; d_ticks : nat }.
Definition D (A : Type) : Type := M Disk DiskError A.
Definition d_check : D unit := λ d,
  (match check_result (d_ticks d) with None => Ok tt | Some e => Err (FromCheck e) end, mkDisk (rest d) (hashed d) (d_budget d) (S (d_ticks d))).
Definition read_exact (n : nat) : D (list Z) :=
  let* d := get in
  if bool_decide (n ≤ length (rest d))%nat
  then put (mkDisk (drop n (rest d)) (hashed d) (d_budget d) (d_ticks d));;; ret (take n (rest d))
  else fail Truncated.
Definition get_bytes (n : nat) : D (list Z) :=
  let* l := read_exact n in
  let* d := get in
  put (mkDisk (rest d) (hashed d ++ l) (d_budget d) (d_ticks d));;;
  ret l.
Definition on_d_budget {A} (m : M (Budget * nat) Error A) : D A := λ d,
  let back t := mkDisk (rest d) (hashed d) t.1 t.2 in
  match m (d_budget d, d_ticks d) with
  | (Ok a, t) => (Ok a, back t)
  | (Err e, t) => (Err (FromBudget e), back t)
  | (Panic, t) => (Panic, back t)
  | (Diverge, t) => (Diverge, back t)
  end.
Definition on_d_walk {A} (m : M nat DiskError A) : D A := λ d,
  let '(r, t) := m (d_ticks d) in (r, mkDisk (rest d) (hashed d) (d_budget d) t).
Definition be_value (l : list Z) : Z := foldl (λ a b, 256 * a + b) 0 l.
Definition field (l : list Z) (from n : nat) : list Z := take n (drop from l).
Fixpoint read_ids (ids : list (list Z)) : D unit :=
  match ids with
  | [] => ret tt
  | id :: ids =>
      let* n := get_bytes 1 in
      ensure (bool_decide (n = [Z.of_nat (length id)])) SourceMismatch;;;
      let* bytes := get_bytes (length id) in
      ensure (bool_decide (bytes = id)) SourceMismatch;;;
      read_ids ids
  end.
Definition parse_node (b : list Z) : Node :=
  mkNode (be_value (field b 0 4)) (be_value (field b 4 4)) (be_value (field b 8 2)) (be_value (field b 10 1)) (be_value (field b 11 1))
    ((λ i, be_value (field b (12 + 2 * i) 2)) <$> seq 0 4).
Fixpoint read_nodes (i : nat) (count : nat) : D (list Node) :=
  match count with
  | O => ret []
  | S count =>
      (if bool_decide (i mod 4096 = 0)%nat then d_check else ret tt);;;
      let* bytes := get_bytes 20 in
      let* l := read_nodes (S i) count in
      ret (parse_node bytes :: l)
  end.
Fixpoint read_chunks (fuel n : nat) : D (list Z) :=
  match fuel with
  | O => ret []
  | S fuel =>
      if bool_decide (n = O) then ret [] else
      d_check;;;
      let* chunk := get_bytes (Nat.min 8192 n) in
      let* l := read_chunks fuel (n - Nat.min 8192 n) in
      ret (chunk ++ l)
  end.
Fixpoint count_sources (counts : list nat) (l : list Z) : list nat :=
  match counts, l with
  | c :: counts, s :: l => (if bool_decide (s = NONE) then c else S c) :: count_sources counts l
  | _, _ => counts
  end.
Definition group_visit (g : nat) (acc key l : list Z) : list Z :=
  if bool_decide (l !! g = Some NONE) then acc else acc ++ be_bytes 2 (Z.of_nat (length key)) ++ key.
Fixpoint semantic_bytes (x : Index) (source_count g : nat) (counts : list nat) : D (list Z) :=
  match counts with
  | [] => ret []
  | c :: counts =>
      let* keys := on_d_walk (walk x source_count (group_visit g) []) in
      let* l := semantic_bytes x source_count (S g) counts in
      ret ([as_u8 (Z.of_nat g)] ++ be_bytes 8 (Z.of_nat c) ++ keys ++ l)
  end.
(** The graph is canonical and its rules are those of the digest. *)
Definition validate_index (x : Index) (source_count : nat) : D unit :=
  let* counts := on_d_walk (walk x source_count (λ counts _ l, count_sources counts l) [0; 0; 0; 0]%nat) in
  ensure (bool_decide (sum_list counts = index_rules x)) TerminalCount;;;
  let* semantic := semantic_bytes x source_count 0 counts in
  ensure (bool_decide (sha256 (SEMANTICS ++ semantic) = x_digest x)) SemanticMismatch.
Section read.
(** The reader fails after its bytes instead of ending. *)
Context (broken : bool).
Definition limits_budget (l : Limits) : D unit := λ d,
  match new_builder l with
  | Ok b => (Ok tt, mkDisk (rest d) (hashed d) (budget b) (d_ticks d))
  | Err e => (Err (FromBudget e), d)
  | Panic => (Panic, d)
  | Diverge => (Diverge, d)
  end.
(** The header: digest, number of nodes and edge bytes, input and index rules. *)
Definition read_header (expected_input_digest : list Z) (source_count : nat) (limits : Limits) : D (list Z * nat * nat * nat * nat) :=
  let* header := get_bytes 98 in
  ensure (bool_decide (field header 0 16 = DERIVED_PREFIX)) UnsupportedFormat;;;
  ensure (bool_decide (field header 16 32 = expected_input_digest)) InputMismatch;;;
  let number offset := Z.to_nat (be_value (field header offset 4)) in
  let '(node_count, arena_len, input_rules, index_rules) := (number 80%nat, number 84%nat, number 88%nat, number 92%nat) in
  ensure (bool_decide (Z.of_nat input_rules ≤ max_rules limits) && bool_decide (index_rules ≤ input_rules)%nat) RuleLimit_;;;
  ensure (bool_decide (0 < node_count)%nat && bool_decide (node_count ≤ index_rules * 2 + 1)%nat && bool_decide (arena_len ≤ node_count * 254)%nat) Dimensions;;;
  ensure (bool_decide (be_value (field header 96 2) = Z.of_nat source_count)) SourcesMismatch;;;
  ret (field header 48 32, node_count, arena_len, input_rules, index_rules).
Definition read_end : D unit :=
  let* d := get in
  let digest := sha256 (hashed d) in
  let* trailer := read_exact 32 in
  ensure (bool_decide (digest = trailer)) ChecksumMismatch;;;
  let* d := get in
  match rest d with
  | [] => if broken then fail Io else ret tt
  | _ => fail TrailingBytes
  end.
Definition read_from_with_check (expected_input_digest : list Z) (expected_source_ids : list (list Z)) (limits : Limits) : D Index :=
  d_check;;;
  ensure (source_ids_valid expected_source_ids) InvalidIds;;;
  let* h := read_header expected_input_digest (length expected_source_ids) limits in
  let '(semantic, node_count, arena_len, input_rules, index_rules_) := h in
  read_ids expected_source_ids;;;
  limits_budget limits;;;
  on_d_budget (reserve SCRATCH_BYTES);;;
  let* nodes_ := on_d_budget (grow NODE_SIZE (@vec_new Node) (Z.of_nat node_count)) in
  let* arena_ := on_d_budget (grow 1 (@vec_new Z) (Z.of_nat arena_len)) in
  let* ns := read_nodes 0 node_count in
  let* es := read_chunks arena_len arena_len in
  read_end;;;
  let* d := get in
  let x := mkIndex {| items := ns; capacity := capacity nodes_ |} {| items := es; capacity := capacity arena_ |} semantic input_rules index_rules_
             (peak (d_budget d)) in
  validate_index x (length expected_source_ids);;;
  ret x.
End read.
End disk.
Arguments mkWalk {T}. Arguments w_key {T}. Arguments next_allocation {T}. Arguments next_edge {T}.
Arguments visited {T}. Arguments w_ticks {T}. Arguments gathered {T}.

(** ** The digest of a publication *)
(** The caller's check never fails here, and the walk of a built or validated
    index is expected to succeed. *)
Definition unchecked : Host := {| check_result _ := None; try_reserve_exact _ want := Some want |}.
Definition publication_digest {SH : Sha256Lib} (x : Index) (source_ids : list (list Z)) : M nat DiskError (list Z) := λ ticks,
  match walk (H := unchecked) x (length source_ids) (λ acc key l, acc ++ publication_bytes source_ids 0 key l) [] ticks with
  | (Ok bytes, ticks) => (Ok (sha256 (PUBLICATION ++ bytes)), ticks)
  | (Diverge, ticks) => (Diverge, ticks)
  | (_, ticks) => (Panic, ticks)
  end.

