(* ===== verification/RadixDiskWalk.v ===== *)
(** * What the walk of a stored index accepts

    A graph that [walk] of [src/policy/radix_disk.rs] accepts is a tree whose
    nodes are allocated in order, and the walk visits this tree; it ends on
    every graph, and no access is out of range. *)
From S2P Require Import Prelude Std Names Canonical Prepare Radix RadixBuild RadixLookup RadixDisk.
Set Default Goal Selector "!".
Set Warnings "-rewrite-rw".
Local Open Scope Z_scope.
Local Open Scope rust_scope.

Lemma wp_ensured {S} b e (Q : unit → S → Prop) (R : DiskError → S → Prop) s : (b = true → Q tt s) → (b = false → R e s) → wp (ensure b e) Q R s.
Proof. intros HQ HR. destruct b; [by apply wp_ret, HQ|by apply wp_fail, HR]. Qed.
Lemma wp_ok_or_some {S E A} (e : E) (o : option A) (Q : A → S → Prop) (R : E → S → Prop) s :
  (∀ a, o = Some a → Q a s) → (∀ e s, R e s) → wp (ok_or e o) Q R s.
Proof. intros. apply wp_ok_or; auto. Qed.
Lemma increasing_sorted l : increasing l = true → StronglySorted Z.lt l.
Proof.
  induction l as [|a l IH]; [constructor|]. destruct l as [|b l]; [by repeat constructor|].
  intros [Hab%bool_decide_eq_true Hl]%andb_prop. specialize (IH Hl). constructor; [done|]. constructor; [done|].
  apply StronglySorted_inv in IH as [_ Hb]. eapply Forall_impl; [exact Hb|]. simpl. lia.
Qed.

(** ** Trees *)
Inductive Tree : Type := Nod (i : nat) (k : list Z) (n : Node) (kids : list Tree).
Definition t_index (t : Tree) : nat := match t with Nod i _ _ _ => i end.
Definition t_key (t : Tree) : list Z := match t with Nod _ k _ _ => k end.
Definition t_node (t : Tree) : Node := match t with Nod _ _ n _ => n end.
Definition t_kids (t : Tree) : list Tree := match t with Nod _ _ _ kids => kids end.
(** What a walk visits, in order, and the trees below a tree. *)
Fixpoint out (t : Tree) : list (list Z * list Z) := match t with Nod _ k n kids => (k, sources n) :: mjoin (out <$> kids) end.
Fixpoint subtrees (t : Tree) : list Tree := match t with Nod i k n kids => t :: mjoin (subtrees <$> kids) end.

(** The labels of a validated key. *)
Lemma key_char_label b : key_char b = true → label_byte b = true ∧ to_ascii_lowercase b = b.
Proof.
  unfold key_char, label_byte, is_ascii_alphanumeric, to_ascii_lowercase. repeat case_bool_decide; simpl; try done; lia.
Qed.
Lemma validate_labels_wp {S} fuel : ∀ k (s : S), (length k < fuel)%nat →
  wp (validate_labels fuel k) (λ _ s', s' = s ∧ ∃ ls, k = encode ls ∧ Forall rule_label ls) (λ _ _, True) s.
Proof.
  induction fuel as [|fuel IH]; intros k s Hk; [lia|]. cbn [validate_labels]. destruct k as [|n rest].
  { apply wp_ret. split; [done|]. by exists []. }
  apply wp_bind, wp_ensured; [|done]. intros Hn%bool_decide_eq_true. apply wp_bind, wp_ok_or_some; [|done]. intros label Hl.
  apply wp_bind, wp_ensured; [|done]. intros Hc. unfold slice in Hl. case_bool_decide as Hlen; [|done]. rewrite Nat.sub_0_r drop_0 in Hl. injection Hl as <-.
  eapply wp_mono; [| |apply (IH (drop (Z.to_nat n) rest) s)]; [|done|rewrite length_drop; simpl in Hk; lia].
  intros [] s' [-> (ls & Hls & Hf)]. split; [done|]. exists (take (Z.to_nat n) rest :: ls). split.
  - simpl. rewrite length_take_le; [|lia]. rewrite -Hls Z2Nat.id; last lia. by rewrite take_drop.
  - constructor; [|done]. split; [rewrite length_take_le; lia|]. apply Forall_forall. intros b Hb.
    rewrite forallb_forall in Hc. destruct (key_char_label b) as [-> ->]; [|done]. apply Hc. by apply list_elem_of_In.
Qed.
Lemma validate_key_wp {S} k (s : S) : (length k ≤ KEY_BUFFER)%nat → wp (validate_key k) (λ _ s', s' = s ∧ wf_key k) (λ _ _, True) s.
Proof.
  intros Hk. apply wp_bind, wp_ensured; [|done]. intros Hne%negb_true_iff%bool_decide_eq_false.
  eapply wp_mono; [| |apply validate_labels_wp; lia]; [|done]. intros [] s' [-> (ls & -> & Hls)]. split; [done|].
  exists ls. split_and!; [done|by intros ->|done|exact Hk].
Qed.

(** What decoding gives for sure. *)
Record node_wf (n : Node) : Prop := {
  nw_first : 0 ≤ first_child n;
  nw_count : 0 ≤ child_count n;
  nw_edge : 0 ≤ edge_len n;
  nw_sources : length (sources n) = 4%nat;
  nw_slots : Forall (λ s, 0 ≤ s ≤ u16_max) (sources n);
}.

Section tree.
Context {H : Host}.
Context (x : Index) (source_count : nat).
Hypothesis Hwf : Forall node_wf (items (nodes x)).
Notation N := (length (items (nodes x))).
Definition live_node (n : Node) : Prop := terminal n = true ∨ 2 ≤ child_count n.
(** The rules of a node have a well-formed key and known slots. *)
Record node_fits (k : list Z) (n : Node) : Prop := {
  nf_length : (length k ≤ KEY_BUFFER)%nat;
  nf_key : terminal n = true → wf_key k;
  nf_slots : Forall (λ s, s = NONE ∨ s < Z.of_nat source_count) (sources n);
}.
Inductive tree_ok : nat → nat → Tree → Prop :=
  | Tree_ok a b i k n kids : items (nodes x) !! i = Some n → Z.to_nat (first_child n) = a → child_count n = Z.of_nat (length kids) →
      (a + length kids ≤ N)%nat → StronglySorted Z.lt ((λ t, first_byte (t_node t)) <$> kids) → node_fits k n →
      kids_ok k a (a + length kids) b kids → tree_ok a b (Nod i k n kids)
with kids_ok : list Z → nat → nat → nat → list Tree → Prop :=
  | Kids_nil k c a : kids_ok k c a a []
  | Kids_cons k c a m b t ts edge : t_index t = c → edge_of (t_node t) (items (edges x)) = Some edge → head edge = Some (first_byte (t_node t)) →
      t_key t = k ++ edge → live_node (t_node t) → tree_ok a m t → kids_ok k (S c) m b ts → kids_ok k c a b (t :: ts).
Scheme tree_ok_mut := Induction for tree_ok Sort Prop with kids_ok_mut := Induction for kids_ok Sort Prop.

Lemma kids_ok_app k c a m b ts t edge : kids_ok k c a m ts → t_index t = (c + length ts)%nat → edge_of (t_node t) (items (edges x)) = Some edge →
  head edge = Some (first_byte (t_node t)) → t_key t = k ++ edge → live_node (t_node t) → tree_ok m b t → kids_ok k c a b (ts ++ [t]).
Proof.
  intros Hk. revert b. induction Hk as [k c a|k c a m' m t' ts edge' Ht' He' Hh' Hk' Hl' Hok' Hts IH]; intros b Ht He Hh Hkey Hl Hok.
  - econstructor; [by rewrite Ht Nat.add_0_r|done..|constructor].
  - simpl. econstructor; [done..|]. apply IH; try done. rewrite Ht. simpl. lia.
Qed.

(** ** The walk as a traversal *)
Section traversal.
Context {T : Type} (visit : T → list Z → list Z → T).
Notation step := (walk_step x source_count visit).
Notation enters f n := (enter x source_count visit f n (prefix_len f + Z.to_nat (edge_len n))%nat).
Implicit Types (w : Walk T) (f : WalkFrame).

(** *** Entering a node *)
Record entered_as (f : WalkFrame) (n : Node) (edge : list Z) (w w1 : Walk T) : Prop := {
  ea_end : (prefix_len f + Z.to_nat (edge_len n) ≤ KEY_BUFFER)%nat;
  ea_edge : w_node f ≠ O → edge_of n (items (edges x)) = Some edge ∧ head edge = Some (first_byte n);
  ea_root : w_node f = O → edge = [];
  ea_key : take (prefix_len f + Z.to_nat (edge_len n)) (w_key w1) = take (prefix_len f) (w_key w) ++ edge;
  ea_buffer : length (w_key w1) = KEY_BUFFER;
  ea_first : Z.to_nat (first_child n) = next_allocation w;
  ea_next : next_allocation w1 = (next_allocation w + Z.to_nat (child_count n))%nat;
  ea_range : (next_allocation w1 ≤ N)%nat;
  ea_sorted : StronglySorted Z.lt (first_byte <$> take (Z.to_nat (child_count n)) (drop (next_allocation w) (items (nodes x))));
  ea_live : w_node f ≠ O → live_node n;
  ea_fits : node_fits (take (prefix_len f + Z.to_nat (edge_len n)) (w_key w1)) n;
  ea_visited : visited w1 = S (visited w);
  ea_gathered : gathered w1 = visit (gathered w) (take (prefix_len f + Z.to_nat (edge_len n)) (w_key w1)) (sources n);
}.
Lemma copy_into_take key from edge : length key = KEY_BUFFER → (from + length edge ≤ KEY_BUFFER)%nat →
  take (from + length edge) (copy_into key from edge) = take from key ++ edge ∧ length (copy_into key from edge) = KEY_BUFFER.
Proof.
  intros Hk Hle. unfold copy_into. split.
  - rewrite app_assoc take_app_le; [|rewrite length_app length_take_le; lia]. apply take_ge. rewrite length_app length_take_le; lia.
  - rewrite !length_app length_take_le; [|lia]. rewrite length_drop. lia.
Qed.
Lemma check_sources_wp {S} g l n f (s : S) :
  wp (check_sources g l n f source_count) (λ _ s', s' = s ∧ Forall (λ s, s = NONE ∨ s < Z.of_nat source_count) l) (λ _ _, True) s.
Proof.
  revert g. induction l as [|a l IH]; intros g; cbn [check_sources]; [by apply wp_ret|].
  apply wp_bind, wp_ensured; [|done]. intros Ha. apply wp_bind.
  assert (a = NONE ∨ a < Z.of_nat source_count) as Ha'.
  { apply orb_true_iff in Ha as [Ha%bool_decide_eq_true|Ha%bool_decide_eq_true]; [by left|by right]. }
  assert (wp (check_sources (Datatypes.S g) l n f source_count) (λ _ s', s' = s ∧ Forall (λ s, s = NONE ∨ s < Z.of_nat source_count) (a :: l)) (λ _ _, True) s) as Hrest.
  { eapply wp_mono; [| |apply IH]; [|done]. intros [] s' [-> ?]. split; [done|]. by constructor. }
  clear Ha. destruct (bool_decide (a = NONE)); [by apply wp_ret|].
  destruct (bool_decide (g < 2)%nat); apply wp_bind, wp_ensured; try done; intros _; apply wp_ensured; done.
Qed.
Lemma enter_wp f n w : length (w_key w) = KEY_BUFFER → (prefix_len f ≤ KEY_BUFFER)%nat → node_wf n → (w_node f = O → edge_len n = 0) →
  wp (enter x source_count visit f n (prefix_len f + Z.to_nat (edge_len n))%nat) (λ _ w1, ∃ edge, entered_as f n edge w w1) (λ _ _, True) w.
Proof.
  intros Hk Hp [Hnf Hnc Hne Hns Hnsl] Hroot. set (e := (prefix_len f + Z.to_nat (edge_len n))%nat). unfold enter.
  apply wp_bind, wp_get, wp_bind.
  eapply (wp_mono _ (λ _ w1, w_key w1 = w_key w ∧ next_allocation w1 = next_allocation w ∧ next_edge w1 = next_edge w ∧ visited w1 = visited w ∧ gathered w1 = gathered w) _ (λ _ _, True)); [|done|].
  2: { case_bool_decide; [|by apply wp_ret]. unfold wp, v_check. by destruct (check_result _). }
  intros [] w0 (Hk0 & Ha0 & He0 & Hv0 & Hg0). apply wp_bind, wp_get, wp_bind, wp_put, wp_bind, wp_ensured; [|done]. intros He%bool_decide_eq_true.
  apply wp_bind.
  eapply (wp_mono _ (λ _ w1, ∃ edge, (w_node f ≠ O → edge_of n (items (edges x)) = Some edge ∧ head edge = Some (first_byte n)) ∧ (w_node f = O → edge = []) ∧
    take e (w_key w1) = take (prefix_len f) (w_key w) ++ edge ∧ length (w_key w1) = KEY_BUFFER ∧
    next_allocation w1 = next_allocation w ∧ visited w1 = S (visited w) ∧ gathered w1 = gathered w) _ (λ _ _, True)); [|done|].
  2: { case_bool_decide as Hz.
    - apply wp_ret. exists []. rewrite app_nil_r /e (Hroot Hz) Nat.add_0_r /= Hk0 Hv0. split_and!; done.
    - apply wp_bind, wp_get, wp_bind, wp_ensured; [|done]. intros [Hz0%negb_true_iff%bool_decide_eq_false Ho%bool_decide_eq_true]%andb_prop. apply wp_bind, wp_ok_or_some; [|done]. intros edge Hs.
      simpl in Ho, Hs. pose proof Hs as Hs'. unfold slice in Hs'. case_bool_decide as Hb; [|done]. injection Hs' as Hed.
      assert (length edge = Z.to_nat (edge_len n)) as Hel by (rewrite -Hed length_take length_drop; lia).
      destruct (head edge) as [b|] eqn:Hh; [|destruct edge; [simpl in Hel; lia|done]].
      eapply wp_bind, wp_expect; [reflexivity|]. apply wp_bind, wp_ensured; [|done]. intros Hb1%bool_decide_eq_true. apply wp_put. exists edge. simpl.
      destruct (copy_into_take (w_key w0) (prefix_len f) edge) as [Ht Hlk]; [by rewrite Hk0|rewrite Hel; exact He|].
      rewrite Hel -/e in Ht. rewrite Ht Hk0. split_and!; [|by intros|done|by rewrite -Hk0|done|by rewrite Hv0|done].
      intros _. split; [|by rewrite Hh Hb1]. unfold edge_of. by rewrite Ho. }
  intros [] w2 (edge & Hed & Hrt & Hkey & Hlk & Ha2 & Hv2 & Hg2). clear w0 Hk0 Ha0 He0 Hv0 Hg0. apply wp_bind. unfold take_children.
  apply wp_bind, wp_get, wp_bind, wp_ensured; [|done]. intros [Hf1%bool_decide_eq_true Hc1%bool_decide_eq_true]%andb_prop.
  apply wp_bind, wp_ok_or_some; [|done]. intros children Hch. rewrite Hf1 in Hch. unfold slice in Hch.
  destruct (bool_decide_reflect (next_allocation w2 ≤ next_allocation w2 + Z.to_nat (child_count n) ≤ length (items (nodes x)))%nat) as [Hr|]; [|done].
  injection Hch as Hch. apply wp_bind, wp_ensured; [|done]. intros Hinc%increasing_sorted. apply wp_put, wp_bind, wp_ensured; [|done]. intros Hlive.
  apply wp_bind, wp_get, wp_bind. simpl.
  eapply (wp_mono _ (λ _ w3, w3 = mkWalk (w_key w2) (next_allocation w2 + Z.to_nat (child_count n)) (next_edge w2) (visited w2) (w_ticks w2) (gathered w2) ∧
    (terminal n = true → wf_key (take e (w_key w2)))) _ (λ _ _, True)); [|done|].
  2: { destruct (terminal n); [|by apply wp_ret]. eapply wp_mono; [| |apply validate_key_wp; rewrite length_take; lia]; [|done]. by intros [] s' [-> ?]. }
  intros [] w3 [-> Hwk]. apply wp_bind. eapply wp_mono; [| |apply check_sources_wp]; [|done]. intros [] w3 [-> Hsl].
  apply wp_bind, wp_get, wp_put. exists edge. rewrite Ha2 in Hf1, Hr, Hch. split; simpl; rewrite -/e ?Ha2; try done; try lia.
  - rewrite -Hch in Hinc. rewrite Nat.add_sub_swap // Nat.sub_diag in Hinc. exact Hinc.
  - intros Hz. rewrite bool_decide_false // in Hlive. apply orb_true_iff in Hlive as [?|Hc2%bool_decide_eq_true]; [by left|by right].
  - split; [rewrite length_take; lia|done|done].
  - by rewrite Hg2.
Qed.
(** *** The children of a node *)
Definition visits (g : T) (l : list (list Z * list Z)) : T := foldl (λ g v, visit g v.1 v.2) g l.
Notation end_of f n := (prefix_len f + Z.to_nat (edge_len n))%nat.
(** An entered frame, with [pend] children waiting in the frames below it. *)
Record frame_at (f : WalkFrame) (n : Node) (pend : nat) (w : Walk T) : Prop := {
  fa_node : items (nodes x) !! w_node f = Some n;
  fa_entered : entered f = true;
  fa_end : (end_of f n ≤ KEY_BUFFER)%nat;
  fa_buffer : length (w_key w) = KEY_BUFFER;
  fa_next : Z.of_nat (w_next_child f) ≤ child_count n;
  fa_first : (1 ≤ Z.to_nat (first_child n))%nat;
  fa_kids : (Z.to_nat (first_child n) + Z.to_nat (child_count n) ≤ next_allocation w)%nat;
  fa_range : (next_allocation w ≤ N)%nat;
  fa_pending : (visited w + (Z.to_nat (child_count n) - w_next_child f) + pend = next_allocation w)%nat;
}.
Record kids_walked (f : WalkFrame) (n : Node) (pend : nat) (w w2 : Walk T) (ts : list Tree) : Prop := {
  kw_kids : kids_ok (take (end_of f n) (w_key w)) (Z.to_nat (first_child n) + w_next_child f) (next_allocation w) (next_allocation w2) ts;
  kw_length : length ts = (Z.to_nat (child_count n) - w_next_child f)%nat;
  kw_key : take (end_of f n) (w_key w2) = take (end_of f n) (w_key w);
  kw_buffer : length (w_key w2) = KEY_BUFFER;
  kw_alloc : (next_allocation w ≤ next_allocation w2 ≤ N)%nat;
  kw_pending : (visited w2 + pend = next_allocation w2)%nat;
  kw_visited : (visited w ≤ visited w2)%nat;
  kw_gathered : gathered w2 = visits (gathered w) (mjoin (out <$> ts));
}.
Lemma kids_ok_nodes k c a b ts : kids_ok k c a b ts → t_node <$> ts = take (length ts) (drop c (items (nodes x))).
Proof.
  induction 1 as [|k c a m b t ts edge Ht _ _ _ _ Hok _ IH]; [done|]. destruct Hok as [a b' i k' n kids Hn]. simpl in *. subst i.
  rewrite (drop_S _ _ _ Hn) /=. by f_equal.
Qed.
Lemma loop_enter fuel f rest n w Q R : (0 < fuel)%nat → items (nodes x) !! w_node f = Some n → entered f = false →
  wp (enters f n) (λ _ w1, wp (loop fuel step (enter_walk_frame f :: rest)) Q R w1) R w → wp (loop fuel step (f :: rest)) Q R w.
Proof.
  intros Hf Hn He. destruct fuel as [|fuel]; [lia|]. intros Hw.
  assert (step (f :: rest) w = bind (enters f n) (λ _, step (enter_walk_frame f :: rest)) w) as Hs.
  { unfold walk_step. cbn [enter_walk_frame w_node entered prefix_len w_next_child]. rewrite Hn He. unfold expect, bind, ret. by destruct (enters f n w) as [[] ?]. }
  cbn [loop] in *. unfold wp, bind at 1. unfold wp in Hw. unfold bind at 1 in Hs. rewrite Hs. destruct (enters f n w) as [[[]| | |] w1]; done.
Qed.
Lemma take_take_le {A} (l : list A) a b : (a ≤ b)%nat → take a (take b l) = take a l.
Proof. intros ?. by rewrite take_take Nat.min_l. Qed.
Lemma take_prefix {A} (l l' : list A) a b : (a ≤ b)%nat → take b l' = take b l → take a l' = take a l.
Proof. intros Hab Ht. rewrite -(take_take_le l' a b) // -(take_take_le l a b) //. by rewrite Ht. Qed.
Lemma entered_key f n edge w w1 : entered_as f n edge w w1 → (prefix_len f ≤ KEY_BUFFER)%nat → length (w_key w) = KEY_BUFFER →
  take (prefix_len f) (w_key w1) = take (prefix_len f) (w_key w).
Proof.
  intros Hea Hp Hl. rewrite -(take_take_le (w_key w1) _ (end_of f n)); [|lia]. rewrite (ea_key _ _ _ _ _ Hea). apply take_app_length'.
  rewrite length_take_le; lia.
Qed.
Lemma child_tree f n edge pend w w1 w2 ts : entered_as f n edge w w1 → kids_walked (enter_walk_frame f) n pend w1 w2 ts → w_next_child f = O →
  items (nodes x) !! w_node f = Some n → 0 ≤ child_count n →
  tree_ok (next_allocation w) (next_allocation w2) (Nod (w_node f) (take (end_of f n) (w_key w1)) n ts).
Proof.
  intros [_ _ _ _ _ Hfirst Hnext Hrange Hsorted _ Hfits _ _] [Hts Hlen _ _ _ _ _ _] Hzero Hn Hc. simpl in Hts, Hlen.
  rewrite Hzero Nat.add_0_r Hfirst in Hts. rewrite Hzero Nat.sub_0_r in Hlen. pose proof (kids_ok_nodes _ _ _ _ _ Hts) as Hk. rewrite Hlen in Hk.
  econstructor; [done|done|lia|lia| |done|by rewrite Hlen -Hnext].
  rewrite -Hk -list_fmap_compose in Hsorted. exact Hsorted.
Qed.
Lemma fuel_split fuel v v1 v2 v3 : v1 = S v → (v1 ≤ v2)%nat → (v2 ≤ v3)%nat →
  (S fuel - 2 * (v3 - v) - 1 = fuel - 2 * (v2 - v1) - 1 - 2 * (v3 - v2) - 1)%nat.
Proof. intros -> ??. lia. Qed.
Lemma frame_walked m : ∀ fuel f rest n pend w Q R, (N - visited w < m)%nat → frame_at f n pend w →
  (2 * (N - visited w) + S (length rest) < fuel)%nat → (∀ e w, R e w) →
  (∀ ts w2, kids_walked f n pend w w2 ts → wp (loop (fuel - 2 * (visited w2 - visited w) - 1) step rest) Q R w2) →
  wp (loop fuel step (f :: rest)) Q R w.
Proof.
  induction m as [|m IH]; [lia|]. intros fuel f rest n pend w Q R Hm [Hn He Hend Hbuf Hnext Hfirst Hkids Hrange Hpend] Hfuel HR Hk.
  destruct fuel as [|fuel]; [lia|]. cbn [loop]. apply wp_bind. unfold walk_step. eapply wp_bind, wp_expect; [exact Hn|]. cbv zeta.
  rewrite He. apply wp_bind, wp_ret. simpl w_next_child. case_bool_decide as Hlast.
  { apply wp_ret. specialize (Hk [] w). rewrite Nat.sub_diag Nat.mul_0_r Nat.sub_0_r /= Nat.sub_0_r in Hk. apply Hk.
    split; simpl; try done; try lia. constructor. }
  apply Forall_lookup_1 with (i := w_node f) (x := n) in Hwf as Hnw; [|done]. destruct Hnw as [_ Hcount _ Hsrc _].
  unfold child_frame. destruct (lookup_lt_is_Some_2 (sources n) 0) as [s0 Hs0]; [lia|]. destruct (lookup_lt_is_Some_2 (sources n) 2) as [s2 Hs2]; [lia|].
  apply wp_bind. eapply wp_bind, wp_expect; [exact Hs0|]. eapply wp_bind, wp_expect; [exact Hs2|]. apply wp_ret, wp_bind, wp_ensured; [|by intros]. intros _.
  apply wp_ret. match goal with |- context [loop _ _ (?c' :: _)] => set (c := c') end.
  destruct (lookup_lt_is_Some_2 (items (nodes x)) (w_node c)) as [nc Hnc]; [simpl; lia|].
  apply Forall_lookup_1 with (i := w_node c) (x := nc) in Hwf as Hncw; [|done].
  apply (loop_enter _ _ _ nc); [lia|done..|]. eapply wp_mono; [| |apply enter_wp; simpl; [done..|lia]]; [|by intros].
  intros [] w1 [edge Hea]. pose proof Hea as [Hcend Hcedge _ Hckey Hcbuf Hcfirst Hcnext Hcrange Hcsorted Hclive Hcfits Hcvis Hcgath].
  simpl in Hcedge, Hclive, Hckey.
  set (f' := next_walk_child (enter_walk_frame f)). pose proof (nw_count _ Hncw) as Hcc.
  apply (IH fuel _ _ nc (Z.to_nat (child_count n) - S (w_next_child f) + pend)%nat w1); [lia| |simpl; lia|done|].
  { split; simpl; try done; try lia. }
  intros ts w2 Hkw. pose proof Hkw as [Hts Htlen Htkey Htbuf Htalloc Htpend Htvis Htgath]. simpl in Hts, Htlen, Htkey.
  assert (take (end_of f n) (w_key w1) = take (end_of f n) (w_key w)) as Hk1 by (by apply (entered_key c nc edge)).
  assert (take (end_of f n) (w_key w2) = take (end_of f n) (w_key w)) as Hk2 by (rewrite -Hk1; by apply (take_prefix _ _ _ (end_of f n + Z.to_nat (edge_len nc))); [lia|]).
  apply (IH _ f' rest n pend w2); [lia| |lia|done|].
  { split; simpl; try done; try lia. }
  intros ts' w3 [Hus Hulen Hukey Hubuf Hualloc Hupend Huvis Hugath]. simpl in Hus, Hulen, Hukey.
  specialize (Hk (Nod (w_node c) (take (end_of c nc) (w_key w1)) nc ts :: ts') w3).
  rewrite (fuel_split _ _ (visited w1) (visited w2)) in Hk; [|done..]. apply Hk. split; simpl; try done; try lia.
  - destruct Hcedge as [Hce Hch]; [lia|]. apply (Kids_cons _ _ _ (next_allocation w2) _ _ _ edge); simpl; try done.
    + apply Hclive. lia.
    + by eapply (child_tree c nc edge).
    + by rewrite Hk2 Nat.add_succ_r in Hus.
  - by rewrite Hukey.
  - by rewrite Hugath Htgath Hcgath /visits foldl_app.
Qed.

(** *** The whole index *)
Definition root_sources : list Z := [NONE; NONE; NONE; NONE].
Record root_tree (t : Tree) : Prop := {
  rt_index : t_index t = O;
  rt_key : t_key t = [];
  rt_sources : sources (t_node t) = root_sources;
  rt_tree : tree_ok 1 N t;
}.
Lemma walk_frames_wp root a ticks : items (nodes x) !! 0%nat = Some root → edge_len root = 0 → sources root = root_sources →
  wp (walk_frames x source_count visit) (λ _ w, ∃ t, root_tree t ∧ gathered w = visits a (out t)) (λ _ _, True) (mkWalk (replicate KEY_BUFFER 0) 1 0 0 ticks a).
Proof.
  intros Hroot Hlen Hsrc. apply Forall_lookup_1 with (i := O) (x := root) in Hwf as Hrw; [|done]. pose proof (nw_count _ Hrw) as Hcount.
  set (f := new_walk_frame 0 0 false false NONE). set (w := mkWalk (replicate KEY_BUFFER 0) 1 0 0 ticks a). unfold walk_frames, walk_fuel. apply wp_bind.
  apply (loop_enter _ f _ root); [lia|done..|]. eapply wp_mono; [| |apply enter_wp; simpl; [done|lia|done|done]]; [|by intros].
  intros [] w1 [edge Hea]. pose proof Hea as [_ _ Hnoedge Hkey Hbuf Hfirst Hnext Hrange _ _ _ Hvis Hgath]. simpl in Hfirst, Hnext, Hvis. rewrite (Hnoedge eq_refl) in Hea.
  apply (frame_walked (S N) _ _ _ root 0 w1); [lia| |simpl; lia|done|].
  { split; simpl; try done; try lia. }
  intros ts w2 Hkw. pose proof Hkw as [_ _ _ _ Halloc Hpend Hvisit Hgath2].
  replace (2 * N + 2 - 2 * (visited w2 - visited w1) - 1)%nat with (S (2 * N - 2 * (visited w2 - visited w1))) by lia.
  cbn [loop]. apply wp_bind, wp_ret, wp_ret, wp_bind, wp_get, wp_ensured; [|done].
  intros [[_ Hn%bool_decide_eq_true]%andb_prop _]%andb_prop. rewrite Hlen in Hgath, Hea. simpl in Hgath, Hkw.
  eexists. split; [split; [..|rewrite -Hn; by eapply (child_tree f root [] 0 w w1 w2)]|]; simpl; [done|by rewrite Hlen|done|].
  rewrite Hgath2 Hgath /= Hlen. done.
Qed.
Lemma walk_wp a ticks : (0 < N)%nat → wp (walk x source_count visit a) (λ g _, ∃ t, root_tree t ∧ g = visits a (out t)) (λ _ _, True) ticks.
Proof.
  intros HN. destruct (lookup_lt_is_Some_2 (items (nodes x)) 0 HN) as [root Hroot]. unfold wp, walk. rewrite Hroot.
  destruct (_ && _ && _ && _) eqn:Hr; [|done]. apply andb_prop in Hr as [[[_ Hl%bool_decide_eq_true]%andb_prop _]%andb_prop Hs%bool_decide_eq_true].
  pose proof (walk_frames_wp root a ticks Hroot Hl Hs) as Hw. unfold wp in Hw. destruct (walk_frames _ _ _ _) as [[[]| | |] w']; done.
Qed.
End traversal.
End tree.
