(* ===== verification/RadixDiskSafe.v ===== *)
(** * A stored index that is accepted answers as its rules do

    The tree found by the walk of [src/policy/radix_disk.rs] represents the
    rules at its nodes, so the lookups of an index that is read back are those
    of these rules, and these are the rules of the digest. *)
From S2P Require Import Prelude Std Names Canonical Prepare Radix RadixBuild RadixLookup RadixDisk RadixDiskWalk.
Set Default Goal Selector "!".
Set Warnings "-rewrite-rw".
Local Open Scope Z_scope.
Local Open Scope rust_scope.

(** ** The rules at a node *)
Definition groups : list Group := [AllowSuffix; AllowExact; BlockSuffix; BlockExact].
Definition node_rules (v : list Z * list Z) : list Rule :=
  omap (λ g, match v.2 !! group_index g with
             | Some s => if bool_decide (s = NONE) then None else Some {| r_group := g; r_key := v.1; r_slot := s |}
             | None => None
             end) groups.
Definition visited_rules (l : list (list Z * list Z)) : list Rule := mjoin (node_rules <$> l).

(** ** Trees *)
Section trees.
Context {H : Host}.
Context (x : Index) (source_count : nat).
Notation N := (length (items (nodes x))).
Notation tree_ok := (tree_ok x source_count).
Notation kids_ok := (kids_ok x source_count).
Notation node_fits := (node_fits source_count).
Implicit Types (t : Tree) (ts : list Tree).

Lemma Tree_ind' (P : Tree → Prop) : (∀ i k n kids, Forall P kids → P (Nod i k n kids)) → ∀ t, P t.
Proof.
  intros HP. fix IH 1. intros [i k n kids]. apply HP. induction kids as [|t kids IHk]; constructor; [apply IH|done].
Qed.
Lemma tree_node a b t : tree_ok a b t → items (nodes x) !! t_index t = Some (t_node t).
Proof. by intros []. Qed.
(** The index and the key of a tree determine it. *)
Lemma tree_unique : ∀ a b t, tree_ok a b t → ∀ b' t', tree_ok a b' t' → t_index t = t_index t' → t_key t = t_key t' → t = t' ∧ b = b'.
Proof.
  apply (tree_ok_mut x source_count (λ a b t _, ∀ b' t', tree_ok a b' t' → t_index t = t_index t' → t_key t = t_key t' → t = t' ∧ b = b')
    (λ k c a b ts _, ∀ b' ts', kids_ok k c a b' ts' → length ts = length ts' → ts = ts' ∧ b = b')).
  - intros a b i k n kids Hn Hf Hc _ _ _ _ IH b' t' Ht' Hi Hk. destruct Ht' as [a b' i' k' n' kids' Hn' Hf' Hc' _ _ _ Hkids]. simpl in Hi, Hk. subst.
    assert (n' = n) as -> by congruence. assert (length kids = length kids') as Hl by lia. rewrite -Hl in Hkids. by destruct (IH _ _ Hkids Hl) as [-> ->].
  - intros k c a b' ts' Hk Hl. destruct ts'; [|done]. by inversion Hk.
  - intros k c a m b t ts edge Hi He _ Hkey _ Hok IH _ IHs b' ts' Hk Hl. destruct ts' as [|t' ts']; [done|].
    inversion Hk as [|? ? ? m' ? ? ? edge' Hi' He' _ Hkey' _ Ht' Hts']. subst.
    assert (t_node t = t_node t') as Hn.
    { pose proof (tree_node _ _ _ Ht') as Hn'. rewrite Hi' (tree_node _ _ _ Hok) in Hn'. by injection Hn'. }
    rewrite Hn He' in He. injection He as ->. rewrite -Hkey' in Hkey. destruct (IH _ _ Ht' (eq_sym Hi') Hkey) as [-> ->].
    simpl in Hl. injection Hl as Hl. by destruct (IHs _ _ Hts' Hl) as [-> ->].
Qed.

(** ** Where the nodes are *)
Lemma tree_indices : ∀ a b t, tree_ok a b t → (a ≤ b)%nat ∧ t_index <$> mjoin (subtrees <$> t_kids t) ≡ₚ seq a (b - a).
Proof.
  apply (tree_ok_mut x source_count (λ a b t _, (a ≤ b)%nat ∧ t_index <$> mjoin (subtrees <$> t_kids t) ≡ₚ seq a (b - a))
    (λ k c a b ts _, (a ≤ b)%nat ∧ t_index <$> mjoin (subtrees <$> ts) ≡ₚ seq c (length ts) ++ seq a (b - a))).
  - intros a b i k n kids _ _ _ _ _ _ _ [Hab IH]. simpl. split; [lia|]. rewrite IH -seq_app. by replace (length kids + (b - (a + length kids)))%nat with (b - a)%nat by lia.
  - intros k c a. split; [done|]. by rewrite Nat.sub_diag.
  - intros k c a m b t ts edge Hi _ _ _ _ _ [Ham IH] _ [Hmb IHs]. split; [lia|]. destruct t as [i k' n kids]. simpl in Hi. subst i.
    change (mjoin (subtrees <$> _ :: ts)) with ((Nod c k' n kids :: mjoin (subtrees <$> kids)) ++ mjoin (subtrees <$> ts)).
    simpl in IH. rewrite fmap_app fmap_cons IH IHs /=. apply perm_skip. replace (b - a)%nat with ((m - a) + (b - m))%nat by lia. rewrite seq_app.
    replace (a + (m - a))%nat with m by lia. by rewrite !app_assoc (Permutation_app_comm (seq a _)).
Qed.
Lemma tree_below : ∀ a b t, tree_ok a b t → ∀ t', t' ∈ subtrees t → ∃ a' b', tree_ok a' b' t'.
Proof.
  apply (tree_ok_mut x source_count (λ a b t _, ∀ t', t' ∈ subtrees t → ∃ a' b', tree_ok a' b' t')
    (λ k c a b ts _, ∀ t', t' ∈ mjoin (subtrees <$> ts) → ∃ a' b', tree_ok a' b' t')).
  - intros a b i k n kids Hn Hf Hc Hr Hs Hfit Hk IH t' [->|Ht]%elem_of_cons; [exists a, b; by econstructor|by apply IH].
  - by intros ??? t' ?%elem_of_nil.
  - intros k c a m b t ts edge _ _ _ _ _ _ IH _ IHs t' [Ht|Ht]%elem_of_app; [by apply IH|by apply IHs].
Qed.
Lemma kids_lookup k c a b ts j t : kids_ok k c a b ts → ts !! j = Some t → ∃ edge a' b', t_index t = (c + j)%nat ∧
  edge_of (t_node t) (items (edges x)) = Some edge ∧ head edge = Some (first_byte (t_node t)) ∧ t_key t = k ++ edge ∧ live_node (t_node t) ∧ tree_ok a' b' t.
Proof.
  intros Hk. revert j. induction Hk as [|k c a m b t' ts edge Hi He Hh Hkey Hl Hok _ IH]; intros j Hj; [by rewrite lookup_nil in Hj|].
  destruct j as [|j].
  - injection Hj as <-. exists edge, a, m. rewrite Nat.add_0_r. by split_and!.
  - destruct (IH j Hj) as (edge' & a' & b' & Hi' & Hrest). exists edge', a', b'. split; [lia|done].
Qed.

(** ** Their keys are in order *)
Definition blt (a b : list Z) : Prop := ble a b ∧ a ≠ b.
Lemma blt_diverge (k a b : list Z) y z : y < z → k ++ [y] `prefix_of` a → k ++ [z] `prefix_of` b → blt a b.
Proof.
  intros Hyz [u ->] [v ->]. rewrite -!app_assoc. split; [rewrite ble_app_inv /= ble_cons; by left|].
  intros [= Heq _]%app_inv_head. lia.
Qed.
Lemma blt_longer (k a : list Z) y : k ++ [y] `prefix_of` a → blt k a.
Proof.
  intros [u ->]. rewrite -app_assoc. split; [|].
  - rewrite -{1}(app_nil_r k) ble_app_inv. done.
  - rewrite -{1}(app_nil_r k). by intros ?%app_inv_head.
Qed.
Lemma below_kids k c a b ts t' : kids_ok k c a b ts → (∀ t, t ∈ ts → ∀ t', t' ∈ subtrees t → t_key t `prefix_of` t_key t') →
  t' ∈ mjoin (subtrees <$> ts) → ∃ t, t ∈ ts ∧ k ++ [first_byte (t_node t)] `prefix_of` t_key t'.
Proof.
  intros Hk Hp (l & Hl & [t [-> Ht]]%list_elem_of_fmap)%list_elem_of_join. exists t. split; [done|].
  pose proof Ht as [j Hj]%list_elem_of_lookup. destruct (kids_lookup _ _ _ _ _ _ _ Hk Hj) as (edge & _ & _ & _ & _ & Hh & Hkey & _).
  etrans; [|by apply (Hp t)]. rewrite Hkey. apply prefix_app. destruct edge as [|y edge]; [done|]. injection Hh as ->. by exists edge.
Qed.
Lemma tree_prefix : ∀ a b t, tree_ok a b t → ∀ t', t' ∈ subtrees t → t_key t `prefix_of` t_key t'.
Proof.
  apply (tree_ok_mut x source_count (λ a b t _, ∀ t', t' ∈ subtrees t → t_key t `prefix_of` t_key t')
    (λ k c a b ts _, ∀ t, t ∈ ts → ∀ t', t' ∈ subtrees t → t_key t `prefix_of` t_key t')).
  - intros a b i k n kids _ _ _ _ _ _ Hk IH t' [->|Ht]%elem_of_cons; [done|]. destruct (below_kids _ _ _ _ _ _ Hk IH Ht) as (t & _ & Hp).
    simpl. etrans; [|exact Hp]. by apply prefix_app_r.
  - by intros ??? t ?%elem_of_nil.
  - intros k c a m b t ts edge _ _ _ _ _ _ IH _ IHs t' [->|Ht]%elem_of_cons; [done|]. by apply IHs.
Qed.
Lemma kids_below k c a b ts t' : kids_ok k c a b ts → t' ∈ mjoin (subtrees <$> ts) → ∃ t, t ∈ ts ∧ k ++ [first_byte (t_node t)] `prefix_of` t_key t'.
Proof.
  intros Hk. apply (below_kids _ _ _ _ _ _ Hk). intros t [j Hj]%list_elem_of_lookup.
  destruct (kids_lookup _ _ _ _ _ _ _ Hk Hj) as (_ & a' & b' & _ & _ & _ & _ & _ & Ht). by apply (tree_prefix a' b').
Qed.
Lemma tree_sorted : ∀ a b t, tree_ok a b t → StronglySorted blt (t_key <$> subtrees t).
Proof.
  apply (tree_ok_mut x source_count (λ a b t _, StronglySorted blt (t_key <$> subtrees t))
    (λ k c a b ts _, StronglySorted Z.lt ((λ t, first_byte (t_node t)) <$> ts) → StronglySorted blt (t_key <$> mjoin (subtrees <$> ts)))).
  - intros a b i k n kids _ _ _ _ Hs _ Hk IH. simpl. constructor; [by apply IH|]. apply Forall_fmap, Forall_forall. intros t' Ht.
    destruct (kids_below _ _ _ _ _ _ Hk Ht) as (t & _ & Hp). by eapply blt_longer.
  - constructor.
  - intros k c a m b t ts edge Hi He Hh Hkey Hl Hok IH Hk IHs Hs. rewrite mjoin_cons. simpl in Hs. apply StronglySorted_inv in Hs as [Hs Ht].
    rewrite fmap_app. apply StronglySorted_app_2; [|done|by apply IHs].
    intros y z [t1 [-> Ht1]]%list_elem_of_fmap [t2 [-> Ht2]]%list_elem_of_fmap. destruct (kids_below _ _ _ _ _ _ Hk Ht2) as (t0 & Ht0 & Hp2).
    rewrite Forall_fmap Forall_forall in Ht. apply (blt_diverge k _ _ (first_byte (t_node t)) (first_byte (t_node t0))); [by apply Ht| |done].
    etrans; [|by apply (tree_prefix _ _ _ Hok)]. rewrite Hkey. apply prefix_app. destruct edge as [|e edge]; [done|]. injection Hh as ->. by exists edge.
Qed.

(** ** Their rules *)
Definition node_recs (i : nat) (k : list Z) (n : Node) : list Record_ :=
  omap (λ g, match sources n !! group_index g with
             | Some s => if bool_decide (s = NONE) then None
                         else Some (mkRecord (mkEntry (Z.of_nat (KEY_BUFFER * i)) (Z.of_nat (length k)) s) g)
             | None => None
             end) groups.
Fixpoint tree_recs (t : Tree) : list Record_ := match t with Nod i k n kids => node_recs i k n ++ mjoin (tree_recs <$> kids) end.
Lemma node_recs_in i k n r : r ∈ node_recs i k n ↔ sources n !! group_index (group r) = Some (source_slot (entry r)) ∧ source_slot (entry r) ≠ NONE ∧
  offset (entry r) = Z.of_nat (KEY_BUFFER * i) ∧ len (entry r) = Z.of_nat (length k).
Proof.
  unfold node_recs. rewrite list_elem_of_omap. split.
  - intros (g & _ & Hg). destruct (sources n !! group_index g) as [s|] eqn:Hs; [|done]. case_bool_decide; [done|]. by injection Hg as <-.
  - intros (Hs & Hn & Ho & Hl). exists (group r). split; [destruct (group r); set_solver|]. rewrite Hs bool_decide_false //.
    destruct r as [[o l s] g]. simpl in *. by subst.
Qed.
Lemma tree_recs_subtrees t : tree_recs t = mjoin ((λ t, node_recs (t_index t) (t_key t) (t_node t)) <$> subtrees t).
Proof.
  induction t as [i k n kids IH] using Tree_ind'. simpl. f_equal. induction IH as [|t kids Ht _ IH]; [done|].
  rewrite fmap_cons mjoin_cons IH Ht -mjoin_app -fmap_app. done.
Qed.
(** Every key of the tree is in the arena. *)
Definition placed (ar : list Z) (t : Tree) : Prop :=
  ∀ t' s, t' ∈ subtrees t → key ar (mkEntry (Z.of_nat (KEY_BUFFER * t_index t')) (Z.of_nat (length (t_key t'))) s) = Some (t_key t').
Lemma placed_key ar t t' r : placed ar t → t' ∈ subtrees t → r ∈ node_recs (t_index t') (t_key t') (t_node t') → key_of ar r = t_key t'.
Proof.
  intros Hp Ht (_ & _ & Ho & Hl)%node_recs_in. unfold key_of. specialize (Hp t' (source_slot (entry r)) Ht).
  destruct r as [[o l s] g]. simpl in *. subst. by rewrite Hp.
Qed.
Lemma node_rules_recs ar t t' : placed ar t → t' ∈ subtrees t → rule_of ar <$> node_recs (t_index t') (t_key t') (t_node t') = node_rules (t_key t', sources (t_node t')).
Proof.
  intros Hp Ht. assert (∀ r, r ∈ node_recs (t_index t') (t_key t') (t_node t') → key_of ar r = t_key t') as Hk by (intros r; by apply (placed_key ar t)).
  unfold node_rules, node_recs in *. simpl fst. simpl snd. induction groups as [|g gs IH]; [done|].
  cbn [omap list_omap] in *. destruct (sources (t_node t') !! group_index g) as [s|]; [|by apply IH]. case_bool_decide; [by apply IH|].
  rewrite fmap_cons. f_equal; [|apply IH; intros r Hr; apply Hk; by right]. unfold rule_of. rewrite Hk; [done|left].
Qed.
Lemma out_subtrees t : out t = (λ t, (t_key t, sources (t_node t))) <$> subtrees t.
Proof.
  induction t as [i k n kids IH] using Tree_ind'. cbn [out subtrees]. rewrite fmap_cons. f_equal. induction IH as [|t kids Ht _ IH]; [done|].
  change (mjoin (out <$> t :: kids)) with (out t ++ mjoin (out <$> kids)). change (mjoin (subtrees <$> t :: kids)) with (subtrees t ++ mjoin (subtrees <$> kids)).
  by rewrite fmap_app IH -Ht.
Qed.
Lemma tree_rules ar t : placed ar t → rule_of ar <$> tree_recs t = visited_rules (out t).
Proof.
  intros Hp. rewrite tree_recs_subtrees out_subtrees /visited_rules. assert (∀ t', t' ∈ subtrees t → t' ∈ subtrees t) as Hin by done.
  revert Hin. generalize (subtrees t) at 1 3 4 as l. induction l as [|t' l IH]; intros Hin; [done|].
  rewrite !fmap_cons !mjoin_cons fmap_app IH; [|intros; apply Hin; by right]. by rewrite (node_rules_recs ar t) //; apply Hin; left.
Qed.
Lemma tree_recs_in r t : r ∈ tree_recs t ↔ ∃ t', t' ∈ subtrees t ∧ r ∈ node_recs (t_index t') (t_key t') (t_node t').
Proof.
  rewrite tree_recs_subtrees list_elem_of_join. split.
  - intros (l & Hr & [t' [-> Ht]]%list_elem_of_fmap). by exists t'.
  - intros (t' & Ht & Hr). eexists. split; [exact Hr|]. apply list_elem_of_fmap. by exists t'.
Qed.
Lemma StronglySorted_mjoin {A B} (R : A → A → Prop) (R' : B → B → Prop) (f : A → list B) l :
  StronglySorted R l → (∀ a, a ∈ l → StronglySorted R' (f a)) → (∀ a b u v, a ∈ l → b ∈ l → R a b → u ∈ f a → v ∈ f b → R' u v) → StronglySorted R' (mjoin (f <$> l)).
Proof.
  induction 1 as [|a l Hs IH Ha]; intros Hf HR; [constructor|]. rewrite fmap_cons mjoin_cons. apply StronglySorted_app_2.
  - intros u v Hu (l' & Hv & [b [-> Hb]]%list_elem_of_fmap)%list_elem_of_join. rewrite Forall_forall in Ha.
    apply (HR a b); [by left|by right|by apply Ha|done..].
  - apply Hf. by left.
  - apply IH; [intros; apply Hf; by right|]. intros b c u v Hb Hc. apply HR; by right.
Qed.
Lemma StronglySorted_omap {A B} (R : A → A → Prop) (R' : B → B → Prop) (f : A → option B) l :
  StronglySorted R l → (∀ a b u v, R a b → f a = Some u → f b = Some v → R' u v) → StronglySorted R' (omap f l).
Proof.
  intros Hs HR. induction Hs as [|a l Hs IH Ha]; [constructor|]. simpl. destruct (f a) as [u|] eqn:Hu; [|done]. constructor; [done|].
  apply Forall_forall. intros v (b & Hb & Hv)%list_elem_of_omap. rewrite Forall_forall in Ha. by apply (HR a b); [apply Ha|..].
Qed.
(** In the order of the keys, and no two of one key and group. *)
Definition rec_lt (ar : list Z) (r r' : Record_) : Prop := ble (key_of ar r) (key_of ar r') ∧ (group r, key_of ar r) ≠ (group r', key_of ar r').
Lemma tree_recs_sorted a b t ar : tree_ok a b t → placed ar t → StronglySorted (rec_lt ar) (tree_recs t).
Proof.
  intros Ht Hp. rewrite tree_recs_subtrees. apply (StronglySorted_mjoin (λ t t', blt (t_key t) (t_key t'))).
  - pose proof (tree_sorted _ _ _ Ht) as Hs. clear -Hs. induction (subtrees t) as [|t' l IH]; [constructor|]. rewrite fmap_cons in Hs.
    apply StronglySorted_inv in Hs as [Hs Ha]. constructor; [by apply IH|]. by rewrite Forall_fmap in Ha.
  - intros t' Ht'. set (R g g' := (group_index g < group_index g')%nat).
    assert (StronglySorted (λ r r', R (group r) (group r')) (node_recs (t_index t') (t_key t') (t_node t'))) as Hs.
    { apply (StronglySorted_omap R); [unfold groups, R; repeat constructor; simpl; lia|]. intros g g' r r' HR Hr Hr'.
      repeat case_match; simplify_eq. exact HR. }
    assert (∀ r, r ∈ node_recs (t_index t') (t_key t') (t_node t') → key_of ar r = t_key t') as Hk by (intros r; by apply (placed_key ar t)).
    induction Hs as [|r l Hs IH Ha]; constructor; [by apply IH; intros; apply Hk; right|].
    apply Forall_forall. intros r' Hr'. rewrite Forall_forall in Ha. specialize (Ha r' Hr'). split.
    + rewrite !Hk; [apply ble_refl|by right|by left].
    + intros [= Hg _]. unfold R in Ha. rewrite Hg in Ha. lia.
  - intros t1 t2 r1 r2 H1 H2 [Hle Hne] Hr1 Hr2. unfold rec_lt. rewrite (placed_key _ _ _ _ Hp H1 Hr1) (placed_key _ _ _ _ Hp H2 Hr2).
    split; [done|]. by intros [= _ ?].
Qed.

(** ** The index represents them *)
Lemma arena_exists (K : nat → list Z) n : (∀ i, (length (K i) ≤ KEY_BUFFER)%nat) →
  ∃ ar, length ar = (KEY_BUFFER * n)%nat ∧ ∀ i, (i < n)%nat → take (length (K i)) (drop (KEY_BUFFER * i) ar) = K i.
Proof.
  intros HK. induction n as [|n (ar & Hl & Hat)]; [exists []; split; [by rewrite Nat.mul_0_r|lia]|].
  exists (ar ++ K n ++ replicate (KEY_BUFFER - length (K n)) 0). specialize (HK n) as Hn. split.
  - rewrite !length_app length_replicate Hl. lia.
  - intros i Hi. destruct (decide (i = n)) as [->|].
    + by rewrite -Hl drop_app_length take_app_length.
    + specialize (Hat i ltac:(lia)). specialize (HK i). rewrite drop_app_le; [|rewrite Hl; apply Nat.mul_le_mono_l; lia].
      rewrite take_app_le //. rewrite length_drop Hl. assert (KEY_BUFFER * S i ≤ KEY_BUFFER * n)%nat by (apply Nat.mul_le_mono_l; lia). lia.
Qed.
Definition tree_at (t : Tree) : gmap nat Tree := list_to_map ((λ t, (t_index t, t)) <$> subtrees t).
Lemma root_indices t : root_tree x source_count t → t_index <$> subtrees t ≡ₚ seq 0 N.
Proof.
  intros [Hi _ _ Ht]. destruct (tree_indices _ _ _ Ht) as [Hle Hp]. destruct t as [i k n kids]. simpl in *. subst i.
  destruct N as [|n']; [lia|]. simpl in *. rewrite Nat.sub_0_r in Hp. by apply perm_skip.
Qed.
Lemma tree_at_some t t' i : root_tree x source_count t → tree_at t !! i = Some t' ↔ t' ∈ subtrees t ∧ t_index t' = i.
Proof.
  intros Hr. unfold tree_at. rewrite -elem_of_list_to_map.
  - rewrite list_elem_of_fmap. split; [by intros (? & [= -> ->] & ?)|]. intros [Ht <-]. by exists t'.
  - rewrite -list_fmap_compose /compose /=. rewrite (root_indices t Hr). apply NoDup_seq.
Qed.
Definition tree_labels (t : Tree) : list (option (list Z * list Record_)) := (λ i, (λ t, (t_key t, tree_recs t)) <$> tree_at t !! i) <$> seq 0 N.
Lemma tree_labels_some t i k rs : root_tree x source_count t →
  tree_labels t !! i = Some (Some (k, rs)) ↔ ∃ t', t' ∈ subtrees t ∧ t_index t' = i ∧ k = t_key t' ∧ rs = tree_recs t'.
Proof.
  intros Hr. unfold tree_labels. rewrite list_lookup_fmap_Some. setoid_rewrite lookup_seq. split.
  - intros (j & Hj & [-> Hlt]). symmetry in Hj. apply fmap_Some in Hj as (t' & [Ht Hi]%tree_at_some & [= -> ->]); [|done]. by exists t'.
  - intros (t' & Ht & Hi & -> & ->). exists i. split.
    + symmetry. apply fmap_Some. exists t'. split; [|done]. by apply tree_at_some.
    + split; [done|]. assert (i ∈ seq 0 N) as Hin%elem_of_seq; [|lia]. rewrite -(root_indices t Hr). apply list_elem_of_fmap. by exists t'.
Qed.
Lemma subtrees_trans t t' t'' : t' ∈ subtrees t → t'' ∈ subtrees t' → t'' ∈ subtrees t.
Proof.
  revert t'. induction t as [i k n kids IH] using Tree_ind'. intros t' [->|Ht]%elem_of_cons Ht''; [done|]. right.
  apply list_elem_of_join in Ht as (l & Ht & [t0 [-> Hin]]%list_elem_of_fmap). apply list_elem_of_join. eexists. split; [|apply list_elem_of_fmap; by exists t0].
  rewrite Forall_forall in IH. by apply (IH t0 Hin t').
Qed.
Lemma node_sources_ok i k n : length (sources n) = 4%nat → sources_ok (node_recs i k n) (sources n).
Proof.
  intros Hl. split; [done|]. intros g. destruct (lookup_lt_is_Some_2 (sources n) (group_index g)) as [s Hs]; [destruct g; simpl; lia|]. exists s. split; [done|]. split.
  - intros -> r (Hr & Hne & _)%node_recs_in Hg. rewrite Hg Hs in Hr. by injection Hr.
  - intros Hne. exists (mkRecord (mkEntry (Z.of_nat (KEY_BUFFER * i)) (Z.of_nat (length k)) s) g). by rewrite node_recs_in.
Qed.

Section representation.
Hypothesis Hwf : Forall node_wf (items (nodes x)).
Lemma node_terminal i k n : terminal n = true → length (sources n) = 4%nat → node_recs i k n ≠ [].
Proof.
  intros (s & [j Hj]%list_elem_of_In%list_elem_of_lookup & Hs%negb_true_iff%bool_decide_eq_false)%existsb_exists Hl.
  assert (∃ g, group_index g = j) as [g Hg].
  { apply lookup_lt_Some in Hj. rewrite Hl in Hj. destruct j as [|[|[|[|]]]]; [by exists AllowSuffix|by exists AllowExact|by exists BlockSuffix|by exists BlockExact|lia]. }
  intros Hnil. assert (mkRecord (mkEntry (Z.of_nat (KEY_BUFFER * i)) (Z.of_nat (length k)) s) g ∈ node_recs i k n) as Hin by (apply node_recs_in; by rewrite /= Hg).
  rewrite Hnil in Hin. by apply elem_of_nil in Hin.
Qed.
Lemma tree_live : ∀ a b t, tree_ok a b t → live_node (t_node t) → tree_recs t ≠ [].
Proof.
  apply (tree_ok_mut x source_count (λ a b t _, live_node (t_node t) → tree_recs t ≠ []) (λ k c a b ts _, ts ≠ [] → mjoin (tree_recs <$> ts) ≠ [])).
  - intros a b i k n kids Hn _ Hc _ _ _ _ IH [Ht|Hkids]; simpl.
    + intros [Hnil _]%app_nil. revert Hnil. apply node_terminal; [done|]. eapply nw_sources, Forall_lookup_1; [exact Hwf|done].
    + simpl in Hkids. destruct kids; [simpl in Hc; lia|]. intros [_ Hnil]%app_nil. by apply IH.
  - done.
  - intros k c a m b t ts edge _ _ _ _ Hl _ IH _ _ _. rewrite fmap_cons mjoin_cons. intros [Hnil _]%app_nil. by apply IH.
Qed.
Lemma tree_opened t ar a b t' : root_tree x source_count t → placed ar t → t' ∈ subtrees t → tree_ok a b t' →
  opened ar (mkView (items (nodes x)) (items (edges x)) (tree_labels t)) (t_index t') (t_key t') (tree_recs t')
    (Z.to_nat (first_child (t_node t'))) (length (t_kids t')) [].
Proof.
  intros Hr Hp Hin Ht. destruct Ht as [a b i k n kids Hn Hf Hc Hrange Hs Hfit Hk]. simpl in *.
  exists n, (node_recs i k n), (tree_recs <$> kids). split; [|by rewrite length_fmap].
  assert (∀ kid, kid ∈ kids → kid ∈ subtrees t) as Hkid.
  { intros kid Hkid. apply (subtrees_trans _ _ _ Hin). right. apply list_elem_of_join. exists (subtrees kid).
    split; [destruct kid; left|]. apply list_elem_of_fmap. by exists kid. }
  assert (∀ kid r, kid ∈ kids → r ∈ tree_recs kid → k ++ [first_byte (t_node kid)] `prefix_of` key_of ar r) as Hbelow.
  { intros kid r Hki (t1 & Ht1 & Hr1)%tree_recs_in. rewrite (placed_key ar t t1); [|done|by apply (subtrees_trans t kid); [apply Hkid|]|done].
    apply list_elem_of_lookup in Hki as [j Hj]. destruct (kids_lookup _ _ _ _ _ _ _ Hk Hj) as (edge & a' & b' & _ & _ & Hh & Hkey & _ & Hok).
    etrans; [|by apply (tree_prefix _ _ _ Hok)]. rewrite Hkey. apply prefix_app. destruct edge as [|e edge]; [done|]. injection Hh as ->. by exists edge. }
  split; simpl.
  - done.
  - by rewrite app_nil_r.
  - apply Forall_forall. intros r Hr1. by apply (placed_key ar t (Nod i k n kids)).
  - rewrite app_nil_r. apply Forall_forall. intros r (l & Hr1 & [kid [-> Hki]]%list_elem_of_fmap)%list_elem_of_join.
    apply prefix_length with (l1 := k ++ [first_byte (t_node kid)]) (l2 := key_of ar r) in Hbelow; [|done..]. rewrite length_app /= in Hbelow. lia.
  - apply node_sources_ok. eapply nw_sources, Forall_lookup_1; [exact Hwf|done].
  - done.
  - rewrite Nat.add_0_r length_fmap. done.
  - rewrite length_fmap. lia.
  - intros j ks (kid & -> & Hj)%list_lookup_fmap_Some_1. destruct (kids_lookup _ _ _ _ _ _ _ Hk Hj) as (edge & a' & b' & Hi & He & Hh & Hkey & Hl & Hok).
    exists (t_node kid), edge. simpl. subst a. rewrite -Hi -Hkey. split_and!; [by eapply tree_node|done|done| |by eapply tree_live].
    apply tree_labels_some; [done|]. exists kid. split_and!; try done. apply Hkid. by eapply list_elem_of_lookup_2.
  - apply StronglySorted_app_2; [by intros l l' _ ->%list_elem_of_singleton u v _ ?%elem_of_nil| |by repeat constructor].
    clear -Hs Hbelow. induction kids as [|kid kids IH]; [constructor|]. rewrite fmap_cons in Hs. apply StronglySorted_inv in Hs as [Hs Hlt].
    rewrite fmap_cons. constructor; [apply IH; [done|intros; apply Hbelow; [by right|done]]|]. apply Forall_fmap, Forall_forall. intros kid' Hki' u v Hu Hv.
    rewrite Forall_fmap Forall_forall in Hlt. specialize (Hlt kid' Hki').
    rewrite (nb_prefix ar k [first_byte (t_node kid)] (first_byte (t_node kid))); [|done|by apply Hbelow; [left|]].
    rewrite (nb_prefix ar k [first_byte (t_node kid')] (first_byte (t_node kid'))); [exact Hlt|done|by apply Hbelow; [right|]].
Qed.
Lemma tree_complete t ar : root_tree x source_count t → placed ar t →
  complete ar (tree_recs t) (mkView (items (nodes x)) (items (edges x)) (tree_labels t)).
Proof.
  intros Hr Hp. pose proof (rt_tree _ _ _ Hr) as Ht. split; simpl.
  - apply tree_labels_some; [done|]. exists t. destruct Hr as [Hi Hk _ _]. split_and!; [destruct t; left|done|done|done].
  - intros i p rs (t' & Hin & _ & -> & ->)%tree_labels_some; [|done]. destruct (tree_below _ _ _ Ht _ Hin) as (a & b & Ht').
    assert (placed ar t') as Hp' by (intros t'' s Ht''; apply Hp; by apply (subtrees_trans t t')). split_and!.
    + apply Forall_forall. intros r (t'' & Ht'' & Hr'')%tree_recs_in. rewrite (placed_key _ _ _ _ Hp' Ht'' Hr''). by apply (tree_prefix a b).
    + pose proof (tree_recs_sorted _ _ _ ar Ht' Hp') as Hs. clear -Hs. induction Hs as [|r l _ IH Ha]; constructor; [done|].
      eapply Forall_impl; [exact Ha|]. by intros r' [? _].
    + intros r (t'' & Ht'' & Hr'')%tree_recs_in. apply tree_recs_in. exists t''. split; [by apply (subtrees_trans t t')|done].
  - intros i p rs (t' & Hin & <- & -> & ->)%tree_labels_some; [|done]. destruct (tree_below _ _ _ Ht _ Hin) as (a & b & Ht').
    eexists _, _. by eapply tree_opened.
Qed.
Lemma tree_fits t : root_tree x source_count t → ∀ t', t' ∈ subtrees t → node_fits (t_key t') (t_node t').
Proof. intros Hr t' Hin. by destruct (tree_below _ _ _ (rt_tree _ _ _ Hr) _ Hin) as (a & b & []). Qed.
Lemma tree_placed t : root_tree x source_count t → ∃ ar, placed ar t.
Proof.
  intros Hr. pose proof (tree_fits t Hr) as Hfits.
  destruct (arena_exists (λ i, match tree_at t !! i with Some t' => t_key t' | None => [] end) N) as (ar & Hl & Har).
  { intros i. destruct (tree_at t !! i) as [t'|] eqn:Hi; [|simpl; lia]. apply tree_at_some in Hi as [Hin _]; [|done]. apply (Hfits t' Hin). }
  exists ar. intros t' s Hin. assert (t_index t' < N)%nat as Hlt.
  { assert (t_index t' ∈ seq 0 N) as Hseq%elem_of_seq; [|lia]. rewrite -(root_indices t Hr). apply list_elem_of_fmap. by exists t'. }
  specialize (Har _ Hlt). assert (tree_at t !! t_index t' = Some t') as Hat by (by apply tree_at_some). rewrite Hat in Har.
  pose proof (nf_length _ _ _ (Hfits t' Hin)) as Hlen. unfold key. cbn [offset len]. rewrite !Nat2Z.id Har bool_decide_true // Hl.
  assert (KEY_BUFFER * S (t_index t') ≤ KEY_BUFFER * N)%nat by (apply Nat.mul_le_mono_l; lia). lia.
Qed.
(** The tree's rules are those the lookups follow. *)
Context `{!HostSpec H} {SL : SliceLib} `{!SliceSpec SL} `{!NameLib, !NameSpec _}.
Definition rule_id (r : Rule) : Group * list Z := (r_group r, r_key r).
Lemma tree_answers t : root_tree x source_count t → answers (visited_rules (out t)) x ∧ NoDup (rule_id <$> visited_rules (out t)).
Proof.
  intros Hr. destruct (tree_placed t Hr) as [ar Hp]. rewrite -(tree_rules ar t Hp).
  assert (NoDup ((λ r, (group r, key_of ar r)) <$> tree_recs t)) as Hnd.
  { pose proof (tree_recs_sorted _ _ _ ar (rt_tree _ _ _ Hr) Hp) as Hs. clear -Hs. induction Hs as [|r l _ IH Ha]; [constructor|].
    rewrite fmap_cons. constructor; [|done]. rewrite list_elem_of_fmap. intros (r' & Heq & Hin). rewrite Forall_forall in Ha. by apply (Ha r' Hin). }
  split; [|by rewrite -list_fmap_compose]. apply represents_answers; [|done]. exists (tree_recs t), (tree_labels t). split; [done|]. by apply tree_complete.
Qed.
Definition rule_fits (r : Rule) : Prop := wf_key (r_key r) ∧ 0 ≤ r_slot r < Z.of_nat source_count.
Lemma node_rules_fit k n : node_fits k n → node_wf n → Forall rule_fits (node_rules (k, sources n)).
Proof.
  intros [_ Hkey Hslots] Hn. apply Forall_forall. intros r (g & _ & Hg)%list_elem_of_omap. simpl in Hg.
  destruct (sources n !! group_index g) as [s|] eqn:Hs; [|done]. case_bool_decide as Hne; [done|]. injection Hg as <-.
  apply list_elem_of_lookup_2 in Hs. pose proof (nw_slots _ Hn) as Hw. rewrite Forall_forall in Hw. rewrite Forall_forall in Hslots.
  specialize (Hw s Hs). destruct (Hslots s Hs) as [?|Hlt]; [done|]. split; simpl; [|lia].
  apply Hkey, existsb_exists. exists s. split; [by apply list_elem_of_In|]. by rewrite bool_decide_false.
Qed.
Lemma subtree_wf t t' : root_tree x source_count t → t' ∈ subtrees t → node_wf (t_node t').
Proof.
  intros Hr Hin. destruct (tree_below _ _ _ (rt_tree _ _ _ Hr) _ Hin) as (a & b & Ht'). eapply Forall_lookup_1; [exact Hwf|by eapply tree_node].
Qed.
Lemma tree_rules_fit t : root_tree x source_count t → Forall rule_fits (visited_rules (out t)).
Proof.
  intros Hr. rewrite out_subtrees. apply Forall_forall. intros r (l & Hl & [v [-> [t' [-> Hin]]%list_elem_of_fmap]]%list_elem_of_fmap)%list_elem_of_join.
  pose proof (node_rules_fit _ _ (tree_fits t Hr t' Hin) (subtree_wf t t' Hr Hin)) as Hf. rewrite Forall_forall in Hf. by apply Hf.
Qed.
End representation.
End trees.

(** ** The bytes under the digest *)
Definition in_group (g : nat) (rs : list Rule) : list Rule := filter (λ r, group_index (r_group r) = g) rs.
Definition rule_bytes (r : Rule) : list Z := be_bytes 2 (Z.of_nat (length (r_key r))) ++ r_key r.
Definition group_section (rs : list Rule) (g : nat) : list Z :=
  [as_u8 (Z.of_nat g)] ++ be_bytes 8 (Z.of_nat (length (in_group g rs))) ++ mjoin (rule_bytes <$> in_group g rs).
Definition rules_bytes (rs : list Rule) : list Z := mjoin (group_section rs <$> seq 0 4).

Lemma in_group_app g rs rs' : in_group g (rs ++ rs') = in_group g rs ++ in_group g rs'.
Proof. apply filter_app. Qed.
Lemma node_in_group g k l : length l = 4%nat → (g < 4)%nat →
  in_group g (node_rules (k, l)) = match l !! g with
    | Some s => if bool_decide (s = NONE) then [] else [{| r_group := nth g groups AllowSuffix; r_key := k; r_slot := s |}]
    | None => []
    end.
Proof.
  intros Hl Hg. destruct l as [|s0 [|s1 [|s2 [|s3 [|]]]]]; try done. unfold node_rules, groups, in_group.
  destruct g as [|[|[|[|]]]]; try lia; simpl; repeat (case_bool_decide; simpl); done.
Qed.
Lemma group_count rs : length rs = sum_list ((λ g, length (in_group g rs)) <$> seq 0 4).
Proof.
  induction rs as [|r rs IH]; [done|]. unfold in_group in *. simpl in *. rewrite !filter_cons. destruct r as [[] k s]; simpl; rewrite IH; lia.
Qed.
Definition four (v : list Z * list Z) : Prop := length v.2 = 4%nat.
Lemma visits_count l : Forall four l → ∀ c0 c1 c2 c3, let n g := length (in_group g (visited_rules l)) in
  visits (λ counts _ l, count_sources counts l) [c0; c1; c2; c3] l = [c0 + n 0; c1 + n 1; c2 + n 2; c3 + n 3]%nat.
Proof.
  induction 1 as [|[k ss] l Hv _ IH]; intros c0 c1 c2 c3 n; [by rewrite !Nat.add_0_r|].
  change (visits _ ?c ((k, ss) :: l)) with (visits (λ counts _ l, count_sources counts l) (count_sources c ss) l).
  unfold n, visited_rules. rewrite fmap_cons mjoin_cons !in_group_app !length_app !node_in_group //; try lia.
  unfold four in Hv. simpl in Hv. destruct ss as [|s0 [|s1 [|s2 [|s3 [|]]]]]; try done. cbn [count_sources]. rewrite IH. simpl.
  destruct (bool_decide (s0 = NONE)), (bool_decide (s1 = NONE)), (bool_decide (s2 = NONE)), (bool_decide (s3 = NONE)); simpl; rewrite ?Nat.add_succ_r; reflexivity.
Qed.
Lemma visits_group g l : (g < 4)%nat → Forall four l → ∀ acc, visits (group_visit g) acc l = acc ++ mjoin (rule_bytes <$> in_group g (visited_rules l)).
Proof.
  intros Hg. induction 1 as [|[k ss] l Hv _ IH]; intros acc; [by rewrite app_nil_r|].
  change (visits _ acc ((k, ss) :: l)) with (visits (group_visit g) (group_visit g acc k ss) l). rewrite IH.
  unfold visited_rules. rewrite fmap_cons mjoin_cons in_group_app fmap_app mjoin_app app_assoc. f_equal. rewrite node_in_group //.
  unfold group_visit. destruct (ss !! g) as [s|] eqn:Hs; [|unfold four in Hv; simpl in Hv; apply lookup_ge_None in Hs; lia].
  destruct (bool_decide_reflect (s = NONE)) as [->|Hne]; [by rewrite bool_decide_true // app_nil_r|]. rewrite bool_decide_false; [|congruence].
  simpl. by rewrite !app_nil_r.
Qed.

(** ** Reading an index *)
Section reading.
Context {H : Host} `{!HostSpec H} {SL : SliceLib} `{!SliceSpec SL} `{!NameLib, !NameSpec _} {SH : Sha256Lib}.

Definition octets (l : list Z) : Prop := Forall (λ b, 0 ≤ b ≤ 255) l.
(** What the reader leaves: octets to come, and the budget as it was. *)
Definition reading (b : Budget) (d : Disk) : Prop := octets (rest d) ∧ d_budget d = b.
Lemma d_check_wp b d (Q : unit → Disk → Prop) (R : DiskError → Disk → Prop) :
  reading b d → (∀ d', reading b d' → Q tt d') → (∀ e d', R e d') → wp d_check Q R d.
Proof. intros Hr HQ HR. unfold wp, d_check. destruct (check_result _); [done|]. by apply HQ. Qed.
Lemma get_bytes_wp n b d (Q : list Z → Disk → Prop) (R : DiskError → Disk → Prop) :
  reading b d → (∀ l d', length l = n → octets l → reading b d' → Q l d') → (∀ e d', R e d') → wp (get_bytes n) Q R d.
Proof.
  intros [Ho Hb] HQ HR. unfold get_bytes, read_exact. apply wp_bind, wp_bind, wp_get. destruct (bool_decide_reflect (n ≤ length (rest d))%nat); [|by apply wp_fail].
  apply wp_bind, wp_put, wp_ret, wp_bind, wp_get, wp_bind, wp_put, wp_ret, HQ; [rewrite length_take; lia|by apply Forall_take|].
  split; simpl; [by apply Forall_drop|done].
Qed.
Lemma be_value_octets l : octets l → 0 ≤ be_value l < 256 ^ Z.of_nat (length l).
Proof.
  intros Hl. unfold be_value. assert (∀ a n, 0 ≤ a < 256 ^ Z.of_nat n → 0 ≤ foldl (λ a b, 256 * a + b) a l < 256 ^ (Z.of_nat n + Z.of_nat (length l))) as Hgen.
  { induction Hl as [|b l Hb _ IH]; intros a n Ha; [by rewrite Z.add_0_r|]. cbn [foldl length]. specialize (IH (256 * a + b) (S n)).
    rewrite Nat2Z.inj_succ Z.pow_succ_r in IH; [|lia]. replace (Z.of_nat n + Z.of_nat (S (length l))) with (Z.succ (Z.of_nat n) + Z.of_nat (length l)) by lia. apply IH. lia. }
  apply (Hgen 0 0%nat). done.
Qed.
Lemma field_octets l from n : octets l → octets (field l from n).
Proof. intros. by apply Forall_take, Forall_drop. Qed.
Lemma field_value l from n : octets l → 0 ≤ be_value (field l from n) < 256 ^ Z.of_nat n.
Proof.
  intros Hl. pose proof (be_value_octets _ (field_octets l from n Hl)) as Hv. split; [lia|]. eapply Z.lt_le_trans; [apply Hv|].
  apply Z.pow_le_mono_r; [lia|]. unfold field. rewrite length_take. lia.
Qed.
Lemma parse_node_wf l : octets l → node_wf (parse_node l).
Proof.
  intros Hl. split; cbn [parse_node first_child child_count edge_len sources]; [by apply field_value..|done|].
  apply Forall_fmap, Forall_forall. intros i _. pose proof (field_value l (12 + 2 * i) 2 Hl) as Hv. change (256 ^ Z.of_nat 2) with 65536 in Hv. unfold compose, u16_max. lia.
Qed.
Lemma read_nodes_wp b count : ∀ i d, reading b d →
  wp (read_nodes i count) (λ l d', length l = count ∧ Forall node_wf l ∧ reading b d') (λ _ _, True) d.
Proof.
  induction count as [|count IH]; intros i d Hd; cbn [read_nodes]; [by apply wp_ret|]. apply wp_bind.
  eapply (wp_mono _ (λ _ d', reading b d') _ (λ _ _, True)); [|done|by destruct (bool_decide _); [apply (d_check_wp b)|apply wp_ret]].
  intros [] d1 Hd1. apply wp_bind, (get_bytes_wp _ b); [done| |done]. intros l d2 _ Hl Hd2. apply wp_bind.
  eapply wp_mono; [| |by apply IH]; [|done]. intros ns d3 (Hn & Hf & Hd3). apply wp_ret. split_and!; [by rewrite /= Hn| |done].
  constructor; [by apply parse_node_wf|done].
Qed.
Lemma read_chunks_wp b fuel : ∀ n d, (n ≤ fuel)%nat → reading b d → wp (read_chunks fuel n) (λ l d', length l = n ∧ reading b d') (λ _ _, True) d.
Proof.
  assert (1 ≤ 8192)%nat as Hc by by_compute. induction fuel as [|fuel IH]; intros n d Hn Hd; cbn [read_chunks]; [apply wp_ret; simpl; split; [lia|done]|].
  destruct (bool_decide_reflect (n = O)) as [->|Hne]; [by apply wp_ret|]. apply wp_bind, (d_check_wp b); [done| |done]. intros d1 Hd1.
  apply wp_bind, (get_bytes_wp _ b); [done| |done]. intros l d2 Hl _ Hd2. apply wp_bind.
  eapply wp_mono; [| |apply IH; [lia|exact Hd2]]; [|done]. intros l' d3 [Hl' Hd3]. apply wp_ret. split; [rewrite length_app Hl Hl'; lia|done].
Qed.
Lemma read_ids_wp b ids : ∀ d, reading b d → wp (read_ids ids) (λ _ d', reading b d') (λ _ _, True) d.
Proof.
  induction ids as [|id ids IH]; intros d Hd; cbn [read_ids]; [by apply wp_ret|]. apply wp_bind, (get_bytes_wp _ b); [done| |done]. intros n d1 _ _ Hd1.
  apply wp_bind, wp_ensured; [intros _|done]. apply wp_bind, (get_bytes_wp _ b); [done| |done]. intros l d2 _ _ Hd2. apply wp_bind, wp_ensured; [intros _|done]. by apply IH.
Qed.
Lemma read_end_wp broken b d : reading b d → wp (read_end broken) (λ _ d', reading b d') (λ _ _, True) d.
Proof.
  intros [Ho Hb]. unfold read_end, read_exact. apply wp_bind, wp_get, wp_bind, wp_bind, wp_get. destruct (bool_decide _); [|by apply wp_fail].
  apply wp_bind, wp_put, wp_ret, wp_bind, wp_ensured; [intros _|done]. apply wp_bind, wp_get. simpl. destruct (drop _ _) as [|y ys] eqn:Hd; [|by apply wp_fail].
  destruct broken; [by apply wp_fail|]. apply wp_ret. split; simpl; [constructor|done].
Qed.

Lemma on_d_walk_wp {A} (m : M nat DiskError A) d (Q : A → Disk → Prop) :
  wp m (λ a _, ∀ d', Q a d') (λ _ _, True) (d_ticks d) → wp (on_d_walk m) Q (λ _ _, True) d.
Proof. unfold wp, on_d_walk. destruct (m (d_ticks d)) as [[] t]; naive_solver. Qed.

Section validate.
Context (x : Index) (source_count : nat).
Hypothesis Hwf : Forall node_wf (items (nodes x)).
Hypothesis Hroot : (0 < length (items (nodes x)))%nat.
Lemma root_unique t t' : root_tree x source_count t → root_tree x source_count t' → t = t'.
Proof.
  intros [Hi Hk _ Ht] [Hi' Hk' _ Ht']. apply (tree_unique x source_count _ _ _ Ht _ _ Ht'); congruence.
Qed.
Lemma walk_again_wp {T} (visit : T → list Z → list Z → T) a t d (Q : T → Disk → Prop) : root_tree x source_count t →
  (∀ d', Q (visits visit a (out t)) d') → wp (on_d_walk (walk x source_count visit a)) Q (λ _ _, True) d.
Proof.
  intros Ht HQ. apply on_d_walk_wp. eapply wp_mono; [| |by apply walk_wp]; [|done]. intros g s (t' & Ht' & ->) d'. by rewrite (root_unique t' t).
Qed.
Lemma tree_four t : root_tree x source_count t → Forall four (out t).
Proof.
  intros Hr. rewrite out_subtrees. apply Forall_fmap, Forall_forall. intros t' Hin. apply nw_sources. by eapply (subtree_wf x source_count).
Qed.
Lemma semantic_bytes_wp t counts : root_tree x source_count t → ∀ g d, (g + length counts ≤ 4)%nat →
  (∀ i c, counts !! i = Some c → c = length (in_group (g + i) (visited_rules (out t)))) →
  wp (semantic_bytes x source_count g counts) (λ l _, l = mjoin (group_section (visited_rules (out t)) <$> seq g (length counts))) (λ _ _, True) d.
Proof.
  intros Hr. induction counts as [|c counts IH]; intros g d Hg Hc; cbn [semantic_bytes]; [by apply wp_ret|]. simpl in Hg.
  apply wp_bind, (walk_again_wp _ _ t); [done|]. intros d1. apply wp_bind. eapply wp_mono; [| |apply (IH (S g)); [lia|]]; [|done|].
  - intros l d2 ->. apply wp_ret. rewrite (visits_group g); [|lia|by apply tree_four]. rewrite (Hc 0%nat c) // Nat.add_0_r.
    cbn [length seq]. rewrite fmap_cons mjoin_cons. unfold group_section at 2. by rewrite -!app_assoc.
  - intros i c' Hi. rewrite (Hc (S i) c') // Nat.add_succ_r. done.
Qed.
Definition validated (rs : list Rule) : Prop :=
  answers rs x ∧ length rs = index_rules x ∧ NoDup (rule_id <$> rs) ∧ Forall (rule_fits source_count) rs ∧ x_digest x = sha256 (SEMANTICS ++ rules_bytes rs).
Lemma validate_index_wp d : wp (validate_index x source_count) (λ _ _, ∃ rs, validated rs) (λ _ _, True) d.
Proof.
  unfold validate_index. apply wp_bind, on_d_walk_wp. eapply wp_mono; [| |by apply walk_wp]; [|done]. intros counts ticks (t & Ht & ->) d1.
  set (rs := visited_rules (out t)). rewrite visits_count; [|by apply tree_four]. fold rs. simpl Nat.add.
  apply wp_bind, wp_ensured; [intros Hsum%bool_decide_eq_true|done]. apply wp_bind. eapply wp_mono; [| |apply (semantic_bytes_wp t)]; [|done|done|simpl; lia|].
  - intros l d2 ->. apply wp_ensured; [intros Hd%bool_decide_eq_true|done]. exists rs. destruct (tree_answers x source_count Hwf t Ht) as [Ha Hnd].
    split_and!; [done|by rewrite group_count|done|by apply (tree_rules_fit x)|by rewrite Hd].
  - intros i c Hc. destruct i as [|[|[|[|]]]]; by inversion Hc.
Qed.
End validate.

Lemma on_d_budget_wp {A} (m : M (Budget * nat) Error A) d (Q : A → Disk → Prop) :
  wp m (λ a t, ∀ d', rest d' = rest d → d_budget d' = t.1 → Q a d') (λ _ _, True) (d_budget d, d_ticks d) → wp (on_d_budget m) Q (λ _ _, True) d.
Proof. unfold wp, on_d_budget. destruct (m _) as [[] t]; naive_solver. Qed.
Lemma new_builder_budget l : 0 ≤ retained_bytes l → 0 ≤ max_rules l → 0 ≤ max_memory_bytes l →
  match new_builder l with Ok b => budget_ok (budget b) ∧ limit (budget b) = max_memory_bytes l | Err _ => True | _ => False end.
Proof.
  intros Hret Hrules Hmem. unfold new_builder. destruct (_ || _) eqn:E; [done|]. rewrite !orb_false_iff !bool_decide_eq_false in E.
  pose proof (reserve_wp (retained_bytes l) {| live := 0; peak := 0; limit := max_memory_bytes l |} 0%nat
    (λ _ s, budget_ok s.1 ∧ limit s.1 = max_memory_bytes l) (λ _ _, True)) as Hw.
  unfold wp in Hw. destruct (reserve _ _) as [[[]| | |] [bu n]]; try done; apply Hw; try done; split; simpl; lia.
Qed.
Lemma limits_budget_wp l d : octets (rest d) → 0 ≤ retained_bytes l → 0 ≤ max_rules l → 0 ≤ max_memory_bytes l →
  wp (limits_budget l) (λ _ d', octets (rest d') ∧ budget_ok (d_budget d') ∧ limit (d_budget d') = max_memory_bytes l) (λ _ _, True) d.
Proof.
  intros Ho Hret Hrules Hmem. pose proof (new_builder_budget l Hret Hrules Hmem) as Hb. unfold wp, limits_budget.
  by destruct (new_builder l) as [b| | |].
Qed.
(** An index that was read: its rules, and the memory it holds. *)
Record read_back (limits : Limits) (ids : list (list Z)) (x : Index) : Prop := {
  rb_rules : ∃ rs, validated x (length ids) rs;
  rb_count : (index_rules x ≤ x_input_rules x)%nat ∧ Z.of_nat (x_input_rules x) ≤ max_rules limits;
  rb_memory : 0 ≤ index_bytes x ≤ peak_bytes x ∧ peak_bytes x ≤ max_memory_bytes limits;
}.
Definition sized (limits : Limits) (h : list Z * nat * nat * nat * nat) : Prop :=
  let '(_, node_count, _, input_rules, index_rules) := h in
  (0 < node_count)%nat ∧ (index_rules ≤ input_rules)%nat ∧ Z.of_nat input_rules ≤ max_rules limits.
Lemma read_header_wp b digest count limits d : reading b d →
  wp (read_header digest count limits) (λ h d', reading b d' ∧ sized limits h) (λ _ _, True) d.
Proof.
  intros Hd. unfold read_header. apply wp_bind, (get_bytes_wp _ b); [done| |done]. intros h d1 _ _ Hd1.
  apply wp_bind, wp_ensured; [intros _|done]. apply wp_bind, wp_ensured; [intros _|done]. cbv zeta.
  apply wp_bind, wp_ensured; [intros [Hmax%bool_decide_eq_true Hle%bool_decide_eq_true]%andb_prop|done].
  apply wp_bind, wp_ensured; [intros [[Hpos%bool_decide_eq_true _]%andb_prop _]%andb_prop|done].
  apply wp_bind, wp_ensured; [intros _|done]. by apply wp_ret.
Qed.
Lemma read_from_wp broken digest ids limits d : octets (rest d) → 0 ≤ retained_bytes limits → 0 ≤ max_rules limits → 0 ≤ max_memory_bytes limits →
  wp (read_from_with_check broken digest ids limits) (λ x _, read_back limits ids x) (λ _ _, True) d.
Proof.
  intros Ho Hret Hrules Hmem. unfold read_from_with_check. apply wp_bind, (d_check_wp (d_budget d)); [done| |done]. intros d1 Hd1.
  apply wp_bind, wp_ensured; [intros _|done]. apply wp_bind. eapply wp_mono; [| |by apply read_header_wp]; [|done].
  intros [[[[semantic node_count] arena_len] input_rules] index_rules_] d2 [Hd2 (Hpos & Hle & Hmax)].
  apply wp_bind. eapply wp_mono; [| |by apply read_ids_wp]; [|done]. intros [] d3 [Hd3 _].
  apply wp_bind. eapply wp_mono; [| |by apply limits_budget_wp]; [|done]. intros [] d4 (Hd4 & Hbu & Hlim). apply wp_bind, on_d_budget_wp.
  apply reserve_wp; [done|by_compute| |done]. intros b5 Hb5 _ Hl5 _ d5 Hr5 Hbd5. simpl in Hbd5. apply wp_bind, on_d_budget_wp. rewrite Hbd5.
  apply grow_wp; [done|split; done|done|simpl; pose proof (budget_live _ Hb5); lia| |done].
  intros ns b6 n6 [_ [Hnc _] Hnl (Hb6 & Hl6 & _)] d6 Hr6 Hbd6. simpl in Hbd6, Hnl. apply wp_bind, on_d_budget_wp. rewrite Hbd6.
  apply grow_wp; [done|split; done|done|simpl; pose proof (budget_live _ Hb6); lia| |done].
  intros es b7 n7 [_ [Hec _] Hel (Hb7 & Hl7 & _)] d7 Hr7 Hbd7. simpl in Hbd7, Hel. apply wp_bind.
  eapply wp_mono; [| |apply (read_nodes_wp b7); split; [by rewrite Hr7 Hr6 Hr5|done]]; [|done]. intros nl d8 (Hnlen & Hnwf & Hd8).
  apply wp_bind. eapply wp_mono; [| |apply (read_chunks_wp b7); done]; [|done]. intros el d9 [_ Hd9].
  apply wp_bind. eapply wp_mono; [| |by apply (read_end_wp _ b7)]; [|done]. intros [] d10 [_ Hd10]. apply wp_bind, wp_get, wp_bind.
  eapply wp_mono; [| |apply validate_index_wp; simpl; [done|lia]]; [|done]. intros [] d11 Hrs. apply wp_ret. split; [done|done|]. simpl.
  rewrite Hd10. unfold index_bytes. simpl. pose proof (budget_live _ Hb7). pose proof (budget_live _ Hb5). pose proof (budget_peak _ Hb7).
  unfold NODE_SIZE in *. lia.
Qed.

(** C30. Whatever the stored bytes are, reading an index ends with an error or
    with an index, without a panic: no slice, node or key is out of range and
    the walk of any graph ends. An index that is accepted answers every name as
    one list of rules does ([lookup] and [block_match]); the rules are distinct,
    have well-formed keys and known sources, are as many as the header says and
    no more than the limit, and are those of the semantic digest; and the
    buffers fit in the memory that was charged for them. *)
Theorem accepted_index_answers broken digest ids limits bytes b n :
  octets bytes → 0 ≤ retained_bytes limits → 0 ≤ max_rules limits → 0 ≤ max_memory_bytes limits →
  wp (read_from_with_check broken digest ids limits) (λ x _, read_back limits ids x) (λ _ _, True) (mkDisk bytes [] b n).
Proof. intros. by apply read_from_wp. Qed.
End reading.

(** ** A stored index *)
Module DiskWitness.
Import CanonicalWitness PrepareWitness RadixWitness.
#[local] Existing Instance names.
#[local] Existing Instance names_spec.
#[local] Existing Instance host.
#[local] Existing Instance host_spec.
#[local] Existing Instance ListSlice.lib.
#[local] Existing Instance ListSlice.spec.
(** A digest of 32 bytes. *)
#[local] Instance sum : Sha256Lib := {| sha256 b := replicate 32 (foldl (λ a b, (31 * a + b) mod 256) 17 b) |}.

(** The index of the builder [two], written for the local source alone. *)
Definition input : list Z := replicate 32 7.
Definition stored : list Z :=
  match prepare_with_check two.1 (tt, 0%nat) with
  | (Ok c, _) => match build_with_check c (empty_build, 0%nat) with
                 | (Ok x, _) => (write_to x input [[]] []).2
                 | _ => []
                 end
  | _ => []
  end.
Definition start (bytes : list Z) : Disk := mkDisk bytes [] (mkBudget 0 0 0) 0.
Lemma accepted_index_answers_witness :
  ∃ x d, read_from_with_check false input [[]] default_limits (start stored) = (Ok x, d) ∧ read_back default_limits [[]] x.
Proof.
  assert (is_ok (read_from_with_check false input [[]] default_limits (start stored)).1 = true) as Hrun by by_compute.
  pose proof (accepted_index_answers false input [[]] default_limits stored (mkBudget 0 0 0) 0 ltac:(by_compute) ltac:(by_compute) ltac:(by_compute) ltac:(by_compute)) as Hw.
  destruct (read_from_with_check false input [[]] default_limits (start stored)) as [[x| | |] d] eqn:E; [|discriminate Hrun..].
  exists x, d. split; [reflexivity|]. exact (wp_result _ _ _ _ _ _ E Hw).
Defined.
(** A changed byte and a missing one are found. *)
Example changed_index : (read_from_with_check false input [[]] default_limits (start (alter (λ b, (b + 1) mod 256) 112%nat stored))).1 = Err ChecksumMismatch.
Proof. vm_compute. reflexivity. Qed.
Example truncated_index : (read_from_with_check false input [[]] default_limits (start (take 100 stored))).1 = Err Truncated.
Proof. vm_compute. reflexivity. Qed.
End DiskWitness.
