(* ===== verification/RadixStored.v ===== *)
(** * A built index and the reader's walk

    [Index::walk] of [src/policy/radix_disk.rs] checks an index node by node. An
    index that [build_with_check] made passes each check but one: the walk
    compares the slot of an exact block rule with the slot of the nearest suffix
    rule strictly above it, even where a suffix rule of the same domain stands
    between the two. *)
From S2P Require Import Prelude Std Names Canonical Prepare Radix RadixBuild RadixLookup RadixDisk RadixDiskWalk RadixDiskSafe.
Set Default Goal Selector "!".
Set Warnings "-rewrite-rw".
Local Open Scope Z_scope.
Local Open Scope rust_scope.

(** ** The rules the walk refuses *)
Definition above (rs : list Rule) (k : list Z) (c : Rule) : Prop :=
  c ∈ rs ∧ r_group c = BlockSuffix ∧ r_key c `prefix_of` k ∧ r_key c ≠ k.
Definition nearest (rs : list Rule) (k : list Z) (c : Rule) : Prop :=
  above rs k c ∧ ∀ d, above rs k d → (length (r_key d) ≤ length (r_key c))%nat.
(** An exact block rule with the slot of the nearest suffix rule strictly above
    it. *)
Definition shadowed (rs : list Rule) (f : Rule) : Prop :=
  f ∈ rs ∧ r_group f = BlockExact ∧ ∃ c, nearest rs (r_key f) c ∧ r_slot c = r_slot f.

Lemma shorter_prefix (a b k : list Z) : a `prefix_of` k → b `prefix_of` k → (length a ≤ length b)%nat → a `prefix_of` b.
Proof. apply prefix_shorter. Qed.
Lemma same_prefix (a b k : list Z) : a `prefix_of` k → b `prefix_of` k → length a = length b → a = b.
Proof. intros Ha Hb Hl. apply prefix_length_eq; [apply (shorter_prefix _ _ k)|]; auto with lia. Qed.

Section irredundant.
Context {local : Z} {classes : list Z} {rs : list Rule} (Hirr : irredundant local classes rs).
Lemma covers_same g s : covers local classes g s s = true.
Proof. unfold covers. rewrite (bool_decide_true (class_of _ s = _)) // eqb_reflx. by rewrite orb_true_r. Qed.
#[local] Instance lies_below_dec f c : Decision (lies_below f c).
Proof. unfold lies_below. apply _. Defined.
Lemma longest_below f c : c ∈ rs → lies_below f c →
  ∃ c', c' ∈ rs ∧ lies_below f c' ∧ ∀ k, k ∈ rs → lies_below f k → (length (r_key k) ≤ length (r_key c'))%nat.
Proof.
  remember (length (r_key f) - length (r_key c))%nat as m eqn:Hm. revert c Hm.
  induction m as [m IH] using lt_wf_ind. intros c -> Hc Hb.
  destruct (decide (Exists (λ k, lies_below f k ∧ (length (r_key c) < length (r_key k))%nat) rs)) as [(k & Hk & Hbk & Hlt)%Exists_exists|Hno].
  - apply (IH (length (r_key f) - length (r_key k))%nat) with k; try done. destruct Hbk as (_ & Hp%prefix_length & _). lia.
  - exists c. split_and!; [done..|]. intros k Hk Hbk. destruct (decide (length (r_key k) ≤ length (r_key c))%nat) as [|Hgt]; [done|].
    destruct Hno. apply Exists_exists. exists k. split_and!; [done..|lia].
Qed.
Lemma allow_alone f c : f ∈ rs → c ∈ rs → allow_group (r_group f) = true → ¬ lies_below f c.
Proof.
  intros Hf Hc Ha Hb. destruct (longest_below f c Hc Hb) as (c' & Hc' & Hb' & Hl). pose proof (Hirr f c' Hf Hc' Hb' Hl) as Hcov.
  unfold covers in Hcov. by destruct (r_group f).
Qed.
Lemma cover_slot f c : f ∈ rs → c ∈ rs → lies_below f c → (∀ k, k ∈ rs → lies_below f k → (length (r_key k) ≤ length (r_key c))%nat) →
  r_slot c ≠ r_slot f.
Proof. intros Hf Hc Hb Hl Hs. pose proof (Hirr f c Hf Hc Hb Hl) as Hcov. by rewrite Hs covers_same in Hcov. Qed.
(** A suffix rule never repeats the slot of the one above it. *)
Lemma suffix_slot f c : f ∈ rs → r_group f = BlockSuffix → nearest rs (r_key f) c → r_slot c ≠ r_slot f.
Proof.
  intros Hf Hg [(Hc & Hcg & Hp & Hne) Hl]. apply cover_slot; [done|done| |].
  - split_and!; [by rewrite Hg|done..].
  - intros k Hk (Hkg & Hkp & Hkn). rewrite Hg in Hkg, Hkn. apply Hl. split_and!; [done..|by apply Hkn].
Qed.
(** Nor an exact rule that of the suffix rule of its domain. *)
Lemma exact_slot f c : f ∈ rs → r_group f = BlockExact → c ∈ rs → r_group c = BlockSuffix → r_key c = r_key f → r_slot c ≠ r_slot f.
Proof.
  intros Hf Hg Hc Hcg Hk. apply cover_slot; [done|done| |].
  - split_and!; [by rewrite Hg|by rewrite Hk|by rewrite Hg].
  - intros k _ (_ & Hp%prefix_length & _). by rewrite Hk.
Qed.
(** So a refused rule has a suffix rule of its own domain and another slot. *)
Lemma shadowed_twin f : shadowed rs f → ∃ s, s ∈ rs ∧ r_group s = BlockSuffix ∧ r_key s = r_key f ∧ r_slot s ≠ r_slot f.
Proof.
  intros (Hf & Hg & c & [(Hc & Hcg & Hp & Hne) Hl] & Hs).
  destruct (decide (Exists (λ s, r_group s = BlockSuffix ∧ r_key s = r_key f) rs)) as [(s & Hin & Hsg & Hk)%Exists_exists|Hno].
  - exists s. split_and!; [done..|]. by apply exact_slot.
  - destruct (cover_slot f c); [done|done| | |done].
    + split_and!; [by rewrite Hg|done|by rewrite Hg].
    + intros k Hk (Hkg & Hkp & _). rewrite Hg in Hkg. apply Hl. split_and!; [done..|]. intros He. apply Hno, Exists_exists. by exists k.
Qed.
End irredundant.

(** ** Depth-first orders *)
Lemma dfs_start ns o a e st : dfs ns o a e st → 0%nat ∈ o.
Proof. induction 1; set_solver. Qed.
Definition open_children (ns : list Node) (st : list (nat * nat)) : nat :=
  sum_list_with (λ ij, Z.to_nat (child_count (default node_empty (ns !! ij.1))) - ij.2)%nat st.
Lemma dfs_count ns o a e st : dfs ns o a e st → (length o + open_children ns st = a)%nat.
Proof.
  induction 1 as [n Hn _ _ _ _|o a e i j st n c _ IH Hn Hj Hc _ _|o a e i j st n _ IH Hn Hj]; unfold open_children in *; simpl in *.
  - rewrite Hn /=. lia.
  - rewrite Hn /= in IH |- *. rewrite Hc length_app /=. lia.
  - rewrite Hn /= in IH. lia.
Qed.
Lemma dfs_depth ns o a e st : dfs ns o a e st → (length st ≤ length o)%nat ∧ (1 ≤ length o)%nat.
Proof. induction 1; rewrite ?length_app; simpl in *; lia. Qed.
(** Every child of a node that was reached is reached, or still waits. *)
Lemma dfs_closed ns o a e st i n j : dfs ns o a e st → i ∈ o → ns !! i = Some n → Z.of_nat j < child_count n →
  (Z.to_nat (first_child n) + j)%nat ∈ o ∨ ∃ j', (i, j') ∈ st ∧ (j' ≤ j)%nat.
Proof.
  intros Hd. revert i n j. induction Hd as [m Hm _ _ _ _|o a e i0 j0 st m c _ IH Hm Hj0 Hc _ _|o a e i0 j0 st m _ IH Hm Hj0]; intros i n j Hi Hn Hj.
  - apply list_elem_of_singleton in Hi as ->. right. exists O. split; [left|lia].
  - apply elem_of_snoc in Hi as [Hi| ->]; [|right; exists O; split; [left|lia]].
    destruct (IH i n j Hi Hn Hj) as [Hin|(j' & Hin & Hle)]; [left; set_solver|]. apply elem_of_cons in Hin as [[= -> ->]|Hin].
    + assert (m = n) as -> by congruence. destruct (decide (j = j0)) as [->|]; [left; set_solver|]. right. exists (S j0). split; [right; left|lia].
    + right. exists j'. split; [by do 2 right|done].
  - destruct (IH i n j Hi Hn Hj) as [Hin|(j' & Hin & Hle)]; [by left|]. apply elem_of_cons in Hin as [[= -> ->]|Hin].
    + assert (m = n) as -> by congruence. lia.
    + right. by exists j'.
Qed.
(** Every index that was handed out is reached, or still waits. *)
Lemma dfs_alloc ns o a e st k : dfs ns o a e st → (k < a)%nat →
  k ∈ o ∨ ∃ i j n, (i, j) ∈ st ∧ ns !! i = Some n ∧ (Z.to_nat (first_child n) + j ≤ k < Z.to_nat (first_child n) + Z.to_nat (child_count n))%nat.
Proof.
  intros Hd. revert k. induction Hd as [m Hm Hf _ _ _|o a e i0 j0 st m c _ IH Hm Hj0 Hc Hf _|o a e i0 j0 st m _ IH Hm Hj0]; intros k Hk.
  - destruct k as [|k]; [left; left|right]. exists O, O, m. split; [left|]. split; [done|]. lia.
  - destruct (decide (k < a)%nat) as [Hlt|Hge].
    + destruct (IH k Hlt) as [Hin|(i & j & n & Hin & Hn & Hr)]; [left; set_solver|]. apply elem_of_cons in Hin as [[= -> ->]|Hin].
      * assert (m = n) as -> by congruence. destruct (decide (k = Z.to_nat (first_child n) + j0)%nat) as [->|]; [left; set_solver|].
        right. exists i0, (S j0), n. split; [right; left|]. split; [done|lia].
      * right. exists i, j, n. split; [by do 2 right|done].
    + right. exists (Z.to_nat (first_child m) + j0)%nat, O, c. split; [left|]. split; [done|]. lia.
  - destruct (IH k Hk) as [Hin|(i & j & n & Hin & Hn & Hr)]; [by left|]. apply elem_of_cons in Hin as [[= -> ->]|Hin].
    + assert (m = n) as -> by congruence. lia.
    + right. by exists i, j, n.
Qed.
Lemma dfs_values ns o a e st i n : dfs ns o a e st → i ∈ o → ns !! i = Some n → 0 ≤ edge_offset n ∧ (i = O → edge_offset n = 0 ∧ edge_len n = 0 ∧ first_byte n = 0).
Proof.
  intros Hd. pose proof (dfs_start _ _ _ _ _ Hd). revert i n. induction Hd as [m Hm Hf Ho Hl Hb|o a e i0 j0 st m c Hd IH Hm Hj0 Hc Hf He|o a e i0 j0 st m Hd IH Hm Hj0]; intros i n Hi Hn.
  - apply list_elem_of_singleton in Hi as ->. assert (m = n) as -> by congruence. split; [lia|done].
  - apply elem_of_snoc in Hi as [Hi| ->]; [apply IH; [by eapply dfs_start|done..]|]. assert (c = n) as -> by congruence.
    split; [lia|]. intros Hz. destruct (dfs_reached _ _ _ _ _ Hd) as (_ & Hr & Hin). destruct (Hr i0) as (m' & Hm' & Hm1); [apply (Hin _ j0); left|].
    assert (m = m') as <- by congruence. lia.
  - by apply IH.
Qed.

(** ** Keys and orders the walk accepts *)
Lemma label_key_char b : label_byte b = true → to_ascii_lowercase b = b → key_char b = true.
Proof. unfold key_char, label_byte, is_ascii_alphanumeric, to_ascii_lowercase. repeat case_bool_decide; simpl; try done; lia. Qed.
Lemma validate_labels_total {S} fuel : ∀ ls (s : S), Forall rule_label ls → (length (encode ls) < fuel)%nat →
  wp (validate_labels fuel (encode ls)) (λ _ s', s' = s) (λ _ _, False) s.
Proof.
  induction fuel as [|fuel IH]; intros ls s Hls Hf; [lia|]. cbn [validate_labels]. destruct ls as [|l ls]; [by apply wp_ret|]. simpl in Hf |- *.
  apply Forall_cons in Hls as [[Hl Hc] Hls]. rewrite length_app in Hf.
  apply wp_bind, wp_ensured; [intros _|rewrite bool_decide_eq_false; lia]. rewrite Nat2Z.id.
  apply wp_bind. unfold slice. rewrite bool_decide_true; [|rewrite length_app; lia]. rewrite Nat.sub_0_r drop_0 take_app_length.
  apply wp_ret, wp_bind, wp_ensured; [intros _|].
  - rewrite drop_app_length. apply IH; [done|lia].
  - intros Hno. exfalso. apply not_true_iff_false in Hno. apply Hno, forallb_forall. intros b Hb%list_elem_of_In.
    destruct (proj1 (Forall_forall _ _) Hc b Hb) as [?%Is_true_true ?]. by apply label_key_char.
Qed.
Lemma validate_key_total {S} k (s : S) : wf_key k → wp (validate_key k) (λ _ s', s' = s) (λ _ _, False) s.
Proof.
  intros (ls & -> & Hne & Hls & _). apply wp_bind, wp_ensured; [intros _|].
  - apply validate_labels_total; [done|lia].
  - rewrite negb_false_iff bool_decide_eq_true. by destruct ls.
Qed.
Lemma sorted_increasing l : StronglySorted Z.lt l → increasing l = true.
Proof.
  induction 1 as [|a l Hs IH Ha]; [done|]. destruct l as [|b l]; [done|]. cbn [increasing]. apply Forall_inv in Ha.
  by rewrite bool_decide_true.
Qed.
Lemma copy_take key from edge : (from + length edge ≤ length key)%nat →
  take (from + length edge) (copy_into key from edge) = take from key ++ edge ∧ length (copy_into key from edge) = length key.
Proof.
  intros Hle. unfold copy_into. split.
  - rewrite app_assoc take_app_le; [|rewrite length_app length_take_le; lia]. apply take_ge. rewrite length_app length_take_le; lia.
  - rewrite !length_app length_take_le; [|lia]. rewrite length_drop. lia.
Qed.

(** ** The nodes of a built index *)
Section built.
Context (x : Index) (ar : list Z) (recs : list Record_) (labels : list (option (list Z * list Record_))).
Notation v := (mkView (items (nodes x)) (items (edges x)) labels).
Notation kf := (key_of ar).
Notation rof := (rule_of ar).
Notation slot r := (source_slot (entry r)).
Context (Hb : built_view ar recs v) (Hok : Forall (record_ok ar) recs).
Context (Huniq : NoDup ((λ r, (group r, kf r)) <$> recs)).

(** The label of a node, and all the rules below it. *)
Record at_label (i : nat) (p : list Z) (rs : list Record_) : Prop := {
  al_label : labels !! i = Some (Some (p, rs));
  al_full r : r ∈ recs → p `prefix_of` kf r → r ∈ rs;
}.
Lemma root_label : at_label 0 [] recs.
Proof. split; [apply Hb|done]. Qed.
Lemma label_in i p rs r : at_label i p rs → r ∈ rs → r ∈ recs ∧ p `prefix_of` kf r.
Proof.
  intros [Hl _] Hr. destruct (cp_label _ _ _ (bv_complete _ _ _ Hb) _ _ _ Hl) as (Hp & _ & Hin).
  rewrite Forall_forall in Hp. auto.
Qed.
Lemma label_node i p rs : at_label i p rs → ∃ n ts kss, opened_at ar v i p rs (Z.to_nat (first_child n)) [] n ts kss.
Proof.
  intros [Hl _]. destruct (cp_opened _ _ _ (bv_complete _ _ _ Hb) _ _ _ Hl) as (fc & j & n & ts & kss & Ho & _).
  exists n, ts, kss. by rewrite (op_first _ _ _ _ _ _ _ _ _ _ Ho).
Qed.

Section node.
Context {i : nat} {p : list Z} {rs : list Record_} {n : Node} {ts : list Record_} {kss : list (list Record_)}.
Context (Hal : at_label i p rs) (Ho : opened_at ar v i p rs (Z.to_nat (first_child n)) [] n ts kss).
Lemma node_count : child_count n = Z.of_nat (length kss).
Proof. rewrite (op_count _ _ _ _ _ _ _ _ _ _ Ho) /=. lia. Qed.
Lemma node_rules_split r : r ∈ rs ↔ r ∈ ts ∨ ∃ j ks, kss !! j = Some ks ∧ r ∈ ks.
Proof.
  rewrite (op_split _ _ _ _ _ _ _ _ _ _ Ho) app_nil_r elem_of_app list_elem_of_join. split; (intros [|H1]; [by left|right]).
  - destruct H1 as (ks & Hr & [j Hj]%list_elem_of_lookup). eauto.
  - destruct H1 as (j & ks & Hj%list_elem_of_lookup_2 & Hr). eauto.
Qed.
Lemma node_ends r : r ∈ recs → kf r = p ↔ r ∈ ts.
Proof.
  intros Hr. pose proof (op_ends _ _ _ _ _ _ _ _ _ _ Ho) as Hts. pose proof (op_longer _ _ _ _ _ _ _ _ _ _ Ho) as Hlong.
  rewrite Forall_forall in Hts. rewrite app_nil_r Forall_forall in Hlong. split; [|apply Hts]. intros Hk.
  assert (r ∈ rs) as [|(j & ks & Hj & Hin)]%node_rules_split; [by apply Hal; rewrite ?Hk|done|].
  assert (length p < length (kf r))%nat as Hlt; [|rewrite Hk in Hlt; lia]. apply Hlong, list_elem_of_join. exists ks. split; [done|]. by eapply list_elem_of_lookup_2.
Qed.
Lemma node_ts r : r ∈ ts → r ∈ recs ∧ kf r = p.
Proof.
  intros Hr. assert (r ∈ recs) as Hin by (by apply (label_in i p rs), node_rules_split; [|left]). split; [done|]. by apply node_ends.
Qed.
(** The slots of a node are those of the rules with its key. *)
Lemma slot_rule g s : sources n !! group_index g = Some s → s ≠ NONE → ∃ r, r ∈ recs ∧ group r = g ∧ kf r = p ∧ slot r = s.
Proof.
  intros Hs Hne. destruct (proj2 (op_sources _ _ _ _ _ _ _ _ _ _ Ho) g) as (s' & Hs' & _ & Hsome). rewrite Hs in Hs'. injection Hs' as <-.
  destruct (Hsome Hne) as (r & Hr & Hg & Hsl). destruct (node_ts r Hr) as [Hin Hk]. by exists r.
Qed.
Lemma rule_slot r : r ∈ recs → kf r = p → sources n !! group_index (group r) = Some (slot r).
Proof.
  intros Hr Hk. destruct (proj2 (op_sources _ _ _ _ _ _ _ _ _ _ Ho) (group r)) as (s & Hs & Hnone & Hsome).
  destruct (decide (s = NONE)) as [->|Hne]; [destruct (Hnone eq_refl r); [by apply node_ends|done]|].
  destruct (Hsome Hne) as (r' & Hr' & Hg & Hsl). destruct (node_ts r' Hr') as [Hin Hk'].
  assert (r' = r) as ->; [|by rewrite Hsl]. apply (nodup_unique ar recs); [done..|]. by rewrite Hk Hk'.
Qed.
(** The rules that go on with the first byte of a child are below it. *)
Lemma kid_full j ks c edge b r : kss !! j = Some ks → items (nodes x) !! (Z.to_nat (first_child n) + j)%nat = Some c →
  head edge = Some b → labels !! (Z.to_nat (first_child n) + j)%nat = Some (Some (p ++ edge, ks)) → ks ≠ [] →
  r ∈ recs → p ++ [b] `prefix_of` kf r → r ∈ ks.
Proof.
  intros Hj Hc Hh Hl Hne Hr Hp. assert (p `prefix_of` kf r) as Hpr by (by etrans; [apply prefix_app_r|]).
  assert (length p < length (kf r))%nat as Hlong by (apply prefix_length in Hp; rewrite length_app /= in Hp; lia).
  assert (r ∈ rs) as [Hts|(j' & ks' & Hj' & Hin)]%node_rules_split; [by apply Hal|apply node_ts in Hts as [_ Hk]; rewrite Hk in Hlong; lia|].
  destruct (cp_label _ _ _ (bv_complete _ _ _ Hb) _ _ _ Hl) as (Hpre & _ & _). rewrite Forall_forall in Hpre.
  destruct ks as [|r0 ks0]; [done|]. pose proof (Hpre r0 ltac:(left)) as H0.
  assert (nb ar (length p) r0 = b) as Hb0 by (by apply (nb_prefix ar p edge)).
  assert (nb ar (length p) r = b) as Hbr by (by apply (nb_prefix ar p [b])).
  pose proof (op_sorted _ _ _ _ _ _ _ _ _ _ Ho) as Hs. apply StronglySorted_app_1_l in Hs.
  destruct (lt_eq_lt_dec j j') as [[Hlt|<-]|Hlt]; [|by congruence|]; exfalso.
  - pose proof (StronglySorted_lookup_lt _ _ _ _ _ _ Hs Hlt Hj Hj' r0 r ltac:(left) Hin). lia.
  - pose proof (StronglySorted_lookup_lt _ _ _ _ _ _ Hs Hlt Hj' Hj r r0 Hin ltac:(left)). lia.
Qed.
(** A child: its label, and no rule ends on the way to it. *)
Lemma child_label j : (j < length kss)%nat → ∃ c edge ks, let k := (Z.to_nat (first_child n) + j)%nat in
  items (nodes x) !! k = Some c ∧ edge_of c (items (edges x)) = Some edge ∧ head edge = Some (first_byte c) ∧ at_label k (p ++ edge) ks ∧ ks ≠ [] ∧
  ∀ r, r ∈ recs → kf r `prefix_of` p ++ edge → kf r `prefix_of` p ∨ kf r = p ++ edge.
Proof.
  intros [ks Hj]%lookup_lt_is_Some_2. destruct (op_kids _ _ _ _ _ _ _ _ _ _ Ho _ _ Hj) as (c & edge & Hc & He & Hh & Hl & Hne). simpl in Hc, He, Hl.
  exists c, edge, ks. destruct edge as [|b edge]; [done|]. injection Hh as <-.
  assert (∀ r, r ∈ recs → p ++ [b] `prefix_of` kf r → r ∈ ks) as Hfull by (intros r; by apply (kid_full j ks c (b :: edge))).
  split_and!; [done..| |done|].
  - split; [done|]. intros r Hr Hp. apply Hfull; [done|]. etrans; [|exact Hp]. apply prefix_app. by exists edge.
  - intros r Hr Hp. destruct (decide (length (kf r) ≤ length p)%nat) as [Hle|Hgt].
    { left. apply (shorter_prefix _ _ (p ++ b :: edge)); [done|by apply prefix_app_r|done]. }
    right. assert (p ++ [b] `prefix_of` kf r) as Hpb.
    { apply (shorter_prefix _ _ (p ++ b :: edge)); [|done|rewrite length_app /=; lia]. apply prefix_app. by exists edge. }
    destruct (cp_label _ _ _ (bv_complete _ _ _ Hb) _ _ _ Hl) as (Hpre & _ & _). rewrite Forall_forall in Hpre.
    pose proof (prefix_length _ _ (Hpre r (Hfull r Hr Hpb))). pose proof (prefix_length _ _ Hp). apply prefix_length_eq; [done|lia].
Qed.
End node.

(** ** The checks at a node *)
Context {H : Host} (source_count : nat) (Hsrc : Forall (λ r, slot r < Z.of_nat source_count) recs).
Context (local : Z) (classes : list Z) (Hirr : irredundant local classes (rof <$> recs)).
Notation rules := (rof <$> recs).
(** What a frame knows of the suffix rules strictly above its node. *)
Record knows (f : WalkFrame) (p : list Z) : Prop := {
  kn_allow : allow_above f = true → ∃ c, c ∈ rules ∧ r_group c = AllowSuffix ∧ r_key c `prefix_of` p ∧ r_key c ≠ p;
  kn_none : block_suffix f = NONE → ∀ c, ¬ above rules p c;
  kn_some : block_suffix f ≠ NONE → ∃ c, nearest rules p c ∧ r_slot c = block_suffix f;
}.
Definition clean (p : list Z) : Prop := ∀ r, r ∈ rules → r_key r = p → ¬ shadowed rules r.
(** The walk ends with an error: the caller's check, or a refused rule. *)
Definition refused (e : DiskError) : Prop := (∃ c, e = FromCheck c) ∨ e = RedundantSuffix ∧ ∃ f, shadowed rules f.

Lemma check_source_wp {S} g s rest nd f (w : S) (Q : unit → S → Prop) (R : DiskError → S → Prop) :
  s = NONE ∨ s < Z.of_nat source_count →
  (s ≠ NONE → (g < 2)%nat → allow_above f = false ∧ (g = O ∨ sources nd !! 0%nat = Some NONE)) →
  (s ≠ NONE → (2 ≤ g)%nat → (block_suffix f = s → R RedundantSuffix w) ∧ (g = 2%nat ∨ sources nd !! 2%nat ≠ Some s)) →
  ((s ≠ NONE → (2 ≤ g)%nat → block_suffix f ≠ s) → wp (check_sources (Datatypes.S g) rest nd f source_count) Q R w) →
  wp (check_sources g (s :: rest) nd f source_count) Q R w.
Proof.
  intros Hs H0 H2 Hrest. cbn [check_sources]. apply wp_bind, wp_ensured; [intros _|].
  2: { rewrite orb_false_iff !bool_decide_eq_false. tauto. }
  apply wp_bind. case_bool_decide as Hn; [apply wp_ret, Hrest; tauto|]. case_bool_decide as Hg.
  - destruct (H0 Hn Hg) as [Ha Hz]. apply wp_bind, wp_ensured; [intros _|by rewrite Ha]. apply wp_ensured; [intros _; apply Hrest; lia|].
    rewrite orb_false_iff !bool_decide_eq_false. tauto.
  - destruct (H2 Hn ltac:(lia)) as [Hr Hz]. apply wp_bind, wp_ensured; [|intros Hb1%negb_false_iff%bool_decide_eq_true; auto].
    intros Hb1%negb_true_iff%bool_decide_eq_false. apply wp_ensured; [intros _; apply Hrest; auto|].
    rewrite orb_false_iff negb_false_iff bool_decide_eq_false bool_decide_eq_true. tauto.
Qed.
Lemma rule_in r : r ∈ recs → rof r ∈ rules.
Proof. apply list_elem_of_fmap_2. Qed.
Lemma nearest_slot k c d : nearest rules k c → nearest rules k d → r_slot c = r_slot d.
Proof.
  intros [(Hc & Hcg & Hcp & Hcn) Hcl] [(Hd & Hdg & Hdp & Hdn) Hdl].
  assert (r_key c = r_key d) as Hk.
  { apply (same_prefix _ _ k); [done..|]. assert (length (r_key c) ≤ length (r_key d))%nat by (by apply Hdl). assert (length (r_key d) ≤ length (r_key c))%nat by (by apply Hcl). lia. }
  apply list_elem_of_fmap in Hc as (rc & -> & Hc), Hd as (rd & -> & Hd). simpl in *.
  by rewrite (nodup_unique ar recs rc rd Huniq Hc Hd); [|congruence|].
Qed.
Lemma check_node_wp {S} i p rs nd ts kss f (w : S) : at_label i p rs → opened_at ar v i p rs (Z.to_nat (first_child nd)) [] nd ts kss → knows f p →
  wp (check_sources 0 (sources nd) nd f source_count) (λ _ w', w' = w ∧ clean p) (λ e _, refused e) w.
Proof.
  intros Hal Ho [Hka Hkn Hks]. destruct (op_sources _ _ _ _ _ _ _ _ _ _ Ho) as [Hlen _].
  pose proof (λ g s, slot_rule Hal Ho g s) as Hrule.
  destruct (sources nd) as [|s0 [|s1 [|s2 [|s3 [|]]]]] eqn:Hss; try done. rewrite -Hss in Hrule.
  assert (∀ g s, sources nd !! group_index g = Some s → s = NONE ∨ s < Z.of_nat source_count) as Hslots.
  { intros g s Hs. destruct (decide (s = NONE)) as [|Hne]; [by left|right]. destruct (Hrule g s Hs Hne) as (r & Hr & _ & _ & <-).
    by apply (proj1 (Forall_forall _ _) Hsrc). }
  assert (∀ g s, allow_group g = true → sources nd !! group_index g = Some s → s ≠ NONE → allow_above f = false) as Hallow.
  { intros g s Hg Hs Hne. destruct (Hrule g s Hs Hne) as (r & Hr & Hrg & Hrk & _). apply not_true_is_false. intros (c & Hc & Hcg & Hcp & Hcn)%Hka.
    apply (allow_alone Hirr (rof r) c); [by apply rule_in|done|by rewrite /= Hrg|]. split_and!; [|by rewrite /= Hrk|by rewrite /= Hrk].
    rewrite Hcg /= Hrg. by destruct g. }
  rewrite Hss in Hslots, Hallow, Hrule.
  apply check_source_wp; [by apply (Hslots AllowSuffix)|intros Hne _; split; [by apply (Hallow AllowSuffix s0)|by left]|lia|intros _].
  apply check_source_wp; [by apply (Hslots AllowExact)| |lia|intros _].
  { intros Hne _. split; [by apply (Hallow AllowExact s1)|]. right. rewrite Hss /=. destruct (decide (s0 = NONE)) as [->|Hne0]; [done|].
    destruct (Hrule AllowExact s1 eq_refl Hne) as (r & Hr & Hrg & Hrk & _). destruct (Hrule AllowSuffix s0 eq_refl Hne0) as (c & Hc & Hcg & Hck & _).
    destruct (allow_alone Hirr (rof r) (rof c)); [by apply rule_in|by apply rule_in|by rewrite /= Hrg|]. split_and!; [by rewrite /= Hrg Hcg|by rewrite /= Hck Hrk|by rewrite /= Hrg]. }
  apply check_source_wp; [by apply (Hslots BlockSuffix)|lia| |intros _].
  { intros Hne _. split; [|by left]. intros Hbs. destruct (Hrule BlockSuffix s2 eq_refl Hne) as (r & Hr & Hrg & Hrk & Hrs).
    destruct Hks as (c & Hc & Hcs); [congruence|]. destruct (suffix_slot Hirr (rof r) c); [by apply rule_in|done|by rewrite /= Hrk|]. simpl. congruence. }
  apply check_source_wp; [by apply (Hslots BlockExact)|lia| |].
  { intros Hne _. destruct (Hrule BlockExact s3 eq_refl Hne) as (r & Hr & Hrg & Hrk & Hrs). split.
    - intros Hbs. right. split; [done|]. destruct Hks as (c & Hc & Hcs); [congruence|]. exists (rof r). split_and!; [by apply rule_in|done|].
      exists c. simpl. rewrite Hrk. split; [done|congruence].
    - right. rewrite Hss /=. intros [= Hs2]. subst s2. destruct (Hrule BlockSuffix s3 eq_refl Hne) as (c & Hc & Hcg & Hck & Hcs).
      destruct (exact_slot Hirr (rof r) (rof c)); try (by apply rule_in); try done; simpl; congruence. }
  intros Hlast. apply wp_ret. split; [done|]. intros ? (r & -> & Hr)%list_elem_of_fmap Hk (_ & Hg & c & Hc & Hs). simpl in Hk, Hg, Hc, Hs.
  pose proof (rule_slot Hal Ho r Hr Hk) as H3. rewrite Hss Hg in H3. injection H3 as ->.
  pose proof (proj2 (proj2 (proj1 (Forall_forall _ _) Hok r Hr))) as Hb3. unfold NONE in *. rewrite Hk in Hc. destruct (decide (block_suffix f = u16_max)) as [Hz|Hz].
  - apply (Hkn Hz c). apply Hc.
  - destruct (Hks Hz) as (d & Hd & Hds). apply Hlast; [lia|lia|]. rewrite -Hds -Hs. by apply (nearest_slot p).
Qed.

(** ** Entering a node *)
Lemma terminal_rule i p rs nd ts kss : at_label i p rs → opened_at ar v i p rs (Z.to_nat (first_child nd)) [] nd ts kss →
  (terminal nd = true → ∃ r, r ∈ recs ∧ kf r = p) ∧ (terminal nd = false → ts = []).
Proof.
  intros Hal Ho. destruct (op_sources _ _ _ _ _ _ _ _ _ _ Ho) as [Hlen Hg]. unfold terminal. split.
  - intros (s & [j Hj]%list_elem_of_In%list_elem_of_lookup & Hs%negb_true_iff%bool_decide_eq_false)%existsb_exists.
    assert (∃ g, group_index g = j) as [g <-].
    { apply lookup_lt_Some in Hj. rewrite Hlen in Hj. destruct j as [|[|[|[|]]]]; [by exists AllowSuffix|by exists AllowExact|by exists BlockSuffix|by exists BlockExact|lia]. }
    destruct (slot_rule Hal Ho g s Hj Hs) as (r & ? & _ & ? & _). by exists r.
  - intros Hno. destruct ts as [|r ts]; [done|]. exfalso. apply not_true_iff_false in Hno. apply Hno, existsb_exists.
    destruct (node_ts Hal Ho r ltac:(left)) as [Hr Hk]. exists (slot r). split; [eapply list_elem_of_In, list_elem_of_lookup_2, (rule_slot Hal Ho r Hr Hk)|].
    apply negb_true_iff, bool_decide_eq_false. destruct (proj1 (Forall_forall _ _) Hok r Hr) as (_ & _ & Hs). unfold NONE. lia.
Qed.
Lemma key_fits r : r ∈ recs → wf_key (kf r) ∧ (length (kf r) ≤ KEY_BUFFER)%nat.
Proof. intros Hr. destruct (proj1 (Forall_forall _ _) Hok r Hr) as (_ & Hwf & _). split; [done|]. by destruct Hwf as (ls & _ & _ & _ & Hl). Qed.
(** The bytes of the children: increasing octets. *)
Lemma kid_bytes i p rs nd ts kss : at_label i p rs → opened_at ar v i p rs (Z.to_nat (first_child nd)) [] nd ts kss → ∃ kids,
  slice (items (nodes x)) (Z.to_nat (first_child nd)) (Z.to_nat (first_child nd) + length kss) = Some kids ∧
  StronglySorted Z.lt (first_byte <$> kids) ∧ (length kss ≤ 256)%nat.
Proof.
  intros Hal Ho. pose proof (op_range _ _ _ _ _ _ _ _ _ _ Ho) as Hr. simpl in Hr.
  set (fc := Z.to_nat (first_child nd)) in *. exists (take (length kss) (drop fc (items (nodes x)))).
  assert (∀ j c, (take (length kss) (drop fc (items (nodes x)))) !! j = Some c → items (nodes x) !! (fc + j)%nat = Some c ∧ (j < length kss)%nat) as Hlook.
  { intros j c Hc. apply lookup_take_Some in Hc as [Hc Hlt]. by rewrite lookup_drop in Hc. }
  assert (length (take (length kss) (drop fc (items (nodes x)))) = length kss) as Hlen by (rewrite length_take length_drop; lia).
  assert (StronglySorted Z.lt (first_byte <$> take (length kss) (drop fc (items (nodes x))))) as Hs.
  { apply StronglySorted_lookups. intros j1 j2 b1 b2 Hj (c1 & -> & [H1 _]%Hlook)%list_lookup_fmap_Some_1 (c2 & -> & [H2 Hl2]%Hlook)%list_lookup_fmap_Some_1.
    by apply (kid_order x ar recs labels (bv_complete _ _ _ Hb) [] (Nat.le_0_l _) i p rs fc nd ts kss j1 j2). }
  split_and!; [|done|].
  - unfold slice. rewrite bool_decide_true; [|lia]. by replace (fc + length kss - fc)%nat with (length kss) by lia.
  - rewrite -Hlen -(length_fmap first_byte). apply increasing_bytes; [done|]. apply Forall_forall. intros b [j Hj]%list_elem_of_lookup.
    apply list_lookup_fmap_Some_1 in Hj as (c & -> & [Hc Hlt]%Hlook). destruct (lookup_lt_is_Some_2 kss j Hlt) as [ks Hks].
    destruct (kid_byte x ar recs labels (bv_complete _ _ _ Hb) i p rs fc nd ts kss j ks c Ho Hks Hc) as (r & Hr1 & <-).
    assert (r ∈ mjoin kss) as Hin by (apply list_elem_of_join; exists ks; split; [done|by eapply list_elem_of_lookup_2]).
    pose proof (op_longer _ _ _ _ _ _ _ _ _ _ Ho) as Hlong. rewrite app_nil_r Forall_forall in Hlong.
    assert (r ∈ recs) as Hrec. { apply (label_in i p rs); [done|]. apply (node_rules_split Ho). right. by exists j, ks. }
    apply (wf_key_bytes (kf r)); [by apply key_fits|]. eapply list_elem_of_lookup_2, nb_in, Hlong, Hin.
Qed.
Lemma node_live i p rs nd ts kss : at_label i p rs → opened_at ar v i p rs (Z.to_nat (first_child nd)) [] nd ts kss → i ≠ O → rs ≠ [] →
  terminal nd = true ∨ 2 ≤ child_count nd.
Proof.
  intros Hal Ho Hi Hne. destruct (terminal_rule _ _ _ _ _ _ Hal Ho) as [_ Hend]. destruct (terminal nd); [by left|right]. specialize (Hend eq_refl).
  rewrite (node_count Ho). pose proof (op_split _ _ _ _ _ _ _ _ _ _ Ho) as Hrs. rewrite Hend app_nil_r /= in Hrs.
  destruct kss as [|ks [|ks' kss]]; simpl in *; [done| |lia]. exfalso. rewrite app_nil_r in Hrs. subst ks.
  destruct (child_label Hal Ho 0) as (c & edge & ks & _ & _ & Hh & Hkl & _ & _); [simpl; lia|]. simpl in Hkl.
  destruct (op_kids _ _ _ _ _ _ _ _ _ _ Ho 0%nat rs eq_refl) as (c' & edge' & _ & _ & _ & Hl' & _). simpl in Hl'.
  rewrite (al_label _ _ _ Hkl) in Hl'. injection Hl' as _ ->.
  pose proof (bv_shared _ _ _ Hb i p rs Hi (al_label _ _ _ Hal) (p ++ edge)) as Hsh. rewrite length_app in Hsh.
  assert (0 < length edge)%nat by (destruct edge; simpl in *; [done|lia]).
  assert (length p + length edge ≤ length p)%nat; [|lia]. apply Hsh, Forall_forall. intros r Hr. by apply (label_in _ _ _ _ Hkl).
Qed.

Section simulation.
Context {T : Type} (visit : T → list Z → list Z → T).
Notation step := (walk_step x source_count visit).
Notation N := (length (items (nodes x))).
Implicit Types (w : Walk T) (f : WalkFrame).
Record entering f (i : nat) (p : list Z) (nd : Node) w : Prop := {
  en_index : w_node f = i;
  en_length : (prefix_len f + Z.to_nat (edge_len nd))%nat = length p;
  en_buffer : length (w_key w) = KEY_BUFFER;
  en_root : i = O → p = [];
  en_edge : i ≠ O → ∃ edge, edge_of nd (items (edges x)) = Some edge ∧ head edge = Some (first_byte nd) ∧
    p = take (prefix_len f) (w_key w) ++ edge ∧ edge_offset nd = Z.of_nat (next_edge w);
  en_alloc : first_child nd = Z.of_nat (next_allocation w);
}.
Record walked (i : nat) (p : list Z) (nd : Node) w w1 : Prop := {
  wk_key : take (length p) (w_key w1) = p;
  wk_buffer : length (w_key w1) = KEY_BUFFER;
  wk_alloc : next_allocation w1 = (next_allocation w + Z.to_nat (child_count nd))%nat;
  wk_edge : next_edge w1 = (next_edge w + (if decide (i = O) then O else Z.to_nat (edge_len nd)))%nat;
  wk_visited : visited w1 = S (visited w);
}.
Lemma check_turn_wp w : wp (if bool_decide (visited w mod 4096 = 0)%nat then v_check else ret tt)
  (λ _ w1, ∃ t, w1 = mkWalk (w_key w) (next_allocation w) (next_edge w) (visited w) t (gathered w)) (λ e _, refused e) w.
Proof.
  destruct (bool_decide _); [|apply wp_ret; exists (w_ticks w); by destruct w]. unfold wp, v_check.
  destruct (check_result _) as [c|]; [left; by exists c|by eexists].
Qed.
Lemma take_edge_built f i p nd w : entering f i p nd w → i ≠ O → (length p ≤ KEY_BUFFER)%nat →
  wp (take_edge x f nd) (λ _ w1, ∃ key, w1 = mkWalk key (next_allocation w) (next_edge w + Z.to_nat (edge_len nd)) (visited w) (w_ticks w) (gathered w) ∧
    length key = KEY_BUFFER ∧ take (length p) key = p) (λ _ _, False) w.
Proof.
  intros [Hi Hl Hk _ He _] Hne Hfit. destruct (He Hne) as (edge & Hedge & Hh & Hp & Ho). unfold take_edge, edge_of in *.
  assert (length edge = Z.to_nat (edge_len nd)) as Hel.
  { unfold slice in Hedge. case_bool_decide; [|done]. injection Hedge as <-. rewrite length_take length_drop. lia. }
  assert (0 < length edge)%nat as Hpos by (destruct edge; simpl in *; [done|lia]).
  rewrite Ho Nat2Z.id in Hedge |- *. apply wp_bind, wp_get, wp_bind, wp_ensured; [intros _|].
  2: { rewrite andb_false_iff negb_false_iff bool_decide_eq_true bool_decide_eq_false. intros [Hz|Hz]; [rewrite Hz in Hel; simpl in Hel; lia|lia]. }
  apply wp_bind. rewrite Hedge. apply wp_ret. eapply wp_bind, wp_expect; [exact Hh|]. apply wp_bind, wp_ensured; [intros _|by rewrite bool_decide_eq_false].
  apply wp_put. eexists. split; [reflexivity|]. destruct (copy_take (w_key w) (prefix_len f) edge) as [Ht Hlk]; [lia|].
  split; [by rewrite Hlk|]. by rewrite -Hl -Hel Ht.
Qed.
Lemma enter_built i p rs nd ts kss f w : at_label i p rs → opened_at ar v i p rs (Z.to_nat (first_child nd)) [] nd ts kss → knows f p →
  entering f i p nd w → (i ≠ O → rs ≠ []) →
  wp (enter x source_count visit f nd (prefix_len f + Z.to_nat (edge_len nd))%nat) (λ _ w1, walked i p nd w w1 ∧ clean p) (λ e _, refused e) w.
Proof.
  intros Hal Ho Hkn Hen Hne. pose proof Hen as [Hi Hl Hk Hroot _ Halloc].
  assert (length p ≤ KEY_BUFFER)%nat as Hfit.
  { destruct (decide (i = O)) as [->|Hi0]; [by rewrite Hroot //=; lia|]. specialize (Hne Hi0). destruct rs as [|r rs']; [done|].
    destruct (label_in i p (r :: rs') r Hal ltac:(left)) as [Hr Hp%prefix_length]. destruct (key_fits r Hr). lia. }
  unfold enter. rewrite Hl. apply wp_bind, wp_get, wp_bind. eapply wp_mono; [| |apply check_turn_wp]; [|done]. intros [] w0 [t ->].
  apply wp_bind, wp_get, wp_bind, wp_put, wp_bind, wp_ensured; [intros _|rewrite bool_decide_eq_false; lia]. apply wp_bind. cbn [w_key next_allocation next_edge visited w_ticks gathered].
  eapply (wp_mono _ (λ _ w1, ∃ key t, w1 = mkWalk key (next_allocation w) (next_edge w + (if decide (i = O) then O else Z.to_nat (edge_len nd))) (S (visited w)) t (gathered w) ∧
    length key = KEY_BUFFER ∧ take (length p) key = p) _ (λ _ _, False)); [|done|].
  2: { rewrite Hi. case_bool_decide as Hz.
    - apply wp_ret. eexists _, _. split; [by rewrite decide_True // Nat.add_0_r|]. split; [done|]. by rewrite Hroot.
    - eapply wp_mono; [| |apply (take_edge_built f i p nd); [|done|done]]; [|done|].
      + intros [] w1 (key & -> & Hkey). eexists key, _. rewrite decide_False //.
      + destruct Hen. by split. }
  intros [] w1 (key & t1 & -> & Hkb & Hkey). apply wp_bind. destruct (kid_bytes i p rs nd ts kss Hal Ho) as (kids & Hkids & Hsorted & Hcount).
  pose proof (node_count Ho) as Hc. rewrite Hc. unfold take_children. apply wp_bind, wp_get, wp_bind, wp_ensured; [intros _|].
  2: { rewrite Hc andb_false_iff !bool_decide_eq_false. simpl. rewrite Halloc Nat2Z.id. lia. }
  apply wp_bind. cbn [w_key next_allocation next_edge visited w_ticks gathered]. rewrite Hc Halloc !Nat2Z.id in Hkids |- *. rewrite Hkids. apply wp_ret, wp_bind, wp_ensured; [intros _|by rewrite sorted_increasing].
  apply wp_put, wp_bind, wp_ensured; [intros _|].
  2: { rewrite Hi. intros Hno. apply orb_false_iff in Hno as [[Hz%bool_decide_eq_false Ht]%orb_false_iff Hz2%bool_decide_eq_false].
    destruct (node_live i p rs nd ts kss Hal Ho Hz (Hne Hz)) as [?|Hc2]; [congruence|]. rewrite Hc in Hc2. lia. }
  apply wp_bind, wp_get, wp_bind. cbn [w_key next_allocation next_edge visited w_ticks gathered]. rewrite Hkey.
  match goal with |- wp _ _ _ ?w2 => eapply (wp_mono _ (λ _ w3, w3 = w2) _ (λ _ _, False)); [|done|] end.
  2: { destruct (terminal nd) eqn:Ht; [|by apply wp_ret]. destruct (proj1 (terminal_rule _ _ _ _ _ _ Hal Ho) Ht) as (r & Hr & <-).
    apply validate_key_total, key_fits, Hr. }
  intros [] w3 ->. apply wp_bind. eapply wp_mono; [| |by apply (check_node_wp i p rs nd ts kss f)]; [|done]. intros [] w3 [-> Hclean].
  apply wp_bind, wp_get, wp_put. split; [|done]. split; simpl; try done. by rewrite Hc Nat2Z.id.
Qed.

(** ** What a frame hands to its children *)
Lemma child_above p q c : p `prefix_of` q → (∀ r, r ∈ recs → kf r `prefix_of` q → kf r `prefix_of` p ∨ kf r = q) →
  c ∈ rules → r_key c `prefix_of` q → r_key c ≠ q → r_key c `prefix_of` p.
Proof. intros Hp Hgap (r & -> & Hr)%list_elem_of_fmap Hc Hne. by destruct (Hgap r Hr Hc). Qed.
Lemma above_longer p q c : p `prefix_of` q → (length p < length q)%nat → above rules p c → above rules q c.
Proof.
  intros Hp Hl (Hc & Hg & Hcp & Hne). split_and!; [done..|by trans p|]. intros He. apply prefix_length in Hcp. rewrite He in Hcp. lia.
Qed.
Lemma knows_child i p rs nd ts kss f q k end_ s0 s2 : at_label i p rs → opened_at ar v i p rs (Z.to_nat (first_child nd)) [] nd ts kss → knows f p →
  p `prefix_of` q → (length p < length q)%nat → (∀ r, r ∈ recs → kf r `prefix_of` q → kf r `prefix_of` p ∨ kf r = q) →
  sources nd !! 0%nat = Some s0 → sources nd !! 2%nat = Some s2 →
  knows (new_walk_frame k end_ (allow_above f || negb (bool_decide (s0 = NONE))) (block_above f || negb (bool_decide (s2 = NONE)))
    (if bool_decide (s2 = NONE) then block_suffix f else s2)) q.
Proof.
  intros Hal Ho [Hka Hkn Hks] Hp Hl Hgap Hs0 Hs2. assert (∀ c, above rules q c → r_key c `prefix_of` p) as Habove.
  { intros c (Hc & _ & Hcp & Hne). by apply (child_above p q). }
  assert (s2 = NONE → ∀ c, above rules q c → above rules p c) as Hup.
  { intros Hz c Hc. pose proof (Habove c Hc) as Hcp. destruct Hc as (Hc & Hg & _ & _). split_and!; [done..|]. intros He.
    apply list_elem_of_fmap in Hc as (r & -> & Hr). simpl in Hg, He. pose proof (rule_slot Hal Ho r Hr He) as Hsl. rewrite Hg /= Hs2 Hz in Hsl. injection Hsl as Hsl.
    destruct (proj1 (Forall_forall _ _) Hok r Hr) as (_ & _ & Hb2). unfold NONE in Hsl. lia. }
  split; cbn [new_walk_frame allow_above block_suffix].
  - intros [Ha|Hz%negb_true_iff%bool_decide_eq_false]%orb_true_iff.
    + destruct (Hka Ha) as (c & Hc & Hg & Hcp & Hne). exists c. split_and!; [done..|by trans p|]. intros He. apply prefix_length in Hcp. rewrite He in Hcp. lia.
    + destruct (slot_rule Hal Ho AllowSuffix s0 Hs0 Hz) as (r & Hr & Hg & Hk & _). exists (rof r). simpl. rewrite Hk.
      split_and!; [by apply rule_in|done..|]. intros He. rewrite He in Hl. lia.
  - case_bool_decide as Hz; [|done]. intros Hn c Hc. by apply (Hkn Hn c), Hup.
  - case_bool_decide as Hz; intros Hn.
    + destruct (Hks Hn) as (c & [Hc Hcl] & Hcs). exists c. split; [|done]. split; [by apply (above_longer p)|]. intros d Hd. by apply Hcl, Hup.
    + destruct (slot_rule Hal Ho BlockSuffix s2 Hs2 Hz) as (r & Hr & Hg & Hk & Hs). exists (rof r). split; [|done]. split.
      * simpl. split_and!; [by apply rule_in|done|by rewrite /= Hk|]. simpl. rewrite Hk. intros He. rewrite He in Hl. lia.
      * intros d Hd. simpl. rewrite Hk. by apply prefix_length, Habove.
Qed.

(** ** The walk follows the order *)
Record at_entry f (i j : nat) (p : list Z) (rs : list Record_) (nd : Node) : Prop := {
  ae_label : at_label i p rs;
  ae_node : items (nodes x) !! i = Some nd;
  ae_index : w_node f = i;
  ae_next : w_next_child f = j;
  ae_entered : entered f = true;
  ae_length : (prefix_len f + Z.to_nat (edge_len nd))%nat = length p;
  ae_knows : knows f p;
}.
Inductive below : list WalkFrame → list (nat * nat) → list Z → Prop :=
  | below_nil q : below [] [] q
  | below_cons f fs i j st p rs nd q : at_entry f i j p rs nd → p `prefix_of` q → (length p < length q)%nat → below fs st p → below (f :: fs) ((i, j) :: st) q.
Lemma below_depth fs st q : below fs st q → (length fs ≤ length q)%nat.
Proof. induction 1; simpl; lia. Qed.
Definition frames_for (fs : list WalkFrame) (st : list (nat * nat)) (key : list Z) : Prop :=
  match st with
  | [] => fs = []
  | (i, j) :: st => ∃ f fs' p rs nd, fs = f :: fs' ∧ at_entry f i j p rs nd ∧ take (length p) key = p ∧ below fs' st p
  end.
Record simulates (o : list nat) (a e : nat) (st : list (nat * nat)) (fs : list WalkFrame) w : Prop := {
  sm_frames : frames_for fs st (w_key w);
  sm_buffer : length (w_key w) = KEY_BUFFER;
  sm_alloc : next_allocation w = a;
  sm_edge : next_edge w = e;
  sm_visited : visited w = length o;
  sm_fits : (a ≤ N)%nat;
  sm_clean i p rs : i ∈ o → labels !! i = Some (Some (p, rs)) → clean p;
}.
(** The steps left when the walk has reached the nodes of [o]. *)
Definition turns (o : list nat) (st : list (nat * nat)) : nat := (2 * N + 2 - (2 * length o - 1 - length st))%nat.
Definition start_walk (a0 : T) (ticks : nat) : Walk T := mkWalk (replicate KEY_BUFFER 0) 1 0 0 ticks a0.
Definition start_frame : WalkFrame := new_walk_frame 0 0 false false NONE.
Lemma simulates_pop o a e i j st nd fs w : dfs (items (nodes x)) o a e ((i, j) :: st) → items (nodes x) !! i = Some nd → Z.of_nat j = child_count nd →
  simulates o a e ((i, j) :: st) fs w → ∃ f fs', fs = f :: fs' ∧ step fs w = (Ok (inl fs'), w) ∧ simulates o a e st fs' w.
Proof.
  intros Hd Hn Hj [(f & fs' & p & rs & nd' & -> & [Hal Hn' Hi Hx He Hl Hk] & Hkey & Hbel) Hbuf Ha Hed Hv Hf Hc].
  rewrite Hn in Hn'. injection Hn' as <-. exists f, fs'. split; [done|]. split.
  - unfold walk_step, expect, bind, ret. rewrite Hi Hn He. cbn [enter_walk_frame w_next_child]. by rewrite Hx bool_decide_true.
  - split; try done. destruct Hbel as [q|g gs i' j' st' p' rs' nd' q Hae Hp Hlt Hbel]; [done|]. exists g, gs, p', rs', nd'. split_and!; [done..| |done].
    rewrite -(take_take_le _ _ (length q)); [|lia]. rewrite Hkey. by apply prefix_take_eq.
Qed.
Lemma simulates_push o a e i j st nd c fs w fuel (Q : unit → Walk T → Prop) (R : DiskError → Walk T → Prop) :
  let k := (Z.to_nat (first_child nd) + j)%nat in
  items (nodes x) !! i = Some nd → Z.of_nat j < child_count nd → items (nodes x) !! k = Some c →
  first_child c = Z.of_nat a → edge_offset c = Z.of_nat e → simulates o a e ((i, j) :: st) fs w → (1 ≤ a)%nat → (0 < fuel)%nat →
  (∀ e w, refused e → R e w) →
  (∀ fs' w', simulates (o ++ [k]) (a + Z.to_nat (child_count c)) (e + Z.to_nat (edge_len c)) ((k, O) :: (i, S j) :: st) fs' w' → wp (loop fuel step fs') Q R w') →
  wp (loop (S fuel) step fs) Q R w.
Proof.
  intros k Hn Hj Hc Hfirst Hoff [(f & fs' & p & rs & nd' & -> & [Hal Hn' Hi Hx He Hl Hk] & Hkey & Hbel) Hbuf Ha Hed Hv Hf Hcl] Hapos Hfuel HR HQ.
  rewrite Hn in Hn'. injection Hn' as <-. destruct (label_node i p rs Hal) as (nd' & ts & kss & Ho).
  pose proof (op_node _ _ _ _ _ _ _ _ _ _ Ho) as Hn'. simpl in Hn'. rewrite Hn in Hn'. injection Hn' as <-.
  pose proof (node_count Ho) as Hcount. destruct (child_label Hal Ho j) as (c' & edge & ks & Hc' & Hedge & Hh & Hkl & Hne & Hgap); [lia|].
  fold k in Hc', Hkl. rewrite Hc in Hc'. injection Hc' as <-. set (q := p ++ edge) in *.
  assert (p `prefix_of` q) as Hp by by apply prefix_app_r.
  assert (0 < length edge)%nat as Hpos by (destruct edge; simpl in *; [done|lia]).
  assert (length q = length p + length edge)%nat as Hq by (unfold q; by rewrite length_app).
  assert (length edge = Z.to_nat (edge_len c)) as Hel.
  { unfold edge_of, slice in Hedge. case_bool_decide; [|done]. injection Hedge as <-. rewrite length_take length_drop. lia. }
  assert (length q ≤ KEY_BUFFER)%nat as Hfit.
  { destruct ks as [|r ks']; [done|]. destruct (label_in _ _ _ r Hkl ltac:(left)) as [Hr Hpr%prefix_length]. destruct (key_fits r Hr). lia. }
  assert (k ≠ O) as Hk0.
  { intros Hz. pose proof (al_label _ _ _ Hkl) as Hl0. rewrite Hz (al_label _ _ _ root_label) in Hl0. injection Hl0 as Hl0 _. rewrite -Hl0 /= in Hq. lia. }
  destruct (op_sources _ _ _ _ _ _ _ _ _ _ Ho) as [Hlen4 _].
  destruct (lookup_lt_is_Some_2 (sources nd) 0) as [s0 Hs0]; [lia|]. destruct (lookup_lt_is_Some_2 (sources nd) 2) as [s2 Hs2]; [lia|].
  cbn [loop]. apply wp_bind. unfold walk_step. eapply wp_bind, wp_expect; [by rewrite Hi|]. cbv zeta. rewrite He. apply wp_bind, wp_ret.
  cbn [enter_walk_frame w_next_child]. rewrite Hx bool_decide_false; [|lia]. unfold child_frame. apply wp_bind.
  eapply wp_bind, wp_expect; [exact Hs0|]. eapply wp_bind, wp_expect; [exact Hs2|]. apply wp_ret, wp_bind, wp_ensured; [intros _|].
  2: { rewrite bool_decide_eq_false. pose proof (below_depth _ _ _ Hbel). unfold MAX_DEPTH, KEY_BUFFER in *. simpl. lia. }
  apply wp_ret. cbn [enter_walk_frame allow_above block_above block_suffix w_next_child prefix_len]. rewrite Hx Hl. fold k.
  set (g := new_walk_frame k (length p) _ _ _).
  assert (knows g q) as Hkg.
  { apply (knows_child i p rs nd ts kss f q); try done. lia. }
  destruct (label_node k q ks Hkl) as (c' & ts' & kss' & Hoc). pose proof (op_node _ _ _ _ _ _ _ _ _ _ Hoc) as Hc'. simpl in Hc'. rewrite Hc in Hc'. injection Hc' as <-.
  apply (loop_enter x source_count visit _ g _ c); [done|done|done|]. eapply wp_mono; [| |apply (enter_built k q ks c ts' kss' g); try done]; [|by auto|].
  - intros [] w1 [[Hwk Hwb Hwa Hwe Hwv] Hclean]. rewrite decide_False // in Hwe. apply HQ. split; try done.
    + eexists _, _, q, ks, c. split_and!; [reflexivity|split; simpl; [done..|lia|by destruct Hkg]|done|]. apply (below_cons _ _ i (S j) st p rs nd); try done; [|lia]. split; simpl; [done|done|done|by rewrite Hx|done|done|by destruct Hk].
    + by rewrite Hwa Ha.
    + by rewrite Hwe Hed.
    + rewrite Hwv Hv length_app /=. lia.
    + destruct (kid_bytes _ _ _ _ _ _ Hkl Hoc) as (kids & Hkids & _ & _). unfold slice in Hkids. case_bool_decide; [|done].
      rewrite (node_count Hoc) Nat2Z.id. rewrite Hfirst Nat2Z.id in H0. lia.
    + intros i' p' rs' [Hin| ->]%elem_of_snoc Hl'; [by eapply Hcl|]. rewrite (al_label _ _ _ Hkl) in Hl'. by injection Hl' as <- _.
  - split; simpl; try done; [lia| |by rewrite Hfirst Ha]. intros _. exists edge. split_and!; [done|done|by rewrite Hkey|by rewrite Hoff Hed].
Qed.
Lemma simulates_root nd a0 ticks fuel (Q : unit → Walk T → Prop) (R : DiskError → Walk T → Prop) : items (nodes x) !! 0%nat = Some nd →
  first_child nd = 1 → edge_len nd = 0 → (0 < fuel)%nat → (∀ e w, refused e → R e w) →
  (∀ fs w, simulates [0%nat] (1 + Z.to_nat (child_count nd)) 0 [(0, 0)%nat] fs w → wp (loop fuel step fs) Q R w) →
  wp (loop fuel step [start_frame]) Q R (start_walk a0 ticks).
Proof.
  intros Hn Hf Hl Hfuel HR HQ. pose proof root_label as Hal. destruct (label_node 0 [] recs Hal) as (nd' & ts & kss & Ho).
  pose proof (op_node _ _ _ _ _ _ _ _ _ _ Ho) as Hn'. simpl in Hn'. rewrite Hn in Hn'. injection Hn' as <-.
  assert (knows start_frame []) as Hk.
  { split; [done| |done]. intros _ c (_ & _ & Hp & Hne). by apply prefix_nil_inv in Hp. }
  apply (loop_enter x source_count visit _ _ _ nd); [done|done|done|]. eapply wp_mono; [| |apply (enter_built 0 [] recs nd ts kss start_frame); try done]; [|by auto|].
  - intros [] w1 [[Hwk Hwb Hwa Hwe Hwv] Hclean]. apply HQ. split; try done.
    + eexists _, _, [], recs, nd. split_and!; [reflexivity| |done|constructor]. split; simpl; try done; [by rewrite Hl|by destruct Hk].
    + destruct (kid_bytes _ _ _ _ _ _ Hal Ho) as (kids & Hkids & _ & _). unfold slice in Hkids. case_bool_decide; [|done].
      rewrite (node_count Ho) Nat2Z.id. rewrite Hf in H0. lia.
    + intros i' p' rs' ->%list_elem_of_singleton Hl'. rewrite (al_label _ _ _ Hal) in Hl'. by injection Hl' as <- _.
  - split; simpl; try done; [by rewrite Hl].
Qed.
(** The walk reaches the nodes in their order, or ends at a refused rule. *)
Lemma walk_follows o a e st a0 ticks (Q : unit → Walk T → Prop) (R : DiskError → Walk T → Prop) : dfs (items (nodes x)) o a e st →
  (∀ e w, refused e → R e w) →
  (∀ fs w, simulates o a e st fs w → wp (loop (turns o st) step fs) Q R w) → wp (loop (2 * N + 2) step [start_frame]) Q R (start_walk a0 ticks).
Proof.
  intros Hd HR. induction Hd as [nd Hn Hf Ho Hl Hb0|o a e i j st nd c Hd IH Hn Hj Hc Hf He|o a e i j st nd Hd IH Hn Hj]; intros HQ.
  - apply (simulates_root nd); [done..|lia|done|]. intros fs w Hs. specialize (HQ fs w Hs). unfold turns in HQ. simpl in HQ. by rewrite Nat.sub_0_r in HQ.
  - apply IH. intros fs w Hs. pose proof (dfs_count _ _ _ _ _ Hd) as Hcount. pose proof (dfs_depth _ _ _ _ _ Hd) as [Hdep Hone]. simpl in Hdep. pose proof (sm_fits _ _ _ _ _ _ Hs) as Hfits.
    destruct (dfs_reached _ _ _ _ _ Hd) as (Ha & _ & _). destruct (turns o ((i, j) :: st)) as [|fuel] eqn:Et; unfold turns in Et; simpl in Et; [lia|].
    apply (simulates_push o a e i j st nd c); [done..|lia|done|]. intros fs' w' Hs'. specialize (HQ fs' w' Hs'). unfold turns in HQ.
    rewrite length_app /= in HQ. match type of HQ with wp (loop ?m _ _) _ _ _ => replace m with fuel in HQ by lia end. exact HQ.
  - apply IH. intros fs w Hs. pose proof (dfs_count _ _ _ _ _ Hd) as Hcount. pose proof (dfs_depth _ _ _ _ _ Hd) as [Hdep Hone]. simpl in Hdep. pose proof (sm_fits _ _ _ _ _ _ Hs) as Hfits.
    destruct (turns o ((i, j) :: st)) as [|fuel] eqn:Et; unfold turns in Et; simpl in Et; [lia|].
    destruct (simulates_pop o a e i j st nd fs w Hd Hn Hj Hs) as (f & fs' & -> & Hstep & Hs'). specialize (HQ fs' w Hs'). unfold turns in HQ.
    match type of HQ with wp (loop ?m _ _) _ _ _ => replace m with fuel in HQ by lia end. cbn [loop]. unfold wp, bind. by rewrite Hstep.
Qed.

(** ** The whole walk *)
Lemma order_root o a e st : dfs (items (nodes x)) o a e st → ∃ nd, items (nodes x) !! 0%nat = Some nd ∧
  edge_offset nd = 0 ∧ edge_len nd = 0 ∧ first_byte nd = 0 ∧ sources nd = root_sources.
Proof.
  intros Hd. destruct (label_node 0 [] recs root_label) as (nd & ts & kss & Ho). exists nd. pose proof (op_node _ _ _ _ _ _ _ _ _ _ Ho) as Hn. simpl in Hn.
  destruct (dfs_values _ _ _ _ _ 0 nd Hd (dfs_start _ _ _ _ _ Hd) Hn) as (_ & H0 & H1 & H2); [done|]. split_and!; [done..|].
  destruct (op_sources _ _ _ _ _ _ _ _ _ _ Ho) as [Hlen _]. destruct (terminal nd) eqn:Ht.
  - destruct (proj1 (terminal_rule _ _ _ _ _ _ root_label Ho) Ht) as (r & Hr & Hk). destruct (key_fits r Hr) as [(ls & He & Hne & Hls & _) _].
    exfalso. rewrite Hk in He. by destruct ls as [|l ls].
  - unfold terminal in Ht. destruct (sources nd) as [|s0 [|s1 [|s2 [|s3 [|]]]]]; try done. simpl in Ht. rewrite !orb_false_iff !negb_false_iff !bool_decide_eq_true in Ht.
    by destruct Ht as (-> & -> & -> & -> & _).
Qed.
(** Every rule ends at a node of a complete order. *)
Lemma rule_reached o a e r : dfs (items (nodes x)) o a e [] → r ∈ recs → ∃ i rs, i ∈ o ∧ at_label i (kf r) rs.
Proof.
  intros Hd Hr. assert (∀ m i p rs, (length (kf r) - length p ≤ m)%nat → i ∈ o → at_label i p rs → r ∈ rs → ∃ i rs, i ∈ o ∧ at_label i (kf r) rs) as Hgen.
  { induction m as [|m IH]; intros i p rs Hm Hi Hal Hin; destruct (label_node i p rs Hal) as (nd & ts & kss & Ho).
    all: destruct (proj1 (node_rules_split Ho r) Hin) as [Hts|(j & ks & Hj & Hks)]; [apply (node_ts Hal Ho) in Hts as [_ <-]; by exists i, rs|].
    all: destruct (child_label Hal Ho j) as (c & edge & ks' & Hc & _ & Hh & Hkl & _ & _); [by eapply lookup_lt_Some|].
    all: destruct (op_kids _ _ _ _ _ _ _ _ _ _ Ho j ks Hj) as (c' & edge' & _ & _ & _ & Hl' & _); simpl in Hl'; rewrite (al_label _ _ _ Hkl) in Hl'; injection Hl' as _ ->.
    all: assert (0 < length edge)%nat by (destruct edge; simpl in *; [done|lia]).
    all: destruct (label_in _ _ _ r Hkl Hks) as [_ Hp%prefix_length]; rewrite length_app in Hp.
    - lia.
    - pose proof (op_node _ _ _ _ _ _ _ _ _ _ Ho) as Hn. simpl in Hn. apply lookup_lt_Some in Hj.
      destruct (dfs_closed _ _ _ _ _ i nd j Hd Hi Hn) as [Hko|(j' & Hno & _)]; [rewrite (node_count Ho); lia| |by apply elem_of_nil in Hno].
      apply (IH (Z.to_nat (first_child nd) + j)%nat (p ++ edge) ks); [rewrite length_app; lia|done..]. }
  apply (Hgen (length (kf r)) 0%nat [] recs); [simpl; lia|by eapply dfs_start|apply root_label|done].
Qed.
(** The walk of a built index ends, without a panic, at the caller's check or at
    a refused rule, or it visits every node of an index that has none. *)
Lemma walk_built a0 ticks : wp (walk x source_count visit a0) (λ _ _, ∀ g : Rule, ¬ shadowed rules g) (λ e _, refused e) ticks.
Proof.
  destruct (bv_order _ _ _ Hb) as [o Hd]. simpl in Hd. destruct (order_root _ _ _ _ Hd) as (nd & Hn & H0 & H1 & H2 & Hs).
  assert (wp (walk_frames x source_count visit) (λ _ _, ∀ g : Rule, ¬ shadowed rules g) (λ e _, refused e) (start_walk a0 ticks)) as Hw.
  { unfold walk_frames, walk_fuel. apply wp_bind. apply (walk_follows o N (length (items (edges x))) [] a0 ticks); [done|done|]. intros fs w [Hf _ Ha He Hv _ Hcl].
    simpl in Hf. subst fs. pose proof (dfs_count _ _ _ _ _ Hd) as Hc. unfold open_children in Hc. simpl in Hc.
    destruct (turns o []) as [|fuel] eqn:Et; [unfold turns in Et; simpl in Et; lia|]. cbn [loop walk_step]. apply wp_bind, wp_ret, wp_ret, wp_bind, wp_get, wp_ensured; [intros _|].
    - intros f Hf. pose proof Hf as ((r & -> & Hr)%list_elem_of_fmap & _). destruct (rule_reached _ _ _ r Hd Hr) as (i & rs & Hi & Hal).
      apply (Hcl i (kf r) rs Hi (al_label _ _ _ Hal) (rof r)); [by apply rule_in|done|done].
    - rewrite !andb_false_iff !bool_decide_eq_false. rewrite Ha He Hv. lia. }
  unfold wp, walk. rewrite Hn. rewrite !bool_decide_true //. simpl. unfold wp in Hw. unfold start_walk in Hw. by destruct (walk_frames _ _ _ _) as [[[]| | |] w'].
Qed.
End simulation.

(** ** The tree the walk visits *)
Lemma kid_labelled i k rs n a b kids j kid : at_label i k rs → items (nodes x) !! i = Some n → Z.to_nat (first_child n) = a → child_count n = Z.of_nat (length kids) →
  kids_ok x source_count k a (a + length kids) b kids → kids !! j = Some kid → ∃ rs', at_label (t_index kid) (t_key kid) rs'.
Proof.
  intros Hal Hn Hf Hc Hk Hj. destruct (label_node i k rs Hal) as (nd & ts & kss & Ho). pose proof (op_node _ _ _ _ _ _ _ _ _ _ Ho) as Hn'. simpl in Hn'.
  assert (nd = n) as -> by congruence. pose proof (node_count Ho) as Hlen. pose proof (lookup_lt_Some _ _ _ Hj).
  destruct (child_label Hal Ho j) as (c & edge & ks & Hcn & Hedge & _ & Hkl & _ & _); [lia|].
  destruct (kids_lookup x source_count _ _ _ _ _ _ _ Hk Hj) as (edge' & a' & b' & Hi & Hedge' & _ & Hkey & _ & Hok').
  pose proof (tree_node _ _ _ _ _ Hok') as Hkn. rewrite Hi -Hf Hcn in Hkn. injection Hkn as ->. rewrite Hedge in Hedge'. injection Hedge' as ->.
  exists ks. by rewrite Hi Hkey -Hf.
Qed.
Lemma tree_labelled t : root_tree x source_count t → ∀ t', t' ∈ subtrees t → ∃ rs, at_label (t_index t') (t_key t') rs.
Proof.
  intros [Hi Hk _ Ht]. assert (∀ a b t, tree_ok x source_count a b t → (∃ rs, at_label (t_index t) (t_key t) rs) →
    ∀ t', t' ∈ subtrees t → ∃ rs, at_label (t_index t') (t_key t') rs) as Hgen.
  { apply (tree_ok_mut x source_count (λ a b t _, (∃ rs, at_label (t_index t) (t_key t) rs) → ∀ t', t' ∈ subtrees t → ∃ rs, at_label (t_index t') (t_key t') rs)
      (λ k c a b ts _, (∀ t0, t0 ∈ ts → ∃ rs, at_label (t_index t0) (t_key t0) rs) → ∀ t', t' ∈ mjoin (subtrees <$> ts) → ∃ rs, at_label (t_index t') (t_key t') rs)).
    - intros a b i k n kids Hn Hf Hc _ _ _ Hkids IH [rs Hal] t' [->|Hin]%elem_of_cons; [by exists rs|]. apply IH; [|done].
      intros t0 [j Hj]%list_elem_of_lookup. by apply (kid_labelled i k rs n a b kids j).
    - by intros k c a _ t' ?%elem_of_nil.
    - intros k c a m b t0 ts edge _ _ _ _ _ _ IH _ IHs Hall t' [Hin|Hin]%elem_of_app; [apply IH; [apply Hall; left|done]|].
      apply IHs; [|done]. intros t1 Ht1. apply Hall. by right. }
  apply (Hgen _ _ _ Ht). exists recs. rewrite Hi Hk. apply root_label.
Qed.
(** It visits the rules of the index. *)
Lemma visited_built t r : Forall node_wf (items (nodes x)) → root_tree x source_count t → r ∈ visited_rules (out t) ↔ r ∈ rules.
Proof.
  intros Hwf Hr. rewrite out_subtrees. unfold visited_rules. rewrite list_elem_of_join. split.
  - intros (l & Hin & (vis & -> & (t' & -> & Ht')%list_elem_of_fmap)%list_elem_of_fmap). destruct (tree_labelled t Hr t' Ht') as [rs Hal].
    destruct (label_node _ _ _ Hal) as (nd & ts & kss & Ho). pose proof (op_node _ _ _ _ _ _ _ _ _ _ Ho) as Hn. simpl in Hn.
    destruct (tree_below _ _ _ _ _ (rt_tree _ _ _ Hr) _ Ht') as (a & b & Hok'). rewrite (tree_node _ _ _ _ _ Hok') in Hn. injection Hn as Hn.
    unfold node_rules in Hin. apply list_elem_of_omap in Hin as (g & _ & Hg). simpl in Hg. rewrite Hn in Hg.
    destruct (sources nd !! group_index g) as [s|] eqn:Hs; [|done]. case_bool_decide as Hne; [done|]. injection Hg as <-.
    destruct (slot_rule Hal Ho g s Hs Hne) as (r & Hr1 & Hrg & Hrk & Hrs). apply list_elem_of_fmap. exists r. split; [|done].
    unfold rule_of. by rewrite Hrg Hrk Hrs.
  - intros (rec & -> & Hrec)%list_elem_of_fmap. destruct (bv_order _ _ _ Hb) as [o Hd]. destruct (rule_reached _ _ _ rec Hd Hrec) as (i & rs & Hi & Hal).
    destruct (label_node _ _ _ Hal) as (nd & ts & kss & Ho). pose proof (op_node _ _ _ _ _ _ _ _ _ _ Ho) as Hn. simpl in Hn.
    assert (i ∈ t_index <$> subtrees t) as (t' & -> & Ht')%list_elem_of_fmap.
    { rewrite (root_indices _ _ _ Hr). apply elem_of_seq. apply lookup_lt_Some in Hn. lia. }
    destruct (tree_labelled t Hr t' Ht') as [rs' Hal']. pose proof (al_label _ _ _ Hal') as Hl. rewrite (al_label _ _ _ Hal) in Hl. injection Hl as Hk _.
    destruct (tree_below _ _ _ _ _ (rt_tree _ _ _ Hr) _ Ht') as (a & b & Hok'). rewrite (tree_node _ _ _ _ _ Hok') in Hn. injection Hn as Hn.
    exists (node_rules (t_key t', sources (t_node t'))). split; [|by apply list_elem_of_fmap; exists (t_key t', sources (t_node t')); split; [|apply list_elem_of_fmap; exists t']].
    unfold node_rules. apply list_elem_of_omap. exists (group rec). split; [destruct (group rec); set_solver|]. simpl.
    rewrite Hn (rule_slot Hal Ho rec Hrec eq_refl) bool_decide_false; [by rewrite /rule_of Hk|].
    destruct (proj1 (Forall_forall _ _) Hok rec Hrec) as (_ & _ & Hs). unfold NONE. lia.
Qed.
(** ** The fields of its nodes *)
Lemma order_labelled o a e st i : dfs (items (nodes x)) o a e st → i ∈ o → ∃ p rs, at_label i p rs ∧ (i ≠ O → rs ≠ []).
Proof.
  intros Hd. revert i. induction Hd as [nd Hn _ _ _ _|o a e i j st nd c Hd IH Hn Hj Hc _ _|o a e i j st nd Hd IH Hn Hj]; intros i' Hi'.
  - apply list_elem_of_singleton in Hi' as ->. exists [], recs. split; [apply root_label|done].
  - apply elem_of_snoc in Hi' as [Hi'| ->]; [by apply IH|]. destruct (dfs_reached _ _ _ _ _ Hd) as (_ & _ & Hin).
    destruct (IH i) as (p & rs & Hal & _); [apply (Hin i j); left|]. destruct (label_node _ _ _ Hal) as (nd' & ts & kss & Ho).
    pose proof (op_node _ _ _ _ _ _ _ _ _ _ Ho) as Hn'. simpl in Hn'. assert (nd' = nd) as -> by congruence. pose proof (node_count Ho).
    destruct (child_label Hal Ho j) as (c' & edge & ks & _ & _ & _ & Hkl & Hne & _); [lia|]. by exists (p ++ edge), ks.
  - by apply IH.
Qed.
Lemma edge_reached o a e st i nd : dfs (items (nodes x)) o a e st → i ∈ o → items (nodes x) !! i = Some nd → i ≠ O →
  ∃ edge, edge_of nd (items (edges x)) = Some edge ∧ head edge = Some (first_byte nd) ∧ (length edge ≤ KEY_BUFFER)%nat ∧ 0 ≤ first_byte nd ≤ 255.
Proof.
  intros Hd. revert i nd. induction Hd as [nd0 Hn _ _ _ _|o a e i0 j st nd0 c Hd IH Hn Hj Hc _ _|o a e i0 j st nd0 Hd IH Hn Hj]; intros i nd Hi Hnd Hi0.
  - by apply list_elem_of_singleton in Hi.
  - apply elem_of_snoc in Hi as [Hi| ->]; [by apply (IH i)|]. destruct (dfs_reached _ _ _ _ _ Hd) as (_ & _ & Hin).
    destruct (order_labelled _ _ _ _ i0 Hd) as (p & rs & Hal & _); [apply (Hin i0 j); left|]. destruct (label_node _ _ _ Hal) as (nd' & ts & kss & Ho).
    pose proof (op_node _ _ _ _ _ _ _ _ _ _ Ho) as Hn'. simpl in Hn'. assert (nd' = nd0) as -> by congruence. pose proof (node_count Ho).
    destruct (child_label Hal Ho j) as (c' & edge & ks & Hc' & He & Hh & Hkl & Hne & _); [lia|]. assert (c' = nd) as -> by congruence.
    destruct ks as [|r ks]; [done|]. destruct (label_in _ _ _ r Hkl ltac:(left)) as [Hr Hp]. destruct (key_fits r Hr) as [Hwf Hfit].
    exists edge. split_and!; [done|done|apply prefix_length in Hp; rewrite length_app in Hp; lia|..].
    all: destruct edge as [|b edge]; [done|]; injection Hh as <-; apply (wf_key_bytes (kf r)); [done|].
    all: destruct Hp as [more ->]; set_solver.
  - by apply (IH i).
Qed.
Lemma all_reached : ∃ o, dfs (items (nodes x)) o (length (items (nodes x))) (length (items (edges x))) [] ∧ ∀ i nd, items (nodes x) !! i = Some nd → i ∈ o.
Proof.
  destruct (bv_order _ _ _ Hb) as [o Hd]. exists o. split; [done|]. intros i nd Hi%lookup_lt_Some.
  destruct (dfs_alloc _ _ _ _ _ i Hd Hi) as [|(? & ? & ? & ?%elem_of_nil & _)]; done.
Qed.
End built.
