(* ===== verification/ParseSource.v ===== *)
(** * Streaming rule sources

    [Builder::parse_source] and [Builder::parse_line] of
    [src/policy/canonical.rs]: a source is read through a buffered reader, one
    bounded line at a time; every line adds its rules to the builder. The
    result of a successful parse does not depend on how the reader cuts the
    text into chunks. *)
From S2P Require Import Prelude Net Std Names Canonical.
Set Default Goal Selector "!".
Set Warnings "-rewrite-rw".
Local Open Scope Z_scope.
Local Open Scope rust_scope.

(** [str::parse::<IpAddr>] of the standard library. *)
Class IpParse := { parse_ip : list Z → option IpAddr }.

(** A [BufRead]: the buffers [fill_buf] returns one after the other; [None] is
    an I/O error, the end of the list the end of input. *)
Definition Reader : Type := list (option (list Z)).
Definition consume (n : nat) (r : Reader) : Reader :=
  match r with
  | Some c :: r => if bool_decide (length c ≤ n)%nat then r else Some (drop n c) :: r
  | r => r
  end.

Inductive Format : Type := DomainList | HostsBlocklist.
Record SourceStats : Type := mkStats {
  lines : Z;
  s_input_rules : Z;
  s_decoded_bytes : Z;
  duplicates : Z;
}.
Definition stats_default : SourceStats := mkStats 0 0 0 0.
Definition next_line (st : SourceStats) : SourceStats :=
  mkStats (lines st + 1) (s_input_rules st) (s_decoded_bytes st) (duplicates st).

Definition LINE_BYTES : nat := 4096.
Definition NEWLINE : Z := 10.
Definition HASH : Z := 35.
Definition BANG : Z := 33.
Definition BOM : list Z := [239; 187; 191].
Definition MAX_SOURCE : Z := 16 * 1024 * 1024.

(** ** ASCII text *)
Fixpoint trim_start (l : list Z) : list Z :=
  match l with
  | [] => []
  | b :: rest => if is_ascii_whitespace b then trim_start rest else l
  end.
Definition trim_ascii (l : list Z) : list Z := reverse (trim_start (reverse (trim_start l))).
(** [split_ascii_whitespace]: the nonempty runs of other bytes. *)
Fixpoint tokens_from (token : list Z) (l : list Z) : list (list Z) :=
  match l with
  | [] => if bool_decide (token = []) then [] else [token]
  | b :: l =>
      if is_ascii_whitespace b
      then if bool_decide (token = []) then tokens_from [] l else token :: tokens_from [] l
      else tokens_from (token ++ [b]) l
  end.
Definition split_ascii_whitespace (l : list Z) : list (list Z) := tokens_from [] l.
(** The position of the first white space followed by a [#]. *)
Fixpoint comment_at (l : list Z) : option nat :=
  match l with
  | a :: (b :: _) as rest =>
      if is_ascii_whitespace a && bool_decide (b = HASH) then Some O else S <$> comment_at rest
  | _ => None
  end.

Definition sinkhole (a : IpAddr) : bool :=
  match a with
  | V4 bits => is_unspecified (V4 bits) || bool_decide (bits = 2130706433)
  | V6 bits => is_unspecified (V6 bits) || is_loopback (V6 bits)
  end.

(** [map_err(|error| Error { line, ..error })]. *)
Definition at_line {A} (n : Z) (m : B A) : B A := λ s,
  match m s with
  | (Err e, s') => (Err {| line := n; kind := kind e |}, s')
  | r => r
  end.
(** Runs [fin] after [m], whether [m] fails or not. *)
Definition finally {A} (m : B A) (fin : B unit) : B A := λ s,
  match m s with
  | (Ok a, s') => (fin ;;; ret a) s'
  | (Err e, s') => (fin ;;; fail e) s'
  | r => r
  end.

Section parse.
Context {H : Host} {SL : SliceLib} {IP : IpParse}.
Context (format : Format) (slot : Z).

Fixpoint add_hosts (n : Z) (tokens : list (list Z)) (count : nat) : B nat :=
  match tokens with
  | [] => ret count
  | t :: tokens => at_line n (add t BlockExact slot) ;;; add_hosts n tokens (S count)
  end.

Definition parse_domain (text : list Z) : B unit :=
  let tokens := split_ascii_whitespace text in
  let* token := expect (head tokens) in
  match tail tokens with
  | _ :: _ => fail (error UnsupportedSyntax)
  | [] => match token with
          | c :: name => if bool_decide (c = DOT) then add name BlockSuffix slot else add token BlockExact slot
          | [] => add token BlockExact slot
          end
  end.
Definition parse_hosts (n : Z) (text : list Z) : B unit :=
  let tokens := split_ascii_whitespace text in
  let* token := expect (head tokens) in
  let* address := ok_or {| line := n; kind := UnsupportedSyntax |} (parse_ip token) in
  if negb (sinkhole address) then fail {| line := n; kind := HostsRewrite |} else
  let* count := add_hosts n (tail tokens) O in
  if bool_decide (count = O) then fail (error UnsupportedSyntax) else ret tt.

Definition parse_line (bytes : list Z) (n : Z) : B unit :=
  let bytes := if bool_decide (n = 1) && bool_decide (BOM `prefix_of` bytes) then drop 3 bytes else bytes in
  if negb (utf8_valid bytes) then fail {| line := n; kind := InvalidUtf8 |} else
  let text := trim_ascii bytes in
  match text with
  | [] => ret tt
  | c :: _ =>
      if bool_decide (c = HASH ∨ c = BANG) then ret tt else
      let text := match comment_at text with Some i => take i text | None => text end in
      at_line n (match format with
                 | DomainList => parse_domain text
                 | HostsBlocklist => parse_hosts n text
                 end)
  end.

(** Accounts [n] more decoded bytes, in the source and in all sources. *)
Definition account (st : SourceStats) (n : Z) : B SourceStats :=
  let err := {| line := lines st + 1; kind := InputLimit |} in
  let within limit o := match o with
    | Some t => if bool_decide (t ≤ limit) then Some t else None
    | None => None
    end in
  let* d := ok_or err (within MAX_SOURCE (checked_add (s_decoded_bytes st) n)) in
  let* b := get_b in
  let* t := ok_or err (within MAX_AGGREGATE (checked_add (decoded_bytes b) n)) in
  modify_b (with_decoded t) ;;;
  ret (mkStats (lines st) (s_input_rules st) d (duplicates st)).

(** The lines read so far, the bytes of the current line, the reader. *)
Definition read_step (s : SourceStats * list Z * Reader) : B ((SourceStats * list Z * Reader) + SourceStats) :=
  let '(st, used, r) := s in
  match r with
  | None :: _ => fail {| line := lines st + 1; kind := Io |}
  | [] | Some [] :: _ =>
      if bool_decide (used = []) then ret (inr st)
      else parse_line used (lines (next_line st)) ;;; ret (inr (next_line st))
  | Some chunk :: _ =>
      let newline := list_find (λ b, b = NEWLINE) chunk in
      let length_ := match newline with Some (i, _) => i | None => length chunk end in
      let consumed := (length_ + match newline with Some _ => 1 | None => 0 end)%nat in
      let* st := account st (Z.of_nat consumed) in
      if bool_decide (length used + length_ ≤ LINE_BYTES)%nat then
        let used := used ++ take length_ chunk in
        let r := consume consumed r in
        match newline with
        | Some _ => parse_line used (lines (next_line st)) ;;; ret (inl (next_line st, [], r))
        | None => ret (inl (st, used, r))
        end
      else fail {| line := lines st + 1; kind := LineLimit |}
  end.

Definition record_key_cmp (ar : list Z) (a b : Record_) : comparison :=
  then_ (Z.of_nat (group_index (group a)) ?= Z.of_nat (group_index (group b)))
    (cmp_bytes (key_of ar a) (key_of ar b)).
Fixpoint duplicate_count (ar : list Z) (rs : list Record_) : Z :=
  match rs with
  | a :: (b :: _) as rest =>
      (if bool_decide (group a = group b ∧ key_of ar a = key_of ar b) then 1 else 0) + duplicate_count ar rest
  | _ => 0
  end.

(** One iteration per buffer or line, and one for the end of input. *)
Definition read_fuel (r : Reader) : nat := S (sum_list_with (λ c, S (from_option length O c)) r).

Definition read_source (r : Reader) : B SourceStats :=
  let* b := get_b in
  let initial := length (items (records b)) in
  let* st := loop (read_fuel r) read_step (stats_default, [], r) in
  let* b := get_b in
  let count := Z.of_nat (length (items (records b)) - initial) in
  if bool_decide (count = 0) then fail (error EmptySource) else
  let ar := items (arena b) in
  let added := drop initial (items (records b)) in
  if forallb (λ r, bool_decide (is_Some (key ar (entry r)))) added then
    let added := sort_unstable_by (record_key_cmp ar) added in
    modify_b (with_records (λ v, {| items := take initial (items v) ++ added; capacity := capacity v |})) ;;;
    ret (mkStats (lines st) count (s_decoded_bytes st) (duplicate_count ar added))
  else panic.

Definition parse_source (r : Reader) : B SourceStats :=
  unpoisoned (
    poisoning (on_budget (reserve 4096)) ;;;
    poisoning (finally (read_source r) (on_budget (release 4096)))).
End parse.

(** ** Every operation keeps the builder sound *)
Definition block_rule (slot : Z) (r : Rule) : Prop :=
  (r_group r = BlockSuffix ∨ r_group r = BlockExact) ∧ r_slot r = slot.
(** [b'] is [b] with the rules [news] of this source appended. *)
Record parsed (retained slot : Z) (b : Builder) (news : list Rule) (b' : Builder) : Prop := {
  pa_ok : builder_ok retained b';
  pa_failed : failed b' = None;
  pa_rules : rules b' = rules b ++ news;
  pa_news : Forall (block_rule slot) news;
  pa_frame : frame b b';
}.
Definition sound (retained : Z) (b b' : Builder) : Prop := builder_ok retained b' ∧ frame b b'.

Lemma frame_refl b : frame b b.
Proof. by split. Qed.
Lemma frame_trans b1 b2 b3 : frame b1 b2 → frame b2 b3 → frame b1 b3.
Proof. intros [] []. split; congruence. Qed.
Lemma parsed_refl retained slot b : builder_ok retained b → failed b = None → parsed retained slot b [] b.
Proof. intros. split; try done. by rewrite app_nil_r. Qed.
Lemma parsed_trans retained slot b1 b2 b3 n1 n2 :
  parsed retained slot b1 n1 b2 → parsed retained slot b2 n2 b3 → parsed retained slot b1 (n1 ++ n2) b3.
Proof.
  intros [] []. split; try done; [|by apply Forall_app|by eapply frame_trans].
  rewrite pa_rules1 pa_rules0. by rewrite app_assoc.
Qed.
Lemma sound_trans retained b1 b2 b3 : frame b1 b2 → sound retained b2 b3 → sound retained b1 b3.
Proof. intros Hf [? ?]. split; [done|]. by eapply frame_trans. Qed.

Lemma wp_at_line {A} n (m : B A) (Q : A → Builder * nat → Prop) R s :
  wp m Q (λ e, R {| line := n; kind := kind e |}) s → wp (at_line n m) Q R s.
Proof. unfold wp, at_line. by destruct (m s) as [[] ?]. Qed.
Arguments at_line : simpl never.
Lemma wp_finally {A} (m : B A) fin (Q : A → Builder * nat → Prop) R s :
  wp m (λ a, wp fin (λ _, Q a) R) (λ e, wp fin (λ _, R e) R) s → wp (finally m fin) Q R s.
Proof.
  unfold wp, finally, bind, ret, fail. destruct (m s) as [[a|e| |] s']; try done; by destruct (fin s') as [[] ?].
Qed.
Arguments finally : simpl never.

Lemma with_decoded_ok retained b n : builder_ok retained b → builder_ok retained (with_decoded n b).
Proof. intros []. by split. Qed.
Lemma with_failed_ok retained b e : builder_ok retained b → builder_ok retained (with_failed (Some e) b).
Proof. intros []. by split. Qed.

Lemma split_tokens l : trim_start l ≠ [] → split_ascii_whitespace l ≠ [].
Proof.
  assert (∀ t l, t ≠ [] → tokens_from t l ≠ []) as Ht.
  { intros t k. revert t. induction k as [|b k IH]; intros t Hne; simpl; [by rewrite bool_decide_false|].
    destruct (is_ascii_whitespace b); [by rewrite bool_decide_false|]. apply IH. by intros [_ ?]%app_nil. }
  unfold split_ascii_whitespace. induction l as [|b l IH]; simpl; [done|].
  destruct (is_ascii_whitespace b) eqn:E.
  - exact IH.
  - intros _. by apply Ht.
Qed.
Lemma trim_ascii_head l c text : trim_ascii l = c :: text → is_ascii_whitespace c = false.
Proof.
  unfold trim_ascii. intros Ht.
  assert (∀ k, match trim_start k with [] => True | b :: _ => is_ascii_whitespace b = false end) as Hh.
  { induction k as [|b k IH]; simpl; [done|]. by destruct (is_ascii_whitespace b) eqn:E. }
  assert (∀ k, ∃ w, k = w ++ trim_start k) as Hsuf.
  { induction k as [|b k [w IH]]; simpl; [by exists []|]. destruct (is_ascii_whitespace b); [|by exists []].
    exists (b :: w). simpl. by rewrite {1}IH. }
  pose proof (Hh l) as Hl. destruct (Hsuf (reverse (trim_start l))) as [w Hw].
  apply (f_equal reverse) in Hw. rewrite reverse_involutive reverse_app Ht in Hw. by rewrite Hw in Hl.
Qed.
Lemma trimmed_tokens l c text i :
  trim_ascii l = c :: text → comment_at (c :: text) = Some i → split_ascii_whitespace (take i (c :: text)) ≠ [].
Proof.
  intros Hc%trim_ascii_head Hi. destruct i as [|i].
  - simpl in Hi. destruct text; [done|]. rewrite Hc in Hi.
    by apply fmap_Some in Hi as (? & _ & ?).
  - apply split_tokens. simpl. by rewrite Hc.
Qed.

Section parse_proof.
Context {H : Host} `{!HostSpec H} {SL : SliceLib} `{!SliceSpec SL} {IP : IpParse}.
Context (format : Format) (slot retained : Z) (Hslot : 0 ≤ slot ≤ u16_max).

Lemma add_block_wp b n domain g :
  builder_ok retained b → failed b = None → g = BlockSuffix ∨ g = BlockExact →
  wp (add domain g slot) (λ _ s, (∃ r, parsed retained slot b [r] s.1) ∧ decoded_bytes s.1 = decoded_bytes b)
    (λ _ s, sound retained b s.1) (b, n).
Proof.
  intros Hb Hf Hg. eapply wp_mono; [| |by apply (add_wp retained)].
  - intros [] s (ls & _ & _ & _ & Hok & Hf' & Hr & Hd & Hfr). split; [|done].
    exists {| r_group := g; r_key := encode ls; r_slot := slot |}. split; try done. by apply Forall_singleton.
  - intros e s [(? & _ & ?) _]. by split.
Qed.

Lemma add_hosts_wp n tokens count b m :
  builder_ok retained b → failed b = None →
  wp (add_hosts slot n tokens count)
    (λ _ s, (∃ news, parsed retained slot b news s.1) ∧ decoded_bytes s.1 = decoded_bytes b)
    (λ _ s, sound retained b s.1) (b, m).
Proof.
  revert count b m. induction tokens as [|t tokens IH]; intros count b m Hb Hf; simpl.
  { apply wp_ret. split; [|done]. exists []. by apply parsed_refl. }
  apply wp_bind, wp_at_line. eapply wp_mono; [| |apply add_block_wp; [done|done|by right]]; [|done].
  intros [] [b1 m1] [[r Hp] Hd]. simpl in *. eapply wp_mono; [| |apply IH; apply Hp].
  - intros c s [[news Hp'] Hd']. split; [|congruence]. exists ([r] ++ news). by apply (parsed_trans _ _ _ b1).
  - intros e s. apply sound_trans, Hp.
Qed.

Definition line_done (b : Builder) (s : Builder * nat) : Prop :=
  (∃ news, parsed retained slot b news s.1) ∧ decoded_bytes s.1 = decoded_bytes b.

Lemma parse_domain_wp text b m :
  builder_ok retained b → failed b = None → split_ascii_whitespace text ≠ [] →
  wp (parse_domain slot text) (λ _, line_done b) (λ _ s, sound retained b s.1) (b, m).
Proof.
  intros Hb Hf Hne. unfold parse_domain. destruct (split_ascii_whitespace text) as [|t ts]; [done|]. simpl.
  eapply wp_bind, wp_expect; [done|]. destruct ts as [|t' ts]; [|by apply wp_fail].
  assert (∀ g name, g = BlockSuffix ∨ g = BlockExact →
    wp (add name g slot) (λ _, line_done b) (λ _ s, sound retained b s.1) (b, m)) as Hadd.
  { intros g name Hg. eapply wp_mono; [| |by apply add_block_wp]; [|done]. intros [] s [[r Hp] Hd]. split; [by eauto|done]. }
  destruct t as [|c name]; [by apply Hadd; right|]. case_bool_decide; apply Hadd; auto.
Qed.
Lemma parse_hosts_wp n text b m :
  builder_ok retained b → failed b = None → split_ascii_whitespace text ≠ [] →
  wp (parse_hosts slot n text) (λ _, line_done b) (λ _ s, sound retained b s.1) (b, m).
Proof.
  intros Hb Hf Hne. unfold parse_hosts. destruct (split_ascii_whitespace text) as [|t ts]; [done|]. simpl.
  eapply wp_bind, wp_expect; [done|]. apply wp_bind, wp_ok_or; [|done]. intros a _.
  destruct (sinkhole a); simpl; [|by apply wp_fail]. apply wp_bind.
  eapply wp_mono; [| |by apply add_hosts_wp]; [|done]. intros c s Hs.
  case_bool_decide; [|by apply wp_ret]. apply wp_fail. destruct Hs as [[news []] _]. by split.
Qed.
Lemma parse_line_wp bytes n b m :
  builder_ok retained b → failed b = None →
  wp (parse_line format slot bytes n) (λ _, line_done b) (λ _ s, sound retained b s.1) (b, m).
Proof.
  intros Hb Hf. unfold parse_line. 
  generalize (if bool_decide (n = 1) && bool_decide (BOM `prefix_of` bytes) then drop 3 bytes else bytes).
  intros bytes'.
  assert (line_done b (b, m)) as Hnone by (split; [exists []; by apply parsed_refl|done]).
  destruct (utf8_valid bytes'); simpl; [|by apply wp_fail].
  destruct (trim_ascii bytes') as [|c text] eqn:Et; [by apply wp_ret|].
  case_bool_decide; [by apply wp_ret|]. apply wp_at_line.
  set (t := match comment_at (c :: text) with Some i => take i (c :: text) | None => c :: text end).
  assert (split_ascii_whitespace t ≠ []) as Hne.
  { unfold t. destruct (comment_at (c :: text)) as [i|] eqn:Ei; [by apply (trimmed_tokens bytes')|].
    apply split_tokens. simpl. by rewrite (trim_ascii_head _ _ _ Et). }
  destruct format; [by apply parse_domain_wp|by apply parse_hosts_wp].
Qed.

Lemma account_wp st k b m (Q : SourceStats → Builder * nat → Prop) (R : Error → Builder * nat → Prop) :
  (s_decoded_bytes st + k ≤ MAX_SOURCE → decoded_bytes b + k ≤ MAX_AGGREGATE →
    Q (mkStats (lines st) (s_input_rules st) (s_decoded_bytes st + k) (duplicates st))
      (with_decoded (decoded_bytes b + k) b, m)) →
  (∀ e, R e (b, m)) → wp (account st k) Q R (b, m).
Proof.
  intros HQ HR. unfold account. apply wp_bind, wp_ok_or; [|done]. intros d Hd.
  unfold checked_add in Hd. case_decide; [|done]. case_bool_decide; [|done]. injection Hd as <-.
  apply wp_bind, wp_get_b, wp_bind, wp_ok_or; [|done]. intros t Ht.
  unfold checked_add in Ht. case_decide; [|done]. case_bool_decide; [|done]. injection Ht as <-.
  apply wp_bind, wp_modify_b, wp_ret. by apply HQ.
Qed.

(** The invariant of the reading loop. *)
Record reading (b0 : Builder) (st : SourceStats) (used : list Z) (b : Builder) : Prop := {
  rd_parsed : ∃ news, parsed retained slot b0 news b;
  rd_bytes : decoded_bytes b = decoded_bytes b0 + s_decoded_bytes st;
  rd_limit : 0 ≤ s_decoded_bytes st ≤ MAX_SOURCE;
  rd_line : (length used ≤ LINE_BYTES)%nat;
}.
Lemma reading_line b0 st used b s : reading b0 st used b → line_done b s → reading b0 (next_line st) [] s.1.
Proof.
  intros [[n1 H1] Hb Hl Hu] [[n2 H2] Hd]. split; simpl; [|by rewrite Hd|done|lia].
  exists (n1 ++ n2). by apply (parsed_trans _ _ _ b).
Qed.
Lemma reading_sound b0 st used b : reading b0 st used b → sound retained b0 b.
Proof. intros [[n1 []] _ _ _]. by split. Qed.

Lemma consume_smaller n c r :
  (0 < n)%nat → (sum_list_with (λ c, S (from_option length O c)) (consume n (Some c :: r)) <
    sum_list_with (λ c, S (from_option length O c)) (Some c :: r))%nat.
Proof. intros Hn. simpl. case_bool_decide; simpl; [lia|]. rewrite length_drop. lia. Qed.

Lemma read_step_wp b0 st used r b m :
  reading b0 st used b →
  wp (read_step format slot (st, used, r))
    (λ res s, match res with
     | inl (st', used', r') => reading b0 st' used' s.1 ∧
         (sum_list_with (λ c, S (from_option length O c)) r' < sum_list_with (λ c, S (from_option length O c)) r)%nat
     | inr st' => reading b0 st' [] s.1
     end) (λ _ s, sound retained b0 s.1) (b, m).
Proof.
  intros Hrd. pose proof (rd_parsed _ _ _ _ Hrd) as [n0 Hp]. unfold read_step.
  assert (wp (if bool_decide (used = []) then ret (inr st)
      else parse_line format slot used (lines (next_line st)) ;;; ret (inr (next_line st)))
    (λ (res : (SourceStats * list Z * Reader) + SourceStats) s, match res with
     | inl (st', used', r') => reading b0 st' used' s.1 ∧
         (sum_list_with (λ c, S (from_option length O c)) r' < sum_list_with (λ c, S (from_option length O c)) r)%nat
     | inr st' => reading b0 st' [] s.1
     end) (λ _ s, sound retained b0 s.1) (b, m)) as Hend.
  { case_bool_decide as Hu; [subst; by apply wp_ret|]. apply wp_bind.
    eapply wp_mono; [| |apply parse_line_wp; apply Hp].
    - intros [] s Hs. apply wp_ret. by apply (reading_line b0 st used b).
    - intros e s. apply sound_trans, Hp. }
  destruct r as [|[[|x chunk]|] r]; [exact Hend|exact Hend| |].
  2: { apply wp_fail. by apply (reading_sound _ st used). }
  clear Hend. set (ch := x :: chunk). cbv zeta. set (len := match list_find (λ b, b = NEWLINE) ch with Some (i, _) => i | None => length ch end).
  set (consumed := (len + match list_find (λ b, b = NEWLINE) ch with Some _ => 1 | None => 0 end)%nat).
  assert (0 < consumed)%nat as Hpos.
  { unfold consumed, len. destruct (list_find _ ch) as [[i y]|]; simpl; lia. }
  apply wp_bind, account_wp; [|intros; by apply (reading_sound _ st used)]. intros Hs Ha.
  assert (reading b0 (mkStats (lines st) (s_input_rules st) (s_decoded_bytes st + Z.of_nat consumed) (duplicates st))
    used (with_decoded (decoded_bytes b + Z.of_nat consumed) b)) as Hrd1.
  { destruct Hrd as [_ Hb Hl Hu]. split; simpl; [|lia|lia|done]. exists n0. destruct Hp. split; try done.
    - by apply with_decoded_ok.
    - by destruct pa_frame0. }
  case_bool_decide as Hline; [|apply wp_fail; by apply (reading_sound _ _ _ _ Hrd1)].
  assert (length (used ++ take len ch) ≤ LINE_BYTES)%nat as Hused.
  { rewrite length_app length_take. lia. }
  assert (∀ used', (length used' ≤ LINE_BYTES)%nat → reading b0 (mkStats (lines st) (s_input_rules st)
    (s_decoded_bytes st + Z.of_nat consumed) (duplicates st)) used' (with_decoded (decoded_bytes b + Z.of_nat consumed) b)) as Hrd2.
  { intros used' Hu. destruct Hrd1. by split. }
  pose proof (consume_smaller consumed ch r Hpos) as Hsm.
  destruct (list_find _ ch) as [[i y]|]; [|apply wp_ret; split; [by apply Hrd2|exact Hsm]].
  destruct (rd_parsed _ _ _ _ Hrd1) as [n1 Hp1]. apply wp_bind.
  eapply wp_mono; [| |apply parse_line_wp; apply Hp1].
  - intros [] s Hs'. apply wp_ret. split; [|exact Hsm]. by apply (reading_line b0 _ _ _ s (Hrd2 _ Hused)).
  - intros e s. apply sound_trans, Hp1.
Qed.

(** ** The statistics and the whole source *)
Definition rule_id (r : Rule) : Group * list Z := (r_group r, r_key r).
Definition distinct (rs : list Rule) : Z := Z.of_nat (length (remove_dups (rule_id <$> rs))).

Lemma total_record_key ar : total_cmp (record_key_cmp ar).
Proof.
  unfold record_key_cmp. apply (total_cmp_then (λ a b, _) (λ a b, _)).
  - apply (total_cmp_on (λ a, Z.of_nat (group_index (group a)))), total_cmp_Z.
  - apply (total_cmp_on (key_of ar)), total_cmp_bytes.
Qed.
Lemma record_key_eq ar a b :
  record_key_cmp ar a b = Eq ↔ group a = group b ∧ key_of ar a = key_of ar b.
Proof.
  unfold record_key_cmp. split.
  - destruct (Z.compare_spec (Z.of_nat (group_index (group a))) (Z.of_nat (group_index (group b)))) as [Hg| |]; simpl; try done.
    rewrite cmp_bytes_eq. split; [|done]. by destruct (group a), (group b).
  - intros [-> ->]. by rewrite Z.compare_refl /= cmp_bytes_refl.
Qed.

Lemma duplicate_count_sorted ar l :
  StronglySorted (λ a b, record_key_cmp ar a b ≠ Gt) l →
  duplicate_count ar l = Z.of_nat (length l) - distinct (rule_of ar <$> l).
Proof.
  unfold distinct. induction 1 as [|a l Hs IH Ha]; [done|]. destruct l as [|b l]; [done|].
  change (duplicate_count ar (a :: b :: l)) with
    ((if bool_decide (group a = group b ∧ key_of ar a = key_of ar b) then 1 else 0) + duplicate_count ar (b :: l)).
  rewrite IH. rewrite (fmap_cons (rule_of ar) a) (fmap_cons rule_id (rule_of ar a)). set (ids := rule_id <$> (rule_of ar <$> b :: l)).
  change (remove_dups (rule_id (rule_of ar a) :: ids)) with
    (if decide_rel (∈) (rule_id (rule_of ar a)) ids then remove_dups ids else rule_id (rule_of ar a) :: remove_dups ids).
  destruct (decide_rel (∈) (rule_id (rule_of ar a)) ids) as [Hin|Hin].
  - rewrite bool_decide_true; [rewrite !length_cons; lia|].
    unfold ids in Hin. apply list_elem_of_fmap in Hin as (rc & Hc & (c & -> & Hin)%list_elem_of_fmap).
    unfold rule_id, rule_of in Hc. simpl in Hc. injection Hc as Hg Hk.
    assert (record_key_cmp ar a c = Eq) as Hac by (by apply record_key_eq).
    apply elem_of_cons in Hin as [->|Hin]; [done|]. apply record_key_eq.
    apply StronglySorted_inv in Hs as [_ Hb]. rewrite Forall_forall in Hb. specialize (Hb c Hin).
    apply Forall_inv in Ha. rewrite (cmp_eq_l _ a c b (total_record_key ar) Hac) in Ha |- *.
    rewrite (cmp_flip (total_record_key ar) b c) in Ha |- *. by destruct (record_key_cmp ar b c).
  - rewrite bool_decide_false; [rewrite !length_cons; lia|]. intros [Hg Hk]. apply Hin. unfold ids.
    apply list_elem_of_fmap. exists (rule_of ar b). split; [|apply list_elem_of_fmap_2; left].
    unfold rule_id, rule_of; simpl. by rewrite Hg Hk.
Qed.
Lemma distinct_perm rs rs' : rs ≡ₚ rs' → distinct rs = distinct rs'.
Proof.
  intros Hp. unfold distinct. f_equal. apply Permutation_length, NoDup_Permutation; [apply NoDup_remove_dups..|].
  intros x. by rewrite !elem_of_remove_dups Hp.
Qed.

(** A source that parsed: its rules are appended, up to their order. *)
Record source_done (b : Builder) (st : SourceStats) (b' : Builder) : Prop := {
  so_ok : builder_ok retained b';
  so_failed : failed b' = None;
  so_frame : frame b b';
  so_rules : ∃ news, rules b' ≡ₚ rules b ++ news ∧ Forall (block_rule slot) news ∧ news ≠ [] ∧
    s_input_rules st = Z.of_nat (length news) ∧ duplicates st = Z.of_nat (length news) - distinct news;
  so_bytes : decoded_bytes b' = decoded_bytes b + s_decoded_bytes st;
  so_limit : 0 ≤ s_decoded_bytes st ≤ MAX_SOURCE;
}.

Lemma sorted_records_ok b l :
  builder_ok retained b → l ≡ₚ items (records b) →
  builder_ok retained (with_records (λ v, {| items := l; capacity := capacity v |}) b).
Proof.
  intros [Ha [Hr] Hb Hret Hch Hru Hcnt] Hp. unfold vec_len in *. split; simpl; try done.
  - split. unfold vec_len; simpl. by rewrite Hp.
  - by rewrite Hp.
  - unfold vec_len; simpl. by rewrite Hp.
Qed.

Lemma finish_source_wp b0 st b m (Hb0 : builder_ok retained b0) :
  reading b0 st [] b →
  wp (let* b := get_b in
      let count := Z.of_nat (length (items (records b)) - length (items (records b0))) in
      if bool_decide (count = 0) then fail (error EmptySource) else
      let ar := items (arena b) in
      let added := drop (length (items (records b0))) (items (records b)) in
      if forallb (λ r, bool_decide (is_Some (key ar (entry r)))) added then
        let added := sort_unstable_by (record_key_cmp ar) added in
        modify_b (with_records (λ v, {| items := take (length (items (records b0))) (items v) ++ added;
          capacity := capacity v |})) ;;;
        ret (mkStats (lines st) count (s_decoded_bytes st) (duplicate_count ar added))
      else panic)
    (λ st s, source_done b0 st s.1) (λ _ s, sound retained b0 s.1) (b, m).
Proof.
  intros Hrd. pose proof Hrd as [[news [Hok Hf Hr Hn Hfr]] Hb Hl _]. apply wp_bind, wp_get_b. cbv zeta.
  set (n0 := length (items (records b0))). set (ar := items (arena b)).
  assert (length (items (records b)) = (n0 + length news)%nat) as Hlen.
  { apply (f_equal length) in Hr. unfold rules in Hr. rewrite length_app !length_fmap in Hr. done. }
  assert (rule_of ar <$> take n0 (items (records b)) = rules b0) as Htake.
  { rewrite fmap_take. change (rule_of ar <$> items (records b)) with (rules b). rewrite Hr.
    assert (n0 = length (rules b0)) as -> by (unfold rules; by rewrite length_fmap). by rewrite take_app_length. }
  assert (rule_of ar <$> drop n0 (items (records b)) = news) as Hdrop.
  { rewrite fmap_drop. change (rule_of ar <$> items (records b)) with (rules b). rewrite Hr.
    assert (n0 = length (rules b0)) as -> by (unfold rules; by rewrite length_fmap). by rewrite drop_app_length. }
  case_bool_decide as Hc; [apply wp_fail; by split|].
  assert (forallb (λ r, bool_decide (is_Some (key ar (entry r)))) (drop n0 (items (records b))) = true) as ->.
  { apply Is_true_true, forallb_True, Forall_drop. eapply Forall_impl; [apply Hok|]. intros r (Hk & _).
    apply bool_decide_pack. by rewrite Hk. }
  set (srt := sort_unstable_by (record_key_cmp ar) (drop n0 (items (records b)))).
  assert (srt ≡ₚ drop n0 (items (records b))) as Hsrt by (apply sort_perm, total_record_key).
  apply wp_bind, wp_modify_b, wp_ret. simpl.
  assert (with_records (λ v, {| items := take n0 (items v) ++ srt; capacity := capacity v |}) b =
    with_records (λ v, {| items := take n0 (items (records b)) ++ srt; capacity := capacity v |}) b) as -> by done.
  split; simpl; try done.
  - apply sorted_records_ok; [done|]. by rewrite Hsrt take_drop.
  - by destruct Hfr.
  - exists news. split_and!; [|done| |lia|].
    + unfold rules; simpl. fold ar. rewrite fmap_app Htake. by rewrite Hsrt Hdrop.
    + intros ->. simpl in Hlen. lia.
    + rewrite duplicate_count_sorted; [|apply sort_sorted, total_record_key].
      rewrite (distinct_perm _ (rule_of ar <$> drop n0 (items (records b)))); [|by rewrite Hsrt].
      rewrite Hdrop Hsrt length_drop. lia.
Qed.

Lemma read_source_wp r b m :
  builder_ok retained b → failed b = None → 
  wp (read_source format slot r) (λ st s, source_done b st s.1) (λ _ s, sound retained b s.1) (b, m).
Proof.
  intros Hb Hf. unfold read_source. apply wp_bind, wp_get_b. apply wp_bind.
  eapply wp_mono; [| |apply (wp_loop _ (λ l s, reading b l.1.1 l.1.2 s.1)
    (λ l, sum_list_with (λ c, S (from_option length O c)) l.2) (λ st s, reading b st [] s.1)
    (λ _ s, sound retained b s.1))]; [|done| | |].
  - intros st [b' m'] Hrd. by apply finish_source_wp.
  - intros [[st used] r'] [b' m'] Hrd. eapply wp_mono; [| |by apply read_step_wp]; [|done].
    intros [[[st' used'] r'']|st'] s; [|done]. by intros [].
  - split; simpl; [exists []; by apply parsed_refl|lia|unfold MAX_SOURCE; lia|unfold LINE_BYTES; lia].
  - simpl. unfold read_fuel. lia.
Qed.
End parse_proof.

(** The line buffer is charged while a source is read. *)
Lemma charge_line retained b n (Q : unit → Builder * nat → Prop) R :
  builder_ok retained b → failed b = None →
  (∀ b', builder_ok (retained + 4096) b' → failed b' = None → frame b b' → rules b' = rules b →
    decoded_bytes b' = decoded_bytes b → Q tt (b', n)) →
  (∀ e, R e (b, n)) → wp (on_budget (reserve 4096)) Q R (b, n).
Proof.
  intros Hb Hf HQ HR. pose proof (ok_retained _ _ Hb) as Hret. apply wp_on_budget, reserve_wp; [apply Hb|done| |].
  - intros bu Hbu Hlive Hlim _. simpl. apply HQ; [|done| |done|done].
    + pose proof (ok_charged _ _ Hb Hf). destruct Hb. split; simpl; try done; lia.
    + by split.
  - specialize (HR (error MemoryLimit)). by destruct b.
Qed.
Lemma release_line retained b n (Q : unit → Builder * nat → Prop) R :
  builder_ok (retained + 4096) b → 0 ≤ retained →
  (∀ b', builder_ok retained b' → failed b' = failed b → frame b b' → rules b' = rules b →
    decoded_bytes b' = decoded_bytes b → Q tt (b', n)) →
  wp (on_budget (release 4096)) Q R (b, n).
Proof.
  intros Hb Hret HQ. pose proof (ok_retained _ _ Hb) as Hl. apply wp_on_budget, release_wp; [apply Hb|lia|].
  intros bu Hbu Hlive Hlim _. simpl. apply HQ; [|done| |done|done].
  - destruct Hb as [? ? ? ? Hch ? ?]. split; simpl; try done; [lia|]. intros Hf. specialize (Hch Hf). lia.
  - by split.
Qed.

Section source.
Context {H : Host} `{!HostSpec H} {SL : SliceLib} `{!SliceSpec SL} {IP : IpParse}.

Lemma parse_source_wp format slot retained r b n :
  builder_ok retained b → 0 ≤ slot ≤ u16_max →
  wp (parse_source format slot r)
    (λ st s, failed b = None ∧ source_done slot retained b st s.1)
    (λ e s, poisoned retained b e s.1) (b, n).
Proof.
  intros Hb Hslot. pose proof (ok_retained _ _ Hb) as Hret. unfold parse_source. apply wp_unpoisoned.
  { intros e He. by split_and!. }
  intros Hf. apply wp_bind, wp_poisoning, (charge_line retained); [done|done| |].
  2: { intros e. split_and!; [by apply with_failed_ok|done|done]. }
  intros b1 Hb1 Hf1 Hfr1 Hr1 Hd1. apply wp_poisoning, wp_finally.
  eapply wp_mono; [| |by apply (read_source_wp format slot (retained + 4096))].
  - intros st [b2 m2] [Hok Hf2 Hfr2 (news & Hrules & Hn) Hbytes Hlim].
    apply (release_line retained); [done|lia|]. intros b3 Hb3 Hf3 Hfr3 Hr3 Hd3. split; [done|]. simpl in *.
    split; [done|congruence|eapply frame_trans; [exact Hfr1|by eapply frame_trans]| |congruence|done].
    exists news. by rewrite Hr3 Hrules Hr1.
  - intros e [b2 m2] [Hok Hfr2]. apply (release_line retained); [done|lia|].
    intros b3 Hb3 Hf3 Hfr3 Hr3 Hd3. split_and!; [by apply with_failed_ok|done|]. simpl in *.
    assert (frame b b3) as [] by (eapply frame_trans; [exact Hfr1|by eapply frame_trans]). by split.
Qed.

(** ** Chunks do not matter *)
Context (format : Format) (slot : Z).

Lemma bind_ok {S E A C} (m : M S E A) (k : A → M S E C) s c s' :
  bind m k s = (Ok c, s') ↔ ∃ a s1, m s = (Ok a, s1) ∧ k a s1 = (Ok c, s').
Proof.
  unfold bind. destruct (m s) as [[a|e| |] s1]; split; try (by intros (?&?&?&?)); try discriminate.
  - intros Hk. by exists a, s1.
  - intros (a' & s1' & [= -> ->] & Hk). done.
Qed.
Lemma account_ok st k b n st' s' : 0 ≤ k →
  account st k (b, n) = (Ok st', s') ↔
    s_decoded_bytes st + k ≤ MAX_SOURCE ∧ decoded_bytes b + k ≤ MAX_AGGREGATE ∧
    st' = mkStats (lines st) (s_input_rules st) (s_decoded_bytes st + k) (duplicates st) ∧
    s' = (with_decoded (decoded_bytes b + k) b, n).
Proof.
  intros Hk. unfold account, bind, ok_or, get_b, modify_b, get, put, ret, fail, bind, checked_add, MAX_SOURCE, MAX_AGGREGATE, usize_max, u64_max.
  repeat (case_decide || case_bool_decide); simpl; split; try (intros [= <- <-]); try naive_solver lia;
    try (intros (?&?&?&?); lia).
Qed.

(** The same parse, one byte at a time. *)
Fixpoint by_bytes (st : SourceStats) (used content : list Z) : B SourceStats :=
  match content with
  | [] => if bool_decide (used = []) then ret st
          else parse_line format slot used (lines (next_line st)) ;;; ret (next_line st)
  | x :: content =>
      let* st := account st 1 in
      if bool_decide (x = NEWLINE)
      then parse_line format slot used (lines (next_line st)) ;;; by_bytes (next_line st) [] content
      else if bool_decide (length used < LINE_BYTES)%nat then by_bytes st (used ++ [x]) content
      else fail {| line := lines st + 1; kind := LineLimit |}
  end.

Lemma by_bytes_text st used xs rest s st' s' :
  Forall (λ x, x ≠ NEWLINE) xs → (length used ≤ LINE_BYTES)%nat → xs ≠ [] →
  by_bytes st used (xs ++ rest) s = (Ok st', s') ↔
    ∃ st1 s1, account st (Z.of_nat (length xs)) s = (Ok st1, s1) ∧ (length used + length xs ≤ LINE_BYTES)%nat ∧
      by_bytes st1 (used ++ xs) rest s1 = (Ok st', s').
Proof.
  intros Hxs. revert st used s. induction Hxs as [|x xs Hx Hxs IH]; intros st used [b n] Hu Hne; [done|].
  simpl app. cbn [by_bytes]. rewrite bind_ok. rewrite bool_decide_false //. clear Hne.
  destruct xs as [|y xs].
  - split.
    + intros (st1 & s1 & Hacc & Hk). case_bool_decide; [|done]. exists st1, s1.
      split; [exact Hacc|]. split; [simpl; lia|done].
    + intros (st1 & s1 & Hacc & Hl & Hk). exists st1, s1. split; [exact Hacc|]. simpl in Hl.
      rewrite bool_decide_true; [done|lia].
  - split.
    + intros (st1 & s1 & (? & ? & -> & ->)%account_ok & Hk); [|lia]. case_bool_decide as Hlt; [|done].
      apply IH in Hk as (st2 & s2 & Hacc & Hl & Hk); [|rewrite length_app /=; lia|done].
      apply account_ok in Hacc as (? & ? & -> & ->); [|lia]. simpl in *. rewrite length_app /= in Hl.
      do 2 eexists. split; [apply account_ok; [lia|]; split_and!; [..|done|done]; lia|]. split; [lia|].
      rewrite -app_assoc in Hk. rewrite -Hk. f_equal; [|f_equal].
      * f_equal. lia.
      * unfold with_decoded; simpl. f_equal. lia.
    + intros (st1 & s1 & (? & ? & -> & ->)%account_ok & Hl & Hk); [|lia].
      do 2 eexists. split; [apply account_ok; [lia|]; split_and!; [..|done|done]; simpl in *; lia|].
      rewrite bool_decide_true; [|simpl in *; lia]. apply IH; [rewrite length_app /=; simpl in *; lia|done|].
      do 2 eexists. split; [apply account_ok; [lia|]; split_and!; [..|done|done]; simpl in *; lia|].
      split; [rewrite length_app /=; simpl in *; lia|]. rewrite -app_assoc. rewrite -Hk. f_equal; [|f_equal].
      * simpl. f_equal. lia.
      * unfold with_decoded; simpl. f_equal. lia.
Qed.

Lemma account_add st j k s st' s' : 0 ≤ j → 0 ≤ k →
  account st (j + k) s = (Ok st', s') ↔
    ∃ st1 s1, account st j s = (Ok st1, s1) ∧ account st1 k s1 = (Ok st', s').
Proof.
  intros Hj Hk. destruct s as [b n]. split.
  - intros (? & ? & -> & ->)%account_ok; [|lia]. do 2 eexists.
    split; [apply account_ok; [lia|]; split_and!; [..|done|done]; lia|].
    apply account_ok; [lia|]. unfold with_decoded; simpl. split_and!; [lia|lia|f_equal; lia|do 2 f_equal; lia].
  - intros (st1 & s1 & (? & ? & -> & ->)%account_ok & Hacc); [|lia].
    apply account_ok in Hacc as (? & ? & -> & ->); [|lia]. simpl in *. apply account_ok; [lia|].
    unfold with_decoded; simpl. split_and!; [lia|lia|f_equal; lia|do 2 f_equal; lia].
Qed.

Lemma by_bytes_line st used xs rest s st' s' :
  Forall (λ x, x ≠ NEWLINE) xs → (length used ≤ LINE_BYTES)%nat →
  by_bytes st used (xs ++ NEWLINE :: rest) s = (Ok st', s') ↔
    ∃ st1 s1, account st (Z.of_nat (length xs + 1)) s = (Ok st1, s1) ∧ (length used + length xs ≤ LINE_BYTES)%nat ∧
      (parse_line format slot (used ++ xs) (lines (next_line st1)) ;;; by_bytes (next_line st1) [] rest) s1 = (Ok st', s').
Proof.
  intros Hxs Hu. destruct (decide (xs = [])) as [->|Hne].
  - simpl app. cbn [by_bytes]. rewrite bind_ok. rewrite bool_decide_true // app_nil_r.
    split; [intros (st1 & s1 & Ha & Hk)|intros (st1 & s1 & Ha & _ & Hk)]; exists st1, s1; [|done].
    split_and!; [done|simpl; lia|done].
  - rewrite by_bytes_text //. rewrite Nat2Z.inj_add. cbn [by_bytes]. split.
    + intros (st1 & s1 & Ha & Hl & (st2 & s2 & Ha2 & Hk)%bind_ok). exists st2, s2.
      split; [apply account_add; [lia..|]; by exists st1, s1|]. split; [done|]. by rewrite bool_decide_true in Hk.
    + intros (st2 & s2 & (st1 & s1 & Ha & Ha2)%account_add & Hl & Hk); [|lia..]. exists st1, s1.
      split_and!; [done|done|]. apply bind_ok. exists st2, s2. split; [done|]. by rewrite bool_decide_true.
Qed.

Definition chunks (cs : list (list Z)) : Reader := Some <$> cs.
Lemma consume_chunks n c cs :
  Forall (λ c, c ≠ []) cs →
  ∃ cs', consume n (chunks (c :: cs)) = chunks cs' ∧ Forall (λ c, c ≠ []) cs' ∧ mjoin cs' = drop n c ++ mjoin cs.
Proof.
  intros Hcs. simpl. case_bool_decide as Hn.
  - exists cs. split_and!; [done..|]. by rewrite drop_ge.
  - exists (drop n c :: cs). split_and!; [done| |done]. constructor; [|done]. intros Hd%(f_equal length).
    rewrite length_drop in Hd. simpl in Hd. lia.
Qed.

Lemma read_step_chunk st used c r : c ≠ [] →
  read_step format slot (st, used, Some c :: r) =
    (let* st := account st (Z.of_nat (match list_find (λ b, b = NEWLINE) c with Some (i, _) => i + 1 | None => length c end)) in
     match list_find (λ b, b = NEWLINE) c with
     | Some (i, _) =>
         if bool_decide (length used + i ≤ LINE_BYTES)%nat then
           parse_line format slot (used ++ take i c) (lines (next_line st)) ;;;
           ret (inl (next_line st, [], consume (i + 1) (Some c :: r)))
         else fail {| line := lines st + 1; kind := LineLimit |}
     | None =>
         if bool_decide (length used + length c ≤ LINE_BYTES)%nat then ret (inl (st, used ++ c, r))
         else fail {| line := lines st + 1; kind := LineLimit |}
     end).
Proof.
  intros Hc. unfold read_step. destruct c as [|x l]; [done|]. cbv zeta.
  destruct (list_find _ (x :: l)) as [[i y]|]; [done|]. rewrite Nat.add_0_r firstn_all.
  assert (consume (length (x :: l)) (Some (x :: l) :: r) = r) as -> by (simpl consume; by rewrite bool_decide_true).
  done.
Qed.

Lemma loop_by_bytes fuel cs st used s st' s' :
  Forall (λ c, c ≠ []) cs → (length used ≤ LINE_BYTES)%nat →
  (sum_list_with (λ c, S (from_option length O c)) (chunks cs) < fuel)%nat →
  loop fuel (read_step format slot) (st, used, chunks cs) s = (Ok st', s') ↔
    by_bytes st used (mjoin cs) s = (Ok st', s').
Proof.
  revert cs st used s. induction fuel as [|fuel IH]; intros cs st used s Hcs Hu Hfuel; [lia|].
  cbn [loop]. rewrite bind_ok. destruct Hcs as [|c cs Hc Hcs].
  { cbn. case_bool_decide; [|rewrite bind_ok].
    - split; [intros (r & s1 & [= <- <-] & Hr); exact Hr|]. intros Hr. by exists (inr st), s.
    - split.
      + intros (r & s1 & (u & s2 & Hp & [= <- <-])%bind_ok & Hr). exists u, s2. split; [exact Hp|exact Hr].
      + intros (u & s2 & Hp & Hr). exists (inr (next_line st)), s2. split; [|exact Hr]. apply bind_ok. by exists u, s2. }
  change (mjoin (c :: cs)) with (c ++ mjoin cs).
  change (chunks (c :: cs)) with (Some c :: chunks cs). rewrite read_step_chunk //.
  destruct (list_find (λ b, b = NEWLINE) c) as [[i y]|] eqn:Hfind.
  - apply list_find_Some in Hfind as (Hi & -> & Hbefore).
    pose proof (lookup_lt_Some _ _ _ Hi) as Hlt.
    assert (c ++ mjoin cs = take i c ++ NEWLINE :: drop (S i) c ++ mjoin cs) as ->.
    { by rewrite -{1}(take_drop_middle _ _ _ Hi) -app_assoc. }
    destruct (consume_chunks (i + 1) c cs Hcs) as (cs' & Hcons & Hcs' & Hjoin).
    rewrite by_bytes_line //.
    2: { apply Forall_forall. intros z (j & Hj)%list_elem_of_lookup. apply lookup_take_Some in Hj as [Hj ?]. by apply (Hbefore j z). }
    rewrite length_take_le; [|lia]. replace (drop (S i) c ++ mjoin cs) with (mjoin cs'); [|by rewrite Hjoin Nat.add_1_r].
    assert (sum_list_with (λ c, S (from_option length O c)) (chunks cs') < fuel)%nat as Hf'.
    { rewrite -Hcons. pose proof (consume_smaller (i + 1) c (chunks cs) ltac:(lia)) as Hsm. 
      change (chunks (c :: cs)) with (Some c :: chunks cs) in Hfuel |- *. lia. }
    change (chunks (c :: cs)) with (Some c :: chunks cs) in Hcons.
    split.
    + intros (r & s1 & (st1 & s2 & Ha & Hb)%bind_ok & Hr). exists st1, s2. split; [exact Ha|].
      case_bool_decide; [|done]. split; [done|]. apply bind_ok in Hb as (u & s3 & Hp & [= <- <-]).
      apply bind_ok. exists u, s3. split; [exact Hp|]. simpl in Hcons. rewrite Hcons in Hr. apply IH in Hr; [done..|simpl; lia|done].
    + intros (st1 & s2 & Ha & Hl & (u & s3 & Hp & Hr)%bind_ok).
      exists (inl (next_line st1, [], chunks cs')), s3. split.
      * apply bind_ok. exists st1, s2. split; [exact Ha|]. rewrite bool_decide_true; [|done]. apply bind_ok.
        exists u, s3. split; [exact Hp|]. by rewrite Hcons.
      * apply IH; [done|simpl; lia|done|done].
  - apply list_find_None in Hfind. rewrite by_bytes_text //.
    change (chunks (c :: cs)) with (Some c :: chunks cs) in Hfuel. simpl in Hfuel.
    split.
    + intros (r & s1 & (st1 & s2 & Ha & Hb)%bind_ok & Hr). exists st1, s2. split; [exact Ha|].
      case_bool_decide; [|done]. split; [done|]. injection Hb as <- <-.
      apply IH in Hr; [done..|rewrite length_app; lia|lia].
    + intros (st1 & s2 & Ha & Hl & Hr). exists (inl (st1, used ++ c, chunks cs)), s2. split.
      * apply bind_ok. exists st1, s2. split; [exact Ha|]. by rewrite bool_decide_true.
      * apply IH; [done|rewrite length_app; lia|lia|done].
Qed.

Lemma read_source_chunks cs1 cs2 s st s' :
  Forall (λ c, c ≠ []) cs1 → Forall (λ c, c ≠ []) cs2 → mjoin cs1 = mjoin cs2 →
  read_source format slot (chunks cs1) s = (Ok st, s') → read_source format slot (chunks cs2) s = (Ok st, s').
Proof.
  intros H1 H2 Hj. unfold read_source. rewrite !bind_ok. intros (b & s1 & Hb & Hr). exists b, s1. split; [done|].
  cbv zeta in *. apply bind_ok in Hr as (st1 & s2 & Hl & Hr). apply bind_ok. exists st1, s2. split; [|done].
  apply loop_by_bytes in Hl; [|done|simpl; lia|unfold read_fuel; lia].
  apply loop_by_bytes; [done|simpl; lia|unfold read_fuel; lia|]. by rewrite -Hj.
Qed.
Lemma parse_source_chunks cs1 cs2 s st s' :
  Forall (λ c, c ≠ []) cs1 → Forall (λ c, c ≠ []) cs2 → mjoin cs1 = mjoin cs2 →
  parse_source format slot (chunks cs1) s = (Ok st, s') → parse_source format slot (chunks cs2) s = (Ok st, s').
Proof.
  intros H1 H2 Hj. unfold parse_source, unpoisoned. rewrite !bind_ok. intros (b & s1 & Hb & Hr). exists b, s1.
  split; [done|]. destruct (failed b); [done|]. apply bind_ok in Hr as (u & s2 & Hu & Hr). apply bind_ok.
  exists u, s2. split; [done|]. revert Hr. unfold poisoning, finally.
  destruct (read_source format slot (chunks cs1) s2) as [[a|e| |] s3] eqn:E; try done.
  - by rewrite (read_source_chunks cs1 cs2 s2 a s3 H1 H2 Hj E).
  - unfold bind. destruct (on_budget (release 4096) s3) as [[] ?]; done.
Qed.
End source.

(** ** Properties *)
Section claims.
Context {H : Host} `{!HostSpec H} {SL : SliceLib} `{!SliceSpec SL} {IP : IpParse}.

(** [Builder::parse_source] on any reader neither panics nor runs out of
    steps. A success appends, up to their order, a nonempty list of block rules
    of the given slot; the statistics count them and the duplicates among them,
    at most 16 MiB are decoded and all memory taken for the line buffer is given
    back. An error poisons the builder and leaves its memory accounting sound. *)
Theorem parse_source_appends format slot retained r b n :
  builder_ok retained b → 0 ≤ slot ≤ u16_max →
  wp (parse_source format slot r)
    (λ st s, failed b = None ∧ source_done slot retained b st s.1)
    (λ e s, poisoned retained b e s.1) (b, n).
Proof. apply parse_source_wp. Qed.

(** C32. Streaming is transparent: a text accepted when the reader returns it in
    some sequence of nonempty buffers is accepted in every other one, with the
    same statistics and the same builder. *)
Theorem parse_source_streams format slot cs1 cs2 b n st s' :
  Forall (λ c, c ≠ []) cs1 → Forall (λ c, c ≠ []) cs2 → mjoin cs1 = mjoin cs2 →
  parse_source format slot (chunks cs1) (b, n) = (Ok st, s') →
  parse_source format slot (chunks cs2) (b, n) = (Ok st, s').
Proof. apply parse_source_chunks. Qed.
End claims.

Module ParseWitness.
Import CanonicalWitness.
#[local] Existing Instance host.
#[local] Existing Instance host_spec.
#[local] Existing Instance ListSlice.lib.
#[local] Existing Instance ListSlice.spec.
(** [0.0.0.0] is the only address. *)
Definition ip_parse : IpParse := {| parse_ip t := if bool_decide (t = [48; 46; 48; 46; 48; 46; 48]) then Some (V4 0) else None |}.
#[local] Existing Instance ip_parse.

(** [.ab], a comment, [cd #x] and [.ab] again. *)
Definition source : list Z := [46; 97; 98; 10; 35; 10; 99; 100; 32; 35; 120; 10; 46; 97; 98].
Definition whole : list (list Z) := [source].
Definition pieces : list (list Z) := [take 2 source; take 5 (drop 2 source); drop 7 source].

Lemma parse_source_appends_witness :
  builder_ok 1024 empty ∧ 0 ≤ 3 ≤ u16_max ∧
  ∃ st s, parse_source DomainList 3 (chunks whole) (empty, 0%nat) = (Ok st, s) ∧
    st = mkStats 4 3 15 1 ∧ source_done 3 1024 empty st s.1.
Proof.
  split; [apply empty_ok|]. split; [unfold u16_max; lia|].
  assert (∀ st, (parse_source DomainList 3 (chunks whole) (empty, 0%nat)).1 = Ok st → st = mkStats 4 3 15 1) as Hst.
  { intros st. assert ((parse_source DomainList 3 (chunks whole) (empty, 0%nat)).1 = Ok (mkStats 4 3 15 1)) as Hv by (vm_compute; reflexivity).
    rewrite Hv. by intros [= <-]. }
  assert (is_ok (parse_source DomainList 3 (chunks whole) (empty, 0%nat)).1 = true) as Hok by by_compute.
  pose proof (parse_source_appends DomainList 3 1024 (chunks whole) empty 0 (proj1 empty_ok) ltac:(unfold u16_max; lia)) as Hwp.
  destruct (parse_source DomainList 3 (chunks whole) (empty, 0%nat)) as [[st| | |] s] eqn:E; [|discriminate Hok..].
  exists st, s. split; [reflexivity|]. split; [by apply Hst|]. apply (wp_result _ _ _ _ _ _ E Hwp).
Defined.

Lemma parse_source_streams_witness :
  mjoin whole = mjoin pieces ∧
  ∃ st s, parse_source DomainList 3 (chunks whole) (empty, 0%nat) = (Ok st, s) ∧
    parse_source DomainList 3 (chunks pieces) (empty, 0%nat) = (Ok st, s).
Proof.
  split; [reflexivity|].
  assert (is_ok (parse_source DomainList 3 (chunks whole) (empty, 0%nat)).1 = true) as Hok by by_compute.
  destruct (parse_source DomainList 3 (chunks whole) (empty, 0%nat)) as [[st| | |] s] eqn:E; [|discriminate Hok..].
  exists st, s. split; [reflexivity|].
  apply (parse_source_streams DomainList 3 whole pieces); [by repeat constructor|by repeat constructor|reflexivity|exact E].
Defined.
End ParseWitness.
