(* ===== verification/Lru.v ===== *)
(** * The [lru] crate

    The unbounded [LruCache] the cache and its classification table are built
    on. The interface [LruLib] names the operations the code calls; the laws
    state each of them through the sequence that [iter] yields, most recently
    used first. [Module ListLru] implements the interface. *)
From S2P Require Import Prelude.
Set Default Goal Selector "!".
Set Warnings "-rewrite-rw".

(** ** Association lists with distinct keys *)
Section assoc.
Context {K V : Type} `{EqDecision K}.
Implicit Types l : list (K * V).

Fixpoint assoc (k : K) l : option V :=
  match l with
  | [] => None
  | (k', v) :: l => if bool_decide (k = k') then Some v else assoc k l
  end.
Definition without (k : K) l : list (K * V) := filter (λ p, p.1 ≠ k) l.
Definition keys l : list K := l.*1.

Lemma assoc_Some k v l : NoDup (keys l) → assoc k l = Some v ↔ (k, v) ∈ l.
Proof.
  unfold keys. induction l as [|[k' v'] l IH]; simpl; [rewrite elem_of_nil; naive_solver|].
  intros [Hn Hd]%NoDup_cons. rewrite elem_of_cons. case_bool_decide as E.
  - subst. split; [intros [= ->]; by left|]. intros [[= ->]|Hin]; [done|].
    destruct Hn. apply list_elem_of_fmap. by exists (k', v).
  - rewrite IH //. split; [by right|]. by intros [[=]|].
Qed.
Lemma assoc_None k l : assoc k l = None ↔ k ∉ keys l.
Proof.
  unfold keys. induction l as [|[k' v'] l IH]; simpl; [rewrite elem_of_nil; naive_solver|].
  rewrite elem_of_cons. case_bool_decide; [naive_solver|]. rewrite IH. naive_solver.
Qed.
Lemma elem_of_without p k l : p ∈ without k l ↔ p ∈ l ∧ p.1 ≠ k.
Proof. unfold without. rewrite list_elem_of_filter. naive_solver. Qed.
Lemma keys_without k l : keys (without k l) = filter (λ k', k' ≠ k) (keys l).
Proof.
  unfold keys, without. induction l as [|[k' v'] l IH]; [done|].
  rewrite fmap_cons !filter_cons. cbn [fst]. case_decide; [rewrite fmap_cons|]; by rewrite IH.
Qed.
Lemma NoDup_without k l : NoDup (keys l) → NoDup (keys (without k l)).
Proof. rewrite keys_without. apply NoDup_filter. Qed.
Lemma without_notin k l : k ∉ keys l → without k l = l.
Proof.
  intros Hn. unfold without. apply filter_all, Forall_forall. intros [k' v] Hin Hk. apply Hn.
  apply list_elem_of_fmap. by exists (k', v).
Qed.
Lemma not_in_without k l : k ∉ keys (without k l).
Proof. rewrite keys_without list_elem_of_filter. naive_solver. Qed.
Lemma without_perm k v l : NoDup (keys l) → (k, v) ∈ l → l ≡ₚ (k, v) :: without k l.
Proof.
  induction l as [|[k' v'] l IH]; [by intros _ ?%elem_of_nil|]. intros [Hn Hd]%NoDup_cons.
  rewrite elem_of_cons. unfold without. rewrite filter_cons /=. intros [[= -> ->]|Hin].
  - rewrite decide_False; [|naive_solver]. fold (without k' l). by rewrite without_notin.
  - rewrite decide_True.
    + fold (without k l). rewrite {1}(IH Hd Hin). apply Permutation_swap.
    + intros ->. apply Hn. apply list_elem_of_fmap. by exists (k, v).
Qed.
Lemma assoc_without k k' l : assoc k (without k' l) = if bool_decide (k = k') then None else assoc k l.
Proof.
  unfold without. induction l as [|[k0 v0] l IH]; simpl; [by case_bool_decide|].
  rewrite filter_cons. destruct (decide (k0 = k')) as [->|Hne].
  - rewrite decide_False; [|naive_solver]. rewrite IH. repeat case_bool_decide; naive_solver.
  - rewrite decide_True; [|done]. cbn [assoc]. rewrite IH. repeat case_bool_decide; naive_solver.
Qed.
End assoc.

(** ** The interface *)
Class LruLib := {
  Lru : Type → Type → Type;
  lru_unbounded {K V} : Lru K V;
  (** [iter]: most recently used first. *)
  lru_iter {K V} : Lru K V → list (K * V);
  lru_len {K V} : Lru K V → nat;
  (** [peek] leaves the order alone, [get] makes the entry the most recently
      used one; [get_mut] lets the caller replace the value. *)
  lru_peek {K V} `{EqDecision K} : K → Lru K V → option V;
  lru_get {K V} `{EqDecision K} : K → Lru K V → option V * Lru K V;
  lru_get_mut {K V} `{EqDecision K} : K → (V → V) → Lru K V → Lru K V;
  lru_put {K V} `{EqDecision K} : K → V → Lru K V → Lru K V;
  lru_pop {K V} `{EqDecision K} : K → Lru K V → option V * Lru K V;
  lru_pop_lru {K V} : Lru K V → option (K * V) * Lru K V;
  lru_peek_lru {K V} : Lru K V → option (K * V);
  lru_demote {K V} `{EqDecision K} : K → Lru K V → Lru K V;
  lru_clear {K V} : Lru K V → Lru K V;
}.

Class LruSpec (L : LruLib) : Prop := {
  iter_unbounded K V : lru_iter (@lru_unbounded L K V) = [];
  iter_keys {K V} (l : Lru K V) : NoDup (keys (lru_iter l));
  len_iter {K V} (l : Lru K V) : lru_len l = length (lru_iter l);
  peek_iter {K V} `{EqDecision K} k (l : Lru K V) : lru_peek k l = assoc k (lru_iter l);
  get_result {K V} `{EqDecision K} k (l : Lru K V) : (lru_get k l).1 = assoc k (lru_iter l);
  get_iter {K V} `{EqDecision K} k (l : Lru K V) :
    lru_iter (lru_get k l).2 = match assoc k (lru_iter l) with
                               | Some v => (k, v) :: without k (lru_iter l)
                               | None => lru_iter l
                               end;
  get_mut_iter {K V} `{EqDecision K} k f (l : Lru K V) :
    lru_iter (lru_get_mut k f l) = match assoc k (lru_iter l) with
                                   | Some v => (k, f v) :: without k (lru_iter l)
                                   | None => lru_iter l
                                   end;
  put_iter {K V} `{EqDecision K} k v (l : Lru K V) :
    lru_iter (lru_put k v l) = (k, v) :: without k (lru_iter l);
  pop_result {K V} `{EqDecision K} k (l : Lru K V) : (lru_pop k l).1 = assoc k (lru_iter l);
  pop_iter {K V} `{EqDecision K} k (l : Lru K V) : lru_iter (lru_pop k l).2 = without k (lru_iter l);
  pop_lru_result {K V} (l : Lru K V) : (lru_pop_lru l).1 = last (lru_iter l);
  pop_lru_iter {K V} (l : Lru K V) :
    lru_iter (lru_pop_lru l).2 = take (length (lru_iter l) - 1) (lru_iter l);
  peek_lru_iter {K V} (l : Lru K V) : lru_peek_lru l = last (lru_iter l);
  demote_iter {K V} `{EqDecision K} k (l : Lru K V) :
    lru_iter (lru_demote k l) = match assoc k (lru_iter l) with
                                | Some v => without k (lru_iter l) ++ [(k, v)]
                                | None => lru_iter l
                                end;
  clear_iter {K V} (l : Lru K V) : lru_iter (lru_clear l) = [];
}.

Section lru.
Context {L : LruLib} `{!LruSpec L} {K V : Type} `{EqDecision K}.
Implicit Types l : Lru K V.

Lemma lru_len_pop_lru l : lru_len (lru_pop_lru l).2 = (lru_len l - 1)%nat.
Proof. rewrite !len_iter pop_lru_iter length_take. lia. Qed.
Lemma peek_in k v l : lru_peek k l = Some v ↔ (k, v) ∈ lru_iter l.
Proof. rewrite peek_iter. apply assoc_Some, iter_keys. Qed.
Lemma elem_of_pop_lru p l : p ∈ lru_iter (lru_pop_lru l).2 → p ∈ lru_iter l.
Proof. rewrite pop_lru_iter. intros Hp. by apply (subseteq_take (length (lru_iter l) - 1)). Qed.
End lru.

(** ** One implementation *)
Module ListLru.
Record t (K V : Type) : Type := mk { list_of : list (K * V); distinct : NoDup (keys list_of) }.
Arguments mk {K V} _ _.
Arguments list_of {K V} _.
Arguments distinct {K V} _.

Section ops.
Context {K V : Type}.
Implicit Types l : t K V.
Program Definition unbounded : t K V := mk [] _.
Next Obligation. by apply NoDup_nil_2. Qed.
Program Definition pop_lru l : option (K * V) * t K V :=
  (last (list_of l), mk (take (length (list_of l) - 1) (list_of l)) _).
Next Obligation. intros l. unfold keys. rewrite fmap_take. apply (sublist_NoDup _ _ (distinct l)), sublist_take. Qed.
Program Definition clear l : t K V := mk [] _.
Next Obligation. intros _. by apply NoDup_nil_2. Qed.
Context `{EqDecision K}.
Lemma front_distinct k v l : NoDup (keys ((k, v) :: without k (list_of l))).
Proof. apply NoDup_cons. split; [apply not_in_without|]. apply NoDup_without, distinct. Qed.
Definition put k v l : t K V := mk ((k, v) :: without k (list_of l)) (front_distinct k v l).
Definition get_mut k (f : V → V) l : t K V :=
  match assoc k (list_of l) with Some v => put k (f v) l | None => l end.
Definition get k l : option V * t K V := (assoc k (list_of l), get_mut k id l).
Definition pop k l : option V * t K V :=
  (assoc k (list_of l), mk (without k (list_of l)) (NoDup_without k _ (distinct l))).
Lemma back_distinct k v l : NoDup (keys (without k (list_of l) ++ [(k, v)])).
Proof.
  unfold keys. rewrite fmap_app. apply NoDup_app. split_and!; [apply (NoDup_without k), distinct| |apply NoDup_singleton].
  intros x Hx ->%list_elem_of_singleton. by apply (not_in_without k (list_of l)).
Qed.
Definition demote k l : t K V :=
  match assoc k (list_of l) with
  | Some v => mk (without k (list_of l) ++ [(k, v)]) (back_distinct k v l)
  | None => l
  end.
End ops.

#[export] Instance lib : LruLib := {
  Lru := t;
  lru_unbounded := @unbounded;
  lru_iter := @list_of;
  lru_len K V l := length (list_of l);
  lru_peek K V _ k l := assoc k (list_of l);
  lru_get := @get;
  lru_get_mut := @get_mut;
  lru_put := @put;
  lru_pop := @pop;
  lru_pop_lru := @pop_lru;
  lru_peek_lru K V l := last (list_of l);
  lru_demote := @demote;
  lru_clear := @clear;
}.
#[export] Instance spec : LruSpec lib.
Proof.
  split; try done; simpl.
  - intros. apply distinct.
  - intros K V ? k l. unfold get_mut. by destruct (assoc k (list_of l)).
  - intros K V ? k f l. unfold get_mut. by destruct (assoc k (list_of l)).
  - intros K V ? k l. unfold demote. by destruct (assoc k (list_of l)).
Qed.
End ListLru.
