(* ===== verification/Dns.v ===== *)
(** * DNS messages

    The [hickory_proto] types the sources read and write, as far as they use
    them: a record for each structure whose public fields the code accesses,
    numbers for the IANA code points (record types, classes, response codes,
    EDNS option codes). What the crate computes (name comparison and folding,
    option maps, encoding) is an interface, with the documented behaviour the
    code relies on as its laws. *)
From S2P Require Import Prelude Net Names.
Set Default Goal Selector "!".
Set Warnings "-rewrite-rw".
Local Open Scope Z_scope.

(** ** Names *)
Class DnsNames `{NameLib} := {
  name_eq_dec :: EqDecision Name;
  name_countable :: Countable Name;
  (** [PartialEq], [Hash]: coarser than equality of the representation. *)
  name_eq : Name → Name → bool;
  to_lowercase : Name → Name;
  (** [set_fqdn(true)] *)
  set_fqdn : Name → Name;
  name_len : Name → Z;
  zone_of : Name → Name → bool;
  name_to_bytes : Name → option (list Z);
}.
(** [key_name] of [src/cache.rs]. *)
Definition key_name `{DnsNames} (n : Name) : Name := set_fqdn (to_lowercase n).

Class DnsNamesSpec `{DnsNames} : Prop := {
  (** Comparison and hashing fold the ASCII case. *)
  name_eq_lower a b : name_eq a b = bool_decide (to_lowercase a = to_lowercase b);
  lower_idemp a : to_lowercase (to_lowercase a) = to_lowercase a;
  lower_key a : to_lowercase (key_name a) = key_name a;
  set_fqdn_idemp a : set_fqdn (set_fqdn a) = set_fqdn a;
  zone_of_lower a b : zone_of (to_lowercase a) (to_lowercase b) = zone_of a b;
  name_len_nonneg a : 0 ≤ name_len a;
}.

Section names.
Context `{DnsNamesSpec}.
(** The lowercase fully qualified names of cache keys compare exactly. *)
Lemma name_eq_key a b : name_eq (key_name a) (key_name b) = bool_decide (key_name a = key_name b).
Proof. by rewrite name_eq_lower !lower_key. Qed.
Lemma key_name_idemp a : key_name (key_name a) = key_name a.
Proof. unfold key_name at 1. rewrite lower_key. apply set_fqdn_idemp. Qed.
End names.

(** ** Code points *)
Definition IN : Z := 1.
Definition CNAME : Z := 5.
Definition SOA : Z := 6.
Definition SIG : Z := 24.
Definition TSIG : Z := 250.
Definition IXFR : Z := 251.
Definition AXFR : Z := 252.
Definition ANY : Z := 255.
Definition NoError : Z := 0.
Definition FormErr : Z := 1.
Definition ServFail : Z := 2.
Definition NXDomain : Z := 3.
Definition NotImp : Z := 4.
Definition Refused : Z := 5.
Definition BADVERS : Z := 16.
Definition SUBNET : Z := 8.
Definition KEEPALIVE : Z := 11.
Definition COOKIE : Z := 10.
Definition PADDING : Z := 12.
Definition EXTENDED_ERROR : Z := 15.

(** ** Records *)
Section data.
Context `{NameLib}.

(** Start of authority data: its [minimum] and the rest, with the names in it
    folded (the data compares as its names do). *)
Record Soa : Type := mkSoa { minimum : Z; soa_rest : list Z }.
Inductive RData : Type :=
  | RCname (target : Name)
  | RSoa (soa : Soa)
  | ROther (kind : Z) (data : list Z).
Definition rdata_type (d : RData) : Z :=
  match d with RCname _ => CNAME | RSoa _ => SOA | ROther k _ => k end.
Record Rr : Type := mkRr { rr_name : Name; rr_class : Z; rr_ttl : Z; rr_data : RData }.
Definition record_type (rr : Rr) : Z := rdata_type (rr_data rr).
Definition with_ttl (ttl : Z) (rr : Rr) : Rr := mkRr (rr_name rr) (rr_class rr) ttl (rr_data rr).

Record Query : Type := mkQuery { q_name : Name; q_type : Z; q_class : Z }.

(** ** EDNS *)
Record ClientSubnet : Type := mkSubnet { cs_addr : IpAddr; source_prefix : Z; scope_prefix : Z }.
Inductive EdnsOption : Type :=
  | Subnet (c : ClientSubnet)
  | Unknown (code : Z) (data : list Z).
Definition option_code (o : EdnsOption) : Z := match o with Subnet _ => SUBNET | Unknown c _ => c end.
Record Edns : Type := mkEdns {
  version : Z;
  max_payload : Z;
  dnssec_ok : bool;
  options : list (Z * EdnsOption);
}.

(** ** Messages *)
Record Message : Type := mkMessage {
  id : Z;
  is_response : bool;
  op_code : Z;
  authoritative : bool;
  truncation : bool;
  recursion_desired : bool;
  recursion_available : bool;
  authentic_data : bool;
  checking_disabled : bool;
  response_code : Z;
  queries : list Query;
  answers : list Rr;
  authorities : list Rr;
  additionals : list Rr;
  signature : option (list Z);
  edns : option Edns;
}.
End data.
#[export] Instance ClientSubnet_eq_dec : EqDecision ClientSubnet.
Proof. solve_decision. Defined.
#[export] Instance EdnsOption_eq_dec : EqDecision EdnsOption.
Proof. solve_decision. Defined.
#[export] Instance Edns_eq_dec : EqDecision Edns.
Proof. solve_decision. Defined.
#[export] Instance Soa_eq_dec : EqDecision Soa.
Proof. solve_decision. Defined.

Section setters.
Context `{NameLib}.
Implicit Types m : Message.
Definition with_id (i : Z) m : Message :=
  mkMessage i (is_response m) (op_code m) (authoritative m) (truncation m) (recursion_desired m)
    (recursion_available m) (authentic_data m) (checking_disabled m) (response_code m) (queries m)
    (answers m) (authorities m) (additionals m) (signature m) (edns m).
Definition with_truncation (tc : bool) m : Message :=
  mkMessage (id m) (is_response m) (op_code m) (authoritative m) tc (recursion_desired m)
    (recursion_available m) (authentic_data m) (checking_disabled m) (response_code m) (queries m)
    (answers m) (authorities m) (additionals m) (signature m) (edns m).
Definition with_recursion (rd ra : bool) m : Message :=
  mkMessage (id m) (is_response m) (op_code m) (authoritative m) (truncation m) rd
    ra (authentic_data m) (checking_disabled m) (response_code m) (queries m)
    (answers m) (authorities m) (additionals m) (signature m) (edns m).
Definition with_authentic (ad : bool) m : Message :=
  mkMessage (id m) (is_response m) (op_code m) (authoritative m) (truncation m) (recursion_desired m)
    (recursion_available m) ad (checking_disabled m) (response_code m) (queries m)
    (answers m) (authorities m) (additionals m) (signature m) (edns m).
Definition with_checking (cd : bool) m : Message :=
  mkMessage (id m) (is_response m) (op_code m) (authoritative m) (truncation m) (recursion_desired m)
    (recursion_available m) (authentic_data m) cd (response_code m) (queries m)
    (answers m) (authorities m) (additionals m) (signature m) (edns m).
Definition with_queries (qs : list Query) m : Message :=
  mkMessage (id m) (is_response m) (op_code m) (authoritative m) (truncation m) (recursion_desired m)
    (recursion_available m) (authentic_data m) (checking_disabled m) (response_code m) qs
    (answers m) (authorities m) (additionals m) (signature m) (edns m).
Definition with_edns (e : option Edns) m : Message :=
  mkMessage (id m) (is_response m) (op_code m) (authoritative m) (truncation m) (recursion_desired m)
    (recursion_available m) (authentic_data m) (checking_disabled m) (response_code m) (queries m)
    (answers m) (authorities m) (additionals m) (signature m) e.
(** [for rr in answers.chain(authorities).chain(additionals)]. *)
Definition with_sections (an au ad : list Rr) m : Message :=
  mkMessage (id m) (is_response m) (op_code m) (authoritative m) (truncation m) (recursion_desired m)
    (recursion_available m) (authentic_data m) (checking_disabled m) (response_code m) (queries m)
    an au ad (signature m) (edns m).
Definition map_records (f : Rr → Rr) m : Message :=
  with_sections (f <$> answers m) (f <$> authorities m) (f <$> additionals m) m.
Definition sections m : list Rr := answers m ++ authorities m ++ additionals m.
End setters.
Definition set_max_payload (n : Z) (e : Edns) : Edns := mkEdns (version e) n (dnssec_ok e) (options e).
Definition set_dnssec_ok (b : bool) (e : Edns) : Edns := mkEdns (version e) (max_payload e) b (options e).
Definition map_options (f : list (Z * EdnsOption) → list (Z * EdnsOption)) (e : Edns) : Edns :=
  mkEdns (version e) (max_payload e) (dnssec_ok e) (f (options e)).

(** ** What the crate computes *)
Class MessageLib `{NameLib} := {
  edns_new : Edns;
  (** [Message::error_msg(id, op_code, response_code)] *)
  error_msg : Z → Z → Z → Message;
  (** [OPT::get], [insert] and [remove] *)
  opt_get : Z → list (Z * EdnsOption) → option EdnsOption;
  opt_insert : EdnsOption → list (Z * EdnsOption) → list (Z * EdnsOption);
  opt_remove : Z → list (Z * EdnsOption) → list (Z * EdnsOption);
  (** [Message::to_vec], and [Message::read] with the bytes it leaves. *)
  to_vec : Message → option (list Z);
  message_read : list Z → option (Message * list Z);
}.
Class MessageSpec `{MessageLib} : Prop := {
  new_version : version edns_new = 0;
  new_options : options edns_new = [];
  error_msg_fields i o c :
    error_msg i o c = mkMessage i true o false false false false false false c [] [] [] [] None None;
  get_Some c o l : opt_get c l = Some o → (c, o) ∈ l;
  get_None c l : opt_get c l = None ↔ c ∉ l.*1;
  remove_spec c l : opt_remove c l = filter (λ p, p.1 ≠ c) l;
  (** [insert] adds an option; it may drop options of the same code only. *)
  insert_in o l : (option_code o, o) ∈ opt_insert o l;
  insert_elem o l p : p ∈ opt_insert o l → p ∈ l ∨ p = (option_code o, o);
  remove_other c c' l : c ≠ c' → opt_get c (opt_remove c' l) = opt_get c l;
  insert_other o l c : c ≠ option_code o → opt_get c (opt_insert o l) = opt_get c l;
}.

(** ** An instance of the interfaces *)
Module DnsWitness.
#[export] Instance names : NameLib := {| Name := list (list Z); name_iter n := n |}.
Definition lower_byte (b : Z) : Z := if bool_decide (65 ≤ b ≤ 90) then b + 32 else b.
Definition lower (n : list (list Z)) : list (list Z) := map (map lower_byte) n.
Lemma lower_byte_idemp b : lower_byte (lower_byte b) = lower_byte b.
Proof. unfold lower_byte. repeat case_bool_decide; lia. Qed.
Lemma lower_bytes_idemp n : lower (lower n) = lower n.
Proof.
  unfold lower. rewrite map_map. apply map_ext. intros l. rewrite map_map. apply map_ext, lower_byte_idemp.
Qed.
#[export] Instance dns_names : DnsNames := {|
  name_eq_dec := _ : EqDecision (list (list Z));
  name_countable := _ : Countable (list (list Z));
  name_eq a b := bool_decide (lower a = lower b);
  to_lowercase := lower;
  set_fqdn n := n;
  name_len n := Z.of_nat (sum_list_with (λ l, S (length l)) n);
  zone_of a b := bool_decide (lower a `suffix_of` lower b);
  name_to_bytes n := if forallb (λ l, negb (bool_decide (l = []))) n then Some (concat (map (λ l, Z.of_nat (length l) :: l) n) ++ [0]) else None;
|}.
#[export] Instance dns_names_spec : DnsNamesSpec.
Proof. split; intros; try done; try apply lower_bytes_idemp; simpl; [by rewrite !lower_bytes_idemp|lia]. Qed.

(** A wire name ends at the first empty label. *)
Lemma self_delimiting_names (a b : list (list Z)) (wa wb x y : list Z) :
  name_to_bytes a = Some wa → name_to_bytes b = Some wb → wa ++ x = wb ++ y → wa = wb.
Proof.
  unfold name_to_bytes, dns_names. revert b wa wb. induction a as [|l a IH]; intros b wa wb.
  - intros [= <-]. destruct b as [|k b]; [by intros [= <-]|]. cbn [forallb map concat]. destruct (bool_decide (k = [])) eqn:Hk; [done|].
    apply bool_decide_eq_false in Hk. destruct (forallb _ b); [|done]. intros [= <-] [= Hz _]. by destruct k.
  - cbn [forallb map concat]. destruct (bool_decide (l = [])) eqn:Hl; [done|]. apply bool_decide_eq_false in Hl.
    destruct (forallb _ a) eqn:Ha; [|done]. intros [= <-]. destruct b as [|k b]; [intros [= <-] [= Hz _]; by destruct l|].
    cbn [forallb map concat]. destruct (bool_decide (k = [])); [done|]. destruct (forallb _ b) eqn:Hb; [|done].
    intros [= <-]. cbn [app]. intros [= Hlen Heq]. rewrite -!app_assoc in Heq. apply app_inj_1 in Heq as [-> Heq]; [|lia].
    rewrite -!app_assoc. do 2 f_equal. apply (IH b); [done|by rewrite Hb|by rewrite -!app_assoc].
Qed.

Fixpoint find_option (c : Z) (l : list (Z * EdnsOption)) : option EdnsOption :=
  match l with
  | [] => None
  | (c', o) :: l => if bool_decide (c = c') then Some o else find_option c l
  end.
(** The codec is free: the laws do not tie it to the records. *)
Definition messages `{NameLib} (vec : Message → option (list Z)) (read : list Z → option (Message * list Z)) : MessageLib := {|
  edns_new := mkEdns 0 1232 false [];
  error_msg i o c := mkMessage i true o false false false false false false c [] [] [] [] None None;
  opt_get := find_option;
  opt_insert o l := l ++ [(option_code o, o)];
  opt_remove c l := filter (λ p, p.1 ≠ c) l;
  to_vec := vec;
  message_read := read;
|}.
Lemma messages_spec `{NameLib} vec read : MessageSpec (H0:=messages vec read).
Proof.
  split; try done; simpl.
  - intros c o l. induction l as [|[c' o'] l IH]; simpl; [done|]. case_bool_decide; [intros [= ->]; subst; left|].
    intros Hf. right. by apply IH.
  - intros c l. induction l as [|[c' o'] l IH]; simpl; [split; [intros _; apply not_elem_of_nil|done]|].
    rewrite not_elem_of_cons. case_bool_decide; [naive_solver|]. rewrite IH. naive_solver.
  - intros o l. apply elem_of_app. right. by apply list_elem_of_singleton.
  - intros o l p. rewrite elem_of_app list_elem_of_singleton. done.
  - intros c c' l Hc. induction l as [|[c0 o0] l IH]; [done|]. rewrite filter_cons. simpl.
    destruct (decide (c0 = c')) as [->|Hne].
    + rewrite decide_False; [|naive_solver]. rewrite IH. by rewrite bool_decide_false.
    + rewrite decide_True //. simpl. case_bool_decide; [done|apply IH].
  - intros o l c Hc. induction l as [|[c' o'] l IH]; simpl.
    + rewrite bool_decide_false //.
    + case_bool_decide; [done|apply IH].
Qed.
End DnsWitness.
