(* ===== verification/Ecs.v ===== *)
(** * EDNS client subnet

    [src/ecs.rs]: what subnet is sent upstream for a client, the namespace an
    answer may be cached in, and which requests a cached namespace serves. *)
From S2P Require Import Prelude Net Names Dns.
Set Default Goal Selector "!".
Set Warnings "-rewrite-rw".
Local Open Scope Z_scope.
Local Open Scope rust_scope.

Definition MAX_UDP_PAYLOAD : Z := 1232.

(** ** Data *)
Section scope.
Context `{IpNetLib}.
Inductive Scope : Type :=
  | NoEcs
  | Privacy (ipv4 : bool)
  | Network (n : IpNet)
  | ExactSource (n : IpNet)
  | Learned (ipv4 : bool).
#[export] Instance Scope_eq_dec : EqDecision Scope.
Proof. solve_decision. Defined.
Record ResponseScope : Type := mkResponseScope { rs_cache : option Scope; rs_reply : option Z }.

Definition scope_matches (s : Scope) (outgoing : option ClientSubnet) : bool :=
  match s, outgoing with
  | NoEcs, None => true
  | Privacy ipv4, Some e => bool_decide (source_prefix e = 0) && Bool.eqb ipv4 (is_ipv4 (cs_addr e))
  | Network n, Some e =>
      bool_decide (source_prefix e > 0) && bool_decide (net_prefix_len n ≤ source_prefix e) &&
      net_contains n (cs_addr e)
  | ExactSource n, Some e =>
      bool_decide (source_prefix e > 0) && bool_decide (net_prefix_len n = source_prefix e) &&
      match net_new (cs_addr e) (source_prefix e) with
      | Some sent => bool_decide (net_trunc sent = n)
      | None => false
      end
  | Learned ipv4, Some e => bool_decide (source_prefix e > 0) && Bool.eqb ipv4 (is_ipv4 (cs_addr e))
  | _, _ => false
  end.
Definition scope_prefix_len (s : Scope) : Z :=
  match s with Network n | ExactSource n => net_prefix_len n | _ => 0 end.
Definition reply_scope (s : Scope) (outgoing : option ClientSubnet) : option Z :=
  match s with
  | NoEcs => None
  | Learned _ => source_prefix <$> outgoing
  | _ => Some (scope_prefix_len s)
  end.
End scope.

Record EcsConfig : Type := mkEcsConfig { ecs_enabled : bool; ipv4_prefix : Z; ipv6_prefix : Z }.
Record Context_ : Type := mkContext { outgoing : option ClientSubnet; incoming : option ClientSubnet }.

(** ** Reading and writing the option *)
Section ecs.
Context `{MessageLib} `{IpNetLib}.

Definition subnet (m : Message) : option ClientSubnet :=
  match edns m with
  | Some e => match opt_get SUBNET (options e) with Some (Subnet c) => Some c | _ => None end
  | None => None
  end.
Definition get_or_insert_edns (new : Edns) (m : Message) : Edns := default new (edns m).
Definition set_subnet (s : option ClientSubnet) (m : Message) : Message :=
  let m := match edns m with
           | Some e => with_edns (Some (map_options (opt_remove SUBNET) e)) m
           | None => m
           end in
  match s with
  | None => m
  | Some c =>
      let e := get_or_insert_edns (set_max_payload MAX_UDP_PAYLOAD edns_new) m in
      with_edns (Some (map_options (opt_insert (Subnet c)) e)) m
  end.

(** ** The request *)
Definition R (A : Type) : Type := M unit Z A.
Definition family_prefix (c : EcsConfig) (a : IpAddr) : Z := if is_ipv4 a then ipv4_prefix c else ipv6_prefix c.
Definition unmap (a : IpAddr) : IpAddr :=
  match a with
  | V6 b => match to_ipv4_mapped b with Some v4 => V4 v4 | None => a end
  | V4 _ => a
  end.
Definition cap_payload (m : Message) : Message :=
  match edns m with
  | Some e => with_edns (Some (set_max_payload (Z.min (max_payload e) MAX_UDP_PAYLOAD) e)) m
  | None => m
  end.
(** The address to send and how much of it. *)
Definition source_of (incoming : option ClientSubnet) (peer : IpAddr) (config : EcsConfig) : R (IpAddr * Z) :=
  match incoming with
  | Some e =>
      let* network := ok_or FormErr (net_new (cs_addr e) (source_prefix e)) in
      if bool_decide (source_prefix e > 0) && negb (net_contains network peer) then fail Refused
      else ret (cs_addr e, Z.min (source_prefix e) (family_prefix config (cs_addr e)))
  | None => ret (peer, family_prefix config peer)
  end.
Definition prepare (query : Message) (peer : IpAddr) (config : EcsConfig) : R (Message * Context_) :=
  let incoming := subnet query in
  if match incoming with Some e => bool_decide (scope_prefix e ≠ 0) | None => false end
  then fail FormErr else
  let out := cap_payload query in
  (* [!config.enabled || query.queries[0].query_class() != IN] *)
  let* skip := (if ecs_enabled config
                then let* q := expect (queries query !! 0%nat) in ret (bool_decide (q_class q ≠ IN))
                else ret true) in
  if (skip : bool) then ret (set_subnet None out, mkContext None None) else
  let* (address, source) := source_of incoming (unmap peer) config in
  let* network := ok_or FormErr (net_new address source) in
  let sent := mkSubnet (net_addr (net_trunc network)) source 0 in
  ret (set_subnet (Some sent) out, mkContext (Some sent) incoming).

(** ** The answer *)
Definition source_scope (c : Context_) : option Scope :=
  match outgoing c with
  | None => Some NoEcs
  | Some sent =>
      if bool_decide (source_prefix sent = 0) then Some (Privacy (is_ipv4 (cs_addr sent)))
      else (λ n, ExactSource (net_trunc n)) <$> net_new (cs_addr sent) (source_prefix sent)
  end.
Definition response_cache (c : Context_) (received : option ClientSubnet) : option Scope :=
  match outgoing c, received with
  | _, None => source_scope c
  | Some sent, Some got =>
      if bool_decide (cs_addr got = cs_addr sent) && bool_decide (source_prefix got = source_prefix sent) &&
         bool_decide (scope_prefix got ≤ source_prefix sent)
      then if bool_decide (source_prefix sent = 0) then Some (Privacy (is_ipv4 (cs_addr sent)))
           else (λ n, Network (net_trunc n)) <$> net_new (cs_addr sent) (scope_prefix got)
      else None
  | None, Some _ => None
  end.
Definition response_scope (c : Context_) (response : Message) : ResponseScope :=
  let received := subnet response in
  let cache := response_cache c received in
  let reply := cache ≫= λ s, reply_scope s (outgoing c) in
  mkResponseScope cache (match reply with Some r => Some r | None => scope_prefix <$> received end).

Definition finish_edns (query response : Message) : option Edns :=
  match edns query with
  | Some client =>
      let e := get_or_insert_edns edns_new response in
      let e := set_dnssec_ok (dnssec_ok client) (set_max_payload MAX_UDP_PAYLOAD e) in
      Some (match opt_get COOKIE (options client) with
            | None => map_options (opt_remove COOKIE) e
            | Some _ => e
            end)
  | None => None
  end.
Definition finish (c : Context_) (query response : Message) (scope : option Z) : Message :=
  let m := with_id (id query) response in
  let m := with_recursion (recursion_desired query) (recursion_available m) m in
  let m := with_checking (checking_disabled query) m in
  let m := with_queries (queries query) (with_authentic false m) in
  let m := set_subnet None m in
  let m := with_edns (finish_edns query m) m in
  match incoming c with
  | Some original =>
      set_subnet (Some (mkSubnet (cs_addr original) (source_prefix original) (default (source_prefix original) scope))) m
  | None => m
  end.

Definition response_matches (query response : Message) : bool :=
  match subnet query, subnet response with
  | _, None => true
  | Some sent, Some got => bool_decide (cs_addr sent = cs_addr got) && bool_decide (source_prefix sent = source_prefix got)
  | None, Some _ => false
  end.
End ecs.

(** ** Options *)
Section options_proof.
Context `{MessageLib} `{!MessageSpec}.

Lemma not_key_remove c l : c ∉ (opt_remove c l).*1.
Proof.
  rewrite remove_spec. intros (p & -> & [Hp _]%list_elem_of_filter)%list_elem_of_fmap. done.
Qed.
Lemma get_remove_same c l : opt_get c (opt_remove c l) = None.
Proof. apply get_None, not_key_remove. Qed.
Lemma get_insert_fresh o l : option_code o ∉ l.*1 → opt_get (option_code o) (opt_insert o l) = Some o.
Proof.
  intros Hn. destruct (opt_get (option_code o) (opt_insert o l)) as [o'|] eqn:E.
  - apply get_Some, insert_elem in E as [Hin|[= ->]]; [|done]. destruct Hn. apply list_elem_of_fmap. by exists (option_code o, o').
  - apply get_None in E as []. apply list_elem_of_fmap. exists (option_code o, o). split; [done|]. apply insert_in.
Qed.

Lemma edns_set_subnet s m :
  edns (set_subnet s m) = match s, edns m with
    | None, None => None
    | None, Some e => Some (map_options (opt_remove SUBNET) e)
    | Some c, Some e => Some (map_options (λ l, opt_insert (Subnet c) (opt_remove SUBNET l)) e)
    | Some c, None => Some (map_options (opt_insert (Subnet c)) (set_max_payload MAX_UDP_PAYLOAD edns_new))
    end.
Proof. unfold set_subnet, get_or_insert_edns. destruct (edns m) eqn:E, s; simpl; by rewrite ?E. Qed.
(** What is set is read back, and it is the only subnet of the message. *)
Lemma subnet_set_subnet s m : subnet (set_subnet s m) = s.
Proof.
  unfold subnet. rewrite edns_set_subnet. destruct s as [c|], (edns m) as [e|]; simpl; try done.
  - rewrite (get_insert_fresh (Subnet c)); [done|apply not_key_remove].
  - rewrite (get_insert_fresh (Subnet c)); [done|]. rewrite new_options. apply not_elem_of_nil.
  - by rewrite get_remove_same.
Qed.
Lemma set_subnet_fields s m :
  set_subnet s m = with_edns (edns (set_subnet s m)) m.
Proof. unfold set_subnet. destruct m as [? ? ? ? ? ? ? ? ? ? ? ? ? ? ? [e|]], s; done. Qed.
End options_proof.

Section ecs_proof.
Context `{MessageLib} `{!MessageSpec} `{L : IpNetLib} `{!IpNetSpec L}.

(** ** The subnet that is sent *)
Definition subnet_valid (e : ClientSubnet) : Prop :=
  ip_valid (cs_addr e) ∧ 0 ≤ source_prefix e ∧ 0 ≤ scope_prefix e.
Record config_ok (c : EcsConfig) : Prop := {
  co_v4 : 0 ≤ ipv4_prefix c ≤ 32;
  co_v6 : 0 ≤ ipv6_prefix c ≤ 128;
}.
Lemma family_prefix_ok c a : config_ok c → 0 ≤ family_prefix c a ≤ ip_width a.
Proof. intros [? ?]. unfold family_prefix. destruct a; simpl; lia. Qed.
Lemma unmap_valid a : ip_valid a → ip_valid (unmap a).
Proof.
  intros Ha. destruct a as [b|b]; cbn [unmap]; [exact Ha|]. unfold to_ipv4_mapped. case_decide; [|exact Ha].
  change (0 ≤ Z.land b (Z.ones 32) < 2 ^ 32). rewrite Z.land_ones; [|lia]. apply Z.mod_pos_bound. lia.
Qed.

(** The client address a request speaks for. *)
Definition client_of (query : Message) (peer : IpAddr) : IpAddr :=
  match subnet query with Some e => cs_addr e | None => unmap peer end.
(** What [prepare] may send: never more of the client's address than the
    configuration and the client allow. *)
Record sent_ok (query : Message) (peer : IpAddr) (config : EcsConfig) (sent : ClientSubnet) : Prop := {
  se_scope : scope_prefix sent = 0;
  se_prefix : source_prefix sent = match subnet query with
    | Some e => Z.min (source_prefix e) (family_prefix config (cs_addr e))
    | None => family_prefix config (unmap peer)
    end;
  se_bound : 0 ≤ source_prefix sent ≤ ip_width (cs_addr sent);
  se_addr : cs_addr sent = mask (client_of query peer) (source_prefix sent);
  (** the sent network really holds the peer *)
  se_peer : 0 < source_prefix sent → is_ipv4 (unmap peer) = is_ipv4 (cs_addr sent) ∧
    mask (unmap peer) (source_prefix sent) = cs_addr sent;
}.

Lemma mask_le_eq a b p q :
  is_ipv4 a = is_ipv4 b → 0 ≤ p ≤ q → q ≤ ip_width a → mask a q = mask b q → mask a p = mask b p.
Proof.
  intros Hf Hp Hq Hm. rewrite -(mask_mask_le a p q) // -(mask_mask_le b p q) //; [by rewrite Hm|].
  by destruct a, b.
Qed.

Lemma source_of_wp query peer config (Q : IpAddr * Z → unit → Prop) (P : Z → unit → Prop) :
  config_ok config → ip_valid peer → (∀ e, subnet query = Some e → subnet_valid e) →
  (∀ a s, a = client_of query peer → 0 ≤ s ≤ ip_width a →
     s = match subnet query with
         | Some e => Z.min (source_prefix e) (family_prefix config (cs_addr e))
         | None => family_prefix config (unmap peer)
         end →
     (0 < s → is_ipv4 (unmap peer) = is_ipv4 a ∧ mask (unmap peer) s = mask a s) →
     (∀ e, subnet query = Some e → source_prefix e ≤ ip_width (cs_addr e) ∧ (0 < source_prefix e →
        is_ipv4 (cs_addr e) = is_ipv4 (unmap peer) ∧ mask (unmap peer) (source_prefix e) = mask (cs_addr e) (source_prefix e))) → Q (a, s) tt) →
  (∀ e, subnet query = Some e → ip_width (cs_addr e) < source_prefix e → P FormErr tt) →
  (∀ e n, subnet query = Some e → net_new (cs_addr e) (source_prefix e) = Some n → 0 < source_prefix e →
     net_contains n (unmap peer) = false → P Refused tt) →
  wp (source_of (subnet query) (unmap peer) config) Q P tt.
Proof.
  intros Hc Hpeer Hval HQ HF HR. unfold source_of, client_of in *. destruct (subnet query) as [e|] eqn:Ee.
  - destruct (Hval e eq_refl) as (Ha & Hs & _). apply wp_bind, wp_ok_or.
    2: { intros Hn. apply (HF e eq_refl). destruct (decide (source_prefix e ≤ ip_width (cs_addr e))); [|lia].
      destruct (net_new_Some (cs_addr e) (source_prefix e)) as (? & Hn' & _); [done|lia|congruence]. }
    intros n Hn. destruct (net_new_inv _ _ _ Ha Hs Hn) as (Han & Hpn & Hw).
    pose proof (family_prefix_ok config (cs_addr e) Hc) as Hcap.
    case_bool_decide as Hpos; simpl.
    + destruct (net_contains n (unmap peer)) eqn:Hcon; simpl.
      * rewrite net_contains_spec in Hcon. apply bool_decide_eq_true in Hcon as [Hf Hm]. rewrite Han Hpn in Hf, Hm.
        apply wp_ret, HQ; [done|lia|done| |by intros ? [= <-]]. intros Hmin.
        split; [done|]. apply (mask_le_eq _ _ _ (source_prefix e)); [done|lia| |done].
        by destruct (unmap peer), (cs_addr e).
      * apply wp_fail. apply (HR e n); [done|done|lia|done].
    + apply wp_ret, HQ; [done|lia|done|lia|]. intros ? [= <-]. split; [done|lia].
  - pose proof (family_prefix_ok config (unmap peer) Hc). by apply wp_ret, HQ.
Qed.

(** The capped query differs from the query in the payload size only. *)
Lemma subnet_cap m : subnet (cap_payload m) = subnet m.
Proof. unfold subnet, cap_payload. by destruct (edns m) as [e|] eqn:E; simpl; rewrite ?E. Qed.

(** When a subnet is sent at all. *)
Definition active (query : Message) (config : EcsConfig) : Prop :=
  ecs_enabled config = true ∧ ∃ q, queries query = [q] ∧ q_class q = IN.
(** The requests that are refused, and how: a subnet with a scope; and, where a
    subnet would be sent, a prefix longer than its address or the network of
    somebody else. *)
Definition rejected (query : Message) (peer : IpAddr) (config : EcsConfig) (code : Z) : Prop :=
  ∃ e, subnet query = Some e ∧
    (code = FormErr ∧ (scope_prefix e ≠ 0 ∨ active query config ∧ ip_width (cs_addr e) < source_prefix e) ∨
     code = Refused ∧ scope_prefix e = 0 ∧ active query config ∧ 0 < source_prefix e ≤ ip_width (cs_addr e) ∧
       ¬ (is_ipv4 (cs_addr e) = is_ipv4 (unmap peer) ∧
          mask (unmap peer) (source_prefix e) = mask (cs_addr e) (source_prefix e))).
(** How the OPT record [e] becomes [e'] with the subnet [o]. *)
Record opt_ok (o : option ClientSubnet) (e e' : Edns) : Prop := {
  oo_version : version e' = version e;
  oo_dnssec : dnssec_ok e' = dnssec_ok e;
  oo_payload : max_payload e' = Z.min (max_payload e) MAX_UDP_PAYLOAD;
  oo_others : ∀ c, c ≠ SUBNET → opt_get c (options e') = opt_get c (options e);
  oo_from : ∀ x, x ∈ options e' → (x ∈ options e ∧ x.1 ≠ SUBNET) ∨ ∃ c, o = Some c ∧ x = (SUBNET, Subnet c);
}.
Record prepared (query : Message) (peer : IpAddr) (config : EcsConfig) (m : Message) (c : Context_) : Prop := {
  pr_subnet : subnet m = outgoing c;
  pr_query : m = with_edns (edns m) query;
  pr_edns : match edns query, outgoing c with
    | Some e, o => ∃ e', edns m = Some e' ∧ opt_ok o e e'
    | None, Some sent => ∃ e', edns m = Some e' ∧ opt_ok (Some sent) (set_max_payload MAX_UDP_PAYLOAD edns_new) e'
    | None, None => edns m = None
    end;
  pr_active : is_Some (outgoing c) ↔ active query config;
  pr_sent : ∀ sent, outgoing c = Some sent → incoming c = subnet query ∧ sent_ok query peer config sent;
  pr_none : outgoing c = None → incoming c = None;
  pr_accepted : ∀ code, ¬ rejected query peer config code;
}.
Lemma cap_payload_fields m : cap_payload m = with_edns (edns (cap_payload m)) m.
Proof. unfold cap_payload. by destruct m as [? ? ? ? ? ? ? ? ? ? ? ? ? ? ? [e|]]. Qed.
Lemma opt_set o e : max_payload e ≤ MAX_UDP_PAYLOAD →
  opt_ok o e (map_options (λ l, match o with Some c => opt_insert (Subnet c) (opt_remove SUBNET l) | None => opt_remove SUBNET l end) e).
Proof.
  intros He. split; simpl; [done|done|lia| |].
  - intros c Hc. destruct o as [x|]; [rewrite (insert_other (Subnet x)) //|]; by apply remove_other.
  - assert (∀ x, x ∈ opt_remove SUBNET (options e) → x ∈ options e ∧ x.1 ≠ SUBNET) as Hr.
    { intros x. rewrite remove_spec. by intros [? ?]%list_elem_of_filter. }
    intros x Hx. destruct o as [c|]; [|left; by apply Hr]. apply insert_elem in Hx as [Hx| ->]; [left; by apply Hr|right; eauto].
Qed.
Lemma opt_capped o e e' : opt_ok o (set_max_payload (Z.min (max_payload e) MAX_UDP_PAYLOAD) e) e' → opt_ok o e e'.
Proof. intros [Hv Hd Hp Ho Hf]. split; try done. rewrite Hp /=. lia. Qed.
Lemma prepared_edns o query :
  match edns query, o with
  | Some e, o => ∃ e', edns (set_subnet o (cap_payload query)) = Some e' ∧ opt_ok o e e'
  | None, Some sent => ∃ e', edns (set_subnet o (cap_payload query)) = Some e' ∧ opt_ok (Some sent) (set_max_payload MAX_UDP_PAYLOAD edns_new) e'
  | None, None => edns (set_subnet o (cap_payload query)) = None
  end.
Proof.
  rewrite edns_set_subnet. unfold cap_payload. destruct (edns query) as [e|] eqn:He; simpl.
  - destruct o as [c|]; (eexists; split; [done|]); apply opt_capped.
    + apply (opt_set (Some c)). simpl. lia.
    + apply (opt_set None). simpl. lia.
  - rewrite He. destruct o as [c|]; [|done]. eexists; split; [done|].
    pose proof (opt_set (Some c) (set_max_payload MAX_UDP_PAYLOAD edns_new) ltac:(simpl; lia)) as [Hv Hd Hp Ho Hf].
    split; try done; simpl in *.
    + intros x Hx. by rewrite (insert_other (Subnet c)).
    + intros x Hx. apply insert_elem in Hx as [Hx| ->]; [|right; eauto]. rewrite new_options in Hx. by apply elem_of_nil in Hx.
Qed.
Lemma prepared_fields s query : set_subnet s (cap_payload query) = with_edns (edns (set_subnet s (cap_payload query))) query.
Proof. rewrite {1}set_subnet_fields {2}cap_payload_fields. done. Qed.

Lemma prepare_query_wp query peer config :
  config_ok config → ip_valid peer → (∀ e, subnet query = Some e → subnet_valid e) →
  (∃ q, queries query = [q]) →
  wp (prepare query peer config) (λ r _, prepared query peer config r.1 r.2) (λ code _, rejected query peer config code) tt.
Proof.
  intros Hc Hpeer Hval [q Hq]. unfold prepare.
  destruct (match subnet query with Some e => bool_decide (scope_prefix e ≠ 0) | None => false end) eqn:Escope.
  { destruct (subnet query) as [e|] eqn:Ee; [|done]. apply bool_decide_eq_true in Escope. apply wp_fail. exists e. auto. }
  assert (∀ e, subnet query = Some e → scope_prefix e = 0) as Hscope.
  { intros e He. rewrite He in Escope. apply bool_decide_eq_false in Escope. lia. }
  apply wp_bind. eapply (wp_mono _ (λ b s, s = tt ∧ (b = false ↔ active query config)) _ (λ _ _, False)); [|done|].
  2: { unfold active. destruct (ecs_enabled config); [|apply wp_ret; naive_solver]. rewrite Hq. eapply wp_bind, wp_expect; [done|].
    apply wp_ret. split; [done|]. rewrite bool_decide_eq_false. split; [|intros (_ & q' & [= ->] & Hcl) Hn; by apply Hn].
    intros Hcl. split; [done|]. exists q. split; [done|]. by apply dec_stable. }
  intros skip [] [_ Hact]. destruct skip.
  { assert (¬ active query config) as Hno by (by intros ?%Hact).
    apply wp_ret. split; cbn [fst snd outgoing incoming].
    - apply subnet_set_subnet.
    - apply prepared_fields.
    - apply (prepared_edns None).
    - split; [by intros [? ?]|by intros ?%Hno].
    - done.
    - done.
    - intros code (e & He & [(_ & [Hsc|[? _]])|(_ & _ & ? & _)]); [|by apply Hno|by apply Hno]. by apply Hsc, Hscope. }
  assert (active query config) as Hyes by (by apply Hact).
  apply wp_bind, source_of_wp; [done..| | |].
  - intros a s -> Hs Heq Hpeer' Hown. apply wp_bind, wp_ok_or.
    2: { intros Hn. destruct (net_new_Some (client_of query peer) s) as (? & ? & _); [|lia|congruence].
      unfold client_of. destruct (subnet query) as [e|] eqn:Ee; [by apply (Hval e)|by apply unmap_valid]. }
    intros n Hn. destruct (net_new_inv (client_of query peer) s n) as (Han & Hpn & Hw); [|lia|done|].
    { unfold client_of. destruct (subnet query) as [e|] eqn:Ee; [by apply (Hval e)|by apply unmap_valid]. }
    apply wp_ret. split; cbn [fst snd outgoing incoming].
    + apply subnet_set_subnet.
    + apply prepared_fields.
    + apply (prepared_edns (Some _)).
    + by split.
    + intros sent [= <-]. split; [done|]. rewrite net_trunc_addr Han Hpn. split; simpl; try done.
      { by rewrite ip_width_mask. }
      intros Hpos. rewrite is_ipv4_mask. by apply Hpeer'.
    + done.
    + intros code (e & He & Hbad). destruct (Hown e He) as [Hwidth Hsame].
      destruct Hbad as [(_ & [Hsc|[_ ?]])|(_ & _ & _ & [? _] & Hno)]; [by apply Hsc, Hscope|lia|by apply Hno, Hsame].
  - intros e He Hw. exists e. split; [done|]. left. auto.
  - intros e n He Hn Hpos Hcon. exists e. split; [done|]. right. destruct (Hval e He) as (Ha & Hs & _).
    destruct (net_new_inv _ _ _ Ha Hs Hn) as (Han & Hpn & Hw). split_and!; [done|by apply Hscope|done|lia|lia|].
    rewrite net_contains_spec Han Hpn in Hcon. by apply bool_decide_eq_false in Hcon.
Qed.

(** ** The namespace of an answer *)
Definition outgoing_ok (c : Context_) : Prop :=
  ∀ sent, outgoing c = Some sent → ip_valid (cs_addr sent) ∧ 0 ≤ source_prefix sent ≤ ip_width (cs_addr sent).

Lemma net_of_sent a p : ip_valid a → 0 ≤ p ≤ ip_width a →
  ∃ n, net_new a p = Some n ∧ net_addr (net_trunc n) = mask a p ∧ net_prefix_len (net_trunc n) = p.
Proof.
  intros Ha Hp. destruct (net_new_Some a p Ha Hp) as (n & Hn & Han & Hpn). exists n.
  by rewrite net_trunc_addr net_trunc_prefix Han Hpn.
Qed.
Lemma mask_family_inj a b p : mask a p = mask b p → is_ipv4 a = is_ipv4 b.
Proof. destruct a, b; simpl; congruence. Qed.
Lemma mask_idemp a p : 0 ≤ p ≤ ip_width a → mask (mask a p) p = mask a p.
Proof. intros. apply mask_mask_le; lia. Qed.

(** Which requests an answer to [sent] serves: [None] without a response
    subnet, [Some k] with response scope [k]. *)
Definition serves (sent : ClientSubnet) (k : option Z) (e : ClientSubnet) : Prop :=
  if decide (source_prefix sent = 0) then source_prefix e = 0 ∧ is_ipv4 (cs_addr e) = is_ipv4 (cs_addr sent)
  else 0 < source_prefix e ∧
    match k with
    | None => source_prefix e = source_prefix sent ∧ mask (cs_addr e) (source_prefix sent) = mask (cs_addr sent) (source_prefix sent)
    | Some k => k ≤ source_prefix e ∧ mask (cs_addr e) k = mask (cs_addr sent) k
    end.

Lemma network_matches sent k n e :
  ip_valid (cs_addr sent) → 0 ≤ k ≤ ip_width (cs_addr sent) → net_new (cs_addr sent) k = Some n →
  scope_matches (Network (net_trunc n)) (Some e) = true ↔
    0 < source_prefix e ∧ k ≤ source_prefix e ∧ mask (cs_addr e) k = mask (cs_addr sent) k.
Proof.
  intros Ha Hk Hn. destruct (net_new_inv _ _ _ Ha (proj1 Hk) Hn) as (Han & Hpn & _). simpl.
  rewrite net_contains_spec net_trunc_addr net_trunc_prefix Han Hpn is_ipv4_mask mask_idemp //.
  rewrite !andb_true_iff !bool_decide_eq_true. split.
  - intros [[? ?] [? ?]]. split_and!; [lia|done|done].
  - intros (? & ? & Hm). split_and!; [lia|done|by symmetry; eapply mask_family_inj|done].
Qed.
Lemma exact_matches sent n e :
  ip_valid (cs_addr sent) → 0 ≤ source_prefix sent ≤ ip_width (cs_addr sent) →
  net_new (cs_addr sent) (source_prefix sent) = Some n → ip_valid (cs_addr e) →
  scope_matches (ExactSource (net_trunc n)) (Some e) = true ↔
    0 < source_prefix e ∧ source_prefix e = source_prefix sent ∧
    mask (cs_addr e) (source_prefix sent) = mask (cs_addr sent) (source_prefix sent).
Proof.
  intros Ha Hp Hn He. destruct (net_new_inv _ _ _ Ha (proj1 Hp) Hn) as (Han & Hpn & _). simpl.
  rewrite net_trunc_prefix Hpn !andb_true_iff !bool_decide_eq_true. split.
  - intros [[Hpos Heq] Hm]. rewrite -Heq in Hm. destruct (net_new (cs_addr e) (source_prefix sent)) as [n'|] eqn:En; [|done].
    apply bool_decide_eq_true in Hm. destruct (net_new_inv _ _ _ He (proj1 Hp) En) as (Han' & Hpn' & _).
    split_and!; [lia|done|]. apply (f_equal net_addr) in Hm. by rewrite !net_trunc_addr Han Hpn Han' Hpn' in Hm.
  - intros (Hpos & Heq & Hm). split; [split; [lia|done]|]. rewrite Heq.
    assert (ip_width (cs_addr e) = ip_width (cs_addr sent)) as Hw.
    { pose proof (mask_family_inj _ _ _ Hm) as Hf. by destruct (cs_addr e), (cs_addr sent). }
    destruct (net_new_Some (cs_addr e) (source_prefix sent)) as (n' & Hn' & Han' & Hpn'); [done|lia|]. rewrite Hn'.
    apply bool_decide_eq_true, net_ext; rewrite ?net_trunc_addr ?net_trunc_prefix ?Han ?Hpn ?Han' ?Hpn' //.
Qed.

Lemma response_scope_serves c response s sent e :
  outgoing_ok c → (∀ r, subnet response = Some r → subnet_valid r) → outgoing c = Some sent → ip_valid (cs_addr e) →
  0 ≤ source_prefix e →
  rs_cache (response_scope c response) = Some s →
  scope_matches s (Some e) = true ↔ serves sent (scope_prefix <$> subnet response) e.
Proof.
  intros Hok Hres Hout He Hep. destruct (Hok _ Hout) as [Ha Hp]. unfold response_scope, response_cache, serves; simpl.
  assert (scope_matches (Privacy (is_ipv4 (cs_addr sent))) (Some e) = true ↔
    source_prefix e = 0 ∧ is_ipv4 (cs_addr e) = is_ipv4 (cs_addr sent)) as Hpriv.
  { simpl. rewrite andb_true_iff bool_decide_eq_true. destruct (is_ipv4 (cs_addr sent)), (is_ipv4 (cs_addr e)); simpl; naive_solver. }
  destruct (subnet response) as [r|] eqn:Er; rewrite Hout.
  - destruct (bool_decide (cs_addr r = cs_addr sent) && bool_decide (source_prefix r = source_prefix sent) &&
      bool_decide (scope_prefix r ≤ source_prefix sent)) eqn:Eg; [|done].
    apply andb_true_iff in Eg as [_ Hle]. apply bool_decide_eq_true in Hle.
    destruct (Hres r eq_refl) as (_ & _ & Hsc).
    case_bool_decide as Hz; [intros [= <-]; by rewrite decide_True|]. rewrite decide_False //.
    intros Hs. apply fmap_Some in Hs as (n & Hn & ->). rewrite (network_matches sent (scope_prefix r)); [|done|lia|done].
    simpl. naive_solver.
  - unfold source_scope. rewrite Hout. case_bool_decide as Hz; [intros [= <-]; by rewrite decide_True|].
    rewrite decide_False //. intros Hs. apply fmap_Some in Hs as (n & Hn & ->).
    rewrite (exact_matches sent); [|done..]. simpl. naive_solver.
Qed.

(** The request itself is served by what it stores. *)
Lemma stored_serves_self c response s :
  outgoing_ok c → (∀ r, subnet response = Some r → subnet_valid r) →
  rs_cache (response_scope c response) = Some s → scope_matches s (outgoing c) = true.
Proof.
  intros Hok Hres Hs. destruct (outgoing c) as [sent|] eqn:Hout.
  - destruct (Hok _ Hout) as [Ha Hp].
    apply (response_scope_serves c response s sent sent Hok Hres Hout Ha (proj1 Hp) Hs). unfold serves.
    case_decide; [done|]. split; [lia|]. destruct (subnet response) as [r|] eqn:Er; simpl; [|done].
    unfold response_scope, response_cache in Hs. rewrite Er Hout in Hs. simpl in Hs.
    destruct (bool_decide (cs_addr r = cs_addr sent) && bool_decide (source_prefix r = source_prefix sent) &&
      bool_decide (scope_prefix r ≤ source_prefix sent)) eqn:Eg; [|done].
    apply andb_true_iff in Eg as [_ Hle]. by apply bool_decide_eq_true in Hle.
  - unfold response_scope, response_cache, source_scope in Hs. simpl in Hs. rewrite Hout in Hs.
    destruct (subnet response); simplify_eq. done.
Qed.
End ecs_proof.

(** ** The answer to the client *)
Section finish_proof.
Context `{MessageLib} `{!MessageSpec}.

Record finished (c : Context_) (query response : Message) (scope : option Z) (m : Message) : Prop := {
  fi_id : id m = id query;
  fi_queries : queries m = queries query;
  fi_flags : recursion_desired m = recursion_desired query ∧ checking_disabled m = checking_disabled query ∧
    authentic_data m = false;
  fi_body : response_code m = response_code response ∧ sections m = sections response ∧
    truncation m = truncation response ∧ recursion_available m = recursion_available response;
  (** the subnet is the client's own, never the one sent upstream *)
  fi_subnet : subnet m = (λ o, mkSubnet (cs_addr o) (source_prefix o) (default (source_prefix o) scope)) <$> incoming c;
  fi_edns : edns query = None → incoming c = None → edns m = None;
  fi_payload : ∀ e q, edns m = Some e → edns query = Some q →
    max_payload e = MAX_UDP_PAYLOAD ∧ dnssec_ok e = dnssec_ok q;
  fi_cookie : ∀ e q, edns m = Some e → edns query = Some q → opt_get COOKIE (options q) = None →
    opt_get COOKIE (options e) = None;
}.

Lemma get_COOKIE_subnet c l :
  opt_get COOKIE (opt_insert (Subnet c) (opt_remove SUBNET l)) = opt_get COOKIE (opt_remove SUBNET l).
Proof. by apply insert_other. Qed.
Lemma not_key_filter (P : Z * EdnsOption → Prop) `{!∀ x, Decision (P x)} c l :
  c ∉ l.*1 → c ∉ (filter P l).*1.
Proof.
  intros Hn (p & -> & [_ Hp]%list_elem_of_filter)%list_elem_of_fmap. apply Hn. by apply list_elem_of_fmap_2.
Qed.
Lemma get_remove_None c c' l : opt_get c l = None → opt_get c (opt_remove c' l) = None.
Proof. rewrite !get_None remove_spec. apply not_key_filter. Qed.

Lemma finish_edns_None query m : edns query = None → finish_edns query m = None.
Proof. unfold finish_edns. by intros ->. Qed.
Lemma finish_edns_Some query m q :
  edns query = Some q → ∃ e, finish_edns query m = Some e ∧ max_payload e = MAX_UDP_PAYLOAD ∧ dnssec_ok e = dnssec_ok q ∧
    (opt_get COOKIE (options q) = None → opt_get COOKIE (options e) = None) ∧
    (opt_get SUBNET (options (get_or_insert_edns edns_new m)) = None → opt_get SUBNET (options e) = None).
Proof.
  intros Hq. unfold finish_edns. rewrite Hq. eexists. split; [done|].
  destruct (opt_get COOKIE (options q)) eqn:E; simpl; (split; [done|]); (split; [done|]); split; try done.
  - intros _. apply get_remove_same.
  - apply get_remove_None.
Qed.
Lemma edns_with_edns e m : edns (with_edns e m) = e.
Proof. done. Qed.
Lemma subnet_None m : subnet (set_subnet None m) = None.
Proof. apply (subnet_set_subnet None). Qed.
Lemma get_SUBNET_cleared m :
  opt_get SUBNET (options (get_or_insert_edns edns_new (set_subnet None m))) = None.
Proof.
  unfold get_or_insert_edns. rewrite edns_set_subnet. destruct (edns m) as [e|]; simpl; [apply get_remove_same|].
  rewrite new_options. by apply get_None, not_elem_of_nil.
Qed.

Lemma finish_wp c query response scope : finished c query response scope (finish c query response scope).
Proof.
  unfold finish. set (m1 := with_queries _ _). set (m2 := with_edns _ _).
  assert (m2 = with_edns (finish_edns query (set_subnet None m1)) m1) as Hm2.
  { unfold m2. by rewrite {2}set_subnet_fields. }
  assert (subnet m2 = None) as Hsub.
  { rewrite Hm2. unfold subnet. rewrite edns_with_edns. destruct (edns query) as [q|] eqn:Hq.
    - destruct (finish_edns_Some query (set_subnet None m1) q Hq) as (e & -> & _ & _ & _ & Hs).
      by rewrite Hs; [|apply get_SUBNET_cleared].
    - by rewrite finish_edns_None. }
  set (m3 := match incoming c with Some _ => _ | None => m2 end).
  assert (m3 = with_edns (edns m3) m1) as Hm3.
  { unfold m3. destruct (incoming c) as [o|]; [rewrite {1}set_subnet_fields|]; by rewrite Hm2. }
  assert (subnet m3 = (λ o, mkSubnet (cs_addr o) (source_prefix o) (default (source_prefix o) scope)) <$> incoming c) as Hsub3.
  { unfold m3. destruct (incoming c) as [o|]; [apply (subnet_set_subnet (Some _))|done]. }
  assert (∀ q, edns query = Some q → ∃ e, edns m3 = Some e ∧ max_payload e = MAX_UDP_PAYLOAD ∧ dnssec_ok e = dnssec_ok q ∧
    (opt_get COOKIE (options q) = None → opt_get COOKIE (options e) = None)) as Hedns.
  { intros q Hq. destruct (finish_edns_Some query (set_subnet None m1) q Hq) as (e & He & Hp & Hd & Hc & _).
    assert (edns m2 = Some e) as He2 by (by rewrite Hm2).
    unfold m3. destruct (incoming c) as [o|]; [|by exists e]. rewrite edns_set_subnet He2. eexists. split; [done|].
    simpl. split_and!; [done|done|]. intros Hn. rewrite get_COOKIE_subnet. by apply get_remove_None, Hc. }
  split; try (rewrite Hm3; done); try done.
  - intros Hq Hi. unfold m3. rewrite Hi Hm2. by apply finish_edns_None.
  - intros e q He Hq. destruct (Hedns q Hq) as (e' & He' & ? & ? & _). by simplify_eq.
  - intros e q He Hq. destruct (Hedns q Hq) as (e' & He' & _ & _ & ?). by simplify_eq.
Qed.
End finish_proof.

(** ** Properties *)
Section claims.
Context `{MessageLib} `{!MessageSpec} `{L : IpNetLib} `{!IpNetSpec L}.

(** C25. [Context::prepare] reveals no more of a client than it may, and decides
    every request. It never panics. It fails exactly as [rejected] says: FORMERR
    for a subnet with a scope or a prefix longer than its address, REFUSED for a
    subnet the peer is not in. Otherwise a subnet is sent exactly when the feature
    is on and the class is IN: the client's address cut to the configured prefix
    (or to the client's own shorter prefix, /0 meaning none), with scope zero, and
    holding the peer it is sent for. The upstream query is the client's but for
    the OPT record, which keeps its version, its DO bit and its other options,
    caps the payload size, and carries the chosen subnet and no other one; without
    an OPT record one is made only to carry the subnet. *)
Theorem prepare_minimal query peer config :
  config_ok config → ip_valid peer → (∀ e, subnet query = Some e → subnet_valid e) →
  (∃ q, queries query = [q]) →
  wp (prepare query peer config) (λ r _, prepared query peer config r.1 r.2) (λ code _, rejected query peer config code) tt.
Proof. apply prepare_query_wp. Qed.

(** The namespace an answer is cached under serves the query it answers,
    no query without a subnet, and among the others exactly those the answer
    was given for: the same sent network when the upstream returned no subnet,
    the networks inside the returned scope when it did, and only other /0
    queries of the family for a privacy query. *)
Theorem response_scope_exact c response s sent :
  outgoing_ok c → (∀ r, subnet response = Some r → subnet_valid r) → outgoing c = Some sent →
  rs_cache (response_scope c response) = Some s →
  scope_matches s (outgoing c) = true ∧ scope_matches s None = false ∧
  ∀ e, ip_valid (cs_addr e) → 0 ≤ source_prefix e →
    scope_matches s (Some e) = true ↔ serves sent (scope_prefix <$> subnet response) e.
Proof.
  intros Hok Hres Hout Hs. split; [by eapply stored_serves_self|]. split.
  - unfold response_scope, response_cache, source_scope in Hs. simpl in Hs. rewrite Hout in Hs.
    destruct (subnet response) as [r|]; [destruct (_ && _)|]; try done; case_bool_decide; simplify_eq; try done;
      by apply fmap_Some in Hs as (n & _ & ->).
  - intros e He Hp. by eapply response_scope_serves.
Qed.

(** [Context::finish] makes the answer the client's own: its ID, question
    and flags, its own subnet with the response scope (none when it sent none),
    no AD bit, an OPT record only when the client sent one, and no server
    cookie the client did not take part in; the answer itself is unchanged. *)
Theorem finish_is_clients c query response scope :
  finished c query response scope (finish c query response scope).
Proof. apply finish_wp. Qed.
End claims.

Module EcsWitness.
Import DnsWitness.
#[local] Existing Instance names.
Definition lib : MessageLib := messages (λ _, None) (λ _, None).
#[local] Existing Instance lib.
#[local] Existing Instance ListNet.lib.
#[local] Existing Instance ListNet.spec.
#[local] Instance lib_spec : MessageSpec := messages_spec _ _.

Definition config : EcsConfig := mkEcsConfig true 24 56.
(** 10.0.3.7 asks for [a] without EDNS. *)
Definition peer : IpAddr := V4 167773959.
Definition query : Message :=
  mkMessage 7 false 0 false false true false false false 0 [mkQuery [[97]] 1 1] [] [] [] None None.

Lemma prepare_minimal_witness :
  subnet query = None ∧ ∃ m c, prepare query peer config tt = (Ok (m, c), tt) ∧ prepared query peer config m c ∧
    outgoing c = Some (mkSubnet (V4 167773952) 24 0).
Proof.
  split; [reflexivity|].
  assert (config_ok config) as Hc by (split; cbn; lia).
  assert (ip_valid peer) as Hp by by_compute.
  assert (∀ e, subnet query = Some e → subnet_valid e) as Hv by (intros e [=]).
  assert (∃ q, queries query = [q]) as Hq by (eexists; reflexivity).
  pose proof (prepare_minimal query peer config Hc Hp Hv Hq) as Hwp. clear Hc Hp Hv Hq.
  assert (is_ok (prepare query peer config tt).1 = true) as Hrun by by_compute.
  assert (∀ m c s, prepare query peer config tt = (Ok (m, c), s) → outgoing c = Some (mkSubnet (V4 167773952) 24 0)) as Hout.
  { intros m c s E. vm_compute in E. by injection E as _ <- _. }
  destruct (prepare query peer config tt) as [[[m c]| | |] []] eqn:E; [|discriminate Hrun..].
  exists m, c. split; [reflexivity|]. split; [|by apply (Hout m c tt)].
  apply (wp_result _ _ _ _ _ _ E Hwp).
Defined.

(** The context of that query, and an answer with scope /16. *)
Definition sent : ClientSubnet := mkSubnet (V4 167773952) 24 0.
Definition context : Context_ := mkContext (Some sent) None.
Definition response : Message :=
  mkMessage 7 true 0 false false true true false false 0 [mkQuery [[97]] 1 1] [] [] [] None
    (Some (mkEdns 0 1232 false [(8, Subnet (mkSubnet (V4 167773952) 24 16))])).
(** 10.0.200.0/24, another network of that /16. *)
Definition other : ClientSubnet := mkSubnet (V4 167823360) 24 0.

Lemma response_scope_exact_witness :
  outgoing_ok context ∧ ∃ s, rs_cache (response_scope context response) = Some s ∧
    scope_matches s (Some other) = true ∧ serves sent (Some 16) other.
Proof.
  assert (ip_valid (cs_addr sent)) as Hsent by by_compute.
  assert (ip_valid (cs_addr other)) as Hother by by_compute.
  assert (outgoing_ok context) as Hok by (intros ? [= <-]; split; [exact Hsent|cbn; lia]).
  assert (∀ r, subnet response = Some r → subnet_valid r) as Hres.
  { intros r [= <-]. split; [exact Hsent|cbn; lia]. }
  split; [exact Hok|].
  assert (match rs_cache (response_scope context response) with Some _ => true | None => false end = true) as Hrun
    by (vm_compute; reflexivity).
  destruct (rs_cache (response_scope context response)) as [s|] eqn:E; [|discriminate Hrun].
  exists s. split; [reflexivity|].
  destruct (response_scope_exact context response s sent Hok Hres eq_refl E) as (_ & _ & Hm).
  assert (serves sent (Some 16) other) as Hserves by by_compute.
  split; [|exact Hserves]. apply Hm; [exact Hother|cbn; lia|exact Hserves].
Defined.
Lemma finish_is_clients_witness :
  finished context query response (Some 16) (finish context query response (Some 16)) ∧
  edns (finish context query response (Some 16)) = None.
Proof. split; [apply finish_is_clients|reflexivity]. Defined.
End EcsWitness.
