(* ===== verification/Wire.v ===== *)
(** * The wire form of a message

    [decode] of [src/protocol.rs] and [validate_wire] of [src/ecs.rs]: after
    the library decoded a message, its OPT records are walked once more to
    refuse subnet and padding options the library would accept or discard. *)
From S2P Require Import Prelude Names Dns.
Set Default Goal Selector "!".
Set Warnings "-rewrite-rw".
Local Open Scope Z_scope.
Local Open Scope rust_scope.

Definition MAX_MESSAGE : nat := 65535.
Definition OPT : Z := 41.

(** ** The decoder of [hickory_proto] *)
Record Header : Type := mkHeader {
  h_id : Z;
  h_response : bool;
  h_op_code : Z;
  h_queries : nat;
  h_answers : nat;
  h_authorities : nat;
  h_additionals : nat;
}.
Class DecoderLib := {
  Decoder : Type;
  decoder_new : list Z → Decoder;
  is_empty : Decoder → bool;
  read_u16 : Decoder → option (Z * Decoder);
  read_u32 : Decoder → option (Z * Decoder);
  read_slice : nat → Decoder → option (list Z * Decoder);
  header_read : Decoder → option (Header * Decoder);
  query_read : Decoder → option Decoder;
  name_read : Decoder → option Decoder;
}.
(** The bytes a decoder has not read yet. *)
Class DecoderSpec `{DecoderLib} := {
  unread : Decoder → list Z;
  unread_new b : unread (decoder_new b) = b;
  is_empty_spec d : is_empty d = bool_decide (unread d = []);
  read_u16_spec d : match unread d with
    | a :: b :: rest => ∃ d', read_u16 d = Some (256 * a + b, d') ∧ unread d' = rest
    | _ => read_u16 d = None
    end;
  read_slice_spec n d :
    if decide (n ≤ length (unread d))%nat
    then ∃ d', read_slice n d = Some (take n (unread d), d') ∧ unread d' = drop n (unread d)
    else read_slice n d = None;
  (** reading only moves forward *)
  read_u32_suffix d v d' : read_u32 d = Some (v, d') → unread d' `suffix_of` unread d;
  header_read_suffix d h d' : header_read d = Some (h, d') → unread d' `suffix_of` unread d;
  query_read_suffix d d' : query_read d = Some d' → unread d' `suffix_of` unread d;
  name_read_suffix d d' : name_read d = Some d' → unread d' `suffix_of` unread d;
}.

(** ** The check *)
Definition V (A : Type) : Type := M unit unit A.
Definition ensure (b : bool) : V unit := if b then ret tt else fail tt.
Fixpoint repeat_read {D} (n : nat) (f : D → option D) (d : D) : V D :=
  match n with
  | O => ret d
  | S n => let* d := ok_or tt (f d) in repeat_read n f d
  end.

Section validate.
Context `{DecoderLib}.

(** The ECS option data [d]: family, prefixes, address length, padding bits. *)
Definition check_ecs (d : list Z) : V unit :=
  ensure (bool_decide (4 ≤ length d)%nat) ;;;
  let* f0 := expect (d !! 0%nat) in
  let* f1 := expect (d !! 1%nat) in
  let family := 256 * f0 + f1 in
  let* bits := (if bool_decide (family = 1) then ret 32 else if bool_decide (family = 2) then ret 128 else fail tt) in
  let* source := expect (d !! 2%nat) in
  let* scope := expect (d !! 3%nat) in
  ensure (bool_decide (source ≤ bits) && bool_decide (scope ≤ bits)) ;;;
  ensure (bool_decide (Z.of_nat (length d) = 4 + (source + 7) / 8)) ;;;
  if bool_decide (source mod 8 = 0) then ret tt
  else
    let* l := expect (d !! (length d - 1)%nat) in
    ensure (bool_decide (Z.land l (Z.shiftl 1 (8 - source mod 8) - 1) = 0)).

(** The numbers of subnet and padding options so far. *)
Definition Seen : Type := nat * nat.
Definition option_step (st : Decoder * Seen) : V ((Decoder * Seen) + Seen) :=
  let '(d, (ecs, padding)) := st in
  if is_empty d then ret (inr (ecs, padding)) else
  let* (code, d) := ok_or tt (read_u16 d) in
  let* (length_, d) := ok_or tt (read_u16 d) in
  let* (data, d) := ok_or tt (read_slice (Z.to_nat length_) d) in
  let padding := if bool_decide (code = PADDING) then S padding else padding in
  ensure (negb (bool_decide (code = PADDING)) || bool_decide (padding = 1%nat)) ;;;
  if negb (bool_decide (code = SUBNET)) then ret (inl (d, (ecs, padding)))
  else
    let ecs := S ecs in
    ensure (bool_decide (ecs = 1%nat)) ;;;
    check_ecs data ;;;
    ret (inl (d, (ecs, padding))).

Definition read_envelope (d : Decoder) : option (Z * list Z * Decoder) :=
  d ← name_read d; '(kind, d) ← read_u16 d; '(_, d) ← read_u16 d; '(_, d) ← read_u32 d;
  '(length_, d) ← read_u16 d; '(data, d) ← read_slice (Z.to_nat length_) d; Some (kind, data, d).
Fixpoint records_loop (n : nat) (d : Decoder) (seen : Seen) : V unit :=
  match n with
  | O => ret tt
  | S n =>
      let* (kd, d) := ok_or tt (read_envelope d) in
      let (kind, data) := (kd : Z * list Z) in
      if bool_decide (kind = OPT) then
        let* seen := loop (S (length data)) option_step (decoder_new data, seen) in
        records_loop n d seen
      else records_loop n d seen
  end.
Definition validate_wire (bytes : list Z) : V unit :=
  let* (header, d) := ok_or tt (header_read (decoder_new bytes)) in
  let* d := repeat_read (h_queries header) query_read d in
  records_loop (h_answers header + h_authorities header + h_additionals header)%nat d (O, O).

Definition decode `{MessageLib} (bytes : list Z) : V Message :=
  ensure (bool_decide (length bytes ≤ MAX_MESSAGE)%nat) ;;;
  let* (m, rest) := ok_or tt (message_read bytes) in
  ensure (bool_decide (rest = [])) ;;;
  match edns m with
  | Some _ => validate_wire bytes ;;; ret m
  | None => ret m
  end.
End validate.

(** ** What an accepted message looks like *)
Section spec.
Context `{DecoderLib}.

(** The options of an OPT record. *)
Fixpoint tlvs (fuel : nat) (data : list Z) : option (list (Z * list Z)) :=
  match fuel, data with
  | _, [] => Some []
  | S fuel, c0 :: c1 :: l0 :: l1 :: rest =>
      let n := Z.to_nat (256 * l0 + l1) in
      if decide (n ≤ length rest)%nat
      then cons (256 * c0 + c1, take n rest) <$> tlvs fuel (drop n rest) else None
  | _, _ => None
  end.
Fixpoint opt_records (n : nat) (d : Decoder) : option (list (list Z)) :=
  match n with
  | O => Some []
  | S n => '(kind, data, d) ← read_envelope d; rest ← opt_records n d;
           Some (if decide (kind = OPT) then data :: rest else rest)
  end.
(** All options of all OPT records of a message, in order. *)
Definition wire_options (bytes : list Z) : option (list (Z * list Z)) :=
  '(h, d) ← header_read (decoder_new bytes);
  d ← Nat.iter (h_queries h) (λ od, od ≫= query_read) (Some d);
  datas ← opt_records (h_answers h + h_authorities h + h_additionals h) d;
  os ← mapM (λ data, tlvs (length data) data) datas;
  Some (mjoin os).

Fixpoint be_number (l : list Z) : Z :=
  match l with [] => 0 | b :: l => b * 2 ^ (8 * Z.of_nat (length l)) + be_number l end.
(** RFC 7871: a known family, prefixes within it, exactly the octets of the
    source prefix, and no bit set beyond it. *)
Definition valid_ecs (d : list Z) : Prop :=
  ∃ f0 f1 source scope address bits, d = f0 :: f1 :: source :: scope :: address ∧
    (256 * f0 + f1 = 1 ∧ bits = 32 ∨ 256 * f0 + f1 = 2 ∧ bits = 128) ∧
    source ≤ bits ∧ scope ≤ bits ∧ Z.of_nat (length address) = (source + 7) / 8 ∧
    (2 ^ (8 * Z.of_nat (length address) - source) | be_number address).
Definition of_code (c : Z) (os : list (Z * list Z)) : list (Z * list Z) := filter (λ p, p.1 = c) os.
Definition acceptable (os : list (Z * list Z)) : Prop :=
  (length (of_code SUBNET os) ≤ 1)%nat ∧ (length (of_code PADDING os) ≤ 1)%nat ∧
  Forall (λ p, valid_ecs p.2) (of_code SUBNET os).
End spec.

(** ** Octets and numbers *)
Notation octets := (Forall (λ b : Z, 0 ≤ b ≤ 255)).
Lemma be_number_snoc l b : be_number (l ++ [b]) = be_number l * 256 + b.
Proof.
  induction l as [|x l IH]; cbn [app be_number]; [simpl; lia|]. rewrite IH length_app. cbn [length].
  replace (8 * Z.of_nat (length l + 1)) with (8 * Z.of_nat (length l) + 8) by lia.
  rewrite Z.pow_add_r; [|lia..]. change (2 ^ 8) with 256. ring.
Qed.
Lemma low_bits_divide x b k : 0 ≤ k ≤ 8 →
  Z.land b (Z.shiftl 1 k - 1) = 0 ↔ (2 ^ k | x * 256 + b).
Proof.
  intros Hk. pose proof (Z.pow_pos_nonneg 2 k). rewrite Z.shiftl_1_l. replace (2 ^ k - 1) with (Z.ones k) by (rewrite Z.ones_equiv; lia).
  rewrite Z.land_ones; [|lia]. rewrite Z.mod_divide; [|lia].
  assert ((2 ^ k | x * 256)) as Hx.
  { exists (x * 2 ^ (8 - k)). rewrite -Z.mul_assoc -Z.pow_add_r; [|lia..]. by replace (8 - k + k) with 8 by lia. }
  split; [by apply Z.divide_add_r|]. intros Hs. by apply (Z.divide_add_cancel_r _ (x * 256)).
Qed.

Lemma wp_ensure b (Q : unit → unit → Prop) (R : unit → unit → Prop) :
  (b = true → Q tt tt) → (b = false → R tt tt) → wp (ensure b) Q R tt.
Proof. intros. destruct b; [apply wp_ret|apply wp_fail]; auto. Qed.

Lemma check_ecs_wp d : octets d →
  wp (check_ecs d) (λ _ _, valid_ecs d) (λ _ _, ¬ valid_ecs d) tt.
Proof.
  intros Hd. unfold check_ecs. apply wp_bind, wp_ensure.
  2: { intros Hl%bool_decide_eq_false (f0 & f1 & source & scope & address & bits & -> & _). simpl in Hl. lia. }
  intros Hl%bool_decide_eq_true. destruct d as [|f0 [|f1 [|source [|scope address]]]]; simpl in Hl; try lia.
  assert (∀ P : Prop, (∀ f0' f1' source' scope' address' bits, f0 :: f1 :: source :: scope :: address = f0' :: f1' :: source' :: scope' :: address' →
    (256 * f0' + f1' = 1 ∧ bits = 32 ∨ 256 * f0' + f1' = 2 ∧ bits = 128) →
    source' ≤ bits → scope' ≤ bits → Z.of_nat (length address') = (source' + 7) / 8 →
    (2 ^ (8 * Z.of_nat (length address') - source') | be_number address') → P) →
    valid_ecs (f0 :: f1 :: source :: scope :: address) → P) as Hinv.
  { intros P HP (f0' & f1' & so & sc & ad & bits & Heq & H1 & H2 & H3 & H4 & H5). by eapply HP. }
  do 2 (eapply wp_bind, wp_expect; [reflexivity|]).
  apply wp_bind, (wp_mono _ (λ bits _, 256 * f0 + f1 = 1 ∧ bits = 32 ∨ 256 * f0 + f1 = 2 ∧ bits = 128) _
    (λ _ _, 256 * f0 + f1 ≠ 1 ∧ 256 * f0 + f1 ≠ 2)).
  3: { case_bool_decide; [apply wp_ret; auto|]. case_bool_decide; [apply wp_ret; auto|]. by apply wp_fail. }
  2: { intros _ [] [? ?]. refine (Hinv False _). intros ?????? [= <- <- <- <- <-] ?. naive_solver. }
  intros bits [] Hbits. do 2 (eapply wp_bind, wp_expect; [reflexivity|]). apply wp_bind, wp_ensure.
  2: { intros Hb%andb_false_iff. refine (Hinv False _). intros ?????? [= <- <- <- <- <-] ? ? ? _ _.
    rewrite !bool_decide_eq_false in Hb. lia. }
  intros [Hso Hsc]%andb_true_iff. apply bool_decide_eq_true in Hso, Hsc. apply wp_bind, wp_ensure.
  2: { intros Hb%bool_decide_eq_false. refine (Hinv False _). intros ?????? [= <- <- <- <- <-] _ _ _ Hlen _. simpl length in Hb. lia. }
  intros Hlen%bool_decide_eq_true. cbn [length] in Hlen.
  assert (0 ≤ source) as Hs0.
  { apply Forall_cons in Hd as [_ Hd]. apply Forall_cons in Hd as [_ Hd]. apply Forall_cons in Hd as [? _]. lia. }
  assert (∀ P : Prop, (2 ^ (8 * Z.of_nat (length address) - source) | be_number address) ↔ P →
    (P → valid_ecs (f0 :: f1 :: source :: scope :: address)) ∧
    (¬ P → ¬ valid_ecs (f0 :: f1 :: source :: scope :: address))) as Hpad.
  { intros P HP. split.
    - intros Hp. exists f0, f1, source, scope, address, bits. split_and!; try done; [lia|by apply HP].
    - intros Hp. refine (Hinv False _). intros ?????? [= <- <- <- <- <-] _ _ _ _ Hdiv. by apply Hp, HP. }
  case_bool_decide as Hmod.
  { apply wp_ret. apply (Hpad True); [|done]. split; [done|]. intros _.
    replace (8 * Z.of_nat (length address) - source) with 0; [by exists (be_number address); rewrite Z.mul_1_r|].
    pose proof (Z.div_mod source 8 ltac:(lia)) as Hdm. assert ((source + 7) / 8 = source / 8) as Hq.
    { symmetry. apply (Z.div_unique _ _ _ 7); lia. } lia. }
  destruct address as [|x address _] using rev_ind.
  { exfalso. pose proof (Z.div_le_mono 8 (source + 7) 8). simpl in Hlen. pose proof (Z.div_same 8).
    assert (1 ≤ source) by (destruct (decide (source = 0)); [by subst|lia]). lia. }
  eapply wp_bind, wp_expect.
  { cbn [length]. rewrite (app_comm_cons _ _ scope) (app_comm_cons _ _ source) (app_comm_cons _ _ f1) (app_comm_cons _ _ f0).
    rewrite lookup_app_r; [|rewrite length_app; simpl; lia].
    rewrite length_app. simpl. replace (_ - _)%nat with O by lia. reflexivity. }
  destruct (Hpad (Z.land x (Z.shiftl 1 (8 - source mod 8) - 1) = 0)) as [H1 H2].
  { rewrite be_number_snoc. pose proof (Z.mod_pos_bound source 8 ltac:(lia)) as Hb.
    rewrite (low_bits_divide (be_number address)); [|lia].
    replace (8 * Z.of_nat (length (address ++ [x])) - source) with (8 - source mod 8); [done|].
    pose proof (Z.div_mod source 8 ltac:(lia)) as Hdm. assert ((source + 7) / 8 = source / 8 + 1) as Hq.
    { symmetry. apply (Z.div_unique _ _ _ (source mod 8 - 1)); lia. } lia. }
  apply wp_ensure; [intros Hb%bool_decide_eq_true; by apply H1|intros Hb%bool_decide_eq_false; by apply H2].
Qed.

(** ** The two loops *)
Section validate_proof.
Context `{!DecoderLib} {DS : DecoderSpec}.

Definition acceptable_from (seen : Seen) (os : list (Z * list Z)) : Prop :=
  (seen.1 + length (of_code SUBNET os) ≤ 1)%nat ∧ (seen.2 + length (of_code PADDING os) ≤ 1)%nat ∧
  Forall (λ p, valid_ecs p.2) (of_code SUBNET os).
Definition seen_after (seen : Seen) (os : list (Z * list Z)) : Seen :=
  (seen.1 + length (of_code SUBNET os), seen.2 + length (of_code PADDING os))%nat.
Definition seen_ok (seen : Seen) : Prop := (seen.1 ≤ 1 ∧ seen.2 ≤ 1)%nat.

Lemma of_code_cons (c : Z) (p : Z * list Z) os : of_code c (p :: os) = if decide (p.1 = c) then p :: of_code c os else of_code c os.
Proof. unfold of_code. by rewrite filter_cons. Qed.
Lemma of_code_app (c : Z) (os os' : list (Z * list Z)) : of_code c (os ++ os') = of_code c os ++ of_code c os'.
Proof. unfold of_code. by rewrite filter_app. Qed.
Lemma acceptable_app seen os os' :
  acceptable_from seen (os ++ os') ↔ acceptable_from seen os ∧ acceptable_from (seen_after seen os) os'.
Proof.
  unfold acceptable_from, seen_after. rewrite !of_code_app !length_app Forall_app. simpl.
  split; [intros (?&?&?&?)|intros [(?&?&?) (?&?&?)]]; split_and!; try done; lia.
Qed.

Lemma tlvs_fuel fuel data : (length data ≤ fuel)%nat → tlvs fuel data = tlvs (length data) data.
Proof.
  assert (∀ n fuel data, (length data ≤ fuel)%nat → (length data ≤ n)%nat → tlvs fuel data = tlvs n data) as Hmain.
  { induction n as [|n IH]; intros fuel0 data0 Hf Hn.
    - by destruct data0; [destruct fuel0|simpl in Hn; lia].
    - destruct data0 as [|c0 data0]; [by destruct fuel0|]. destruct fuel0 as [|fuel0]; [simpl in Hf; lia|].
      destruct data0 as [|c1 [|l0 [|l1 rest]]]; [done..|]. simpl in *. case_decide; [|done].
      rewrite (IH fuel0); [done|rewrite length_drop; lia..]. }
  intros. by apply Hmain.
Qed.
Lemma tlvs_step c0 c1 l0 l1 rest :
  tlvs (length (c0 :: c1 :: l0 :: l1 :: rest)) (c0 :: c1 :: l0 :: l1 :: rest) =
    let n := Z.to_nat (256 * l0 + l1) in
    if decide (n ≤ length rest)%nat
    then cons (256 * c0 + c1, take n rest) <$> tlvs (length (drop n rest)) (drop n rest) else None.
Proof.
  assert (tlvs (S (S (S (S (length rest))))) (c0 :: c1 :: l0 :: l1 :: rest) =
    let n := Z.to_nat (256 * l0 + l1) in
    if decide (n ≤ length rest)%nat then cons (256 * c0 + c1, take n rest) <$> tlvs (S (S (S (length rest)))) (drop n rest)
    else None) as E by reflexivity.
  cbn [length]. rewrite E. cbv zeta. case_decide; [|done]. f_equal. apply tlvs_fuel. rewrite length_drop. lia.
Qed.

Lemma read_u16_wp d (Q : Z * Decoder → unit → Prop) (R : unit → unit → Prop) :
  (∀ a b rest d', unread d = a :: b :: rest → unread d' = rest → Q (256 * a + b, d') tt) →
  ((length (unread d) < 2)%nat → R tt tt) → wp (ok_or tt (read_u16 d)) Q R tt.
Proof.
  intros HQ HR. pose proof (read_u16_spec d) as Hs. destruct (unread d) as [|a [|b rest]] eqn:E.
  - rewrite Hs. apply wp_fail, HR. simpl. lia.
  - rewrite Hs. apply wp_fail, HR. simpl. lia.
  - destruct Hs as (d' & -> & Hd'). by apply wp_ret, (HQ a b rest).
Qed.
Lemma read_slice_wp n d (Q : list Z * Decoder → unit → Prop) (R : unit → unit → Prop) :
  (∀ d', (n ≤ length (unread d))%nat → unread d' = drop n (unread d) → Q (take n (unread d), d') tt) →
  ((length (unread d) < n)%nat → R tt tt) → wp (ok_or tt (read_slice n d)) Q R tt.
Proof.
  intros HQ HR. pose proof (read_slice_spec n d) as Hs. case_decide.
  - destruct Hs as (d' & -> & Hd'). by apply wp_ret, HQ.
  - rewrite Hs. apply wp_fail, HR. lia.
Qed.

(** One option: [option_step] reads it as [tlvs] does and checks it. *)
Lemma option_step_wp d seen : octets (unread d) → seen_ok seen →
  wp (option_step (d, seen))
    (λ r _, match r with
     | inr seen' => unread d = [] ∧ seen' = seen
     | inl (d', seen') => ∃ o c0 c1 l0 l1 rest, unread d = c0 :: c1 :: l0 :: l1 :: rest ∧
         (Z.to_nat (256 * l0 + l1) ≤ length rest)%nat ∧ o = (256 * c0 + c1, take (Z.to_nat (256 * l0 + l1)) rest) ∧
         unread d' = drop (Z.to_nat (256 * l0 + l1)) rest ∧
         acceptable_from seen [o] ∧ seen' = seen_after seen [o]
     end)
    (λ _ _, ¬ ∃ os, tlvs (length (unread d)) (unread d) = Some os ∧ acceptable_from seen os) tt.
Proof.
  intros Hoct Hseen. destruct seen as [ecs padding]. unfold option_step. rewrite is_empty_spec.
  case_bool_decide as Hne; [by apply wp_ret|].
  assert (∀ data, data ≠ [] → (length data < 4)%nat → tlvs (length data) data = None) as Hshort.
  { intros [|? [|? [|? [|? ?]]]]; simpl; intros; try done; lia. }
  apply wp_bind, read_u16_wp.
  2: { intros Hl (os & Hos & _). rewrite Hshort in Hos; [done|done|lia]. }
  intros c0 c1 rest1 d1 Hu Hd1. apply wp_bind, read_u16_wp.
  2: { rewrite Hd1. intros Hl (os & Hos & _). rewrite Hshort in Hos; [done|done|]. rewrite Hu. simpl. lia. }
  intros l0 l1 rest d2 Hu1 Hd2. subst rest1. rewrite Hu1 in Hu. rewrite Hu tlvs_step. cbv zeta.
  set (n := Z.to_nat (256 * l0 + l1)). apply wp_bind, read_slice_wp; rewrite Hd2.
  2: { intros Hl (os & Hos & _). rewrite decide_False in Hos; [done|lia]. }
  intros d3 Hn Hd3. rewrite decide_True //. set (o := (256 * c0 + c1, take n rest)).
  assert (octets (take n rest)) as Hdata.
  { rewrite Hu in Hoct. do 4 (apply Forall_cons in Hoct as [_ Hoct]). by apply Forall_take. }
  assert (¬ acceptable_from (ecs, padding) [o] →
    ¬ ∃ os, cons o <$> tlvs (length (drop n rest)) (drop n rest) = Some os ∧ acceptable_from (ecs, padding) os) as Hbad.
  { intros Hno (os & (os' & _ & ->)%fmap_Some & Hacc). by apply (acceptable_app _ [o] os') in Hacc as [? _]. }
  destruct Hseen as [He Hp]. simpl in He, Hp.
  assert (of_code SUBNET [o] = if decide (256 * c0 + c1 = SUBNET) then [o] else []) as HS by apply of_code_cons.
  assert (of_code PADDING [o] = if decide (256 * c0 + c1 = PADDING) then [o] else []) as HP by apply of_code_cons.
  unfold acceptable_from, seen_after in *. rewrite HS HP in Hbad |- *. cbn [fst snd] in *. set (code := 256 * c0 + c1) in *.
  apply wp_bind, wp_ensure.
  2: { intros [Hc%negb_false_iff Hpad]%orb_false_iff. apply bool_decide_eq_true in Hc. apply bool_decide_eq_false in Hpad.
    apply Hbad. rewrite (decide_True _ _ Hc). rewrite (bool_decide_true (code = PADDING)) // in Hpad. simpl. intros (_ & ? & _). lia. }
  intros Hpad. assert ((if bool_decide (code = PADDING) then S padding else padding) =
    (padding + length (if decide (code = PADDING) then [o] else []))%nat ∧
    (padding + length (if decide (code = PADDING) then [o] else []) ≤ 1)%nat) as [-> Hpad1].
  { destruct (decide (code = PADDING)) as [Hc|Hc].
    - assert (bool_decide (code = PADDING) = true) as Hb by by apply bool_decide_eq_true.
      rewrite Hb in Hpad |- *. simpl in *. apply bool_decide_eq_true in Hpad. lia.
    - assert (bool_decide (code = PADDING) = false) as Hb by by apply bool_decide_eq_false.
      rewrite Hb. simpl. lia. }
  clear Hpad. destruct (decide (code = SUBNET)) as [Hs|Hs].
  - rewrite (bool_decide_true (code = SUBNET)); [|done]. cbn [negb]. apply wp_bind, wp_ensure.
    2: { intros Hb%bool_decide_eq_false. apply Hbad. cbn [length]. intros (? & _). lia. }
    intros Hecs%bool_decide_eq_true. apply wp_bind. eapply wp_mono; [| |apply (check_ecs_wp _ Hdata)].
    + intros [] [] Hv. apply wp_ret. cbv beta iota. exists o, c0, c1, l0, l1, rest.
      do 4 (split; [done|]). rewrite HS HP. cbn [length]. split; [|f_equal; lia].
      split_and!; [lia|done|by constructor].
    + intros [] [] Hv. apply Hbad. intros (_ & _ & Hf). by inversion Hf.
  - rewrite (bool_decide_false (code = SUBNET)); [|done]. cbn [negb]. apply wp_ret. cbv beta iota. exists o, c0, c1, l0, l1, rest.
    do 4 (split; [done|]). rewrite HS HP. cbn [length]. split; [|f_equal; lia]. split_and!; [lia|done|done].
Qed.

Lemma acceptable_seen seen os : acceptable_from seen os → seen_ok (seen_after seen os).
Proof. by intros (? & ? & _). Qed.

Lemma option_loop_wp fuel d seen :
  (length (unread d) < fuel)%nat → octets (unread d) → seen_ok seen →
  wp (loop fuel option_step (d, seen))
    (λ seen' _, ∃ os, tlvs (length (unread d)) (unread d) = Some os ∧ acceptable_from seen os ∧ seen' = seen_after seen os)
    (λ _ _, ¬ ∃ os, tlvs (length (unread d)) (unread d) = Some os ∧ acceptable_from seen os) tt.
Proof.
  revert d seen. induction fuel as [|fuel IH]; intros d seen Hf Hoct Hseen; [lia|].
  apply wp_loop_step. eapply wp_mono; [| |by apply option_step_wp]; [|done].
  intros [[d' seen']|seen'] [].
  - intros (o & c0 & c1 & l0 & l1 & rest & Hu & Hn & Ho & Hu' & Hacc & ->).
    rewrite Hu tlvs_step. cbv zeta. rewrite decide_True // -Hu' -Ho.
    eapply wp_mono; [| |apply IH].
    + intros seen2 [] (os & -> & Hacc' & ->). exists (o :: os). split; [done|].
      split; [by apply (acceptable_app seen [o] os)|]. unfold seen_after. simpl.
      rewrite !(of_code_cons _ o). simpl. do 2 case_decide; simpl; f_equal; lia.
    + intros [] [] Hno (os & (os' & Hos & ->)%fmap_Some & Hacc'). apply Hno. exists os'. split; [done|].
      by apply (acceptable_app seen [o] os').
    + rewrite Hu' length_drop. rewrite Hu /= in Hf. lia.
    + rewrite Hu'. rewrite Hu in Hoct. do 4 (apply Forall_cons in Hoct as [_ Hoct]). by apply Forall_drop.
    + by apply acceptable_seen.
  - intros [Hu ->]. exists []. rewrite Hu. split; [done|]. destruct Hseen, seen as [e p]. unfold acceptable_from, seen_after; simpl in *.
    split; [split_and!; [lia|lia|done]|f_equal; lia].
Qed.

Lemma octets_suffix l l' : l' `suffix_of` l → octets l → octets l'.
Proof. by intros [k ->] [_ ?]%Forall_app. Qed.
Lemma read_u16_suffix d v d' : read_u16 d = Some (v, d') → unread d' `suffix_of` unread d.
Proof.
  intros Hr. pose proof (read_u16_spec d) as Hs. destruct (unread d) as [|a [|b rest]]; [congruence..|].
  destruct Hs as (d1 & Hd1 & Hu). rewrite Hd1 in Hr. injection Hr as _ <-. rewrite Hu. by exists [a; b].
Qed.
Lemma read_envelope_octets d k data d' :
  read_envelope d = Some (k, data, d') → octets (unread d) → octets data ∧ octets (unread d').
Proof.
  unfold read_envelope. intros Hr Hoct.
  destruct (name_read d) as [d1|] eqn:E1; [|done]. simpl in Hr.
  destruct (read_u16 d1) as [[kd d2]|] eqn:E2; [|done]. simpl in Hr.
  destruct (read_u16 d2) as [[cl d3]|] eqn:E3; [|done]. simpl in Hr.
  destruct (read_u32 d3) as [[ttl d4]|] eqn:E4; [|done]. simpl in Hr.
  destruct (read_u16 d4) as [[len d5]|] eqn:E5; [|done]. simpl in Hr.
  destruct (read_slice (Z.to_nat len) d5) as [[data' d6]|] eqn:E6; [|done]. injection Hr as <- <- <-.
  assert (octets (unread d5)) as H5.
  { eapply octets_suffix; [by eapply read_u16_suffix|]. eapply octets_suffix; [by eapply read_u32_suffix|].
    do 2 (eapply octets_suffix; [by eapply read_u16_suffix|]). eapply octets_suffix; [by eapply name_read_suffix|done]. }
  pose proof (read_slice_spec (Z.to_nat len) d5) as Hs. case_decide; [|congruence].
  destruct Hs as (d7 & Hd7 & Hu). rewrite Hd7 in E6. injection E6 as <- <-. rewrite Hu.
  split; [by apply Forall_take|by apply Forall_drop].
Qed.

Definition all_options (n : nat) (d : Decoder) : option (list (Z * list Z)) :=
  datas ← opt_records n d; os ← mapM (λ data, tlvs (length data) data) datas; Some (mjoin os).
Lemma all_options_step n d :
  all_options (S n) d = match read_envelope d with
    | None => None
    | Some (k, data, d') =>
        if decide (k = OPT) then os ← tlvs (length data) data; os' ← all_options n d'; Some (os ++ os')
        else all_options n d'
    end.
Proof.
  unfold all_options. simpl. destruct (read_envelope d) as [[[k data] d']|]; simpl; [|done].
  destruct (opt_records n d') as [datas|]; simpl; [|case_decide; [by destruct (tlvs _ _)|done]].
  case_decide; [|done]. simpl. destruct (tlvs (length data) data) as [os|]; simpl; [|done].
  by destruct (mapM _ datas).
Qed.

Lemma records_loop_wp n d seen : octets (unread d) → seen_ok seen →
  wp (records_loop n d seen)
    (λ _ _, ∃ os, all_options n d = Some os ∧ acceptable_from seen os)
    (λ _ _, ¬ ∃ os, all_options n d = Some os ∧ acceptable_from seen os) tt.
Proof.
  revert d seen. induction n as [|n IH]; intros d seen Hoct Hseen.
  { apply wp_ret. exists []. split; [done|]. destruct Hseen. unfold acceptable_from; simpl. split_and!; [lia|lia|done]. }
  cbn [records_loop]. rewrite all_options_step. apply wp_bind, wp_ok_or; [|intros ->; by intros (? & ? & _)].
  intros [[k data] d'] Henv. rewrite Henv. destruct (read_envelope_octets _ _ _ _ Henv Hoct) as [Hdata Hd'].
  destruct (decide (k = OPT)) as [Hk|Hk].
  2: { rewrite bool_decide_false //. by apply IH. }
  rewrite bool_decide_true //. apply wp_bind.
  pose proof (option_loop_wp (S (length data)) (decoder_new data) seen) as Hloop. rewrite unread_new in Hloop.
  eapply wp_mono; [| |apply Hloop; [lia|done|done]].
  - intros seen' [] (os & -> & Hacc & ->). simpl. eapply wp_mono; [| |apply IH; [done|by apply acceptable_seen]].
    + intros [] [] (os' & -> & Hacc'). exists (os ++ os'). split; [done|]. by apply acceptable_app.
    + intros [] [] Hno (os2 & Hos2 & Hacc2). destruct (all_options n d') as [os'|]; [|done]. injection Hos2 as <-.
      apply Hno. exists os'. split; [done|]. by apply acceptable_app in Hacc2 as [_ ?].
  - intros [] [] Hno (os2 & Hos2 & Hacc2). destruct (tlvs (length data) data) as [os|]; [|done]. simpl in Hos2.
    destruct (all_options n d') as [os'|]; [|done]. injection Hos2 as <-.
    apply Hno. exists os. split; [done|]. by apply acceptable_app in Hacc2 as [? _].
Qed.

Lemma queries_read_wp n d (Q : Decoder → unit → Prop) (R : unit → unit → Prop) :
  octets (unread d) →
  (∀ d', Nat.iter n (λ od, od ≫= query_read) (Some d) = Some d' → octets (unread d') → Q d' tt) →
  (Nat.iter n (λ od, od ≫= query_read) (Some d) = None → R tt tt) →
  wp (repeat_read n query_read d) Q R tt.
Proof.
  revert d. induction n as [|n IH]; intros d Hoct HQ HR; [by apply wp_ret, HQ|].
  cbn [repeat_read]. rewrite Nat.iter_succ_r in HR. setoid_rewrite Nat.iter_succ_r in HQ. simpl in HQ, HR.
  assert (Nat.iter n (λ od : option Decoder, od ≫= query_read) None = None) as Hnone by (clear; induction n as [|n IHn]; simpl; [done|by rewrite IHn]).
  apply wp_bind, wp_ok_or; [|intros E; apply HR; by rewrite E].
  intros d1 E. rewrite E in HQ, HR. apply IH; [|done..]. eapply octets_suffix; [by eapply query_read_suffix|done].
Qed.

Lemma validate_wire_wp bytes : octets bytes →
  wp (validate_wire bytes)
    (λ _ _, ∃ os, wire_options bytes = Some os ∧ acceptable os)
    (λ _ _, ¬ ∃ os, wire_options bytes = Some os ∧ acceptable os) tt.
Proof.
  intros Hoct. unfold validate_wire, wire_options. apply wp_bind, wp_ok_or; [|intros ->; by intros (? & ? & _)].
  intros [h d] E. rewrite E. simpl. apply wp_bind.
  assert (octets (unread d)) as Hd.
  { eapply octets_suffix; [by eapply header_read_suffix|]. by rewrite unread_new. }
  apply queries_read_wp; [done| |intros ->; by intros (? & ? & _)]. intros d' -> Hd'. simpl.
  eapply wp_mono; [| |apply (records_loop_wp _ d' (O, O)); [done|split; simpl; lia]].
  - intros [] [] (os & Hos & Hacc). by exists os.
  - intros [] [] Hno (os & Hos & Hacc). apply Hno. by exists os.
Qed.
End validate_proof.

Section decode_total.
Context `{MessageLib} `{!DecoderLib} {DS : DecoderSpec}.
(** Decoding never panics. *)
Lemma decode_total bytes :
  octets bytes → wp (decode bytes) (λ q _, ∃ rest, message_read bytes = Some (q, rest)) (λ _ _, True) tt.
Proof.
  intros Hoct. unfold decode, ensure. apply wp_bind. case_bool_decide; [|by apply wp_fail]. apply wp_ret.
  apply wp_bind, wp_ok_or; [|done]. intros [m rest] Hr. apply wp_bind. case_bool_decide; [|by apply wp_fail]. apply wp_ret.
  destruct (edns m); [|apply wp_ret; by exists rest]. apply wp_bind.
  eapply wp_mono; [| |by apply validate_wire_wp]; [|done]. intros [] [] _. apply wp_ret. by exists rest.
Qed.
End decode_total.

Section claims.
Context `{!DecoderLib} {DS : DecoderSpec}.

(** C27. [validate_wire] never panics and accepts exactly the messages whose
    records parse, whose OPT records hold at most one subnet and one padding
    option, and whose subnet option is the canonical encoding of RFC 7871:
    known family, prefixes within it, exactly the octets the source prefix
    needs, and no address bit beyond it. *)
Theorem validate_wire_exact bytes :
  octets bytes →
  wp (validate_wire bytes)
    (λ _ _, ∃ os, wire_options bytes = Some os ∧ acceptable os)
    (λ _ _, ¬ ∃ os, wire_options bytes = Some os ∧ acceptable os) tt.
Proof. apply validate_wire_wp. Qed.
End claims.

(** ** A decoder *)
Module WireWitness.
Definition read_one (b : list Z) : option (list Z) := match b with _ :: r => Some r | [] => None end.
Definition header (b : list Z) : option (Header * list Z) :=
  match b with
  | _ :: _ :: _ :: _ :: _ :: q :: _ :: an :: _ :: au :: _ :: ad :: r =>
      Some (mkHeader 0 false 0 (Z.to_nat q) (Z.to_nat an) (Z.to_nat au) (Z.to_nat ad), r)
  | _ => None
  end.
(** Names are the root, written as one zero octet. *)
#[export] Instance lib : DecoderLib := {|
  Decoder := list Z;
  decoder_new b := b;
  is_empty b := bool_decide (b = []);
  read_u16 b := match b with x :: y :: r => Some (256 * x + y, r) | _ => None end;
  read_u32 b := match b with x :: y :: z :: w :: r => Some (256 * (256 * (256 * x + y) + z) + w, r) | _ => None end;
  read_slice n b := if decide (n ≤ length b)%nat then Some (take n b, drop n b) else None;
  header_read := header;
  query_read b := read_one b;
  name_read := read_one;
|}.
#[export] Instance spec : DecoderSpec.
Proof.
  refine {| unread := λ b : Decoder, (b : list Z) |}; try done.
  - intros [|a [|b rest]]; simpl; [done..|by eexists].
  - intros n d. simpl. case_decide; [by eexists|done].
  - intros [|a [|b [|c [|e r]]]] v d'; simpl; intros Hr; simplify_eq. by exists [a; b; c; e].
  - intros d h d'. simpl. unfold header. intros Hr. do 12 (destruct d as [|? d]; [done|]). injection Hr as _ <-.
    by eexists [_; _; _; _; _; _; _; _; _; _; _; _].
  - intros [|a r] d'; simpl; intros Hr; simplify_eq. by exists [a].
  - intros [|a r] d'; simpl; intros Hr; simplify_eq. by exists [a].
Defined.

(** One OPT record with the subnet 10.20.0.0/15. *)
Definition wire : list Z :=
  [0; 0; 1; 0; 0; 0; 0; 0; 0; 0; 0; 1; 0; 0; 41; 4; 208; 0; 0; 0; 0; 0; 10; 0; 8; 0; 6; 0; 1; 15; 0; 10; 20].
Lemma validate_wire_exact_witness :
  octets wire ∧ ∃ os, wire_options wire = Some os ∧ acceptable os ∧ os = [(8, [0; 1; 15; 0; 10; 20])].
Proof.
  assert (octets wire) as Hoct by (repeat constructor; lia).
  split; [exact Hoct|]. pose proof (validate_wire_exact wire Hoct) as Hwp.
  assert (is_ok (validate_wire wire tt).1 = true) as Hrun by by_compute.
  destruct (validate_wire wire tt) as [[u| | |] s] eqn:E; [|discriminate Hrun..].
  destruct (wp_result _ _ _ _ _ _ E Hwp) as (os & Hos & Hacc). exists os. split; [exact Hos|]. split; [exact Hacc|].
  vm_compute in Hos. by injection Hos as <-.
Defined.
End WireWitness.
