(* ===== verification/Protocol.v ===== *)
(** * Message admission, error replies and per-hop encoding

    [src/protocol.rs] (its [decode] is in [Wire]): which decoded messages are
    forwarded, answered with an error or dropped; the padding of encrypted
    hops (RFC 7830, RFC 8467); the UDP truncation; the key that coalesces
    equivalent work. *)
From S2P Require Import Prelude Net Names Dns Ecs Wire.
Set Default Goal Selector "!".
Set Warnings "-rewrite-rw".
Local Open Scope Z_scope.
Local Open Scope rust_scope.

(** What encoding guarantees (RFC 6891, RFC 7830): an option adds its four
    header octets and its data; encoding fails only beyond the message size. *)
Class EncodeSpec `{MessageLib} : Prop := {
  to_vec_size m w : to_vec m = Some w → (length w ≤ MAX_MESSAGE)%nat;
  to_vec_option m e c n w :
    edns m = Some e → c ∉ (options e).*1 → to_vec m = Some w → (length w + 4 + n ≤ MAX_MESSAGE)%nat →
    ∃ w', to_vec (with_edns (Some (map_options (opt_insert (Unknown c (replicate n 0))) e)) m) = Some w' ∧
      length w' = (length w + 4 + n)%nat;
}.

Section protocol.
Context `{MessageLib}.

Definition has_padding (m : Message) : bool :=
  match edns m with Some e => bool_decide (is_Some (opt_get PADDING (options e))) | None => false end.
Definition remove_option (c : Z) (m : Message) : Message :=
  match edns m with Some e => with_edns (Some (map_options (opt_remove c) e)) m | None => m end.
Definition strip_padding (m : Message) : Message := remove_option PADDING m.
Definition strip_tcp_keepalive (m : Message) : Message := remove_option KEEPALIVE m.
Definition edns_within (m : Message) (allowed : list Z) : bool :=
  match edns m with
  | None => true
  | Some e => bool_decide (version e = 0) && forallb (λ p, bool_decide (p.1 ∈ allowed)) (options e)
  end.
Definition reply_edns (query : Message) : option Edns :=
  (λ client, set_dnssec_ok (dnssec_ok client) (set_max_payload MAX_UDP_PAYLOAD edns_new)) <$> edns query.
Definition extended_errors (m : Message) : list EdnsOption :=
  match edns m with
  | Some e => (filter (λ p, p.1 = EXTENDED_ERROR) (options e)).*2
  | None => []
  end.
Definition insert_options (os : list EdnsOption) (e : Edns) : Edns := foldl (λ e o, map_options (opt_insert o) e) e os.

(** ** Encoding *)
Definition encode_hop (m : Message) (encrypted requested : bool) (block limit : nat) : V (list Z) :=
  let pad := encrypted && requested && bool_decide (is_Some (edns m)) in
  if negb pad && negb (has_padding m) then ok_or tt (to_vec m) else
  let normalized := strip_padding m in
  let* bytes := ok_or tt (to_vec normalized) in
  if negb pad || bool_decide (limit < length bytes + 4)%nat then ret bytes else
  let with_header := (length bytes + 4)%nat in
  let* r := (if bool_decide (block = O) then panic else ret (with_header mod block)%nat) in
  let* r := (if bool_decide (block = O) then panic else ret ((block - r) mod block)%nat) in
  let length_ := (r `min` (limit - with_header))%nat in
  let* e := expect (edns normalized) in
  ok_or tt (to_vec (with_edns (Some (map_options (opt_insert (Unknown PADDING (replicate length_ 0))) e)) normalized)).

Record Padding : Type := mkPadding { requested : bool }.
Definition padding_default : Padding := mkPadding false.
Definition from_query (query : Message) : Padding := mkPadding (has_padding query).
Definition encode_response (p : Padding) (m : Message) (encrypted : bool) : V (list Z) :=
  encode_hop m encrypted (requested p) 468 MAX_MESSAGE.
Definition encode_upstream (m : Message) (encrypted : bool) : V (list Z) :=
  encode_hop m encrypted (has_padding m) 128 MAX_MESSAGE.

Definition error_response (query : Message) (code : Z) : Message :=
  let r := error_msg (id query) (op_code query) code in
  let r := with_queries (queries r ++ take 1 (queries query)) r in
  let r := with_recursion (recursion_desired query) true r in
  with_edns (reply_edns query) (with_checking (checking_disabled query) r).

Definition udp_limit (query : Message) : Z :=
  match edns query with Some e => Z.min (Z.max (max_payload e) 512) MAX_UDP_PAYLOAD | None => 512 end.
Definition encode_udp (response : Message) (limit : nat) : V (list Z) :=
  let* bytes := encode_hop response false false 468 limit in
  if bool_decide (length bytes ≤ limit)%nat then ret bytes else
  let t := error_response response (response_code response) in
  let t := with_truncation true (set_subnet (subnet response) t) in
  let t := match edns t with Some e => with_edns (Some (insert_options (extended_errors response) e)) t | None => t end in
  let* bytes := ok_or tt (to_vec t) in
  let* bytes := match edns t with
                | Some e =>
                    if bool_decide (limit < length bytes)%nat
                    then ok_or tt (to_vec (with_edns (Some (map_options (opt_remove EXTENDED_ERROR) e)) t))
                    else ret bytes
                | None => ret bytes
                end in
  ensure (bool_decide (length bytes ≤ limit)%nat) ;;;
  ret bytes.

(** ** Admission *)
Inductive Request : Type :=
  | Forward (m : Message)
  | Reply (m : Message) (p : Padding)
  | Drop_.

Definition admission_error (query : Message) : V (option Z) :=
  if bool_decide (op_code query ≠ 0) then ret (Some NotImp)
  else if bool_decide (length (queries query) ≠ 1%nat) || truncation query || bool_decide (response_code query ≠ NoError)
  then ret (Some FormErr)
  else
    let* q := expect (queries query !! 0%nat) in
    if bool_decide (is_Some (signature query)) || existsb (λ rr, bool_decide (record_type rr = SIG)) (additionals query) ||
       bool_decide (q_type q ∈ [AXFR; IXFR; ANY])
    then ret (Some Refused)
    else if negb (bool_decide (length (answers query) = 0%nat)) || negb (bool_decide (length (authorities query) = 0%nat)) ||
            negb (bool_decide (length (additionals query) = 0%nat))
    then ret (Some FormErr)
    else if match edns query with Some e => bool_decide (version e ≠ 0) | None => false end then ret (Some BADVERS)
    else ret None.
Definition request_from_decoded `{DecoderLib} (bytes : list Z) (query : option Message) : V Request :=
  match query with
  | None =>
      match header_read (decoder_new bytes) with
      | None => ret Drop_
      | Some (h, _) =>
          if h_response h then ret Drop_
          else ret (Reply (error_msg (h_id h) (h_op_code h) FormErr) padding_default)
      end
  | Some query =>
      if is_response query then ret Drop_ else
      let* error := admission_error query in
      match error with
      | Some code => ret (Reply (error_response query code) (from_query query))
      | None => ret (Forward (strip_tcp_keepalive query))
      end
  end.
Definition request `{DecoderLib} (bytes : list Z) : V Request :=
  match decode bytes tt with
  | (Ok m, _) => request_from_decoded bytes (Some m)
  | (Err _, _) => request_from_decoded bytes None
  | (Panic, _) => panic
  | (Diverge, _) => diverge
  end.

Definition query_eq `{!DnsNames} (a b : Query) : bool :=
  name_eq (q_name a) (q_name b) && bool_decide (q_type a = q_type b) && bool_decide (q_class a = q_class b).
Fixpoint queries_eq `{!DnsNames} (a b : list Query) : bool :=
  match a, b with
  | [], [] => true
  | x :: a, y :: b => query_eq x y && queries_eq a b
  | _, _ => false
  end.
Definition matches_response `{!DnsNames} (query response : Message) : bool :=
  is_response response && bool_decide (id response = id query) && bool_decide (op_code response = op_code query) &&
  queries_eq (queries response) (queries query) && bool_decide (signature response = None) &&
  response_matches query response.

Definition lower_first `{!DnsNames} (qs : list Query) : V (list Query) :=
  let* q := expect (qs !! 0%nat) in
  ret (<[0%nat := mkQuery (to_lowercase (q_name q)) (q_type q) (q_class q)]> qs).
(** [None] when the query is not shared. *)
Definition canonical_work_key `{!DnsNames} (query : Message) : V (option (list Z)) :=
  if bool_decide (length (queries query) ≠ 1%nat) then ret None else
  let* q := expect (queries query !! 0%nat) in
  if bool_decide (q_class q ≠ IN) || bool_decide (is_Some (signature query)) || negb (edns_within query [SUBNET; PADDING])
  then ret None else
  let* qs := lower_first (queries query) in
  let n := with_queries qs (with_id 0 query) in
  if has_padding n then
    match edns (strip_padding n) with
    | Some e => ret (to_vec (with_edns (Some (map_options (opt_insert (Unknown PADDING [])) e)) (strip_padding n)))
    | None => ret None
    end
  else ret (to_vec n).
End protocol.

Section protocol_proof.
Context `{MessageLib} `{!MessageSpec}.

Lemma wp_ok_or_vec {A} (o : option A) (Q : A → unit → Prop) (R : unit → unit → Prop) :
  (∀ a, o = Some a → Q a tt) → (o = None → R tt tt) → wp (ok_or tt o) Q R tt.
Proof. apply wp_ok_or. Qed.

(** ** Padding *)
Context `{!EncodeSpec}.

Lemma edns_strip c m : edns (remove_option c m) = map_options (opt_remove c) <$> edns m.
Proof. unfold remove_option. by destruct (edns m) eqn:E; simpl; rewrite ?E. Qed.
Lemma remove_option_fields c m : remove_option c m = with_edns (edns (remove_option c m)) m.
Proof. unfold remove_option. by destruct m as [? ? ? ? ? ? ? ? ? ? ? ? ? ? ? [e|]]. Qed.

(** The padded size: a multiple of [block], or as much as fits. *)
Definition padded_size (block limit base : nat) : nat :=
  ((base + 4) + ((block - (base + 4) mod block) mod block) `min` (limit - (base + 4)))%nat.
Lemma padded_size_spec block limit base : (0 < block)%nat → (base + 4 ≤ limit)%nat →
  (base + 4 ≤ padded_size block limit base ≤ limit)%nat ∧
  ((padded_size block limit base mod block = 0)%nat ∨ padded_size block limit base = limit).
Proof.
  intros Hb Hl. unfold padded_size. set (w := (base + 4)%nat) in *.
  split; [lia|]. destruct (decide (((block - w mod block) mod block) ≤ limit - w)%nat); [|right; lia]. left.
  replace (_ `min` _)%nat with ((block - w mod block) mod block)%nat by lia.
  pose proof (Nat.mod_upper_bound w block ltac:(lia)) as Hm.
  rewrite Nat.Div0.add_mod_idemp_r. pose proof (Nat.div_mod_eq w block) as Hd.
  replace (w + (block - w mod block))%nat with ((w / block + 1) * block)%nat by nia.
  apply Nat.Div0.mod_mul.
Qed.

Definition base_encoding (m : Message) : option (list Z) := to_vec (strip_padding m).
Lemma encode_hop_wp m encrypted req block limit :
  (0 < block)%nat → (limit ≤ MAX_MESSAGE)%nat →
  wp (encode_hop m encrypted req block limit)
    (λ w _,
      (encrypted && req = false ∨ edns m = None → has_padding m = false → to_vec m = Some w) ∧
      (encrypted && req = false → has_padding m = true → base_encoding m = Some w) ∧
      (encrypted && req = true → ∀ e, edns m = Some e → ∃ base, base_encoding m = Some base ∧
         (limit < length base + 4 → w = base)%nat ∧
         (length base + 4 ≤ limit → length w = padded_size block limit (length base))%nat))
    (λ _ _, to_vec m = None ∨ base_encoding m = None) tt.
Proof.
  intros Hb Hlim. unfold encode_hop, base_encoding. fold (strip_padding m).
  destruct (edns m) as [e|] eqn:He.
  2: { assert (has_padding m = false) as Hnp by (unfold has_padding; by rewrite He).
    rewrite Hnp. rewrite (bool_decide_false (is_Some _)); [|by intros []]. rewrite andb_false_r. simpl.
    apply wp_ok_or_vec; [|auto]. intros w Hw. split_and!; [done|done|done]. }
  rewrite bool_decide_true; [|by eexists]. rewrite andb_true_r.
  destruct (encrypted && req) eqn:Epad; cbn [negb andb orb].
  - apply wp_bind, wp_ok_or_vec; [|auto]. intros base Hbase. case_bool_decide as Hfit.
    + apply wp_ret. split; [by intros [|]|]. split; [done|]. intros _ e' _. exists base. split; [done|]. split; [done|lia].
    + rewrite (bool_decide_false (block = 0%nat)); [|lia]. do 2 apply wp_bind, wp_ret.
      assert (edns (strip_padding m) = Some (map_options (opt_remove PADDING) e)) as Hes.
      { unfold strip_padding. by rewrite edns_strip He. }
      rewrite Hes. eapply wp_bind, wp_expect; [done|].
      set (n := (((block - (length base + 4) mod block) mod block) `min` (limit - (length base + 4)))%nat).
      destruct (to_vec_option (strip_padding m) _ PADDING n base Hes) as (w & Hw & Hlen); [apply not_key_remove|done|lia|].
      rewrite Hw. apply wp_ret. split; [by intros [|]|]. split; [done|]. intros _ e' _. exists base. split; [done|].
      split; [lia|]. intros _. rewrite Hlen. unfold padded_size. subst n. lia.
  - destruct (has_padding m) eqn:Hp; cbn [negb].
    + apply wp_bind, wp_ok_or_vec; [|auto]. intros base Hbase. apply wp_ret. split; [by intros [|]|]. split; [done|done].
    + apply wp_ok_or_vec; [|auto]. intros w Hw. split_and!; [done|done|done].
Qed.
End protocol_proof.

(** ** UDP *)
Section udp_proof.
Context `{MessageLib} `{!MessageSpec} `{!EncodeSpec}.

Lemma error_response_fields query code :
  error_response query code =
    mkMessage (id query) true (op_code query) false false (recursion_desired query) true false (checking_disabled query)
      code (take 1 (queries query)) [] [] [] None (reply_edns query).
Proof. unfold error_response. rewrite error_msg_fields. done. Qed.

(** The question-only answer that tells the client to retry over TCP. *)
Record truncated_of (response t : Message) : Prop := {
  tr_flag : truncation t = true ∧ is_response t = true;
  tr_empty : sections t = [] ∧ queries t = take 1 (queries response);
  tr_code : id t = id response ∧ response_code t = response_code response ∧ op_code t = op_code response;
  tr_subnet : subnet t = subnet response;
}.
Definition options_of (m : Message) : list (Z * EdnsOption) := from_option options [] (edns m).
Lemma subnet_options m : subnet m = match opt_get SUBNET (options_of m) with Some (Subnet c) => Some c | _ => None end.
Proof.
  unfold subnet, options_of. destruct (edns m); [done|]. simpl.
  by rewrite (proj2 (get_None SUBNET [])); [|apply not_elem_of_nil].
Qed.
Lemma get_insert_options os e :
  Forall (λ o, option_code o ≠ SUBNET) os → opt_get SUBNET (options (insert_options os e)) = opt_get SUBNET (options e).
Proof.
  intros Hos. revert e. induction Hos as [|o os Ho _ IH]; intros e; [done|]. simpl. rewrite IH. by apply insert_other.
Qed.

Definition codes_ok (m : Message) : Prop := Forall (λ p, p.1 = option_code p.2) (options_of m).
Lemma extended_errors_code m : codes_ok m → Forall (λ o, option_code o ≠ SUBNET) (extended_errors m).
Proof.
  intros Hok. unfold extended_errors. unfold codes_ok, options_of in Hok. destruct (edns m) as [e|]; [|done]. simpl in Hok.
  apply Forall_fmap, Forall_forall. intros p [Hp Hin]%list_elem_of_filter. simpl.
  apply (proj1 (Forall_forall _ _) Hok) in Hin. rewrite -Hin Hp. done.
Qed.

(** The truncated message before and after its Extended DNS Errors go. *)
Definition with_errors (response t : Message) : Message :=
  match edns t with Some e => with_edns (Some (insert_options (extended_errors response) e)) t | None => t end.
Lemma with_errors_fields response m : with_errors response m = with_edns (edns (with_errors response m)) m.
Proof. unfold with_errors. by destruct m as [? ? ? ? ? ? ? ? ? ? ? ? ? ? ? [e|]]. Qed.
Lemma truncated_fields response :
  codes_ok response →
  let t := with_errors response (with_truncation true (set_subnet (subnet response) (error_response response (response_code response)))) in
  truncated_of response t ∧
  ∀ e, edns t = Some e → truncated_of response (with_edns (Some (map_options (opt_remove EXTENDED_ERROR) e)) t).
Proof.
  intros Hok t. set (t0 := with_truncation true (set_subnet (subnet response) (error_response response (response_code response)))).
  assert (subnet t0 = subnet response) as Hs0 by apply (subnet_set_subnet (subnet response)).
  assert (t0 = with_edns (edns t0) (with_truncation true (error_response response (response_code response)))) as Hf0.
  { unfold t0. by rewrite {1}set_subnet_fields. }
  assert (t = with_edns (edns t) (with_truncation true (error_response response (response_code response)))) as Hf.
  { unfold t. rewrite {1}with_errors_fields. fold t0. generalize (edns (with_errors response t0)). intros e.
    rewrite Hf0. reflexivity. }
  assert (∀ e', subnet (with_edns e' t) = subnet response → truncated_of response (with_edns e' t)) as Hall.
  { intros e' Hs. assert (with_edns e' t = with_edns e' (with_truncation true (error_response response (response_code response)))) as Heq.
    { by rewrite Hf. }
    rewrite Heq error_response_fields in Hs |- *. by split. }
  assert (with_edns (edns t) t = t) as Hself by (by destruct t).
  assert (subnet t = subnet response) as Hst.
  { unfold t, with_errors. fold t0. destruct (edns t0) as [e|] eqn:E; [|done]. rewrite -Hs0 !subnet_options.
    unfold options_of. rewrite E. simpl. by rewrite get_insert_options; [|apply extended_errors_code]. }
  split; [rewrite -Hself; apply Hall; by rewrite Hself|].
  intros e He. apply Hall. rewrite -Hst !subnet_options. unfold options_of. rewrite He. simpl. by rewrite remove_other.
Qed.

Lemma encode_udp_wp response limit :
  codes_ok response → (limit ≤ MAX_MESSAGE)%nat →
  wp (encode_udp response limit)
    (λ w _, (length w ≤ limit)%nat ∧
      (to_vec response = Some w ∨ base_encoding response = Some w ∨
       ∃ full t, (to_vec response = Some full ∨ base_encoding response = Some full) ∧ (limit < length full)%nat ∧
         truncated_of response t ∧ to_vec t = Some w))
    (λ _ _, to_vec response = None ∨ base_encoding response = None ∨
       ∃ t, truncated_of response t ∧ (to_vec t = None ∨ ∃ w, to_vec t = Some w ∧ (limit < length w)%nat)) tt.
Proof.
  intros Hok Hlim. unfold encode_udp. apply wp_bind.
  eapply wp_mono; [| |apply (encode_hop_wp response false false 468 limit); lia]; [|naive_solver].
  intros bytes [] (Hplain & Hstrip & _). simpl in Hplain, Hstrip.
  assert (to_vec response = Some bytes ∨ base_encoding response = Some bytes) as Hfull.
  { destruct (has_padding response) eqn:Hp; [right; by apply Hstrip|left; apply Hplain; auto]. }
  case_bool_decide as Hfits; [apply wp_ret; split; [done|]; destruct Hfull; auto|].
  destruct (truncated_fields response Hok) as [Ht Hte]. cbv zeta in Ht, Hte |- *.
  change (match edns (with_truncation true (set_subnet (subnet response) (error_response response (response_code response)))) with
    | Some e => _ | None => _ end) with (with_errors response (with_truncation true (set_subnet (subnet response)
      (error_response response (response_code response))))).
  set (t := with_errors _ _) in *. 
  assert (∀ t' w', truncated_of response t' → to_vec t' = Some w' →
    wp (ensure (bool_decide (length w' ≤ limit)%nat) ;;; ret w')
    (λ w _, (length w ≤ limit)%nat ∧
      (to_vec response = Some w ∨ base_encoding response = Some w ∨
       ∃ full t, (to_vec response = Some full ∨ base_encoding response = Some full) ∧ (limit < length full)%nat ∧
         truncated_of response t ∧ to_vec t = Some w))
    (λ _ _, to_vec response = None ∨ base_encoding response = None ∨
       ∃ t, truncated_of response t ∧ (to_vec t = None ∨ ∃ w, to_vec t = Some w ∧ (limit < length w)%nat)) tt) as Hend.
  { intros t' w' Ht' Hw'. apply wp_bind, wp_ensure.
    - intros Hle%bool_decide_eq_true. apply wp_ret. split; [done|]. right. right. exists bytes, t'. split_and!; [done|lia|done|done].
    - intros Hle%bool_decide_eq_false. right. right. exists t'. split; [done|]. right. exists w'. split; [done|lia]. }
  apply wp_bind, wp_ok_or_vec; [|intros Hn; right; right; exists t; by auto]. intros w Hw.
  destruct (edns t) as [e|] eqn:He; [|apply wp_bind, wp_ret; by apply (Hend t)].
  case_bool_decide; [|apply wp_bind, wp_ret; by apply (Hend t)].
  apply wp_bind, wp_ok_or_vec.
  - intros w2 Hw2. by apply (Hend _ _ (Hte e eq_refl)).
  - intros Hn. right. right. eexists. split; [by apply Hte|]. by left.
Qed.
End udp_proof.

(** ** Admission *)
Section request_proof.
Context `{MessageLib} `{!MessageSpec} `{DecoderLib}.

(** A query the resolver may see. *)
Record admitted (q : Message) : Prop := {
  ad_opcode : op_code q = 0;
  ad_question : ∃ k, queries q = [k] ∧ q_type k ∉ [AXFR; IXFR; ANY];
  ad_header : truncation q = false ∧ response_code q = NoError ∧ signature q = None;
  ad_sections : sections q = [];
  ad_version : ∀ e, edns q = Some e → version e = 0;
}.
Lemma admission_error_wp q :
  wp (admission_error q)
    (λ r _, match r with
            | None => admitted q
            | Some code => ¬ admitted q ∧ code ∈ [NotImp; FormErr; Refused; BADVERS]
            end) (λ _ _, False) tt.
Proof.
  assert (∀ code, code ∈ [NotImp; FormErr; Refused; BADVERS] → ¬ admitted q →
    wp (ret (Some code)) (λ r _, match r with
            | None => admitted q
            | Some code => ¬ admitted q ∧ code ∈ [NotImp; FormErr; Refused; BADVERS]
            end) (λ _ _ : unit, False) tt) as Hno by (intros; by apply wp_ret).
  unfold admission_error. case_bool_decide as Hop; [apply Hno; [by left|]; by intros []|].
  destruct (bool_decide (length (queries q) ≠ 1%nat) || truncation q || bool_decide (response_code q ≠ NoError)) eqn:E1.
  { apply Hno; [right; by left|]. intros [_ (k & Hk & _) (Htc & Hrc & _) _ _].
    rewrite Hk Htc Hrc in E1. done. }
  apply orb_false_iff in E1 as [[E1 Htc]%orb_false_iff Hrc]. apply bool_decide_eq_false in E1, Hrc.
  destruct (queries q) as [|k [|]] eqn:Hq; [simpl in E1; lia| |simpl in E1; lia]. eapply wp_bind, wp_expect; [done|].
  destruct (bool_decide (is_Some (signature q)) || existsb (λ rr, bool_decide (record_type rr = SIG)) (additionals q) ||
    bool_decide (q_type k ∈ [AXFR; IXFR; ANY])) eqn:E2.
  { apply Hno; [do 2 right; by left|]. intros [_ (k' & Hk & Ht) (_ & _ & Hs) Hsec _]. rewrite Hq in Hk. injection Hk as <-.
    unfold sections in Hsec. apply app_eq_nil in Hsec as [_ [_ Had]%app_eq_nil]. rewrite Hs Had in E2.
    apply orb_true_iff in E2 as [[[? E2]%bool_decide_eq_true|E2]%orb_true_iff|E2%bool_decide_eq_true]; done. }
  apply orb_false_iff in E2 as [[Hs Hsig]%orb_false_iff Ht]. apply bool_decide_eq_false in Hs, Ht.
  destruct (negb (bool_decide (length (answers q) = 0%nat)) || negb (bool_decide (length (authorities q) = 0%nat)) ||
    negb (bool_decide (length (additionals q) = 0%nat))) eqn:E3.
  { apply Hno; [right; by left|]. intros [_ _ _ Hsec _]. unfold sections in Hsec.
    apply app_eq_nil in Hsec as [Ha [Hu Had]%app_eq_nil]. by rewrite Ha Hu Had in E3. }
  apply orb_false_iff in E3 as [[Ha%negb_false_iff Hu%negb_false_iff]%orb_false_iff Had%negb_false_iff].
  apply bool_decide_eq_true, nil_length_inv in Ha, Hu, Had.
  destruct (edns q) as [e|] eqn:He.
  - case_bool_decide as Hv; [apply Hno; [do 3 right; by left|]; intros [_ _ _ _ Hver]; by apply Hv, Hver|].
    apply wp_ret. split; [lia|by exists k| | |].
    + split; [by destruct (truncation q)|]. split; [lia|]. destruct (signature q); [by destruct Hs|done].
    + unfold sections. by rewrite Ha Hu Had.
    + intros e' He'. rewrite He in He'. injection He' as <-. lia.
  - apply wp_ret. split; [lia|by exists k| | |intros e'; by rewrite He].
    + split; [by destruct (truncation q)|]. split; [lia|]. destruct (signature q); [by destruct Hs|done].
    + unfold sections. by rewrite Ha Hu Had.
Qed.
Lemma request_wp bytes q :
  wp (request_from_decoded bytes (Some q))
    (λ r _, match r with
     | Drop_ => is_response q = true
     | Forward m => is_response q = false ∧ admitted q ∧ m = with_edns (edns m) q ∧
         edns m = map_options (opt_remove KEEPALIVE) <$> edns q ∧ subnet m = subnet q
     | Reply m p => is_response q = false ∧ ¬ admitted q ∧ is_response m = true ∧ id m = id q ∧
         queries m = take 1 (queries q) ∧ sections m = [] ∧ response_code m ∈ [NotImp; FormErr; Refused; BADVERS] ∧
         p = from_query q ∧ request_from_decoded bytes (Some m) tt = (Ok Drop_, tt)
     end) (λ _ _, False) tt.
Proof.
  simpl. destruct (is_response q) eqn:Er; [by apply wp_ret|]. apply wp_bind.
  eapply wp_mono; [| |apply admission_error_wp]; [|done]. intros [code|] [].
  - intros [Hno Hcode]. apply wp_ret. rewrite error_response_fields. by split_and!.
  - intros Ha. apply wp_ret. unfold strip_tcp_keepalive.
    split_and!; [done|done|apply remove_option_fields|apply edns_strip|]. rewrite !subnet_options. unfold options_of.
    rewrite edns_strip. destruct (edns q) as [e|]; [|done]. simpl. by rewrite remove_other.
Qed.
End request_proof.

(** ** Coalescing *)
Section work_key.
Context `{MessageLib} `{!MessageSpec} `{!DnsNames}.

(** The message whose encoding is the key. *)
Definition work_form (k : Query) (q : Message) : Message :=
  let n := with_queries [mkQuery (to_lowercase (q_name k)) (q_type k) (q_class k)] (with_id 0 q) in
  if has_padding q then
    with_edns (map_options (λ l, opt_insert (Unknown PADDING []) (opt_remove PADDING l)) <$> edns q) n
  else n.
(** Equal up to the ID, the case of the name and the padding contents. *)
Record same_work (k1 k2 : Query) (q1 q2 : Message) : Prop := {
  sw_question : to_lowercase (q_name k1) = to_lowercase (q_name k2) ∧ q_type k1 = q_type k2 ∧ q_class k1 = q_class k2;
  sw_rest : with_edns None (with_queries [] (with_id 0 q1)) = with_edns None (with_queries [] (with_id 0 q2));
  sw_padding : has_padding q1 = has_padding q2;
  sw_edns : map_options (opt_remove PADDING) <$> edns q1 = map_options (opt_remove PADDING) <$> edns q2;
}.

Lemma has_padding_with_queries qs i m : has_padding (with_queries qs (with_id i m)) = has_padding m.
Proof. done. Qed.
Lemma remove_absent c l : opt_get c l = None → opt_remove c l = l.
Proof.
  intros Hn%get_None. rewrite remove_spec. apply filter_all, Forall_forall. intros p Hp Hc. apply Hn. rewrite -Hc.
  by apply list_elem_of_fmap_2.
Qed.
Lemma edns_within_strip m c allowed : c ∈ allowed → edns_within (remove_option c m) allowed = edns_within m allowed.
Proof.
  intros Hc. unfold edns_within. rewrite edns_strip. destruct (edns m) as [e|]; [|done]. simpl. f_equal.
  rewrite remove_spec. induction (options e) as [|p l IH]; [done|]. rewrite filter_cons. case_decide as Hp; simpl; rewrite IH; [done|].
  rewrite bool_decide_true; [done|]. destruct (decide (p.1 = c)) as [->|]; [done|naive_solver].
Qed.

Lemma canonical_work_key_eq q k : queries q = [k] →
  canonical_work_key q tt =
    (Ok (if bool_decide (q_class k = IN ∧ signature q = None) && edns_within q [SUBNET; PADDING]
         then to_vec (work_form k q) else None), tt).
Proof.
  intros Hk. unfold canonical_work_key. rewrite Hk. rewrite bool_decide_false; [|simpl; lia].
  unfold bind, expect. simpl.
  destruct (decide (q_class k = IN)) as [Hin|Hin].
  2: { rewrite bool_decide_true // (bool_decide_false (_ ∧ _)); [done|naive_solver]. }
  rewrite bool_decide_false; [|naive_solver]. destruct (signature q) as [s|] eqn:Hs.
  { rewrite bool_decide_true; [|by eexists]. rewrite (bool_decide_false (_ ∧ _)); [done|naive_solver]. }
  rewrite bool_decide_false; [|by intros []]. rewrite (bool_decide_true (_ ∧ _)) //. simpl.
  destruct (edns_within q [SUBNET; PADDING]); [|done]. simpl. rewrite has_padding_with_queries. unfold work_form.
  destruct (has_padding q) eqn:Hp; [|done]. unfold strip_padding, remove_option. simpl.
  destruct (edns q) as [e|] eqn:He; [done|]. unfold has_padding in Hp. by rewrite He in Hp.
Qed.

Lemma same_work_form k1 k2 q1 q2 : same_work k1 k2 q1 q2 → work_form k1 q1 = work_form k2 q2.
Proof.
  intros [(Hn & Ht & Hc) Hr Hp He]. unfold work_form. rewrite -Hp Hn Ht Hc.
  assert (∀ e qs, with_edns e (with_queries qs (with_id 0 q1)) = with_edns e (with_queries qs (with_id 0 q2))) as Hall.
  { intros e qs. exact (f_equal (λ m, with_edns e (with_queries qs m)) Hr). }
  assert (∀ m : Message, with_edns (edns m) m = m) as Hself by (by intros []).
  destruct (has_padding q1) eqn:Hp1.
  - rewrite Hall. f_equal. destruct (edns q1) as [e1|], (edns q2) as [e2|]; simpl in He; try done. injection He as Hv Hm Hd Ho.
    simpl. unfold map_options. by rewrite Hv Hm Hd Ho.
  - assert (edns q1 = edns q2) as Heq.
    { unfold has_padding in Hp, Hp1. destruct (edns q1) as [e1|], (edns q2) as [e2|]; simpl in He; try done.
      injection He as Hv Hm Hd Ho. symmetry in Hp. apply bool_decide_eq_false, eq_None_not_Some in Hp, Hp1.
      rewrite !remove_absent // in Ho.
      destruct e1, e2; simpl in *; by subst. }
    rewrite -(Hself (with_queries _ (with_id 0 q1))) -(Hself (with_queries _ (with_id 0 q2))). simpl. by rewrite Heq Hall.
Qed.
Lemma same_work_key k1 k2 q1 q2 : queries q1 = [k1] → queries q2 = [k2] → same_work k1 k2 q1 q2 →
  canonical_work_key q1 tt = canonical_work_key q2 tt.
Proof.
  intros Hq1 Hq2 Hs. rewrite (canonical_work_key_eq q1 k1) // (canonical_work_key_eq q2 k2) // (same_work_form _ _ _ _ Hs).
  destruct Hs as [(_ & _ & Hc) Hr _ He].
  assert (signature q1 = signature q2) as -> by exact (f_equal signature Hr).
  rewrite Hc. rewrite -(edns_within_strip q1 PADDING); [|set_solver]. rewrite -(edns_within_strip q2 PADDING); [|set_solver].
  unfold edns_within. by rewrite !edns_strip He.
Qed.

Record keeps_meaning (q f : Message) : Prop := {
  km_id : id f = 0;
  km_question : ∃ k, queries q = [k] ∧ q_class k = IN ∧
    queries f = [mkQuery (to_lowercase (q_name k)) (q_type k) (q_class k)];
  km_flags : recursion_desired f = recursion_desired q ∧ checking_disabled f = checking_disabled q ∧
    authentic_data f = authentic_data q ∧ op_code f = op_code q ∧ from_option dnssec_ok false (edns f) = from_option dnssec_ok false (edns q);
  km_subnet : subnet f = subnet q;
  km_padding : has_padding f = has_padding q;
}.
Lemma work_form_keeps k q : queries q = [k] → q_class k = IN → keeps_meaning q (work_form k q).
Proof.
  intros Hk Hin. unfold work_form. destruct (has_padding q) eqn:Hp; [|split; try done; by exists k].
  unfold has_padding in Hp. destruct (edns q) as [e|] eqn:He; [|done].
  split; simpl; [done|by exists k|by rewrite He| |].
  - rewrite !subnet_options. unfold options_of. simpl. rewrite He. simpl. rewrite insert_other // remove_other //.
  - unfold has_padding. simpl. rewrite He. apply bool_decide_eq_true in Hp. rewrite !bool_decide_true //.
    eexists. apply (get_insert_fresh (Unknown PADDING [])), not_key_remove.
Qed.
End work_key.

(** ** Properties *)
Section claims.
Context `{MessageLib} `{!MessageSpec}.

(** C33. [encode_hop] sends what it should in the size it should: an encrypted
    hop whose peer asked for padding gets a message of a whole number of
    blocks, or of exactly the size limit, or the unpadded message when not even
    the padding option fits; every other hop gets the message without padding.
    It fails only when the message cannot be encoded, and never panics. *)
Theorem encode_hop_padding `{!EncodeSpec} m encrypted req block limit :
  (0 < block)%nat → (limit ≤ MAX_MESSAGE)%nat →
  wp (encode_hop m encrypted req block limit)
    (λ w _,
      (encrypted && req = false → has_padding m = true → base_encoding m = Some w) ∧
      (encrypted && req = false → has_padding m = false → to_vec m = Some w) ∧
      (encrypted && req = true → is_Some (edns m) → ∃ base, base_encoding m = Some base ∧
         (w = base ∧ limit < length base + 4 ∨
          length base + 4 ≤ length w ≤ limit ∧ (length w mod block = 0 ∨ length w = limit))%nat))
    (λ _ _, to_vec m = None ∨ base_encoding m = None) tt.
Proof.
  intros Hb Hl. eapply wp_mono; [| |by apply encode_hop_wp]; [|done]. intros w [] (Hplain & Hstrip & Hpad).
  split; [done|]. split; [by auto|]. intros Hp [e He]. destruct (Hpad Hp e He) as (base & Hbase & Hbig & Hfit). exists base.
  split; [done|]. destruct (decide (limit < length base + 4)%nat); [left; by auto|right].
  rewrite Hfit; [|lia]. apply padded_size_spec; lia.
Qed.

(** A UDP answer fits the client's limit: it is the whole answer, or, when
    that is too long, a question-only message with TC set, the answer's ID,
    code and subnet; it is never a partial answer. *)
Theorem encode_udp_fits `{!EncodeSpec} response limit :
  codes_ok response → (limit ≤ MAX_MESSAGE)%nat →
  wp (encode_udp response limit)
    (λ w _, (length w ≤ limit)%nat ∧
      (to_vec response = Some w ∨ base_encoding response = Some w ∨
       ∃ full t, (to_vec response = Some full ∨ base_encoding response = Some full) ∧ (limit < length full)%nat ∧
         truncated_of response t ∧ to_vec t = Some w))
    (λ _ _, to_vec response = None ∨ base_encoding response = None ∨
       ∃ t, truncated_of response t ∧ (to_vec t = None ∨ ∃ w, to_vec t = Some w ∧ (limit < length w)%nat)) tt.
Proof. apply encode_udp_wp. Qed.

(** C34. Admission forwards a decoded message exactly when it is a well-formed
    single-question query (unchanged but for the TCP keepalive option), drops
    responses, and answers everything else with an error reply that itself
    would be dropped, so two servers can never answer each other forever. *)
Theorem request_admission `{DecoderLib} bytes q :
  wp (request_from_decoded bytes (Some q))
    (λ r _, match r with
     | Drop_ => is_response q = true
     | Forward m => is_response q = false ∧ admitted q ∧ m = with_edns (edns m) q ∧
         edns m = map_options (opt_remove KEEPALIVE) <$> edns q ∧ subnet m = subnet q
     | Reply m p => is_response q = false ∧ ¬ admitted q ∧ is_response m = true ∧ id m = id q ∧
         queries m = take 1 (queries q) ∧ sections m = [] ∧ response_code m ∈ [NotImp; FormErr; Refused; BADVERS] ∧
         p = from_query q ∧ request_from_decoded bytes (Some m) tt = (Ok Drop_, tt)
     end) (λ _ _, False) tt.
Proof. apply request_wp. Qed.

(** C35. The coalescing key identifies equivalent work and nothing else: queries
    that differ only in ID, case of the name and padding contents share a key,
    and a key is the encoding of a message with the query's own question,
    flags, subnet and padding intent. *)
Theorem work_key_exact `{!DnsNames} k1 k2 q1 q2 :
  queries q1 = [k1] → queries q2 = [k2] →
  (same_work k1 k2 q1 q2 → canonical_work_key q1 tt = canonical_work_key q2 tt) ∧
  ∀ w, canonical_work_key q1 tt = (Ok (Some w), tt) → ∃ f, to_vec f = Some w ∧ keeps_meaning q1 f.
Proof.
  intros Hq1 Hq2. split; [by apply same_work_key|]. intros w. rewrite (canonical_work_key_eq q1 k1) //.
  destruct (bool_decide (q_class k1 = IN ∧ signature q1 = None) && edns_within q1 [SUBNET; PADDING]) eqn:E; [|done].
  apply andb_true_iff in E as [[Hin _]%bool_decide_eq_true _]. intros [= Hw]. exists (work_form k1 q1).
  split; [done|]. by apply work_form_keeps.
Qed.
End claims.

Module ProtocolWitness.
Import DnsWitness.
#[local] Existing Instance names.
#[local] Existing Instance dns_names.
Definition option_len (p : Z * EdnsOption) : nat :=
  match p.2 with Subnet _ => 12 | Unknown _ d => 4 + length d end.
(** Twelve octets of header, eleven of OPT record and the options; ten octets
    for a question or record. *)
Definition size (m : Message) : nat :=
  (12 + 10 * length (queries m) + 10 * length (sections m) +
    match edns m with Some e => 11 + sum_list_with option_len (options e) | None => 0 end)%nat.
Definition vec (m : Message) : option (list Z) :=
  if decide (size m ≤ MAX_MESSAGE)%nat then Some (replicate (size m) 0) else None.
Lemma vec_Some m w : vec m = Some w ↔ (size m ≤ MAX_MESSAGE)%nat ∧ w = replicate (size m) 0.
Proof. unfold vec. generalize (size m). intros n. case_decide; naive_solver. Qed.
Definition lib : MessageLib := messages vec (λ _, None).
#[local] Existing Instance lib.
#[local] Instance lib_spec : MessageSpec := messages_spec _ _.
#[local] Instance encode_spec : EncodeSpec.
Proof.
  split.
  - intros m w Hw. change (vec m = Some w) in Hw. apply vec_Some in Hw as [Hs ->]. by rewrite length_replicate.
  - intros m e c n w He _ Hw. change (vec m = Some w) in Hw. apply vec_Some in Hw as [Hs ->]. rewrite length_replicate. intros Hle.
    assert (size (with_edns (Some (map_options (opt_insert (Unknown c (replicate n 0))) e)) m) = (size m + 4 + n)%nat) as Hsize.
    { assert (sum_list_with option_len (opt_insert (Unknown c (replicate n 0)) (options e)) =
        (sum_list_with option_len (options e) + (4 + length (replicate n 0%Z) + 0))%nat) as Hsum by apply sum_list_with_app.
      rewrite length_replicate in Hsum. unfold size. rewrite He.
      change (edns (with_edns ?x m)) with x. cbn [map_options options]. rewrite Hsum.
      change (length (sections (with_edns _ m))) with (length (sections m)).
      change (queries (with_edns _ m)) with (queries m). clear. lia. }
    exists (replicate (size m + 4 + n) 0). split; [|by rewrite length_replicate]. revert Hsize.
    generalize (with_edns (Some (map_options (opt_insert (Unknown c (replicate n 0))) e)) m). intros m' Hsize.
    change (vec m' = Some (replicate (size m + 4 + n) 0)). apply vec_Some. by rewrite Hsize.
Qed.
Definition question : Query := mkQuery [[97]] 1 1.
Definition query (i : Z) (pad : list Z) : Message :=
  mkMessage i false 0 false false true false false false 0 [question] [] [] [] None
    (Some (mkEdns 0 1232 false [(PADDING, Unknown PADDING pad)])).

Lemma encode_hop_padding_witness :
  ∃ w, encode_hop (query 1 []) true true 128 512 tt = (Ok w, tt) ∧ length w = 128%nat.
Proof.
  pose proof (encode_hop_padding (query 1 []) true true 128 512 ltac:(lia)) as Hwp.
  assert ((512 ≤ MAX_MESSAGE)%nat) as Hmax by by_compute. specialize (Hwp Hmax).
  assert (match (encode_hop (query 1 []) true true 128 512 tt).1 with Ok w => bool_decide (length w < 256)%nat | _ => false end = true) as Hrun
    by (vm_compute; reflexivity).
  assert (∃ b, base_encoding (query 1 []) = Some b ∧ length b = 33%nat) as (b & Hb & Hlb).
  { eexists. split; vm_compute; reflexivity. }
  destruct (encode_hop (query 1 []) true true 128 512 tt) as [[w| | |] []] eqn:E; [|discriminate Hrun..].
  exists w. split; [reflexivity|]. apply bool_decide_eq_true in Hrun. cbn [fst] in Hrun.
  destruct (wp_result _ _ _ _ _ _ E Hwp) as (_ & _ & Hpad).
  destruct (Hpad eq_refl ltac:(by eexists)) as (base & Hbase & Hcase). rewrite Hb in Hbase. injection Hbase as <-.
  rewrite Hlb in Hcase. destruct Hcase as [[_ ?]|[Hl [Hm|Hm]]]; [lia| |lia].
  pose proof (Nat.div_mod_eq (length w) 128) as Hd. lia.
Defined.

Definition answer : Message :=
  mkMessage 1 true 0 false false true true false false 0 [question] (replicate 200 (mkRr [[97]] 1 60 (ROther 1 []))) [] [] None
    (Some (mkEdns 0 1232 false [])).
Lemma encode_udp_fits_witness :
  codes_ok answer ∧ ∃ w, encode_udp answer 1232 tt = (Ok w, tt) ∧ (length w ≤ 1232)%nat ∧ to_vec answer ≠ Some w.
Proof.
  assert (codes_ok answer) as Hc by (by constructor). split; [exact Hc|].
  assert ((1232 ≤ MAX_MESSAGE)%nat) as Hmax by by_compute.
  pose proof (encode_udp_fits answer 1232 Hc Hmax) as Hwp.
  assert (is_ok (encode_udp answer 1232 tt).1 = true) as Hrun by by_compute.
  assert (match to_vec answer with Some w => bool_decide (1232 < length w)%nat | None => true end = true) as Hbig by (vm_compute; reflexivity).
  destruct (encode_udp answer 1232 tt) as [[w| | |] []] eqn:E; [|discriminate Hrun..].
  exists w. split; [reflexivity|]. destruct (wp_result _ _ _ _ _ _ E Hwp) as [Hl _]. split; [exact Hl|].
  intros Hw. rewrite Hw in Hbig. apply bool_decide_eq_true in Hbig. lia.
Defined.

Lemma work_key_exact_witness :
  queries (query 1 []) = [question] ∧ same_work question question (query 1 []) (query 2 [0; 0]) ∧
  canonical_work_key (query 1 []) tt = canonical_work_key (query 2 [0; 0]) tt.
Proof.
  assert (same_work question question (query 1 []) (query 2 [0; 0])) as Hs by (split; reflexivity || (split; [|split]; reflexivity)).
  split; [reflexivity|]. split; [exact Hs|].
  apply (work_key_exact question question (query 1 []) (query 2 [0; 0])); [reflexivity|reflexivity|exact Hs].
Defined.
#[local] Existing Instance WireWitness.lib.
(** A two-question query is refused. *)
Definition double : Message :=
  mkMessage 9 false 0 false false true false false false 0 [question; question] [] [] [] None None.
Lemma request_admission_witness :
  ∃ m p, request_from_decoded [] (Some double) tt = (Ok (Reply m p), tt) ∧ response_code m = FormErr ∧
    request_from_decoded [] (Some m) tt = (Ok Drop_, tt).
Proof.
  pose proof (request_admission [] double) as Hwp.
  destruct (request_from_decoded [] (Some double) tt) as [[r| | |] []] eqn:E; vm_compute in E; simplify_eq.
  do 2 eexists. split; [reflexivity|]. split; [reflexivity|].
  destruct Hwp as (_ & _ & _ & _ & _ & _ & _ & _ & Hdrop). exact Hdrop.
Defined.
End ProtocolWitness.
