(* ===== verification/CacheData.v ===== *)
(** * The cache: keys, decisions, policy and admission of answers

    [src/cache/decision.rs] and the parts of [src/cache.rs] that do not touch
    the store: which queries have a key, the configuration and its rules, and
    [prepare_response], which decides whether an answer may be stored, as
    positive or negative, and for how long. *)
From S2P Require Import Prelude Net Std Names Dns Ecs Protocol.
Set Default Goal Selector "!".
Set Warnings "-rewrite-rw".
Local Open Scope Z_scope.
Local Open Scope rust_scope.

(** ** Decisions *)
Inductive EvictionReason : Type := Entries | Bytes | EntriesAndBytes | Variants.
Inductive EvictionState : Type := Fresh_ | Retained | Expired.
Definition reason_index (r : EvictionReason) : nat :=
  match r with Entries => 0 | Bytes => 1 | EntriesAndBytes => 2 | Variants => 3 end.
Definition state_index (s : EvictionState) : nat :=
  match s with Fresh_ => 0 | Retained => 1 | Expired => 2 end.
Definition Evictions : Type := list (list Z).
Definition evictions_default : Evictions := replicate 4 (replicate 3 0).
Definition record_eviction (r : EvictionReason) (s : EvictionState) (e : Evictions) : Evictions :=
  alter (alter (λ n, n + 1) (state_index s)) (reason_index r) e.

Inductive DecisionReason : Type :=
  | UnsupportedQuery | UnsupportedEdns | EcsUnusable | TtlZero | NegativeWithoutSoa
  | UncacheableResponse | PolicyDisabled | Capacity | VariantLimit | EpochChanged.
Inductive LookupOutcome : Type := Fresh | Stale | Miss | Bypass | Disabled.
Inductive StoreOutcome : Type := Admission | Replaced | Skipped | SupersededOnly.
#[export] Instance DecisionReason_eq_dec : EqDecision DecisionReason.
Proof. solve_decision. Defined.
#[export] Instance LookupOutcome_eq_dec : EqDecision LookupOutcome.
Proof. solve_decision. Defined.
#[export] Instance StoreOutcome_eq_dec : EqDecision StoreOutcome.
Proof. solve_decision. Defined.
Record LookupDecision : Type := mkLookupDecision { l_outcome : LookupOutcome; l_reason : option DecisionReason }.
Record StoreDecision : Type := mkStoreDecision { s_outcome : StoreOutcome; s_reason : option DecisionReason }.
Definition store_admitted (d : StoreDecision) : bool := bool_decide (s_outcome d = Admission ∨ s_outcome d = Replaced).
Definition skipped (r : DecisionReason) : StoreDecision := mkStoreDecision Skipped (Some r).
Definition rejected (r : DecisionReason) (superseded : bool) : StoreDecision :=
  mkStoreDecision (if superseded then SupersededOnly else Skipped) (Some r).

(** Counters indexed by the discriminants. *)
Definition lookup_index (o : LookupOutcome) : nat :=
  match o with Fresh => 0 | Stale => 1 | Miss => 2 | Bypass => 3 | Disabled => 4 end.
Definition store_index (o : StoreOutcome) : nat :=
  match o with Admission => 0 | Replaced => 1 | Skipped => 2 | SupersededOnly => 3 end.
Definition decision_index (r : DecisionReason) : nat :=
  match r with
  | UnsupportedQuery => 0 | UnsupportedEdns => 1 | EcsUnusable => 2 | TtlZero => 3 | NegativeWithoutSoa => 4
  | UncacheableResponse => 5 | PolicyDisabled => 6 | Capacity => 7 | VariantLimit => 8 | EpochChanged => 9
  end.
Record Diagnostics : Type := mkDiagnostics {
  d_lookup : list Z;
  d_store : list Z;
  lookup_reasons : list Z;
  store_reasons : list Z;
}.
Definition diagnostics_default : Diagnostics :=
  mkDiagnostics (replicate 5 0) (replicate 4 0) (replicate 10 0) (replicate 10 0).
Definition bump (i : nat) (l : list Z) : list Z := alter (λ n, n + 1) i l.
Definition bump_reason (r : option DecisionReason) (l : list Z) : list Z :=
  match r with Some r => bump (decision_index r) l | None => l end.
Definition count_lookup (d : LookupDecision) (g : Diagnostics) : Diagnostics :=
  mkDiagnostics (bump (lookup_index (l_outcome d)) (d_lookup g)) (d_store g)
    (bump_reason (l_reason d) (lookup_reasons g)) (store_reasons g).
Definition count_store (d : StoreDecision) (g : Diagnostics) : Diagnostics :=
  mkDiagnostics (d_lookup g) (bump (store_index (s_outcome d)) (d_store g))
    (lookup_reasons g) (bump_reason (s_reason d) (store_reasons g)).

(** ** Configuration *)
Record CacheRule : Type := mkCacheRule {
  cr_name : list Z;
  cr_suffix : bool;
  cr_qtype : option (list Z);
  cr_bypass : bool;
  cr_max_ttl_secs : option Z;
  cr_negative_ttl_cap_secs : option Z;
  cr_prefetch : option bool;
  cr_stale : option bool;
}.
Record PrefetchConfig : Type := mkPrefetch {
  pf_enabled : bool;
  min_hits : Z;
  remaining_percent : Z;
  pf_max_inflight : nat;
  pf_rate_per_sec : nat;
  pf_backoff_secs : Z;
}.
Record StaleConfig : Type := mkStale { st_enabled : bool; retention_secs : Z; reply_ttl_secs : Z }.
Record EcsSharingConfig : Type := mkSharing { es_enabled : bool; min_networks : nat; revoke_cooldown_secs : Z }.
Record CacheConfig : Type := mkConfig {
  c_enabled : bool;
  max_entries : nat;
  max_bytes : Z;
  max_variants : nat;
  max_ttl_secs : Z;
  negative_ttl_cap_secs : Z;
  servfail_ttl_secs : Z;
  c_shards : nat;
  negative_percent : nat;
  prefetch : PrefetchConfig;
  stale : StaleConfig;
  ecs_sharing : EcsSharingConfig;
  c_rules : list CacheRule;
}.
(** [Name::from_ascii] and [RecordType::from_str]. *)
Class NameParse `{NameLib} := {
  from_ascii : list Z → option Name;
  type_from_str : list Z → option Z;
}.

(** ** Keys *)
Section key.
Context `{MessageLib} `{!DnsNames}.

Record Key : Type := mkKey {
  k_name : Name;
  k_kind : Z;
  k_class : Z;
  k_dnssec_ok : bool;
  k_checking_disabled : bool;
  k_recursion_desired : bool;
  k_edns : bool;
}.
#[export] Instance Key_eq_dec : EqDecision Key.
Proof. solve_decision. Defined.
#[export] Instance Key_countable : Countable Key.
Proof.
  refine (inj_countable'
    (λ k, (k_name k, k_kind k, k_class k, k_dnssec_ok k, k_checking_disabled k, k_recursion_desired k, k_edns k))
    (λ '(n, t, c, d, cd, rd, e), mkKey n t c d cd rd e) _).
  by intros [].
Defined.

Definition plain_edns (m : Message) : bool := edns_within m [SUBNET; PADDING].
Definition superseding_edns (m : Message) : bool := edns_within m [SUBNET; PADDING; EXTENDED_ERROR].
Definition query_rejection (q : Message) : DecisionReason :=
  if plain_edns q then UnsupportedQuery else UnsupportedEdns.
(** [query.queries[0]] panics on a message without a question. *)
Definition key_of_query (question : Query) (q : Message) : option Key :=
  if bool_decide (q_class question ≠ IN) || negb (plain_edns q) then None
  else Some (mkKey (key_name (q_name question)) (q_type question) (q_class question)
    (match edns q with Some e => dnssec_ok e | None => false end)
    (checking_disabled q) (recursion_desired q) (bool_decide (is_Some (edns q)))).

(** ** Rules *)
Record CompiledRule : Type := mkRule { ru_name : Name; ru_qtype : option Z; ru_index : nat }.
Record Policy : Type := mkPolicy {
  rule_index : option nat;
  bypass : bool;
  p_max_ttl : Z;
  p_negative_cap : Z;
  p_prefetch : bool;
  p_stale : bool;
}.
Definition rule_matches (rules : list CacheRule) (k : Key) (name : Name) (r : CompiledRule) : bool :=
  match ru_qtype r with None => true | Some t => bool_decide (t = k_kind k) end &&
  zone_of (ru_name r) name &&
  (match rules !! ru_index r with Some c => cr_suffix c | None => false end ||
   bool_decide (length (name_iter (ru_name r)) = length (name_iter name))).
Definition find_rule (rules : list CacheRule) (compiled : list CompiledRule) (k : Key) (name : Name) : option CompiledRule :=
  snd <$> list_find (λ r, rule_matches rules k name r = true) compiled.
Definition policy (c : CacheConfig) (compiled : list CompiledRule) (k : Key) (name : Name) : Policy :=
  let matched := find_rule (c_rules c) compiled k name in
  let rule := matched ≫= λ r, c_rules c !! ru_index r in
  mkPolicy (ru_index <$> matched)
    (negb (c_enabled c) || match rule with Some r => cr_bypass r | None => false end)
    (default (max_ttl_secs c) (rule ≫= cr_max_ttl_secs))
    (default (negative_ttl_cap_secs c) (rule ≫= cr_negative_ttl_cap_secs))
    (default (pf_enabled (prefetch c)) (rule ≫= cr_prefetch))
    (default (st_enabled (stale c)) (rule ≫= cr_stale)).

(** The sort key of a rule: exact before suffix, more labels first, with a type
    before any type, then the order of the configuration. *)
Definition bool_cmp (a b : bool) : comparison :=
  match a, b with false, true => Lt | true, false => Gt | _, _ => Eq end.
Definition rule_cmp (rules : list CacheRule) (a b : CompiledRule) : comparison :=
  let suffix r := match rules !! ru_index r with Some c => cr_suffix c | None => false end in
  then_ (bool_cmp (suffix a) (suffix b))
    (then_ (Nat.compare (length (name_iter (ru_name b))) (length (name_iter (ru_name a))))
      (then_ (bool_cmp (bool_decide (ru_qtype a = None)) (bool_decide (ru_qtype b = None)))
        (Nat.compare (ru_index a) (ru_index b)))).
(** [None] when a validated name or type does not parse ([expect]). *)
Definition compile_rule `{!NameParse} (index : nat) (r : CacheRule) : option CompiledRule :=
  name ← from_ascii (cr_name r);
  qtype ← match cr_qtype r with
          | None => Some None
          | Some t => Some <$> type_from_str t
          end;
  Some (mkRule (to_lowercase name) qtype index).
Definition compile_rules `{!NameParse} (rules : list CacheRule) : option (list CompiledRule) :=
  ListSlice.sort_by (rule_cmp rules) <$> mapM (λ p, compile_rule p.1 p.2) (imap pair rules).
End key.

(** ** Admission of an answer *)
(** A [HashMap] of names is keyed by the folded name. *)
Notation Targets := (gmap Name Name).
Section prepare.
Context `{MessageLib} `{!DnsNames}.

Definition is_negative (question : Query) (response : Message) : bool :=
  bool_decide (response_code response = NXDomain) ||
  negb (existsb (λ rr, bool_decide (record_type rr = q_type question)) (answers response)).

Definition D (A : Type) : Type := M unit DecisionReason A.

Fixpoint collect_targets (class : Z) (answers : list Rr) (targets : Targets) : D Targets :=
  match answers with
  | [] => ret targets
  | rr :: answers =>
      match rr_data rr with
      | RCname target =>
          let owner := to_lowercase (rr_name rr) in
          if bool_decide (rr_class rr ≠ class) ||
             match targets !! owner with Some previous => negb (name_eq previous target) | None => false end
          then fail UncacheableResponse
          else collect_targets class answers (<[owner := target]> targets)
      | _ => fail UncacheableResponse
      end
  end.
Fixpoint follow (n : nat) (targets : Targets) (name : Name) : D Name :=
  match n with
  | O => ret name
  | S n => let* next := ok_or UncacheableResponse (targets !! to_lowercase name) in follow n targets next
  end.
Fixpoint soa_ttl (class : Z) (terminal : Name) (rrs : list Rr) (identity : option (Name * Soa)) (lifetime : option Z)
    : D (option Z) :=
  match rrs with
  | [] => ret lifetime
  | rr :: rrs =>
      match rr_data rr with
      | RSoa soa =>
          if bool_decide (rr_class rr ≠ class) || negb (zone_of (rr_name rr) terminal) then fail NegativeWithoutSoa
          else if match identity with
                  | Some (owner, data) => negb (name_eq owner (rr_name rr)) || bool_decide (data ≠ soa)
                  | None => false
                  end
          then fail UncacheableResponse
          else
            let ttl := Z.min (rr_ttl rr) (minimum soa) in
            soa_ttl class terminal rrs (Some (rr_name rr, soa))
              (Some (match lifetime with Some current => Z.min current ttl | None => ttl end))
      | _ => soa_ttl class terminal rrs identity lifetime
      end
  end.
Definition cname_negative_ttl (name : Name) (class : Z) (response : Message) : D Z :=
  let* targets := collect_targets class (answers response) ∅ in
  let* terminal := follow (size targets) targets name in
  if bool_decide (is_Some (targets !! to_lowercase terminal)) then fail UncacheableResponse else
  let* lifetime := soa_ttl class terminal (authorities response) None None in
  ok_or NegativeWithoutSoa lifetime.

(** The lowest TTL of the SOA records above the name. *)
Definition soa_candidates (question : Query) (rrs : list Rr) : list Z :=
  omap (λ rr, match rr_data rr with
              | RSoa soa =>
                  if bool_decide (rr_class rr = q_class question) && zone_of (rr_name rr) (q_name question)
                  then Some (Z.min (rr_ttl rr) (minimum soa)) else None
              | _ => None
              end) rrs.
Fixpoint list_min (l : list Z) : option Z :=
  match l with
  | [] => None
  | x :: l => Some (match list_min l with Some y => Z.min x y | None => x end)
  end.
Definition negative_ttl (question : Query) (response : Message) : D Z :=
  if bool_decide (length (answers response) = 0%nat)
  then ok_or NegativeWithoutSoa (list_min (soa_candidates question (authorities response)))
  else if bool_decide (q_type question = CNAME) then fail UncacheableResponse
  else cname_negative_ttl (q_name question) (q_class question) response.

Definition I32_MAX : Z := 2147483647.
Fixpoint clamp_ttls (max : Z) (negative : bool) (rrs : list Rr) (lifetime : Z) : D (list Rr * Z) :=
  match rrs with
  | [] => ret ([], lifetime)
  | rr :: rrs =>
      if bool_decide (record_type rr = SIG ∨ record_type rr = TSIG) then fail UncacheableResponse else
      if bool_decide (rr_ttl rr > I32_MAX) then fail TtlZero else
      let ttl := Z.min (rr_ttl rr) max in
      let ttl := if negative && bool_decide (record_type rr = SOA) then Z.min ttl lifetime else ttl in
      let* (rest, lifetime) := clamp_ttls max negative rrs (Z.min lifetime ttl) in
      ret (with_ttl ttl rr :: rest, lifetime)
  end.

Definition prepare_response (question : Query) (response : Message) (p : Policy) : D (Message * Z * bool) :=
  if negb (plain_edns response) then fail UnsupportedEdns else
  let negative := is_negative question response in
  let* lifetime := (if negative
    then let* t := negative_ttl question response in ret (Z.min (Z.min (p_max_ttl p) (p_negative_cap p)) t)
    else ret (p_max_ttl p)) in
  let* (an, lifetime) := clamp_ttls (p_max_ttl p) negative (answers response) lifetime in
  let* (au, lifetime) := clamp_ttls (p_max_ttl p) negative (authorities response) lifetime in
  let* (ad, lifetime) := clamp_ttls (p_max_ttl p) negative (additionals response) lifetime in
  if bool_decide (lifetime = 0) then fail TtlZero
  else ret (with_edns None (with_id 0 (with_sections an au ad response)), lifetime, negative).
End prepare.

(** ** Namespaces *)
Section scopes.
Context `{IpNetLib}.
Definition scopes_overlap (a b : Scope) : bool :=
  match a, b with
  | Network a, Network b | Network a, ExactSource b | ExactSource a, Network b | ExactSource a, ExactSource b =>
      net_contains a (net_addr b) || net_contains b (net_addr a)
  | Learned ipv4, Network n | Learned ipv4, ExactSource n | Network n, Learned ipv4 | ExactSource n, Learned ipv4 =>
      Bool.eqb (is_ipv4 (net_addr n)) ipv4
  | _, _ => bool_decide (a = b)
  end.
Definition learned_serves (entry filter : Scope) : bool :=
  match entry, filter with
  | Learned ipv4, Network n | Learned ipv4, ExactSource n =>
      bool_decide (net_prefix_len n > 0) && Bool.eqb (is_ipv4 (net_addr n)) ipv4
  | _, _ => false
  end.
End scopes.
