(* ===== verification/CacheAdmit.v ===== *)
(** * What may be cached, and for how long

    The properties of [prepare_response], [cname_negative_ttl] and [policy] of
    [src/cache.rs]. *)
From S2P Require Import Prelude Net Std Names Dns Ecs Protocol CacheData.
Set Default Goal Selector "!".
Set Warnings "-rewrite-rw".
Local Open Scope Z_scope.
Local Open Scope rust_scope.

Lemma list_min_None l : list_min l = None ↔ l = [].
Proof. destruct l; simpl; naive_solver. Qed.
Lemma list_min_Some l x : list_min l = Some x ↔ x ∈ l ∧ Forall (λ y, x ≤ y) l.
Proof.
  revert x. induction l as [|y l IH]; intros x; simpl; [rewrite elem_of_nil; naive_solver|].
  destruct (list_min l) as [m|] eqn:E.
  - destruct (proj1 (IH m) eq_refl) as [Hin Hall]. rewrite elem_of_cons Forall_cons. split.
    + intros [= <-]. split.
      * destruct (Z.min_spec y m) as [[_ ->]|[_ ->]]; auto.
      * split; [lia|]. eapply Forall_impl; [exact Hall|]. intros z Hz. simpl in *. lia.
    + intros [[->|Hx] [Hy Hall']].
      * pose proof (proj1 (Forall_forall _ _) Hall' _ Hin). f_equal. simpl in *. lia.
      * pose proof (proj1 (Forall_forall _ _) Hall _ Hx). pose proof (proj1 (Forall_forall _ _) Hall' _ Hin). f_equal. simpl in *. lia.
  - apply list_min_None in E as ->. rewrite list_elem_of_singleton. split; [intros [= <-]; split; [done|]; by constructor|].
    by intros [-> _].
Qed.

(** ** A denial behind a chain of CNAME records *)
Section cname.
Context `{MessageLib} `{!DnsNames} `{!DnsNamesSpec}.
Notation fold n := (to_lowercase n).

(** [rr] is an alias record of [class] from [a] to [b]. *)
Definition link (class : Z) (rr : Rr) (a b : Name) : Prop :=
  ∃ target, rr_data rr = RCname target ∧ rr_class rr = class ∧ fold (rr_name rr) = a ∧ fold target = b.
Definition all_links (class : Z) (l : list Rr) : Prop := ∀ rr, rr ∈ l → ∃ a b, link class rr a b.
Definition linked (class : Z) (l : list Rr) (a b : Name) : Prop := ∃ rr, rr ∈ l ∧ link class rr a b.
Definition functional_links (class : Z) (l : list Rr) : Prop :=
  ∀ a b b', linked class l a b → linked class l a b' → b = b'.

(** The map represents the links [l]. *)
Definition represents_links (class : Z) (l : list Rr) (m : Targets) : Prop :=
  ∀ a b, (∃ t, m !! a = Some t ∧ fold t = b) ↔ linked class l a b.

Lemma link_inj class rr a b a' b' : link class rr a b → link class rr a' b' → a = a' ∧ b = b'.
Proof. intros (t & ? & ? & <- & <-) (t' & ? & ? & <- & <-). split; congruence. Qed.
Lemma linked_snoc class l rr a b : linked class (l ++ [rr]) a b ↔ linked class l a b ∨ link class rr a b.
Proof. unfold linked. setoid_rewrite elem_of_snoc. naive_solver. Qed.

Lemma collect_targets_wp class done_ l m :
  all_links class done_ → represents_links class done_ m →
  wp (collect_targets class l m)
    (λ m' _, all_links class (done_ ++ l) ∧ represents_links class (done_ ++ l) m')
    (λ _ _, ¬ (all_links class (done_ ++ l) ∧ functional_links class (done_ ++ l))) tt.
Proof.
  revert done_ m. induction l as [|rr l IH]; intros done_ m Hall Hrep; simpl; [rewrite app_nil_r; by apply wp_ret|].
  assert (∀ P, (∃ a b, link class rr a b) ∨ ¬ (∃ a b, link class rr a b) ∨ P) as Hno.
  { intros P. destruct (rr_data rr) as [t|s|k d] eqn:Ed.
    - destruct (decide (rr_class rr = class)); [left; exists (fold (rr_name rr)), (fold t), t; done|].
      right. left. intros (a & b & t' & _ & ? & _). done.
    - right. left. intros (a & b & t' & ? & _). congruence.
    - right. left. intros (a & b & t' & ? & _). congruence. }
  assert (rr ∈ done_ ++ rr :: l) as Hin by (apply elem_of_app; right; left).
  assert (¬ (∃ a b, link class rr a b) → ¬ (all_links class (done_ ++ rr :: l) ∧ functional_links class (done_ ++ rr :: l))) as Hbad.
  { intros Hn [Ha _]. by apply Hn, Ha. }
  destruct (rr_data rr) as [t|s|k d] eqn:Ed.
  2-3: apply wp_fail, Hbad; intros (a & b & t' & ? & _); congruence.
  destruct (decide (rr_class rr = class)) as [Hc|Hc].
  2: { rewrite bool_decide_true //. apply wp_fail, Hbad. by intros (a & b & t' & _ & ? & _). }
  rewrite bool_decide_false; [|naive_solver]. simpl.
  assert (link class rr (fold (rr_name rr)) (fold t)) as Hlink by (by exists t).
  assert (all_links class (done_ ++ [rr])) as Hall'.
  { intros r [Hr| ->]%elem_of_snoc; [by apply Hall|by do 2 eexists]. }
  replace (done_ ++ rr :: l) with ((done_ ++ [rr]) ++ l) by (by rewrite -app_assoc).
  destruct (m !! fold (rr_name rr)) as [prev|] eqn:Em.
  - rewrite name_eq_lower. destruct (decide (fold prev = fold t)) as [Heq|Hne].
    2: { rewrite bool_decide_false //. apply wp_fail. intros [_ Hf]. apply Hne.
      apply (Hf (fold (rr_name rr))).
      - destruct (proj1 (Hrep (fold (rr_name rr)) (fold prev)) ltac:(by exists prev)) as (r & Hr & Hl). exists r. split; [|done].
        apply elem_of_app. left. apply elem_of_snoc. by left.
      - exists rr. split; [|done]. apply elem_of_app. left. apply elem_of_snoc. by right. }
    rewrite bool_decide_true //=. apply IH; [done|]. intros a b. rewrite linked_snoc -Hrep.
    destruct (decide (a = fold (rr_name rr))) as [->|Ha].
    + rewrite lookup_insert_eq. split.
      * intros (t' & [= <-] & <-). right. done.
      * intros [(t' & Ht' & <-)|Hl]; [exists t; split; [done|congruence]|].
        destruct (link_inj _ _ _ _ _ _ Hlink Hl) as [_ <-]. by exists t.
    + rewrite lookup_insert_ne //. split; [by left|]. intros [|Hl]; [done|]. by destruct (link_inj _ _ _ _ _ _ Hlink Hl) as [<- _].
  - apply IH; [done|]. intros a b. rewrite linked_snoc -Hrep. destruct (decide (a = fold (rr_name rr))) as [->|Ha].
    + rewrite lookup_insert_eq. split.
      * intros (t' & [= <-] & <-). right. done.
      * intros [(t' & Ht' & <-)|Hl]; [congruence|]. destruct (link_inj _ _ _ _ _ _ Hlink Hl) as [_ <-]. by exists t.
    + rewrite lookup_insert_ne //. split; [by left|]. intros [|Hl]; [done|]. by destruct (link_inj _ _ _ _ _ _ Hlink Hl) as [<- _].
Qed.

(** [nodes] is a walk along the links, from its first to its last name. *)
Definition walk (class : Z) (l : list Rr) (nodes : list Name) : Prop :=
  ∀ i a b, nodes !! i = Some a → nodes !! S i = Some b → linked class l a b.
(** The aliases form one chain that starts at [name] and ends at [terminal]. *)
Record chain (class : Z) (l : list Rr) (name terminal : Name) (nodes : list Name) : Prop := {
  ch_links : all_links class l;
  ch_walk : walk class l nodes;
  ch_head : head nodes = Some (fold name);
  ch_last : last nodes = Some (fold terminal);
  ch_distinct : NoDup nodes;
  ch_covers : ∀ a b, linked class l a b → ∃ i, nodes !! i = Some a ∧ nodes !! S i = Some b;
}.

Lemma chain_functional class l name terminal nodes : chain class l name terminal nodes → functional_links class l.
Proof.
  intros [_ _ _ _ Hnd Hc] a b b' Hb Hb'. destruct (Hc _ _ Hb) as (i & Hi & Hsi), (Hc _ _ Hb') as (j & Hj & Hsj).
  pose proof (NoDup_lookup _ _ _ _ Hnd Hi Hj) as ->. congruence.
Qed.

Lemma follow_wp class l (m : Targets) n name :
  represents_links class l m →
  wp (follow n m name)
    (λ t _, ∃ nodes, length nodes = S n ∧ walk class l nodes ∧ head nodes = Some (fold name) ∧ last nodes = Some (fold t))
    (λ _ _, ∃ k nodes, (k < n)%nat ∧ length nodes = S k ∧ walk class l nodes ∧ head nodes = Some (fold name) ∧
       ∃ a, last nodes = Some a ∧ m !! a = None) tt.
Proof.
  intros Hrep. revert name. induction n as [|n IH]; intros name; simpl.
  { apply wp_ret. exists [fold name]. split; [done|]. split; [|done]. intros i a b Hi Hsi. by destruct i. }
  assert (∀ next nodes, m !! fold name = Some next → walk class l nodes → head nodes = Some (fold next) →
    walk class l (fold name :: nodes)) as Hcons.
  { intros next nodes Hn Hw Hh [|i] a b Hi Hsi; [|by apply (Hw i)]. simpl in *. injection Hi as <-.
    destruct nodes as [|x nodes]; [done|]. simpl in *. apply Hrep. exists next. split; [done|congruence]. }
  apply wp_bind, wp_ok_or.
  - intros next Hn. eapply wp_mono; [| |apply IH].
    + intros t [] (nodes & Hl & Hw & Hh & Hlast). exists (fold name :: nodes). simpl. split; [lia|].
      split; [by eapply Hcons|]. split; [done|]. destruct nodes; [done|]. done.
    + intros e [] (k & nodes & Hk & Hl & Hw & Hh & Hlast). exists (S k), (fold name :: nodes). simpl. split; [lia|].
      split; [lia|]. split; [by eapply Hcons|]. split; [done|]. destruct nodes; [done|]. done.
  - intros Hn. exists O, [fold name]. split; [lia|]. split; [done|].
    split; [intros i a b Hi Hsi; by destruct i|]. split; [done|]. exists (fold name). split; [done|exact Hn].
Qed.

(** A walk from a functional relation that reaches a name without a link never
    repeats one. *)
Lemma walk_shift class l nodes i j k a b :
  functional_links class l → walk class l nodes → nodes !! i = nodes !! j →
  nodes !! (i + k)%nat = Some a → nodes !! (j + k)%nat = Some b → a = b.
Proof.
  intros Hf Hw Hij. revert a b. induction k as [|k IH]; intros a b Ha Hb.
  { rewrite !Nat.add_0_r in Ha Hb. congruence. }
  rewrite !Nat.add_succ_r in Ha Hb.
  destruct (lookup_lt_is_Some_2 nodes (i + k)) as [a' Ha']; [apply lookup_lt_Some in Ha; lia|].
  destruct (lookup_lt_is_Some_2 nodes (j + k)) as [b' Hb']; [apply lookup_lt_Some in Hb; lia|].
  pose proof (IH _ _ Ha' Hb') as ->. apply (Hf b'); [by apply (Hw (i + k)%nat)|by apply (Hw (j + k)%nat)].
Qed.
Lemma walk_distinct class l nodes last_ :
  functional_links class l → walk class l nodes → last nodes = Some last_ → (∀ b, ¬ linked class l last_ b) → NoDup nodes.
Proof.
  intros Hf Hw Hlast Hend. apply NoDup_alt. intros i j x Hi Hj.
  assert (∀ i j, (i < j)%nat → nodes !! i = Some x → nodes !! j = Some x → False) as Hlt.
  { clear i j Hi Hj. intros i j Hij Hi Hj. pose proof (lookup_lt_Some _ _ _ Hj) as Hjl.
    rewrite last_lookup in Hlast. set (k := (length nodes - 1 - j)%nat).
    destruct (lookup_lt_is_Some_2 nodes (i + k)) as [a Ha]; [unfold k; lia|].
    destruct (lookup_lt_is_Some_2 nodes (S (i + k))) as [b Hb]; [unfold k; lia|].
    replace (pred (length nodes)) with (j + k)%nat in Hlast by (unfold k; lia).
    assert (a = last_) as -> by (eapply (walk_shift _ _ _ i j k); [done|done|congruence|done|done]).
    apply (Hend b). by apply (Hw (i + k)%nat). }
  destruct (lt_eq_lt_dec i j) as [[|]|]; [exfalso; by eapply Hlt|done|exfalso; by eapply Hlt].
Qed.

Lemma represents_dom class l m a : represents_links class l m → a ∈ dom m ↔ ∃ b, linked class l a b.
Proof.
  intros Hrep. rewrite elem_of_dom. split.
  - intros [t Ht]. exists (fold t). apply Hrep. by exists t.
  - intros [b Hb]. apply Hrep in Hb as (t & Ht & _). by exists t.
Qed.
Lemma represents_functional class l m : represents_links class l m → functional_links class l.
Proof. intros Hrep a b b' (t & Ht & <-)%Hrep (t' & Ht' & <-)%Hrep. congruence. Qed.

Lemma last_take_snoc {A} (nodes : list A) x : last nodes = Some x → nodes = take (pred (length nodes)) nodes ++ [x].
Proof.
  intros Hl. rewrite last_lookup in Hl. pose proof (take_drop (pred (length nodes)) nodes) as Htd.
  rewrite (drop_S _ _ _ Hl) in Htd. rewrite (drop_ge nodes) in Htd; [done|lia].
Qed.

(** The walk that takes every link once is the chain. *)
Lemma walk_chain class l m name t nodes :
  all_links class l → represents_links class l m → length nodes = S (size m) → walk class l nodes →
  head nodes = Some (fold name) → last nodes = Some (fold t) → m !! fold t = None → chain class l name t nodes.
Proof.
  intros Hall Hrep Hlen Hw Hh Hlast Hend.
  assert (∀ b, ¬ linked class l (fold t) b) as Hstop.
  { intros b Hb. apply Hrep in Hb as (t' & Ht' & _). congruence. }
  pose proof (represents_functional _ _ _ Hrep) as Hf.
  pose proof (walk_distinct _ _ _ _ Hf Hw Hlast Hstop) as Hnd. split; try done.
  set (path := take (size m) nodes).
  assert (nodes = path ++ [fold t]) as Hpath.
  { rewrite {1}(last_take_snoc _ _ Hlast). unfold path. by rewrite Hlen. }
  assert (NoDup path) as Hndp by (rewrite Hpath in Hnd; by apply NoDup_app in Hnd as [? _]).
  assert (length path = size m) as Hlp by (unfold path; rewrite length_take; lia).
  assert (list_to_set path ⊆ dom m) as Hsub.
  { intros a Ha%elem_of_list_to_set. apply (represents_dom class l); [done|].
    apply list_elem_of_lookup in Ha as [i Hi]. pose proof (lookup_lt_Some _ _ _ Hi) as Hil.
    destruct (lookup_lt_is_Some_2 nodes (S i)) as [b Hb]; [lia|]. exists b. apply (Hw i); [|done].
    rewrite Hpath. by apply lookup_app_l_Some. }
  assert (dom m = list_to_set path) as Hdom.
  { symmetry. apply set_subseteq_size_eq; [done|]. rewrite size_dom size_list_to_set //. lia. }
  intros a b Hab. assert (a ∈ path) as Ha.
  { apply (elem_of_list_to_set (C:=gset Name)). rewrite -Hdom. apply (represents_dom class l); [done|]. by exists b. }
  apply list_elem_of_lookup in Ha as [i Hi]. pose proof (lookup_lt_Some _ _ _ Hi) as Hil.
  assert (nodes !! i = Some a) as Hni by (rewrite Hpath; by apply lookup_app_l_Some).
  destruct (lookup_lt_is_Some_2 nodes (S i)) as [b' Hb']; [lia|]. exists i. split; [done|].
  rewrite Hb'. f_equal. apply (Hf a); [by apply (Hw i)|done].
Qed.

(** Conversely, the chain is what [follow] finds. *)
Lemma walk_prefix_unique class l nodes nodes' :
  functional_links class l → walk class l nodes → walk class l nodes' → head nodes = head nodes' →
  (length nodes ≤ length nodes')%nat → nodes = take (length nodes) nodes'.
Proof.
  intros Hf Hw Hw' Hh Hlen. apply list_eq_same_length with (n := length nodes); [rewrite length_take; lia|done|].
  intros i x y Hi Hx Hy. apply lookup_take_Some in Hy as [Hy _]. revert x y Hi Hx Hy. induction i as [|i IH]; intros x y Hi Hx Hy.
  - destruct nodes, nodes'; simpl in *; congruence.
  - destruct (lookup_lt_is_Some_2 nodes i) as [a Ha]; [lia|]. destruct (lookup_lt_is_Some_2 nodes' i) as [a' Ha']; [lia|].
    pose proof (IH _ _ ltac:(lia) Ha Ha') as ->. apply (Hf a'); [by apply (Hw i)|by apply (Hw' i)].
Qed.
Lemma chain_size class l m name t nodes :
  represents_links class l m → chain class l name t nodes → length nodes = S (size m) ∧ m !! fold t = None.
Proof.
  intros Hrep [Hall Hw Hh Hlast Hnd Hcov]. rewrite -size_dom. set (n := pred (length nodes)).
  assert (nodes = take n nodes ++ [fold t]) as Hsplit by by apply last_take_snoc.
  assert (length nodes = S n) as Hlen by (unfold n; destruct nodes; [done|simpl; lia]).
  assert (dom m = list_to_set (take n nodes)) as Hdom.
  { apply set_eq. intros a. rewrite (represents_dom class l) // elem_of_list_to_set. split.
    - intros [b Hb]. destruct (Hcov _ _ Hb) as (i & Hi & Hsi). apply list_elem_of_lookup. exists i.
      apply lookup_lt_Some in Hsi. rewrite lookup_take_lt; [done|lia].
    - intros [i Hi]%list_elem_of_lookup. apply lookup_take_Some in Hi as [Hi Hil].
      destruct (lookup_lt_is_Some_2 nodes (S i)) as [b Hb]; [lia|]. exists b. by apply (Hw i). }
  assert (NoDup (take n nodes)) as Hnd' by (rewrite Hsplit in Hnd; by apply NoDup_app in Hnd as [? _]).
  split; [rewrite Hdom size_list_to_set // length_take; lia|].
  apply not_elem_of_dom. rewrite Hdom elem_of_list_to_set. rewrite Hsplit in Hnd. apply NoDup_app in Hnd as (_ & Hn & _).
  intros Hin. by apply (Hn _ Hin), list_elem_of_singleton.
Qed.

(** ** The SOA records of the denial *)
(** Every SOA of the authority section is the same record, of the class, above
    [terminal]. *)
Record same_soa (class : Z) (terminal : Name) (rrs : list Rr) : Prop := {
  ss_zone rr soa : rr ∈ rrs → rr_data rr = RSoa soa → rr_class rr = class ∧ zone_of (rr_name rr) terminal = true;
  ss_same rr rr' soa soa' : rr ∈ rrs → rr' ∈ rrs → rr_data rr = RSoa soa → rr_data rr' = RSoa soa' →
    fold (rr_name rr) = fold (rr_name rr') ∧ soa = soa';
}.
Definition soa_ttls (rrs : list Rr) : list Z :=
  omap (λ rr, match rr_data rr with RSoa soa => Some (Z.min (rr_ttl rr) (minimum soa)) | _ => None end) rrs.

Definition identity_of (rrs : list Rr) (identity : option (Name * Soa)) : Prop :=
  match identity with
  | None => ∀ rr soa, rr ∈ rrs → rr_data rr ≠ RSoa soa
  | Some (owner, data) => (∃ rr, rr ∈ rrs ∧ rr_name rr = owner ∧ rr_data rr = RSoa data) ∧
      ∀ rr soa, rr ∈ rrs → rr_data rr = RSoa soa → fold (rr_name rr) = fold owner ∧ soa = data
  end.
Lemma list_min_snoc l x : list_min (l ++ [x]) = Some (match list_min l with Some y => Z.min y x | None => x end).
Proof. induction l as [|y l IH]; simpl; [done|]. rewrite IH. destruct (list_min l); f_equal; lia. Qed.

Lemma soa_ttl_wp class terminal done_ rrs identity lifetime :
  same_soa class terminal done_ → identity_of done_ identity → lifetime = list_min (soa_ttls done_) →
  wp (soa_ttl class terminal rrs identity lifetime)
    (λ r _, same_soa class terminal (done_ ++ rrs) ∧ r = list_min (soa_ttls (done_ ++ rrs)))
    (λ _ _, ¬ same_soa class terminal (done_ ++ rrs)) tt.
Proof.
  revert done_ identity lifetime. induction rrs as [|rr rrs IH]; intros done_ identity lifetime Hs Hi Hl; simpl.
  { rewrite app_nil_r. by apply wp_ret. }
  assert (rr ∈ done_ ++ rr :: rrs) as Hin by (apply elem_of_app; right; left).
  assert (∀ r, r ∈ done_ → r ∈ done_ ++ rr :: rrs) as Hold by (intros; apply elem_of_app; by left).
  assert (done_ ++ rr :: rrs = (done_ ++ [rr]) ++ rrs) as Happ by by rewrite -app_assoc.
  assert ((∀ soa, rr_data rr ≠ RSoa soa) →
    wp (soa_ttl class terminal rrs identity lifetime)
      (λ r _, same_soa class terminal (done_ ++ rr :: rrs) ∧ r = list_min (soa_ttls (done_ ++ rr :: rrs)))
      (λ _ _, ¬ same_soa class terminal (done_ ++ rr :: rrs)) tt) as Hskip.
  { intros Hn. rewrite Happ. apply IH.
    - split.
      + intros r s [Hr| ->]%elem_of_snoc Hd; [by apply (ss_zone _ _ _ Hs r s)|by destruct (Hn s)].
      + intros r r' s s' [Hr| ->]%elem_of_snoc [Hr'| ->]%elem_of_snoc Hd Hd';
          [by apply (ss_same _ _ _ Hs r r')|by destruct (Hn s')|by destruct (Hn s)..].
    - assert (∀ r s, r ∈ done_ ++ [rr] → rr_data r = RSoa s → r ∈ done_) as Hin'.
      { intros r s [Hr| ->]%elem_of_snoc Hd; [done|by destruct (Hn s)]. }
      destruct identity as [[o d']|]; simpl in Hi |- *.
      + destruct Hi as [(r0 & Hr0 & Hrest) Hi]. split; [exists r0; split; [apply elem_of_snoc; by left|done]|].
        intros r s Hr Hd. apply Hi; [by eapply Hin'|done].
      + intros r s Hr Hd. apply (Hi r s); [by eapply Hin'|done].
    - unfold soa_ttls. rewrite omap_app. cbn [omap list_omap]. destruct (rr_data rr) as [|s|] eqn:Ed; [|by destruct (Hn s)|];
        by rewrite app_nil_r. }
  destruct (rr_data rr) as [tg|soa|k d] eqn:Ed; [by apply Hskip| |by apply Hskip]. clear Hskip.
  destruct (bool_decide (rr_class rr ≠ class) || negb (zone_of (rr_name rr) terminal)) eqn:Ez.
  { apply wp_fail. intros Hs'. destruct (ss_zone _ _ _ Hs' rr soa Hin Ed) as [Hc Hz]. rewrite Hc Hz in Ez.
    rewrite bool_decide_false in Ez; [done|]. naive_solver. }
  apply orb_false_iff in Ez as [Hc Hz%negb_false_iff]. apply bool_decide_eq_false, dec_stable in Hc.
  assert (identity_of done_ identity → (∀ o d, identity = Some (o, d) → fold o = fold (rr_name rr) ∧ d = soa) →
    wp (soa_ttl class terminal rrs (Some (rr_name rr, soa))
      (Some (match lifetime with Some current => Z.min current (Z.min (rr_ttl rr) (minimum soa)) | None => Z.min (rr_ttl rr) (minimum soa) end)))
      (λ r _, same_soa class terminal (done_ ++ rr :: rrs) ∧ r = list_min (soa_ttls (done_ ++ rr :: rrs)))
      (λ _ _, ¬ same_soa class terminal (done_ ++ rr :: rrs)) tt) as Hgo.
  { intros _ Hid. assert (∀ r s, r ∈ done_ → rr_data r = RSoa s → fold (rr_name r) = fold (rr_name rr) ∧ s = soa) as Hsame.
    { intros r s Hr Hd. destruct identity as [[o d]|]; simpl in Hi; [|by destruct (Hi r s)].
      destruct Hi as [_ Hi]. destruct (Hi r s Hr Hd) as [Hf1 ->], (Hid o d eq_refl) as [Hf2 ->]. split; [congruence|done]. }
    rewrite Happ. apply IH.
    - split.
      + intros r s [Hr| ->]%elem_of_snoc Hd; [by apply (ss_zone _ _ _ Hs r s)|done].
      + intros r r' s s' [Hr| ->]%elem_of_snoc [Hr'| ->]%elem_of_snoc Hd Hd'.
        * by apply (ss_same _ _ _ Hs r r').
        * rewrite Ed in Hd'. injection Hd' as <-. by apply Hsame.
        * rewrite Ed in Hd. injection Hd as <-. destruct (Hsame _ _ Hr' Hd') as [-> ->]. done.
        * split; [done|congruence].
    - split; [exists rr; split; [by apply elem_of_snoc; right|done]|].
      intros r s [Hr| ->]%elem_of_snoc Hd; [by apply Hsame|]. split; [done|congruence].
    - unfold soa_ttls. rewrite omap_app. cbn [omap list_omap]. rewrite Ed list_min_snoc. by rewrite Hl. }
  destruct identity as [[o d]|]; [|by apply Hgo].
  destruct (negb (name_eq o (rr_name rr)) || bool_decide (d ≠ soa)) eqn:Ei.
  - apply wp_fail. intros Hs'. destruct Hi as [(r & Hr & <- & Hd) _].
    destruct (ss_same _ _ _ Hs' r rr d soa (Hold _ Hr) Hin Hd Ed) as [Hn ->].
    rewrite name_eq_lower bool_decide_true // bool_decide_false in Ei; [done|]. naive_solver.
  - apply orb_false_iff in Ei as [Hn%negb_false_iff Hd]. rewrite name_eq_lower in Hn. apply bool_decide_eq_true in Hn.
    apply bool_decide_eq_false, dec_stable in Hd. apply Hgo; [done|]. by intros ? ? [= <- <-].
Qed.

(** ** The TTL of a denial reached through aliases *)
Definition alias_denial (name : Name) (class : Z) (response : Message) (t : Z) : Prop :=
  ∃ terminal nodes, chain class (answers response) name terminal nodes ∧
    same_soa class terminal (authorities response) ∧ list_min (soa_ttls (authorities response)) = Some t.

Lemma same_soa_fold class t t' rrs : fold t = fold t' → same_soa class t rrs → same_soa class t' rrs.
Proof.
  intros Ht [Hz Hsame]. split; [|done]. intros rr soa Hr Hd. destruct (Hz rr soa Hr Hd) as [? Hz']. split; [done|].
  by rewrite -zone_of_lower -Ht zone_of_lower.
Qed.
Lemma chain_unique class l name t t' nodes nodes' :
  chain class l name t nodes → chain class l name t' nodes' → fold t = fold t'.
Proof.
  intros Hc Hc'. pose proof (chain_functional _ _ _ _ _ Hc) as Hf.
  assert (∀ n n' u u', chain class l name u n → chain class l name u' n' → (length n ≤ length n')%nat → n = take (length n) n') as Hpre.
  { intros n n' u u' [] [] Hle. apply (walk_prefix_unique class l); [done..| |done]. by rewrite ch_head0 ch_head1. }
  assert (∀ n n' u u', chain class l name u n → chain class l name u' n' → (length n ≤ length n')%nat → fold u = fold u') as Hle.
  { intros n n' u u' Hn Hn' Hlen. pose proof (Hpre _ _ _ _ Hn Hn' Hlen) as Hp.
    destruct (decide (length n = length n')) as [Heq|Hne].
    - rewrite Heq firstn_all in Hp. subst. pose proof (ch_last _ _ _ _ _ Hn). pose proof (ch_last _ _ _ _ _ Hn'). congruence.
    - exfalso. pose proof (ch_last _ _ _ _ _ Hn) as Hlast. rewrite last_lookup in Hlast. pose proof (lookup_lt_Some _ _ _ Hlast).
      rewrite Hp in Hlast. apply lookup_take_Some in Hlast as [Hlast _]. rewrite -Hp in Hlast.
      destruct (lookup_lt_is_Some_2 n' (S (pred (length n)))) as [b Hb]; [lia|].
      pose proof (ch_walk _ _ _ _ _ Hn' _ _ _ Hlast Hb) as Hlink.
      destruct (ch_covers _ _ _ _ _ Hn _ _ Hlink) as (i & Hi & Hsi).
      pose proof (ch_last _ _ _ _ _ Hn) as Hlast'. rewrite last_lookup in Hlast'.
      pose proof (NoDup_lookup _ _ _ _ (ch_distinct _ _ _ _ _ Hn) Hi Hlast') as ->.
      apply lookup_lt_Some in Hsi. lia. }
  destruct (le_ge_dec (length nodes) (length nodes')); [by eapply Hle|symmetry; by eapply Hle].
Qed.

Lemma cname_negative_ttl_wp name class response :
  wp (cname_negative_ttl name class response)
    (λ t _, alias_denial name class response t)
    (λ _ _, ¬ ∃ t, alias_denial name class response t) tt.
Proof.
  unfold cname_negative_ttl. apply wp_bind. eapply wp_mono; [| |apply (collect_targets_wp class [])].
  2: { intros e [] Hno (t & terminal & nodes & Hc & _). apply Hno. split; [apply Hc|by eapply chain_functional]. }
  2: { by intros ? ?%elem_of_nil. }
  2: { intros a b. unfold linked. setoid_rewrite elem_of_nil. split; [by intros (? & ? & _)|naive_solver]. }
  simpl. intros m [] [Hall Hrep]. apply wp_bind.
  eapply wp_mono; [| |apply (follow_wp class (answers response)); done].
  2: { intros e [] (k & nodes & Hk & Hlen & Hw & Hh & a & Hlast & Hna) (t & terminal & nodes' & Hc & _).
    destruct (chain_size _ _ _ _ _ _ Hrep Hc) as [Hsize Hnone].
    pose proof (walk_prefix_unique class _ nodes nodes' (chain_functional _ _ _ _ _ Hc) Hw (ch_walk _ _ _ _ _ Hc)
      ltac:(by rewrite Hh (ch_head _ _ _ _ _ Hc)) ltac:(lia)) as Hp.
    rewrite last_lookup Hlen /= in Hlast. rewrite Hp in Hlast. apply lookup_take_Some in Hlast as [Hlast _].
    destruct (lookup_lt_is_Some_2 nodes' (S k)) as [b Hb]; [lia|].
    pose proof (ch_walk _ _ _ _ _ Hc _ _ _ Hlast Hb) as Hlink. apply Hrep in Hlink as (? & ? & _). congruence. }
  intros t [] (nodes & Hlen & Hw & Hh & Hlast).
  case_bool_decide as Hend.
  { apply wp_fail. intros (t' & terminal & nodes' & Hc & _). destruct (chain_size _ _ _ _ _ _ Hrep Hc) as [Hsize Hnone].
    pose proof (walk_prefix_unique class _ nodes nodes' (chain_functional _ _ _ _ _ Hc) Hw (ch_walk _ _ _ _ _ Hc)
      ltac:(by rewrite Hh (ch_head _ _ _ _ _ Hc)) ltac:(lia)) as Hp.
    rewrite firstn_all2 in Hp; [|lia]. subst nodes'. pose proof (ch_last _ _ _ _ _ Hc) as Hl. rewrite Hl in Hlast.
    injection Hlast as Heq. rewrite -Heq Hnone in Hend. by destruct Hend. }
  apply eq_None_not_Some in Hend.
  pose proof (walk_chain _ _ _ _ _ _ Hall Hrep Hlen Hw Hh Hlast Hend) as Hc.
  apply wp_bind. eapply wp_mono; [| |apply (soa_ttl_wp class t [])].
  - intros r [] [Hsame ->]. apply wp_ok_or; [intros x Hx; by exists t, nodes|].
    intros Hn (x & t' & nodes' & _ & _ & Hx). simpl in Hn. congruence.
  - intros e [] Hno (x & t' & nodes' & Hc' & Hs & _). apply Hno. simpl. eapply same_soa_fold; [|exact Hs].
    symmetry. by eapply chain_unique.
  - split; [intros rr soa Hr|intros rr rr' soa soa' Hr]; by apply elem_of_nil in Hr.
  - intros rr soa Hr. by apply elem_of_nil in Hr.
  - done.
Qed.
End cname.

(** ** The lifetime of an answer *)
Section lifetime.
Context `{MessageLib} `{!DnsNames} `{!DnsNamesSpec}.

Definition is_min (x : Z) (l : list Z) : Prop := x ∈ l ∧ Forall (λ y, x ≤ y) l.
Lemma is_min_list_min x l : is_min x l ↔ list_min l = Some x.
Proof. symmetry. apply list_min_Some. Qed.

Definition record_ok (rr : Rr) : Prop := record_type rr ≠ SIG ∧ record_type rr ≠ TSIG ∧ rr_ttl rr ≤ I32_MAX.
(** [new] is [old] with a TTL of at least [floor] and no more than its own. *)
Definition clamped (max floor : Z) (old new : Rr) : Prop :=
  ∃ t, new = with_ttl t old ∧ floor ≤ t ≤ rr_ttl old ∧ t ≤ max.

Lemma clamp_ttls_wp max negative rrs lifetime :
  lifetime ≤ max →
  wp (clamp_ttls max negative rrs lifetime)
    (λ r _, Forall record_ok rrs ∧ is_min r.2 (lifetime :: (rr_ttl <$> rrs)) ∧ Forall2 (clamped max r.2) rrs r.1)
    (λ _ _, ¬ Forall record_ok rrs) tt.
Proof.
  revert lifetime. induction rrs as [|rr rrs IH]; intros lifetime Hmax; simpl.
  { apply wp_ret. split; [done|]. split; [|done]. split; [left|by constructor]. }
  case_bool_decide as Hk; [apply wp_fail; rewrite Forall_cons; unfold record_ok; naive_solver|].
  case_bool_decide as Ht; [apply wp_fail; rewrite Forall_cons; unfold record_ok; intros [(_ & _ & ?) _]; lia|].
  set (ttl := if negative && bool_decide (record_type rr = SOA) then _ else _).
  assert (Z.min lifetime ttl = Z.min lifetime (rr_ttl rr) ∧ Z.min lifetime ttl ≤ ttl ∧ ttl ≤ rr_ttl rr ∧ ttl ≤ max) as (Hmin & Hle & Hrr & Hm).
  { unfold ttl. destruct (negative && bool_decide (record_type rr = SOA)); lia. }
  rewrite Hmin. rewrite Hmin in Hle.
  apply wp_bind. eapply wp_mono; [| |apply IH; lia].
  - intros [rest l] [] (Hok & [Hin Hall] & Hcl). apply wp_ret. simpl in *.
    apply Forall_cons in Hall as [Hl Hall]. split; [constructor; [|done]; unfold record_ok; naive_solver lia|].
    split; [split|].
    + apply elem_of_cons in Hin as [->|Hin]; [|do 2 right; done].
      destruct (Z.min_spec lifetime (rr_ttl rr)) as [[_ ->]|[_ ->]]; [left|right; left].
    + constructor; [lia|]. constructor; [lia|done].
    + constructor; [|done]. exists ttl. split; [done|]. lia.
  - intros e [] Hno. rewrite Forall_cons. naive_solver.
Qed.

(** The TTL a negative answer proves for its question. *)
Definition denial_ttl (question : Query) (response : Message) (t : Z) : Prop :=
  if decide (length (answers response) = 0%nat)
  then list_min (soa_candidates question (authorities response)) = Some t
  else q_type question ≠ CNAME ∧ alias_denial (q_name question) (q_class question) response t.
Lemma denial_ttl_unique question response t t' :
  denial_ttl question response t → denial_ttl question response t' → t = t'.
Proof.
  unfold denial_ttl. case_decide; [congruence|]. intros [_ (? & ? & _ & _ & Ht)] [_ (? & ? & _ & _ & Ht')]. congruence.
Qed.
Lemma negative_ttl_wp question response :
  wp (negative_ttl question response) (λ t _, denial_ttl question response t)
    (λ _ _, ¬ ∃ t, denial_ttl question response t) tt.
Proof.
  unfold negative_ttl, denial_ttl. destruct (decide (length (answers response) = 0%nat)) as [Ha|Ha].
  - rewrite bool_decide_true //. apply wp_ok_or; [done|]. intros -> (t & Ht). done.
  - rewrite bool_decide_false //. case_bool_decide as Hc; [apply wp_fail; naive_solver|].
    eapply wp_mono; [| |apply cname_negative_ttl_wp]; [done|]. naive_solver.
Qed.

(** The answer may be stored for [lifetime] seconds: no extension or signature
    record forbids it, no TTL is out of range, and [lifetime] is the smallest of
    the configured caps, the TTLs and what a denial proves. *)
Definition storable (question : Query) (response : Message) (p : Policy) (lifetime : Z) : Prop :=
  plain_edns response = true ∧ Forall record_ok (sections response) ∧ lifetime ≠ 0 ∧
  if is_negative question response
  then ∃ t, denial_ttl question response t ∧
       is_min lifetime ([p_max_ttl p; p_negative_cap p; t] ++ (rr_ttl <$> sections response))
  else is_min lifetime ([p_max_ttl p] ++ (rr_ttl <$> sections response)).
(** What is stored differs from the answer in TTLs, ID and OPT only. *)
Record stored_of (p : Policy) (response : Message) (lifetime : Z) (stored : Message) : Prop := {
  st_rest : stored = with_edns None (with_id 0 (with_sections (answers stored) (authorities stored) (additionals stored) response));
  st_answers : Forall2 (clamped (p_max_ttl p) lifetime) (answers response) (answers stored);
  st_authorities : Forall2 (clamped (p_max_ttl p) lifetime) (authorities response) (authorities stored);
  st_additionals : Forall2 (clamped (p_max_ttl p) lifetime) (additionals response) (additionals stored);
}.

Lemma is_min_trans a l1 b l2 : is_min a l1 → is_min b (a :: l2) → is_min b (l1 ++ l2).
Proof.
  intros [Ha Hal] [Hb Hbl]. apply Forall_cons in Hbl as [Hba Hbl]. split.
  - apply elem_of_app. apply elem_of_cons in Hb as [->|]; auto.
  - apply Forall_app. split; [|done]. eapply Forall_impl; [exact Hal|]. simpl. intros. lia.
Qed.
Lemma is_min_unique a b l : is_min a l → is_min b l → a = b.
Proof.
  intros [Ha Hal] [Hb Hbl]. pose proof (proj1 (Forall_forall _ _) Hal _ Hb). pose proof (proj1 (Forall_forall _ _) Hbl _ Ha).
  simpl in *. lia.
Qed.
Lemma is_min_le a l x : is_min a l → x ∈ l → a ≤ x.
Proof. intros [_ Hl] Hx. apply (proj1 (Forall_forall _ _) Hl _ Hx). Qed.
Lemma clamped_weaken max floor floor' old new : floor' ≤ floor → clamped max floor old new → clamped max floor' old new.
Proof. intros Hf (t & -> & ? & ?). exists t. split; [done|]. lia. Qed.

Lemma prepare_response_wp question response p :
  wp (prepare_response question response p)
    (λ r _, let '(stored, lifetime, negative) := r in
       storable question response p lifetime ∧ negative = is_negative question response ∧
       stored_of p response lifetime stored)
    (λ _ _, ¬ ∃ lifetime, storable question response p lifetime) tt.
Proof.
  unfold prepare_response. destruct (plain_edns response) eqn:Hplain; simpl.
  2: { apply wp_fail. intros (l & Hp & _). congruence. }
  apply wp_bind.
  apply (wp_mono _ (λ l _, l ≤ p_max_ttl p ∧ if is_negative question response
      then ∃ t, denial_ttl question response t ∧ is_min l [p_max_ttl p; p_negative_cap p; t]
      else is_min l [p_max_ttl p]) _ (λ _ _, ¬ ∃ lifetime, storable question response p lifetime)); [|done|].
  2: { unfold storable. destruct (is_negative question response).
    - apply wp_bind. eapply wp_mono; [| |apply negative_ttl_wp].
      + intros t [] Ht. apply wp_ret. split; [lia|]. exists t. split; [done|]. split.
        * rewrite !elem_of_cons. destruct (Z.min_spec (Z.min (p_max_ttl p) (p_negative_cap p)) t) as [[_ ->]|[_ ->]]; [|auto].
          destruct (Z.min_spec (p_max_ttl p) (p_negative_cap p)) as [[_ ->]|[_ ->]]; auto.
        * repeat constructor; lia.
      + intros e [] Hno (l & _ & _ & _ & t & Ht & _). apply Hno. by exists t.
    - apply wp_ret. split; [lia|]. split; [left|]. repeat constructor. lia. }
  intros l0 [] [Hl0 Hinit]. unfold sections. 
  apply wp_bind. eapply wp_mono; [| |apply clamp_ttls_wp; exact Hl0].
  2: { intros e [] Hno (l & _ & Hok & _). apply Hno. by apply Forall_app in Hok as [? _]. }
  intros [an l1] [] (Hok1 & Hm1 & Hc1). simpl in *.
  apply wp_bind. eapply wp_mono; [| |apply clamp_ttls_wp; pose proof (is_min_le _ _ l0 Hm1 ltac:(left)); lia].
  2: { intros e [] Hno (l & _ & Hok & _). apply Hno. apply Forall_app in Hok as [_ Hok]. by apply Forall_app in Hok as [? _]. }
  intros [au l2] [] (Hok2 & Hm2 & Hc2). simpl in *.
  apply wp_bind. eapply wp_mono; [| |apply clamp_ttls_wp; pose proof (is_min_le _ _ l0 Hm1 ltac:(left));
    pose proof (is_min_le _ _ l1 Hm2 ltac:(left)); lia].
  2: { intros e [] Hno (l & _ & Hok & _). apply Hno. apply Forall_app in Hok as [_ Hok]. by apply Forall_app in Hok as [_ ?]. }
  intros [ad l3] [] (Hok3 & Hm3 & Hc3). simpl in *.
  assert (∀ l, is_min l0 l → is_min l3 (l ++ (rr_ttl <$> sections response))) as Hmin.
  { intros l Hl. unfold sections. rewrite !fmap_app. rewrite !app_assoc.
    eapply is_min_trans; [|exact Hm3]. eapply is_min_trans; [|exact Hm2]. by eapply is_min_trans. }
  assert (if is_negative question response
    then ∃ t, denial_ttl question response t ∧ is_min l3 ([p_max_ttl p; p_negative_cap p; t] ++ (rr_ttl <$> sections response))
    else is_min l3 ([p_max_ttl p] ++ (rr_ttl <$> sections response))) as Hfinal.
  { destruct (is_negative question response); [|by apply Hmin].
    destruct Hinit as (t & Ht & Hi). exists t. split; [done|]. by apply Hmin. }
  case_bool_decide as Hz.
  - apply wp_fail. intros (l & _ & _ & Hl & Hcase). apply Hl. rewrite -Hz. destruct (is_negative question response).
    + destruct Hfinal as (t & Ht & Hf), Hcase as (t' & Ht' & Hf'). rewrite (denial_ttl_unique _ _ _ _ Ht Ht') in Hf.
      by eapply is_min_unique.
    + by eapply is_min_unique.
  - apply wp_ret. split; [split_and!; try done; unfold sections; rewrite !Forall_app; done|]. split; [done|].
    pose proof (is_min_le _ _ l1 Hm2 ltac:(left)). pose proof (is_min_le _ _ l2 Hm3 ltac:(left)).
    split; simpl; [done| | |done]; (eapply Forall2_impl; [eassumption|]; intros; eapply clamped_weaken; [|eassumption]; lia).
Qed.
End lifetime.

(** ** The rule that decides *)
Section rules.
Context `{MessageLib} `{!DnsNames} `{!NameParse}.

Lemma total_bool_cmp : total_cmp bool_cmp.
Proof. split; [by intros [] []|by intros [] [] []]. Qed.
Lemma total_nat_cmp : total_cmp Nat.compare.
Proof.
  split; [intros; apply Nat.compare_antisym|]. intros a b c.
  rewrite !Nat.compare_le_iff. lia.
Qed.
Lemma total_flip {A} (cmp : A → A → comparison) : total_cmp cmp → total_cmp (λ a b, cmp b a).
Proof.
  intros Hc. split; [intros a b; apply (cmp_flip Hc)|]. intros a b c Hab Hbc. by apply (cmp_trans Hc c b a).
Qed.
Lemma total_rule_cmp rules : total_cmp (rule_cmp rules).
Proof.
  unfold rule_cmp. apply (total_cmp_then (λ a b, _) (λ a b, _)); [apply (total_cmp_on (λ r, match rules !! ru_index r with Some c => cr_suffix c | None => false end)), total_bool_cmp|].
  apply (total_cmp_then (λ a b, _) (λ a b, _)); [apply total_flip, (total_cmp_on (λ r, length (name_iter (ru_name r)))), total_nat_cmp|].
  apply (total_cmp_then (λ a b, _) (λ a b, _)); [apply (total_cmp_on (λ r, bool_decide (ru_qtype r = None))), total_bool_cmp|].
  apply (total_cmp_on ru_index), total_nat_cmp.
Qed.

Lemma mapM_imap_Some {A B} (f : nat → A → option B) (l : list A) (k : list B) :
  mapM (λ p, f p.1 p.2) (imap pair l) = Some k → Forall2 (λ p b, f p.1 p.2 = Some b) (imap pair l) k.
Proof. by intros ?%mapM_Some. Qed.

(** A compiled rule list: the rules of the configuration, parsed, in the order
    of precedence. *)
Lemma compile_rules_spec rules compiled :
  compile_rules rules = Some compiled →
  StronglySorted (λ a b, rule_cmp rules a b ≠ Gt) compiled ∧
  (∀ r, r ∈ compiled ↔ ∃ i c, rules !! i = Some c ∧ compile_rule i c = Some r).
Proof.
  unfold compile_rules. intros (l & Hl & ->)%fmap_Some.
  pose proof ListSlice.spec as [Hperm Hsort _ _]. split; [apply (Hsort _ _), total_rule_cmp|].
  intros r. pose proof (Hperm _ (rule_cmp rules) l (total_rule_cmp rules)) as Hp.
  change (sort_unstable_by (rule_cmp rules) l) with (ListSlice.sort_by (rule_cmp rules) l) in Hp.
  rewrite Hp. clear Hp.
  apply mapM_Some in Hl. split.
  - intros [j Hj]%list_elem_of_lookup. apply (Forall2_lookup_r _ _ _ _ _ Hl) in Hj as ([i c] & Hic & Hr).
    simpl in Hr. rewrite list_lookup_imap in Hic. apply fmap_Some in Hic as (c' & Hc & [= -> ->]). by exists j, c'.
  - intros (i & c & Hc & Hr). assert (imap pair rules !! i = Some (i, c)) as Hi by by rewrite list_lookup_imap Hc.
    apply (Forall2_lookup_l _ _ _ _ _ Hl) in Hi as (r' & Hr' & Heq). simpl in Heq. rewrite Hr in Heq. injection Heq as <-.
    by eapply list_elem_of_lookup_2.
Qed.
Lemma find_rule_spec rules compiled k name :
  match find_rule rules compiled k name with
  | Some r => r ∈ compiled ∧ rule_matches rules k name r = true ∧
      (StronglySorted (λ a b, rule_cmp rules a b ≠ Gt) compiled →
       ∀ r', r' ∈ compiled → rule_matches rules k name r' = true → rule_cmp rules r r' ≠ Gt)
  | None => ∀ r, r ∈ compiled → rule_matches rules k name r = false
  end.
Proof.
  unfold find_rule. destruct (list_find _ compiled) as [[i r]|] eqn:E; simpl.
  - apply list_find_Some in E as (Hi & Hm & Hb). split; [by eapply list_elem_of_lookup_2|]. split; [done|].
    intros Hs r' [j Hj]%list_elem_of_lookup Hm'. destruct (lt_eq_lt_dec i j) as [[Hlt|<-]|Hgt].
    + clear Hb. revert i j Hi Hj Hlt. induction Hs as [|x l Hs IH Hx]; intros [|i] [|j] Hi Hj Hlt; simpl in *; try done; try lia.
      * injection Hi as ->. rewrite Forall_forall in Hx. apply Hx. by eapply list_elem_of_lookup_2.
      * apply (IH i j); [done..|lia].
    + simplify_eq. pose proof (cmp_flip (total_rule_cmp rules) r r) as Hf. by destruct (rule_cmp rules r r).
    + destruct (Hb j r' Hj ltac:(lia)). done.
  - intros r Hr. apply list_find_None in E. apply (proj1 (Forall_forall _ _) E) in Hr.
    by destruct (rule_matches rules k name r).
Qed.
End rules.

(** ** What the three computations promise *)
Section claims.
Context `{MessageLib} `{!DnsNames} `{!DnsNamesSpec} `{!NameParse}.

(** C36. An answer is admitted to the cache exactly when it carries no EDNS
    option beyond subnet and padding, no SIG or TSIG record, no TTL above
    [i32::MAX], proves its denial if it is one, and lives for at least a second.
    What is stored is the answer with ID zero, no OPT record and TTLs between
    its lifetime and their own; the lifetime is the least of the policy's caps,
    every TTL and the TTL of the denial. *)
Theorem prepare_response_exact question response p :
  wp (prepare_response question response p)
    (λ r _, let '(stored, lifetime, negative) := r in
       storable question response p lifetime ∧ negative = is_negative question response ∧
       stored_of p response lifetime stored)
    (λ _ _, ¬ ∃ lifetime, storable question response p lifetime) tt.
Proof. apply prepare_response_wp. Qed.

(** The denial behind aliases is accepted exactly when the alias records of
    the answer form, in any order and with any repetition, one chain without a
    loop from the question to a terminal name, and the authority section holds
    one SOA, of the class, above that name; the TTL is the least of its record
    and minimum TTLs. Any other answer is refused without a panic. *)
Theorem cname_negative_ttl_exact name class response :
  wp (cname_negative_ttl name class response)
    (λ t _, alias_denial name class response t)
    (λ _ _, ¬ ∃ t, alias_denial name class response t) tt.
Proof. apply cname_negative_ttl_wp. Qed.

(** The compiled rules decide like the configuration: [policy] applies the
    first rule in precedence (exact before suffix, longer before shorter, typed
    before untyped, then configuration order) among those that match, with the
    defaults where the rule is silent, and the defaults alone when none does. *)
Theorem policy_first_rule c compiled k name :
  compile_rules (c_rules c) = Some compiled →
  let p := policy c compiled k name in
  let applies i cr r := c_rules c !! i = Some cr ∧ compile_rule i cr = Some r ∧ rule_matches (c_rules c) k name r = true in
  match rule_index p with
  | None => (∀ i cr r, ¬ applies i cr r) ∧
      p = mkPolicy None (negb (c_enabled c)) (max_ttl_secs c) (negative_ttl_cap_secs c) (pf_enabled (prefetch c)) (st_enabled (stale c))
  | Some i => ∃ cr r, applies i cr r ∧ (∀ i' cr' r', applies i' cr' r' → rule_cmp (c_rules c) r r' ≠ Gt) ∧
      p = mkPolicy (Some i) (negb (c_enabled c) || cr_bypass cr) (default (max_ttl_secs c) (cr_max_ttl_secs cr))
            (default (negative_ttl_cap_secs c) (cr_negative_ttl_cap_secs cr))
            (default (pf_enabled (prefetch c)) (cr_prefetch cr)) (default (st_enabled (stale c)) (cr_stale cr))
  end.
Proof.
  intros Hc p applies. destruct (compile_rules_spec _ _ Hc) as [Hs Hin].
  pose proof (find_rule_spec (c_rules c) compiled k name) as Hf. unfold p, policy.
  destruct (find_rule (c_rules c) compiled k name) as [r|]; simpl.
  - destruct Hf as (Hr & Hm & Hfirst). apply Hin in Hr as (i & cr & Hi & Hcr).
    assert (ru_index r = i) as Hidx.
    { unfold compile_rule in Hcr. repeat (apply bind_Some in Hcr as (? & _ & Hcr)). by injection Hcr as <-. }
    rewrite Hidx. exists cr, r. split; [done|]. split.
    + intros i' cr' r' (Hi' & Hcr' & Hm'). apply (Hfirst Hs); [|done]. apply Hin. by exists i', cr'.
    + by rewrite Hi.
  - split; [|by rewrite orb_false_r]. intros i cr r (Hi & Hcr & Hm). rewrite Hf in Hm; [done|]. apply Hin. by exists i, cr.
Qed.
End claims.

(** ** The claims at work *)
Module AdmitWitness.
Import DnsWitness.
#[local] Existing Instance names.
#[local] Existing Instance dns_names.
Definition lib : MessageLib := messages (λ _, None) (λ _, None).
#[local] Existing Instance lib.
(** Names of one label per character; types [A] and [AAAA]. *)
#[local] Instance parse : NameParse := {|
  from_ascii s := Some (map (λ c, [c]) s);
  type_from_str s := if bool_decide (s = [65]) then Some 1 else None;
|}.

(** [b.c] is an alias of [d.c], which does not exist in [c]. *)
Definition question : Query := mkQuery [[98]; [99]] 1 1.
Definition denial : Message :=
  mkMessage 7 true 0 false false true true false false NXDomain [question]
    [mkRr [[66]; [99]] 1 300 (RCname [[100]; [99]])] [mkRr [[99]] 1 900 (RSoa (mkSoa 60 []))] [] None None.
Definition plain_policy : Policy := mkPolicy None false 86400 3600 false false.

Lemma prepare_response_exact_witness :
  ∃ stored, prepare_response question denial plain_policy tt = (Ok (stored, 60, true), tt) ∧
    storable question denial plain_policy 60 ∧ stored_of plain_policy denial 60 stored.
Proof.
  pose proof (prepare_response_exact question denial plain_policy) as Hwp.
  assert (match (prepare_response question denial plain_policy tt).1 with
          | Ok (_, l, n) => bool_decide (l = 60) && n | _ => false end = true) as Hrun by (vm_compute; reflexivity).
  destruct (prepare_response question denial plain_policy tt) as [[[[stored l] n]| | |] []] eqn:E; [|discriminate Hrun..].
  simpl in Hrun. apply andb_true_iff in Hrun as [Hl Hn]. apply bool_decide_eq_true in Hl. subst.
  exists stored. split; [reflexivity|]. destruct (wp_result _ _ _ _ _ _ E Hwp) as (Hs & _ & Hst). split; [exact Hs|exact Hst].
Defined.
Lemma cname_negative_ttl_exact_witness :
  cname_negative_ttl (q_name question) 1 denial tt = (Ok 60, tt) ∧ alias_denial (q_name question) 1 denial 60.
Proof.
  pose proof (cname_negative_ttl_exact (q_name question) 1 denial) as Hwp.
  assert (match (cname_negative_ttl (q_name question) 1 denial tt).1 with
          | Ok t => bool_decide (t = 60) | _ => false end = true) as Hrun by (vm_compute; reflexivity).
  destruct (cname_negative_ttl (q_name question) 1 denial tt) as [[t| | |] []] eqn:E; [|discriminate Hrun..].
  apply bool_decide_eq_true in Hrun. subst. split; [reflexivity|]. exact (wp_result _ _ _ _ _ _ E Hwp).
Defined.

(** A suffix rule listed before the exact rule it loses to. *)
Definition rules : list CacheRule :=
  [mkCacheRule [99] true None false (Some 10) None None None; mkCacheRule [98; 99] false (Some [65]) true None None None None].
Definition config : CacheConfig :=
  mkConfig true 100 1000000 4 86400 3600 5 1 25 (mkPrefetch true 2 10 32 100 5) (mkStale true 3600 30) (mkSharing false 3 600) rules.
Definition key : Key := mkKey [[98]; [99]] 1 1 false false true false.
Lemma policy_first_rule_witness :
  ∃ compiled, compile_rules rules = Some compiled ∧
    rule_index (policy config compiled key (q_name question)) = Some 1%nat ∧
    bypass (policy config compiled key (q_name question)) = true.
Proof.
  destruct (compile_rules rules) as [compiled|] eqn:E; [|vm_compute in E; discriminate E].
  exists compiled. split; [reflexivity|].
  pose proof (policy_first_rule config compiled key (q_name question) E) as Hp.
  assert (rule_index (policy config compiled key (q_name question)) = Some 1%nat) as Hi.
  { vm_compute in E. injection E as <-. vm_compute. reflexivity. }
  split; [exact Hi|]. cbv zeta in Hp. rewrite Hi in Hp. destruct Hp as (cr & r & (Hcr & _ & _) & _ & Hpol).
  change (c_rules config) with rules in Hcr. rewrite Hpol.
  vm_compute in Hcr. injection Hcr as <-. reflexivity.
Defined.
End AdmitWitness.
