(* ===== verification/Sharing.v ===== *)
(** * Learned sharing of answers without ECS

    [src/cache/sharing.rs]: the classification table of a cache shard. An
    instant is a number of nanoseconds; so is a duration. *)
From S2P Require Import Prelude Net Std Names Lru Dns Ecs Protocol CacheData.
Set Default Goal Selector "!".
Set Warnings "-rewrite-rw".
Local Open Scope Z_scope.
Local Open Scope rust_scope.

(** [Duration::from_secs] and [Instant::saturating_duration_since]. *)
Definition secs (n : Z) : Z := n * 1000000000.
Definition since_ (now earlier : Z) : Z := Z.max 0 (now - earlier).

(** [Vec::swap_remove] at an index of the vector. *)
Definition swap_remove {A} (i : nat) (l : list A) : list A :=
  match last l with
  | Some x => take (length l - 1) (<[i := x]> l)
  | None => []
  end.
(** [Vec::dedup]. *)
Fixpoint dedup {A} `{EqDecision A} (l : list A) : list A :=
  match l with
  | x :: (y :: _) as l => if bool_decide (x = y) then dedup l else x :: dedup l
  | _ => l
  end.

Definition MAX_RECORDS : Z := 65536.
Definition SHARED_MAX_AGE : Z := secs 3600.
(** [saturating_mul(2).clamp(1024, MAX_RECORDS).div_ceil(shards)]; a division by
    zero panics. *)
Definition capacity (max_entries shards : Z) : option Z :=
  if bool_decide (shards = 0) then None
  else let n := Z.max 1024 (Z.min MAX_RECORDS (Z.min usize_max (max_entries * 2))) in
       Some ((n + shards - 1) / shards).

(** The serialized form of [RData], as [hickory_proto] computes it. *)
Class RDataLib `{NameLib} := { rdata_to_bytes : RData → option (list Z) }.

(** ** Data *)
Notation Fingerprint := (list Z).
Inductive State : Type := SShared | SObserving | SRevoked.
Section table.
Context `{MessageLib} `{!DnsNames} `{IpNetLib} `{LruLib}.

Record Sample : Type := mkSample { network : IpNet; expires : Z }.
Inductive Phase : Type :=
  | Observing (fingerprint : Fingerprint) (samples : list Sample)
  | Shared (fingerprint : Fingerprint) (since : Z)
  | Revoked (until : Z).
Record Class_ : Type := mkClass { cl_key : Key; cl_ipv4 : bool }.
#[export] Instance Class_eq_dec : EqDecision Class_.
Proof. solve_decision. Defined.
Record Table : Type := mkTable { records : Lru Class_ Phase; t_capacity : nat }.
Record Observation : Type := mkObservation { o_scope : Scope; o_revoked : bool }.

Definition table_new (cap : nat) : Table := mkTable lru_unbounded (Nat.max 1 cap).
Definition with_records (r : Lru Class_ Phase) (t : Table) : Table := mkTable r (t_capacity t).

(** ** Promotion *)
Definition span (n : IpNet) : option IpNet :=
  let bits := if is_ipv4 (net_addr n) then 16 else 32 in
  net_trunc <$> net_new (net_addr n) (Z.min (net_prefix_len n) bits).
(** [samples[0]] panics on an empty slice. *)
Definition promotable (samples : list Sample) (min : nat) : option bool :=
  if bool_decide (length samples < min)%nat then Some false
  else match samples with
       | [] => None
       | first :: _ => Some (existsb (λ s, bool_decide (span (network s) ≠ span (network first))) samples)
       end.
(** [min_by_key(|(_, s)| s.expires)]: the first of the least. *)
Fixpoint oldest (samples : list Sample) : option (nat * Z) :=
  match samples with
  | [] => None
  | s :: samples =>
      Some (match oldest samples with
            | Some (i, e) => if bool_decide (expires s ≤ e) then (O, expires s) else (S i, e)
            | None => (O, expires s)
            end)
  end.
Definition disjoint_nets (a b : IpNet) : Prop :=
  net_contains a (net_addr b) = false ∧ net_contains b (net_addr a) = false.
#[export] Instance disjoint_nets_dec a b : Decision (disjoint_nets a b).
Proof. unfold disjoint_nets. apply _. Defined.

(** ** Classifying an answer *)
Definition restart (phase : Phase) (fingerprint : option Fingerprint) (sample : option Sample) : Phase :=
  match fingerprint with
  | Some f => Observing f (option_list sample)
  | None => phase
  end.
(** The new sample replaces every one that overlaps it and, at the limit, the
    one that expires first. *)
Definition add_sample (min : nat) (sample : Sample) (samples : list Sample) : list Sample :=
  let samples := filter (λ s, disjoint_nets (network s) (network sample)) samples in
  let samples := if bool_decide (min ≤ length samples)%nat
                 then match oldest samples with Some (i, _) => swap_remove i samples | None => samples end
                 else samples in
  samples ++ [sample].
(** The match on an existing record; [None] is a panic. *)
Definition observe_phase (config : EcsSharingConfig) (ipv4 : bool) (scope : Scope) (fingerprint : option Fingerprint)
    (sample : option Sample) (now revoke_until : Z) (phase : Phase) : option (Observation * Phase) :=
  let unchanged := mkObservation scope false in
  let learned := mkObservation (Learned ipv4) false in
  let revoke := (mkObservation scope true, Revoked revoke_until) in
  match phase with
  | Revoked until =>
      Some (unchanged, if bool_decide (now < until) then phase else restart phase fingerprint sample)
  | Shared shared since =>
      if bool_decide (SHARED_MAX_AGE ≤ since_ now since)
      then Some (unchanged, restart phase fingerprint sample)
      else Some (if bool_decide (fingerprint = Some shared) then (learned, phase) else revoke)
  | Observing observed samples =>
      let samples := filter (λ s, now < expires s) samples in
      match fingerprint with
      | None => Some (if bool_decide (samples = []) then (unchanged, Observing observed []) else revoke)
      | Some f =>
          if bool_decide (samples ≠ [] ∧ observed ≠ f) then Some revoke else
          match sample with
          | None => Some (unchanged, Observing f samples)
          | Some s =>
              let samples := add_sample (min_networks config) s samples in
              promoted ← promotable samples (min_networks config);
              Some (if (promoted : bool) then (learned, Shared f now) else (unchanged, Observing f samples))
          end
      end
  end.
(** [while self.records.len() > self.capacity { self.records.pop_lru(); }] *)
Fixpoint trim (fuel : nat) (cap : nat) (r : Lru Class_ Phase) : Lru Class_ Phase :=
  match fuel with
  | O => r
  | S fuel => if bool_decide (cap < lru_len r)%nat then trim fuel cap (lru_pop_lru r).2 else r
  end.
Definition observe (key : Key) (scope : Scope) (fingerprint : option Fingerprint) (lifetime : option Z)
    (now : Z) (config : EcsSharingConfig) : M Table unit Observation :=
  let unchanged := mkObservation scope false in
  let revoke_until := now + secs (revoke_cooldown_secs config) in
  let* t := get in
  match scope with
  | ExactSource net =>
      let class := mkClass key (is_ipv4 (net_addr net)) in
      let sample := (λ lifetime, mkSample net (now + lifetime)) <$> lifetime in
      match lru_peek class (records t) with
      | None =>
          match fingerprint with
          | None => ret unchanged
          | Some f =>
              let r := lru_put class (Observing f (option_list sample)) (records t) in
              put (with_records (trim (lru_len r) (t_capacity t) r) t);;;
              ret unchanged
          end
      | Some phase =>
          let* (o, phase) := expect (observe_phase config (cl_ipv4 class) scope fingerprint sample now revoke_until phase) in
          put (with_records (lru_get_mut class (λ _, phase) (records t)) t);;;
          ret o
      end
  | Network net =>
      if bool_decide (net_prefix_len net > 0) then
        let class := mkClass key (is_ipv4 (net_addr net)) in
        match lru_peek class (records t) with
        | Some phase =>
            let active := match phase with Revoked until => bool_decide (now < until) | _ => false end in
            put (with_records (lru_get_mut class (λ p, if active then p else Revoked revoke_until) (records t)) t);;;
            ret (mkObservation scope (negb active))
        | None => ret unchanged
        end
      else ret unchanged
  | _ => ret unchanged
  end.

(** ** Inspection and invalidation *)
Definition phase_state (now : Z) (phase : Phase) : option State :=
  match phase with
  | Observing _ _ => Some SObserving
  | Shared _ since => Some (if bool_decide (SHARED_MAX_AGE ≤ since_ now since) then SObserving else SShared)
  | Revoked until => if bool_decide (now < until) then Some SRevoked else None
  end.
Definition states (t : Table) (name : Name) (kind : option Z) (now : Z) : list State :=
  omap (λ p, if negb (name_eq (k_name (cl_key p.1)) name) ||
                match kind with Some k => bool_decide (k ≠ k_kind (cl_key p.1)) | None => false end
             then None else phase_state now p.2) (lru_iter (records t)).

(** [None]: the scope cannot name learned records, the call returns at once. *)
Definition family_of (scope : option Scope) : option (option bool) :=
  match scope with
  | None => Some None
  | Some (Learned ipv4) => Some (Some ipv4)
  | Some (Network net) | Some (ExactSource net) =>
      if bool_decide (net_prefix_len net > 0) then Some (Some (is_ipv4 (net_addr net))) else None
  | Some _ => None
  end.
Definition class_matches (name : option Name) (kind : option Z) (family : option bool) (c : Class_) : bool :=
  match name with Some n => name_eq (k_name (cl_key c)) n | None => true end &&
  match kind with Some k => bool_decide (k_kind (cl_key c) = k) | None => true end &&
  match family with Some ipv4 => Bool.eqb (cl_ipv4 c) ipv4 | None => true end.
Definition sharing_invalidate (name : option Name) (kind : option Z) (scope : option Scope) (t : Table) : Table :=
  match family_of scope with
  | None => t
  | Some family =>
      match name, kind, family with
      | None, None, None => with_records (lru_clear (records t)) t
      | _, _, _ =>
          let matched := filter (λ c, class_matches name kind family c = true) (keys (lru_iter (records t))) in
          with_records (foldl (λ r c, (lru_pop c r).2) (records t) matched) t
      end
  end.
End table.

(** ** The identity of an answer *)
Section fingerprint.
Context `{MessageLib} `{!DnsNames} `{!RDataLib} `{Sha256Lib}.

Definition fp_encode (name : Name) (kind class : Z) (data : option RData) : option (list Z) :=
  bytes ← name_to_bytes (to_lowercase name);
  data ← match data with Some d => rdata_to_bytes d | None => Some [] end;
  Some (bytes ++ be_bytes 2 kind ++ be_bytes 2 class ++ data).
Definition fp_answers (response : Message) : option (list (list Z)) :=
  mapM (λ rr, fp_encode (rr_name rr) (record_type rr) (rr_class rr) (Some (rr_data rr))) (answers response).
Definition fp_soa (response : Message) : option (list (list Z)) :=
  mapM (λ rr, fp_encode (rr_name rr) SOA (rr_class rr) None)
    (filter (λ rr, record_type rr = SOA) (authorities response)).
Definition fp_section (l : list (list Z)) : list Z :=
  be_bytes 4 (as_u32 (Z.of_nat (length l))) ++
  mjoin ((λ r, be_bytes 4 (as_u32 (Z.of_nat (length r))) ++ r) <$> l).
(** What is hashed. *)
Definition fp_input (question : Query) (response : Message) : option (list Z) :=
  let negative := is_negative question response in
  an ← fp_answers response;
  soa ← (if (negative : bool) then fp_soa response else Some []);
  let normal l := dedup (ListSlice.sort_by cmp_bytes l) in
  Some (be_bytes 2 (response_code response) ++ [if (negative : bool) then 1 else 0] ++
        fp_section (normal an) ++ fp_section (normal soa)).
Definition fingerprint (question : Query) (response : Message) : option Fingerprint :=
  take 16 ∘ sha256 <$> fp_input question response.
End fingerprint.
