(* ===== verification/SharingSafe.v ===== *)
(** * Learned sharing rests on evidence

    The properties of [src/cache/sharing.rs]: when an answer may be shared
    beyond the network it was given for, and what its fingerprint identifies. *)
From S2P Require Import Prelude Net Std Names Lru Dns Ecs Protocol CacheData Sharing.
Set Default Goal Selector "!".
Set Warnings "-rewrite-rw".
Local Open Scope Z_scope.
Local Open Scope rust_scope.

(** ** Lists *)
Lemma StronglySorted_perm {A} (R : relation A) `{!Symmetric R} (l k : list A) :
  l ≡ₚ k → StronglySorted R l → StronglySorted R k.
Proof.
  intros Hp. induction Hp as [|x l k Hp IH|x y l|l1 l2 l3 _ IH1 _ IH2]; [done| | |auto].
  - intros [Hs Hx]%StronglySorted_inv. constructor; [auto|]. by rewrite -Hp.
  - intros [[Hs Hx]%StronglySorted_inv Hy]%StronglySorted_inv. apply Forall_cons in Hy as [Hyx Hy].
    constructor; [by constructor|]. constructor; [done|]. done.
Qed.
Lemma swap_remove_perm {A} i (l : list A) x : l !! i = Some x → l ≡ₚ x :: swap_remove i l.
Proof.
  intros Hi. pose proof (lookup_lt_Some _ _ _ Hi) as Hlt. unfold swap_remove.
  destruct (last l) as [y|] eqn:Hl.
  2: { apply last_None in Hl as ->. done. }
  rewrite last_lookup in Hl. replace (pred (length l)) with (length l - 1)%nat in Hl by lia.
  destruct (decide (i = length l - 1)%nat) as [->|Hne].
  - rewrite Hi in Hl. injection Hl as <-. rewrite list_insert_id //.
    rewrite -{1}(take_drop (length l - 1) l) (drop_S l x); [|done]. rewrite drop_ge; [|lia].
    by rewrite Permutation_app_comm.
  - assert (drop i l = x :: drop (S i) l) as Hd by by apply drop_S.
    rewrite -{1}(take_drop i l) Hd. rewrite insert_take_drop // take_app_ge; [|rewrite length_take; lia].
    rewrite length_take Nat.min_l; [|lia]. replace (length l - 1 - i)%nat with (S (length l - 2 - i)) by lia. cbn [take].
    assert (drop (S i) l = take (length l - 2 - i) (drop (S i) l) ++ [y]) as Hr.
    { rewrite -{1}(take_drop (length l - 2 - i) (drop (S i) l)). f_equal. rewrite drop_drop.
      replace (S i + (length l - 2 - i))%nat with (length l - 1)%nat by lia. rewrite (drop_S l y); [|done].
      rewrite drop_ge; [done|lia]. }
    rewrite {1}Hr. rewrite -Permutation_middle. f_equiv. f_equiv. by rewrite Permutation_app_comm.
Qed.
Lemma filter_ext_in {A} (P Q : A → Prop) `{!∀ x, Decision (P x), !∀ x, Decision (Q x)} (l : list A) :
  (∀ x, x ∈ l → P x ↔ Q x) → filter P l = filter Q l.
Proof.
  induction l as [|x l IH]; intros Hl; [done|]. rewrite !filter_cons IH; [|intros y Hy; apply Hl; by right].
  pose proof (Hl x ltac:(left)). repeat case_decide; naive_solver.
Qed.
Lemma dedup_cons {A} `{EqDecision A} (x y : A) l :
  dedup (x :: y :: l) = if bool_decide (x = y) then dedup (y :: l) else x :: dedup (y :: l).
Proof. done. Qed.
Lemma dedup_in {A} `{EqDecision A} (x : A) l : x ∈ dedup l ↔ x ∈ l.
Proof.
  induction l as [|y l IH]; [done|]. destruct l as [|z l]; [done|]. rewrite dedup_cons. case_bool_decide as E.
  - subst. rewrite IH !elem_of_cons. naive_solver.
  - rewrite elem_of_cons IH !elem_of_cons. naive_solver.
Qed.
Lemma dedup_sorted {A} `{EqDecision A} (R : relation A) l : StronglySorted R l → StronglySorted R (dedup l).
Proof.
  induction 1 as [|x l Hs IH Hx]; [constructor|]. destruct l as [|y l]; [by repeat constructor|]. rewrite dedup_cons.
  case_bool_decide; [done|]. constructor; [done|]. apply Forall_forall. intros z Hz. rewrite dedup_in in Hz.
  by apply (proj1 (Forall_forall _ _) Hx).
Qed.
Lemma dedup_NoDup {A} `{EqDecision A} (R : relation A) `{!AntiSymm eq R} l : StronglySorted R l → NoDup (dedup l).
Proof.
  induction 1 as [|x l Hs IH Hx]; [constructor|]. destruct l as [|y l]; [apply NoDup_singleton|]. rewrite dedup_cons.
  case_bool_decide as E; [done|]. constructor; [|done]. rewrite dedup_in. intros Hin. apply E.
  apply elem_of_cons in Hin as [->|Hin]; [done|]. apply (anti_symm R).
  - by apply Forall_cons in Hx as [? _].
  - apply StronglySorted_inv in Hs as [_ Hy]. by apply (proj1 (Forall_forall _ _) Hy).
Qed.
(** A sorted list without duplicates is determined by its elements. *)
Lemma normal_ext (l k : list (list Z)) :
  dedup (ListSlice.sort_by cmp_bytes l) = dedup (ListSlice.sort_by cmp_bytes k) ↔ ∀ x, x ∈ l ↔ x ∈ k.
Proof.
  pose proof ListSlice.spec as [Hperm Hsort _ _].
  assert (AntiSymm eq ble) as Hanti by (intros ? ?; apply ble_antisym).
  assert (∀ l x, x ∈ dedup (ListSlice.sort_by cmp_bytes l) ↔ x ∈ l) as Hin.
  { intros l' x. rewrite dedup_in. pose proof (Hperm _ cmp_bytes l' total_cmp_bytes) as Hp. simpl in Hp. by rewrite Hp. }
  split; [intros Heq x; by rewrite -(Hin l) Heq|]. intros Hsame.
  apply (StronglySorted_unique ble).
  - apply dedup_sorted, (Hsort _ cmp_bytes _ total_cmp_bytes).
  - apply dedup_sorted, (Hsort _ cmp_bytes _ total_cmp_bytes).
  - apply NoDup_Permutation; [eapply (dedup_NoDup ble), (Hsort _ cmp_bytes _ total_cmp_bytes)..|].
    intros x. by rewrite !Hin.
Qed.

(** ** Networks *)
Section nets.
Context `{IpNetLib} `{!IpNetSpec _}.
#[export] Instance disjoint_nets_sym : Symmetric disjoint_nets.
Proof. intros a b [? ?]. by split. Qed.
(** Disjoint networks have no address in common. *)
Lemma disjoint_nets_spec a b :
  disjoint_nets a b ↔ ∀ addr, ¬ (net_contains a addr = true ∧ net_contains b addr = true).
Proof.
  assert (∀ n, net_contains n (net_addr n) = true) as Hself by (intros n; rewrite net_contains_spec; by apply bool_decide_eq_true).
  assert (∀ a b addr, net_prefix_len a ≤ net_prefix_len b → net_contains a addr = true → net_contains b addr = true →
    net_contains a (net_addr b) = true) as Hshort.
  { clear -IpNetSpec0. intros a b addr Hle Ha Hb. rewrite ->net_contains_spec in *.
    apply bool_decide_eq_true in Ha as [Hfa Hma], Hb as [Hfb Hmb]. apply bool_decide_eq_true. split; [congruence|].
    pose proof (net_prefix_bound a). pose proof (net_prefix_bound b).
    assert (ip_width addr = ip_width (net_addr b)) as Hw by (destruct addr, (net_addr b); done).
    rewrite -(mask_mask_le (net_addr b) _ (net_prefix_len b)); [|lia|lia].
    rewrite -Hmb mask_mask_le; [done|lia|lia]. }
  split.
  - intros [Hab Hba] addr [Ha Hb]. destruct (Z.le_ge_cases (net_prefix_len a) (net_prefix_len b)) as [Hle|Hle].
    + rewrite (Hshort a b addr) // in Hab.
    + rewrite (Hshort b a addr) // in Hba.
  - intros Hno. split; apply not_true_iff_false; intros Hc; [apply (Hno (net_addr b))|apply (Hno (net_addr a))]; done.
Qed.
End nets.

(** ** The table's history *)
Section history.
Context `{MessageLib} `{!DnsNames} `{IpNetLib} `{!IpNetSpec _} `{LruLib} `{!LruSpec _}.
Context (config : EcsSharingConfig) (cap : nat).

(** What happened to the table, newest first. *)
Inductive Event : Type :=
  | Observed (key : Key) (scope : Scope) (fingerprint : option Fingerprint) (lifetime : option Z) (now : Z)
  | Invalidated (name : option Name) (kind : option Z) (scope : option Scope).
(** An answer that is admitted lives for a second at least. *)
Definition event_ok (e : Event) : Prop :=
  match e with Observed _ _ _ (Some lifetime) _ => 0 < lifetime | _ => True end.
Inductive reaches : list Event → Table → Prop :=
  | reaches_new : reaches [] (table_new cap)
  | reaches_observe tr t key scope fp lifetime now o t' :
      reaches tr t → event_ok (Observed key scope fp lifetime now) →
      observe key scope fp lifetime now config t = (Ok o, t') → reaches (Observed key scope fp lifetime now :: tr) t'
  | reaches_invalidate tr t name kind scope :
      reaches tr t → reaches (Invalidated name kind scope :: tr) (sharing_invalidate name kind scope t).

Definition class_of (key : Key) (net : IpNet) : Class_ := mkClass key (is_ipv4 (net_addr net)).
(** The event denies that every network of the class gets the answer [fp]. *)
Definition contradicts (c : Class_) (fp : Fingerprint) (e : Event) : Prop :=
  match e with
  | Observed key (ExactSource net) fp' _ _ => class_of key net = c ∧ fp' ≠ Some fp
  | Observed key (Network net) _ _ _ => class_of key net = c ∧ 0 < net_prefix_len net
  | Observed _ _ _ _ _ => False
  | Invalidated name kind scope => ∃ family, family_of scope = Some family ∧ class_matches name kind family c = true
  end.
Definition seen (c : Class_) (fp : Fingerprint) (tr : list Event) (s : Sample) : Prop :=
  ∃ key net lifetime now, Observed key (ExactSource net) (Some fp) (Some lifetime) now ∈ tr ∧
    class_of key net = c ∧ s = mkSample net (now + lifetime).
Definition disjoint_samples (l : list Sample) : Prop := StronglySorted (λ s s', disjoint_nets (network s) (network s')) l.
Definition spread (l : list Sample) : Prop := ∃ s s', s ∈ l ∧ s' ∈ l ∧ span (network s) ≠ span (network s').

(** At the end of [tr], at time [since], [fp] had been the only answer of the
    class for a while, and enough disjoint networks had got it. *)
Record evidence (c : Class_) (fp : Fingerprint) (since : Z) (tr : list Event) : Prop := {
  ev_proof : ∃ window older samples, tr = window ++ older ∧ Forall (λ e, ¬ contradicts c fp e) window ∧
    Forall (seen c fp window) samples ∧ disjoint_samples samples ∧ spread samples ∧
    (min_networks config ≤ length samples)%nat ∧ Forall (λ s, since < expires s) samples
}.
(** Later contradictions came when the evidence had aged out already. *)
Definition stands (c : Class_) (fp : Fingerprint) (since : Z) (e : Event) : Prop :=
  contradicts c fp e → match e with Observed _ _ _ _ now => SHARED_MAX_AGE ≤ since_ now since | _ => False end.
Definition justified (c : Class_) (fp : Fingerprint) (now : Z) (tr : list Event) : Prop :=
  ∃ since recent old, tr = recent ++ old ∧ evidence c fp since old ∧ Forall (stands c fp since) recent ∧
    since_ now since < SHARED_MAX_AGE.

Definition phase_ok (tr : list Event) (c : Class_) (p : Phase) : Prop :=
  match p with
  | Observing fp samples =>
      disjoint_samples samples ∧ (length samples ≤ Nat.max 1 (min_networks config))%nat ∧
      ∃ recent old, tr = recent ++ old ∧ Forall (λ e, ¬ contradicts c fp e) recent ∧ Forall (seen c fp recent) samples
  | Shared fp since => ∃ recent old, tr = recent ++ old ∧ evidence c fp since old ∧ Forall (stands c fp since) recent
  | Revoked _ => True
  end.

Lemma seen_mono c fp tr tr' s : tr ⊆ tr' → seen c fp tr s → seen c fp tr' s.
Proof. intros Hsub (k & n & l & now & Hin & Hc & Hs). exists k, n, l, now. auto. Qed.
Lemma seen_cons c fp e tr l : Forall (seen c fp tr) l → Forall (seen c fp (e :: tr)) l.
Proof. intros Hl. eapply Forall_impl; [exact Hl|]. intros s. apply seen_mono. by right. Qed.

(** An event that concerns other classes changes nothing. *)
Lemma phase_ok_other tr c p e : (∀ fp, ¬ contradicts c fp e) → phase_ok tr c p → phase_ok (e :: tr) c p.
Proof.
  intros Hno. destruct p as [fp samples|fp since|until]; simpl; [| |done].
  - intros (Hd & Hl & recent & old & -> & Hr & Hs). split_and!; [done..|]. exists (e :: recent), old.
    split_and!; [done|by constructor|by apply seen_cons].
  - intros (recent & old & -> & He & Hr). exists (e :: recent), old. split_and!; [done..|]. constructor; [|done].
    intros Hc. by destruct (Hno fp).
Qed.

(** ** Samples *)
Lemma oldest_Some l i x : oldest l = Some (i, x) → ∃ s, l !! i = Some s.
Proof.
  revert i x. induction l as [|s l IH]; intros i x; simpl; [done|]. intros [= Hx].
  destruct (oldest l) as [[j e]|] eqn:E; [|injection Hx as <- <-; by exists s].
  case_bool_decide; injection Hx as <- <-; [by exists s|]. simpl. by eapply IH.
Qed.
Lemma disjoint_samples_perm l k : l ≡ₚ k → disjoint_samples l → disjoint_samples k.
Proof. apply StronglySorted_perm. intros s s' Hs. by symmetry. Qed.
Lemma add_sample_spec min s l :
  disjoint_samples l → (length l ≤ Nat.max 1 min)%nat →
  disjoint_samples (add_sample min s l) ∧ (length (add_sample min s l) ≤ Nat.max 1 min)%nat ∧
  add_sample min s l ≠ [] ∧ ∀ x, x ∈ add_sample min s l → x = s ∨ x ∈ l.
Proof.
  intros Hd Hl. unfold add_sample. set (kept := filter _ l).
  assert (disjoint_samples kept) as Hk by by apply StronglySorted_filter.
  assert (Forall (λ x, disjoint_nets (network x) (network s)) kept) as Hdis by apply Forall_filter_self.
  assert (length kept ≤ length l)%nat as Hlen by apply length_filter.
  assert (∀ x, x ∈ kept → x ∈ l) as Hin by (intros x Hx; by apply list_elem_of_filter in Hx as [_ ?]).
  set (rest := if bool_decide _ then _ else _).
  assert (disjoint_samples rest ∧ (length rest < Nat.max 1 min)%nat ∧ ∀ x, x ∈ rest → x ∈ kept) as (Hr & Hrl & Hrin).
  { unfold rest. case_bool_decide as Hfull; [|split_and!; [done|lia|done]].
    destruct (oldest kept) as [[i e]|] eqn:Eo.
    - destruct (oldest_Some _ _ _ Eo) as [x Hx]. pose proof (swap_remove_perm _ _ _ Hx) as Hp. split_and!.
      + apply (disjoint_samples_perm _ _ Hp) in Hk. by apply StronglySorted_inv in Hk as [? _].
      + apply Permutation_length in Hp. simpl in Hp. lia.
      + intros y Hy. rewrite Hp. by right.
    - destruct kept; [|done]. split_and!; [done|simpl in *; lia|done]. }
  split_and!.
  - apply (disjoint_samples_perm (s :: rest)); [apply Permutation_cons_append|].
    constructor; [done|]. apply Forall_forall. intros x Hx. symmetry. apply (proj1 (Forall_forall _ _) Hdis). auto.
  - rewrite length_app /=. lia.
  - by destruct rest.
  - intros x [Hx| ->]%elem_of_snoc; auto.
Qed.
Lemma promotable_spec l min :
  l ≠ [] → ∃ b, promotable l min = Some b ∧ (b = true → (min ≤ length l)%nat ∧ spread l).
Proof.
  intros Hl. unfold promotable. case_bool_decide as Hlen; [by exists false|]. destruct l as [|first l]; [done|].
  eexists. split; [done|]. intros Hb. split; [lia|]. apply existsb_exists in Hb as (s & Hs & Hne).
  apply bool_decide_eq_true in Hne. exists s, first. split_and!; [by apply list_elem_of_In|left|done].
Qed.

(** ** One record *)
Lemma restart_cases p fp s :
  (fp = None ∧ restart p fp s = p) ∨ ∃ f, fp = Some f ∧ restart p fp s = Observing f (option_list s).
Proof. destruct fp as [f|]; [right; by exists f|by left]. Qed.

Section phase.
Context (tr : list Event) (key : Key) (net : IpNet) (fp : option Fingerprint) (lifetime : option Z) (now : Z).
Notation c := (class_of key net).
Notation e := (Observed key (ExactSource net) fp lifetime now).
Notation sample := ((λ lifetime, mkSample net (now + lifetime)) <$> lifetime).
Hypothesis Hok : event_ok e.

Lemma agrees f : fp = Some f → ¬ contradicts c f e.
Proof. intros Hf [_ Hne]. done. Qed.
Lemma seen_now f l : fp = Some f → (∀ s, s ∈ l → sample = Some s) → Forall (seen c f [e]) l.
Proof.
  intros Hf Hl. apply Forall_forall. intros s Hs%Hl. apply fmap_Some in Hs as (lt & Hlt & ->).
  rewrite Hf Hlt.
  exists key, net, lt, now. split_and!; [left|done..].
Qed.
Lemma expires_later s : sample = Some s → now < expires s.
Proof. intros (lt & Hlt & ->)%fmap_Some. pose proof Hok as Hpos. simpl in Hpos. rewrite Hlt in Hpos. simpl. lia. Qed.

Lemma observing_start_ok f : fp = Some f → phase_ok (e :: tr) c (Observing f (option_list sample)).
Proof.
  intros Hf. simpl. split; [destruct lifetime; repeat constructor|]. split; [destruct lifetime; simpl; lia|].
  exists [e], tr. split_and!; [done|repeat constructor; by apply agrees|]. apply seen_now; [done|].
  intros s. destruct lifetime; simpl; [by intros ->%list_elem_of_singleton|by intros ?%elem_of_nil].
Qed.

Definition outcome_ok (r : Observation * Phase) : Prop :=
  phase_ok (e :: tr) c r.2 ∧
  ((o_scope r.1 = ExactSource net ∧ (o_revoked r.1 = true → r.2 = Revoked (now + secs (revoke_cooldown_secs config)))) ∨
   (o_scope r.1 = Learned (is_ipv4 (net_addr net)) ∧ o_revoked r.1 = false ∧ ∃ f, fp = Some f ∧ justified c f now (e :: tr))).

Lemma restart_ok p : (fp = None → phase_ok (e :: tr) c p) → phase_ok (e :: tr) c (restart p fp sample).
Proof. intros Hp. destruct (restart_cases p fp sample) as [[Hn ->]|(f & Hf & ->)]; [auto|]. by apply observing_start_ok. Qed.

Lemma observing_ok f samples observed :
  phase_ok tr c (Observing observed samples) → fp = Some f →
  filter (λ s, now < expires s) samples = [] ∨ observed = f →
  let kept := filter (λ s, now < expires s) samples in
  disjoint_samples kept ∧ (length kept ≤ Nat.max 1 (min_networks config))%nat ∧ Forall (λ s, now < expires s) kept ∧
  ∃ recent old, e :: tr = recent ++ old ∧ e ∈ recent ∧ Forall (λ e, ¬ contradicts c f e) recent ∧ Forall (seen c f recent) kept.
Proof.
  intros (Hd & Hl & recent & old & Htr & Hr & Hs) Hf Hcase. simpl.
  assert (e :: tr = (e :: recent) ++ old) as Htr' by (rewrite Htr; done). set (kept := filter _ samples) in *.
  pose proof (length_filter (λ s, now < expires s) samples) as Hlen.
  split_and!; [by apply StronglySorted_filter|fold kept in Hlen; lia|apply Forall_filter_self|].
  destruct Hcase as [-> | ->].
  - exists [e], tr. split_and!; [done|left|repeat constructor; by apply agrees|done].
  - exists (e :: recent), old. split_and!; [done|left|constructor; [by apply agrees|done]|].
    by apply seen_cons, Forall_filter_sub.
Qed.

Lemma observe_phase_ok p :
  phase_ok tr c p →
  ∃ r, observe_phase config (is_ipv4 (net_addr net)) (ExactSource net) fp sample now
         (now + secs (revoke_cooldown_secs config)) p = Some r ∧ outcome_ok r.
Proof.
  intros Hp. unfold observe_phase. destruct p as [observed samples|shared since|until].
  - set (kept := filter (λ s, now < expires s) samples).
    case_eq fp; [intros f Ef|intros Ef].
    2: { eexists. split; [done|]. case_bool_decide as Hk; split; simpl; try done; [|by left|by left].
      split_and!; [constructor|simpl; lia|]. exists [], (e :: tr). by split_and!. }
    case_bool_decide as Hrev; [eexists; split; [done|]; split; simpl; [done|by left]|].
    pose proof (observing_ok f samples observed Hp Ef) as Hobs. fold kept in Hobs.
    destruct Hobs as (Hd & Hl & Hlive & recent & old & Htr & Hin & Hr & Hs).
    { destruct (decide (kept = [])); [by left|]. destruct (decide (observed = f)); [by right|]. naive_solver. }
    destruct sample as [s|] eqn:Es.
    2: { eexists. split; [done|]. split; simpl; [|by left]. split_and!; [done..|]. by exists recent, old. }
    destruct (add_sample_spec (min_networks config) s kept Hd Hl) as (Hd' & Hl' & Hne & Hsub).
    destruct (promotable_spec _ (min_networks config) Hne) as (b & Hb & Hprom). rewrite Hb /=.
    assert (Forall (seen c f recent) (add_sample (min_networks config) s kept)) as Hseen.
    { apply Forall_forall. intros x [->|Hx]%Hsub; [|by apply (proj1 (Forall_forall _ _) Hs)].
      apply (seen_mono _ _ [e]); [intros ? ->%list_elem_of_singleton; done|].
      pose proof (seen_now f [s] Ef) as Hn. apply Forall_inv in Hn; [done|]. by intros ? ->%list_elem_of_singleton. }
    eexists. split; [done|]. destruct b; simpl.
    2: { split; simpl; [|by left]. split_and!; [done..|]. by exists recent, old. }
    destruct (Hprom eq_refl) as [Hmin Hspread].
    assert (evidence c f now (e :: tr)) as Hev.
    { split. exists recent, old, (add_sample (min_networks config) s kept). split_and!; try done.
      apply Forall_forall. intros x [->|Hx]%Hsub; [by apply expires_later|]. by apply (proj1 (Forall_forall _ _) Hlive). }
    split; simpl; [exists [], (e :: tr); by split_and!|]. right. split_and!; [done..|]. exists f. split; [done|].
    exists now, [], (e :: tr). split_and!; [done..|]. unfold since_. rewrite Z.sub_diag. by_compute.
  - destruct Hp as (recent & old & Htr & Hev & Hst).
    assert (e :: tr = (e :: recent) ++ old) as Htr' by (rewrite Htr; done). case_bool_decide as Hage.
    + eexists. split; [done|]. split; [|by left]. apply restart_ok. intros Hn. exists (e :: recent), old.
      split_and!; [done..|]. constructor; [|done]. by intros _.
    + eexists. split; [done|]. case_bool_decide as Hf; [|split; simpl; [done|by left]].
      assert (stands c shared since e) as Hs by (intros Hc; by destruct (agrees shared Hf)).
      split; simpl.
      * exists (e :: recent), old. split_and!; [done..|]. by constructor.
      * right. split_and!; [done..|]. exists shared. split; [done|]. exists since, (e :: recent), old.
        split_and!; [done|done|by constructor|lia].
  - eexists. split; [done|]. split; [|by left]. case_bool_decide; [done|]. by apply restart_ok.
Qed.
End phase.

(** ** The table *)
Lemma trim_iter fuel n (r : Lru Class_ Phase) :
  (lru_len r ≤ fuel + n)%nat → lru_iter (trim fuel n r) = take n (lru_iter r).
Proof.
  revert r. induction fuel as [|fuel IH]; intros r Hr; simpl.
  { rewrite take_ge //. by rewrite -len_iter. }
  case_bool_decide as Hfull; [|rewrite take_ge //; rewrite -len_iter; lia].
  rewrite IH; [|rewrite lru_len_pop_lru; lia]. rewrite pop_lru_iter take_take. f_equal. rewrite -len_iter. lia.
Qed.

Record table_ok (tr : list Event) (t : Table) : Prop := {
  tk_capacity : t_capacity t = Nat.max 1 cap;
  tk_len : (length (lru_iter (records t)) ≤ Nat.max 1 cap)%nat;
  tk_phase c p : (c, p) ∈ lru_iter (records t) → phase_ok tr c p;
}.
(** What an observation may do to the records: the record of the class is
    written and becomes the most recently used one; a record beyond the capacity
    is forgotten. *)
Definition records_after (t t' : Table) (class : Class_) (p : Phase) : Prop :=
  lru_iter (records t') = take (Nat.max 1 cap) ((class, p) :: without class (lru_iter (records t))).

Lemma records_after_ok tr t t' class p e :
  table_ok tr t → (∀ c fp, contradicts c fp e → c = class) → t_capacity t' = t_capacity t →
  records_after t t' class p → phase_ok (e :: tr) class p → table_ok (e :: tr) t'.
Proof.
  intros [Hcap Hlen Hph] He Hc Hr Hp. split; [congruence|rewrite Hr length_take; lia|]. intros c q. rewrite Hr.
  intros Hin. apply (subseteq_take (Nat.max 1 cap)) in Hin. apply elem_of_cons in Hin as [[= -> ->]|Hin]; [done|].
  apply elem_of_without in Hin as [Hin Hne]. apply phase_ok_other; [|by apply Hph]. by intros fp ?%He.
Qed.
Lemma get_mut_records tr t class f p :
  table_ok tr t → lru_peek class (records t) = Some p →
  records_after t (with_records (lru_get_mut class f (records t)) t) class (f p).
Proof.
  intros [Hcap Hlen _] Hp. unfold records_after. simpl. rewrite get_mut_iter -peek_iter Hp take_ge //.
  rewrite peek_in in Hp. pose proof (without_perm _ _ _ (iter_keys _) Hp) as Hperm. apply Permutation_length in Hperm.
  simpl in *. lia.
Qed.

(** The networks an observation speaks of. *)
Definition speaks_of (scope : Scope) (net : IpNet) : Prop :=
  scope = ExactSource net ∨ scope = Network net ∧ 0 < net_prefix_len net.
Definition observed_ok (tr : list Event) (key : Key) (scope : Scope) (fp : option Fingerprint) (now : Z)
    (e : Event) (t : Table) (o : Observation) (t' : Table) : Prop :=
  table_ok (e :: tr) t' ∧
  (lru_iter (records t') = lru_iter (records t) ∧ o = mkObservation scope false ∨
   ∃ net p, speaks_of scope net ∧ records_after t t' (class_of key net) p ∧
     (o = mkObservation scope false ∨
      o = mkObservation scope true ∧ p = Revoked (now + secs (revoke_cooldown_secs config)) ∨
      o = mkObservation (Learned (is_ipv4 (net_addr net))) false ∧ scope = ExactSource net ∧
        ∃ f, fp = Some f ∧ justified (class_of key net) f now (e :: tr))).

Lemma unchanged_ok tr key scope fp now e t :
  table_ok tr t → (∀ c f p, (c, p) ∈ lru_iter (records t) → ¬ contradicts c f e) →
  observed_ok tr key scope fp now e t (mkObservation scope false) t.
Proof.
  intros [Hcap Hlen Hph] He. split; [|by left]. split; [done..|]. intros c p Hin.
  apply phase_ok_other; [intros fp'; by eapply He|by apply Hph].
Qed.

Lemma observe_wp tr t key scope fp lifetime now :
  let e := Observed key scope fp lifetime now in
  table_ok tr t → event_ok e →
  wp (observe key scope fp lifetime now config) (λ o t', observed_ok tr key scope fp now e t o t') (λ _ _, False) t.
Proof.
  intros e Ht Hok. unfold observe. apply wp_bind, wp_get.
  assert (∀ net c f, scope = ExactSource net ∨ scope = Network net → contradicts c f e → c = class_of key net) as Hclass.
  { intros net c f [-> | ->]; simpl; by intros [-> _]. }
  destruct scope as [|fam|net|net|fam]; try by apply wp_ret, unchanged_ok; [|by intros ? ? ? _ ?].
  - case_bool_decide as Hlen; [|apply wp_ret, unchanged_ok; [done|]; intros c f p _ [_ Hpos]; lia].
    change (mkClass key (is_ipv4 (net_addr net))) with (class_of key net).
    destruct (lru_peek (class_of key net) (records t)) as [p|] eqn:Ep.
    2: { apply wp_ret, unchanged_ok; [done|]. intros c f p Hin [<- _].
      apply (peek_in (class_of key net)) in Hin. congruence. }
    apply wp_bind, wp_put, wp_ret. set (active := match p with Revoked _ => _ | _ => _ end).
    pose proof (get_mut_records tr t (class_of key net)
      (λ p, if active then p else Revoked (now + secs (revoke_cooldown_secs config))) p Ht Ep) as Hr.
    split.
    + eapply (records_after_ok tr t _ (class_of key net)); [done|intros; eapply Hclass; eauto|done|exact Hr|].
      unfold active. by destruct p as [| |until]; simpl; try case_bool_decide.
    + right. exists net. eexists. split; [right; split; [done|lia]|]. split; [exact Hr|].
      destruct active; [by left|right; by left].
  - change (mkClass key (is_ipv4 (net_addr net))) with (class_of key net).
    destruct (lru_peek (class_of key net) (records t)) as [p|] eqn:Ep.
    + destruct (observe_phase_ok tr key net fp lifetime now Hok p) as ([o p'] & Hrun & Hphase & Hout).
      { apply (tk_phase _ _ Ht). by apply peek_in. }
      cbn [cl_ipv4 class_of]. apply wp_bind. eapply wp_expect; [exact Hrun|]. apply wp_bind, wp_put, wp_ret.
      pose proof (get_mut_records tr t (class_of key net) (λ _, p') p Ht Ep) as Hr.
      split; [eapply (records_after_ok tr t _ (class_of key net)); [done|intros; eapply Hclass; eauto|done|exact Hr|exact Hphase]|].
      right. exists net, p'. split; [by left|]. split; [exact Hr|]. destruct o as [s r]. simpl in Hout.
      destruct Hout as [[-> Hrev]|(-> & -> & Hj)]; [destruct r; [right; left|left]; auto|right; right; auto].
    + destruct fp as [f|].
      2: { apply wp_ret, unchanged_ok; [done|]. intros c f p Hin [<- _]. apply (peek_in (class_of key net)) in Hin. congruence. }
      apply wp_bind, wp_put, wp_ret. set (p := Observing f _).
      assert (records_after t (with_records (trim (lru_len (lru_put (class_of key net) p (records t))) (t_capacity t)
        (lru_put (class_of key net) p (records t))) t) (class_of key net) p) as Hr.
      { unfold records_after. simpl. rewrite trim_iter; [|lia]. by rewrite put_iter (tk_capacity _ _ Ht). }
      split.
      * eapply (records_after_ok tr t _ (class_of key net)); [done|intros; eapply Hclass; eauto|done|exact Hr|].
        by apply (observing_start_ok tr key net (Some f) lifetime now Hok).
      * right. exists net, p. split; [by left|]. split; [exact Hr|by left].
Qed.

Lemma pop_all_iter (r : Lru Class_ Phase) l :
  lru_iter (foldl (λ r c, (lru_pop c r).2) r l) = filter (λ p, p.1 ∉ l) (lru_iter r).
Proof.
  revert r. induction l as [|c l IH]; intros r; simpl.
  { symmetry. apply filter_all, Forall_forall. intros p _. apply not_elem_of_nil. }
  rewrite IH pop_iter. unfold without. rewrite list_filter_filter. apply list_filter_iff.
  intros p. rewrite not_elem_of_cons. naive_solver.
Qed.
Definition invalidated (name : option Name) (kind : option Z) (scope : option Scope) (c : Class_) : bool :=
  match family_of scope with Some family => class_matches name kind family c | None => false end.
Lemma sharing_invalidate_iter name kind scope t :
  lru_iter (records (sharing_invalidate name kind scope t)) =
    filter (λ p, invalidated name kind scope p.1 = false) (lru_iter (records t)) ∧
  t_capacity (sharing_invalidate name kind scope t) = t_capacity t.
Proof.
  unfold sharing_invalidate, invalidated. destruct (family_of scope) as [family|] eqn:Ef.
  2: { split; [|done]. symmetry. by apply filter_all, Forall_forall. }
  assert (∀ m, m = filter (λ c, class_matches name kind family c = true) (keys (lru_iter (records t))) →
    filter (λ p, p.1 ∉ m) (lru_iter (records t)) = filter (λ p, class_matches name kind family p.1 = false) (lru_iter (records t))) as Hf.
  { intros m ->. apply filter_ext_in. intros p Hp. rewrite list_elem_of_filter.
    assert (p.1 ∈ keys (lru_iter (records t))) by (apply list_elem_of_fmap; by exists p).
    destruct (class_matches name kind family p.1); naive_solver. }
  assert (∀ (r : Lru Class_ Phase) p, p ∈ filter (λ p : Class_ * Phase, class_matches None None None p.1 = false) (lru_iter r) → False) as Hclear.
  { intros r p [Hp _]%list_elem_of_filter. done. }
  destruct name, kind, family; simpl; rewrite ?pop_all_iter; try (split; [by apply Hf|done]).
  rewrite clear_iter. split; [|done]. symmetry. apply elem_of_nil_inv. intros p Hp. by apply (Hclear (records t) p).
Qed.

Lemma reaches_ok tr t : reaches tr t → table_ok tr t.
Proof.
  induction 1 as [|tr t key scope fp lifetime now o t' _ IH Hok Hrun|tr t name kind scope _ IH].
  - split; simpl; [done|rewrite iter_unbounded; simpl; lia|]. intros c p. rewrite iter_unbounded. by intros ?%elem_of_nil.
  - pose proof (observe_wp tr t key scope fp lifetime now IH Hok) as Hwp. by destruct (wp_result _ _ _ _ _ _ Hrun Hwp).
  - destruct IH as [Hcap Hlen Hph], (sharing_invalidate_iter name kind scope t) as [Hi Hc].
    split; [congruence|rewrite Hi; etrans; [apply length_filter|done]|]. intros c p. rewrite Hi list_elem_of_filter.
    intros [Hno Hin]. apply phase_ok_other; [|by apply Hph]. simpl. intros fp (family & Hf & Hm).
    unfold invalidated in Hno. simpl in Hno. rewrite Hf in Hno. congruence.
Qed.
End history.

(** ** The fingerprint *)
Section identity.
Context `{MessageLib} `{!DnsNames} `{!RDataLib} `{Sha256Lib}.

Definition sized (l : list (list Z)) : Prop :=
  Z.of_nat (length l) ≤ u32_max ∧ Forall (λ r, Z.of_nat (length r) ≤ u32_max) l.
Definition fp_frame (r : list Z) : list Z := be_bytes 4 (as_u32 (Z.of_nat (length r))) ++ r.
Lemma app_inj_len {A} (a b c d : list A) : length a = length c → a ++ b = c ++ d → a = c ∧ b = d.
Proof. apply app_inj_1. Qed.
Lemma be4_inj x y a b :
  0 ≤ x ≤ u32_max → 0 ≤ y ≤ u32_max → be_bytes 4 (as_u32 x) ++ a = be_bytes 4 (as_u32 y) ++ b → x = y ∧ a = b.
Proof.
  intros Hx Hy Heq. apply app_inj_len in Heq as [Hb ->]; [|by rewrite !length_be_bytes]. split; [|done].
  rewrite !as_u32_small in Hb; [|done..]. apply (be_bytes_inj 4); [..|done]; change (256 ^ Z.of_nat 4) with (u32_max + 1); lia.
Qed.
Lemma frame_inj r r' a b :
  Z.of_nat (length r) ≤ u32_max → Z.of_nat (length r') ≤ u32_max → fp_frame r ++ a = fp_frame r' ++ b → r = r' ∧ a = b.
Proof.
  unfold fp_frame. intros Hr Hr'. rewrite -!app_assoc. intros [Hl Heq]%be4_inj; [|lia..]. apply app_inj_len in Heq; [done|lia].
Qed.
Lemma frames_inj l k a b :
  length l = length k → Forall (λ r, Z.of_nat (length r) ≤ u32_max) l → Forall (λ r, Z.of_nat (length r) ≤ u32_max) k →
  mjoin (fp_frame <$> l) ++ a = mjoin (fp_frame <$> k) ++ b → l = k ∧ a = b.
Proof.
  revert k. induction l as [|r l IH]; intros [|r' k] Hlen Hl Hk; try done.
  apply Forall_cons in Hl as [Hr Hl], Hk as [Hr' Hk]. rewrite !fmap_cons. cbn [mjoin list_join].
  rewrite -(app_assoc (fp_frame r)) -(app_assoc (fp_frame r')).
  intros [-> Heq]%frame_inj; [|done..]. apply (IH k) in Heq as [-> ->]; [done|simpl in Hlen; lia|done|done].
Qed.
Lemma section_inj l k a b : sized l → sized k → fp_section l ++ a = fp_section k ++ b → l = k ∧ a = b.
Proof.
  intros [Hl Hls] [Hk Hks]. unfold fp_section. rewrite -!app_assoc. intros [Hlen Heq]%be4_inj; [|lia..].
  apply (frames_inj _ _ _ _) in Heq; [done|lia|done..].
Qed.
Notation normal l := (dedup (ListSlice.sort_by cmp_bytes l)).
Lemma normal_sized l : sized l → sized (normal l).
Proof.
  intros [Hl Hls]. pose proof ListSlice.spec as [Hperm _ _ _]. pose proof (Hperm _ cmp_bytes l total_cmp_bytes) as Hp. simpl in Hp.
  assert (∀ k : list (list Z), (length (dedup k) ≤ length k)%nat) as Hlen.
  { induction k as [|x k IH]; [done|]. destruct k as [|y k]; [done|]. rewrite dedup_cons.
    case_bool_decide; simpl in *; lia. }
  split.
  - pose proof (Hlen (ListSlice.sort_by cmp_bytes l)). apply Permutation_length in Hp. lia.
  - apply Forall_forall. intros x Hx. rewrite dedup_in Hp in Hx. by apply (proj1 (Forall_forall _ _) Hls).
Qed.

(** The encoded SOA owners a fingerprint covers. *)
Definition fp_denial (question : Query) (response : Message) : option (list (list Z)) :=
  if is_negative question response then fp_soa response else Some [].
Lemma fp_input_eq q r an soa :
  fp_answers r = Some an → fp_denial q r = Some soa →
  fp_input q r = Some (be_bytes 2 (response_code r) ++ [if is_negative q r then 1 else 0] ++
                       fp_section (normal an) ++ fp_section (normal soa)).
Proof. unfold fp_input, fp_denial. intros -> Hsoa. simpl. by rewrite Hsoa. Qed.

Lemma fp_input_inj q r an soa q' r' an' soa' :
  fp_answers r = Some an → fp_denial q r = Some soa → fp_answers r' = Some an' → fp_denial q' r' = Some soa' →
  sized an → sized soa → sized an' → sized soa' →
  0 ≤ response_code r ≤ u16_max → 0 ≤ response_code r' ≤ u16_max →
  fp_input q r = fp_input q' r' ↔
    response_code r = response_code r' ∧ is_negative q r = is_negative q' r' ∧
    (∀ x, x ∈ an ↔ x ∈ an') ∧ (∀ x, x ∈ soa ↔ x ∈ soa').
Proof.
  intros Han Hsoa Han' Hsoa' Hs1 Hs2 Hs1' Hs2' Hc Hc'. rewrite (fp_input_eq q r an soa) // (fp_input_eq q' r' an' soa') //.
  rewrite -(normal_ext an an') -(normal_ext soa soa'). split; [|by intros (-> & -> & -> & ->)].
  intros Heq%Some_inj. apply app_inj_len in Heq as [Hcode Heq]; [|by rewrite !length_be_bytes].
  apply be_bytes_inj in Hcode; [|change (256 ^ Z.of_nat 2) with (u16_max + 1); lia..].
  apply app_inj_len in Heq as [Hneg Heq]; [|done]. injection Hneg as Hneg.
  apply section_inj in Heq as [-> Heq]; [|by apply normal_sized..].
  rewrite -(app_nil_r (fp_section (normal soa))) -(app_nil_r (fp_section (normal soa'))) in Heq.
  apply section_inj in Heq as [-> _]; [|by apply normal_sized..].
  split_and!; [done| |done..]. by destruct (is_negative q r), (is_negative q' r').
Qed.

(** ** Records *)
(** The wire form of a name ends with its root label, so no name's is the
    beginning of another's. *)
Definition self_delimiting : Prop := ∀ a b wa wb x y,
  name_to_bytes a = Some wa → name_to_bytes b = Some wb → wa ++ x = wb ++ y → wa = wb.
(** What counts of a record: its owner without case, its type, class and data;
    of an SOA record of a denial its owner and class. [None] has no wire form. *)
Definition owner_of (rr : Rr) : option (list Z) := name_to_bytes (to_lowercase (rr_name rr)).
Definition record_of (rr : Rr) : option (list Z * Z * Z * list Z) :=
  n ← owner_of rr; d ← rdata_to_bytes (rr_data rr); Some (n, record_type rr, rr_class rr, d).
Definition zone_of_soa (rr : Rr) : option (list Z * Z) := n ← owner_of rr; Some (n, rr_class rr).
Definition denials (question : Query) (response : Message) : list Rr :=
  if is_negative question response then filter (λ rr, record_type rr = SOA) (authorities response) else [].
(** The numbers have the widths of the wire, and the records fit a message. *)
Record rr_sized (rr : Rr) : Prop := {
  rs_type : 0 ≤ record_type rr ≤ u16_max;
  rs_class : 0 ≤ rr_class rr ≤ u16_max;
  rs_owner n : owner_of rr = Some n → Z.of_nat (length n) ≤ u16_max;
  rs_data d : rdata_to_bytes (rr_data rr) = Some d → Z.of_nat (length d) ≤ u16_max;
}.
Record response_sized (r : Message) : Prop := {
  ms_code : 0 ≤ response_code r ≤ u16_max;
  ms_answers : Z.of_nat (length (answers r)) ≤ u16_max ∧ Forall rr_sized (answers r);
  ms_authorities : Z.of_nat (length (authorities r)) ≤ u16_max ∧ Forall rr_sized (authorities r);
}.

Definition enc_record (t : list Z * Z * Z * list Z) : list Z := let '(n, k, c, d) := t in n ++ be_bytes 2 k ++ be_bytes 2 c ++ d.
Definition enc_zone (t : list Z * Z) : list Z := t.1 ++ be_bytes 2 SOA ++ be_bytes 2 t.2.
Lemma fp_answers_of r : fp_answers r = mapM (λ rr, enc_record <$> record_of rr) (answers r).
Proof.
  unfold fp_answers. apply mapM_ext. intros rr. unfold fp_encode, record_of, owner_of.
  destruct (name_to_bytes _) as [n|]; [|done]. simpl. by destruct (rdata_to_bytes _).
Qed.
Lemma fp_denial_of q r : fp_denial q r = mapM (λ rr, enc_zone <$> zone_of_soa rr) (denials q r).
Proof.
  unfold fp_denial, denials, fp_soa. destruct (is_negative q r); [|done]. apply mapM_ext. intros rr.
  unfold fp_encode, zone_of_soa, owner_of. destruct (name_to_bytes _) as [n|]; [|done]. unfold enc_zone. cbn -[be_bytes]. by rewrite app_nil_r.
Qed.
(** Encoded sets are equal exactly when what they encode is. *)
Lemma encoded_sets {T} (f : Rr → option T) (g : T → list Z) l l' k k' :
  (∀ rr rr' t t', rr ∈ l → rr' ∈ l' → f rr = Some t → f rr' = Some t' → g t = g t' → t = t') →
  mapM (λ rr, g <$> f rr) l = Some k → mapM (λ rr, g <$> f rr) l' = Some k' →
  (∀ x, x ∈ k ↔ x ∈ k') ↔ (∀ t, Some t ∈ f <$> l ↔ Some t ∈ f <$> l').
Proof.
  assert (∀ l k x, mapM (λ rr, g <$> f rr) l = Some k → x ∈ k ↔ ∃ rr t, rr ∈ l ∧ f rr = Some t ∧ g t = x) as Hin.
  { intros l0 k0 x Hm%mapM_Some. induction Hm as [|rr y l0 k0 Hy _ IH]; [set_solver|].
    apply fmap_Some in Hy as (t & Ht & ->). rewrite elem_of_cons IH. split; [intros [->|(?&?&?&?&?)]; set_solver|].
    intros (rr' & t' & [->|Hr]%elem_of_cons & Hf & <-); [left; congruence|right; eauto]. }
  intros Hinj Hk Hk'. split; intros Heq.
  - intros t. rewrite !list_elem_of_fmap. split; intros (rr & Ht & Hr).
    + assert (g t ∈ k') as Hx by (apply Heq; rewrite (Hin l) //; eauto). rewrite (Hin l' k') // in Hx.
      destruct Hx as (rr' & t' & Hr' & Ht' & Hg). exists rr'. split; [|done]. rewrite Ht'. f_equal. symmetry in Ht.
      by apply (Hinj rr rr').
    + assert (g t ∈ k) as Hx by (apply Heq; rewrite (Hin l') //; eauto). rewrite (Hin l k) // in Hx.
      destruct Hx as (rr' & t' & Hr' & Ht' & Hg). exists rr'. split; [|done]. rewrite Ht'. f_equal. symmetry in Ht.
      symmetry. by apply (Hinj rr' rr).
  - intros x. rewrite (Hin l) // (Hin l') //. split; intros (rr & t & Hr & Ht & Hg).
    + destruct (proj1 (list_elem_of_fmap f l' (Some t))) as (rr' & Ht' & Hr'); [apply Heq, list_elem_of_fmap; eauto|]. eauto.
    + destruct (proj1 (list_elem_of_fmap f l (Some t))) as (rr' & Ht' & Hr'); [apply Heq, list_elem_of_fmap; eauto|]. eauto.
Qed.
Lemma be2_inj x y a b : 0 ≤ x ≤ u16_max → 0 ≤ y ≤ u16_max → be_bytes 2 x ++ a = be_bytes 2 y ++ b → x = y ∧ a = b.
Proof.
  intros Hx Hy Heq. apply app_inj_len in Heq as [Hb ->]; [|by rewrite !length_be_bytes]. split; [|done].
  apply (be_bytes_inj 2); [..|done]; change (256 ^ Z.of_nat 2) with (u16_max + 1); lia.
Qed.
Lemma record_of_Some rr n k c d : record_of rr = Some (n, k, c, d) →
  owner_of rr = Some n ∧ k = record_type rr ∧ c = rr_class rr ∧ rdata_to_bytes (rr_data rr) = Some d.
Proof. unfold record_of. destruct (owner_of rr), (rdata_to_bytes (rr_data rr)); naive_solver. Qed.
Lemma record_inj rr rr' t t' : self_delimiting → rr_sized rr → rr_sized rr' →
  record_of rr = Some t → record_of rr' = Some t' → enc_record t = enc_record t' → t = t'.
Proof.
  intros Hwire [Ht Hc _ _] [Ht' Hc' _ _]. destruct t as [[[n k] c] d], t' as [[[n' k'] c'] d'].
  intros (Hn & -> & -> & _)%record_of_Some (Hn' & -> & -> & _)%record_of_Some. cbn [enc_record]. intros Heq.
  assert (n = n') as <- by (by eapply Hwire). apply app_inj_len in Heq as [_ Heq]; [|done].
  apply be2_inj in Heq as [-> Heq]; [|done..]. by apply be2_inj in Heq as [-> ->].
Qed.
Lemma zone_inj rr rr' t t' : self_delimiting → rr_sized rr → rr_sized rr' →
  zone_of_soa rr = Some t → zone_of_soa rr' = Some t' → enc_zone t = enc_zone t' → t = t'.
Proof.
  intros Hwire [_ Hc _ _] [_ Hc' _ _]. unfold zone_of_soa, enc_zone.
  destruct (owner_of rr) as [n|] eqn:Hn; [|done]. destruct (owner_of rr') as [n'|] eqn:Hn'; [|done].
  intros [= <-] [= <-]. cbn [fst snd]. intros Heq. assert (n = n') as <- by (by eapply Hwire).
  apply app_inj_len in Heq as [_ Heq]; [|done]. apply app_inj_len in Heq as [_ Heq]; [|done].
  apply (f_equal (.++ [])) in Heq. by apply be2_inj in Heq as [-> _].
Qed.
(** What is encoded is short. *)
Lemma encoded_sized {T} (f : Rr → option T) (g : T → list Z) l k :
  Z.of_nat (length l) ≤ u16_max → (∀ rr t, rr ∈ l → f rr = Some t → Z.of_nat (length (g t)) ≤ u32_max) →
  mapM (λ rr, g <$> f rr) l = Some k → sized k.
Proof.
  intros Hl Hg Hm%mapM_Some. split; [apply Forall2_length in Hm; unfold u16_max, u32_max in *; lia|].
  clear Hl. induction Hm as [|rr y l k Hy _ IH]; [done|]. apply fmap_Some in Hy as (t & Ht & ->). constructor.
  - eapply Hg; [left|done].
  - apply IH. intros rr' t' Hr. apply Hg. by right.
Qed.
Lemma answers_sized r k : response_sized r → fp_answers r = Some k → sized k.
Proof.
  intros [_ [Hl Hall] _]. rewrite fp_answers_of. apply encoded_sized; [done|]. intros rr [[[n ty] c] d] Hr (Hn & _ & _ & Hd)%record_of_Some.
  rewrite ->Forall_forall in Hall. destruct (Hall rr Hr) as [_ _ Ho Hdata]. specialize (Ho n Hn). specialize (Hdata d Hd).
  cbn [enc_record]. rewrite !length_app !length_be_bytes. unfold u16_max, u32_max in *. lia.
Qed.
Lemma denials_in q r rr : rr ∈ denials q r → rr ∈ authorities r.
Proof. unfold denials. destruct (is_negative q r); [|by intros ?%elem_of_nil]. by intros [_ ?]%list_elem_of_filter. Qed.
Lemma denials_sized q r k : response_sized r → fp_denial q r = Some k → sized k.
Proof.
  intros [_ _ [Hl Hall]]. rewrite fp_denial_of. apply encoded_sized.
  - unfold denials. destruct (is_negative q r); [|simpl; unfold u16_max; lia]. pose proof (length_filter (λ rr, record_type rr = SOA) (authorities r)). lia.
  - intros rr [n c] Hr%denials_in. unfold zone_of_soa. destruct (owner_of rr) as [n'|] eqn:Hn; [|done]. intros [= <- <-].
    rewrite ->Forall_forall in Hall. destruct (Hall rr Hr) as [_ _ Ho _]. specialize (Ho n' Hn).
    unfold enc_zone. rewrite !length_app !length_be_bytes /=. unfold u16_max, u32_max in *. lia.
Qed.
Lemma mapM_whole {T U} (f : Rr → option T) (g : T → U) l : is_Some (mapM (λ rr, g <$> f rr) l) ↔ ∀ rr, rr ∈ l → is_Some (f rr).
Proof.
  rewrite mapM_is_Some Forall_forall. split; intros Hl rr Hr; [by apply (fmap_is_Some g), Hl|by apply (fmap_is_Some g), Hl].
Qed.
(** An answer has a fingerprint when all its records have a wire form. *)
Lemma fp_input_whole q r :
  is_Some (fp_input q r) ↔ (∀ rr, rr ∈ answers r → is_Some (record_of rr)) ∧ (∀ rr, rr ∈ denials q r → is_Some (zone_of_soa rr)).
Proof.
  rewrite -(mapM_whole record_of enc_record) -(mapM_whole zone_of_soa enc_zone) -fp_answers_of -fp_denial_of.
  unfold fp_input, fp_denial. destruct (fp_answers r) as [an|]; simpl; [|split; [by intros [? ?]|by intros [[? ?] _]]].
  destruct (if is_negative q r then fp_soa r else Some []); simpl; [split; eauto|split; [by intros [? ?]|by intros [_ [? ?]]]].
Qed.
End identity.

(** ** What the table promises *)
Section claims.
Context `{MessageLib} `{!DnsNames} `{IpNetLib} `{!IpNetSpec _} `{LruLib} `{!LruSpec _}.

(** C26. From any history of the table, classifying an answer does not panic,
    writes the record of its class only, forgets at most the least recently used
    record and stays within the capacity. The answer keeps its own scope unless
    sharing is justified: enough pairwise disjoint networks of the family,
    spanning two blocks, got this very answer while each one's copy was still
    valid, no answer in between contradicted it, no later one did before the
    evidence aged out, and it has not aged out now. A revocation leaves the
    record revoked until the cooldown ends. *)
Theorem sharing_is_justified config cap tr t key scope fp lifetime now :
  let e := Observed key scope fp lifetime now in
  reaches config cap tr t → event_ok e →
  wp (observe key scope fp lifetime now config)
    (λ o t', reaches config cap (e :: tr) t' ∧ observed_ok config cap tr key scope fp now e t o t')
    (λ _ _, False) t.
Proof.
  intros e Hr Hok. pose proof (observe_wp config cap tr t key scope fp lifetime now (reaches_ok _ _ _ _ Hr) Hok) as Hwp.
  unfold wp in *. destruct (observe key scope fp lifetime now config t) as [[o| | |] t'] eqn:E; [|done..].
  split; [|done]. by eapply reaches_observe.
Qed.

(** Clearing forgets exactly the records of the named name, type and family,
    in place, the revocations among them; a scope that cannot hold shared
    answers clears nothing. *)
Theorem sharing_invalidate_exact config cap tr t name kind scope :
  reaches config cap tr t →
  let t' := sharing_invalidate name kind scope t in
  reaches config cap (Invalidated name kind scope :: tr) t' ∧
  lru_iter (records t') = filter (λ p, invalidated name kind scope p.1 = false) (lru_iter (records t)) ∧
  (∀ c p, (c, p) ∈ lru_iter (records t') → phase_ok config tr c p ∧ ∀ fp, ¬ contradicts c fp (Invalidated name kind scope)).
Proof.
  intros Hr. destruct (sharing_invalidate_iter name kind scope t) as [Hi _]. split; [by constructor|]. split; [done|].
  intros c p. rewrite Hi list_elem_of_filter. intros [Hno Hin]. split; [by apply (tk_phase _ _ _ _ (reaches_ok _ _ _ _ Hr))|].
  intros fp (family & Hf & Hm). unfold invalidated in Hno. simpl in Hno. rewrite Hf in Hno. congruence.
Qed.
End claims.
Section identity_claim.
Context `{MessageLib} `{!DnsNames} `{!RDataLib} `{Sha256Lib}.
(** C37. Of two answers that fit a message, the same input is hashed exactly when
    they have the same response code and classification, the same set of answer
    records, each its owner without case, type, class and data, and, for denials,
    the same set of owners and classes of the SOA records; order, repetition, TTLs
    and everything else do not count. Then the fingerprints are equal. An answer
    has a fingerprint exactly when every such record has a wire form. *)
Theorem fingerprint_identity q r q' r' :
  self_delimiting → response_sized r → response_sized r' → is_Some (fingerprint q r) → is_Some (fingerprint q' r') →
  (fp_input q r = fp_input q' r' ↔
    response_code r = response_code r' ∧ is_negative q r = is_negative q' r' ∧
    (∀ x, Some x ∈ record_of <$> answers r ↔ Some x ∈ record_of <$> answers r') ∧
    (∀ z, Some z ∈ zone_of_soa <$> denials q r ↔ Some z ∈ zone_of_soa <$> denials q' r')) ∧
  (fp_input q r = fp_input q' r' → fingerprint q r = fingerprint q' r') ∧
  (∀ q r, is_Some (fingerprint q r) ↔
    (∀ rr, rr ∈ answers r → is_Some (record_of rr)) ∧ (∀ rr, rr ∈ denials q r → is_Some (zone_of_soa rr))).
Proof.
  intros Hwire Hr Hr' Hsome Hsome'. split; [|split; [by unfold fingerprint; intros ->|]].
  2: { intros q0 r0. rewrite -fp_input_whole. unfold fingerprint. apply fmap_is_Some. }
  unfold fingerprint in Hsome, Hsome'. apply fmap_is_Some in Hsome, Hsome'.
  assert (∃ an soa, fp_answers r = Some an ∧ fp_denial q r = Some soa) as (an & soa & Han & Hsoa).
  { destruct Hsome as [x Hx]. unfold fp_input in Hx. unfold fp_denial. destruct (fp_answers r); [|done]. simpl in Hx.
    destruct (is_negative q r); [destruct (fp_soa r); [eauto|done]|eauto]. }
  assert (∃ an soa, fp_answers r' = Some an ∧ fp_denial q' r' = Some soa) as (an' & soa' & Han' & Hsoa').
  { destruct Hsome' as [x Hx]. unfold fp_input in Hx. unfold fp_denial. destruct (fp_answers r'); [|done]. simpl in Hx.
    destruct (is_negative q' r'); [destruct (fp_soa r'); [eauto|done]|eauto]. }
  rewrite (fp_input_inj q r an soa q' r' an' soa') //; [|exact (answers_sized r an Hr Han)|exact (denials_sized q r soa Hr Hsoa)|exact (answers_sized r' an' Hr' Han')|exact (denials_sized q' r' soa' Hr' Hsoa')|apply Hr|apply Hr'].
  rewrite fp_answers_of in Han. rewrite fp_answers_of in Han'. rewrite fp_denial_of in Hsoa. rewrite fp_denial_of in Hsoa'.
  destruct Hr as [_ [_ Ha] [_ Hb]], Hr' as [_ [_ Ha'] [_ Hb']]. rewrite ->Forall_forall in Ha, Hb, Ha', Hb'.
  rewrite (encoded_sets record_of enc_record (answers r) (answers r') an an') //; [|by intros rr rr' t t' Hin Hin'; apply record_inj; [|apply Ha|apply Ha']].
  rewrite (encoded_sets zone_of_soa enc_zone (denials q r) (denials q' r') soa soa') //;
    by intros rr rr' t t' Hin%denials_in Hin'%denials_in; apply zone_inj; [|apply Hb|apply Hb'].
Qed.
End identity_claim.

(** ** The claims at work *)
Module SharingWitness.
Import DnsWitness.
#[local] Existing Instance names.
#[local] Existing Instance dns_names.
#[local] Existing Instance ListNet.lib.
#[local] Existing Instance ListNet.spec.
#[local] Existing Instance ListLru.lib.
#[local] Existing Instance ListLru.spec.
Definition lib : MessageLib := messages (λ _, None) (λ _, None).
#[local] Existing Instance lib.
Definition config : EcsSharingConfig := mkSharing true 2 600.
Definition key : Key := mkKey [[97]] 1 1 false false true true.
(** 10.1.2.0/24 and 10.2.2.0/24 *)
Definition net (b : Z) : IpNet := match net_new (V4 (10 * 2 ^ 24 + b * 2 ^ 16 + 512)) 24 with Some n => n | None => ListNet.any end.
Definition seen_from (b : Z) (now : Z) : Event := Observed key (ExactSource (net b)) (Some [1; 2]) (Some (secs 60)) now.
Definition first_ := observe key (ExactSource (net 1)) (Some [1; 2]) (Some (secs 60)) 5 config (table_new 4).

Lemma first_reaches : reaches config 4 [seen_from 1 5] first_.2.
Proof.
  assert (is_ok first_.1 = true) as Hrun by by_compute.
  destruct first_ as [[o| | |] t] eqn:E; [|discriminate Hrun..].
  eapply reaches_observe; [constructor|reflexivity|exact E].
Qed.
Lemma sharing_is_justified_witness :
  ∃ o t, observe key (ExactSource (net 2)) (Some [1; 2]) (Some (secs 60)) 6 config first_.2 =
      (Ok o, t) ∧ o = mkObservation (Learned true) false ∧
    justified config (class_of key (net 2)) [1; 2] 6 [seen_from 2 6; seen_from 1 5].
Proof.
  assert (event_ok (seen_from 2 6)) as Hok by reflexivity.
  pose proof (sharing_is_justified config 4 [seen_from 1 5] first_.2 key (ExactSource (net 2)) (Some [1; 2]) (Some (secs 60)) 6
    first_reaches Hok) as Hwp.
  assert (match (observe key (ExactSource (net 2)) (Some [1; 2]) (Some (secs 60)) 6 config first_.2).1 with Ok o => bool_decide (o_scope o = Learned true) | _ => false end = true)
    as Hrun by (vm_compute; reflexivity).
  destruct (observe key (ExactSource (net 2)) (Some [1; 2]) (Some (secs 60)) 6 config first_.2) as [[o| | |] t] eqn:E; [|discriminate Hrun..]. apply bool_decide_eq_true in Hrun.
  exists o, t. split; [reflexivity|]. destruct (wp_result _ _ _ _ _ _ E Hwp) as (_ & _ & [(_ & ->)|(n & p & _ & _ & [->|[(-> & _)|(-> & Hn & f & Hf & Hj)]])]);
    try discriminate Hrun. split; [exact (f_equal (λ s, mkObservation s false) Hrun)|]. injection Hn as <-. injection Hf as <-. exact Hj.
Defined.
Lemma sharing_invalidate_exact_witness :
  lru_iter (records (sharing_invalidate None (Some 1) None first_.2)) = [].
Proof.
  destruct (sharing_invalidate_exact config 4 _ first_.2 None (Some 1) None first_reaches) as (_ & Hi & _).
  apply nil_length_inv. rewrite Hi. by_compute.
Defined.

#[local] Instance rdata : RDataLib := {|
  rdata_to_bytes d := match d with RCname n => Some (mjoin n) | RSoa s => Some (soa_rest s) | ROther _ b => Some b end
|}.
#[local] Instance sha : Sha256Lib := {| sha256 b := replicate 32 (Z.of_nat (length b)) |}.
Definition question : Query := mkQuery [[97]] 1 1.
Definition answer (records : list Rr) : Message :=
  mkMessage 7 true 0 false false true true false false 0 [question] records [] [] None None.
Definition a1 (ttl : Z) : Rr := mkRr [[97]] 1 ttl (ROther 1 [10; 0; 0; 1]).
Definition a2 (ttl : Z) : Rr := mkRr [[65]] 1 ttl (ROther 1 [10; 0; 0; 2]).
Definition small (rr : Rr) : bool :=
  bool_decide (0 ≤ record_type rr ≤ u16_max ∧ 0 ≤ rr_class rr ≤ u16_max) &&
  match owner_of rr, rdata_to_bytes (rr_data rr) with
  | Some n, Some d => bool_decide (Z.of_nat (length n) ≤ u16_max ∧ Z.of_nat (length d) ≤ u16_max)
  | _, _ => false
  end.
Lemma small_sized l : forallb small l = true → Forall rr_sized l.
Proof.
  rewrite forallb_forall. intros Hl. apply Forall_forall. intros rr Hr. apply list_elem_of_In, Hl in Hr. unfold small in Hr.
  apply andb_prop in Hr as [[Ht Hc]%bool_decide_eq_true Hr]. destruct (owner_of rr) as [n|] eqn:Hn; [|done].
  destruct (rdata_to_bytes (rr_data rr)) as [d|] eqn:Hd; [|done]. apply bool_decide_eq_true in Hr as [? ?].
  split; [done|done|by intros; simplify_eq|by intros; simplify_eq].
Qed.
Lemma fingerprint_identity_witness :
  fp_input question (answer [a1 60; a2 60]) = fp_input question (answer [a2 5; a1 9; a2 7]).
Proof.
  eapply (fingerprint_identity question (answer [a1 60; a2 60]) question (answer [a2 5; a1 9; a2 7])).
  - exact DnsWitness.self_delimiting_names.
  - split; [by_compute|split; [by_compute|]|split; [by_compute|constructor]]. by apply small_sized.
  - split; [by_compute|split; [by_compute|]|split; [by_compute|constructor]]. by apply small_sized.
  - vm_compute. by eexists.
  - vm_compute. by eexists.
  - split; [reflexivity|]. split; [reflexivity|]. split; [|reflexivity]. set_solver.
Defined.
End SharingWitness.
