(* ===== verification/CacheStore.v ===== *)
(** * The cache: one shard

    The store of [src/cache.rs] below a shard's lock: entries, partitions,
    selection, removal, eviction, admission under the budget.

    Entries are shared: the bucket of a key, the LRU list of a partition and any
    number of readers hold an [Arc] of the same entry, whose atomic fields change
    behind the pointer. [arcs] is that heap; an [Arc] is the id of the entry it
    points to, which is unique within a shard. A popped entry leaves the heap,
    and gives its charge back, when no reader holds it any more. *)
From S2P Require Import Prelude Net Std Names Lru Dns Ecs Wire Protocol CacheData Sharing.
Set Default Goal Selector "!".
Set Warnings "-rewrite-rw".
Local Open Scope Z_scope.
Local Open Scope rust_scope.

(** [size_of::<Entry>()] and [size_of::<Key>()]. *)
Class Layout := { size_of_entry : Z; size_of_key : Z }.

Inductive Failure : Type := StaleFallback | Final.
#[export] Instance Failure_eq_dec : EqDecision Failure.
Proof. solve_decision. Defined.
Record Counts : Type := mkCounts {
  c_hits : Z;
  stale_hits : Z;
  misses : Z;
  c_evictions : Z;
  rejections : Z;
  shared_hits : Z;
  revocations : Z;
  failure_hits : Z;
}.
Definition counts_default : Counts := mkCounts 0 0 0 0 0 0 0 0.
Definition count_hit (fresh learned failed : bool) (c : Counts) : Counts :=
  mkCounts (c_hits c + Z.b2z fresh) (stale_hits c + Z.b2z (negb fresh)) (misses c) (c_evictions c) (rejections c)
    (shared_hits c + Z.b2z learned) (revocations c) (failure_hits c + Z.b2z failed).
Definition count_miss (c : Counts) : Counts :=
  mkCounts (c_hits c) (stale_hits c) (misses c + 1) (c_evictions c) (rejections c) (shared_hits c) (revocations c) (failure_hits c).
Definition count_eviction (c : Counts) : Counts :=
  mkCounts (c_hits c) (stale_hits c) (misses c) (c_evictions c + 1) (rejections c) (shared_hits c) (revocations c) (failure_hits c).
Definition count_rejection (n : Z) (c : Counts) : Counts :=
  mkCounts (c_hits c) (stale_hits c) (misses c) (c_evictions c) (rejections c + n) (shared_hits c) (revocations c) (failure_hits c).
Definition count_revocation (n : Z) (c : Counts) : Counts :=
  mkCounts (c_hits c) (stale_hits c) (misses c) (c_evictions c) (rejections c) (shared_hits c) (revocations c + n) (failure_hits c).

(** ** Data *)
Section store.
Context `{MessageLib} `{!DnsNames} `{IpNetLib} `{LruLib} `{Layout}.

Notation Arc := Z (only parsing).
Record Entry : Type := mkEntry {
  e_id : Z;
  e_key : Key;
  e_wire : list Z;
  e_scope : Scope;
  inserted : Z;
  e_lifetime : Z;
  e_retention : Z;
  e_negative : bool;
  e_failure : option Failure;
  e_prefetch : bool;
  refreshed : bool;
  hits : Z;
  accessed : Z;
  e_charge : Z;
}.
Definition with_refreshed (b : bool) (e : Entry) : Entry :=
  mkEntry (e_id e) (e_key e) (e_wire e) (e_scope e) (inserted e) (e_lifetime e) (e_retention e) (e_negative e)
    (e_failure e) (e_prefetch e) b (hits e) (accessed e) (e_charge e).
Definition with_hits (n : Z) (e : Entry) : Entry :=
  mkEntry (e_id e) (e_key e) (e_wire e) (e_scope e) (inserted e) (e_lifetime e) (e_retention e) (e_negative e)
    (e_failure e) (e_prefetch e) (refreshed e) n (accessed e) (e_charge e).
Definition with_accessed (n : Z) (e : Entry) : Entry :=
  mkEntry (e_id e) (e_key e) (e_wire e) (e_scope e) (inserted e) (e_lifetime e) (e_retention e) (e_negative e)
    (e_failure e) (e_prefetch e) (refreshed e) (hits e) n (e_charge e).
Definition is_learned (s : Scope) : bool := match s with Learned _ => true | _ => false end.
Definition is_failure (e : Entry) : bool := bool_decide (is_Some (e_failure e)).
Definition age (now : Z) (e : Entry) : Z := since_ now (inserted e).

Record Partition : Type := mkPartition {
  lru : Lru Z unit;
  charged : Z;
  p_max_entries : nat;
  p_max_bytes : Z;
  evictions : Evictions;
}.
Definition partition_new (entries : nat) (bytes : Z) : Partition :=
  mkPartition lru_unbounded 0 entries bytes evictions_default.
Definition with_lru (l : Lru Z unit) (p : Partition) : Partition :=
  mkPartition l (charged p) (p_max_entries p) (p_max_bytes p) (evictions p).
Definition with_charged (n : Z) (p : Partition) : Partition :=
  mkPartition (lru p) n (p_max_entries p) (p_max_bytes p) (evictions p).
Definition with_evictions (e : Evictions) (p : Partition) : Partition :=
  mkPartition (lru p) (charged p) (p_max_entries p) (p_max_bytes p) e.

(** A partition index is [usize::from(negative)]. *)
Record Shard : Type := mkShard {
  arcs : gmap Z Entry;
  readers : list Arc;
  buckets : gmap Key (list Arc);
  positive : Partition;
  negative_ : Partition;
  clock : Z;
  counts : Counts;
  sharing : Table;
  learned : Z;
  failures : Z;
}.
Definition part (b : bool) (s : Shard) : Partition := if b then negative_ s else positive s.
Definition with_arcs (a : gmap Z Entry) (s : Shard) : Shard :=
  mkShard a (readers s) (buckets s) (positive s) (negative_ s) (clock s) (counts s) (sharing s) (learned s) (failures s).
Definition with_readers (r : list Arc) (s : Shard) : Shard :=
  mkShard (arcs s) r (buckets s) (positive s) (negative_ s) (clock s) (counts s) (sharing s) (learned s) (failures s).
Definition with_buckets (b : gmap Key (list Arc)) (s : Shard) : Shard :=
  mkShard (arcs s) (readers s) b (positive s) (negative_ s) (clock s) (counts s) (sharing s) (learned s) (failures s).
Definition set_part (b : bool) (p : Partition) (s : Shard) : Shard :=
  mkShard (arcs s) (readers s) (buckets s) (if b then positive s else p) (if b then p else negative_ s)
    (clock s) (counts s) (sharing s) (learned s) (failures s).
Definition with_clock (n : Z) (s : Shard) : Shard :=
  mkShard (arcs s) (readers s) (buckets s) (positive s) (negative_ s) n (counts s) (sharing s) (learned s) (failures s).
Definition with_counts (c : Counts) (s : Shard) : Shard :=
  mkShard (arcs s) (readers s) (buckets s) (positive s) (negative_ s) (clock s) c (sharing s) (learned s) (failures s).
Definition with_sharing (t : Table) (s : Shard) : Shard :=
  mkShard (arcs s) (readers s) (buckets s) (positive s) (negative_ s) (clock s) (counts s) t (learned s) (failures s).
Definition with_gauges (l f : Z) (s : Shard) : Shard :=
  mkShard (arcs s) (readers s) (buckets s) (positive s) (negative_ s) (clock s) (counts s) (sharing s) l f.

(** What runs under a shard's lock: the shard and the cache's counters of
    settled refreshes. *)
Record View : Type := mkView { shard : Shard; useful : Z; unused : Z }.
Definition C (A : Type) : Type := M View unit A.
Definition modify (f : Shard → Shard) : C unit :=
  let* v := get in put (mkView (f (shard v)) (useful v) (unused v)).

(** [entry] as an iteration over a bucket or a list reads it. *)
Definition deref (s : Shard) (ids : list Arc) : list Entry := omap (λ id, arcs s !! id) ids.
Definition bucket (s : Shard) (k : Key) : list Entry := deref s (default [] (buckets s !! k)).

(** ** Selection *)
(** [max_by_key] returns the last of the greatest. *)
Fixpoint max_by {A} (le : A → A → bool) (l : list A) : option A :=
  match l with
  | [] => None
  | x :: l => Some (match max_by le l with Some y => if le x y then y else x | None => x end)
  end.
(** [min_by_key] returns the first of the least. *)
Fixpoint min_by {A} (f : A → Z) (l : list A) : option A :=
  match l with
  | [] => None
  | x :: l => Some (match min_by f l with Some y => if bool_decide (f x ≤ f y) then x else y | None => x end)
  end.
Definition rank_le (now : Z) (a b : Entry) : bool :=
  let fresh e := bool_decide (age now e < e_lifetime e) in
  let prefix e := scope_prefix_len (e_scope e) in
  match fresh a, fresh b with
  | false, true => true
  | true, false => false
  | _, _ => bool_decide (prefix a ≤ prefix b)
  end.
Definition usable (outgoing : option ClientSubnet) (now : Z) (allow_stale : bool) (e : Entry) : bool :=
  scope_matches (e_scope e) outgoing && bool_decide (age now e < e_retention e) &&
  (bool_decide (age now e < e_lifetime e) || allow_stale) && negb (allow_stale && is_failure e).
Definition select (s : Shard) (k : Key) (outgoing : option ClientSubnet) (now : Z) (allow_stale : bool) : option (bool * Z) :=
  (λ e, (e_negative e, e_id e)) <$>
    max_by (rank_le now) (filter (λ e, usable outgoing now allow_stale e = true) (bucket s k)).

(** ** Removal *)
(** The last [Arc] of an entry goes: [Entry::drop]. *)
Definition release (id : Arc) (s : Shard) : Shard :=
  if bool_decide (id ∈ readers s ∨ id ∈ keys (lru_iter (lru (positive s))) ∨ id ∈ keys (lru_iter (lru (negative_ s)))) then s
  else match arcs s !! id with
       | Some e =>
           let p := part (e_negative e) s in
           with_arcs (delete id (arcs s)) (set_part (e_negative e) (with_charged (charged p - e_charge e) p) s)
       | None => s
       end.
Definition unlink (id : Arc) (k : Key) (s : Shard) : Shard :=
  match buckets s !! k with
  | Some ids =>
      let ids := filter (λ i, i ≠ id) ids in
      with_buckets (if bool_decide (ids = []) then delete k (buckets s) else <[k := ids]> (buckets s)) s
  | None => s
  end.
(** [settle_refresh] reads and clears the flag. *)
Definition settle (id : Arc) (s : Shard) : Shard := with_arcs (alter (with_refreshed false) id (arcs s)) s.
Definition removed (b : bool) (l : Lru Z unit) (id : Arc) (e : Entry) (s : Shard) : Shard :=
  let s := settle id (set_part b (with_lru l (part b s)) s) in
  let s := with_gauges (learned s - Z.b2z (is_learned (e_scope e))) (failures s - Z.b2z (is_failure e)) s in
  release id (unlink id (e_key e) s).
Definition remove (b : bool) (id : Arc) : C unit :=
  let* v := get in
  let s := shard v in
  let (popped, l) := lru_pop id (lru (part b s)) in
  match popped with
  | Some _ =>
      let* e := expect (arcs s !! id) in
      put (mkView (removed b l id e s) (useful v) (unused v + Z.b2z (refreshed e)))
  | None => ret tt
  end.
Fixpoint remove_all (l : list (bool * Z)) : C unit :=
  match l with
  | [] => ret tt
  | (b, id) :: l => remove b id ;;; remove_all l
  end.
Definition eviction_state (now : Z) (e : Entry) : EvictionState :=
  if bool_decide (age now e < e_lifetime e) then Fresh_
  else if bool_decide (age now e < e_retention e) then Retained else Expired.
Definition evict (b : bool) (id : Arc) (now : Z) (reason : EvictionReason) : C unit :=
  let* v := get in
  let s := shard v in
  let p := part b s in
  let* _ := expect (lru_peek id (lru p)) in
  let* e := expect (arcs s !! id) in
  modify (λ s, with_counts (count_eviction (counts s))
                 (set_part b (with_evictions (record_eviction reason (eviction_state now e) (evictions p)) p) s));;;
  remove b id.
Definition prune (k : Key) (now : Z) : C unit :=
  let* v := get in
  remove_all ((λ e, (e_negative e, e_id e)) <$> filter (λ e, e_retention e ≤ age now e) (bucket (shard v) k)).

(** ** Lookup, under the lock *)
Definition hold (id : Arc) (s : Shard) : Shard := with_readers (id :: readers s) s.
Definition lookup_locked (k : Key) (outgoing : option ClientSubnet) (now : Z) (allow_stale observe : bool) : C (option Arc) :=
  let* v := get in
  let s := shard v in
  match select s k outgoing now allow_stale with
  | None =>
      if observe then
        prune k now;;;
        (if allow_stale then ret tt else modify (λ s, with_counts (count_miss (counts s)) s));;;
        ret None
      else ret None
  | Some (b, id) =>
      if (observe : bool) then
        let (found, l) := lru_get id (lru (part b s)) in
        let* _ := expect found in
        let* e := expect (arcs s !! id) in
        let fresh := bool_decide (age now e < e_lifetime e) in
        let clock' := clock s + 1 in
        let e' := with_refreshed false (with_accessed clock' e) in
        let s := with_arcs (<[id := e']> (arcs s)) (set_part b (with_lru l (part b s)) (with_clock clock' s)) in
        let s := with_counts (count_hit fresh (is_learned (e_scope e)) (is_failure e) (counts s)) s in
        put (mkView (hold id s) (useful v + Z.b2z (refreshed e && fresh)) (unused v + Z.b2z (refreshed e && negb fresh)));;;
        ret (Some id)
      else
        let* _ := expect (lru_peek id (lru (part b s))) in
        modify (hold id);;;
        ret (Some id)
  end.
(** [entry.hits.fetch_add(1) + 1], outside the lock. *)
Definition bump_hits (id : Arc) : C Z :=
  let* v := get in
  let* e := expect (arcs (shard v) !! id) in
  modify (λ s, with_arcs (<[id := with_hits (hits e + 1) e]> (arcs s)) s);;;
  ret (hits e + 1).
(** A reader drops its [Arc]. *)
Fixpoint remove_one (id : Z) (l : list Z) : list Z :=
  match l with
  | [] => []
  | x :: l => if bool_decide (x = id) then l else x :: remove_one id l
  end.
Definition drop_reader (id : Arc) (s : Shard) : Shard := release id (with_readers (remove_one id (readers s)) s).

(** ** Admission, under the lock *)
Record Stored : Type := mkStored {
  st_wire : list Z;
  st_scope : Scope;
  st_lifetime : Z;
  st_retention : Z;
  st_negative : bool;
  st_failure : option Failure;
  st_prefetch : bool;
  st_refreshed : bool;
  st_accessed : option Z;
}.
Definition charge (wire : list Z) (k : Key) : Z :=
  Z.of_nat (length wire) + name_len (k_name k) + size_of_entry + size_of_key + 192.

Definition limit_reason (entry_limit byte_limit : bool) : EvictionReason :=
  match entry_limit, byte_limit with true, true => EntriesAndBytes | true, false => Entries | _, _ => Bytes end.
(** One turn of the eviction loop; [inr] says whether there is room. *)
Definition room_step (b : bool) (ch now : Z) (_ : unit) : C (unit + bool) :=
  let* v := get in
  let p := part b (shard v) in
  let entry_limit := bool_decide (p_max_entries p ≤ lru_len (lru p))%nat in
  let byte_limit := bool_decide (p_max_bytes p < charged p + ch) in
  if negb entry_limit && negb byte_limit then ret (inr true) else
  match lru_peek_lru (lru p) with
  | None => ret (inr false)
  | Some (id, _) => evict b id now (limit_reason entry_limit byte_limit);;; ret (inl tt)
  end.
Definition make_room (b : bool) (ch now : Z) : C bool :=
  let* v := get in
  loop (S (lru_len (lru (part b (shard v))))) (room_step b ch now) tt.
(** [inr] of the victim's partition and id when the key has too many variants. *)
Definition variant_victim (max_variants : nat) (k : Key) (negative : bool) (s : Shard) : option (unit + Entry) :=
  match buckets s !! k with
  | Some ids =>
      if bool_decide (max_variants ≤ length ids)%nat
      then Some (match min_by accessed (filter (λ e, e_negative e = negative) (deref s ids)) with
                 | Some e => inr e
                 | None => inl tt
                 end)
      else None
  | None => None
  end.
Definition publish (k : Key) (st : Stored) (ch now : Z) (s : Shard) : Shard :=
  let id := clock s + 1 in
  let b := st_negative st in
  let p := part b s in
  let e := mkEntry id k (st_wire st) (st_scope st) now (st_lifetime st) (st_retention st) b (st_failure st)
             (st_prefetch st) (st_refreshed st) 0 (default id (st_accessed st)) ch in
  let l := lru_put id tt (lru p) in
  let l := match st_accessed st with Some _ => lru_demote id l | None => l end in
  mkShard (<[id := e]> (arcs s)) (readers s) (<[k := default [] (buckets s !! k) ++ [id]]> (buckets s))
    (if b then positive s else with_lru l (with_charged (charged p + ch) p))
    (if b then with_lru l (with_charged (charged p + ch) p) else negative_ s)
    id (counts s) (sharing s) (learned s + Z.b2z (is_learned (st_scope st)))
    (failures s + Z.b2z (bool_decide (is_Some (st_failure st)))).
Definition reject (reason : DecisionReason) (superseded : bool) : C StoreDecision :=
  modify (λ s, with_counts (count_rejection 1 (counts s)) s);;; ret (rejected reason superseded).
Definition place (config : CacheConfig) (k : Key) (st : Stored) (now : Z) (superseded : bool) : C StoreDecision :=
  let ch := charge (st_wire st) k in
  let b := st_negative st in
  let* v := get in
  let p := part b (shard v) in
  if bool_decide (p_max_bytes p < ch) || bool_decide (p_max_entries p = O) then reject Capacity superseded else
  let publish_ :=
    let* room := make_room b ch now in
    if (room : bool)
    then modify (publish k st ch now);;;
         ret (mkStoreDecision (if superseded then Replaced else Admission) None)
    else reject Capacity superseded in
  match variant_victim (max_variants config) k b (shard v) with
  | None => publish_
  | Some (inl _) => reject VariantLimit superseded
  | Some (inr e) => evict (e_negative e) (e_id e) now Variants;;; publish_
  end.
End store.
