(* ===== verification/Cache.v ===== *)
(** * The cache

    [Cache] of [src/cache.rs]: shards behind locks, lookup, admission of answers
    and failures, invalidation, and the read-only reports. The lock of a shard
    makes what runs under it one step; [invalidate] holds every lock. *)
From S2P Require Import Prelude Net Std Names Lru Dns Ecs Wire Protocol CacheData Sharing CacheStore.
Set Default Goal Selector "!".
Set Warnings "-rewrite-rw".
Local Open Scope Z_scope.
Local Open Scope rust_scope.

(** ** Data *)
Record Restore : Type := mkRestore { r_remaining : Z; r_accessed : Z }.
Inductive Origin : Type := Answer | Refresh | Restored (r : Restore).
Definition restore_of (o : Origin) : option Restore := match o with Restored r => Some r | _ => None end.

Section cache.
Context `{MessageLib} `{!DnsNames} `{IpNetLib} `{LruLib} `{!Layout} `{!RDataLib} `{!Sha256Lib} `{!DecoderLib}.

Record Hit : Type := mkHit {
  h_message : Message;
  h_scope : Scope;
  h_stale : bool;
  h_refresh : bool;
  h_authentic : bool;
  h_failure : option Failure;
}.
Record LookupResult : Type := mkLookupResult { r_hit : option Hit; r_decision : LookupDecision }.
Definition empty_result (o : LookupOutcome) (r : option DecisionReason) : LookupResult :=
  mkLookupResult None (mkLookupDecision o r).
(** [hash_one] is the cache's seeded hasher. *)
Record Cache : Type := mkCache {
  config : CacheConfig;
  shards : list Shard;
  hash_one : Key → Z;
  rules : list CompiledRule;
  epoch : Z;
  bypasses : Z;
  refresh_useful : Z;
  refresh_unused : Z;
  diagnostics : Diagnostics;
}.
Definition with_shards (s : list Shard) (c : Cache) : Cache :=
  mkCache (config c) s (hash_one c) (rules c) (epoch c) (bypasses c) (refresh_useful c) (refresh_unused c) (diagnostics c).
Definition with_epoch (n : Z) (c : Cache) : Cache :=
  mkCache (config c) (shards c) (hash_one c) (rules c) n (bypasses c) (refresh_useful c) (refresh_unused c) (diagnostics c).
Definition with_bypasses (n : Z) (c : Cache) : Cache :=
  mkCache (config c) (shards c) (hash_one c) (rules c) (epoch c) n (refresh_useful c) (refresh_unused c) (diagnostics c).
Definition with_outcomes (u n : Z) (c : Cache) : Cache :=
  mkCache (config c) (shards c) (hash_one c) (rules c) (epoch c) (bypasses c) u n (diagnostics c).
Definition with_diagnostics (d : Diagnostics) (c : Cache) : Cache :=
  mkCache (config c) (shards c) (hash_one c) (rules c) (epoch c) (bypasses c) (refresh_useful c) (refresh_unused c) d.

Definition CM (A : Type) : Type := M Cache unit A.
Definition modify_cache (f : Cache → Cache) : CM unit := let* c := get in put (f c).

(** ** Construction *)
(** [total / count + usize::from(i < total % count)] *)
Definition portion (count total i : nat) : nat := (total / count + if bool_decide (i < total mod count) then 1 else 0)%nat.
Definition negative_entries (cfg : CacheConfig) : nat := (max_entries cfg * negative_percent cfg / 100)%nat.
Definition positive_entries (cfg : CacheConfig) : nat := (max_entries cfg - negative_entries cfg)%nat.
Definition negative_bytes (cfg : CacheConfig) : nat :=
  if bool_decide (negative_entries cfg = O) then O else (Z.to_nat (max_bytes cfg) * negative_percent cfg / 100)%nat.
Definition positive_bytes (cfg : CacheConfig) : nat := (Z.to_nat (max_bytes cfg) - negative_bytes cfg)%nat.
(** [None] stands for [usize::MAX]. *)
Definition min_opt (n : nat) (o : option nat) : nat := match o with Some m => (n `min` m)%nat | None => n end.
Definition shard_count (cfg : CacheConfig) : nat :=
  let n := c_shards cfg in
  let n := (n `min` (positive_entries cfg `max` 1))%nat in
  let n := min_opt n (if bool_decide (negative_entries cfg = O) then None else Some (negative_entries cfg)) in
  let n := (n `min` ((positive_bytes cfg / 1024) `max` 1))%nat in
  let n := min_opt n (if bool_decide (negative_entries cfg = O) then None else Some ((negative_bytes cfg / 1024) `max` 1)%nat) in
  (n `max` 1)%nat.
Definition shard_new (cfg : CacheConfig) (count : nat) (i : nat) : option Shard :=
  cap ← capacity (Z.of_nat (max_entries cfg)) (Z.of_nat count);
  Some (mkShard ∅ [] ∅
    (partition_new (portion count (positive_entries cfg) i) (Z.of_nat (portion count (positive_bytes cfg) i)))
    (partition_new (portion count (negative_entries cfg) i) (Z.of_nat (portion count (negative_bytes cfg) i)))
    0 counts_default (table_new (Z.to_nat cap)) 0 0).
Definition cache_new `{!NameParse} (cfg : CacheConfig) (hash : Key → Z) : option Cache :=
  let count := shard_count cfg in
  ss ← mapM (shard_new cfg count) (seq 0 count);
  rs ← compile_rules (c_rules cfg);
  Some (mkCache cfg ss hash rs 0 0 0 0 diagnostics_default).

(** ** Locking *)
(** [self.shards[self.shard(&key)].lock()]; no holder of a lock panics. *)
Definition shard_index (c : Cache) (k : Key) : option nat :=
  if bool_decide (shards c = []) then None else Some (Z.to_nat ((hash_one c k) mod (Z.of_nat (length (shards c))))).
Definition locked {A} (i : nat) (m : C A) : CM A := λ c,
  match shards c !! i with
  | Some s =>
      let (r, v) := m (mkView s (refresh_useful c) (refresh_unused c)) in
      (r, with_outcomes (useful v) (unused v) (with_shards (<[i := shard v]> (shards c)) c))
  | None => (Panic, c)
  end.
Definition lock {A} (k : Key) (m : C A) : CM A :=
  let* c := get in
  let* i := expect (shard_index c k) in
  locked i m.
Definition key_of (query : Message) : CM (Query * option Key) :=
  let* question := expect (queries query !! 0%nat) in
  ret (question, key_of_query question query).

(** ** Lookup *)
(** What follows the locked part: [e] is the entry as the reader sees it. *)
Definition refresh_due (cfg : CacheConfig) (e : Entry) (hits now : Z) : bool :=
  let stale := bool_decide (e_lifetime e ≤ age now e) in
  negb stale && negb (e_negative e) && e_prefetch e && bool_decide (min_hits (prefetch cfg) ≤ hits) &&
  bool_decide (Z.max 0 (e_lifetime e - age now e) / 1000000 * 100 ≤
               e_lifetime e / 1000000 * remaining_percent (prefetch cfg)).
Definition reply_ttl (cfg : CacheConfig) (stale : bool) (elapsed : Z) (rr : Rr) : Rr :=
  with_ttl (if stale then reply_ttl_secs (CacheData.stale cfg) else saturating_sub (rr_ttl rr) elapsed) rr.
Definition reply_message (cfg : CacheConfig) (query : Message) (e : Entry) (now : Z) (m : Message) : Message :=
  let stale := bool_decide (e_lifetime e ≤ age now e) in
  let elapsed := Z.min (age now e / 1000000000) u32_max in
  let m := map_records (reply_ttl cfg stale elapsed) m in
  let m := with_queries (queries query) (with_authentic false (with_id (id query) m)) in
  match reply_edns query with
  | Some response_edns =>
      with_edns (Some (if is_failure e then insert_options (extended_errors m) response_edns else response_edns)) m
  | None => m
  end.
Definition finish_lookup (cfg : CacheConfig) (query : Message) (now : Z) (e : Entry) (hits : Z) : M unit unit LookupResult := λ u,
  let stale := bool_decide (e_lifetime e ≤ age now e) in
  match decode (e_wire e) u with
  | (Ok m, _) =>
      (Ok (mkLookupResult
        (Some (mkHit (reply_message cfg query e now m) (e_scope e) stale (refresh_due cfg e hits now)
                 (authentic_data m && negb stale) (e_failure e)))
        (mkLookupDecision (if stale then Stale else Fresh) None)), u)
  | (Err _, _) => (Ok (empty_result Bypass (Some UncacheableResponse)), u)
  | (Panic, _) => (Panic, u)
  | (Diverge, _) => (Diverge, u)
  end.
Definition lifted {A} (m : M unit unit A) : CM A := λ c, ((m tt).1, c).
Definition lookup_inner (query : Message) (outgoing : option ClientSubnet) (now : Z) (allow_stale observe : bool) : CM LookupResult :=
  let bypassed r := (if observe && negb allow_stale then modify_cache (λ c, with_bypasses (bypasses c + 1) c) else ret tt);;; ret r in
  let* (question, key) := key_of query in
  match key with
  | None => bypassed (empty_result Bypass (Some (query_rejection query)))
  | Some key =>
      let* c := get in
      if bypass (policy (config c) (rules c) key (q_name question))
      then bypassed (empty_result (if c_enabled (config c) then Bypass else Disabled) (Some PolicyDisabled))
      else
        let* id := lock key (lookup_locked key outgoing now allow_stale observe) in
        match id with
        | None => ret (empty_result Miss None)
        | Some id =>
            let* hits := (if (observe : bool) then lock key (bump_hits id)
                          else lock key (let* v := get in let* e := expect (arcs (shard v) !! id) in ret (hits e))) in
            let* e := lock key (let* v := get in expect (arcs (shard v) !! id)) in
            let* r := lifted (finish_lookup (config c) query now e hits) in
            lock key (modify (drop_reader id));;;
            ret r
        end
  end.
Definition lookup_with_decision (query : Message) (outgoing : option ClientSubnet) (now : Z) (allow_stale : bool) : CM LookupResult :=
  let* r := lookup_inner query outgoing now allow_stale true in
  modify_cache (λ c, with_diagnostics (count_lookup (r_decision r) (diagnostics c)) c);;;
  ret r.
Definition peek (query : Message) (outgoing : option ClientSubnet) (now : Z) (allow_stale : bool) : CM (option Hit) :=
  let* r := lookup_inner query outgoing now allow_stale false in ret (r_hit r).

(** ** Admission of answers *)
Definition prepared (question : Query) (response : Message) (p : Policy) (restore : option Restore) : D (list Z * Z * bool) :=
  let* (stored, lifetime, negative) := prepare_response question response p in
  let lifetime := match restore with Some r => Z.min lifetime (r_remaining r) | None => lifetime end in
  if bool_decide (lifetime = 0) then fail TtlZero else
  let* wire := ok_or UncacheableResponse (to_vec stored) in
  ret (wire, lifetime, negative).
(** The [Result] of a computation, as a value. *)
Definition attempt {A} (m : D A) : CM (DecisionReason + A) := λ c,
  match m tt with
  | (Ok a, _) => (Ok (inr a), c)
  | (Err e, _) => (Ok (inl e), c)
  | (Panic, _) => (Panic, c)
  | (Diverge, _) => (Diverge, c)
  end.
Definition classify (cfg : CacheConfig) (k : Key) (scope : Scope) (fp : option Fingerprint) (lifetime : option Z) (now : Z) : C Scope :=
  let* o := zoom (λ v, sharing (shard v)) (λ t v, mkView (with_sharing t (shard v)) (useful v) (unused v))
              (observe k scope fp lifetime now (ecs_sharing cfg)) in
  modify (λ s, with_counts (count_revocation (Z.b2z (o_revoked o)) (counts s)) s);;;
  ret (o_scope o).
(** A restored record needs room and must not touch live knowledge. *)
Definition restore_refused (cfg : CacheConfig) (k : Key) (wire : list Z) (negative : bool) (scope : Scope) (s : Shard) : bool :=
  let p := part negative s in
  bool_decide (p_max_entries p ≤ lru_len (lru p))%nat ||
  bool_decide (p_max_bytes p < saturating_add usize_max (charged p) (charge wire k)) ||
  match buckets s !! k with
  | Some ids => bool_decide (max_variants cfg ≤ length ids)%nat ||
                existsb (λ e, scopes_overlap (e_scope e) scope) (deref s ids)
  | None => false
  end.
Definition overlapping (s : Shard) (k : Key) (scope : Scope) : list Entry :=
  filter (λ e, scopes_overlap (e_scope e) scope = true) (bucket s k).
Definition admit_locked (cfg : CacheConfig) (k : Key) (p : Policy) (scope : Scope) (fp : option Fingerprint)
    (prep : DecisionReason + (list Z * Z * bool)) (now : Z) (origin : Origin) : C StoreDecision :=
  let restore := restore_of origin in
  prune k now;;;
  let* scope :=
    (if es_enabled (ecs_sharing cfg) && bool_decide (restore = None)
     then classify cfg k scope fp (match prep with inr (_, lifetime, _) => Some (secs lifetime) | inl _ => None end) now
     else ret scope) in
  let* v := get in
  let refused := match restore, prep with
                 | Some _, inl r => Some r
                 | Some _, inr (wire, _, negative) =>
                     if restore_refused cfg k wire negative scope (shard v) then Some Capacity else None
                 | None, _ => None
                 end in
  match refused with
  | Some r => ret (skipped r)
  | None =>
      let replaced := (λ e, (e_negative e, e_id e)) <$> overlapping (shard v) k scope in
      let superseded := bool_decide (replaced ≠ []) in
      remove_all replaced;;;
      match prep with
      | inl r => ret (rejected r superseded)
      | inr (wire, lifetime, negative) =>
          let lifetime := secs lifetime in
          let retention := if p_stale p && negb negative then lifetime + secs (retention_secs (CacheData.stale cfg)) else lifetime in
          place cfg k (mkStored wire scope lifetime retention negative None (p_prefetch p)
                         (match origin with Refresh => true | _ => false end) (r_accessed <$> restore)) now superseded
      end
  end.
(** The epoch is read under the lock. *)
Definition epoch_locked {A} (k : Key) (e : Z) (stale_ : C A) (fresh : CacheConfig → C A) : CM A :=
  let* c := get in
  lock k (if bool_decide (e ≠ epoch c) then stale_ else fresh (config c)).
Definition admit_ (query response : Message) (scope : Scope) (now e : Z) (origin : Origin) : CM StoreDecision :=
  let restore := restore_of origin in
  let* (question, key) := key_of query in
  match key with
  | None => ret (skipped (query_rejection query))
  | Some key =>
      let* c := get in
      let p := policy (config c) (rules c) key (q_name question) in
      if bypass p then ret (skipped PolicyDisabled) else
      if negb (superseding_edns response) then ret (skipped UnsupportedEdns) else
      if truncation response || bool_decide (is_Some (signature response)) ||
         negb (bool_decide (response_code response = NoError ∨ response_code response = NXDomain))
      then ret (skipped UncacheableResponse) else
      let* prep := attempt (prepared question response p restore) in
      let learning := es_enabled (ecs_sharing (config c)) && bool_decide (restore = None) in
      let fp := if learning && match scope with ExactSource _ => true | _ => false end
                then fingerprint question response else None in
      epoch_locked key e
        (modify (λ s, with_counts (count_rejection (Z.b2z (bool_decide (restore = None))) (counts s)) s);;;
         ret (skipped EpochChanged))
        (λ cfg, admit_locked cfg key p scope fp prep now origin)
  end.
Definition counted (m : CM StoreDecision) : CM StoreDecision :=
  let* d := m in
  modify_cache (λ c, with_diagnostics (count_store d (diagnostics c)) c);;;
  ret d.
Definition insert_decision_if_epoch (query response : Message) (scope : Scope) (now e : Z) : CM StoreDecision :=
  counted (admit_ query response scope now e Answer).
Definition insert_refresh_if_epoch (query response : Message) (scope : Scope) (now e : Z) : CM StoreDecision :=
  counted (admit_ query response scope now e Refresh).
Definition record_unusable_scope : CM StoreDecision := counted (ret (skipped EcsUnusable)).

(** ** Admission of failures *)
Definition failure_message (query response : Message) : Message :=
  let stored := error_response query ServFail in
  match extended_errors response with
  | [] => stored
  | errors =>
      let e := match edns stored with Some e => e | None => set_max_payload MAX_UDP_PAYLOAD edns_new end in
      with_edns (Some (insert_options errors e)) stored
  end.
Definition admit_failure_locked (cfg : CacheConfig) (k : Key) (scope : Scope) (wire : list Z) (lifetime now : Z) (f : Failure) : C StoreDecision :=
  prune k now;;;
  let* v := get in
  let over := overlapping (shard v) k scope in
  if existsb (λ e, negb (is_failure e) && bool_decide (age now e < e_lifetime e)) over
  then ret (skipped UncacheableResponse) else
  let replaced := (λ e, (true, e_id e)) <$> filter (λ e, is_failure e = true) over in
  let superseded := bool_decide (replaced ≠ []) in
  remove_all replaced;;;
  place cfg k (mkStored wire scope (secs lifetime) (secs lifetime) true (Some f) false false None) now superseded.
Definition admit_failure (query response : Message) (scope : Scope) (now e : Z) (f : Failure) : CM StoreDecision :=
  let* (question, key) := key_of query in
  match key with
  | None => ret (skipped (query_rejection query))
  | Some key =>
      let* c := get in
      let p := policy (config c) (rules c) key (q_name question) in
      if bypass p then ret (skipped PolicyDisabled) else
      let lifetime := Z.min (servfail_ttl_secs (config c)) (p_negative_cap p) in
      if bool_decide (response_code response ≠ ServFail) || truncation response ||
         bool_decide (is_Some (signature response)) || negb (superseding_edns response) || bool_decide (lifetime = 0)
      then ret (skipped UncacheableResponse) else
      match to_vec (failure_message query response) with
      | None => ret (skipped UncacheableResponse)
      | Some wire =>
          epoch_locked key e
            (modify (λ s, with_counts (count_rejection 1 (counts s)) s);;; ret (skipped EpochChanged))
            (λ cfg, admit_failure_locked cfg key scope wire lifetime now f)
      end
  end.
Definition insert_failure_if_epoch (query response : Message) (scope : Scope) (now e : Z) (f : Failure) : CM StoreDecision :=
  counted (admit_failure query response scope now e f).

(** ** Invalidation *)
Definition entry_matches (name : option Name) (kind : option Z) (scope : option Scope) (e : Entry) : bool :=
  match name with Some n => name_eq (k_name (e_key e)) n | None => true end &&
  match kind with Some k => bool_decide (k_kind (e_key e) = k) | None => true end &&
  match scope with Some s => bool_decide (e_scope e = s) || learned_serves (e_scope e) s | None => true end.
Definition matches (name : option Name) (kind : option Z) (scope : option Scope) (s : Shard) : list (bool * Z) :=
  let in_part b := (λ e, (b, e_id e)) <$>
                filter (λ e, entry_matches name kind scope e = true) (deref s (keys (lru_iter (lru (part b s))))) in
  in_part false ++ in_part true.
Definition invalidate_shard (name : option Name) (kind : option Z) (scope : option Scope) : C Z :=
  let* v := get in
  let ms := matches name kind scope (shard v) in
  remove_all ms;;;
  modify (λ s, with_sharing (sharing_invalidate name kind scope (sharing s)) s);;;
  ret (Z.of_nat (length ms)).
Fixpoint invalidate_from (n i : nat) (name : option Name) (kind : option Z) (scope : option Scope) : CM Z :=
  match n with
  | O => ret 0
  | S n =>
      let* removed := locked i (invalidate_shard name kind scope) in
      let* rest := invalidate_from n (S i) name kind scope in
      ret (removed + rest)
  end.
Definition invalidate (name : option Name) (kind : option Z) (scope : option Scope) : CM Z :=
  let name := key_name <$> name in
  modify_cache (λ c, with_epoch (epoch c + 1) c);;;
  let* c := get in
  invalidate_from (length (shards c)) 0 name kind scope.
End cache.
