(* ===== verification/CacheInv.v ===== *)
(** * The invariant of a shard

    What the heap, the buckets, the LRU lists and the gauges of a shard say of
    each other, and that every operation under the lock keeps it. *)
From S2P Require Import Prelude Net Std Names Lru Dns Ecs Wire Protocol CacheData Sharing CacheStore.
Set Default Goal Selector "!".
Set Warnings "-rewrite-rw".
Local Open Scope Z_scope.
Local Open Scope rust_scope.

(** ** Sums over the heap *)
Definition total {A} (f : A → Z) (m : gmap Z A) : Z := map_fold (λ _ e a, f e + a) 0 m.
Lemma total_insert {A} (f : A → Z) m i e : m !! i = None → total f (<[i := e]> m) = f e + total f m.
Proof. intros Hi. unfold total. rewrite map_fold_insert_L //. intros. lia. Qed.
Lemma total_delete {A} (f : A → Z) m i e : m !! i = Some e → total f m = f e + total f (delete i m).
Proof. intros Hi. unfold total. rewrite (map_fold_delete_L _ _ i e) //. intros. lia. Qed.
Lemma total_nonneg {A} (f : A → Z) m : (∀ i e, m !! i = Some e → 0 ≤ f e) → 0 ≤ total f m.
Proof.
  induction m as [|i e m Hi _ IH] using map_first_key_ind; intros Hf; [done|]. rewrite total_insert //.
  pose proof (Hf i e (lookup_insert_eq _ _ _)).
  assert (0 ≤ total f m); [|lia]. apply IH. intros j e' Hj. apply (Hf j). rewrite lookup_insert_ne //. congruence.
Qed.

Lemma filter_and_ne (l : list Z) id : id ∉ l → filter (λ i, i ≠ id) l = l.
Proof. intros Hn. apply filter_all, Forall_forall. intros x Hx ->. done. Qed.

(** ** The parts of a shard *)
Section invariant.
Context `{MessageLib} `{!DnsNames} `{IpNetLib} `{LruLib} `{!LruSpec _} `{!Layout}.
Implicit Types (s : Shard) (e : Entry) (k : Key).

(** The fields that never change. *)
Definition norm e : Entry := with_refreshed false (with_hits 0 (with_accessed 0 e)).
Definition heap s : gmap Z Entry := norm <$> arcs s.
Definition resident (b : bool) s : list Z := keys (lru_iter (lru (part b s))).
Definition live s (id : Z) : Prop := id ∈ resident false s ∨ id ∈ resident true s.
#[export] Instance live_dec s id : Decision (live s id).
Proof. unfold live. apply _. Defined.
Definition ids s k : list Z := default [] (buckets s !! k).
Definition live_heap s : gmap Z Entry := filter (λ p, live s p.1) (heap s).
Definition charge_in (b : bool) e : Z := if Bool.eqb (e_negative e) b then e_charge e else 0.

(** Entries of one key that overlap: only a failure may stand beside an answer. *)
Definition compatible (a b : Entry) : Prop :=
  e_key a = e_key b → scopes_overlap (e_scope a) (e_scope b) = true → is_failure a = negb (is_failure b).
Record entry_ok (clock : Z) (id : Z) (e : Entry) : Prop := {
  eo_id : e_id e = id;
  eo_clock : 0 < id ≤ clock;
  eo_charge : 0 ≤ e_charge e;
  eo_failure : is_failure e = true → e_negative e = true ∧ e_retention e = e_lifetime e;
  eo_times : 0 < e_lifetime e ≤ e_retention e;
  eo_wire : octets (e_wire e);
}.
Record shard_ok (variants : nat) s : Prop := {
  so_entry id e : heap s !! id = Some e → entry_ok (clock s) id e;
  so_heap id : is_Some (heap s !! id) ↔ live s id ∨ id ∈ readers s;
  so_part b id e : id ∈ resident b s → heap s !! id = Some e → e_negative e = b;
  so_bucket k id : id ∈ ids s k ↔ ∃ e, live s id ∧ heap s !! id = Some e ∧ e_key e = k;
  so_ids k : NoDup (ids s k);
  so_nonempty k : buckets s !! k ≠ Some [];
  so_variants k : (length (ids s k) ≤ Nat.max 1 variants)%nat;
  so_compatible i j a b : i ≠ j → live_heap s !! i = Some a → live_heap s !! j = Some b → compatible a b;
  so_charged b : charged (part b s) = total (charge_in b) (heap s);
  so_bytes b : charged (part b s) ≤ p_max_bytes (part b s);
  so_entries b : (length (resident b s) ≤ p_max_entries (part b s))%nat;
  so_learned : learned s = total (λ e, Z.b2z (is_learned (e_scope e))) (live_heap s);
  so_failures : failures s = total (λ e, Z.b2z (is_failure e)) (live_heap s);
  so_clock : 0 ≤ clock s;
}.

Lemma heap_Some s id e : heap s !! id = Some e → ∃ e', arcs s !! id = Some e' ∧ norm e' = e.
Proof. unfold heap. rewrite lookup_fmap. intros (e' & ? & ->)%fmap_Some. by exists e'. Qed.
Lemma arcs_heap s id e : arcs s !! id = Some e → heap s !! id = Some (norm e).
Proof. unfold heap. rewrite lookup_fmap. by intros ->. Qed.
Lemma live_heap_Some s id e : live_heap s !! id = Some e ↔ heap s !! id = Some e ∧ live s id.
Proof. unfold live_heap. rewrite map_lookup_filter_Some. done. Qed.
Lemma resident_NoDup b s : NoDup (resident b s).
Proof. apply iter_keys. Qed.

(** The invariant reads the shard through these parts only. *)
Record same_parts s s' : Prop := {
  sp_heap : heap s' = heap s;
  sp_resident b : resident b s' ≡ₚ resident b s;
  sp_readers : ∀ id, id ∈ readers s' ↔ id ∈ readers s;
  sp_buckets : buckets s' = buckets s;
  sp_clock : clock s ≤ clock s';
  sp_charged b : charged (part b s') = charged (part b s);
  sp_bytes b : p_max_bytes (part b s') = p_max_bytes (part b s);
  sp_entries b : p_max_entries (part b s') = p_max_entries (part b s);
  sp_learned : learned s' = learned s;
  sp_failures : failures s' = failures s;
}.
Lemma same_live s s' id : same_parts s s' → live s' id ↔ live s id.
Proof. intros Hp. unfold live. by rewrite !(sp_resident _ _ Hp). Qed.
Lemma same_live_heap s s' : same_parts s s' → live_heap s' = live_heap s.
Proof.
  intros Hp. unfold live_heap. rewrite (sp_heap _ _ Hp). apply map_filter_ext. intros i e _. by apply same_live.
Qed.
Lemma entry_ok_mono n n' id e : n ≤ n' → entry_ok n id e → entry_ok n' id e.
Proof. intros Hle [Hid Hc Hch Hf Ht Hw]. split; try done. lia. Qed.
Lemma shard_ok_same variants s s' : same_parts s s' → shard_ok variants s → shard_ok variants s'.
Proof.
  intros Hp [He Hh Hpa Hb Hi Hne Hv Hco Hch Hby Hen Hl Hf Hcl].
  assert (∀ k, ids s' k = ids s k) as Hids by (intros k; unfold ids; by rewrite (sp_buckets _ _ Hp)).
  pose proof (same_live_heap _ _ Hp) as Hlh. pose proof Hp as [Hheap Hres Hrd Hbu Hck Hcg Hmb Hme Hle Hfe].
  split; intros *; rewrite ?Hheap ?Hids ?Hbu ?Hcg ?Hmb ?Hme ?Hle ?Hfe ?Hlh; auto.
  - intros Hin. by eapply entry_ok_mono, He.
  - rewrite Hh (same_live _ _ _ Hp) Hrd. done.
  - rewrite Hres. apply Hpa.
  - rewrite Hb. setoid_rewrite (same_live _ _ _ Hp). done.
  - apply Hco.
  - rewrite (Permutation_length (Hres b)). apply Hen.
  - lia.
Qed.

(** The limits of a shard never change. *)
Definition kept s s' : Prop :=
  ∀ b, p_max_entries (part b s') = p_max_entries (part b s) ∧ p_max_bytes (part b s') = p_max_bytes (part b s).
Lemma kept_trans s1 s2 s3 : kept s1 s2 → kept s2 s3 → kept s1 s3.
Proof. intros H12 H23 b. destruct (H12 b) as [<- <-]. apply H23. Qed.
Lemma same_kept s s' : same_parts s s' → kept s s'.
Proof. intros Hp b. by rewrite (sp_entries _ _ Hp) (sp_bytes _ _ Hp). Qed.

(** ** Setters *)
Lemma part_set_part b b' p s : part b (set_part b' p s) = if Bool.eqb b b' then p else part b s.
Proof. by destruct b, b'. Qed.
Lemma resident_set_charged b b' n s : resident b (set_part b' (with_charged n (part b' s)) s) = resident b s.
Proof. unfold resident. rewrite part_set_part. by destruct b, b'. Qed.
Lemma norm_refreshed x e : norm (with_refreshed x e) = norm e.
Proof. done. Qed.

(** ** Removing entries *)
(** [s'] is [s] without the entries [gone]; readers may still hold them. *)
Record shrunk (gone : list Z) s s' : Prop := {
  sh_resident b : resident b s' = filter (λ i, i ∉ gone) (resident b s);
  sh_ids k : ids s' k = filter (λ i, i ∉ gone) (ids s k);
  sh_arcs id : id ∉ gone → arcs s' !! id = arcs s !! id;
  sh_heap : heap s' ⊆ heap s;
  sh_readers : readers s' = readers s;
  sh_clock : clock s' = clock s;
  sh_sharing : sharing s' = sharing s;
  sh_charged b : charged (part b s') ≤ charged (part b s);
  sh_bytes b : p_max_bytes (part b s') = p_max_bytes (part b s);
  sh_entries b : p_max_entries (part b s') = p_max_entries (part b s);
}.
Lemma shrunk_kept gone s s' : shrunk gone s s' → kept s s'.
Proof. intros Hs b. by rewrite (sh_entries _ _ _ Hs) (sh_bytes _ _ _ Hs). Qed.
Lemma shrunk_live gone s s' id : shrunk gone s s' → live s' id ↔ live s id ∧ id ∉ gone.
Proof. intros Hs. unfold live. rewrite !(sh_resident _ _ _ Hs) !list_elem_of_filter. naive_solver. Qed.
Lemma filter_notin_nil (l : list Z) : filter (λ i, i ∉ []) l = l.
Proof. apply filter_all, Forall_forall. intros x _. apply not_elem_of_nil. Qed.
Lemma shrunk_refl s : shrunk [] s s.
Proof. split; try done; intros; by rewrite filter_notin_nil. Qed.
Lemma filter_notin_app (l d d' : list Z) : filter (λ i, i ∉ d') (filter (λ i, i ∉ d) l) = filter (λ i, i ∉ d ++ d') l.
Proof. rewrite list_filter_filter. apply list_filter_iff. intros x. rewrite elem_of_app. naive_solver. Qed.
Lemma shrunk_trans d d' s1 s2 s3 : shrunk d s1 s2 → shrunk d' s2 s3 → shrunk (d ++ d') s1 s3.
Proof.
  intros [Hr Hi Ha Hh Hrd Hc Hs Hch Hb He] [Hr' Hi' Ha' Hh' Hrd' Hc' Hs' Hch' Hb' He'].
  split; try congruence.
  - intros b. by rewrite Hr' Hr filter_notin_app.
  - intros k. by rewrite Hi' Hi filter_notin_app.
  - intros id. rewrite elem_of_app. intros Hn. rewrite Ha'; [apply Ha|]; naive_solver.
  - by etrans.
  - intros b. specialize (Hch b). specialize (Hch' b). lia.
Qed.

Section removed.
Context (variants : nat) (s : Shard) (b : bool) (l : Lru Z unit) (id : Z) (e : Entry).
Hypothesis Hok : shard_ok variants s.
Hypothesis Hid : id ∈ resident b s.
Hypothesis He : arcs s !! id = Some e.
Hypothesis Hl : lru_iter l = without id (lru_iter (lru (part b s))).
Notation s' := (removed b l id e s).
(** Before [release]. *)
Notation before := (unlink id (e_key e)
  (with_gauges (learned s - Z.b2z (is_learned (e_scope e))) (failures s - Z.b2z (is_failure e))
    (settle id (set_part b (with_lru l (part b s)) s)))).

Lemma before_resident b' : resident b' before = filter (λ i, i ≠ id) (resident b' s).
Proof.
  assert (resident b' before = keys (lru_iter (lru (part b' (set_part b (with_lru l (part b s)) s))))) as ->.
  { unfold resident, unlink. simpl. by destruct (buckets s !! e_key e), b'. }
  rewrite part_set_part. destruct (decide (b' = b)) as [->|Hne].
  - rewrite Bool.eqb_reflx. simpl. rewrite Hl. apply keys_without.
  - destruct (Bool.eqb b' b) eqn:E; [by apply Bool.eqb_prop in E|]. symmetry. apply filter_and_ne.
    intros Hin. apply Hne. pose proof (arcs_heap _ _ _ He) as Hh. by rewrite -(so_part _ _ Hok b' _ _ Hin Hh) -(so_part _ _ Hok b _ _ Hid Hh).
Qed.
Lemma before_fields :
  readers before = readers s ∧ clock before = clock s ∧ sharing before = sharing s ∧ counts before = counts s ∧
  arcs before = alter (with_refreshed false) id (arcs s) ∧
  learned before = learned s - Z.b2z (is_learned (e_scope e)) ∧ failures before = failures s - Z.b2z (is_failure e) ∧
  (∀ b', charged (part b' before) = charged (part b' s)) ∧ (∀ b', p_max_bytes (part b' before) = p_max_bytes (part b' s)) ∧
  (∀ b', p_max_entries (part b' before) = p_max_entries (part b' s)).
Proof. unfold unlink. simpl. destruct (buckets s !! e_key e); split_and!; try done; intros b'; by destruct b, b'. Qed.
Lemma before_ids k : ids before k = filter (λ i, i ≠ id) (ids s k) ∧ buckets before !! k ≠ Some [].
Proof.
  pose proof (so_nonempty _ _ Hok k) as Hne.
  assert (k ≠ e_key e → filter (λ i, i ≠ id) (ids s k) = ids s k) as Hother.
  { intros Hk. apply filter_and_ne. intros Hin. apply (so_bucket _ _ Hok) in Hin as (e' & _ & Hh & Hek).
    rewrite (arcs_heap _ _ _ He) in Hh. apply Hk. rewrite -Hek. by injection Hh as <-. }
  unfold ids, unlink in *. simpl. destruct (buckets s !! e_key e) as [l'|] eqn:Eb; simpl.
  - destruct (decide (k = e_key e)) as [->|Hk].
    + rewrite Eb. simpl. case_bool_decide as En; [rewrite lookup_delete_eq; by rewrite En|].
      rewrite lookup_insert_eq. simpl. split; [done|]. congruence.
    + rewrite Hother //. case_bool_decide; [rewrite lookup_delete_ne|rewrite lookup_insert_ne]; done.
  - split; [|done]. destruct (decide (k = e_key e)) as [->|Hk]; [by rewrite Eb|by rewrite Hother].
Qed.
Lemma release_case :
  if decide (id ∈ readers s) then s' = before
  else s' = with_arcs (delete id (arcs before)) (set_part (e_negative e)
              (with_charged (charged (part (e_negative e) before) - e_charge e) (part (e_negative e) before)) before).
Proof.
  destruct before_fields as (Hr & _ & _ & _ & Ha & _).
  assert (∀ b', id ∉ keys (lru_iter (lru (part b' before)))) as Hno.
  { intros b'. change (id ∉ resident b' before). rewrite before_resident list_elem_of_filter. naive_solver. }
  unfold removed, release. destruct (decide (id ∈ readers s)) as [Hin|Hin].
  - rewrite bool_decide_true //. left. by rewrite Hr.
  - rewrite bool_decide_false.
    + rewrite Ha lookup_alter_eq He /=. done.
    + rewrite Hr. intros [?|[?|?]]; [done|by apply (Hno false)|by apply (Hno true)].
Qed.
Lemma removed_resident b' : resident b' s' = filter (λ i, i ≠ id) (resident b' s).
Proof.
  rewrite -before_resident. pose proof release_case as Hr. destruct (decide (id ∈ readers s)) as [|]; rewrite Hr; [done|].
  apply (resident_set_charged b' (e_negative e) _ before).
Qed.
Lemma removed_ids k : ids s' k = filter (λ i, i ≠ id) (ids s k) ∧ buckets s' !! k ≠ Some [].
Proof.
  pose proof (before_ids k) as Hb. pose proof release_case as Hr. destruct (decide (id ∈ readers s)) as [|]; rewrite Hr; done.
Qed.
Lemma removed_fields :
  readers s' = readers s ∧ clock s' = clock s ∧ sharing s' = sharing s ∧ counts s' = counts s ∧
  learned s' = learned s - Z.b2z (is_learned (e_scope e)) ∧ failures s' = failures s - Z.b2z (is_failure e) ∧
  (∀ b', p_max_bytes (part b' s') = p_max_bytes (part b' s)) ∧ (∀ b', p_max_entries (part b' s') = p_max_entries (part b' s)).
Proof.
  destruct before_fields as (Hr & Hc & Hs & Hcn & _ & Hle & Hf & _ & Hmb & Hme).
  pose proof release_case as Hrel. destruct (decide (id ∈ readers s)) as [|]; rewrite Hrel; [by split_and!|].
  split_and!; try done; intros b'; [rewrite -Hmb|rewrite -Hme]; destruct b', (e_negative e); done.
Qed.
Lemma heap_alter : norm <$> alter (with_refreshed false) id (arcs s) = heap s.
Proof.
  apply map_eq. intros j. unfold heap. rewrite !lookup_fmap. destruct (decide (j = id)) as [->|Hj].
  - rewrite lookup_alter_eq He. done.
  - by rewrite lookup_alter_ne.
Qed.
Lemma removed_heap :
  heap s' = (if decide (id ∈ readers s) then heap s else delete id (heap s)) ∧
  (∀ j, j ≠ id → arcs s' !! j = arcs s !! j) ∧
  (∀ b', charged (part b' s') = charged (part b' s) - if decide (id ∈ readers s) then 0 else charge_in b' e).
Proof.
  destruct before_fields as (_ & _ & _ & _ & Ha & _ & _ & Hch & _).
  pose proof release_case as Hrel. destruct (decide (id ∈ readers s)) as [|]; rewrite Hrel; split_and!.
  - unfold heap. rewrite Ha. apply heap_alter.
  - intros j Hj. by rewrite Ha lookup_alter_ne.
  - intros b'. rewrite Hch. lia.
  - unfold heap. cbn [arcs with_arcs]. rewrite Ha fmap_delete. f_equal. apply heap_alter.
  - intros j Hj. cbn [arcs with_arcs]. by rewrite Ha lookup_delete_ne // lookup_alter_ne.
  - intros b'. unfold charge_in. change (part b' (with_arcs ?a ?x)) with (part b' x). rewrite part_set_part.
    destruct (Bool.eqb b' (e_negative e)) eqn:E.
    + apply Bool.eqb_prop in E as ->. rewrite Bool.eqb_reflx. simpl. by rewrite Hch.
    + rewrite Hch. replace (Bool.eqb (e_negative e) b') with false; [lia|]. by destruct b', (e_negative e).
Qed.

Lemma filter_singleton (k : list Z) : filter (λ i, i ∉ [id]) k = filter (λ i, i ≠ id) k.
Proof. apply list_filter_iff. intros x. rewrite list_elem_of_singleton. done. Qed.
Lemma entry_charge : 0 ≤ e_charge e.
Proof. apply (eo_charge _ _ _ (so_entry _ _ Hok _ _ (arcs_heap _ _ _ He))). Qed.
Lemma removed_shrunk : shrunk [id] s s'.
Proof.
  destruct removed_fields as (Hr & Hc & Hs & _ & _ & _ & Hmb & Hme), removed_heap as (Hh & Ha & Hch).
  split; try done.
  - intros b'. by rewrite removed_resident filter_singleton.
  - intros k. rewrite filter_singleton. apply removed_ids.
  - intros j Hj. apply Ha. intros ->. apply Hj. left.
  - rewrite Hh. destruct (decide (id ∈ readers s)); [done|]. apply delete_subseteq.
  - intros b'. rewrite Hch. pose proof entry_charge. unfold charge_in.
    destruct (decide (id ∈ readers s)), (Bool.eqb (e_negative e) b'); lia.
Qed.
Lemma removed_live j : live s' j ↔ live s j ∧ j ≠ id.
Proof. rewrite (shrunk_live _ _ _ _ removed_shrunk) list_elem_of_singleton. done. Qed.
Lemma removed_heap_Some j a : heap s' !! j = Some a ↔ heap s !! j = Some a ∧ (j ≠ id ∨ id ∈ readers s).
Proof.
  destruct removed_heap as (-> & _). destruct (decide (id ∈ readers s)); [naive_solver|].
  rewrite lookup_delete_Some. naive_solver.
Qed.
Lemma removed_live_heap : live_heap s' = delete id (live_heap s).
Proof.
  apply map_eq. intros j. apply option_eq. intros a.
  rewrite lookup_delete_Some !live_heap_Some removed_live removed_heap_Some. naive_solver.
Qed.
Lemma removed_was_live : live_heap s !! id = Some (norm e).
Proof.
  apply live_heap_Some. split; [by apply arcs_heap|]. unfold live. generalize Hid. destruct b; auto.
Qed.
Lemma removed_ok : shard_ok variants s'.
Proof.
  destruct removed_fields as (Hr & Hc & _ & _ & Hle & Hf & Hmb & Hme), removed_heap as (Hh & _ & Hch).
  pose proof Hok as [Hen Hhp Hpa Hb Hi Hne Hv Hco Hcg Hby Hes Hls Hfs Hcl].
  split.
  - intros j a [Hj _]%removed_heap_Some. rewrite Hc. by apply Hen.
  - intros j. rewrite removed_live Hr. split.
    + intros [a [Hj Hcase]%removed_heap_Some]. destruct (decide (j = id)) as [->|Hji]; [right; by destruct Hcase|].
      destruct (proj1 (Hhp j)) as [|]; [by eexists|by left|by right].
    + intros Hj. destruct (proj2 (Hhp j)) as [a Ha]; [destruct Hj as [[? _]|?]; auto|]. exists a. apply removed_heap_Some.
      split; [done|]. destruct (decide (j = id)) as [->|]; [right; by destruct Hj as [[_ ?]|?]|by left].
  - intros b' j a. rewrite removed_resident list_elem_of_filter removed_heap_Some. intros [_ Hj] [Ha _]. by eapply Hpa.
  - intros k j. rewrite (proj1 (removed_ids k)) list_elem_of_filter Hb. setoid_rewrite removed_live.
    setoid_rewrite removed_heap_Some. naive_solver.
  - intros k. rewrite (proj1 (removed_ids k)). by apply NoDup_filter.
  - intros k. apply removed_ids.
  - intros k. rewrite (proj1 (removed_ids k)). etrans; [apply length_filter|]. apply Hv.
  - intros i j x y Hij. rewrite removed_live_heap !lookup_delete_Some. intros [_ Hx] [_ Hy]. by apply (Hco i j).
  - intros b'. rewrite Hch Hh Hcg. destruct (decide (id ∈ readers s)); [lia|].
    rewrite (total_delete _ (heap s) id (norm e)); [|by apply arcs_heap]. unfold charge_in. simpl. lia.
  - intros b'. pose proof (sh_charged _ _ _ removed_shrunk b'). rewrite Hmb. specialize (Hby b'). lia.
  - intros b'. rewrite Hme removed_resident. etrans; [apply length_filter|]. apply Hes.
  - rewrite Hle removed_live_heap Hls (total_delete _ (live_heap s) id (norm e)); [|by apply removed_was_live]. simpl. lia.
  - rewrite Hf removed_live_heap Hfs (total_delete _ (live_heap s) id (norm e)); [|by apply removed_was_live].
    unfold is_failure. simpl. lia.
  - by rewrite Hc.
Qed.
End removed.

(** [remove] of an entry that lives in the partition, or not at all. *)
Lemma remove_wp variants b id (v : View) :
  shard_ok variants (shard v) → (live (shard v) id → id ∈ resident b (shard v)) →
  wp (remove b id) (λ _ v', shard_ok variants (shard v') ∧ shrunk [id] (shard v) (shard v') ∧ counts (shard v') = counts (shard v))
    (λ _ _, False) v.
Proof.
  intros Hok Hid. unfold remove. apply wp_bind, wp_get.
  pose proof (pop_result id (lru (part b (shard v)))) as Hres. pose proof (pop_iter id (lru (part b (shard v)))) as Hl.
  destruct (lru_pop id (lru (part b (shard v)))) as [popped l]. simpl in Hres, Hl. subst popped.
  destruct (assoc id (lru_iter (lru (part b (shard v))))) as [u|] eqn:Ea.
  - assert (id ∈ resident b (shard v)) as Hin.
    { apply assoc_Some in Ea; [|apply iter_keys]. apply list_elem_of_fmap. by exists (id, u). }
    destruct (proj2 (so_heap _ _ Hok id)) as [e' He']; [left; unfold live; destruct b; auto|].
    apply heap_Some in He' as (e & He & <-). apply wp_bind. eapply wp_expect; [exact He|]. apply wp_put.
    split; [by apply removed_ok|]. split; [by apply (removed_shrunk variants)|]. by destruct (removed_fields variants _ b l id e Hok Hin He Hl) as (_ & _ & _ & ? & _).
  - apply wp_ret. apply assoc_None in Ea. split; [done|]. split; [|done].
    assert (¬ live (shard v) id) as Hdead by (intros Hin%Hid; done).
    assert (∀ k : list Z, id ∉ k → filter (λ i, i ∉ [id]) k = k) as Hf.
    { intros k Hk. rewrite filter_singleton. by apply filter_and_ne. }
    split; try done.
    + intros b'. symmetry. apply Hf. intros Hin. apply Hdead. unfold live. destruct b'; auto.
    + intros k. symmetry. apply Hf. intros (e & Hlive & _)%(so_bucket _ _ Hok). done.
Qed.
Lemma remove_all_wp variants l (v : View) :
  shard_ok variants (shard v) → (∀ b id, (b, id) ∈ l → live (shard v) id → id ∈ resident b (shard v)) →
  wp (remove_all l) (λ _ v', shard_ok variants (shard v') ∧ shrunk l.*2 (shard v) (shard v') ∧ counts (shard v') = counts (shard v))
    (λ _ _, False) v.
Proof.
  revert v. induction l as [|[b id] l IH]; intros v Hok Hl; simpl.
  { apply wp_ret. split; [done|]. split; [apply shrunk_refl|done]. }
  apply wp_bind. eapply wp_mono; [| |apply (remove_wp variants); [done|apply Hl; left]]; [|done].
  intros _ v1 (Hok1 & Hs1 & Hc1). eapply wp_mono; [| |apply IH; [done|]]; [|done|].
  - intros _ v2 (Hok2 & Hs2 & Hc2). split; [done|]. split; [|congruence]. apply (shrunk_trans [id]) with (shard v1); done.
  - intros b' id' Hin. rewrite (shrunk_live _ _ _ _ Hs1) (sh_resident _ _ _ Hs1) list_elem_of_filter.
    intros [Hlive Hn]. split; [done|]. apply Hl; [by right|done].
Qed.

(** ** Buckets *)
Lemma live_resident variants s id e :
  shard_ok variants s → live s id → arcs s !! id = Some e → id ∈ resident (e_negative e) s.
Proof.
  intros Hok Hlive He. pose proof (arcs_heap _ _ _ He) as Hh.
  destruct Hlive as [Hin|Hin]; pose proof (so_part _ _ Hok _ _ _ Hin Hh) as Hn; simpl in Hn; by rewrite Hn.
Qed.
Lemma resident_live b s id : id ∈ resident b s → live s id.
Proof. unfold live. destruct b; auto. Qed.
Lemma live_entry variants s id : shard_ok variants s → live s id → ∃ e, arcs s !! id = Some e ∧ e_id e = id.
Proof.
  intros Hok Hlive. destruct (proj2 (so_heap _ _ Hok id)) as [e' He']; [by left|].
  pose proof (eo_id _ _ _ (so_entry _ _ Hok _ _ He')) as Hid. apply heap_Some in He' as (e & He & <-). by exists e.
Qed.
Lemma elem_of_deref s l e : e ∈ deref s l ↔ ∃ id, id ∈ l ∧ arcs s !! id = Some e.
Proof. unfold deref. rewrite list_elem_of_omap. done. Qed.
Lemma in_bucket variants s k e :
  shard_ok variants s → e ∈ bucket s k ↔ live s (e_id e) ∧ arcs s !! e_id e = Some e ∧ e_key e = k.
Proof.
  intros Hok. unfold bucket. rewrite elem_of_deref. split.
  - intros (id & Hin & He). apply (so_bucket _ _ Hok) in Hin as (e' & Hlive & Hh & Hk).
    pose proof (eo_id _ _ _ (so_entry _ _ Hok _ _ Hh)) as Hid. rewrite (arcs_heap _ _ _ He) in Hh. injection Hh as <-.
    simpl in Hid, Hk. by rewrite Hid.
  - intros (Hlive & He & Hk). exists (e_id e). split; [|done]. apply (so_bucket _ _ Hok). exists (norm e).
    split; [done|]. split; [by apply arcs_heap|done].
Qed.
Lemma in_bucket_resident variants s k e : shard_ok variants s → e ∈ bucket s k → e_id e ∈ resident (e_negative e) s.
Proof. intros Hok (? & ? & _)%(in_bucket variants); [|done]. by eapply live_resident. Qed.
(** Removing what a filter of a bucket selects. *)
Lemma remove_bucket_wp variants (P : Entry → Prop) `{!∀ e, Decision (P e)} k (v : View) :
  shard_ok variants (shard v) →
  wp (remove_all ((λ e, (e_negative e, e_id e)) <$> filter P (bucket (shard v) k)))
    (λ _ v', shard_ok variants (shard v') ∧ counts (shard v') = counts (shard v) ∧ ∃ gone, shrunk gone (shard v) (shard v') ∧
       ∀ id, id ∈ gone ↔ ∃ e, e ∈ bucket (shard v) k ∧ P e ∧ e_id e = id)
    (λ _ _, False) v.
Proof.
  intros Hok. eapply wp_mono; [| |apply (remove_all_wp variants); [done|]]; [|done|].
  - intros _ v' (Hok' & Hs & Hc). split; [done|]. split; [done|]. eexists. split; [exact Hs|]. intros id.
    rewrite -list_fmap_compose list_elem_of_fmap. setoid_rewrite list_elem_of_filter. simpl. naive_solver.
  - intros b id (e & [= -> ->] & Hin)%list_elem_of_fmap _. apply list_elem_of_filter in Hin as [_ Hin].
    by eapply in_bucket_resident.
Qed.
Lemma prune_wp variants k now (v : View) :
  shard_ok variants (shard v) →
  wp (prune k now)
    (λ _ v', shard_ok variants (shard v') ∧ counts (shard v') = counts (shard v) ∧ ∃ gone, shrunk gone (shard v) (shard v') ∧
       ∀ id, id ∈ gone ↔ ∃ e, e ∈ bucket (shard v) k ∧ e_retention e ≤ age now e ∧ e_id e = id)
    (λ _ _, False) v.
Proof. intros Hok. unfold prune. apply wp_bind, wp_get. by apply (remove_bucket_wp variants). Qed.

Lemma wp_modify (f : Shard → Shard) (Q : unit → View → Prop) (R : unit → View → Prop) v :
  Q tt (mkView (f (shard v)) (useful v) (unused v)) → wp (modify f) Q R v.
Proof. intros HQ. unfold modify. by apply wp_bind, wp_get, wp_put. Qed.

Lemma same_counts c s : same_parts s (with_counts c s).
Proof. by split. Qed.
Lemma evict_wp variants b id now reason (v : View) :
  shard_ok variants (shard v) → id ∈ resident b (shard v) →
  wp (evict b id now reason) (λ _ v', shard_ok variants (shard v') ∧ shrunk [id] (shard v) (shard v')) (λ _ _, False) v.
Proof.
  intros Hok Hid. unfold evict. apply wp_bind, wp_get.
  destruct (live_entry variants (shard v) id Hok (resident_live _ _ _ Hid)) as (e & He & _).
  assert (lru_peek id (lru (part b (shard v))) = Some tt) as Hpeek.
  { apply list_elem_of_fmap in Hid as ([i []] & -> & Hin). by apply peek_in. }
  apply wp_bind. eapply wp_expect; [exact Hpeek|]. apply wp_bind. eapply wp_expect; [exact He|].
  apply wp_bind, wp_modify. set (s1 := with_counts _ _).
  assert (same_parts (shard v) s1 ∧ arcs s1 = arcs (shard v) ∧ sharing s1 = sharing (shard v) ∧
    (∀ b', resident b' s1 = resident b' (shard v)) ∧ clock s1 = clock (shard v) ∧ readers s1 = readers (shard v)) as (Hsame & Ha & Hsh & Hr & Hck & Hrd).
  { unfold s1. split_and!; try done; [split|]; intros *; try done; unfold resident; destruct b; try destruct b0; try destruct b'; done. }
  eapply wp_mono; [| |apply (remove_wp variants b id (mkView s1 (useful v) (unused v)))]; [|done| |].
  - intros _ v' (Hok' & [Hr' Hi' Ha' Hh' Hrd' Hc' Hs' Hch' Hb' He'] & _). split; [done|]. simpl in *.
    pose proof (sp_buckets _ _ Hsame) as Hbu. split.
    + intros b'. by rewrite Hr' Hr.
    + intros k. rewrite Hi'. unfold ids. by rewrite Hbu.
    + intros j Hj. by rewrite Ha' // Ha.
    + by rewrite -(sp_heap _ _ Hsame).
    + by rewrite Hrd'.
    + by rewrite Hc'.
    + by rewrite Hs'.
    + intros b'. rewrite -(sp_charged _ _ Hsame). apply Hch'.
    + intros b'. rewrite -(sp_bytes _ _ Hsame). apply Hb'.
    + intros b'. rewrite -(sp_entries _ _ Hsame). apply He'.
  - by eapply shard_ok_same.
  - intros _. simpl. by rewrite Hr.
Qed.

(** ** Selection *)
Lemma max_by_Some {A} (le : A → A → bool) (l : list A) y :
  (∀ a b, le a b = false → le b a = true) → (∀ a b c, le a b = true → le b c = true → le a c = true) →
  max_by le l = Some y → y ∈ l ∧ ∀ x, x ∈ l → le x y = true.
Proof.
  intros Htot Htr. assert (∀ a, le a a = true) as Hrefl by (intros a; destruct (le a a) eqn:E; [done|]; rewrite -E; by apply Htot).
  revert y. induction l as [|x l IH]; intros y; simpl; [done|].
  destruct (max_by le l) as [m|] eqn:Em.
  - destruct (IH m eq_refl) as [Hin Hmax]. destruct (le x m) eqn:E; intros [= <-].
    + split; [by right|]. intros z [->|Hz]%elem_of_cons; auto.
    + split; [left|]. intros z [->|Hz]%elem_of_cons; [done|]. apply (Htr z m); auto.
  - intros [= <-]. split; [left|]. intros z [->|Hz]%elem_of_cons; [done|]. destruct l; [by apply elem_of_nil in Hz|done].
Qed.
Lemma max_by_None {A} (le : A → A → bool) (l : list A) : max_by le l = None → l = [].
Proof. by destruct l. Qed.
Lemma rank_le_total now a b : rank_le now a b = false → rank_le now b a = true.
Proof.
  unfold rank_le. destruct (bool_decide (age now a < _)), (bool_decide (age now b < _)); try done; repeat case_bool_decide; try done; lia.
Qed.
Lemma rank_le_trans now a b c : rank_le now a b = true → rank_le now b c = true → rank_le now a c = true.
Proof.
  unfold rank_le. destruct (bool_decide (age now a < _)), (bool_decide (age now b < _)), (bool_decide (age now c < _));
    try done; repeat case_bool_decide; try done; lia.
Qed.
Lemma select_spec variants s k out now stale :
  shard_ok variants s →
  match select s k out now stale with
  | Some (b, id) => ∃ e, e ∈ bucket s k ∧ usable out now stale e = true ∧ e_negative e = b ∧ e_id e = id ∧
      (∀ e', e' ∈ bucket s k → usable out now stale e' = true → rank_le now e' e = true)
  | None => ∀ e, e ∈ bucket s k → usable out now stale e = false
  end.
Proof.
  intros Hok. unfold select. destruct (max_by (rank_le now) _) as [e|] eqn:E; simpl.
  - apply max_by_Some in E as [Hin Hmax]; [|apply rank_le_total|apply rank_le_trans].
    apply list_elem_of_filter in Hin as [Hu Hin]. exists e. split_and!; try done.
    intros e' Hin' Hu'. apply Hmax. by apply list_elem_of_filter.
  - apply max_by_None in E. intros e Hin. apply not_true_iff_false. intros Hu.
    assert (e ∈ filter (λ e, usable out now stale e = true) (bucket s k)) as Hf by by apply list_elem_of_filter.
    rewrite E in Hf. by apply elem_of_nil in Hf.
Qed.
End invariant.
