(* ===== verification/CacheOps.v ===== *)
(** * Lookup and placement in a shard

    What the operations under a shard's lock return and change, from any shard
    that satisfies the invariant. *)
From S2P Require Import Prelude Net Std Names Lru Dns Ecs Wire Protocol CacheData Sharing CacheStore CacheInv.
Set Default Goal Selector "!".
Set Warnings "-rewrite-rw".
Local Open Scope Z_scope.
Local Open Scope rust_scope.

Section ops.
Context `{MessageLib} `{!DnsNames} `{IpNetLib} `{LruLib} `{!LruSpec _} `{!Layout}.
Implicit Types (s : Shard) (e : Entry) (k : Key).

(** ** Readers *)
Lemma hold_ok variants id s : live s id → shard_ok variants s → shard_ok variants (hold id s).
Proof.
  intros Hl [He Hh Hpa Hb Hi Hne Hv Hco Hch Hby Hen Hle Hf Hcl]. split; try done.
  intros j. change (live (hold id s) j) with (live s j). change (heap (hold id s)) with (heap s). rewrite Hh.
  change (readers (hold id s)) with (id :: readers s). rewrite elem_of_cons. naive_solver.
Qed.
Lemma remove_one_sub id j l : j ∈ remove_one id l → j ∈ l.
Proof. induction l as [|x l IH]; simpl; [done|]. case_bool_decide; rewrite !elem_of_cons; naive_solver. Qed.
Lemma remove_one_other id j l : j ≠ id → j ∈ l → j ∈ remove_one id l.
Proof. intros Hne. induction l as [|x l IH]; simpl; [done|]. case_bool_decide; rewrite !elem_of_cons; naive_solver. Qed.
Lemma drop_reader_ok variants id s :
  shard_ok variants s → shard_ok variants (drop_reader id s) ∧ kept s (drop_reader id s) ∧ sharing (drop_reader id s) = sharing s.
Proof.
  intros Hok. split.
  2: { unfold drop_reader, release. set (s1 := with_readers (remove_one id (readers s)) s). case_bool_decide; [done|].
       destruct (arcs s1 !! id) as [e|]; [|done]. split; [|done]. intros b. by destruct b, (e_negative e). }
  pose proof Hok as [He Hh Hpa Hb Hi Hne Hv Hco Hch Hby Hen Hle Hf Hcl].
  unfold drop_reader, release. set (s1 := with_readers (remove_one id (readers s)) s).
  assert (live s1 = live s) as Hl1 by done. assert (heap s1 = heap s) as Hh1 by done.
  case_bool_decide as Hkeep.
  - split; try done. intros j. rewrite Hl1 Hh1 Hh. cbn [readers s1 with_readers].
    destruct (decide (j = id)) as [->|Hji]; [|pose proof (remove_one_sub id j (readers s)); pose proof (remove_one_other id j (readers s)); naive_solver].
    assert (live s id ∨ id ∈ remove_one id (readers s)) as Hk.
    { destruct Hkeep as [?|[?|?]]; [by right|left; by left|left; by right]. }
    pose proof (remove_one_sub id id (readers s)). naive_solver.
  - assert (¬ live s id) as Hdead by (intros Hd; apply Hkeep; right; exact Hd).
    assert (id ∉ remove_one id (readers s)) as Hno by (intros Hd; apply Hkeep; by left).
    destruct (arcs s !! id) as [e|] eqn:Ee.
    2: { change (arcs s1 !! id) with (arcs s !! id). rewrite Ee. split; try done. intros j. rewrite Hl1 Hh1 Hh.
         cbn [readers s1 with_readers]. destruct (decide (j = id)) as [->|Hji].
         - assert (¬ (live s id ∨ id ∈ readers s)) as Hn.
           { rewrite -Hh. intros [a Ha]. apply heap_Some in Ha as (? & ? & _). congruence. }
           naive_solver.
         - pose proof (remove_one_sub id j (readers s)). pose proof (remove_one_other id j (readers s)). naive_solver. }
    change (arcs s1 !! id) with (arcs s !! id). rewrite Ee. set (s2 := with_arcs _ _).
    assert (heap s2 = delete id (heap s)) as Hh2 by apply fmap_delete.
    assert (∀ b, resident b s2 = resident b s) as Hr2.
    { intros b. apply (resident_set_charged b (e_negative e) _ s1). }
    assert (∀ j, live s2 j ↔ live s j) as Hl2 by (intros j; unfold live; by rewrite !Hr2).
    assert (live_heap s2 = live_heap s) as Hlh2.
    { apply map_eq. intros j. apply option_eq. intros a. rewrite !live_heap_Some Hh2 Hl2 lookup_delete_Some. naive_solver. }
    split.
    + intros j a. rewrite Hh2 lookup_delete_Some. intros [_ Ha]. by apply He.
    + intros j. rewrite Hl2 Hh2. cbn [s2 readers with_arcs]. change (readers (set_part _ _ s1)) with (remove_one id (readers s)).
      destruct (decide (j = id)) as [->|Hji].
      * rewrite lookup_delete_eq. split; [by intros []|]. naive_solver.
      * rewrite lookup_delete_ne // Hh. pose proof (remove_one_sub id j (readers s)). pose proof (remove_one_other id j (readers s)). naive_solver.
    + intros b j a. rewrite Hr2 Hh2 lookup_delete_Some. intros Hin [_ Ha]. by eapply Hpa.
    + intros k j. change (ids s2 k) with (ids s k). rewrite Hb. setoid_rewrite Hl2. rewrite Hh2. setoid_rewrite lookup_delete_Some. naive_solver.
    + done.
    + done.
    + done.
    + intros i j x y. rewrite Hlh2. apply Hco.
    + intros b. rewrite Hh2. pose proof (arcs_heap _ _ _ Ee) as Hn. specialize (Hch b). rewrite (total_delete _ _ _ _ Hn) in Hch.
      change (part b s2) with (part b (set_part (e_negative e) (with_charged (charged (part (e_negative e) s1) - e_charge e) (part (e_negative e) s1)) s1)).
      rewrite part_set_part. unfold charge_in in Hch at 1. simpl in Hch. destruct b, (e_negative e); simpl in *; unfold part in *; simpl in *; lia.
    + intros b. specialize (Hby b). pose proof (eo_charge _ _ _ (He _ _ (arcs_heap _ _ _ Ee))) as Hpos. simpl in Hpos.
      change (part b s2) with (part b (set_part (e_negative e) (with_charged (charged (part (e_negative e) s1) - e_charge e) (part (e_negative e) s1)) s1)).
      rewrite part_set_part. destruct b, (e_negative e); unfold part in *; simpl in *; lia.
    + intros b. rewrite Hr2. specialize (Hen b). destruct b, (e_negative e); exact Hen.
    + change (learned s2) with (learned s). by rewrite Hlh2.
    + change (failures s2) with (failures s). by rewrite Hlh2.
    + done.
Qed.

Lemma publish_kept k st ch now s : kept s (publish k st ch now s).
Proof. intros b. unfold publish. by destruct b, (st_negative st). Qed.

(** A change of the atomic fields of one entry. *)
Lemma touch_same s id e e' : arcs s !! id = Some e → norm e' = norm e → same_parts s (with_arcs (<[id := e']> (arcs s)) s).
Proof.
  intros He Hn. split; try done. apply map_eq. intros j. unfold heap. cbn [arcs with_arcs]. rewrite !lookup_fmap.
  destruct (decide (j = id)) as [->|Hj]; [rewrite lookup_insert_eq He /=; by rewrite Hn|by rewrite lookup_insert_ne].
Qed.
Lemma same_parts_trans s1 s2 s3 : same_parts s1 s2 → same_parts s2 s3 → same_parts s1 s3.
Proof.
  intros [A1 A2 A3 A4 A5 A6 A7 A8 A9 A10] [B1 B2 B3 B4 B5 B6 B7 B8 B9 B10].
  split; intros *; try congruence; [by rewrite B2 A2|by rewrite B3 A3|lia].
Qed.
Lemma bump_hits_wp variants id (v : View) e :
  shard_ok variants (shard v) → arcs (shard v) !! id = Some e →
  wp (bump_hits id) (λ n v', n = hits e + 1 ∧ same_parts (shard v) (shard v') ∧ readers (shard v') = readers (shard v) ∧ sharing (shard v') = sharing (shard v) ∧
      arcs (shard v') = <[id := with_hits n e]> (arcs (shard v)))
    (λ _ _, False) v.
Proof.
  intros Hok He. unfold bump_hits. apply wp_bind, wp_get. apply wp_bind. eapply wp_expect; [exact He|].
  apply wp_bind, wp_modify, wp_ret. split_and!; try done. simpl. eapply touch_same; [exact He|done].
Qed.

(** ** Lookup under the lock *)
Definition found s k out now stale (id : Z) e : Prop :=
  live s id ∧ arcs s !! id = Some e ∧ e_id e = id ∧ e_key e = k ∧ usable out now stale e = true ∧
  ∀ e', e' ∈ bucket s k → usable out now stale e' = true → rank_le now e' e = true.
Lemma lookup_locked_wp variants k out now stale observe (v : View) :
  shard_ok variants (shard v) →
  wp (lookup_locked k out now stale observe)
    (λ r v', shard_ok variants (shard v') ∧ kept (shard v) (shard v') ∧ sharing (shard v') = sharing (shard v) ∧
      match r with
      | None => (∀ e, e ∈ bucket (shard v) k → usable out now stale e = false) ∧ readers (shard v') = readers (shard v) ∧
          ∃ gone, shrunk gone (shard v) (shard v') ∧
            ∀ id, id ∈ gone → ∃ e, e ∈ bucket (shard v) k ∧ e_retention e ≤ age now e ∧ e_id e = id
      | Some id => ∃ e e', found (shard v) k out now stale id e ∧ arcs (shard v') !! id = Some e' ∧ norm e' = norm e ∧ hits e' = hits e ∧
          readers (shard v') = id :: readers (shard v) ∧ (∀ j, j ≠ id → arcs (shard v') !! j = arcs (shard v) !! j) ∧
          buckets (shard v') = buckets (shard v) ∧ ∀ j, live (shard v') j ↔ live (shard v) j
      end)
    (λ _ _, False) v.
Proof.
  intros Hok. unfold lookup_locked. apply wp_bind, wp_get.
  pose proof (select_spec variants (shard v) k out now stale Hok) as Hsel.
  destruct (select (shard v) k out now stale) as [[b id]|].
  - destruct Hsel as (e & Hin & Hu & Hn & Hid & Hmax). pose proof Hin as (Hlive & He & Hk)%(in_bucket variants); [|done].
    pose proof (live_resident _ _ _ _ Hok Hlive He) as Hres. rewrite Hn Hid in Hres. rewrite Hid in Hlive, He.
    assert (lru_peek id (lru (part b (shard v))) = Some tt) as Hpeek.
    { apply list_elem_of_fmap in Hres as ([i []] & -> & Hr). by apply peek_in. }
    assert (found (shard v) k out now stale id e) as Hf by by split_and!.
    destruct observe.
    + pose proof (get_result id (lru (part b (shard v)))) as Hg. pose proof (get_iter id (lru (part b (shard v)))) as Hl.
      destruct (lru_get id (lru (part b (shard v)))) as [fnd l]. simpl in Hg, Hl. rewrite peek_iter in Hpeek.
      rewrite Hpeek in Hg, Hl. subst fnd. apply wp_bind. eapply wp_expect; [reflexivity|]. apply wp_bind. eapply wp_expect; [exact He|].
      apply wp_bind, wp_put, wp_ret. cbn [shard]. set (e' := with_refreshed false _). set (s1 := with_counts _ _).
      assert (same_parts (shard v) s1) as Hsame.
      { unfold s1. eapply same_parts_trans; [|apply same_counts].
        eapply (same_parts_trans _ (set_part b (with_lru l (part b (shard v))) (with_clock (clock (shard v) + 1) (shard v)))).
        - split; try done; try (intros b'; destruct b, b'; done); simpl; [|lia].
          intros b'. unfold resident. rewrite part_set_part. destruct (Bool.eqb b' b) eqn:E; [|by destruct b'].
          apply Bool.eqb_prop in E as ->. simpl. rewrite Hl. unfold keys. apply fmap_Permutation. symmetry.
          apply without_perm; [apply iter_keys|]. apply assoc_Some; [apply iter_keys|done].
        - by apply (touch_same (set_part b (with_lru l (part b (shard v))) (with_clock (clock (shard v) + 1) (shard v))) id e e'). }
      assert (∀ j, live s1 j ↔ live (shard v) j) as Hlv by (intros j; by apply same_live).
      split; [apply hold_ok; [by apply Hlv|]; by eapply shard_ok_same|]. split; [exact (same_kept _ _ Hsame)|]. split; [done|].
      exists e, e'. split_and!; try done; cbn [arcs hold with_readers s1 with_counts with_arcs].
      * apply lookup_insert_eq.
      * intros j Hj. by rewrite lookup_insert_ne.
    + apply wp_bind. eapply wp_expect; [exact Hpeek|]. apply wp_bind, wp_modify, wp_ret. cbn [shard].
      split; [by apply hold_ok|]. split; [done|]. split; [done|]. exists e, e. split_and!; done.
  - destruct observe.
    + apply wp_bind. eapply wp_mono; [| |apply (prune_wp variants); done]; [|done].
      intros _ v1 (Hok1 & Hc1 & gone & Hs & Hgone).
      apply wp_bind. apply (wp_mono _ (λ _ v2, readers (shard v2) = readers (shard v1) ∧ shard_ok variants (shard v2) ∧
        shrunk gone (shard v) (shard v2)) _ (λ _ _, False)); [|done|].
      * intros _ v2 (Hr2 & Hok2 & Hs2). apply wp_ret. split; [done|]. split; [by eapply shrunk_kept|].
        split; [apply (sh_sharing _ _ _ Hs2)|]. split_and!; [done| |].
        -- rewrite Hr2. apply (sh_readers _ _ _ Hs).
        -- exists gone. split; [done|]. intros id Hid. by apply Hgone.
      * destruct stale; [by apply wp_ret|]. apply wp_modify. cbn [shard]. split_and!; [done| |by destruct Hs; split].
        eapply shard_ok_same; [apply same_counts|done].
    + apply wp_ret. split; [done|]. split; [done|]. split; [done|]. split_and!; [done..|]. exists []. split; [apply shrunk_refl|]. by intros id ?%elem_of_nil.
Qed.

(** ** Making room *)
Lemma filter_last_take (l : list Z) x : NoDup l → last l = Some x → filter (λ i, i ∉ [x]) l = take (length l - 1) l.
Proof.
  intros Hnd Hl. pose proof (take_drop (length l - 1) l) as Htd. rewrite last_lookup in Hl.
  replace (pred (length l)) with (length l - 1)%nat in Hl by lia. rewrite (drop_S _ _ _ Hl) (drop_ge l) in Htd; [|lia].
  rewrite -{1}Htd filter_app. rewrite -Htd in Hnd. apply NoDup_app in Hnd as (_ & Hn & _).
  rewrite filter_cons decide_False; [|intros Hx; apply Hx; left]. rewrite app_nil_r. apply filter_all, Forall_forall.
  intros y Hy ->%list_elem_of_singleton. apply (Hn _ Hy). left.
Qed.
Definition has_room (b : bool) (ch : Z) s : Prop :=
  (length (resident b s) < p_max_entries (part b s))%nat ∧ charged (part b s) + ch ≤ p_max_bytes (part b s).
Definition made_room (b : bool) s s' (gone : list Z) : Prop :=
  shrunk gone s s' ∧ (∀ id, id ∈ gone → id ∈ resident b s) ∧ ∃ n, resident b s' = take n (resident b s).
Lemma made_room_refl b s : made_room b s s [].
Proof. split; [apply shrunk_refl|]. split; [by intros ? ?%elem_of_nil|]. exists (length (resident b s)). by rewrite firstn_all. Qed.

Lemma room_step_wp variants b ch now s0 gone (v : View) :
  shard_ok variants (shard v) → made_room b s0 (shard v) gone →
  wp (room_step b ch now tt)
    (λ r v', shard_ok variants (shard v') ∧ (∃ gone, made_room b s0 (shard v') gone) ∧
       match r with
       | inl _ => (length (resident b (shard v')) < length (resident b (shard v)))%nat
       | inr true => has_room b ch (shard v')
       | inr false => resident b (shard v') = []
       end)
    (λ _ _, False) v.
Proof.
  intros Hok Hmade. pose proof Hmade as (Hs & Hin & n & Hn). unfold room_step. apply wp_bind, wp_get.
  assert (lru_len (lru (part b (shard v))) = length (resident b (shard v))) as Hlen by by rewrite len_iter /resident /keys length_fmap.
  destruct (negb _ && negb _) eqn:Efit.
  { apply andb_true_iff in Efit as [Hel%negb_true_iff%bool_decide_eq_false Hbl%negb_true_iff%bool_decide_eq_false].
    apply wp_ret. split; [done|]. split; [by exists gone|]. rewrite Hlen in Hel. split; lia. }
  clear Efit. rewrite peek_lru_iter. destruct (last (lru_iter (lru (part b (shard v))))) as [[id u]|] eqn:El.
  2: { apply wp_ret. split; [done|]. split; [by exists gone|]. unfold resident. apply last_None in El. by rewrite El. }
  assert (last (resident b (shard v)) = Some id) as Hlast by by rewrite /resident /keys fmap_last El.
  assert (id ∈ resident b (shard v)) as Hid by by apply last_Some_elem_of.
  apply wp_bind. eapply wp_mono; [| |apply (evict_wp variants); done]; [|done].
  intros _ v' [Hok' Hs']. apply wp_ret. split; [done|].
  assert (resident b (shard v') = take (length (resident b (shard v)) - 1) (resident b (shard v))) as Hres.
  { rewrite (sh_resident _ _ _ Hs'). apply filter_last_take; [apply resident_NoDup|done]. }
  split; [|rewrite Hres length_take; destruct (resident b (shard v)); simpl in *; [by apply elem_of_nil in Hid|lia]].
  exists (gone ++ [id]). split; [by eapply shrunk_trans|]. split.
  - intros j [Hj| ->]%elem_of_snoc; [by apply Hin|]. rewrite Hn in Hid. by apply (subseteq_take n).
  - rewrite Hres {2}Hn take_take. by eexists.
Qed.
Lemma room_loop_wp variants b ch now s0 gone fuel (v : View) :
  shard_ok variants (shard v) → made_room b s0 (shard v) gone → (length (resident b (shard v)) < fuel)%nat →
  wp (loop fuel (room_step b ch now) tt)
    (λ r v', shard_ok variants (shard v') ∧ (∃ gone, made_room b s0 (shard v') gone) ∧
       (if (r : bool) then has_room b ch (shard v') else resident b (shard v') = []))
    (λ _ _, False) v.
Proof.
  revert v gone. induction fuel as [|fuel IH]; intros v gone Hok Hmade Hfuel; [lia|].
  apply wp_loop_step. eapply wp_mono; [| |by apply (room_step_wp variants b ch now s0 gone)]; [|done].
  intros [[]|r] v2 (Hok2 & [gone2 Hmade2] & Hr); simpl.
  - apply (IH v2 gone2); [done|done|lia].
  - split; [done|]. split; [by exists gone2|]. by destruct r.
Qed.
Lemma make_room_wp variants b ch now (v : View) :
  shard_ok variants (shard v) →
  wp (make_room b ch now)
    (λ r v', shard_ok variants (shard v') ∧ (∃ gone, made_room b (shard v) (shard v') gone) ∧
       (if (r : bool) then has_room b ch (shard v') else resident b (shard v') = []))
    (λ _ _, False) v.
Proof.
  intros Hok. unfold make_room. apply wp_bind, wp_get. eapply room_loop_wp; [done|apply made_room_refl|].
  rewrite len_iter /resident /keys length_fmap. lia.
Qed.

(** ** Publishing an entry *)
Record stored_ok (st : Stored) : Prop := {
  sd_failure : is_Some (st_failure st) → st_negative st = true ∧ st_retention st = st_lifetime st;
  sd_times : 0 < st_lifetime st ≤ st_retention st;
  sd_wire : octets (st_wire st);
}.
Definition new_entry k st ch now s : Entry :=
  mkEntry (clock s + 1) k (st_wire st) (st_scope st) now (st_lifetime st) (st_retention st) (st_negative st) (st_failure st)
    (st_prefetch st) (st_refreshed st) 0 (default (clock s + 1) (st_accessed st)) ch.
(** The entries of the key an admission leaves beside the new one. *)
Definition room_for k st s : Prop :=
  ∀ e, e ∈ bucket s k → scopes_overlap (e_scope e) (st_scope st) = true → is_failure e = negb (bool_decide (is_Some (st_failure st))).

Lemma scopes_overlap_comm a b : scopes_overlap a b = scopes_overlap b a.
Proof.
  destruct a, b; simpl; try done; try (by rewrite orb_comm); try (apply bool_decide_ext; split; congruence).
Qed.
Section publish.
Context (variants : nat) (s : Shard) (k : Key) (st : Stored) (ch now : Z).
Hypothesis Hok : shard_ok variants s.
Hypothesis Hst : stored_ok st.
Hypothesis Hch : 0 ≤ ch.
Hypothesis Hroom : has_room (st_negative st) ch s.
Hypothesis Hvar : (length (ids s k) < Nat.max 1 variants)%nat.
Hypothesis Hcompat : room_for k st s.
Notation s' := (publish k st ch now s).
Notation id := (clock s + 1).
Notation e := (new_entry k st ch now s).

Lemma fresh_heap : heap s !! id = None.
Proof. destruct (heap s !! id) as [a|] eqn:E; [|done]. pose proof (eo_clock _ _ _ (so_entry _ _ Hok _ _ E)) as Hle. clear -Hle. lia. Qed.
Lemma fresh_live : ¬ live s id.
Proof. intros Hl. destruct (proj2 (so_heap _ _ Hok id)) as [a Ha]; [by left|]. by rewrite fresh_heap in Ha. Qed.
Lemma publish_heap : heap s' = <[id := norm e]> (heap s).
Proof. apply fmap_insert. Qed.
Lemma publish_resident b : resident b s' ≡ₚ if Bool.eqb b (st_negative st) then id :: resident b s else resident b s.
Proof.
  clear Hst Hch Hroom Hvar Hcompat.
  assert (without id (lru_iter (lru (part (st_negative st) s))) = lru_iter (lru (part (st_negative st) s))) as Hw.
  { apply without_notin. intros Hin. apply fresh_live, (resident_live (st_negative st)). exact Hin. }
  assert (keys (lru_iter (match st_accessed st with
    | Some _ => lru_demote id (lru_put id tt (lru (part (st_negative st) s)))
    | None => lru_put id tt (lru (part (st_negative st) s)) end)) ≡ₚ id :: resident (st_negative st) s) as Hl.
  { unfold resident. destruct (st_accessed st).
    - rewrite demote_iter put_iter /= bool_decide_true //. rewrite Hw.
      unfold without in *. rewrite filter_cons decide_False; [|naive_solver]. rewrite Hw. unfold keys. rewrite fmap_app Permutation_app_comm. done.
    - by rewrite put_iter Hw. }
  unfold publish, resident in *. destruct b, (st_negative st); exact Hl || done.
Qed.
Lemma publish_live j : live s' j ↔ live s j ∨ j = id.
Proof.
  clear Hst Hch Hroom Hvar Hcompat.
  unfold live. rewrite !publish_resident. destruct (st_negative st); simpl; rewrite ?elem_of_cons; naive_solver.
Qed.
Lemma publish_ids k' : ids s' k' = if decide (k' = k) then ids s k ++ [id] else ids s k'.
Proof.
  unfold ids. cbn [buckets publish]. destruct (decide (k' = k)) as [->|Hk]; [by rewrite lookup_insert_eq|by rewrite lookup_insert_ne].
Qed.
Lemma publish_live_heap : live_heap s' = <[id := norm e]> (live_heap s).
Proof.
  apply map_eq. intros j. apply option_eq. intros a. rewrite live_heap_Some publish_heap publish_live.
  destruct (decide (j = id)) as [->|Hj]; [rewrite !lookup_insert_eq|rewrite !lookup_insert_ne // live_heap_Some]; naive_solver.
Qed.
Lemma publish_ok : shard_ok variants s'.
Proof.
  pose proof Hok as [Hen Hh Hpa Hb Hi Hne Hv Hco Hcg Hby Hes Hls Hfs Hcl]. pose proof fresh_heap as Hfresh.
  assert (live_heap s !! id = None) as Hfl.
  { apply eq_None_not_Some. intros [a Ha%live_heap_Some]. destruct Ha. congruence. }
  split.
  - intros j a. rewrite publish_heap. destruct (decide (j = id)) as [->|Hj].
    + rewrite lookup_insert_eq. intros [= <-]. destruct Hst as [Hf Ht Hw]. split; simpl; try done; [lia|].
      unfold is_failure. simpl. intros Hfail%bool_decide_eq_true. by apply Hf.
    + rewrite lookup_insert_ne //. intros Ha. eapply entry_ok_mono, Hen; [|done]. simpl. lia.
  - intros j. rewrite publish_heap publish_live. change (readers s') with (readers s).
    destruct (decide (j = id)) as [->|Hj]; [rewrite lookup_insert_eq; naive_solver|rewrite lookup_insert_ne // Hh; naive_solver].
  - intros b j a. rewrite publish_resident publish_heap. destruct (decide (j = id)) as [->|Hj].
    + rewrite lookup_insert_eq. intros Hin [= <-]. destruct (Bool.eqb b (st_negative st)) eqn:E; [by apply Bool.eqb_prop in E|].
      exfalso. by apply fresh_live, (resident_live b).
    + rewrite lookup_insert_ne //. intros Hin. apply Hpa. destruct (Bool.eqb b (st_negative st)); [|done].
      apply elem_of_cons in Hin as [|]; done.
  - intros k' j. rewrite publish_ids. setoid_rewrite publish_live. rewrite publish_heap.
    assert (j ≠ id → (j ∈ ids s k' ↔ ∃ a, (live s j ∨ j = id) ∧ <[id := norm e]> (heap s) !! j = Some a ∧ e_key a = k')) as Hold.
    { intros Hj. rewrite Hb. setoid_rewrite (lookup_insert_ne (heap s) id j); [|done]. naive_solver. }
    destruct (decide (j = id)) as [->|Hj].
    + assert (id ∉ ids s k') as Hn by (rewrite Hb; intros (? & Hl & _); by apply fresh_live).
      destruct (decide (k' = k)) as [->|Hk]; split.
      * intros _. exists (norm e). split; [by right|]. by rewrite lookup_insert_eq.
      * intros _. apply elem_of_snoc. by right.
      * done.
      * intros (a & _ & Ha & Hak). rewrite lookup_insert_eq in Ha. injection Ha as <-. simpl in Hak. congruence.
    + destruct (decide (k' = k)) as [->|Hk]; [|by apply Hold]. rewrite elem_of_snoc -Hold //. naive_solver.
  - intros k'. rewrite publish_ids. destruct (decide (k' = k)) as [->|Hk]; [|done]. apply NoDup_app. split_and!; [done| |apply NoDup_singleton].
    intros j Hin ->%list_elem_of_singleton. apply Hb in Hin as (? & Hl & _). by apply fresh_live.
  - intros k'. cbn [buckets publish]. destruct (decide (k' = k)) as [->|Hk]; [rewrite lookup_insert_eq|by rewrite lookup_insert_ne].
    by destruct (default [] (buckets s !! k)).
  - intros k'. rewrite publish_ids. destruct (decide (k' = k)) as [->|Hk]; [|done]. rewrite length_app /=. lia.
  - assert (∀ j a, live_heap s !! j = Some a → compatible (norm e) a) as Hnew.
    { intros j a Ha Hkey Hover. apply live_heap_Some in Ha as [Ha Hl]. pose proof (eo_id _ _ _ (Hen _ _ Ha)) as Hid.
      apply heap_Some in Ha as (a' & Ha' & <-). simpl in Hkey, Hover, Hid. subst j.
      assert (a' ∈ bucket s k) as Hin by by apply (in_bucket variants).
      pose proof (Hcompat _ Hin) as Hc. rewrite scopes_overlap_comm in Hover. specialize (Hc Hover).
      change (is_failure (norm a')) with (is_failure a'). change (is_failure (norm e)) with (bool_decide (is_Some (st_failure st))).
      rewrite Hc. by rewrite negb_involutive. }
    intros i j x y Hij. rewrite publish_live_heap. destruct (decide (i = id)) as [->|Hi'], (decide (j = id)) as [->|Hj']; [done|..].
    + rewrite lookup_insert_eq lookup_insert_ne //. intros [= <-] Hy. by eapply Hnew.
    + rewrite lookup_insert_eq lookup_insert_ne //. intros Hx [= <-]. intros Hkey Hover.
      pose proof (Hnew i x Hx (eq_sym Hkey)) as Hc. rewrite scopes_overlap_comm in Hover. rewrite (Hc Hover). by rewrite negb_involutive.
    + rewrite !lookup_insert_ne //. by apply Hco.
  - intros b. rewrite publish_heap total_insert // -Hcg. unfold charge_in. cbn [e_negative e_charge new_entry norm with_refreshed with_hits with_accessed].
    unfold publish. destruct b, (st_negative st); unfold part; simpl; lia.
  - intros b. destruct Hroom as [_ Hbytes]. specialize (Hby b). unfold publish in *. destruct b, (st_negative st); unfold part in *; simpl in *; lia.
  - intros b. rewrite (Permutation_length (publish_resident b)). destruct Hroom as [Hentries _]. specialize (Hes b).
    unfold publish in *. destruct b, (st_negative st); unfold part in *; simpl in *; lia.
  - rewrite publish_live_heap total_insert // -Hls. simpl. lia.
  - rewrite publish_live_heap total_insert // -Hfs. unfold is_failure. simpl. lia.
  - simpl. lia.
Qed.
End publish.

(** ** Placement *)
Lemma min_by_elem {A} (f : A → Z) l x : min_by f l = Some x → x ∈ l.
Proof.
  revert x. induction l as [|y l IH]; intros x; simpl; [done|]. destruct (min_by f l) as [m|].
  - case_bool_decide; intros [= <-]; [left|right; by apply IH].
  - intros [= <-]. left.
Qed.
(** An admission: some entries of the partition go, then the new one comes. *)
Definition placed (variants : nat) k st ch now (superseded : bool) s s' (d : StoreDecision) : Prop :=
  ∃ gone s1, shard_ok variants s1 ∧ shrunk gone s s1 ∧ (∀ id, id ∈ gone → id ∈ resident (st_negative st) s) ∧
    (d = mkStoreDecision (if superseded then Replaced else Admission) None ∧ s' = publish k st ch now s1 ∨
     (d = rejected Capacity superseded ∨ d = rejected VariantLimit superseded) ∧ s' = with_counts (count_rejection 1 (counts s1)) s1).

Lemma reject_wp variants r superseded (v : View) :
  shard_ok variants (shard v) →
  wp (reject r superseded) (λ d v', d = rejected r superseded ∧ shard_ok variants (shard v') ∧
      shard v' = with_counts (count_rejection 1 (counts (shard v))) (shard v)) (λ _ _, False) v.
Proof.
  intros Hok. unfold reject. apply wp_bind, wp_modify, wp_ret. split; [done|]. split; [|done].
  eapply shard_ok_same; [apply same_counts|done].
Qed.
Lemma shrunk_bucket variants gone s s' k e :
  shard_ok variants s → shard_ok variants s' → shrunk gone s s' → e ∈ bucket s' k → e ∈ bucket s k ∧ e_id e ∉ gone.
Proof.
  intros Hok Hok' Hs. rewrite (in_bucket variants s') // (in_bucket variants s) // (shrunk_live _ _ _ _ Hs).
  intros ([Hl Hn] & He & Hk). rewrite (sh_arcs _ _ _ Hs) // in He.
Qed.
Lemma room_for_shrunk variants gone s s' k st :
  shard_ok variants s → shard_ok variants s' → shrunk gone s s' → room_for k st s → room_for k st s'.
Proof. intros Hok Hok' Hs Hr e Hin. apply Hr. by apply (shrunk_bucket variants gone s s'). Qed.

Lemma place_wp config k st now superseded (v : View) :
  let variants := max_variants config in
  shard_ok variants (shard v) → stored_ok st → 0 ≤ charge (st_wire st) k → room_for k st (shard v) →
  wp (place config k st now superseded)
    (λ d v', shard_ok variants (shard v') ∧ placed variants k st (charge (st_wire st) k) now superseded (shard v) (shard v') d)
    (λ _ _, False) v.
Proof.
  intros variants Hok Hst Hch Hroom. unfold place. set (ch := charge (st_wire st) k) in *. set (b := st_negative st).
  apply wp_bind, wp_get.
  assert (∀ gone (v1 : View) r, shard_ok variants (shard v1) → shrunk gone (shard v) (shard v1) →
    (∀ id, id ∈ gone → id ∈ resident b (shard v)) → r = Capacity ∨ r = VariantLimit →
    wp (reject r superseded) (λ d v', shard_ok variants (shard v') ∧ placed variants k st ch now superseded (shard v) (shard v') d) (λ _ _, False) v1) as Hrej.
  { intros gone v1 r Hok1 Hs Hin Hr. eapply wp_mono; [| |by apply (reject_wp variants)]; [|done].
    intros d v' (-> & Hok' & Heq). split; [done|]. exists gone, (shard v1). split; [done|]. split; [done|]. split; [done|]. right.
    split; [destruct Hr as [-> | ->]; auto|done]. }
  destruct (_ || _).
  { apply (Hrej []); [done|apply shrunk_refl|by intros ? ?%elem_of_nil|by left]. }
  set (publish_ := let* room := make_room b ch now in _).
  assert (∀ gone (v1 : View), shard_ok variants (shard v1) → shrunk gone (shard v) (shard v1) →
    (∀ id, id ∈ gone → id ∈ resident b (shard v)) → (length (ids (shard v1) k) < Nat.max 1 variants)%nat →
    wp publish_ (λ d v', shard_ok variants (shard v') ∧ placed variants k st ch now superseded (shard v) (shard v') d) (λ _ _, False) v1) as Hpub.
  { intros gone v1 Hok1 Hs Hin Hvar. apply wp_bind. eapply wp_mono; [| |by apply (make_room_wp variants)]; [|done].
    intros room v2 (Hok2 & (gone2 & Hs2 & Hin2 & _) & Hr). pose proof (shrunk_trans _ _ _ _ _ Hs Hs2) as Hs12.
    assert (∀ id, id ∈ gone ++ gone2 → id ∈ resident b (shard v)) as Hin12.
    { intros id [|Hid%Hin2]%elem_of_app; [by apply Hin|]. rewrite (sh_resident _ _ _ Hs) list_elem_of_filter in Hid. by destruct Hid. }
    destruct room; [|apply (Hrej (gone ++ gone2)); auto]. apply wp_bind, wp_modify, wp_ret. cbn [shard]. split.
    - apply publish_ok; try done.
      + rewrite (sh_ids _ _ _ Hs2). eapply Nat.le_lt_trans; [apply length_filter|done].
      + by apply (room_for_shrunk variants (gone ++ gone2) (shard v)).
    - exists (gone ++ gone2), (shard v2). split; [done|]. split; [done|]. split; [done|]. by left. }
  unfold variant_victim. destruct (buckets (shard v) !! k) as [l|] eqn:Eb.
  2: { apply (Hpub []); [done|apply shrunk_refl|by intros ? ?%elem_of_nil|]. unfold ids. rewrite Eb. simpl. lia. }
  assert (ids (shard v) k = l) as Hids by by rewrite /ids Eb.
  case_bool_decide as Hfull.
  2: { apply (Hpub []); [done|apply shrunk_refl|by intros ? ?%elem_of_nil|]. rewrite Hids. lia. }
  destruct (min_by accessed _) as [e|] eqn:Em; [|apply (Hrej []); [done|apply shrunk_refl|by intros ? ?%elem_of_nil|by right]].
  apply min_by_elem, list_elem_of_filter in Em as [Hneg Hin].
  assert (e ∈ bucket (shard v) k) as Hbk by by rewrite /bucket -/(ids _ _) Hids.
  pose proof (in_bucket_resident variants _ _ _ Hok Hbk) as Hres.
  apply wp_bind. eapply wp_mono; [| |by apply (evict_wp variants)]; [|done].
  intros _ v1 [Hok1 Hs1]. apply (Hpub [e_id e]); [done|done| |].
  - intros id ->%list_elem_of_singleton. rewrite Hneg in Hres. exact Hres.
  - rewrite (sh_ids _ _ _ Hs1). pose proof (so_variants _ _ Hok k) as Hv.
    assert (e_id e ∈ ids (shard v) k) as Hid.
    { apply (so_bucket _ _ Hok). apply (in_bucket variants) in Hbk as (Hl & He & Hk); [|done]. exists (norm e).
      split; [done|]. split; [by apply arcs_heap|done]. }
    pose proof (length_filter_lt (λ i, i ∉ [e_id e]) (ids (shard v) k) (e_id e) Hid ltac:(intros Hn; apply Hn; left)). lia.
Qed.

(** With room, nothing goes. *)
Lemma charged_nonneg variants b s : shard_ok variants s → 0 ≤ charged (part b s).
Proof.
  intros Hok. rewrite (so_charged _ _ Hok). apply total_nonneg. intros i e He. unfold charge_in.
  pose proof (eo_charge _ _ _ (so_entry _ _ Hok _ _ He)). destruct (Bool.eqb _ _); lia.
Qed.
Lemma make_room_fits b ch now (v : View) :
  has_room b ch (shard v) → wp (make_room b ch now) (λ r v', r = true ∧ v' = v) (λ _ _, False) v.
Proof.
  intros [Hen Hby]. unfold make_room. apply wp_bind, wp_get. apply wp_loop_step. unfold room_step. apply wp_bind, wp_get.
  assert (lru_len (lru (part b (shard v))) = length (resident b (shard v))) as -> by by rewrite len_iter /resident /keys length_fmap.
  rewrite bool_decide_false; [|lia]. rewrite bool_decide_false; [|lia]. by apply wp_ret.
Qed.
Lemma place_fits config k st now superseded (v : View) :
  let variants := max_variants config in
  shard_ok variants (shard v) → has_room (st_negative st) (charge (st_wire st) k) (shard v) →
  (∀ l, buckets (shard v) !! k = Some l → (length l < variants)%nat) →
  wp (place config k st now superseded)
    (λ d v', d = mkStoreDecision (if superseded then Replaced else Admission) None ∧
             shard v' = publish k st (charge (st_wire st) k) now (shard v))
    (λ _ _, False) v.
Proof.
  intros variants Hok Hroom Hvar. unfold place. apply wp_bind, wp_get. pose proof Hroom as [Hen Hby].
  pose proof (charged_nonneg variants (st_negative st) (shard v) Hok).
  rewrite bool_decide_false; [|lia]. rewrite bool_decide_false; [|lia]. simpl.
  fold variants. assert (variant_victim variants k (st_negative st) (shard v) = None) as ->.
  { unfold variant_victim. destruct (buckets (shard v) !! k) as [l|] eqn:E; [|done]. specialize (Hvar l eq_refl). rewrite bool_decide_false //. lia. }
  apply wp_bind. eapply wp_mono; [| |by apply make_room_fits]; [|done]. intros r v' [-> ->]. by apply wp_bind, wp_modify, wp_ret.
Qed.

(** ** How a shard evolves *)
(** Entries of [s] that are not [P] stay as they are; what is new in [s'] is [N]. *)
Record evolve (P N : Entry → Prop) s s' : Prop := {
  ev_stay id e : live s id → arcs s !! id = Some e → (live s' id ∧ arcs s' !! id = Some e) ∨ P e;
  ev_new id e : live s' id → arcs s' !! id = Some e → (live s id ∧ arcs s !! id = Some e) ∨ N e;
}.
Lemma evolve_refl (P N : Entry → Prop) s : evolve P N s s.
Proof. split; auto. Qed.
Lemma evolve_trans (P N : Entry → Prop) s1 s2 s3 : evolve P N s1 s2 → evolve P N s2 s3 → evolve P N s1 s3.
Proof.
  intros [Hs Hn] [Hs' Hn']. split; intros id e Hl He.
  - destruct (Hs _ _ Hl He) as [[? ?]|]; [by apply Hs'|by right].
  - destruct (Hn' _ _ Hl He) as [[? ?]|]; [by apply Hn|by right].
Qed.
Lemma evolve_mono (P N P' N' : Entry → Prop) s s' :
  (∀ e, P e → P' e) → (∀ e, N e → N' e) → evolve P N s s' → evolve P' N' s s'.
Proof. intros HP HN [Hs Hn]. split; intros id e Hl He; [destruct (Hs id e Hl He)|destruct (Hn id e Hl He)]; auto. Qed.
Lemma evolve_shrunk variants (P N : Entry → Prop) gone s s' :
  shard_ok variants s → shrunk gone s s' → (∀ e, live s (e_id e) → arcs s !! e_id e = Some e → e_id e ∈ gone → P e) → evolve P N s s'.
Proof.
  intros Hok Hs HP. split; intros id e Hl He.
  - destruct (live_entry variants s id Hok Hl) as (e' & He' & Hid). assert (e' = e) as -> by congruence. subst id.
    destruct (decide (e_id e ∈ gone)) as [Hin|Hn]; [right; by apply HP|left].
    rewrite (shrunk_live _ _ _ _ Hs) (sh_arcs _ _ _ Hs) //.
  - left. apply (shrunk_live _ _ _ _ Hs) in Hl as [Hl Hn]. rewrite (sh_arcs _ _ _ Hs) // in He.
Qed.
Lemma evolve_same (P N : Entry → Prop) s s' : same_parts s s' → arcs s' = arcs s → evolve P N s s'.
Proof. intros Hs Ha. split; intros id e; rewrite (same_live _ _ _ Hs) Ha; auto. Qed.
Lemma evolve_publish variants (P N : Entry → Prop) k st ch now s :
  shard_ok variants s → N (new_entry k st ch now s) → evolve P N s (publish k st ch now s).
Proof.
  intros Hok HN. pose proof (fresh_live variants s Hok) as Hfresh.
  split; intros id e; rewrite (publish_live variants s k st ch now Hok); cbn [arcs publish].
  - intros Hl He. left. split; [by left|]. rewrite lookup_insert_ne //. by intros <-.
  - destruct (decide (id = clock s + 1)) as [->|Hne].
    + rewrite lookup_insert_eq. intros _ [= <-]. by right.
    + rewrite lookup_insert_ne //. intros [Hl|]; [by left|done].
Qed.

Lemma evolve_placed variants (P N : Entry → Prop) k st ch now superseded s s' d :
  shard_ok variants s → placed variants k st ch now superseded s s' d →
  (∀ s1, store_admitted d = true → N (new_entry k st ch now s1)) → (∀ e, e_negative e = st_negative st → P e) →
  evolve P N s s' ∧ kept s s' ∧ sharing s' = sharing s.
Proof.
  intros Hok (gone & s1 & Hok1 & Hs & Hin & Hcase) HN HP.
  assert (evolve P N s s1) as Hev.
  { eapply evolve_shrunk; [done|exact Hs|]. intros e Hl He Hg. apply HP. apply Hin in Hg.
    by apply (so_part _ _ Hok _ _ (norm e) Hg), arcs_heap. }
  destruct Hcase as [[-> ->]|[_ ->]].
  - split_and!; [| |apply (sh_sharing _ _ _ Hs)].
    + eapply evolve_trans; [exact Hev|]. apply (evolve_publish variants); [done|]. apply HN. by destruct superseded.
    + eapply kept_trans; [by eapply shrunk_kept|apply publish_kept].
  - split_and!; [|exact (shrunk_kept _ _ _ Hs)|exact (sh_sharing _ _ _ Hs)].
    eapply evolve_trans; [exact Hev|]. by apply evolve_same; [apply same_counts|].
Qed.
End ops.
