(* ===== verification/CacheAdmission.v ===== *)
(** * Admission to a shard

    What admitting an answer, restoring a record and admitting a failure do to
    the shard of the key, under its lock. *)
From S2P Require Import Prelude Net Std Names Lru Dns Ecs Wire Protocol CacheData CacheAdmit Sharing SharingSafe CacheStore CacheInv CacheOps Cache.
Set Default Goal Selector "!".
Set Warnings "-rewrite-rw".
Local Open Scope Z_scope.
Local Open Scope rust_scope.

(** Sizes are sizes; encoded messages are octets; hosts are as configured. *)
Class LayoutSpec `{Layout} : Prop := { entry_size_pos : 0 ≤ size_of_entry; key_size_pos : 0 ≤ size_of_key }.
Class VecSpec `{MessageLib} : Prop := { vec_octets m w : to_vec m = Some w → octets w }.

Section admission.
Context `{MessageLib} `{!VecSpec} `{!DnsNames} `{!DnsNamesSpec} `{IpNetLib} `{!IpNetSpec _} `{LruLib} `{!LruSpec _}.
Context `{!Layout} `{!LayoutSpec} `{!RDataLib} `{!Sha256Lib}.
Implicit Types (s : Shard) (e : Entry) (k : Key) (cfg : CacheConfig).

Lemma charge_nonneg wire k : 0 ≤ charge wire k.
Proof. unfold charge. pose proof (name_len_nonneg (k_name k)). pose proof entry_size_pos. pose proof key_size_pos. lia. Qed.

(** The shard and its classification table. *)
Definition shard_inv cfg s : Prop :=
  shard_ok (max_variants cfg) s ∧ ∃ cap tr, reaches (ecs_sharing cfg) cap tr (sharing s).
(** The unsigned fields of a configuration are not negative. *)
Definition rule_ok (r : CacheRule) : Prop := 0 ≤ default 0 (cr_max_ttl_secs r) ∧ 0 ≤ default 0 (cr_negative_ttl_cap_secs r).
Record config_ok cfg : Prop := {
  cf_retention : 0 ≤ retention_secs (CacheData.stale cfg);
  cf_max_ttl : 0 ≤ max_ttl_secs cfg;
  cf_negative : 0 ≤ negative_ttl_cap_secs cfg;
  cf_servfail : 0 ≤ servfail_ttl_secs cfg;
  cf_rules : Forall rule_ok (c_rules cfg);
}.

Definition expired k now e : Prop := e_key e = k ∧ e_retention e ≤ age now e.
Definition supersedes k (sc : Scope) e : Prop := e_key e = k ∧ scopes_overlap (e_scope e) sc = true.
(** The scope an answer is stored under: its own, or the family it is shared with. *)
Definition stored_scope (learning : bool) (scope sc : Scope) : Prop :=
  sc = scope ∨ learning = true ∧ ∃ net, scope = ExactSource net ∧ sc = Learned (is_ipv4 (net_addr net)).

Lemma classify_wp cfg k scope fp lifetime now (v : View) :
  shard_inv cfg (shard v) → (∀ l, lifetime = Some l → 0 < l) →
  wp (classify cfg k scope fp lifetime now)
    (λ sc v', shard_inv cfg (shard v') ∧ stored_scope true scope sc ∧ same_parts (shard v) (shard v') ∧ arcs (shard v') = arcs (shard v))
    (λ _ _, False) v.
Proof.
  intros [Hok (cap & tr & Hr)] Hl. unfold classify. apply wp_bind, wp_zoom.
  assert (event_ok (Observed k scope fp lifetime now)) as Hev by (destruct lifetime; [by apply Hl|done]).
  pose proof (observe_wp (ecs_sharing cfg) cap tr (sharing (shard v)) k scope fp lifetime now (reaches_ok _ _ _ _ Hr) Hev) as Hobs.
  unfold wp in Hobs |- *. destruct (observe k scope fp lifetime now (ecs_sharing cfg) (sharing (shard v))) as [[o| | |] t] eqn:E; try done.
  unfold modify, bind, get, put, ret. cbn [shard useful unused]. split_and!.
  - split; [by eapply shard_ok_same; [|done]; split|]. exists cap. eexists. by eapply reaches_observe.
  - destruct Hobs as [_ [[_ ->]|(net & p & _ & _ & [->|[[-> _]|(-> & -> & _)]])]]; simpl; [by left..|].
    right. split; [done|]. by exists net.
  - by split.
  - done.
Qed.

Lemma evolve_remove (P N : Entry → Prop) cfg (Q : Entry → Prop) `{!∀ e, Decision (Q e)} k (v : View) :
  shard_inv cfg (shard v) → (∀ e, e ∈ bucket (shard v) k → Q e → P e) →
  wp (remove_all ((λ e, (e_negative e, e_id e)) <$> filter Q (bucket (shard v) k)))
    (λ _ v', shard_inv cfg (shard v') ∧ evolve P N (shard v) (shard v') ∧ kept (shard v) (shard v') ∧
       ∀ e, e ∈ bucket (shard v') k → e ∈ bucket (shard v) k ∧ ¬ Q e)
    (λ _ _, False) v.
Proof.
  intros [Hok Hr] HP. eapply wp_mono; [| |apply (remove_bucket_wp (max_variants cfg) Q); done]; [|done].
  intros _ v' (Hok' & _ & gone & Hs & Hgone). split_and!.
  - split; [done|]. by rewrite (sh_sharing _ _ _ Hs).
  - eapply evolve_shrunk; [done|exact Hs|]. intros e Hl He (e' & Hin & HQ & Hid)%Hgone.
    pose proof Hin as (_ & He' & _)%(in_bucket (max_variants cfg)); [|done]. rewrite Hid in He'.
    assert (e' = e) as -> by congruence. by apply HP.
  - by eapply shrunk_kept.
  - intros e Hin. destruct (shrunk_bucket _ _ _ _ _ _ Hok Hok' Hs Hin) as [Hin' Hn]. split; [done|]. intros HQ. apply Hn, Hgone.
    by exists e.
Qed.

Lemma prune_inv cfg (P N : Entry → Prop) k now (v : View) :
  shard_inv cfg (shard v) → (∀ e, expired k now e → P e) →
  wp (prune k now) (λ _ v', shard_inv cfg (shard v') ∧ evolve P N (shard v) (shard v') ∧ kept (shard v) (shard v')) (λ _ _, False) v.
Proof.
  intros Hinv HP. unfold prune. apply wp_bind, wp_get.
  eapply wp_mono; [| |apply (evolve_remove P N cfg (λ e, e_retention e ≤ age now e) k v Hinv)]; [|done|].
  - intros _ v' (? & ? & ? & _). done.
  - intros e Hin Hr. apply HP. destruct Hinv as [Hok _]. by apply (in_bucket (max_variants cfg)) in Hin as (_ & _ & Hk).
Qed.

(** ** Placing the new entry *)
Lemma new_entry_live variants k st ch now s :
  shard_ok variants s → shard_ok variants (publish k st ch now s) → new_entry k st ch now s ∈ bucket (publish k st ch now s) k.
Proof.
  intros Hok Hok'. apply (in_bucket variants); [done|]. split_and!; [|cbn [arcs publish]; apply lookup_insert_eq|done].
  apply (publish_live variants s k st ch now Hok). by right.
Qed.
(** What [place] adds to the invariant, beside the entry itself. *)
Lemma place_evolve cfg (P N : Entry → Prop) k st now superseded (v : View) :
  shard_inv cfg (shard v) → stored_ok st → room_for k st (shard v) → (∀ e, e_negative e = st_negative st → P e) →
  (∀ s1, N (new_entry k st (charge (st_wire st) k) now s1)) →
  wp (place cfg k st now superseded)
    (λ d v', shard_inv cfg (shard v') ∧ kept (shard v) (shard v') ∧
       evolve P (λ e, N e ∧ store_admitted d = true) (shard v) (shard v') ∧
       (store_admitted d = true → ∃ e, e ∈ bucket (shard v') k ∧ N e))
    (λ _ _, False) v.
Proof.
  intros [Hok Hr] Hst Hroom HP HN.
  eapply wp_mono; [| |apply (place_wp cfg k st now superseded v Hok Hst (charge_nonneg _ _) Hroom)]; [|done].
  intros d v' [Hok' Hpl]. destruct (evolve_placed (max_variants cfg) P (λ e, N e ∧ store_admitted d = true) _ _ _ _ _ _ _ _ Hok Hpl) as (Hev & Hk & Hsh); [by auto|done|].
  split_and!; [split; [done|by rewrite Hsh]|done|done|].
  intros Hd. destruct Hpl as (gone & s1 & Hok1 & _ & _ & [[_ Heq]|[[-> | ->] _]]); [|by destruct superseded..].
  exists (new_entry k st (charge (st_wire st) k) now s1). split; [|done]. rewrite Heq. rewrite Heq in Hok'. by apply (new_entry_live (max_variants cfg)).
Qed.

(** ** Admission of an answer *)
Notation Prepared := (DecisionReason + (list Z * Z * bool))%type.
Definition prep_ok (prep : Prepared) : Prop :=
  match prep with inr (wire, lifetime, _) => 0 < lifetime ∧ octets wire | inl _ => True end.
Definition retention_of cfg (p : Policy) (lifetime : Z) (negative : bool) : Z :=
  if p_stale p && negb negative then secs lifetime + secs (retention_secs (CacheData.stale cfg)) else secs lifetime.
(** [e] is the entry an admission makes. *)
Definition admitted_entry cfg k (p : Policy) (sc : Scope) (prep : Prepared) (now : Z) e : Prop :=
  match prep with
  | inr (wire, lifetime, negative) =>
      e_key e = k ∧ e_scope e = sc ∧ e_wire e = wire ∧ inserted e = now ∧ e_lifetime e = secs lifetime ∧
      e_retention e = retention_of cfg p lifetime negative ∧ e_negative e = negative ∧ e_failure e = None
  | inl _ => False
  end.
(** An entry that must go for the room of the new one is of its partition. *)
Definition victim (prep : Prepared) e : Prop := match prep with inr (_, _, negative) => e_negative e = negative | inl _ => False end.

Definition answer_stored cfg k p (wire : list Z) (lifetime : Z) (negative : bool) (sc : Scope) (refreshed : bool) (acc : option Z) : Stored :=
  mkStored wire sc (secs lifetime) (retention_of cfg p lifetime negative) negative None (p_prefetch p) refreshed acc.
Lemma answer_stored_ok cfg k p wire lifetime negative sc r acc :
  config_ok cfg → prep_ok (inr (wire, lifetime, negative)) → stored_ok (answer_stored cfg k p wire lifetime negative sc r acc).
Proof.
  intros [Hcfg _ _ _ _] [Hl Hw]. split; simpl; [by intros []| |done]. unfold retention_of, secs.
  destruct (p_stale p && negb negative); lia.
Qed.
Lemma answer_stored_new cfg k p wire lifetime negative sc r acc now s1 :
  admitted_entry cfg k p sc (inr (wire, lifetime, negative)) now
    (new_entry k (answer_stored cfg k p wire lifetime negative sc r acc) (charge wire k) now s1).
Proof. done. Qed.

Lemma admit_locked_wp cfg k p scope fp prep now origin (v : View) :
  shard_inv cfg (shard v) → config_ok cfg → prep_ok prep → restore_of origin = None →
  wp (admit_locked cfg k p scope fp prep now origin)
    (λ d v', shard_inv cfg (shard v') ∧ kept (shard v) (shard v') ∧
       ∃ sc, stored_scope (es_enabled (ecs_sharing cfg)) scope sc ∧
         evolve (λ e, expired k now e ∨ supersedes k sc e ∨ victim prep e)
                (λ e, admitted_entry cfg k p sc prep now e ∧ store_admitted d = true) (shard v) (shard v') ∧
         (∀ e, e ∈ bucket (shard v') k → supersedes k sc e → admitted_entry cfg k p sc prep now e) ∧
         (store_admitted d = true → ∃ e, e ∈ bucket (shard v') k ∧ admitted_entry cfg k p sc prep now e))
    (λ _ _, False) v.
Proof.
  intros Hinv Hcfg Hprep Hor. unfold admit_locked. rewrite Hor.
  set (P sc e := expired k now e ∨ supersedes k sc e ∨ victim prep e). set (N sc e := admitted_entry cfg k p sc prep now e).
  apply wp_bind. eapply wp_mono; [| |apply (prune_inv cfg (expired k now) (λ _, False)); done]; [|done].
  intros _ v1 (Hinv1 & Hev1 & Hk1). apply wp_bind.
  apply (wp_mono _ (λ sc v2, shard_inv cfg (shard v2) ∧ stored_scope (es_enabled (ecs_sharing cfg)) scope sc ∧
    same_parts (shard v1) (shard v2) ∧ arcs (shard v2) = arcs (shard v1)) _ (λ _ _, False)); [|done|].
  2: { rewrite (bool_decide_true (None = None)) // andb_true_r. destruct (es_enabled (ecs_sharing cfg)).
    - apply classify_wp; [done|]. intros l Hl. destruct prep as [r|[[w lt] n]]; simplify_eq. destruct Hprep. unfold secs. lia.
    - apply wp_ret. split_and!; [done|by left| |done]. by split. }
  intros sc v2 (Hinv2 & Hsc & Hsame & Harcs). apply wp_bind, wp_get.
  assert (∀ (P N : Entry → Prop), evolve P N (shard v1) (shard v2)) as Hev2 by (intros; by apply evolve_same).
  apply wp_bind. eapply wp_mono; [| |apply (evolve_remove (P sc) (λ _, False) cfg (λ e, scopes_overlap (e_scope e) sc = true) k v2 Hinv2)]; [|done|].
  2: { intros e Hin Ho. right. left. destruct Hinv2 as [Hok2 _]. by apply (in_bucket (max_variants cfg)) in Hin as (_ & _ & Hk). }
  intros _ v3 (Hinv3 & Hev3 & Hk3 & Hbk).
  assert (∀ d, evolve (P sc) (λ e, N sc e ∧ store_admitted d = true) (shard v) (shard v3)) as Hev.
  { intros d. eapply evolve_trans; [|eapply evolve_trans; [apply Hev2|]]; (eapply evolve_mono; [..|eassumption]); try done. intros e He. by left. }
  assert (kept (shard v) (shard v3)) as Hk13.
  { eapply kept_trans; [exact Hk1|]. eapply kept_trans; [exact (same_kept _ _ Hsame)|exact Hk3]. }
  destruct prep as [r|[[wire lifetime] negative]].
  - apply wp_ret. split_and!; [done|done|]. exists sc. split_and!; [done|apply Hev| |by case_bool_decide].
    intros e Hin [_ Ho]. apply Hbk in Hin as [_ Hn]. done.
  - eapply wp_mono; [| |apply (place_evolve cfg (P sc) (N sc) k (answer_stored cfg k p wire lifetime negative sc
        (match origin with Refresh => true | _ => false end) None) now _ v3 Hinv3)]; [|done|by apply answer_stored_ok| | |done].
    + intros d v' (Hinv' & Hk' & Hev' & Hadm). split_and!; [done|by eapply kept_trans|].
      exists sc. split_and!; [done|by eapply evolve_trans; [apply Hev|]| |done].
      intros e Hin [_ Ho]. destruct Hinv3 as [Hok3 _], Hinv' as [Hok' _].
      apply (in_bucket (max_variants cfg)) in Hin as (Hl & He & Hk); [|done].
      destruct (ev_new _ _ _ _ Hev' _ _ Hl He) as [[Hl3 He3]|[HN _]]; [|done].
      exfalso. apply (proj2 (Hbk e (proj2 (in_bucket (max_variants cfg) _ _ _ Hok3) (conj Hl3 (conj He3 Hk)))) Ho).
    + intros e Hin Ho. exfalso. by apply (proj2 (Hbk e Hin)).
    + intros e He. right. by right.
Qed.

(** ** Restoring a record of a snapshot *)
Lemma restore_room cfg k wire negative scope s :
  shard_ok (max_variants cfg) s → restore_refused cfg k wire negative scope s = false →
  p_max_bytes (part negative s) < usize_max →
  has_room negative (charge wire k) s ∧ (∀ l, buckets s !! k = Some l → (length l < max_variants cfg)%nat) ∧
  (∀ e, e ∈ bucket s k → scopes_overlap (e_scope e) scope = false).
Proof.
  intros Hok. unfold restore_refused. rewrite !orb_false_iff. intros [[Hen%bool_decide_eq_false Hby%bool_decide_eq_false] Hbk] Hlim.
  split; [|split].
  - split; [rewrite len_iter in Hen; unfold resident, keys; rewrite length_fmap; lia|]. unfold saturating_add in Hby. lia.
  - intros l Hl. rewrite Hl in Hbk. apply orb_false_iff in Hbk as [Hv%bool_decide_eq_false _]. lia.
  - intros e Hin. unfold bucket in Hin. destruct (buckets s !! k) as [l|]; [|by apply elem_of_nil in Hin].
    apply orb_false_iff in Hbk as [_ Ho]. apply not_true_iff_false. intros Ht. apply not_true_iff_false in Ho. apply Ho.
    apply existsb_exists. exists e. split; [by apply list_elem_of_In|done].
Qed.
Lemma publish_evolve cfg (P N : Entry → Prop) k st now s :
  shard_inv cfg s → stored_ok st → has_room (st_negative st) (charge (st_wire st) k) s →
  (∀ l, buckets s !! k = Some l → (length l < max_variants cfg)%nat) → room_for k st s →
  N (new_entry k st (charge (st_wire st) k) now s) →
  let s' := publish k st (charge (st_wire st) k) now s in
  shard_inv cfg s' ∧ kept s s' ∧ evolve P N s s' ∧ ∃ e, e ∈ bucket s' k ∧ N e.
Proof.
  intros [Hok Hr] Hst Hroom Hvar Hcompat HN s'.
  assert (shard_ok (max_variants cfg) s') as Hok'.
  { apply publish_ok; try done; [apply charge_nonneg|]. unfold ids. destruct (buckets s !! k) as [l|] eqn:E; simpl; [|lia].
    specialize (Hvar l eq_refl). lia. }
  split_and!; [done|apply publish_kept|by eapply evolve_publish|]. eexists. split; [by eapply new_entry_live|done].
Qed.
Lemma restore_locked_wp cfg k p scope fp prep now r (v : View) :
  shard_inv cfg (shard v) → config_ok cfg → prep_ok prep → (∀ b, p_max_bytes (part b (shard v)) < usize_max) →
  wp (admit_locked cfg k p scope fp prep now (Restored r))
    (λ d v', shard_inv cfg (shard v') ∧ kept (shard v) (shard v') ∧
       evolve (expired k now) (λ e, admitted_entry cfg k p scope prep now e ∧ store_admitted d = true) (shard v) (shard v') ∧
       (store_admitted d = true → ∃ e, e ∈ bucket (shard v') k ∧ admitted_entry cfg k p scope prep now e))
    (λ _ _, False) v.
Proof.
  intros Hinv Hcfg Hprep Hlim. unfold admit_locked. cbn [restore_of].
  apply wp_bind. eapply wp_mono; [| |apply (prune_inv cfg (expired k now) (λ _, False)); done]; [|done].
  intros _ v1 (Hinv1 & Hev1 & Hk1). rewrite (bool_decide_false (Some r = None)) // andb_false_r.
  apply wp_bind, wp_ret. apply wp_bind, wp_get.
  assert (∀ d N, evolve (expired k now) (λ e, N e ∧ store_admitted d = true) (shard v) (shard v1)) as Hev.
  { intros d N. eapply evolve_mono; [..|exact Hev1]; done. }
  destruct prep as [reason|[[wire lifetime] negative]].
  { apply wp_ret. split_and!; [done|done|apply Hev|done]. }
  destruct (restore_refused cfg k wire negative scope (shard v1)) eqn:Eref.
  { apply wp_ret. split_and!; [done|done|apply Hev|done]. }
  destruct Hinv1 as [Hok1 Hr1]. destruct (restore_room cfg k wire negative scope (shard v1) Hok1 Eref) as (Hroom & Hvar & Hover).
  { destruct (Hk1 negative) as [_ ->]. apply Hlim. }
  assert (overlapping (shard v1) k scope = []) as Hnone.
  { apply elem_of_nil_inv. intros e [Ho Hin]%list_elem_of_filter. by rewrite Hover in Ho. }
  rewrite Hnone. cbn [fmap list_fmap remove_all]. apply wp_bind, wp_ret. fold (retention_of cfg p lifetime negative).
  set (st := answer_stored cfg k p wire lifetime negative scope false (Some (r_accessed r))).
  eapply wp_mono; [| |apply (place_fits cfg k st now _ v1 Hok1 Hroom Hvar)]; [|done].
  intros d v' [-> Heq]. rewrite Heq.
  destruct (publish_evolve cfg (expired k now) (admitted_entry cfg k p scope (inr (wire, lifetime, negative)) now) k st now (shard v1))
    as (Hinv' & Hk' & Hev' & Hnew); [done|by apply answer_stored_ok|done|done|intros e Hin Ho; by rewrite Hover in Ho|done|].
  split_and!; [exact Hinv'|by eapply kept_trans| |done].
  eapply evolve_trans; [apply Hev|]. eapply evolve_mono; [..|exact Hev']; [done|]. intros e He. split; [done|].
  by destruct (bool_decide _).
Qed.

(** ** Admission of a failure *)
Definition failure_entry k (sc : Scope) (wire : list Z) (lifetime now : Z) (f : Failure) e : Prop :=
  e_key e = k ∧ e_scope e = sc ∧ e_wire e = wire ∧ inserted e = now ∧ e_lifetime e = secs lifetime ∧ e_retention e = secs lifetime ∧
  e_negative e = true ∧ e_failure e = Some f.
Lemma admit_failure_locked_wp cfg k scope wire lifetime now f (v : View) :
  shard_inv cfg (shard v) → 0 < lifetime → octets wire →
  wp (admit_failure_locked cfg k scope wire lifetime now f)
    (λ d v', shard_inv cfg (shard v') ∧ kept (shard v) (shard v') ∧
       evolve (λ e, expired k now e ∨ e_negative e = true)
              (λ e, failure_entry k scope wire lifetime now f e ∧ store_admitted d = true) (shard v) (shard v') ∧
       (store_admitted d = true → (∃ e, e ∈ bucket (shard v') k ∧ failure_entry k scope wire lifetime now f e) ∧
          ∀ e, e ∈ bucket (shard v') k → supersedes k scope e → is_failure e = false → e_lifetime e ≤ age now e))
    (λ _ _, False) v.
Proof.
  intros Hinv Hl Hw. unfold admit_failure_locked. set (P e := expired k now e ∨ e_negative e = true).
  set (N e := failure_entry k scope wire lifetime now f e).
  apply wp_bind. eapply wp_mono; [| |apply (prune_inv cfg P (λ _, False)); [done|by left]]; [|done].
  intros _ v1 (Hinv1 & Hev1 & Hk1). apply wp_bind, wp_get.
  destruct (existsb _ (overlapping (shard v1) k scope)) eqn:Efresh.
  { apply wp_ret. split_and!; [done|done| |done]. eapply evolve_mono; [..|exact Hev1]; done. }
  assert (∀ e, e ∈ bucket (shard v1) k → supersedes k scope e → is_failure e = false → e_lifetime e ≤ age now e) as Hstale.
  { intros e Hin [_ Ho] Hf. apply not_true_iff_false in Efresh. destruct (decide (age now e < e_lifetime e)); [|lia]. exfalso. apply Efresh.
    apply existsb_exists. exists e. split; [apply list_elem_of_In; by apply list_elem_of_filter|]. by rewrite Hf bool_decide_true. }
  pose proof Hinv1 as [Hok1 _].
  assert (∀ e, e ∈ bucket (shard v1) k → is_failure e = true → e_negative e = true) as Hneg.
  { intros e (_ & He & _)%(in_bucket (max_variants cfg)) Hf; [|done].
    by destruct (eo_failure _ _ _ (so_entry _ _ Hok1 _ _ (arcs_heap _ _ _ He)) Hf). }
  assert ((λ e, (true, e_id e)) <$> filter (λ e, is_failure e = true) (overlapping (shard v1) k scope) =
    (λ e, (e_negative e, e_id e)) <$> filter (λ e, is_failure e = true ∧ scopes_overlap (e_scope e) scope = true) (bucket (shard v1) k)) as ->.
  { unfold overlapping. rewrite list_filter_filter. apply list_fmap_ext. intros i e Hi.
    apply list_elem_of_lookup_2, list_elem_of_filter in Hi as [[Hf _] Hin]. by rewrite (Hneg e). }
  apply wp_bind.
  eapply wp_mono; [| |apply (evolve_remove P (λ _, False) cfg _ k v1 Hinv1)]; [|done|].
  2: { intros e Hin [Hf _]. right. by apply Hneg. }
  intros _ v2 (Hinv2 & Hev2 & Hk2 & Hbk). set (st := mkStored _ _ _ _ _ _ _ _ _).
  eapply wp_mono; [| |apply (place_evolve cfg P N k st now _ v2 Hinv2)]; [|done| | | |].
  - intros d v' (Hinv' & Hk' & Hev' & Hnew). split_and!; [done|by do 2 (eapply kept_trans; [eassumption|])| |].
    + eapply evolve_trans; [|eapply evolve_trans; [|exact Hev']]; (eapply evolve_mono; [..|eassumption]); done.
    + intros Hd. split; [by apply Hnew|]. intros e Hin Ho Hf. destruct Hinv' as [Hok' _], Hinv2 as [Hok2 _].
      apply (in_bucket (max_variants cfg)) in Hin as (Hlv & He & Hk); [|done].
      destruct (ev_new _ _ _ _ Hev' _ _ Hlv He) as [[Hl2 He2]|[HN _]].
      * apply Hstale; [|done|done]. apply Hbk. apply (in_bucket (max_variants cfg)); done.
      * unfold is_failure in Hf. destruct HN as (_ & _ & _ & _ & _ & _ & _ & Hfail). rewrite Hfail in Hf. by apply bool_decide_eq_false in Hf as [].
  - split; simpl; [done| |done]. unfold secs. lia.
  - intros e [Hin Hn]%Hbk Ho. simpl.
    apply not_true_iff_false. intros Hf. by apply Hn.
  - intros e He. by right.
  - done.
Qed.
End admission.
