(* ===== verification/CacheSafe.v ===== *)
(** * The cache from the outside

    The invariant of the whole cache, the steps its callers can take, and what
    each public operation promises from any cache they can reach. *)
From S2P Require Import Prelude Net Std Names Lru Dns Ecs Wire Protocol CacheData CacheAdmit Sharing SharingSafe CacheStore CacheInv CacheOps Cache CacheAdmission.
Set Default Goal Selector "!".
Set Warnings "-rewrite-rw".
Local Open Scope Z_scope.
Local Open Scope rust_scope.

Definition zsum {A} (f : A → Z) (l : list A) : Z := foldr (λ x a, f x + a) 0 l.
Lemma zsum_le {A} (f g : A → Z) l : Forall (λ x, f x ≤ g x) l → zsum f l ≤ zsum g l.
Proof. unfold zsum. induction 1; simpl; lia. Qed.
Lemma zsum_insert {A} (f : A → Z) l i x y : l !! i = Some x → f y = f x → zsum f (<[i := y]> l) = zsum f l.
Proof.
  intros Hi Hf. unfold zsum. revert i Hi. induction l as [|z l IH]; intros [|i] Hi; simpl in *; try done.
  - injection Hi as ->. lia.
  - by rewrite (IH i).
Qed.

Section cache.
Context `{MessageLib} `{!VecSpec} `{!DnsNames} `{!DnsNamesSpec} `{IpNetLib} `{!IpNetSpec _} `{LruLib} `{!LruSpec _}.
Context `{!Layout} `{!LayoutSpec} `{!RDataLib} `{!Sha256Lib} `{!DecoderLib} {DS : DecoderSpec}.
Implicit Types (s : Shard) (e : Entry) (k : Key) (c : Cache).

(** ** The invariant *)
Definition entry_limit s : Z := Z.of_nat (p_max_entries (part false s) + p_max_entries (part true s)).
Definition byte_limit s : Z := p_max_bytes (part false s) + p_max_bytes (part true s).
Record cache_ok c : Prop := {
  ck_some : shards c ≠ [];
  ck_shards : Forall (shard_inv (config c)) (shards c);
  ck_config : config_ok (config c);
  ck_entries : zsum entry_limit (shards c) ≤ Z.of_nat (max_entries (config c));
  ck_bytes : zsum byte_limit (shards c) ≤ max_bytes (config c);
  ck_usize : Forall (λ s, ∀ b, p_max_bytes (part b s) < usize_max) (shards c);
}.
(** What the operations leave alone. *)
Definition same_rest c c' : Prop := config c' = config c ∧ hash_one c' = hash_one c ∧ rules c' = rules c.

Lemma kept_limits s s' : kept s s' → entry_limit s' = entry_limit s ∧ byte_limit s' = byte_limit s.
Proof. intros Hk. unfold entry_limit, byte_limit. destruct (Hk false) as [-> ->], (Hk true) as [-> ->]. done. Qed.
Definition with_shard (i : nat) s' (u n : Z) c : Cache := with_outcomes u n (with_shards (<[i := s']> (shards c)) c).
Lemma cache_ok_shard c i s s' u n :
  cache_ok c → shards c !! i = Some s → shard_inv (config c) s' → kept s s' → cache_ok (with_shard i s' u n c).
Proof.
  intros [Hne Hsh Hcf Hen Hby Hus] Hi Hinv Hk. destruct (kept_limits _ _ Hk) as [Hle Hlb]. split; simpl; try done.
  - intros Hnil. apply (f_equal length) in Hnil. rewrite length_insert in Hnil. by destruct (shards c).
  - by apply Forall_insert.
  - by rewrite (zsum_insert _ _ _ s).
  - by rewrite (zsum_insert _ _ _ s).
  - apply Forall_insert; [done|]. intros b. destruct (Hk b) as [_ ->]. apply (proj1 (Forall_forall _ _) Hus s).
    by eapply list_elem_of_lookup_2.
Qed.
(** Counters and the epoch are free. *)
Lemma cache_ok_rest c c' : cache_ok c → same_rest c c' → shards c' = shards c → cache_ok c'.
Proof. intros [Hne Hsh Hcf Hen Hby Hus] (Hc & _ & _) Hs. split; by rewrite ?Hs ?Hc. Qed.

Lemma shard_index_ok c k : cache_ok c → ∃ i s, shard_index c k = Some i ∧ shards c !! i = Some s.
Proof.
  intros [Hne _ _ _ _ _]. unfold shard_index. rewrite bool_decide_false //.
  assert (0 < Z.of_nat (length (shards c))) as Hl by (destruct (shards c); [done|simpl; lia]).
  pose proof (Z.mod_pos_bound (hash_one c k) _ Hl).
  destruct (lookup_lt_is_Some_2 (shards c) (Z.to_nat (hash_one c k mod Z.of_nat (length (shards c))))) as [s Hs]; [lia|]. by eexists _, s.
Qed.
(** The shard of a key: where it is and what is in it. *)
Definition shard_of c k (i : nat) s : Prop := shard_index c k = Some i ∧ shards c !! i = Some s.

Lemma lock_wp {A} k (m : C A) c (Q : A → Shard → Prop) :
  cache_ok c →
  (∀ i s v, shard_of c k i s → shard_inv (config c) s → shard v = s →
    wp m (λ a v', shard_inv (config c) (shard v') ∧ kept s (shard v') ∧ Q a (shard v')) (λ _ _, False) v) →
  wp (lock k m) (λ a c', cache_ok c' ∧ ∃ i s s' u n, shard_of c k i s ∧ c' = with_shard i s' u n c ∧ Q a s') (λ _ _, False) c.
Proof.
  intros Hok Hm. unfold lock. apply wp_bind, wp_get. destruct (shard_index_ok c k Hok) as (i & s & Hi & Hs).
  apply wp_bind. eapply wp_expect; [exact Hi|]. unfold locked, wp. rewrite Hs.
  pose proof (proj1 (Forall_forall _ _) (ck_shards _ Hok) s (list_elem_of_lookup_2 _ _ _ Hs)) as Hinv.
  specialize (Hm i s (mkView s (refresh_useful c) (refresh_unused c)) (conj Hi Hs) Hinv eq_refl). unfold wp in Hm.
  destruct (m (mkView s (refresh_useful c) (refresh_unused c))) as [[a|e| |] v]; try done. destruct Hm as (Hinv' & Hk & HQ).
  split; [by apply (cache_ok_shard c i s)|]. by exists i, s, (shard v), (useful v), (unused v).
Qed.

(** ** Preparing an answer *)
(** Unsigned fields of a message. *)
Definition rr_ok (rr : Rr) : Prop := 0 ≤ rr_ttl rr ∧ match rr_data rr with RSoa soa => 0 ≤ minimum soa | _ => True end.
Definition message_ok (m : Message) : Prop := Forall rr_ok (sections m).
Definition origin_ok (o : Origin) : Prop := match o with Restored r => 0 ≤ r_remaining r | _ => True end.

Lemma policy_ok cfg compiled k name : config_ok cfg →
  0 ≤ p_max_ttl (policy cfg compiled k name) ∧ 0 ≤ p_negative_cap (policy cfg compiled k name).
Proof.
  intros [_ Hmax Hneg _ Hrules]. unfold policy. simpl. set (r := find_rule _ _ _ _ ≫= _).
  assert (∀ cr, r = Some cr → rule_ok cr) as Hr.
  { intros cr (x & _ & Hx)%bind_Some. apply (proj1 (Forall_forall _ _) Hrules). by eapply list_elem_of_lookup_2. }
  destruct r as [cr|]; [|done]. destruct (Hr cr eq_refl) as [Hrm Hrn]. simpl.
  split; [destruct (cr_max_ttl_secs cr)|destruct (cr_negative_ttl_cap_secs cr)]; done.
Qed.
Lemma denial_ttl_nonneg question response t : message_ok response → denial_ttl question response t → 0 ≤ t.
Proof.
  intros Hm. assert (∀ rr soa, rr ∈ authorities response → rr_data rr = RSoa soa → 0 ≤ Z.min (rr_ttl rr) (minimum soa)) as Hrr.
  { intros rr soa Hin Hd. destruct (proj1 (Forall_forall _ _) Hm rr) as [Ht Hs]; [unfold sections; rewrite !elem_of_app; auto|].
    rewrite Hd in Hs. lia. }
  unfold denial_ttl. destruct (decide _).
  - intros [Hin _]%list_min_Some. unfold soa_candidates in Hin. apply list_elem_of_omap in Hin as (rr & Hin & Hrr').
    destruct (rr_data rr) as [|soa|] eqn:Ed; try done. destruct (_ && _); simplify_eq. by eapply Hrr.
  - intros [_ (terminal & nodes & _ & _ & [Hin _]%list_min_Some)]. unfold soa_ttls in Hin.
    apply list_elem_of_omap in Hin as (rr & Hin & Hrr'). destruct (rr_data rr) as [|soa|] eqn:Ed; simplify_eq. by eapply Hrr.
Qed.
Lemma storable_pos question response p lifetime :
  message_ok response → 0 ≤ p_max_ttl p → 0 ≤ p_negative_cap p → storable question response p lifetime → 0 < lifetime.
Proof.
  intros Hm Hmax Hcap (_ & _ & Hne & Hmin). assert (0 ≤ lifetime); [|lia].
  assert (∀ t, t ∈ rr_ttl <$> sections response → 0 ≤ t) as Httl.
  { intros t (rr & -> & Hin)%list_elem_of_fmap. by destruct (proj1 (Forall_forall _ _) Hm rr Hin). }
  destruct (is_negative question response).
  - destruct Hmin as (t & Ht & [Hin _]). apply denial_ttl_nonneg in Ht; [|done].
    rewrite elem_of_app !elem_of_cons in Hin. destruct Hin as [[->|[->|[->|Hin]]]|Hin]; [lia..|by apply elem_of_nil in Hin|by apply Httl].
  - destruct Hmin as [Hin _]. rewrite elem_of_app !elem_of_cons in Hin.
    destruct Hin as [[->|Hin]|Hin]; [lia|by apply elem_of_nil in Hin|by apply Httl].
Qed.
(** What the prepared wire is. *)
Definition prepared_as question response p (restore : option Restore) (wire : list Z) (lifetime : Z) (negative : bool) : Prop :=
  ∃ stored full, storable question response p full ∧ stored_of p response full stored ∧ to_vec stored = Some wire ∧
    negative = is_negative question response ∧ lifetime = match restore with Some r => Z.min full (r_remaining r) | None => full end.
Lemma prepared_wp question response p restore :
  message_ok response → 0 ≤ p_max_ttl p → 0 ≤ p_negative_cap p → match restore with Some r => 0 ≤ r_remaining r | None => True end →
  wp (prepared question response p restore)
    (λ r _, let '(wire, lifetime, negative) := r in prep_ok (inr (wire, lifetime, negative)) ∧ prepared_as question response p restore wire lifetime negative)
    (λ _ _, True) tt.
Proof.
  intros Hm Hmax Hcap Hre. unfold prepared. apply wp_bind. eapply wp_mono; [| |apply prepare_response_wp]; [|done].
  intros [[stored lifetime] negative] [] (Hs & -> & Hst). case_bool_decide as Hz; [by apply wp_fail|].
  apply wp_bind, wp_ok_or; [|done]. intros wire Hw. apply wp_ret. pose proof (storable_pos _ _ _ _ Hm Hmax Hcap Hs).
  split; [split; [destruct restore; lia|by eapply vec_octets]|]. by exists stored, lifetime.
Qed.
Lemma attempt_wp question response p restore c :
  message_ok response → 0 ≤ p_max_ttl p → 0 ≤ p_negative_cap p → match restore with Some r => 0 ≤ r_remaining r | None => True end →
  wp (attempt (prepared question response p restore))
    (λ prep c', c' = c ∧ prep_ok prep ∧ match prep with
       | inr (wire, lifetime, negative) => prepared_as question response p restore wire lifetime negative
       | inl _ => True end)
    (λ _ _, False) c.
Proof.
  intros Hm Hmax Hcap Hre. pose proof (prepared_wp question response p restore Hm Hmax Hcap Hre) as Hp.
  unfold attempt, wp in *. destruct (prepared question response p restore tt) as [[[[w l] n]|r| |] []]; done.
Qed.

(** ** Admission *)
Definition on_shard k c c' (R : nat → Shard → Shard → Prop) : Prop :=
  ∃ i s s' u n, shard_of c k i s ∧ c' = with_shard i s' u n c ∧ R i s s'.
Lemma key_of_wp query c :
  queries query ≠ [] → wp (key_of query) (λ r c', c' = c ∧ queries query !! 0%nat = Some r.1 ∧ r.2 = key_of_query r.1 query) (λ _ _, False) c.
Proof.
  intros Hq. unfold key_of. destruct (queries query) as [|q qs] eqn:Eq; [done|].
  apply wp_bind. eapply wp_expect; [reflexivity|]. by apply wp_ret.
Qed.
Lemma epoch_locked_wp {A} k (e : Z) (old : C A) (fresh : CacheConfig → C A) c (Q : A → Shard → Shard → Prop) :
  cache_ok c →
  (∀ s v, shard_inv (config c) s → (∀ b, p_max_bytes (part b s) < usize_max) → shard v = s →
    wp (if bool_decide (e ≠ epoch c) then old else fresh (config c))
      (λ a v', shard_inv (config c) (shard v') ∧ kept s (shard v') ∧ Q a s (shard v')) (λ _ _, False) v) →
  wp (epoch_locked k e old fresh) (λ a c', cache_ok c' ∧ on_shard k c c' (λ _ s s', Q a s s')) (λ _ _, False) c.
Proof.
  intros Hok Hm. unfold epoch_locked. apply wp_bind, wp_get.
  eapply wp_mono; [| |apply (lock_wp k _ c (λ a s', ∃ i s, shard_of c k i s ∧ Q a s s') Hok)]; [|done|].
  - intros a c' (Hok' & i & s & s' & u & n & Hs & -> & i2 & s2 & Hs2 & HQ). split; [done|].
    assert (s2 = s) as -> by (destruct Hs, Hs2; congruence). by exists i, s, s', u, n.
  - intros i s v Hs Hinv Hv. eapply wp_mono; [| |apply (Hm s v Hinv)]; [|done| |done].
    + intros a v' (Hinv' & Hk & HQ). split_and!; [done..|]. by exists i, s.
    + apply (proj1 (Forall_forall _ _) (ck_usize _ Hok) s). destruct Hs. by eapply list_elem_of_lookup_2.
Qed.

(** The decision [r] was taken before any lock. *)
Definition not_locked (d : StoreDecision) c c' : Prop := c' = c ∧ ∃ r, d = skipped r.
Definition late (d : StoreDecision) s s' : Prop := d = skipped EpochChanged ∧ ∃ n, s' = with_counts (count_rejection n (counts s)) s.
(** An answer of the current epoch reached its shard. *)
Definition answered cfg k (p : Policy) question response (scope : Scope) (now : Z) (d : StoreDecision) s s' : Prop :=
  ∃ sc prep, stored_scope (es_enabled (ecs_sharing cfg)) scope sc ∧
    match prep with inr (wire, lifetime, negative) => prepared_as question response p None wire lifetime negative | inl _ => True end ∧
    evolve (λ e, expired k now e ∨ supersedes k sc e ∨ victim prep e)
           (λ e, admitted_entry cfg k p sc prep now e ∧ store_admitted d = true) s s' ∧
    (∀ e, e ∈ bucket s' k → supersedes k sc e → admitted_entry cfg k p sc prep now e) ∧
    (store_admitted d = true → ∃ e, e ∈ bucket s' k ∧ admitted_entry cfg k p sc prep now e).
Definition restored cfg k (p : Policy) question response (scope : Scope) (now : Z) (r : Restore) (d : StoreDecision) s s' : Prop :=
  ∃ prep,
    match prep with inr (wire, lifetime, negative) => prepared_as question response p (Some r) wire lifetime negative | inl _ => True end ∧
    evolve (expired k now) (λ e, admitted_entry cfg k p scope prep now e ∧ store_admitted d = true) s s' ∧
    (store_admitted d = true → ∃ e, e ∈ bucket s' k ∧ admitted_entry cfg k p scope prep now e).
Definition origin_effect cfg k p question response scope now (origin : Origin) (d : StoreDecision) s s' : Prop :=
  match origin with
  | Restored r => restored cfg k p question response scope now r d s s'
  | _ => answered cfg k p question response scope now d s s'
  end.

Lemma late_wp cfg n s v :
  shard_inv cfg s → shard v = s →
  wp (modify (λ s, with_counts (count_rejection n (counts s)) s);;; ret (skipped EpochChanged))
    (λ d v', shard_inv cfg (shard v') ∧ kept s (shard v') ∧ late d s (shard v')) (λ _ _, False) v.
Proof.
  intros [Hok Hr] <-. apply wp_bind, wp_modify, wp_ret. split_and!; [split; [|done]|done|split; [done|by eexists]].
  eapply shard_ok_same; [apply same_counts|done].
Qed.
Lemma admit_wp query response scope now (e : Z) origin c :
  cache_ok c → queries query ≠ [] → message_ok response → origin_ok origin →
  wp (admit_ query response scope now e origin)
    (λ d c', cache_ok c' ∧ (not_locked d c c' ∨ ∃ question k, queries query !! 0%nat = Some question ∧ key_of_query question query = Some k ∧
       on_shard k c c' (λ _ s s', if decide (e = epoch c)
         then origin_effect (config c) k (policy (config c) (rules c) k (q_name question)) question response scope now origin d s s'
         else late d s s')))
    (λ _ _, False) c.
Proof.
  intros Hok Hq Hm Hor. unfold admit_. apply wp_bind. eapply wp_mono; [| |by apply key_of_wp]; [|done].
  intros [question key] c0 (-> & Hq0 & Hkey). simpl in Hq0, Hkey.
  assert (∀ r, wp (ret (A:=StoreDecision) (skipped r) : CM _) (λ d c', cache_ok c' ∧ (not_locked d c c' ∨ ∃ question k,
    queries query !! 0%nat = Some question ∧ key_of_query question query = Some k ∧
    on_shard k c c' (λ _ s s', if decide (e = epoch c)
      then origin_effect (config c) k (policy (config c) (rules c) k (q_name question)) question response scope now origin d s s'
      else late d s s'))) (λ _ _, False) c) as Hskip.
  { intros r. apply wp_ret. split; [done|]. left. split; [done|by exists r]. }
  destruct key as [k|]; [|by apply Hskip]. apply wp_bind, wp_get. set (p := policy (config c) (rules c) k (q_name question)).
  destruct (bypass p); [by apply Hskip|]. destruct (negb (superseding_edns response)); [by apply Hskip|].
  destruct (_ || _); [by apply Hskip|].
  destruct (policy_ok (config c) (rules c) k (q_name question) (ck_config _ Hok)) as [Hmax Hcap].
  apply wp_bind. eapply wp_mono; [| |apply attempt_wp; try done]; [|done|by destruct origin].
  intros prep c0 (-> & Hprep & Has). eapply wp_mono; [| |apply (epoch_locked_wp _ _ _ _ _ (λ d s s', if decide (e = epoch c)
      then origin_effect (config c) k p question response scope now origin d s s' else late d s s') Hok)]; [|done|].
  - intros d c' [Hok' Hs]. split; [done|]. right. by exists question, k.
  - intros s v Hinv Hlim Hv. destruct (decide (e = epoch c)) as [He|He].
    + rewrite bool_decide_false; [|by intros []]. subst s. destruct origin as [| |r]; simpl in Has, Hor.
      * eapply wp_mono; [| |apply (admit_locked_wp (config c) k p scope _ prep now Answer v Hinv (ck_config _ Hok) Hprep eq_refl)]; [|done].
        intros d v' (Hinv' & Hk & sc & Hsc & Hev & Hsup & Hadm). split_and!; [done..|]. by exists sc, prep.
      * eapply wp_mono; [| |apply (admit_locked_wp (config c) k p scope _ prep now Refresh v Hinv (ck_config _ Hok) Hprep eq_refl)]; [|done].
        intros d v' (Hinv' & Hk & sc & Hsc & Hev & Hsup & Hadm). split_and!; [done..|]. by exists sc, prep.
      * eapply wp_mono; [| |apply (restore_locked_wp (config c) k p scope _ prep now r v Hinv (ck_config _ Hok) Hprep Hlim)]; [|done].
        intros d v' (Hinv' & Hk & Hev & Hadm). split_and!; [done..|]. by exists prep.
    + rewrite bool_decide_true //. by apply late_wp.
Qed.

(** ** Failures *)
Definition failure_lifetime c (p : Policy) : Z := Z.min (servfail_ttl_secs (config c)) (p_negative_cap p).
Definition failed k (scope : Scope) (wire : list Z) (lifetime now : Z) (f : Failure) (d : StoreDecision) s s' : Prop :=
  evolve (λ e, expired k now e ∨ e_negative e = true)
         (λ e, failure_entry k scope wire lifetime now f e ∧ store_admitted d = true) s s' ∧
  (store_admitted d = true → (∃ e, e ∈ bucket s' k ∧ failure_entry k scope wire lifetime now f e) ∧
     ∀ e, e ∈ bucket s' k → supersedes k scope e → is_failure e = false → e_lifetime e ≤ age now e).
Lemma admit_failure_wp query response scope now (e : Z) f c :
  cache_ok c → queries query ≠ [] →
  wp (admit_failure query response scope now e f)
    (λ d c', cache_ok c' ∧ (not_locked d c c' ∨ ∃ question k wire, queries query !! 0%nat = Some question ∧
       key_of_query question query = Some k ∧ response_code response = ServFail ∧ to_vec (failure_message query response) = Some wire ∧
       on_shard k c c' (λ _ s s', if decide (e = epoch c)
         then failed k scope wire (failure_lifetime c (policy (config c) (rules c) k (q_name question))) now f d s s'
         else late d s s')))
    (λ _ _, False) c.
Proof.
  intros Hok Hq. unfold admit_failure. apply wp_bind. eapply wp_mono; [| |by apply key_of_wp]; [|done].
  intros [question key] c0 (-> & Hq0 & Hkey). simpl in Hq0, Hkey.
  assert (∀ r (P : StoreDecision → Cache → Prop), wp (ret (A:=StoreDecision) (skipped r) : CM _)
    (λ d c', cache_ok c' ∧ (not_locked d c c' ∨ P d c')) (λ _ _, False) c) as Hskip.
  { intros r P. apply wp_ret. split; [done|]. left. split; [done|by exists r]. }
  destruct key as [k|]; [|by apply Hskip]. apply wp_bind, wp_get. set (p := policy (config c) (rules c) k (q_name question)).
  destruct (bypass p); [by apply Hskip|]. fold (failure_lifetime c p).
  destruct (_ || bool_decide (failure_lifetime c p = 0)) eqn:Erej; [by apply Hskip|].
  rewrite !orb_false_iff in Erej. destruct Erej as [[[[Hcode%bool_decide_eq_false _] _] _] Hz%bool_decide_eq_false].
  apply dec_stable in Hcode.
  destruct (to_vec (failure_message query response)) as [wire|] eqn:Ew; [|by apply Hskip].
  assert (0 < failure_lifetime c p) as Hpos.
  { destruct (policy_ok (config c) (rules c) k (q_name question) (ck_config _ Hok)) as [_ Hcap].
    pose proof (cf_servfail _ (ck_config _ Hok)). unfold failure_lifetime in *. fold p in Hcap. lia. }
  eapply wp_mono; [| |apply (epoch_locked_wp _ _ _ _ _ (λ d s s', if decide (e = epoch c)
      then failed k scope wire (failure_lifetime c p) now f d s s' else late d s s') Hok)]; [|done|].
  - intros d c' [Hok' Hs]. split; [done|]. right. by exists question, k, wire.
  - intros s v Hinv _ Hv. destruct (decide (e = epoch c)) as [He|He].
    + rewrite bool_decide_false; [|by intros []]. subst s.
      eapply wp_mono; [| |apply (admit_failure_locked_wp (config c) k scope wire _ now f v Hinv Hpos (vec_octets _ _ Ew))]; [|done].
      intros d v' (Hinv' & Hk & Hev & Hadm). by split_and!.
    + rewrite bool_decide_true //. by apply late_wp.
Qed.

(** ** Invalidation *)
Definition cleared (name : option Name) (kind : option Z) (scope : option Scope) s s' : Prop :=
  evolve (λ e, entry_matches name kind scope e = true) (λ _, False) s s' ∧
  (∀ id e, live s' id → arcs s' !! id = Some e → entry_matches name kind scope e = false) ∧
  sharing s' = sharing_invalidate name kind scope (sharing s).
Lemma elem_of_matches cfg name kind scope s b id :
  shard_inv cfg s → (b, id) ∈ matches name kind scope s ↔
    ∃ e, id ∈ resident b s ∧ arcs s !! id = Some e ∧ entry_matches name kind scope e = true.
Proof.
  intros [Hok _]. unfold matches.
  assert (∀ b', (b, id) ∈ ((λ e, (b', e_id e)) <$> filter (λ e, entry_matches name kind scope e = true)
      (deref s (keys (lru_iter (lru (part b' s)))))) ↔
    b = b' ∧ ∃ e, id ∈ resident b' s ∧ arcs s !! id = Some e ∧ entry_matches name kind scope e = true) as Hpart.
  { intros b'. rewrite list_elem_of_fmap. setoid_rewrite list_elem_of_filter. setoid_rewrite elem_of_deref.
    assert (∀ j e, j ∈ resident b' s → arcs s !! j = Some e → e_id e = j) as Hid.
    { intros j e Hj He. destruct (live_entry _ _ _ Hok (resident_live _ _ _ Hj)) as (e' & He' & Hid). congruence. }
    split.
    - intros (e & [= -> ->] & Hm & j & Hj & He). split; [done|]. exists e. rewrite (Hid _ _ Hj He). done.
    - intros [-> (e & Hj & He & Hm)]. exists e. rewrite (Hid _ _ Hj He). split; [done|]. split; [done|]. by exists id. }
  rewrite elem_of_app !Hpart. destruct b; naive_solver.
Qed.
Lemma invalidate_shard_wp cfg name kind scope (v : View) :
  shard_inv cfg (shard v) →
  wp (invalidate_shard name kind scope)
    (λ n v', shard_inv cfg (shard v') ∧ kept (shard v) (shard v') ∧ cleared name kind scope (shard v) (shard v') ∧ 0 ≤ n)
    (λ _ _, False) v.
Proof.
  intros Hinv. pose proof Hinv as [Hok (cap & tr & Hr)]. unfold invalidate_shard. apply wp_bind, wp_get. apply wp_bind.
  eapply wp_mono; [| |apply (remove_all_wp (max_variants cfg)); [done|]]; [|done|].
  2: { intros b id (e & Hin & _ & _)%(elem_of_matches cfg) _; done. }
  intros _ v' (Hok' & Hs & _). apply wp_bind, wp_modify, wp_ret. cbn [shard].
  assert (∀ id e, live (shard v) id → arcs (shard v) !! id = Some e →
    id ∈ (matches name kind scope (shard v)).*2 ↔ entry_matches name kind scope e = true) as Hgone.
  { intros id e Hl He. rewrite list_elem_of_fmap. split.
    - intros ([b j] & -> & Hin). apply (elem_of_matches cfg) in Hin as (e' & _ & He' & Hm); [|done]. simpl in *. congruence.
    - intros Hm. exists (e_negative e, id). split; [done|]. apply (elem_of_matches cfg); [done|]. exists e.
      split; [by eapply live_resident|done]. }
  split_and!; [|exact (shrunk_kept _ _ _ Hs)| |lia].
  - split; [by eapply shard_ok_same; [|exact Hok']; split|]. exists cap. eexists. cbn [sharing with_sharing].
    rewrite (sh_sharing _ _ _ Hs). by apply reaches_invalidate.
  - split; [|split; [|by rewrite /= (sh_sharing _ _ _ Hs)]].
    + eapply (evolve_trans _ _ _ (shard v')); [|apply evolve_same; [by split|done]].
      eapply evolve_shrunk; [done|exact Hs|]. intros e Hl He. by apply Hgone.
    + intros id e Hl He. change (live (shard v') id) in Hl. change (arcs (shard v') !! id = Some e) in He.
      apply (shrunk_live _ _ _ _ Hs) in Hl as [Hl Hn]. rewrite (sh_arcs _ _ _ Hs) // in He.
      apply not_true_iff_false. by rewrite -(Hgone _ _ Hl He).
Qed.
Lemma invalidate_from_wp name kind scope n i c :
  cache_ok c → (i + n = length (shards c))%nat →
  wp (invalidate_from n i name kind scope)
    (λ r c', cache_ok c' ∧ 0 ≤ r ∧ same_rest c c' ∧ epoch c' = epoch c ∧ length (shards c') = length (shards c) ∧
       ∀ j s, shards c !! j = Some s → ∃ s', shards c' !! j = Some s' ∧ (if decide (j < i)%nat then s' = s else cleared name kind scope s s'))
    (λ _ _, False) c.
Proof.
  revert i c. induction n as [|n IH]; intros i c Hok Hlen; simpl.
  { apply wp_ret. split_and!; [done..|]. intros j s Hj. exists s. rewrite decide_True //. apply lookup_lt_Some in Hj. lia. }
  destruct (lookup_lt_is_Some_2 (shards c) i) as [s Hs]; [lia|].
  pose proof (proj1 (Forall_forall _ _) (ck_shards _ Hok) s (list_elem_of_lookup_2 _ _ _ Hs)) as Hinv.
  apply wp_bind. unfold locked. unfold wp at 1. rewrite Hs.
  pose proof (invalidate_shard_wp (config c) name kind scope (mkView s (refresh_useful c) (refresh_unused c)) Hinv) as Hwp. unfold wp in Hwp.
  destruct (invalidate_shard name kind scope (mkView s (refresh_useful c) (refresh_unused c))) as [[r|?| |] v]; try done.
  destruct Hwp as (Hinv' & Hk & Hcl & Hr). fold (with_shard i (shard v) (useful v) (unused v) c).
  pose proof (cache_ok_shard c i s (shard v) (useful v) (unused v) Hok Hs Hinv' Hk) as Hok1.
  apply wp_bind. eapply wp_mono; [| |apply (IH (S i)); [done|]]; [|done|].
  2: { cbn [shards with_shard with_outcomes with_shards]. rewrite length_insert. lia. }
  intros r' c' (Hok' & Hr' & (Hc & Hh & Hru) & He & Hl & Hj). apply wp_ret.
  split_and!; [done|lia|by split_and!|done|by rewrite Hl /= length_insert|].
  intros j s0 Hs0. destruct (decide (j = i)) as [->|Hne].
  - assert (s0 = s) as -> by congruence. destruct (Hj i (shard v)) as (s' & Hs' & Hcase).
    { cbn [shards with_shard with_outcomes with_shards]. apply list_lookup_insert_eq. lia. }
    exists s'. split; [done|]. rewrite decide_True in Hcase; [|lia]. subst s'. rewrite decide_False; [done|lia].
  - destruct (Hj j s0) as (s' & Hs' & Hcase).
    { cbn [shards with_shard with_outcomes with_shards]. by rewrite list_lookup_insert_ne. }
    exists s'. split; [done|]. destruct (decide (j < S i)%nat), (decide (j < i)%nat); try done; lia.
Qed.
Lemma invalidate_wp name kind scope c :
  cache_ok c →
  wp (invalidate name kind scope)
    (λ r c', cache_ok c' ∧ 0 ≤ r ∧ same_rest c c' ∧ epoch c' = epoch c + 1 ∧ length (shards c') = length (shards c) ∧
       ∀ j s, shards c !! j = Some s → ∃ s', shards c' !! j = Some s' ∧ cleared (key_name <$> name) kind scope s s')
    (λ _ _, False) c.
Proof.
  intros Hok. unfold invalidate, modify_cache. apply wp_bind, wp_bind, wp_get, wp_put. apply wp_bind, wp_get.
  set (c1 := with_epoch (epoch c + 1) c). assert (cache_ok c1) as Hok1 by by apply (cache_ok_rest c).
  eapply wp_mono; [| |apply (invalidate_from_wp _ kind scope (length (shards c1)) 0 c1 Hok1 eq_refl)]; [|done].
  intros r c' (Hok' & Hr & Hsame & He & Hl & Hj). by split_and!.
Qed.

(** ** Lookup *)
Lemma lock_at_wp {A} k (m : C A) c i s (Q : A → Shard → Prop) :
  cache_ok c → shard_of c k i s →
  (∀ v, shard_inv (config c) s → shard v = s →
    wp m (λ a v', shard_inv (config c) (shard v') ∧ kept s (shard v') ∧ Q a (shard v')) (λ _ _, False) v) →
  wp (lock k m) (λ a c', cache_ok c' ∧ ∃ s' u n, c' = with_shard i s' u n c ∧ Q a s') (λ _ _, False) c.
Proof.
  intros Hok Hs Hm. eapply wp_mono; [| |apply (lock_wp k m c Q Hok)]; [|done|].
  - intros a c' (Hok' & i' & s1 & s' & u & n & Hs' & -> & HQ). split; [done|].
    assert (i' = i) as -> by (destruct Hs, Hs'; congruence). by exists s', u, n.
  - intros i' s1 v Hs' Hinv Hv. assert (s1 = s) as -> by (destruct Hs, Hs'; congruence). by apply Hm.
Qed.
Lemma shard_of_with c k i s s' u n : shard_of c k i s → shard_of (with_shard i s' u n c) k i s'.
Proof.
  intros [Hi Hs]. pose proof (lookup_lt_Some _ _ _ Hs) as Hlt. split.
  - revert Hi. unfold shard_index. cbn [shards hash_one with_shard with_outcomes with_shards]. rewrite length_insert.
    case_bool_decide as Hn; [done|]. rewrite bool_decide_false; [done|]. intros Hnil. apply Hn.
    apply (f_equal length) in Hnil. rewrite length_insert in Hnil. by destruct (shards c).
  - by apply list_lookup_insert_eq.
Qed.
Lemma with_shard_twice c i s s' u n u' n' : with_shard i s' u' n' (with_shard i s u n c) = with_shard i s' u' n' c.
Proof. unfold with_shard, with_outcomes, with_shards. simpl. by rewrite list_insert_insert_eq. Qed.

Lemma norm_fields e e' : norm e' = norm e →
  e_id e' = e_id e ∧ e_key e' = e_key e ∧ e_wire e' = e_wire e ∧ e_scope e' = e_scope e ∧ inserted e' = inserted e ∧ e_lifetime e' = e_lifetime e ∧
  e_retention e' = e_retention e ∧ e_negative e' = e_negative e ∧ e_failure e' = e_failure e ∧ e_prefetch e' = e_prefetch e.
Proof. unfold norm, with_refreshed, with_hits, with_accessed. intros [=]. done. Qed.

(** What an entry answers, read after [n] hits. *)
Definition entry_result cfg query now e (n : Z) : LookupResult :=
  let stale := bool_decide (e_lifetime e ≤ age now e) in
  match (decode (e_wire e) tt).1 with
  | Ok m => mkLookupResult
      (Some (mkHit (reply_message cfg query e now m) (e_scope e) stale (refresh_due cfg e n now) (authentic_data m && negb stale) (e_failure e)))
      (mkLookupDecision (if stale then Stale else Fresh) None)
  | _ => empty_result Bypass (Some UncacheableResponse)
  end.
Lemma decode_wp bytes : octets bytes → wp (decode bytes) (λ _ _, True) (λ _ _, True) tt.
Proof.
  intros Hb. unfold decode, ensure. destruct (bool_decide (length bytes ≤ MAX_MESSAGE)%nat); apply wp_bind; [apply wp_ret|by apply wp_fail].
  apply wp_bind, wp_ok_or; [|done]. intros [m rest] _. destruct (bool_decide (rest = [])); apply wp_bind; [apply wp_ret|by apply wp_fail].
  destruct (edns m); [|by apply wp_ret]. apply wp_bind. eapply wp_mono; [| |by apply validate_wire_wp]; [|done]. intros _ [] _. by apply wp_ret.
Qed.
Lemma finish_lookup_wp cfg query now e e' n c :
  octets (e_wire e) → norm e' = norm e →
  wp (lifted (finish_lookup cfg query now e' n)) (λ r c', c' = c ∧ r = entry_result cfg query now e n) (λ _ _, False) c.
Proof.
  intros Hw Hn. destruct (norm_fields _ _ Hn) as (Hid & Hk & Hwire & Hsc & Hin & Hl & Hr & Hneg & Hf & Hp).
  pose proof (decode_wp (e_wire e) Hw) as Hd. unfold lifted, finish_lookup, entry_result, wp in *. rewrite Hwire.
  assert (age now e' = age now e) as Hage by by rewrite /age Hin.
  assert (∀ m, reply_message cfg query e' now m = reply_message cfg query e now m) as Hrm.
  { intros m. unfold reply_message. rewrite Hl Hage. unfold is_failure. by rewrite Hf. }
  assert (refresh_due cfg e' n now = refresh_due cfg e n now) as Hrd by by rewrite /refresh_due Hl Hage Hneg Hp.
  destruct (decode (e_wire e) tt) as [[m|?| |] []]; cbn [fst]; try done. by rewrite Hrm Hrd Hl Hage Hsc Hf.
Qed.

(** The entry that answers, and the shard after its reader is gone. *)
Definition served cfg query k out now stale (observe : bool) (r : LookupResult) s s' : Prop :=
  ∃ id e, found s k out now stale id e ∧ r = entry_result cfg query now e (if observe then hits e + 1 else hits e) ∧
    readers s' = readers s ∧ buckets s' = buckets s ∧ (∀ j, live s' j ↔ live s j) ∧ (∀ j, j ≠ id → arcs s' !! j = arcs s !! j) ∧
    ∃ e', arcs s' !! id = Some e' ∧ norm e' = norm e.
Definition missed k out now stale (r : LookupResult) s s' : Prop :=
  r = empty_result Miss None ∧ (∀ e, e ∈ bucket s k → usable out now stale e = false) ∧ readers s' = readers s ∧
  evolve (expired k now) (λ _, False) s s'.

Lemma drop_last_reader s id : readers s = id :: tail (readers s) → live s id → drop_reader id s = with_readers (tail (readers s)) s.
Proof.
  intros Hr Hl. unfold drop_reader. rewrite Hr. simpl. rewrite bool_decide_true //. unfold release.
  rewrite bool_decide_true //. right. exact Hl.
Qed.
Lemma read_entry_wp (id : Z) e (v : View) (P : Entry → View → Prop) :
  arcs (shard v) !! id = Some e → P e v → wp (let* v := get in expect (arcs (shard v) !! id) : C Entry) P (λ _ _, False) v.
Proof. intros He HP. apply wp_bind, wp_get. by eapply wp_expect. Qed.

(** At most a counter changed. *)
Definition idle c c' : Prop := shards c' = shards c ∧ same_rest c c' ∧ epoch c' = epoch c.
Lemma bypassed_wp (b : bool) (r : LookupResult) c :
  cache_ok c →
  wp ((if b then modify_cache (λ c, with_bypasses (bypasses c + 1) c) else ret tt);;; ret r)
    (λ r' c', cache_ok c' ∧ r' = r ∧ idle c c') (λ _ _, False) c.
Proof.
  intros Hok. destruct b; apply wp_bind.
  - unfold modify_cache. apply wp_bind, wp_get, wp_put, wp_ret. split_and!; [by apply (cache_ok_rest c)|done|done].
  - by apply wp_ret, wp_ret.
Qed.
Lemma lookup_inner_wp query out now stale observe c :
  cache_ok c → queries query ≠ [] →
  wp (lookup_inner query out now stale observe)
    (λ r c', cache_ok c' ∧
       ((r_hit r = None ∧ l_outcome (r_decision r) ≠ Miss ∧ idle c c') ∨
        ∃ question k, queries query !! 0%nat = Some question ∧ key_of_query question query = Some k ∧
          bypass (policy (config c) (rules c) k (q_name question)) = false ∧
          on_shard k c c' (λ _ s s', served (config c) query k out now stale observe r s s' ∨ missed k out now stale r s s')))
    (λ _ _, False) c.
Proof.
  intros Hok Hq. unfold lookup_inner. apply wp_bind. eapply wp_mono; [| |by apply key_of_wp]; [|done].
  intros [question key] c0 (-> & Hq0 & Hkey). simpl in Hq0, Hkey.
  destruct key as [k|].
  2: { eapply wp_mono; [| |by apply bypassed_wp]; [|done]. intros r c' (Hok' & -> & Hs). split; [done|]. by left. }
  apply wp_bind, wp_get. destruct (bypass (policy (config c) (rules c) k (q_name question))) eqn:Eb.
  { eapply wp_mono; [| |by apply bypassed_wp]; [|done]. intros r c' (Hok' & -> & Hs). split; [done|]. left. split_and!; [done| |done].
    simpl. by destruct (c_enabled (config c)). }
  destruct (shard_index_ok c k Hok) as (i & s & Hi & Hs). assert (shard_of c k i s) as Hof by done.
  apply wp_bind. eapply wp_mono; [| |apply (lock_at_wp k _ c i s (λ r s', match r with
    | None => (∀ e, e ∈ bucket s k → usable out now stale e = false) ∧ readers s' = readers s ∧ evolve (expired k now) (λ _, False) s s'
    | Some id => ∃ e e', found s k out now stale id e ∧ arcs s' !! id = Some e' ∧ norm e' = norm e ∧ hits e' = hits e ∧
        readers s' = id :: readers s ∧ (∀ j, j ≠ id → arcs s' !! j = arcs s !! j) ∧ buckets s' = buckets s ∧ ∀ j, live s' j ↔ live s j
    end) Hok Hof)]; [|done|].
  2: { intros v [Hso Hsh] <-. eapply wp_mono; [| |by apply (lookup_locked_wp (max_variants (config c)))]; [|done].
    intros r v' (Hok' & Hk & Hsh' & Hcase). split; [split; [done|by rewrite Hsh']|]. split; [done|].
    destruct r as [id|]; [done|]. destruct Hcase as (Hno & Hr & gone & Hgs & Hg). split_and!; [done..|].
    eapply evolve_shrunk; [done|exact Hgs|]. intros e _ He (e' & Hin & Hret & Hid)%Hg.
    apply (in_bucket (max_variants (config c))) in Hin as (_ & He' & Hk'); [|done]. rewrite Hid in He'.
    assert (e' = e) as -> by congruence. done. }
  intros [id|] c1 (Hok1 & s1 & u1 & n1 & -> & Hcase).
  2: { apply wp_ret. split; [done|]. right. exists question, k. split_and!; [done..|]. exists i, s, s1, u1, n1. split_and!; [done..|].
       right. by split. }
  destruct Hcase as (e & e' & Hfound & He' & Hn' & Hh' & Hrd & Hoth & Hbu & Hlv).
  assert (octets (e_wire e)) as Hoct.
  { destruct Hfound as (_ & He & _). pose proof (proj1 (Forall_forall _ _) (ck_shards _ Hok) s (list_elem_of_lookup_2 _ _ _ Hs)) as [Hso _].
    apply (eo_wire _ _ _ (so_entry _ _ Hso _ _ (arcs_heap _ _ _ He))). }
  set (n := if observe then hits e + 1 else hits e).
  apply wp_bind. apply (wp_mono _ (λ h c2, h = n ∧ ∃ s2 u2 n2, c2 = with_shard i s2 u2 n2 c ∧ cache_ok c2 ∧ readers s2 = id :: readers s ∧
    buckets s2 = buckets s ∧ (∀ j, live s2 j ↔ live s j) ∧ (∀ j, j ≠ id → arcs s2 !! j = arcs s !! j) ∧
    ∃ e2, arcs s2 !! id = Some e2 ∧ norm e2 = norm e) _ (λ _ _, False)); [|done|].
  2: { unfold n. destruct observe.
    - eapply wp_mono; [| |apply (lock_at_wp k _ _ i s1 (λ h s2, h = hits e' + 1 ∧ readers s2 = readers s1 ∧ same_parts s1 s2 ∧
        arcs s2 = <[id := with_hits h e']> (arcs s1)) Hok1 (shard_of_with _ _ _ _ _ _ _ Hof))]; [|done|].
      + intros h c2 (Hok2 & s2 & u2 & n2 & -> & -> & Hrd2 & Hsame & Ha). rewrite with_shard_twice in Hok2 |- *. split; [lia|].
        exists s2, u2, n2. split_and!; [done|done|congruence|by rewrite (sp_buckets _ _ Hsame)| | |].
        * intros j. by rewrite (same_live _ _ _ Hsame).
        * intros j Hj. rewrite Ha lookup_insert_ne //. by apply Hoth.
        * exists (with_hits (hits e' + 1) e'). rewrite Ha lookup_insert_eq. split; [done|]. by rewrite -Hn'.
      + intros v [Hso Hsh] <-. eapply wp_mono; [| |apply (bump_hits_wp (max_variants (config c))); done]; [|done].
        intros h v' (-> & Hsame & Hrd2 & Hsh2 & Ha). split; [split; [by eapply shard_ok_same|by rewrite Hsh2]|].
        split; [by apply same_kept|]. by split_and!.
    - eapply wp_mono; [| |apply (lock_at_wp k _ _ i s1 (λ h s2, h = hits e' ∧ s2 = s1) Hok1 (shard_of_with _ _ _ _ _ _ _ Hof))]; [|done|].
      + intros h c2 (Hok2 & s2 & u2 & n2 & -> & -> & ->). rewrite with_shard_twice in Hok2 |- *. split; [lia|].
        exists s1, u2, n2. split_and!; [done..|]. by exists e'.
      + intros v Hinv <-. apply wp_bind, wp_get. apply wp_bind. eapply wp_expect; [exact He'|]. apply wp_ret. by split_and!. }
  intros h c2 (-> & s2 & u2 & n2 & -> & Hok2 & Hrd2 & Hbu2 & Hlv2 & Hoth2 & e2 & He2 & Hn2).
  assert (shard_of (with_shard i s2 u2 n2 c) k i s2) as Hof2 by by eapply shard_of_with.
  apply wp_bind. eapply wp_mono; [| |apply (lock_at_wp k _ _ i s2 (λ a s3, a = e2 ∧ s3 = s2) Hok2 Hof2)]; [|done|].
  2: { intros v Hinv <-. eapply read_entry_wp; [exact He2|]. by split_and!. }
  intros a c3 (Hok3 & s3 & u3 & n3 & -> & -> & ->). rewrite with_shard_twice in Hok3 |- *.
  apply wp_bind. eapply wp_mono; [| |by apply (finish_lookup_wp (config c) query now e e2 n)]; [|done].
  intros r c4 [-> ->]. apply wp_bind.
  assert (live s2 id) as Hlive by (apply Hlv2; by destruct Hfound).
  assert (shard_of (with_shard i s2 u3 n3 c) k i s2) as Hof3 by by eapply shard_of_with.
  eapply wp_mono; [| |apply (lock_at_wp k _ _ i s2 (λ _ s3, s3 = with_readers (readers s) s2) Hok3 Hof3)]; [|done|].
  2: { intros v [Hso Hsh] <-. apply wp_modify. cbn [shard]. destruct (drop_reader_ok (max_variants (config c)) id (shard v) Hso) as (Hd & Hk & Hsh').
    split; [split; [done|by rewrite Hsh']|]. split; [done|].
    rewrite drop_last_reader //; rewrite Hrd2 //. }
  intros _ c5 (Hok5 & s5 & u5 & n5 & -> & ->). rewrite with_shard_twice in Hok5 |- *. apply wp_ret. split; [done|]. right.
  exists question, k. split_and!; [done..|]. exists i, s, (with_readers (readers s) s2), u5, n5. split_and!; [done..|]. left.
  exists id, e. split_and!; try done. by exists e2.
Qed.
End cache.
