(* ===== verification/CacheClaims.v ===== *)
(** * What the cache promises

    The steps callers can take, the caches they reach from [Cache::new], and the
    properties of lookup, admission and invalidation in every one of them. *)
From S2P Require Import Prelude Net Std Names Lru Dns Ecs Wire Protocol CacheData CacheAdmit Sharing SharingSafe CacheStore CacheInv CacheOps Cache CacheAdmission CacheSafe.
Set Default Goal Selector "!".
Set Warnings "-rewrite-rw".
Local Open Scope Z_scope.
Local Open Scope rust_scope.

(** ** Portions *)
Lemma zsum_fmap {A B} (f : B → Z) (g : A → B) l : zsum f (g <$> l) = zsum (f ∘ g) l.
Proof. induction l as [|x l IH]; simpl; [done|]. unfold zsum in *. simpl. by rewrite IH. Qed.
Lemma zsum_app {A} (f : A → Z) l k : zsum f (l ++ k) = zsum f l + zsum f k.
Proof. unfold zsum. induction l; simpl; lia. Qed.
Lemma zsum_plus {A} (f g : A → Z) l : zsum (λ x, f x + g x) l = zsum f l + zsum g l.
Proof. unfold zsum. induction l; simpl; lia. Qed.
Lemma portion_sum_prefix count tot n :
  (0 < count)%nat → zsum (λ i, Z.of_nat (portion count tot i)) (seq 0 n) = Z.of_nat (n * (tot / count) + n `min` (tot mod count)).
Proof.
  intros Hc. induction n as [|n IH]; [done|]. rewrite seq_S zsum_app IH. unfold zsum. cbn [foldr]. unfold portion.
  generalize (tot / count)%nat (tot mod count)%nat. intros q r. rewrite Nat.mul_succ_l. case_bool_decide; lia.
Qed.
Lemma portion_sum count tot : (0 < count)%nat → zsum (λ i, Z.of_nat (portion count tot i)) (seq 0 count) = Z.of_nat tot.
Proof.
  intros Hc. rewrite portion_sum_prefix //. rewrite (Nat.min_r count); [|pose proof (Nat.mod_upper_bound tot count); lia].
  rewrite -(Nat.div_mod_eq tot count) //.
Qed.

Section claims.
Context `{MessageLib} `{!VecSpec} `{!DnsNames} `{!DnsNamesSpec} `{IpNetLib} `{!IpNetSpec _} `{LruLib} `{!LruSpec _}.
Context `{!Layout} `{!LayoutSpec} `{!RDataLib} `{!Sha256Lib} `{!DecoderLib} {DS : DecoderSpec} `{!NameParse}.
Implicit Types (s : Shard) (k : Key) (c : Cache) (cfg : CacheConfig).

(** ** A new cache *)
Record config_valid cfg : Prop := {
  cv_ok : config_ok cfg;
  cv_percent : (negative_percent cfg ≤ 100)%nat;
  cv_bytes : 0 ≤ max_bytes cfg < usize_max;
}.
Lemma negative_entries_le cfg : config_valid cfg → (negative_entries cfg ≤ max_entries cfg)%nat.
Proof.
  intros [_ Hp _]. unfold negative_entries. apply Nat.Div0.div_le_upper_bound. rewrite (Nat.mul_comm 100). by apply Nat.mul_le_mono_l.
Qed.
Lemma negative_bytes_le cfg : config_valid cfg → (negative_bytes cfg ≤ Z.to_nat (max_bytes cfg))%nat.
Proof.
  intros [_ Hp _]. unfold negative_bytes. case_bool_decide; [lia|].
  apply Nat.Div0.div_le_upper_bound. rewrite (Nat.mul_comm 100). by apply Nat.mul_le_mono_l.
Qed.
Lemma empty_lru_keys : keys (lru_iter (lru_unbounded (K:=Z) (V:=unit))) = [].
Proof. by rewrite iter_unbounded. Qed.
Lemma shard_new_inv cfg count i s : config_valid cfg → shard_new cfg count i = Some s → shard_inv cfg s.
Proof.
  intros Hv (cap & _ & [= <-])%bind_Some.
  assert (∀ b, resident b (mkShard ∅ [] ∅
    (partition_new (portion count (positive_entries cfg) i) (Z.of_nat (portion count (positive_bytes cfg) i)))
    (partition_new (portion count (negative_entries cfg) i) (Z.of_nat (portion count (negative_bytes cfg) i)))
    0 counts_default (table_new (Z.to_nat cap)) 0 0) = []) as Hres.
  { intros b. unfold resident, part. destruct b; simpl; apply empty_lru_keys. }
  set (s := mkShard _ _ _ _ _ _ _ _ _ _) in *.
  assert (∀ id, ¬ live s id) as Hlive by (intros id; unfold live; rewrite !Hres; by intros [?%elem_of_nil|?%elem_of_nil]).
  assert (live_heap s = ∅) as Hlh.
  { apply map_eq. intros j. trans (@None Entry); [|by rewrite lookup_empty]. apply eq_None_not_Some. intros [e [_ Hl]%live_heap_Some]. by destruct (Hlive j). }
  assert (heap s = ∅) as Hheap by apply fmap_empty.
  split; [|by exists (Z.to_nat cap), []; constructor].
  split; rewrite ?Hheap ?Hlh; try done.
  - intros id. split; [by intros []|]. by intros [?%Hlive|?%elem_of_nil].
  - intros k id. unfold ids. simpl. rewrite lookup_empty. split; [by intros ?%elem_of_nil|]. by intros (? & ?%Hlive & _).
  - intros k. unfold ids. simpl. rewrite lookup_empty. constructor.
  - intros k. unfold ids. simpl. rewrite lookup_empty. simpl. lia.
  - intros b. by destruct b.
  - intros b. destruct b; simpl; lia.
  - intros b. rewrite Hres. simpl. lia.
Qed.
Lemma portion_le count tot i : (0 < count)%nat → (i < count)%nat → (portion count tot i ≤ tot)%nat.
Proof.
  intros Hc Hi. unfold portion. pose proof (Nat.div_mod_eq tot count). pose proof (Nat.mod_upper_bound tot count ltac:(lia)).
  case_bool_decide; nia.
Qed.
Lemma cache_new_ok cfg hash c :
  config_valid cfg → cache_new cfg hash = Some c →
  cache_ok c ∧ config c = cfg ∧ epoch c = 0 ∧ length (shards c) = shard_count cfg ∧
  zsum entry_limit (shards c) = Z.of_nat (max_entries cfg) ∧ zsum byte_limit (shards c) = max_bytes cfg.
Proof.
  intros Hv (ss & Hss & (rs & _ & [= <-])%bind_Some)%bind_Some. simpl.
  set (count := shard_count cfg) in *. assert (0 < count)%nat as Hcount by (unfold count, shard_count; lia).
  apply mapM_Some in Hss. pose proof (Forall2_length _ _ _ Hss) as Hlen. rewrite length_seq in Hlen.
  assert (∀ i s, ss !! i = Some s → shard_new cfg count i = Some s ∧ (i < count)%nat) as Hnew.
  { intros i s Hs. destruct (Forall2_lookup_r _ _ _ _ _ Hss Hs) as (j & Hj & Hs'). apply lookup_seq in Hj as [-> Hj]. done. }
  assert (∀ i s, ss !! i = Some s →
    p_max_entries (part false s) = portion count (positive_entries cfg) i ∧ p_max_entries (part true s) = portion count (negative_entries cfg) i ∧
    p_max_bytes (part false s) = Z.of_nat (portion count (positive_bytes cfg) i) ∧
    p_max_bytes (part true s) = Z.of_nat (portion count (negative_bytes cfg) i)) as Hparts.
  { intros i s [Hs _]%Hnew. unfold shard_new in Hs. apply bind_Some in Hs as (cap & _ & [= <-]). done. }
  assert (∀ (f : Shard → Z) g, (∀ i s, ss !! i = Some s → f s = g i) → zsum f ss = zsum g (seq 0 count)) as Hsum.
  { intros f g. rewrite Hlen. clear. revert g. induction ss as [|s ss IH] using rev_ind; intros g Hfg; [done|].
    rewrite length_app Nat.add_1_r seq_S !zsum_app (IH g).
    - f_equal. unfold zsum. simpl. rewrite (Hfg (length ss) s); [done|]. by rewrite list_lookup_middle.
    - intros i s' Hi. apply Hfg. rewrite lookup_app_l //. by eapply lookup_lt_Some. }
  pose proof (negative_entries_le cfg Hv) as Hne. pose proof (negative_bytes_le cfg Hv) as Hnb.
  assert (zsum entry_limit ss = Z.of_nat (max_entries cfg)) as Hentries.
  { rewrite (Hsum _ (λ i, Z.of_nat (portion count (positive_entries cfg) i) + Z.of_nat (portion count (negative_entries cfg) i))).
    - rewrite zsum_plus !portion_sum //. unfold positive_entries. lia.
    - intros i s Hs. destruct (Hparts i s Hs) as (Hpe & Hpn & _). unfold entry_limit. rewrite Hpe Hpn. lia. }
  assert (zsum byte_limit ss = max_bytes cfg) as Hbytes.
  { rewrite (Hsum _ (λ i, Z.of_nat (portion count (positive_bytes cfg) i) + Z.of_nat (portion count (negative_bytes cfg) i))).
    - rewrite zsum_plus !portion_sum //. unfold positive_bytes. pose proof (cv_bytes _ Hv). lia.
    - intros i s Hs. destruct (Hparts i s Hs) as (_ & _ & Hpb & Hpn). unfold byte_limit. rewrite Hpb Hpn. lia. }
  split_and!; [|done|done|done|done|done].
  split; simpl; [|apply Forall_lookup; intros i s [Hs _]%Hnew; by eapply shard_new_inv|apply Hv|lia|lia|].
  - intros ->. simpl in Hlen. lia.
  - apply Forall_lookup. intros i s Hs. destruct (Hparts i s Hs) as (_ & _ & Hpb & Hpn), (Hnew i s Hs) as [_ Hi].
    pose proof (cv_bytes _ Hv) as Hcv. unfold positive_bytes in *.
    pose proof (portion_le count (Z.to_nat (max_bytes cfg) - negative_bytes cfg) i Hcount Hi).
    pose proof (portion_le count (negative_bytes cfg) i Hcount Hi).
    intros []; [rewrite Hpn|rewrite Hpb]; lia.
Qed.

(** ** The steps of the callers *)
(** A lookup runs in pieces: other steps may come between the locked part, the
    hit counter and the end of its reader. *)
Inductive Op : Type :=
  | OLocked (k : Key) (out : option ClientSubnet) (now : Z) (stale observe : bool)
  | OHit (k : Key) (id : Z)
  | ODrop (k : Key) (id : Z)
  | OLookup (query : Message) (out : option ClientSubnet) (now : Z) (stale : bool)
  | OPeek (query : Message) (out : option ClientSubnet) (now : Z) (stale : bool)
  | OAnswer (query response : Message) (scope : Scope) (now epoch : Z)
  | ORefresh (query response : Message) (scope : Scope) (now epoch : Z)
  | ORestore (query response : Message) (scope : Scope) (now epoch : Z) (r : Restore)
  | OFailure (query response : Message) (scope : Scope) (now epoch : Z) (f : Failure)
  | OUnusable
  | OInvalidate (name : option Name) (kind : option Z) (scope : option Scope).
Definition run (o : Op) : CM unit :=
  match o with
  | OLocked k out now stale observe => lock k (lookup_locked k out now stale observe);;; ret tt
  | OHit k id => lock k (bump_hits id);;; ret tt
  | ODrop k id => lock k (modify (drop_reader id))
  | OLookup query out now stale => lookup_with_decision query out now stale;;; ret tt
  | OPeek query out now stale => peek query out now stale;;; ret tt
  | OAnswer query response scope now e => insert_decision_if_epoch query response scope now e;;; ret tt
  | ORefresh query response scope now e => insert_refresh_if_epoch query response scope now e;;; ret tt
  | ORestore query response scope now e r => admit_ query response scope now e (Restored r);;; ret tt
  | OFailure query response scope now e f => insert_failure_if_epoch query response scope now e f;;; ret tt
  | OUnusable => record_unusable_scope;;; ret tt
  | OInvalidate name kind scope => invalidate name kind scope;;; ret tt
  end.
(** Queries have passed the admission of requests; a reader holds what it
    counts and drops. *)
Definition enabled (o : Op) c : Prop :=
  match o with
  | OHit k id | ODrop k id => ∃ i s, shard_of c k i s ∧ id ∈ readers s
  | OLocked _ _ _ _ _ | OUnusable | OInvalidate _ _ _ => True
  | OLookup query _ _ _ | OPeek query _ _ _ | OFailure query _ _ _ _ _ => queries query ≠ []
  | OAnswer query response _ _ _ | ORefresh query response _ _ _ => queries query ≠ [] ∧ message_ok response
  | ORestore query response _ _ _ r => queries query ≠ [] ∧ message_ok response ∧ 0 ≤ r_remaining r
  end.
Definition step c c' : Prop := ∃ o, enabled o c ∧ run o c = (Ok tt, c').
Definition reachable := rtc step.

Lemma wp_tt {A} (m : CM A) (P : Cache → Prop) c : wp m (λ _, P) (λ _ _, False) c → wp (m;;; ret tt) (λ _, P) (λ _ _, False) c.
Proof. intros Hm. apply wp_bind. eapply wp_mono; [| |exact Hm]; [|done]. intros a c' Hc. by apply wp_ret. Qed.
(** Every operation keeps the configuration, and the epoch up to invalidation. *)
Definition follows c c' : Prop := cache_ok c' ∧ same_rest c c' ∧ epoch c ≤ epoch c'.
Lemma follows_on_shard k c c' R : cache_ok c' → on_shard k c c' R → follows c c'.
Proof. intros Hok (i & s & s' & u & n & _ & -> & _). by split. Qed.
Lemma lock_follows {A} k (m : C A) c :
  cache_ok c →
  (∀ i s v, shard_of c k i s → shard_inv (config c) s → shard v = s →
    wp m (λ a v', shard_inv (config c) (shard v') ∧ kept s (shard v')) (λ _ _, False) v) →
  wp (lock k m) (λ _ c', follows c c') (λ _ _, False) c.
Proof.
  intros Hok Hm. eapply wp_mono; [| |apply (lock_wp k m c (λ _ _, True) Hok)]; [|done|].
  - intros a c' (Hok' & i & s & s' & u & n & _ & -> & _). by split.
  - intros i s v Hs Hinv Hv. eapply wp_mono; [| |by apply (Hm i s)]; [|done]. intros a v' [? ?]. done.
Qed.
Lemma not_locked_follows d c c' : cache_ok c → not_locked d c c' → follows c c'.
Proof. by intros Hok [-> _]. Qed.
Lemma counted_wp (m : CM StoreDecision) (P : StoreDecision → Cache → Prop) c :
  (∀ d c' g, P d c' → P d (with_diagnostics g c')) →
  wp m P (λ _ _, False) c → wp (counted m) P (λ _ _, False) c.
Proof.
  intros HP Hm. unfold counted, modify_cache. apply wp_bind. eapply wp_mono; [| |exact Hm]; [|done].
  intros d c' Hd. apply wp_bind, wp_bind, wp_get, wp_put, wp_ret. by apply HP.
Qed.
Lemma follows_diagnostics c c' g : follows c c' → follows c (with_diagnostics g c').
Proof. intros (Hok & Hr & He). split; [by apply (cache_ok_rest c')|done]. Qed.
Lemma lookup_follows query out now stale observe c :
  cache_ok c → queries query ≠ [] → wp (lookup_inner query out now stale observe) (λ _ c', follows c c') (λ _ _, False) c.
Proof.
  intros Hok Hq. eapply wp_mono; [| |by apply lookup_inner_wp]; [|done].
  intros r c' [Hok' [(_ & _ & _ & Hr & He)|(q & k & _ & _ & _ & Hon)]]; [|by eapply follows_on_shard].
  split; [done|]. split; [done|lia].
Qed.
Lemma admit_follows query response scope now (e : Z) o c :
  cache_ok c → queries query ≠ [] → message_ok response → origin_ok o →
  wp (admit_ query response scope now e o) (λ _ c', follows c c') (λ _ _, False) c.
Proof.
  intros Hok Hq Hm Ho. eapply wp_mono; [| |by apply admit_wp]; [|done].
  intros d c' [Hok' [Hn|(q & k & _ & _ & Hon)]]; [by eapply not_locked_follows|by eapply follows_on_shard].
Qed.
Lemma run_wp o c : cache_ok c → enabled o c → wp (run o) (λ _ c', follows c c') (λ _ _, False) c.
Proof.
  intros Hok. destruct o as [k out now stale observe|k id|k id|query out now stale|query out now stale|query response scope now e|
    query response scope now e|query response scope now e r|query response scope now e f| |name kind scope]; simpl.
  - intros _. apply wp_tt, lock_follows; [done|]. intros i s v _ [Hso Hsh] <-.
    eapply wp_mono; [| |by apply (lookup_locked_wp (max_variants (config c)))]; [|done]. intros r v' (Hso' & Hk & Hsh' & _).
    split; [split; [done|by rewrite Hsh']|done].
  - intros (i & s & Hof & Hin). apply wp_tt, lock_follows; [done|]. intros i' s' v Hs [Hso Hsh] <-.
    assert (shard v = s) as Hv by (destruct Hs, Hof; congruence). rewrite -Hv in Hin.
    destruct (proj2 (so_heap _ _ Hso id)) as [a (e & He & _)%heap_Some]; [by right|].
    eapply wp_mono; [| |by apply (bump_hits_wp (max_variants (config c)) id v e)]; [|done].
    intros n v' (_ & Hsame & _ & Hsh' & _). split; [split; [by eapply shard_ok_same|by rewrite Hsh']|by apply same_kept].
  - intros _. apply lock_follows; [done|]. intros i s v _ [Hso Hsh] <-. apply wp_modify. cbn [shard].
    destruct (drop_reader_ok (max_variants (config c)) id (shard v) Hso) as (Hd & Hk & Hsh'). split; [split; [done|by rewrite Hsh']|done].
  - intros Hq. apply wp_tt. unfold lookup_with_decision, modify_cache. apply wp_bind.
    eapply wp_mono; [| |by apply lookup_follows]; [|done]. intros r c' Hf. apply wp_bind, wp_bind, wp_get, wp_put, wp_ret.
    by apply follows_diagnostics.
  - intros Hq. apply wp_tt. unfold peek. apply wp_bind.
    eapply wp_mono; [| |by apply lookup_follows]; [|done]. intros r c' Hf. by apply wp_ret.
  - intros [Hq Hm]. apply wp_tt, counted_wp; [intros; by apply follows_diagnostics|]. by apply admit_follows.
  - intros [Hq Hm]. apply wp_tt, counted_wp; [intros; by apply follows_diagnostics|]. by apply admit_follows.
  - intros (Hq & Hm & Hr). apply wp_tt. by apply admit_follows.
  - intros Hq. apply wp_tt, counted_wp; [intros; by apply follows_diagnostics|].
    eapply wp_mono; [| |by apply admit_failure_wp]; [|done].
    intros d c' [Hok' [Hn|(q & k & w & _ & _ & _ & _ & Hon)]]; [by eapply not_locked_follows|by eapply follows_on_shard].
  - intros _. apply wp_tt, counted_wp; [intros; by apply follows_diagnostics|]. by apply wp_ret.
  - intros _. apply wp_tt. eapply wp_mono; [| |by apply invalidate_wp]; [|done].
    intros r c' (Hok' & _ & Hs & He & _). split; [done|]. split; [done|lia].
Qed.
Lemma reachable_follows c c' : cache_ok c → reachable c c' → follows c c'.
Proof.
  intros Hok Hr. induction Hr as [c|c c1 c' (o & Hen & Hrun) _ IH]; [by split|].
  pose proof (wp_result _ _ _ _ _ _ Hrun (run_wp o c Hok Hen)) as (Hok1 & (Hc1 & Hh1 & Hr1) & He1).
  destruct (IH Hok1) as (Hok' & (Hc' & Hh' & Hr') & He'). split; [done|]. split; [split_and!; congruence|lia].
Qed.

(** ** Bounds *)
Definition entries_in s : Z := Z.of_nat (length (resident false s) + length (resident true s)).
Definition bytes_in s : Z := charged (part false s) + charged (part true s).
Lemma cache_ok_bounds c :
  cache_ok c → zsum entries_in (shards c) ≤ Z.of_nat (max_entries (config c)) ∧ zsum bytes_in (shards c) ≤ max_bytes (config c).
Proof.
  intros Hok. pose proof (ck_shards _ Hok) as Hsh.
  split; (etrans; [apply zsum_le; eapply Forall_impl; [exact Hsh|]|apply Hok]); intros s [Hso _].
  - pose proof (so_entries _ _ Hso false). pose proof (so_entries _ _ Hso true). unfold entries_in, entry_limit. lia.
  - pose proof (so_bytes _ _ Hso false). pose proof (so_bytes _ _ Hso true). unfold bytes_in, byte_limit. lia.
Qed.

(** ** At most one answer *)
Definition subnet_ok (out : option ClientSubnet) : Prop := match out with Some e => ip_valid (cs_addr e) | None => True end.
Lemma matches_overlap a b out :
  subnet_ok out → scope_matches a out = true → scope_matches b out = true → scopes_overlap a b = true.
Proof.
  intros Hout. destruct out as [e|]; [|destruct a, b; simpl; done]. simpl in Hout.
  assert (∀ n, scope_matches (Network n) (Some e) = true ∨ scope_matches (ExactSource n) (Some e) = true → net_contains n (cs_addr e) = true) as Hcontains.
  { intros n [Hn|Hn]; simpl in Hn; apply andb_true_iff in Hn as [Hn Hlast]; [done|]. apply andb_true_iff in Hn as [Hp%bool_decide_eq_true Hpl].
    destruct (net_new (cs_addr e) (source_prefix e)) as [sent|] eqn:En; [|done]. apply bool_decide_eq_true in Hlast.
    assert (0 ≤ source_prefix e) as Hpos by lia. destruct (net_new_inv _ _ _ Hout Hpos En) as (Ha & Hpre & _). rewrite net_contains_spec. apply bool_decide_eq_true. subst n.
    rewrite net_trunc_addr net_trunc_prefix Ha is_ipv4_mask. split; [done|].
    symmetry. apply mask_mask_le; [|]; pose proof (net_prefix_bound sent) as Hb; rewrite Ha in Hb; lia. }
  assert (∀ n m, net_contains n (cs_addr e) = true → net_contains m (cs_addr e) = true → net_contains n (net_addr m) || net_contains m (net_addr n) = true) as Hnets.
  { intros n m Hn Hm. apply not_false_iff_true. rewrite orb_false_iff. intros Hd.
    apply (proj1 (disjoint_nets_spec n m) Hd (cs_addr e)). done. }
  assert (∀ n, net_contains n (cs_addr e) = true → is_ipv4 (net_addr n) = is_ipv4 (cs_addr e)) as Hfam.
  { intros n Hn. rewrite net_contains_spec in Hn. by apply bool_decide_eq_true in Hn as [? _]. }
  assert (∀ f, scope_matches (Privacy f) (Some e) = true → source_prefix e = 0 ∧ is_ipv4 (cs_addr e) = f) as Hpriv.
  { intros f Hf. simpl in Hf. by apply andb_true_iff in Hf as [->%bool_decide_eq_true ->%eqb_prop]. }
  assert (∀ f, scope_matches (Learned f) (Some e) = true → source_prefix e > 0 ∧ is_ipv4 (cs_addr e) = f) as Hlearn.
  { intros f Hf. simpl in Hf. by apply andb_true_iff in Hf as [?%bool_decide_eq_true ->%eqb_prop]. }
  assert (∀ n, scope_matches (Network n) (Some e) = true ∨ scope_matches (ExactSource n) (Some e) = true → source_prefix e > 0) as Hpos.
  { intros n [Hn|Hn]; simpl in Hn; rewrite !andb_true_iff in Hn; by destruct Hn as [[?%bool_decide_eq_true _] _]. }
  assert (∀ n, scope_matches (Network n) (Some e) = true ∨ scope_matches (ExactSource n) (Some e) = true →
    source_prefix e > 0 ∧ net_contains n (cs_addr e) = true ∧ is_ipv4 (net_addr n) = is_ipv4 (cs_addr e)) as Hall.
  { intros n Hn. split; [by eapply Hpos|]. split; [by apply Hcontains|]. by apply Hfam, Hcontains. }
  destruct a as [|fa|na|na|fa], b as [|fb|nb|nb|fb]; intros Ha Hb; try done;
    repeat match goal with
      | Hm : scope_matches (Privacy _) _ = true |- _ => apply Hpriv in Hm as [? <-]
      | Hm : scope_matches (Learned _) _ = true |- _ => apply Hlearn in Hm as [? <-]
      | Hm : scope_matches (Network ?n) _ = true |- _ => destruct (Hall n (or_introl Hm)) as (? & ? & ?); clear Hm
      | Hm : scope_matches (ExactSource ?n) _ = true |- _ => destruct (Hall n (or_intror Hm)) as (? & ? & ?); clear Hm
      end; try lia; cbn [scopes_overlap]; try (by apply Hnets); try (by rewrite bool_decide_true);
    match goal with Heq : is_ipv4 (net_addr _) = _ |- _ => rewrite Heq end; apply eqb_reflx.
Qed.

(** ** The claims, in every cache callers can reach *)
Section reached.
Context (cfg : CacheConfig) (hash : Key → Z) (c0 c : Cache).
Hypothesis Hvalid : config_valid cfg.
Hypothesis Hnew : cache_new cfg hash = Some c0.
Hypothesis Hreach : reachable c0 c.

Lemma reached_ok : cache_ok c ∧ config c = cfg.
Proof.
  destruct (cache_new_ok _ _ _ Hvalid Hnew) as (Hok & Hc & _). destruct (reachable_follows _ _ Hok Hreach) as (Hok' & (Hc' & _) & _).
  split; [done|congruence].
Qed.
Definition bounded c' : Prop :=
  zsum entries_in (shards c') ≤ Z.of_nat (max_entries cfg) ∧ zsum bytes_in (shards c') ≤ max_bytes cfg.

(** C18. From a new cache, whatever its callers do and however the pieces of
    their lookups interleave, no operation panics, and the heap, the buckets,
    the LRU lists, the gauges and the classification table stay consistent. The
    entries never exceed the configured number, nor their bytes, those still
    held by readers included, the configured budget. *)
Theorem cache_stays_ok o :
  enabled o c → wp (run o) (λ _ c', reachable c0 c' ∧ cache_ok c' ∧ bounded c') (λ _ _, False) c.
Proof.
  intros Hen. destruct reached_ok as [Hok Hcfg]. pose proof (run_wp o c Hok Hen) as Hwp. unfold wp in *.
  destruct (run o c) as [[[]|?| |] c'] eqn:E; try done. destruct Hwp as (Hok' & (Hc' & _) & _).
  split; [|split; [done|]].
  - eapply rtc_r; [exact Hreach|]. by exists o.
  - unfold bounded. rewrite -Hcfg -Hc'. by apply cache_ok_bounds.
Qed.

(** C20. A hit is an unexpired entry of the query's own key whose namespace
    covers the subnet sent, the freshest and then most specific there is; stale
    data and cached failures come only where the caller allows them; its ID,
    question and EDNS are the query's. A miss means that no entry would do. *)
Theorem lookup_serves query out now stale observe :
  queries query ≠ [] →
  wp (lookup_inner query out now stale observe)
    (λ r c', cache_ok c' ∧
       (r_hit r = None ∧ l_outcome (r_decision r) ≠ Miss ∧ idle c c' ∨
        ∃ question k i s, queries query !! 0%nat = Some question ∧ key_of_query question query = Some k ∧ shard_of c k i s ∧
          match r_hit r with
          | Some h => ∃ e m, e ∈ bucket s k ∧ scope_matches (e_scope e) out = true ∧ age now e < e_retention e ∧
              (∀ e', e' ∈ bucket s k → usable out now stale e' = true → rank_le now e' e = true) ∧
              h_scope h = e_scope e ∧ h_failure h = e_failure e ∧ h_stale h = bool_decide (e_lifetime e ≤ age now e) ∧
              (h_stale h = true → stale = true) ∧ (is_failure e = true → stale = false) ∧
              (decode (e_wire e) tt).1 = Ok m ∧ h_message h = reply_message cfg query e now m ∧
              h_authentic h = authentic_data m && negb (h_stale h)
          | None => l_outcome (r_decision r) = Miss → ∀ e, e ∈ bucket s k → usable out now stale e = false
          end))
    (λ _ _, False) c.
Proof.
  intros Hq. destruct reached_ok as [Hok Hcfg]. eapply wp_mono; [| |by apply lookup_inner_wp]; [|done].
  intros r c' [Hok' [Hidle|(question & k & Hq0 & Hk & _ & i & s & s' & u & n & Hof & _ & Hcase)]]; [split; [done|by left]|].
  split; [done|]. right. exists question, k, i, s. split_and!; [done..|].
  destruct Hcase as [(id & e & Hf & -> & _)|(-> & Hno & _)]; [|by intros _].
  destruct Hf as (Hl & He & Hid & Hke & Hu & Hmax). rewrite -Hcfg. unfold entry_result.
  destruct (decode (e_wire e) tt).1 as [m|?| |] eqn:Ed; simpl; [|done..].
  exists e, m. pose proof (proj1 (Forall_forall _ _) (ck_shards _ Hok) s (list_elem_of_lookup_2 _ _ _ (proj2 Hof))) as [Hso _].
  unfold usable in Hu. rewrite !andb_true_iff in Hu. destruct Hu as [[[Hm Hr%bool_decide_eq_true] Hst] Hfail].
  split_and!; try done.
  - apply (in_bucket (max_variants (config c))); [done|]. by rewrite Hid.
  - intros Hs%bool_decide_eq_true. apply orb_true_iff in Hst as [Hst%bool_decide_eq_true|]; [lia|done].
  - intros Hfe. rewrite Hfe andb_true_r in Hfail. by destruct stale.
Qed.

(** For any query, at most one stored answer and at most one stored failure
    of its key can serve it: what has been superseded cannot come back. *)
Theorem one_answer_serves k out i s a b :
  subnet_ok out → shards c !! i = Some s → a ∈ bucket s k → b ∈ bucket s k →
  scope_matches (e_scope a) out = true → scope_matches (e_scope b) out = true →
  is_failure a = is_failure b → a = b.
Proof.
  intros Hout Hs Ha Hb Hma Hmb Hf. destruct reached_ok as [Hok _].
  pose proof (proj1 (Forall_forall _ _) (ck_shards _ Hok) s (list_elem_of_lookup_2 _ _ _ Hs)) as [Hso _].
  apply (in_bucket (max_variants (config c))) in Ha as (Hla & Hea & Hka), Hb as (Hlb & Heb & Hkb); [|done..].
  destruct (decide (e_id a = e_id b)) as [Heq|Hne]; [rewrite Heq in Hea; congruence|]. exfalso.
  pose proof (so_compatible _ _ Hso _ _ (norm a) (norm b) Hne) as Hc.
  rewrite !live_heap_Some in Hc. specialize (Hc (conj (arcs_heap _ _ _ Hea) Hla) (conj (arcs_heap _ _ _ Heb) Hlb)).
  unfold compatible in Hc. simpl in Hc. specialize (Hc ltac:(congruence) (matches_overlap _ _ _ Hout Hma Hmb)).
  change (is_failure (norm a)) with (is_failure a) in Hc. change (is_failure (norm b)) with (is_failure b) in Hc.
  rewrite Hf in Hc. by destruct (is_failure b).
Qed.

(** C22. An answer of the current epoch supersedes every entry of its key that
    overlaps the scope it is stored under, whether it can be stored itself or
    not; apart from those, only expired entries of the key and, to make room,
    entries of its own partition go. When it is stored it is what
    [prepare_response] made of it. *)
Theorem answer_supersedes query response scope now (e : Z) origin :
  queries query ≠ [] → message_ok response → restore_of origin = None →
  wp (admit_ query response scope now e origin)
    (λ d c', cache_ok c' ∧
       (not_locked d c c' ∨ ∃ question k, queries query !! 0%nat = Some question ∧ key_of_query question query = Some k ∧
          on_shard k c c' (λ _ s s', if decide (e = epoch c)
            then answered cfg k (policy cfg (rules c) k (q_name question)) question response scope now d s s'
            else late d s s')))
    (λ _ _, False) c.
Proof.
  intros Hq Hm Ho. destruct reached_ok as [Hok <-]. eapply wp_mono; [| |by apply (admit_wp query response scope now e origin); destruct origin]; [|done].
  intros d c' [Hok' [Hn|(question & k & Hq0 & Hk & Hon)]]; (split; [done|]); [by left|]. right. exists question, k. by destruct origin.
Qed.

(** Restoring a record of a snapshot removes nothing but expired entries of
    its key: live knowledge and fuller partitions win. *)
Theorem restore_displaces_nothing query response scope now (e : Z) r :
  queries query ≠ [] → message_ok response → 0 ≤ r_remaining r →
  wp (admit_ query response scope now e (Restored r))
    (λ d c', cache_ok c' ∧
       (not_locked d c c' ∨ ∃ question k, queries query !! 0%nat = Some question ∧ key_of_query question query = Some k ∧
          on_shard k c c' (λ _ s s', if decide (e = epoch c)
            then restored cfg k (policy cfg (rules c) k (q_name question)) question response scope now r d s s'
            else late d s s')))
    (λ _ _, False) c.
Proof. intros Hq Hm Hr. destruct reached_ok as [Hok <-]. by apply (admit_wp query response scope now e (Restored r)). Qed.

(** A cached failure displaces no positive answer: only expired entries of
    its key and entries of the negative partition go, and it is stored only
    beside answers that are no longer fresh. *)
Theorem failure_displaces_no_answer query response scope now (e : Z) f :
  queries query ≠ [] →
  wp (admit_failure query response scope now e f)
    (λ d c', cache_ok c' ∧
       (not_locked d c c' ∨ ∃ question k wire, queries query !! 0%nat = Some question ∧ key_of_query question query = Some k ∧
          response_code response = ServFail ∧ to_vec (failure_message query response) = Some wire ∧
          on_shard k c c' (λ _ s s', if decide (e = epoch c)
            then failed k scope wire (failure_lifetime c (policy cfg (rules c) k (q_name question))) now f d s s'
            else late d s s')))
    (λ _ _, False) c.
Proof. intros Hq. destruct reached_ok as [Hok <-]. by apply admit_failure_wp. Qed.

(** C21. Invalidation removes exactly what it names from every shard, and it is
    final: an answer whose epoch was read before it, admitted at any later time,
    changes no entry. *)
Theorem invalidation_is_final name kind scope :
  wp (invalidate name kind scope)
    (λ _ c1, (∀ j s, shards c !! j = Some s → ∃ s', shards c1 !! j = Some s' ∧ cleared (key_name <$> name) kind scope s s') ∧
       ∀ c2 query response sc now (e : Z) origin, reachable c1 c2 → e ≤ epoch c →
         queries query ≠ [] → message_ok response → origin_ok origin →
         wp (admit_ query response sc now e origin)
           (λ d c3, store_admitted d = false ∧ (c3 = c2 ∨ ∃ k, on_shard k c2 c3 (λ _ s s', ∃ n, s' = with_counts (count_rejection n (counts s)) s)))
           (λ _ _, False) c2)
    (λ _ _, False) c.
Proof.
  destruct reached_ok as [Hok _]. eapply wp_mono; [| |by apply invalidate_wp]; [|done].
  intros r c1 (Hok1 & _ & _ & He1 & _ & Hcl). split; [done|]. intros c2 query response sc now e origin Hr He Hq Hm Ho.
  destruct (reachable_follows _ _ Hok1 Hr) as (Hok2 & _ & He2).
  eapply wp_mono; [| |by apply (admit_wp query response sc now e origin c2)]; [|done].
  intros d c3 [_ [[-> [reason ->]]|(question & k & _ & _ & i & s & s' & u & n & Hof & -> & Hcase)]].
  - split; [by apply bool_decide_eq_false; intros [|]|by left].
  - rewrite decide_False in Hcase; [|lia]. destruct Hcase as [-> [m ->]]. split; [by apply bool_decide_eq_false; intros [|]|].
    right. exists k, i, s. eexists _, u, n. split_and!; [done..|by exists m].
Qed.
End reached.
End claims.

(** ** A cache with an answer in it *)
Module CacheWitness.
Import DnsWitness.
#[local] Existing Instance names.
#[local] Existing Instance dns_names.
#[local] Existing Instance dns_names_spec.
#[local] Existing Instance ListNet.lib.
#[local] Existing Instance ListNet.spec.
#[local] Existing Instance ListLru.lib.
#[local] Existing Instance ListLru.spec.
#[local] Existing Instance WireWitness.lib.
#[local] Existing Instance WireWitness.spec.
Definition question : Query := mkQuery [[97]] 1 1.
Definition query_ : Message := mkMessage 7 false 0 false false true true false false 0 [question] [] [] [] None None.
Definition answer_ (code : Z) (rs : list Rr) : Message :=
  mkMessage 7 true 0 false false true true false false code [question] rs [] [] None None.
Definition a_record : Rr := mkRr [[97]] 1 60 (ROther 1 [10; 0; 0; 1]).
(** The codec writes and reads the one answer; failures have no records. *)
Definition vec (m : Message) : option (list Z) := Some [if bool_decide (answers m = []) then 8 else 7].
Definition read (b : list Z) : option (Message * list Z) :=
  match b with b :: r => Some (if bool_decide (b = 8) then answer_ ServFail [] else answer_ NoError [a_record], r) | [] => None end.
Definition lib : MessageLib := messages vec read.
#[local] Existing Instance lib.
#[local] Instance vec_spec : VecSpec.
Proof. split. intros m w Hw. simpl in Hw. unfold vec in Hw. injection Hw as <-. case_bool_decide; repeat constructor; lia. Qed.
#[local] Instance sizes : Layout := {| size_of_entry := 160; size_of_key := 96 |}.
#[local] Instance sizes_spec : LayoutSpec.
Proof. split; simpl; lia. Qed.
#[local] Instance rdata : RDataLib := {|
  rdata_to_bytes d := match d with RCname n => Some (mjoin n) | RSoa s => Some (soa_rest s) | ROther _ b => Some b end
|}.
#[local] Instance sha : Sha256Lib := {| sha256 b := replicate 32 (Z.of_nat (length b)) |}.
#[local] Instance parse : NameParse := {| from_ascii s := Some (map (λ c, [c]) s); type_from_str s := None |}.

Definition config_ : CacheConfig :=
  mkConfig true 10 8000 4 86400 3600 5 1 25 (mkPrefetch true 2 10 32 100 5) (mkStale true 3600 30) (mkSharing false 3 600) [].
Definition hash (k : Key) : Z := k_kind k.
Lemma config_is_valid : config_valid config_.
Proof. split; [split; by_compute|by_compute|by_compute]. Qed.
Definition store : Op := OAnswer query_ (answer_ NoError [a_record]) NoEcs 5 0.
Definition hits_at (now : Z) (c : Cache) : bool :=
  match (lookup_inner query_ None now false true c).1 with Ok r => bool_decide (is_Some (h_failure <$> r_hit r)) | _ => false end.
Lemma response_ok : message_ok (answer_ NoError [a_record]).
Proof. vm_compute. repeat constructor; discriminate. Qed.

Definition fresh_answer : Message := answer_ NoError [a_record; a_record].
Lemma fresh_ok : message_ok fresh_answer.
Proof. vm_compute. repeat constructor; discriminate. Qed.

(** The answer is stored at 5 ns; a test of the cache that has it computes. *)
Lemma tested (t : Cache → bool) :
  match cache_new config_ hash with Some c0 => is_ok (run store c0).1 && t (run store c0).2 | None => false end = true →
  ∃ c0 c, cache_new config_ hash = Some c0 ∧ reachable c0 c ∧ t c = true.
Proof.
  destruct (cache_new config_ hash) as [c0|] eqn:E; [|discriminate].
  destruct (run store c0) as [[[]| | |] c] eqn:Er; simpl; intros Ht; try discriminate Ht.
  exists c0, c. split; [reflexivity|]. split; [|exact Ht].
  apply rtc_once. exists store. split; [|exact Er]. split; [discriminate|exact response_ok].
Qed.
Lemma started : ∃ c0 c, cache_new config_ hash = Some c0 ∧ reachable c0 c ∧ hits_at 6 c = true.
Proof. apply tested. vm_compute. reflexivity. Qed.

Lemma cache_stays_ok_witness :
  ∃ c0 c c', cache_new config_ hash = Some c0 ∧ hits_at 6 c = true ∧
    run (OInvalidate None None None) c = (Ok tt, c') ∧ reachable c0 c' ∧ cache_ok c' ∧ zsum bytes_in (shards c') ≤ 8000.
Proof.
  destruct started as (c0 & c & E & Hr & Hhit).
  destruct (wp_total _ _ _ (cache_stays_ok config_ hash c0 c config_is_valid E Hr (OInvalidate None None None) I))
    as ([] & c' & Hrun & Hr' & Hok & _ & Hb).
  exists c0, c, c'. split_and!; assumption.
Defined.
Lemma lookup_serves_witness :
  ∃ c0 c r c' h, cache_new config_ hash = Some c0 ∧ reachable c0 c ∧
    lookup_inner query_ None 6 false true c = (Ok r, c') ∧ r_hit r = Some h ∧ h_stale h = false ∧
    ∃ e m, age 6 e < e_retention e ∧ (decode (e_wire e) tt).1 = Ok m ∧ h_message h = reply_message config_ query_ e 6 m.
Proof.
  destruct started as (c0 & c & E & Hr & Hhit). unfold hits_at in Hhit.
  destruct (wp_total _ _ _ (lookup_serves config_ hash c0 c config_is_valid E Hr query_ None 6 false true ltac:(discriminate)))
    as (r & c' & Hrun & _ & Hserve).
  rewrite Hrun in Hhit. simpl in Hhit. apply bool_decide_eq_true in Hhit.
  destruct (r_hit r) as [h|] eqn:Eh; [|by destruct Hhit].
  destruct Hserve as [(Hno & _)|(q & k & i & s & _ & _ & _ & Hh)]; [discriminate Hno|].
  destruct Hh as (e & m & _ & _ & Hage & _ & _ & _ & _ & Hst & _ & Hd & Hm & _).
  exists c0, c, r, c', h. split_and!; try assumption.
  - destruct (h_stale h); [|reflexivity]. discriminate (Hst eq_refl).
  - exists e, m. split_and!; assumption.
Defined.

(** Later states, reached from [started] by a test that computes. *)
Definition key : Key := mkKey [[97]] 1 1 false false true false.
Definition serving (c : Cache) : bool :=
  match shards c !! 0%nat with
  | Some s => match bucket s key with [e] => scope_matches (e_scope e) None && negb (is_failure e) | _ => false end
  | None => false
  end.
Definition admits (c : Cache) : bool :=
  bool_decide (epoch c = 0) &&
  match (admit_ query_ fresh_answer NoEcs 7 0 Answer c).1 with Ok d => store_admitted d | _ => false end.
Definition restores (c : Cache) : bool :=
  bool_decide (epoch c = 0) &&
  match (admit_ query_ fresh_answer NoEcs 7 0 (Restored (mkRestore 60 1)) c).1 with
  | Ok d => negb (store_admitted d) | _ => false end.
Definition fails (c : Cache) : bool :=
  bool_decide (epoch c = 0) &&
  match (admit_failure query_ (answer_ ServFail []) NoEcs 60000000007 0 Final c).1 with Ok d => store_admitted d | _ => false end.
Lemma one_answer_serves_witness :
  ∃ c0 c s a, cache_new config_ hash = Some c0 ∧ reachable c0 c ∧ shards c !! 0%nat = Some s ∧ a ∈ bucket s key ∧
    ∀ b, b ∈ bucket s key → scope_matches (e_scope b) None = true → is_failure a = is_failure b → a = b.
Proof.
  destruct (tested serving) as (c0 & c & E & Hr & Ht); [vm_compute; reflexivity|].
  unfold serving in Ht. destruct (shards c !! 0%nat) as [s|] eqn:Es; [|discriminate Ht].
  destruct (bucket s key) as [|a [|? ?]] eqn:Eb; try discriminate Ht. apply andb_true_iff in Ht as [Hm _].
  assert (a ∈ [a]) as Ha by constructor. rewrite -Eb in Ha |- *.
  exists c0, c, s, a. split_and!; try assumption. intros b Hb Hmb Hf.
  exact (one_answer_serves config_ hash c0 c config_is_valid E Hr key None 0%nat s a b I Es Ha Hb Hm Hmb Hf).
Defined.
(** A newer answer replaces it. *)
Lemma answer_supersedes_witness :
  ∃ c0 c d c', cache_new config_ hash = Some c0 ∧ reachable c0 c ∧
    admit_ query_ fresh_answer NoEcs 7 0 Answer c = (Ok d, c') ∧ store_admitted d = true ∧
    ∃ question k, on_shard k c c' (λ _ s s', answered config_ k (policy config_ (rules c) k (q_name question)) question fresh_answer NoEcs 7 d s s').
Proof.
  destruct (tested admits) as (c0 & c & E & Hr & Ht); [vm_compute; reflexivity|].
  unfold admits in Ht. apply andb_true_iff in Ht as [He Ht]. apply bool_decide_eq_true in He.
  destruct (wp_total _ _ _ (answer_supersedes config_ hash c0 c config_is_valid E Hr query_ fresh_answer NoEcs 7 0 Answer
    ltac:(discriminate) fresh_ok eq_refl)) as (d & c' & Hrun & _ & Hcase).
  rewrite Hrun in Ht. simpl in Ht. exists c0, c, d, c'. split_and!; try assumption.
  destruct Hcase as [[_ [r ->]]|(q & k & _ & _ & Hon)]; [discriminate Ht|]. exists q, k.
  destruct (decide (0 = epoch c)) as [_|Hne]; [exact Hon|destruct (Hne (eq_sym He))].
Defined.
(** The live answer outlives the record of a snapshot. *)
Lemma restore_displaces_nothing_witness :
  ∃ c0 c d c', cache_new config_ hash = Some c0 ∧ reachable c0 c ∧
    admit_ query_ fresh_answer NoEcs 7 0 (Restored (mkRestore 60 1)) c = (Ok d, c') ∧ store_admitted d = false ∧
    (c' = c ∨ ∃ question k, on_shard k c c' (λ _ s s', restored config_ k (policy config_ (rules c) k (q_name question)) question fresh_answer NoEcs 7 (mkRestore 60 1) d s s')).
Proof.
  destruct (tested restores) as (c0 & c & E & Hr & Ht); [vm_compute; reflexivity|].
  unfold restores in Ht. apply andb_true_iff in Ht as [He Ht]. apply bool_decide_eq_true in He.
  destruct (wp_total _ _ _ (restore_displaces_nothing config_ hash c0 c config_is_valid E Hr query_ fresh_answer NoEcs 7 0 (mkRestore 60 1)
    ltac:(discriminate) fresh_ok ltac:(by_compute))) as (d & c' & Hrun & _ & Hcase).
  rewrite Hrun in Ht. simpl in Ht. apply negb_true_iff in Ht. exists c0, c, d, c'. split_and!; try assumption.
  destruct Hcase as [[-> _]|(q & k & _ & _ & Hon)]; [left; reflexivity|]. right. exists q, k.
  destruct (decide (0 = epoch c)) as [_|Hne]; [exact Hon|destruct (Hne (eq_sym He))].
Defined.
(** Once the answer is stale a failure is cached beside it. *)
Lemma failure_displaces_no_answer_witness :
  ∃ c0 c d c', cache_new config_ hash = Some c0 ∧ reachable c0 c ∧
    admit_failure query_ (answer_ ServFail []) NoEcs 60000000007 0 Final c = (Ok d, c') ∧ store_admitted d = true ∧
    ∃ k wire lifetime, on_shard k c c' (λ _ s s', failed k NoEcs wire lifetime 60000000007 Final d s s').
Proof.
  destruct (tested fails) as (c0 & c & E & Hr & Ht); [vm_compute; reflexivity|].
  unfold fails in Ht. apply andb_true_iff in Ht as [He Ht]. apply bool_decide_eq_true in He.
  destruct (wp_total _ _ _ (failure_displaces_no_answer config_ hash c0 c config_is_valid E Hr query_ (answer_ ServFail []) NoEcs 60000000007 0 Final
    ltac:(discriminate))) as (d & c' & Hrun & _ & Hcase).
  rewrite Hrun in Ht. simpl in Ht. exists c0, c, d, c'. split_and!; try assumption.
  destruct Hcase as [[_ [r ->]]|(q & k & wire & _ & _ & _ & _ & Hon)]; [discriminate Ht|]. exists k, wire. eexists.
  destruct (decide (0 = epoch c)) as [_|Hne]; [exact Hon|destruct (Hne (eq_sym He))].
Defined.
(** An answer asked for before the invalidation comes too late. *)
Lemma invalidation_is_final_witness :
  ∃ c0 c r c1, cache_new config_ hash = Some c0 ∧ reachable c0 c ∧ invalidate None None None c = (Ok r, c1) ∧
    ∃ d c2, admit_ query_ fresh_answer NoEcs 7 (epoch c) Answer c1 = (Ok d, c2) ∧ store_admitted d = false.
Proof.
  destruct started as (c0 & c & E & Hr & _).
  destruct (wp_total _ _ _ (invalidation_is_final config_ hash c0 c config_is_valid E Hr None None None)) as (r & c1 & Hrun & _ & Hfin).
  exists c0, c, r, c1. split_and!; try assumption.
  destruct (wp_total _ _ _ (Hfin c1 query_ fresh_answer NoEcs 7 (epoch c) Answer (rtc_refl _ _) ltac:(reflexivity) ltac:(discriminate) fresh_ok I))
    as (d & c2 & Had & Hd & _). exists d, c2. split; assumption.
Defined.
End CacheWitness.
