(* ===== verification/BlockAnswer.v ===== *)
(** * What a blocked query is answered with

    [src/policy/response.rs]: the block methods, their settings and rule
    syntax, the answer each of them synthesizes, and the answer classes of the
    index slots. The texts and digests of methods are not modelled; they name
    published generations only. *)
From S2P Require Import Prelude Std Net Names Canonical ParseSource Dns Ecs Wire Protocol.
Set Default Goal Selector "!".
Set Warnings "-rewrite-rw".
Local Open Scope Z_scope.
Local Open Scope rust_scope.

(** ** Text

    A [str] is the list of its characters. *)
Notation Str := (list Z).
Fixpoint lit (s : string) : Str :=
  match s with
  | EmptyString => []
  | String c s => Z.of_nat (Ascii.nat_of_ascii c) :: lit s
  end.
Definition utf8_char (c : Z) : list Z :=
  if bool_decide (c < 128) then [c]
  else if bool_decide (c < 2048) then [192 + c / 64; 128 + c mod 64]
  else if bool_decide (c < 65536) then [224 + c / 4096; 128 + c / 64 mod 64; 128 + c mod 64]
  else [240 + c / 262144; 128 + c / 4096 mod 64; 128 + c / 64 mod 64; 128 + c mod 64].
Definition utf8 (s : Str) : list Z := s ≫= utf8_char.

(** ** Methods *)
Inductive BlockMode : Type := MNodata | MNullIp | MCustomIp | MNxdomain | MRefused.
Inductive BlockResponse : Type :=
  | Nodata
  | NullIp
  | CustomIp (ipv4 ipv6 : option Z)
  | Nxdomain
  | Refused_.
#[export] Instance BlockMode_eq_dec : EqDecision BlockMode.
Proof. solve_decision. Defined.
#[export] Instance BlockResponse_eq_dec : EqDecision BlockResponse.
Proof. solve_decision. Defined.
Inductive ResponseError : Type :=
  | AddressesNotAllowed | AddressNeeded | SettingNotUnicast
  | MethodExpected | UnknownMethod | AddressNotUnicast | DuplicateFamily.

Definition unicast (a : IpAddr) : bool :=
  negb (is_unspecified a) && negb (is_multicast a) && negb (bool_decide (a = V4 u32_max)).
Definition from_settings (mode : BlockMode) (ipv4 ipv6 : option Z) : outcome ResponseError BlockResponse :=
  if negb (bool_decide (mode = MCustomIp)) && (bool_decide (is_Some ipv4) || bool_decide (is_Some ipv6))
  then Err AddressesNotAllowed else
  match mode with
  | MNodata => Ok Nodata
  | MNullIp => Ok NullIp
  | MNxdomain => Ok Nxdomain
  | MRefused => Ok Refused_
  | MCustomIp =>
      if bool_decide (ipv4 = None) && bool_decide (ipv6 = None) then Err AddressNeeded else
      if forallb unicast (option_list (V4 <$> ipv4) ++ option_list (V6 <$> ipv6))
      then Ok (CustomIp ipv4 ipv6) else Err SettingNotUnicast
  end.

Section parse.
Context `{IpParse}.
Fixpoint parse_addresses (tokens : list Str) (ipv4 ipv6 : option Z) : outcome ResponseError BlockResponse :=
  match tokens with
  | [] => Ok (CustomIp ipv4 ipv6)
  | token :: tokens =>
      match parse_ip (utf8 token) with
      | None => Err UnknownMethod
      | Some address =>
          if negb (unicast address) then Err AddressNotUnicast else
          match address with
          | V4 v4 => if bool_decide (is_Some ipv4) then Err DuplicateFamily
                     else parse_addresses tokens (Some v4) ipv6
          | V6 v6 => if bool_decide (is_Some ipv6) then Err DuplicateFamily
                     else parse_addresses tokens ipv4 (Some v6)
          end
      end
  end.
Definition parse_rule (tokens : list Str) : outcome ResponseError BlockResponse :=
  let addresses := parse_addresses tokens None None in
  match tokens with
  | [t] =>
      if bool_decide (t = lit "nodata") then Ok Nodata else
      if bool_decide (t = lit "null_ip") then Ok NullIp else
      if bool_decide (t = lit "nxdomain") then Ok Nxdomain else
      if bool_decide (t = lit "refused") then Ok Refused_ else addresses
  | [_; _] => addresses
  | _ => Err MethodExpected
  end.
End parse.
Definition kind_text (b : BlockResponse) : Str :=
  match b with
  | Nodata => lit "nodata"
  | NullIp => lit "null_ip"
  | CustomIp _ _ => lit "custom_ip"
  | Nxdomain => lit "nxdomain"
  | Refused_ => lit "refused"
  end.

(** ** Answers *)
Definition A_TYPE : Z := 1.
Definition AAAA_TYPE : Z := 28.
Definition EDE_BLOCKED : Z := 15.
Definition name_wire (labels : list string) : list Z :=
  (labels ≫= λ l, Z.of_nat (String.length l) :: lit l) ++ [0].
(** The names, serial, refresh, retry and expire of the synthesized SOA. *)
Definition SOA_FIELDS : list Z :=
  name_wire ["blocked"%string; "parins"%string; "invalid"%string] ++
  name_wire ["hostmaster"%string; "parins"%string; "invalid"%string] ++
  be_bytes 4 1 ++ be_bytes 4 1800 ++ be_bytes 4 900 ++ be_bytes 4 604800.

Section answer.
Context `{MessageLib}.
Definition soa (rule : Name) (class ttl : Z) : Rr := mkRr rule class ttl (RSoa (mkSoa ttl SOA_FIELDS)).
Definition block_code (b : BlockResponse) : Z :=
  match b with Nxdomain => NXDomain | Refused_ => Refused | _ => NoError end.
Definition block_address (b : BlockResponse) (class kind : Z) : option RData :=
  if negb (bool_decide (class = IN)) then None else
  if bool_decide (kind = A_TYPE) then
    match b with
    | NullIp => Some (ROther A_TYPE (be_bytes 4 0))
    | CustomIp (Some a) _ => Some (ROther A_TYPE (be_bytes 4 a))
    | _ => None
    end
  else if bool_decide (kind = AAAA_TYPE) then
    match b with
    | NullIp => Some (ROther AAAA_TYPE (be_bytes 16 0))
    | CustomIp _ (Some a) => Some (ROther AAAA_TYPE (be_bytes 16 a))
    | _ => None
    end
  else None.
(** [None] is the panic of [query.queries[0]]. *)
Definition answer (b : BlockResponse) (query : Message) (rule : Name) (ttl : Z) : option Message :=
  question ← queries query !! 0%nat;
  let code := block_code b in
  let r := error_response query code in
  let r := match block_address b (q_class question) (q_type question) with
           | Some data =>
               with_sections (answers r ++ [mkRr (q_name question) (q_class question) ttl data]) (authorities r) (additionals r) r
           | None =>
               if bool_decide (code ≠ Refused)
               then with_sections (answers r) (authorities r ++ [soa rule (q_class question) ttl]) (additionals r) r
               else r
           end in
  let r := match edns r with
           | Some e => with_edns (Some (insert_options [Unknown EXTENDED_ERROR (be_bytes 2 EDE_BLOCKED)] e)) r
           | None => r
           end in
  Some (with_authentic false r).
End answer.

(** ** The method of every index slot *)
Record Responses : Type := mkResponses {
  global : BlockResponse;
  ttl : Z;
  r_local_slots : Z;
  slots : list (option BlockResponse);
}.
Definition get_response (r : Responses) (slot : Z) : BlockResponse :=
  default (global r) (mjoin (slots r !! Z.to_nat slot)).
Fixpoint classes_from (r : Responses) (distinct : list BlockResponse) (l : list Z) : list Z :=
  match l with
  | [] => []
  | slot :: l =>
      let response := get_response r slot in
      match list_find (λ known, known = response) distinct with
      | Some (i, _) => as_u16 (Z.of_nat i) :: classes_from r distinct l
      | None => as_u16 (Z.of_nat (length distinct)) :: classes_from r (distinct ++ [response]) l
      end
  end.
Definition response_classes (r : Responses) : list Z :=
  classes_from r [] (seqZ 0 (as_u16 (Z.of_nat (length (slots r))))).

(** ** Slots answer alike exactly when their classes agree *)
Lemma classes_from_spec r l : ∀ distinct,
  NoDup distinct → Z.of_nat (length distinct + length l) ≤ u16_max →
  ∃ distinct', NoDup distinct' ∧
    Forall2 (λ slot c, 0 ≤ c ∧ distinct' !! Z.to_nat c = Some (get_response r slot)) l (classes_from r distinct l) ∧
    distinct `prefix_of` distinct'.
Proof.
  induction l as [|slot l IH]; intros distinct Hnd Hlen; simpl in *.
  { exists distinct. by split_and!. }
  unfold u16_max in *.
  destruct (list_find _ distinct) as [[i y]|] eqn:E.
  - apply list_find_Some in E as (Hi & -> & _). pose proof (lookup_lt_Some _ _ _ Hi).
    destruct (IH distinct) as (d & Hd & Hf & Hp); [done|lia|]. exists d. split_and!; [done| |done].
    constructor; [|done]. rewrite as_u16_small; [|lia]. split; [lia|]. rewrite Nat2Z.id. by eapply prefix_lookup_Some.
  - apply list_find_None in E. assert (get_response r slot ∉ distinct) as Hnin.
    { intros Hin. by apply (proj1 (Forall_forall _ _) E _ Hin). }
    destruct (IH (distinct ++ [get_response r slot])) as (d & Hd & Hf & Hp).
    { apply NoDup_app. split_and!; [done| |apply NoDup_singleton]. by intros x Hx ->%list_elem_of_singleton. }
    { rewrite length_app /=. lia. }
    exists d. split_and!; [done| |by etrans; [apply prefix_app_r|]]. constructor; [|done].
    rewrite as_u16_small; [|lia]. split; [lia|]. rewrite Nat2Z.id. eapply prefix_lookup_Some; [|exact Hp].
    by rewrite lookup_app_r // Nat.sub_diag.
Qed.
Lemma response_classes_spec r :
  Z.of_nat (length (slots r)) ≤ u16_max →
  length (response_classes r) = length (slots r) ∧
  ∀ i j, 0 ≤ i < Z.of_nat (length (slots r)) → 0 ≤ j < Z.of_nat (length (slots r)) →
    (response_classes r !! Z.to_nat i = response_classes r !! Z.to_nat j ↔ get_response r i = get_response r j).
Proof.
  intros Hlen. unfold u16_max in Hlen.
  destruct (classes_from_spec r (seqZ 0 (Z.of_nat (length (slots r)))) []) as (d & Hd & Hf & _).
  { by apply NoDup_nil_2. }
  { rewrite length_seqZ. unfold u16_max. simpl. lia. }
  unfold response_classes. rewrite as_u16_small; [|lia]. split; [rewrite -(Forall2_length _ _ _ Hf) length_seqZ; lia|].
  intros i j Hi Hj.
  assert (∀ i, 0 ≤ i < Z.of_nat (length (slots r)) → ∃ c, classes_from r [] (seqZ 0 (Z.of_nat (length (slots r)))) !! Z.to_nat i = Some c ∧
    0 ≤ c ∧ d !! Z.to_nat c = Some (get_response r i)) as Hat.
  { intros x Hx. destruct (Forall2_lookup_l _ _ _ (Z.to_nat x) (0 + Z.of_nat (Z.to_nat x)) Hf) as (c & Hc & Hp).
    - apply lookup_seqZ. lia.
    - exists c. rewrite Z.add_0_l Z2Nat.id in Hp; [done|lia]. }
  destruct (Hat i Hi) as (ci & -> & Hci & Hdi), (Hat j Hj) as (cj & -> & Hcj & Hdj). split.
  - intros [= ->]. congruence.
  - intros Heq. f_equal. rewrite Heq in Hdi. pose proof (NoDup_lookup _ _ _ _ Hd Hdi Hdj). lia.
Qed.

(** ** Configured addresses are unicast *)
Definition method_ok (b : BlockResponse) : Prop :=
  match b with
  | CustomIp ipv4 ipv6 => (is_Some ipv4 ∨ is_Some ipv6) ∧
      (∀ a, ipv4 = Some a → unicast (V4 a) = true) ∧ (∀ a, ipv6 = Some a → unicast (V6 a) = true)
  | _ => True
  end.
Lemma from_settings_ok mode ipv4 ipv6 b : from_settings mode ipv4 ipv6 = Ok b → method_ok b.
Proof.
  unfold from_settings. destruct (_ && _); [done|]. destruct mode; try (by intros [= <-]).
  destruct (bool_decide (ipv4 = None) && bool_decide (ipv6 = None)) eqn:E; [done|].
  destruct (forallb _ _) eqn:Ef; [|done]. intros [= <-].
  rewrite forallb_app andb_true_iff in Ef. destruct Ef as [E4 E6].
  rewrite andb_false_iff !bool_decide_eq_false in E. split_and!.
  - destruct ipv4, ipv6; try (by left; eauto); [right; eauto|]. by destruct E as [[]|[]].
  - intros a ->. simpl in E4. by rewrite andb_true_r in E4.
  - intros a ->. simpl in E6. by rewrite andb_true_r in E6.
Qed.
Lemma parse_addresses_ok `{IpParse} tokens : ∀ ipv4 ipv6 b,
  parse_addresses tokens ipv4 ipv6 = Ok b → tokens ≠ [] ∨ is_Some ipv4 ∨ is_Some ipv6 →
  (∀ a, ipv4 = Some a → unicast (V4 a) = true) → (∀ a, ipv6 = Some a → unicast (V6 a) = true) → method_ok b.
Proof.
  induction tokens as [|t tokens IH]; intros ipv4 ipv6 b; simpl.
  { intros [= <-] Hs H4 H6. split_and!; [by destruct Hs|done..]. }
  destruct (parse_ip (utf8 t)) as [[v|v]|]; [| |done]; (destruct (unicast _) eqn:Eu; [|done]); cbn [negb];
    case_bool_decide; try done; intros Hp _ H4 H6.
  - eapply IH; [exact Hp|by right; left; eauto| |done]. by intros ? [= <-].
  - eapply IH; [exact Hp|by right; right; eauto|done|]. by intros ? [= <-].
Qed.
Lemma parse_rule_method `{IpParse} tokens b : parse_rule tokens = Ok b → method_ok b.
Proof.
  assert (∀ t ts, parse_addresses (t :: ts) None None = Ok b → method_ok b) as Ha.
  { intros t ts Hp. eapply parse_addresses_ok; [exact Hp|by left|done|done]. }
  destruct tokens as [|t [|t2 [|t3 ts]]]; try done; [|apply Ha]. unfold parse_rule.
  repeat (case_bool_decide; [by intros [= <-]|]). apply Ha.
Qed.

(** ** The shape of an answer *)
Section shape.
Context `{MessageLib} `{!MessageSpec}.
Record blocked_reply (b : BlockResponse) (query : Message) (question : Query) (rule : Name) (ttl : Z) (m : Message) : Prop := {
  br_header : id m = id query ∧ is_response m = true ∧ op_code m = op_code query ∧ recursion_desired m = recursion_desired query ∧
    checking_disabled m = checking_disabled query ∧ authentic_data m = false ∧ truncation m = false;
  br_question : queries m = take 1 (queries query) ∧ signature m = None;
  br_code : response_code m = block_code b;
  br_answers : answers m = match block_address b (q_class question) (q_type question) with
                           | Some data => [mkRr (q_name question) (q_class question) ttl data]
                           | None => []
                           end;
  br_soa : authorities m = match block_address b (q_class question) (q_type question) with
                           | Some _ => []
                           | None => if bool_decide (b = Refused_) then [] else [soa rule (q_class question) ttl]
                           end;
  br_additionals : additionals m = [];
  br_edns : match edns query with
            | None => edns m = None
            | Some client => ∃ e, edns m = Some e ∧ version e = 0 ∧ max_payload e = MAX_UDP_PAYLOAD ∧ dnssec_ok e = dnssec_ok client ∧
                opt_get EXTENDED_ERROR (options e) = Some (Unknown EXTENDED_ERROR (be_bytes 2 EDE_BLOCKED)) ∧
                ∀ c, c ≠ EXTENDED_ERROR → opt_get c (options e) = None
            end;
}.
Lemma opt_get_insert_new o : opt_get (option_code o) (opt_insert o []) = Some o.
Proof.
  destruct (opt_get _ _) as [o'|] eqn:E.
  - apply get_Some, insert_elem in E as [?%elem_of_nil|[= ->]]; done.
  - apply get_None in E. destruct E. apply list_elem_of_fmap. exists (option_code o, o). split; [done|apply insert_in].
Qed.
Lemma block_reply b query question rule ttl m :
  queries query !! 0%nat = Some question → answer b query rule ttl = Some m → blocked_reply b query question rule ttl m.
Proof.
  intros Hq. unfold answer. rewrite Hq. cbn [mbind option_bind]. rewrite error_response_fields. intros [= <-].
  assert (bool_decide (block_code b ≠ Refused) = negb (bool_decide (b = Refused_))) as Hc by (destruct b; done).
  assert (∀ client, edns query = Some client → ∃ e,
    Some (insert_options [Unknown EXTENDED_ERROR (be_bytes 2 EDE_BLOCKED)]
      (set_dnssec_ok (dnssec_ok client) (set_max_payload MAX_UDP_PAYLOAD edns_new))) = Some e ∧
    version e = 0 ∧ max_payload e = MAX_UDP_PAYLOAD ∧ dnssec_ok e = dnssec_ok client ∧
    opt_get EXTENDED_ERROR (options e) = Some (Unknown EXTENDED_ERROR (be_bytes 2 EDE_BLOCKED)) ∧
    ∀ c, c ≠ EXTENDED_ERROR → opt_get c (options e) = None) as Hedns.
  { intros client _. eexists. split; [reflexivity|]. simpl. rewrite new_options new_version.
    split_and!; [done..|apply (opt_get_insert_new (Unknown EXTENDED_ERROR _))|].
    intros c Hne. rewrite insert_other; [|done]. by apply get_None, not_elem_of_nil. }
  rewrite Hc. unfold reply_edns.
  destruct (block_address b (q_class question) (q_type question)) as [data|] eqn:Ea;
    destruct (edns query) as [client|] eqn:Ee; try (destruct (bool_decide (b = Refused_)) eqn:Eb); simpl;
    split; simpl; rewrite ?Ea ?Ee ?Eb; try done; by apply (Hedns client).
Qed.
Lemma answer_total b query question rule ttl :
  queries query !! 0%nat = Some question → is_Some (answer b query rule ttl).
Proof. intros Hq. unfold answer. rewrite Hq. by eexists. Qed.
End shape.
