(* ===== verification/Policy.v ===== *)
(** * The filtering policy

    [src/policy.rs]: local rules and their validation, their compilation into
    an index, the answer for a blocked name, and the check of a response's
    alias chain. The digests that name published generations, the rule file's
    TOML reader and the byte counts of reports are not modelled. *)
From S2P Require Import Prelude Std Net Names Canonical Prepare Radix ParseSource Dns Ecs Wire Protocol CacheData BlockAnswer.
Set Default Goal Selector "!".
Set Warnings "-rewrite-rw".
Local Open Scope Z_scope.
Local Open Scope rust_scope.

(** ** Text *)
(** [char::is_whitespace]: the Unicode property White_Space. *)
Definition is_whitespace (c : Z) : bool :=
  bool_decide (9 ≤ c ≤ 13) || bool_decide (8192 ≤ c ≤ 8202) ||
  bool_decide (c ∈ [32; 133; 160; 5760; 8232; 8233; 8239; 8287; 12288]).
Fixpoint trim_left (l : Str) : Str :=
  match l with
  | [] => []
  | c :: rest => if is_whitespace c then trim_left rest else l
  end.
Definition trim_text (l : Str) : Str := reverse (trim_left (reverse (trim_left l))).
Fixpoint words_from (word : Str) (l : Str) : list Str :=
  match l with
  | [] => if bool_decide (word = []) then [] else [word]
  | c :: l =>
      if is_whitespace c
      then if bool_decide (word = []) then words_from [] l else word :: words_from [] l
      else words_from (word ++ [c]) l
  end.
Definition split_whitespace (l : Str) : list Str := words_from [] l.

(** ** Local rules *)
Record Rules : Type := mkRules {
  r_enabled : bool;
  block_response : BlockMode;
  block_ipv4 : option Z;
  block_ipv6 : option Z;
  blocked_ttl_secs : Z;
  block_exact : list Str;
  block_suffix : list Str;
  allow_exact : list Str;
  allow_suffix : list Str;
}.
Definition DEFAULT_TTL_SECS : Z := 10.
Definition MAX_TTL_SECS : Z := 86400.
Definition rules_default : Rules := mkRules false MNodata None None DEFAULT_TTL_SECS [] [] [] [].
Definition rule_groups (r : Rules) : list (list Str * Group) :=
  [(block_exact r, BlockExact); (block_suffix r, BlockSuffix); (allow_exact r, AllowExact); (allow_suffix r, AllowSuffix)].
Definition rules_bytes (r : Rules) : Z :=
  foldr (λ g n, foldr (λ t n, Z.of_nat (length (utf8 t)) + n) n g.1) 0 (rule_groups r).
Definition MAX_LOCAL_RESPONSES : nat := 1024.
Record LocalRules : Type := mkLocalRules {
  l_rules : Rules;
  l_global : BlockResponse;
  variants : list BlockResponse;
}.

Inductive RuleError : Type := OuterWhitespace | EmptyRule | AllowMethod | BadMethod (e : ResponseError) | NotDomain.
Inductive PolicyError : Type :=
  | TooManyRules | TooMuchText | BadResponse (e : ResponseError) | BadTtl
  | InvalidRule (g : Group) (position : nat) (e : RuleError) | TooManyMethods.

Section rules.
Context `{IpParse}.
Definition split_rule (rule : Str) (g : Group) : outcome RuleError (Str * option BlockResponse) :=
  if bool_decide (trim_text rule ≠ rule) then Err OuterWhitespace else
  match split_whitespace rule with
  | [] => Err EmptyRule
  | [domain] => Ok (domain, None)
  | domain :: method =>
      match g with
      | BlockExact | BlockSuffix =>
          match parse_rule method with
          | Ok m => Ok (domain, Some m)
          | Err e => Err (BadMethod e)
          | Panic => Panic
          | Diverge => Diverge
          end
      | _ => Err AllowMethod
      end
  end.

(** The methods collected so far are the state. *)
Definition new_rule (g : Group) (position : nat) (rule : Str) : M (list BlockResponse) PolicyError unit :=
  let invalid e := InvalidRule g position e in
  let* (domain, method) :=
    (match split_rule rule g with
     | Ok r => ret r
     | Err e => fail (invalid e)
     | Panic => panic
     | Diverge => diverge
     end) in
  (match key_rule (utf8 domain) with
   | Ok _ => ret tt
   | Err _ => fail (invalid NotDomain)
   | Panic => panic
   | Diverge => diverge
   end) ;;;
  match method with
  | None => ret tt
  | Some m =>
      let* vs := get in
      if bool_decide (m ∈ vs) then ret tt else
      if bool_decide (length vs < MAX_LOCAL_RESPONSES)%nat then put (vs ++ [m]) else fail TooManyMethods
  end.
Fixpoint new_group (g : Group) (position : nat) (rules : list Str) : M (list BlockResponse) PolicyError unit :=
  match rules with
  | [] => ret tt
  | rule :: rules => new_rule g position rule ;;; new_group g (S position) rules
  end.
Fixpoint new_groups (gs : list (list Str * Group)) : M (list BlockResponse) PolicyError unit :=
  match gs with
  | [] => ret tt
  | (rules, g) :: gs => new_group g 0 rules ;;; new_groups gs
  end.
Definition local_rules_new (rules : Rules) : outcome PolicyError LocalRules :=
  if bool_decide (100000 < sum_list_with (λ g, length g.1) (rule_groups rules))%nat then Err TooManyRules else
  if bool_decide (8 * 1024 * 1024 < rules_bytes rules) then Err TooMuchText else
  match from_settings (block_response rules) (block_ipv4 rules) (block_ipv6 rules) with
  | Ok global_ =>
      if negb (bool_decide (1 ≤ blocked_ttl_secs rules ≤ MAX_TTL_SECS)) then Err BadTtl else
      match new_groups (rule_groups rules) [] with
      | (Ok _, vs) => Ok (mkLocalRules rules global_ vs)
      | (Err e, _) => Err e
      | (Panic, _) => Panic
      | (Diverge, _) => Diverge
      end
  | Err e => Err (BadResponse e)
  | Panic => Panic
  | Diverge => Diverge
  end.
Definition local_slot_count (l : LocalRules) : Z := 1 + as_u16 (Z.of_nat (length (variants l))).
Definition responses_of (l : LocalRules) : Responses :=
  mkResponses (l_global l) (blocked_ttl_secs (l_rules l)) (local_slot_count l) (None :: (Some <$> variants l)).

(** ** Compilation *)
Context {HO : Host}.
Definition slot_of (l : LocalRules) (method : option BlockResponse) : option Z :=
  match method with
  | None => Some 0
  | Some m => (λ p, 1 + as_u16 (Z.of_nat p.1)) <$> list_find (λ v, v = m) (variants l)
  end.
Definition add_line (l : LocalRules) (chk : B unit) (g : Group) (position : nat) (rule : Str) : B unit :=
  (if bool_decide (position mod 4096 = 0)%nat then chk else ret tt) ;;;
  let* (domain, method) := expect (match split_rule rule g with Ok r => Some r | _ => None end) in
  let* slot := expect (slot_of l method) in
  add (utf8 domain) g slot.
Fixpoint add_group (l : LocalRules) (chk : B unit) (g : Group) (position : nat) (rules : list Str) : B unit :=
  match rules with
  | [] => ret tt
  | rule :: rules => add_line l chk g position rule ;;; add_group l chk g (S position) rules
  end.
Fixpoint add_groups (l : LocalRules) (chk : B unit) (gs : list (list Str * Group)) : B unit :=
  match gs with
  | [] => ret tt
  | (rules, g) :: gs => add_group l chk g 0 rules ;;; add_groups l chk gs
  end.
Definition with_slots (n : Z) (b : Builder) : Builder :=
  mkBuilder (arena b) (records b) (budget b) n (classes b) (b_max_rules b) (decoded_bytes b) (failed b).
Definition add_to (l : LocalRules) (chk : B unit) : B unit :=
  modify_b (λ b, set_classes (response_classes (responses_of l)) (with_slots (local_slot_count l) b)) ;;;
  if r_enabled (l_rules l) then add_groups l chk (rule_groups (l_rules l)) else ret tt.
End rules.

(** ** The policy *)
Record Policy : Type := mkPolicyData {
  index : Index;
  source_ids : list Str;
  responses : Responses;
  p_local : option LocalRules;
}.

(** A failed check of the build is a cancellation. *)
Definition cancelled_host (H : Host) : Host := {|
  try_reserve_exact := @try_reserve_exact H;
  check_result n := match @check_result H n with None => None | Some _ => Some (error Cancelled) end;
|}.
(** Runs [m] on a state of its own; the calls of the host are counted on. *)
Definition scoped {S A} (s : S) (m : M (S * nat) Error A) : M (unit * nat) Error (A * S) := λ u,
  match m (s, u.2) with
  | (Ok a, (s', n)) => (Ok (a, s'), (tt, n))
  | (Err e, (_, n)) => (Err e, (tt, n))
  | (Panic, (_, n)) => (Panic, (tt, n))
  | (Diverge, (_, n)) => (Diverge, (tt, n))
  end.
Definition with_retained (n : Z) (l : Limits) : Limits := mkLimits (max_rules l) (max_memory_bytes l) n.

Section policy.
Context `{IpParse} {HO : Host} {SL : SliceLib} {SH : Sha256Lib}.
(** [owned] is [self.owned_bytes()], which depends on the capacities of the
    rule texts. *)
Definition compile (l : LocalRules) (owned : Z) (limits : Limits) : M (unit * nat) Error Policy :=
  check ;;;
  let* retained := ok_or (error MemoryLimit) (checked_add (retained_bytes limits) owned) in
  let* builder := lift (new_builder (with_retained retained limits)) in
  let* (_, builder) := scoped builder (add_to l check) in
  let* c := prepare_with_check (H:=cancelled_host HO) builder in
  let* (x, _) := scoped (mkBuild vec_new vec_new (c_budget c)) (build_with_check (H:=cancelled_host HO) c) in
  ret (mkPolicyData x (replicate (Z.to_nat (local_slot_count l)) []) (responses_of l) (Some l)).

(** ** Aggregates with subscriptions *)
Definition aggregate_ids (p : Policy) (sources : list Str) : list Str :=
  replicate (Z.to_nat (r_local_slots (responses p))) [] ++ sources.
Definition aggregate_responses (p : Policy) (sources : list (option BlockResponse)) : Responses :=
  let r := responses p in
  mkResponses (global r) (ttl r) (r_local_slots r) (take (Z.to_nat (r_local_slots r)) (slots r) ++ sources).
Definition aggregate (p : Policy) (x : Index) (ids : list Str) (sources : list (option BlockResponse)) : Policy :=
  mkPolicyData x ids (aggregate_responses p sources) None.
Definition aggregate_classes (p : Policy) (sources : list (option BlockResponse)) : list Z :=
  response_classes (aggregate_responses p sources).
(** The error of an aggregate used as local input is a programming error. *)
Definition append_to (p : Policy) : B unit :=
  let* l := ok_or (error InvalidSource) (p_local p) in
  (if r_enabled (l_rules l) then account_local_text (rules_bytes (l_rules l)) else ret tt) ;;;
  add_to l (ret tt).
End policy.

(** ** Decisions *)
Inductive Decision_ : Type := Allowed | Blocked | Unmatched.
Inductive WitnessScope : Type := Exact | Suffix_.
Record Witness : Type := mkWitness { w_source : option Str; w_rule : list Z; w_scope : WitnessScope }.
Record Explanation : Type := mkExplanation { e_decision : Decision_; e_witness : option Witness }.
Record BlockTrace : Type := mkTrace { t_rule : list Z; t_source : option Str; t_response : Str }.
Definition source_id (id : Str) : option Str := if bool_decide (id = []) then None else Some id.

Section decide.
Context {SL : SliceLib} `{MessageLib} `{!DnsNames} `{!NameParse}.
Definition explain (p : Policy) (name : Name) : L Explanation :=
  let* o := Radix.lookup (index p) name in
  match o with
  | None => ret (mkExplanation Unmatched None)
  | Some found =>
      let* found :=
        (if bool_decide (2 ≤ group_index (m_group found))%nat
         then let* m := block_match (index p) name (r_local_slots (responses p)) in expect m
         else ret found) in
      let* id := expect (source_ids p !! Z.to_nat (m_slot found)) in
      let* text := rule name found in
      ret (mkExplanation (if bool_decide (group_index (m_group found) < 2)%nat then Allowed else Blocked)
             (Some (mkWitness (source_id id) text
                      (if bool_decide (group_index (m_group found) mod 2 = 0)%nat then Suffix_ else Exact))))
  end.
Definition blocks (p : Policy) (name : Name) : L bool :=
  let* o := Radix.lookup (index p) name in
  ret (match o with Some m => bool_decide (2 ≤ group_index (m_group m))%nat | None => false end).
Definition block_answer (p : Policy) (query : Message) (name : Name) : L (option (Message * BlockTrace)) :=
  let r := responses p in
  let* o := block_match (index p) name (r_local_slots r) in
  match o with
  | None => ret None
  | Some found =>
      let response := get_response r (m_slot found) in
      let* text := rule name found in
      let* question := expect (queries query !! 0%nat) in
      let qname := q_name question in
      let* owner := (if name_eq name qname then expect (from_ascii (text ++ [DOT])) else ret qname) in
      let* id := expect (source_ids p !! Z.to_nat (m_slot found)) in
      let* m := expect (answer response query owner (ttl r)) in
      ret (Some (m, mkTrace text (source_id id) (kind_text response)))
  end.
Definition block_query (p : Policy) (query : Message) : L (option (Message * BlockTrace)) :=
  let* question := expect (queries query !! 0%nat) in
  block_answer p query (q_name question).

(** The targets of the aliases at [name]; maps and sets of names compare them
    as names do. *)
Definition alias (class : Z) (rr : Rr) : option (Name * Name) :=
  match rr_data rr with
  | RCname target => if bool_decide (rr_class rr = class) then Some (rr_name rr, target) else None
  | _ => None
  end.
Definition targets (links : list (Name * Name)) (name : Name) : list Name :=
  (filter (λ l, name_eq l.1 name = true) links).*2.
Definition chain_step (p : Policy) (query : Message) (links : list (Name * Name)) (st : list Name * list Name)
    : M Message Error ((list Name * list Name) + option BlockTrace) :=
  let '(pending, visited) := st in
  match pending with
  | [] => ret (inr None)
  | name :: pending =>
      if existsb (λ v, name_eq v name) visited then ret (inl (pending, visited)) else
      let visited := name :: visited in
      let* o := lift (block_answer p query name tt).1 in
      match o with
      | Some (m, trace) => put m ;;; ret (inr (Some trace))
      | None => ret (inl (reverse (targets links name) ++ pending, visited))
      end
  end.
(** [pending] is a stack, its top first. *)
Definition apply_response (p : Policy) (query : Message) : M Message Error (option BlockTrace) :=
  if bool_decide (index_rules (index p) = 0)%nat then ret None else
  let* question := expect (queries query !! 0%nat) in
  let* response := get in
  let links := omap (alias (q_class question)) (answers response) in
  loop (S (S (length links))) (chain_step p query links) ([q_name question], []).
End decide.
