(* ===== verification/PolicySafe.v ===== *)
(** * What the policy promises

    From the text of local rules to answers: validation, compilation into an
    index, and the decisions and answers of the policy. *)
From S2P Require Import Prelude Std Net Names Canonical Prepare Radix RadixBuild RadixLookup ParseSource Dns Ecs Wire Protocol CacheData BlockAnswer Policy.
Set Default Goal Selector "!".
Set Warnings "-rewrite-rw".
Local Open Scope Z_scope.
Local Open Scope rust_scope.

(** ** What the lines of local rules say *)
Record Line : Type := mkLine { ln_group : Group; ln_labels : list (list Z); ln_method : option BlockResponse }.

Section lines.
Context `{IpParse}.
Definition line_of (g : Group) (text : Str) : option Line :=
  match split_rule text g with
  | Ok (domain, method) => (λ ls, mkLine g ls method) <$> domain_labels (utf8 domain)
  | _ => None
  end.
Definition group_lines (g : list Str * Group) : list Line := omap (line_of g.2) g.1.
Definition lines_of (r : Rules) : list Line := if r_enabled r then rule_groups r ≫= group_lines else [].
(** The index rule of a line. *)
Definition line_rule (l : LocalRules) (ln : Line) : Rule :=
  {| r_group := ln_group ln; r_key := encode (ln_labels ln); r_slot := default 0 (slot_of l (ln_method ln)) |}.
Definition line_ok (vs : list BlockResponse) (g : Group) (text : Str) : Prop :=
  ∃ domain method ls, split_rule text g = Ok (domain, method) ∧ domain_labels (utf8 domain) = Some ls ∧
    match method with Some m => m ∈ vs ∧ method_ok m | None => True end.
Record local_ok (l : LocalRules) : Prop := {
  lo_global : method_ok (l_global l);
  lo_distinct : NoDup (variants l);
  lo_count : (length (variants l) ≤ MAX_LOCAL_RESPONSES)%nat;
  lo_methods : Forall method_ok (variants l);
  lo_ttl : 1 ≤ blocked_ttl_secs (l_rules l) ≤ MAX_TTL_SECS;
  lo_lines : Forall (λ g, Forall (line_ok (variants l) g.2) g.1) (rule_groups (l_rules l));
}.

Lemma parse_addresses_returns tokens : ∀ ipv4 ipv6,
  match parse_addresses tokens ipv4 ipv6 with Ok _ | Err _ => True | _ => False end.
Proof.
  induction tokens as [|t tokens IH]; intros ipv4 ipv6; simpl; [done|].
  destruct (parse_ip _) as [[v|v]|]; [| |done]; (destruct (negb _); [done|]); (case_bool_decide; [done|]); apply IH.
Qed.
Lemma parse_rule_returns tokens : match parse_rule tokens with Ok _ | Err _ => True | _ => False end.
Proof.
  destruct tokens as [|t [|t2 [|t3 ts]]]; try done; [|apply parse_addresses_returns]. unfold parse_rule.
  repeat (case_bool_decide; [done|]). apply parse_addresses_returns.
Qed.
Lemma split_rule_returns text g :
  match split_rule text g with Ok (_, m) => match m with Some m => method_ok m | None => True end | Err _ => True | _ => False end.
Proof.
  unfold split_rule. case_bool_decide; [done|]. destruct (split_whitespace text) as [|d [|w ws]]; cbn -[parse_rule]; [exact I|exact I|].
  pose proof (parse_rule_returns (w :: ws)) as Hr. destruct (parse_rule (w :: ws)) eqn:E; try done; destruct g; try done;
    by eapply parse_rule_method.
Qed.

(** ** Validation *)
Definition methods_ok (vs : list BlockResponse) : Prop :=
  NoDup vs ∧ (length vs ≤ MAX_LOCAL_RESPONSES)%nat ∧ Forall method_ok vs.
Lemma line_ok_mono vs vs' g text : vs `prefix_of` vs' → line_ok vs g text → line_ok vs' g text.
Proof.
  intros [k ->] (d & m & ls & Hs & Hl & Hm). exists d, m, ls. split_and!; [done..|]. destruct m; [|done].
  destruct Hm. split; [|done]. apply elem_of_app. by left.
Qed.
Lemma new_rule_wp g position text vs :
  methods_ok vs →
  wp (new_rule g position text) (λ _ vs', methods_ok vs' ∧ vs `prefix_of` vs' ∧ line_ok vs' g text) (λ _ _, True) vs.
Proof.
  intros Hvs. unfold new_rule. apply wp_bind. pose proof (split_rule_returns text g) as Hr.
  destruct (split_rule text g) as [[domain method]|e| |] eqn:Es; [|by apply wp_fail|done..]. apply wp_ret, wp_bind.
  rewrite key_rule_ok. destruct (domain_labels (utf8 domain)) as [ls|] eqn:El; [|by apply wp_fail]. apply wp_ret.
  destruct method as [m|]; [|apply wp_ret; split_and!; [done..|by exists domain, None, ls]].
  apply wp_bind, wp_get. destruct Hvs as (Hnd & Hlen & Hok). case_bool_decide as Hin.
  - apply wp_ret. split_and!; [done..|]. by exists domain, (Some m), ls.
  - case_bool_decide as Hroom; [|by apply wp_fail]. apply wp_put. split_and!.
    + split_and!; [|rewrite length_app /=; lia|apply Forall_app; split; [done|by apply Forall_singleton]].
      apply NoDup_app. split_and!; [done| |apply NoDup_singleton]. by intros x Hx ->%list_elem_of_singleton.
    + by apply prefix_app_r.
    + exists domain, (Some m), ls. split_and!; [done|done| |done]. apply elem_of_app. right. by apply list_elem_of_singleton.
Qed.
Lemma new_group_wp g rs : ∀ position vs,
  methods_ok vs →
  wp (new_group g position rs) (λ _ vs', methods_ok vs' ∧ vs `prefix_of` vs' ∧ Forall (line_ok vs' g) rs) (λ _ _, True) vs.
Proof.
  induction rs as [|r rs IH]; intros position vs Hvs; simpl; [by apply wp_ret|].
  apply wp_bind. eapply wp_mono; [| |by apply new_rule_wp]; [|done]. intros [] vs1 (Hvs1 & Hp1 & Hl1).
  eapply wp_mono; [| |by apply IH]; [|done]. intros [] vs2 (Hvs2 & Hp2 & Hl2). split_and!; [done|by etrans|].
  constructor; [by eapply line_ok_mono|done].
Qed.
Lemma new_groups_wp gs : ∀ vs,
  methods_ok vs →
  wp (new_groups gs) (λ _ vs', methods_ok vs' ∧ vs `prefix_of` vs' ∧ Forall (λ g, Forall (line_ok vs' g.2) g.1) gs) (λ _ _, True) vs.
Proof.
  induction gs as [|[rs g] gs IH]; intros vs Hvs; simpl; [by apply wp_ret|].
  apply wp_bind. eapply wp_mono; [| |by apply new_group_wp]; [|done]. intros [] vs1 (Hvs1 & Hp1 & Hl1).
  eapply wp_mono; [| |by apply IH]; [|done]. intros [] vs2 (Hvs2 & Hp2 & Hl2). split_and!; [done|by etrans|].
  constructor; [|done]. eapply Forall_impl; [exact Hl1|]. intros r. by apply line_ok_mono.
Qed.
Lemma local_rules_new_ok rs :
  match local_rules_new rs with
  | Ok l => local_ok l ∧ l_rules l = rs
  | Err _ => True
  | _ => False
  end.
Proof.
  unfold local_rules_new. case_bool_decide; [done|]. case_bool_decide; [done|].
  assert (match from_settings (block_response rs) (block_ipv4 rs) (block_ipv6 rs) with Ok _ | Err _ => True | _ => False end) as Hr.
  { unfold from_settings. destruct (_ && _); [done|]. destruct (block_response rs); try done. destruct (_ && _); [done|]. by destruct (forallb _ _). }
  destruct (from_settings _ _ _) as [gl| | |] eqn:Eg; try done. destruct (negb _) eqn:Et; [done|].
  apply negb_false_iff, bool_decide_eq_true in Et.
  assert (methods_ok []) as Hnil by (split_and!; [apply NoDup_nil_2|simpl; lia|constructor]).
  pose proof (new_groups_wp (rule_groups rs) [] Hnil) as Hw. unfold wp in Hw.
  destruct (new_groups (rule_groups rs) []) as [[[]| | |] vs]; try done. destruct Hw as ((Hnd & Hlen & Hok) & _ & Hl).
  split; [|done]. split; simpl; try done. by eapply from_settings_ok.
Qed.
End lines.

(** ** Compilation *)
Section compile_proof.
Context `{IpParse} {HO : Host} `{!HostSpec HO} {SL : SliceLib} `{!SliceSpec SL} {SH : Sha256Lib}.
Implicit Types l : LocalRules.

Lemma local_slot_count_ok l : local_ok l → local_slot_count l = 1 + Z.of_nat (length (variants l)) ∧ 1 ≤ local_slot_count l ≤ 1025.
Proof.
  intros Hl. pose proof (lo_count _ Hl). unfold MAX_LOCAL_RESPONSES, local_slot_count in *. rewrite as_u16_small; lia.
Qed.
Lemma slot_of_ok l method :
  local_ok l → match method with Some m => m ∈ variants l | None => True end →
  ∃ s, slot_of l method = Some s ∧ 0 ≤ s < local_slot_count l ∧
    get_response (responses_of l) s = default (l_global l) method.
Proof.
  intros Hl Hm. destruct (local_slot_count_ok l Hl) as [Hc Hb]. destruct method as [m|].
  - unfold slot_of. destruct (list_find (λ v, v = m) (variants l)) as [[i v]|] eqn:E.
    + apply list_find_Some in E as (Hi & -> & _). pose proof (lookup_lt_Some _ _ _ Hi). pose proof (lo_count _ Hl).
      unfold MAX_LOCAL_RESPONSES in *. simpl. rewrite as_u16_small; [|lia]. eexists. split; [reflexivity|]. split; [lia|].
      unfold get_response. simpl. replace (Z.to_nat (1 + Z.of_nat i)) with (S i) by lia. simpl. by rewrite list_lookup_fmap Hi.
    + apply list_find_None in E. by destruct (proj1 (Forall_forall _ _) E m Hm).
  - exists 0. split; [done|]. split; [lia|]. done.
Qed.
(** Distinct slots of local rules answer differently, except for the global
    method: classes separate exactly the answers. *)
Lemma local_classes l i j :
  local_ok l → 0 ≤ i < local_slot_count l → 0 ≤ j < local_slot_count l →
  class_of (response_classes (responses_of l)) i = class_of (response_classes (responses_of l)) j →
  get_response (responses_of l) i = get_response (responses_of l) j.
Proof.
  intros Hl Hi Hj Hc. destruct (local_slot_count_ok l Hl) as [Hn Hb].
  assert (Z.of_nat (length (slots (responses_of l))) = local_slot_count l) as Hlen by (simpl; rewrite length_fmap Hn; lia).
  destruct (response_classes_spec (responses_of l)) as [Hlc Hcl]; [rewrite Hlen; unfold u16_max; lia|].
  apply Hcl; [lia..|]. unfold class_of in Hc.
  destruct (lookup_lt_is_Some_2 (response_classes (responses_of l)) (Z.to_nat i)) as [ci Hci]; [lia|].
  destruct (lookup_lt_is_Some_2 (response_classes (responses_of l)) (Z.to_nat j)) as [cj Hcj]; [lia|].
  rewrite Hci Hcj in Hc |- *. simpl in Hc. by subst.
Qed.

Definition quiet (chk : B unit) : Prop := ∀ s, wp chk (λ _ s', s'.1 = s.1) (λ _ _, True) s.
Lemma quiet_check : quiet check.
Proof. intros [b n]. by apply wp_check. Qed.
Lemma quiet_ret : quiet (ret tt).
Proof. intros s. by apply wp_ret. Qed.
Definition grown_by (retained : Z) (b : Builder) (rs : list Rule) (b' : Builder) : Prop :=
  builder_ok retained b' ∧ failed b' = None ∧ rules b' = rules b ++ rs ∧ frame b b'.
Lemma grown_by_refl retained b : builder_ok retained b → failed b = None → grown_by retained b [] b.
Proof. intros Hb Hf. split_and!; [done..|by rewrite app_nil_r|done]. Qed.
Lemma grown_by_trans retained b1 b2 b3 k1 k2 :
  grown_by retained b1 k1 b2 → grown_by retained b2 k2 b3 → grown_by retained b1 (k1 ++ k2) b3.
Proof.
  intros (_ & _ & Hr1 & Hf1) (Hb & Hf & Hr2 & Hf2). split_and!; [done..|by rewrite Hr2 Hr1 app_assoc|].
  destruct Hf1, Hf2. split; congruence.
Qed.

Lemma add_line_wp l chk retained b n g position text :
  local_ok l → quiet chk → builder_ok retained b → failed b = None → line_ok (variants l) g text →
  wp (add_line l chk g position text)
    (λ _ s, grown_by retained b (line_rule l <$> option_list (line_of g text)) s.1 ∧ is_Some (line_of g text)) (λ _ _, True) (b, n).
Proof.
  intros Hl Hchk Hb Hf (domain & method & ls & Hs & Hd & Hm). unfold add_line. apply wp_bind.
  assert (wp (if bool_decide (position mod 4096 = 0)%nat then chk else ret tt) (λ _ s', s'.1 = b) (λ _ _, True) (b, n)) as Hc.
  { case_bool_decide; [by apply Hchk|by apply wp_ret]. }
  eapply wp_mono; [| |exact Hc]; [|done]. intros [] [b1 n1] Hb1. simpl in Hb1. subst b1. rewrite Hs. eapply wp_bind, wp_expect; [done|].
  destruct (slot_of_ok l method Hl) as (s & Hslot & Hr & _); [by destruct method; [destruct Hm|]|].
  eapply wp_bind, wp_expect; [exact Hslot|]. destruct (local_slot_count_ok l Hl) as [_ Hcount].
  eapply wp_mono; [| |apply (add_wp retained); [done|unfold u16_max; lia]]; [|done].
  intros [] s1 (ls' & Hls' & _ & _ & Hb1 & Hf1 & Hr1 & _ & Hfr). rewrite Hd in Hls'. injection Hls' as <-.
  unfold line_of. rewrite Hs Hd. simpl. split; [|done]. split_and!; [done..| |done]. rewrite Hr1. unfold line_rule. simpl. by rewrite Hslot.
Qed.
Lemma add_group_wp l chk retained g rs : ∀ b n position,
  local_ok l → quiet chk → builder_ok retained b → failed b = None → Forall (line_ok (variants l) g) rs →
  wp (add_group l chk g position rs)
    (λ _ s, grown_by retained b (line_rule l <$> group_lines (rs, g)) s.1) (λ _ _, True) (b, n).
Proof.
  induction rs as [|r rs IH]; intros b n position Hl Hchk Hb Hf Hrs; simpl; [apply wp_ret; by apply grown_by_refl|].
  apply Forall_cons in Hrs as [Hr Hrs]. apply wp_bind.
  eapply wp_mono; [| |by apply (add_line_wp l chk retained)]; [|done]. intros [] [b1 n1] [Hg1 [ln Hln]].
  pose proof Hg1 as (Hb1 & Hf1 & _). eapply wp_mono; [| |by apply (IH b1)]; [|done]. intros [] s2 Hg2.
  pose proof (grown_by_trans _ _ _ _ _ _ Hg1 Hg2) as Ht. unfold group_lines in *. simpl in *. rewrite Hln in Ht |- *. done.
Qed.
Lemma add_groups_wp l chk retained gs : ∀ b n,
  local_ok l → quiet chk → builder_ok retained b → failed b = None → Forall (λ g, Forall (line_ok (variants l) g.2) g.1) gs →
  wp (add_groups l chk gs)
    (λ _ s, grown_by retained b (line_rule l <$> (gs ≫= group_lines)) s.1) (λ _ _, True) (b, n).
Proof.
  induction gs as [|[rs g] gs IH]; intros b n Hl Hchk Hb Hf Hgs; simpl; [apply wp_ret; by apply grown_by_refl|].
  apply Forall_cons in Hgs as [Hg Hgs]. apply wp_bind.
  eapply wp_mono; [| |by apply (add_group_wp l chk retained)]; [|done]. intros [] [b1 n1] Hg1.
  pose proof Hg1 as (Hb1 & Hf1 & _). eapply wp_mono; [| |by apply (IH b1)]; [|done]. intros [] s2 Hg2.
  rewrite fmap_app. by eapply grown_by_trans.
Qed.
(** The builder of local rules. *)
Definition added_local (retained : Z) (b : Builder) l (b' : Builder) : Prop :=
  builder_ok retained b' ∧ failed b' = None ∧ rules b' = rules b ++ (line_rule l <$> lines_of (l_rules l)) ∧
  local_slots b' = local_slot_count l ∧ classes b' = response_classes (responses_of l).
Lemma add_to_wp l chk retained b n :
  local_ok l → quiet chk → builder_ok retained b → failed b = None →
  wp (add_to l chk) (λ _ s, added_local retained b l s.1) (λ _ _, True) (b, n).
Proof.
  intros Hl Hchk Hb Hf. unfold add_to. apply wp_bind, wp_modify_b.
  set (b1 := set_classes _ _). assert (builder_ok retained b1) as Hb1 by (by destruct Hb).
  unfold added_local, lines_of. destruct (r_enabled (l_rules l)).
  - eapply wp_mono; [| |apply (add_groups_wp l chk retained); try done; apply Hl]; [|done].
    intros [] s (Hb2 & Hf2 & Hr2 & Hfr). split_and!; [done|done|done|by rewrite (frame_slots _ _ Hfr)|by rewrite (frame_classes _ _ Hfr)].
  - apply wp_ret. split_and!; [done..|by rewrite app_nil_r|done|done].
Qed.

Lemma cancelled_host_spec : HostSpec (cancelled_host HO).
Proof. split. exact (@reserve_enough HO HostSpec0). Qed.
Lemma wp_scoped {S A} (s : S) (m : M (S * nat) Error A) (Q : A * S → unit * nat → Prop) R u :
  wp m (λ a s', Q (a, s'.1) (tt, s'.2)) (λ e s', R e (tt, s'.2)) (s, u.2) → wp (scoped s m) Q R u.
Proof. unfold wp, scoped. by destruct (m (s, u.2)) as [[a|e| |] [s' n]]. Qed.
Definition line_rules l : list Rule := line_rule l <$> lines_of (l_rules l).
Lemma line_method l ln : local_ok l → ln ∈ lines_of (l_rules l) → match ln_method ln with Some m => m ∈ variants l | None => True end.
Proof.
  intros Hl. unfold lines_of. destruct (r_enabled _); [|by intros ?%elem_of_nil].
  intros (g & Hln & Hg)%list_elem_of_bind. apply list_elem_of_omap in Hln as (text & Ht & Hln).
  destruct (proj1 (Forall_forall _ _) (proj1 (Forall_forall _ _) (lo_lines _ Hl) _ Hg) _ Ht) as (d & m & ls & Hs & Hd & Hm).
  unfold line_of in Hln. rewrite Hs Hd in Hln. injection Hln as <-. simpl. by destruct m; [destruct Hm|].
Qed.
Lemma line_rule_slot l r : local_ok l → r ∈ line_rules l → 0 ≤ r_slot r < local_slot_count l.
Proof.
  intros Hl (ln & -> & Hln)%list_elem_of_fmap. destruct (slot_of_ok l (ln_method ln) Hl (line_method _ _ Hl Hln)) as (s & Hs & Hb & _).
  simpl. by rewrite Hs.
Qed.
(** An index that answers as some rules, each a well-formed key of a known
    source. *)
Record policy_ok `{!NameLib} (rs : list Rule) (p : Policy) : Prop := {
  po_answers : RadixLookup.answers rs (index p);
  po_rules : Forall (λ r, wf_key (r_key r) ∧ 0 ≤ r_slot r < Z.of_nat (length (source_ids p))) rs;
  po_count : index_rules (index p) = length rs;
}.
(** The compiled rules decide as the lines do. *)
Definition compiled `{!NameLib} l (p : Policy) : Prop :=
  responses p = responses_of l ∧ r_local_slots (responses p) = local_slot_count l ∧
  (∀ i id, source_ids p !! i = Some id → id = []) ∧ ∃ rs, policy_ok rs p ∧
    (∀ q, allowed rs q ↔ allowed (line_rules l) q) ∧
    (∀ q, (∃ r, blocking rs q r) ↔ ∃ r, blocking (line_rules l) q r) ∧
    (∀ q r r', chosen (local_slot_count l) (line_rules l) q r → chosen (local_slot_count l) rs q r' →
       get_response (responses_of l) (r_slot r') = get_response (responses_of l) (r_slot r)).

Lemma compile_wp `{!NameLib, !NameSpec _} l owned limits n :
  local_ok l → 0 ≤ owned → 0 ≤ retained_bytes limits → 0 < max_rules limits →
  wp (compile l owned limits) (λ p _, compiled l p) (λ _ _, True) (tt, n).
Proof.
  intros Hl Ho Hret Hmax. pose proof cancelled_host_spec as Hch. unfold compile. apply wp_bind, wp_check; [|done].
  apply wp_bind, wp_ok_or; [|done]. intros retained Hr. unfold checked_add in Hr. case_decide; [|done]. injection Hr as <-.
  apply wp_bind, wp_lift. set (retained := retained_bytes limits + owned).
  destruct (new_builder (with_retained retained limits)) as [b|e| |] eqn:Eb; [|done| |].
  2,3: exfalso; unfold new_builder in Eb; destruct (_ || _) in Eb; [done|]; destruct (reserve _ _) as [[] [? ?]] eqn:Er in Eb; try done;
    unfold reserve, bind, get, ok_or, put, fail, ret in Er; simpl in Er; destruct (checked_add _ _); [|done]; by case_bool_decide.
  destruct (new_builder_ok (with_retained retained limits) b) as (Hb & Hf & Hrules & _); [simpl; lia|done|done|].
  apply wp_bind, wp_scoped. eapply wp_mono; [| |by apply (add_to_wp l check retained); [done|apply quiet_check|..]]; [|done].
  intros [] [b1 n1] (Hb1 & Hf1 & Hr1 & Hs1 & Hc1). simpl in *. rewrite Hrules app_nil_l in Hr1. fold (line_rules l) in Hr1.
  destruct (local_slot_count_ok l Hl) as [Hcount Hcb].
  assert (Z.of_nat (length (slots (responses_of l))) = local_slot_count l) as Hlen by (simpl; rewrite length_fmap Hcount; lia).
  destruct (response_classes_spec (responses_of l)) as [Hlc _]; [rewrite Hlen; unfold u16_max; lia|].
  assert (classified (classes b1) (rules b1)) as Hcl.
  { right. intros r Hr. rewrite Hr1 in Hr. pose proof (line_rule_slot l r Hl Hr). rewrite Hc1 Hlc Hlen. lia. }
  apply wp_bind. eapply wp_mono; [| |apply (prepare_wp (H:=cancelled_host HO) retained b1); done]; [|done].
  intros c [[] n2] (Hc & _ & _ & Hprep & I & HI & Hred).
  apply wp_bind, wp_scoped. simpl.
  assert (wp (build_with_check (H:=cancelled_host HO) c) (λ x _, index_rules x = length (Prepare.c_rules c) ∧ RadixLookup.answers (Prepare.c_rules c) x) (λ _ _, True)
    (mkBuild vec_new vec_new (c_budget c), n2)) as Hbuild.
  { pose proof (build_answers (H:=cancelled_host HO) retained c (mkBuild vec_new vec_new (c_budget c)) n2 Hc) as Ha.
    pose proof (build_wp (H:=cancelled_host HO) retained c (mkBuild vec_new vec_new (c_budget c)) n2 Hc) as Hw. unfold wp in *.
    destruct (build_with_check _ _) as [[x| | |] [? ?]]; try done. destruct Hw as (_ & Hn & _). split; [|done]. by rewrite Hn /Prepare.c_rules length_fmap. }
  eapply wp_mono; [| |exact Hbuild]; [|done]. intros x [b2 n3] [Hx Ha]. apply wp_ret.
  assert (∀ r, r ∈ Prepare.c_rules c → r ∈ line_rules l) as Hsub by (intros r Hr; rewrite -Hr1 -HI; by apply (red_sub _ _ _ _ Hred)).
  split; [done|]. split; [done|]. split; [intros i id; simpl; by intros [-> _]%lookup_replicate|]. exists (Prepare.c_rules c). split_and!.
  - split; simpl; [done| |done]. apply Forall_forall. intros r Hr. split; [|rewrite length_replicate; pose proof (line_rule_slot l r Hl (Hsub r Hr)); lia].
    apply list_elem_of_fmap in Hr as (rec & -> & Hrec). pose proof (proj1 (Forall_forall _ _) (co_rules _ _ Hc) _ Hrec) as (_ & Hwf & _). done.
  - intros q. rewrite -Hr1 -(reduced_allowed Hred q). by apply allowed_perm.
  - intros q. rewrite -(reduced_blocked Hred) -Hr1. by setoid_rewrite (blocking_perm _ _ _ _ HI).
  - intros q r r' Hch1 Hch2. symmetry. rewrite -Hs1 in Hch1, Hch2.
    apply (local_classes l); [done|apply (line_rule_slot l); [done|apply Hch1]|apply (line_rule_slot l); [done|apply Hsub, Hch2]|].
    rewrite -Hc1. apply (chosen_class Hred q); [by apply (classified_perm _ _ _ HI)|apply (chosen_perm _ _ _ _ _ HI); by rewrite Hr1|done].
Qed.
End compile_proof.

(** ** Decisions *)
(** Equal names have the same labels, ASCII case aside. *)
Class NameFold `{DnsNames} : Prop := {
  name_eq_labels a b : name_eq a b = true → lower <$> name_iter a = lower <$> name_iter b;
}.
(** A domain text that is a rule parses, with the root's dot behind it, as the
    name of its labels. *)
Class NameText `{NameParse} : Prop := {
  from_ascii_rule t k : key_rule t = Ok k → last t ≠ Some DOT → ∃ n, from_ascii (t ++ [DOT]) = Some n ∧ query_key n = k;
}.
Section decide_proof.
Context {SL : SliceLib} `{!SliceSpec SL} `{MessageLib} `{!MessageSpec} `{!NameSpec _} `{!DnsNames} `{!DnsNamesSpec} `{!NameFold}.
Context `{!NameParse} `{!NameText}.
Implicit Types (p : Policy) (name : Name).

Lemma name_eq_key_query a b : name_eq a b = true → query_key a = query_key b.
Proof. intros Hab%name_eq_labels. unfold query_key. by rewrite !fmap_reverse Hab. Qed.
Lemma rule_prefix r q : matches r q → r_key r `prefix_of` q.
Proof. unfold matches. destruct (suffix_group _); [done|]. by intros ->. Qed.

Lemma rule_at rs p r : policy_ok rs p → r ∈ rs → wf_key (r_key r) ∧ is_Some (source_ids p !! Z.to_nat (r_slot r)).
Proof.
  intros Hp Hr. destruct (proj1 (Forall_forall _ _) (po_rules _ _ Hp) _ Hr) as [Hwf Hb]. split; [done|].
  apply lookup_lt_is_Some_2. lia.
Qed.

(** The answer of the rule that chooses it. *)
Definition answered_by rs p query name question (o : option (Message * BlockTrace)) : Prop :=
  match o with
  | None => ∀ r, ¬ chosen (r_local_slots (responses p)) rs (query_key name) r
  | Some (m, t) => ∃ r owner, chosen (r_local_slots (responses p)) rs (query_key name) r ∧
      let b := get_response (responses p) (r_slot r) in
      blocked_reply b query question owner (ttl (responses p)) m ∧
      query_key owner `prefix_of` query_key (q_name question) ∧
      key_rule (t_rule t) = Ok (r_key r) ∧ t_response t = kind_text b ∧
      t_source t = (source_ids p !! Z.to_nat (r_slot r)) ≫= source_id
  end.
Lemma block_answer_wp rs p query name question :
  policy_ok rs p → queries query !! 0%nat = Some question →
  wp (block_answer p query name) (λ o _, answered_by rs p query name question o) (λ _ _, False) tt.
Proof.
  intros Hp Hq. unfold block_answer. apply wp_bind.
  destruct (po_answers _ _ Hp name (r_local_slots (responses p))) as [_ Hblock].
  eapply wp_mono; [| |exact Hblock]; [|done]. intros [m|] [] Ho; simpl in Ho; [|by apply wp_ret].
  destruct Ho as (r & Hch & ->). pose proof Hch as (_ & (Hr & _ & Hm) & _).
  destruct (rule_at rs p r Hp Hr) as [Hwf [id Hid]]. apply wp_bind.
  eapply wp_mono; [| |by apply rule_wp]; [|done]. intros t [] [Ht Hdot].
  eapply wp_bind, wp_expect; [exact Hq|]. apply wp_bind.
  assert (wp (if name_eq name (q_name question) then expect (from_ascii (t ++ [DOT])) else ret (q_name question) : L Name)
    (λ owner _, query_key owner `prefix_of` query_key (q_name question)) (λ _ _, False) tt) as Howner.
  { destruct (name_eq name (q_name question)) eqn:En; [|by apply wp_ret].
    destruct (from_ascii_rule t (r_key r) Ht Hdot) as (n & Hn & Hkn). eapply wp_expect; [exact Hn|].
    rewrite Hkn -(name_eq_key_query _ _ En). by apply rule_prefix. }
  eapply wp_mono; [| |exact Howner]; [|done]. intros owner [] Hpre.
  eapply wp_bind, wp_expect; [exact Hid|]. cbn [match_of m_slot].
  destruct (answer_total (get_response (responses p) (r_slot r)) query question owner (ttl (responses p)) Hq) as [m Hans].
  eapply wp_bind, wp_expect; [exact Hans|]. apply wp_ret. exists r, owner. cbv zeta.
  split_and!; [done|by eapply block_reply|done|done|done|by rewrite Hid].
Qed.

(** ** Alias chains *)
Section chain.
Context (rs : list Rule) (p : Policy) (query response : Message) (question : Query).
Hypothesis Hp : policy_ok rs p.
Hypothesis Hq : queries query !! 0%nat = Some question.
Notation links := (omap (alias (q_class question)) (answers response)).

(** [b] is the target of an alias at [a]. *)
Definition linked (a b : Name) : Prop := ∃ l, l ∈ links ∧ name_eq l.1 a = true ∧ l.2 = b.
Definition on_chain : Name → Prop := rtc linked (q_name question).
Definition blocked_name (n : Name) : Prop := ∃ r, chosen (r_local_slots (responses p)) rs (query_key n) r.

Lemma name_eq_refl a : name_eq a a = true.
Proof. rewrite name_eq_lower. by apply bool_decide_true. Qed.
Lemma name_eq_trans a b c : name_eq a b = true → name_eq b c = true → name_eq a c = true.
Proof. rewrite !name_eq_lower !bool_decide_eq_true. congruence. Qed.
Lemma name_eq_sym a b : name_eq a b = true → name_eq b a = true.
Proof. rewrite !name_eq_lower !bool_decide_eq_true. congruence. Qed.
Lemma elem_of_targets n b : b ∈ targets links n ↔ linked n b.
Proof.
  unfold targets, linked. rewrite list_elem_of_fmap. split.
  - intros (l & -> & [Hl Hin]%list_elem_of_filter). by exists l.
  - intros (l & Hin & Hl & <-). exists l. split; [done|]. by apply list_elem_of_filter.
Qed.
Definition seen (visited : list Name) (n : Name) : bool := existsb (λ v, name_eq v n) visited.
Lemma seen_spec visited n : seen visited n = true ↔ ∃ v, v ∈ visited ∧ name_eq v n = true.
Proof. unfold seen. rewrite existsb_exists. by setoid_rewrite list_elem_of_In. Qed.
Definition unseen (visited : list Name) (l : list (Name * Name)) : list (Name * Name) := filter (λ l, seen visited l.1 = false) l.
Lemma unseen_visit visited n (l : list (Name * Name)) :
  seen visited n = false →
  (length (unseen (n :: visited) l) + length (targets l n) ≤ length (unseen visited l))%nat.
Proof.
  intros Hn. unfold unseen, targets. rewrite length_fmap. induction l as [|[a b] l IH]; [simpl; lia|].
  rewrite !filter_cons. simpl in IH |- *. destruct (name_eq n a) eqn:Ea; simpl.
  - assert (seen visited a = false) as Ha.
    { apply not_true_iff_false. intros (v & Hv & Hva)%seen_spec. apply not_true_iff_false in Hn. apply Hn, seen_spec.
      exists v. split; [done|]. eapply name_eq_trans; [exact Hva|]. by apply name_eq_sym. }
    pose proof (name_eq_sym _ _ Ea). repeat case_decide; simpl; try congruence; lia.
  - destruct (name_eq a n) eqn:Ea'; [by rewrite (name_eq_sym _ _ Ea') in Ea|].
    repeat case_decide; simpl; try congruence; lia.
Qed.

Record chain_inv (pending visited : list Name) : Prop := {
  ci_visited v : v ∈ visited → ¬ blocked_name v ∧ on_chain v;
  ci_pending n : n ∈ pending → on_chain n;
  ci_start : q_name question ∈ pending ∨ seen visited (q_name question) = true;
  ci_closed v b : v ∈ visited → linked v b → b ∈ pending ∨ seen visited b = true;
}.
Lemma chain_covered visited n :
  chain_inv [] visited → on_chain n → ∃ v, v ∈ visited ∧ name_eq v n = true.
Proof.
  intros Hi. revert n. unfold on_chain. apply (rtc_ind_r (λ n, ∃ v, v ∈ visited ∧ name_eq v n = true)).
  - destruct (ci_start _ _ Hi) as [?%elem_of_nil|Hs]; [done|by apply seen_spec].
  - intros a c _ (l & Hl & Hla & <-) (v & Hv & Hva).
    destruct (ci_closed _ _ Hi v l.2 Hv) as [?%elem_of_nil|Hs]; [|done|by apply seen_spec].
    exists l. split_and!; [done| |done]. eapply name_eq_trans; [exact Hla|]. by apply name_eq_sym.
Qed.
Lemma blocked_eq a b : name_eq a b = true → blocked_name b → blocked_name a.
Proof. intros Hab [r Hr]. exists r. by rewrite (name_eq_key_query _ _ Hab). Qed.

Definition chain_post (o : option BlockTrace) (m' : Message) : Prop :=
  match o with
  | None => m' = response ∧ ∀ n, on_chain n → ¬ blocked_name n
  | Some t => ∃ n, on_chain n ∧ answered_by rs p query n question (Some (m', t))
  end.
Lemma chain_step_wp pending visited :
  chain_inv pending visited →
  wp (chain_step p query links (pending, visited)) (λ r m', match r with
    | inl (pending', visited') => m' = response ∧ chain_inv pending' visited' ∧
        (length pending' + length (unseen visited' links) < length pending + length (unseen visited links))%nat
    | inr o => chain_post o m'
    end) (λ _ _, False) response.
Proof.
  intros Hi. unfold chain_step. destruct pending as [|n pending].
  { apply wp_ret. split; [done|]. intros n Hn Hb. destruct (chain_covered _ _ Hi Hn) as (v & Hv & Hvn).
    by destruct (ci_visited _ _ Hi v Hv) as [[] _]; eapply blocked_eq. }
  fold (seen visited n). destruct (seen visited n) eqn:Es.
  - apply wp_ret. split; [done|]. split; [|simpl; lia]. destruct Hi as [Hv Hpe Hs Hc]. split; [done|intros m Hm; apply Hpe; by right|..].
    + destruct Hs as [[<-|?]%elem_of_cons|]; [by right|by left|by right].
    + intros v b Hin Hl. destruct (Hc v b Hin Hl) as [[->|?]%elem_of_cons|]; [by right|by left|by right].
  - apply wp_bind, wp_lift. pose proof (block_answer_wp rs p query n question Hp Hq) as Hb. unfold wp in Hb.
    destruct (block_answer p query n tt) as [[[[m t]|]| | |] []]; try done; cbn [fst].
    { apply wp_bind, wp_put, wp_ret. exists n. split; [|done]. apply (ci_pending _ _ Hi). by left. }
    apply wp_ret. split; [done|]. destruct Hi as [Hv Hpe Hs Hc]. assert (on_chain n) as Hon by (apply Hpe; by left). split.
    + split.
      * intros v [->|Hin]%elem_of_cons; [|by apply Hv]. split; [|done]. intros [r Hr]. by destruct (Hb r).
      * intros m [Hm|Hm]%elem_of_app; [|apply Hpe; by right].
        rewrite elem_of_reverse in Hm. apply elem_of_targets in Hm. eapply rtc_r; [exact Hon|done].
      * destruct Hs as [[<-|?]%elem_of_cons|Hs]; [right; simpl; by rewrite name_eq_refl|left; apply elem_of_app; by right|right; simpl; by rewrite Hs orb_true_r].
      * intros v b [->|Hin]%elem_of_cons Hl; [left; apply elem_of_app; left; by apply elem_of_reverse, elem_of_targets|].
        destruct (Hc v b Hin Hl) as [[->|?]%elem_of_cons|Hs']; [right; simpl; by rewrite name_eq_refl|left; apply elem_of_app; by right|].
        right. simpl. by rewrite Hs' orb_true_r.
    + pose proof (unseen_visit visited n links Es). rewrite length_app length_reverse. simpl. lia.
Qed.
Lemma apply_response_wp :
  wp (apply_response p query) chain_post (λ _ _, False) response.
Proof.
  unfold apply_response. case_bool_decide as Hn.
  { apply wp_ret. split; [done|]. intros n _ (r & _ & (Hr & _) & _). rewrite (po_count _ _ Hp) in Hn. apply nil_length_inv in Hn. subst. by apply elem_of_nil in Hr. }
  eapply wp_bind, wp_expect; [exact Hq|]. apply wp_bind, wp_get.
  apply (wp_loop _ (λ st m', m' = response ∧ chain_inv st.1 st.2) (λ st, (length st.1 + length (unseen st.2 links))%nat)).
  - intros [pending visited] m' [-> Hi]. eapply wp_mono; [| |by apply chain_step_wp]; [|done].
    intros [[pending' visited']|o] m'; [|done]. by intros (-> & ? & ?).
  - split; [done|]. split; simpl; [by intros v ?%elem_of_nil| |left; by left|by intros v b ?%elem_of_nil].
    intros n ->%list_elem_of_singleton. constructor.
  - simpl. assert (length (unseen [] links) ≤ length links)%nat by apply length_filter. lia.
Qed.
End chain.
End decide_proof.

(** ** Claims *)
Section claims.
Context `{IpParse} {HO : Host} `{!HostSpec HO} {SL : SliceLib} `{!SliceSpec SL} {SH : Sha256Lib}.
Context `{MessageLib} `{!MessageSpec} `{!NameSpec _} `{!DnsNames} `{!DnsNamesSpec} `{!NameFold} `{!NameParse} `{!NameText}.



(** C23. Checking the answer of an upstream against the policy ends without a
    panic, loops of aliases included, and replaces the answer exactly when some
    name of the alias chain from the question, in the question's class, is
    blocked: by the block answer of such a name. Otherwise it stays as it is. *)
Theorem apply_response_exact rs p query response question :
  policy_ok rs p → queries query !! 0%nat = Some question →
  wp (apply_response p query)
    (λ o m, match o with
       | None => m = response ∧ ∀ n, on_chain response question n → ¬ blocked_name rs p n
       | Some t => ∃ n, on_chain response question n ∧ blocked_name rs p n ∧ answered_by rs p query n question (Some (m, t))
       end)
    (λ _ _, False) response.
Proof.
  intros Hp Hq. eapply wp_mono; [| |by apply apply_response_wp]; [|done]. intros [t|] m Ho; simpl in Ho; [|done].
  destruct Ho as (n & Hn & Ho). exists n. split_and!; [done| |done]. destruct Ho as (r & owner & Hr & _). by exists r.
Qed.
End claims.

(** ** Names within the DNS limits *)
Module TextNames.
Definition name_ok (ls : list (list Z)) : Prop := Forall (λ l, (1 ≤ length l ≤ 63)%nat) ls ∧ (wire_len ls ≤ 254)%nat.
#[local] Instance name_ok_dec ls : Decision (name_ok ls).
Proof. unfold name_ok. apply _. Defined.
Definition text_name : Type := dsig name_ok.
Definition to_name (ls : list (list Z)) : option text_name :=
  match decide (name_ok ls) with left p => Some (dexist ls p) | right _ => None end.
Lemma to_name_Some ls : name_ok ls → ∃ n, to_name ls = Some n ∧ `n = ls.
Proof. intros Hok. unfold to_name. case_decide; [|done]. eexists. split; [reflexivity|done]. Qed.
#[export] Instance names : NameLib := {| Name := text_name; name_iter n := `n |}.
#[export] Instance names_spec : NameSpec names.
Proof.
  split.
  - intros n l Hl. destruct (proj2_dsig n) as [Hn _]. by apply (proj1 (Forall_forall _ _) Hn).
  - intros n. by destruct (proj2_dsig n).
Qed.
Lemma lower_ok ls : name_ok ls → name_ok (lower <$> ls).
Proof.
  intros [Hl Hw]. split; [|by rewrite wire_len_lower]. apply Forall_fmap. eapply Forall_impl; [exact Hl|].
  intros l Hlen. unfold compose, lower. by rewrite length_fmap.
Qed.
Lemma byte_lower_idemp b : to_ascii_lowercase (to_ascii_lowercase b) = to_ascii_lowercase b.
Proof. unfold to_ascii_lowercase. repeat case_bool_decide; lia. Qed.
Lemma labels_lower_idemp (ls : list (list Z)) : lower <$> (lower <$> ls) = lower <$> ls.
Proof.
  rewrite -list_fmap_compose. apply list_fmap_ext. intros _ l _. unfold compose, lower. rewrite -list_fmap_compose.
  apply list_fmap_ext. intros _ b _. apply byte_lower_idemp.
Qed.
Definition lower_name (n : text_name) : text_name := dexist (lower <$> `n) (lower_ok _ (proj2_dsig n)).
#[export] Instance dns_names : DnsNames.
Proof.
  refine {|
    name_eq_dec := _ : EqDecision text_name;
    name_countable := inj_countable (A:=list (list Z)) (λ n : text_name, `n) to_name _;
    name_eq a b := bool_decide (lower <$> `a = lower <$> `b);
    to_lowercase := lower_name;
    set_fqdn n := n;
    name_len n := Z.of_nat (wire_len (`n));
    zone_of a b := bool_decide ((lower <$> `a) `suffix_of` (lower <$> `b));
    name_to_bytes n := Some (encode (`n));
  |}.
  intros n. destruct (to_name_Some (`n) (proj2_dsig n)) as (m & -> & Hm). f_equal. by apply dsig_eq.
Defined.
#[export] Instance dns_names_spec : DnsNamesSpec.
Proof.
  split; try done; simpl.
  - intros a b. apply bool_decide_ext. rewrite dsig_eq. done.
  - intros a. apply dsig_eq. simpl. apply labels_lower_idemp.
  - intros a. apply dsig_eq. simpl. apply labels_lower_idemp.
  - intros a b. by rewrite !labels_lower_idemp.
  - intros a. lia.
Qed.
#[export] Instance fold : NameFold.
Proof. split. intros a b Hab. by apply bool_decide_eq_true in Hab. Qed.
#[export] Instance parse : NameParse := {|
  from_ascii t := to_name (split_on DOT (strip_suffix_dot t));
  type_from_str t := None;
|}.
#[export] Instance text : NameText.
Proof.
  split. intros t k Hk Hlast. simpl. assert (strip_suffix_dot (t ++ [DOT]) = t) as ->.
  { unfold strip_suffix_dot. rewrite last_snoc bool_decide_true // length_app Nat.add_1_r Nat.sub_1_r /=. apply take_app_length. }
  rewrite key_rule_ok in Hk. unfold domain_labels in Hk. assert (strip_suffix_dot t = t) as Ht.
  { unfold strip_suffix_dot. by rewrite bool_decide_false. }
  rewrite Ht in Hk. case_bool_decide as Hd; [|done]. injection Hk as <-. destruct Hd as [Hlen Hls].
  destruct (to_name_Some (split_on DOT t)) as (n & -> & Hn).
  { split; [|rewrite wire_len_split; lia]. apply Forall_forall. intros l Hin. by destruct (proj1 (Forall_forall _ _) Hls l (proj2 (elem_of_reverse _ _) Hin)) as [? _]. }
  exists n. split; [done|]. unfold query_key. simpl. by rewrite Hn.
Qed.
End TextNames.

Module PolicyWitness.
Import CanonicalWitness PrepareWitness TextNames.
#[local] Existing Instance host.
#[local] Existing Instance host_spec.
#[local] Existing Instance ListSlice.lib.
#[local] Existing Instance ListSlice.spec.
#[local] Existing Instance sha.
#[local] Existing Instance TextNames.names.
Definition lib : MessageLib := DnsWitness.messages (λ _, None) (λ _, None).
#[local] Existing Instance lib.
#[local] Instance lib_spec : MessageSpec := DnsWitness.messages_spec _ _.
#[local] Instance ips : IpParse := {| parse_ip t := if bool_decide (t = lit "10.0.0.9") then Some (V4 167772169) else None |}.

(** Everything below [ads.net] is refused, [x.net] answers an address, and one
    name below [ads.net] is exempt. *)
Definition text_rules : Rules :=
  mkRules true MNodata None None 10 [lit "x.net 10.0.0.9"] [lit "ads.net refused"; lit "net"] [lit "ok.ads.net"] [].
Lemma nil_ok : name_ok [].
Proof. split; [constructor|simpl; lia]. Qed.
Definition no_name : text_name := dexist [] nil_ok.
Definition name_of (t : string) : @Name TextNames.names := default no_name (from_ascii (lit t)).
Definition ask (t : string) : Message := mkMessage 7 false 0 false false true true false false 0 [mkQuery (name_of t) 1 1] [] [] [] None None.
Definition question : Query := mkQuery (name_of "w.org") 1 1.
(** [w.org] is an alias of itself and of [b.ads.net]. *)
Definition aliased : Message :=
  mkMessage 7 true 0 false false true true false false 0 [question]
    [mkRr (name_of "w.org") 1 60 (RCname (name_of "W.org")); mkRr (name_of "w.org") 1 60 (RCname (name_of "b.ads.net"))] [] [] None None.

Definition passes (p : Policy) (t : string) : bool :=
  match (block_answer p (ask t) (name_of t) tt).1 with Ok None => true | _ => false end.
Definition replaced (p : Policy) : bool :=
  match (apply_response p (ask "w.org") aliased).1 with Ok (Some _) => true | _ => false end.
Lemma compiled_text (t : Policy → bool) :
  match local_rules_new text_rules with
  | Ok l => match (compile l 1000 default_limits (tt, 0%nat)).1 with Ok p => t p | _ => false end
  | _ => false
  end = true →
  ∃ l p s, local_rules_new text_rules = Ok l ∧ compile l 1000 default_limits (tt, 0%nat) = (Ok p, s) ∧ t p = true.
Proof.
  destruct (local_rules_new text_rules) as [l| | |]; [|discriminate..].
  destruct (compile l 1000 default_limits (tt, 0%nat)) as [[p| | |] s] eqn:E; [|discriminate..]. intros Ht. exists l, p, s. done.
Qed.
Lemma apply_response_exact_witness :
  ∃ l p s rs t m n, compile l 1000 default_limits (tt, 0%nat) = (Ok p, s) ∧ policy_ok rs p ∧
    apply_response p (ask "w.org") aliased = (Ok (Some t), m) ∧ on_chain aliased question n ∧ blocked_name rs p n.
Proof.
  destruct (compiled_text replaced) as (l & p & s & Hnew & Hrun & Ht); [vm_compute; reflexivity|].
  pose proof (local_rules_new_ok text_rules) as Hl. rewrite Hnew in Hl. destruct Hl as [Hl _].
  assert (0 ≤ 1000) as H1 by lia. assert (0 ≤ retained_bytes default_limits) as H2 by reflexivity || (simpl; lia).
  assert (0 < max_rules default_limits) as H3 by (simpl; lia).
  destruct (wp_result _ _ _ _ _ _ Hrun (compile_wp l 1000 default_limits 0 Hl H1 H2 H3)) as (_ & _ & _ & rs & Hp & _).
  destruct (wp_total _ _ _ (apply_response_exact rs p (ask "w.org") aliased question Hp eq_refl)) as (o & m & Ho & Hc).
  unfold replaced in Ht. rewrite Ho in Ht. destruct o as [t|]; [|discriminate Ht]. destruct Hc as (n & Hn & Hb & _).
  exists l, p, s, rs, t, m, n. split_and!; assumption.
Defined.
Example others_pass :
  match local_rules_new text_rules with
  | Ok l => match (compile l 1000 default_limits (tt, 0%nat)).1 with Ok p => passes p "ok.ads.net" && passes p "w.org" | _ => false end
  | _ => false
  end = true.
Proof. vm_compute. reflexivity. Qed.
End PolicyWitness.
