(* ===== verification/Refresh.v ===== *)
(** * Background refreshes

    [src/resolver/refresh.rs]: the owner of one cache generation's background
    work. It refuses work over its in-flight and rate limits, work that already
    runs and work that failed a moment ago, and nothing starts once it closes. *)
From S2P Require Import Prelude Net Std Names Dns Ecs Wire Protocol CacheData Sharing.
Set Default Goal Selector "!".
Set Warnings "-rewrite-rw".
Local Open Scope Z_scope.
Local Open Scope rust_scope.

(** ** State *)
Definition SECOND : Z := 1000000000.
Inductive Purpose : Type := Prefetch | Fill.
Inductive Rejection : Type := Duplicate | Cooldown | OverBudget.
Record Refresh : Type := mkRefresh {
  closed : bool;
  active : gset (list Z);
  cooldown : gmap (list Z) Z;
  starts : list Z;
  scheduled : Z;
  success : Z;
  failure : Z;
  rejected_duplicate : Z;
  rejected_cooldown : Z;
  rejected_budget : Z;
  cancelled_fill_rejected : Z;
}.
Definition refresh_default : Refresh := mkRefresh false ∅ ∅ [] 0 0 0 0 0 0 0.
(** The guard a spawned task holds. *)
Record Completion : Type := mkCompletion { d_key : list Z; backoff : Z; d_capacity : nat }.

Definition with_work (a : gset (list Z)) (c : gmap (list Z) Z) (s : list Z) (r : Refresh) : Refresh :=
  mkRefresh (closed r) a c s (scheduled r) (success r) (failure r) (rejected_duplicate r) (rejected_cooldown r)
    (rejected_budget r) (cancelled_fill_rejected r).
Definition add_scheduled (r : Refresh) : Refresh :=
  mkRefresh (closed r) (active r) (cooldown r) (starts r) (scheduled r + 1) (success r) (failure r) (rejected_duplicate r)
    (rejected_cooldown r) (rejected_budget r) (cancelled_fill_rejected r).
Definition count_result (b : bool) (r : Refresh) : Refresh :=
  mkRefresh (closed r) (active r) (cooldown r) (starts r) (scheduled r) (success r + Z.b2z b) (failure r + Z.b2z (negb b))
    (rejected_duplicate r) (rejected_cooldown r) (rejected_budget r) (cancelled_fill_rejected r).
Definition count_refusal (purpose : Purpose) (why : Rejection) (r : Refresh) : Refresh :=
  let n (b : bool) := Z.b2z (match purpose with Prefetch => b | Fill => false end) in
  mkRefresh (closed r) (active r) (cooldown r) (starts r) (scheduled r) (success r) (failure r)
    (rejected_duplicate r + n (match why with Duplicate => true | _ => false end))
    (rejected_cooldown r + n (match why with Cooldown => true | _ => false end))
    (rejected_budget r + n (match why with OverBudget => true | _ => false end))
    (cancelled_fill_rejected r + Z.b2z (match purpose with Fill => true | _ => false end)).

(** ** Scheduling *)
Fixpoint drop_old (l : list Z) (now : Z) : list Z :=
  match l with
  | start :: rest => if bool_decide (SECOND ≤ since_ now start) then drop_old rest now else l
  | [] => []
  end.
Definition refuse (config : PrefetchConfig) (key : list Z) (r : Refresh) : option Rejection :=
  if bool_decide (key ∈ active r) then Some Duplicate
  else if bool_decide (is_Some (cooldown r !! key)) then Some Cooldown
  else if bool_decide (pf_max_inflight config ≤ size (active r))%nat || bool_decide (pf_rate_per_sec config ≤ length (starts r))%nat
  then Some OverBudget
  else None.
Definition failure_capacity (config : PrefetchConfig) : nat := (64 `max` ((pf_max_inflight config * 8) `min` 4096))%nat.
(** Under the lock; the result is the task that starts. *)
Definition schedule_key (config : PrefetchConfig) (purpose : Purpose) (key : list Z) (now : Z) : M Refresh unit (option Completion) :=
  let* r := get in
  let r := with_work (active r) (filter (λ p : list Z * Z, now < p.2) (cooldown r)) (drop_old (starts r) now) r in
  put r ;;;
  if closed r then ret None else
  match refuse config key r with
  | Some why => put (count_refusal purpose why r) ;;; ret None
  | None =>
      put (add_scheduled (with_work ({[key]} ∪ active r) (cooldown r) (starts r ++ [now]) r)) ;;;
      ret (Some (mkCompletion key (pf_backoff_secs config * SECOND) (failure_capacity config)))
  end.
Section refresh.
Context `{MessageLib} `{!DnsNames}.
Definition schedule (query : Message) (epoch : Z) (config : PrefetchConfig) (purpose : Purpose) (now : Z) : M Refresh unit (option Completion) :=
  let* key := lift (canonical_work_key query tt).1 in
  match key with
  | None => ret None
  | Some key => schedule_key config purpose (key ++ be_bytes 8 epoch) now
  end.
End refresh.

(** ** Completion *)
(** Of equal deadlines the map's order picks one. *)
Fixpoint oldest_of (l : list (list Z * Z)) : option (list Z * Z) :=
  match l with
  | [] => None
  | p :: l => Some (match oldest_of l with Some q => if bool_decide (p.2 ≤ q.2) then p else q | None => p end)
  end.
Definition make_way (capacity : nat) (c : gmap (list Z) Z) : gmap (list Z) Z :=
  if bool_decide (capacity ≤ size c)%nat
  then match oldest_of (map_to_list c) with Some (k, _) => delete k c | None => c end
  else c.
(** [Drop for Completion]; without a result the task was aborted or panicked. *)
Definition complete (d : Completion) (result : option bool) (now : Z) (r : Refresh) : Refresh :=
  let r := with_work (active r ∖ {[d_key d]}) (cooldown r) (starts r) r in
  match result with
  | None => r
  | Some true => count_result true r
  | Some false =>
      let r := count_result false r in
      if closed r then r
      else with_work (active r) (<[d_key d := now + backoff d]> (make_way (d_capacity d) (cooldown r))) (starts r) r
  end.
(** [cancel] and [shutdown] abort every task too; each ends by its guard. *)
Definition cancel (r : Refresh) : Refresh :=
  mkRefresh true (active r) (cooldown r) (starts r) (scheduled r) (success r) (failure r) (rejected_duplicate r) (rejected_cooldown r)
    (rejected_budget r) (cancelled_fill_rejected r).

(** ** The owner and its tasks

    A request reads the clock before it takes the lock, so the stamps come in any
    order; [clock] is the latest one. [began] is the history of starts, in the
    order of the lock and latest first, and [lag] the furthest that the stamp of
    a start was behind the latest one. *)
Section world.
Context `{MessageLib} `{!DnsNames} (config : PrefetchConfig).
Record World : Type := mkWorld {
  refresh : Refresh;
  running : list Completion;
  clock : Z;
  began : list Z;
  aborted : Z;
  lag : Z;
}.
Definition start (now : Z) : World := mkWorld refresh_default [] now [] 0 0.
(** A request with the stamp [now] that leaves [r] and starts [o]. *)
Definition scheduled_at (now : Z) (o : option Completion) (r : Refresh) (w : World) : World :=
  let top := Z.max (clock w) now in
  mkWorld r (running w ++ option_list o) top (match o with Some _ => now :: began w | None => began w end) (aborted w)
    (match o with Some _ => Z.max (lag w) (top - now) | None => lag w end).
Inductive step : World → World → Prop :=
  | step_schedule w query epoch purpose now o r :
      schedule query epoch config purpose now (refresh w) = (Ok o, r) → step w (scheduled_at now o r w)
  | step_finish w i d result now :
      running w !! i = Some d →
      step w (mkWorld (complete d result now (refresh w)) (delete i (running w)) (Z.max (clock w) now) (began w)
                (aborted w + match result with None => 1 | Some _ => 0 end) (lag w))
  | step_cancel w :
      step w (mkWorld (cancel (refresh w)) (running w) (clock w) (began w) (aborted w) (lag w)).

(** The starts in a window of one second, less the lag, and in the second before
    the latest stamp. *)
Definition in_window (lag t : Z) (l : list Z) : list Z := filter (λ x, t ≤ x < t + SECOND - lag) l.
Definition recent (t : Z) (l : list Z) : list Z := filter (λ x, t - x < SECOND) l.
Record refresh_ok (w : World) : Prop := {
  ro_active : active (refresh w) = list_to_set (d_key <$> running w);
  ro_distinct : NoDup (d_key <$> running w);
  ro_inflight : (length (running w) ≤ pf_max_inflight config)%nat;
  ro_capacity : Forall (λ d, d_capacity d = failure_capacity config) (running w);
  ro_cooldown : (size (cooldown (refresh w)) ≤ failure_capacity config)%nat;
  ro_stamps : Forall (λ x, x ≤ clock w) (began w);
  ro_starts : recent (clock w) (starts (refresh w)) = reverse (recent (clock w) (began w));
  ro_recent : (length (recent (clock w) (began w)) ≤ pf_rate_per_sec config)%nat;
  ro_rate t : (length (in_window (lag w) t (began w)) ≤ pf_rate_per_sec config)%nat;
  ro_count : scheduled (refresh w) = success (refresh w) + failure (refresh w) + aborted w + Z.of_nat (length (running w)) ∧
             scheduled (refresh w) = Z.of_nat (length (began w));
  ro_lag : 0 ≤ lag w;
}.

(** ** One call under the lock *)
(** What a call that runs does to the owner. *)
Lemma schedule_key_run purpose key now r o r' :
  schedule_key config purpose key now r = (Ok o, r') →
  closed r' = closed r ∧ cooldown r' = filter (λ p : list Z * Z, now < p.2) (cooldown r) ∧
  success r' = success r ∧ failure r' = failure r ∧
  match o with
  | None => active r' = active r ∧ starts r' = drop_old (starts r) now ∧ scheduled r' = scheduled r
  | Some d =>
      closed r = false ∧ key ∉ active r ∧ cooldown r' !! key = None ∧ (size (active r) < pf_max_inflight config)%nat ∧
      (length (drop_old (starts r) now) < pf_rate_per_sec config)%nat ∧
      d = mkCompletion key (pf_backoff_secs config * SECOND) (failure_capacity config) ∧
      active r' = {[key]} ∪ active r ∧ starts r' = drop_old (starts r) now ++ [now] ∧ scheduled r' = scheduled r + 1
  end.
Proof.
  unfold schedule_key, bind, get, put, ret, refuse. cbn -[drop_old SECOND failure_capacity].
  destruct (closed r) eqn:Ec; [intros [= <- <-]; by rewrite /= Ec|].
  case_bool_decide as Hk; [intros [= <- <-]; by rewrite /= Ec|].
  case_bool_decide as Hc; [intros [= <- <-]; by rewrite /= Ec|].
  destruct (_ || _) eqn:Hb; [intros [= <- <-]; by rewrite /= Ec|].
  apply orb_false_iff in Hb as [Hb1%bool_decide_eq_false Hb2%bool_decide_eq_false].
  intros [= <- <-]. cbn -[drop_old SECOND failure_capacity]. rewrite Ec eq_None_not_Some. repeat split; [done|done|lia..].
Qed.
Lemma schedule_run query epoch purpose now r o r' :
  schedule query epoch config purpose now r = (Ok o, r') →
  (o = None ∧ r' = r) ∨ ∃ key, schedule_key config purpose key now r = (Ok o, r').
Proof.
  unfold schedule, bind, lift. destruct (canonical_work_key query tt).1 as [[key|]| | |]; simpl; try discriminate; eauto.
  intros [= <- <-]. by left.
Qed.

(** ** The failure table *)
Lemma oldest_in l p : oldest_of l = Some p → p ∈ l.
Proof.
  revert p. induction l as [|q l IH]; simpl; [done|]. intros p. destruct (oldest_of l) as [q'|] eqn:E.
  - case_bool_decide; intros [= <-]; [left|right; by apply IH].
  - intros [= <-]. left.
Qed.
Lemma make_way_size capacity c : (0 < capacity)%nat → (size c ≤ capacity)%nat → (size (make_way capacity c) < capacity)%nat.
Proof.
  intros Hp Hc. unfold make_way. case_bool_decide as Hb; [|lia].
  destruct (oldest_of (map_to_list c)) as [[k u]|] eqn:E.
  - apply oldest_in, elem_of_map_to_list in E. rewrite map_size_delete E. lia.
  - destruct (map_to_list c) as [|q l] eqn:El; [|simpl in E; by destruct (oldest_of l)].
    apply map_to_list_empty_iff in El as ->. rewrite map_size_empty in Hb. lia.
Qed.
Lemma make_way_sub capacity c k u : make_way capacity c !! k = Some u → c !! k = Some u.
Proof.
  unfold make_way. case_bool_decide; [|done]. destruct (oldest_of _) as [[k' u']|]; [|done].
  by intros [_ ?]%lookup_delete_Some.
Qed.
Lemma capacity_bounds : (64 ≤ failure_capacity config ≤ 4096)%nat.
Proof. unfold failure_capacity. lia. Qed.
Lemma filter_size (c : gmap (list Z) Z) (now : Z) : (size (filter (λ p : list Z * Z, (now < p.2)%Z) c) ≤ size c)%nat.
Proof. apply map_subseteq_size. apply map_filter_subseteq. Qed.

(** ** The history *)
Lemma recent_later t t' l : t ≤ t' → recent t' (recent t l) = recent t' l.
Proof. intros Ht. unfold recent. apply list_filter_filter_l. intros. lia. Qed.
(** What is dropped is old at every later stamp. *)
Lemma drop_recent now top l : now ≤ top → recent top (drop_old l now) = recent top l.
Proof.
  intros Ht. induction l as [|x l IH]; [done|]. cbn [drop_old]. case_bool_decide as Hx; [|done].
  unfold recent in *. rewrite IH filter_cons decide_False //. unfold since_, SECOND in *. lia.
Qed.
Lemma starts_later t top (l began : list Z) : t ≤ top → recent t l = reverse (recent t began) → recent top l = reverse (recent top began).
Proof.
  intros Ht Hl. rewrite -(recent_later t top l) // Hl /recent filter_reverse. f_equal. by apply (recent_later t top).
Qed.
Lemma recent_length t t' l : t ≤ t' → (length (recent t' l) ≤ length (recent t l))%nat.
Proof. intros Ht. rewrite -(recent_later t) //. apply length_filter. Qed.
(** A window that a start has just fallen in lies within the last second. *)
Lemma window_recent lag t top l : top < t + SECOND → (length (in_window lag t l) ≤ length (recent top l))%nat.
Proof.
  intros Ht. unfold in_window, recent. induction l as [|x l IH]; [done|]. rewrite !filter_cons.
  destruct (decide (t ≤ x < t + SECOND - lag)); destruct (decide (top - x < SECOND)); simpl; lia.
Qed.
Lemma window_shrinks lag lag' t l : lag ≤ lag' → (length (in_window lag' t l) ≤ length (in_window lag t l))%nat.
Proof.
  intros Hl. unfold in_window. induction l as [|x l IH]; [done|]. rewrite !filter_cons.
  destruct (decide (t ≤ x < t + SECOND - lag')); destruct (decide (t ≤ x < t + SECOND - lag)); simpl; lia.
Qed.
(** One more start. *)
Lemma window_start lag t top now l n : 0 ≤ lag → now ≤ top →
  (length (recent top l) < n)%nat → (length (in_window lag t l) ≤ n)%nat →
  (length (in_window (Z.max lag (top - now)) t (now :: l)) ≤ n)%nat.
Proof.
  intros Hlag Hnow Hrecent Hwin. unfold in_window at 1. rewrite filter_cons. case_decide as Hx.
  - pose proof (window_recent (Z.max lag (top - now)) t top l ltac:(lia)). unfold in_window in *. simpl. lia.
  - pose proof (window_shrinks lag (Z.max lag (top - now)) t l ltac:(lia)). unfold in_window in *. lia.
Qed.

(** ** Every step keeps the limits *)
Lemma fmap_delete {A B} (f : A → B) (i : nat) (l : list A) : f <$> delete i l = delete i (f <$> l).
Proof. revert i. induction l as [|x l IH]; intros [|i]; simpl; [done..|]. by rewrite -IH. Qed.
Lemma set_delete (l : list (list Z)) (i : nat) k :
  NoDup l → l !! i = Some k → (list_to_set l : gset (list Z)) ∖ {[k]} = list_to_set (delete (i : nat) l).
Proof.
  intros Hd Hi. rewrite -{1}(take_drop_middle l i k Hi) delete_take_drop.
  rewrite -(take_drop_middle l i k Hi) in Hd. apply NoDup_app in Hd as (_ & Ht & Hd). apply NoDup_cons in Hd as [Hk _].
  rewrite !list_to_set_app_L /=. apply set_eq. intros x. specialize (Ht x).
  rewrite elem_of_difference !elem_of_union !elem_of_list_to_set elem_of_singleton. rewrite not_elem_of_cons in Ht.
  naive_solver.
Qed.

Lemma world_start_ok now : refresh_ok (start now).
Proof.
  split; simpl; try done.
  - constructor.
  - lia.
  - rewrite map_size_empty. lia.
  - lia.
  - lia.
Qed.

Lemma schedule_ok w query epoch purpose now o r :
  refresh_ok w → schedule query epoch config purpose now (refresh w) = (Ok o, r) → refresh_ok (scheduled_at now o r w).
Proof.
  intros [Ha Hd Hi Hc Hf Hle Hst Hrec Hr [Hn Hl] Hlag] Hrun. unfold scheduled_at. set (top := Z.max (clock w) now).
  assert (clock w ≤ top ∧ now ≤ top) as [Htop Hnow] by lia.
  assert (Forall (λ x, x ≤ top) (began w)) as Hle' by (eapply Forall_impl; [exact Hle|simpl; lia]).
  pose proof (starts_later _ top _ _ Htop Hst) as Hst'. pose proof (recent_length _ _ (began w) Htop) as Hrec'.
  apply schedule_run in Hrun as [[-> ->]|[key Hrun]].
  - rewrite app_nil_r. split; cbn -[SECOND recent in_window]; try done. by eapply Nat.le_trans.
  - apply schedule_key_run in Hrun as (_ & Hcool & Hsu & Hfa & Hrun).
    assert (size (cooldown r) ≤ failure_capacity config)%nat by (rewrite Hcool; pose proof (filter_size (cooldown (refresh w)) now); lia).
    pose proof (drop_recent now top (starts (refresh w)) Hnow) as Hdrop. rewrite Hst' in Hdrop. destruct o as [d|].
    + destruct Hrun as (_ & Hk & _ & Hsz & Hrate & -> & Hact & Hstarts & Hsch).
      assert (length (recent top (began w)) < pf_rate_per_sec config)%nat as Hroom.
      { rewrite -length_reverse -Hdrop. eapply Nat.le_lt_trans; [apply length_filter|exact Hrate]. }
      assert (size (active (refresh w)) = length (running w)) as Hlen by (rewrite Ha size_list_to_set // length_fmap //).
      rewrite Ha elem_of_list_to_set in Hk. split; cbn -[SECOND recent in_window].
      * rewrite Hact Ha fmap_app list_to_set_app_L /= union_empty_r_L union_comm_L //.
      * rewrite fmap_app. apply NoDup_app. split_and!; [done| |apply NoDup_singleton].
        intros x Hx Hx'%list_elem_of_singleton. subst x. exact (Hk Hx).
      * rewrite length_app /=. lia.
      * apply Forall_app. split; [done|by repeat constructor].
      * done.
      * by constructor.
      * rewrite Hstarts {1}/recent filter_app. change (filter _ (drop_old _ _)) with (recent top (drop_old (starts (refresh w)) now)).
        rewrite Hdrop /recent !filter_cons. case_decide; [by rewrite reverse_cons|by rewrite app_nil_r].
      * unfold recent. rewrite filter_cons. change (filter _ (began w)) with (recent top (began w)). case_decide; simpl; lia.
      * intros t. by apply window_start.
      * rewrite length_app /=. lia.
      * lia.
    + destruct Hrun as (Hact & Hstarts & Hsch). rewrite app_nil_r.
      split; cbn -[SECOND recent in_window]; try congruence; try done; [by eapply Nat.le_trans|]. rewrite Hsch Hsu Hfa. done.
Qed.

Lemma complete_facts d result now r :
  let r' := complete d result now r in
  closed r' = closed r ∧ active r' = active r ∖ {[d_key d]} ∧ starts r' = starts r ∧ scheduled r' = scheduled r ∧
  success r' + failure r' + match result with None => 1 | Some _ => 0 end = success r + failure r + 1 ∧
  ((0 < d_capacity d)%nat → (size (cooldown r) ≤ d_capacity d)%nat → (size (cooldown r') ≤ d_capacity d)%nat).
Proof.
  unfold complete. destruct result as [[]|]; simpl; [split_and!; (done || lia)| |split_and!; (done || lia)].
  destruct (closed r) eqn:Ec; simpl; split_and!; try (done || lia).
  intros Hp Hs. pose proof (make_way_size _ _ Hp Hs).
  destruct (make_way (d_capacity d) (cooldown r) !! d_key d) eqn:E.
  - rewrite map_size_insert_Some; [lia|by eexists].
  - rewrite map_size_insert_None //.
Qed.

Lemma finish_ok w i d result now :
  refresh_ok w → running w !! i = Some d →
  refresh_ok (mkWorld (complete d result now (refresh w)) (delete i (running w)) (Z.max (clock w) now) (began w)
    (aborted w + match result with None => 1 | Some _ => 0 end) (lag w)).
Proof.
  intros [Ha Hd Hi Hc Hf Hle Hst Hrec Hr [Hn Hl] Hlag] Hrun.
  destruct (complete_facts d result now (refresh w)) as (_ & Hact & Hstarts & Hsch & Hcount & Hcool).
  assert (d_capacity d = failure_capacity config) as Hcap by (by eapply (Forall_lookup_1 _ _ _ _ Hc)).
  pose proof capacity_bounds. pose proof (length_delete (running w) i (mk_is_Some _ _ Hrun)) as Hlen.
  pose proof (lookup_lt_Some _ _ _ Hrun). set (top := Z.max (clock w) now). assert (clock w ≤ top) as Htop by lia.
  split; cbn -[SECOND recent in_window]; rewrite ?fmap_delete.
  - rewrite Hact Ha (set_delete _ i) // list_lookup_fmap Hrun //.
  - eapply sublist_NoDup; [exact Hd|apply sublist_delete].
  - lia.
  - rewrite delete_take_drop. apply Forall_app. split; [by apply Forall_take|by apply Forall_drop].
  - rewrite -Hcap. apply Hcool; lia.
  - eapply Forall_impl; [exact Hle|simpl; lia].
  - rewrite Hstarts. by apply (starts_later (clock w)).
  - pose proof (recent_length _ _ (began w) Htop). lia.
  - done.
  - split; [|congruence]. rewrite Hsch. lia.
  - done.
Qed.

Lemma world_step_ok w w' : refresh_ok w → step w w' → refresh_ok w'.
Proof.
  intros Hok Hstep. destruct Hstep; [by eapply schedule_ok|by eapply finish_ok|].
  destruct Hok. split; simpl; done.
Qed.
Lemma reachable_ok now w : rtc step (start now) w → refresh_ok w.
Proof. revert w. apply (rtc_ind_r (λ w, refresh_ok w)); [apply world_start_ok|]. intros. by eapply world_step_ok. Qed.

Lemma closed_step w w' : closed (refresh w) = true → step w w' → closed (refresh w') = true ∧ began w' = began w.
Proof.
  intros Hc Hstep. destruct Hstep as [w q ep pu now o r Hrun|w i d res now _|w]; simpl; [|split; [|done]|done].
  - apply schedule_run in Hrun as [[-> ->]|[key Hrun]]; [done|].
    apply schedule_key_run in Hrun as (-> & _ & _ & _ & Ho). split; [done|]. destruct o; [|done].
    destruct Ho as (? & _). congruence.
  - by rewrite (proj1 (complete_facts d res now (refresh w))).
Qed.
Lemma closed_steps w w' : closed (refresh w) = true → rtc step w w' → began w' = began w.
Proof.
  intros Hc Hw. induction Hw as [|w w1 w2 Hs _ IH]; [done|].
  destruct (closed_step _ _ Hc Hs) as [Hc1 Hb]. by rewrite (IH Hc1).
Qed.

(** C38. In every reachable state of a generation, whatever the order of
    requests, completions, aborts and the cancellation, and whatever the order in
    which requests that read the clock get the lock: at most [max_inflight]
    refreshes run, no two with the same key (request and epoch); at most
    [rate_per_sec] of the starts have stamps within the second before the latest
    stamp, and within any window of one second less [lag], the furthest that a
    start's stamp was behind the latest one, so in any second when stamps come in
    order; the table of recent failures holds at most [failure_capacity] ≤ 4096
    keys; and every scheduled refresh is counted once: as a success, a failure,
    aborted or still running. Once the generation is cancelled nothing starts any
    more. *)
Theorem refresh_bounded now w :
  rtc step (start now) w →
  (length (running w) ≤ pf_max_inflight config)%nat ∧ NoDup (d_key <$> running w) ∧
  (length (recent (clock w) (began w)) ≤ pf_rate_per_sec config)%nat ∧
  (∀ t, (length (in_window (lag w) t (began w)) ≤ pf_rate_per_sec config)%nat) ∧
  (size (cooldown (refresh w)) ≤ failure_capacity config ≤ 4096)%nat ∧
  scheduled (refresh w) = success (refresh w) + failure (refresh w) + aborted w + Z.of_nat (length (running w)) ∧
  (closed (refresh w) = true → ∀ w', rtc step w w' → began w' = began w).
Proof.
  intros Hw. destruct (reachable_ok _ _ Hw) as [Ha Hd Hi Hc Hf _ _ Hrec Hr [Hn _] _]. pose proof capacity_bounds.
  refine (conj Hi (conj Hd (conj Hrec (conj Hr (conj _ (conj Hn _)))))); [lia|]. intros Hcl w'. by apply closed_steps.
Qed.
End world.

Module RefreshWitness.
Import DnsWitness.
#[local] Existing Instance names.
#[local] Existing Instance dns_names.
Definition lib : MessageLib := messages (λ _, Some [7]) (λ _, None).
#[local] Existing Instance lib.
Definition config : PrefetchConfig := mkPrefetch true 2 10 1 100 5.
Definition query : Message := mkMessage 9 false 0 false false true false false false 0 [mkQuery [[97]] 1 1] [] [] [] None None.
Definition tried (now : Z) (r : Refresh) := schedule query 3 config Prefetch now r.
(** One refresh starts; the same request, which read the clock before it, is
    refused meanwhile. *)
Lemma refresh_bounded_witness :
  ∃ w, (length (running w) = 1)%nat ∧ began w = [5] ∧ rejected_duplicate (refresh w) = 1 ∧
    scheduled (refresh w) = success (refresh w) + failure (refresh w) + aborted w + Z.of_nat (length (running w)).
Proof.
  destruct (tried 5 refresh_default) as [[[d|]| | |] r1] eqn:E; [|vm_compute in E; discriminate..].
  destruct (tried 4 r1) as [[[d2|]| | |] r2] eqn:E2; [vm_compute in E; injection E as <- <-; vm_compute in E2; discriminate| |vm_compute in E; injection E as <- <-; vm_compute in E2; discriminate..].
  assert (rtc (step config) (start 3) (mkWorld r2 [d] 5 [5] 0 0)) as Hw.
  { eapply rtc_l; [exact (step_schedule config (start 3) query 3 Prefetch 5 (Some d) r1 E)|].
    eapply rtc_l; [|apply rtc_refl]. exact (step_schedule config (mkWorld r1 [d] 5 [5] 0 0) query 3 Prefetch 4 None r2 E2). }
  eexists. destruct (refresh_bounded config 3 _ Hw) as (_ & _ & _ & _ & _ & Hn & _).
  split; [|split; [|split; [|exact Hn]]]; [done..|].
  vm_compute in E. injection E as <- <-. vm_compute in E2. by injection E2 as <-.
Defined.
End RefreshWitness.
