(* ===== verification/Flight.v ===== *)
(** * Shared upstream work

    [src/flight.rs]: requests with the same work key share one exchange. The
    registry holds weak references and each caller a counted hold. Joins run
    under the registry's lock; holders leave, drop and finish beside them, so a
    join is a sequence of steps. The shared future itself is a library's: of it
    the model keeps the number of live clones and whether it has an output. *)
From S2P Require Import Prelude Net Std Names Dns Ecs Wire Protocol.
Set Default Goal Selector "!".
Set Warnings "-rewrite-rw".
Local Open Scope Z_scope.
Local Open Scope rust_scope.

(** ** Data *)
Record CoalescingConfig : Type := mkCoalescing { coalescing_enabled : bool; max_groups : nat; max_waiters : Z }.
Inductive Role : Type := Bypass | Leader | Joined.
(** A shared future with its group's flag and counter; [w_key] is the key it was registered under. *)
Record Work : Type := mkWork {
  w_key : option (list Z);
  w_sent : nat;
  strong : nat;
  output : bool;
  count : Z;
}.
(** [counted] until the hold leaves or drops, [attached] while its clone of the future lives. *)
Record Hold : Type := mkHold { h_work : nat; h_role : Role; h_sent : nat; counted : bool; attached : bool }.
(** The join under the lock, between two of its steps. *)
Inductive Joining : Type :=
  | Reaping (key : list Z) (sent : nat) (left_ : gset (list Z))
  | Found (w : nat)
  | Admitted_ (w : nat)
  | Leading (key : list Z) (sent : nat).
Record Flights : Type := mkFlights {
  groups : gmap (list Z) nat;
  works : gmap nat Work;
  holds : gmap nat Hold;
  joining : option Joining;
}.
Definition flights_new : Flights := mkFlights ∅ ∅ ∅ None.

Definition with_work (w : nat) (x : Work) (s : Flights) : Flights := mkFlights (groups s) (<[w := x]> (works s)) (holds s) (joining s).
Definition with_groups (g : gmap (list Z) nat) (s : Flights) : Flights := mkFlights g (works s) (holds s) (joining s).
Definition with_hold (h : nat) (x : Hold) (s : Flights) : Flights := mkFlights (groups s) (works s) (<[h := x]> (holds s)) (joining s).
Definition with_joining (j : option Joining) (s : Flights) : Flights := mkFlights (groups s) (works s) (holds s) j.
Definition clones (f : nat → nat) (x : Work) : Work := mkWork (w_key x) (w_sent x) (f (strong x)) (output x) (count x).
Definition counts (f : Z → Z) (x : Work) : Work := mkWork (w_key x) (w_sent x) (strong x) (output x) (f (count x)).
Definition finished (x : Work) : Work := mkWork (w_key x) (w_sent x) (strong x) true (count x).

(** ** Holds *)
(** [Hold::new] around a clone that exists; [h] is the new hold. *)
Definition hold_new (h w : nat) (role : Role) (s : Flights) : option Flights :=
  x ← works s !! w;
  Some (with_hold h (mkHold w role (w_sent x) true true) (with_work w (counts (λ n, as_u64 (n + 1)) x) s)).
(** [Hold::leave]; [true] is the last hold, which stays. *)
Definition leave (h : nat) (s : Flights) : option (bool * Flights) :=
  y ← holds s !! h;
  x ← works s !! h_work y;
  if bool_decide (count x > 1)
  then Some (false, with_hold h (mkHold (h_work y) (h_role y) (h_sent y) false (attached y)) (with_work (h_work y) (counts (λ n, n - 1) x) s))
  else Some (true, s).
(** [Drop for Hold], before its fields drop. *)
Definition drop_hold (h : nat) (s : Flights) : option Flights :=
  y ← holds s !! h;
  x ← works s !! h_work y;
  Some (with_hold h (mkHold (h_work y) (h_role y) (h_sent y) false (attached y)) (with_work (h_work y) (counts (λ n, as_u64 (n - 1)) x) s)).
(** The clone of an uncounted hold drops. *)
Definition release (h : nat) (s : Flights) : option Flights :=
  y ← holds s !! h;
  x ← works s !! h_work y;
  Some (mkFlights (groups s) (if attached y then <[h_work y := clones pred x]> (works s) else works s) (delete h (holds s)) (joining s)).
(** [Hold::result] returns: the clone that saw the output gives up the future. *)
Definition result (h : nat) (s : Flights) : option Flights :=
  y ← holds s !! h;
  x ← works s !! h_work y;
  Some (with_hold h (mkHold (h_work y) (h_role y) (h_sent y) (counted y) false) (with_work (h_work y) (finished (clones pred x)) s)).

(** ** [Flights::join] *)
Section join.
Context `{MessageLib} `{!DnsNames} (config : CoalescingConfig).
Definition group_key (query : Message) : V (option (list Z)) :=
  if coalescing_enabled config then canonical_work_key query else ret None.
(** [WeakShared::upgrade] *)
Definition upgrade (w : nat) (s : Flights) : option Work :=
  x ← works s !! w;
  if bool_decide (strong x = 0%nat) then None else Some x.
(** No key: the work is this caller's alone. *)
Definition join_bypass (w h sent : nat) (s : Flights) : option Flights :=
  hold_new h w Bypass (with_work w (mkWork None sent 1 false 0) s).
Definition join_lock (key : list Z) (sent : nat) (s : Flights) : option Flights :=
  match joining s with
  | None => Some (with_joining (Some (Reaping key sent (dom (groups s)))) s)
  | Some _ => None
  end.
(** The group [g] of [retain]. *)
Definition reap (g : list Z) (s : Flights) : Flights :=
  match groups s !! g ≫= λ w, upgrade w s with
  | Some x => if output x then with_groups (delete g (groups s)) s else s
  | None => with_groups (delete g (groups s)) s
  end.
Definition join_reap (g : list Z) (s : Flights) : option Flights :=
  match joining s with
  | Some (Reaping key sent todo) => if bool_decide (g ∈ todo) then Some (with_joining (Some (Reaping key sent (todo ∖ {[g]}))) (reap g s)) else None
  | _ => None
  end.
Definition join_lookup (s : Flights) : option Flights :=
  match joining s with
  | Some (Reaping key sent todo) =>
      if bool_decide (todo ≠ ∅) then None else
      Some match groups s !! key with
      | Some w =>
          match upgrade w s with
          | Some x => with_joining (Some (Found w)) (with_work w (clones S x) s)
          | None => with_joining (Some (Leading key sent)) s
          end
      | None => with_joining (Some (Leading key sent)) s
      end
  | _ => None
  end.
(** The waiter limit; a refused caller drops its clone. *)
Definition join_check (s : Flights) : option Flights :=
  match joining s with
  | Some (Found w) =>
      x ← works s !! w;
      Some (if bool_decide (max_waiters config ≤ count x) then with_joining None (with_work w (clones pred x) s)
            else with_joining (Some (Admitted_ w)) s)
  | _ => None
  end.
(** The join returns: [h] joins the work, or leads the new work [w] unless too many groups are registered. *)
Definition join_finish (w h : nat) (s : Flights) : option Flights :=
  match joining s with
  | Some (Admitted_ w) => hold_new h w Joined (with_joining None s)
  | Some (Leading key sent) =>
      if bool_decide (max_groups config ≤ size (groups s))%nat then Some (with_joining None s)
      else hold_new h w Leader (with_groups (<[key := w]> (groups s)) (with_work w (mkWork (Some key) sent 1 false 0) (with_joining None s)))
  | _ => None
  end.

(** ** Steps

    Identities of works and holds are never used again. *)
Definition unused (w h : nat) (s : Flights) : Prop := works s !! w = None ∧ holds s !! h = None.
Definition is_held (c a : bool) (h : nat) (s : Flights) : Prop := ∃ y, holds s !! h = Some y ∧ counted y = c ∧ (a = true → attached y = true).
Inductive step : Flights → Flights → Prop :=
  | step_bypass s s' query w h sent :
      unused w h s → (group_key query tt).1 = Ok None → join_bypass w h sent s = Some s' → step s s'
  | step_lock s s' query key sent :
      (group_key query tt).1 = Ok (Some key) → join_lock key sent s = Some s' → step s s'
  | step_reap s s' g : join_reap g s = Some s' → step s s'
  | step_lookup s s' : join_lookup s = Some s' → step s s'
  | step_check s s' : join_check s = Some s' → step s s'
  | step_join s s' w h : unused w h s → join_finish w h s = Some s' → step s s'
  | step_leave s s' h last_ : is_held true false h s → leave h s = Some (last_, s') → step s s'
  | step_drop s s' h : is_held true false h s → drop_hold h s = Some s' → step s s'
  | step_release s s' h : is_held false false h s → release h s = Some s' → step s s'
  | step_result s s' h : is_held true true h s → result h s = Some s' → step s s'.
End join.

(** ** Counting holds *)
Definition tally (P : Hold → bool) (m : gmap nat Hold) : nat := size (filter (λ p : nat * Hold, P p.2 = true) m).
Definition on (w : nat) (f : Hold → bool) (y : Hold) : bool := f y && bool_decide (h_work y = w).

Section tally.
Context (P : Hold → bool).
Lemma tally_empty : tally P ∅ = 0%nat.
Proof. unfold tally. by rewrite map_filter_empty map_size_empty. Qed.
Lemma tally_fresh m h y : m !! h = None → tally P (<[h := y]> m) = (tally P m + Nat.b2n (P y))%nat.
Proof.
  intros Hm. unfold tally. destruct (P y) eqn:E; simpl.
  - rewrite map_filter_insert_True // map_size_insert_None; [lia|]. apply map_lookup_filter_None. left. done.
  - rewrite map_filter_insert_not' /=; [lia| |congruence]. intros y'. congruence.
Qed.
Lemma tally_delete m h y : m !! h = Some y → tally P m = (tally P (delete h m) + Nat.b2n (P y))%nat.
Proof.
  intros Hm. rewrite -{1}(insert_delete_id m h y Hm). apply tally_fresh. apply lookup_delete_eq.
Qed.
Lemma tally_update m h y y' :
  m !! h = Some y → (tally P (<[h := y']> m) + Nat.b2n (P y) = tally P m + Nat.b2n (P y'))%nat.
Proof.
  intros Hm. rewrite (tally_delete m h y Hm) -(insert_delete_eq m h y') tally_fresh; [lia|apply lookup_delete_eq].
Qed.
Lemma tally_pos m h y : m !! h = Some y → P y = true → (0 < tally P m)%nat.
Proof. intros Hm Hy. rewrite (tally_delete m h y Hm) Hy /=. lia. Qed.
Lemma tally_one m h y h' y' : m !! h = Some y → P y = true → m !! h' = Some y' → P y' = true → tally P m = 1%nat → h' = h.
Proof.
  intros Hm Hy Hm' Hy' Ht. destruct (decide (h' = h)) as [|Hne]; [done|].
  rewrite (tally_delete m h y Hm) Hy /= in Ht. assert (0 < tally P (delete h m))%nat; [|lia].
  apply (tally_pos _ h' y'); [by rewrite lookup_delete_ne|done].
Qed.
Lemma tally_find m : (0 < tally P m)%nat → ∃ h y, m !! h = Some y ∧ P y = true.
Proof.
  unfold tally. intros Hs. destruct (map_choose (filter (λ p : nat * Hold, P p.2 = true) m)) as (h & y & Hy).
  - intros He. rewrite He map_size_empty in Hs. lia.
  - apply map_lookup_filter_Some in Hy as [Hy Hp]. by exists h, y.
Qed.
End tally.
Lemma tally_none P m : (∀ h y, m !! h = Some y → P y = false) → tally P m = 0%nat.
Proof.
  intros Hn. destruct (decide (tally P m = 0%nat)) as [|Hz]; [done|].
  destruct (tally_find P m) as (h & y & Hy & Hp); [lia|]. rewrite (Hn h y Hy) in Hp. done.
Qed.
Lemma on_other w w' f y : h_work y = w' → w' ≠ w → on w f y = false.
Proof. intros <- Hne. unfold on. rewrite bool_decide_false //. apply andb_false_r. Qed.
Lemma on_same f y : on (h_work y) f y = f y.
Proof. unfold on. rewrite bool_decide_true // andb_true_r //. Qed.

(** ** The invariant *)
Definition joining_work (j : option Joining) : option nat :=
  match j with Some (Found w) | Some (Admitted_ w) => Some w | _ => None end.
Section flights_ok.
Context (config : CoalescingConfig).
Record flights_ok (s : Flights) : Prop := {
  fo_groups : (size (groups s) ≤ max_groups config)%nat;
  fo_group k w : groups s !! k = Some w → ∃ x, works s !! w = Some x ∧ w_key x = Some k;
  fo_hold h y : holds s !! h = Some y → ∃ x, works s !! h_work y = Some x ∧ w_sent x = h_sent y;
  fo_count w x : works s !! w = Some x → count x = Z.of_nat (tally (on w counted) (holds s)) ∧ count x ≤ max_waiters config;
  fo_strong w x : works s !! w = Some x →
    strong x = (tally (on w attached) (holds s) + Nat.b2n (bool_decide (joining_work (joining s) = Some w)))%nat;
  fo_live k w x : works s !! w = Some x → w_key x = Some k → strong x ≠ 0%nat → output x = false → groups s !! k = Some w;
  fo_leading k sent w x : joining s = Some (Leading k sent) → works s !! w = Some x → w_key x = Some k → strong x = 0%nat ∨ output x = true;
  fo_joining w : joining_work (joining s) = Some w → ∃ x, works s !! w = Some x ∧ is_Some (w_key x);
  fo_admitted w x : joining s = Some (Admitted_ w) → works s !! w = Some x → count x < max_waiters config;
}.
Lemma fo_unused s w h f : flights_ok s → works s !! w = None → holds s !! h = None → tally (on w f) (holds s) = 0%nat.
Proof.
  intros Hs Hw _. apply tally_none. intros h' y Hy. destruct (fo_hold s Hs h' y Hy) as (x & Hx & _).
  apply (on_other w (h_work y)); [done|congruence].
Qed.
Lemma fo_hold_count s h y x : flights_ok s → holds s !! h = Some y → works s !! h_work y = Some x → counted y = true → 1 ≤ count x.
Proof.
  intros Hs Hy Hx Hc. destruct (fo_count s Hs _ _ Hx) as [-> _].
  assert (0 < tally (on (h_work y) counted) (holds s))%nat; [|lia]. apply (tally_pos _ _ h y Hy). by rewrite on_same.
Qed.

(** A hold changes beside its work: it may stop being counted or attached. *)
Lemma touch_ok s h y y' x x' :
  flights_ok s → holds s !! h = Some y → works s !! h_work y = Some x →
  h_work y' = h_work y → h_sent y' = h_sent y → w_key x' = w_key x → w_sent x' = w_sent x →
  count x' + Z.b2z (counted y) = count x + Z.b2z (counted y') → (counted y' = true → counted y = true) →
  (strong x' + Nat.b2n (attached y) = strong x + Nat.b2n (attached y'))%nat → (attached y' = true → attached y = true) →
  (output x = true → output x' = true) →
  flights_ok (with_hold h y' (with_work (h_work y) x' s)).
Proof.
  intros Hs Hy Hx Hw Hsent Hk Hf Hc Hcc Hst Hat Ho.
  assert (count x' ≤ count x) as Hle by (destruct (counted y'); [rewrite Hcc // in Hc|destruct (counted y)]; simpl in *; lia).
  assert (strong x = 0%nat → strong x' = 0%nat) as Hz by (destruct (attached y'); [rewrite Hat // in Hst|destruct (attached y)]; simpl in *; lia).
  assert (strong x' ≠ 0%nat → output x' = false → strong x ≠ 0%nat ∧ output x = false) as Hlive
    by (intros Ha Hb; split; [intros E; by apply Ha, Hz|destruct (output x); [by rewrite Ho in Hb|done]]).
  assert (∀ w f, (tally (on w f) (<[h:=y']> (holds s)) + Nat.b2n (on w f y) = tally (on w f) (holds s) + Nat.b2n (on w f y'))%nat) as Ht
    by (intros; by apply tally_update).
  split; simpl.
  - apply Hs.
  - intros k w Hg. destruct (fo_group s Hs k w Hg) as (x0 & Hx0 & <-). destruct (decide (w = h_work y)) as [->|].
    + exists x'. rewrite lookup_insert_eq. split; [done|]. rewrite Hx0 in Hx. injection Hx as ->. by rewrite Hk.
    + exists x0. by rewrite lookup_insert_ne.
  - intros h' y0 Hy0. assert (∃ y1, holds s !! h' = Some y1 ∧ h_work y1 = h_work y0 ∧ h_sent y1 = h_sent y0) as (y1 & Hy1 & <- & <-).
    { apply lookup_insert_Some in Hy0 as [[<- <-]|[_ Hy0]]; eauto. }
    destruct (fo_hold s Hs h' y1 Hy1) as (x0 & Hx0 & <-). destruct (decide (h_work y1 = h_work y)) as [E|].
    + exists x'. rewrite E lookup_insert_eq. split; [done|]. rewrite E Hx in Hx0. injection Hx0 as <-. by rewrite Hf.
    + exists x0. by rewrite lookup_insert_ne.
  - intros w x0 Hx0. specialize (Ht w counted). apply lookup_insert_Some in Hx0 as [[<- <-]|[Hne Hx0]].
    + rewrite on_same -Hw on_same in Ht. destruct (fo_count s Hs _ _ Hx) as [Hn Hm]. rewrite Hw in Ht.
      destruct (counted y), (counted y'); simpl in *; lia.
    + rewrite !(on_other w (h_work y)) // in Ht. destruct (fo_count s Hs _ _ Hx0) as [Hn Hm]. simpl in Ht. lia.
  - intros w x0 Hx0. specialize (Ht w attached). apply lookup_insert_Some in Hx0 as [[<- <-]|[Hne Hx0]].
    + rewrite on_same -Hw on_same in Ht. pose proof (fo_strong s Hs _ _ Hx) as Hn. rewrite Hw in Ht. lia.
    + rewrite !(on_other w (h_work y)) // in Ht. pose proof (fo_strong s Hs _ _ Hx0) as Hn. simpl in Ht. lia.
  - intros k w x0 Hx0. apply lookup_insert_Some in Hx0 as [[<- <-]|[_ Hx0]]; [|by eapply fo_live].
    intros Hk0 Hs0 Ho0. destruct (Hlive Hs0 Ho0). eapply fo_live; [done..| |done|done]. congruence.
  - intros k sent w x0 Hj Hx0. apply lookup_insert_Some in Hx0 as [[<- <-]|[_ Hx0]]; [|by eapply fo_leading].
    intros Hk0. destruct (fo_leading s Hs k sent _ x Hj Hx ltac:(congruence)); [left; by apply Hz|right; by apply Ho].
  - intros w Hj. destruct (fo_joining s Hs w Hj) as (x0 & Hx0 & ?). destruct (decide (w = h_work y)) as [->|].
    + exists x'. rewrite lookup_insert_eq. split; [done|]. rewrite Hx0 in Hx. injection Hx as ->. by rewrite Hk.
    + exists x0. by rewrite lookup_insert_ne.
  - intros w x0 Hj Hx0. apply lookup_insert_Some in Hx0 as [[<- <-]|[_ Hx0]]; [|by eapply fo_admitted].
    pose proof (fo_admitted s Hs _ x Hj Hx). lia.
Qed.

Lemma forget_ok s h y :
  flights_ok s → holds s !! h = Some y → counted y = false → attached y = false →
  flights_ok (mkFlights (groups s) (works s) (delete h (holds s)) (joining s)).
Proof.
  intros Hs Hy Hc Ha.
  assert (∀ w f, f y = false → tally (on w f) (delete h (holds s)) = tally (on w f) (holds s)) as Ht.
  { intros w f Hf. rewrite (tally_delete _ (holds s) h y Hy). unfold on at 3. rewrite Hf /=. lia. }
  destruct Hs as [? ? Hh Hco Hst ? ? ? ?]. split; simpl; try done.
  - intros h' y' [_ Hy']%lookup_delete_Some. by apply (Hh h').
  - intros w x Hx. rewrite Ht //. by apply Hco.
  - intros w x Hx. rewrite Ht //. by apply Hst.
Qed.
Lemma joining_ok s j :
  flights_ok s → joining_work j = joining_work (joining s) →
  (∀ k sent w x, j = Some (Leading k sent) → works s !! w = Some x → w_key x = Some k → strong x = 0%nat ∨ output x = true) →
  (∀ w x, j = Some (Admitted_ w) → works s !! w = Some x → count x < max_waiters config) →
  flights_ok (with_joining j s).
Proof. intros [? ? ? ? ? ? ? ? ?] Hj Hl Ha. split; simpl; rewrite ?Hj //. Qed.
(** The joiner takes a clone, or gives it up. *)
Lemma clone_ok s w x n j :
  flights_ok s → works s !! w = Some x → strong x ≠ 0%nat → is_Some (w_key x) →
  (n + Nat.b2n (bool_decide (joining_work (joining s) = Some w)) = strong x + Nat.b2n (bool_decide (joining_work j = Some w)))%nat →
  (∀ w', w' ≠ w → joining_work (joining s) ≠ Some w' ∧ joining_work j ≠ Some w') →
  match j with None | Some (Found _) => True | _ => False end →
  flights_ok (with_joining j (with_work w (clones (λ _, n) x) s)).
Proof.
  intros Hs Hx Hx0 Hk Hn Hj Hjj.
  assert (∀ w' x', <[w:=clones (λ _, n) x]> (works s) !! w' = Some x' → ∃ x0, works s !! w' = Some x0 ∧
    w_key x' = w_key x0 ∧ count x' = count x0 ∧ output x' = output x0 ∧ (strong x0 = strong x' ∧ w ≠ w' ∨ x0 = x ∧ w = w' ∧ strong x' = n)) as Hw.
  { intros w' x' Hx'. apply lookup_insert_Some in Hx' as [[<- <-]|[? ?]]; eexists; (split; [done|]); naive_solver. }
  assert (∀ w' x0, works s !! w' = Some x0 → ∃ x', <[w:=clones (λ _, n) x]> (works s) !! w' = Some x' ∧ w_key x' = w_key x0 ∧ w_sent x' = w_sent x0) as Hw'.
  { intros w' x0 Hx'. destruct (decide (w = w')) as [<-|Hne].
    - rewrite Hx in Hx'. injection Hx' as <-. rewrite lookup_insert_eq. by eexists.
    - rewrite lookup_insert_ne //. by eexists. }
  split; simpl.
  - apply Hs.
  - intros k w' (x0 & Hx' & <-)%(fo_group s Hs). destruct (Hw' _ _ Hx') as (x' & ? & ? & _). by exists x'.
  - intros h y (x0 & Hx' & <-)%(fo_hold s Hs). destruct (Hw' _ _ Hx') as (x' & ? & _ & ?). by exists x'.
  - intros w' x' (x0 & Hx' & _ & -> & _)%Hw. by apply (fo_count s Hs).
  - intros w' x' (x0 & Hx' & _ & _ & _ & [[<- Hne]|(-> & <- & ->)])%Hw.
    + rewrite (fo_strong s Hs _ _ Hx'). destruct (Hj w') as [??]; [done|]. by rewrite !bool_decide_false.
    + pose proof (fo_strong s Hs _ _ Hx). lia.
  - intros k w' x' (x0 & Hx' & -> & _ & -> & Hst)%Hw Hk' Hs' Ho. eapply (fo_live s Hs k w' x0); try done.
    destruct Hst as [[-> _]|(-> & _)]; done.
  - intros k sent w' x' ->. done.
  - intros w' Hw0. destruct (decide (w' = w)) as [->|Hne]; [|by destruct (Hj w')].
    destruct (Hw' _ _ Hx) as (x' & ? & Hk' & _). exists x'. by rewrite Hk'.
  - intros w' x' ->. done.
Qed.
Lemma reap_ok s g : flights_ok s → flights_ok (reap g s).
Proof.
  intros Hs. assert ((∀ w x, works s !! w = Some x → w_key x = Some g → strong x ≠ 0%nat → output x = true) →
    flights_ok (with_groups (delete g (groups s)) s)) as Hdel.
  { intros Hg. pose proof (fo_live s Hs) as Hl. destruct Hs as [Hsz Hgr ? ? ? _ ? ? ?]. split; simpl; try done.
    - pose proof (map_subseteq_size _ _ (delete_subseteq (groups s) g)). lia.
    - intros k w [_ Hk]%lookup_delete_Some. by apply Hgr.
    - intros k w x Hx Hk H0 Ho. rewrite lookup_delete_ne; [by eapply Hl|]. intros ->.
      rewrite (Hg w x) // in Ho. }
  unfold reap, upgrade. destruct (groups s !! g) as [w|] eqn:Eg; simpl.
  - destruct (fo_group s Hs g w Eg) as (x & Hx & Hk). rewrite Hx /=.
    assert (∀ w' x', works s !! w' = Some x' → w_key x' = Some g → strong x' ≠ 0%nat → output x' = true ∨ w' = w ∧ x' = x) as Huniq.
    { intros w' x' Hx' Hk' Hs'. destruct (output x') eqn:Eo; [by left|right].
      pose proof (fo_live s Hs g w' x' Hx' Hk' Hs' Eo) as Hg. rewrite Eg in Hg. injection Hg as <-. split; [done|congruence]. }
    case_bool_decide as Hz; [|destruct (output x) eqn:Ho; [|done]]; apply Hdel; intros w' x' Hx' Hk' Hs';
      destruct (Huniq w' x' Hx' Hk' Hs') as [|[-> ->]]; done.
  - apply Hdel. intros w x Hx Hk Hs'. destruct (output x) eqn:Eo; [done|].
    pose proof (fo_live s Hs g w x Hx Hk Hs' Eo). congruence.
Qed.

(** ** New holds *)
Definition limits_sane : Prop := 1 ≤ max_waiters config ≤ 65536.
Lemma tally_new s h w role sent w' f :
  holds s !! h = None → f (mkHold w role sent true true) = true →
  tally (on w' f) (<[h := mkHold w role sent true true]> (holds s)) =
    (tally (on w' f) (holds s) + Nat.b2n (bool_decide (w = w')))%nat.
Proof.
  intros Hh Hf. rewrite tally_fresh //. f_equal. unfold on. by rewrite Hf.
Qed.
Lemma join_ok s w h x :
  flights_ok s → limits_sane → joining s = Some (Admitted_ w) → works s !! w = Some x → holds s !! h = None →
  flights_ok (with_hold h (mkHold w Joined (w_sent x) true true) (with_work w (counts (λ n, as_u64 (n + 1)) x) (with_joining None s))).
Proof.
  intros Hs Hl Hj Hx Hh. pose proof (fo_admitted s Hs w x Hj Hx) as Hlt. destruct (fo_count s Hs w x Hx) as [Hn _].
  assert (as_u64 (count x + 1) = count x + 1) as Hu by (apply as_u64_small; unfold limits_sane, u64_max in *; lia).
  assert (∀ w' x', <[w:=counts (λ n, as_u64 (n + 1)) x]> (works s) !! w' = Some x' → ∃ x0, works s !! w' = Some x0 ∧
    w_key x' = w_key x0 ∧ strong x' = strong x0 ∧ output x' = output x0 ∧ count x' = count x0 + Z.b2z (bool_decide (w = w')) ∧
    (w = w' → x0 = x)) as Hw.
  { intros w' x' Hx'. apply lookup_insert_Some in Hx' as [[<- <-]|[? ?]].
    - exists x. rewrite bool_decide_true //= Hu //.
    - exists x'. rewrite bool_decide_false //= Z.add_0_r. done. }
  assert (∀ w' x0, works s !! w' = Some x0 → ∃ x', <[w:=counts (λ n, as_u64 (n + 1)) x]> (works s) !! w' = Some x' ∧ w_key x' = w_key x0 ∧ w_sent x' = w_sent x0) as Hw'.
  { intros w' x0 Hx'. destruct (decide (w = w')) as [<-|Hne].
    - rewrite Hx in Hx'. injection Hx' as <-. rewrite lookup_insert_eq. by eexists.
    - rewrite lookup_insert_ne //. by eexists. }
  split; simpl; try done.
  - apply Hs.
  - intros k w' (x0 & Hx' & <-)%(fo_group s Hs). destruct (Hw' _ _ Hx') as (x' & ? & ? & _). by exists x'.
  - intros h' y Hy. apply lookup_insert_Some in Hy as [[<- <-]|[_ Hy]]; simpl; [rewrite lookup_insert_eq; by eexists|].
    destruct (fo_hold s Hs h' y Hy) as (x0 & Hx' & <-). destruct (Hw' _ _ Hx') as (x' & ? & _ & ?). by exists x'.
  - intros w' x' (x0 & Hx' & _ & _ & _ & -> & Hxx)%Hw. rewrite (tally_new s h w) //.
    destruct (fo_count s Hs w' x0 Hx') as [Hc Hm]. destruct (decide (w = w')) as [<-|Hne].
    + rewrite bool_decide_true //=. rewrite (Hxx eq_refl) in Hc |- *. lia.
    + rewrite bool_decide_false //=. lia.
  - intros w' x' (x0 & Hx' & _ & -> & _)%Hw. rewrite (tally_new s h w) // (fo_strong s Hs _ _ Hx') Hj /=.
    destruct (decide (w = w')) as [<-|Hne]; repeat case_bool_decide; simplify_eq; simpl; lia.
  - intros k w' x' (x0 & Hx' & -> & -> & -> & _)%Hw. by apply (fo_live s Hs).
Qed.
Lemma lead_ok s w h key sent role :
  flights_ok s → limits_sane → works s !! w = None → holds s !! h = None →
  (∀ k, key = Some k → joining s = None ∧ (size (groups s) < max_groups config)%nat ∧
    ∀ w' x', works s !! w' = Some x' → w_key x' = Some k → strong x' = 0%nat ∨ output x' = true) →
  flights_ok (mkFlights (match key with Some k => <[k := w]> (groups s) | None => groups s end)
    (<[w := mkWork key sent 1 false 1]> (works s)) (<[h := mkHold w role sent true true]> (holds s)) (joining s)).
Proof.
  intros Hs Hl Hw Hh Hk.
  assert (∀ w' x', works s !! w' = Some x' → <[w:=mkWork key sent 1 false 1]> (works s) !! w' = Some x') as Hold.
  { intros w' x' Hx'. rewrite lookup_insert_ne //. intros <-. congruence. }
  assert (∀ f, tally (on w f) (holds s) = 0%nat) as H0 by (intros f; by eapply fo_unused).
  split; simpl.
  - destruct key as [k|]; [|apply Hs]. destruct (Hk k eq_refl) as (_ & Hsz & _). rewrite map_size_insert. case_match; simpl; lia.
  - intros k w' Hg. assert (key = Some k ∧ w' = w ∨ groups s !! k = Some w') as [[-> ->]|(x' & Hx' & <-)%(fo_group s Hs)].
    { destruct key as [k'|]; [|by right]. apply lookup_insert_Some in Hg as [[<- <-]|[_ Hg]]; [by left|by right]. }
    + rewrite lookup_insert_eq. by eexists.
    + exists x'. split; [by apply Hold|done].
  - intros h' y Hy. apply lookup_insert_Some in Hy as [[<- <-]|[_ (x0 & Hx' & <-)%(fo_hold s Hs)]]; simpl.
    + rewrite lookup_insert_eq. by eexists.
    + exists x0. split; [by apply Hold|done].
  - intros w' x' Hx'. rewrite (tally_new s h w) //. apply lookup_insert_Some in Hx' as [[<- <-]|[Hne Hx']].
    + rewrite H0 bool_decide_true //=. unfold limits_sane in Hl. lia.
    + rewrite bool_decide_false // Nat.add_0_r. by apply (fo_count s Hs).
  - intros w' x' Hx'. rewrite (tally_new s h w) //. apply lookup_insert_Some in Hx' as [[<- <-]|[Hne Hx']].
    + rewrite H0 bool_decide_true //= bool_decide_false //. intros (x0 & ? & _)%(fo_joining s Hs). congruence.
    + rewrite bool_decide_false // Nat.add_0_r. by apply (fo_strong s Hs).
  - intros k w' x' Hx' Hk' Hs' Ho. apply lookup_insert_Some in Hx' as [[<- <-]|[Hne Hx']].
    + simpl in Hk'. rewrite Hk' lookup_insert_eq //.
    + pose proof (fo_live s Hs k w' x' Hx' Hk' Hs' Ho) as Hg. destruct key as [k'|]; [|done].
      rewrite lookup_insert_ne //. intros ->. destruct (Hk k eq_refl) as (_ & _ & Hd).
      destruct (Hd w' x' Hx' Hk'); congruence.
  - intros k sent' w' x' Hj Hx' Hk'. apply lookup_insert_Some in Hx' as [[<- <-]|[Hne Hx']].
    + simpl in Hk'. destruct (Hk k Hk') as (? & _). congruence.
    + by eapply (fo_leading s Hs).
  - intros w' (x0 & Hx' & ?)%(fo_joining s Hs). exists x0. split; [by apply Hold|done].
  - intros w' x' Hj Hx'. apply lookup_insert_Some in Hx' as [[<- <-]|[Hne Hx']]; [|by eapply (fo_admitted s Hs)].
    destruct (fo_joining s Hs w) as (x0 & ? & _); [by rewrite Hj|congruence].
Qed.
End flights_ok.

(** ** Every step keeps the invariant *)
Section steps.
Context `{MessageLib} `{!DnsNames} (config : CoalescingConfig) (sane : limits_sane config).
Notation ok := (flights_ok config).

Lemma new_ok : ok flights_new.
Proof.
  split; simpl; try done; try (intros *; rewrite lookup_empty; done).
  rewrite map_size_empty. lia.
Qed.
Lemma count_sane s h y x :
  ok s → holds s !! h = Some y → works s !! h_work y = Some x → counted y = true → 1 ≤ count x ≤ 65536.
Proof.
  intros Hs Hy Hx Hc. pose proof (fo_hold_count config s h y x Hs Hy Hx Hc).
  destruct (fo_count _ s Hs _ _ Hx). unfold limits_sane in sane. lia.
Qed.
Lemma strong_pos s h y x :
  ok s → holds s !! h = Some y → works s !! h_work y = Some x → attached y = true → (1 ≤ strong x)%nat.
Proof.
  intros Hs Hy Hx Ha. rewrite (fo_strong _ s Hs _ _ Hx).
  pose proof (tally_pos (on (h_work y) attached) (holds s) h y Hy ltac:(by rewrite on_same)). lia.
Qed.
Lemma leave_ok s s' h last_ : ok s → is_held true false h s → leave h s = Some (last_, s') → ok s'.
Proof.
  intros Hs (y & Hy & Hc & _). unfold leave. rewrite Hy /=. destruct (works s !! h_work y) as [x|] eqn:Hx; [|done]. simpl.
  case_bool_decide; intros [= <- <-]; [|done]. eapply touch_ok; try done; simpl; rewrite ?Hc /=; lia.
Qed.
Lemma drop_ok s s' h : ok s → is_held true false h s → drop_hold h s = Some s' → ok s'.
Proof.
  intros Hs (y & Hy & Hc & _). unfold drop_hold. rewrite Hy /=. destruct (works s !! h_work y) as [x|] eqn:Hx; [|done]. simpl.
  intros [= <-]. pose proof (count_sane s h y x Hs Hy Hx Hc).
  eapply touch_ok; try done; simpl; rewrite ?Hc ?as_u64_small /=; (unfold u64_max; lia) || done.
Qed.
Lemma release_ok s s' h : ok s → is_held false false h s → release h s = Some s' → ok s'.
Proof.
  intros Hs (y & Hy & Hc & _). unfold release. rewrite Hy /=. destruct (works s !! h_work y) as [x|] eqn:Hx; [|done]. simpl.
  intros [= <-]. destruct (attached y) eqn:Ea.
  - pose proof (strong_pos s h y x Hs Hy Hx Ea) as Hp.
    assert (ok (with_hold h (mkHold (h_work y) (h_role y) (h_sent y) false false) (with_work (h_work y) (clones pred x) s))) as Hok.
    { eapply touch_ok; try done; simpl; rewrite ?Hc ?Ea /=; lia. }
    eapply (forget_ok _ _ h) in Hok; [|simpl; apply lookup_insert_eq|done..]. simpl in Hok. by rewrite delete_insert_eq in Hok.
  - by eapply forget_ok.
Qed.
Lemma result_ok s s' h : ok s → is_held true true h s → result h s = Some s' → ok s'.
Proof.
  intros Hs (y & Hy & Hc & Ha). specialize (Ha eq_refl). unfold result. rewrite Hy /=.
  destruct (works s !! h_work y) as [x|] eqn:Hx; [|done]. simpl. intros [= <-].
  pose proof (strong_pos s h y x Hs Hy Hx Ha). eapply touch_ok; try done; simpl; rewrite ?Ha /=; lia.
Qed.
Lemma bypass_ok s s' w h sent : ok s → unused w h s → join_bypass w h sent s = Some s' → ok s'.
Proof.
  intros Hs [Hw Hh]. unfold join_bypass, hold_new. simpl. rewrite lookup_insert_eq. simpl. intros [= <-].
  unfold with_hold, with_work. simpl. rewrite insert_insert_eq. eapply (lead_ok config s w h None); done.
Qed.
Lemma lock_ok s s' key sent : ok s → join_lock key sent s = Some s' → ok s'.
Proof.
  intros Hs. unfold join_lock. destruct (joining s) eqn:Ej; [done|]. intros [= <-]. apply joining_ok; by rewrite ?Ej.
Qed.
Lemma reap_step_ok s s' g : ok s → join_reap g s = Some s' → ok s'.
Proof.
  intros Hs. unfold join_reap. destruct (joining s) as [[key sent todo| | |]|] eqn:Ej; [|done..].
  case_bool_decide; [|done]. intros [= <-]. apply joining_ok; [by apply reap_ok| |done..].
  simpl. unfold reap. repeat case_match; simpl; by rewrite Ej.
Qed.
Lemma lookup_ok s s' : ok s → join_lookup s = Some s' → ok s'.
Proof.
  intros Hs. unfold join_lookup. destruct (joining s) as [[key sent todo| | |]|] eqn:Ej; [|done..].
  case_bool_decide; [done|]. intros [= <-].
  assert ((∀ w x, works s !! w = Some x → w_key x = Some key → strong x = 0%nat ∨ output x = true) →
    ok (with_joining (Some (Leading key sent)) s)) as Hlead.
  { intros Hd. apply joining_ok; [done|by rewrite Ej| |done]. intros k sent' w x [= <- <-]. apply Hd. }
  destruct (groups s !! key) as [w|] eqn:Eg.
  - destruct (fo_group _ s Hs key w Eg) as (x & Hx & Hk). unfold upgrade. rewrite Hx /=.
    case_bool_decide as Hz.
    + apply Hlead. intros w' x' Hx' Hk'. destruct (decide (strong x' = 0%nat)) as [|Hne]; [by left|right].
      destruct (output x') eqn:Eo; [done|]. pose proof (fo_live _ s Hs key w' x' Hx' Hk' Hne Eo). congruence.
    + apply (clone_ok config s w x (S (strong x))); [done..|by rewrite Hk|rewrite Ej /= bool_decide_true //=; lia| |done].
      intros w' Hne. rewrite Ej /=. naive_solver.
  - apply Hlead. intros w' x' Hx' Hk'. destruct (decide (strong x' = 0%nat)) as [|Hne]; [by left|right].
    destruct (output x') eqn:Eo; [done|]. pose proof (fo_live _ s Hs key w' x' Hx' Hk' Hne Eo). congruence.
Qed.
Lemma check_ok s s' : ok s → join_check config s = Some s' → ok s'.
Proof.
  intros Hs. unfold join_check. destruct (joining s) as [[|w| |]|] eqn:Ej; [done| |done..].
  destruct (works s !! w) as [x|] eqn:Hx; [|done]. simpl. intros [= <-].
  destruct (fo_joining _ s Hs w) as (x0 & Hx0 & Hk); [by rewrite Ej|]. rewrite Hx in Hx0. injection Hx0 as <-.
  pose proof (fo_strong _ s Hs w x Hx) as Hst. rewrite Ej /= bool_decide_true //= in Hst.
  case_bool_decide as Hc.
  - apply (clone_ok config s w x (pred (strong x))); [done|done|lia|done| |rewrite Ej; naive_solver|done].
    rewrite Ej /= bool_decide_true //=. lia.
  - apply joining_ok; [done|by rewrite Ej|done|]. intros w' x' [= <-] Hx'. rewrite Hx in Hx'. injection Hx' as <-. lia.
Qed.
Lemma finish_join_ok s s' w h : ok s → unused w h s → join_finish config w h s = Some s' → ok s'.
Proof.
  intros Hs [Hw Hh]. unfold join_finish. destruct (joining s) as [[| |w0|key sent]|] eqn:Ej; [done|done| | |done].
  - unfold hold_new. simpl. destruct (works s !! w0) as [x|] eqn:Hx; [|done]. simpl. intros [= <-]. by apply join_ok.
  - case_bool_decide as Hsz.
    + intros [= <-]. apply joining_ok; [done|by rewrite Ej|done..].
    + unfold hold_new. simpl. rewrite lookup_insert_eq. simpl. intros [= <-]. unfold with_hold, with_work. simpl.
      rewrite insert_insert_eq. eapply (lead_ok config (with_joining None s) w h (Some key)); [|done..|].
      * apply joining_ok; [done|by rewrite Ej|done..].
      * intros k [= <-]. simpl. split; [done|split; [lia|]]. intros w' x'. by eapply (fo_leading _ s Hs).
Qed.
Lemma flight_step_ok s s' : ok s → step config s s' → ok s'.
Proof.
  intros Hs Hst. revert Hs. destruct Hst; intros Hs; by eauto using leave_ok, drop_ok, release_ok, result_ok, bypass_ok, lock_ok, reap_step_ok, lookup_ok, check_ok, finish_join_ok.
Qed.
Lemma flights_reachable s : rtc (step config) flights_new s → ok s.
Proof. revert s. apply (rtc_ind_r (λ s, ok s)); [apply new_ok|]. intros. by eapply flight_step_ok. Qed.
End steps.

(** ** The promises of the registry *)
Section claims.
Context `{MessageLib} `{!DnsNames} (config : CoalescingConfig).
(** C39. In every reachable state, with joins, leaves, drops and completions
    interleaved: at most [max_groups] groups are registered; the counter of a
    work is the number of its counted holds and at most [max_waiters]; of one
    key at most one unfinished exchange is alive; a work that no hold and no
    join refers to is dropped, so nothing runs for nobody; a caller has the
    sent flag of the work it holds. A hold that leaves learns that it is the
    last exactly when no other holder remains, and then stays counted. *)
Theorem flights_safe s :
  limits_sane config → rtc (step config) flights_new s →
  (size (groups s) ≤ max_groups config)%nat ∧
  (∀ w x, works s !! w = Some x → count x = Z.of_nat (tally (on w counted) (holds s)) ∧ count x ≤ max_waiters config) ∧
  (∀ k w w' x x', works s !! w = Some x → works s !! w' = Some x' → w_key x = Some k → w_key x' = Some k →
     strong x ≠ 0%nat → output x = false → strong x' ≠ 0%nat → output x' = false → w = w') ∧
  (∀ w x, works s !! w = Some x → joining_work (joining s) ≠ Some w →
     (∀ h y, holds s !! h = Some y → h_work y = w → attached y = false) → strong x = 0%nat) ∧
  (∀ h y, holds s !! h = Some y → ∃ x, works s !! h_work y = Some x ∧ w_sent x = h_sent y) ∧
  (∀ h y, holds s !! h = Some y → counted y = true → ∃ last_ s', leave h s = Some (last_, s') ∧
     if last_ then s' = s ∧ ∀ h' y', holds s !! h' = Some y' → h_work y' = h_work y → counted y' = true → h' = h
     else ∃ h' y', holds s' !! h' = Some y' ∧ h_work y' = h_work y ∧ counted y' = true).
Proof.
  intros Hsane Hs. apply flights_reachable in Hs; [|done].
  refine (conj (fo_groups _ s Hs) (conj (fo_count _ s Hs) (conj _ (conj _ (conj (fo_hold _ s Hs) _))))).
  - intros k w w' x x' Hx Hx' Hk Hk' Ha Ho Ha' Ho'.
    pose proof (fo_live _ s Hs k w x Hx Hk Ha Ho). pose proof (fo_live _ s Hs k w' x' Hx' Hk' Ha' Ho'). congruence.
  - intros w x Hx Hj Ha. rewrite (fo_strong _ s Hs w x Hx) bool_decide_false //. rewrite tally_none //.
    intros h y Hy. unfold on. destruct (attached y) eqn:E; [|done]. simpl. apply bool_decide_eq_false. intros Hw.
    rewrite (Ha h y Hy Hw) in E. done.
  - intros h y Hy Hc. destruct (fo_hold _ s Hs h y Hy) as (x & Hx & _). unfold leave. rewrite Hy /= Hx /=.
    destruct (fo_count _ s Hs _ _ Hx) as [Hn _]. assert (on (h_work y) counted y = true) as Hon by by rewrite on_same.
    pose proof (fo_hold_count _ s h y x Hs Hy Hx Hc) as Hpos.
    case_bool_decide as Hgt; eexists _, _; (split; [reflexivity|]); simpl.
    + destruct (tally_find (on (h_work y) counted) (delete h (holds s))) as (h' & y' & [Hne Hy']%lookup_delete_Some & Hon').
      { rewrite (tally_delete _ _ h y Hy) Hon /= in Hn. lia. }
      apply andb_true_iff in Hon' as [? ?%bool_decide_eq_true]. exists h', y'. rewrite lookup_insert_ne //.
    + split; [done|]. intros h' y' Hy' Hw Hc'. eapply (tally_one (on (h_work y) counted) (holds s) h y h' y'); try done.
      * rewrite -Hw on_same //.
      * lia.
Qed.
End claims.

Module FlightWitness.
Import DnsWitness.
#[local] Existing Instance names.
#[local] Existing Instance dns_names.
Definition lib : MessageLib := messages (λ _, Some [7]) (λ _, None).
#[local] Existing Instance lib.
Definition config : CoalescingConfig := mkCoalescing true 2 2.
Definition query : Message := mkMessage 9 false 0 false false true false false false 0 [mkQuery [[97]] 1 1] [] [] [] None None.
Definition then_ (f : Flights → option Flights) (s : Flights) : Flights := default s (f s).
(** One caller leads the work, the other joins it. *)
Definition led : Flights :=
  then_ (join_finish config 0 0) (then_ join_lookup (then_ (join_lock [7] 4) flights_new)).
Definition joined : Flights :=
  then_ (join_finish config 1 1) (then_ (join_check config) (then_ join_lookup (then_ (join_reap [7]) (then_ (join_lock [7] 5) led)))).
Lemma led_reached : rtc (step config) flights_new led.
Proof.
  eapply rtc_l; [apply (step_lock config _ (then_ (join_lock [7] 4) flights_new) query [7] 4); vm_compute; reflexivity|].
  eapply rtc_l; [apply (step_lookup config _ (then_ join_lookup (then_ (join_lock [7] 4) flights_new))); vm_compute; reflexivity|].
  eapply rtc_l; [|apply rtc_refl]. apply (step_join config _ _ 0 0); [by split|vm_compute; reflexivity].
Qed.
Lemma joined_reached : rtc (step config) flights_new joined.
Proof.
  etrans; [apply led_reached|]. unfold joined. set (s := led).
  eapply rtc_l; [apply (step_lock config s (then_ (join_lock [7] 5) s) query [7] 5); vm_compute; reflexivity|].
  eapply rtc_l; [apply (step_reap config _ (then_ (join_reap [7]) (then_ (join_lock [7] 5) s)) [7]); vm_compute; reflexivity|].
  eapply rtc_l; [apply (step_lookup config _ (then_ join_lookup (then_ (join_reap [7]) (then_ (join_lock [7] 5) s)))); vm_compute; reflexivity|].
  eapply rtc_l; [apply (step_check config _ (then_ (join_check config) (then_ join_lookup (then_ (join_reap [7]) (then_ (join_lock [7] 5) s))))); vm_compute; reflexivity|].
  eapply rtc_l; [|apply rtc_refl]. apply (step_join config _ _ 1 1); [by split|vm_compute; reflexivity].
Qed.
Lemma flights_safe_witness :
  (count <$> works joined !! 0%nat) = Some 2 ∧ size (groups joined) = 1%nat ∧ (h_sent <$> holds joined !! 1%nat) = Some 4%nat ∧
  ∃ s, leave 0 joined = Some (false, s) ∧ ∃ h y, holds s !! h = Some y ∧ h_work y = 0%nat ∧ counted y = true.
Proof.
  split; [by vm_compute|split; [by vm_compute|split; [by vm_compute|]]].
  destruct (flights_safe config joined ltac:(split; simpl; lia) joined_reached) as (_ & _ & _ & _ & _ & Hl).
  destruct (Hl 0%nat (mkHold 0 Leader 4 true true) ltac:(by vm_compute) eq_refl) as (last_ & s & Hrun & Hlast).
  assert (fst <$> leave 0 joined = Some false) as E by by vm_compute.
  rewrite Hrun in E. injection E as ->. exists s. split; [exact Hrun|exact Hlast].
Defined.
End FlightWitness.
