(* ===== verification/Resolver.v ===== *)
(** * The request pipeline

    [src/resolver.rs]: one request from its decoded message to its reply:
    client subnet, policy, cache, shared exchange with a privacy retry, stale
    fallback, policy again, and the client's view of the answer. What the other
    tasks and the network do between its steps is the environment. *)
From S2P Require Import Prelude Net Std Names Lru Canonical Radix RadixBuild RadixLookup Dns Ecs Wire Protocol CacheData Sharing CacheStore Cache BlockAnswer Policy.
Set Default Goal Selector "!".
Set Warnings "-rewrite-rw".
Local Open Scope Z_scope.
Local Open Scope rust_scope.

(** ** Data *)
(** [Source], as far as the pipeline sees which one it is. *)
Inductive Source : Type := Forward_ | Recursive_.
Inductive FlightRole : Type := RoleBypass | RoleLeader | RoleJoined.
Inductive Relation_ : Type := RLeader | RFollower | RBypass | RPrefetchFollower.
Inductive Counter : Type :=
  | CacheHits | CacheMisses | QueryBlocked | ResponseBlocked | UpstreamFailures | UpstreamTimeouts | EcsRetries
  | FlightLeaders | FlightJoined | FlightRejected | FlightBypassed
  | ResponsesNoerror | ResponsesNxdomain | ResponsesServfail | ResponsesRefused | ResponsesOther | Dropped | Completed | Cancelled.
Inductive Metric : Type := Inc (c : Counter) | CacheLookup (d : LookupDecision) | CacheStored (d : StoreDecision).
(** [trace.cache] *)
Inductive CacheTag : Type := TBlocked | TServfail | TFresh | TStale | TError | TUpstream.
Definition flight_counter (r : FlightRole) : Counter :=
  match r with RoleBypass => FlightBypassed | RoleLeader => FlightLeaders | RoleJoined => FlightJoined end.

Section resolver.
Context {SL : SliceLib} `{MessageLib} `{!DnsNames} `{!NameParse} `{IpNetLib} `{LruLib} `{!Layout} `{!RDataLib} `{!Sha256Lib} `{!DecoderLib}.

(** The answer of an exchange; [a_response] is [None] for [Err(())]. *)
Record WorkAnswer : Type := mkAnswer {
  a_response : option (Message * option Z);
  a_stale_eligible : bool;
  a_admitted : bool;
  a_upstream : option (list Z);
  a_outgoing_ecs : option ClientSubnet;
  a_cached : bool;
  a_cache_store : option StoreDecision;
  a_cache_scope : option Scope;
  a_prefetch : bool;
}.
Record Trace : Type := mkQueryTrace {
  t_cache : option CacheTag;
  t_block : option BlockTrace;
  t_lookup : option LookupDecision;
  t_scope : option Scope;
  t_answer : option WorkAnswer;
  t_relation : option Relation_;
}.
Definition trace_default : Trace := mkQueryTrace None None None None None None.
Record Reply_ : Type := mkReply { message : Message; reply_udp_limit : Z; padding : Padding }.
(** [Exchange]: the request it works for and what it sends. *)
Record Work : Type := mkWork { query : Message; context : Context_; outbound : Message; w_epoch : Z }.
Record ExchangeReply : Type := mkExchangeReply { x_message : Message; x_upstream : list Z }.
(** An admission: what was offered to the cache, under which epoch, and the decision. *)
Record Stored_ : Type := mkStored_ {
  sd_response : Message;
  sd_scope : Scope;
  sd_failure : option Failure;
  sd_epoch : Z;
  sd_current : Z;
  sd_decision : StoreDecision;
}.

(** ** The environment

    Numbered by the turns of the request: what others do to the cache before a
    turn, the clock, what the network answers ([inl true] is an elapsed
    deadline), and what [Flights::join] returns: refused, own work, or the
    answer of the work of another request. *)
Inductive JoinResult : Type := JRejected | JOwn (r : FlightRole) | JJoined (a : WorkAnswer).
Record Env : Type := mkEnv {
  others : nat → Cache → Cache;
  clock : nat → Z;
  exchange : nat → Message → bool + ExchangeReply;
  join : nat → Message → JoinResult;
}.
(** [asked], [stores], [refreshes] and [metrics] record what the request did. *)
Record World : Type := mkWorld {
  cache : Cache;
  turn : nat;
  asked : list Message;
  stores : list Stored_;
  refreshes : list Message;
  metrics : list Metric;
  trace : Trace;
}.
Definition W (A : Type) : Type := M World unit A.
Definition world_start (c : Cache) : World := mkWorld c 0 [] [] [] [] trace_default.
Definition modify_world (f : World → World) : W unit := let* w := get in put (f w).
Definition record_metric (x : Metric) : W unit :=
  modify_world (λ w, mkWorld (cache w) (turn w) (asked w) (stores w) (refreshes w) (metrics w ++ [x]) (trace w)).
Definition inc (c : Counter) : W unit := record_metric (Inc c).
Definition traced (f : Trace → Trace) : W unit :=
  modify_world (λ w, mkWorld (cache w) (turn w) (asked w) (stores w) (refreshes w) (metrics w) (f (trace w))).
Definition trace_cache (c : CacheTag) : W unit :=
  traced (λ t, mkQueryTrace (Some c) (t_block t) (t_lookup t) (t_scope t) (t_answer t) (t_relation t)).
Definition trace_block (b : BlockTrace) : W unit :=
  traced (λ t, mkQueryTrace (t_cache t) (Some b) (t_lookup t) (t_scope t) (t_answer t) (t_relation t)).
Definition trace_lookup (d : LookupDecision) : W unit :=
  traced (λ t, mkQueryTrace (t_cache t) (t_block t) (Some d) (t_scope t) (t_answer t) (t_relation t)).
Definition trace_scope (s : Scope) : W unit :=
  traced (λ t, mkQueryTrace (t_cache t) (t_block t) (t_lookup t) (Some s) (t_answer t) (t_relation t)).
Definition trace_answer (a : WorkAnswer) : W unit :=
  traced (λ t, mkQueryTrace (t_cache t) (t_block t) (t_lookup t) (a_cache_scope a) (Some a) (t_relation t)).
Definition trace_relation (r : Relation_) : W unit :=
  traced (λ t, mkQueryTrace (t_cache t) (t_block t) (t_lookup t) (t_scope t) (t_answer t) (Some r)).
(** A computation that cannot return an error. *)
Definition infallible {E A} (m : M unit E A) : W A :=
  match (m tt).1 with Ok a => ret a | Err _ => panic | Panic => panic | Diverge => diverge end.

Section env.
Context (env : Env) (source : Source).
(** One operation on the cache, after whatever others did to it. *)
Definition during {A} (m : Z → CM A) : W A := λ w,
  let (r, c) := m (clock env (turn w)) (others env (turn w) (cache w)) in
  (r, mkWorld c (S (turn w)) (asked w) (stores w) (refreshes w) (metrics w) (trace w)).
(** [Source::exchange] *)
Definition ask (m : Message) : W (bool + ExchangeReply) := λ w,
  (Ok (exchange env (turn w) m), mkWorld (cache w) (S (turn w)) (asked w ++ [m]) (stores w) (refreshes w) (metrics w) (trace w)).
Definition join_flight (m : Message) : W JoinResult := λ w,
  (Ok (join env (turn w) m), mkWorld (cache w) (S (turn w)) (asked w) (stores w) (refreshes w) (metrics w) (trace w)).
(** [refresh.schedule]: the background task is one of the others. *)
Definition schedule_refresh (m : Message) : W unit :=
  modify_world (λ w, mkWorld (cache w) (turn w) (asked w) (stores w) (refreshes w ++ [m]) (metrics w) (trace w)).

(** ** The source's word *)
Definition EDE_DNSSEC_BOGUS : Z := 6.
Definition is_bogus (response : Message) : bool :=
  bool_decide (response_code response = ServFail) &&
  match edns response ≫= λ e, opt_get EXTENDED_ERROR (options e) with
  | Some (Unknown _ data) => bool_decide (2 ≤ length data)%nat && bool_decide (take 2 data = be_bytes 2 EDE_DNSSEC_BOGUS)
  | _ => false
  end.
Definition validation_failed (response : Message) : bool :=
  match source with Recursive_ => is_bogus response | Forward_ => false end.
Definition authenticates : bool := match source with Recursive_ => true | Forward_ => false end.
Definition authentic (query : Message) (validated : bool) : bool :=
  authenticates && validated &&
  (authentic_data query || match edns query with Some e => dnssec_ok e | None => false end).

(** ** [Exchange::run] *)
Definition anonymous (c : ClientSubnet) : ClientSubnet := mkSubnet (if is_ipv4 (cs_addr c) then V4 0 else V6 0) 0 (scope_prefix c).
(** The exchange and its privacy retry: the response or the error, the
    endpoint, what was sent last, and whether it is the retry's. *)
Definition run_exchange (x : Work) : W ((bool + Message) * option (list Z) * Message * bool) :=
  let* r := ask (outbound x) in
  match r with
  | inl e => ret (inl e, None, outbound x, false)
  | inr reply =>
      match outgoing (context x) with
      | Some ecs =>
          if bool_decide (response_code (x_message reply) = Refused) && bool_decide (source_prefix ecs > 0) then
            inc EcsRetries;;;
            let out := set_subnet (Some (anonymous ecs)) (outbound x) in
            let* r := ask out in
            ret (match r with
                 | inl e => (inl e, None, out, true)
                 | inr reply => (inr (x_message reply), Some (x_upstream reply), out, true)
                 end)
          else ret (inr (x_message reply), Some (x_upstream reply), outbound x, false)
      | None => ret (inr (x_message reply), Some (x_upstream reply), outbound x, false)
      end
  end.
Definition insert_answer (x : Work) (refreshing bogus : bool) (response : Message) (scope : Scope) : W StoreDecision :=
  let servfail := bool_decide (response_code response = ServFail) in
  let failure := if servfail then Some (if bogus then Final else StaleFallback) else None in
  let* w := get in
  let e := epoch (others env (turn w) (cache w)) in
  let* d := during (λ now,
    match failure with
    | Some f => insert_failure_if_epoch (query x) response scope now (w_epoch x) f
    | None => if refreshing then insert_refresh_if_epoch (query x) response scope now (w_epoch x)
              else insert_decision_if_epoch (query x) response scope now (w_epoch x)
    end) in
  modify_world (λ w, mkWorld (cache w) (turn w) (asked w) (stores w ++ [mkStored_ response scope failure (w_epoch x) e d])
    (refreshes w) (metrics w) (trace w));;;
  ret d.
Definition store_answer (x : Work) (refreshing bogus : bool) (response : Message) : W StoreDecision :=
  let scope := if bool_decide (response_code response = ServFail) then source_scope (context x)
               else rs_cache (response_scope (context x) response) in
  let* d := match scope with
            | Some s => insert_answer x refreshing bogus response s
            | None => during (λ _, record_unusable_scope)
            end in
  record_metric (CacheStored d);;;
  ret d.
Definition settle (x : Work) (refreshing : bool) (r : (bool + Message) * option (list Z) * Message * bool) : W WorkAnswer :=
  let '(result, endpoint, out, retried) := r in
  match result with
  | inl elapsed =>
      (if (elapsed : bool) then inc UpstreamTimeouts else ret tt);;;
      inc UpstreamFailures;;;
      ret (mkAnswer None (negb retried) false endpoint (subnet out) false None None refreshing)
  | inr response =>
      let bogus := validation_failed response in
      let servfail := bool_decide (response_code response = ServFail) in
      (if servfail then inc UpstreamFailures else ret tt);;;
      let decision := response_scope (context x) response in
      let* store := (if retried then ret None else let* d := store_answer x refreshing bogus response in ret (Some d)) in
      ret (mkAnswer (Some (response, if retried then None else rs_reply decision))
             (servfail && negb retried && negb bogus)
             (negb servfail && match store with Some d => store_admitted d | None => false end)
             endpoint (subnet out) false store (if retried then None else rs_cache decision) refreshing)
  end.
Definition fetch (x : Work) (refreshing : bool) : W WorkAnswer :=
  let* r := run_exchange x in settle x refreshing r.
Definition cached_answer (x : Work) (refreshing : bool) (hit : Hit) : WorkAnswer :=
  mkAnswer (Some (with_authentic (h_authentic hit) (h_message hit), reply_scope (h_scope hit) (outgoing (context x))))
    (bool_decide (h_failure hit = Some StaleFallback)) false None None true None (Some (h_scope hit)) refreshing.
Definition run (x : Work) (refreshing : bool) : W WorkAnswer :=
  let* hit := during (λ now, peek (query x) (outgoing (context x)) now false) in
  match hit with
  | Some hit => if negb refreshing || negb (h_refresh hit) then ret (cached_answer x refreshing hit) else fetch x refreshing
  | None => fetch x refreshing
  end.

(** ** [Resolver::resolve_inner] *)
Context (policy_ : Policy) (ecs : EcsConfig).
Definition look (query : Message) (c : Context_) (stale : bool) : W LookupResult :=
  during (λ now, lookup_with_decision query (outgoing c) now stale).
(** Policy on the answer, then the client's view of it. *)
Definition finish_reply (query : Message) (c : Context_) (m : Message) (scope : option Z) (validated : bool) : W Message :=
  let ad := authentic query validated in
  match apply_response policy_ query m with
  | (Ok block, m) =>
      let* ad := match block with
                 | Some b => trace_cache TBlocked;;; trace_block b;;; inc ResponseBlocked;;; ret false
                 | None => ret ad
                 end in
      ret (with_authentic ad (finish c query m scope))
  | (Err _, _) | (Panic, _) => panic
  | (Diverge, _) => diverge
  end.
Definition on_hit (query : Message) (c : Context_) (out : Message) (hit : Hit) : W Message :=
  trace_scope (h_scope hit);;;
  trace_cache (if bool_decide (h_failure hit = None) then TFresh else TServfail);;;
  inc CacheHits;;;
  (if h_refresh hit then schedule_refresh out else ret tt);;;
  let* hit := (if bool_decide (h_failure hit = Some StaleFallback)
    then let* r := look query c true in
         match r_hit r with
         | Some stale =>
             record_metric (CacheLookup (r_decision r));;;
             trace_lookup (r_decision r);;;
             trace_scope (h_scope stale);;;
             trace_cache (if h_stale stale then TStale else TFresh);;;
             ret stale
         | None => ret hit
         end
    else ret hit) in
  finish_reply query c (h_message hit) (reply_scope (h_scope hit) (outgoing c)) (h_authentic hit).
Definition relation (r : FlightRole) (a : WorkAnswer) : Relation_ :=
  match r with
  | RoleLeader => RLeader
  | RoleBypass => RBypass
  | RoleJoined => if a_prefetch a then RPrefetchFollower else RFollower
  end.
Definition rejected_answer : WorkAnswer := mkAnswer None false false None None false None None false.
Definition shared (x : Work) : W WorkAnswer :=
  let* j := join_flight (outbound x) in
  match j with
  | JRejected => inc FlightRejected;;; ret rejected_answer
  | JOwn r =>
      inc (flight_counter r);;;
      let* a := run x false in
      (if a_cached a then ret tt else trace_relation (relation r a));;;
      ret a
  | JJoined a =>
      inc FlightJoined;;;
      (if a_cached a then ret tt else trace_relation (relation RoleJoined a));;;
      ret a
  end.
Definition answer_tag (a : WorkAnswer) : CacheTag :=
  if a_cached a then
    match a_response a with
    | Some (m, _) => if bool_decide (response_code m = ServFail) then TServfail else TFresh
    | None => TFresh
    end
  else match a_response a with None => TError | Some _ => TUpstream end.
Definition on_miss (query : Message) (c : Context_) (out : Message) (e : Z) : W Message :=
  inc CacheMisses;;;
  let* a := shared (mkWork query c out e) in
  trace_cache (answer_tag a);;;
  trace_answer a;;;
  let* fallback := (if a_stale_eligible a then let* r := look query c true in ret (Some r) else ret None) in
  let* response :=
    match fallback with
    | Some r =>
        match r_hit r with
        | Some hit =>
            record_metric (CacheLookup (r_decision r));;;
            trace_lookup (r_decision r);;;
            trace_scope (h_scope hit);;;
            trace_cache (if h_stale hit then TStale else TFresh);;;
            ret (Some (with_authentic (h_authentic hit) (h_message hit), reply_scope (h_scope hit) (outgoing c)))
        | None => ret (a_response a)
        end
    | None => ret (a_response a)
    end in
  let (m, scope) := match response with Some r => r | None => (error_response query ServFail, None) end in
  finish_reply query c m scope (authentic_data m).
Definition answer_query (query : Message) (c : Context_) (out : Message) (e : Z) : W Message :=
  let* block := infallible (block_query policy_ query) in
  match block with
  | Some (m, b) =>
      trace_cache TBlocked;;;
      trace_block b;;;
      inc QueryBlocked;;;
      ret (finish c query m None)
  | None =>
      let* cached := look query c false in
      record_metric (CacheLookup (r_decision cached));;;
      trace_lookup (r_decision cached);;;
      match r_hit cached with
      | Some hit => on_hit query c out hit
      | None => on_miss query c out e
      end
  end.
Definition resolve_inner (request : Request) (peer : IpAddr) : W (option Reply_) :=
  let* w := get in
  let e := epoch (cache w) in
  match request with
  | Drop_ => ret None
  | Protocol.Reply m p => ret (Some (mkReply m 512 p))
  | Forward query =>
      let* m :=
        match prepare query peer ecs tt with
        | (Ok (out, c), _) => answer_query query c out e
        | (Err code, _) => ret (error_response query code)
        | (Panic, _) => panic
        | (Diverge, _) => diverge
        end in
      ret (Some (mkReply m (udp_limit query) (from_query query)))
  end.

(** ** [Resolver::resolve_for_delivery] *)
Definition response_counter (code : option Z) : Counter :=
  match code with
  | None => Dropped
  | Some c => if bool_decide (c = NoError) then ResponsesNoerror
              else if bool_decide (c = NXDomain) then ResponsesNxdomain
              else if bool_decide (c = ServFail) then ResponsesServfail
              else if bool_decide (c = Refused) then ResponsesRefused
              else ResponsesOther
  end.
(** [Drop for Delivery] of an admitted request *)
Definition delivery_counter (delivered : bool) : Counter := if delivered then Completed else Cancelled.
Definition resolve_for_delivery (bytes : list Z) (peer : IpAddr) : W (option Reply_) :=
  let* query :=
    match (decode bytes tt).1 with
    | Ok m => ret (Some m)
    | Err _ => ret None
    | Panic => panic
    | Diverge => diverge
    end in
  let* request := infallible (request_from_decoded bytes query) in
  let* reply := resolve_inner request peer in
  inc (response_counter ((λ r, response_code (message r)) <$> reply));;;
  ret reply.
End env.

(** ** The registry of an epoch

    [Generation::flights]: a request keeps to the registry of the epoch it read. *)
Definition generation_flights {F} (new : F) (e : Z) (current : Z * F) : F * (Z * F) :=
  if bool_decide (current.1 = e) then (current.2, current)
  else (new, if bool_decide (current.1 < e) then (e, new) else current).
End resolver.
