(* ===== verification/ResolverSafe.v ===== *)
(** * What a request may do and what it answers

    The pipeline of [Resolver] in any environment: what leaves for the network,
    what enters the cache, and what the client gets. *)
From S2P Require Import Prelude Net Std Names Lru Canonical Prepare Radix RadixBuild RadixLookup ParseSource Dns Ecs Wire Protocol CacheData CacheAdmit Sharing SharingSafe CacheStore CacheInv CacheOps Cache CacheAdmission CacheSafe CacheClaims BlockAnswer Policy PolicySafe Resolver.
Set Default Goal Selector "!".
Set Warnings "-rewrite-rw".
Local Open Scope Z_scope.
Local Open Scope rust_scope.

Section pipeline.
Context {SL : SliceLib} `{!SliceSpec SL} `{MessageLib} `{!MessageSpec} `{!NameSpec _} `{!VecSpec} `{!DnsNames} `{!DnsNamesSpec} `{!NameFold}.
Context `{!NameParse} `{!NameText} `{IpNetLib} `{!IpNetSpec _} `{LruLib} `{!LruSpec _}.
Context `{!Layout} `{!LayoutSpec} `{!RDataLib} `{!Sha256Lib} `{!DecoderLib} {DS : DecoderSpec}.
Context (env : Env) (source : Source).

(** Others keep to the operations of the cache, and what the network answers
    has been decoded. *)
Record env_ok : Prop := {
  eo_others n c : reachable c (others env n c);
  eo_replies n m r : exchange env n m = inr r → message_ok (x_message r);
}.
Hypothesis Henv : env_ok.

(** ** Steps *)
Definition never {A} : unit → A → Prop := λ _ _, False.
Lemma wp_modify_world f (Q : unit → World → Prop) R w : Q tt (f w) → wp (modify_world f) Q R w.
Proof. done. Qed.
Lemma during_wp {A} (m : Z → CM A) (Q : A → World → Prop) w :
  wp (m (clock env (turn w))) (λ a c, Q a (mkWorld c (S (turn w)) (asked w) (stores w) (refreshes w) (metrics w) (trace w)))
    never (others env (turn w) (cache w)) →
  wp (during env m) Q never w.
Proof. unfold wp, during. by destruct (m _ _) as [[a|?| |] c]. Qed.
Lemma others_ok n c : cache_ok c → cache_ok (others env n c) ∧ epoch c ≤ epoch (others env n c).
Proof. intros Hok. by destruct (reachable_follows _ _ Hok (eo_others Henv n c)) as (? & _ & ?). Qed.

(** What a step leaves alone. *)
Definition quiet (w w' : World) : Prop := cache_ok (cache w') ∧ asked w' = asked w ∧ stores w' = stores w.
Lemma look_wp query c stale w (Q : LookupResult → World → Prop) :
  cache_ok (cache w) → queries query ≠ [] → (∀ r w', quiet w w' → Q r w') → wp (look env query c stale) Q never w.
Proof.
  intros Hok Hq HQ. apply during_wp. unfold lookup_with_decision, modify_cache. apply wp_bind.
  eapply wp_mono; [| |apply lookup_follows; [by apply others_ok|done]]; [|done].
  intros r c' (Hok' & _ & _). apply wp_bind, wp_bind, wp_get, wp_put, wp_ret, HQ. split; [|done]. by apply (cache_ok_rest c').
Qed.
Lemma peek_wp query c w (Q : option Hit → World → Prop) :
  cache_ok (cache w) → queries query ≠ [] → (∀ r w', quiet w w' → Q r w') →
  wp (during env (λ now, peek query c now false)) Q never w.
Proof.
  intros Hok Hq HQ. apply during_wp. unfold peek. apply wp_bind.
  eapply wp_mono; [| |apply lookup_follows; [by apply others_ok|done]]; [|done].
  intros r c' (Hok' & _ & _). apply wp_ret, HQ. by split.
Qed.
Lemma unusable_wp w (Q : StoreDecision → World → Prop) :
  cache_ok (cache w) → (∀ w', quiet w w' → Q (skipped EcsUnusable) w') → wp (during env (λ _, record_unusable_scope)) Q never w.
Proof.
  intros Hok HQ. apply during_wp. unfold record_unusable_scope, counted, modify_cache.
  apply wp_bind, wp_ret, wp_bind, wp_bind, wp_get, wp_put, wp_ret, HQ. split; [|done].
  apply (cache_ok_rest (others env (turn w) (cache w))); [by apply others_ok|done..].
Qed.

(** ** Admission *)
(** What [Exchange::run] may offer the cache for a request. *)
Record stored_ok (x : Work) (s : Stored_) : Prop := {
  so_scope : (if bool_decide (response_code (sd_response s) = ServFail) then source_scope (context x)
              else rs_cache (response_scope (context x) (sd_response s))) = Some (sd_scope s);
  so_failure : is_Some (sd_failure s) ↔ response_code (sd_response s) = ServFail;
  so_final : sd_failure s = Some Final → source = Recursive_ ∧ is_bogus (sd_response s) = true;
  so_epoch : sd_epoch s = w_epoch x;
  so_current : store_admitted (sd_decision s) = true → sd_current s = w_epoch x;
}.
Lemma skipped_admitted r : store_admitted (skipped r) = false.
Proof. apply bool_decide_eq_false. by intros [|]. Qed.
Lemma counted_admission (m : CM StoreDecision) e c (Q : StoreDecision → Cache → Prop) :
  (∀ d c', cache_ok c' → (store_admitted d = true → epoch c = e) → Q d c') →
  wp m (λ d c', cache_ok c' ∧ (store_admitted d = true → epoch c = e)) (λ _ _, False) c →
  wp (counted m) Q never c.
Proof.
  intros HQ Hm. eapply wp_mono; [| |apply counted_wp; [|exact Hm]]; [|done|].
  - intros d c' [? ?]. by apply HQ.
  - intros d c' g [Hok Hd]. split; [by apply (cache_ok_rest c')|done].
Qed.
Lemma admit_epoch query response scope now (e : Z) origin c :
  cache_ok c → queries query ≠ [] → message_ok response → origin_ok origin →
  wp (admit_ query response scope now e origin) (λ d c', cache_ok c' ∧ (store_admitted d = true → epoch c = e)) (λ _ _, False) c.
Proof.
  intros Hok Hq Hm Ho. eapply wp_mono; [| |by apply admit_wp]; [|done].
  intros d c' [Hok' [[-> [r ->]]|(q & k & _ & _ & i & s & s' & u & n & _ & -> & Hcase)]]; (split; [done|]); [by rewrite skipped_admitted|].
  destruct (decide (e = epoch c)) as [->|]; [done|]. destruct Hcase as [-> _]. by rewrite skipped_admitted.
Qed.
Lemma failure_epoch query response scope now (e : Z) f c :
  cache_ok c → queries query ≠ [] →
  wp (admit_failure query response scope now e f) (λ d c', cache_ok c' ∧ (store_admitted d = true → epoch c = e)) (λ _ _, False) c.
Proof.
  intros Hok Hq. eapply wp_mono; [| |by apply admit_failure_wp]; [|done].
  intros d c' [Hok' [[-> [r ->]]|(q & k & wire & _ & _ & _ & _ & i & s & s' & u & n & _ & -> & Hcase)]]; (split; [done|]); [by rewrite skipped_admitted|].
  destruct (decide (e = epoch c)) as [->|]; [done|]. destruct Hcase as [-> _]. by rewrite skipped_admitted.
Qed.
Lemma insert_answer_wp x refreshing response scope w (Q : StoreDecision → World → Prop) :
  cache_ok (cache w) → queries (query x) ≠ [] → message_ok response →
  (if bool_decide (response_code response = ServFail) then source_scope (context x) else rs_cache (response_scope (context x) response)) = Some scope →
  (∀ s w', stored_ok x s → sd_response s = response → cache_ok (cache w') → asked w' = asked w → stores w' = stores w ++ [s] →
     Q (sd_decision s) w') →
  wp (insert_answer env x refreshing (validation_failed source response) response scope) Q never w.
Proof.
  intros Hok Hq Hm Hscope HQ. unfold insert_answer. apply wp_bind, wp_get, wp_bind, during_wp.
  destruct (others_ok (turn w) (cache w) Hok) as [Hok' _]. set (c := others env (turn w) (cache w)) in *. set (now := clock env (turn w)).
  set (f := if bool_decide (response_code response = ServFail) then _ else None).
  assert (wp match f with
    | Some f => insert_failure_if_epoch (query x) response scope now (w_epoch x) f
    | None => if refreshing then insert_refresh_if_epoch (query x) response scope now (w_epoch x)
              else insert_decision_if_epoch (query x) response scope now (w_epoch x)
    end (λ d c', cache_ok c' ∧ (store_admitted d = true → epoch c = w_epoch x)) never c) as Hins.
  { destruct f as [f'|]; [|destruct refreshing]; (eapply counted_admission; [by intros d c' ? ?|]);
      [by apply failure_epoch|by apply admit_epoch..]. }
  eapply wp_mono; [| |exact Hins]; [|done]. intros d c' [Hokc Hd]. apply wp_bind, wp_modify_world, wp_ret.
  apply (HQ (mkStored_ response scope f (w_epoch x) (epoch c) d)); [|done..]. unfold f.
  split; simpl; [done| | |done|done].
  - case_bool_decide; [naive_solver|]. split; [by intros []|done].
  - case_bool_decide; [|done]. destruct (validation_failed source response) eqn:E; [|done]. intros _.
    unfold validation_failed in E. by destruct source.
Qed.

(** ** One exchange *)
Definition retry_of (x : Work) (e : ClientSubnet) : Message := set_subnet (Some (anonymous e)) (outbound x).
(** What an exchange did between [w] and [w'], by how it was answered. *)
Inductive exchanged (x : Work) (a : WorkAnswer) (sent : list Message) (new : list Stored_) : Prop :=
  | ex_cached : a_cached a = true → sent = [] → new = [] → a_admitted a = false → exchanged x a sent new
  | ex_failed : a_cached a = false → sent = [outbound x] → new = [] → a_response a = None → a_stale_eligible a = true →
      a_admitted a = false → exchanged x a sent new
  | ex_answered m scope : a_cached a = false → sent = [outbound x] → a_response a = Some (m, scope) →
      scope = rs_reply (response_scope (context x) m) → (length new ≤ 1)%nat →
      Forall (λ s, stored_ok x s ∧ sd_response s = m) new →
      (a_stale_eligible a = true ↔ response_code m = ServFail ∧ validation_failed source m = false) →
      (a_admitted a = true → response_code m ≠ ServFail ∧ ∃ s, new = [s] ∧ store_admitted (sd_decision s) = true) →
      exchanged x a sent new
  | ex_retried e n r : outgoing (context x) = Some e → source_prefix e > 0 →
      exchange env n (outbound x) = inr r → response_code (x_message r) = Refused →
      a_cached a = false → sent = [outbound x; retry_of x e] → new = [] → a_stale_eligible a = false → a_admitted a = false →
      (∀ m scope, a_response a = Some (m, scope) → scope = None) → exchanged x a sent new.

(** A step that only counts. *)
Definition counts_only (m : W unit) : Prop :=
  ∀ w (Q : unit → World → Prop), (∀ w', cache w' = cache w → asked w' = asked w → stores w' = stores w → Q tt w') → wp m Q never w.
Lemma counts_inc c : counts_only (inc c).
Proof. intros w Q HQ. by apply HQ. Qed.
Lemma counts_ret : counts_only (ret tt).
Proof. intros w Q HQ. by apply HQ. Qed.
Lemma counts_if (b : bool) m1 m2 : counts_only m1 → counts_only m2 → counts_only (if b then m1 else m2).
Proof. by destruct b. Qed.
Lemma counts_traced f : counts_only (traced f).
Proof. intros w Q HQ. by apply HQ. Qed.
Lemma counts_metric x : counts_only (record_metric x).
Proof. intros w Q HQ. by apply HQ. Qed.

Lemma store_answer_wp x refreshing response w (Q : StoreDecision → World → Prop) :
  cache_ok (cache w) → queries (query x) ≠ [] → message_ok response →
  (∀ d w' new, cache_ok (cache w') → asked w' = asked w → stores w' = stores w ++ new → (length new ≤ 1)%nat →
     Forall (λ s, stored_ok x s ∧ sd_response s = response) new →
     (store_admitted d = true → ∃ s, new = [s] ∧ sd_decision s = d) → Q d w') →
  wp (store_answer env x refreshing (validation_failed source response) response) Q never w.
Proof.
  intros Hok Hq Hm HQ. unfold store_answer. apply wp_bind.
  destruct (if bool_decide (response_code response = ServFail) then _ else _) as [scope|] eqn:Es.
  - apply insert_answer_wp; [done..|]. intros s w1 Hs Hr Hok1 Ha1 Hs1. apply wp_bind, counts_metric.
    intros w2 Hc2 Ha2 Hs2. apply wp_ret, (HQ _ _ [s]); [by rewrite Hc2|congruence|congruence|simpl; lia|by constructor|].
    intros _. by exists s.
  - apply unusable_wp; [done|]. intros w1 (Hok1 & Ha1 & Hs1). apply wp_bind, counts_metric.
    intros w2 Hc2 Ha2 Hs2. apply wp_ret, (HQ _ _ []); rewrite ?Hc2 ?app_nil_r; [done|congruence..|simpl; lia|constructor|].
    by rewrite skipped_admitted.
Qed.
Lemma settle_wp x refreshing result endpoint out retried w (Q : WorkAnswer → World → Prop) :
  cache_ok (cache w) → queries (query x) ≠ [] → (∀ m, result = inr m → message_ok m) →
  (∀ a w' new, cache_ok (cache w') → asked w' = asked w → stores w' = stores w ++ new → a_cached a = false →
     (retried = true → new = [] ∧ a_stale_eligible a = false ∧ a_admitted a = false ∧ ∀ m scope, a_response a = Some (m, scope) → scope = None) →
     (retried = false → exchanged x a [outbound x] new) → Q a w') →
  wp (settle env source x refreshing (result, endpoint, out, retried)) Q never w.
Proof.
  intros Hok Hq Hm HQ. unfold settle. destruct result as [elapsed|response]; apply wp_bind.
  - apply counts_if; [apply counts_inc|apply counts_ret|]. intros w1 Hc1 Ha1 Hs1. apply wp_bind, counts_inc.
    intros w2 Hc2 Ha2 Hs2. apply wp_ret, (HQ _ _ []); rewrite ?Hc2 ?Hc1 ?app_nil_r; [done|congruence..|done| |].
    + by intros ->.
    + intros ->. by apply ex_failed.
  - apply counts_if; [apply counts_inc|apply counts_ret|]. intros w1 Hc1 Ha1 Hs1. apply wp_bind. destruct retried.
    + apply wp_ret, wp_ret, (HQ _ _ []); rewrite ?Hc1 ?app_nil_r; [done|congruence..|done| |done].
      intros _. simpl. rewrite andb_false_r !andb_false_l andb_false_r. split_and!; [done..|]. by intros m scope [= _ <-].
    + apply wp_bind, store_answer_wp; [by rewrite Hc1|done|by apply Hm|]. intros d w2 new Hok2 Ha2 Hs2 Hlen Hall Had.
      apply wp_ret, wp_ret, (HQ _ _ new); [done|congruence|congruence|done|done|]. intros _.
      eapply ex_answered; simpl; try done.
      * rewrite andb_true_r andb_true_iff bool_decide_eq_true negb_true_iff. done.
      * rewrite andb_true_iff negb_true_iff bool_decide_eq_false. intros [? Hd]. split; [done|].
        destruct (Had Hd) as (s & -> & <-). by exists s.
Qed.
Lemma fetch_wp x refreshing w (Q : WorkAnswer → World → Prop) :
  cache_ok (cache w) → queries (query x) ≠ [] →
  (∀ a w' sent new, cache_ok (cache w') → asked w' = asked w ++ sent → stores w' = stores w ++ new →
     exchanged x a sent new → Q a w') →
  wp (fetch env source x refreshing) Q never w.
Proof.
  intros Hok Hq HQ. unfold fetch. apply wp_bind. unfold run_exchange. apply wp_bind.
  assert (∀ m w (P : bool + ExchangeReply → World → Prop), (∀ w', cache w' = cache w → asked w' = asked w ++ [m] → stores w' = stores w →
    P (exchange env (turn w) m) w') → wp (ask env m) P never w) as Hask by (intros m' w' P HP; by apply HP).
  apply Hask. intros w1 Hc1 Ha1 Hs1.
  assert (∀ result endpoint, (∀ m, result = inr m → message_ok m) →
    wp (ret (result, endpoint, outbound x, false)) (λ r, wp (settle env source x refreshing r) Q never) never w1) as Hplain.
  { intros result endpoint Hm. apply wp_ret, settle_wp; [by rewrite Hc1|done|done|].
    intros a w' new Hok' Ha' Hs' _ _ Hex. apply (HQ a w' [outbound x] new); [done|congruence|congruence|by apply Hex]. }
  destruct (exchange env (turn w) (outbound x)) as [elapsed|reply] eqn:Ex; [by apply Hplain|].
  pose proof (eo_replies Henv _ _ _ Ex) as Hm.
  destruct (outgoing (context x)) as [e|] eqn:Eo; [|by apply Hplain; intros m [= <-]].
  destruct (bool_decide (response_code (x_message reply) = Refused) && bool_decide (source_prefix e > 0)) eqn:Er;
    [|by apply Hplain; intros m [= <-]].
  apply andb_true_iff in Er as [Hr%bool_decide_eq_true Hp%bool_decide_eq_true].
  apply wp_bind, counts_inc. intros w2 Hc2 Ha2 Hs2. apply wp_bind, Hask. intros w3 Hc3 Ha3 Hs3. fold (retry_of x e) in *.
  assert (∀ result endpoint, (∀ m, result = inr m → message_ok m) →
    wp (ret (result, endpoint, retry_of x e, true)) (λ r, wp (settle env source x refreshing r) Q never) never w3) as Hretry.
  { intros result endpoint Hm'. apply wp_ret, settle_wp; [by rewrite Hc3 Hc2 Hc1|done|done|].
    intros a w' new Hok' Ha' Hs' Hca Hex _. destruct (Hex eq_refl) as (-> & Hst & Had & Hsc).
    apply (HQ a w' [outbound x; retry_of x e] []); [done| | |by eapply ex_retried].
    - rewrite Ha' Ha3 Ha2 Ha1 -app_assoc //.
    - rewrite Hs' Hs3 Hs2 Hs1 //. }
  destruct (exchange env (turn w2) (retry_of x e)) as [elapsed|reply2] eqn:Ex2; [by apply Hretry|].
  apply Hretry. intros m [= <-]. by eapply (eo_replies Henv).
Qed.
Lemma work_run_wp x refreshing w (Q : WorkAnswer → World → Prop) :
  cache_ok (cache w) → queries (query x) ≠ [] →
  (∀ a w' sent new, cache_ok (cache w') → asked w' = asked w ++ sent → stores w' = stores w ++ new →
     exchanged x a sent new → Q a w') →
  wp (run env source x refreshing) Q never w.
Proof.
  intros Hok Hq HQ. unfold run. apply wp_bind, peek_wp; [done..|]. intros hit w1 (Hok1 & Ha1 & Hs1).
  assert (wp (fetch env source x refreshing) Q never w1) as Hfetch.
  { apply fetch_wp; [done..|]. intros a w' sent new. rewrite Ha1 Hs1. apply HQ. }
  destruct hit as [hit|]; [|done]. destruct (negb refreshing || negb (h_refresh hit)); [|done].
  apply wp_ret, (HQ _ _ [] []); rewrite ?app_nil_r; [done..|by apply ex_cached].
Qed.

(** ** The reply *)
Context (rs : list Rule) (policy_ : Policy) (ecs : EcsConfig) (query : Message) (question : Query).
Hypothesis Hpolicy : policy_ok rs policy_.
Hypothesis Hquery : queries query = [question].

Lemma answers_set_subnet e m : answers (set_subnet e m) = answers m.
Proof. by rewrite set_subnet_fields. Qed.
Lemma answers_finish c m scope : answers (finish c query m scope) = answers m.
Proof.
  unfold finish. set (m1 := with_queries _ _).
  set (m2 := with_edns (finish_edns query (set_subnet None m1)) (set_subnet None m1)).
  assert (answers m2 = answers m) as Hm2 by exact (eq_trans (answers_set_subnet None m1) eq_refl).
  destruct (incoming c); [by rewrite answers_set_subnet|done].
Qed.

(** The request's identity comes back, and AD only where it is due. *)
Record for_client (m : Message) : Prop := {
  fc_id : id m = id query;
  fc_queries : queries m = [question];
  fc_flags : recursion_desired m = recursion_desired query ∧ checking_disabled m = checking_disabled query;
  fc_ad : authentic_data m = true → source = Recursive_ ∧
    (authentic_data query = true ∨ ∃ e, edns query = Some e ∧ dnssec_ok e = true);
}.
(** The policy had its say: the answer carries no blocked name, or it is the
    block answer of one. *)
Definition screened (m : Message) : Prop :=
  (∀ n, on_chain m question n → ¬ blocked_name rs policy_ n) ∨
  ∃ n b t, blocked_name rs policy_ n ∧ answered_by rs policy_ query n question (Some (b, t)) ∧
    sections m = sections b ∧ response_code m = response_code b ∧ authentic_data m = false.
(** The subnet of the reply is the client's own. *)
Definition echoes (c : Context_) (m : Message) : Prop :=
  (λ e, (cs_addr e, source_prefix e)) <$> subnet m = (λ e, (cs_addr e, source_prefix e)) <$> incoming c.

Lemma authentic_due v : authentic source query v = true →
  source = Recursive_ ∧ (authentic_data query = true ∨ ∃ e, edns query = Some e ∧ dnssec_ok e = true).
Proof.
  unfold authentic, authenticates. rewrite !andb_true_iff orb_true_iff. intros [[Hs _] Hq].
  split; [by destruct source|]. destruct Hq as [|Hq]; [by left|right]. destruct (edns query) as [e|]; [by exists e|done].
Qed.
Lemma finish_for_client c m scope ad :
  (ad = true → source = Recursive_ ∧ (authentic_data query = true ∨ ∃ e, edns query = Some e ∧ dnssec_ok e = true)) →
  for_client (with_authentic ad (finish c query m scope)).
Proof.
  intros Had. destruct (finish_wp c query m scope) as [Hid Hq (Hr & Hc & _) _ _ _ _ _]. split; simpl; [done| |done|done].
  by rewrite Hq.
Qed.
Lemma finish_echoes c m scope ad : echoes c (with_authentic ad (finish c query m scope)).
Proof.
  destruct (finish_wp c query m scope) as [_ _ _ _ Hs _ _ _]. unfold echoes.
  change (subnet (with_authentic ad (finish c query m scope))) with (subnet (finish c query m scope)). rewrite Hs. by destruct (incoming c).
Qed.
Lemma on_chain_answers m m' n : answers m = answers m' → on_chain m question n → on_chain m' question n.
Proof. unfold on_chain, linked. by intros ->. Qed.

Definition reply_ok (c : Context_) (m : Message) : Prop := for_client m ∧ screened m ∧ echoes c m.
Lemma finish_reply_wp c m scope v w (Q : Message → World → Prop) :
  (∀ m' w', cache w' = cache w → asked w' = asked w → stores w' = stores w → reply_ok c m' → Q m' w') →
  wp (finish_reply source policy_ query c m scope v) Q never w.
Proof.
  intros HQ. unfold finish_reply. assert (queries query !! 0%nat = Some question) as Hq0 by by rewrite Hquery.
  pose proof (apply_response_wp rs policy_ query m question Hpolicy Hq0) as Hwp. unfold wp in Hwp at 1.
  destruct (apply_response policy_ query m) as [[block|?| |] m'] eqn:E; [|done..]. apply wp_bind. destruct block as [t|]; simpl in Hwp.
  - destruct Hwp as (n & Hn & Hans). apply wp_bind, counts_traced. intros w1 Hc1 Ha1 Hs1.
    apply wp_bind, counts_traced. intros w2 Hc2 Ha2 Hs2. apply wp_bind, counts_inc. intros w3 Hc3 Ha3 Hs3.
    apply wp_ret, wp_ret, HQ; [congruence..|]. split; [by apply finish_for_client|]. split; [|apply finish_echoes].
    right. exists n, m', t. destruct (finish_wp c query m' scope) as [_ _ _ (Hcode & Hsec & _) _ _ _ _].
    split; [|split; [exact Hans|done]]. destruct Hans as (r & owner & Hr & _). by exists r.
  - destruct Hwp as [-> Hn]. apply wp_ret, wp_ret, HQ; [done..|]. split; [apply finish_for_client, authentic_due|]. split; [|apply finish_echoes].
    left. intros n Hch. apply Hn. eapply on_chain_answers; [|exact Hch]. apply answers_finish.
Qed.

Lemma on_hit_wp c out hit w (Q : Message → World → Prop) :
  cache_ok (cache w) →
  (∀ m w', cache_ok (cache w') → asked w' = asked w → stores w' = stores w → reply_ok c m → Q m w') →
  wp (on_hit env source policy_ query c out hit) Q never w.
Proof.
  intros Hok HQ. unfold on_hit.
  apply wp_bind, counts_traced. intros w1 Hc1 Ha1 Hs1. apply wp_bind, counts_traced. intros w2 Hc2 Ha2 Hs2.
  apply wp_bind, counts_inc. intros w3 Hc3 Ha3 Hs3. apply wp_bind.
  assert (counts_only (if h_refresh hit then schedule_refresh out else ret tt)) as Hsched.
  { apply counts_if; [|apply counts_ret]. intros w' Q' HQ'. by apply HQ'. }
  apply Hsched. intros w4 Hc4 Ha4 Hs4.
  assert (∀ h w', cache_ok (cache w') → asked w' = asked w → stores w' = stores w →
    wp (finish_reply source policy_ query c (h_message h) (reply_scope (h_scope h) (outgoing c)) (h_authentic h)) Q never w') as Hend.
  { intros h w' Hokw Haw Hsw. apply finish_reply_wp. intros m' w5 Hc5 Ha5 Hs5 Hr. apply HQ; [by rewrite Hc5|congruence|congruence|done]. }
  apply wp_bind. case_bool_decide; [|apply wp_ret, Hend; congruence].
  apply wp_bind, look_wp; [congruence|by rewrite Hquery|]. intros r w5 (Hok5 & Ha5 & Hs5).
  destruct (r_hit r) as [stale|]; [|apply wp_ret, Hend; congruence].
  apply wp_bind, counts_metric. intros w6 Hc6 Ha6 Hs6. apply wp_bind, counts_traced. intros w7 Hc7 Ha7 Hs7.
  apply wp_bind, counts_traced. intros w8 Hc8 Ha8 Hs8. apply wp_bind, counts_traced. intros w9 Hc9 Ha9 Hs9.
  apply wp_ret, Hend; congruence.
Qed.
(** What a request may send. *)
Definition may_send (c : Context_) (out : Message) (sent : list Message) : Prop :=
  sent = [] ∨ sent = [out] ∨
  ∃ e retry, sent = [out; retry] ∧ outgoing c = Some e ∧ source_prefix e > 0 ∧ subnet retry = Some (anonymous e) ∧ retry = with_edns (edns retry) out.
Lemma exchanged_sends x a sent new : exchanged x a sent new → may_send (context x) (outbound x) sent.
Proof.
  intros [? -> _ _|? -> _ _ _ _|m scope ? -> _ _ _ _ _ _|e n r Ho Hp _ _ _ -> _ _ _ _]; [by left|by right; left..|].
  right. right. exists e, (retry_of x e). split_and!; [done..|apply subnet_set_subnet|apply set_subnet_fields].
Qed.
Lemma exchanged_stores x a sent new : exchanged x a sent new → Forall (stored_ok x) new.
Proof.
  intros [? _ -> _|? _ -> _ _ _|m scope ? _ _ _ _ Hall _ _|e n r _ _ _ _ _ _ -> _ _ _]; [constructor..| |constructor].
  eapply Forall_impl; [exact Hall|]. by intros s [? _].
Qed.
Lemma on_miss_wp c out e w (Q : Message → World → Prop) :
  cache_ok (cache w) →
  (∀ m w' sent new, cache_ok (cache w') → asked w' = asked w ++ sent → stores w' = stores w ++ new → may_send c out sent →
     Forall (stored_ok (mkWork query c out e)) new → reply_ok c m → Q m w') →
  wp (on_miss env source policy_ query c out e) Q never w.
Proof.
  intros Hok HQ. unfold on_miss. apply wp_bind, counts_inc. intros w1 Hc1 Ha1 Hs1. apply wp_bind.
  set (Post (a : WorkAnswer) (w' : World) := ∃ sent new, cache_ok (cache w') ∧ asked w' = asked w ++ sent ∧ stores w' = stores w ++ new ∧ may_send c out sent ∧
     Forall (stored_ok (mkWork query c out e)) new : Prop).
  assert (wp (shared env source (mkWork query c out e)) Post never w1) as Hshared.
  { unfold shared. apply wp_bind.
    assert (∀ P : JoinResult → World → Prop, (∀ j w', cache w' = cache w1 → asked w' = asked w1 → stores w' = stores w1 → P j w') →
      wp (join_flight env out) P never w1) as Hjoin by (intros P HP; by apply HP).
    apply Hjoin. intros j w2 Hc2 Ha2 Hs2.
    assert (∀ w', cache w' = cache w2 → asked w' = asked w2 → stores w' = stores w2 → ∀ a : WorkAnswer, Post a w') as Hquiet.
    { intros w' Hc' Ha' Hs' a. exists [], []. rewrite !app_nil_r. split_and!; [congruence..|by left|constructor]. }
    destruct j as [|r|a].
    - apply wp_bind, counts_inc. intros w3 Hc3 Ha3 Hs3. by apply wp_ret, Hquiet.
    - apply wp_bind, counts_inc. intros w3 Hc3 Ha3 Hs3. apply wp_bind, work_run_wp; [congruence|by rewrite Hquery|].
      intros a w4 sent new Hok4 Ha4 Hs4 Hex. apply wp_bind, counts_if; [apply counts_ret|apply counts_traced|].
      intros w5 Hc5 Ha5 Hs5. apply wp_ret. exists sent, new.
      split_and!; [congruence..|exact (exchanged_sends _ a sent new Hex)|exact (exchanged_stores _ a sent new Hex)].
    - apply wp_bind, counts_inc. intros w3 Hc3 Ha3 Hs3. apply wp_bind, counts_if; [apply counts_ret|apply counts_traced|].
      intros w4 Hc4 Ha4 Hs4. apply wp_ret, Hquiet; congruence. }
  eapply wp_mono; [| |exact Hshared]; [|done]. intros a w2 (sent & new & Hok2 & Ha2 & Hs2 & Hsend & Hnew).
  apply wp_bind, counts_traced. intros w3 Hc3 Ha3 Hs3. apply wp_bind, counts_traced. intros w4 Hc4 Ha4 Hs4.
  assert (∀ m scope v w', cache_ok (cache w') → asked w' = asked w ++ sent → stores w' = stores w ++ new →
    wp (finish_reply source policy_ query c m scope v) Q never w') as Hend.
  { intros m scope v w' Hokw Haw Hsw. apply finish_reply_wp. intros m' w5 Hc5 Ha5 Hs5 Hr.
    apply (HQ m' w5 sent new); [by rewrite Hc5|congruence|congruence|done..]. }
  assert (∀ (o : option (Message * option Z)) w', cache_ok (cache w') → asked w' = asked w ++ sent → stores w' = stores w ++ new →
    wp (let (m, scope) := match o with Some r => r | None => (error_response query ServFail, None) end in
        finish_reply source policy_ query c m scope (authentic_data m)) Q never w') as Hlast.
  { intros o w' ???. destruct (match o with Some r => r | None => _ end) as [m scope]. by apply Hend. }
  apply wp_bind. destruct (a_stale_eligible a); [apply wp_bind, look_wp; [congruence|by rewrite Hquery|]; intros r w5 (Hok5 & Ha5 & Hs5); apply wp_ret|apply wp_ret].
  - apply wp_bind. destruct (r_hit r) as [hit|]; [|apply wp_ret, Hlast; congruence].
    apply wp_bind, counts_metric. intros w6 Hc6 Ha6 Hs6. apply wp_bind, counts_traced. intros w7 Hc7 Ha7 Hs7.
    apply wp_bind, counts_traced. intros w8 Hc8 Ha8 Hs8. apply wp_bind, counts_traced. intros w9 Hc9 Ha9 Hs9.
    apply wp_ret. apply Hend; congruence.
  - apply wp_bind, wp_ret, Hlast; congruence.
Qed.

(** ** The whole request *)
(** What the client gets and what left for the network and the cache, for a
    request whose subnet has been prepared as [c], with [out] to send. *)
Definition answered_well (c : Context_) (out : Message) (e : Z) (w : World) (m : Message) (w' : World) : Prop :=
  cache_ok (cache w') ∧ reply_ok c m ∧
  ∃ sent new, asked w' = asked w ++ sent ∧ stores w' = stores w ++ new ∧ may_send c out sent ∧
    Forall (stored_ok (mkWork query c out e)) new ∧
    (blocked_name rs policy_ (q_name question) → sent = [] ∧ new = [] ∧ cache w' = cache w).
Lemma answer_query_wp c out e w :
  cache_ok (cache w) → wp (answer_query env source policy_ query c out e) (answered_well c out e w) never w.
Proof.
  intros Hok. unfold answer_query. apply wp_bind. assert (queries query !! 0%nat = Some question) as Hq0 by by rewrite Hquery.
  assert (wp (block_query policy_ query) (λ o _, answered_by rs policy_ query (q_name question) question o) (λ _ _, False) tt) as Hblock.
  { unfold block_query. eapply wp_bind, wp_expect; [exact Hq0|]. by apply block_answer_wp. }
  unfold wp in Hblock. unfold infallible. destruct (block_query policy_ query tt) as [[o|?| |] u]; [|done..].
  apply wp_ret. destruct o as [[b t]|]; simpl in Hblock.
  - apply wp_bind, counts_traced. intros w1 Hc1 Ha1 Hs1. apply wp_bind, counts_traced. intros w2 Hc2 Ha2 Hs2.
    apply wp_bind, counts_inc. intros w3 Hc3 Ha3 Hs3. apply wp_ret.
    assert (finish c query b None = with_authentic false (finish c query b None)) as Hfin.
    { destruct (finish_wp c query b None) as [_ _ (_ & _ & Had) _ _ _ _ _]. unfold with_authentic. rewrite -{1}Had. by destruct (finish c query b None). }
    split; [by rewrite Hc3 Hc2 Hc1|]. split.
    + rewrite Hfin. split; [by apply finish_for_client|]. split; [|apply finish_echoes]. right. exists (q_name question), b, t.
      destruct (finish_wp c query b None) as [_ _ _ (Hcode & Hsec & _) _ _ _ _]. split; [|split; [exact Hblock|done]].
      destruct Hblock as (r & owner & Hr & _). by exists r.
    + exists [], []. rewrite !app_nil_r. split_and!; [congruence..|by left|constructor|]. intros _. split_and!; congruence.
  - assert (¬ blocked_name rs policy_ (q_name question)) as Hnb by (intros [r Hr]; by apply (Hblock r)).
    apply wp_bind, look_wp; [done|by rewrite Hquery|]. intros r w1 (Hok1 & Ha1 & Hs1).
    apply wp_bind, counts_metric. intros w2 Hc2 Ha2 Hs2. apply wp_bind, counts_traced. intros w3 Hc3 Ha3 Hs3.
    destruct (r_hit r) as [hit|].
    + apply on_hit_wp; [congruence|]. intros m w4 Hok4 Ha4 Hs4 Hr. split; [done|split; [done|]].
      exists [], []. rewrite !app_nil_r. split_and!; [congruence..|by left|constructor|done].
    + apply on_miss_wp; [congruence|]. intros m w4 sent new Hok4 Ha4 Hs4 Hsend Hnew Hr. split; [done|split; [done|]].
      exists sent, new. split_and!; [congruence..|done|done|done].
Qed.
End pipeline.

Section claims.
Context {SL : SliceLib} `{!SliceSpec SL} `{MessageLib} `{!MessageSpec} `{!NameSpec _} `{!VecSpec} `{!DnsNames} `{!DnsNamesSpec} `{!NameFold}.
Context `{!NameParse} `{!NameText} `{IpNetLib} `{!IpNetSpec _} `{LruLib} `{!LruSpec _}.
Context `{!Layout} `{!LayoutSpec} `{!RDataLib} `{!Sha256Lib} `{!DecoderLib} {DS : DecoderSpec}.
Context (env : Env) (source : Source) (Henv : env_ok env).

(** Decoded subnets are subnets. *)
Definition subnets_decoded : Prop := ∀ b m rest e, message_read b = Some (m, rest) → subnet m = Some e → subnet_valid e.
Lemma forwarded bytes q m u : request_from_decoded bytes (Some q) tt = (Ok (Forward m), u) → m = strip_tcp_keepalive q.
Proof.
  simpl. destruct (is_response q); [done|]. unfold bind. destruct (admission_error q tt) as [[[code|]| | |] []]; [done| |done..].
  by intros [= <- _].
Qed.
(** What becomes of an admitted query. *)
Definition resolved rs policy_ ecs (query : Message) (question : Query) (peer : IpAddr) (c0 : Cache) (r : option Reply_) (w' : World) : Prop :=
  ∃ m, r = Some (mkReply m (udp_limit query) (from_query query)) ∧
    match (prepare query peer ecs tt).1 with
    | Ok (out, c) => Ecs.prepared query peer ecs out c ∧ answered_well source rs policy_ query question c out (epoch c0) (world_start c0) m w'
    | Err code => for_client source query question m ∧ sections m = [] ∧ response_code m = code ∧
        code ∈ [FormErr; Refused] ∧ cache w' = c0 ∧ asked w' = [] ∧ stores w' = []
    | _ => False
    end.
Lemma resolve_forward rs policy_ ecs query question peer c0 :
  policy_ok rs policy_ → Ecs.config_ok ecs → ip_valid peer → queries query = [question] →
  (∀ e, subnet query = Some e → subnet_valid e) → cache_ok c0 →
  wp (resolve_inner env source policy_ ecs (Forward query) peer) (resolved rs policy_ ecs query question peer c0) never (world_start c0).
Proof.
  intros Hp Hecs Hpeer Hq Hsub Hok. unfold resolve_inner, resolved. apply wp_bind, wp_get. cbn [cache world_start]. apply wp_bind.
  pose proof (prepare_query_wp query peer ecs Hecs Hpeer Hsub (ex_intro _ question Hq)) as Hprep. unfold wp in Hprep.
  destruct (prepare query peer ecs tt) as [[[out c]|code| |] u]; [| |done..]; cbn [fst].
  - eapply wp_mono; [| |by apply (answer_query_wp env source Henv rs policy_ query question Hp Hq c out)]; [|done].
    intros m w' Hm. apply wp_ret. exists m. split; [done|]. split; [exact Hprep|exact Hm].
  - apply wp_ret, wp_ret. exists (error_response query code). split; [done|]. rewrite error_response_fields. split.
    + split; simpl; [done|by rewrite Hq|done|done].
    + split; [done|split; [done|split; [|done]]]. destruct Hprep as (e & _ & [[-> _]|[-> _]]); by_compute.
Qed.
Lemma resolved_metric rs policy_ ecs query question peer c0 r w w' :
  cache w' = cache w → asked w' = asked w → stores w' = stores w →
  resolved rs policy_ ecs query question peer c0 r w → resolved rs policy_ ecs query question peer c0 r w'.
Proof.
  intros Hc Ha Hs (m & -> & Hm). exists m. split; [done|]. destruct (prepare query peer ecs tt).1 as [[out c]|code| |]; [| |done..].
  - destruct Hm as (Hprep & Hok & Hr & sent & new & Ha' & Hs' & Hsend & Hnew & Hb). split; [done|]. split; [by rewrite Hc|].
    split; [done|]. exists sent, new. rewrite Ha Hs Hc. by split_and!.
  - by rewrite Hc Ha Hs.
Qed.

(** C1. A request from its bytes to its reply, whatever other tasks do to the
    cache between its steps, whatever the network answers and whatever work it
    shares. What cannot be decoded gets FORMERR or nothing, responses nothing,
    and an inadmissible query its error, without touching cache or network. An
    admitted query ends with exactly one reply, which bears the client's ID,
    question, flags and own subnet; AD is set only by the validating recursor,
    for a client that asked for it. The reply names no blocked name along its
    alias chain, or is the block answer of one. At most the prepared query and
    one retry leave for the network, the retry with the address of its family
    cut to nothing; a blocked question sends nothing and does not touch the
    cache. What is offered to the cache is stored under the epoch the request
    began in, in the namespace of the answer. A malformed or foreign subnet is
    refused before anything else happens. *)
Theorem request_to_reply rs policy_ ecs bytes peer c0 :
  policy_ok rs policy_ → Ecs.config_ok ecs → ip_valid peer → octets bytes → subnets_decoded → cache_ok c0 →
  wp (resolve_for_delivery env source policy_ ecs bytes peer)
    (λ r w', match (decode bytes tt).1 with
       | Ok q => is_response q = true ∧ r = None ∧ cache w' = c0 ∧ asked w' = [] ∨
           is_response q = false ∧ ¬ admitted q ∧ (∃ m, r = Some (mkReply m 512 (from_query q)) ∧ id m = id q ∧ is_response m = true ∧
             queries m = take 1 (queries q) ∧ sections m = [] ∧ response_code m ∈ [NotImp; FormErr; Refused; BADVERS]) ∧
             cache w' = c0 ∧ asked w' = [] ∨
           is_response q = false ∧ admitted q ∧ ∃ query question, query = strip_tcp_keepalive q ∧ subnet query = subnet q ∧
             queries q = [question] ∧ resolved rs policy_ ecs query question peer c0 r w'
       | _ => (r = None ∨ ∃ m, r = Some (mkReply m 512 padding_default) ∧ response_code m = FormErr ∧ sections m = []) ∧
           cache w' = c0 ∧ asked w' = []
       end)
    never (world_start c0).
Proof.
  intros Hp Hecs Hpeer Hoct Hsub Hok. unfold resolve_for_delivery. apply wp_bind.
  pose proof (decode_total bytes Hoct) as Hdec. unfold wp in Hdec.
  destruct (decode bytes tt) as [[q|u| |] []]; [| |done..]; cbn [fst]; apply wp_ret, wp_bind; unfold infallible.
  - pose proof (request_wp bytes q) as Hreq. unfold wp in Hreq at 1.
    pose proof (forwarded bytes q) as Hfwd.
    destruct (request_from_decoded bytes (Some q) tt) as [[req|?| |] u]; [|done..]. apply wp_ret, wp_bind. destruct req as [query|m p|].
    + destruct Hreq as (Hr & Ha & Hfields & _ & Hsubq). destruct (ad_question _ Ha) as (question & Hq & _).
      assert (queries query = [question]) as Hqq by by rewrite Hfields.
      destruct Hdec as [rest Hread]. eapply wp_mono; [| |apply (resolve_forward rs policy_ ecs query question peer c0); try done]; [|done|].
      * intros r w' Hres. apply wp_bind, counts_inc. intros w2 Hc2 Ha2 Hs2. apply wp_ret. right. right. split; [done|]. split; [done|].
        exists query, question. split_and!; [by eapply Hfwd|done|done|]. by eapply resolved_metric.
      * intros e He. eapply Hsub; [exact Hread|]. by rewrite -Hsubq.
    + destruct Hreq as (Hr & Hna & Hm & Hid & Hqs & Hsec & Hcode & -> & _). unfold resolve_inner. apply wp_bind, wp_get, wp_ret.
      apply wp_bind, counts_inc. intros w2 Hc2 Ha2 Hs2. apply wp_ret. right. left. split_and!; [done|done| |done|done].
      exists m. by split_and!.
    + unfold resolve_inner. apply wp_bind, wp_get, wp_ret. apply wp_bind, counts_inc. intros w2 Hc2 Ha2 Hs2. apply wp_ret. by left.
  - assert (∃ req, request_from_decoded bytes None tt = (Ok req, tt) ∧ (req = Drop_ ∨ ∃ i o, req = Protocol.Reply (error_msg i o FormErr) padding_default)) as (req & -> & Hreq).
    { simpl. destruct (header_read (decoder_new bytes)) as [[h d]|]; [|eexists; split; [done|by left]].
      destruct (h_response h); eexists; (split; [done|]); [by left|right; by eexists _, _]. }
    apply wp_ret, wp_bind. unfold resolve_inner. apply wp_bind, wp_get.
    destruct Hreq as [->|(i & o & ->)]; apply wp_ret, wp_bind, counts_inc; intros w2 Hc2 Ha2 Hs2; apply wp_ret; (split; [|done]); [by left|].
    right. eexists. split; [done|]. by rewrite error_msg_fields.
Qed.

(** C5. One run of [Exchange::run], in the foreground or refreshing, in any
    environment. It sends nothing and stores nothing when the cache has the
    answer by now; else it sends the prepared query once, and a second, anonymous
    query only after REFUSED to a query with a subnet. What it stores is the
    answer to the first query, for its own request and epoch, in the namespace of
    that answer (failures in the exact network sent), and the cache takes it only
    if its epoch is still that of the request; nothing comes of a retry. Stale
    data may stand in exactly for errors and for SERVFAIL that is not a failed
    validation, and work counts as admitted only with a stored answer. *)
Theorem exchange_contained x refreshing w :
  cache_ok (cache w) → queries (query x) ≠ [] →
  wp (run env source x refreshing)
    (λ a w', cache_ok (cache w') ∧ ∃ sent new, asked w' = asked w ++ sent ∧ stores w' = stores w ++ new ∧ exchanged env source x a sent new)
    never w.
Proof. intros Hok Hq. apply work_run_wp; [done..|]. intros a w' sent new ? ? ? ?. split; [done|by exists sent, new]. Qed.
End claims.

(** ** A request that meets an alias of a blocked name *)
Module ResolverWitness.
Import CanonicalWitness PrepareWitness TextNames.
#[local] Existing Instance host.
#[local] Existing Instance host_spec.
#[local] Existing Instance ListSlice.lib.
#[local] Existing Instance ListSlice.spec.
#[local] Existing Instance sha.
#[local] Existing Instance TextNames.names.
#[local] Existing Instance ListNet.lib.
#[local] Existing Instance ListNet.spec.
#[local] Existing Instance ListLru.lib.
#[local] Existing Instance ListLru.spec.
#[local] Existing Instance WireWitness.lib.
#[local] Existing Instance WireWitness.spec.
Definition request_ : Message := PolicyWitness.ask "w.org".
(** One octet is the request. *)
Definition lib : MessageLib := DnsWitness.messages (λ _, Some [7]) (λ b, match b with [_] => Some (request_, []) | _ => None end).
#[local] Existing Instance lib.
#[local] Instance lib_spec : MessageSpec := DnsWitness.messages_spec _ _.
#[local] Instance vec_spec : VecSpec.
Proof. split. intros m w Hw. injection Hw as <-. repeat constructor; lia. Qed.
#[local] Instance sizes : Layout := {| size_of_entry := 160; size_of_key := 96 |}.
#[local] Instance sizes_spec : LayoutSpec.
Proof. split; simpl; lia. Qed.
#[local] Instance rdata : RDataLib := {| rdata_to_bytes d := Some [1] |}.
#[local] Instance ips : IpParse := PolicyWitness.ips.

Definition policy_of_text : option Policy :=
  match local_rules_new PolicyWitness.text_rules with
  | Ok l => match (compile l 1000 default_limits (tt, 0%nat)).1 with Ok p => Some p | _ => None end
  | _ => None
  end.
Lemma policy_of_text_ok p : policy_of_text = Some p → ∃ rs, policy_ok rs p.
Proof.
  unfold policy_of_text. pose proof (local_rules_new_ok PolicyWitness.text_rules) as Hl.
  destruct (local_rules_new PolicyWitness.text_rules) as [l| | |]; [|done..]. destruct Hl as [Hl _].
  assert (0 ≤ retained_bytes default_limits) as H2 by reflexivity || (simpl; lia).
  assert (0 < max_rules default_limits) as H3 by (simpl; lia).
  pose proof (compile_wp l 1000 default_limits 0 Hl ltac:(lia) H2 H3) as Hwp. unfold wp in Hwp.
  destruct (compile l 1000 default_limits (tt, 0%nat)) as [[q| | |] s]; [|done..]. intros [= <-].
  destruct Hwp as (_ & _ & _ & rs & Hp & _). by exists rs.
Qed.
Definition config_ : CacheConfig :=
  mkConfig true 10 8000 4 86400 3600 5 1 25 (mkPrefetch true 2 10 32 100 5) (mkStale true 3600 30) (mkSharing false 3 600) [].
Lemma resolver_config_valid : config_valid config_.
Proof. split; [split; by_compute|by_compute|by_compute]. Qed.
Definition new_cache : option Cache := cache_new config_ (λ _, 0).
Definition env_ (answer : Message) : Env :=
  mkEnv (λ _ c, c) (λ n, Z.of_nat n) (λ _ _, inr (mkExchangeReply answer [])) (λ _ _, JOwn RoleLeader).
Lemma env_is_ok answer : message_ok answer → env_ok (env_ answer).
Proof. intros Hm. split; [intros; apply rtc_refl|]. by intros n m r [= <-]. Qed.
Definition no_ecs : EcsConfig := mkEcsConfig false 24 56.
Definition peer : IpAddr := V4 167838211.
(** One query leaves, and the client gets the refusal of the alias. *)
Definition refused (r : outcome unit (option Reply_) * World) : bool :=
  match r with
  | (Ok (Some y), w) => bool_decide (response_code (message y) = Refused) && bool_decide (length (asked w) = 1%nat) && bool_decide (length (stores w) = 1%nat)
  | _ => false
  end.
Definition aliased : Message :=
  mkMessage 7 true 0 false false true true false false 0 [PolicyWitness.question]
    [mkRr (PolicyWitness.name_of "w.org") 1 60 (RCname (PolicyWitness.name_of "b.ads.net"))] [] [] None None.
Lemma aliased_ok : message_ok aliased.
Proof. vm_compute. repeat constructor; discriminate. Qed.
Lemma request_tested :
  match policy_of_text, new_cache with
  | Some p, Some c => refused (resolve_for_delivery (env_ aliased) Forward_ p no_ecs [1] peer (world_start c))
  | _, _ => false
  end = true.
Proof. vm_compute. reflexivity. Qed.
Lemma request_to_reply_witness :
  ∃ p c0 m w', policy_of_text = Some p ∧ new_cache = Some c0 ∧
    resolve_for_delivery (env_ aliased) Forward_ p no_ecs [1] peer (world_start c0) = (Ok (Some (mkReply m 512 (from_query request_))), w') ∧
    response_code m = Refused ∧ length (asked w') = 1%nat ∧ for_client Forward_ request_ PolicyWitness.question m.
Proof.
  pose proof request_tested as Ht. destruct policy_of_text as [p|] eqn:Ep; [|discriminate Ht]. destruct new_cache as [c0|] eqn:Ec; [|discriminate Ht].
  destruct (policy_of_text_ok p Ep) as [rs Hp]. destruct (cache_new_ok _ _ _ resolver_config_valid Ec) as [Hok _].
  assert (Ecs.config_ok no_ecs) as Hecs by (split; simpl; lia).
  assert (ip_valid peer) as Hpeer by (split; vm_compute; congruence).
  assert (octets [1]) as Hoct by (repeat constructor; lia).
  assert (subnets_decoded) as Hsub.
  { intros [|b [|b2 rest]] m rest' e Hr; try discriminate Hr. injection Hr as <- <-. discriminate. }
  destruct (wp_total _ _ _ (request_to_reply (env_ aliased) Forward_ (env_is_ok _ aliased_ok) rs p no_ecs [1] peer c0
    Hp Hecs Hpeer Hoct Hsub Hok)) as (r & w' & Hrun & Hm).
  rewrite Hrun in Ht. unfold refused in Ht. assert ((decode [1] tt).1 = Ok request_) as Hdec by reflexivity. rewrite Hdec in Hm.
  destruct Hm as [(Hr & _)|[(_ & _ & _ & _ & Ha)|(_ & _ & query & question & Hq & _ & Hqq & m & -> & Hm)]]; [discriminate Hr| |].
  { destruct r as [y|]; [|discriminate Ht]. rewrite Ha andb_false_r in Ht. discriminate Ht. }
  apply andb_true_iff in Ht as [Ht _]. apply andb_true_iff in Ht as [Hcode Hlen].
  apply bool_decide_eq_true in Hcode. apply bool_decide_eq_true in Hlen.
  injection Hqq as <-. change (strip_tcp_keepalive request_) with request_ in Hq. subst query.
  exists p, c0, m, w'. split; [reflexivity|split; [reflexivity|split; [exact Hrun|split; [exact Hcode|split; [exact Hlen|]]]]].
  destruct (prepare request_ peer no_ecs tt).1 as [[out c]| | |].
  - destruct Hm as (_ & _ & (Hm & _) & _). exact Hm.
  - destruct Hm as (Hm & _). exact Hm.
  - destruct Hm.
  - destruct Hm.
Defined.

(** The network refuses a query with a subnet: it is asked again without. *)
Definition sent_ : ClientSubnet := mkSubnet (V4 167838208) 24 0.
Definition work : Work := mkWork request_ (mkContext (Some sent_) None) (set_subnet (Some sent_) request_) 0.
Definition refusal : Message := mkMessage 7 true 0 false false true true false false Refused [PolicyWitness.question] [] [] [] None None.
Definition retried (r : outcome unit WorkAnswer * World) : bool :=
  match r with
  | (Ok a, w) => negb (a_cached a) && bool_decide (length (asked w) = 2%nat)
  | _ => false
  end.
Lemma refusal_ok : message_ok refusal.
Proof. constructor. Qed.
Lemma tested_retry :
  match new_cache with Some c => retried (run (env_ refusal) Forward_ work false (world_start c)) | None => false end = true.
Proof. vm_compute. reflexivity. Qed.
Lemma exchange_contained_witness :
  ∃ c0 a w', new_cache = Some c0 ∧ run (env_ refusal) Forward_ work false (world_start c0) = (Ok a, w') ∧
    a_admitted a = false ∧ stores w' = [] ∧ ∃ q retry, asked w' = [q; retry] ∧ subnet retry = Some (mkSubnet (V4 0) 0 0).
Proof.
  pose proof tested_retry as Ht. destruct new_cache as [c0|] eqn:Ec; [|discriminate Ht].
  destruct (cache_new_ok _ _ _ resolver_config_valid Ec) as [Hok _].
  destruct (wp_total _ _ _ (exchange_contained (env_ refusal) Forward_ (env_is_ok _ refusal_ok) work false (world_start c0) Hok ltac:(discriminate)))
    as (a & w' & Hrun & _ & sent & new & Ha & Hs & Hex).
  rewrite Hrun in Ht. unfold retried in Ht. apply andb_true_iff in Ht as [_ Hlen]. apply bool_decide_eq_true in Hlen.
  exists c0, a, w'. split; [reflexivity|split; [exact Hrun|]].
  destruct Hex as [? -> ? ?|? -> ? ? ? ?|m scope ? -> ? ? ? ? ? ?|e n r Hout ? ? ? ? -> -> ? Had ?];
    rewrite Ha in Hlen; try discriminate Hlen.
  split; [exact Had|split; [exact Hs|]]. eexists _, _. split; [exact Ha|].
  injection Hout as <-. apply (subnet_set_subnet (Some (anonymous sent_))).
Defined.
End ResolverWitness.
