(* ===== verification/Text.v ===== *)
(** * Text

    The operations of [str] that the upstream settings, the update contract and
    the HTTP code use, on texts as lists of code points: prefixes, splits,
    trimming, and decimal numbers. *)
From S2P Require Import Prelude Std Canonical BlockAnswer Policy.
Set Default Goal Selector "!".
Set Warnings "-rewrite-rw".
Local Open Scope Z_scope.

Fixpoint strip_prefix (p t : Str) : option Str :=
  match p, t with
  | [], t => Some t
  | x :: p, y :: t => if bool_decide (x = y) then strip_prefix p t else None
  | _ :: _, [] => None
  end.
(** [str::split_once] *)
Fixpoint split_once (p t : Str) : option (Str * Str) :=
  match strip_prefix p t with
  | Some rest => Some ([], rest)
  | None => match t with
            | [] => None
            | c :: t => (λ '(a, b), (c :: a, b)) <$> split_once p t
            end
  end.
Definition I64_MAX : Z := 9223372036854775807.
Fixpoint digits_value (l : Str) (n : Z) : option Z :=
  match l with
  | [] => Some n
  | c :: l => if bool_decide (48 ≤ c ≤ 57) then digits_value l (10 * n + (c - 48)) else None
  end.
(** [str::parse::<i64>] *)
Definition parse_i64 (t : Str) : option Z :=
  let '(sign, digits) := match t with
                         | 45 :: d => (-1, d)
                         | 43 :: d => (1, d)
                         | d => (1, d)
                         end in
  if bool_decide (digits = []) then None else
  n ← digits_value digits 0;
  if bool_decide (- I64_MAX - 1 ≤ sign * n ≤ I64_MAX) then Some (sign * n) else None.
Fixpoint trim_start_matches (c : Z) (t : Str) : Str :=
  match t with x :: rest => if bool_decide (x = c) then trim_start_matches c rest else t | [] => [] end.
Definition trim_end_matches (c : Z) (t : Str) : Str := reverse (trim_start_matches c (reverse t)).
Definition is_digit (c : Z) : bool := bool_decide (48 ≤ c ≤ 57).
(** [{}] of an unsigned integer. *)
Fixpoint decimal_digits (fuel : nat) (n : Z) (l : Str) : Str :=
  match fuel with
  | O => l
  | S fuel =>
      let l := (48 + n mod 10) :: l in
      if bool_decide (n / 10 = 0) then l else decimal_digits fuel (n / 10) l
  end.
Definition decimal (n : Z) : Str := decimal_digits (S (Z.to_nat (Z.log2 n))) n [].
Fixpoint join (sep : Str) (l : list Str) : Str :=
  match l with [] => [] | [x] => x | x :: l => x ++ sep ++ join sep l end.

(** ** Decimal numbers *)
Lemma digits_value_app a b n : digits_value (a ++ b) n = digits_value a n ≫= digits_value b.
Proof. revert n. induction a as [|c a IH]; intros n; simpl; [done|]. case_bool_decide; [by rewrite IH|done]. Qed.
Lemma decimal_digits_spec fuel : ∀ n l k, 0 ≤ n < 10 ^ Z.of_nat fuel → 0 ≤ k →
  ∃ d, decimal_digits fuel n l = d ++ l ∧ digits_value d k = Some (k * 10 ^ Z.of_nat (length d) + n) ∧ forallb is_digit d = true ∧
    ((0 < fuel)%nat → d ≠ [] ∧ (d = [48] ∨ head d ≠ Some 48) ∧ (0 < n → 10 ^ (Z.of_nat (length d) - 1) ≤ n) ∧ (n = 0 → d = [48])).
Proof.
  induction fuel as [|fuel IH]; intros n l k Hn Hk.
  { exists []. simpl in *. split_and!; [done|f_equal; lia|done|lia]. }
  rewrite Nat2Z.inj_succ Z.pow_succ_r in Hn; last lia.
  pose proof (Z.div_mod n 10 ltac:(lia)) as Hd. pose proof (Z.mod_pos_bound n 10 ltac:(lia)) as Hm.
  assert (is_digit (48 + n mod 10) = true) as Hdig by (apply bool_decide_eq_true; lia).
  cbn [decimal_digits]. case_bool_decide as Hz.
  - exists [48 + n mod 10]. cbn [digits_value forallb length app]. rewrite bool_decide_true; last lia. rewrite Hdig.
    split_and!; [done|f_equal; simpl; lia|done|]. intros _. split_and!; [done| |simpl; lia|intros ->; done].
    destruct (decide (n mod 10 = 0)) as [->|]; [by left|right; simpl; intros [=]; lia].
  - assert (0 ≤ n / 10 < 10 ^ Z.of_nat fuel) as Hn' by (split; [apply Z.div_pos; lia|apply Z.div_lt_upper_bound; lia]).
    destruct (IH (n / 10) ((48 + n mod 10) :: l) k Hn' Hk) as (d & Hl & Hv & Hf & Hc).
    assert (0 < fuel)%nat as Hfuel by (destruct fuel; [simpl in Hn'; lia|lia]).
    destruct (Hc Hfuel) as (Hne & Hlead & Hlow & _).
    exists (d ++ [48 + n mod 10]). rewrite Hl -app_assoc. split; [done|]. rewrite digits_value_app Hv. cbn [mbind option_bind digits_value].
    rewrite bool_decide_true; last lia. rewrite length_app forallb_app Hf. cbn [forallb length]. rewrite Hdig.
    split_and!; [|done|].
    + f_equal. rewrite Nat.add_1_r Nat2Z.inj_succ Z.pow_succ_r; lia.
    + intros _. split_and!; [by destruct d| | |lia].
      * right. destruct d as [|c d]; [done|]. simpl. destruct Hlead as [[= -> ->]|Hh]; [|exact Hh].
        intros _. cbn [digits_value length] in Hv. rewrite bool_decide_true in Hv; last lia. injection Hv as Hv. simpl in Hv. lia.
      * intros _. specialize (Hlow ltac:(lia)).
        replace (Z.of_nat (length d + 1) - 1) with (Z.succ (Z.of_nat (length d) - 1)) by lia.
        assert (1 ≤ length d)%nat by (destruct d; [done|simpl; lia]). rewrite Z.pow_succ_r; lia.
Qed.
Lemma decimal_spec n : 0 ≤ n →
  digits_value (decimal n) 0 = Some n ∧ forallb is_digit (decimal n) = true ∧ decimal n ≠ [] ∧ (decimal n = [48] ∨ head (decimal n) ≠ Some 48) ∧
  (0 < n → 10 ^ (Z.of_nat (length (decimal n)) - 1) ≤ n) ∧ (n = 0 → decimal n = [48]).
Proof.
  intros Hn. unfold decimal. destruct (decimal_digits_spec (S (Z.to_nat (Z.log2 n))) n [] 0) as (d & Hl & Hv & Hf & Hc).
  - split; [done|]. pose proof (Z.log2_nonneg n). rewrite Nat2Z.inj_succ Z2Nat.id //.
    destruct (decide (n = 0)) as [->|]; [done|]. pose proof (Z.log2_spec n ltac:(lia)) as [_ Hlog].
    eapply Z.lt_le_trans; [exact Hlog|]. apply Z.pow_le_mono_l. lia.
  - done.
  - rewrite Hl app_nil_r. destruct (Hc ltac:(lia)) as (? & ? & ? & ?). by rewrite Hv Z.mul_0_l.
Qed.
(** A text of digits without a superfluous zero is the decimal form of its
    value. *)
Lemma digits_value_bound l : ∀ k n, 0 ≤ k → digits_value l k = Some n → k * 10 ^ Z.of_nat (length l) ≤ n < (k + 1) * 10 ^ Z.of_nat (length l).
Proof.
  induction l as [|c l IH]; intros k n Hk; cbn [digits_value length]; [intros [= ->]; simpl; lia|].
  case_bool_decide; [|done]. intros Hv. apply IH in Hv; [|lia]. rewrite Nat2Z.inj_succ Z.pow_succ_r; last lia.
  assert (0 < 10 ^ Z.of_nat (length l)) as HP by (apply Z.pow_pos_nonneg; lia). revert Hv HP. generalize (10 ^ Z.of_nat (length l)). nia.
Qed.
Lemma digits_value_inj l : ∀ l' k n, length l = length l' → 0 ≤ k → digits_value l k = Some n → digits_value l' k = Some n → l = l'.
Proof.
  induction l as [|c l IH]; intros [|c' l'] k n Hlen Hk; try done. cbn [digits_value]. case_bool_decide; [|done]. case_bool_decide; [|done].
  intros Hv Hv'. simpl in Hlen. pose proof (digits_value_bound l (10 * k + (c - 48)) n ltac:(lia) Hv) as Hb.
  pose proof (digits_value_bound l' (10 * k + (c' - 48)) n ltac:(lia) Hv') as Hb'.
  assert (length l = length l') as Hl by lia. rewrite Hl in Hb. assert (0 < 10 ^ Z.of_nat (length l')) as Hp by (apply Z.pow_pos_nonneg; lia).
  assert (c = c') as -> by nia. f_equal. apply (IH l' (10 * k + (c' - 48)) n Hl); [lia|exact Hv|exact Hv'].
Qed.
Lemma leading_digit_bound l n : digits_value l 0 = Some n → l ≠ [] → head l ≠ Some 48 → 10 ^ (Z.of_nat (length l) - 1) ≤ n.
Proof.
  destruct l as [|c l]; [done|]. cbn [digits_value length head]. case_bool_decide; [|done]. intros Hv _ Hh.
  pose proof (digits_value_bound l (10 * 0 + (c - 48)) n ltac:(lia) Hv) as [Hb _]. assert (c ≠ 48) by congruence.
  replace (Z.of_nat (S (length l)) - 1) with (Z.of_nat (length l)) by lia. pose proof (Z.pow_nonneg 10 (Z.of_nat (length l))). nia.
Qed.
Lemma canonical_decimal l n : digits_value l 0 = Some n → l ≠ [] → (l = [48] ∨ head l ≠ Some 48) → l = decimal n.
Proof.
  intros Hv Hne Hlead. assert (0 ≤ n) as Hn by (apply digits_value_bound in Hv; lia).
  destruct (decimal_spec n Hn) as (Hv' & _ & Hne' & Hlead' & Hlow & Hzero).
  destruct Hlead as [->|Hh].
  { injection Hv as <-. symmetry. by apply Hzero. }
  pose proof (leading_digit_bound l n Hv Hne Hh) as Hlb.
  assert (1 ≤ length l)%nat as Hl1 by (destruct l; [done|simpl; lia]).
  assert (0 < 10 ^ (Z.of_nat (length l) - 1)) as Hp by (apply Z.pow_pos_nonneg; lia). assert (0 < n) as Hpos by lia.
  apply (digits_value_inj l (decimal n) 0 n); [|done|exact Hv|exact Hv']. specialize (Hlow Hpos).
  pose proof (digits_value_bound l 0 n ltac:(lia) Hv) as [_ Hu]. pose proof (digits_value_bound (decimal n) 0 n ltac:(lia) Hv') as [_ Hu'].
  rewrite Z.mul_1_l in Hu. rewrite Z.mul_1_l in Hu'.
  assert (Z.of_nat (length l) - 1 < Z.of_nat (length (decimal n))) as Ha by (apply (Z.pow_lt_mono_r_iff 10); lia).
  assert (Z.of_nat (length (decimal n)) - 1 < Z.of_nat (length l)) as Hb by (apply (Z.pow_lt_mono_r_iff 10); lia).
  lia.
Qed.
