(* ===== verification/Upstreams.v ===== *)
(** * The upstream pool

    [src/upstreams.rs]: the text of an endpoint, the settings, and the pool's
    two ways to choose whom to ask: smooth weighted round robin, and a race
    with bounded extra queries. Deadlines and the transports behind a choice
    are elsewhere. *)
From S2P Require Import Prelude Std Net Names Canonical Prepare Radix ParseSource Dns BlockAnswer Policy Text.
Set Default Goal Selector "!".
Set Warnings "-rewrite-rw".
Local Open Scope Z_scope.
Local Open Scope rust_scope.

(** ** Endpoints *)
Record SocketAddr : Type := mkSocketAddr { sa_ip : IpAddr; sa_port : Z }.
Inductive Transport : Type := Udp | Tcp | Tls | Https | Quic.
#[export] Instance Transport_eq_dec : EqDecision Transport.
Proof. solve_decision. Defined.
#[export] Instance SocketAddr_eq_dec : EqDecision SocketAddr.
Proof. solve_decision. Defined.
Record Endpoint : Type := mkEndpoint {
  label : Str;
  protocol : Transport;
  host : Str;
  port : Z;
  path : Str;
  weight : Z;
}.
Inductive EndpointError : Type :=
  | LineTooLong | EmptyUpstream | WeightSyntax | WeightNumber | WeightRange | UnknownProtocol | UnsupportedParts
  | PathNotAllowed | BadAuthority | EmptyHost | BadPort | ZeroPort | NotUnicast | BadHostname | BadPath.
(** [http::uri]: the host, whether there is a port text, and its value; and
    whether a path parses. *)
Class UriLib := {
  authority : Str → option (Str * bool * option Z);
  path_and_query : Str → bool;
}.
Class UriSpec `{UriLib} : Prop := {
  authority_port t h b p : authority t = Some (h, b, Some p) → 0 ≤ p ≤ 65535;
}.
Definition valid_address (a : SocketAddr) : bool :=
  let ip := to_canonical (sa_ip a) in
  negb (bool_decide (sa_port a = 0)) && negb (is_unspecified ip) && negb (is_multicast ip) &&
  negb (match ip with V4 v => is_broadcast v | V6 _ => false end).
Definition scheme_of (scheme : Str) : option (Transport * Z) :=
  if bool_decide (scheme = lit "udp") then Some (Udp, 53) else
  if bool_decide (scheme = lit "tcp") then Some (Tcp, 53) else
  if bool_decide (scheme = lit "tls") then Some (Tls, 853) else
  if bool_decide (scheme = lit "https") then Some (Https, 443) else
  if bool_decide (scheme = lit "quic") then Some (Quic, 853) else None.
Definition HYPHEN : Z := 45.
Definition host_label (l : Str) : bool :=
  negb (bool_decide (l = [])) && bool_decide (length l ≤ 63)%nat && negb (bool_decide (head l = Some HYPHEN)) &&
  negb (bool_decide (last l = Some HYPHEN)) && forallb (λ c, is_ascii_alphanumeric c || bool_decide (c = HYPHEN)) l.
Definition hostname (h : Str) : bool :=
  bool_decide (length h ≤ 253)%nat && forallb host_label (split_on DOT h).

Section endpoint.
Context `{UriLib} `{IpParse}.
Definition E (A : Type) : Type := M unit EndpointError A.
Definition ensure_ (e : EndpointError) (b : bool) : E unit := if b then ret tt else fail e.
Definition parse_weight (parts : list Str) : E Z :=
  match parts with
  | [] => ret 1
  | value :: _ =>
      let* n := ok_or WeightSyntax (strip_prefix (lit "weight=") value) in
      ok_or WeightNumber (parse_i64 n)
  end.
(** The host is ASCII: the crate accepts no other authority, so its bytes are
    its characters. *)
Definition parse_host (authority_ : Str) (default_port : Z) : E (Str * Z) :=
  let* (h, has_port, port_u16) := ok_or BadAuthority (authority authority_) in
  let h := to_ascii_lowercase <$> trim_end_matches 93 (trim_start_matches 91 h) in
  ensure_ EmptyHost (negb (bool_decide (h = [])));;;
  ensure_ BadPort (negb has_port || bool_decide (is_Some port_u16));;;
  let port := default default_port port_u16 in
  ensure_ ZeroPort (negb (bool_decide (port = 0)));;;
  match parse_ip (utf8 h) with
  | Some ip => ensure_ NotUnicast (valid_address (mkSocketAddr ip port));;; ret (h, port)
  | None => ensure_ BadHostname (hostname h);;; ret (h, port)
  end.
Definition parse_endpoint (line : Str) : E Endpoint :=
  ensure_ LineTooLong (bool_decide (length (utf8 line) ≤ 2048)%nat);;;
  match split_whitespace line with
  | [] => fail EmptyUpstream
  | endpoint :: parts =>
      let* weight := parse_weight parts in
      ensure_ WeightRange (bool_decide (length parts ≤ 1)%nat && bool_decide (1 ≤ weight ≤ 1000));;;
      let (scheme, address) := default (lit "udp", endpoint) (split_once (lit "://") endpoint) in
      let* (protocol, default_port) := ok_or UnknownProtocol (scheme_of scheme) in
      ensure_ UnsupportedParts (forallb (λ c, negb (bool_decide (c ∈ lit "@?#"))) address);;;
      let (authority_, path) := match split_once (lit "/") address with
                                | Some (a, p) => (a, lit "/" ++ p)
                                | None => (address, lit "/dns-query")
                                end in
      ensure_ PathNotAllowed (bool_decide (protocol = Https) || forallb (λ c, negb (bool_decide (c ∈ lit "/"))) address);;;
      let* (host, port) := parse_host authority_ default_port in
      ensure_ BadPath (path_and_query path);;;
      ret (mkEndpoint endpoint protocol host port path weight)
  end.

(** ** Settings *)
Inductive Mode : Type := Weighted | Parallel.
#[export] Instance Mode_eq_dec : EqDecision Mode.
Proof. solve_decision. Defined.
Record PoolSettings : Type := mkPoolSettings { pool_enabled : bool; max_connections : Z; idle_timeout_ms : Z }.
Definition pool_valid (p : PoolSettings) : bool :=
  bool_decide (1 ≤ max_connections p ≤ 256) && bool_decide (1 ≤ idle_timeout_ms p ≤ 600000).
Record Settings : Type := mkSettings {
  servers : list Str;
  mode : Mode;
  bootstrap : list SocketAddr;
  max_parallel : Z;
  max_extra_inflight : Z;
  prefer_h3 : bool;
  dot_pool : PoolSettings;
}.
(** The addresses the server itself listens at. *)
Record Listeners : Type := mkListeners {
  listen : SocketAddr;
  dot : option SocketAddr;
  doh : option SocketAddr;
  doq : option SocketAddr;
}.
Definition listeners (c : Listeners) (p : Transport) : list SocketAddr :=
  match p with
  | Udp | Tcp => [listen c]
  | Tls => option_list (dot c)
  | Https => option_list (doh c)
  | Quic => option_list (doq c)
  end.
Definition targets_self (a listener : SocketAddr) : bool :=
  let target := to_canonical (sa_ip a) in
  let bound := to_canonical (sa_ip listener) in
  bool_decide (sa_port a = sa_port listener) && (bool_decide (target = bound) || (is_unspecified bound && is_loopback target)).
Definition not_self (a : SocketAddr) (l : list SocketAddr) : bool := negb (existsb (targets_self a) l).
Inductive SettingsError : Type :=
  | BadPool | ServerCount | ParallelRange | ParallelTooFew | ExtraRange | BootstrapCount | BootstrapAddress | SelfTarget
  | BadEndpoint (e : EndpointError) | DuplicateEndpoint | BootstrapNeeded.
Definition ES (A : Type) : Type := M unit SettingsError A.
Definition ensure_s (e : SettingsError) (b : bool) : ES unit := if b then ret tt else fail e.
Definition endpoint_key (e : Endpoint) : Transport * Str * Z * Str := (protocol e, host e, port e, path e).
Definition endpoint_of (line : Str) : ES Endpoint := λ u,
  match parse_endpoint line tt with
  | (Ok e, _) => (Ok e, u)
  | (Err e, _) => (Err (BadEndpoint e), u)
  | (Panic, _) => (Panic, u)
  | (Diverge, _) => (Diverge, u)
  end.
Fixpoint validate_servers (s : Settings) (c : Listeners) (lines : list Str) (seen : list (Transport * Str * Z * Str)) : ES unit :=
  match lines with
  | [] => ret tt
  | line :: lines =>
      let* spec := endpoint_of line in
      ensure_s DuplicateEndpoint (bool_decide (endpoint_key spec ∉ seen));;;
      ensure_s BootstrapNeeded (bool_decide (is_Some (parse_ip (utf8 (host spec)))) || negb (bool_decide (bootstrap s = [])));;;
      ensure_s SelfTarget (match parse_ip (utf8 (host spec)) with
                           | Some ip => not_self (mkSocketAddr ip (port spec)) (listeners c (protocol spec))
                           | None => true
                           end);;;
      validate_servers s c lines (endpoint_key spec :: seen)
  end.
Fixpoint validate_bootstrap (c : Listeners) (l : list SocketAddr) : ES unit :=
  match l with
  | [] => ret tt
  | a :: l =>
      ensure_s BootstrapAddress (valid_address a);;;
      ensure_s SelfTarget (not_self a [listen c]);;;
      validate_bootstrap c l
  end.
Definition validate (s : Settings) (c : Listeners) : ES unit :=
  ensure_s BadPool (pool_valid (dot_pool s));;;
  ensure_s ServerCount (bool_decide (1 ≤ length (servers s) ≤ 32)%nat);;;
  ensure_s ParallelRange (bool_decide (1 ≤ max_parallel s ≤ 32));;;
  ensure_s ParallelTooFew (negb (bool_decide (mode s = Parallel)) || bool_decide (Z.of_nat (length (servers s)) ≤ max_parallel s));;;
  ensure_s ExtraRange (bool_decide (1 ≤ max_extra_inflight s ≤ 65536));;;
  ensure_s BootstrapCount (bool_decide (length (bootstrap s) ≤ 8)%nat);;;
  validate_bootstrap c (bootstrap s);;;
  validate_servers s c (servers s) [].
End endpoint.

(** ** Smooth weighted round robin *)
(** [i64] addition; overflow panics. *)
Definition add_i64 (a b : Z) : option Z := if bool_decide (- I64_MAX - 1 ≤ a + b ≤ I64_MAX) then Some (a + b) else None.
(** The loop over the endpoints from index [i], with their weights. *)
Fixpoint select_loop (ws : list Z) (i : nat) (selected : nat) (total : Z) : M (list Z) unit (nat * Z) :=
  match ws with
  | [] => ret (selected, total)
  | w :: ws =>
      let* scores := get in
      let* score := expect (scores !! i ≫= λ s, add_i64 s w) in
      put (<[i := score]> scores);;;
      let* total := expect (add_i64 total w) in
      let* best := expect (<[i := score]> scores !! selected) in
      select_loop ws (S i) (if bool_decide (best < score) then i else selected) total
  end.
Definition select (ws : list Z) : M (list Z) unit nat :=
  let* (selected, total) := select_loop ws 0 0 0 in
  let* scores := get in
  let* score := expect (scores !! selected ≫= λ s, add_i64 s (- total)) in
  put (<[selected := score]> scores);;;
  ret selected.

(** ** The pool *)
Definition usize_mod : Z := 18446744073709551616.
Record Pool : Type := mkPool {
  endpoints : list Endpoint;
  settings : Settings;
  scores : list Z;
  cursor : Z;
  extra : nat;
  shut_down : bool;
}.
Definition with_scores (f : list Z → list Z) (p : Pool) : Pool := mkPool (endpoints p) (settings p) (f (scores p)) (cursor p) (extra p) (shut_down p).
Definition with_race (c : Z) (e : nat) (p : Pool) : Pool := mkPool (endpoints p) (settings p) (scores p) c e (shut_down p).
Definition pool_shutdown (p : Pool) : Pool := mkPool (endpoints p) (settings p) (scores p) (cursor p) (extra p) true.
(** [collect] into a [Result]: the first error ends it. *)
Fixpoint pool_endpoints `{UriLib} `{IpParse} (lines : list Str) : ES (list Endpoint) :=
  match lines with
  | [] => ret []
  | line :: lines =>
      let* e := endpoint_of line in
      let* l := pool_endpoints lines in
      ret (e :: l)
  end.
Definition pool_new `{UriLib} `{IpParse} (s : Settings) : ES Pool :=
  let* l := pool_endpoints (servers s) in
  ret (mkPool l s (replicate (length l) 0) 0 (Z.to_nat (max_extra_inflight s)) false).

(** The endpoints one request asks: the first freely, the others while extra
    permits last. *)
Fixpoint race_indices (start n : nat) (count : nat) (offset permits : nat) : list nat :=
  match count with
  | O => []
  | S count =>
      let index := ((start + offset) mod n)%nat in
      match offset with
      | O => index :: race_indices start n count 1 permits
      | _ => match permits with
             | O => []
             | S permits => index :: race_indices start n count (S offset) permits
             end
      end
  end.
Inductive PoolError : Type := PoolShutDown | DeadlineExhausted.
(** What [exchange_inner] does before it waits: the endpoints it asks. *)
Definition choose (before_deadline : bool) : M Pool PoolError (list nat) :=
  let* p := get in
  (if shut_down p then fail PoolShutDown else ret tt);;;
  (if before_deadline then ret tt else fail DeadlineExhausted);;;
  let n := length (endpoints p) in
  match mode (settings p) with
  | Weighted =>
      let* index := (λ p, match select (weight <$> endpoints p) (scores p) with
                          | (Ok i, l) => (Ok i, with_scores (λ _, l) p)
                          | (_, l) => (Panic, with_scores (λ _, l) p)
                          end) in
      ret [index]
  | Parallel =>
      let start := Z.to_nat (cursor p mod Z.of_nat n) in
      let asked := race_indices start n (n `min` Z.to_nat (max_parallel (settings p))) 0 (extra p) in
      put (with_race ((cursor p + 1) mod usize_mod) (extra p - pred (length asked))%nat p);;;
      ret asked
  end.
(** The requests of a race: each but the first holds a permit. *)
Definition requests (asked : list nat) : list (nat * bool) :=
  match asked with
  | [] => []
  | i :: l => (i, false) :: ((λ i, (i, true)) <$> l)
  end.
(** A request that ends or is dropped gives its own permit back. *)
Definition finish_request (r : nat * bool) (p : Pool) : Pool := if r.2 then with_race (cursor p) (S (extra p)) p else p.
(** The end of a race drops the requests that still run. *)
Definition finish_race (running : list (nat * bool)) (p : Pool) : Pool := foldr finish_request p running.

(** ** The answer *)
Section answer.
Context `{NameLib}.
Definition conclusive (m : Message) : bool := bool_decide (response_code m = NoError ∨ response_code m = NXDomain).
(** A race, its requests in the order in which they end; [answer] is what each
    endpoint answers, [None] an error. The result carries the endpoint it came
    from. *)
Fixpoint race_results (answer : nat → option Message) (failure : option (nat * Message)) (running : list (nat * bool))
    : M Pool PoolError (option (nat * Message)) :=
  match running with
  | [] => ret failure
  | r :: rest =>
      let* p := get in
      put (finish_request r p);;;
      match answer r.1 with
      | Some m =>
          if conclusive m then
            let* p := get in
            put (finish_race rest p);;;
            ret (Some (r.1, m))
          else race_results answer (Some (r.1, m)) rest
      | None => race_results answer failure rest
      end
  end.
(** [arrival] puts the requests in the order in which they end. *)
Definition exchange_inner (answer : nat → option Message) (arrival : list (nat * bool) → list (nat * bool)) (before_deadline : bool)
    : M Pool PoolError (option (nat * Message)) :=
  let* asked := choose before_deadline in
  let* p := get in
  match mode (settings p), asked with
  | Weighted, i :: _ => ret (pair i <$> answer i)
  | _, _ => race_results answer None (arrival (requests asked))
  end.
End answer.
