(* ===== verification/UpstreamsSafe.v ===== *)
(** * The upstream pool is fair and bounded

    What the definitions of [Upstreams] promise: accepted settings describe
    distinct, reachable endpoints that are not the server itself; weighted
    selection neither overflows nor starves and gives every endpoint exactly
    its share; races stay within the permits and answer with what they got. *)
From S2P Require Import Prelude Std Net Names Canonical Prepare Radix ParseSource Dns BlockAnswer Policy Text Upstreams.
Set Default Goal Selector "!".
Set Warnings "-rewrite-rw".
Local Open Scope Z_scope.
Local Open Scope rust_scope.

(** ** Sums *)
Definition sum_z (l : list Z) : Z := foldr Z.add 0 l.
Lemma sum_z_zip s ws : length s = length ws → sum_z (zip_with Z.add s ws) = sum_z s + sum_z ws.
Proof. revert ws. induction s as [|x s IH]; intros [|w ws] ?; simplify_eq/=; [done|]. rewrite IH //. lia. Qed.
Lemma sum_z_update (i : nat) (l : list Z) x y : l !! i = Some x → sum_z (<[i := y]> l) = sum_z l - x + y.
Proof. revert i. induction l as [|z l IH]; intros [|i] ?; simplify_eq/=; [lia|]. rewrite (IH i) //. lia. Qed.
Lemma sum_z_upper c l : Forall (λ x, x ≤ c) l → sum_z l ≤ c * Z.of_nat (length l).
Proof. induction 1; simpl; lia. Qed.
Lemma sum_z_lower c l : Forall (λ x, c ≤ x) l → c * Z.of_nat (length l) ≤ sum_z l.
Proof. induction 1; simpl; lia. Qed.
Lemma sum_z_elem c (i : nat) l x : Forall (λ x, c ≤ x) l → l !! i = Some x → x + c * (Z.of_nat (length l) - 1) ≤ sum_z l.
Proof.
  intros Hl Hx. pose proof (sum_z_lower c (<[i := c]> l)) as Hc.
  rewrite length_insert (sum_z_update i l x) // in Hc.
  assert (Forall (λ x, c ≤ x) (<[i := c]> l)) as Hi by (apply Forall_insert; [done|lia]).
  specialize (Hc Hi). lia.
Qed.

(** ** Weighted selection *)
Section weighted.
Context (ws : list Z).
Hypothesis Hn : (1 ≤ length ws ≤ 32)%nat.
Hypothesis Hw : Forall (λ w, 1 ≤ w ≤ 1000) ws.
Definition total : Z := sum_z ws.

Lemma total_bound : 1 ≤ total ∧ Z.of_nat (length ws) ≤ total ≤ 1000 * Z.of_nat (length ws).
Proof.
  pose proof (sum_z_lower 1 ws) as Hlo. pose proof (sum_z_upper 1000 ws) as Hhi. fold total in Hlo, Hhi.
  assert (Forall (λ w, 1 ≤ w) ws) as Hl by (eapply Forall_impl; [exact Hw|simpl; lia]).
  assert (Forall (λ w, w ≤ 1000) ws) as Hh by (eapply Forall_impl; [exact Hw|simpl; lia]).
  specialize (Hlo Hl). specialize (Hhi Hh). lia.
Qed.
(** What holds between selections. *)
Record level (s : list Z) : Prop := {
  lv_len : length s = length ws;
  lv_sum : sum_z s = 0;
  lv_low : Forall (λ x, 1 - total ≤ x) s;
}.
Lemma level_high s (i : nat) x : level s → s !! i = Some x → 1 - total ≤ x ≤ 31 * (total - 1).
Proof.
  intros [Hl Hs Hlow] Hx. pose proof total_bound. split; [by eapply Forall_lookup_1 in Hx|].
  pose proof (sum_z_elem _ i s x Hlow Hx). rewrite Hs Hl in H0.
  assert ((total - 1) * (Z.of_nat (length ws) - 1) ≤ (total - 1) * 31); [|lia]. apply Z.mul_le_mono_nonneg_l; lia.
Qed.
Lemma add_i64_ok a b : -I64_MAX - 1 ≤ a + b ≤ I64_MAX → add_i64 a b = Some (a + b).
Proof. intros. unfold add_i64. by rewrite bool_decide_true. Qed.

Lemma select_loop_wp l : ∀ (i selected : nat) tot s,
  length s = (i + length l)%nat → (selected < length s)%nat →
  Forall (λ w, 1 ≤ w ≤ 1000) l → (∀ (j : nat) x, (i ≤ j)%nat → s !! j = Some x → -1000000 ≤ x ≤ 1000000) →
  (i + length l ≤ 32)%nat → 0 ≤ tot ≤ 1000 * Z.of_nat i →
  (selected < i ∨ i = 0 ∧ selected = 0)%nat →
  (∀ (j : nat) x m, (j < i)%nat → s !! j = Some x → s !! selected = Some m → x ≤ m) →
  wp (select_loop l i selected tot)
    (λ r s', length s' = length s ∧
             (∀ (j : nat) x, s !! j = Some x → s' !! j = Some (x + if bool_decide (j < i)%nat then 0 else default 0 (l !! (j - i)%nat))) ∧
             r.2 = tot + sum_z l ∧
             ∃ m, s' !! r.1 = Some m ∧ Forall (λ x, x ≤ m) s') (λ _ _, False) s.
Proof.
  induction l as [|w l IH]; intros i selected tot s Hlen Hsel Hl Hs Hil Htot Hinv Hmax; simpl.
  - wp_pure. simpl in Hlen. split_and!; [done| |simpl; lia|].
    + intros j x Hj. rewrite Hj. f_equal. case_bool_decide; lia.
    + destruct (lookup_lt_is_Some_2 s selected Hsel) as [m Hm]. exists m. split; [done|].
      apply Forall_lookup. intros j x Hx. eapply Hmax; [|done..]. apply lookup_lt_Some in Hx. lia.
  - apply Forall_cons in Hl as [Hw1 Hl]. simpl in *.
    destruct (lookup_lt_is_Some_2 s i) as [x Hx]; [lia|]. pose proof (Hs i x ltac:(lia) Hx) as Hxb.
    wp_pure. rewrite Hx /= add_i64_ok; last (unfold I64_MAX; lia). wp_pure.
    rewrite add_i64_ok; last (unfold I64_MAX; lia). wp_pure.
    set (s1 := <[i := x + w]> s). assert (length s1 = length s) as Hl1 by apply length_insert.
    assert (s1 !! i = Some (x + w)) as Hi1 by (apply list_lookup_insert_eq; lia).
    assert (∀ j : nat, j ≠ i → s1 !! j = s !! j) as Hne1 by (intros; by apply list_lookup_insert_ne).
    destruct (lookup_lt_is_Some_2 s1 selected) as [best Hbest]; [lia|]. rewrite Hbest. wp_pure.
    eapply wp_mono; [| |apply IH]; [|done|lia|case_bool_decide; lia|done| |lia|lia|case_bool_decide; lia|].
    + intros [sel' tot'] s' (Hl' & Hadd & Ht & Hm). cbn [fst snd] in *. split_and!; [lia| |lia|done].
      intros j y Hy. destruct (decide (j = i)) as [->|Hne].
      * rewrite (Hadd _ _ Hi1). rewrite Hx in Hy. injection Hy as <-. f_equal.
        rewrite bool_decide_true; last (lia). rewrite bool_decide_false; last (lia). rewrite Nat.sub_diag. simpl. lia.
      * rewrite -(Hne1 _ Hne) in Hy. rewrite (Hadd _ _ Hy). f_equal. f_equal.
        repeat case_bool_decide; [done|lia|lia|].
        destruct (j - i)%nat as [|k] eqn:Ek; [lia|]. replace (j - S i)%nat with k by lia. done.
    + intros j y Hj Hy. rewrite Hne1 in Hy; last (lia). apply (Hs j y); [lia|done].
    + intros j y m Hj Hy Hm. case_bool_decide as Hlt.
      * rewrite Hi1 in Hm. injection Hm as <-. destruct (decide (j = i)) as [->|Hne]; [rewrite Hi1 in Hy; injection Hy; lia|].
        destruct Hinv as [Hsi|[-> ->]]; [|lia]. rewrite Hne1 in Hbest; last (lia). rewrite Hne1 in Hy; last done.
        pose proof (Hmax j y best ltac:(lia) Hy Hbest). lia.
      * rewrite Hbest in Hm. injection Hm as <-. destruct (decide (j = i)) as [->|Hne]; [rewrite Hi1 in Hy; injection Hy; lia|].
        destruct Hinv as [Hsi|[-> ->]]; [|lia]. rewrite Hne1 in Hbest; last (lia). rewrite Hne1 in Hy; last done.
        apply (Hmax j y best ltac:(lia) Hy Hbest).
Qed.

(** One selection: every score grows by its weight, the selected one falls by
    the total. *)
Lemma select_wp s : level s →
  wp (select ws)
    (λ i s', (i < length ws)%nat ∧ level s' ∧
             ∀ (j : nat) x w, s !! j = Some x → ws !! j = Some w →
               s' !! j = Some (x + w - if bool_decide (j = i) then total else 0)) (λ _ _, False) s.
Proof.
  intros Hlv. pose proof total_bound as (Ht1 & Ht2 & Ht3). pose proof (lv_len _ Hlv) as Hlen.
  unfold select. wp_pure.
  eapply wp_mono; [| |apply select_loop_wp]; [|done|simpl; lia|lia|done| |simpl; lia|lia|by right|lia].
  - intros [i tot] s1 (Hl1 & Hadd & Htot & m & Hm & Hmax). cbn [fst snd] in *. wp_pure.
    replace tot with total by (unfold total; lia). rewrite Hm /=.
    assert (i < length ws)%nat as Hi by (apply lookup_lt_Some in Hm; lia).
    assert (s1 = zip_with Z.add s ws) as Hs1.
    { apply list_eq. intros j. rewrite lookup_zip_with. destruct (s !! j) as [x|] eqn:Ej; simpl.
      - rewrite (Hadd j x Ej). rewrite bool_decide_false; last (lia). rewrite Nat.sub_0_r.
        destruct (lookup_lt_is_Some_2 ws j) as [w Hwj]; [apply lookup_lt_Some in Ej; lia|]. by rewrite Hwj.
      - apply lookup_ge_None in Ej. apply lookup_ge_None. lia. }
    assert (sum_z s1 = total) as Hsum by (rewrite Hs1 sum_z_zip //; rewrite (lv_sum _ Hlv); unfold total; lia).
    assert (1 ≤ m) as Hm1.
    { destruct (decide (1 ≤ m)) as [|Hn0]; [done|]. assert (Forall (λ x, x ≤ 0) s1) as H0.
      { eapply Forall_impl; [exact Hmax|simpl; lia]. } apply sum_z_upper in H0. lia. }
    assert (m ≤ total + 31 * total) as Hm2.
    { rewrite Hs1 lookup_zip_with in Hm. destruct (s !! i) as [x|] eqn:Ex; [|done]. simpl in Hm.
      destruct (ws !! i) as [w|] eqn:Ew; [|done]. simpl in Hm. injection Hm as <-.
      pose proof (level_high s i x Hlv Ex). pose proof (sum_z_elem 1 i ws w) as Hz.
      assert (Forall (λ w, 1 ≤ w) ws) as Hl by (eapply Forall_impl; [exact Hw|simpl; lia]).
      specialize (Hz Hl Ew). fold total in Hz. lia. }
    rewrite add_i64_ok; last (unfold I64_MAX; lia). wp_pure. split_and!; [done| |].
    + split.
      * rewrite length_insert. lia.
      * rewrite (sum_z_update i s1 m) //. lia.
      * apply Forall_insert; [|lia]. apply Forall_lookup. intros j y Hy.
        rewrite Hs1 lookup_zip_with in Hy. destruct (s !! j) as [x|] eqn:Ex; [|done]. simpl in Hy.
        destruct (ws !! j) as [w|] eqn:Ew; [|done]. injection Hy as <-.
        pose proof (level_high s j x Hlv Ex). pose proof (Forall_lookup_1 _ _ _ _ Hw Ew). simpl in *. lia.
    + intros j x w Hx Hwj. case_bool_decide as Hj.
      * subst j. rewrite list_lookup_insert_eq; last (lia). f_equal.
        rewrite Hs1 lookup_zip_with Hx Hwj /= in Hm. injection Hm as <-. lia.
      * rewrite list_lookup_insert_ne //. rewrite Hs1 lookup_zip_with Hx Hwj /=. f_equal. lia.
  - intros j x _ Hx. pose proof (level_high s j x Hlv Hx). lia.
Qed.
End weighted.

(** ** Endpoints and settings *)
Section endpoint.
Context `{UriLib} `{!UriSpec} `{IpParse}.

(** What the text of an endpoint promises, whatever the settings. *)
Record endpoint_sound (e : Endpoint) : Prop := {
  es_weight : 1 ≤ weight e ≤ 1000;
  es_port : 1 ≤ port e ≤ 65535;
  es_host : match parse_ip (utf8 (host e)) with
            | Some ip => valid_address (mkSocketAddr ip (port e)) = true
            | None => hostname (host e) = true
            end;
  es_path : path e = lit "/dns-query" ∨ protocol e = Https ∧ head (path e) = Some 47;
  es_uri : path_and_query (path e) = true;
}.
Lemma wp_ensure_endpoint e b (Q : unit → unit → Prop) (R : EndpointError → unit → Prop) u :
  (b = true → Q tt u) → (b = false → R e u) → wp (ensure_ e b) Q R u.
Proof. destruct b; rewrite /wp /ensure_ /=; auto. Qed.
Lemma wp_ensure_setting e b (Q : unit → unit → Prop) (R : SettingsError → unit → Prop) u :
  (b = true → Q tt u) → (b = false → R e u) → wp (ensure_s e b) Q R u.
Proof. destruct b; rewrite /wp /ensure_s /=; auto. Qed.
Lemma parse_host_wp a d u : 1 ≤ d ≤ 65535 →
  wp (parse_host a d)
    (λ r _, 1 ≤ r.2 ≤ 65535 ∧ match parse_ip (utf8 r.1) with
                             | Some ip => valid_address (mkSocketAddr ip r.2) = true
                             | None => hostname r.1 = true
                             end) (λ _ _, True) u.
Proof.
  intros Hd. unfold parse_host. wp_pure. apply wp_ok_or; [|done]. intros [[h has] p] Ha.
  wp_pure. apply wp_ensure_endpoint; [|done]. intros _. wp_pure. apply wp_ensure_endpoint; [|done]. intros Hp.
  wp_pure. apply wp_ensure_endpoint; [|done]. intros Hz.
  assert (1 ≤ default d p ≤ 65535) as Hb.
  { destruct p as [p|]; [|done]. apply authority_port in Ha. apply negb_true_iff, bool_decide_eq_false in Hz. simpl in *. lia. }
  destruct (parse_ip _) eqn:Eip; wp_pure; (apply wp_ensure_endpoint; [|done]); intros Hok; wp_pure; cbn [fst snd]; by rewrite Eip.
Qed.
Lemma split_once_slash a l r : split_once (lit "/") a = Some (l, r) → 47 ∈ a.
Proof.
  revert l r. induction a as [|x a IH]; intros l r; simpl; [done|]. case_bool_decide as E; [subst; by left|].
  destruct (split_once _ a) as [[l' r']|] eqn:Es; [|done]. intros _. right. by eapply IH.
Qed.
Lemma parse_endpoint_wp line u : wp (parse_endpoint line) (λ e _, endpoint_sound e) (λ _ _, True) u.
Proof.
  unfold parse_endpoint. wp_pure. apply wp_ensure_endpoint; [|done]. intros _.
  destruct (split_whitespace line) as [|endpoint parts]; [done|]. wp_pure.
  eapply (wp_mono _ (λ _ _, True) _ (λ _ _, True)); [|done|].
  2: { unfold parse_weight. destruct parts; [done|]. wp_pure. apply wp_ok_or; [|done]. intros. by apply wp_ok_or. }
  intros w u2 _. wp_pure. apply wp_ensure_endpoint; [|done]. intros [_ Hw%bool_decide_eq_true]%andb_true_iff.
  destruct (default _ _) as [scheme address]. wp_pure. apply wp_ok_or; [|done]. intros [proto dport] Hs. wp_pure.
  apply wp_ensure_endpoint; [|done]. intros _.
  assert (1 ≤ dport ≤ 65535) as Hd by (unfold scheme_of in Hs; repeat case_bool_decide; simplify_eq; lia).
  destruct (match split_once _ _ with Some _ => _ | None => _ end) as [auth pth] eqn:Ep. wp_pure.
  apply wp_ensure_endpoint; [|done]. intros Hslash. wp_pure.
  eapply wp_mono; [|done|by apply parse_host_wp]. intros [h p] u3 (Hp & Hh). cbn [fst snd] in *. wp_pure.
  apply wp_ensure_endpoint; [|done]. intros Hq. wp_pure. split; simpl; try done.
  destruct (split_once (lit "/") address) as [[a r]|] eqn:Es; [right|left; by simplify_eq].
  simplify_eq. split; [|done]. apply orb_true_iff in Hslash as [?%bool_decide_eq_true|Hf]; [done|].
  apply split_once_slash in Es. rewrite forallb_forall in Hf. specialize (Hf 47).
  rewrite -list_elem_of_In in Hf. specialize (Hf Es). done.
Qed.

(** The endpoint is usable and is not the server itself. *)
Definition endpoint_ok (s : Settings) (c : Listeners) (e : Endpoint) : Prop :=
  endpoint_sound e ∧
  match parse_ip (utf8 (host e)) with
  | Some ip => not_self (mkSocketAddr ip (port e)) (listeners c (protocol e)) = true
  | None => bootstrap s ≠ []
  end.
Record settings_ok (s : Settings) (c : Listeners) (es : list Endpoint) : Prop := {
  so_pool : 1 ≤ max_connections (dot_pool s) ≤ 256 ∧ 1 ≤ idle_timeout_ms (dot_pool s) ≤ 600000;
  so_count : (1 ≤ length es ≤ 32)%nat;
  so_parallel : 1 ≤ max_parallel s ≤ 32;
  so_all : mode s = Parallel → Z.of_nat (length es) ≤ max_parallel s;
  so_extra : 1 ≤ max_extra_inflight s ≤ 65536;
  so_bootstrap : (length (bootstrap s) ≤ 8)%nat ∧ Forall (λ a, valid_address a = true ∧ not_self a [listen c] = true) (bootstrap s);
  so_endpoints : Forall (endpoint_ok s c) es;
  so_distinct : NoDup (endpoint_key <$> es);
}.
Lemma endpoint_of_ok line e u u' : endpoint_of line u = (Ok e, u') → endpoint_sound e ∧ u' = u.
Proof.
  unfold endpoint_of. destruct (parse_endpoint line tt) as [[e'| | |] t] eqn:Ep; intros; simplify_eq.
  split; [|done]. pose proof (parse_endpoint_wp line tt) as Hw. by eapply wp_result in Hw.
Qed.
Lemma endpoint_of_wp line u :
  wp (endpoint_of line) (λ e u', endpoint_of line tt = (Ok e, tt) ∧ endpoint_sound e)
    (λ er _, ∃ x, er = BadEndpoint x ∧ ∀ e t, endpoint_of line tt ≠ (Ok e, t)) u.
Proof.
  destruct u. pose proof (parse_endpoint_wp line tt) as Hw. unfold wp, endpoint_of in *.
  destruct (parse_endpoint line tt) as [[e| | |] t]; naive_solver.
Qed.

Lemma pool_endpoints_cons line lines e : endpoint_of line tt = (Ok e, tt) →
  pool_endpoints (line :: lines) tt =
  match pool_endpoints lines tt with
  | (Ok l, _) => (Ok (e :: l), tt)
  | (Err er, _) => (Err er, tt)
  | (Panic, _) => (Panic, tt)
  | (Diverge, _) => (Diverge, tt)
  end.
Proof. intros He. simpl. rewrite /bind He. by destruct (pool_endpoints lines tt) as [[] []]. Qed.
Lemma pool_endpoints_inv line lines es : pool_endpoints (line :: lines) tt = (Ok es, tt) →
  ∃ e es', endpoint_of line tt = (Ok e, tt) ∧ pool_endpoints lines tt = (Ok es', tt) ∧ es = e :: es'.
Proof.
  intros Hp. destruct (endpoint_of line tt) as [[e| | |] []] eqn:He.
  2,3,4: simpl in Hp; by rewrite /bind He in Hp.
  rewrite (pool_endpoints_cons _ _ e He) in Hp. destruct (pool_endpoints lines tt) as [[es'| | |] []]; try done.
  exists e, es'. split_and!; [done..|]. by simplify_eq.
Qed.
Lemma pool_endpoints_length lines : ∀ es, pool_endpoints lines tt = (Ok es, tt) → length es = length lines.
Proof.
  induction lines as [|line lines IH]; intros es Hp; [by injection Hp as <-|].
  apply pool_endpoints_inv in Hp as (e & es' & _ & Hp & ->). simpl. by rewrite (IH es').
Qed.

Lemma validate_servers_wp s c lines : ∀ seen u,
  wp (validate_servers s c lines seen)
    (λ _ _, ∃ es, pool_endpoints lines tt = (Ok es, tt) ∧ Forall (endpoint_ok s c) es ∧ NoDup (endpoint_key <$> es) ∧
                  Forall (λ k, k ∉ seen) (endpoint_key <$> es))
    (λ _ _, ∀ es, pool_endpoints lines tt = (Ok es, tt) → Forall (endpoint_ok s c) es → NoDup (endpoint_key <$> es) →
                  Forall (λ k, k ∉ seen) (endpoint_key <$> es) → False) u.
Proof.
  induction lines as [|line lines IH]; intros seen u; cbn [validate_servers].
  { wp_pure. exists []. split_and!; [done|constructor..]. }
  wp_pure. eapply wp_mono; [| |apply endpoint_of_wp].
  2: { intros er u2 (x & _ & Hno) es (e & ? & He & _)%pool_endpoints_inv. by eapply Hno in He. }
  intros e u2 [He Hsound]. wp_pure.
  assert (∀ es, pool_endpoints (line :: lines) tt = (Ok es, tt) → ∃ es', pool_endpoints lines tt = (Ok es', tt) ∧ es = e :: es') as Hinv.
  { intros es (e' & es' & He' & Hp & ->)%pool_endpoints_inv. rewrite He in He'. injection He' as <-. by exists es'. }
  apply wp_ensure_setting.
  2: { intros Hin%bool_decide_eq_false es (es' & _ & ->)%Hinv _ _ [Hk _]%Forall_cons. by apply Hin. }
  intros Hseen%bool_decide_eq_true. wp_pure. apply wp_ensure_setting.
  2: { intros [Hip%bool_decide_eq_false Hb%negb_false_iff%bool_decide_eq_true]%orb_false_iff es (es' & _ & ->)%Hinv [[_ Hh] _]%Forall_cons.
       destruct (parse_ip _) as [ip|]; [|done]. by destruct Hip. }
  intros Hboot. wp_pure. apply wp_ensure_setting.
  2: { intros Hself es (es' & _ & ->)%Hinv [[_ Hh] _]%Forall_cons. destruct (parse_ip _) as [ip|]; [|done]. by rewrite Hself in Hh. }
  intros Hself.
  assert (endpoint_ok s c e) as Hok.
  { split; [done|]. apply orb_true_iff in Hboot. destruct (parse_ip _) as [ip|]; [done|].
    destruct Hboot as [[? ?]%bool_decide_eq_true|Hb%negb_true_iff%bool_decide_eq_false]; done. }
  eapply wp_mono; [| |apply (IH (endpoint_key e :: seen))].
  - intros _ _ (es & Hp & Hoks & Hnd & Hns). exists (e :: es). rewrite (pool_endpoints_cons _ _ e He) Hp.
    rewrite !fmap_cons. rewrite -> Forall_forall in Hns. split_and!; [done|by constructor|..].
    + constructor; [|done]. intros Hin. apply (Hns _ Hin). by left.
    + constructor; [done|]. apply Forall_forall. intros k Hin ?. apply (Hns _ Hin). by right.
  - intros er u3 Hno es (es' & Hp & ->)%Hinv [_ Hoks]%Forall_cons. rewrite !fmap_cons.
    intros [Hk Hnd]%NoDup_cons [_ Hns]%Forall_cons. apply (Hno es' Hp Hoks Hnd).
    apply Forall_forall. intros k Hin. rewrite elem_of_cons. rewrite -> Forall_forall in Hns. specialize (Hns k Hin). naive_solver.
Qed.
Lemma validate_bootstrap_wp c l : ∀ u,
  let ok := Forall (λ a, valid_address a = true ∧ not_self a [listen c] = true) in
  wp (validate_bootstrap c l) (λ _ _, ok l) (λ _ _, ¬ ok l) u.
Proof.
  induction l as [|a l IH]; intros u ok; cbn [validate_bootstrap]; [by wp_pure; constructor|].
  wp_pure. apply wp_ensure_setting; [|by intros Hf [[Ht _] _]%Forall_cons; rewrite Hf in Ht].
  intros Hv. wp_pure. apply wp_ensure_setting; [|by intros Hf [[_ Ht] _]%Forall_cons; rewrite Hf in Ht].
  intros Hs. eapply wp_mono; [| |apply IH]; [by constructor|]. intros er u2 Hno [_ Hl]%Forall_cons. by apply Hno.
Qed.
(** A guard that refuses sound settings would contradict them. *)
Local Ltac refused Hlen :=
  let Hf := fresh "Hf" in let es := fresh "es" in
  intros Hf es Hes%Hlen [Hp Hc Hpar Hall Hx [Hb1 Hb2] He Hd]; rewrite ?Hes in Hc Hall; unfold pool_valid in Hf;
  repeat case_bool_decide; naive_solver lia.
(** Settings are accepted exactly when they are sound; nothing panics. *)
Lemma validate_wp s c u :
  wp (validate s c) (λ _ _, ∃ es, pool_endpoints (servers s) tt = (Ok es, tt) ∧ settings_ok s c es)
    (λ _ _, ∀ es, pool_endpoints (servers s) tt = (Ok es, tt) → ¬ settings_ok s c es) u.
Proof.
  unfold validate.
  assert (∀ es, pool_endpoints (servers s) tt = (Ok es, tt) → length es = length (servers s)) as Hlen by apply pool_endpoints_length.
  wp_pure. apply wp_ensure_setting; [|refused Hlen]. intros [G1%bool_decide_eq_true G2%bool_decide_eq_true]%andb_true_iff.
  wp_pure. apply wp_ensure_setting; [|refused Hlen]. intros G3%bool_decide_eq_true.
  wp_pure. apply wp_ensure_setting; [|refused Hlen]. intros G4%bool_decide_eq_true.
  wp_pure. apply wp_ensure_setting; [|refused Hlen]. intros G5.
  wp_pure. apply wp_ensure_setting; [|refused Hlen]. intros G6%bool_decide_eq_true.
  wp_pure. apply wp_ensure_setting; [|refused Hlen]. intros G7%bool_decide_eq_true.
  wp_pure. eapply wp_mono; [| |apply validate_bootstrap_wp]; [|by intros er u2 Hno es _ [? ? ? ? ? [_ Hb] ? ?]].
  intros [] u2 G8. eapply wp_mono; [| |apply validate_servers_wp].
  - intros [] u3 (es & Hes & Hoks & Hnd & _). exists es. split; [done|]. pose proof (Hlen _ Hes) as Hl.
    split; try done; [by rewrite Hl|]. intros Hm. apply orb_true_iff in G5 as [G5%negb_true_iff%bool_decide_eq_false|G5%bool_decide_eq_true]; [done|].
    by rewrite Hl.
  - intros er u3 Hno es Hes [? ? ? ? ? ? He Hd]. apply (Hno es Hes He Hd). apply Forall_forall. intros k _ ?%elem_of_nil. done.
Qed.
End endpoint.

(** ** Turns *)
Fixpoint turns (k : nat) : M Pool PoolError (list nat) :=
  match k with
  | O => ret []
  | S k => let* a := choose true in let* l := turns k in ret (a ++ l)
  end.
Definition count (i : nat) (l : list nat) : Z := Z.of_nat (length (filter (λ j, j = i) l)).
Lemma count_pick i j l : count i (j :: l) = count i l + (if bool_decide (i = j) then 1 else 0).
Proof. unfold count. rewrite filter_cons. repeat case_decide; case_bool_decide; simpl; naive_solver lia. Qed.
Lemma with_scores_twice f g p : with_scores f (with_scores g p) = with_scores (f ∘ g) p.
Proof. done. Qed.
Lemma turns_add a b p : turns (a + b) p =
  match turns a p with
  | (Ok l, p') => match turns b p' with (Ok l', q) => (Ok (l ++ l'), q) | (r, q) => (r, q) end
  | (r, q) => (r, q)
  end.
Proof.
  revert p. induction a as [|a IH]; intros p; simpl; [by destruct (turns b p) as [[] ?]|].
  rewrite /bind. destruct (choose true p) as [[x| | |] p1]; [|done..]. rewrite IH.
  destruct (turns a p1) as [[l| | |] p2]; [|done..]. rewrite /ret.
  destruct (turns b p2) as [[l'| | |] p3]; [|done..]. by rewrite app_assoc.
Qed.

Section turns.
Context (es : list Endpoint) (s : Settings).
Hypothesis Hn : (1 ≤ length es ≤ 32)%nat.
Hypothesis Hw : Forall (λ w, 1 ≤ w ≤ 1000) (weight <$> es).
Hypothesis Hmode : mode s = Weighted.
Notation ws := (weight <$> es).
Lemma weights_count : (1 ≤ length ws ≤ 32)%nat.
Proof. by rewrite length_fmap. Qed.
(** A running pool that selects by weight. *)
Definition running (p : Pool) (l : list Z) : Prop := p = mkPool es s l (cursor p) (extra p) false ∧ level ws l.

Lemma choose_weighted p l : running p l →
  wp (choose true)
    (λ a p', ∃ i l', a = [i] ∧ (i < length es)%nat ∧ p' = with_scores (λ _, l') p ∧ running p' l' ∧
       ∀ (j : nat) x w, l !! j = Some x → ws !! j = Some w →
         l' !! j = Some (x + w - if bool_decide (j = i) then total ws else 0)) (λ _ _, False) p.
Proof.
  intros [Hp Hl]. unfold choose. wp_pure. rewrite Hp /=. wp_pure. rewrite Hmode. wp_pure.
  pose proof (select_wp ws weights_count Hw l Hl) as Hs. unfold wp in Hs |- *. simpl.
  destruct (select ws l) as [[i| | |] l']; try done. destruct Hs as (Hi & Hl' & Hadd).
  rewrite length_fmap in Hi. rewrite /ret. exists i, l'. split_and!; [done..|by split|done].
Qed.
Lemma turns_wp k : ∀ p l, running p l →
  wp (turns k)
    (λ picks p', ∃ l', length picks = k ∧ Forall (λ i, (i < length es)%nat) picks ∧ p' = with_scores (λ _, l') p ∧ running p' l' ∧
       ∀ (j : nat) x w, l !! j = Some x → ws !! j = Some w → l' !! j = Some (x + Z.of_nat k * w - total ws * count j picks))
    (λ _ _, False) p.
Proof.
  induction k as [|k IH]; intros p l Hr; cbn [turns].
  { wp_pure. exists l. split_and!; [done|constructor| |done|].
    - destruct Hr as [-> _]. done.
    - intros j x w Hx _. rewrite Hx. f_equal. unfold count. simpl. lia. }
  wp_pure. eapply wp_mono; [| |by apply choose_weighted]; [|done].
  intros a p1 (i & l1 & -> & Hi & -> & Hr1 & Hadd). wp_pure.
  eapply wp_mono; [| |by apply IH]; [|done]. intros picks p2 (l2 & Hlen & Hf & -> & Hr2 & Hadd2). wp_pure.
  exists l2. split_and!; [simpl; lia|by constructor|done|done|]. intros j x w Hx Hwj.
  rewrite (Hadd2 _ _ _ (Hadd _ _ _ Hx Hwj) Hwj). f_equal. cbn [app]. rewrite count_pick. case_bool_decide; lia.
Qed.
Lemma level_zero : level ws (replicate (length es) 0).
Proof.
  pose proof (total_bound ws weights_count Hw) as Ht. split.
  - by rewrite length_replicate length_fmap.
  - generalize (length es). by induction n as [|n IH]; simpl; [|rewrite IH].
  - apply Forall_forall. intros x [-> _]%elem_of_replicate. lia.
Qed.
(** After [total] turns from a fresh pool everything is as at the start. *)
Lemma turns_cycle p : running p (replicate (length es) 0) → ∃ picks, turns (Z.to_nat (total ws)) p = (Ok picks, p).
Proof.
  intros Hr. pose proof (total_bound ws weights_count Hw) as (Ht & _).
  destruct (wp_total _ _ _ (turns_wp (Z.to_nat (total ws)) p _ Hr)) as (picks & p' & Hrun & l' & _ & _ & -> & [Hp' Hl'] & Hadd).
  exists picks. rewrite Hrun. f_equal. destruct Hr as [Hp _]. rewrite Hp /with_scores /=. f_equal.
  assert (∀ (j : nat) y, l' !! j = Some y → 0 ≤ y) as Hge.
  { intros j y Hy. destruct (lookup_lt_is_Some_2 ws j) as [w Hwj]; [apply lookup_lt_Some in Hy; rewrite -(lv_len _ _ Hl'); lia|].
    pose proof (level_high ws weights_count Hw _ _ _ Hl' Hy) as Hlow.
    assert (replicate (length es) 0 !! j = Some 0) as H0.
    { apply lookup_replicate_2. apply lookup_lt_Some in Hwj. by rewrite length_fmap in Hwj. }
    rewrite (Hadd _ _ _ H0 Hwj) in Hy. injection Hy as <-. rewrite Z2Nat.id in Hlow; last lia. rewrite Z2Nat.id; last lia.
    revert Hlow Ht. generalize (total ws) (count j picks). intros t c Hlow Ht.
    assert (0 ≤ w - c) by (destruct (decide (w - c ≤ -1)); nia). nia. }
  apply list_eq. intros j.
  destruct (l' !! j) as [y|] eqn:Ey.
  - assert (j < length es)%nat as Hj by (apply lookup_lt_Some in Ey; rewrite (lv_len _ _ Hl') length_fmap in Ey; lia).
    rewrite lookup_replicate_2 //. f_equal.
    assert (Forall (λ x, 0 ≤ x) l') as Hall by (apply Forall_lookup; eauto).
    pose proof (sum_z_elem 0 j l' y Hall Ey) as Hz. rewrite (lv_sum _ _ Hl') in Hz. pose proof (Hge j y Ey). lia.
  - symmetry. apply lookup_ge_None in Ey. rewrite (lv_len _ _ Hl') length_fmap in Ey. apply lookup_ge_None. rewrite length_replicate. lia.
Qed.
End turns.

(** ** Races *)
Definition around (start n o : nat) : nat := ((start + o) mod n)%nat.
Lemma race_later start n count : ∀ offset permits, (1 ≤ offset)%nat →
  race_indices start n count offset permits = around start n <$> seq offset (count `min` permits).
Proof.
  induction count as [|count IH]; intros [|offset] [|permits] ?; simpl; try done; try lia.
  by rewrite IH; [|lia].
Qed.
Lemma race_first start n count permits : (1 ≤ count)%nat →
  race_indices start n count 0 permits = around start n <$> seq 0 (S (pred count `min` permits)).
Proof. intros Hc. destruct count as [|count]; [lia|]. simpl. by rewrite race_later. Qed.
Lemma around_inj start n o o' : (o < n)%nat → (o' < n)%nat → around start n o = around start n o' → o = o'.
Proof.
  unfold around. intros Ho Ho' He.
  pose proof (Nat.div_mod_eq (start + o) n) as E1. pose proof (Nat.div_mod_eq (start + o') n) as E2.
  rewrite He in E1. set (q1 := ((start + o) / n)%nat) in *. set (q2 := ((start + o') / n)%nat) in *.
  assert (q1 = q2) as Hq; [|rewrite Hq in E1; lia]. destruct (Nat.lt_trichotomy q1 q2) as [|[|]]; [|done|]; nia.
Qed.

Section answer.
Context `{NameLib} (answer : nat → option Message).
Definition inconclusive (l : list nat) : Prop := ∀ j m, j ∈ l → answer j = Some m → conclusive m = false.
Definition failed_all (l : list nat) : Prop := ∀ j, j ∈ l → answer j = None.
(** The first conclusive answer in the order of arrival; without one, the last
    answer at all. *)
Definition wins (l : list nat) (r : option (nat * Message)) : Prop :=
  match r with
  | Some (i, m) => ∃ pre post, l = pre ++ i :: post ∧ answer i = Some m ∧ inconclusive pre ∧ (conclusive m = true ∨ failed_all post)
  | None => failed_all l
  end.
(** What a race returns. *)
Fixpoint best (failure : option (nat * Message)) (l : list nat) : option (nat * Message) :=
  match l with
  | [] => failure
  | i :: l => match answer i with
              | Some m => if conclusive m then Some (i, m) else best (Some (i, m)) l
              | None => best failure l
              end
  end.
Lemma best_some l : ∀ x, is_Some (best (Some x) l).
Proof. induction l as [|i l IH]; intros x; simpl; eauto. destruct (answer i) as [m|]; [|done]. destruct (conclusive m); eauto. Qed.
Lemma wins_later l i r : answer i = None ∨ (∃ m, answer i = Some m ∧ conclusive m = false ∧ is_Some r) → wins l r → wins (i :: l) r.
Proof.
  intros Hi Hwin. destruct r as [[k m]|].
  - destruct Hwin as (pre & post & -> & Ha & Hp & Hc). exists (i :: pre), post. split_and!; [done..| |done].
    intros j m' [->|Hin]%elem_of_cons ?; [|by eapply Hp]. destruct Hi as [?|(? & ? & ? & _)]; congruence.
  - destruct Hi as [Hi|(? & _ & _ & [? ?])]; [|done]. intros j [->|Hin]%elem_of_cons; [done|by apply Hwin].
Qed.
Lemma best_spec l : ∀ f, wins l (best f l) ∨ best f l = f ∧ failed_all l.
Proof.
  induction l as [|i l IH]; intros f; [right; split; [done|by intros ? ?%elem_of_nil]|].
  cbn [best]. destruct (answer i) as [m|] eqn:Ei.
  - destruct (conclusive m) eqn:Ec; [left; exists [], l; split_and!; [done..| |by left]; by intros ? ? ?%elem_of_nil|].
    left. destruct (IH (Some (i, m))) as [Hwin|[-> Hf]].
    + apply wins_later; [|done]. right. exists m. split_and!; [done..|apply best_some].
    + exists [], l. split_and!; [done..|by intros ? ? ?%elem_of_nil|by right].
  - destruct (IH f) as [Hwin|[Hf Hall]]; [left; apply wins_later; [by left|done]|].
    right. split; [done|]. intros j [->|Hin]%elem_of_cons; [done|]. by apply Hall.
Qed.
Lemma best_wins l : wins l (best None l).
Proof. by destruct (best_spec l None) as [|[-> ?]]. Qed.

(** Whenever its requests end, a race gives back all its permits. *)
Definition held (running : list (nat * bool)) : nat := length (filter (λ r, r.2 = true) running).
Lemma held_cons r l : held (r :: l) = ((if r.2 then 1 else 0) + held l)%nat.
Proof. unfold held. rewrite filter_cons. by destruct r as [i []]. Qed.
Lemma with_race_race c1 e1 c2 e2 p : with_race c1 e1 (with_race c2 e2 p) = with_race c1 e1 p.
Proof. done. Qed.
Lemma finish_request_eq r p : finish_request r p = with_race (cursor p) ((if r.2 then 1 else 0) + extra p)%nat p.
Proof. unfold finish_request. destruct r as [i []], p; done. Qed.
Lemma finish_race_eq l p : finish_race l p = with_race (cursor p) (held l + extra p)%nat p.
Proof.
  induction l as [|r l IH]; [by destruct p|]. cbn [finish_race foldr]. fold (finish_race l p).
  rewrite finish_request_eq IH with_race_race /= held_cons. f_equal. lia.
Qed.
Lemma race_run l : ∀ f p, race_results answer f l p = (Ok (best f l.*1), with_race (cursor p) (held l + extra p)%nat p).
Proof.
  induction l as [|r l IH]; intros f p; [by destruct p|]. cbn [race_results fmap list_fmap best].
  rewrite /bind /get /put held_cons finish_request_eq. destruct (answer r.1) as [m|].
  - destruct (conclusive m); [rewrite finish_race_eq|rewrite IH]; rewrite with_race_race /=; do 2 f_equal; lia.
  - rewrite IH with_race_race /=. do 2 f_equal; lia.
Qed.
End answer.

(** The races of a pool: each begins on its own, its requests end one by one,
    and it ends when it has its answer or is dropped. *)
Inductive race_step : Pool * list (list (nat * bool)) → Pool * list (list (nat * bool)) → Prop :=
  | race_begin p p' act asked : choose true p = (Ok asked, p') → race_step (p, act) (p', requests asked :: act)
  | race_reply p act (i : nat) pre r post : act !! i = Some (pre ++ r :: post) →
      race_step (p, act) (finish_request r p, <[i := pre ++ post]> act)
  | race_end p act (i : nat) running : act !! i = Some running → race_step (p, act) (finish_race running p, delete i act).
(** The queries beyond the first of each race that still run. *)
Definition in_flight (act : list (list (nat * bool))) : nat := sum_list_with held act.
Lemma in_flight_delete act (i : nat) l : act !! i = Some l → in_flight act = (held l + in_flight (delete i act))%nat.
Proof. revert i. induction act as [|k act IH]; intros [|i] ?; simplify_eq/=; [done|]. rewrite (IH i) //. unfold in_flight. lia. Qed.
Lemma in_flight_insert act (i : nat) l l' : act !! i = Some l → (in_flight (<[i := l']> act) + held l = in_flight act + held l')%nat.
Proof. revert i. induction act as [|k act IH]; intros [|i] Hi; simplify_eq/=; [lia|]. specialize (IH i Hi). unfold in_flight in *. lia. Qed.
Lemma held_app l l' : held (l ++ l') = (held l + held l')%nat.
Proof. unfold held. by rewrite filter_app length_app. Qed.
Lemma held_requests asked : held (requests asked) = pred (length asked).
Proof.
  destruct asked as [|i l]; [done|]. cbn [requests]. rewrite held_cons /=. induction l as [|j l IH]; [done|].
  rewrite fmap_cons held_cons /= IH. done.
Qed.

Section races.
Context (es : list Endpoint) (s : Settings).
Hypothesis Hn : (1 ≤ length es ≤ 32)%nat.
Hypothesis Hmode : mode s = Parallel.
Hypothesis Hall : Z.of_nat (length es) ≤ max_parallel s.
Definition race_inv (x : Pool * list (list (nat * bool))) : Prop :=
  x.1 = mkPool es s (scores x.1) (cursor x.1) (extra x.1) false ∧ (extra x.1 + in_flight x.2 = Z.to_nat (max_extra_inflight s))%nat.
Lemma choose_parallel p : p = mkPool es s (scores p) (cursor p) (extra p) false →
  ∃ asked, choose true p = (Ok asked, with_race ((cursor p + 1) mod usize_mod) (extra p - pred (length asked))%nat p) ∧
    asked = around (Z.to_nat (cursor p mod Z.of_nat (length es))) (length es) <$> seq 0 (length es `min` S (extra p)).
Proof.
  intros Hp. unfold choose, bind, get. rewrite Hp /= Hmode. eexists. split; [done|].
  assert (length es `min` Z.to_nat (max_parallel s) = length es)%nat as -> by lia.
  rewrite race_first; last lia. do 2 f_equal. lia.
Qed.
Lemma with_race_pool c e p : p = mkPool es s (scores p) (cursor p) (extra p) false →
  with_race c e p = mkPool es s (scores (with_race c e p)) (cursor (with_race c e p)) (extra (with_race c e p)) false.
Proof. destruct p. intros [=]. by subst. Qed.
Lemma race_inv_step x y : race_step x y → race_inv x → race_inv y.
Proof.
  unfold race_inv. intros [p p' act asked Hc|p act i pre r post Hi|p act i running Hi]; cbn [fst snd]; intros [Hp He].
  - destruct (choose_parallel p Hp) as (asked' & Hc' & Ha). rewrite Hc in Hc'. injection Hc' as -> ->.
    split; [by apply with_race_pool|]. apply (f_equal length) in Ha. rewrite length_fmap length_seq in Ha.
    unfold in_flight in *. rewrite /with_race /= held_requests. lia.
  - pose proof (in_flight_insert act i _ (pre ++ post) Hi) as Hf. rewrite !held_app held_cons in Hf. rewrite finish_request_eq.
    split; [by apply with_race_pool|]. rewrite /with_race /=. lia.
  - rewrite (in_flight_delete act i running Hi) in He. rewrite finish_race_eq.
    split; [by apply with_race_pool|]. rewrite /with_race /=. lia.
Qed.
Lemma race_inv_steps x y : rtc race_step x y → race_inv x → race_inv y.
Proof. induction 1 as [|x y z Hxy _ IH]; [done|]. intros. apply IH. by eapply race_inv_step. Qed.
End races.

(** ** Properties *)
Section claims.
Context `{UriLib} `{!UriSpec} `{IpParse} `{NameLib}.

Lemma pool_new_ok s c u : validate s c u = (Ok tt, u) →
  ∃ es, settings_ok s c es ∧ pool_endpoints (servers s) u = (Ok es, u) ∧
        pool_new s u = (Ok (mkPool es s (replicate (length es) 0) 0 (Z.to_nat (max_extra_inflight s)) false), u).
Proof.
  destruct u. intros Hv. pose proof (validate_wp s c tt) as Hw. unfold wp in Hw. rewrite Hv in Hw.
  destruct Hw as (es & Hes & Hok). exists es. split_and!; [done..|]. by rewrite /pool_new /bind Hes.
Qed.

(** Settings::validate never panics and accepts exactly the settings that
    are sound: every line is an endpoint (weight 1 to 1000, a nonzero port, a
    unicast address or a host name that bootstrap addresses can resolve, a
    path only with HTTPS), no two lines name the same endpoint, neither an
    endpoint nor a bootstrap address is a listener of the server, and the
    numbers are in range; and from accepted settings the pool is built with
    the endpoints that were checked. *)
Theorem settings_exact s c :
  (is_ok (validate s c tt).1 = true ↔ ∃ es, pool_endpoints (servers s) tt = (Ok es, tt) ∧ settings_ok s c es) ∧
  (validate s c tt).1 ≠ Panic ∧ (validate s c tt).1 ≠ Diverge ∧
  ∀ es, pool_endpoints (servers s) tt = (Ok es, tt) → settings_ok s c es →
    pool_new s tt = (Ok (mkPool es s (replicate (length es) 0) 0 (Z.to_nat (max_extra_inflight s)) false), tt).
Proof.
  pose proof (validate_wp s c tt) as Hw. unfold wp in Hw.
  destruct (validate s c tt) as [[[]| | |] []]; try done; split_and!; try done.
  - intros es Hes Hok. by rewrite /pool_new /bind Hes.
  - split; [done|]. intros (es & Hes & Hok). by destruct (Hw es Hes).
  - intros es Hes Hok. by rewrite /pool_new /bind Hes.
Qed.

(** C11. Weighted selection is exact and starves nobody. From accepted settings
    the pool can be asked any number of times without a panic or an overflow;
    at every moment the next turns, as many as the weights sum up to, select
    each endpoint exactly as often as its weight says and leave the scores as
    they were; and at no moment has an endpoint been selected a whole turn more
    than its share, or fallen behind it without bound. *)
Theorem weighted_share s c u (Hv : validate s c u = (Ok tt, u)) (Hm : mode s = Weighted) :
  ∃ p, pool_new s u = (Ok p, u) ∧
  let total := sum_z (weight <$> endpoints p) in
  ∀ k, ∃ before p1 window, turns k p = (Ok before, p1) ∧ turns (Z.to_nat total) p1 = (Ok window, p1) ∧
    length before = k ∧ length window = Z.to_nat total ∧
    ∀ (i : nat) e, endpoints p !! i = Some e →
      count i window = weight e ∧
      total * count i before < Z.of_nat k * weight e + total ∧
      Z.of_nat k * weight e ≤ total * count i before + 31 * (total - 1).
Proof.
  destruct (pool_new_ok s c u Hv) as (es & Hok & _ & Hp). eexists. split; [exact Hp|]. intros tot k. cbn [endpoints] in *.
  set (p := mkPool _ _ _ _ _ _) in *. pose proof (so_count _ _ _ Hok) as Hn.
  assert (Forall (λ w, 1 ≤ w ≤ 1000) (weight <$> es)) as Hw.
  { apply Forall_fmap. eapply Forall_impl; [exact (so_endpoints _ _ _ Hok)|]. intros e [He _]. apply He. }
  pose proof (weights_count es Hn) as Hc. pose proof (level_zero es Hn Hw) as Hz.
  assert (running es s p (replicate (length es) 0)) as Hr by (by split).
  destruct (turns_cycle es s Hn Hw Hm p Hr) as [window Hcyc]. fold tot in Hcyc.
  pose proof (total_bound _ Hc Hw) as (Ht & _). change (total (weight <$> es)) with tot in Ht, Hcyc.
  destruct (wp_total _ _ _ (turns_wp es s Hn Hw Hm k p _ Hr)) as (before & p1 & Hk & l1 & Hlen & _ & Hp1 & Hr1 & Hadd).
  destruct (wp_total _ _ _ (turns_wp es s Hn Hw Hm (Z.to_nat tot) p1 _ Hr1)) as (win & p2 & Hrun & l2 & Hlen2 & _ & Hp2 & [_ Hl2] & Hadd2).
  assert (p2 = p1) as ->.
  { pose proof (turns_add k (Z.to_nat tot) p) as E. rewrite Hk Hrun in E.
    pose proof (turns_add (Z.to_nat tot) k p) as E'. rewrite Hcyc Hk in E'.
    rewrite Nat.add_comm E' in E. by injection E. }
  exists before, p1, win. split_and!; [done..|]. intros i e He.
  assert ((weight <$> es) !! i = Some (weight e)) as Hwi by (by rewrite list_lookup_fmap He).
  assert (replicate (length es) 0 !! i = Some 0) as Hz0 by (apply lookup_replicate_2; by apply lookup_lt_Some in He).
  pose proof (Hadd _ _ _ Hz0 Hwi) as H1i. pose proof (level_high _ Hc Hw _ _ _ (proj2 Hr1) H1i) as Hb.
  pose proof (Hadd2 _ _ _ H1i Hwi) as H2i.
  assert (l2 = l1) as ->.
  { rewrite Hp2 in Hp1. apply (f_equal scores) in Hp1. done. }
  rewrite H1i in H2i. injection H2i as E. change (total (weight <$> es)) with tot in *. rewrite Z2Nat.id in E; last lia.
  split; [nia|]. lia.
Qed.

(** C12. Races are bounded and answered by what they asked. In every reachable
    state of a pool in parallel mode, while races begin, their requests end one
    by one and races end or are dropped, the extra queries in flight and the
    permits left make up the configured bound; a new race never panics, asks
    the endpoint at the cursor and then the following ones, each once, as many
    as permits last; and whatever the endpoints answer and in whatever order,
    the result is the first conclusive answer to arrive, failing that the last
    answer, and an error only when every endpoint asked has failed, and all the
    permits of the race are back. *)
Theorem race_bounded s c u (Hv : validate s c u = (Ok tt, u)) (Hm : mode s = Parallel) :
  ∃ p0, pool_new s u = (Ok p0, u) ∧
  ∀ p act, rtc race_step (p0, []) (p, act) →
    let n := length (servers s) in
    (extra p + in_flight act = Z.to_nat (max_extra_inflight s))%nat ∧
    ∃ asked p', choose true p = (Ok asked, p') ∧ asked ≠ [] ∧ NoDup asked ∧ Forall (λ i, (i < n)%nat) asked ∧
      (length asked = n `min` S (extra p))%nat ∧ head asked = Some (Z.to_nat (cursor p mod Z.of_nat n)) ∧
      ∀ answer arrival, arrival (requests asked) ≡ₚ requests asked →
        ∃ r, exchange_inner answer arrival true p = (Ok r, with_race (cursor p') (extra p) p') ∧
             wins answer (arrival (requests asked)).*1 r.
Proof.
  destruct (pool_new_ok s c u Hv) as (es & Hok & Hes & Hp). eexists. split; [exact Hp|]. intros p act Hreach n.
  assert (length es = n) as Hlen by (destruct u; by apply pool_endpoints_length).
  pose proof (so_count _ _ _ Hok) as Hn. pose proof (so_all _ _ _ Hok Hm) as Hall.
  pose proof (race_inv_steps es s Hn Hm Hall _ _ Hreach ltac:(split; [done|]; simpl; lia)) as [Hinv Hex]. cbn [fst snd] in *.
  split; [done|]. destruct (choose_parallel es s Hn Hm Hall p Hinv) as (asked & Hc & Ha). rewrite Hlen in Ha.
  assert (length asked = n `min` S (extra p))%nat as Hla by (by rewrite Ha length_fmap length_seq).
  eexists asked, _. split; [done|]. rewrite Hlen in Hn. split_and!.
  - intros ->. simpl in Hla. lia.
  - rewrite Ha. apply NoDup_fmap_2_strong; [|apply NoDup_seq]. intros o o' Ho%elem_of_seq Ho'%elem_of_seq. apply around_inj; lia.
  - rewrite Ha. apply Forall_fmap, Forall_forall. intros o _. apply Nat.mod_upper_bound. lia.
  - done.
  - rewrite Ha. replace (n `min` S (extra p))%nat with (S (pred n `min` extra p)) by lia. simpl. unfold around.
    rewrite Nat.add_0_r Nat.mod_small //. pose proof (Z.mod_pos_bound (cursor p) (Z.of_nat n)). lia.
  - intros answer arrival Hperm. eexists. split; [|apply best_wins].
    unfold exchange_inner. rewrite /bind Hc /get. assert (mode (settings p) = Parallel) as Hmp by (by rewrite Hinv).
    rewrite /= Hmp race_run. do 2 f_equal. rewrite /with_race /=. f_equal.
    assert (held (arrival (requests asked)) = held (requests asked)) as ->.
    { unfold held. apply Permutation_length. by rewrite Hperm. }
    rewrite held_requests. lia.
Qed.
End claims.

(** ** Witnesses *)
Module UpstreamsWitness.
Definition digits_port (t : Str) : option Z :=
  n ← digits_value t 0; if bool_decide (0 ≤ n ≤ 65535) then Some n else None.
#[local] Instance uri : UriLib := {|
  authority t := match split_once (lit ":") t with
                 | Some (h, p) => Some (h, true, digits_port p)
                 | None => Some (t, false, None)
                 end;
  path_and_query _ := true;
|}.
#[local] Instance uri_spec : UriSpec.
Proof.
  split. intros t h b p. unfold authority, uri. destruct (split_once _ t) as [[x y]|]; [|done]. intros [= _ _ Hp].
  unfold digits_port in Hp. destruct (digits_value y 0) as [n|]; [|done]. simpl in Hp. case_bool_decide; naive_solver.
Qed.
#[local] Instance ips : IpParse := {| parse_ip t := if bool_decide (t = lit "10.0.0.9") then Some (V4 167772169) else None |}.
#[local] Existing Instance DnsWitness.names.
Definition own : Listeners := mkListeners (mkSocketAddr (V4 0) 53) None None None.
Definition pool_settings (m : Mode) : Settings :=
  mkSettings [lit "10.0.0.9 weight=3"; lit "tcp://dns.example weight=2"; lit "https://dns.example:8443/q"] m
    [mkSocketAddr (V4 167772169) 53] 3 1 false (mkPoolSettings false 8 30000).
Example picks_smooth :
  match pool_new (pool_settings Weighted) tt with
  | (Ok p, _) => (turns 6 p).1 = Ok [0; 1; 0; 2; 1; 0]%nat
  | _ => False
  end.
Proof. vm_compute. reflexivity. Qed.

Lemma weighted_share_witness :
  validate (pool_settings Weighted) own tt = (Ok tt, tt) ∧
  ∃ p before p1 window, pool_new (pool_settings Weighted) tt = (Ok p, tt) ∧ turns 4 p = (Ok before, p1) ∧
    turns 6 p1 = (Ok window, p1) ∧ count 0 window = 3 ∧ count 2 window = 1.
Proof.
  split; [vm_compute; reflexivity|].
  destruct (weighted_share (pool_settings Weighted) own tt) as (p & Hp & Hk); [vm_compute; reflexivity|reflexivity|].
  assert (∃ e0 e1 e2, pool_new (pool_settings Weighted) tt = (Ok (mkPool [e0; e1; e2] (pool_settings Weighted) [0; 0; 0] 0 1 false), tt) ∧
    weight e0 = 3 ∧ weight e1 = 2 ∧ weight e2 = 1) as (e0 & e1 & e2 & Hq & W0 & W1 & W2).
  { eexists _, _, _. split; [vm_compute; reflexivity|]. split_and!; reflexivity. }
  rewrite Hq in Hp. injection Hp as <-. destruct (Hk 4%nat) as (before & p1 & window & Hb & Hw & _ & _ & Hc).
  rewrite /sum_z /= W0 W1 W2 in Hw. exists (mkPool [e0; e1; e2] (pool_settings Weighted) [0; 0; 0] 0 1 false), before, p1, window.
  split_and!; [exact Hq|exact Hb|exact Hw| |].
  - rewrite -W0. apply (Hc 0%nat e0). reflexivity.
  - rewrite -W2. apply (Hc 2%nat e2). reflexivity.
Defined.
Lemma race_bounded_witness :
  validate (pool_settings Parallel) own tt = (Ok tt, tt) ∧
  ∃ p asked p', pool_new (pool_settings Parallel) tt = (Ok p, tt) ∧ choose true p = (Ok asked, p') ∧ length asked = 2%nat ∧
    ∃ r, exchange_inner (λ _, None) reverse true p = (Ok r, with_race (cursor p') (extra p) p') ∧ wins (λ _, None) (reverse (requests asked)).*1 r.
Proof.
  split; [vm_compute; reflexivity|].
  destruct (race_bounded (pool_settings Parallel) own tt) as (p & Hp & Hr); [vm_compute; reflexivity|reflexivity|].
  assert (∃ q, pool_new (pool_settings Parallel) tt = (Ok q, tt) ∧ extra q = 1%nat) as (q & Hq & He).
  { eexists. split; [vm_compute; reflexivity|]. reflexivity. }
  rewrite Hq in Hp. injection Hp as <-.
  destruct (Hr q [] ltac:(apply rtc_refl)) as (_ & asked & p' & Hc & _ & _ & _ & Hl & _ & Ha).
  destruct (Ha (λ _, None) reverse) as (r & Hx & Hw); [apply reverse_Permutation|].
  exists q, asked, p'. split_and!; [exact Hq|exact Hc| |].
  - rewrite Hl He. reflexivity.
  - exists r. split; [exact Hx|exact Hw].
Defined.
Lemma settings_exact_witness :
  ∃ es, settings_ok (pool_settings Weighted) own es ∧ length es = 3%nat ∧
    pool_new (pool_settings Weighted) tt = (Ok (mkPool es (pool_settings Weighted) (replicate (length es) 0) 0 1 false), tt).
Proof.
  destruct (settings_exact (pool_settings Weighted) own) as (Hiff & _ & _ & Hnew).
  destruct (proj1 Hiff) as (es & Hes & Hok); [vm_compute; reflexivity|].
  exists es. split; [exact Hok|]. split; [exact (pool_endpoints_length _ _ Hes)|exact (Hnew es Hes Hok)].
Defined.
End UpstreamsWitness.
