(* ===== verification/Download.v ===== *)
(** * Downloading subscriptions

    [src/https_reader.rs] and [src/filter_subscriptions/download.rs]: which URLs,
    addresses and headers may be used, the request over a connection to a checked
    address, redirects and conditional requests, and the bounded decoding of the
    answer into the staging file. Names, sockets, TLS and HTTP are the
    environment, which also decides when the deadline strikes; the url, http,
    httpdate and flate2 crates are interfaces. *)
From S2P Require Import Prelude Net Std Canonical BlockAnswer Policy Text Upstreams.
Set Default Goal Selector "!".
Set Warnings "-rewrite-rw".
Local Open Scope Z_scope.
Local Open Scope rust_scope.

Inductive Code : Type :=
  | NetworkError | ConnectTimeout | DestinationNotAllowed | TlsError | InvalidRequest | ResponseHeadersTooLarge | InvalidResponse
  | SubscriptionBusy | RequestTimeout | RedirectLimit | InvalidNotModified | InvalidValidators | UnsupportedEncoding | TransferTooLarge
  | DecodedTooLarge | FileWriteFailed | RateLimited | HttpError.
Record ReaderError : Type := mkReaderError { code : Code; retry_after : option Z }.
Definition error (c : Code) : ReaderError := mkReaderError c None.
#[export] Instance Code_eq_dec : EqDecision Code.
Proof. solve_decision. Defined.
#[export] Instance ReaderError_eq_dec : EqDecision ReaderError.
Proof. solve_decision. Defined.

(** ** The libraries *)
Inductive Host : Type := Domain (name : Str) | Address (ip : IpAddr).
Record Url : Type := mkUrl {
  u_scheme : Str; u_username : Str; u_password : option Str; u_fragment : option Str; u_host : option Host; u_port : option Z; u_text : Str;
}.
(** [http::Uri]; [host] may be an IPv6 address in brackets. *)
Record Uri : Type := mkUri { uri_scheme : option Str; uri_authority : option Str; uri_host : option Str; uri_port : option Z; uri_path : Str }.
Definition HeaderMap : Type := list (Str * list Z).
(** The documented results of the crates; [decompress] also gives what it
    consumed, what it wrote and whether the stream ended. *)
Class WebLib := {
  url_parse : Str → option Url;
  url_join : Url → Str → option Url;
  uri_parse : Str → option Uri;
  header_value : Str → bool;
  to_str : list Z → option Str;
  http_date : Str → option Z;
  sha256_hex : list Z → Str;
  Decoder : Type;
  new_gzip : Decoder;
  decompress : Decoder → list Z → option (Decoder * nat * list Z * bool);
}.
Definition BUFFER : nat := Z.to_nat (16 * 1024).
(** A URL's own text parses to the URL; what a decoder is given and has room for
    bounds what it consumes and produces, and no stream ends before it began. *)
Class WebSpec `{WebLib} : Prop := {
  url_parse_text s u : url_parse s = Some u → url_parse (u_text u) = Some u;
  decompress_bounds d b d' n out e : decompress d b = Some (d', n, out, e) → (n ≤ length b)%nat ∧ (length out ≤ BUFFER)%nat;
  sha256_hex_valid b : length (sha256_hex b) = 64%nat ∧ Forall (λ c, 48 ≤ c ≤ 57 ∨ 97 ≤ c ≤ 102) (sha256_hex b);
  fresh_end b d' n out : decompress new_gzip b = Some (d', n, out, true) → (1 ≤ n)%nat;
}.

Section download.
Context `{WebLib}.
(** ** Destinations *)
Definition octet (b i : Z) : Z := Z.land (Z.shiftr b (8 * (3 - i))) 255.
Definition segment (b i : Z) : Z := Z.land (Z.shiftr b (16 * (7 - i))) 65535.
Definition global_address (a : IpAddr) : bool :=
  match a with
  | V4 b =>
      let x := octet b 0 in let y := octet b 1 in let z := octet b 2 in
      negb (bool_decide (x = 0) || bool_decide (x = 10) || bool_decide (x = 127) || bool_decide (224 ≤ x) ||
            (bool_decide (x = 100) && bool_decide (64 ≤ y ≤ 127)) || (bool_decide (x = 169) && bool_decide (y = 254)) ||
            (bool_decide (x = 172) && bool_decide (16 ≤ y ≤ 31)) ||
            (bool_decide (x = 192) && (bool_decide (y = 168) || (bool_decide (y = 0) && bool_decide (z = 0)) ||
                                       (bool_decide (y = 0) && bool_decide (z = 2)) || (bool_decide (y = 88) && bool_decide (z = 99)))) ||
            (bool_decide (x = 198) && (bool_decide (y = 18) || bool_decide (y = 19) || (bool_decide (y = 51) && bool_decide (z = 100)))) ||
            (bool_decide (x = 203) && bool_decide (y = 0) && bool_decide (z = 113)))
  | V6 b =>
      let s0 := segment b 0 in let s1 := segment b 1 in
      bool_decide (Z.land s0 57344 = 8192) && negb (bool_decide (s0 = 8193) && (bool_decide (s1 < 512) || bool_decide (s1 = 3512))) &&
      negb (bool_decide (s0 = 8194)) && negb (bool_decide (s0 = 16383) && bool_decide (s1 < 4096))
  end.
Definition is_ascii_control (c : Z) : bool := bool_decide (c < 32 ∨ c = 127).
Definition has_blank (t : Str) : bool := existsb (λ c, is_ascii_control c || is_ascii_whitespace c) t.
Definition contains_char (c : Z) (t : Str) : bool := bool_decide (c ∈ t).
Definition backslash : Z := 92.
(** The part of the text before the first of the separators. *)
Fixpoint before (seps : list Z) (t : Str) : Str :=
  match t with [] => [] | c :: t => if bool_decide (c ∈ seps) then [] else c :: before seps t end.
Definition authority_has_userinfo (value : Str) : bool :=
  match (match split_once (lit "://") value with Some (_, rest) => Some rest | None => strip_prefix (lit "//") value end) with
  | Some rest => contains_char 64 (before [47; backslash; 63; 35] rest)
  | None => false
  end.
Definition https_prefix (value : Str) : bool := bool_decide (to_ascii_lowercase <$> take 8 value = lit "https://").
Definition url_admissible (u : Url) : bool :=
  bool_decide (u_scheme u = lit "https") && bool_decide (u_username u = []) && bool_decide (u_password u = None) && bool_decide (u_fragment u = None) &&
  negb (bool_decide (u_port u = Some 0)) && bool_decide (length (utf8 (u_text u)) ≤ 2048)%nat &&
  match u_host u with Some (Address ip) => global_address ip | Some (Domain _) => true | None => false end.
Definition canonical_url (value : Str) : option Str :=
  if negb (https_prefix value) || contains_char backslash value || negb (bool_decide (length (utf8 value) ≤ 2048)%nat) ||
     has_blank value || authority_has_userinfo value then None else
  u ← url_parse value;
  if url_admissible u then Some (u_text u) else None.
(** Square brackets around an IPv6 host. *)
Definition validate_https_uri (uri : Uri) : option Str :=
  authority ← uri_authority uri;
  host ← uri_host uri;
  if negb (bool_decide (uri_scheme uri = Some (lit "https"))) || contains_char 64 authority || bool_decide (host = []) ||
     bool_decide (uri_port uri = Some 0) then None
  else Some (trim_end_matches 93 (trim_start_matches 91 host)).
Definition validate_addresses (l : list SocketAddr) : bool :=
  negb (bool_decide (l = [])) && bool_decide (length l ≤ 16)%nat && forallb (λ a, global_address (sa_ip a)) l.

(** ** Headers *)
Definition HEADER_LIMIT : Z := 32 * 1024.
Definition get_all (name : Str) (h : HeaderMap) : list (list Z) := snd <$> filter (λ e, e.1 = name) h.
Definition header_total (h : HeaderMap) : option Z :=
  foldl (λ n e, n ≫= λ n, checked_add n (Z.of_nat (length e.1)) ≫= λ n, checked_add n (Z.of_nat (length e.2)) ≫= λ n, checked_add n 4) (Some 2) h.
Definition validate_headers (h : HeaderMap) : bool := match header_total h with Some n => bool_decide (n ≤ HEADER_LIMIT) | None => false end.
(** [str::parse::<u64>] *)
Definition parse_u64 (t : Str) : option Z :=
  let d := match t with 43 :: d => d | d => d end in
  if bool_decide (d = []) then None else
  n ← digits_value d 0; if bool_decide (n ≤ u64_max) then Some n else None.
Definition CONTENT_LENGTH : Str := lit "content-length".
Definition RETRY_AFTER : Str := lit "retry-after".
Definition LOCATION : Str := lit "location".
Definition ETAG : Str := lit "etag".
Definition LAST_MODIFIED : Str := lit "last-modified".
Definition CONTENT_ENCODING : Str := lit "content-encoding".
Definition IF_NONE_MATCH : Str := lit "if-none-match".
Definition IF_MODIFIED_SINCE : Str := lit "if-modified-since".
(** [inl]: a malformed length. *)
Definition content_length (h : HeaderMap) : unit + option Z :=
  match get_all CONTENT_LENGTH h with
  | [] => inr None
  | v :: _ => match to_str v ≫= parse_u64 with Some n => inr (Some n) | None => inl tt end
  end.
Definition retry_after_unix (h : HeaderMap) (now : Z) : option Z :=
  v ← head (get_all RETRY_AFTER h);
  v ← to_str v;
  match parse_u64 v with
  | Some seconds => Some (saturating_add u64_max now seconds)
  | None => d ← http_date v; if bool_decide (0 ≤ d) then Some d else None
  end.
Definition valid_header (value : Str) : bool := negb (bool_decide (value = [])) && bool_decide (length (utf8 value) ≤ 1024)%nat && header_value value.
Definition quote : Z := 34.
Definition etag_byte (b : Z) : bool := bool_decide (b = 33) || bool_decide (35 ≤ b ≤ 126) || bool_decide (128 ≤ b).
Definition valid_etag (value : Str) : bool :=
  let opaque := utf8 (default value (strip_prefix (lit "W/") value)) in
  valid_header value && bool_decide (head opaque = Some quote) && bool_decide (last opaque = Some quote) && bool_decide (2 ≤ length opaque)%nat &&
  forallb etag_byte (take (length opaque - 2) (drop 1 opaque)).
Definition valid_modified (value : Str) : bool := valid_header value && bool_decide (is_Some (http_date value)).
Definition saved_header (h : HeaderMap) (name : Str) : option Str :=
  match get_all name h with
  | [v] => t ← to_str v; if valid_header t then Some t else None
  | _ => None
  end.
(** ** Validators *)
Definition REPRESENTATION : Str := lit "text/plain;accept-encoding=gzip, identity;v=1".
Definition lower_hex (c : Z) : bool := bool_decide (48 ≤ c ≤ 57) || bool_decide (97 ≤ c ≤ 102).
Definition valid_hash (value : Str) : bool := bool_decide (length value = 64%nat) && forallb lower_hex value.
Record Validators : Type := mkValidators {
  final_url : Str;
  representation : Str;
  content_sha256 : Str;
  etag : option Str;
  last_modified : option Str;
}.
Definition validators_valid (v : Validators) : bool :=
  bool_decide (canonical_url (final_url v) = Some (final_url v)) && bool_decide (representation v = REPRESENTATION) &&
  valid_hash (content_sha256 v) && match etag v with Some t => valid_etag t | None => true end &&
  match last_modified v with Some t => valid_modified t | None => true end.

(** ** The environment *)
(** The chunks of a body; [None] is an error of the stream. *)
Record WireResponse : Type := mkResponse { r_status : Z; r_headers : HeaderMap; r_body : list (option (list Z)) }.
Record Request : Type := mkRequest { rq_address : SocketAddr; rq_uri : Uri; rq_headers : HeaderMap }.
(** By turn: whether the deadlines strike, what names, sockets, TLS and HTTP
    answer, whether a write fails, the clock. *)
Record Env : Type := mkEnv {
  deadline : nat → bool;
  slow : nat → bool;
  resolve : nat → Str → Z → option (list SocketAddr);
  connect : nat → SocketAddr → option (option SocketAddr);
  handshake : nat → Str → option Code;
  respond : nat → Request → Code + WireResponse;
  write_fails : nat → bool;
  unix_secs : nat → Z;
}.
(** [sent]: the requests on the wire; [output]: the staging file. *)
Record World : Type := mkWorld { sent : list Request; output : list Z; turn : nat }.
Definition X (A : Type) : Type := M World ReaderError A.
Definition throw {A} (c : Code) : X A := fail (error c).
Definition tick : X nat := λ w, (Ok (turn w), mkWorld (sent w) (output w) (S (turn w))).
Definition record_sent (r : Request) : X unit := λ w, (Ok tt, mkWorld (sent w ++ [r]) (output w) (turn w)).
Definition append_output (b : list Z) : X unit := λ w, (Ok tt, mkWorld (sent w) (output w ++ b) (turn w)).

Section run.
Context (env : Env).
Definition wait : X nat := let* t := tick in if deadline env t then throw RequestTimeout else ret t.
Definition wait_connect : X nat := let* t := wait in if slow env t then throw ConnectTimeout else ret t.

(** ** One request *)
Fixpoint connect_any (l : list SocketAddr) : X SocketAddr :=
  match l with
  | [] => throw NetworkError
  | a :: l =>
      let* t := wait_connect in
      match connect env t a with
      | None => connect_any l
      | Some None => throw NetworkError
      | Some (Some peer) => if bool_decide (a = peer) then ret a else throw DestinationNotAllowed
      end
  end.
Definition exchange (rq : Request) : X WireResponse :=
  let* t := wait_connect in
  record_sent rq;;;
  match respond env t rq with
  | inl c => throw c
  | inr r => if validate_headers (r_headers r) then ret r else throw ResponseHeadersTooLarge
  end.
Definition request (uri : Uri) (headers : HeaderMap) : X WireResponse :=
  let* host := ok_or (error DestinationNotAllowed) (validate_https_uri uri) in
  let* t := wait_connect in
  let* addresses := ok_or (error NetworkError) (take 17 <$> resolve env t host (default 443 (uri_port uri))) in
  (if validate_addresses addresses then ret tt else throw DestinationNotAllowed);;;
  let* address := connect_any addresses in
  let* t := wait_connect in
  match handshake env t host with
  | Some c => throw c
  | None => exchange (mkRequest address uri headers)
  end.

(** ** The body *)
(** The bytes written so far, and what was hashed. *)
Definition Progress : Type := Z * list Z.
Definition write_decoded (chunk : list Z) (p : Progress) (limit : Z) : X Progress :=
  let* n := ok_or (error DecodedTooLarge) (n ← checked_add p.1 (Z.of_nat (length chunk)); if bool_decide (n ≤ limit) then Some n else None) in
  let* t := wait in
  if write_fails env t then throw FileWriteFailed else
  append_output chunk;;;
  ret (n, p.2 ++ chunk).
Fixpoint decode_loop (fuel : nat) (d : Decoder) (finished : bool) (rest : list Z) (p : Progress) (limit : Z) : X (Decoder * bool * Progress) :=
  match fuel with
  | O => diverge
  | S fuel =>
      let d := if finished then new_gzip else d in
      match decompress d rest with
      | None => throw InvalidResponse
      | Some (d, consumed, produced, ended) =>
          let rest := drop consumed rest in
          let* p := write_decoded produced p limit in
          if ended then
            if bool_decide (rest = []) then ret (d, true, p) else decode_loop fuel d true rest p limit
          else if bool_decide (consumed = 0%nat) && bool_decide (produced = []) then
            if bool_decide (rest = []) then ret (d, false, p) else throw InvalidResponse
          else if bool_decide (rest = []) && bool_decide (length produced < BUFFER)%nat then ret (d, false, p)
          else decode_loop fuel d false rest p limit
      end
  end.
Definition decode_fuel (rest : list Z) (p : Progress) (limit : Z) : nat := S (S (2 * (length rest + Z.to_nat (limit - p.1)))).
(** [chunks]: parts of [BUFFER] bytes, the last one shorter. *)
Fixpoint write_parts (fuel : nat) (chunk : list Z) (p : Progress) (limit : Z) : X Progress :=
  match chunk, fuel with
  | [], _ => ret p
  | _, O => diverge
  | _, S fuel => let* p := write_decoded (take BUFFER chunk) p limit in write_parts fuel (drop BUFFER chunk) p limit
  end.
(** The decoder of a gzip body, with whether its member ended. *)
Fixpoint read_chunks (body : list (option (list Z))) (gzip : option (Decoder * bool)) (transferred : Z) (p : Progress) (limit : Z) :
    X (option (Decoder * bool) * Z * Progress) :=
  match body with
  | [] => let* _ := wait in ret (gzip, transferred, p)
  | chunk :: body =>
      let* _ := wait in
      let* chunk := ok_or (error NetworkError) chunk in
      let* transferred := ok_or (error TransferTooLarge)
        (n ← checked_add transferred (Z.of_nat (length chunk)); if bool_decide (n ≤ limit) then Some n else None) in
      if bool_decide (chunk = []) then read_chunks body gzip transferred p limit else
      match gzip with
      | Some (d, finished) =>
          let* r := decode_loop (decode_fuel chunk p limit) d finished chunk p limit in
          read_chunks body (Some (r.1.1, r.1.2)) transferred r.2 limit
      | None => let* p := write_parts (length chunk) chunk p limit in read_chunks body None transferred p limit
      end
  end.
Definition encoding_is (name e : Str) : bool := bool_decide ((to_ascii_lowercase <$> e) = name).
Definition stream_text (r : WireResponse) (limit : Z) : X (Str * Z) :=
  let encodings := get_all CONTENT_ENCODING (r_headers r) in
  let encoding := match encodings with v :: _ => default (lit "invalid") (to_str v) | [] => lit "identity" end in
  (if bool_decide (1 < length encodings)%nat || negb (encoding_is (lit "identity") encoding || encoding_is (lit "gzip") encoding)
   then throw UnsupportedEncoding else ret tt);;;
  let* length_ := match content_length (r_headers r) with inl _ => throw InvalidResponse | inr n => ret n end in
  (if match length_ with Some n => bool_decide (limit < n) | None => false end then throw TransferTooLarge else ret tt);;;
  let decoder := if encoding_is (lit "gzip") encoding then Some (new_gzip, false) else None in
  let* e := read_chunks (r_body r) decoder 0 (0, []) limit in
  let '(gzip, transferred, p) := e in
  (if match gzip with Some (_, finished) => negb finished | None => false end ||
      match length_ with Some n => negb (bool_decide (n = transferred)) | None => false end
   then throw InvalidResponse else ret tt);;;
  let* t := wait in
  if write_fails env t then throw FileWriteFailed else
  ret (sha256_hex p.2, p.1).

(** ** The download *)
Inductive DownloadOutcome : Type := Downloaded (sha256 : Str) (bytes : Z) (validators : Validators) | NotModified.
Definition MAX_BYTES : Z := 16 * 1024 * 1024.
Definition USER_AGENT : Str * list Z := (lit "user-agent", lit "PariNS-subscriptions/1").
Definition base_headers : HeaderMap := [USER_AGENT; (lit "accept", lit "text/plain"); (lit "accept-encoding", lit "gzip, identity")].
(** [HeaderValue::from_str(..).expect("validated binding")] *)
Definition binding_header (name value : Str) : X HeaderMap :=
  if header_value value then ret (base_headers ++ [(name, utf8 value)]) else panic.
Definition request_headers (binding : option Validators) : X HeaderMap :=
  match binding with
  | Some b => match etag b, last_modified b with
              | Some e, _ => binding_header IF_NONE_MATCH e
              | None, Some m => binding_header IF_MODIFIED_SINCE m
              | None, None => ret base_headers
              end
  | None => ret base_headers
  end.
Definition is_conditional (h : HeaderMap) : bool := existsb (λ e, bool_decide (e.1 = IF_NONE_MATCH) || bool_decide (e.1 = IF_MODIFIED_SINCE)) h.
Definition is_redirect (status : Z) : bool := bool_decide (status ∈ [301; 302; 303; 307; 308]).
Definition usable_location (v : Str) : bool :=
  bool_decide (length (utf8 v) ≤ 2048)%nat && negb (contains_char backslash v) && negb (has_blank v) && negb (authority_has_userinfo v).
Definition http_error {A} (r : WireResponse) : X A :=
  let* t := tick in
  let retry := if bool_decide (r_status r = 429 ∨ r_status r = 503) then retry_after_unix (r_headers r) (unix_secs env t) else None in
  fail (mkReaderError (if bool_decide (r_status r = 429) then RateLimited else HttpError) retry).
Definition redirect (current : Str) (h : HeaderMap) : X Str :=
  let* v := ok_or (error DestinationNotAllowed)
    (v ← head (get_all LOCATION h); v ← to_str v; if usable_location v then Some v else None) in
  let* url := expect (url_parse current) in
  let* joined := ok_or (error DestinationNotAllowed) (url_join url v) in
  ok_or (error DestinationNotAllowed) (canonical_url (u_text joined)).
Definition keep_header (ok : Str → bool) (v : option Str) : option Str := v ≫= λ t, if ok t then Some t else None.
Definition finish (r : WireResponse) (current : Str) (limit : Z) : X DownloadOutcome :=
  let e := keep_header valid_etag (saved_header (r_headers r) ETAG) in
  let m := keep_header valid_modified (saved_header (r_headers r) LAST_MODIFIED) in
  let* d := stream_text r limit in
  ret (Downloaded d.1 d.2 (mkValidators current REPRESENTATION d.1 e m)).
Definition binding_of (previous : option Validators) (current : Str) (repaired : bool) : option Validators :=
  v ← previous; if negb repaired && bool_decide (final_url v = current) then Some v else None.
Fixpoint download_loop (fuel : nat) (previous : option Validators) (current : Str) (redirects : nat) (repaired : bool) (limit : Z) : X DownloadOutcome :=
  match fuel with
  | O => diverge
  | S fuel =>
      let* headers := request_headers (binding_of previous current repaired) in
      let conditional := is_conditional headers in
      let* uri := ok_or (error DestinationNotAllowed) (uri_parse current) in
      let* r := request uri headers in
      if is_redirect (r_status r) then
        if bool_decide (redirects = 3%nat) then throw RedirectLimit else
        let* next := redirect current (r_headers r) in
        download_loop fuel previous next (S redirects) repaired limit
      else if bool_decide (r_status r = 304) then
        if conditional then ret NotModified else
        if repaired then throw InvalidNotModified else
        download_loop fuel previous current redirects true limit
      else if bool_decide (r_status r = 200) then finish r current limit
      else http_error r
  end.
(** Three redirects and one repeated request. *)
Definition download_with (url : Str) (previous : option Validators) (limit : Z) : X DownloadOutcome :=
  let* current := ok_or (error DestinationNotAllowed) (canonical_url url) in
  download_loop 5 previous current 0 false limit.
(** [busy]: another download holds the permit. *)
Definition download (busy : bool) (url : Str) (previous : option Validators) : X DownloadOutcome :=
  if busy then throw SubscriptionBusy else download_with url previous MAX_BYTES.
End run.
End download.
