(* ===== verification/DownloadSafe.v ===== *)
(** * Safety of downloads

    What a download can reach, send and write, whatever the network answers, and
    the addresses that [global_address] excludes, as networks. *)
From S2P Require Import Prelude Net Std Canonical BlockAnswer Policy Text Upstreams Download.
Set Default Goal Selector "!".
Set Warnings "-rewrite-rw".
Local Open Scope Z_scope.
Local Open Scope rust_scope.

(** ** Addresses *)
(** The condition of the step to run. *)
Ltac split_if := match goal with |- wp (if ?b then _ else _) _ _ _ => destruct b end.
(** Evaluates the powers of two. *)
Ltac powers := repeat match goal with |- context [2 ^ ?n] => let v := eval vm_compute in (2 ^ n) in progress change (2 ^ n) with v end.
Ltac divide := powers; Z.to_euclidean_division_equations; lia.
Definition net4 (x y z w p : Z) : IpAddr * Z := (V4 (x * 2 ^ 24 + y * 2 ^ 16 + z * 2 ^ 8 + w), p).
Definition net6 (s0 s1 p : Z) : IpAddr * Z := (V6 (s0 * 2 ^ 112 + s1 * 2 ^ 96), p).
Definition within (n : IpAddr * Z) (a : IpAddr) : Prop := is_ipv4 a = is_ipv4 n.1 ∧ mask a n.2 = n.1.
(** The networks of the registries of special addresses. *)
Definition special4 : list (IpAddr * Z) :=
  [net4 0 0 0 0 8; net4 10 0 0 0 8; net4 127 0 0 0 8; net4 224 0 0 0 3; net4 100 64 0 0 10; net4 169 254 0 0 16; net4 172 16 0 0 12;
   net4 192 168 0 0 16; net4 192 0 0 0 24; net4 192 0 2 0 24; net4 192 88 99 0 24; net4 198 18 0 0 15; net4 198 51 100 0 24; net4 203 0 113 0 24].
Definition special6 : list (IpAddr * Z) := [net6 8193 0 23; net6 8193 3512 32; net6 8194 0 16; net6 16383 0 20].
Definition publicly_routed (a : IpAddr) : Prop :=
  match a with
  | V4 _ => Forall (λ n, ¬ within n a) special4
  | V6 _ => within (net6 8192 0 3) a ∧ Forall (λ n, ¬ within n a) special6
  end.
Lemma octet_div b i : 0 ≤ i ≤ 3 → octet b i = b / 2 ^ (8 * (3 - i)) mod 256.
Proof. intros Hi. unfold octet. rewrite (Z.land_ones _ 8); [|lia]. by rewrite Z.shiftr_div_pow2; [|lia]. Qed.
Lemma segment_div b i : 0 ≤ i ≤ 7 → segment b i = b / 2 ^ (16 * (7 - i)) mod 65536.
Proof. intros Hi. unfold segment. rewrite (Z.land_ones _ 16); [|lia]. by rewrite Z.shiftr_div_pow2; [|lia]. Qed.
Lemma within4 b m p : 0 ≤ p ≤ 32 → within (V4 m, p) (V4 b) ↔ b / 2 ^ (32 - p) * 2 ^ (32 - p) = m.
Proof.
  intros Hp. unfold within, mask. simpl. rewrite Z.shiftl_mul_pow2; [|lia]. rewrite Z.shiftr_div_pow2; [|lia].
  split; [intros [_ [= H]]; exact H|intros ->; done].
Qed.
Lemma within6 b m p : 0 ≤ p ≤ 128 → within (V6 m, p) (V6 b) ↔ b / 2 ^ (128 - p) * 2 ^ (128 - p) = m.
Proof.
  intros Hp. unfold within, mask. simpl. rewrite Z.shiftl_mul_pow2; [|lia]. rewrite Z.shiftr_div_pow2; [|lia].
  split; [intros [_ [= H]]; exact H|intros ->; done].
Qed.
Lemma land_top3 s : 0 ≤ s < 65536 → Z.land s 57344 = s / 8192 * 8192.
Proof.
  intros Hs. change 8192 with (2 ^ 13). rewrite -Z.shiftr_div_pow2; [|lia]. rewrite -Z.shiftl_mul_pow2; [|lia].
  apply Z.bits_inj'. intros n Hn. rewrite Z.land_spec. destruct (decide (n < 13)).
  - rewrite Z.shiftl_spec_low; [|done]. replace (Z.testbit 57344 n) with false; [by rewrite andb_false_r|].
    symmetry. assert (n = 0 ∨ n = 1 ∨ n = 2 ∨ n = 3 ∨ n = 4 ∨ n = 5 ∨ n = 6 ∨ n = 7 ∨ n = 8 ∨ n = 9 ∨ n = 10 ∨ n = 11 ∨ n = 12) by lia. naive_solver.
  - rewrite Z.shiftl_spec; [|lia]. rewrite Z.shiftr_spec; [|lia]. replace (n - 13 + 13) with n by lia.
    destruct (decide (n < 16)).
    + assert (n = 13 ∨ n = 14 ∨ n = 15) as [->|[->| ->]] by lia; by rewrite andb_true_r.
    + assert (Z.testbit s n = false) as ->; [|done]. apply Z.bits_above_log2; [lia|].
      destruct (decide (s = 0)) as [->|]; [simpl; lia|]. assert (Z.log2 s < 16); [|lia]. apply Z.log2_lt_pow2; simpl; lia.
Qed.
Lemma negb_is b : negb b = true ↔ ¬ b = true.
Proof. by destruct b. Qed.
Section v4.
Context (b x y z w : Z).
Hypothesis Hb : b = x * 16777216 + y * 65536 + z * 256 + w.
Hypothesis Hx : 0 ≤ x < 256.
Hypothesis Hy : 0 ≤ y < 256.
Hypothesis Hz : 0 ≤ z < 256.
Hypothesis Hw : 0 ≤ w < 256.
Lemma octets : octet b 0 = x ∧ octet b 1 = y ∧ octet b 2 = z.
Proof. rewrite !octet_div; [|lia..]. divide. Qed.
Lemma in_8 c : within (net4 c 0 0 0 8) (V4 b) ↔ x = c.
Proof. unfold net4. rewrite within4; [|lia]. divide. Qed.
Lemma in_3 : within (net4 224 0 0 0 3) (V4 b) ↔ 224 ≤ x.
Proof. unfold net4. rewrite within4; [|lia]. divide. Qed.
Lemma in_16 c d : 0 ≤ d < 256 → within (net4 c d 0 0 16) (V4 b) ↔ x = c ∧ y = d.
Proof. intros Hd. unfold net4. rewrite within4; [|lia]. divide. Qed.
Lemma in_24 c d e : 0 ≤ d < 256 → 0 ≤ e < 256 → within (net4 c d e 0 24) (V4 b) ↔ x = c ∧ y = d ∧ z = e.
Proof. intros Hd He. unfold net4. rewrite within4; [|lia]. divide. Qed.
Lemma in_100 : within (net4 100 64 0 0 10) (V4 b) ↔ x = 100 ∧ 64 ≤ y ≤ 127.
Proof. unfold net4. rewrite within4; [|lia]. divide. Qed.
Lemma in_172 : within (net4 172 16 0 0 12) (V4 b) ↔ x = 172 ∧ 16 ≤ y ≤ 31.
Proof. unfold net4. rewrite within4; [|lia]. divide. Qed.
Lemma in_198 : within (net4 198 18 0 0 15) (V4 b) ↔ x = 198 ∧ (y = 18 ∨ y = 19).
Proof. unfold net4. rewrite within4; [|lia]. divide. Qed.
Lemma global_v4 : global_address (V4 b) = true ↔ publicly_routed (V4 b).
Proof.
  destruct octets as (Ho0 & Ho1 & Ho2). unfold global_address, publicly_routed, special4. cbv zeta. rewrite Ho0 Ho1 Ho2.
  rewrite !Forall_cons Forall_nil !in_8 in_3 in_100 in_172 in_198. rewrite !in_16; [|lia..]. rewrite !in_24; [|lia..].
  rewrite negb_is !orb_true_iff !andb_true_iff !orb_true_iff !andb_true_iff !bool_decide_eq_true. tauto.
Qed.
End v4.
Section v6.
Context (b s0 s1 t : Z).
Hypothesis Hb : b = s0 * 5192296858534827628530496329220096 + s1 * 79228162514264337593543950336 + t.
Hypothesis Hs0 : 0 ≤ s0 < 65536.
Hypothesis Hs1 : 0 ≤ s1 < 65536.
Hypothesis Ht : 0 ≤ t < 79228162514264337593543950336.
Lemma segments : segment b 0 = s0 ∧ segment b 1 = s1.
Proof. rewrite !segment_div; [|lia..]. divide. Qed.
Lemma global_v6 : global_address (V6 b) = true ↔ publicly_routed (V6 b).
Proof.
  destruct segments as (Ho0 & Ho1). unfold global_address, publicly_routed, special6, net6. cbv zeta. rewrite Ho0 Ho1 land_top3; [|done].
  rewrite !Forall_cons Forall_nil !within6; [|lia..]. rewrite !andb_true_iff !negb_is !andb_true_iff orb_true_iff !bool_decide_eq_true. powers.
  assert (b / 42535295865117307932921825928971026432 * 42535295865117307932921825928971026432 = 42535295865117307932921825928971026432 ↔ s0 / 8192 * 8192 = 8192) as -> by divide.
  divide.
Qed.
End v6.

(** C40. [global_address] admits exactly the addresses outside the special-purpose
    networks: IPv4 outside fourteen of them, IPv6 inside 2000::/3 and outside
    four. *)
Theorem global_address_reference a : ip_valid a → global_address a = true ↔ publicly_routed a.
Proof.
  unfold ip_valid. destruct a as [b|b]; cbn [ip_bits ip_width]; powers; intros [H1 H2].
  - apply (global_v4 b (b / 2 ^ 24) (b / 2 ^ 16 mod 256) (b / 2 ^ 8 mod 256) (b mod 256)); divide.
  - set (k := 79228162514264337593543950336). pose proof (Z_div_mod_eq_full b k) as Hb. pose proof (Z.mod_pos_bound b k eq_refl) as Hr.
    set (q := b / k) in *. pose proof (Z_div_mod_eq_full q 65536). pose proof (Z.mod_pos_bound q 65536 eq_refl). subst k.
    apply (global_v6 b (q / 65536) (q mod 65536) (b mod 79228162514264337593543950336)); lia.
Qed.

Lemma buffer_pos : (1 ≤ BUFFER)%nat.
Proof. unfold BUFFER. lia. Qed.
Section download.
Context `{WebSpec} (env : Env).
(** ** Bodies *)
(** Since [w0] only the bytes of [p] were written. *)
Record wrote (limit : Z) (w0 : World) (p : Progress) (w : World) : Prop := {
  wr_sent : sent w = sent w0;
  wr_output : output w = output w0 ++ p.2;
  wr_count : p.1 = Z.of_nat (length p.2);
  wr_limit : p.1 ≤ limit;
}.
Definition wrote_some (limit : Z) (w0 : World) (e : ReaderError) (w : World) : Prop := ∃ p, wrote limit w0 p w.
Lemma wrote_turn limit w0 p s o t t' : wrote limit w0 p (mkWorld s o t) → wrote limit w0 p (mkWorld s o t').
Proof. by intros [? ? ? ?]. Qed.
Lemma wp_wait (Q : nat → World → Prop) (R : ReaderError → World → Prop) w :
  (∀ t, Q t (mkWorld (sent w) (output w) (S (turn w)))) → (∀ e, R e (mkWorld (sent w) (output w) (S (turn w)))) → wp (wait env) Q R w.
Proof. intros HQ HR. unfold wait. apply wp_bind. unfold tick, wp. simpl. destruct (deadline env (turn w)); [apply HR|apply HQ]. Qed.
Lemma wp_wait_wrote limit w0 p w (Q : nat → World → Prop) :
  wrote limit w0 p w → (∀ t w', wrote limit w0 p w' → Q t w') → wp (wait env) Q (wrote_some limit w0) w.
Proof.
  intros Hw HQ. destruct w as [s o t]. apply wp_wait.
  - intros t'. apply HQ. by eapply wrote_turn.
  - intros e. exists p. by eapply wrote_turn.
Qed.
Lemma wp_write limit w0 p w chunk :
  wrote limit w0 p w →
  wp (write_decoded env chunk p limit) (λ p' w', wrote limit w0 p' w' ∧ p' = (p.1 + Z.of_nat (length chunk), p.2 ++ chunk)) (wrote_some limit w0) w.
Proof.
  intros Hw. unfold write_decoded. apply wp_bind, wp_ok_or.
  - intros n Hn. apply bind_Some in Hn as (n' & Hadd & Hn). case_bool_decide as Hl; [|done]. injection Hn as ->.
    apply wp_bind. eapply wp_wait_wrote; [exact Hw|]. intros t w' Hw'. destruct (write_fails env t); [apply wp_fail; by exists p|].
    apply wp_bind. unfold append_output, wp, ret. simpl. destruct Hw' as [Hs Ho Hc _].
    assert (n = p.1 + Z.of_nat (length chunk)) as -> by (unfold checked_add in Hadd; case_match; congruence).
    split; [|done]. split; simpl; [done|by rewrite Ho app_assoc|rewrite length_app; lia|done].
  - intros _. by exists p.
Qed.
(** What is left of the input and of the limit bounds the decoder's steps. *)
Lemma wp_decode limit w0 fuel d (finished : bool) (rest : list Z) p w :
  wrote limit w0 p w →
  (2 * (length rest + Z.to_nat (limit - p.1)) + (if finished then 0 else 1) < fuel)%nat →
  wp (decode_loop env fuel d finished rest p limit) (λ r w', wrote limit w0 r.2 w') (wrote_some limit w0) w.
Proof.
  revert d finished rest p w. induction fuel as [|fuel IH]; intros d finished rest p w Hw Hf; [lia|]. cbn [decode_loop].
  set (d0 := if finished then new_gzip else d). destruct (decompress d0 rest) as [[[[d' n] out] ended]|] eqn:Hd; [|apply wp_fail; by exists p].
  destruct (decompress_bounds _ _ _ _ _ _ Hd) as [Hn Hout].
  apply wp_bind. eapply wp_mono; [|done|by apply wp_write]. intros p' w' [Hw' Hp'].
  assert (length (drop n rest) = (length rest - n)%nat) as Hlen by apply length_drop.
  assert (Z.to_nat (limit - p'.1) = (Z.to_nat (limit - p.1) - length out)%nat ∧ (length out ≤ Z.to_nat (limit - p.1))%nat) as [Hlim Hle].
  { destruct Hw' as [_ _ _ Hl]. subst p'. simpl in *. lia. }
  assert (ended = true → finished = true → (1 ≤ n)%nat) as Hfresh.
  { intros -> ->. eapply fresh_end. exact Hd. }
  destruct ended.
  - destruct (bool_decide (drop n rest = [])); [by apply wp_ret|]. apply IH; [done|]. rewrite Hlen Hlim. destruct finished; [|lia].
    specialize (Hfresh eq_refl eq_refl). lia.
  - destruct (bool_decide (n = 0%nat) && bool_decide (out = [])) eqn:Hz.
    + destruct (bool_decide (drop n rest = [])); [by apply wp_ret|apply wp_fail; by exists p'].
    + destruct (bool_decide (drop n rest = []) && _); [by apply wp_ret|]. apply IH; [done|]. rewrite Hlen Hlim.
      assert (1 ≤ n ∨ 1 ≤ length out)%nat; [|destruct finished; lia].
      apply andb_false_iff in Hz as [Hz|Hz]; apply bool_decide_eq_false in Hz; [left; lia|right]. destruct out; [done|simpl; lia].
Qed.
Lemma wp_parts limit w0 fuel chunk p w :
  wrote limit w0 p w → (length chunk ≤ fuel)%nat →
  wp (write_parts env fuel chunk p limit) (λ p' w', wrote limit w0 p' w') (wrote_some limit w0) w.
Proof.
  revert chunk p w. induction fuel as [|fuel IH]; intros [|c chunk] p w Hw Hf; simpl in Hf; [by apply wp_ret|lia|by apply wp_ret|].
  cbn [write_parts]. apply wp_bind. eapply wp_mono; [|done|by apply wp_write]. intros p' w' [Hw' _]. apply IH; [done|].
  rewrite length_drop. pose proof buffer_pos. cbn [length]. lia.
Qed.
Lemma wp_chunks limit w0 body gzip transferred p w :
  wrote limit w0 p w → wp (read_chunks env body gzip transferred p limit) (λ r w', wrote limit w0 r.2 w') (wrote_some limit w0) w.
Proof.
  revert gzip transferred p w. induction body as [|chunk body IH]; intros gzip transferred p w Hw; cbn [read_chunks].
  - apply wp_bind. eapply wp_wait_wrote; [exact Hw|]. intros t w' Hw'. by apply wp_ret.
  - apply wp_bind. eapply wp_wait_wrote; [exact Hw|]. intros t w1 Hw1. apply wp_bind, wp_ok_or; [|intros _; by exists p]. intros c _.
    apply wp_bind, wp_ok_or; [|intros _; by exists p]. intros n _. case_bool_decide; [by apply IH|].
    destruct gzip as [[d finished]|]; apply wp_bind.
    + eapply wp_mono; [|done|by apply wp_decode; [|unfold decode_fuel; destruct finished; lia]]. intros r w2 Hw2. by apply IH.
    + eapply wp_mono; [|done|by apply wp_parts]. intros p' w2 Hw2. by apply IH.
Qed.
Lemma wp_stream_text r limit w :
  0 ≤ limit →
  wp (stream_text env r limit) (λ d w', ∃ out, wrote limit w (d.2, out) w' ∧ d.1 = sha256_hex out) (wrote_some limit w) w.
Proof.
  intros Hl. assert (wrote limit w (0, []) w) as Hw by (split; simpl; [done|by rewrite app_nil_r|done|done]).
  unfold stream_text. cbv zeta. apply wp_bind. split_if; [apply wp_fail; by eexists|]. apply wp_ret, wp_bind.
  destruct (content_length _) as [?|n]; [apply wp_fail; by eexists|]. apply wp_ret, wp_bind. split_if; [apply wp_fail; by eexists|]. apply wp_ret, wp_bind.
  eapply wp_mono; [|done|by apply wp_chunks]. intros [[gzip transferred] p] w1 Hw1. simpl in Hw1. apply wp_bind. split_if; [apply wp_fail; by exists p|].
  apply wp_ret, wp_bind. eapply wp_wait_wrote; [exact Hw1|]. intros t w2 Hw2. split_if; [apply wp_fail; by exists p|]. apply wp_ret.
  exists p.2. simpl. split; [by destruct p|done].
Qed.

(** ** Requests *)
Lemma wp_wait_connect (Q : nat → World → Prop) (R : ReaderError → World → Prop) w :
  (∀ t n, Q t (mkWorld (sent w) (output w) n)) → (∀ e n, R e (mkWorld (sent w) (output w) n)) → wp (wait_connect env) Q R w.
Proof. intros HQ HR. unfold wait_connect. apply wp_bind, wp_wait; [|auto]. intros t. destruct (slow env t); [by apply wp_fail|by apply wp_ret]. Qed.
Definition reached (uri : Uri) (h : HeaderMap) (w w' : World) : Prop :=
  output w' = output w ∧ (sent w' = sent w ∨ ∃ a, global_address (sa_ip a) = true ∧ sent w' = sent w ++ [mkRequest a uri h]).
Lemma wp_connect l w :
  Forall (λ a, global_address (sa_ip a) = true) l →
  wp (connect_any env l) (λ a w', global_address (sa_ip a) = true ∧ sent w' = sent w ∧ output w' = output w)
    (λ _ w', sent w' = sent w ∧ output w' = output w) w.
Proof.
  revert w. induction l as [|a l IH]; intros w Hl; simpl; [by apply wp_fail|]. apply Forall_cons in Hl as [Ha Hl].
  apply wp_bind, wp_wait_connect; [|done]. intros t n. destruct (connect env t a) as [[peer|]|]; [|by apply wp_fail|by apply (IH (mkWorld (sent w) (output w) n))].
  case_bool_decide; [by apply wp_ret|by apply wp_fail].
Qed.
Lemma wp_request uri h w :
  wp (request env uri h) (λ r w', output w' = output w ∧ ∃ a, global_address (sa_ip a) = true ∧ sent w' = sent w ++ [mkRequest a uri h])
    (λ _ w', reached uri h w w') w.
Proof.
  unfold request. apply wp_bind, wp_ok_or; [|by split; [|left]]. intros host _.
  apply wp_bind, wp_wait_connect; [|by split; [|left]]. intros t n. apply wp_bind, wp_ok_or; [|by split; [|left]]. intros l _.
  apply wp_bind. destruct (validate_addresses l) eqn:Hv; [|by split; [|left]]. apply wp_ret, wp_bind.
  eapply wp_mono; [| |apply wp_connect].
  - intros a w1 (Ha & Hs & Ho). simpl in Hs, Ho. apply wp_bind, wp_wait_connect; [|intros e n'; simpl; split; [done|by left]]. intros t' n'.
    destruct (handshake env t' host); [apply wp_fail; split; [done|by left]|]. unfold exchange. apply wp_bind, wp_wait_connect; [|intros e n''; split; [done|by left]].
    intros t'' n''. apply wp_bind. unfold record_sent, wp. simpl. destruct (respond env t'' _) as [c|r]; simpl.
    + split; [done|]. right. exists a. by rewrite Hs.
    + destruct (validate_headers _); simpl; (split; [done|]); [|right]; exists a; by rewrite Hs.
  - intros e w1 (Hs & Ho). split; [done|by left].
  - unfold validate_addresses in Hv. apply andb_true_iff in Hv as [_ Hv]. rewrite forallb_forall in Hv. apply Forall_forall.
    intros a Ha. apply Hv. by apply list_elem_of_In.
Qed.

(** ** The download *)
Definition admissible (u : Str) : Prop := ∃ url, url_parse u = Some url ∧ url_admissible url = true.
(** A request to a public address for an admissible URL; it is conditional only
    for the URL that the saved validators belong to. *)
Definition fine_request (previous : option Validators) (u : Str) (rq : Request) : Prop :=
  global_address (sa_ip (rq_address rq)) = true ∧ admissible u ∧ uri_parse u = Some (rq_uri rq) ∧
  (is_conditional (rq_headers rq) = true → ∃ v, previous = Some v ∧ final_url v = u).
(** At most [k] requests were sent and [limit] bytes written. *)
Record contained (previous : option Validators) (k : nat) (limit : Z) (w w' : World) (new : list Request) (out : list Z) : Prop := {
  ct_sent : sent w' = sent w ++ new;
  ct_count : (length new ≤ k)%nat;
  ct_fine : Forall (λ rq, ∃ u, fine_request previous u rq) new;
  ct_output : output w' = output w ++ out;
  ct_limit : Z.of_nat (length out) ≤ limit;
}.
Definition delivered (previous : option Validators) (o : DownloadOutcome) (new : list Request) (out : list Z) : Prop :=
  match o with
  | Downloaded h n v =>
      h = sha256_hex out ∧ n = Z.of_nat (length out) ∧ content_sha256 v = h ∧ valid_hash h = true ∧ representation v = REPRESENTATION ∧
      (∀ e, etag v = Some e → valid_etag e = true) ∧ (∀ m, last_modified v = Some m → valid_modified m = true) ∧
      ∃ rq, last new = Some rq ∧ fine_request previous (final_url v) rq
  | NotModified => out = [] ∧ ∃ v rq, previous = Some v ∧ last new = Some rq ∧ fine_request previous (final_url v) rq ∧ is_conditional (rq_headers rq) = true
  end.
Lemma admissible_canonical s u : canonical_url s = Some u → admissible u.
Proof.
  unfold canonical_url. destruct (_ || _); [done|]. intros (url & Hp & Hu)%bind_Some. destruct (url_admissible url) eqn:Ha; [|done].
  injection Hu as <-. exists url. split; [by eapply url_parse_text|done].
Qed.
Lemma valid_etag_header e : valid_etag e = true → header_value e = true.
Proof. unfold valid_etag, valid_header. rewrite !andb_true_iff. tauto. Qed.
Lemma valid_modified_header m : valid_modified m = true → header_value m = true.
Proof. unfold valid_modified, valid_header. rewrite !andb_true_iff. tauto. Qed.
Lemma kept_header ok v t : keep_header ok v = Some t → ok t = true.
Proof. unfold keep_header. intros (t' & _ & Ht)%bind_Some. destruct (ok t') eqn:Ho; [|done]. by injection Ht as <-. Qed.
Lemma hash_valid b : valid_hash (sha256_hex b) = true.
Proof.
  destruct (sha256_hex_valid b) as [Hl Hc]. unfold valid_hash. rewrite bool_decide_true; [|done]. simpl. apply forallb_forall. intros c Hin.
  rewrite Forall_forall in Hc. destruct (Hc c) as [Hd|Hd]; [by apply list_elem_of_In|..]; unfold lower_hex; rewrite orb_true_iff !bool_decide_eq_true; auto.
Qed.
Section loop.
Context (previous : option Validators) (limit : Z).
Hypothesis Hprevious : ∀ v, previous = Some v → validators_valid v = true.
Hypothesis Hlimit : 0 ≤ limit.
Lemma wp_request_headers current repaired w :
  wp (request_headers (binding_of previous current repaired))
    (λ h w', w' = w ∧ (is_conditional h = true → ∃ v, previous = Some v ∧ final_url v = current)) (λ (_ : ReaderError) _, False) w.
Proof.
  unfold binding_of. destruct previous as [v|] eqn:Hp; [|by split]. simpl. destruct (negb repaired && _) eqn:Hb; [|by split]. simpl.
  apply andb_true_iff in Hb as [_ Hu%bool_decide_eq_true].
  assert (∃ v0, Some v = Some v0 ∧ final_url v0 = current) by eauto.
  pose proof (Hprevious v eq_refl) as Hv. unfold validators_valid in Hv. rewrite !andb_true_iff in Hv. destruct Hv as [[_ He] Hm].
  unfold binding_header. destruct (etag v) as [e|]; [by rewrite valid_etag_header|].
  destruct (last_modified v) as [m|]; [by rewrite valid_modified_header|by split].
Qed.
Lemma contained_start k w : contained previous k limit w w [] [].
Proof. split; [by rewrite app_nil_r|simpl; lia|constructor|by rewrite app_nil_r|done]. Qed.
Lemma contained_request k w w1 w' u rq new out :
  output w1 = output w → sent w1 = sent w ++ [rq] → fine_request previous u rq → contained previous k limit w1 w' new out →
  contained previous (S k) limit w w' (rq :: new) out.
Proof.
  intros Ho Hs Hf [Hs' Hc Hn Ho' Hl]. split; [by rewrite Hs' Hs -app_assoc|simpl; lia| |by rewrite Ho' Ho|done]. constructor; [by exists u|done].
Qed.
Lemma delivered_cons o rq new out : new ≠ [] → delivered previous o new out → delivered previous o (rq :: new) out.
Proof.
  intros Hn. assert (last (rq :: new) = last new) as Hlast by (destruct new; [done|done]).
  destruct o; unfold delivered; by rewrite Hlast.
Qed.
Lemma delivered_some o new out : delivered previous o new out → new ≠ [].
Proof. destruct o; simpl; [intros (_ & _ & _ & _ & _ & _ & _ & rq & Hl & _)|intros (_ & v & rq & _ & Hl & _)]; by destruct new. Qed.
Lemma wp_redirect current h (w : World) :
  admissible current → wp (redirect current h) (λ next w', w' = w ∧ admissible next) (λ _ w', w' = w) w.
Proof.
  intros (url & Hp & _). unfold redirect. apply wp_bind, wp_ok_or; [|done]. intros v _. apply wp_bind. rewrite Hp. eapply wp_expect; [reflexivity|].
  apply wp_bind, wp_ok_or; [|done]. intros j _. apply wp_ok_or; [|done]. intros u Hu. split; [done|]. by eapply admissible_canonical.
Qed.
Definition asked (redirects : nat) (repaired : bool) : nat := (4 - redirects + (if repaired then 0 else 1))%nat.
Lemma wp_download_loop fuel current redirects repaired w :
  admissible current → (redirects ≤ 3)%nat → (asked redirects repaired ≤ fuel)%nat →
  wp (download_loop env fuel previous current redirects repaired limit)
    (λ o w', ∃ new out, contained previous (asked redirects repaired) limit w w' new out ∧ delivered previous o new out)
    (λ _ w', ∃ new out, contained previous (asked redirects repaired) limit w w' new out) w.
Proof.
  revert current redirects repaired w. induction fuel as [|fuel IH]; intros current redirects repaired w Ha Hr Hf; [unfold asked in Hf; lia|].
  cbn [download_loop]. apply wp_bind. eapply wp_mono; [| |apply wp_request_headers]; [|by intros ? ? []]. intros h ? [-> Hcond].
  apply wp_bind, wp_ok_or; [|intros _; exists [], []; apply contained_start]. intros uri Huri.
  destruct (asked redirects repaired) as [|k] eqn:Hk; [unfold asked in Hk; lia|].
  assert (∀ a, global_address (sa_ip a) = true → fine_request previous current (mkRequest a uri h)) as Hfine by (intros a Hg; done).
  apply wp_bind. eapply wp_mono; [| |apply wp_request].
  2: { intros e w1 [Ho [Hs|(a & Hg & Hs)]].
       - exists [], []. split; [by rewrite Hs app_nil_r|simpl; lia|constructor|by rewrite Ho app_nil_r|done].
       - exists [mkRequest a uri h], []. eapply contained_request; [done|done|by apply Hfine|apply contained_start]. }
  intros r w1 (Ho & a & Hg & Hs). set (rq := mkRequest a uri h) in *.
  assert (∀ w' new out, contained previous k limit w1 w' new out → contained previous (S k) limit w w' (rq :: new) out) as Hext.
  { intros w' new out. eapply contained_request; [done|done|by apply Hfine]. }
  assert (∃ new out, contained previous (S k) limit w w1 new out) as Herr by (exists [rq], []; apply Hext, contained_start).
  assert (∀ c rd rp, admissible c → (rd ≤ 3)%nat → asked rd rp = k →
    wp (download_loop env fuel previous c rd rp limit)
      (λ o w', ∃ new out, contained previous (S k) limit w w' new out ∧ delivered previous o new out)
      (λ _ w', ∃ new out, contained previous (S k) limit w w' new out) w1) as Hagain.
  { intros c rd rp Hc Hrd Hask. eapply wp_mono; [| |apply IH; [done|done|lia]]; rewrite Hask.
    - intros o w' (new & out & Hct & Hd). exists (rq :: new), out. split; [by apply Hext|]. apply delivered_cons; [by eapply delivered_some|done].
    - intros e w' (new & out & Hct). exists (rq :: new), out. by apply Hext. }
  split_if.
  { case_bool_decide; [by apply wp_fail|]. apply wp_bind. eapply wp_mono; [| |by apply wp_redirect].
    - intros next ? [-> Hnext]. apply Hagain; [done|lia|]. unfold asked in *. lia.
    - by intros e ? ->. }
  split_if.
  { destruct (is_conditional h) eqn:Hc; [|].
    - apply wp_ret. destruct (Hcond eq_refl) as (v & Hp & Hv). exists [rq], []. split; [apply Hext, contained_start|].
      split; [done|]. exists v, rq. split; [done|]. split; [done|]. split; [|done]. rewrite Hv. by apply Hfine.
    - destruct repaired; [by apply wp_fail|]. apply Hagain; [done|done|]. unfold asked in *. lia. }
  split_if.
  - unfold finish. cbv zeta. apply wp_bind. eapply wp_mono; [| |by apply wp_stream_text].
    + intros d w' (out & [Hs' Ho' Hc Hl] & Hsha). simpl in Ho', Hc, Hl. apply wp_ret. exists [rq], out. split.
      * apply Hext. split; [by rewrite Hs' app_nil_r|simpl; lia|constructor|done|lia].
      * split; [done|]. split; [done|]. split; [done|]. split; [rewrite Hsha; apply hash_valid|]. split; [done|]. simpl.
        split; [by intros; eapply kept_header|]. split; [by intros; eapply kept_header|]. exists rq. split; [done|by apply Hfine].
    + intros e w' (p & [Hs' Ho' Hc Hl]). exists [rq], p.2. apply Hext. split; [by rewrite Hs' app_nil_r|simpl; lia|constructor|done|lia].
  - unfold http_error. apply wp_bind. unfold tick, wp. simpl. destruct Herr as (new & out & [? ? ? ? ?]). exists new, out. done.
Qed.
End loop.
End download.

(** C15. A download, whatever names, servers and the deadline do: at most five
    requests go out, each over a connection to a public address and for an https
    URL without credentials; the saved validators are only sent for the URL they
    came from. At most [limit] bytes are written. A finished download gives the
    number and the digest of exactly the bytes that were written and validators
    that can be saved; [NotModified] answers a conditional request. It never
    panics and always ends. *)
Theorem download_contained `{WebSpec} env url previous limit w :
  (∀ v, previous = Some v → validators_valid v = true) → 0 ≤ limit →
  wp (download_with env url previous limit)
    (λ o w', ∃ new out, contained previous 5 limit w w' new out ∧ delivered previous o new out)
    (λ _ w', ∃ new out, contained previous 5 limit w w' new out) w.
Proof.
  intros Hp Hl. unfold download_with. apply wp_bind, wp_ok_or; [|intros _; exists [], []; by apply contained_start].
  intros current Hc. apply (wp_download_loop env previous limit Hp Hl 5 current 0 false w); [by eapply admissible_canonical|lia|done].
Qed.

(** ** The hypotheses can hold *)
Module DownloadWitness.
Definition digits (b : list Z) : Str := replicate 63 48 ++ [48 + foldr Z.add 0 b mod 10].
(** The decoder copies a chunk, which ends the stream. *)
#[local] Instance web : WebLib := {|
  url_parse s := Some (mkUrl (lit "https") [] None None (Some (Domain s)) None s);
  url_join _ v := Some (mkUrl (lit "https") [] None None (Some (Domain v)) None v);
  uri_parse s := Some (mkUri (Some (lit "https")) (Some s) (Some s) None s);
  header_value _ := true;
  to_str := Some;
  http_date _ := None;
  sha256_hex := digits;
  Decoder := unit;
  new_gzip := tt;
  decompress _ b := Some (tt, length (take BUFFER b), take BUFFER b, negb (bool_decide (b = [])));
|}.
#[local] Opaque BUFFER.
#[local] Instance web_spec : WebSpec.
Proof.
  split.
  - intros s u [= <-]. done.
  - intros d b d' n out e [= <- <- <- <-]. rewrite length_take. lia.
  - intros b. split; [done|]. apply Forall_app. split; [apply Forall_replicate; lia|]. constructor; [|constructor].
    pose proof (Z.mod_pos_bound (foldr Z.add 0 b) 10). lia.
  - intros b d' n out [= <- <- <- Hb]. apply negb_true_iff, bool_decide_eq_false in Hb. destruct b; [done|].
    rewrite length_take. pose proof buffer_pos. cbn [length]. lia.
Qed.
Definition url_a : Str := lit "https://a.example/list".
Definition url_b : Str := lit "https://b.example/list".
Definition peer : SocketAddr := mkSocketAddr (V4 134744072) 443.
Definition saved : Validators := mkValidators url_b REPRESENTATION (replicate 64 48) (Some [quote; 120; quote]) None.
(** The first server redirects to the second, which sends a gzip body. *)
Definition answer (rq : Request) : WireResponse :=
  if bool_decide (uri_path (rq_uri rq) = url_a) then mkResponse 302 [(LOCATION, url_b)] []
  else mkResponse 200 [(CONTENT_ENCODING, lit "gzip"); (ETAG, [quote; 121; quote])] [Some [97; 98]; Some [10]].
Definition net : Env := mkEnv (λ _, false) (λ _, false) (λ _ _ _, Some [peer]) (λ _ a, Some (Some a)) (λ _ _, None) (λ _ rq, inr (answer rq)) (λ _, false) (λ _, 0).
Definition start : World := mkWorld [] [] 0.
Definition result : outcome ReaderError DownloadOutcome * World := download_with net url_a (Some saved) 100 start.
Lemma downloaded_ok : result.1 = Ok (Downloaded (digits [97; 98; 10]) 3 (mkValidators url_b REPRESENTATION (digits [97; 98; 10]) (Some [quote; 121; quote]) None)).
Proof. vm_compute. reflexivity. Qed.
Lemma saved_valid : validators_valid saved = true.
Proof. vm_compute. reflexivity. Qed.
Lemma download_contained_witness :
  ∃ o new out, result.1 = Ok o ∧ contained (Some saved) 5 100 start result.2 new out ∧ delivered (Some saved) o new out.
Proof.
  pose proof (download_contained net url_a (Some saved) 100 start) as Hw. unfold wp in Hw. pose proof downloaded_ok as Hok. unfold result in *.
  assert (∀ v, Some saved = Some v → validators_valid v = true) as Hv by (intros v Hs; injection Hs as <-; exact saved_valid).
  specialize (Hw Hv ltac:(lia)). destruct (download_with _ _ _ _ _) as [[o| | |] w']; [|discriminate Hok..].
  destruct Hw as (new & out & Hct & Hd). exists o, new, out. split; [reflexivity|split; assumption].
Defined.
Lemma global_address_reference_witness : global_address (V4 134744072) = true ↔ publicly_routed (V4 134744072).
Proof. apply global_address_reference. split; vm_compute; [discriminate|reflexivity]. Defined.
End DownloadWitness.
