(* ===== verification/Transport.v ===== *)
(** * Upstream transports

    One exchange with one endpoint: [src/upstream.rs] (UDP and TCP),
    [Upstream] of [src/tls.rs] (DoT), [src/upstreams/transport.rs] (bootstrap
    addresses, DoH over HTTP/2, DoQ, and the order in which they are tried) and
    [src/upstreams/h3.rs] (DoH over HTTP/3). The code is translated with its
    awaits; what the network, the clock, the random numbers and the other
    requests do is the environment, and every message handed to a transport is
    recorded. An elapsed deadline drops the exchange at an await: it leaves a
    prefix of the record of some run. *)
From S2P Require Import Prelude Std Net Names Canonical Prepare Radix ParseSource Dns Ecs Wire Protocol CacheData BlockAnswer Policy Text Upstreams.
Set Default Goal Selector "!".
Set Warnings "-rewrite-rw".
Local Open Scope Z_scope.
Local Open Scope rust_scope.

(** ** Errors *)
(** What the code asks of an error: the kind of an [io::Error] that means a
    closed connection, an [h2::Error] that ends the connection, an
    [h3::StreamError] that names the connection; and the [NotSent] marker. *)
Inductive Kind : Type := IoError (closed : bool) | H2Error (ends_connection : bool) | H3Error (of_connection : bool) | Elapsed | Invalid.
Record Error : Type := mkError { not_sent_ : bool; kind : Kind }.
Definition other : Error := mkError false Invalid.
Definition not_sent (e : Error) : Error := mkError true (kind e).
Definition closed_connection (e : Error) : bool := match kind e with IoError closed => closed | _ => false end.
Definition INVALID_DATA : Kind := IoError false.
Definition UNEXPECTED_EOF : Kind := IoError true.

(** ** HTTP *)
Inductive Method : Type := GET | POST.
Record HttpRequest : Type := mkRequest { http_method : Method; http_uri : Str; http_body : list Z }.
Record HttpHead : Type := mkHead { http_status : Z; content_type : option Str; age_header : option Str }.
(** [http::Uri] parses, and the URL-safe base64 of the [base64] crate. *)
Class HttpLib := { uri_parses : Str → bool; base64url : list Z → Str }.
Definition u32_digit (age digit : Z) : Z := Z.min u32_max (Z.min u32_max (age * 10) + (digit - 48)).
Fixpoint drop_blanks (l : Str) : Str :=
  match l with c :: t => if bool_decide (c = 32 ∨ c = 9) then drop_blanks t else l | [] => [] end.
Definition trim_blanks (l : Str) : Str := reverse (drop_blanks (reverse (drop_blanks l))).
Definition first_part (sep : Z) (l : Str) : Str := default [] (head (split_on sep l)).
Definition http_age (h : HttpHead) : Z :=
  match age_header h with
  | None => 0
  | Some value =>
      let value := trim_blanks (first_part 44 value) in
      if bool_decide (value = []) || negb (forallb is_digit value) then 0
      else foldl u32_digit 0 value
  end.
Definition definite_refusal (status : Z) : bool :=
  bool_decide (400 ≤ status ≤ 499) && negb (bool_decide (status ∈ [408; 414; 421; 425; 429; 431])).

(** ** HTTP/3 cooldown *)
Definition SECOND : Z := 1000000000.
Definition COOLDOWN_FIRST : Z := 2 * SECOND.
Definition COOLDOWN_MAX : Z := 30 * SECOND.
Record Conn : Type := mkConn { c_id : nat; c_addr : SocketAddr }.
Record H3State : Type := mkH3State {
  h3_connection : option Conn;
  retry_after : option Z;
  failures : Z;
  refused : option Z;
}.
Definition h3_default : H3State := mkH3State None None 0 None.
(** Instants are in nanoseconds. *)
Definition connection_failed (now : Z) (s : H3State) : H3State :=
  if match retry_after s with Some until => bool_decide (until > now) | None => false end then s else
  let cooldown := Z.min (COOLDOWN_FIRST * 2 ^ Z.min (failures s) 4) COOLDOWN_MAX in
  mkH3State (h3_connection s) (Some (now + cooldown)) (Z.min u32_max (failures s + 1)) (refused s).
Definition answered (s : H3State) : H3State := mkH3State (h3_connection s) None 0 (refused s).
Definition with_h3_connection (c : option Conn) (s : H3State) : H3State := mkH3State c (retry_after s) (failures s) (refused s).
Definition with_refused (r : option Z) (s : H3State) : H3State := mkH3State (h3_connection s) (retry_after s) (failures s) r.

(** ** State *)
Section transport.
Context `{MessageLib} `{!DnsNames} `{!NameParse} `{!DecoderLib} `{IpParse} `{HttpLib}.
Inductive Via : Type := ViaUdp | ViaTcp | ViaDot | ViaH2 | ViaH3 | ViaDoq.
#[export] Instance Via_eq_dec : EqDecision Via.
Proof. solve_decision. Defined.
(** A message handed to a transport; [s_reused] on a connection that served
    before. *)
Record Sent : Type := mkSent { s_via : Via; s_addr : SocketAddr; s_message : Message; s_wire : list Z; s_reused : bool }.
(** What the requests of one endpoint share. *)
Record Shared : Type := mkShared {
  sh_addresses : option (Z * list SocketAddr);
  sh_h2 : option Conn;
  sh_quic : option Conn;
  sh_h3 : H3State;
  sh_answered_by : option SocketAddr;
}.
(** [sent] are the messages that carry the query, [lookups] those that ask for
    the endpoint's address. [lease], [h3_used] and [h3_sent] are locals of the
    exchange passed by reference. *)
Record World : Type := mkWorld {
  sent : list Sent;
  lookups : list Sent;
  turn : nat;
  shared : Shared;
  lease : option SocketAddr;
  h3_used : option Conn;
  h3_sent : bool;
}.
(** Numbered by the awaits. [io] is the outcome of a step that carries no data;
    [stream] the octets a stream reader gets, [datagrams] what a socket
    receives until the deadline; [leased] the idle stream of the pool's slot with the time since
    its return; [dead] whether a connection's driver has ended or its
    close reason is set; [agreed] the outcome of a check of what a handshake
    agreed on. *)
Record Env : Type := mkEnv {
  meanwhile : nat → Shared → Shared;
  now : nat → Z;
  remaining : nat → bool;
  agreed : nat → bool;
  random : nat → Z;
  io : nat → option Kind;
  datagrams : nat → list (list Z + Kind);
  stream : nat → list Z + Kind;
  http : nat → HttpHead + Kind;
  chunks : nat → list (list Z + Kind);
  leased : nat → option (SocketAddr * Z);
  dead : nat → Conn → bool;
}.
Definition W (A : Type) : Type := M World Error A.
Definition modify (f : World → World) : W unit := let* w := get in put (f w).
Definition with_shared (s : Shared) (w : World) : World := mkWorld (sent w) (lookups w) (turn w) s (lease w) (h3_used w) (h3_sent w).
Definition with_lease (l : option SocketAddr) (w : World) : World := mkWorld (sent w) (lookups w) (turn w) (shared w) l (h3_used w) (h3_sent w).
Definition with_used (c : option Conn) (w : World) : World := mkWorld (sent w) (lookups w) (turn w) (shared w) (lease w) c (h3_sent w).
Definition with_sent_flag (b : bool) (w : World) : World := mkWorld (sent w) (lookups w) (turn w) (shared w) (lease w) (h3_used w) b.
Definition set_h2 (c : option Conn) (s : Shared) : Shared := mkShared (sh_addresses s) c (sh_quic s) (sh_h3 s) (sh_answered_by s).
Definition set_quic (c : option Conn) (s : Shared) : Shared := mkShared (sh_addresses s) (sh_h2 s) c (sh_h3 s) (sh_answered_by s).
Definition set_h3 (h : H3State) (s : Shared) : Shared := mkShared (sh_addresses s) (sh_h2 s) (sh_quic s) h (sh_answered_by s).
Definition set_addresses (a : option (Z * list SocketAddr)) (s : Shared) : Shared := mkShared a (sh_h2 s) (sh_quic s) (sh_h3 s) (sh_answered_by s).
Definition set_answered_by (a : option SocketAddr) (s : Shared) : Shared := mkShared (sh_addresses s) (sh_h2 s) (sh_quic s) (sh_h3 s) a.
Definition update (f : Shared → Shared) : W unit := modify (λ w, with_shared (f (shared w)) w).
(** [Result] handling: [catch] runs [m] and hands out its error, [map_err]
    changes it. *)
Definition catch {A} (m : W A) : W (A + Error) := λ w,
  match m w with
  | (Ok a, w) => (Ok (inl a), w)
  | (Err e, w) => (Ok (inr e), w)
  | (Panic, w) => (Panic, w)
  | (Diverge, w) => (Diverge, w)
  end.
Definition map_err {A} (f : Error → Error) (m : W A) : W A := λ w,
  match m w with (Err e, w) => (Err (f e), w) | r => r end.
Definition demand (b : bool) : W unit := if b then ret tt else fail other.
(** A computation of [src/protocol.rs], with its error converted. *)
Definition pure {A} (m : M unit unit A) : W A :=
  match (m tt).1 with Ok a => ret a | Err _ => fail other | Panic => panic | Diverge => diverge end.
Definition record (x : Sent) (w : World) : World := mkWorld (sent w ++ [x]) (lookups w) (turn w) (shared w) (lease w) (h3_used w) (h3_sent w).

Section env.
Context (env : Env).
(** One await: the others run, then the step numbered by the turn. *)
Definition await : W nat := λ w,
  (Ok (turn w), mkWorld (sent w) (lookups w) (S (turn w)) (meanwhile env (turn w) (shared w)) (lease w) (h3_used w) (h3_sent w)).
Definition step : W unit := let* t := await in match io env t with Some k => fail (mkError false k) | None => ret tt end.
Definition clock : W Z := let* t := await in ret (now env t).
Definition check_agreed : W unit := let* t := await in demand (agreed env t).
Definition time_left : W unit := let* t := await in demand (remaining env t).

(** ** Framing *)
(** [write_frame]: once the length fits, octets may have left whatever the
    outcome. *)
Definition write_frame (v : Via) (a : SocketAddr) (m : Message) (reused : bool) (wire : list Z) : W unit :=
  if bool_decide (65535 < length wire)%nat then fail (mkError false INVALID_DATA) else
  modify (record (mkSent v a m wire reused));;;
  step.
Definition frame_of (l : list Z) : list Z + Kind :=
  match l with
  | hi :: lo :: rest =>
      let n := Z.to_nat (hi * 256 + lo) in
      if bool_decide (n < 12)%nat then inr INVALID_DATA
      else if bool_decide (length rest < n)%nat then inr UNEXPECTED_EOF else inl (take n rest)
  | _ => inr UNEXPECTED_EOF
  end.
Definition read_frame : W (list Z) :=
  let* t := await in
  match stream env t with
  | inr k => fail (mkError false k)
  | inl l => match frame_of l with inl b => ret b | inr k => fail (mkError false k) end
  end.

(** ** UDP and TCP *)
Definition exchange_tcp_inner (query : Message) (a : SocketAddr) (first : bool) : W Message :=
  (if first then map_err not_sent step else step);;;
  let* t := await in
  let outbound := if first then with_id (random env t) query else query in
  let* wire := pure (encode_hop outbound false false 128 MAX_MESSAGE) in
  write_frame ViaTcp a outbound false wire;;;
  let* wire := read_frame in
  let* response := pure (decode wire) in
  demand (matches_response outbound response && negb (truncation response));;;
  ret (with_id (id query) response).
Definition exchange_tcp (query : Message) (a : SocketAddr) : W Message := exchange_tcp_inner query a true.
(** The loop over the datagrams; after the last one the deadline elapses. *)
Fixpoint receive_udp (query outbound : Message) (a : SocketAddr) (l : list (list Z + Kind)) : W Message :=
  match l with
  | [] => fail (mkError false Elapsed)
  | inr k :: _ => fail (mkError false k)
  | inl b :: l =>
      match (decode (take MAX_MESSAGE b) tt).1 with
      | Panic => panic
      | Diverge => diverge
      | Err _ => receive_udp query outbound a l
      | Ok response =>
          if negb (matches_response outbound response) then receive_udp query outbound a l else
          let* response := (if truncation response then time_left;;; exchange_tcp_inner outbound a false else ret response) in
          ret (with_id (id query) response)
      end
  end.
Definition exchange_udp (query : Message) (a : SocketAddr) : W Message :=
  map_err not_sent step;;;
  map_err not_sent step;;;
  let* t := await in
  let outbound := with_id (random env t) query in
  let* wire := pure (encode_hop outbound false false 128 MAX_MESSAGE) in
  map_err not_sent step;;;
  modify (record (mkSent ViaUdp a outbound wire false));;;
  let* t := await in
  receive_udp query outbound a (datagrams env t).

(** ** DoT *)
Definition connect_tls : W unit := step;;; step;;; check_agreed.
Definition transaction (query : Message) (a : SocketAddr) (reused : bool) : W Message :=
  let* t := await in
  let outbound := with_id (random env t) query in
  let* wire := pure (encode_upstream outbound true) in
  write_frame ViaDot a outbound reused wire;;;
  step;;;
  let* wire := read_frame in
  let* response := pure (decode wire) in
  demand (matches_response outbound response);;;
  demand (negb (truncation response));;;
  ret (with_id (id query) response).
(** [pool] is the idle timeout of the pool, if there is one. *)
Definition exchange_dot (pool : option Z) (query : Message) (a : SocketAddr) : W Message :=
  match pool with
  | None => map_err not_sent connect_tls;;; transaction query a false
  | Some idle_timeout =>
      let* t := await in
      let idle := leased env t in
      modify (with_lease None);;;
      let reused := match idle with
                    | Some (address, elapsed) => bool_decide (address = a) && bool_decide (elapsed < idle_timeout)
                    | None => false
                    end in
      (if reused then ret tt else map_err not_sent connect_tls);;;
      let* first := catch (transaction query a reused) in
      let* response := (match first with
                        | inl response => ret response
                        | inr e =>
                            if reused && closed_connection e then
                              time_left;;; connect_tls;;; transaction query a false
                            else fail e
                        end) in
      modify (with_lease (Some a));;;
      ret response
  end.

(** ** DoH *)
Definition apply_http_age (age : Z) (m : Message) : Message := map_records (λ rr, with_ttl (saturating_sub (rr_ttl rr) age) rr) m.
Definition MIME : Str := lit "application/dns-message".
Definition doh_head (h : HttpHead) : W Z :=
  demand (bool_decide (http_status h = 200));;;
  demand (match content_type h with
          | Some v => bool_decide ((to_ascii_lowercase <$> trim_text (first_part 59 v)) = MIME)
          | None => false
          end);;;
  ret (http_age h).
Definition doh_chunk (bytes chunk : list Z) : W (list Z) :=
  demand (bool_decide (length bytes + length chunk ≤ MAX_MESSAGE)%nat);;;
  ret (bytes ++ chunk).
Fixpoint doh_body (bytes : list Z) (l : list (list Z + Kind)) : W (list Z) :=
  match l with
  | [] => ret bytes
  | inr k :: _ => fail (mkError false k)
  | inl chunk :: l => let* bytes := doh_chunk bytes chunk in doh_body bytes l
  end.
Definition doh_answer (bytes : list Z) (outbound query : Message) (age : Z) : W Message :=
  let* response := pure (decode bytes) in
  demand (matches_response outbound response && negb (truncation response));;;
  ret (with_id (id query) (apply_http_age age response)).
Definition doh_request (spec : Endpoint) (query : Message) : W (HttpRequest * Message * list Z) :=
  let outbound := with_id 0 query in
  let host_ := if bool_decide (58 ∈ host spec) then [91] ++ host spec ++ [93] else host spec in
  let endpoint := lit "https://" ++ host_ ++ [58] ++ decimal (port spec) ++ path spec in
  demand (uri_parses endpoint);;;
  let* wire := pure (encode_upstream outbound true) in
  let separator := if bool_decide (63 ∈ path spec) then [38] else [63] in
  let get_ := endpoint ++ separator ++ lit "dns=" ++ base64url wire in
  ret (if uri_parses get_ then mkRequest GET get_ [] else mkRequest POST endpoint wire, outbound, wire).

Definition h2_cached (a : SocketAddr) : W (option Conn) :=
  let* t := await in
  let* w := get in
  let current := match sh_h2 (shared w) with
                 | Some c => if dead env t c then None else Some c
                 | None => None
                 end in
  update (set_h2 current);;;
  ret (match current with Some c => if bool_decide (c_addr c = a) then Some c else None | None => None end).
Definition h2_retire (c : Conn) : W unit :=
  update (λ s, match sh_h2 s with
               | Some c' => if bool_decide (c_id c' = c_id c) then set_h2 None s else s
               | None => s
               end).
(** The flag is [ConnectionUse::Reused]. *)
Definition h2_connection (a : SocketAddr) : W (Conn * bool) :=
  let* c := h2_cached a in
  match c with
  | Some c => ret (c, true)
  | None =>
      let* _ := await in
      let* c := h2_cached a in
      match c with
      | Some c => ret (c, true)
      | None =>
          step;;; check_agreed;;; step;;; check_agreed;;; step;;;
          let* t := await in
          let c := mkConn t a in
          update (set_h2 (Some c));;;
          ret (c, false)
      end
  end.
Definition h2_request (spec : Endpoint) (query : Message) (c : Conn) (reused : bool) : W Message :=
  step;;;
  map_err not_sent step;;;
  let* (request, outbound, wire) := doh_request spec query in
  map_err not_sent step;;;
  modify (record (mkSent ViaH2 (c_addr c) outbound wire reused));;;
  (match http_body request with [] => ret tt | _ => step end);;;
  let* t := await in
  match http env t with
  | inr k => fail (mkError false k)
  | inl head =>
      let* age := doh_head head in
      let* t := await in
      let* bytes := doh_body [] (chunks env t) in
      doh_answer bytes outbound query age
  end.
Definition https (spec : Endpoint) (query : Message) (a : SocketAddr) : W Message :=
  let* (c, reused) := map_err not_sent (h2_connection a) in
  let* result := catch (h2_request spec query c reused) in
  match result with
  | inl response => ret response
  | inr e =>
      if reused && not_sent_ e then
        h2_retire c;;;
        let* (c, reused) := map_err not_sent (h2_connection a) in
        h2_request spec query c reused
      else
        (if not_sent_ e || match kind e with H2Error ends => ends | _ => false end then h2_retire c else ret tt);;;
        fail e
  end.

Definition cooling_down : W bool :=
  let* n := clock in
  let* w := get in
  ret (match retry_after (sh_h3 (shared w)) with Some until => bool_decide (until > n) | None => false end).
(** [cached] leaves the connection it saw in [h3_used]. *)
Definition h3_cached (a : SocketAddr) : W (option Conn) :=
  let* t := await in
  let* w := get in
  let st := sh_h3 (shared w) in
  let current := match h3_connection st with
                 | Some c => if dead env t c then None else Some c
                 | None => None
                 end in
  update (set_h3 (with_h3_connection current st));;;
  modify (with_used current);;;
  ret (match current with Some c => if bool_decide (c_addr c = a) then Some c else None | None => None end).
Definition h3_connect (a : SocketAddr) : W Conn :=
  let* c := h3_cached a in
  match c with
  | Some c => ret c
  | None =>
      step;;;
      let* cooling := cooling_down in
      (if cooling : bool then fail other else ret tt);;;
      let* c := h3_cached a in
      match c with
      | Some c => ret c
      | None =>
          step;;; step;;; step;;;
          let* t := await in
          let c := mkConn t a in
          modify (with_used (Some c));;;
          update (λ s, set_h3 (with_h3_connection (Some c) (sh_h3 s)) s);;;
          ret c
      end
  end.
Definition h3_send (spec : Endpoint) (query : Message) (a : SocketAddr) : W Message :=
  let* c := h3_connect a in
  let* (request, outbound, wire) := doh_request spec query in
  step;;;
  modify (with_sent_flag true);;;
  modify (record (mkSent ViaH3 (c_addr c) outbound wire false));;;
  (match http_body request with [] => ret tt | _ => step end);;;
  step;;;
  ret outbound.
Definition h3_receive (query outbound : Message) : W Message :=
  let* t := await in
  match http env t with
  | inr k => fail (mkError false k)
  | inl head =>
      (if definite_refusal (http_status head) then update (λ s, set_h3 (with_refused (Some (http_status head)) (sh_h3 s)) s) else ret tt);;;
      let* age := doh_head head in
      let* t := await in
      let* bytes := doh_body [] (chunks env t) in
      doh_answer bytes outbound query age
  end.
Definition same_connection (used current : option Conn) : bool :=
  match used, current with
  | Some u, Some c => bool_decide (c_id u = c_id c)
  | None, None => true
  | _, _ => false
  end.
(** What an attempt does to the cooldown. *)
Definition h3_outcome (result : Message + Error) : W unit :=
  let* t := await in
  let* w := get in
  let st := sh_h3 (shared w) in
  if negb (same_connection (h3_used w) (h3_connection st)) then ret tt else
  match result with
  | inl _ => update (set_h3 (answered st))
  | inr e =>
      if h3_sent w && negb (match kind e with H3Error of_connection => of_connection | _ => false end) &&
         match h3_used w with Some c => negb (dead env t c) | None => false end
      then ret tt
      else update (set_h3 (connection_failed (now env t) st))
  end.
Definition h3_exchange (spec : Endpoint) (query : Message) (a : SocketAddr) : W Message :=
  let* _ := await in
  let* w := get in
  (if bool_decide (is_Some (refused (sh_h3 (shared w)))) then fail (not_sent other) else ret tt);;;
  let* cooling := cooling_down in
  (if cooling : bool then fail (not_sent other) else ret tt);;;
  map_err not_sent time_left;;;
  modify (with_used None);;;
  modify (with_sent_flag false);;;
  let* request := catch (h3_send spec query a) in
  let* result := (match request with
                  | inl outbound => catch (h3_receive query outbound)
                  | inr e => ret (inr e)
                  end) in
  h3_outcome result;;;
  match result with
  | inl response => ret response
  | inr e => let* w := get in fail (if h3_sent w then e else not_sent e)
  end.

(** ** DoQ *)
Definition quic_connection (a : SocketAddr) : W (Conn * bool) :=
  let* t := await in
  let* w := get in
  let current := match sh_quic (shared w) with
                 | Some c => if bool_decide (c_addr c = a) && negb (dead env t c) then Some c else None
                 | None => None
                 end in
  match current with
  | Some c => ret (c, true)
  | None =>
      update (set_quic None);;;
      step;;; step;;; step;;;
      let* t := await in
      update (set_quic (Some (mkConn t a)));;;
      ret (mkConn t a, false)
  end.
Definition be_u16 (l : list Z) : Z := match l with hi :: lo :: _ => hi * 256 + lo | _ => 0 end.
Definition has_keepalive (m : Message) : bool :=
  match edns m with Some e => bool_decide (is_Some (opt_get KEEPALIVE (options e))) | None => false end.
Definition quic (query : Message) (a : SocketAddr) : W Message :=
  let* (c, reused) := map_err not_sent (quic_connection a) in
  map_err not_sent step;;;
  let outbound := with_id 0 query in
  let* wire := pure (encode_upstream outbound true) in
  write_frame ViaDoq (c_addr c) outbound reused wire;;;
  step;;;
  let* t := await in
  match stream env t with
  | inr k => fail (mkError false k)
  | inl frame =>
      demand (bool_decide (length frame ≤ MAX_MESSAGE + 2)%nat);;;
      demand (bool_decide (14 ≤ length frame)%nat && bool_decide (be_u16 frame = Z.of_nat (length frame - 2)));;;
      let* response := pure (decode (drop 2 frame)) in
      demand (matches_response outbound response && negb (truncation response));;;
      demand (negb (has_keepalive response));;;
      ret (with_id (id query) response)
  end.

(** ** Bootstrap *)
Record Client : Type := mkClient {
  c_spec : Endpoint;
  c_bootstrap : list SocketAddr;
  c_listeners : list SocketAddr;
  c_h3 : bool;
  c_dot_pool : option Z;
}.
Definition client_new (spec : Endpoint) (s : Settings) (bound : list SocketAddr) : Client :=
  mkClient spec (bootstrap s) bound (prefer_h3 s && bool_decide (protocol spec = Https))
    (if pool_enabled (dot_pool s) then Some (idle_timeout_ms (dot_pool s) * 1000000) else None).
(** The lookups of the endpoint's address keep their own record. *)
Definition aside {A} (m : W A) : W A := λ w,
  let (r, w') := m (mkWorld (lookups w) [] (turn w) (shared w) (lease w) (h3_used w) (h3_sent w)) in
  (r, mkWorld (sent w) (sent w') (turn w') (shared w') (lease w') (h3_used w') (h3_sent w')).
Definition lookup_query (name : Name) (qtype : Z) : Message :=
  mkMessage 0 false 0 false false true false false false NoError [mkQuery name qtype IN] [] [] [] None None.
Definition alias_of (owner : Name) (rr : Rr) : option (Name * Z) :=
  match rr_data rr with
  | RCname target => if name_eq (rr_name rr) owner then Some (target, rr_ttl rr) else None
  | _ => None
  end.
Fixpoint find_map {A B} (f : A → option B) (l : list A) : option B :=
  match l with [] => None | x :: l => match f x with Some y => Some y | None => find_map f l end end.
Fixpoint chase (n : nat) (l : list Rr) (owner : Name) (ttl : Z) : Name * Z :=
  match n with
  | O => (owner, ttl)
  | S n => match find_map (alias_of owner) l with
           | Some (target, record_ttl) => chase n l target (Z.min ttl record_ttl)
           | None => (owner, ttl)
           end
  end.
Definition MAX_ADDRESSES : nat := 16.
Definition ip_of (qtype : Z) (d : RData) : option IpAddr :=
  match d with
  | ROther k bytes =>
      if bool_decide (k = qtype) then
        if bool_decide (k = A_TYPE) then Some (V4 (foldl (λ n b, n * 256 + b) 0 bytes))
        else if bool_decide (k = AAAA_TYPE) then Some (V6 (foldl (λ n b, n * 256 + b) 0 bytes)) else None
      else None
  | _ => None
  end.
Fixpoint collect (c : Client) (qtype : Z) (owner : Name) (l : list Rr) (found : list SocketAddr) (ttl : Z) : W (list SocketAddr * Z) :=
  match l with
  | [] => ret (found, ttl)
  | rr :: l =>
      if bool_decide (MAX_ADDRESSES ≤ length found)%nat then ret (found, ttl) else
      if negb (name_eq (rr_name rr) owner) then collect c qtype owner l found ttl else
      match ip_of qtype (rr_data rr) with
      | None => collect c qtype owner l found ttl
      | Some ip =>
          let address := mkSocketAddr ip (port (c_spec c)) in
          demand (valid_address address);;;
          demand (not_self address (c_listeners c));;;
          let found := if bool_decide (address ∈ found) then found else found ++ [address] in
          let ttl := Z.min ttl (rr_ttl rr) in
          if bool_decide (MAX_ADDRESSES ≤ length found)%nat then ret (found, ttl)
          else collect c qtype owner l found ttl
      end
  end.
Definition lookup (c : Client) (name : Name) (server : SocketAddr) (qtype : Z) (found : list SocketAddr) (ttl : Z) : W (list SocketAddr * Z) :=
  time_left;;;
  let* r := catch (aside (exchange_udp (lookup_query name qtype) server)) in
  match r with
  | inr _ => ret (found, ttl)
  | inl response =>
      let (owner, ttl) := chase 8 (answers response) name ttl in
      collect c qtype owner (answers response) found ttl
  end.
Fixpoint lookup_servers (c : Client) (name : Name) (servers : list SocketAddr) (ttl : Z) : W (list SocketAddr * Z) :=
  match servers with
  | [] => ret ([], ttl)
  | server :: servers =>
      let* (found, ttl) := lookup c name server A_TYPE [] ttl in
      let* (found, ttl) := lookup c name server AAAA_TYPE found ttl in
      if bool_decide (found = []) then lookup_servers c name servers ttl else ret (found, ttl)
  end.
Definition resolve (c : Client) : W (list SocketAddr) :=
  let* name := (match from_ascii (host (c_spec c) ++ [46]) with Some n => ret n | None => fail other end) in
  let* (l, ttl) := lookup_servers c name (c_bootstrap c) 3600 in
  demand (negb (bool_decide (l = [])));;;
  let* n := clock in
  update (set_addresses (Some (n + ttl * SECOND, l)));;;
  ret l.
Definition addresses (c : Client) : W (list SocketAddr) :=
  let* n := clock in
  let* w := get in
  match sh_addresses (shared w) with
  | Some (expiry, l) => if bool_decide (expiry > n) then ret l else resolve c
  | None => resolve c
  end.

(** ** One endpoint *)
Definition exchange_https (c : Client) (query : Message) (a : SocketAddr) : W Message :=
  if c_h3 c then
    let* r := catch (h3_exchange (c_spec c) query a) in
    match r with
    | inl response => ret response
    | inr e => if negb (not_sent_ e) then fail e else time_left;;; https (c_spec c) query a
    end
  else time_left;;; https (c_spec c) query a.
Definition exchange_at (c : Client) (query : Message) (a : SocketAddr) : W Message :=
  match protocol (c_spec c) with
  | Udp => exchange_udp query a
  | Tcp => exchange_tcp query a
  | Tls => exchange_dot (c_dot_pool c) query a
  | Https => exchange_https c query a
  | Quic => quic query a
  end.
Fixpoint try_addresses (c : Client) (query : Message) (error : Error) (l : list SocketAddr) : W Message :=
  match l with
  | [] => fail error
  | a :: l =>
      time_left;;;
      let* response := catch (exchange_at c query a) in
      match response with
      | inl m =>
          (if bool_decide (protocol (c_spec c) = Https) then ret tt else update (set_answered_by (Some a)));;;
          ret (strip_tcp_keepalive m)
      | inr failure => if not_sent_ failure then try_addresses c query failure l else fail failure
      end
  end.
Definition client_exchange (c : Client) (query : Message) : W (Message * Str) :=
  let* l := (match parse_ip (utf8 (host (c_spec c))) with
             | Some ip => ret [mkSocketAddr ip (port (c_spec c))]
             | None => addresses c
             end) in
  let* m := try_addresses c query other l in
  ret (m, label (c_spec c)).
End env.
End transport.
