(* ===== verification/TransportSafe.v ===== *)
(** * A sent query is never resent

    What the definitions of [Transport] promise in every environment: how often
    a query can leave, in which form and for which address, what is accepted as
    its answer, what the [NotSent] marker means, and which addresses a host
    name endpoint is asked at. *)
From S2P Require Import Prelude Std Net Names Canonical Prepare Radix ParseSource Dns Ecs Wire Protocol CacheData BlockAnswer Policy Text Upstreams Transport.
Set Default Goal Selector "!".
Set Warnings "-rewrite-rw".
Local Open Scope Z_scope.
Local Open Scope rust_scope.

Section safe.
Context `{MessageLib} `{!MessageSpec} `{!EncodeSpec} `{!DnsNames} `{!NameParse} `{!DecoderLib} {DS : DecoderSpec} `{IpParse} `{HttpLib}.
Context (env : Env).
(** What the network hands over is octets. *)
Record env_octets : Prop := {
  eo_datagrams t b : inl b ∈ datagrams env t → octets b;
  eo_stream t b : stream env t = inl b → octets b;
  eo_chunks t b : inl b ∈ chunks env t → octets b;
}.
Hypothesis Henv : env_octets.

(** ** Records of transmissions *)
(** A run that adds [l] to the record. *)
Definition adds (l : list Sent) (w w' : World) : Prop := sent w' = sent w ++ l ∧ lookups w' = lookups w.
Definition tx {A} (m : W A) (Q : list Sent → A → Prop) (R : list Sent → Error → Prop) : Prop :=
  ∀ w, wp m (λ r w', ∃ l, adds l w w' ∧ Q l r) (λ e w', ∃ l, adds l w w' ∧ R l e) w.
(** A step that sends nothing and whose errors carry no marker. *)
Definition quiet {A} (m : W A) (P : A → Prop) : Prop :=
  ∀ w, wp m (λ r w', adds [] w w' ∧ h3_sent w' = h3_sent w ∧ P r) (λ e w', adds [] w w' ∧ h3_sent w' = h3_sent w ∧ not_sent_ e = false) w.
Lemma adds_refl w : adds [] w w.
Proof. split; [by rewrite app_nil_r|done]. Qed.
Lemma adds_trans l1 l2 w1 w2 w3 : adds l1 w1 w2 → adds l2 w2 w3 → adds (l1 ++ l2) w1 w3.
Proof. intros [H1s H1l] [H2s H2l]. split; [by rewrite H2s H1s app_assoc|congruence]. Qed.

Lemma tx_mono {A} (m : W A) Q (Q' : list Sent → A → Prop) R (R' : list Sent → Error → Prop) :
  tx m Q R → (∀ l r, Q l r → Q' l r) → (∀ l e, R l e → R' l e) → tx m Q' R'.
Proof. intros Hm HQ HR w. eapply wp_mono; [| |apply Hm]; intros ? ? (l & ? & ?); exists l; eauto. Qed.
Lemma tx_ret {A} (a : A) (Q : list Sent → A → Prop) R : Q [] a → tx (ret a) Q R.
Proof. intros HQ w. apply wp_ret. exists []. split; [apply adds_refl|done]. Qed.
Lemma tx_fail {A} e Q (R : list Sent → Error → Prop) : R [] e → tx (fail e : W A) Q R.
Proof. intros HR w. apply wp_fail. exists []. split; [apply adds_refl|done]. Qed.
Lemma tx_bind {A B} (m : W A) (k : A → W B) Q1 R1 Q R :
  tx m Q1 R1 → (∀ l r, Q1 l r → tx (k r) (λ l2, Q (l ++ l2)) (λ l2, R (l ++ l2))) → (∀ l e, R1 l e → R l e) → tx (bind m k) Q R.
Proof.
  intros Hm Hk HR w. apply wp_bind. eapply wp_mono; [| |apply Hm].
  - intros r w1 (l & Hl & Hq). eapply wp_mono; [| |apply (Hk l r Hq w1)]; intros x w2 (l2 & Hl2 & Hx);
      exists (l ++ l2); (split; [by eapply adds_trans|done]).
  - intros e w1 (l & Hl & He). exists l. eauto.
Qed.
Lemma tx_quiet {A B} (m : W A) (k : A → W B) P (Q : list Sent → B → Prop) (R : list Sent → Error → Prop) :
  quiet m P → (∀ r, P r → tx (k r) Q R) → (∀ e, not_sent_ e = false → R [] e) → tx (bind m k) Q R.
Proof.
  intros Hm Hk HR w. apply wp_bind. eapply wp_mono; [| |apply Hm].
  - intros r w1 (Hl & _ & Hr). eapply wp_mono; [| |apply (Hk r Hr w1)]; intros x w2 (l2 & Hl2 & Hx);
      exists l2; (split; [by apply (adds_trans [] l2 w w1 w2)|done]).
  - intros e w1 (Hl & _ & He). exists []. eauto.
Qed.
(** The same for a step whose errors are marked. *)
Lemma tx_marked {A B} (m : W A) (k : A → W B) P (Q : list Sent → B → Prop) (R : list Sent → Error → Prop) :
  quiet m P → (∀ r, P r → tx (k r) Q R) → (∀ e, not_sent_ e = true → R [] e) → tx (bind (map_err not_sent m) k) Q R.
Proof.
  intros Hm Hk HR w. apply wp_bind. specialize (Hm w). unfold wp, map_err in *.
  destruct (m w) as [[r|e| |] w1]; try done.
  - destruct Hm as (Hl & _ & Hr). eapply wp_mono; [| |apply (Hk r Hr w1)]; intros x w2 (l2 & Hl2 & Hx);
      exists l2; (split; [by apply (adds_trans [] l2 w w1 w2)|done]).
  - destruct Hm as (Hl & _ & _). exists []. split; [done|]. by apply HR.
Qed.
Lemma tx_record {B} x (k : unit → W B) (Q : list Sent → B → Prop) R :
  tx (k tt) (λ l, Q (x :: l)) (λ l, R (x :: l)) → tx (bind (modify (record x)) k) Q R.
Proof.
  intros Hk w. unfold modify. wp_pure. eapply wp_mono; [| |apply (Hk (record x w))].
  - intros r w' (l & [Hs Hl] & Hq). exists (x :: l). split; [|done]. split; [|done]. rewrite Hs /=. by rewrite -app_assoc.
  - intros r w' (l & [Hs Hl] & Hq). exists (x :: l). split; [|done]. split; [|done]. rewrite Hs /=. by rewrite -app_assoc.
Qed.
Lemma tx_catch {A B} (m : W A) (k : A + Error → W B) Q1 R1 Q R :
  tx m Q1 R1 → (∀ l r, Q1 l r → tx (k (inl r)) (λ l2, Q (l ++ l2)) (λ l2, R (l ++ l2))) →
  (∀ l e, R1 l e → tx (k (inr e)) (λ l2, Q (l ++ l2)) (λ l2, R (l ++ l2))) → tx (bind (catch m) k) Q R.
Proof.
  intros Hm Hk Hf w. apply wp_bind. specialize (Hm w). unfold wp, catch in *.
  destruct (m w) as [[r|e| |] w1]; try done; destruct Hm as (l & Hl & Hx).
  - specialize (Hk l r Hx w1). unfold wp in Hk. destruct (k (inl r) w1) as [[]]; try done;
      destruct Hk as (l2 & Hl2 & ?); exists (l ++ l2); (split; [by eapply adds_trans|done]).
  - specialize (Hf l e Hx w1). unfold wp in Hf. destruct (k (inr e) w1) as [[]]; try done;
      destruct Hf as (l2 & Hl2 & ?); exists (l ++ l2); (split; [by eapply adds_trans|done]).
Qed.

(** ** Quiet steps *)
Lemma quiet_mono {A} (m : W A) (P P' : A → Prop) : quiet m P → (∀ a, P a → P' a) → quiet m P'.
Proof. intros Hm HP w. eapply wp_mono; [| |apply Hm]; [naive_solver|done]. Qed.
Lemma quiet_return {A} (a : A) (P : A → Prop) : P a → quiet (ret a) P.
Proof. intros HP w. apply wp_ret. split; [apply adds_refl|done]. Qed.
Lemma quiet_fail {A} e (P : A → Prop) : not_sent_ e = false → quiet (fail e) P.
Proof. intros HP w. apply wp_fail. split; [apply adds_refl|done]. Qed.
Lemma quiet_bind {A B} (m : W A) (k : A → W B) P1 P : quiet m P1 → (∀ a, P1 a → quiet (k a) P) → quiet (bind m k) P.
Proof.
  intros Hm Hk w. apply wp_bind. eapply wp_mono; [| |apply Hm].
  - intros r w1 (Hl & Hh & Hr). eapply wp_mono; [| |apply (Hk r Hr w1)].
    + intros x w2 (Hl2 & Hh2 & Hx). split_and!; [by apply (adds_trans [] [] w w1 w2)|congruence|done].
    + intros x w2 (Hl2 & Hh2 & Hx). split_and!; [by apply (adds_trans [] [] w w1 w2)|congruence|done].
  - done.
Qed.
Lemma quiet_await : quiet (await env) (λ _, True).
Proof. intros w. unfold wp, await. split; [split; [by rewrite app_nil_r|done]|done]. Qed.
Lemma quiet_get : quiet (get : W World) (λ _, True).
Proof. intros w. apply wp_get. split; [apply adds_refl|done]. Qed.
Lemma quiet_modify f : (∀ w, sent (f w) = sent w ∧ lookups (f w) = lookups w ∧ h3_sent (f w) = h3_sent w) → quiet (modify f) (λ _, True).
Proof. intros Hf w. unfold modify. wp_pure. destruct (Hf w) as (Hs & Hl & Hh). split; [split; [by rewrite app_nil_r|done]|done]. Qed.
Lemma quiet_update f : quiet (update f) (λ _, True).
Proof. by apply quiet_modify. Qed.
Lemma quiet_demand b : quiet (demand b) (λ _, b = true).
Proof. destruct b; [by apply quiet_return|by apply quiet_fail]. Qed.
Lemma quiet_if (b : bool) (m1 m2 : W unit) : quiet m1 (λ _, True) → quiet m2 (λ _, True) → quiet (if b then m1 else m2) (λ _, True).
Proof. by destruct b. Qed.
Lemma quiet_step : quiet (step env) (λ _, True).
Proof. eapply quiet_bind; [apply quiet_await|]. intros t _. destruct (io env t); [by apply quiet_fail|by apply quiet_return]. Qed.
Lemma quiet_time_left : quiet (time_left env) (λ _, True).
Proof. eapply quiet_bind; [apply quiet_await|]. intros t _. eapply quiet_mono; [apply quiet_demand|done]. Qed.
Lemma quiet_agreed : quiet (check_agreed env) (λ _, True).
Proof. eapply quiet_bind; [apply quiet_await|]. intros t _. eapply quiet_mono; [apply quiet_demand|done]. Qed.
Lemma quiet_clock : quiet (clock env) (λ _, True).
Proof. eapply quiet_bind; [apply quiet_await|]. intros t _. by apply quiet_return. Qed.
Lemma quiet_pure {A} (m : M unit unit A) Q R : wp m Q R tt → quiet (pure m) (λ a, (m tt).1 = Ok a).
Proof.
  intros Hm. unfold pure, wp in *. destruct (m tt) as [[a|e| |] u]; try done; simpl; [by apply quiet_return|by apply quiet_fail].
Qed.
Lemma quiet_encode m b r block : (0 < block)%nat → quiet (pure (encode_hop m b r block MAX_MESSAGE)) (λ _, True).
Proof. intros Hb. eapply quiet_mono; [eapply quiet_pure, encode_hop_wp; [done|lia]|done]. Qed.
(** What a message was decoded from. *)
Definition decoded (m : Message) : Prop := ∃ b, (decode b tt).1 = Ok m.
Lemma quiet_decode b : octets b → quiet (pure (decode b)) decoded.
Proof. intros Hb. eapply quiet_mono; [by eapply quiet_pure, decode_total|]. intros m Hm. by exists b. Qed.
Lemma frame_octets l b : frame_of l = inl b → octets l → octets b.
Proof.
  intros Hf Hl. destruct l as [|hi [|lo rest]]; try done. simpl in Hf. repeat case_bool_decide; try done. injection Hf as <-.
  apply Forall_cons in Hl as [_ [_ Hl]%Forall_cons]. by apply Forall_take.
Qed.
Lemma quiet_read_frame : quiet (read_frame env) octets.
Proof.
  eapply quiet_bind; [apply quiet_await|]. intros t _. destruct (stream env t) as [l|k] eqn:E; [|by apply quiet_fail].
  destruct (frame_of l) as [b|k] eqn:Ef; [|by apply quiet_fail]. apply quiet_return. eapply frame_octets; [done|]. by eapply eo_stream.
Qed.

(** ** What one exchange may do *)
(** Everything sent goes to one address and is the query up to its ID. Two
    messages are sent in two cases: over TCP, with the ID already used, after a
    truncated UDP answer; and over a new DoT connection after a reused one. *)
Definition twice (x y : Sent) : Prop :=
  s_via x = ViaUdp ∧ s_via y = ViaTcp ∧ s_message y = s_message x ∨
  s_via x = ViaDot ∧ s_via y = ViaDot ∧ s_reused x = true ∧ s_reused y = false.
Definition once (l : list Sent) : Prop :=
  match l with [] | [_] => True | [x; y] => twice x y | _ => False end.
Definition copy (q : Message) (a : SocketAddr) (x : Sent) : Prop := s_addr x = a ∧ ∃ i, s_message x = with_id i q.
Definition carried (q : Message) (a : SocketAddr) (l : list Sent) : Prop := Forall (copy q a) l ∧ once l.
(** The answer was decoded from what came back, matches the message last sent
    and is whole; the caller gets it with its own ID, over HTTP with the TTLs
    aged. *)
Definition accepted (q : Message) (l : list Sent) (r : Message) : Prop :=
  ∃ x d, last l = Some x ∧ decoded d ∧ matches_response (s_message x) d = true ∧ truncation d = false ∧
    (r = with_id (id q) d ∨ s_via x ∈ [ViaH2; ViaH3] ∧ ∃ age, r = with_id (id q) (apply_http_age age d)).
Definition answers_ (q : Message) (a : SocketAddr) (l : list Sent) (r : Message) : Prop := carried q a l ∧ accepted q l r.
Definition fails_ (q : Message) (a : SocketAddr) (l : list Sent) (e : Error) : Prop := carried q a l ∧ (not_sent_ e = true → l = []).
Definition exchanges (q : Message) (a : SocketAddr) (m : W Message) : Prop := tx m (answers_ q a) (fails_ q a).
Lemma fails_nothing q a e : fails_ q a [] e.
Proof. split; [split; [constructor|done]|done]. Qed.
Lemma carried_one q a x : copy q a x → carried q a [x].
Proof. intros Hx. split; [by apply Forall_singleton|done]. Qed.
Lemma carried_two q a x y : copy q a x → copy q a y → twice x y → carried q a [x; y].
Proof. intros Hx Hy Ht. split; [|done]. constructor; [done|by apply Forall_singleton]. Qed.
Lemma fails_one q a x e : copy q a x → not_sent_ e = false → fails_ q a [x] e.
Proof. intros Hx He. split; [by apply carried_one|congruence]. Qed.
Lemma fails_two q a x y e : copy q a x → copy q a y → twice x y → not_sent_ e = false → fails_ q a [x; y] e.
Proof. intros Hx Hy Ht He. split; [by apply carried_two|congruence]. Qed.

(** Runs a step that sends nothing. *)
Ltac quietly lem := eapply tx_quiet; [apply lem|intros ?; cbv beta; intros ?|].
Ltac marked lem := eapply tx_marked; [apply lem|intros ?; cbv beta; intros ?|].

(** ** UDP and TCP *)
Lemma write_frame_tx {B} v a m reused wire (k : unit → W B) (Q : list Sent → B → Prop) (R : list Sent → Error → Prop) :
  let x := mkSent v a m wire reused in
  tx (k tt) (λ l, Q (x :: l)) (λ l, R (x :: l)) → (∀ e, not_sent_ e = false → R [] e) → (∀ e, not_sent_ e = false → R [x] e) →
  tx (bind (write_frame env v a m reused wire) k) Q R.
Proof.
  intros x Hk Hno Hyes. unfold write_frame. case_bool_decide.
  { intros w. apply wp_bind, wp_fail. exists []. split; [apply adds_refl|by apply Hno]. }
  eapply (tx_bind _ _ (λ l _, l = [x]) (λ l e, l = [x] ∧ not_sent_ e = false)).
  - apply tx_record. intros w. eapply wp_mono; [| |apply quiet_step].
    + intros [] w' (Ha & _). by exists [].
    + intros e w' (Ha & _ & He). by exists [].
  - intros l [] ->. done.
  - intros l e [-> He]. by apply Hyes.
Qed.
Definition tcp_copy (q : Message) (a : SocketAddr) (first : bool) (x : Sent) : Prop :=
  s_via x = ViaTcp ∧ copy q a x ∧ (first = false → s_message x = q).
Lemma exchange_tcp_tx q a first :
  tx (exchange_tcp_inner env q a first)
    (λ l r, ∃ x d, l = [x] ∧ tcp_copy q a first x ∧ decoded d ∧ matches_response (s_message x) d = true ∧ truncation d = false ∧ r = with_id (id q) d)
    (λ l e, l = [] ∧ (first = false → not_sent_ e = false) ∨ ∃ x, l = [x] ∧ tcp_copy q a first x ∧ not_sent_ e = false).
Proof.
  unfold exchange_tcp_inner.
  assert (∀ k, tx k (λ l r, ∃ x d, l = [x] ∧ tcp_copy q a first x ∧ decoded d ∧ matches_response (s_message x) d = true ∧ truncation d = false ∧ r = with_id (id q) d)
    (λ l e, l = [] ∧ (first = false → not_sent_ e = false) ∨ ∃ x, l = [x] ∧ tcp_copy q a first x ∧ not_sent_ e = false) →
    tx (bind (if first then map_err not_sent (step env) else step env) (λ _, k))
    (λ l r, ∃ x d, l = [x] ∧ tcp_copy q a first x ∧ decoded d ∧ matches_response (s_message x) d = true ∧ truncation d = false ∧ r = with_id (id q) d)
    (λ l e, l = [] ∧ (first = false → not_sent_ e = false) ∨ ∃ x, l = [x] ∧ tcp_copy q a first x ∧ not_sent_ e = false)) as Hconnect.
  { intros k Hk. destruct first; [eapply tx_marked|eapply tx_quiet]; try apply quiet_step; try done; intros e He; left; done. }
  apply Hconnect. quietly quiet_await; [|intros e He; by left].
  set (m := if first then _ else _). assert (∀ wire rd, tcp_copy q a first (mkSent ViaTcp a m wire rd)) as Hcopy.
  { intros wire rd. unfold m. split; [done|]. destruct first; simpl; split; try done.
    - split; [done|]. by eexists.
    - split; [done|]. exists (id q). by destruct q. }
  quietly quiet_encode; [lia| |intros e He; by left].
  apply write_frame_tx; [|intros e He; by left|intros e He; right; by eexists].
  quietly quiet_read_frame; [|intros e He; right; by eexists].
  quietly quiet_decode; [done| |intros e He; right; by eexists].
  quietly quiet_demand; [|intros e He; right; by eexists].
  apply tx_ret. match goal with H : _ && _ = true |- _ => apply andb_true_iff in H as [Hm Ht%negb_true_iff] end.
  eexists _, _. split_and!; [done|apply Hcopy|done|exact Hm|done|done].
Qed.
Lemma exchange_tcp_ok q a : exchanges q a (exchange_tcp env q a).
Proof.
  eapply tx_mono; [apply exchange_tcp_tx| |].
  - intros l r (x & d & -> & (Hv & Hc & _) & Hd & Hm & Ht & ->). split; [by apply carried_one|].
    exists x, d. split_and!; [done..|by left].
  - intros l e [[-> _]|(x & -> & (Hv & Hc & _) & He)]; [apply fails_nothing|by apply fails_one].
Qed.
Lemma receive_udp_tx q i a w l : Forall (λ r, ∀ b, r = inl b → octets b) l →
  let x := mkSent ViaUdp a (with_id i q) w false in
  tx (receive_udp env q (with_id i q) a l) (λ l, answers_ q a (x :: l)) (λ l, fails_ q a (x :: l)).
Proof.
  intros Hl x. assert (copy q a x) as Hx by (split; [done|by exists i]).
  induction Hl as [|[b|k] l Hb Hl IH]; simpl.
  - apply tx_fail. by apply fails_one.
  - pose proof (decode_total (take MAX_MESSAGE b) ltac:(by apply Forall_take, Hb)) as Hd. unfold wp in Hd.
    destruct (decode _ tt) as [[d| | |] u] eqn:Ed; try done; simpl. clear Hd.
    assert (decoded d) as Hd by (exists (take MAX_MESSAGE b); by rewrite Ed).
    destruct (matches_response (with_id i q) d) eqn:Em; simpl; [|done].
    destruct (truncation d) eqn:Et.
    + eapply (tx_bind _ _ (λ l r, ∃ y d, l = [y] ∧ tcp_copy (with_id i q) a false y ∧ decoded d ∧ matches_response (s_message y) d = true ∧ truncation d = false ∧ r = with_id (id (with_id i q)) d)
        (λ l e, l = [] ∧ not_sent_ e = false ∨ ∃ y, l = [y] ∧ tcp_copy (with_id i q) a false y ∧ not_sent_ e = false)).
      * quietly quiet_time_left; [|intros e He; by left].
        eapply tx_mono; [apply exchange_tcp_tx|done|]. intros l' e [[-> He]|(y & -> & Hy & He)]; [left; auto|right; by exists y].
      * intros l' r (y & d' & -> & (Hv & [Hya [j Hyj]] & Hsame) & Hd' & Hm' & Ht' & ->). apply tx_ret.
        assert (copy q a y) as Hcy by (split; [done|by exists j]). split.
        { apply carried_two; [done..|]. left. split_and!; [done..|by apply Hsame]. }
        exists y, d'. split_and!; [done..|]. by left.
      * intros l' e [[-> He]|(y & -> & (Hv & [Hya [j Hyj]] & Hsame) & He)]; [by apply fails_one|].
        apply fails_two; [done|split; [done|by exists j]| |done]. left. split_and!; [done..|by apply Hsame].
    + eapply tx_quiet; [by apply (quiet_return d (λ d', d' = d))| |by intros; apply fails_one]. intros ? ->. apply tx_ret.
      split; [by apply carried_one|]. exists x, d. split_and!; [done..|by left].
  - apply tx_fail. by apply fails_one.
Qed.
Lemma exchange_udp_ok q a : exchanges q a (exchange_udp env q a).
Proof.
  unfold exchange_udp, exchanges.
  marked quiet_step; [|intros; apply fails_nothing]. marked quiet_step; [|intros; apply fails_nothing].
  quietly quiet_await; [|intros; apply fails_nothing]. quietly quiet_encode; [lia| |intros; apply fails_nothing].
  marked quiet_step; [|intros; apply fails_nothing]. apply tx_record.
  quietly quiet_await; [|intros e He; apply fails_one; [|done]; split; [done|by eexists]].
  apply receive_udp_tx. apply Forall_forall. intros [b|k] Hin b'; [|done]. intros [= <-]. by eapply eo_datagrams.
Qed.

(** ** DoT *)
(** One message of a kind, and the answer to it or a failure after it. *)
Definition one (q : Message) (a : SocketAddr) (v : Via) (reused : bool) (l : list Sent) : Prop :=
  ∃ x, l = [x] ∧ s_via x = v ∧ s_reused x = reused ∧ copy q a x.
Definition one_fails (q : Message) (a : SocketAddr) (v : Via) (reused : bool) (l : list Sent) (e : Error) : Prop :=
  not_sent_ e = false ∧ (l = [] ∨ one q a v reused l).
Lemma one_carried q a v reused l : one q a v reused l → carried q a l.
Proof. intros (x & -> & _ & _ & Hx). by apply carried_one. Qed.
Lemma one_fails_ q a v reused l e : one_fails q a v reused l e → fails_ q a l e.
Proof. intros [He [->|Hl]]; [apply fails_nothing|]. split; [by eapply one_carried|congruence]. Qed.
Lemma one_fails_now q a v reused e : not_sent_ e = false → one_fails q a v reused [] e.
Proof. split; [done|by left]. Qed.
Lemma tx_of_quiet {A} (m : W A) P (Q : list Sent → A → Prop) (R : list Sent → Error → Prop) :
  quiet m P → (∀ r, P r → Q [] r) → (∀ e, not_sent_ e = false → R [] e) → tx m Q R.
Proof.
  intros Hm HQ HR w. eapply wp_mono; [| |apply Hm]; [intros r w' (Ha & _ & Hr)|intros e w' (Ha & _ & He)]; exists []; eauto.
Qed.
Lemma quiet_connect_tls : quiet (connect_tls env) (λ _, True).
Proof. eapply quiet_bind; [apply quiet_step|]. intros ? _. eapply quiet_bind; [apply quiet_step|]. intros ? _. apply quiet_agreed. Qed.
Lemma quiet_upstream m b : quiet (pure (encode_upstream m b)) (λ _, True).
Proof. apply quiet_encode. lia. Qed.
Lemma copy_id q a v i wire reused : copy q a (mkSent v a (with_id i q) wire reused).
Proof. split; [done|by exists i]. Qed.
Lemma one_of q a v i wire reused : one q a v reused [mkSent v a (with_id i q) wire reused].
Proof. eexists. split_and!; [done..|apply copy_id]. Qed.
Lemma one_fails_sent q a v i wire reused e : not_sent_ e = false → one_fails q a v reused [mkSent v a (with_id i q) wire reused] e.
Proof. split; [done|]. right. apply one_of. Qed.
Lemma transaction_tx q a reused :
  tx (transaction env q a reused) (λ l r, one q a ViaDot reused l ∧ accepted q l r) (one_fails q a ViaDot reused).
Proof.
  unfold transaction. quietly quiet_await; [|apply one_fails_now]. quietly quiet_upstream; [|apply one_fails_now].
  apply write_frame_tx; [|apply one_fails_now|intros; by apply one_fails_sent].
  quietly quiet_step; [|intros; by apply one_fails_sent].
  quietly quiet_read_frame; [|intros; by apply one_fails_sent].
  quietly quiet_decode; [done| |intros; by apply one_fails_sent].
  quietly quiet_demand; [|intros; by apply one_fails_sent].
  quietly quiet_demand; [|intros; by apply one_fails_sent].
  apply tx_ret. split; [apply one_of|]. eexists _, _. split_and!; [done|done|done|by apply negb_true_iff|by left].
Qed.
Lemma exchange_dot_ok q a pool : exchanges q a (exchange_dot env pool q a).
Proof.
  unfold exchange_dot, exchanges. destruct pool as [idle|].
  2: { marked quiet_connect_tls; [|intros; apply fails_nothing]. eapply tx_mono; [apply transaction_tx| |].
       - intros l rr [Ho Ha]. split; [by eapply one_carried|done].
       - intros l e Hf. by eapply one_fails_. }
  quietly quiet_await; [|intros; apply fails_nothing]. quietly quiet_modify; [done| |intros; apply fails_nothing].
  set (reused := match leased env r with Some _ => _ | None => _ end).
  eapply (tx_bind _ _ (λ l _, l = []) (λ l _, l = [])); [|intros l [] ->|intros l e ->; apply fails_nothing].
  { destruct reused; [by apply tx_ret|]. intros w. pose proof (quiet_connect_tls w) as Hc. unfold wp, map_err in *.
    destruct (connect_tls env w) as [[[]| | |] w']; try done; destruct Hc as (Hc & _); by exists []. }
  eapply tx_catch; [apply transaction_tx| |].
  - intros l r' [Ho Ha]. eapply tx_quiet; [by apply (quiet_return r' (λ x, x = r'))|intros ? ->|intros; split; [rewrite app_nil_r; by eapply one_carried|congruence]].
    quietly quiet_modify; [done| |intros; split; [rewrite app_nil_r; by eapply one_carried|congruence]].
    apply tx_ret. simpl. rewrite app_nil_r. split; [by eapply one_carried|done].
  - intros l e Hf. destruct (reused && closed_connection e) eqn:Er.
    2: { eapply (tx_bind _ _ (λ _ _, False) (λ l e', l = [] ∧ e' = e)); [by apply tx_fail|done|].
         intros l' e' [-> ->]. simpl. rewrite app_nil_r. by eapply one_fails_. }
    apply andb_true_iff in Er as [Er _]. rewrite Er in Hf.
    assert (∀ l', one q a ViaDot false l' → carried q a (l ++ l')) as Hboth.
    { intros l' (y & -> & Hv & Hr & Hy). destruct Hf as [_ [->|(x & -> & Hvx & Hrx & Hx)]]; [by apply carried_one|].
      apply carried_two; [done..|]. by right. }
    assert (∀ e', not_sent_ e' = false → fails_ q a (l ++ []) e') as Hstop.
    { intros e' He'. rewrite app_nil_r. destruct (one_fails_ _ _ _ _ _ _ Hf). split; [done|congruence]. }
    eapply (tx_bind _ _ (λ l' r, one q a ViaDot false l' ∧ accepted q l' r) (one_fails q a ViaDot false)).
    + quietly quiet_time_left; [|apply one_fails_now]. quietly quiet_connect_tls; [|apply one_fails_now]. apply transaction_tx.
    + intros l' r' [Ho Ha]. quietly quiet_modify; [done| |intros; simpl; rewrite app_nil_r; split; [by apply Hboth|congruence]].
      apply tx_ret. simpl. rewrite app_nil_r. split; [by apply Hboth|].
      destruct Ha as (x & d & Hl & Ha). exists x, d. split; [|done]. by rewrite last_app Hl.
    + intros l' e' [He' [->|Ho]]; [by apply Hstop|]. split; [by apply Hboth|congruence].
Qed.

(** ** DoH *)
Lemma quiet_doh_request spec q : quiet (doh_request spec q) (λ r, r.1.2 = with_id 0 q).
Proof.
  unfold doh_request. eapply quiet_bind; [apply quiet_demand|]. intros ? _.
  eapply quiet_bind; [apply quiet_upstream|]. intros ? _. by apply quiet_return.
Qed.
Lemma quiet_doh_head h : quiet (doh_head h) (λ _, True).
Proof.
  unfold doh_head. eapply quiet_bind; [apply quiet_demand|]. intros ? _.
  eapply quiet_bind; [apply quiet_demand|]. intros ? _. by apply quiet_return.
Qed.
Lemma quiet_doh_body l : Forall (λ r, ∀ b, r = inl b → octets b) l → ∀ bytes, octets bytes → quiet (doh_body bytes l) octets.
Proof.
  induction 1 as [|[c|k] l Hc Hl IH]; intros bytes Hb; simpl; [by apply quiet_return| |by apply quiet_fail].
  eapply (quiet_bind _ _ octets); [|apply IH]. unfold doh_chunk. eapply quiet_bind; [apply quiet_demand|]. intros ? _.
  apply quiet_return, Forall_app. split; [done|by apply Hc].
Qed.
(** The answer of an HTTP exchange with [m]. *)
Definition http_answer (q m r : Message) : Prop :=
  ∃ d age, decoded d ∧ matches_response m d = true ∧ truncation d = false ∧ r = with_id (id q) (apply_http_age age d).
Lemma quiet_doh_answer b q m age : octets b → quiet (doh_answer b m q age) (http_answer q m).
Proof.
  intros Hb. unfold doh_answer. eapply quiet_bind; [by apply quiet_decode|]. intros d Hd.
  eapply quiet_bind; [apply quiet_demand|]. intros ? [Hm Ht%negb_true_iff]%andb_true_iff. apply quiet_return. by exists d, age.
Qed.
Lemma quiet_http q m :
  quiet (let* t := await env in
         match http env t with
         | inr k => fail (mkError false k)
         | inl head => let* age := doh_head head in let* t := await env in let* bytes := doh_body [] (chunks env t) in doh_answer bytes m q age
         end) (http_answer q m).
Proof.
  eapply quiet_bind; [apply quiet_await|]. intros t _. destruct (http env t) as [head|k]; [|by apply quiet_fail].
  eapply quiet_bind; [apply quiet_doh_head|]. intros age _. eapply quiet_bind; [apply quiet_await|]. intros t' _.
  eapply quiet_bind; [apply quiet_doh_body; [|constructor]|intros b Hb; by apply quiet_doh_answer].
  apply Forall_forall. intros [b|k] Hin b'; [|done]. intros [= <-]. by eapply eo_chunks.
Qed.
Lemma http_accepted q x l r : last l = Some x → s_via x ∈ [ViaH2; ViaH3] → http_answer q (s_message x) r → accepted q l r.
Proof. intros Hl Hv (d & age & Hd & Hm & Ht & ->). exists x, d. split_and!; [done..|]. right. split; [done|by exists age]. Qed.

Lemma quiet_h2_cached a : quiet (h2_cached env a) (λ c, ∀ c', c = Some c' → c_addr c' = a).
Proof.
  unfold h2_cached. eapply quiet_bind; [apply quiet_await|]. intros t _. eapply quiet_bind; [apply quiet_get|]. intros w _.
  eapply quiet_bind; [apply quiet_update|]. intros ? _. apply quiet_return. intros c'.
  destruct (match sh_h2 (shared w) with Some _ => _ | None => _ end) as [c|]; [|done]. case_bool_decide; [|done]. by intros [= <-].
Qed.
Lemma quiet_h2_connection a : quiet (h2_connection env a) (λ r, c_addr r.1 = a).
Proof.
  unfold h2_connection. eapply quiet_bind; [apply quiet_h2_cached|]. intros [c|] Hc; [apply quiet_return; by apply Hc|].
  eapply quiet_bind; [apply quiet_await|]. intros ? _. eapply quiet_bind; [apply quiet_h2_cached|]. intros [c|] Hc'; [apply quiet_return; by apply Hc'|].
  do 5 (eapply quiet_bind; [apply quiet_step || apply quiet_agreed|]; intros ? _).
  eapply quiet_bind; [apply quiet_await|]. intros t _. eapply quiet_bind; [apply quiet_update|]. intros ? _. by apply quiet_return.
Qed.
Lemma h2_request_tx spec q c reused :
  tx (h2_request env spec q c reused) (λ l r, one q (c_addr c) ViaH2 reused l ∧ accepted q l r)
    (λ l e, l = [] ∨ one q (c_addr c) ViaH2 reused l ∧ not_sent_ e = false).
Proof.
  unfold h2_request. quietly quiet_step; [|intros; by left]. marked quiet_step; [|intros; by left].
  eapply tx_quiet; [apply quiet_doh_request| |intros; by left]. intros [[request m] wire] Hm. simpl in Hm. subst m.
  marked quiet_step; [|intros; by left]. apply tx_record.
  eapply tx_quiet.
  { instantiate (1 := λ _, True). destruct (http_body request); [by apply quiet_return|apply quiet_step]. }
  2: { intros e He. right. split; [apply one_of|done]. }
  intros ? _. eapply tx_of_quiet; [apply quiet_http| |intros e He; right; split; [apply one_of|done]].
  intros r' Hr. split; [apply one_of|]. eapply http_accepted; [done|by left|done].
Qed.
Lemma h2_ok q a c reused l : c_addr c = a → one q (c_addr c) ViaH2 reused l → carried q a l.
Proof. intros <-. apply one_carried. Qed.
Lemma https_ok spec q a : exchanges q a (https env spec q a).
Proof.
  unfold https, exchanges. eapply tx_marked; [apply quiet_h2_connection| |intros; apply fails_nothing].
  intros [c reused] Hc. simpl in Hc. eapply tx_catch; [apply h2_request_tx| |].
  - intros l r [Ho Ha]. apply tx_ret. rewrite app_nil_r. split; [by eapply h2_ok|done].
  - intros l e Hf. destruct (reused && not_sent_ e) eqn:Er.
    + apply andb_true_iff in Er as [_ Er]. destruct Hf as [->|[_ Hf]]; [|congruence]. simpl.
      eapply tx_quiet; [apply quiet_update|intros ? _|intros; apply fails_nothing].
      eapply tx_marked; [apply quiet_h2_connection| |intros; apply fails_nothing]. intros [c2 reused2] Hc2. simpl in Hc2.
      eapply tx_mono; [apply h2_request_tx| |].
      * intros l rr [Ho Ha]. split; [by eapply h2_ok|done].
      * intros l e' [->|[Ho He']]; [apply fails_nothing|]. split; [by eapply h2_ok|congruence].
    + assert (fails_ q a (l ++ []) e) as Hstop.
      { rewrite app_nil_r. destruct Hf as [->|[Ho He]]; [apply fails_nothing|]. split; [by eapply h2_ok|congruence]. }
      eapply tx_quiet.
      { instantiate (1 := λ _, True). apply quiet_if; [apply quiet_update|by apply quiet_return]. }
      2: { intros e' He'. split; [apply Hstop|congruence]. }
      intros ? _. apply tx_fail. done.
Qed.

(** ** DoQ *)
Lemma quiet_quic_connection a : quiet (quic_connection env a) (λ r, c_addr r.1 = a).
Proof.
  unfold quic_connection. eapply quiet_bind; [apply quiet_await|]. intros t _. eapply quiet_bind; [apply quiet_get|]. intros w _.
  destruct (match sh_quic (shared w) with Some _ => _ | None => _ end) as [c|] eqn:E.
  - apply quiet_return. simpl. destruct (sh_quic (shared w)) as [c'|]; [|done]. case_bool_decide; [|done]. simpl in E.
    destruct (dead env t c'); [done|]. by injection E as <-.
  - eapply quiet_bind; [apply quiet_update|]. intros ? _. do 3 (eapply quiet_bind; [apply quiet_step|]; intros ? _).
    eapply quiet_bind; [apply quiet_await|]. intros t' _. eapply quiet_bind; [apply quiet_update|]. intros ? _. by apply quiet_return.
Qed.
Lemma quic_ok q a : exchanges q a (quic env q a).
Proof.
  unfold quic, exchanges. eapply tx_marked; [apply quiet_quic_connection| |intros; apply fails_nothing].
  intros [c reused] Hc. simpl in Hc. subst a. marked quiet_step; [|intros; apply fails_nothing].
  quietly quiet_upstream; [|intros; apply fails_nothing].
  assert (∀ i wire e, not_sent_ e = false → fails_ q (c_addr c) [mkSent ViaDoq (c_addr c) (with_id i q) wire reused] e) as Hf.
  { intros. apply fails_one; [apply copy_id|done]. }
  apply write_frame_tx; [|intros; apply fails_nothing|intros; by apply Hf].
  quietly quiet_step; [|intros; by apply Hf]. eapply tx_quiet; [apply quiet_await|intros t _|intros; by apply Hf].
  destruct (stream env t) as [frame|k] eqn:Ef; [|apply tx_fail; by apply Hf].
  quietly quiet_demand; [|intros; by apply Hf]. quietly quiet_demand; [|intros; by apply Hf].
  eapply tx_quiet; [apply quiet_decode; apply Forall_drop; by eapply eo_stream|intros d Hd|intros; by apply Hf].
  eapply tx_quiet; [apply quiet_demand|intros ? [Hm Ht%negb_true_iff]%andb_true_iff|intros; by apply Hf].
  quietly quiet_demand; [|intros; by apply Hf]. apply tx_ret.
  split; [apply carried_one, copy_id|]. eexists _, _. split_and!; [done..|by left].
Qed.

(** ** HTTP/3 *)
Lemma wp_quiet {A} (m : W A) P (Q : A → World → Prop) (R : Error → World → Prop) w :
  quiet m P → (∀ r w', adds [] w w' → h3_sent w' = h3_sent w → P r → Q r w') →
  (∀ e w', adds [] w w' → h3_sent w' = h3_sent w → not_sent_ e = false → R e w') → wp m Q R w.
Proof. intros Hm Hk HR. eapply wp_mono; [| |apply Hm]; naive_solver. Qed.
Lemma adds_nil_trans l w1 w2 w3 : adds [] w1 w2 → adds l w2 w3 → adds l w1 w3.
Proof. apply (adds_trans [] l). Qed.
Lemma adds_nil_snoc l w1 w2 w3 : adds l w1 w2 → adds [] w2 w3 → adds l w1 w3.
Proof. intros Ha Hb. rewrite -(app_nil_r l). by eapply adds_trans. Qed.
Lemma quiet_cooling_down : quiet (cooling_down env) (λ _, True).
Proof.
  unfold cooling_down. eapply quiet_bind; [apply quiet_clock|]. intros ? _. eapply quiet_bind; [apply quiet_get|]. intros ? _. by apply quiet_return.
Qed.
Lemma quiet_h3_cached a : quiet (h3_cached env a) (λ c, ∀ c', c = Some c' → c_addr c' = a).
Proof.
  unfold h3_cached. eapply quiet_bind; [apply quiet_await|]. intros t _. eapply quiet_bind; [apply quiet_get|]. intros w _.
  eapply quiet_bind; [apply quiet_update|]. intros ? _. eapply quiet_bind; [by apply quiet_modify|]. intros ? _. apply quiet_return. intros c'.
  destruct (match h3_connection _ with Some _ => _ | None => _ end) as [c|]; [|done]. case_bool_decide; [|done]. by intros [= <-].
Qed.
Lemma quiet_h3_connect a : quiet (h3_connect env a) (λ c, c_addr c = a).
Proof.
  unfold h3_connect. eapply quiet_bind; [apply quiet_h3_cached|]. intros [c|] Hc; [apply quiet_return; by apply Hc|].
  eapply quiet_bind; [apply quiet_step|]. intros ? _. eapply quiet_bind; [apply quiet_cooling_down|]. intros cooling _.
  eapply quiet_bind; [apply quiet_if; [by apply quiet_fail|by apply quiet_return]|]. intros ? _.
  eapply quiet_bind; [apply quiet_h3_cached|]. intros [c|] Hc'; [apply quiet_return; by apply Hc'|].
  do 3 (eapply quiet_bind; [apply quiet_step|]; intros ? _).
  eapply quiet_bind; [apply quiet_await|]. intros t _. eapply quiet_bind; [by apply quiet_modify|]. intros ? _.
  eapply quiet_bind; [apply quiet_update|]. intros ? _. by apply quiet_return.
Qed.
Definition h3_one (q : Message) (a : SocketAddr) (l : list Sent) : Prop := ∃ wire, l = [mkSent ViaH3 a (with_id 0 q) wire false].
Lemma h3_one_carried q a l : h3_one q a l → carried q a l.
Proof. intros [wire ->]. apply carried_one, copy_id. Qed.
(** [h3_sent] is set exactly when the request went out. *)
Lemma h3_send_wp spec q a w : h3_sent w = false →
  wp (h3_send env spec q a)
    (λ m w', m = with_id 0 q ∧ h3_sent w' = true ∧ ∃ l, adds l w w' ∧ h3_one q a l)
    (λ e w', not_sent_ e = false ∧ ∃ l, adds l w w' ∧ if h3_sent w' then h3_one q a l else l = []) w.
Proof.
  intros Hw. unfold h3_send.
  assert (∀ (e : Error) w', adds [] w w' → h3_sent w' = h3_sent w → not_sent_ e = false →
    not_sent_ e = false ∧ ∃ l, adds l w w' ∧ if h3_sent w' then h3_one q a l else l = []) as Hnone.
  { intros e w' Ha Hs He. split; [done|]. exists []. by rewrite Hs Hw. }
  wp_pure. eapply wp_quiet; [apply quiet_h3_connect|intros c w1 Ha1 Hs1 <-|done].
  wp_pure. eapply wp_quiet; [apply quiet_doh_request|intros [[request m] wire] w2 Ha2 Hs2 Hm|].
  2: { intros e w2 Ha2 Hs2 He. apply Hnone; [by eapply adds_nil_trans|congruence|done]. }
  simpl in Hm. subst m.
  wp_pure. eapply wp_quiet; [apply quiet_step|intros [] w3 Ha3 Hs3 _|].
  2: { intros e w3 Ha3 Hs3 He. apply Hnone; [do 2 (eapply adds_nil_trans; [done|]); done|congruence|done]. }
  unfold modify. wp_pure. set (x := mkSent ViaH3 (c_addr c) (with_id 0 q) wire false).
  set (w4 := record x (with_sent_flag true w3)).
  assert (adds [x] w w4) as Ha4.
  { do 3 (eapply adds_nil_trans; [done|]). by split. }
  assert (∀ (e : Error) w', adds [] w4 w' → h3_sent w' = h3_sent w4 → not_sent_ e = false →
    not_sent_ e = false ∧ ∃ l, adds l w w' ∧ if h3_sent w' then h3_one q (c_addr c) l else l = []) as Hyes.
  { intros e w' Ha Hs He. split; [done|]. exists [x]. rewrite Hs /=. split; [by eapply adds_nil_snoc|by exists wire]. }
  wp_pure. eapply wp_quiet; [|intros [] w5 Ha5 Hs5 _|exact Hyes].
  { instantiate (1 := λ _, True). destruct (http_body request); [by apply quiet_return|apply quiet_step]. }
  wp_pure. eapply wp_quiet; [apply quiet_step|intros [] w6 Ha6 Hs6 _|].
  2: { intros e w6 Ha6 Hs6 He. apply Hyes; [by eapply adds_nil_trans|congruence|done]. }
  wp_pure. split_and!; [done|by rewrite Hs6 Hs5|]. exists [x]. split; [do 2 (eapply adds_nil_snoc; [|done]); done|by exists wire].
Qed.
Lemma quiet_h3_receive q m : quiet (h3_receive env q m) (http_answer q m).
Proof.
  unfold h3_receive. eapply quiet_bind; [apply quiet_await|]. intros t _. destruct (http env t) as [head|k]; [|by apply quiet_fail].
  eapply quiet_bind; [apply quiet_if; [apply quiet_update|by apply quiet_return]|]. intros ? _.
  eapply quiet_bind; [apply quiet_doh_head|]. intros age _. eapply quiet_bind; [apply quiet_await|]. intros t' _.
  eapply quiet_bind; [apply quiet_doh_body; [|constructor]|intros b Hb; by apply quiet_doh_answer].
  apply Forall_forall. intros [b|k] Hin b'; [|done]. intros [= <-]. by eapply eo_chunks.
Qed.
Lemma quiet_h3_outcome r : quiet (h3_outcome env r) (λ _, True).
Proof.
  unfold h3_outcome. eapply quiet_bind; [apply quiet_await|]. intros t _. eapply quiet_bind; [apply quiet_get|]. intros w _.
  destruct (negb _); [by apply quiet_return|]. destruct r; [apply quiet_update|]. apply quiet_if; [by apply quiet_return|apply quiet_update].
Qed.
Lemma quiet_catch {A} (m : W A) P : quiet m P → quiet (catch m) (λ r, match r with inl a => P a | inr e => not_sent_ e = false end).
Proof.
  intros Hm w. specialize (Hm w). unfold wp, catch in *. destruct (m w) as [[a|e| |] w']; try done.
Qed.
(** The attempt after the checks: its error carries the marker exactly when
    nothing was sent. *)
Lemma h3_attempt spec q a w : h3_sent w = false →
  wp (let* request := catch (h3_send env spec q a) in
      let* result := (match request with inl outbound => catch (h3_receive env q outbound) | inr e => ret (inr e) end) in
      h3_outcome env result;;;
      match result with inl response => ret response | inr e => let* w := get in fail (if h3_sent w then e else not_sent e) end)
    (λ r w', ∃ l, adds l w w' ∧ answers_ q a l r) (λ e w', ∃ l, adds l w w' ∧ fails_ q a l e) w.
Proof.
  intros Hw. apply wp_bind. pose proof (h3_send_wp spec q a w Hw) as Hs. unfold wp at 1. unfold wp in Hs. unfold catch at 1.
  destruct (h3_send env spec q a w) as [[m|e| |] w1]; try done.
  - destruct Hs as (-> & Hf1 & l & Hl & Ho). pose proof (h3_one_carried _ _ _ Ho) as Hc.
    wp_pure. eapply wp_quiet; [apply quiet_catch, quiet_h3_receive|intros result w2 Ha2 Hs2 Hr|].
    2: { intros e w2 Ha2 _ He. exists l. split; [by eapply adds_nil_snoc|]. split; [done|congruence]. }
    wp_pure. eapply wp_quiet; [apply quiet_h3_outcome|intros [] w3 Ha3 Hs3 _|].
    2: { intros e w3 Ha3 _ He. exists l. split; [do 2 (eapply adds_nil_snoc; [|done]); done|]. split; [done|congruence]. }
    assert (adds l w w3) as Hl3 by (do 2 (eapply adds_nil_snoc; [|done]); done).
    destruct result as [r|e]; wp_pure; exists l; (split; [done|]); rewrite ?Hs3 ?Hs2 ?Hf1.
    + split; [done|]. destruct Ho as [wire ->]. eapply http_accepted; [done|right; by left|done].
    + split; [done|congruence].
  - destruct Hs as (He & l & Hl & Ho).
    assert (carried q a l) as Hc.
    { destruct (h3_sent w1); [by apply h3_one_carried|subst l; by split]. }
    wp_pure. eapply wp_quiet; [apply quiet_h3_outcome|intros [] w3 Ha3 Hs3 _|].
    2: { intros e' w3 Ha3 _ He'. exists l. split; [by eapply adds_nil_snoc|]. split; [done|congruence]. }
    wp_pure. exists l. split; [by eapply adds_nil_snoc|]. rewrite Hs3.
    destruct (h3_sent w1); [split; [done|congruence]|subst l; apply fails_nothing].
Qed.
Lemma h3_exchange_ok spec q a : exchanges q a (h3_exchange env spec q a).
Proof.
  unfold h3_exchange, exchanges. quietly quiet_await; [|intros; apply fails_nothing]. quietly quiet_get; [|intros; apply fails_nothing].
  eapply (tx_bind _ _ (λ l _, l = []) (λ l _, l = [])); [|intros l [] ->|intros l e ->; apply fails_nothing].
  { case_bool_decide; [by apply tx_fail|by apply tx_ret]. }
  quietly quiet_cooling_down; [|intros; apply fails_nothing].
  eapply (tx_bind _ _ (λ l _, l = []) (λ l _, l = [])); [|intros l [] ->|intros l e ->; apply fails_nothing].
  { match goal with |- tx (if ?b then _ else _) _ _ => destruct b end; [by apply tx_fail|by apply tx_ret]. }
  marked quiet_time_left; [|intros; apply fails_nothing].
  quietly quiet_modify; [done| |intros; apply fails_nothing].
  intros w. unfold modify. apply wp_bind, wp_bind, wp_get, wp_put.
  eapply wp_mono; [| |by apply (h3_attempt spec q a (with_sent_flag false w))]; intros x w' (l & Hl & Hx); by exists l.
Qed.
Lemma exchange_https_ok c q a : exchanges q a (exchange_https env c q a).
Proof.
  unfold exchange_https, exchanges. destruct (c_h3 c).
  2: { quietly quiet_time_left; [|intros; apply fails_nothing]. apply https_ok. }
  eapply tx_catch; [apply h3_exchange_ok| |].
  - intros l m Hm. apply tx_ret. by rewrite app_nil_r.
  - intros l e [Hc He]. destruct (not_sent_ e) eqn:Ee; simpl.
    + rewrite He //. quietly quiet_time_left; [|intros; apply fails_nothing]. apply https_ok.
    + apply tx_fail. rewrite app_nil_r. split; [done|congruence].
Qed.
Lemma exchange_at_ok c q a : exchanges q a (exchange_at env c q a).
Proof.
  unfold exchange_at. destruct (protocol (c_spec c));
    [apply exchange_udp_ok|apply exchange_tcp_ok|apply exchange_dot_ok|apply exchange_https_ok|apply quic_ok].
Qed.
(** The same for one of several addresses, and the answer as it leaves. *)
Definition answered_at (q : Message) (addrs : list SocketAddr) (l : list Sent) (r : Message) : Prop :=
  ∃ a m, a ∈ addrs ∧ carried q a l ∧ accepted q l m ∧ r = strip_tcp_keepalive m.
Definition failed_at (q : Message) (addrs : list SocketAddr) (l : list Sent) (e : Error) : Prop :=
  (l = [] ∨ ∃ a, a ∈ addrs ∧ carried q a l) ∧ (not_sent_ e = true → l = []).
Lemma try_addresses_ok c q addrs : ∀ error, tx (try_addresses env c q error addrs) (answered_at q addrs) (failed_at q addrs).
Proof.
  induction addrs as [|a addrs IH]; intros error; cbn [try_addresses]; [apply tx_fail; split; [by left|done]|].
  assert (∀ e, failed_at q (a :: addrs) [] e) as Hnone by (intros e; split; [by left|done]).
  quietly quiet_time_left; [|intros; apply Hnone]. eapply tx_catch; [apply exchange_at_ok| |].
  - intros l m [Hc Ha]. assert (∀ e, not_sent_ e = false → failed_at q (a :: addrs) (l ++ []) e) as Hstop.
    { intros e He. rewrite app_nil_r. split; [|congruence]. right. exists a. split; [by left|done]. }
    eapply tx_quiet; [apply quiet_if; [by apply quiet_return|apply quiet_update]| |exact Hstop]. intros ? _. apply tx_ret.
    rewrite app_nil_r. exists a, m. split_and!; [by left|done..].
  - intros l e [Hc He]. destruct (not_sent_ e) eqn:Ee.
    + rewrite He //. simpl. eapply tx_mono; [apply IH| |].
      * intros l' r' (a' & m & Ha' & ?). exists a', m. split; [by right|done].
      * intros l' e' [Hl He']. split; [|done]. destruct Hl as [|(a' & ? & ?)]; [by left|]. right. exists a'. split; [by right|done].
    + apply tx_fail. rewrite app_nil_r. split; [|congruence]. right. exists a. split; [by left|done].
Qed.

(** ** Bootstrap *)
Section client.
Context (c : Client).
Definition usable (a : SocketAddr) : Prop := valid_address a = true ∧ not_self a (c_listeners c) = true ∧ sa_port a = port (c_spec c).
Definition found_ok (l : list SocketAddr) : Prop := Forall usable l ∧ NoDup l ∧ (length l ≤ 16)%nat.
Definition cached_ok (s : Shared) : Prop := ∀ e l, sh_addresses s = Some (e, l) → found_ok l.
(** A lookup goes to a bootstrap server and asks for an address. *)
Definition lookup_ok (x : Sent) : Prop :=
  s_addr x ∈ c_bootstrap c ∧ ∃ i name qtype, qtype ∈ [A_TYPE; AAAA_TYPE] ∧ s_message x = with_id i (lookup_query name qtype).
Definition asked (w w' : World) : Prop := sent w' = sent w ∧ ∃ l, lookups w' = lookups w ++ l ∧ Forall lookup_ok l.
Definition asks {A} (m : W A) (P : A → Prop) : Prop :=
  ∀ w, wp m (λ r w', asked w w' ∧ P r) (λ e w', asked w w' ∧ not_sent_ e = false) w.
Lemma asked_nil w w' : adds [] w w' → asked w w'.
Proof. intros [Hs Hl]. split; [by rewrite Hs app_nil_r|]. exists []. by rewrite app_nil_r. Qed.
Lemma asked_trans w1 w2 w3 : asked w1 w2 → asked w2 w3 → asked w1 w3.
Proof.
  intros [Hs (l & Hl & Hf)] [Hs' (l' & Hl' & Hf')]. split; [congruence|]. exists (l ++ l').
  rewrite Hl' Hl app_assoc. split; [done|]. by apply Forall_app.
Qed.
Lemma asks_bind {A B} (m : W A) (k : A → W B) P1 P : asks m P1 → (∀ a, P1 a → asks (k a) P) → asks (bind m k) P.
Proof.
  intros Hm Hk w. apply wp_bind. eapply wp_mono; [| |apply Hm]; [|done]. intros a w1 [Ha HP].
  eapply wp_mono; [| |apply (Hk a HP w1)]; intros x w2 [Hx ?]; (split; [by eapply asked_trans|done]).
Qed.
Lemma asks_quiet {A} (m : W A) P : quiet m P → asks m P.
Proof. intros Hm w. eapply wp_mono; [| |apply Hm]; intros x w' (Ha & _ & ?); (split; [by apply asked_nil|done]). Qed.
Lemma quiet_collect qtype owner l : ∀ found ttl, found_ok found → quiet (collect c qtype owner l found ttl) (λ r, found_ok r.1).
Proof.
  induction l as [|rr l IH]; intros found ttl Hok; cbn [collect]; [by apply quiet_return|].
  case_bool_decide as Hfull; [by apply quiet_return|]. unfold MAX_ADDRESSES in *.
  destruct (negb _); [by apply IH|]. destruct (ip_of qtype (rr_data rr)) as [ip|]; [|by apply IH].
  eapply quiet_bind; [apply quiet_demand|intros ? Hv]. eapply quiet_bind; [apply quiet_demand|intros ? Hs]. cbv beta in *.
  set (f := if bool_decide (_ ∈ found) then _ else _). assert (found_ok f) as Hnew.
  { destruct Hok as (Hf & Hn & Hl). unfold f. case_bool_decide; [done|]. split_and!.
    - apply Forall_app. split; [done|]. by apply Forall_singleton.
    - apply NoDup_app. split_and!; [done| |apply NoDup_singleton]. intros x Hx ->%list_elem_of_singleton. done.
    - rewrite length_app /=. lia. }
  cbv zeta. case_bool_decide; [by apply quiet_return|]. by apply IH.
Qed.
Lemma aside_asks {A} q server (m : W A) (k : A + Error → W (list SocketAddr * Z)) P Q R :
  server ∈ c_bootstrap c → (∃ name qtype, qtype ∈ [A_TYPE; AAAA_TYPE] ∧ q = lookup_query name qtype) →
  tx m Q R → (∀ l r, Q l r → Forall (copy q server) l) → (∀ l e, R l e → Forall (copy q server) l) →
  (∀ r, asks (k r) P) → asks (bind (catch (aside m)) k) P.
Proof.
  intros Hserver (name & qtype & Hq & ->) Hm HQ HR Hk.
  assert (∀ l, Forall (copy (lookup_query name qtype) server) l → Forall lookup_ok l) as Hl.
  { intros l Hl. eapply Forall_impl; [exact Hl|]. intros x [<- [i Hi]]. split; [done|]. by exists i, name, qtype. }
  eapply (asks_bind _ _ (λ _, True)); [|intros; apply Hk]. intros w.
  specialize (Hm (mkWorld (lookups w) [] (turn w) (shared w) (lease w) (h3_used w) (h3_sent w))).
  unfold wp, catch, aside in *. destruct (m _) as [[r|e| |] w']; try done;
    destruct Hm as (l & [Hs _] & HX); split; try done; split; try done; exists l; simpl in *; split; eauto.
Qed.
Lemma lookup_asks name server qtype found ttl : server ∈ c_bootstrap c → qtype ∈ [A_TYPE; AAAA_TYPE] → found_ok found →
  asks (lookup env c name server qtype found ttl) (λ r, found_ok r.1).
Proof.
  intros Hs Hq Hok. unfold lookup. eapply asks_bind; [apply asks_quiet, quiet_time_left|]. intros ? _.
  eapply (aside_asks (lookup_query name qtype) server); [done|by exists name, qtype|apply exchange_udp_ok| | |].
  - intros l r [[Hc _] _]. done.
  - intros l e [[Hc _] _]. done.
  - intros [m|e]; [|by apply asks_quiet, quiet_return]. destruct (chase _ _ _ _) as [owner ttl']. by apply asks_quiet, quiet_collect.
Qed.
Lemma lookup_servers_asks name servers : (∀ s, s ∈ servers → s ∈ c_bootstrap c) → ∀ ttl,
  asks (lookup_servers env c name servers ttl) (λ r, found_ok r.1).
Proof.
  assert (found_ok []) as Hnil by (split_and!; [constructor|constructor|simpl; lia]).
  induction servers as [|server servers IH]; intros Hs ttl; cbn [lookup_servers]; [by apply asks_quiet, quiet_return|].
  eapply asks_bind; [apply lookup_asks; [apply Hs; by left|by left|done]|]. intros [f1 t1] Hf1.
  eapply asks_bind; [apply lookup_asks; [apply Hs; by left|right; by left|exact Hf1]|]. intros [f2 t2] Hf2.
  case_bool_decide; [apply IH; intros; apply Hs; by right|by apply asks_quiet, quiet_return].
Qed.
Lemma addresses_wp w : cached_ok (meanwhile env (turn w) (shared w)) →
  wp (addresses env c) (λ l w', asked w w' ∧ found_ok l ∧ cached_ok (shared w')) (λ e w', asked w w' ∧ not_sent_ e = false) w.
Proof.
  intros Hc. unfold addresses, clock, await. wp_pure. unfold wp at 1. simpl. wp_pure. simpl.
  set (w1 := mkWorld _ _ _ _ _ _ _). assert (asked w w1) as Ha.
  { apply asked_nil. split; [by rewrite app_nil_r|done]. }
  assert (wp (resolve env c) (λ l w', asked w1 w' ∧ found_ok l ∧ cached_ok (shared w')) (λ e w', asked w1 w' ∧ not_sent_ e = false) w1) as Hr.
  { unfold resolve. destruct (from_ascii _) as [name|]; [|apply wp_bind, wp_fail; split; [apply asked_nil, adds_refl|done]].
    apply wp_bind, wp_ret, wp_bind. eapply wp_mono; [| |by apply lookup_servers_asks]; [|done].
    intros [l ttl] w2 [Ha2 Hok]. simpl in Hok. apply wp_bind. eapply wp_quiet; [apply quiet_demand| |].
    2: { intros e w3 Ha3 _ He. split; [|done]. eapply asked_trans; [done|by apply asked_nil]. }
    intros [] w3 Ha3 _ _. apply wp_bind. eapply wp_quiet; [apply quiet_clock| |].
    2: { intros e w4 Ha4 _ He. split; [|done]. eapply asked_trans; [done|]. apply asked_nil. by eapply adds_nil_trans. }
    intros n w4 Ha4 _ _. unfold update, modify. wp_pure. split_and!; [|done|].
    - eapply asked_trans; [done|]. apply asked_nil. destruct (adds_nil_trans _ _ _ _ Ha3 Ha4). by split.
    - intros e l'. simpl. by intros [= _ <-]. }
  assert (wp (resolve env c) (λ l w', asked w w' ∧ found_ok l ∧ cached_ok (shared w')) (λ e w', asked w w' ∧ not_sent_ e = false) w1) as Hr'.
  { eapply wp_mono; [| |exact Hr]; [intros l w' (? & ? & ?)|intros e w' (? & ?)]; split_and!; try done; by eapply asked_trans. }
  destruct (sh_addresses _) as [[e l]|] eqn:E; [|done]. case_bool_decide; [|done]. wp_pure. split_and!; [done| |done]. by eapply Hc.
Qed.

(** ** The whole exchange *)
(** Where a query of this endpoint may go. *)
Definition reachable (a : SocketAddr) : Prop :=
  match parse_ip (utf8 (host (c_spec c))) with
  | Some ip => a = mkSocketAddr ip (port (c_spec c))
  | None => usable a
  end.
Definition looked_up (w w' : World) : Prop := ∃ l, lookups w' = lookups w ++ l ∧ Forall lookup_ok l.
Lemma looked_up_refl w w' : lookups w' = lookups w → looked_up w w'.
Proof. intros Hl. exists []. by rewrite app_nil_r. Qed.
Lemma try_reachable q addrs w0 w : asked w0 w → (∀ a, a ∈ addrs → reachable a) →
  wp (let* m := try_addresses env c q other addrs in ret (m, label (c_spec c)))
    (λ r w', r.2 = label (c_spec c) ∧ looked_up w0 w' ∧
       ∃ l a m, sent w' = sent w0 ++ l ∧ reachable a ∧ carried q a l ∧ accepted q l m ∧ r.1 = strip_tcp_keepalive m)
    (λ e w', looked_up w0 w' ∧ ∃ l, sent w' = sent w0 ++ l ∧ (l = [] ∨ ∃ a, reachable a ∧ carried q a l) ∧ (not_sent_ e = true → l = [])) w.
Proof.
  intros [Hs (ll & Hll & Hlf)] Hr. apply wp_bind. eapply wp_mono; [| |apply try_addresses_ok].
  - intros m w' (l & [Hs' Hl'] & a & m0 & Ha & Hc & Hacc & ->). wp_pure. split; [done|]. split; [exists ll; by rewrite Hl'|].
    exists l, a, m0. split_and!; [congruence|by apply Hr|done..].
  - intros e w' (l & [Hs' Hl'] & Hf & He). split; [exists ll; by rewrite Hl'|]. exists l. split_and!; [congruence| |done].
    destruct Hf as [|(a & Ha & Hc)]; [by left|]. right. exists a. split; [by apply Hr|done].
Qed.
Lemma client_exchange_wp q w : cached_ok (meanwhile env (turn w) (shared w)) →
  wp (client_exchange env c q)
    (λ r w', r.2 = label (c_spec c) ∧ looked_up w w' ∧
       ∃ l a m, sent w' = sent w ++ l ∧ reachable a ∧ carried q a l ∧ accepted q l m ∧ r.1 = strip_tcp_keepalive m)
    (λ e w', looked_up w w' ∧ ∃ l, sent w' = sent w ++ l ∧ (l = [] ∨ ∃ a, reachable a ∧ carried q a l) ∧ (not_sent_ e = true → l = [])) w.
Proof.
  intros Hcached. unfold client_exchange. apply wp_bind. destruct (parse_ip _) as [ip|] eqn:Eip.
  - apply wp_ret, try_reachable; [apply asked_nil, adds_refl|]. intros a ->%list_elem_of_singleton. unfold reachable. by rewrite Eip.
  - eapply wp_mono; [| |by apply addresses_wp].
    + intros l w1 (Ha & (Hok & _) & _). apply try_reachable; [done|]. intros a Hin. unfold reachable. rewrite Eip.
      rewrite -> Forall_forall in Hok. by apply Hok.
    + intros e w1 [[Hs Hl] He]. split; [done|]. exists []. rewrite app_nil_r. split_and!; [done|by left|done].
Qed.
End client.
End safe.

Section claims.
Context `{MessageLib} `{!MessageSpec} `{!EncodeSpec} `{!DnsNames} `{!NameParse} `{!DecoderLib} {DS : DecoderSpec} `{IpParse} `{HttpLib}.

(** C3. A sent query is never resent. In every environment and with every
    transport an exchange never panics; all that carries the query goes to one
    address, which is the endpoint's own or one the bootstrap servers gave and
    the checks passed; every transmission is the query up to its ID; there is
    at most one, except that a truncated UDP answer is fetched over TCP and a
    DoT query written into a reused connection may be written once into a new
    one. An error marked [NotSent] means that nothing left. An answer is
    returned only if it was decoded from what came back, matches the message
    sent last and is whole, with the ID of the query. Lookups of the address
    go to bootstrap servers only and never carry the query. *)
Theorem never_resent (env : Env) (c : Client) (query : Message) (w : World)
    (Henv : env_octets env) (Hcached : cached_ok c (meanwhile env (turn w) (shared w))) :
  wp (client_exchange env c query)
    (λ r w', r.2 = label (c_spec c) ∧ looked_up c w w' ∧
       ∃ l a m, sent w' = sent w ++ l ∧ reachable c a ∧ carried query a l ∧ accepted query l m ∧ r.1 = strip_tcp_keepalive m)
    (λ e w', looked_up c w w' ∧ ∃ l, sent w' = sent w ++ l ∧ (l = [] ∨ ∃ a, reachable c a ∧ carried query a l) ∧ (not_sent_ e = true → l = [])) w.
Proof. by apply client_exchange_wp. Qed.
(** What the exchange caches satisfies [cached_ok] again. *)
Lemma cache_again (env : Env) (c : Client) (w : World) (Henv : env_octets env) :
  cached_ok c (meanwhile env (turn w) (shared w)) →
  wp (addresses env c) (λ l w', found_ok c l ∧ cached_ok c (shared w')) (λ e _, not_sent_ e = false) w.
Proof. intros Hc. eapply wp_mono; [| |by apply addresses_wp]; naive_solver. Qed.
End claims.

(** ** A witness *)
Module TransportWitness.
#[local] Existing Instance DnsWitness.names.
#[local] Existing Instance DnsWitness.dns_names.
#[local] Existing Instance WireWitness.lib.
#[local] Existing Instance WireWitness.spec.
Definition ask_ : Message := mkMessage 77 false 0 false false true false false false 0 [ProtocolWitness.question] [] [] [] None None.
Definition reply_ (tc : bool) : Message :=
  mkMessage 5 true 0 false tc true true false false 0 [ProtocolWitness.question] [] [] [] None None.
(** One octet is a truncated answer, twelve octets are the whole one. *)
Definition lib : MessageLib :=
  DnsWitness.messages ProtocolWitness.vec
    (λ b, if bool_decide (length b = 1)%nat then Some (reply_ true, []) else if bool_decide (length b = 12)%nat then Some (reply_ false, []) else None).
#[local] Existing Instance lib.
#[local] Instance lib_spec : MessageSpec := DnsWitness.messages_spec _ _.
#[local] Instance encode_spec : EncodeSpec.
Proof. split; [exact (@to_vec_size _ _ ProtocolWitness.encode_spec)|exact (@to_vec_option _ _ ProtocolWitness.encode_spec)]. Qed.
#[local] Instance parse : NameParse := {| from_ascii s := Some (map (λ c, [c]) s); type_from_str s := None |}.
#[local] Instance ips : IpParse := {| parse_ip t := if bool_decide (t = lit "10.0.0.9") then Some (V4 167772169) else None |}.
#[local] Instance http_lib : HttpLib := {| uri_parses _ := true; base64url b := b |}.
Definition client : Client :=
  mkClient (mkEndpoint (lit "10.0.0.9") Udp (lit "10.0.0.9") 53 (lit "/dns-query") 1) [] [] false None.
(** A stray datagram, the truncated answer, then the whole one over TCP. *)
Definition network : Env :=
  mkEnv (λ _ s, s) (λ _, 0) (λ _, true) (λ _, true) (λ _, 5) (λ _, None) (λ _, [inl [1; 2]; inl [7]])
    (λ _, inl (0 :: 12 :: replicate 12 0)) (λ _, inr Invalid) (λ _, []) (λ _, None) (λ _ _, false).
Lemma network_octets : env_octets network.
Proof.
  split; simpl.
  - intros _ b. rewrite !elem_of_cons elem_of_nil. intros [[= ->]|[[= ->]|[]]]; repeat constructor; lia.
  - intros _ b [= <-]. repeat constructor; lia.
  - intros _ b Hb. by apply elem_of_nil in Hb.
Qed.
Definition start : World := mkWorld [] [] 0 (mkShared None None None h3_default None) None None false.
Definition both_sent (r : outcome Error (Message * Str) * World) : bool :=
  match r with
  | (Ok (m, _), w) => bool_decide (id m = 77) && negb (truncation m) && bool_decide (s_via <$> sent w = [ViaUdp; ViaTcp])
  | _ => false
  end.
Lemma never_resent_witness :
  env_octets network ∧ cached_ok client (shared start) ∧
  ∃ r w l, client_exchange network client ask_ start = (Ok r, w) ∧ sent w = l ∧ s_via <$> l = [ViaUdp; ViaTcp] ∧
    carried ask_ (mkSocketAddr (V4 167772169) 53) l.
Proof.
  split; [exact network_octets|]. assert (cached_ok client (shared start)) as Hc by (intros e l [=]). split; [exact Hc|].
  pose proof (never_resent network client ask_ start network_octets Hc) as Hwp.
  assert (both_sent (client_exchange network client ask_ start) = true) as Hrun by (vm_compute; reflexivity).
  destruct (client_exchange network client ask_ start) as [[[m t]|e| |] w] eqn:E; [|discriminate Hrun..].
  destruct (wp_result _ _ _ _ _ _ E Hwp) as (_ & _ & l & a & m' & Hs & Ha & Hcar & _).
  apply andb_true_iff in Hrun as [_ Hvia]. apply bool_decide_eq_true in Hvia.
  exists (m, t), w, (sent w). split; [reflexivity|]. split; [reflexivity|]. split; [exact Hvia|].
  simpl in Hs. rewrite Hs. assert (a = mkSocketAddr (V4 167772169) 53) as <- by exact Ha. exact Hcar.
Defined.
End TransportWitness.
