(* ===== verification/Release.v ===== *)
(** * Release contracts

    [src/update/contract.rs] and [src/update/build_info.rs]: versions, update
    manifests and their checks against a release and against the installed
    build. *)
From S2P Require Import Prelude Std Canonical BlockAnswer Policy Text.
Set Default Goal Selector "!".
Set Warnings "-rewrite-rw".
Local Open Scope Z_scope.
Local Open Scope rust_scope.

Inductive ContractError : Type := InvalidVersion | InvalidManifest | ReleaseIncomplete | ReleaseChanged | ManualRequired_ | NotNewer.
#[export] Instance ContractError_eq_dec : EqDecision ContractError.
Proof. solve_decision. Defined.
Definition R (A : Type) : Type := M unit ContractError A.
Definition guard (e : ContractError) (b : bool) : R unit := if b then ret tt else fail e.

(** ** Versions *)
Definition u64_limit : Z := 18446744073709551616.
Record Version : Type := mkVersion { major : Z; minor : Z; patch : Z }.
#[export] Instance Version_eq_dec : EqDecision Version.
Proof. solve_decision. Defined.
(** The derived [Ord]. *)
Definition version_cmp (a b : Version) : comparison :=
  then_ (major a ?= major b) (then_ (minor a ?= minor b) (patch a ?= patch b)).
Definition component (text : option Str) : R Z :=
  let* text := ok_or InvalidVersion text in
  if bool_decide (text = []) || bool_decide (20 < length (utf8 text))%nat ||
     (bool_decide (1 < length (utf8 text))%nat && bool_decide (head text = Some 48)) || negb (forallb is_digit text)
  then fail InvalidVersion
  else
    let* n := ok_or InvalidVersion (digits_value text 0) in
    if bool_decide (n < u64_limit) then ret n else fail InvalidVersion.
Definition parse_version (value : Str) : R Version :=
  let parts := split_on 46 value in
  let* a := component (parts !! 0%nat) in
  let* b := component (parts !! 1%nat) in
  let* c := component (parts !! 2%nat) in
  match parts !! 3%nat with Some _ => fail InvalidVersion | None => ret (mkVersion a b c) end.
Definition parse_tag (value : Str) : R Version :=
  let* rest := ok_or InvalidVersion (strip_prefix (lit "v") value) in
  parse_version rest.
Definition version_text (v : Version) : Str := join [46] [decimal (major v); decimal (minor v); decimal (patch v)].

(** ** Builds and manifests *)
Definition REPOSITORY : Str := lit "paricafe/PariNS".
Definition HELPER_PROTOCOL : Z := 4.
Definition INSTALL_CONTRACT : Str := lit "linux-managed-updater-v1".
Definition MAX_BINARY_BYTES : Z := 128 * 1024 * 1024.
Definition SUPPORTED_TARGETS : list Str := [lit "x86_64-unknown-linux-musl"; lit "aarch64-unknown-linux-musl"].
Record BuildInfo : Type := mkBuild {
  b_version : Str;
  b_target : Str;
  b_source_commit : Str;
  official_release : bool;
  b_update_protocol : Z;
  b_helper_protocol : Z;
  b_install_contract : Str;
  b_durable_contract_epoch : Z;
  b_runtime_database_format : Z;
  b_cache_snapshot_format : Z;
  b_cache_semantics : Z;
}.
#[export] Instance BuildInfo_eq_dec : EqDecision BuildInfo.
Proof. solve_decision. Defined.
Inductive UpgradeMode : Type := InPlace | Manual.
#[export] Instance UpgradeMode_eq_dec : EqDecision UpgradeMode.
Proof. solve_decision. Defined.
Record Artifact : Type := mkArtifact { a_target : Str; a_name : Str; a_size : Z; a_sha256 : Str }.
Record Manifest : Type := mkManifest {
  m_schema : Z;
  m_repository : Str;
  m_version : Str;
  m_tag : Str;
  m_source_commit : Str;
  m_update_protocol : Z;
  m_install_contract : Str;
  min_helper_protocol : Z;
  m_durable_contract_epoch : Z;
  m_runtime_database_format : Z;
  m_cache_snapshot_format : Z;
  m_cache_semantics : Z;
  upgrade_mode : UpgradeMode;
  artifacts : list Artifact;
}.
Record ReleaseAsset : Type := mkAsset { as_id : Z; as_name : Str; as_state : Str; as_size : Z; as_digest : option Str }.
Record GithubRelease : Type := mkRelease { r_id : Z; tag_name : Str; draft : bool; prerelease : bool; assets : list ReleaseAsset }.

Definition hex_digit (c : Z) : bool := is_digit c || bool_decide (97 ≤ c ≤ 102).
Definition valid_hex (value : Str) (n : nat) : bool := bool_decide (length (utf8 value) = n) && forallb hex_digit (utf8 value).
Definition valid_sha256 (value : Str) : bool := valid_hex value 64.
Definition artifact_name (tag target : Str) : Str :=
  lit "parins-" ++ tag ++ lit "-linux-" ++ default [] (head (split_on 45 target)) ++ lit ".bin".
Definition target_artifacts (m : Manifest) (target : Str) : list Artifact := filter (λ a, a_target a = target) (artifacts m).
Fixpoint check_targets (m : Manifest) (targets : list Str) : R unit :=
  match targets with
  | [] => ret tt
  | target :: targets =>
      match target_artifacts m target with
      | [artifact] =>
          guard InvalidManifest (bool_decide (a_name artifact = artifact_name (m_tag m) target) &&
                                 bool_decide (64 ≤ a_size artifact ≤ MAX_BINARY_BYTES) && valid_sha256 (a_sha256 artifact));;;
          check_targets m targets
      | _ => fail ReleaseIncomplete
      end
  end.
Definition validate_manifest (m : Manifest) : R unit :=
  let* version := parse_version (m_version m) in
  guard InvalidManifest (bool_decide (m_schema m = 1) && bool_decide (m_repository m = REPOSITORY));;;
  let* tag := parse_tag (m_tag m) in
  guard InvalidManifest
    (bool_decide (tag = version) && valid_hex (m_source_commit m) 40 && negb (bool_decide (m_update_protocol m = 0)) &&
     bool_decide (m_install_contract m = INSTALL_CONTRACT) && negb (bool_decide (min_helper_protocol m = 0)) &&
     negb (bool_decide (m_durable_contract_epoch m = 0)) && negb (bool_decide (m_runtime_database_format m = 0)) &&
     negb (bool_decide (m_cache_snapshot_format m = 0)) && negb (bool_decide (m_cache_semantics m = 0)) &&
     bool_decide (length (artifacts m) = 2%nat));;;
  check_targets m SUPPORTED_TARGETS.
Definition find_artifact (m : Manifest) (target : Str) : option Artifact := snd <$> list_find (λ a, a_target a = target) (artifacts m).
Definition artifact_for (m : Manifest) (target : Str) : R Artifact := ok_or ManualRequired_ (find_artifact m target).
Fixpoint check_assets (l : list ReleaseAsset) (ids : list Z) (names : list Str) : R unit :=
  match l with
  | [] => ret tt
  | a :: l =>
      guard ReleaseIncomplete (negb (bool_decide (as_id a = 0)) && bool_decide (as_id a ∉ ids) && bool_decide (as_name a ∉ names) &&
                               bool_decide (as_state a = lit "uploaded"));;;
      check_assets l (as_id a :: ids) (as_name a :: names)
  end.
Definition find_asset (r : GithubRelease) (name : Str) : option ReleaseAsset := snd <$> list_find (λ a, as_name a = name) (assets r).
Fixpoint check_artifacts (r : GithubRelease) (l : list Artifact) : R unit :=
  match l with
  | [] => ret tt
  | artifact :: l =>
      let* asset := ok_or ReleaseIncomplete (find_asset r (a_name artifact)) in
      guard ReleaseChanged (bool_decide (as_size asset = a_size artifact) &&
                            match as_digest asset with Some d => bool_decide (d = lit "sha256:" ++ a_sha256 artifact) | None => true end);;;
      check_artifacts r l
  end.
Definition validate_release (m : Manifest) (r : GithubRelease) : R unit :=
  validate_manifest m;;;
  guard ReleaseChanged (negb (bool_decide (r_id r = 0)) && negb (draft r) && negb (prerelease r) && bool_decide (tag_name r = m_tag m));;;
  check_assets (assets r) [] [];;;
  let* manifest := ok_or ReleaseIncomplete (find_asset r (lit "parins-update.json")) in
  guard ReleaseIncomplete (negb (bool_decide (as_size manifest = 0)) && bool_decide (as_size manifest ≤ 64 * 1024));;;
  check_artifacts r (artifacts m).
Definition check_compatible (m : Manifest) (current : BuildInfo) (helper_protocol : Z) : R unit :=
  validate_manifest m;;;
  let* new := parse_version (m_version m) in
  let* old := parse_version (b_version current) in
  guard NotNewer (bool_decide (version_cmp new old = Gt));;;
  guard ManualRequired_
    (official_release current && bool_decide (upgrade_mode m = InPlace) && bool_decide (m_update_protocol m = b_update_protocol current) &&
     bool_decide (m_install_contract m = b_install_contract current) && bool_decide (min_helper_protocol m ≤ helper_protocol) &&
     bool_decide (m_durable_contract_epoch m = b_durable_contract_epoch current) &&
     bool_decide (m_runtime_database_format m = b_runtime_database_format current));;;
  artifact_for m (b_target current);;;
  ret tt.
Definition matches_build (m : Manifest) (build : BuildInfo) : bool :=
  official_release build && bool_decide (m_version m = b_version build) && bool_decide (m_source_commit m = b_source_commit build) &&
  bool_decide (m_update_protocol m = b_update_protocol build) && bool_decide (m_install_contract m = b_install_contract build) &&
  bool_decide (min_helper_protocol m ≤ b_helper_protocol build) && bool_decide (m_durable_contract_epoch m = b_durable_contract_epoch build) &&
  bool_decide (m_runtime_database_format m = b_runtime_database_format build) &&
  bool_decide (m_cache_snapshot_format m = b_cache_snapshot_format build) && bool_decide (m_cache_semantics m = b_cache_semantics build) &&
  bool_decide (is_Some (find_artifact m (b_target build))).
