(* ===== verification/ReleaseSafe.v ===== *)
(** * Versions are written in one way

    A version text of [src/update/contract.rs] is accepted exactly when it is
    the text [Version]'s [Display] writes, so versions compare as their texts
    are identified; and an update that is compatible is strictly newer. *)
From S2P Require Import Prelude Std Canonical RadixLookup BlockAnswer Policy Text Release.
Set Default Goal Selector "!".
Set Warnings "-rewrite-rw".
Local Open Scope Z_scope.
Local Open Scope rust_scope.

(** ** The checks of the contracts end *)
Definition total (B : Type) (m : R B) : Prop := wp m (λ _ _, True) (λ _ _, True) tt.
Lemma total_bind {B C} (m : R B) (k : B → R C) : total B m → (∀ b, total C (k b)) → total C (bind m k).
Proof. intros Hm Hk. unfold total. apply wp_bind. eapply wp_mono; [| |exact Hm]; [|done]. intros b [] _. apply Hk. Qed.
Lemma total_ok_or {B} e (o : option B) : total B (ok_or e o).
Proof. by destruct o. Qed.
Lemma total_guard e b : total unit (guard e b).
Proof. by destruct b. Qed.
Lemma total_component t : total Z (component t).
Proof. apply total_bind; [apply total_ok_or|]. intros s. case_match; [done|]. apply total_bind; [apply total_ok_or|]. intros n. by case_match. Qed.
Lemma total_version t : total Version (parse_version t).
Proof. unfold parse_version. cbv zeta. repeat (apply total_bind; [apply total_component|intros]). by case_match. Qed.
Lemma total_tag t : total Version (parse_tag t).
Proof. apply total_bind; [apply total_ok_or|intros; apply total_version]. Qed.
Lemma total_targets m l : total unit (check_targets m l).
Proof. induction l as [|t l IH]; cbn [check_targets]; [done|]. case_match; [done|]. case_match; [|done]. apply total_bind; [apply total_guard|done]. Qed.
Lemma total_manifest m : total unit (validate_manifest m).
Proof.
  apply total_bind; [apply total_version|intros v]. apply total_bind; [apply total_guard|intros _]. apply total_bind; [apply total_tag|intros tag].
  apply total_bind; [apply total_guard|intros _]. apply total_targets.
Qed.
Lemma total_compatible m b p : total unit (check_compatible m b p).
Proof.
  apply total_bind; [apply total_manifest|intros _]. do 2 (apply total_bind; [apply total_version|intros ?]).
  do 2 (apply total_bind; [apply total_guard|intros ?]). apply total_bind; [apply total_ok_or|done].
Qed.

(** ** Versions *)
Definition version_ok (v : Version) : Prop := 0 ≤ major v < u64_limit ∧ 0 ≤ minor v < u64_limit ∧ 0 ≤ patch v < u64_limit.

Lemma digits_ascii l : forallb is_digit l = true → utf8 l = l ∧ ∀ c, c ∈ l → 48 ≤ c ≤ 57.
Proof.
  induction l as [|c l IH]; [set_solver|]. cbn [forallb]. intros [Hc%bool_decide_eq_true Hl]%andb_prop.
  destruct (IH Hl) as [Hu Hd]. split.
  - change (utf8 (c :: l)) with (utf8_char c ++ utf8 l). rewrite Hu /utf8_char. rewrite bool_decide_true //. lia.
  - intros x [->|Hx]%elem_of_cons; auto.
Qed.

(** What [component] accepts is the decimal form of a [u64]. *)
Lemma component_spec t n : component t tt = (Ok n, tt) ↔ 0 ≤ n < u64_limit ∧ t = Some (decimal n).
Proof.
  split.
  - destruct t as [t|]; [|done]. unfold component, ok_or at 1, bind at 1, ret at 1. cbv beta iota.
    destruct (_ || _) eqn:Hg; [done|]. apply orb_false_elim in Hg as [Hg Hd]. apply orb_false_elim in Hg as [Hg Hz].
    apply orb_false_elim in Hg as [Hne _]. apply bool_decide_eq_false in Hne. apply negb_false_iff in Hd.
    destruct (digits_ascii t Hd) as [Hu _]. rewrite Hu in Hz.
    unfold ok_or, bind. destruct (digits_value t 0) as [m|] eqn:Hm; [|done]. unfold ret, fail. cbv beta iota. destruct (bool_decide_reflect (m < u64_limit)) as [Hb|Hb]; [|done].
    intros [= <-]. split; [apply digits_value_bound in Hm; lia|]. f_equal.
    apply canonical_decimal; [exact Hm|exact Hne|].
    apply andb_false_iff in Hz as [Hz%bool_decide_eq_false|Hz%bool_decide_eq_false]; [|by right].
    destruct t as [|c [|]]; [done| |simpl in Hz; lia]. destruct (decide (c = 48)) as [->|]; [by left|right; simpl; congruence].
  - intros [Hn ->]. destruct (decimal_spec n ltac:(lia)) as (Hv & Hd & Hne & Hlead & Hlow & _).
    destruct (digits_ascii _ Hd) as [Hu _]. unfold component, ok_or at 1, bind at 1, ret at 1. cbv beta iota. rewrite Hu Hd.
    rewrite (bool_decide_false (decimal n = [])) //.
    rewrite (bool_decide_false (20 < length (decimal n))%nat); last first.
    { intros Hlen. assert (n ≠ 0 → 0 < n) as Hpos by lia. destruct (decide (n = 0)) as [->|Hnz]; [revert Hlen; vm_compute; lia|].
      specialize (Hlow (Hpos Hnz)). assert (10 ^ 20 ≤ n) by (etrans; [|exact Hlow]; apply Z.pow_le_mono_r; lia). revert Hn. unfold u64_limit. lia. }
    assert (bool_decide (1 < length (decimal n))%nat && bool_decide (head (decimal n) = Some 48) = false) as ->.
    { apply andb_false_iff. destruct Hlead as [->|Hh]; [by left|right; by apply bool_decide_eq_false]. }
    cbn [orb negb]. rewrite Hv. unfold bind, ok_or, ret. cbv beta iota. rewrite bool_decide_true; [done|lia].
Qed.

Lemma no_dot n : 0 ≤ n → 46 ∉ decimal n.
Proof. intros Hn Hin. destruct (decimal_spec n Hn) as (_ & Hd & _). apply digits_ascii in Hd as [_ Hd]. apply Hd in Hin. lia. Qed.
Lemma split_version v : version_ok v → split_on 46 (version_text v) = [decimal (major v); decimal (minor v); decimal (patch v)].
Proof.
  intros (? & ? & ?). unfold version_text. cbn [join].
  change (decimal (major v) ++ [46] ++ decimal (minor v) ++ [46] ++ decimal (patch v))
    with (decimal (major v) ++ 46 :: (decimal (minor v) ++ 46 :: decimal (patch v))).
  rewrite !split_on_app_sep !split_on_none //; apply no_dot; lia.
Qed.
Lemma split_on_join c t : ∃ l ls, split_on c t = l :: ls ∧ t = join [c] (l :: ls).
Proof.
  induction t as [|x t (l & ls & Hs & Ht)]; [by exists [], []|]. cbn [split_on]. case_bool_decide as Hx.
  - subst x. exists [], (split_on c t). split; [done|]. rewrite Hs.
    change (c :: t = c :: join [c] (l :: ls)). by rewrite -Ht.
  - rewrite Hs. exists (x :: l), ls. split; [done|]. rewrite Ht. by destruct ls.
Qed.

Lemma run_ok {A B} (m : R A) (k : A → R B) b : (let* a := m in k a) tt = (Ok b, tt) ↔ ∃ a, m tt = (Ok a, tt) ∧ k a tt = (Ok b, tt).
Proof.
  unfold bind. destruct (m tt) as [[a|e| |] []]; split.
  all: try (by intros [=]). all: try (by intros (? & ? & ?)).
  - by exists a.
  - by intros (a' & [= ->] & Hk).
Qed.

#[local] Opaque component.
(** A version text is read as [v] exactly when it is what the display of
    [v] writes and the three numbers are 64 bits wide: no sign, blank, leading
    zero, missing or additional component is accepted, nothing a version
    prints is refused, and two texts are the same version only if they are
    the same text. *)
Theorem version_roundtrip (t : Str) (v : Version) : parse_version t tt = (Ok v, tt) ↔ version_ok v ∧ t = version_text v.
Proof.
  unfold parse_version. rewrite run_ok. setoid_rewrite run_ok. setoid_rewrite run_ok. setoid_rewrite component_spec. split.
  - intros (a & [Ha Ht0] & b & [Hb Ht1] & c & [Hc Ht2] & Hr). destruct (split_on_join 46 t) as (l & ls & Hs & Ht). rewrite Hs in Ht0 Ht1 Ht2 Hr.
    destruct ls as [|l1 [|l2 [|l3 ls]]]; [done..| |done]. simplify_eq/=.
    unfold ret in Hr. simplify_eq. split; [by unfold version_ok|done].
  - intros [Hv ->]. rewrite split_version //. destruct Hv as (? & ? & ?).
    exists (major v). split; [done|]. exists (minor v). split; [done|]. exists (patch v). split; [done|]. by destruct v.
Qed.
