(* ===== verification/SourceStore.v ===== *)
(** * The store of subscription sources

    [src/filter_subscriptions/store.rs]: downloaded sources are kept as objects
    named by their SHA-256, and one catalog selects among them. The directory is
    a map of files; a change of a directory may be lost by a power failure until
    the directory is synchronized, and the data of a file until the file is. Each
    change may fail without effect or be cut off by a crash, before or after it
    took effect. *)
From S2P Require Import Prelude Std Canonical Radix RadixDisk BlockAnswer Policy Text Release Download.
Set Default Goal Selector "!".
Set Warnings "-rewrite-rw".
Local Open Scope Z_scope.
Local Open Scope rust_scope.

Definition MAX_CATALOG : Z := 256 * 1024.
Definition MAX_OBJECT : Z := 16 * 1024 * 1024.
Definition MAX_INDEX : Z := 512 * 1024 * 1024.
Definition PREPARED_TTL : Z := 24 * 60 * 60.
Definition HARD_LIMIT : Z := 2 * 1024 * 1024 * 1024.
Definition CATALOG : Str := lit "catalog.json".

(** ** Data *)
Record SourceStatus : Type := mkSourceStatus {
  last_attempt : option Z;
  next_update : option Z;
  failures : Z;
  last_error : option Str;
  error_line : option Z;
}.
#[export] Instance SourceStatus_eq_dec : EqDecision SourceStatus.
Proof. solve_decision. Defined.
Definition status_default : SourceStatus := mkSourceStatus None None 0 None None.
Record SourceRecord : Type := mkSourceRecord {
  fingerprint : Str;
  sha256 : Str;
  bytes : Z;
  s_rules : Z;
  validators : Validators;
  prepared_at : Z;
  status : SourceStatus;
}.
Record PreparedMetadata : Type := mkPrepared { pm_fingerprint : Str; pm_sha256 : Str; pm_bytes : Z; pm_rules : Z; pm_validators : Validators }.
Record Catalog : Type := mkCatalog {
  schema : Z;
  content_revision : Z;
  current : list Str;
  previous : list Str;
  records : list SourceRecord;
}.
Definition catalog_default : Catalog := mkCatalog 1 0 [] [] [].
Definition set_records (l : list SourceRecord) (c : Catalog) : Catalog := mkCatalog (schema c) (content_revision c) (current c) (previous c) l.
Definition set_roots (cur prev : list Str) (c : Catalog) : Catalog := mkCatalog (schema c) (content_revision c) cur prev (records c).
Definition set_revision (n : Z) (c : Catalog) : Catalog := mkCatalog (schema c) n (current c) (previous c) (records c).
Definition set_record_status (s : SourceStatus) (r : SourceRecord) : SourceRecord :=
  mkSourceRecord (fingerprint r) (sha256 r) (bytes r) (s_rules r) (validators r) (prepared_at r) s.
Inductive CommitOutcome : Type := Durable | CommittedUncertain.
#[export] Instance CommitOutcome_eq_dec : EqDecision CommitOutcome.
Proof. solve_decision. Defined.

Inductive Reason : Type :=
  | Io | NeedsReconciliation | AlreadyRunning | InvalidReservation | DiskBudget | MaterialMissing | RevisionConflict | TooManyCandidates
  | DuplicateCandidate | SlotsPinned | RevisionOverflow | CatalogTooLarge | InvalidCatalog | InvalidRecord | InvalidReferences
  | ReservationExceeded | SizeMismatch | DigestMismatch | UnownedCorrupt | InvalidDigest | InvalidLimit | IndexOwnership | PinOverflow
  | CatalogMissing | HardLimit | InitialUncertain | TooManyEntries | AccountingOverflow | Checked | WriteFailed.
Inductive StoreError : Type := Crashed | Refused (r : Reason).
#[export] Instance Reason_eq_dec : EqDecision Reason.
Proof. solve_decision. Defined.
#[export] Instance StoreError_eq_dec : EqDecision StoreError.
Proof. solve_decision. Defined.

(** ** Files *)
Inductive Dir : Type := Root | Objects | StagingDir | Indexes.
#[export] Instance Dir_eq_dec : EqDecision Dir.
Proof. solve_decision. Defined.
Definition dir_number (d : Dir) : nat := match d with Root => 0 | Objects => 1 | StagingDir => 2 | Indexes => 3 end.
Definition dir_of (n : nat) : Dir := match n with O => Root | 1%nat => Objects | 2%nat => StagingDir | _ => Indexes end.
#[export] Instance Dir_countable : Countable Dir.
Proof. apply (inj_countable' dir_number dir_of). by intros []. Defined.
Definition Path : Type := Dir * Str.
(** [safe]: the data was synchronized. *)
Record File : Type := mkFile { data : list Z; safe : bool }.
#[export] Instance File_eq_dec : EqDecision File.
Proof. solve_decision. Defined.
(** [older p]: what a power failure may bring back at [p]. *)
Record Fs : Type := mkFs { files : gmap Path File; older : gmap Path (list (option File)); subdirs : list Dir }.
Definition put_file (p : Path) (v : option File) (fs : Fs) : Fs :=
  mkFs (partial_alter (λ _, v) p (files fs)) (<[p := (files fs !! p) :: default [] (older fs !! p)]> (older fs)) (subdirs fs).
(** The data of an open file changes in place. *)
Definition set_data (p : Path) (d : list Z) (s : bool) (fs : Fs) : Fs := mkFs (alter (λ _, mkFile d s) p (files fs)) (older fs) (subdirs fs).
Definition make_safe (p : Path) (fs : Fs) : Fs := mkFs (alter (λ f, mkFile (data f) true) p (files fs)) (older fs) (subdirs fs).
Definition settle (d : Dir) (fs : Fs) : Fs := mkFs (files fs) (filter (λ e, e.1.1 ≠ d) (older fs)) (subdirs fs).
Definition add_dir (d : Dir) (fs : Fs) : Fs := mkFs (files fs) (older fs) (d :: subdirs fs).
Definition names (d : Dir) (fs : Fs) : list Str := snd <$> filter (λ p, p.1 = d) (map_to_list (files fs)).*1.

(** ** The environment *)
(** serde_json. *)
Class StoreLib := {
  encode_catalog : Catalog → list Z;
  decode_catalog : list Z → option Catalog;
}.
Class StoreSpec `{StoreLib} : Prop := { decode_encode c : decode_catalog (encode_catalog c) = Some c }.
(** Numbered by the steps: what fails, the names and sizes the process chooses,
    the order of directory entries, whether the caller's check passes. *)
Inductive IoFault : Type := Fails | CutOff (applied : bool).
Record Env : Type := mkEnv {
  fault : nat → option IoFault;
  failing : nat → bool;
  garbage : nat → list Z;
  random_hex : nat → Str;
  listing : nat → list Str → list Str;
  record_heap : nat → SourceRecord → Z;
  metadata_bytes : nat → Catalog → Z;
  check_passes : nat → bool;
}.
Record Store : Type := mkStore { catalog : Catalog; quota : Z; uncertain : bool; active : bool; pins : gmap Str Z }.
Definition set_catalog (c : Catalog) (s : Store) : Store := mkStore c (quota s) (uncertain s) (active s) (pins s).
Definition set_uncertain (b : bool) (s : Store) : Store := mkStore (catalog s) (quota s) b (active s) (pins s).
Definition set_active (b : bool) (s : Store) : Store := mkStore (catalog s) (quota s) (uncertain s) b (pins s).
Definition set_pins (p : gmap Str Z) (s : Store) : Store := mkStore (catalog s) (quota s) (uncertain s) (active s) p.
Definition with_quota (q : Z) (s : Store) : Store := mkStore (catalog s) q (uncertain s) (active s) (pins s).
Record World : Type := mkWorld { disk : Fs; store : Store; turn : nat }.
Definition X (A : Type) : Type := M World StoreError A.
Definition refuse {A} (r : Reason) : X A := fail (Refused r).
Definition demand (b : bool) (r : Reason) : X unit := if b then ret tt else refuse r.
Definition some_or {A} (o : option A) (r : Reason) : X A := match o with Some a => ret a | None => refuse r end.
Definition fs_of : X Fs := λ w, (Ok (disk w), w).
Definition store_of : X Store := λ w, (Ok (store w), w).
Definition modify (f : Store → Store) : X unit := λ w, (Ok tt, mkWorld (disk w) (f (store w)) (turn w)).
(** The [Result] of a step; a crash ends everything. *)
Definition catch {A} (m : X A) : X (option A) := λ w,
  match m w with
  | (Ok a, w) => (Ok (Some a), w)
  | (Err (Refused _), w) => (Ok None, w)
  | (Err Crashed, w) => (Err Crashed, w)
  | (Panic, w) => (Panic, w)
  | (Diverge, w) => (Diverge, w)
  end.
(** [m], then [d] whatever [m] returned. *)
Definition finally {A} (m : X A) (d : X unit) : X A := λ w,
  match m w with
  | (Err Crashed, w) => (Err Crashed, w)
  | (r, w) => match d w with
              | (Err Crashed, w) => (Err Crashed, w)
              | (_, w) => (r, w)
              end
  end.

Section store.
Context `{WebLib} `{StoreLib} (env : Env).
Definition tick : X nat := λ w, (Ok (turn w), mkWorld (disk w) (store w) (S (turn w))).
Definition look : X unit := let* t := tick in if failing env t then refuse Io else ret tt.
Definition change (f : Fs → Fs) : X unit := λ w,
  let w' d := mkWorld d (store w) (S (turn w)) in
  match fault env (turn w) with
  | None => (Ok tt, w' (f (disk w)))
  | Some Fails => (Err (Refused Io), w' (disk w))
  | Some (CutOff applied) => (Err Crashed, w' (if applied then f (disk w) else disk w))
  end.
Definition checked_open (p : Path) : X (option (list Z)) := look;;; let* fs := fs_of in ret (data <$> files fs !! p).
Definition create_private (p : Path) : X unit :=
  let* fs := fs_of in
  demand (bool_decide (files fs !! p = None)) Io;;;
  change (put_file p (Some (mkFile [] false))).
(** A write that fails or is cut off leaves anything. *)
Definition write_all (p : Path) (b : list Z) : X unit :=
  let* t := tick in
  (λ w, (Ok tt, mkWorld (set_data p (garbage env t) false (disk w)) (store w) (turn w)));;;
  change (set_data p b false).
Definition sync_all (p : Path) : X unit := change (make_safe p).
Definition rename (a b : Path) : X unit :=
  let* fs := fs_of in
  match files fs !! a with
  | Some f => change (λ fs, put_file a None (put_file b (Some f) fs))
  | None => refuse Io
  end.
Definition remove_file (p : Path) : X unit :=
  let* fs := fs_of in
  match files fs !! p with Some _ => change (put_file p None) | None => refuse Io end.
Definition sync_dir (d : Dir) : X unit := change (settle d).
Definition read_dir (d : Dir) : X (list Str) :=
  look;;; let* t := tick in let* fs := fs_of in ret (listing env t (names d fs)).

(** ** Names and digests *)
Definition valid_hash (value : Str) : bool := bool_decide (length value = 64%nat) && forallb hex_digit value.
(** [str::strip_suffix] *)
Definition strip_suffix (s t : Str) : option Str := reverse <$> strip_prefix (reverse s) (reverse t).
Definition object_path (h : Str) : Path := (Objects, h ++ lit ".txt").
Definition index_path (h : Str) : Path := (Indexes, h ++ lit ".bin").
Definition staging_path (kind hex : Str) : Path := (StagingDir, kind ++ lit "-" ++ hex ++ lit ".tmp").
Definition catalog_path : Path := (Root, CATALOG).
Definition temporary_path (hex : Str) : Path := (Root, lit "catalog-" ++ hex ++ lit ".tmp").
(** [verify_file]: the size, then the digest of at most [MAX_OBJECT] bytes. *)
Definition verifies (b : list Z) (r : SourceRecord) : bool :=
  bool_decide (Z.of_nat (length b) = bytes r) && bool_decide (Z.of_nat (length b) ≤ MAX_OBJECT) && bool_decide (sha256_hex b = sha256 r).
Definition verify_file (b : list Z) (r : SourceRecord) : X unit :=
  demand (bool_decide (Z.of_nat (length b) = bytes r)) SizeMismatch;;;
  look;;;
  demand (bool_decide (Z.of_nat (length b) ≤ MAX_OBJECT) && bool_decide (sha256_hex b = sha256 r)) DigestMismatch.
Definition verified_object (r : SourceRecord) : X (list Z) :=
  let* b := checked_open (object_path (sha256 r)) in
  let* b := some_or b MaterialMissing in
  verify_file b r;;; ret b.
Definition hex_value (c : Z) : Z := if is_digit c then c - 48 else c - 87.
Fixpoint hex_bytes (t : Str) : list Z := match t with a :: b :: t => 16 * hex_value a + hex_value b :: hex_bytes t | _ => [] end.
Definition owned_index (b : list Z) (digest : Str) : bool :=
  bool_decide (Z.of_nat (length b) ≤ MAX_INDEX) && bool_decide (48 ≤ length b)%nat &&
  bool_decide (take 16 b = DERIVED_PREFIX) && bool_decide (take 32 (drop 16 b) = hex_bytes digest).

(** ** Validation *)
Definition referenced (c : Catalog) (f : Str) : bool := bool_decide (f ∈ current c ++ previous c).
Definition unreferenced (c : Catalog) : list SourceRecord := filter (λ r, referenced c (fingerprint r) = false) (records c).
Definition record_valid (r : SourceRecord) : bool :=
  valid_hash (fingerprint r) && valid_hash (sha256 r) && bool_decide (1 ≤ bytes r ≤ MAX_OBJECT) && bool_decide (1 ≤ s_rules r ≤ 5000000) &&
  validators_valid (validators r) && bool_decide (content_sha256 (validators r) = sha256 r) &&
  match last_error (status r) with Some e => bool_decide (length (utf8 e) ≤ 512)%nat | None => true end.
Definition validate_record (r : SourceRecord) : X unit :=
  demand (record_valid r) InvalidRecord;;;
  let* t := tick in
  demand (bool_decide (record_heap env t r ≤ 16 * 1024)) InvalidRecord.
Definition references_valid (l : list Str) : bool := bool_decide (length l ≤ 16)%nat && forallb valid_hash l && bool_decide (NoDup l).
Definition validate_references (l : list Str) : X unit := demand (references_valid l) InvalidReferences.
Fixpoint validate_records (l : list SourceRecord) (unique : list Str) : X unit :=
  match l with
  | [] => ret tt
  | r :: l => validate_record r;;; demand (bool_decide (fingerprint r ∉ unique)) InvalidCatalog;;; validate_records l (fingerprint r :: unique)
  end.
Definition validate_catalog (c : Catalog) : X unit :=
  demand (bool_decide (schema c = 1) && bool_decide (length (records c) ≤ 48)%nat && bool_decide (length (current c) ≤ 16)%nat &&
          bool_decide (length (previous c) ≤ 16)%nat && bool_decide (length (unreferenced c) ≤ 16)%nat) InvalidCatalog;;;
  validate_records (records c) [];;;
  validate_references (current c);;;
  validate_references (previous c);;;
  let* t := tick in
  demand (bool_decide (metadata_bytes env t c ≤ 2 * MAX_CATALOG)) InvalidCatalog.
Definition read_catalog (b : list Z) : X Catalog :=
  demand (bool_decide (Z.of_nat (length b) ≤ MAX_CATALOG)) CatalogTooLarge;;;
  look;;;
  let* c := some_or (decode_catalog b) InvalidCatalog in
  validate_catalog c;;; ret c.

(** ** Accounting *)
Definition entries (d : Dir) (fs : Fs) : list File := snd <$> filter (λ e, e.1.1 = d) (map_to_list (files fs)).
Definition all_entries (fs : Fs) : list File := [Root; Objects; StagingDir; Indexes] ≫= λ d, entries d fs.
Definition add_len (n : option Z) (f : File) : option Z := n ≫= λ n, checked_add n (Z.of_nat (length (data f))).
Definition disk_bytes : X Z :=
  look;;;
  let* fs := fs_of in
  demand (bool_decide (length (all_entries fs) + length (subdirs fs) ≤ 4096)%nat) TooManyEntries;;;
  some_or (foldl add_len (Some 0) (all_entries fs)) AccountingOverflow.
Definition certain : X unit := let* s := store_of in demand (negb (uncertain s)) NeedsReconciliation.
Definition has_staging_space (reserve : Z) : X bool :=
  let* n := disk_bytes in
  let* s := store_of in
  ret (match checked_add n (reserve + MAX_CATALOG) with Some sum => bool_decide (sum ≤ quota s) | None => false end).

(** ** Collection *)
Fixpoint for_each {A} (l : list A) (f : A → X unit) : X unit := match l with [] => ret tt | a :: l => f a;;; for_each l f end.
Definition keeps (s : Store) (h : Str) : bool := bool_decide (h ∈ sha256 <$> records (catalog s)) || bool_decide (is_Some (pins s !! h)).
Definition collect_object (s : Store) (name : Str) : X unit :=
  match strip_suffix (lit ".txt") name with
  | Some h =>
      if negb (valid_hash h) || keeps s h then ret tt else
      let* b := checked_open (Objects, name) in
      match b with
      | Some b => if bool_decide (Z.of_nat (length b) ≤ MAX_OBJECT)
                  then look;;; if bool_decide (sha256_hex b = h) then remove_file (Objects, name) else ret tt
                  else ret tt
      | None => ret tt
      end
  | None => ret tt
  end.
Definition collect_index (s : Store) (name : Str) : X unit :=
  match strip_suffix (lit ".bin") name with
  | Some h =>
      if negb (valid_hash h) || bool_decide (is_Some (pins s !! (lit "index:" ++ h))) then ret tt else
      let* b := checked_open (Indexes, name) in
      match b with
      | Some b => look;;; if owned_index b h then remove_file (Indexes, name) else ret tt
      | None => ret tt
      end
  | None => ret tt
  end.
Definition collect_orphans : X unit :=
  certain;;;
  let* s := store_of in
  let* objects := read_dir Objects in
  for_each objects (collect_object s);;;
  sync_dir Objects;;;
  let* indexes := read_dir Indexes in
  for_each indexes (collect_index s);;;
  sync_dir Indexes.

(** ** The catalog's commit point *)
(** [fs::rename], with the assignment and the directory's sync behind it. *)
Definition commit_catalog_with_check (candidate : Catalog) (check : X unit) : X CommitOutcome :=
  validate_catalog candidate;;;
  let b := encode_catalog candidate in
  demand (bool_decide (Z.of_nat (length b) ≤ MAX_CATALOG)) CatalogTooLarge;;;
  let* _ := checked_open catalog_path in
  let* n := disk_bytes in
  let* s := store_of in
  demand (match checked_add n (Z.of_nat (length b)) with Some n => bool_decide (n ≤ quota s) | None => false end) DiskBudget;;;
  let* t := tick in
  let temporary := temporary_path (random_hex env t) in
  finally
    (create_private temporary;;;
     write_all temporary b;;;
     sync_all temporary;;;
     check;;;
     rename temporary catalog_path;;;
     modify (set_catalog candidate);;;
     let* synced := catch (sync_dir Root) in
     let failed := bool_decide (synced = None) in
     modify (set_uncertain failed);;;
     ret (if failed then CommittedUncertain else Durable))
    (remove_file temporary).
Definition commit_catalog (candidate : Catalog) : X CommitOutcome := commit_catalog_with_check candidate (ret tt).
Definition choices (c : Catalog) : gmap Str Str := foldl (λ m r, <[fingerprint r := sha256 r]> m) ∅ (records c).
Definition next_revision (candidate : Catalog) : X Catalog :=
  let* n := some_or (checked_add (content_revision candidate) 1) RevisionOverflow in ret (set_revision n candidate).
Definition commit_selection_with_check (candidate : Catalog) (check : X unit) : X CommitOutcome :=
  let* s := store_of in
  let* candidate := if bool_decide (choices candidate = choices (catalog s)) then ret candidate else next_revision candidate in
  commit_catalog_with_check candidate check.
Definition commit_selection (candidate : Catalog) : X CommitOutcome := commit_selection_with_check candidate (ret tt).
(** [min_by_key]: the first of the least. *)
Fixpoint oldest (l : list SourceRecord) : option SourceRecord :=
  match l with
  | [] => None
  | r :: l => match oldest l with
              | Some r' => Some (if bool_decide (prepared_at r ≤ prepared_at r') then r else r')
              | None => Some r
              end
  end.
Definition evictable (s : Store) (retain : list Str) (c : Catalog) : list SourceRecord :=
  filter (λ r, negb (bool_decide (is_Some (pins s !! sha256 r))) && negb (bool_decide (fingerprint r ∈ retain)) = true) (unreferenced c).
Definition drop_record (f : Str) (c : Catalog) : Catalog := set_records (filter (λ r, fingerprint r ≠ f) (records c)) c.
Fixpoint trim_loop (fuel : nat) (s : Store) (retain : list Str) (c : Catalog) : X Catalog :=
  if bool_decide (length (unreferenced c) ≤ 16)%nat then ret c else
  match fuel with
  | O => diverge
  | S fuel => let* r := some_or (oldest (evictable s retain c)) SlotsPinned in trim_loop fuel s retain (drop_record (fingerprint r) c)
  end.
Definition trim_prepared (candidate : Catalog) (retain : list Str) : X Catalog :=
  let* s := store_of in trim_loop (length (records candidate)) s retain candidate.

(** ** Operations on the selection *)
Fixpoint check_candidates (l : list SourceRecord) (unique : list Str) : X unit :=
  match l with
  | [] => ret tt
  | r :: l =>
      validate_record r;;;
      demand (bool_decide (fingerprint r ∉ unique)) DuplicateCandidate;;;
      let* _ := verified_object r in
      check_candidates l (fingerprint r :: unique)
  end.
Definition merge_records (l : list SourceRecord) (c : Catalog) : Catalog :=
  set_records (filter (λ r, fingerprint r ∉ fingerprint <$> l) (records c) ++ l) c.
(** The first record of the fingerprint. *)
Fixpoint set_status_of (f : Str) (s : SourceStatus) (l : list SourceRecord) : list SourceRecord :=
  match l with
  | [] => []
  | r :: l => if bool_decide (fingerprint r = f) then set_record_status s r :: l else r :: set_status_of f s l
  end.
Definition apply_statuses (statuses : list (Str * SourceStatus)) (c : Catalog) : Catalog :=
  foldl (λ c e, set_records (set_status_of e.1 e.2 (records c)) c) c statuses.
Definition caller_check : X unit := let* t := tick in demand (check_passes env t) Checked.
Definition commit_batch_with_check (l : list SourceRecord) (statuses : list (Str * SourceStatus)) (expected_revision : Z) : X CommitOutcome :=
  certain;;;
  let* s := store_of in
  demand (bool_decide (content_revision (catalog s) = expected_revision)) RevisionConflict;;;
  demand (bool_decide (length l ≤ 16)%nat) TooManyCandidates;;;
  check_candidates l [];;;
  demand (bool_decide (length statuses ≤ 16)%nat) TooManyCandidates;;;
  let* candidate := trim_prepared (apply_statuses statuses (merge_records l (catalog s))) (fingerprint <$> l) in
  commit_selection_with_check candidate caller_check.
Definition set_references (cur prev : list Str) : X CommitOutcome :=
  certain;;;
  validate_references cur;;;
  validate_references prev;;;
  let* s := store_of in
  let* candidate := trim_prepared (set_roots cur prev (catalog s)) [] in
  commit_selection candidate.
Definition record_of (c : Catalog) (f : Str) : option SourceRecord := snd <$> list_find (λ r, fingerprint r = f) (records c).
Definition update_status (f : Str) (st : SourceStatus) : X CommitOutcome :=
  certain;;;
  let* s := store_of in
  let* _ := some_or (record_of (catalog s) f) MaterialMissing in
  commit_catalog (set_records (set_status_of f st (records (catalog s))) (catalog s)).
Definition survivors (s : Store) (now : Z) (pressure : bool) : list SourceRecord :=
  filter (λ r, referenced (catalog s) (fingerprint r) || bool_decide (is_Some (pins s !! sha256 r)) ||
               (negb pressure && bool_decide (saturating_sub now (prepared_at r) < PREPARED_TTL)) = true) (records (catalog s)).
Definition collect (now : Z) (pressure : bool) : X unit :=
  certain;;;
  let* n := disk_bytes in
  demand (bool_decide (n ≤ HARD_LIMIT)) HardLimit;;;
  let* s := store_of in
  let kept := survivors s now pressure in
  if bool_decide (length kept = length (records (catalog s))) then collect_orphans else
  let* candidate := next_revision (set_records kept (catalog s)) in
  let* outcome := commit_catalog candidate in
  if bool_decide (outcome = CommittedUncertain) then ret tt else collect_orphans.
Definition collect_for_download (now : Z) (needs_download : bool) : X unit :=
  collect now false;;;
  (if needs_download then let* space := has_staging_space MAX_OBJECT in if (space : bool) then ret tt else collect now true else ret tt);;;
  certain.
Definition read_prepared (f : Str) (now : Z) : X (option (SourceRecord * list Z)) :=
  let* s := store_of in
  match record_of (catalog s) f with
  | None => ret None
  | Some r =>
      if negb (referenced (catalog s) f) && bool_decide (PREPARED_TTL ≤ saturating_sub now (prepared_at r)) then ret None
      else let* b := verified_object r in ret (Some (r, b))
  end.
Definition verified_record (r : SourceRecord) : X (list Z) := validate_record r;;; verified_object r.
Definition verified_content (f : Str) : X (SourceRecord * list Z) :=
  let* s := store_of in
  let* r := some_or (record_of (catalog s) f) MaterialMissing in
  let* b := verified_object r in ret (r, b).

(** ** Staging and installation *)
Record Staging : Type := mkStaging { st_path : Path; reserved : Z }.
Definition begin_reserved (reserve max : Z) (kind : Str) : X Staging :=
  certain;;;
  let* s := store_of in
  demand (negb (active s)) AlreadyRunning;;;
  demand (bool_decide (1 ≤ reserve ≤ max)) InvalidReservation;;;
  collect_orphans;;;
  certain;;;
  let* space := has_staging_space reserve in
  demand space DiskBudget;;;
  let* t := tick in
  let path := staging_path kind (random_hex env t) in
  create_private path;;;
  modify (set_active true);;;
  ret (mkStaging path reserve).
Definition begin_staging (reserve : Z) : X Staging := begin_reserved reserve MAX_OBJECT (lit "download").
(** Dropping a completed [Staging]. *)
Definition drop_staging (st : Staging) : X unit :=
  let* _ := catch (remove_file (st_path st)) in modify (set_active false).
Definition discard (st : Staging) : X unit := finally (ret tt) (drop_staging st).
Definition prepared_record (m : PreparedMetadata) (now : Z) : SourceRecord :=
  mkSourceRecord (pm_fingerprint m) (pm_sha256 m) (pm_bytes m) (pm_rules m) (pm_validators m) now
    (mkSourceStatus (Some now) None 0 None None).
Definition publish_object (st : Staging) (object : Path) : X unit :=
  rename (st_path st) object;;; sync_dir Objects;;; sync_dir StagingDir.
Definition install_object (st : Staging) (m : PreparedMetadata) (now : Z) : X SourceRecord :=
  finally
    (certain;;;
     let r := prepared_record m now in
     validate_record r;;;
     demand (bool_decide (bytes r ≤ reserved st)) ReservationExceeded;;;
     let* fs := fs_of in
     let* b := some_or (data <$> files fs !! st_path st) Io in
     verify_file b r;;;
     let* b := checked_open (st_path st) in
     let* b := some_or b Io in
     verify_file b r;;;
     sync_all (st_path st);;;
     let object := object_path (sha256 r) in
     let* found := checked_open object in
     match found with
     | Some b =>
         let* ok := catch (verify_file b r) in
         match ok with
         | Some _ => ret r
         | None =>
             let* s := store_of in
             demand (bool_decide (sha256 r ∈ sha256 <$> records (catalog s))) UnownedCorrupt;;;
             publish_object st object;;; ret r
         end
     | None => publish_object st object;;; ret r
     end)
    (drop_staging st).

(** ** Pins *)
Definition pin_key (k : Str) : X unit :=
  let* s := store_of in
  let* n := some_or (checked_add (default 0 (pins s !! k)) 1) PinOverflow in
  modify (set_pins (<[k := n]> (pins s))).
Definition pin (h : Str) : X unit :=
  demand (valid_hash h) InvalidDigest;;;
  let* b := checked_open (object_path h) in
  let* b := some_or b MaterialMissing in
  look;;;
  demand (bool_decide (Z.of_nat (length b) ≤ MAX_OBJECT) && bool_decide (sha256_hex b = h)) DigestMismatch;;;
  pin_key h.
(** Dropping a [WorkPin]. *)
Definition unpin (k : Str) : X unit :=
  let* s := store_of in
  match pins s !! k with
  | Some n => if bool_decide (n = 0) then panic else
              modify (set_pins (if bool_decide (n = 1) then delete k (pins s) else <[k := n - 1]> (pins s)))
  | None => ret tt
  end.

(** ** Derived indexes *)
Definition read_index (digest : Str) (max_bytes : Z) : X (option (list Z)) :=
  demand (valid_hash digest) InvalidDigest;;;
  demand (bool_decide (1 ≤ max_bytes ≤ MAX_INDEX)) InvalidLimit;;;
  let* b := checked_open (index_path digest) in
  match b with
  | None => ret None
  | Some b =>
      demand (bool_decide (Z.of_nat (length b) ≤ max_bytes)) InvalidLimit;;;
      look;;;
      demand (owned_index b digest) IndexOwnership;;;
      ret (Some b)
  end.
Definition pin_index (digest : Str) : X unit :=
  let* b := read_index digest MAX_INDEX in
  let* _ := some_or b MaterialMissing in
  pin_key (lit "index:" ++ digest).
(** [payload]: what the caller's codec writes, if it does not fail. *)
Definition write_index (digest : Str) (max_bytes : Z) (payload : option (list Z)) : X CommitOutcome :=
  demand (valid_hash digest) InvalidDigest;;;
  let* st := begin_reserved max_bytes MAX_INDEX (lit "index") in
  finally
    (let* b := some_or payload WriteFailed in
     demand (bool_decide (Z.of_nat (length b) ≤ max_bytes)) WriteFailed;;;
     write_all (st_path st) b;;;
     look;;;
     demand (owned_index b digest) IndexOwnership;;;
     sync_all (st_path st);;;
     let* _ := checked_open (index_path digest) in
     rename (st_path st) (index_path digest);;;
     let* synced := catch (sync_dir Indexes;;; sync_dir StagingDir) in
     ret (if bool_decide (synced = None) then CommittedUncertain else Durable))
    (drop_staging st).

(** ** Opening and reconciling *)
Definition reconcile_sync : X unit :=
  let* b := checked_open catalog_path in
  let* b := some_or b CatalogMissing in
  let* actual := read_catalog b in
  sync_dir Root;;;
  modify (set_catalog actual);;;
  modify (set_uncertain false).
Definition set_quota (max_disk : Z) : X unit :=
  let* n := disk_bytes in
  demand (bool_decide (n ≤ max_disk)) DiskBudget;;;
  modify (with_quota max_disk).
Definition private_dir (d : Dir) : X unit :=
  let* fs := fs_of in
  if bool_decide (d ∈ subdirs fs) then look else change (add_dir d);;; sync_dir Root.
Definition cleanup_one (d : Dir) (prefix : Str) (name : Str) : X unit :=
  match strip_prefix prefix name ≫= strip_suffix (lit ".tmp") with
  | Some h => if valid_hash h
              then let* b := checked_open (d, name) in match b with Some _ => remove_file (d, name) | None => ret tt end
              else ret tt
  | None => ret tt
  end.
Definition cleanup_staging : X unit :=
  let clean d prefix := let* l := read_dir d in for_each l (cleanup_one d prefix) in
  clean StagingDir (lit "download-");;; clean StagingDir (lit "index-");;; clean Root (lit "catalog-").
(** A first catalog only in a directory that holds nothing but the lock. *)
Definition load_catalog : X Catalog :=
  let* b := checked_open catalog_path in
  match b with
  | Some b => read_catalog b
  | None =>
      let* l := read_dir Root in
      let* fs := fs_of in
      demand (forallb (λ n, bool_decide (n = lit "lock")) l && bool_decide (subdirs fs = [])) CatalogMissing;;;
      ret catalog_default
  end.
Definition open (max_disk : Z) : X unit :=
  let* c := load_catalog in
  modify (λ _, mkStore c max_disk false false ∅);;;
  let* fs := fs_of in
  (if bool_decide (is_Some (files fs !! catalog_path)) then ret tt
   else let* outcome := commit_catalog c in demand (bool_decide (outcome = Durable)) InitialUncertain);;;
  for_each [Objects; StagingDir; Indexes] private_dir;;;
  let* n := disk_bytes in
  demand (bool_decide (n ≤ HARD_LIMIT)) HardLimit;;;
  cleanup_staging;;;
  let* n := disk_bytes in
  demand (bool_decide (n ≤ max_disk)) DiskBudget.
(** The selected catalog, without the lock. *)
Definition read_only : X Catalog :=
  look;;; let* b := checked_open catalog_path in let* b := some_or b MaterialMissing in let* c := read_catalog b in look;;; ret c.
(** [Service::open] and [open_deferred]; [sync_roots] after a late opening. *)
Definition open_with_roots (max_disk : Z) (cur prev : list Str) : X unit :=
  open max_disk;;; let* _ := set_references cur prev in ret tt.
Fixpoint sync_statuses (l : list SourceRecord) : X unit :=
  match l with
  | [] => ret tt
  | r :: l =>
      let* s := store_of in
      (match record_of (catalog s) (fingerprint r) with
       | Some r' => if bool_decide (sha256 r' = sha256 r) && negb (bool_decide (status r' = status r))
                    then let* _ := update_status (fingerprint r) (status r) in ret tt else ret tt
       | None => ret tt
       end);;;
      sync_statuses l
  end.
Definition sync_roots (cur prev : list Str) (max_disk : Z) (statuses : list SourceRecord) : X unit :=
  reconcile_sync;;; (let* _ := set_references cur prev in ret tt);;; set_quota max_disk;;; sync_statuses statuses.
End store.
