(* ===== verification/SourceStoreSteps.v ===== *)
(** * Running the subscription store

    The logic in which [SourceStoreSafe] reasons about the operations of
    [SourceStore]: triples over the disk and the store in memory, the invariant
    of the disk over everything a power failure may leave of it, and one rule per
    step. *)
From S2P Require Import Prelude Std Canonical Radix RadixDisk BlockAnswer Policy Text Release Download SourceStore.
Set Default Goal Selector "!".
Set Warnings "-rewrite-rw".
Local Open Scope Z_scope.
Local Open Scope rust_scope.

(** ** Triples *)
Definition does {A} (fs : Fs) (s : Store) (m : X A) (Q : A → Fs → Store → Prop) (R : StoreError → Fs → Store → Prop) : Prop :=
  ∀ t, wp m (λ a w, Q a (disk w) (store w)) (λ e w, R e (disk w) (store w)) (mkWorld fs s t).
Section triples.
Context {A B : Type}.
Implicit Types (m : X A) (Q : A → Fs → Store → Prop) (R : StoreError → Fs → Store → Prop).
Lemma does_mono fs s m Q Q' R R' : does fs s m Q R → (∀ a f t, Q a f t → Q' a f t) → (∀ e f t, R e f t → R' e f t) → does fs s m Q' R'.
Proof. intros Hm HQ HR t. eapply wp_mono; [| |apply (Hm t)]; simpl; eauto. Qed.
Lemma does_bind fs s m (k : A → X B) Q R (Q' : B → Fs → Store → Prop) :
  does fs s m Q R → (∀ a f t, Q a f t → does f t (k a) Q' R) → does fs s (bind m k) Q' R.
Proof.
  intros Hm Hk t. apply wp_bind. eapply wp_mono; [| |apply (Hm t)]; simpl; [|done].
  intros a [f s' t'] Hq. by apply Hk.
Qed.
Lemma does_ret fs s (a : A) Q R : Q a fs s → does fs s (ret a) Q R.
Proof. intros HQ t. by apply wp_ret. Qed.
Lemma does_refuse fs s r Q R : R (Refused r) fs s → does fs s (refuse r : X A) Q R.
Proof. intros HR t. by apply wp_fail. Qed.
Lemma does_catch fs s m (Q : option A → Fs → Store → Prop) R R1 :
  does fs s m (λ a, Q (Some a)) R1 → (∀ r f t, R1 (Refused r) f t → Q None f t) → (∀ f t, R1 Crashed f t → R Crashed f t) →
  does fs s (catch m) Q R.
Proof.
  intros Hm HQ HR t. specialize (Hm t). unfold wp, catch in *. destruct (m (mkWorld fs s t)) as [[a|[|r]| |] w]; try done.
  - by apply HR.
  - by eapply HQ.
Qed.
Lemma does_finally fs s m d Q R Q1 R1 :
  does fs s m Q1 R1 →
  (∀ f t, R1 Crashed f t → R Crashed f t) →
  (∀ a f t, Q1 a f t → does f t d (λ _, Q a) (λ e f' t', match e with Crashed => R Crashed f' t' | _ => Q a f' t' end)) →
  (∀ r f t, R1 (Refused r) f t →
    does f t d (λ _, R (Refused r)) (λ e f' t', match e with Crashed => R Crashed f' t' | _ => R (Refused r) f' t' end)) →
  does fs s (finally m d) Q R.
Proof.
  intros Hm Hc HQ HR t. specialize (Hm t). unfold wp, finally in *. destruct (m (mkWorld fs s t)) as [[a|[|r]| |] [f s' t']]; simpl in *; try done.
  - specialize (HQ a f s' Hm t'). unfold wp in HQ. by destruct (d _) as [[|[|]| |] [? ? ?]].
  - by apply Hc.
  - specialize (HR r f s' Hm t'). unfold wp in HR. by destruct (d _) as [[|[|]| |] [? ? ?]].
Qed.
End triples.
Lemma does_fs_of fs s (Q : Fs → Fs → Store → Prop) R : Q fs fs s → does fs s fs_of Q R.
Proof. by intros HQ t. Qed.
Lemma does_store_of fs s (Q : Store → Fs → Store → Prop) R : Q s fs s → does fs s store_of Q R.
Proof. by intros HQ t. Qed.
Lemma does_modify fs s f (Q : unit → Fs → Store → Prop) R : Q tt fs (f s) → does fs s (modify f) Q R.
Proof. by intros HQ t. Qed.
Lemma does_tick fs s (Q : nat → Fs → Store → Prop) R : (∀ t, Q t fs s) → does fs s tick Q R.
Proof. intros HQ t. apply HQ. Qed.

(** ** Steps that only look *)
Definition refusal (e : StoreError) : Prop := e ≠ Crashed.
Definition still {A} (fs : Fs) (s : Store) (m : X A) (Q : A → Prop) : Prop :=
  does fs s m (λ a f t, f = fs ∧ t = s ∧ Q a) (λ e f t, refusal e ∧ f = fs ∧ t = s).
Section still.
Context (fs : Fs) (s : Store).
Lemma still_mono {A} (m : X A) (Q Q' : A → Prop) : still fs s m Q → (∀ a, Q a → Q' a) → still fs s m Q'.
Proof. intros Hm HQ. eapply does_mono; [exact Hm| |done]. intros a f t (? & ? & ?). auto. Qed.
Lemma still_ret {A} (a : A) (Q : A → Prop) : Q a → still fs s (ret a) Q.
Proof. intros. by apply does_ret. Qed.
Lemma still_refuse {A} r (Q : A → Prop) : still fs s (refuse r) Q.
Proof. by apply does_refuse. Qed.
Lemma still_bind {A B} (m : X A) (k : A → X B) (Q : A → Prop) (Q' : B → Prop) :
  still fs s m Q → (∀ a, Q a → still fs s (k a) Q') → still fs s (bind m k) Q'.
Proof. intros Hm Hk. eapply does_bind; [exact Hm|]. intros a f t (-> & -> & Ha). by apply Hk. Qed.
(** A look, then anything. *)
Lemma does_quiet {A B} (m : X A) (k : A → X B) (Q : A → Prop) (Q' : B → Fs → Store → Prop) R :
  still fs s m Q → (∀ e, refusal e → R e fs s) → (∀ a, Q a → does fs s (k a) Q' R) → does fs s (bind m k) Q' R.
Proof.
  intros Hm HR Hk. eapply does_bind.
  - eapply does_mono; [exact Hm|exact (λ a f t H, H)|]. intros e f t (He & -> & ->). by apply HR.
  - intros a f t (-> & -> & Ha). by apply Hk.
Qed.
Lemma still_demand b r (Q : unit → Prop) : (b = true → Q tt) → still fs s (demand b r) Q.
Proof. intros HQ. destruct b; [apply still_ret; auto|apply still_refuse]. Qed.
Lemma still_some {A} (o : option A) r (Q : A → Prop) : (∀ a, o = Some a → Q a) → still fs s (some_or o r) Q.
Proof. intros HQ. destruct o; [apply still_ret; auto|apply still_refuse]. Qed.
Lemma still_fs (Q : Fs → Prop) : Q fs → still fs s fs_of Q.
Proof. intros HQ. by apply does_fs_of. Qed.
Lemma still_store (Q : Store → Prop) : Q s → still fs s store_of Q.
Proof. intros HQ. by apply does_store_of. Qed.
Lemma still_tick (Q : nat → Prop) : (∀ t, Q t) → still fs s tick Q.
Proof. intros HQ. by apply does_tick. Qed.
Lemma still_catch {A} (m : X A) (Q : A → Prop) (Q' : option A → Prop) : still fs s m Q → (∀ a, Q a → Q' (Some a)) → Q' None → still fs s (catch m) Q'.
Proof.
  intros Hm HQ HN. eapply does_catch; [eapply does_mono; [exact Hm| |exact (λ e f t H, H)]| |]; simpl.
  - intros a f t (-> & -> & ?). auto.
  - intros r f t (_ & -> & ->). auto.
  - by intros f t [[] _].
Qed.
End still.

Section looks.
Context `{WebLib} `{StoreLib} (env : Env) (fs : Fs) (s : Store).
Lemma still_look (Q : unit → Prop) : Q tt → still fs s (look env) Q.
Proof.
  intros HQ. eapply (still_bind _ _ _ _ (λ _, True)); [by apply still_tick|]. intros t _.
  destruct (failing env t); [apply still_refuse|by apply still_ret].
Qed.
Lemma still_open p (Q : option (list Z) → Prop) : Q (data <$> files fs !! p) → still fs s (checked_open env p) Q.
Proof.
  intros HQ. eapply (still_bind _ _ _ _ (λ _, True)); [by apply still_look|]. intros _ _.
  eapply (still_bind _ _ _ _ (λ f, f = fs)); [by apply still_fs|]. intros f ->. by apply still_ret.
Qed.
Lemma still_read_dir d (Q : list Str → Prop) : (∀ l, Q l) → still fs s (read_dir env d) Q.
Proof.
  intros HQ. eapply (still_bind _ _ _ _ (λ _, True)); [by apply still_look|]. intros _ _.
  eapply (still_bind _ _ _ _ (λ _, True)); [by apply still_tick|]. intros t _.
  eapply (still_bind _ _ _ _ (λ _, True)); [by apply still_fs|]. intros f _. by apply still_ret.
Qed.
Lemma still_disk_bytes (Q : Z → Prop) : (∀ n, Q n) → still fs s (disk_bytes env) Q.
Proof.
  intros HQ. eapply (still_bind _ _ _ _ (λ _, True)); [by apply still_look|]. intros _ _.
  eapply (still_bind _ _ _ _ (λ _, True)); [by apply still_fs|]. intros f _.
  eapply (still_bind _ _ _ _ (λ _, True)); [by apply still_demand|]. intros _ _. apply still_some. auto.
Qed.
Lemma still_space n (Q : bool → Prop) : (∀ b, Q b) → still fs s (has_staging_space env n) Q.
Proof.
  intros HQ. eapply (still_bind _ _ _ _ (λ _, True)); [by apply still_disk_bytes|]. intros b _.
  eapply (still_bind _ _ _ _ (λ _, True)); [by apply still_store|]. intros t _. by apply still_ret.
Qed.
Lemma still_certain (Q : unit → Prop) : (uncertain s = false → Q tt) → still fs s certain Q.
Proof.
  intros HQ. eapply (still_bind _ _ _ _ (λ t, t = s)); [by apply still_store|]. intros t ->.
  apply still_demand. intros Hu. apply HQ. by destruct (uncertain s).
Qed.
Lemma still_verify b r (Q : unit → Prop) : (verifies b r = true → Q tt) → still fs s (verify_file env b r) Q.
Proof.
  intros HQ. eapply (still_bind _ _ _ _ (λ _, bool_decide (Z.of_nat (length b) = bytes r) = true)); [by apply still_demand|]. intros _ Hl.
  eapply (still_bind _ _ _ _ (λ _, True)); [by apply still_look|]. intros _ _.
  apply still_demand. intros Hd. apply HQ. by rewrite /verifies Hl.
Qed.
Lemma still_verified r (Q : list Z → Prop) :
  (∀ f, files fs !! object_path (sha256 r) = Some f → verifies (data f) r = true → Q (data f)) → still fs s (verified_object env r) Q.
Proof.
  intros HQ. eapply (still_bind _ _ _ _ (λ b, b = data <$> files fs !! object_path (sha256 r))); [by apply still_open|]. intros b ->.
  eapply (still_bind _ _ _ _ (λ b, ∃ f, files fs !! object_path (sha256 r) = Some f ∧ b = data f)).
  { apply still_some. intros b (f & -> & Hf)%fmap_Some. eauto. }
  intros b (f & Hf & ->).
  eapply (still_bind _ _ _ _ (λ _, verifies (data f) r = true)); [by apply still_verify|]. intros _ Hv. apply still_ret. eauto.
Qed.

(** *** Validation *)
Definition catalog_valid (c : Catalog) : bool :=
  bool_decide (schema c = 1) && bool_decide (length (records c) ≤ 48)%nat && bool_decide (length (current c) ≤ 16)%nat &&
  bool_decide (length (previous c) ≤ 16)%nat && bool_decide (length (unreferenced c) ≤ 16)%nat && forallb record_valid (records c) &&
  bool_decide (NoDup (fingerprint <$> records c)) && references_valid (current c) && references_valid (previous c).
Lemma still_record r (Q : unit → Prop) : (record_valid r = true → Q tt) → still fs s (validate_record env r) Q.
Proof.
  intros HQ. eapply (still_bind _ _ _ _ (λ _, record_valid r = true)); [by apply still_demand|]. intros _ Hv.
  eapply (still_bind _ _ _ _ (λ _, True)); [by apply still_tick|]. intros t _. apply still_demand. auto.
Qed.
Lemma still_records l u (Q : unit → Prop) :
  (forallb record_valid l = true → NoDup (fingerprint <$> l) → (∀ r, r ∈ l → fingerprint r ∉ u) → Q tt) → still fs s (validate_records env l u) Q.
Proof.
  revert u Q. induction l as [|r l IH]; intros u Q HQ; simpl.
  { apply still_ret. apply HQ; [done|constructor|]. intros r Hr. by apply not_elem_of_nil in Hr. }
  eapply (still_bind _ _ _ _ (λ _, record_valid r = true)); [by apply still_record|]. intros _ Hv.
  eapply (still_bind _ _ _ _ (λ _, fingerprint r ∉ u)); [apply still_demand; by intros Hu%bool_decide_eq_true|]. intros _ Hu.
  apply IH. intros Hl Hn Hd. apply HQ.
  - by rewrite /= Hv.
  - apply NoDup_cons. split; [|done]. intros (r' & Hf & Hr')%list_elem_of_fmap. apply (Hd r' Hr'). rewrite -Hf. set_solver.
  - intros r' [->|Hr']%elem_of_cons; [done|]. specialize (Hd r' Hr'). set_solver.
Qed.
Lemma still_references l (Q : unit → Prop) : (references_valid l = true → Q tt) → still fs s (validate_references l) Q.
Proof. apply still_demand. Qed.
Lemma still_catalog c (Q : unit → Prop) : (catalog_valid c = true → Q tt) → still fs s (validate_catalog env c) Q.
Proof.
  intros HQ. unfold validate_catalog, catalog_valid in *.
  match goal with |- still _ _ (bind (demand ?b _) _) _ => set (bd := b) in *; eapply (still_bind _ _ _ _ (λ _, bd = true)) end.
  { by apply still_demand. }
  intros _ Hb.
  eapply (still_bind _ _ _ _ (λ _, forallb record_valid (records c) = true ∧ NoDup (fingerprint <$> records c))); [by apply still_records|]. intros _ [Hr Hn].
  eapply (still_bind _ _ _ _ (λ _, references_valid (current c) = true)); [by apply still_references|]. intros _ Hc.
  eapply (still_bind _ _ _ _ (λ _, references_valid (previous c) = true)); [by apply still_references|]. intros _ Hp.
  eapply (still_bind _ _ _ _ (λ _, True)); [by apply still_tick|]. intros t _. apply still_demand. intros _. apply HQ.
  by rewrite Hb Hr Hc Hp bool_decide_true.
Qed.
Lemma still_read_catalog b (Q : Catalog → Prop) :
  (∀ c, decode_catalog b = Some c → Z.of_nat (length b) ≤ MAX_CATALOG → catalog_valid c = true → Q c) → still fs s (read_catalog env b) Q.
Proof.
  intros HQ. eapply (still_bind _ _ _ _ (λ _, Z.of_nat (length b) ≤ MAX_CATALOG)); [apply still_demand; by intros Hl%bool_decide_eq_true|]. intros _ Hl.
  eapply (still_bind _ _ _ _ (λ _, True)); [by apply still_look|]. intros _ _.
  eapply (still_bind _ _ _ _ (λ c, decode_catalog b = Some c)); [by apply still_some|]. intros c Hc.
  eapply (still_bind _ _ _ _ (λ _, catalog_valid c = true)); [by apply still_catalog|]. intros _ Hv. apply still_ret. auto.
Qed.
End looks.

(** ** Sound disks *)
(** What may be at [p] after a power failure. *)
Definition possible (fs : Fs) (p : Path) (v : option File) : Prop := v = files fs !! p ∨ v ∈ default [] (older fs !! p).
Definition settled (fs : Fs) (p : Path) : Prop := older fs !! p = None.
(** The object [h] is there whatever happens. *)
Definition sure (fs : Fs) (h : Str) : Prop := ∀ v, possible fs (object_path h) v → is_Some v.
Definition steady (fs : Fs) : Prop := ∀ h, valid_hash h = true → is_Some (files fs !! object_path h) → sure fs h.
Definition watched (p : Path) : Prop := p = catalog_path ∨ p.1 = Objects.
(** [fs'] is [fs] where it matters, with some directories synchronized. *)
Definition narrows (fs fs' : Fs) : Prop :=
  ∀ p, watched p → files fs' !! p = files fs !! p ∧ (older fs' !! p = older fs !! p ∨ older fs' !! p = None).
#[global] Instance narrows_preorder : PreOrder narrows.
Proof.
  split; [by intros fs p _; split; [|left]|]. intros f1 f2 f3 H12 H23 p Hp.
  destruct (H12 p Hp) as [E2 [H2|H2]], (H23 p Hp) as [E3 [H3|H3]]; (split; [congruence|]); first [left; congruence|right; congruence].
Qed.
Lemma narrows_possible fs fs' p v : watched p → narrows fs fs' → possible fs' p v → possible fs p v.
Proof.
  intros Hp Hn [->|Hv]; destruct (Hn p Hp) as [Hf [Ho|Ho]]; [by left; rewrite Hf..| |].
  - right. by rewrite -Ho.
  - rewrite Ho in Hv. by apply not_elem_of_nil in Hv.
Qed.
Lemma watched_catalog : watched catalog_path.
Proof. by left. Qed.
Lemma watched_object h : watched (object_path h).
Proof. by right. Qed.
Lemma narrows_settled fs fs' p : watched p → narrows fs fs' → settled fs p → settled fs' p.
Proof. unfold settled. intros Hp Hn Hs. destruct (Hn p Hp) as [_ [->|]]; done. Qed.
Lemma narrows_sure fs fs' h : narrows fs fs' → sure fs h → sure fs' h.
Proof. intros Hn Hs v Hv. eapply Hs, narrows_possible; eauto using watched_object. Qed.
Lemma narrows_steady fs fs' : narrows fs fs' → steady fs → steady fs'.
Proof. intros Hn Hs h Hh Hf. eapply narrows_sure; [done|]. apply Hs; [done|]. by rewrite -(proj1 (Hn _ (watched_object h))). Qed.

Lemma narrows_put p v fs : ¬ watched p → narrows fs (put_file p v fs).
Proof.
  intros Hp q Hq. assert (q ≠ p) by congruence. split; [|left]; simpl.
  - by rewrite lookup_partial_alter_ne.
  - by rewrite lookup_insert_ne.
Qed.
Lemma narrows_data p d b fs : ¬ watched p → narrows fs (set_data p d b fs).
Proof. intros Hp q Hq. split; [|by left]. simpl. rewrite lookup_alter_ne //. congruence. Qed.
Lemma narrows_safe p fs : ¬ watched p → narrows fs (make_safe p fs).
Proof. intros Hp q Hq. split; [|by left]. simpl. rewrite lookup_alter_ne //. congruence. Qed.
Lemma narrows_dir d fs : narrows fs (add_dir d fs).
Proof. intros p _. split; [|left]; done. Qed.
Lemma narrows_settle d fs : narrows fs (settle d fs).
Proof.
  intros p _. split; [done|]. destruct (decide (p.1 = d)) as [Hd|Hd]; [right|left]; simpl.
  - apply map_lookup_filter_None. right. intros l _ Hn. by apply Hn.
  - destruct (older fs !! p) as [l|] eqn:Hl; [by apply map_lookup_filter_Some|]. apply map_lookup_filter_None. by left.
Qed.
Lemma settle_settled d fs p : p.1 = d → settled (settle d fs) p.
Proof. intros Hd. apply map_lookup_filter_None. right. intros l _ Hn. by apply Hn. Qed.
Lemma settled_possible fs p v : settled fs p → possible fs p v → v = files fs !! p.
Proof. unfold settled. intros Hs [->|Hv]; [done|]. rewrite Hs in Hv. by apply not_elem_of_nil in Hv. Qed.
Lemma settle_steady fs : steady (settle Objects fs).
Proof. intros h _ Hf v Hv. apply settled_possible in Hv as ->; [done|]. by apply settle_settled. Qed.
Lemma possible_put p v fs q w' : possible (put_file p v fs) q w' ↔ (if bool_decide (q = p) then w' = v ∨ possible fs p w' else possible fs q w').
Proof.
  unfold possible. simpl. case_bool_decide as Hq.
  - subst q. rewrite lookup_partial_alter_eq lookup_insert_eq /=. rewrite elem_of_cons. tauto.
  - by rewrite lookup_partial_alter_ne // lookup_insert_ne.
Qed.
Lemma possible_put_ne p v fs q w' : q ≠ p → possible (put_file p v fs) q w' ↔ possible fs q w'.
Proof. intros Hq. by rewrite possible_put bool_decide_false. Qed.
Lemma object_path_inj h h' : object_path h = object_path h' → h = h'.
Proof. unfold object_path. intros [= Hh]. by apply app_inv_tail in Hh. Qed.
Lemma object_catalog h : object_path h ≠ catalog_path.
Proof. done. Qed.
Lemma temporary_aside h : ¬ watched (temporary_path h).
Proof.
  intros [Hc|Hc]; [|done]. unfold temporary_path, catalog_path in Hc. apply (f_equal snd) in Hc. simpl in Hc.
  apply (f_equal (λ l, l !! 7%nat)) in Hc. vm_compute in Hc. done.
Qed.
Lemma staging_aside p : p.1 = StagingDir → ¬ watched p.
Proof. destruct p as [d n]. simpl. intros -> [Hc|Hc]; done. Qed.
Lemma index_aside n : ¬ watched (Indexes, n).
Proof. intros [Hc|Hc]; done. Qed.

Section sound.
Context `{WebLib} `{StoreLib}.
Definition catalog_sound (fs : Fs) (c : Catalog) : Prop := catalog_valid c = true ∧ ∀ r, r ∈ records c → sure fs (sha256 r).
Record disk_sound (fs : Fs) : Prop := {
  ds_catalog f : possible fs catalog_path (Some f) →
    safe f = true ∧ Z.of_nat (length (data f)) ≤ MAX_CATALOG ∧ ∃ c, decode_catalog (data f) = Some c ∧ catalog_sound fs c;
  ds_object h f : valid_hash h = true → possible fs (object_path h) (Some f) →
    safe f = true ∧ Z.of_nat (length (data f)) ≤ MAX_OBJECT ∧ sha256_hex (data f) = h;
}.
Record store_sound (fs : Fs) (s : Store) : Prop := {
  ss_catalog : ∃ f, files fs !! catalog_path = Some f ∧ decode_catalog (data f) = Some (catalog s);
  ss_pins h n : pins s !! h = Some n → 1 ≤ n ∧ (valid_hash h = true → sure fs h);
}.
(** [held]: without a catalog, as when the first one is about to be written. *)
Record held (fs : Fs) (s : Store) : Prop := {
  h_disk : disk_sound fs;
  h_pins h n : pins s !! h = Some n → 1 ≤ n ∧ (valid_hash h = true → sure fs h);
  h_active : active s = true → steady fs;
}.
Record base (fs : Fs) (s : Store) : Prop := {
  b_disk : disk_sound fs;
  b_store : store_sound fs s;
  b_active : active s = true → steady fs;
}.
Record good (fs : Fs) (s : Store) : Prop := {
  g_base : base fs s;
  g_certain : uncertain s = false → settled fs catalog_path;
}.
Lemma disk_sound_narrows fs fs' : narrows fs fs' → disk_sound fs → disk_sound fs'.
Proof.
  intros Hn [Hc Ho]. split.
  - intros f Hf. destruct (Hc f) as (? & ? & c & ? & ? & ?); [by eapply narrows_possible; [apply watched_catalog| |]|].
    split; [done|]. split; [done|]. exists c. split; [done|]. split; [done|]. eauto using narrows_sure.
  - intros h f Hh Hf. apply Ho; [done|]. by eapply narrows_possible; [apply watched_object| |].
Qed.
Lemma base_narrows fs fs' s : narrows fs fs' → base fs s → base fs' s.
Proof.
  intros Hn [Hd [[f [Hf Hc]] Hp] Ha]. split; [by eapply disk_sound_narrows| |eauto using narrows_steady]. split.
  - exists f. by rewrite (proj1 (Hn _ watched_catalog)).
  - intros h n Hh. destruct (Hp h n Hh). split; [done|]. eauto using narrows_sure.
Qed.
Lemma base_held fs s : base fs s → held fs s.
Proof. intros [Hd [_ Hp] Ha]. done. Qed.
Lemma held_narrows fs fs' s : narrows fs fs' → held fs s → held fs' s.
Proof.
  intros Hn [Hd Hp Ha]. split; [by eapply disk_sound_narrows| |eauto using narrows_steady].
  intros h n Hh. destruct (Hp h n Hh). split; [done|]. eauto using narrows_sure.
Qed.
Lemma good_narrows fs fs' s : narrows fs fs' → good fs s → good fs' s.
Proof. intros Hn [Hb Hc]. split; [by eapply base_narrows|]. eauto using narrows_settled, watched_catalog. Qed.
(** What the store keeps is sure. *)
Lemma selected_sure fs s r : base fs s → r ∈ records (catalog s) → sure fs (sha256 r).
Proof.
  intros [[Hc _] [[f [Hf Hd]] _] _] Hr. destruct (Hc f) as (_ & _ & c & Hc' & _ & Hs); [by left|].
  rewrite Hd in Hc'. injection Hc' as <-. by apply Hs.
Qed.
Lemma keeps_sure fs s h : base fs s → valid_hash h = true → keeps s h = true → sure fs h.
Proof.
  intros Hb Hh [Hk|Hk]%orb_prop; apply bool_decide_eq_true in Hk.
  - apply list_elem_of_fmap in Hk as (r & -> & Hr). by eapply selected_sure.
  - destruct Hk as [n Hn]. by apply (ss_pins _ _ (b_store _ _ Hb) h n Hn).
Qed.

(** An object is replaced by another of its digest, or put where none was. *)
Lemma put_object_sound fs h f :
  valid_hash h = true → safe f = true → Z.of_nat (length (data f)) ≤ MAX_OBJECT → sha256_hex (data f) = h →
  disk_sound fs → disk_sound (put_file (object_path h) (Some f) fs).
Proof.
  intros Hh Hs Hl Hx [Hc Ho]. split.
  - intros f' Hf. rewrite possible_put_ne in Hf; [|done]. destruct (Hc f' Hf) as (? & ? & c & ? & ? & Hr).
    split; [done|]. split; [done|]. exists c. split; [done|]. split; [done|]. intros r Hr' v Hv. rewrite possible_put in Hv.
    case_bool_decide; [|by eapply Hr]. destruct Hv as [->|Hv]; [done|]. eapply Hr; [done|]. congruence.
  - intros h' f' Hh' Hf. rewrite possible_put in Hf. case_bool_decide as Hp; [|by apply Ho].
    apply object_path_inj in Hp as ->. destruct Hf as [[= ->]|Hf]; [done|]. by apply Ho.
Qed.
Lemma put_object_sure fs h f h' : sure fs h' → sure (put_file (object_path h) (Some f) fs) h'.
Proof. intros Hs v Hv. rewrite possible_put in Hv. case_bool_decide; [|by apply Hs]. destruct Hv as [->|Hv]; [done|]. apply Hs. congruence. Qed.
Lemma put_object_store fs s h f : store_sound fs s → store_sound (put_file (object_path h) (Some f) fs) s.
Proof.
  intros [[g [Hg Hc]] Hp]. split.
  - exists g. split; [|done]. simpl. by rewrite lookup_partial_alter_ne.
  - intros h' n Hn. destruct (Hp h' n Hn). split; [done|]. eauto using put_object_sure.
Qed.
(** An object that nothing keeps is removed. *)
Lemma remove_object_sound fs s h :
  valid_hash h = true → keeps s h = false → settled fs catalog_path → base fs s → base (put_file (object_path h) None fs) s.
Proof.
  intros Hh Hk Hset Hb. apply orb_false_elim in Hk as [Hk1 Hk2]. apply bool_decide_eq_false in Hk1, Hk2.
  assert (∀ h', h' ≠ h → sure fs h' → sure (put_file (object_path h) None fs) h') as Hsure.
  { intros h' Hne Hs v Hv. rewrite possible_put_ne in Hv; [by apply Hs|]. by intros ?%object_path_inj. }
  destruct Hb as [[Hc Ho] [[g [Hg Hgc]] Hp] Ha]. split; [split|split|].
  - intros f Hf. rewrite possible_put_ne in Hf; [|done]. pose proof (settled_possible _ _ _ Hset Hf) as Hf'. rewrite Hg in Hf'. injection Hf' as ->.
    destruct (Hc g Hf) as (? & ? & c & Hd & ? & Hr). split; [done|]. split; [done|]. exists c. split; [done|]. split; [done|].
    rewrite Hgc in Hd. injection Hd as <-. intros r Hr'. apply Hsure; [|by apply Hr]. intros Heq. apply Hk1, list_elem_of_fmap. exists r. by rewrite Heq.
  - intros h' f Hh' Hf. rewrite possible_put in Hf. case_bool_decide as He; [|by apply Ho]. destruct Hf as [|Hf]; [done|].
    apply object_path_inj in He as ->. by apply Ho.
  - exists g. split; [|done]. simpl. by rewrite lookup_partial_alter_ne.
  - intros h' n Hn. destruct (Hp h' n Hn) as [? Hs]. split; [done|]. intros Hv. apply Hsure; [|by apply Hs]. intros ->. apply Hk2. eauto.
  - intros Hact h' Hh' Hf. simpl in Hf. destruct (decide (h' = h)) as [->|Hne].
    + rewrite lookup_partial_alter_eq in Hf. by destruct Hf.
    + apply Hsure; [done|]. apply (Ha Hact); [done|]. rewrite lookup_partial_alter_ne in Hf; [done|]. by intros ?%object_path_inj.
Qed.
(** The catalog is replaced. *)
Lemma put_catalog_sound fs s c f :
  safe f = true → decode_catalog (data f) = Some c → Z.of_nat (length (data f)) ≤ MAX_CATALOG → catalog_sound fs c →
  held fs s → base (put_file catalog_path (Some f) fs) (set_catalog c s).
Proof.
  intros Hs Hd Hl [Hv Hr] [[Hc Ho] Hp Ha].
  assert (∀ h, sure fs h → sure (put_file catalog_path (Some f) fs) h) as Hsure.
  { intros h Hh v Hv'. rewrite possible_put_ne in Hv'; [by apply Hh|done]. }
  split; [split|split|].
  - intros f' Hf. rewrite possible_put bool_decide_true in Hf; [|done]. destruct Hf as [[= ->]|Hf].
    + split; [done|]. split; [done|]. exists c. split; [done|]. split; [done|]. auto.
    + destruct (Hc f' Hf) as (? & ? & c' & ? & ? & ?). split; [done|]. split; [done|]. exists c'. split; [done|]. split; [done|]. auto.
  - intros h f' Hh Hf. rewrite possible_put_ne in Hf; [|done]. by apply Ho.
  - exists f. split; [|done]. simpl. by rewrite lookup_partial_alter_eq.
  - intros h n Hn. destruct (Hp h n Hn). split; [done|]. auto.
  - intros Hact h Hh Hf. apply Hsure, (Ha Hact); [done|]. simpl in Hf. by rewrite lookup_partial_alter_ne in Hf.
Qed.
End sound.

(** ** Changes *)
Lemma does_change env fs s f (Q : unit → Fs → Store → Prop) (R : StoreError → Fs → Store → Prop) :
  Q tt (f fs) s → (∀ e, R e fs s) → R Crashed (f fs) s → does fs s (change env f) Q R.
Proof. intros HQ HR HC t. unfold wp, change. simpl. destruct (fault env t) as [[|[|]]|]; simpl; auto. Qed.
(** A step that leaves the watched files and the store as they are. *)
Definition aside {A} (fs : Fs) (s : Store) (m : X A) (Q : A → Fs → Prop) : Prop :=
  does fs s m (λ a f t, narrows fs f ∧ t = s ∧ Q a f) (λ e f t, narrows fs f ∧ t = s).
Section aside.
Context `{WebLib} `{StoreLib} (env : Env).
Lemma still_aside {A} fs s (m : X A) (Q : A → Prop) (Q' : A → Fs → Prop) : still fs s m Q → (∀ a, Q a → Q' a fs) → aside fs s m Q'.
Proof. intros Hm HQ. eapply does_mono; [exact Hm| |]; simpl; [intros a f t (-> & -> & Ha)|intros e f t (_ & -> & ->)]; (split; [reflexivity|auto]). Qed.
Lemma aside_bind {A B} fs s (m : X A) (k : A → X B) (Q : A → Fs → Prop) (Q' : B → Fs → Prop) :
  aside fs s m Q → (∀ a f, narrows fs f → Q a f → aside f s (k a) Q') → aside fs s (bind m k) Q'.
Proof.
  intros Hm Hk. eapply does_bind; [exact Hm|]. intros a f t (Hn & -> & Ha). eapply does_mono; [by apply Hk|..]; simpl.
  - intros b f' t' (Hn' & -> & Hb). split; [by etrans|done].
  - intros e f' t' (Hn' & ->). split; [by etrans|done].
Qed.
Lemma does_aside {A B} fs s (m : X A) (k : A → X B) (Q : A → Fs → Prop) (Q' : B → Fs → Store → Prop) R :
  aside fs s m Q → (∀ e f, narrows fs f → R e f s) → (∀ a f, narrows fs f → Q a f → does f s (k a) Q' R) → does fs s (bind m k) Q' R.
Proof.
  intros Hm HR Hk. eapply does_bind.
  - eapply does_mono; [exact Hm|exact (λ a f t H, H)|]. intros e f t [Hn ->]. by apply HR.
  - intros a f t (Hn & -> & Ha). by apply Hk.
Qed.
Lemma aside_ret {A} fs s (a : A) (Q : A → Fs → Prop) : Q a fs → aside fs s (ret a) Q.
Proof. intros HQ. by apply does_ret. Qed.
Lemma aside_change fs s f (Q : unit → Fs → Prop) : narrows fs (f fs) → Q tt (f fs) → aside fs s (change env f) Q.
Proof. intros Hn HQ. by apply does_change. Qed.
(** A caught error is an outcome; a crash is not caught. *)
Lemma caught_aside {A} fs s (m : X A) (Q : A → Fs → Prop) (Q' : option A → Fs → Prop) :
  aside fs s m Q → (∀ a f, Q a f → Q' (Some a) f) → (∀ f, Q' None f) →
  does fs s (catch m) (λ o f t, narrows fs f ∧ t = s ∧ Q' o f) (λ e f t, e = Crashed ∧ narrows fs f ∧ t = s).
Proof.
  intros Hm HQ HN. eapply does_catch; [eapply does_mono; [exact Hm| |exact (λ e f t H, H)]| |]; simpl.
  - intros a f t (? & ? & ?). auto.
  - intros r f t (? & ?). auto.
  - intros f t (? & ?). auto.
Qed.
Lemma aside_catch {A} fs s (m : X A) (Q : A → Fs → Prop) (Q' : option A → Fs → Prop) :
  aside fs s m Q → (∀ a f, Q a f → Q' (Some a) f) → (∀ f, Q' None f) → aside fs s (catch m) Q'.
Proof. intros Hm HQ HN. eapply does_mono; [by eapply caught_aside|done|]. by intros e f t (_ & ? & ?). Qed.
Lemma aside_remove fs s p (Q : unit → Fs → Prop) : ¬ watched p → (∀ f, Q tt f) → aside fs s (remove_file env p) Q.
Proof.
  intros Hp HQ. eapply aside_bind; [by apply (still_aside _ _ _ (λ f, f = fs) (λ f _, f = fs)); [apply still_fs|]|].
  intros f f' _ ->. destruct (files fs !! p); [|by apply (still_aside _ _ _ (λ _, False)); [apply still_refuse|]].
  apply aside_change; [|done]. by apply narrows_put.
Qed.
Lemma aside_create fs s p (Q : unit → Fs → Prop) : ¬ watched p → (∀ f, is_Some (files f !! p) → Q tt f) → aside fs s (create_private env p) Q.
Proof.
  intros Hp HQ. eapply aside_bind; [by apply (still_aside _ _ _ (λ f, f = fs) (λ f _, f = fs)); [apply still_fs|]|].
  intros f f' _ ->. eapply aside_bind; [by apply (still_aside _ _ _ (λ _, True) (λ _ _, True)); [apply still_demand|]|].
  intros _ f1 _ _. apply aside_change; [by apply narrows_put|]. apply HQ. simpl. by rewrite lookup_partial_alter_eq.
Qed.
Lemma aside_write fs s p b (Q : unit → Fs → Prop) :
  ¬ watched p → is_Some (files fs !! p) → (∀ f, files f !! p = Some (mkFile b false) → Q tt f) → aside fs s (write_all env p b) Q.
Proof.
  intros Hp Hf HQ. eapply aside_bind; [by apply (still_aside _ _ _ (λ _, True) (λ _ f, f = fs)); [apply still_tick|]|].
  intros t f _ ->. eapply (aside_bind _ _ _ _ (λ _ f, is_Some (files f !! p))).
  { intros t'. unfold wp. simpl. split; [by apply narrows_data|]. split; [done|]. rewrite lookup_alter_eq. by destruct Hf as [? ->]. }
  intros _ f _ [g Hg]. apply aside_change; [by apply narrows_data|]. apply HQ. simpl. by rewrite lookup_alter_eq Hg.
Qed.
Lemma aside_sync fs s p g (Q : unit → Fs → Prop) :
  ¬ watched p → files fs !! p = Some g → (∀ f, files f !! p = Some (mkFile (data g) true) → Q tt f) → aside fs s (sync_all env p) Q.
Proof. intros Hp Hg HQ. apply aside_change; [by apply narrows_safe|]. apply HQ. simpl. by rewrite lookup_alter_eq Hg. Qed.
Lemma aside_sync_dir fs s d (Q : unit → Fs → Prop) : Q tt (settle d fs) → aside fs s (sync_dir env d) Q.
Proof. intros HQ. apply aside_change; [apply narrows_settle|done]. Qed.
Lemma aside_for_each {A} fs s (l : list A) (f : A → X unit) :
  (∀ a fs, a ∈ l → aside fs s (f a) (λ _ _, True)) → aside fs s (for_each l f) (λ _ _, True).
Proof.
  revert fs. induction l as [|a l IH]; intros fs Hf; simpl; [by apply aside_ret|].
  eapply aside_bind; [apply Hf; set_solver|]. intros _ f' _ _. apply IH. intros. apply Hf. set_solver.
Qed.
(** [rename] to a file that matters. *)
Lemma does_rename fs s a b g (Q : unit → Fs → Store → Prop) (R : StoreError → Fs → Store → Prop) :
  files fs !! a = Some g → (let f := put_file a None (put_file b (Some g) fs) in Q tt f s ∧ R Crashed f s) → (∀ e, R e fs s) →
  does fs s (rename env a b) Q R.
Proof.
  intros Ha [HQ HC] HR. eapply does_bind; [by apply (does_fs_of _ _ (λ f f' t, f = fs ∧ f' = fs ∧ t = s))|].
  intros ? ? ? (-> & -> & ->). rewrite Ha. by apply does_change.
Qed.
Lemma aside_rename fs s a b (Q : unit → Fs → Prop) : ¬ watched a → ¬ watched b → (∀ f, Q tt f) → aside fs s (rename env a b) Q.
Proof.
  intros Ha Hb HQ. destruct (files fs !! a) as [g|] eqn:Hg.
  - eapply does_rename; [done| |done]. assert (narrows fs (put_file a None (put_file b (Some g) fs))) by (etrans; by apply narrows_put). done.
  - eapply aside_bind; [by apply (still_aside _ _ _ (λ f, f = fs) (λ f _, f = fs)); [apply still_fs|]|].
    intros f f' _ ->. rewrite Hg. by apply (still_aside _ _ _ (λ _, False)); [apply still_refuse|].
Qed.
Lemma aside_finally {A} fs s (m : X A) d (Q : A → Fs → Prop) :
  aside fs s m (λ a _, ∀ f, Q a f) → (∀ f, aside f s d (λ _ _, True)) → aside fs s (finally m d) Q.
Proof.
  intros Hm Hd. eapply does_finally; [exact Hm|done|..]; simpl.
  - intros a f t (Hn & -> & HQ). eapply does_mono; [apply Hd|..]; simpl.
    + intros _ f' t' (Hn' & -> & _). split; [by etrans|done].
    + intros [] f' t' (Hn' & ->); (split; [by etrans|done]).
  - intros r f t (Hn & ->). eapply does_mono; [apply Hd|..]; simpl.
    + intros _ f' t' (Hn' & -> & _). split; [by etrans|done].
    + intros [] f' t' (Hn' & ->); (split; [by etrans|done]).
Qed.
End aside.
