(* ===== verification/SourceStoreSafe.v ===== *)
(** * Safety of the subscription store

    What the operations of [SourceStore] promise: the catalog that a crash or a
    power failure leaves on the disk names only objects that are there and whole,
    and a commit replaces the selection as a whole or not at all. *)
From S2P Require Import Prelude Std Canonical Radix RadixDisk BlockAnswer Policy Text Release Download SourceStore SourceStoreSteps.
Set Default Goal Selector "!".
Set Warnings "-rewrite-rw".
Local Open Scope Z_scope.
Local Open Scope rust_scope.

Section operations.
Context `{WebLib} `{StoreSpec} (env : Env).
(** An operation that errs leaves a good disk and store, a crash a sound disk. *)
Definition bad (e : StoreError) (fs : Fs) (s : Store) : Prop := disk_sound fs ∧ (refusal e → good fs s).
(** An error undoes a commit; a crash leaves the old catalog or one of [P]. *)
Definition undone (P : Catalog → Prop) (fs : Fs) (s : Store) (e : StoreError) (fs' : Fs) (s' : Store) : Prop :=
  match e with
  | Crashed => disk_sound fs' ∧ (files fs' !! catalog_path = files fs !! catalog_path ∨
                                 ∃ c, P c ∧ files fs' !! catalog_path = Some (mkFile (encode_catalog c) true))
  | Refused _ => narrows fs fs' ∧ s' = s
  end.
Lemma good_disk fs s : good fs s → disk_sound fs.
Proof. intros [[]]. done. Qed.
Lemma good_bad fs fs' s e : good fs s → narrows fs fs' → bad e fs' s.
Proof. intros Hg Hn. assert (good fs' s) by by eapply good_narrows. split; [by eapply good_disk|done]. Qed.
Lemma undone_held P fs fs' s e : held fs s → narrows fs fs' → undone P fs s e fs' s.
Proof.
  intros [Hd _ _] Hn. destruct e; [|done]. split; [by eapply disk_sound_narrows|]. left. apply Hn, watched_catalog.
Qed.
Lemma base_undone P fs fs' s e : base fs s → narrows fs fs' → undone P fs s e fs' s.
Proof. intros Hb. by apply undone_held, base_held. Qed.
Lemma undone_bad P fs s e fs' s' : good fs s → undone P fs s e fs' s' → bad e fs' s'.
Proof. intros Hg Hu. destruct e; [split; [apply Hu|by intros []]|]. destruct Hu as [Hn ->]. by eapply good_bad. Qed.
(** Steps aside keep everything good. *)
Lemma aside_good {A} fs s (m : X A) (Q : A → Fs → Prop) : good fs s → aside fs s m Q → does fs s m (λ _, good) bad.
Proof.
  intros Hg Hm. eapply does_mono; [exact Hm|..]; simpl.
  - intros a f t (Hn & -> & _). by eapply good_narrows.
  - intros e f t (Hn & ->). by eapply good_bad.
Qed.

(** ** Collection *)
Lemma strip_prefix_app p t r : strip_prefix p t = Some r → t = p ++ r.
Proof.
  revert t. induction p as [|x p IH]; intros t Ht; simpl in Ht; [by injection Ht as ->|]. destruct t as [|y t]; [done|].
  case_bool_decide as Hx; [|done]. subst y. by rewrite (IH t Ht).
Qed.
Lemma strip_suffix_app p t r : strip_suffix p t = Some r → t = r ++ p.
Proof.
  unfold strip_suffix. intros (r' & Hr & ->)%fmap_Some. apply strip_prefix_app in Hr.
  rewrite -(reverse_involutive t) Hr reverse_app. by rewrite reverse_involutive.
Qed.
Definition certainly (fs : Fs) (s : Store) : Prop := good fs s ∧ uncertain s = false.
Lemma does_collect_object fs s name :
  certainly fs s → does fs s (collect_object env s name) (λ _ f t, certainly f t ∧ t = s) bad.
Proof.
  intros [Hg Hu]. assert (∀ e, refusal e → bad e fs s) as Hbad by by (intros; eapply good_bad).
  assert (certainly fs s ∧ s = s) as Hsame by done.
  unfold collect_object. destruct (strip_suffix (lit ".txt") name) as [h|] eqn:Hn; [|by apply does_ret]. apply strip_suffix_app in Hn.
  assert ((Objects, name) = object_path h) as Hp by by rewrite Hn.
  destruct (valid_hash h) eqn:Hh; [|by apply does_ret]. simpl. destruct (keeps s h) eqn:Hk; [by apply does_ret|].
  eapply does_quiet; [by apply (still_open env fs s _ (λ _, True))|done|]. intros [b|] _; [|by apply does_ret].
  case_bool_decide; [|by apply does_ret].
  eapply does_quiet; [by apply (still_look env fs s (λ _, True))|done|]. intros _ _.
  case_bool_decide; [|by apply does_ret].
  eapply does_quiet; [by apply (still_fs fs s (λ f, f = fs))|done|]. intros ? ->. rewrite Hp.
  destruct (files fs !! object_path h); [|apply does_refuse; by apply Hbad].
  assert (base (put_file (object_path h) None fs) s) as Hb.
  { apply remove_object_sound; [done..| |by apply g_base]. by apply (g_certain _ _ Hg). }
  assert (good (put_file (object_path h) None fs) s) as Hg'.
  { split; [done|]. intros _. unfold settled. simpl. rewrite lookup_insert_ne; [|done]. by apply (g_certain _ _ Hg). }
  apply does_change; [done| |].
  - intros e. by apply (good_bad fs).
  - by apply (good_bad (put_file (object_path h) None fs)).
Qed.
Lemma does_for_each {A} (I : Fs → Store → Prop) fs s (l : list A) (f : A → X unit) R :
  I fs s → (∀ a fs s, I fs s → does fs s (f a) (λ _, I) R) → does fs s (for_each l f) (λ _, I) R.
Proof. intros HI Hf. revert fs s HI. induction l as [|a l IH]; intros fs s HI; simpl; [by apply does_ret|]. eapply does_bind; [by apply Hf|]. eauto. Qed.
Lemma aside_collect_index fs s0 s name : aside fs s (collect_index env s0 name) (λ _ _, True).
Proof.
  unfold collect_index. destruct (strip_suffix (lit ".bin") name) as [h|]; [|by apply aside_ret].
  destruct (_ || _); [by apply aside_ret|].
  eapply aside_bind; [by apply (still_aside _ _ _ (λ _, True) (λ _ _, True)); [apply still_open|]|]. intros [b|] f _ _; [|by apply aside_ret].
  eapply aside_bind; [by apply (still_aside _ _ _ (λ _, True) (λ _ _, True)); [apply still_look|]|]. intros _ f' _ _.
  destruct (owned_index b h); [|by apply aside_ret]. apply aside_remove; [apply index_aside|done].
Qed.
(** Collection keeps what the store keeps, and makes the rest sure. *)
Lemma does_collect_orphans fs s :
  good fs s → does fs s (collect_orphans env) (λ _ f t, certainly f t ∧ steady f ∧ t = s) bad.
Proof.
  intros Hg. assert (∀ e f, narrows fs f → bad e f s) as Hbad by by (intros; eapply good_bad).
  eapply does_quiet; [by apply (still_certain fs s (λ _, uncertain s = false))|by intros; apply Hbad|]. intros [] Hu.
  eapply does_quiet; [by apply (still_store fs s (λ t, t = s))|by intros; apply Hbad|]. intros ? ->.
  eapply does_quiet; [by apply (still_read_dir env fs s _ (λ _, True))|by intros; apply Hbad|]. intros objects _.
  eapply does_bind.
  { apply (does_for_each (λ f t, certainly f t ∧ t = s)); [done|]. intros n f t [Hc ->]. by apply does_collect_object. }
  intros _ f t [[Hf Hfu] ->]. assert (∀ e f', narrows f f' → bad e f' s) as Hbad' by by (intros; eapply good_bad).
  eapply does_aside; [by apply (aside_sync_dir env f s Objects (λ _ f', steady f')), settle_steady|done|]. intros [] f1 Hn1 Hs1.
  eapply does_aside; [by apply (still_aside _ _ _ (λ _, True) (λ _ _, True)); [apply still_read_dir|]|intros; apply Hbad'; by etrans|]. intros indexes f2 Hn2 _.
  eapply does_aside; [apply aside_for_each; intros; apply aside_collect_index|intros; apply Hbad'; by do 2 (etrans; [done|])|]. intros [] f3 Hn3 _.
  eapply does_mono; [by apply (aside_sync_dir env f3 s Indexes (λ _ _, True))|..]; simpl.
  - intros [] f4 t (Hn4 & -> & _). split; [split|split; [|done]]; [|done|].
    + eapply good_narrows; [|exact Hf]. by do 3 (etrans; [done|]).
    + eapply narrows_steady; [|exact Hs1]. by do 2 (etrans; [done|]).
  - intros e f4 t (Hn4 & ->). apply Hbad'. by do 3 (etrans; [done|]).
Qed.

(** ** The commit point *)
Record committed (fs : Fs) (s : Store) (c : Catalog) (o : CommitOutcome) (fs' : Fs) (s' : Store) : Prop := {
  cm_file : files fs' !! catalog_path = Some (mkFile (encode_catalog c) true);
  cm_store : s' = set_uncertain (bool_decide (o = CommittedUncertain)) (set_catalog c s);
  cm_durable : o = Durable → settled fs' catalog_path;
  cm_objects (p : Path) : p.1 = Objects → files fs' !! p = files fs !! p ∧ (older fs' !! p = older fs !! p ∨ older fs' !! p = None);
  cm_valid : catalog_valid c = true;
  cm_good : good fs' s';
}.
Lemma uncertain_base fs s b : base fs s → base fs (set_uncertain b s).
Proof. intros [Hd [Hc Hp] Ha]. split; [done|split; [done|exact Hp]|done]. Qed.
Lemma committed_narrows fs s c o fs1 s' fs' : narrows fs1 fs' → committed fs s c o fs1 s' → committed fs s c o fs' s'.
Proof.
  intros Hn [Hf Hs Hd Ho Hv Hg]. split; [by rewrite (proj1 (Hn _ watched_catalog))|done|eauto using narrows_settled, watched_catalog| |done|by eapply good_narrows].
  intros p Hp. destruct (Hn p (or_intror Hp)) as [-> Hp1], (Ho p Hp) as [-> Hp2]. split; [done|]. destruct Hp1 as [->|]; auto.
Qed.
Lemma does_commit_catalog (P : Catalog → Prop) fs s c check :
  P c → held fs s → (∀ r, r ∈ records c → sure fs (sha256 r)) → (∀ f, still f s check (λ _, True)) →
  does fs s (commit_catalog_with_check env c check) (committed fs s c) (undone P fs s).
Proof.
  intros HP Hb Hr Hcheck. assert (∀ e f, narrows fs f → undone P fs s e f s) as Hun by by (intros; apply undone_held).
  eapply does_quiet; [by apply (still_catalog env fs s c (λ _, catalog_valid c = true))|by intros; apply Hun|]. intros [] Hv.
  eapply does_quiet; [apply (still_demand fs s _ _ (λ _, Z.of_nat (length (encode_catalog c)) ≤ MAX_CATALOG)); by intros Hl%bool_decide_eq_true|by intros; apply Hun|].
  intros [] Hl. set (b := encode_catalog c) in *.
  eapply does_quiet; [by apply (still_open env fs s _ (λ _, True))|by intros; apply Hun|]. intros _ _.
  eapply does_quiet; [by apply (still_disk_bytes env fs s (λ _, True))|by intros; apply Hun|]. intros n _.
  eapply does_quiet; [by apply (still_store fs s (λ t, t = s))|by intros; apply Hun|]. intros ? ->.
  eapply does_quiet; [by apply (still_demand fs s _ _ (λ _, True))|by intros; apply Hun|]. intros _ _.
  eapply does_quiet; [by apply (still_tick fs s (λ _, True))|by intros; apply Hun|]. intros t _.
  set (temporary := temporary_path (random_hex env t)). assert (¬ watched temporary) as Htemp by apply temporary_aside.
  eapply (does_finally _ _ _ _ _ _ (committed fs s c) (undone P fs s)); [|done|..].
  - eapply does_aside; [by apply (aside_create env fs s temporary (λ _ f, is_Some (files f !! temporary)))|by intros; apply Hun|]. intros [] f1 Hn1 Hf1.
    eapply does_aside; [by apply (aside_write env f1 s temporary b (λ _ f, files f !! temporary = Some (mkFile b false)))|intros; apply Hun; by etrans|]. intros [] f2 Hn2 Hf2.
    eapply does_aside; [by apply (aside_sync env f2 s temporary _ (λ _ f, files f !! temporary = Some (mkFile b true))) in Hf2|intros; apply Hun; by do 2 (etrans; [done|])|].
    intros [] f3 Hn3 Hf3. assert (narrows fs f3) as Hn by by do 2 (etrans; [done|]).
    eapply does_quiet; [apply Hcheck|by intros; apply Hun|]. intros _ _.
    set (f4 := put_file catalog_path (Some (mkFile b true)) f3).
    assert (base f4 (set_catalog c s)) as Hb4.
    { apply put_catalog_sound; [done|apply decode_encode|done| |by eapply held_narrows]. split; [done|]. eauto using narrows_sure. }
    assert (∀ f t, narrows f4 f → undone P fs s Crashed f t) as Hcrash.
    { intros f t' Hn4. split; [eapply disk_sound_narrows; [exact Hn4|apply Hb4]|]. right. exists c. split; [done|].
      rewrite (proj1 (Hn4 _ watched_catalog)). simpl. by rewrite lookup_partial_alter_eq. }
    eapply (does_bind _ _ _ _ (λ _ f t, f = put_file temporary None f4 ∧ t = s)).
    { eapply does_rename; [exact Hf3| |by intros; apply Hun]. split; [done|]. by apply Hcrash, narrows_put. }
    intros _ ? ? (-> & ->). set (f5 := put_file temporary None f4). assert (narrows f4 f5) as Hn5 by by apply narrows_put.
    eapply (does_bind _ _ _ _ (λ _ f t, f = f5 ∧ t = set_catalog c s)); [by apply does_modify|]. intros _ ? ? (-> & ->).
    eapply (does_bind _ _ _ _ (λ o f t, narrows f5 f ∧ t = set_catalog c s ∧ (is_Some o → settled f catalog_path))).
    { eapply does_mono; [apply (caught_aside f5 _ _ (λ _ f, settled f catalog_path) (λ o f, is_Some o → settled f catalog_path))|..]; simpl.
      - apply aside_sync_dir. by apply settle_settled.
      - done.
      - by intros ? [].
      - done.
      - intros e f t' (-> & Hn' & ->). apply Hcrash. by etrans. }
    intros synced f6 ? (Hn6 & -> & Hs6).
    eapply (does_bind _ _ _ _ (λ _ f t, f = f6 ∧ t = set_uncertain (bool_decide (synced = None)) (set_catalog c s))); [by apply does_modify|].
    intros _ ? ? (-> & ->). apply does_ret.
    assert (narrows f4 f6) as Hn46 by by etrans. pose proof (Hn46 _ watched_catalog) as [Hc6 _].
    assert (settled f6 catalog_path ∨ synced = None) as Hset by (destruct synced; eauto).
    split.
    + rewrite Hc6. simpl. by rewrite lookup_partial_alter_eq.
    + by destruct synced.
    + destruct synced; [eauto|done].
    + intros p Hp. destruct (Hn46 p (or_intror Hp)) as [-> Ho]. destruct (Hn p (or_intror Hp)) as [Hf Ho'].
      assert (p ≠ catalog_path) by by intros ->. simpl in Ho |- *. rewrite lookup_partial_alter_ne //. rewrite lookup_insert_ne // in Ho.
      split; [done|]. destruct Ho as [->|]; auto.
    + done.
    + split; [by eapply uncertain_base, base_narrows|]. simpl. intros Hu%bool_decide_eq_false. naive_solver.
  - intros o f t' Hc. eapply does_mono; [apply (aside_remove env f t' temporary (λ _ _, True)); done|..]; simpl.
    + intros _ f' ? (Hn & -> & _). by eapply committed_narrows.
    + intros [] f' ? (Hn & ->); [|by eapply committed_narrows]. split; [eapply disk_sound_narrows; [done|]; by eapply good_disk, cm_good|].
      right. exists c. split; [done|]. rewrite (proj1 (Hn _ watched_catalog)). by eapply cm_file.
  - intros r f t' [Hn ->]. eapply does_mono; [apply (aside_remove env f s temporary (λ _ _, True)); done|..]; simpl.
    + intros _ f' ? (Hn' & -> & _). split; [by etrans|done].
    + intros [] f' ? (Hn' & ->); [|split; [by etrans|done]]. apply (Hun Crashed). by etrans.
Qed.

(** ** Trimming the prepared sources *)
Lemma oldest_member l r : oldest l = Some r → r ∈ l.
Proof.
  revert r. induction l as [|x l IH]; intros r Hr; simpl in Hr; [done|]. destruct (oldest l) as [y|].
  - injection Hr as <-. case_bool_decide; [set_solver|]. apply elem_of_cons. right. by apply IH.
  - injection Hr as <-. set_solver.
Qed.
Record trimmed (s : Store) (retain : list Str) (c c' : Catalog) : Prop := {
  tr_rest : c' = set_records (records c') c;
  tr_from r : r ∈ records c' → r ∈ records c;
  tr_kept r : r ∈ records c → r ∈ records c' ∨ referenced c (fingerprint r) = false ∧ pins s !! sha256 r = None ∧ fingerprint r ∉ retain;
}.
Lemma drop_shorter r c : r ∈ records c → (length (records (drop_record (fingerprint r) c)) < length (records c))%nat.
Proof. intros Hr. simpl. apply length_filter_lt with r; [done|]. tauto. Qed.
Lemma referenced_records f l c : referenced (set_records l c) f = referenced c f.
Proof. done. Qed.
Lemma still_trim fs s fuel s0 retain c :
  (length (records c) ≤ fuel)%nat → NoDup (fingerprint <$> records c) → still fs s (trim_loop fuel s0 retain c) (trimmed s0 retain c).
Proof.
  assert (∀ c, trimmed s0 retain c c) as Hrefl by by (intros []; split; auto).
  revert c. induction fuel as [|fuel IH]; intros c Hl Hn; simpl.
  - destruct (records c) eqn:Hc; [|simpl in Hl; lia]. rewrite bool_decide_true; [by apply still_ret|]. unfold unreferenced. rewrite Hc. simpl. lia.
  - case_bool_decide; [by apply still_ret|].
    eapply (still_bind _ _ _ _ (λ r, oldest (evictable s0 retain c) = Some r)); [by apply still_some|]. intros r Hr.
    apply oldest_member, list_elem_of_filter in Hr as [He Hr]. apply list_elem_of_filter in Hr as [Hu Hr].
    apply andb_true_iff in He as [Hp Hf]. apply negb_true_iff, bool_decide_eq_false in Hp, Hf. apply eq_None_not_Some in Hp.
    pose proof (drop_shorter r c Hr) as Hlt.
    eapply still_mono; [apply IH; [lia|]|].
    + eapply sublist_NoDup; [exact Hn|]. apply fmap_sublist. apply sublist_filter.
    + intros c' [Hc' Hfrom Hk]. split; [done| |].
      * intros r' Hr'. apply Hfrom in Hr'. by apply list_elem_of_filter in Hr' as [_ Hr'].
      * intros r' Hr'. destruct (decide (fingerprint r' = fingerprint r)) as [Heq|Hne].
        -- right. assert (r' = r) as ->; [|done].
           apply list_elem_of_lookup in Hr' as [i Hi], Hr as [j Hj].
           assert (i = j) as ->; [|congruence].
           eapply NoDup_lookup; [exact Hn|..]; rewrite list_lookup_fmap; [by rewrite Hi|by rewrite Hj /= Heq].
        -- apply Hk. by apply list_elem_of_filter.
Qed.

(** ** The operations on the selection *)
Definition bumped (s : Store) (c c' : Catalog) : Prop :=
  c' = if bool_decide (choices c = choices (catalog s)) then c else set_revision (content_revision c + 1) c.
Lemma does_commit_selection (P : Catalog → Prop) fs s c check :
  (∀ c', bumped s c c' → P c') → base fs s → (∀ r, r ∈ records c → sure fs (sha256 r)) → (∀ f, still f s check (λ _, True)) →
  does fs s (commit_selection_with_check env c check) (λ o f t, ∃ c', bumped s c c' ∧ committed fs s c' o f t) (undone P fs s).
Proof.
  intros HP Hb Hr Hcheck. assert (∀ e, undone P fs s e fs s) as Hun by by (intros; apply base_undone).
  eapply does_quiet; [by apply (still_store fs s (λ t, t = s))|done|]. intros ? ->.
  eapply (does_quiet _ _ _ _ (bumped s c)); [|done|].
  - unfold bumped. case_bool_decide; [by apply still_ret|].
    eapply (still_bind _ _ _ _ (λ n, n = content_revision c + 1)); [|intros n ->; by apply still_ret].
    apply still_some. unfold checked_add. intros n. case_match; congruence.
  - intros c' Hc'. eapply does_mono; [apply does_commit_catalog; [by apply HP|by apply base_held| |done]|eauto|done].
    intros r Hr'. apply Hr. rewrite Hc' in Hr'. by case_bool_decide.
Qed.
Lemma valid_unique c : catalog_valid c = true → NoDup (fingerprint <$> records c).
Proof. unfold catalog_valid. rewrite !andb_true_iff. intros Hv. by destruct Hv as [[[_ Hn%bool_decide_eq_true] _] _]. Qed.
Lemma base_valid fs s : base fs s → catalog_valid (catalog s) = true.
Proof.
  intros [[Hc _] [[f [Hf Hd]] _] _]. destruct (Hc f) as (_ & _ & c & Hc' & Hv & _); [by left|]. congruence.
Qed.
Lemma committed_good fs s c o f t : committed fs s c o f t → good f t.
Proof. apply cm_good. Qed.
Lemma still_true f s : still f s (ret tt) (λ _, True).
Proof. by apply still_ret. Qed.
Lemma does_set_references fs s cur prev :
  base fs s → does fs s (set_references env cur prev) (λ o f t, ∃ c, current c = cur ∧ previous c = prev ∧ committed fs s c o f t) (undone (λ _, True) fs s).
Proof.
  intros Hb. assert (∀ e, undone (λ _, True) fs s e fs s) as Hun by by (intros; apply base_undone).
  eapply does_quiet; [by apply (still_certain fs s (λ _, True))|done|]. intros _ _.
  eapply does_quiet; [by apply (still_references fs s cur (λ _, True))|done|]. intros _ _.
  eapply does_quiet; [by apply (still_references fs s prev (λ _, True))|done|]. intros _ _.
  eapply does_quiet; [by apply (still_store fs s (λ t, t = s))|done|]. intros ? ->.
  eapply (does_quiet _ _ _ _ (trimmed s [] (set_roots cur prev (catalog s)))); [|done|].
  { eapply (still_bind _ _ _ _ (λ t, t = s)); [by apply still_store|]. intros ? ->. apply still_trim; [done|]. apply (valid_unique (catalog s)). by eapply base_valid. }
  intros c [Hc Hfrom _]. eapply does_mono; [apply (does_commit_selection (λ _, True)); [done|done| |intros; apply still_true]| |done]; simpl.
  - intros r Hr. eapply selected_sure; [done|]. by apply Hfrom in Hr.
  - intros o f t (c' & Hc' & Hcm). exists c'. unfold bumped in Hc'. case_bool_decide; subst c'; (split; [by rewrite Hc|]); (split; [by rewrite Hc|done]).
Qed.

(** *** Statuses *)
Definition same_source (r r' : SourceRecord) : Prop := set_record_status (status r') r = r'.
Lemma same_source_refl r : same_source r r.
Proof. by destruct r. Qed.
Lemma same_source_trans r1 r2 r3 : same_source r1 r2 → same_source r2 r3 → same_source r1 r3.
Proof. unfold same_source. intros <- <-. done. Qed.
Lemma same_source_fields r r' : same_source r r' → fingerprint r' = fingerprint r ∧ sha256 r' = sha256 r.
Proof. by intros <-. Qed.
Lemma set_status_same f st l : Forall2 same_source l (set_status_of f st l).
Proof.
  induction l as [|r l IH]; simpl; [constructor|]. case_bool_decide; constructor; [done| |apply same_source_refl|done].
  clear. induction l; constructor; [apply same_source_refl|done].
Qed.
#[local] Instance same_source_preorder : PreOrder same_source.
Proof. split; [exact same_source_refl|exact same_source_trans]. Qed.
Lemma same_records_fingerprints l l' : Forall2 same_source l l' → fingerprint <$> l' = fingerprint <$> l.
Proof. induction 1 as [|r r' l l' Hr]; [done|]. rewrite !fmap_cons. by destruct (same_source_fields r r' Hr) as [-> _]; f_equal. Qed.
Lemma apply_statuses_same sts c :
  Forall2 same_source (records c) (records (apply_statuses sts c)) ∧ apply_statuses sts c = set_records (records (apply_statuses sts c)) c.
Proof.
  revert c. induction sts as [|[f st] sts IH]; intros c; simpl.
  - split; [|by destruct c]. done.
  - destruct (IH (set_records (set_status_of f st (records c)) c)) as [Hr Hc]. split; [|exact Hc].
    etrans; [apply set_status_same|exact Hr].
Qed.
Lemma does_update_status fs s f st :
  base fs s → does fs s (update_status env f st) (λ o f' t, committed fs s (set_records (set_status_of f st (records (catalog s))) (catalog s)) o f' t) (undone (λ _, True) fs s).
Proof.
  intros Hb. assert (∀ e, undone (λ _, True) fs s e fs s) as Hun by by (intros; apply base_undone).
  eapply does_quiet; [by apply (still_certain fs s (λ _, True))|done|]. intros _ _.
  eapply does_quiet; [by apply (still_store fs s (λ t, t = s))|done|]. intros ? ->.
  eapply does_quiet; [by apply (still_some fs s _ _ (λ _, True))|done|]. intros r0 _.
  apply (does_commit_catalog (λ _, True)); [done|by apply base_held| |intros; apply still_true]. simpl. intros r Hr.
  pose proof (set_status_same f st (records (catalog s))) as Hf. apply list_elem_of_lookup in Hr as [i Hi].
  eapply Forall2_lookup_r in Hi as (r' & Hr' & Hs); [|exact Hf]. destruct (same_source_fields r' r Hs) as [_ ->].
  eapply selected_sure; [done|]. by eapply list_elem_of_lookup_2.
Qed.

(** *** A batch of candidates *)
(** The catalog [c] after the sources [l] were accepted: they are selected, and
    nothing else changed, except that unreferenced sources without a pin may have
    made room. *)
Record batch_result (s : Store) (l : list SourceRecord) (c : Catalog) : Prop := {
  br_revision : content_revision c = content_revision (catalog s) + (if bool_decide (choices c = choices (catalog s)) then 0 else 1);
  br_roots : current c = current (catalog s) ∧ previous c = previous (catalog s);
  br_new r : r ∈ l → ∃ r', r' ∈ records c ∧ same_source r r';
  br_kept r : r ∈ records (catalog s) → fingerprint r ∉ fingerprint <$> l →
    (∃ r', r' ∈ records c ∧ same_source r r') ∨ referenced (catalog s) (fingerprint r) = false ∧ pins s !! sha256 r = None;
  br_only r' : r' ∈ records c → ∃ r, same_source r r' ∧ (r ∈ l ∨ r ∈ records (catalog s) ∧ fingerprint r ∉ fingerprint <$> l);
}.
Lemma still_candidates fs s l u (Q : unit → Prop) :
  (NoDup (fingerprint <$> l) → (∀ r, r ∈ l → fingerprint r ∉ u) → Q tt) → still fs s (check_candidates env l u) Q.
Proof.
  revert u Q. induction l as [|r l IH]; intros u Q HQ; simpl.
  { apply still_ret. apply HQ; [constructor|]. intros r Hr. by apply not_elem_of_nil in Hr. }
  eapply (still_bind _ _ _ _ (λ _, True)); [by apply still_record|]. intros _ _.
  eapply (still_bind _ _ _ _ (λ _, fingerprint r ∉ u)); [apply still_demand; by intros Hu%bool_decide_eq_true|]. intros [] Hu.
  eapply (still_bind _ _ _ _ (λ _, True)); [by apply still_verified|]. intros _ _.
  apply IH. intros Hn Hd. apply HQ.
  - apply NoDup_cons. split; [|done]. intros (r' & Hf & Hr')%list_elem_of_fmap. apply (Hd r' Hr'). rewrite -Hf. set_solver.
  - intros r' [->|Hr']%elem_of_cons; [done|]. specialize (Hd r' Hr'). set_solver.
Qed.
Lemma merge_unique l c : NoDup (fingerprint <$> l) → NoDup (fingerprint <$> records c) → NoDup (fingerprint <$> records (merge_records l c)).
Proof.
  intros Hl Hc. simpl. rewrite fmap_app. apply NoDup_app. split; [|split; [|done]].
  - eapply sublist_NoDup; [exact Hc|]. apply fmap_sublist. apply sublist_filter.
  - intros f (r & -> & [Hr _]%list_elem_of_filter)%list_elem_of_fmap. done.
Qed.
Section batch.
Context (s : Store) (l : list SourceRecord) (statuses : list (Str * SourceStatus)).
Let merged : Catalog := merge_records l (catalog s).
Let candidate : Catalog := apply_statuses statuses merged.
Lemma elem_of_merged r : r ∈ records merged ↔ (r ∈ records (catalog s) ∧ fingerprint r ∉ fingerprint <$> l) ∨ r ∈ l.
Proof. unfold merged. simpl. rewrite elem_of_app list_elem_of_filter. tauto. Qed.
Lemma candidate_from r' : r' ∈ records candidate → ∃ r, same_source r r' ∧ r ∈ records merged.
Proof.
  intros Hr. destruct (apply_statuses_same statuses merged) as [Hf _]. apply list_elem_of_lookup in Hr as [i Hi].
  eapply Forall2_lookup_r in Hi as (r & Hr & Hs); [|exact Hf]. exists r. split; [done|]. by eapply list_elem_of_lookup_2.
Qed.
Lemma candidate_to r : r ∈ records merged → ∃ r', same_source r r' ∧ r' ∈ records candidate.
Proof.
  intros Hr. destruct (apply_statuses_same statuses merged) as [Hf _]. apply list_elem_of_lookup in Hr as [i Hi].
  eapply Forall2_lookup_l in Hi as (r' & Hr & Hs); [|exact Hf]. exists r'. split; [done|]. by eapply list_elem_of_lookup_2.
Qed.
Lemma candidate_rest : candidate = set_records (records candidate) (catalog s).
Proof. destruct (apply_statuses_same statuses merged) as [_ Hc]. exact Hc. Qed.
Lemma candidate_batch c c' : trimmed s (fingerprint <$> l) candidate c → bumped s c c' → batch_result s l c'.
Proof.
  intros [Hrest Hfrom Hkept] Hb. rewrite candidate_rest in Hrest.
  assert (records c' = records c ∧ current c' = current c ∧ previous c' = previous c) as (Hr & Hc & Hp) by (unfold bumped in Hb; by case_bool_decide; subst c').
  assert (current c = current (catalog s) ∧ previous c = previous (catalog s) ∧ content_revision c = content_revision (catalog s)) as (Hc1 & Hp1 & Hv1) by by rewrite Hrest.
  assert (∀ r, referenced candidate (fingerprint r) = referenced (catalog s) (fingerprint r)) as Href by (intros r; by rewrite candidate_rest).
  split; rewrite ?Hr.
  - assert (choices c' = choices c) as Hch by by rewrite /choices Hr. rewrite Hch -Hv1. unfold bumped in Hb.
    case_bool_decide; subst c'; simpl; lia.
  - split; congruence.
  - intros r Hr'. destruct (candidate_to r) as (r' & Hs & Hr''); [apply elem_of_merged; by right|].
    exists r'. split; [|done]. destruct (Hkept r' Hr'') as [|(_ & _ & Hn)]; [done|]. destruct Hn.
    destruct (same_source_fields r r' Hs) as [-> _]. by apply list_elem_of_fmap_2.
  - intros r Hr' Hn. destruct (candidate_to r) as (r' & Hs & Hr''); [apply elem_of_merged; by left|].
    destruct (same_source_fields r r' Hs) as [Hf Hh]. destruct (Hkept r' Hr'') as [|(Hu & Hpin & _)]; [eauto|].
    right. rewrite -Hf -Hh -Href. done.
  - intros r' Hr'. apply Hfrom in Hr'. destruct (candidate_from r' Hr') as (r & Hs & Hm). exists r. split; [done|]. apply elem_of_merged in Hm. tauto.
Qed.
End batch.
Lemma does_commit_batch fs s l statuses expected :
  base fs s → (∀ r, r ∈ l → sure fs (sha256 r)) →
  does fs s (commit_batch_with_check env l statuses expected) (λ o f t, ∃ c, batch_result s l c ∧ committed fs s c o f t) (undone (batch_result s l) fs s).
Proof.
  intros Hb Hl. assert (∀ e, undone (batch_result s l) fs s e fs s) as Hun by by (intros; apply base_undone).
  eapply does_quiet; [by apply (still_certain fs s (λ _, True))|done|]. intros _ _.
  eapply does_quiet; [by apply (still_store fs s (λ t, t = s))|done|]. intros ? ->.
  eapply does_quiet; [by apply (still_demand fs s _ _ (λ _, True))|done|]. intros _ _.
  eapply does_quiet; [by apply (still_demand fs s _ _ (λ _, True))|done|]. intros _ _.
  eapply does_quiet; [by apply (still_candidates fs s l [] (λ _, NoDup (fingerprint <$> l)))|done|]. intros [] Hn.
  eapply does_quiet; [by apply (still_demand fs s _ _ (λ _, True))|done|]. intros _ _.
  eapply (does_quiet _ _ _ _ (trimmed s (fingerprint <$> l) _)); [|done|].
  { eapply (still_bind _ _ _ _ (λ t, t = s)); [by apply still_store|]. intros ? ->. apply still_trim; [done|].
    destruct (apply_statuses_same statuses (merge_records l (catalog s))) as [Hf _]. rewrite (same_records_fingerprints _ _ Hf).
    apply merge_unique; [done|]. apply (valid_unique (catalog s)). by eapply base_valid. }
  intros c Hc. eapply does_mono; [apply (does_commit_selection (batch_result s l)); [|done| |]| |done]; simpl.
  - intros c' Hb'. by eapply candidate_batch.
  - intros r Hr. apply (tr_from _ _ _ _ Hc) in Hr. apply candidate_from in Hr as (r' & Hs & Hr).
    destruct (same_source_fields r' r Hs) as [_ ->]. apply elem_of_merged in Hr as [[Hr _]|Hr]; [by eapply selected_sure|by apply Hl].
  - intros f. eapply (still_bind _ _ _ _ (λ _, True)); [by apply still_tick|]. intros t _. by apply still_demand.
  - intros o f t (c' & Hb' & Hcm). exists c'. split; [by eapply candidate_batch|done].
Qed.

(** ** The other operations *)
Lemma does_collect fs s now pressure : good fs s → does fs s (collect env now pressure) (λ _, good) bad.
Proof.
  intros Hg. assert (∀ e, refusal e → bad e fs s) as Hbad by (intros; by eapply good_bad).
  eapply does_quiet; [by apply (still_certain fs s (λ _, True))|done|]. intros _ _.
  eapply does_quiet; [by apply (still_disk_bytes env fs s (λ _, True))|done|]. intros n _.
  eapply does_quiet; [by apply (still_demand fs s _ _ (λ _, True))|done|]. intros _ _.
  eapply does_quiet; [by apply (still_store fs s (λ t, t = s))|done|]. intros ? ->.
  assert (∀ f t, good f t → does f t (collect_orphans env) (λ _, good) bad) as Horphans.
  { intros f t Hft. eapply does_mono; [by apply does_collect_orphans| |done]. intros _ f' t' ([? _] & _ & ->). done. }
  cbv beta zeta. case_bool_decide; [by apply Horphans|].
  eapply (does_quiet _ _ _ _ (λ c, records c = survivors s now pressure)); [|done|].
  { eapply (still_bind _ _ _ _ (λ _, True)); [by apply still_some|]. intros n' _. by apply still_ret. }
  intros c Hc. eapply (does_bind _ _ _ _ (λ _, good)).
  - eapply does_mono; [apply (does_commit_catalog (λ _, True)); [done|by apply base_held, g_base| |intros; apply still_true]|..].
    + intros r Hr. rewrite Hc in Hr. apply list_elem_of_filter in Hr as [_ Hr]. eapply selected_sure; [by apply g_base|done].
    + intros o f t. apply cm_good.
    + intros e f t. by apply undone_bad.
  - intros o f t Hft. case_bool_decide; [by apply does_ret|by apply Horphans].
Qed.
Lemma does_collect_for_download fs s now needs : good fs s → does fs s (collect_for_download env now needs) (λ _, good) bad.
Proof.
  intros Hg. eapply does_bind; [by apply does_collect|]. intros [] f t Hft.
  eapply (does_bind _ _ _ _ (λ _, good)).
  - destruct needs; [|by apply does_ret].
    eapply does_quiet; [by apply (still_space env f t _ (λ _, True))|intros; by eapply good_bad|]. intros [] _; [by apply does_ret|by apply does_collect].
  - intros [] f' t' Hft'. apply (aside_good _ _ _ (λ _ _, True)); [done|]. apply (still_aside _ _ _ (λ _, True)); [by apply still_certain|done].
Qed.
Lemma good_active fs s : good fs s → steady fs → good fs (set_active true s).
Proof. intros [[Hd [Hc Hp] _] Hu] Hs. split; [split; [done|split; [done|exact Hp]|done]|done]. Qed.
Lemma does_begin fs s reserve max kind :
  good fs s → does fs s (begin_reserved env reserve max kind)
    (λ st f t, good f t ∧ active t = true ∧ (st_path st).1 = StagingDir ∧ is_Some (files f !! st_path st)) bad.
Proof.
  intros Hg. assert (∀ e, refusal e → bad e fs s) as Hbad by (intros; by eapply good_bad).
  eapply does_quiet; [by apply (still_certain fs s (λ _, True))|done|]. intros _ _.
  eapply does_quiet; [by apply (still_store fs s (λ t, t = s))|done|]. intros ? ->.
  eapply does_quiet; [by apply (still_demand fs s _ _ (λ _, True))|done|]. intros _ _.
  eapply does_quiet; [by apply (still_demand fs s _ _ (λ _, True))|done|]. intros _ _.
  eapply does_bind; [by apply does_collect_orphans|]. intros [] f t ([Hf Hu] & Hs & ->).
  assert (∀ e f', narrows f f' → bad e f' s) as Hbad' by (intros; by eapply good_bad).
  eapply does_quiet; [by apply (still_certain f s (λ _, True))|by intros; apply Hbad'|]. intros _ _.
  eapply does_quiet; [by apply (still_space env f s _ (λ _, True))|by intros; apply Hbad'|]. intros b _.
  eapply does_quiet; [by apply (still_demand f s _ _ (λ _, True))|by intros; apply Hbad'|]. intros _ _.
  eapply does_quiet; [by apply (still_tick f s (λ _, True))|by intros; apply Hbad'|]. intros t _.
  set (p := staging_path kind (random_hex env t)).
  eapply does_aside; [by apply (aside_create env f s p (λ _ f, is_Some (files f !! p))); [apply staging_aside|]|done|]. intros [] f' Hn Hf'.
  eapply (does_bind _ _ _ _ (λ _ f'' t, f'' = f' ∧ t = set_active true s)); [by apply does_modify|]. intros _ ? ? (-> & ->).
  apply does_ret. split; [|done]. apply good_active; [by eapply good_narrows|by eapply narrows_steady].
Qed.

(** [weak]: a failed installation may leave an object that is not sure. *)
Definition weak (fs : Fs) (s : Store) : Prop := disk_sound fs ∧ store_sound fs s ∧ (uncertain s = false → settled fs catalog_path).
Lemma good_weak fs s : good fs s → weak fs s.
Proof. by intros [[]]. Qed.
Lemma weak_narrows fs fs' s : narrows fs fs' → weak fs s → weak fs' s.
Proof.
  intros Hn (Hd & Hs & Hu). assert (base fs (set_active false s)) as Hb by (destruct Hs as [Hc Hp]; split; [done|split; [done|exact Hp]|done]).
  apply (base_narrows _ _ _ Hn) in Hb as [Hd' [Hc Hp] _]. split; [done|]. split; [split; [done|exact Hp]|]. eauto using narrows_settled, watched_catalog.
Qed.
Lemma weak_inactive fs s : weak fs s → good fs (set_active false s).
Proof. intros (Hd & [Hc Hp] & Hu). split; [split; [done|split; [done|exact Hp]|done]|done]. Qed.
Lemma does_drop fs s st (Q : unit → Fs → Store → Prop) :
  (st_path st).1 = StagingDir → weak fs s → (∀ f, narrows fs f → good f (set_active false s) → Q tt f (set_active false s)) →
  does fs s (drop_staging env st) Q (λ e f _, e = Crashed ∧ disk_sound f).
Proof.
  intros Hst Hw HQ. eapply does_bind.
  - eapply does_mono; [apply (caught_aside fs s _ (λ _ _, True) (λ _ _, True)); [|done..]; by apply aside_remove; [apply staging_aside|]|exact (λ _ _ _ H, H)|]. simpl.
    intros e f t (-> & Hn & ->). split; [done|]. by apply (weak_narrows _ _ s Hn).
  - intros _ f t (Hn & -> & _). apply does_modify. apply HQ; [done|]. by eapply weak_inactive, weak_narrows.
Qed.
(** Whatever [m] leaves weak, dropping the staging file makes good. *)
Lemma does_staged {A} fs s st (m : X A) (Q : A → Fs → Prop) (Q' : A → Fs → Store → Prop) :
  (st_path st).1 = StagingDir →
  does fs s m (λ a f t, weak f t ∧ Q a f) (λ e f t, disk_sound f ∧ (refusal e → weak f t)) →
  (∀ a f f' t, Q a f → narrows f f' → good f' t → Q' a f' t) →
  does fs s (finally m (drop_staging env st)) Q' bad.
Proof.
  intros Hst Hm HQ. eapply does_finally; [exact Hm|..]; simpl.
  - intros f t [Hd _]. split; [done|by intros []].
  - intros a f t [Hw Ha]. eapply does_mono; [apply (does_drop f t st (λ _ f' t', Q' a f' t')); [done..|]|done|]; [by intros; eapply HQ|].
    intros e f' t' [-> Hd]. split; [done|by intros []].
  - intros r f t [_ Hw]. eapply does_mono; [apply (does_drop f t st (λ _ f' t', bad (Refused r) f' t')); [done|by apply Hw|]|done|].
    + intros f' _ Hg. split; [by eapply good_disk|done].
    + intros e f' t' [-> Hd]. split; [done|by intros []].
Qed.
Lemma does_discard fs s st : (st_path st).1 = StagingDir → good fs s → does fs s (discard env st) (λ _, good) bad.
Proof.
  intros Hst Hg. apply (does_staged _ _ _ _ (λ _ _, True)); [done|apply does_ret|done]. split; [by apply good_weak|done].
Qed.

(** *** Installing an object *)
Definition spoilt (e : StoreError) (fs : Fs) (s : Store) : Prop := disk_sound fs ∧ (refusal e → weak fs s).
Lemma weak_spoilt fs fs' s e : weak fs s → narrows fs fs' → spoilt e fs' s.
Proof. intros Hw Hn. assert (weak fs' s) as Hw' by by eapply weak_narrows. split; [apply Hw'|done]. Qed.
Lemma put_object_weak fs s h g :
  valid_hash h = true → safe g = true → Z.of_nat (length (data g)) ≤ MAX_OBJECT → sha256_hex (data g) = h →
  weak fs s → weak (put_file (object_path h) (Some g) fs) s.
Proof.
  intros Hh Hs Hl Hx (Hd & Hss & Hu). split; [by apply put_object_sound|]. split; [by apply put_object_store|].
  intros Hun. unfold settled. simpl. rewrite lookup_insert_ne; [|done]. by apply Hu.
Qed.
Lemma does_publish fs s st h g :
  (st_path st).1 = StagingDir → files fs !! st_path st = Some g → valid_hash h = true → safe g = true →
  Z.of_nat (length (data g)) ≤ MAX_OBJECT → sha256_hex (data g) = h → weak fs s →
  does fs s (publish_object env st (object_path h)) (λ _ f t, weak f t ∧ sure f h) spoilt.
Proof.
  intros Hst Hg Hh Hs Hl Hx Hw. set (f1 := put_file (object_path h) (Some g) fs). set (f2 := put_file (st_path st) None f1).
  assert (weak f1 s) as Hw1 by by apply put_object_weak.
  assert (narrows f1 f2) as Hn2 by by apply narrows_put, staging_aside.
  assert (weak f2 s) as Hw2 by by eapply weak_narrows.
  eapply (does_bind _ _ _ _ (λ _ f t, f = f2 ∧ t = s)).
  { eapply does_rename; [exact Hg| |intros; by eapply (weak_spoilt fs)]. split; [done|]. by eapply (weak_spoilt f1). }
  intros _ ? ? (-> & ->).
  eapply does_aside; [apply (aside_sync_dir env f2 s Objects (λ _ f, sure f h))|intros; by eapply weak_spoilt|].
  - apply settle_steady; [done|]. simpl. rewrite lookup_partial_alter_ne; [by rewrite lookup_partial_alter_eq|].
    intros He. pose proof (f_equal fst He) as He'. rewrite Hst in He'. done.
  - intros [] f3 Hn3 Hs3. eapply does_mono; [by apply (aside_sync_dir env f3 s StagingDir (λ _ _, True))|..]; simpl.
    + intros _ f4 t (Hn4 & -> & _). split; [eapply weak_narrows; [|exact Hw2]; by etrans|by eapply narrows_sure].
    + intros e f4 t (Hn4 & ->). apply (weak_spoilt f2); [done|by etrans].
Qed.
Lemma does_install fs s st m now :
  good fs s → active s = true → (st_path st).1 = StagingDir →
  does fs s (install_object env st m now) (λ r f t, good f t ∧ valid_hash (sha256 r) = true ∧ sure f (sha256 r)) bad.
Proof.
  intros Hg Hact Hst. apply (does_staged _ _ _ _ (λ r f, valid_hash (sha256 r) = true ∧ sure f (sha256 r))); [done| |].
  2: { intros r f f' t [Hh Hs] Hn Hg'. split; [done|]. split; [done|]. by eapply narrows_sure. }
  assert (weak fs s) as Hw by by apply good_weak. assert (∀ e, refusal e → spoilt e fs s) as Hsp by (intros; by eapply weak_spoilt).
  eapply does_quiet; [by apply (still_certain fs s (λ _, True))|done|]. intros _ _. cbv zeta. set (r := prepared_record m now).
  eapply does_quiet; [by apply (still_record env fs s r (λ _, record_valid r = true))|done|]. intros [] Hv.
  assert (valid_hash (sha256 r) = true) as Hh by by (revert Hv; unfold record_valid; rewrite !andb_true_iff; intros [[[[[[_ ?] _] _] _] _] _]).
  eapply does_quiet; [by apply (still_demand fs s _ _ (λ _, True))|done|]. intros _ _.
  eapply does_quiet; [by apply (still_fs fs s (λ f, f = fs))|done|]. intros ? ->.
  eapply does_quiet; [apply (still_some fs s _ _ (λ b, ∃ g, files fs !! st_path st = Some g ∧ b = data g)); by intros b (g & ? & ->)%fmap_Some; eauto|done|].
  intros b (g & Hf & ->).
  eapply does_quiet; [by apply (still_verify env fs s _ _ (λ _, verifies (data g) r = true))|done|]. intros [] Hver.
  apply andb_true_iff in Hver as [[Hlen1 Hlen]%andb_true_iff Hx]. apply bool_decide_eq_true in Hlen, Hx.
  eapply does_quiet; [by apply (still_open env fs s _ (λ _, True))|done|]. intros b' _.
  eapply does_quiet; [by apply (still_some fs s _ _ (λ _, True))|done|]. intros b'' _.
  eapply does_quiet; [by apply (still_verify env fs s _ _ (λ _, True))|done|]. intros _ _.
  eapply does_aside; [by apply (aside_sync env fs s _ g (λ _ f, files f !! st_path st = Some (mkFile (data g) true))); [apply staging_aside|..]|intros; by eapply weak_spoilt|].
  intros [] f1 Hn1 Hf1. assert (weak f1 s) as Hw1 by by eapply weak_narrows.
  assert (∀ e, refusal e → spoilt e f1 s) as Hsp1 by (intros; by eapply (weak_spoilt f1)).
  assert (does f1 s (publish_object env st (object_path (sha256 r));;; ret r) (λ a f t, weak f t ∧ valid_hash (sha256 a) = true ∧ sure f (sha256 a)) spoilt) as Hpub.
  { eapply does_bind; [by eapply (does_publish _ _ _ (sha256 r))|]. intros [] f t [Hwf Hsf]. by apply does_ret. }
  eapply does_quiet; [by apply (still_open env f1 s _ (λ b, b = data <$> files f1 !! object_path (sha256 r)))|done|]. intros b1 ->.
  destruct (files f1 !! object_path (sha256 r)) as [o|] eqn:Ho; [|exact Hpub]. simpl.
  eapply does_quiet; [by apply (still_catch f1 s _ (λ _, True) (λ _, True)); [apply still_verify|..]|done|]. intros [[]|] _.
  - apply does_ret. split; [done|]. split; [done|].
    assert (steady f1) as Hst1 by (eapply narrows_steady; [exact Hn1|]; by apply (b_active _ _ (g_base _ _ Hg))). apply Hst1; [done|]. by rewrite Ho.
  - eapply does_quiet; [by apply (still_store f1 s (λ _, True))|done|]. intros t _.
    eapply does_quiet; [by apply (still_demand f1 s _ _ (λ _, True))|done|]. intros _ _. exact Hpub.
Qed.

(** *** Pins *)
Lemma good_pin fs s h n : good fs s → 1 ≤ n → (valid_hash h = true → sure fs h) → good fs (set_pins (<[h := n]> (pins s)) s).
Proof.
  intros [[Hd [Hc Hp] Ha] Hu] Hn Hs. split; [split; [done|split; [done|]|done]|done]. intros h' n' Hh'. simpl in Hh'.
  destruct (decide (h' = h)) as [->|Hne]; [rewrite lookup_insert_eq in Hh'; by injection Hh' as <-|]. rewrite lookup_insert_ne in Hh'; [|done]. eauto.
Qed.
Lemma pin_count fs s h : good fs s → 0 ≤ default 0 (pins s !! h).
Proof. intros Hg. destruct (pins s !! h) as [n|] eqn:Hn; simpl; [|lia]. destruct (ss_pins _ _ (b_store _ _ (g_base _ _ Hg)) h n Hn). lia. Qed.
Lemma does_pin_key fs s h : good fs s → (valid_hash h = true → sure fs h) → does fs s (pin_key h) (λ _ f t, good f t ∧ f = fs) bad.
Proof.
  intros Hg Hs. assert (∀ e, refusal e → bad e fs s) as Hbad by (intros; by eapply good_bad).
  eapply does_quiet; [by apply (still_store fs s (λ t, t = s))|done|]. intros ? ->.
  eapply does_quiet; [apply (still_some fs s _ _ (λ n, 1 ≤ n))|done|].
  - intros n. pose proof (pin_count fs s h Hg). unfold checked_add. case_match; [|done]. intros [= <-]. lia.
  - intros n Hn. apply does_modify. split; [by apply good_pin|done].
Qed.
Lemma does_pin fs s h : good fs s → sure fs h → does fs s (pin env h) (λ _, good) bad.
Proof.
  intros Hg Hs. assert (∀ e, refusal e → bad e fs s) as Hbad by (intros; by eapply good_bad).
  eapply does_quiet; [by apply (still_demand fs s _ _ (λ _, True))|done|]. intros _ _.
  eapply does_quiet; [by apply (still_open env fs s _ (λ _, True))|done|]. intros b _.
  eapply does_quiet; [by apply (still_some fs s _ _ (λ _, True))|done|]. intros b' _.
  eapply does_quiet; [by apply (still_look env fs s (λ _, True))|done|]. intros _ _.
  eapply does_quiet; [by apply (still_demand fs s _ _ (λ _, True))|done|]. intros _ _.
  eapply does_mono; [by apply does_pin_key| |done]. by intros [] f t [? _].
Qed.
Lemma does_unpin fs s h : good fs s → does fs s (unpin h) (λ _, good) bad.
Proof.
  intros Hg. eapply does_quiet; [by apply (still_store fs s (λ t, t = s))|intros; by eapply good_bad|]. intros ? ->.
  destruct (pins s !! h) as [n|] eqn:Hn; [|by apply does_ret].
  destruct (ss_pins _ _ (b_store _ _ (g_base _ _ Hg)) h n Hn) as [Hn1 Hs].
  rewrite (bool_decide_false (n = 0)); [|lia]. apply does_modify. case_bool_decide; [|by apply good_pin; [|lia|]].
  destruct Hg as [[Hd [Hc Hp] Ha] Hu]. split; [split; [done|split; [done|]|done]|done].
  intros h' n' Hh'. simpl in Hh'. apply lookup_delete_Some in Hh' as [_ Hh']. eauto.
Qed.

(** *** Derived indexes *)
Lemma still_read_index fs s d n : still fs s (read_index env d n) (λ _, valid_hash d = true).
Proof.
  eapply (still_bind _ _ _ _ (λ _, valid_hash d = true)); [by apply still_demand|]. intros [] Hd.
  eapply (still_bind _ _ _ _ (λ _, True)); [by apply still_demand|]. intros _ _.
  eapply (still_bind _ _ _ _ (λ _, True)); [by apply still_open|]. intros [b|] _; [|by apply still_ret].
  eapply (still_bind _ _ _ _ (λ _, True)); [by apply still_demand|]. intros _ _.
  eapply (still_bind _ _ _ _ (λ _, True)); [by apply still_look|]. intros _ _.
  eapply (still_bind _ _ _ _ (λ _, True)); [by apply still_demand|]. intros _ _. by apply still_ret.
Qed.
Lemma index_key_invalid d : valid_hash d = true → valid_hash (lit "index:" ++ d) = false.
Proof.
  unfold valid_hash. intros [Hl%bool_decide_eq_true _]%andb_true_iff. apply andb_false_iff. left. apply bool_decide_eq_false_2.
  rewrite length_app Hl. by compute.
Qed.
Lemma does_pin_index fs s d : good fs s → does fs s (pin_index env d) (λ _, good) bad.
Proof.
  intros Hg. assert (∀ e, refusal e → bad e fs s) as Hbad by (intros; by eapply good_bad).
  eapply does_quiet; [apply still_read_index|done|]. intros b Hd.
  eapply does_quiet; [by apply (still_some fs s _ _ (λ _, True))|done|]. intros b' _.
  eapply does_mono; [apply does_pin_key; [done|]| |done].
  - intros Hv. by rewrite index_key_invalid in Hv.
  - by intros [] f t [? _].
Qed.
Lemma does_write_index fs s d n payload : good fs s → does fs s (write_index env d n payload) (λ _, good) bad.
Proof.
  intros Hg. eapply does_quiet; [by apply (still_demand fs s _ _ (λ _, True))|intros; by eapply good_bad|]. intros _ _.
  eapply does_bind; [by apply does_begin|]. intros st f t (Hgf & _ & Hst & Hf).
  assert (∀ A (m : X A) Q, aside f t m Q → does f t m (λ a f t, weak f t ∧ True) (λ e f t, disk_sound f ∧ (refusal e → weak f t))) as Haside.
  { intros A m Q Hm. eapply does_mono; [exact Hm|..]; simpl.
    - intros a f' t' (Hn & -> & _). split; [by eapply weak_narrows, good_weak|done].
    - intros e f' t' (Hn & ->). apply (weak_spoilt f); [by apply good_weak|done]. }
  eapply (does_staged _ _ _ _ (λ _ _, True)); [done| |done]. apply (Haside _ _ (λ _ _, True)).
  eapply aside_bind; [by apply (still_aside _ _ _ (λ _, True) (λ _ f', f' = f)); [apply still_some|]|]. intros b ? _ ->.
  eapply aside_bind; [by apply (still_aside _ _ _ (λ _, True) (λ _ f', f' = f)); [apply still_demand|]|]. intros _ ? _ ->.
  assert (¬ watched (st_path st)) as Ha by by apply staging_aside.
  eapply aside_bind; [by apply (aside_write env f t _ b (λ _ f, files f !! st_path st = Some (mkFile b false)))|]. intros [] f1 _ Hf1.
  eapply aside_bind; [by apply (still_aside _ _ _ (λ _, True) (λ _ f', f' = f1)); [apply still_look|]|]. intros _ ? _ ->.
  eapply aside_bind; [by apply (still_aside _ _ _ (λ _, True) (λ _ f', f' = f1)); [apply still_demand|]|]. intros _ ? _ ->.
  eapply aside_bind; [by eapply (aside_sync env f1 t _ _ (λ _ _, True))|]. intros _ f2 _ _.
  eapply aside_bind; [by apply (still_aside _ _ _ (λ _, True) (λ _ _, True)); [apply still_open|]|]. intros _ f3 _ _.
  eapply aside_bind; [by apply (aside_rename env f3 t _ _ (λ _ _, True)); [|apply index_aside|]|]. intros _ f4 _ _.
  eapply aside_bind; [|intros o f5 _ _; by apply aside_ret].
  apply (aside_catch _ _ _ (λ _ _, True) (λ _ _, True)); [|done..].
  eapply aside_bind; [by apply (aside_sync_dir env f4 t _ (λ _ _, True))|]. intros _ f6 _ _. by apply aside_sync_dir.
Qed.

(** *** Reconciling *)
Lemma does_reconcile fs s : good fs s → does fs s (reconcile_sync env) (λ _, good) bad.
Proof.
  intros Hg. assert (∀ e, refusal e → bad e fs s) as Hbad by (intros; by eapply good_bad).
  eapply does_quiet; [by apply (still_open env fs s _ (λ b, b = data <$> files fs !! catalog_path))|done|]. intros ? ->.
  eapply does_quiet; [by apply (still_some fs s _ _ (λ b, data <$> files fs !! catalog_path = Some b))|done|]. intros b Hb.
  eapply does_quiet; [by apply (still_read_catalog env fs s b (λ c, decode_catalog b = Some c))|done|]. intros c Hc.
  apply fmap_Some in Hb as (f & Hf & ->).
  assert (c = catalog s) as ->.
  { destruct (ss_catalog _ _ (b_store _ _ (g_base _ _ Hg))) as (f' & Hf' & Hc'). congruence. }
  eapply does_aside; [by apply (aside_sync_dir env fs s Root (λ _ f, settled f catalog_path)), settle_settled|intros; by eapply good_bad|]. intros [] f1 Hn Hs.
  eapply (does_bind _ _ _ _ (λ _ f t, f = f1 ∧ t = set_catalog (catalog s) s)); [by apply does_modify|]. intros _ ? ? (-> & ->).
  apply does_modify. split; [|done]. apply uncertain_base. apply (base_narrows _ _ _ Hn). destruct s. apply Hg.
Qed.
Lemma does_set_quota fs s q : good fs s → does fs s (set_quota env q) (λ _, good) bad.
Proof.
  intros Hg. assert (∀ e, refusal e → bad e fs s) as Hbad by (intros; by eapply good_bad).
  eapply does_quiet; [by apply (still_disk_bytes env fs s (λ _, True))|done|]. intros n _.
  eapply does_quiet; [by apply (still_demand fs s _ _ (λ _, True))|done|]. intros _ _.
  apply does_modify. destruct Hg as [[Hd [Hc Hp] Ha] Hu]. split; [split; [done|split; [done|exact Hp]|done]|done].
Qed.
Lemma does_statuses fs s l : good fs s → does fs s (sync_statuses env l) (λ _, good) bad.
Proof.
  revert fs s. induction l as [|r l IH]; intros fs s Hg; simpl; [by apply does_ret|].
  eapply does_quiet; [by apply (still_store fs s (λ t, t = s))|intros; by eapply good_bad|]. intros ? ->.
  eapply (does_bind _ _ _ _ (λ _, good)); [|intros [] f t; apply IH].
  destruct (record_of _ _) as [r'|]; [|by apply does_ret]. destruct (_ && _); [|by apply does_ret].
  eapply (does_bind _ _ _ _ (λ _, good)); [|intros o f t Hf; by apply does_ret].
  eapply does_mono; [by apply does_update_status, g_base|intros o f t; apply cm_good|intros e f t; by apply undone_bad].
Qed.
Lemma does_references_good fs s cur prev : good fs s → does fs s (let* _ := set_references env cur prev in ret tt) (λ _, good) bad.
Proof.
  intros Hg. eapply (does_bind _ _ _ _ (λ _, good)); [|intros o f t Hf; by apply does_ret].
  eapply does_mono; [by apply does_set_references, g_base| |intros e f t; by apply undone_bad]. intros o f t (c & _ & _ & Hc). by eapply cm_good.
Qed.
Lemma does_sync_roots fs s cur prev q l : good fs s → does fs s (sync_roots env cur prev q l) (λ _, good) bad.
Proof.
  intros Hg. eapply does_bind; [by apply does_reconcile|]. intros [] f1 t1 Hg1.
  eapply does_bind; [by apply does_references_good|]. intros [] f2 t2 Hg2.
  eapply does_bind; [by apply does_set_quota|]. intros [] f3 t3 Hg3. by apply does_statuses.
Qed.

(** *** Opening *)
Definition closed (e : StoreError) (fs : Fs) (s : Store) : Prop := disk_sound fs.
Lemma cleanup_aside d prefix name fs s :
  d = StagingDir ∨ d = Root ∧ strip_prefix prefix CATALOG = None → aside fs s (cleanup_one env d prefix name) (λ _ _, True).
Proof.
  intros Hd. unfold cleanup_one. destruct (strip_prefix prefix name) as [rest|] eqn:Hp; simpl; [|by apply aside_ret].
  assert (¬ watched (d, name)) as Hw.
  { destruct Hd as [->|[-> Hn]]; [by apply staging_aside|]. intros [[= ->]|[=]]. rewrite Hn in Hp. done. }
  destruct (strip_suffix _ rest) as [h|]; [|by apply aside_ret]. destruct (valid_hash h); [|by apply aside_ret].
  eapply aside_bind; [by apply (still_aside _ _ _ (λ _, True) (λ _ _, True)); [apply still_open|]|]. intros [b|] f _ _; [by apply aside_remove|by apply aside_ret].
Qed.
Lemma aside_clean d prefix fs s :
  d = StagingDir ∨ d = Root ∧ strip_prefix prefix CATALOG = None →
  aside fs s (let* l := read_dir env d in for_each l (cleanup_one env d prefix)) (λ _ _, True).
Proof.
  intros Hd. eapply aside_bind; [by apply (still_aside _ _ _ (λ _, True) (λ _ _, True)); [apply still_read_dir|]|]. intros l f _ _.
  apply aside_for_each. intros. by apply cleanup_aside.
Qed.
Lemma aside_cleanup fs s : aside fs s (cleanup_staging env) (λ _ _, True).
Proof.
  unfold cleanup_staging. eapply aside_bind; [by apply aside_clean; left|]. intros _ f _ _.
  eapply aside_bind; [by apply aside_clean; left|]. intros _ f' _ _. apply aside_clean. by right.
Qed.
Lemma aside_private_dir fs s d : aside fs s (private_dir env d) (λ _ _, True).
Proof.
  eapply aside_bind; [by apply (still_aside _ _ _ (λ f, f = fs) (λ f f', f = fs ∧ f' = fs)); [apply still_fs|]|]. intros ? ? _ [-> ->].
  case_bool_decide; [by apply (still_aside _ _ _ (λ _, True)); [apply still_look|]|].
  eapply aside_bind; [by apply (aside_change env fs s _ (λ _ _, True)), I; apply narrows_dir|]. intros _ f _ _. by apply aside_sync_dir.
Qed.
Lemma still_load_catalog fs s :
  still fs s (load_catalog env)
    (λ c, match files fs !! catalog_path with Some f => decode_catalog (data f) = Some c | None => c = catalog_default end).
Proof.
  eapply (still_bind _ _ _ _ (λ b, b = data <$> files fs !! catalog_path)); [by apply still_open|]. intros ? ->.
  destruct (files fs !! catalog_path) as [f|]; simpl; [by apply still_read_catalog|].
  eapply (still_bind _ _ _ _ (λ _, True)); [by apply still_read_dir|]. intros l _.
  eapply (still_bind _ _ _ _ (λ _, True)); [by apply still_fs|]. intros f _.
  eapply (still_bind _ _ _ _ (λ _, True)); [by apply still_demand|]. intros _ _. by apply still_ret.
Qed.
Lemma fresh_held fs c q : disk_sound fs → held fs (mkStore c q false false ∅).
Proof. intros Hd. split; [done| |done]. intros h n Hh. simpl in Hh. by rewrite lookup_empty in Hh. Qed.
Lemma does_open fs s q : disk_sound fs → does fs s (open env q) (λ _, base) closed.
Proof.
  intros Hd. eapply does_quiet; [apply still_load_catalog|done|]. intros c Hc. set (s1 := mkStore c q false false ∅).
  eapply (does_bind _ _ _ _ (λ _ f t, f = fs ∧ t = s1)); [by apply does_modify|]. intros _ ? ? (-> & ->).
  assert (held fs s1) as Hh by by apply fresh_held.
  eapply (does_quiet _ _ _ _ (λ f, f = fs)); [by apply still_fs|done|]. intros ? ->.
  eapply (does_bind _ _ _ _ (λ _, base)).
  { destruct (files fs !! catalog_path) as [f|] eqn:Hf.
    - rewrite bool_decide_true; [|done]. apply does_ret. split; [done| |by apply Hh]. split; [|by apply Hh]. by exists f.
    - rewrite bool_decide_false; [|by intros []]. subst c. eapply (does_bind _ _ _ _ (λ _, base)).
      + eapply does_mono; [apply (does_commit_catalog (λ _, True)); [done|done| |intros; apply still_true]|..].
        * intros r Hr. by apply not_elem_of_nil in Hr.
        * intros o f t Ht. by eapply g_base, cm_good.
        * intros [|r] f t Hu; [apply Hu|]. destruct Hu as [Hn ->]. by eapply disk_sound_narrows.
      + intros o f t Hb. eapply does_mono; [by apply (still_demand f t _ _ (λ _, True))|..]; simpl.
        * by intros _ f' t' (-> & -> & _).
        * intros e f' t' (_ & -> & ->). by apply b_disk in Hb. }
  intros [] f t Hb.
  eapply does_mono with (Q := λ _ f' t', narrows f f' ∧ t' = t ∧ True) (R := λ _ f' t', narrows f f' ∧ t' = t).
  - eapply aside_bind; [apply aside_for_each; intros; apply aside_private_dir|]. intros _ f1 _ _.
    eapply aside_bind; [by apply (still_aside _ _ _ (λ _, True) (λ _ _, True)); [apply still_disk_bytes|]|]. intros n f2 _ _.
    eapply aside_bind; [by apply (still_aside _ _ _ (λ _, True) (λ _ _, True)); [apply still_demand|]|]. intros _ f3 _ _.
    eapply aside_bind; [apply aside_cleanup|]. intros _ f4 _ _.
    eapply aside_bind; [by apply (still_aside _ _ _ (λ _, True) (λ _ _, True)); [apply still_disk_bytes|]|]. intros n' f5 _ _.
    by apply (still_aside _ _ _ (λ _, True)); [apply still_demand|].
  - intros _ f' t' (Hn & -> & _). by eapply base_narrows.
  - intros e f' t' (Hn & ->). eapply disk_sound_narrows; [done|apply Hb].
Qed.
Lemma does_open_with_roots fs s q cur prev : disk_sound fs → does fs s (open_with_roots env q cur prev) (λ _, good) closed.
Proof.
  intros Hd. eapply does_bind; [by apply does_open|]. intros [] f t Hb.
  eapply (does_bind _ _ _ _ (λ _, good)); [|intros o f' t' Hf; by apply does_ret].
  eapply does_mono; [by apply does_set_references| |]; simpl.
  - intros o f' t' (c & _ & _ & Hc). by eapply cm_good.
  - intros [|r] f' t' Hu; [apply Hu|]. destruct Hu as [Hn ->]. eapply disk_sound_narrows; [done|apply Hb].
Qed.
End operations.

(** ** The system *)
(** What the service does with an open store. [Install] and [Pin] are one step,
    as under its lock. *)
Inductive Op : Type :=
  | Begin (reserve : Z) | Discard (st : Staging) | Install (st : Staging) (m : PreparedMetadata) (now : Z)
  | Commit (l : list SourceRecord) (statuses : list (Str * SourceStatus)) (expected_revision : Z)
  | SetReferences (cur prev : list Str) | UpdateStatus (f : Str) (st : SourceStatus) | Collect (now : Z) (needs_download : bool)
  | Pin (h : Str) | PinIndex (digest : Str) | Unpin (k : Str) | WriteIndex (digest : Str) (max_bytes : Z) (payload : option (list Z))
  | Reconcile | SyncRoots (cur prev : list Str) (max_disk : Z) (statuses : list SourceRecord) | SetQuota (max_disk : Z).
Definition ignore {A} (m : X A) : X unit := let* _ := m in ret tt.
Definition kept (s : Store) (h : Str) : Prop := valid_hash h = true ∧ keeps s h = true.
(** Only digests that the store keeps are pinned or committed, and only its own
    staging file is installed. *)
Definition allowed (op : Op) (s : Store) : Prop :=
  match op with
  | Discard st => (st_path st).1 = StagingDir
  | Install st _ _ => active s = true ∧ (st_path st).1 = StagingDir
  | Commit l _ _ => Forall (λ r, kept s (sha256 r)) l
  | Pin h => kept s h
  | _ => True
  end.
(** [remains v v']: [v'] is what a power failure leaves of [v]. *)
Definition remains (v v' : option File) : Prop :=
  match v, v' with
  | None, None => True
  | Some f, Some f' => safe f' = true ∧ (safe f = true → f' = f)
  | _, _ => False
  end.
Definition lost (fs fs' : Fs) : Prop :=
  (∀ p, ∃ v, possible fs p v ∧ remains v (files fs' !! p)) ∧ (∀ p, settled fs' p) ∧ subdirs fs' = subdirs fs.
Definition empty_fs : Fs := mkFs ∅ ∅ [].
Definition Sys : Type := Fs * option Store.

Section system.
Context `{WebLib} `{StoreSpec}.
Definition run_op (env : Env) (op : Op) : X unit :=
  match op with
  | Begin n => ignore (begin_staging env n)
  | Discard st => discard env st
  | Install st m now => let* r := install_object env st m now in pin env (sha256 r)
  | Commit l sts n => ignore (commit_batch_with_check env l sts n)
  | SetReferences cur prev => ignore (set_references env cur prev)
  | UpdateStatus f st => ignore (update_status env f st)
  | Collect now needs => collect_for_download env now needs
  | Pin h => pin env h
  | PinIndex d => pin_index env d
  | Unpin k => unpin k
  | WriteIndex d n p => ignore (write_index env d n p)
  | Reconcile => reconcile_sync env
  | SyncRoots cur prev q l => sync_roots env cur prev q l
  | SetQuota q => set_quota env q
  end.
(** The process ends with a crash; an open that fails leaves no store. *)
Inductive step : Sys → Sys → Prop :=
  | step_op env op fs s t r w : allowed op s → run_op env op (mkWorld fs s t) = (r, w) →
      step (fs, Some s) (disk w, match r with Err Crashed => None | _ => Some (store w) end)
  | step_open env q cur prev fs o s t r w : open_with_roots env q cur prev (mkWorld fs s t) = (r, w) →
      step (fs, o) (disk w, match r with Ok _ => Some (store w) | _ => None end)
  | step_write n d fs o : step (fs, o) (set_data (StagingDir, n) d false fs, o)
  | step_exit fs o : step (fs, o) (fs, None)
  | step_power fs fs' o : lost fs fs' → step (fs, o) (fs', None).
Definition reachable : Sys → Prop := rtc step (empty_fs, None).
Definition sys_good (x : Sys) : Prop := disk_sound x.1 ∧ ∀ s, x.2 = Some s → good x.1 s.

Lemma does_ignore {A} fs s (m : X A) Q R : does fs s m (λ _, Q) R → does fs s (ignore m) (λ _, Q) R.
Proof. intros Hm. eapply does_bind; [exact Hm|]. intros a f t Ht. by apply does_ret. Qed.
Lemma does_op env op fs s : good fs s → allowed op s → does fs s (run_op env op) (λ _, good) bad.
Proof.
  intros Hg Ha. assert (base fs s) as Hb by by apply g_base. assert (∀ P e f t, undone P fs s e f t → bad e f t) as Hun by (intros P e f t; by apply undone_bad).
  destruct op; simpl in *.
  - apply does_ignore. eapply does_mono; [by apply does_begin| |done]. by intros st f t [? _].
  - by apply does_discard.
  - destruct Ha. eapply does_bind; [by apply does_install|]. intros r f t (Hgf & _ & Hs). by apply does_pin.
  - apply does_ignore. eapply does_mono; [apply does_commit_batch; [done|]| |apply Hun].
    + intros r Hr. rewrite Forall_forall in Ha. destruct (Ha r Hr) as [Hv Hk]. by eapply keeps_sure.
    + intros o f t (c & _ & Hc). by eapply cm_good.
  - apply does_ignore. eapply does_mono; [by apply does_set_references| |apply Hun]. intros o f t (c & _ & _ & Hc). by eapply cm_good.
  - apply does_ignore. eapply does_mono; [by apply does_update_status| |apply Hun]. intros o f' t. apply cm_good.
  - by apply does_collect_for_download.
  - destruct Ha. apply does_pin; [done|]. by eapply keeps_sure.
  - by apply does_pin_index.
  - by apply does_unpin.
  - apply does_ignore. by apply does_write_index.
  - by apply does_reconcile.
  - by apply does_sync_roots.
  - by apply does_set_quota.
Qed.
Lemma lost_possible fs fs' p v : lost fs fs' → possible fs' p v → ∃ v0, possible fs p v0 ∧ remains v0 v.
Proof. intros (Hp & Hs & _) Hv. apply settled_possible in Hv as ->; [|done]. apply Hp. Qed.
Lemma lost_sure fs fs' h : lost fs fs' → sure fs h → sure fs' h.
Proof. intros Hl Hs v Hv. apply (lost_possible fs) in Hv as (v0 & Hv0 & Hr); [|done]. apply Hs in Hv0 as [f ->]. by destruct v. Qed.
Lemma lost_sound fs fs' : lost fs fs' → disk_sound fs → disk_sound fs'.
Proof.
  intros Hl [Hc Ho]. split.
  - intros f Hf. apply (lost_possible fs) in Hf as (v0 & Hf & Hr); [|done]. destruct v0 as [f0|]; [|destruct Hr].
    destruct (Hc f0 Hf) as (Hs & Hlen & c & Hd & Hv & Hall). destruct Hr as [_ ->]; [|done]. split; [done|]. split; [done|].
    exists c. split; [done|]. split; [done|]. eauto using lost_sure.
  - intros h f Hh Hf. apply (lost_possible fs) in Hf as (v0 & Hf & Hr); [|done]. destruct v0 as [f0|]; [|destruct Hr].
    destruct (Ho h f0 Hh Hf) as (Hs & ? & ?). by destruct Hr as [_ ->].
Qed.
Lemma step_good x y : sys_good x → step x y → sys_good y.
Proof.
  intros [Hd Hs] Hstep. destruct Hstep as [env op fs s t r w Ha Hr|env q cur prev fs o s t r w Hr|n d fs o|fs o|fs fs' o Hl]; simpl in *.
  - pose proof (does_op env op fs s (Hs s eq_refl) Ha t) as Hw. unfold wp in Hw. rewrite Hr in Hw. destruct r as [a|[|e]| |]; try done.
    + split; [by eapply good_disk|]. by intros s' [= <-].
    + split; [exact (proj1 Hw)|done].
    + split; [exact (proj1 Hw)|]. intros s' [= <-]. by apply Hw.
  - pose proof (does_open_with_roots env fs s q cur prev Hd t) as Hw. unfold wp in Hw. rewrite Hr in Hw. destruct r as [a|e| |]; try done.
    split; [by eapply good_disk|]. by intros s' [= <-].
  - assert (narrows fs (set_data (StagingDir, n) d false fs)) as Hn by by apply narrows_data, staging_aside.
    split; [by eapply disk_sound_narrows|]. intros s Hs'. eapply good_narrows; [done|]. by apply Hs.
  - done.
  - split; [by eapply lost_sound|done].
Qed.
Lemma empty_sound : disk_sound empty_fs.
Proof. split; [intros f [Hf|Hf]|intros h f _ [Hf|Hf]]; simpl in Hf; rewrite ?lookup_empty in Hf; try done; by apply not_elem_of_nil in Hf. Qed.
Lemma reachable_good x : reachable x → sys_good x.
Proof.
  intros Hr. assert (sys_good (empty_fs, None)) as Hi by (split; [apply empty_sound|done]).
  revert Hi. induction Hr as [x|x y z Hxy _ IH]; [done|]. intros Hx. apply IH. by eapply step_good.
Qed.
Lemma sure_object fs h : disk_sound fs → valid_hash h = true → sure fs h → ∃ g, files fs !! object_path h = Some g ∧ sha256_hex (data g) = h.
Proof. intros Hd Hh Hs. destruct (Hs (files fs !! object_path h)) as [g Hg]; [by left|]. exists g. split; [done|]. eapply ds_object; [done..|]. by left. Qed.
Lemma record_hash c r : catalog_valid c = true → r ∈ records c → valid_hash (sha256 r) = true.
Proof.
  unfold catalog_valid. rewrite !andb_true_iff. intros [[[[_ Hv] _] _] _] Hr. rewrite forallb_forall in Hv.
  specialize (Hv r (proj1 (list_elem_of_In _ _) Hr)). unfold record_valid in Hv. rewrite !andb_true_iff in Hv. tauto.
Qed.

(** C2. Whatever the service does, whichever calls fail, and wherever a crash
    cuts it off: the catalog that the disk holds then, or after a power failure,
    can be read, is valid, and each source it selects has its object, with the
    digest the catalog names. As long as the store is not uncertain this catalog
    is the one in memory, and the objects that are pinned are there as well. *)
Theorem selected_material_survives fs o :
  reachable (fs, o) → ∀ fs', fs' = fs ∨ lost fs fs' →
  (∀ f, files fs' !! catalog_path = Some f →
    Z.of_nat (length (data f)) ≤ MAX_CATALOG ∧
    ∃ c, decode_catalog (data f) = Some c ∧ catalog_valid c = true ∧
      ∀ r, r ∈ records c → ∃ g, files fs' !! object_path (sha256 r) = Some g ∧ sha256_hex (data g) = sha256 r) ∧
  (∀ s, o = Some s →
    (uncertain s = false → ∃ f, files fs' !! catalog_path = Some f ∧ decode_catalog (data f) = Some (catalog s)) ∧
    ∀ h, valid_hash h = true → is_Some (pins s !! h) → ∃ g, files fs' !! object_path h = Some g ∧ sha256_hex (data g) = h).
Proof.
  intros Hr fs' Hfs. destruct (reachable_good _ Hr) as [Hd Hs]. simpl in Hd, Hs.
  assert (disk_sound fs' ∧ ∀ h, sure fs h → sure fs' h) as [Hd' Hsure] by (destruct Hfs as [->|Hl]; [done|]; eauto using lost_sound, lost_sure).
  split.
  - intros f Hf. destruct (ds_catalog _ Hd' f) as (_ & Hlen & c & Hc & Hv & Hall); [by left|]. split; [done|].
    exists c. split; [done|]. split; [done|]. intros r Hr'. apply sure_object; [done|by eapply record_hash|by apply Hall].
  - intros s ->. destruct (Hs s eq_refl) as [[_ [[f [Hf Hc]] Hp] _] Hu]. split.
    + intros Hun. exists f. split; [|done]. destruct Hfs as [->|Hl]; [done|]. destruct Hl as (Hl & _).
      destruct (Hl catalog_path) as (v & Hv & Hrem). apply settled_possible in Hv as ->; [|by apply Hu]. rewrite Hf in Hrem.
      destruct (files fs' !! catalog_path) as [f'|]; [|done]. destruct Hrem as [_ ->]; [done|].
      eapply ds_catalog; [exact Hd|]. left. by rewrite Hf.
    + intros h Hh [n Hn]. apply sure_object; [done..|]. apply Hsure. by apply (Hp h n Hn).
Qed.

(** C14. Committing the sources [l] of which the store keeps the objects takes
    effect as a whole or not at all: after an error memory and disk hold the
    selection they held before; after success both hold the new one, which
    selects every source of [l], keeps every other source up to its status except
    unreferenced ones without a pin, and counts a new revision exactly when a
    choice changed. It is durable unless the outcome says otherwise. A crash leaves
    one of the two on the disk. *)
Theorem commit_replaces_the_selection env fs s l statuses expected t :
  reachable (fs, Some s) → Forall (λ r, kept s (sha256 r)) l →
  match commit_batch_with_check env l statuses expected (mkWorld fs s t) with
  | (Ok o, w) => batch_result s l (catalog (store w)) ∧
                 files (disk w) !! catalog_path = Some (mkFile (encode_catalog (catalog (store w))) true) ∧
                 uncertain (store w) = bool_decide (o = CommittedUncertain) ∧ (o = Durable → settled (disk w) catalog_path)
  | (Err (Refused _), w) => store w = s ∧ files (disk w) !! catalog_path = files fs !! catalog_path
  | (Err Crashed, w) => files (disk w) !! catalog_path = files fs !! catalog_path ∨
                        ∃ c, batch_result s l c ∧ files (disk w) !! catalog_path = Some (mkFile (encode_catalog c) true)
  | _ => False
  end.
Proof.
  intros Hr Hl. destruct (reachable_good _ Hr) as [_ Hs]. specialize (Hs s eq_refl). simpl in Hs.
  assert (∀ r, r ∈ l → sure fs (sha256 r)) as Hsure.
  { intros r Hr'. rewrite Forall_forall in Hl. destruct (Hl r Hr') as [Hv Hk]. eapply keeps_sure; [by apply g_base|done..]. }
  pose proof (does_commit_batch env fs s l statuses expected (g_base _ _ Hs) Hsure t) as Hw. unfold wp in Hw.
  destruct (commit_batch_with_check _ _ _ _ _) as [[o|[|e]| |] w]; try done.
  - destruct Hw as (c & Hb & [Hf Hst Hdur _ _ _]). rewrite Hst. simpl. auto.
  - apply Hw.
  - destruct Hw as [Hn ->]. split; [done|]. apply Hn, watched_catalog.
Qed.

(** No operation of the service panics or runs forever: a pin that is
    dropped was counted, and trimming ends. *)
Theorem store_operations_end env op fs s t :
  reachable (fs, Some s) → allowed op s → match (run_op env op (mkWorld fs s t)).1 with Ok _ | Err _ => True | _ => False end.
Proof.
  intros Hr Ha. destruct (reachable_good _ Hr) as [_ Hs]. pose proof (does_op env op fs s (Hs s eq_refl) Ha t) as Hw. unfold wp in Hw.
  by destruct (run_op _ _ _) as [[] w].
Qed.
End system.

(** ** The hypotheses can hold *)
Module StoreWitness.
(** A text form of the catalog that can be read back. *)
Record Codec (A : Type) : Type := mkCodec {
  pr : A → list Z;
  pa : list Z → option (A * list Z);
  pa_pr a t : pa (pr a ++ t) = Some (a, t);
}.
Arguments pr {A}.
Arguments pa {A}.
Definition codec_Z : Codec Z.
Proof. refine (mkCodec Z (λ n, [n]) (λ t, match t with n :: t => Some (n, t) | [] => None end) _). done. Defined.
Fixpoint read_list {A} (c : Codec A) (n : nat) (t : list Z) : option (list A * list Z) :=
  match n with
  | O => Some ([], t)
  | S n => '(a, t) ← pa c t; '(l, t) ← read_list c n t; Some (a :: l, t)
  end.
Lemma read_list_law {A} (c : Codec A) l t : read_list c (length l) (mjoin (pr c <$> l) ++ t) = Some (l, t).
Proof. induction l as [|a l IH]; [done|]. by rewrite fmap_cons /= -app_assoc pa_pr /= IH. Qed.
Definition codec_list {A} (c : Codec A) : Codec (list A).
Proof.
  refine (mkCodec _ (λ l, Z.of_nat (length l) :: mjoin (pr c <$> l)) (λ t, match t with n :: t => read_list c (Z.to_nat n) t | [] => None end) _).
  intros l t. simpl. rewrite Nat2Z.id. apply read_list_law.
Defined.
Definition codec_option {A} (c : Codec A) : Codec (option A).
Proof.
  refine (mkCodec _ (λ o, match o with Some a => 1 :: pr c a | None => [0] end)
    (λ t, match t with 1 :: t => '(a, t) ← pa c t; Some (Some a, t) | 0 :: t => Some (None, t) | _ => None end) _).
  intros [a|] t; [|done]. by rewrite /= pa_pr.
Defined.
Definition codec_prod {A B} (c : Codec A) (d : Codec B) : Codec (A * B).
Proof.
  refine (mkCodec _ (λ p, pr c p.1 ++ pr d p.2) (λ t, '(a, t) ← pa c t; '(b, t) ← pa d t; Some ((a, b), t)) _).
  intros [a b] t. by rewrite -app_assoc pa_pr /= pa_pr.
Defined.
Definition codec_iso {A B} (f : A → B) (g : B → A) (Hfg : ∀ b, f (g b) = b) (c : Codec A) : Codec B.
Proof.
  refine (mkCodec _ (λ b, pr c (g b)) (λ t, '(a, t) ← pa c t; Some (f a, t)) _).
  intros b t. by rewrite pa_pr /= Hfg.
Defined.
Definition codec_str : Codec Str := codec_list codec_Z.
Definition codec_status : Codec SourceStatus.
Proof.
  refine (codec_iso (λ '(a, b, c, d, e), mkSourceStatus a b c d e) (λ s, (last_attempt s, next_update s, failures s, last_error s, error_line s)) _
    (codec_prod (codec_prod (codec_prod (codec_prod (codec_option codec_Z) (codec_option codec_Z)) codec_Z) (codec_option codec_str)) (codec_option codec_Z))).
  by intros [].
Defined.
Definition codec_validators : Codec Validators.
Proof.
  refine (codec_iso (λ '(a, b, c, d, e), mkValidators a b c d e) (λ v, (final_url v, representation v, content_sha256 v, etag v, last_modified v)) _
    (codec_prod (codec_prod (codec_prod (codec_prod codec_str codec_str) codec_str) (codec_option codec_str)) (codec_option codec_str))).
  by intros [].
Defined.
Definition codec_record : Codec SourceRecord.
Proof.
  refine (codec_iso (λ '(a, b, c, d, e, f, g), mkSourceRecord a b c d e f g)
    (λ r, (fingerprint r, sha256 r, bytes r, s_rules r, validators r, prepared_at r, status r)) _
    (codec_prod (codec_prod (codec_prod (codec_prod (codec_prod (codec_prod codec_str codec_str) codec_Z) codec_Z) codec_validators) codec_Z) codec_status)).
  by intros [].
Defined.
Definition codec_catalog : Codec Catalog.
Proof.
  refine (codec_iso (λ '(a, b, c, d, e), mkCatalog a b c d e) (λ c, (schema c, content_revision c, current c, previous c, records c)) _
    (codec_prod (codec_prod (codec_prod (codec_prod codec_Z codec_Z) (codec_list codec_str)) (codec_list codec_str)) (codec_list codec_record))).
  by intros [].
Defined.
#[local] Instance web : WebLib := {|
  url_parse s := Some (mkUrl (lit "https") [] None None (Some (Domain s)) None s);
  url_join _ _ := None;
  uri_parse _ := None;
  header_value _ := true;
  to_str := Some;
  http_date _ := None;
  sha256_hex b := replicate 63 48 ++ [48 + foldr Z.add 0 b mod 10];
  Decoder := unit;
  new_gzip := tt;
  decompress _ _ := None;
|}.
#[local] Instance lib : StoreLib := {| encode_catalog := pr codec_catalog; decode_catalog b := fst <$> pa codec_catalog b |}.
#[local] Instance spec : StoreSpec.
Proof. split. intros c. pose proof (pa_pr _ codec_catalog c []) as Hp. rewrite app_nil_r in Hp. unfold decode_catalog, encode_catalog, lib. by rewrite Hp. Defined.
Definition calm : Env := mkEnv (λ _, None) (λ _, false) (λ _, []) (λ _, replicate 64 97) (λ _ l, l) (λ _ _, 0) (λ _ _, 0) (λ _, true).
Definition hash : Str := replicate 63 48 ++ [54].
Definition source : Str := replicate 64 98.
Definition meta : PreparedMetadata := mkPrepared source hash 3 1 (mkValidators (lit "https://example/") REPRESENTATION hash None None).
Definition staged : Staging := mkStaging (staging_path (lit "download") (replicate 64 97)) 100.
Definition chosen : SourceRecord := prepared_record meta 5.
Definition blank : Store := mkStore catalog_default 0 false false ∅.
(** The service opens the store, downloads a source, installs and selects it. *)
Definition ran (r : outcome StoreError unit * World) : Sys := (disk r.2, match r.1 with Err Crashed => None | _ => Some (store r.2) end).
Definition world (x : Sys) : World := mkWorld x.1 (default blank x.2) 0.
Definition opened : Sys :=
  let r := open_with_roots calm 1000000 [source] [] (mkWorld empty_fs blank 0) in (disk r.2, match r.1 with Ok _ => Some (store r.2) | _ => None end).
Definition begun : Sys := ran (run_op calm (Begin 100) (world opened)).
Definition written : Sys := (set_data (StagingDir, (st_path staged).2) [1; 2; 3] false begun.1, begun.2).
Definition installed : Sys := ran (run_op calm (Install staged meta 5) (world written)).
(** Right after the commit's rename the process is cut off. *)
Definition cut : Env := mkEnv (λ t, if bool_decide (t = 13%nat) then Some (CutOff true) else None) (λ _, false) (λ _, []) (λ _, replicate 64 97) (λ _ l, l) (λ _ _, 0) (λ _ _, 0) (λ _, true).
Definition crashed : Sys := ran (run_op cut (Commit [chosen] [] 0) (world installed)).
(** Then the power fails, and the directory entry was not yet on the disk. *)
Definition old_catalog : File := mkFile (encode_catalog (catalog (default blank installed.2))) true.
Definition lights_out : Fs := mkFs (<[catalog_path := old_catalog]> (files crashed.1)) ∅ (subdirs crashed.1).
Lemma ran_step env op x : allowed op (default blank x.2) → is_Some x.2 → step x (ran (run_op env op (world x))).
Proof.
  destruct x as [fs [s|]]; intros Ha Hx; [|by destruct Hx].
  unfold ran, world. simpl fst. simpl snd. simpl default. destruct (run_op env op _) as [r w] eqn:Hr. exact (step_op env op fs s 0%nat r w Ha Hr).
Qed.
Lemma opened_reachable : reachable opened.
Proof. apply rtc_once. apply (step_open calm 1000000 [source] [] empty_fs None blank 0%nat _ _ (surjective_pairing _)). Qed.
Lemma begun_reachable : reachable begun.
Proof. eapply rtc_r; [apply opened_reachable|]. apply ran_step; [exact I|by_compute]. Qed.
Lemma written_reachable : reachable written.
Proof. eapply rtc_r; [apply begun_reachable|]. apply step_write. Qed.
Lemma installed_reachable : reachable installed.
Proof. eapply rtc_r; [apply written_reachable|]. apply ran_step; [|by_compute]. split; by_compute. Qed.
Lemma installed_kept : kept (default blank installed.2) (sha256 chosen).
Proof. split; by_compute. Qed.
Lemma chosen_kept : Forall (λ r, kept (default blank installed.2) (sha256 r)) [chosen].
Proof. constructor; [exact installed_kept|constructor]. Qed.
Lemma crashed_reachable : reachable crashed.
Proof. eapply rtc_r; [apply installed_reachable|]. apply ran_step; [exact chosen_kept|by_compute]. Qed.
Lemma reachable_down x : reachable x → x.2 = None → reachable (x.1, None).
Proof. destruct x as [fs o]. by intros Hr <-. Qed.
Lemma reachable_up x : reachable x → is_Some x.2 → reachable (x.1, Some (default blank x.2)).
Proof. destruct x as [fs o]. by intros Hr [s Hs]; simpl in *; subst o. Qed.
Lemma crashed_down : reachable (crashed.1, None).
Proof. apply (reachable_down _ crashed_reachable). vm_compute. reflexivity. Qed.
Lemma installed_up : reachable (installed.1, Some (default blank installed.2)).
Proof. apply (reachable_up _ installed_reachable). by_compute. Qed.
(** A power failure may bring back an older value of one path. *)
Lemma lost_back fs p f :
  Some f ∈ default [] (older fs !! p) → safe f = true → map_Forall (λ _ g, safe g = true) (files fs) →
  lost fs (mkFs (<[p := f]> (files fs)) ∅ (subdirs fs)).
Proof.
  intros Hp Hf Hall. split; [|split; [|done]].
  - intros q. simpl. destruct (decide (q = p)) as [->|Hne].
    + exists (Some f). rewrite lookup_insert_eq. split; [by right|]. by split.
    + exists (files fs !! q). rewrite lookup_insert_ne; [|done]. split; [by left|].
      destruct (files fs !! q) as [g|] eqn:Hg; [|done]. split; [|done]. by eapply Hall.
  - intros q. apply lookup_empty.
Qed.
Lemma crashed_older : bool_decide (Some old_catalog ∈ default [] (older crashed.1 !! catalog_path)) && bool_decide (map_Forall (λ _ g, safe g = true) (files crashed.1)) = true.
Proof. vm_compute. reflexivity. Qed.
Lemma crashed_lost : lost crashed.1 lights_out.
Proof. pose proof crashed_older as Hc. apply andb_true_iff in Hc as [Ho%bool_decide_eq_true Hs%bool_decide_eq_true]. unfold lights_out. apply lost_back; [exact Ho|exact eq_refl|exact Hs]. Qed.
Lemma lights_out_catalog : files lights_out !! catalog_path = Some old_catalog.
Proof. unfold lights_out. cbn [files]. generalize (files crashed.1) old_catalog. intros m f. apply lookup_insert_eq. Qed.
#[local] Opaque opened begun written installed crashed.
Lemma selected_material_survives_witness :
  ∃ f c, files lights_out !! catalog_path = Some f ∧ decode_catalog (data f) = Some c ∧ catalog_valid c = true.
Proof.
  destruct (selected_material_survives crashed.1 None crashed_down lights_out (or_intror crashed_lost)) as [Hc _].
  destruct (Hc old_catalog lights_out_catalog) as (_ & c & Hd & Hv & _). exists old_catalog, c. exact (conj lights_out_catalog (conj Hd Hv)).
Defined.
Lemma commit_replaces_the_selection_witness :
  match commit_batch_with_check cut [chosen] [] 0 (mkWorld installed.1 (default blank installed.2) 0) with
  | (Err Crashed, w) => files (disk w) !! catalog_path = files installed.1 !! catalog_path ∨
      ∃ c, batch_result (default blank installed.2) [chosen] c ∧ files (disk w) !! catalog_path = Some (mkFile (encode_catalog c) true)
  | _ => True
  end.
Proof.
  pose proof (commit_replaces_the_selection cut installed.1 (default blank installed.2) [chosen] [] 0 0%nat
    installed_up chosen_kept) as Hc.
  destruct (commit_batch_with_check _ _ _ _ _) as [[o|[|r]| |] w]; [exact I|exact Hc|exact I..].
Defined.
Lemma store_operations_end_witness :
  match (run_op calm (Commit [chosen] [] 0) (mkWorld installed.1 (default blank installed.2) 0)).1 with Ok _ | Err _ => True | _ => False end.
Proof. exact (store_operations_end calm (Commit [chosen] [] 0) _ _ 0%nat installed_up chosen_kept). Defined.
End StoreWitness.
