(* ===== verification/Journal.v ===== *)
(** * The update journal

    [src/update/ipc.rs] and [src/update/executor/journal.rs]: the phases of an
    update, what the root journal records of it, the public view derived from
    it, and the two judges of a launched program: the identity of the running
    executable and the readiness window. *)
From S2P Require Import Prelude Std Canonical BlockAnswer Policy Text Release.
Set Default Goal Selector "!".
Set Warnings "-rewrite-rw".
Local Open Scope Z_scope.
Local Open Scope rust_scope.

Definition valid_id (value : Str) : bool := valid_hex value 32.
Inductive Phase : Type :=
  | Accepted | Downloading | Staged | Committing | Stopping | Starting | Validating | RollingBack
  | AwaitingBootRecovery | AwaitingReadiness | Succeeded | RolledBack | Failed | Aborted | ManualRequired.
#[export] Instance Phase_eq_dec : EqDecision Phase.
Proof. solve_decision. Defined.
Definition terminal (p : Phase) : bool := bool_decide (p ∈ [Succeeded; RolledBack; Failed; Aborted; ManualRequired]).
Definition precommit (p : Phase) : bool := bool_decide (p ∈ [Accepted; Downloading; Staged]).

Record InstalledIdentity : Type := mkIdentity { build : BuildInfo; sha256 : Str }.
#[export] Instance InstalledIdentity_eq_dec : EqDecision InstalledIdentity.
Proof. solve_decision. Defined.
Record DownloadTuple : Type := mkTuple {
  release_id : Z;
  dl_tag : Str;
  manifest_sha256 : Str;
  asset_id : Z;
  asset_name : Str;
  dl_size : Z;
  dl_sha256 : Str;
}.
Inductive Request : Type :=
  | Stage (download : DownloadTuple) (current_sha256 invocation_id : Str) (config_revision : Z)
  | Commit (invocation_id : Str) (config_revision : Z)
  | Abort_
  | VerifyRecovery.
Record Inbox : Type := mkInbox { i_schema : Z; i_operation_id : Str; i_phase_nonce : Str; i_request : Request }.
(** [Inbox::parse] after decoding. *)
Definition inbox_valid (i : Inbox) : bool :=
  bool_decide (i_schema i = 1) && valid_id (i_operation_id i) && valid_id (i_phase_nonce i) &&
  match i_request i with
  | Stage _ current invocation _ => valid_sha256 current && valid_id invocation
  | Commit invocation _ => valid_id invocation
  | _ => true
  end.
Record PendingLaunch : Type := mkLaunch {
  pl_operation_id : Str;
  launch_nonce : Str;
  pl_identity : InstalledIdentity;
  skip_cache_restore : bool;
  pl_phase : Phase;
  pl_phase_nonce : Str;
  initialized : bool;
}.
Record Health : Type := mkHealth {
  h_operation_id : Str;
  h_launch_nonce : Str;
  h_identity : InstalledIdentity;
  h_config_revision : Z;
  dns_generation : Z;
  dns_ready : bool;
  storage_healthy : bool;
  storage_settings_applied : bool;
  sample_seq : Z;
  h_pid : Z;
  h_invocation_id : Str;
}.
Record OperationStatus : Type := mkStatus {
  operation_id : Str;
  phase_nonce : Str;
  phase : Phase;
  os_version : Str;
  reason : option Str;
  updated_at_ms : Z;
  downloaded_bytes : Z;
  total_bytes : Z;
}.
Record Capability : Type := mkCapability { available : bool; c_reason : option Str; checked_at_ms : Z; helper_protocol : Z; install_contract : Str }.
Record PublicStatus : Type := mkPublic {
  ps_schema : Z;
  ps_installed : InstalledIdentity;
  capability : Capability;
  active_operation : option OperationStatus;
  ps_last_operation : option OperationStatus;
  additional_terminal : option OperationStatus;
  ps_pending_launch : option PendingLaunch;
}.
Definition names (id nonce : Str) (s : OperationStatus) : bool :=
  bool_decide (operation_id s = id) && bool_decide (phase_nonce s = nonce) && terminal (phase s).
Definition terminal_for (s : PublicStatus) (id nonce : Str) : option OperationStatus :=
  snd <$> list_find (λ x, names id nonce x = true) (option_list (ps_last_operation s) ++ option_list (additional_terminal s)).

(** ** The journal *)
Record Operation : Type := mkOperation {
  op_status : OperationStatus;
  old : InstalledIdentity;
  candidate : InstalledIdentity;
  op_invocation_id : Str;
  op_config_revision : Z;
  started_at_ms : Z;
  rollback_attempted : bool;
  rollback_started : bool;
  pending_launch : option PendingLaunch;
}.
Record Installation : Type := mkInstallation { in_nonce : Str; in_config_revision : option Z; launch : PendingLaunch }.
Record Journal : Type := mkJournal {
  j_schema : Z;
  installed : InstalledIdentity;
  operation : option Operation;
  last_operation : option OperationStatus;
  installation_pending : option Installation;
}.
Definition set_phase (p : Phase) (now : Z) (s : OperationStatus) : OperationStatus :=
  mkStatus (operation_id s) (phase_nonce s) p (os_version s) (reason s) now (downloaded_bytes s) (total_bytes s).
Definition set_reason (r : option Str) (s : OperationStatus) : OperationStatus :=
  mkStatus (operation_id s) (phase_nonce s) (phase s) (os_version s) r (updated_at_ms s) (downloaded_bytes s) (total_bytes s).
Definition set_downloaded (n : Z) (s : OperationStatus) : OperationStatus :=
  mkStatus (operation_id s) (phase_nonce s) (phase s) (os_version s) (reason s) (updated_at_ms s) n (total_bytes s).
Definition with_status (f : OperationStatus → OperationStatus) (o : Operation) : Operation :=
  mkOperation (f (op_status o)) (old o) (candidate o) (op_invocation_id o) (op_config_revision o) (started_at_ms o)
    (rollback_attempted o) (rollback_started o) (pending_launch o).
Definition with_candidate (c : InstalledIdentity) (o : Operation) : Operation :=
  mkOperation (op_status o) (old o) c (op_invocation_id o) (op_config_revision o) (started_at_ms o)
    (rollback_attempted o) (rollback_started o) (pending_launch o).
Definition with_attempted (b : bool) (o : Operation) : Operation :=
  mkOperation (op_status o) (old o) (candidate o) (op_invocation_id o) (op_config_revision o) (started_at_ms o)
    b (rollback_started o) (pending_launch o).
Definition with_started (b : bool) (o : Operation) : Operation :=
  mkOperation (op_status o) (old o) (candidate o) (op_invocation_id o) (op_config_revision o) (started_at_ms o)
    (rollback_attempted o) b (pending_launch o).
Definition with_pending (l : option PendingLaunch) (o : Operation) : Operation :=
  mkOperation (op_status o) (old o) (candidate o) (op_invocation_id o) (op_config_revision o) (started_at_ms o)
    (rollback_attempted o) (rollback_started o) l.
Definition on_operation (f : Operation → Operation) (j : Journal) : Journal :=
  mkJournal (j_schema j) (installed j) (f <$> operation j) (last_operation j) (installation_pending j).
Definition with_operation (o : option Operation) (j : Journal) : Journal :=
  mkJournal (j_schema j) (installed j) o (last_operation j) (installation_pending j).
Definition with_last (s : option OperationStatus) (j : Journal) : Journal :=
  mkJournal (j_schema j) (installed j) (operation j) s (installation_pending j).
Definition with_installed (i : InstalledIdentity) (j : Journal) : Journal :=
  mkJournal (j_schema j) i (operation j) (last_operation j) (installation_pending j).
Definition with_installation (p : option Installation) (j : Journal) : Journal :=
  mkJournal (j_schema j) (installed j) (operation j) (last_operation j) p.

Definition restores_previous (p : Installation) : bool := skip_cache_restore (launch p).
Definition settled (j : Journal) : bool := match operation j with Some o => terminal (phase (op_status o)) | None => true end.
(** The checks of [Journal::load]. *)
Definition journal_valid (j : Journal) : bool :=
  bool_decide (j_schema j = 1) && valid_sha256 (sha256 (installed j)) &&
  match operation j with
  | Some o => valid_id (operation_id (op_status o)) && valid_id (phase_nonce (op_status o))
  | None => true
  end &&
  match installation_pending j with
  | Some p =>
      valid_id (in_nonce p) && bool_decide (pl_operation_id (launch p) = in_nonce p) && bool_decide (pl_phase_nonce (launch p) = in_nonce p) &&
      valid_id (launch_nonce (launch p)) && bool_decide (pl_identity (launch p) = installed j) &&
      eqb (initialized (launch p)) (bool_decide (is_Some (in_config_revision p))) &&
      match in_config_revision p with Some r => bool_decide (0 < r) | None => true end && settled j
  | None => true
  end.
Definition is_manual (j : Journal) : bool :=
  match operation j with Some o => bool_decide (phase (op_status o) = ManualRequired) | None => false end.
Definition when {A} (f : A → bool) (o : option A) : option A := o ≫= λ a, if f a then Some a else None.
Definition status (now : Z) (j : Journal) : PublicStatus :=
  let manual := is_manual j in
  let current := op_status <$> operation j in
  let installing := bool_decide (is_Some (installation_pending j)) in
  mkPublic 1 (installed j)
    (mkCapability (official_release (build (installed j)) && negb manual && negb installing)
       (if installing then Some (lit "installation_pending")
        else if manual then Some (lit "manual_recovery_required")
        else if official_release (build (installed j)) then None else Some (lit "unsupported_installation"))
       now HELPER_PROTOCOL INSTALL_CONTRACT)
    (when (λ s, negb (terminal (phase s))) current)
    (match when (λ s, terminal (phase s)) current with Some s => Some s | None => last_operation j end)
    (when (λ l, match current with Some s => terminal (phase s) && negb (bool_decide (operation_id s = operation_id l)) | None => false end) (last_operation j))
    (match operation j ≫= pending_launch with Some l => Some l | None => launch <$> installation_pending j end).
Definition finish (p : Phase) (why : option Str) (now : Z) (j : Journal) : Journal :=
  match operation j with
  | None => j
  | Some o =>
      let o := with_pending None (with_status (λ s, set_reason why (set_phase p now s)) o) in
      let j := with_operation (Some o) j in
      if match last_operation j with None => true | Some l => bool_decide (operation_id l = operation_id (op_status o)) end
      then with_last (Some (op_status o)) j else j
  end.
Definition installation (previous : option Journal) (i : InstalledIdentity) (p : Installation) : Journal :=
  mkJournal 1 i (previous ≫= operation) (previous ≫= last_operation) (Some p).
Definition supersede_manual_recovery (now : Z) (j : Journal) : Journal :=
  if match installation_pending j with Some p => negb (restores_previous p) | None => false end && is_manual j
  then finish Failed (Some (lit "superseded_by_installation")) now j else j.
(** [None] is an error, which leaves the journal alone. *)
Definition commit_journal (now : Z) (j : Journal) : option Journal :=
  o ← operation j;
  if bool_decide (phase (op_status o) = Validating)
  then Some (finish Succeeded None now (with_installed (candidate o) j)) else None.

(** ** The running program *)
(** The hash of the executable, once per process and invocation. *)
Definition ExecutableIdentity : Type := option (Z * Str * Str).
Definition verified (e : ExecutableIdentity) (health : option Health) (pid : Z) (invocation expected : Str) (hash : option Str) : bool * ExecutableIdentity :=
  if bool_decide (pid = 0) ||
     negb (match health with Some h => bool_decide (h_pid h = pid) && bool_decide (h_invocation_id h = invocation) | None => false end)
  then (false, e)
  else
    let known := match e with Some (p, i, _) => bool_decide (p = pid) && bool_decide (i = invocation) | None => false end in
    if known then (match e with Some (_, _, d) => bool_decide (d = expected) | None => false end, e)
    else match hash with
         | None => (false, e)
         | Some digest => (bool_decide (digest = expected), Some (pid, invocation, digest))
         end.
Record Readiness : Type := mkReadiness { last_seen : option (Z * Z); since : option Z }.
Definition readiness_default : Readiness := mkReadiness None None.
(** The health report is of this launch and of a working program. *)
Definition matches (h : Health) (pending : PendingLaunch) (pid : Z) (invocation : Str) (revision : Z) : bool :=
  bool_decide (h_operation_id h = pl_operation_id pending) && bool_decide (h_launch_nonce h = launch_nonce pending) &&
  bool_decide (h_identity h = pl_identity pending) && bool_decide (h_pid h = pid) && bool_decide (h_invocation_id h = invocation) &&
  bool_decide (h_config_revision h = revision) &&
  (if initialized pending
   then bool_decide (0 < dns_generation h) && dns_ready h && storage_healthy h && storage_settings_applied h
   else bool_decide (h_config_revision h = 0) && bool_decide (dns_generation h = 0) && negb (dns_ready h)).
Definition ready_since (now : Z) (s : option Z) : bool :=
  match s with Some since => bool_decide (10000 ≤ saturating_sub now since) | None => false end.
Definition observe (now : Z) (sample : option Health) (pending : PendingLaunch) (pid : Z) (invocation : Str) (revision : Z) (r : Readiness)
    : bool * Readiness :=
  match when (λ h, matches h pending pid invocation revision) sample with
  | None => (false, readiness_default)
  | Some h =>
      let since_ := match last_seen r with
                    | Some (_, at_) => if bool_decide (3000 < saturating_sub now at_) then None else since r
                    | None => since r
                    end in
      match last_seen r with
      | Some (seq, at_) =>
          if bool_decide (sample_seq h < seq) then (false, readiness_default)
          else if bool_decide (sample_seq h = seq) then
            let since_ := if bool_decide (3000 < saturating_sub now at_) then None else since_ in
            (ready_since now since_, mkReadiness (last_seen r) since_)
          else
            let since_ := Some (default now since_) in
            (ready_since now since_, mkReadiness (Some (sample_seq h, now)) since_)
      | None =>
          let since_ := Some (default now since_) in
          (ready_since now since_, mkReadiness (Some (sample_seq h, now)) since_)
      end
  end.
