(* ===== verification/Updater.v ===== *)
(** * The update executor

    [src/update/executor/mod.rs]: the root helper that stages, commits, rolls
    back and recovers updates. The disk is the journal, the published status,
    the installed program and the staging directories, each file known by its
    SHA-256. Every change of the disk may fail or be cut off by a crash, before
    or after it took effect; everything else (the clock, the service manager,
    reads, the network, what a program reports) is the environment. *)
From S2P Require Import Prelude Std Canonical BlockAnswer Policy Text Release Journal.
Set Default Goal Selector "!".
Set Warnings "-rewrite-rw".
Local Open Scope Z_scope.
Local Open Scope rust_scope.

(** ** Errors *)
Inductive Cause : Type := StorageFull | ReaderCode (code : Str) | Contract (e : ContractError) | OtherCause.
Inductive Fault : Type := Crashed | Error (c : Cause).
Definition failure_code (c : Cause) : Str :=
  match c with
  | StorageFull => lit "insufficient_space"
  | ReaderCode code => code
  | Contract ManualRequired_ => lit "manual_upgrade_required"
  | Contract ReleaseIncomplete => lit "release_incomplete"
  | Contract ReleaseChanged | Contract NotNewer => lit "release_changed"
  | _ => lit "verification_failed"
  end.

(** ** The disk *)
Record Files := mkFiles { part : option Str; new_program : option Str; previous : option Str; rolling : option Str }.
#[export] Instance Files_eq_dec : EqDecision Files.
Proof. solve_decision. Defined.
Definition no_files : Files := mkFiles None None None None.
Record Disk : Type := mkDisk {
  d_journal : option Journal;
  d_status : option PublicStatus;
  live : option Str;
  staging : gmap Str Files;
}.
Definition set_journal (j : Journal) (d : Disk) : Disk := mkDisk (Some j) (d_status d) (live d) (staging d).
Definition set_status (s : PublicStatus) (d : Disk) : Disk := mkDisk (d_journal d) (Some s) (live d) (staging d).
Definition set_live (h : option Str) (d : Disk) : Disk := mkDisk (d_journal d) (d_status d) h (staging d).
Definition set_staging (s : gmap Str Files) (d : Disk) : Disk := mkDisk (d_journal d) (d_status d) (live d) s.
Definition on_files (dir : Str) (f : Files → Files) (d : Disk) : Disk := set_staging (alter f dir (staging d)) d.
(** The names used in a staging directory. *)
Inductive FileName : Type := CandidatePart | Candidate | Previous | Rolling.
Definition file (n : FileName) (f : Files) : option Str :=
  match n with CandidatePart => part f | Candidate => new_program f | Previous => previous f | Rolling => rolling f end.
Definition set_file (n : FileName) (h : option Str) (f : Files) : Files :=
  match n with
  | CandidatePart => mkFiles h (new_program f) (previous f) (rolling f)
  | Candidate => mkFiles (part f) h (previous f) (rolling f)
  | Previous => mkFiles (part f) (new_program f) h (rolling f)
  | Rolling => mkFiles (part f) (new_program f) (previous f) h
  end.

(** ** The environment *)
Definition Service : Type := gmap Str Str.
(** One turn of the readiness loop: when it begins, when it judges, the service,
    the health report and the hash of the running executable. *)
Record Sample : Type := mkSample { begun_ms : Z; at_ms : Z; observed : Cause + Service; health : option Health; executable : option Str }.
Record ManifestDocument : Type := mkDocument { manifest : Manifest; document_sha256 : Str }.
(** Encoded sizes ([serde_json]). *)
Class JsonLib := { journal_size : Journal → nat; status_size : PublicStatus → nat }.
(** Numbered by the steps. [fault t = Some (applied, None)] is a crash, with a
    cause an error. *)
Record Env : Type := mkEnv {
  fault : nat → option (bool * option Cause);
  failing : nat → option Cause;
  clock : nat → Z;
  nonce : nat → Str;
  service_output : nat → Str;
  samples : nat → list Sample;
  garbage : nat → Str;
  downloaded : nat → Str;
  progress : nat → list (Z * bool);
  fetched : nat → ManifestDocument;
  answer : nat → bool;
}.
Record World : Type := mkWorld { disk : Disk; mem : Journal; turn : nat }.
Definition X (A : Type) : Type := M World Fault A.
Definition modify (f : Journal → Journal) : X unit := λ w, (Ok tt, mkWorld (disk w) (f (mem w)) (turn w)).
Definition fail_with {A} (c : Cause) : X A := fail (Error c).
Definition demand (b : bool) : X unit := if b then ret tt else fail_with OtherCause.
(** The [Result] of a step; a crash ends everything. *)
Definition catch {A} (m : X A) : X (A + Cause) := λ w,
  match m w with
  | (Ok a, w) => (Ok (inl a), w)
  | (Err (Error c), w) => (Ok (inr c), w)
  | (Err Crashed, w) => (Err Crashed, w)
  | (Panic, w) => (Panic, w)
  | (Diverge, w) => (Diverge, w)
  end.
Definition contract {A} (m : R A) : X A :=
  match (m tt).1 with Ok a => ret a | Err e => fail_with (Contract e) | Panic => panic | Diverge => diverge end.
Definition journal_of : X Journal := λ w, (Ok (mem w), w).
Definition operation_of : X Operation := λ w, match operation (mem w) with Some o => (Ok o, w) | None => (Err (Error OtherCause), w) end.

Section executor.
Context `{JsonLib} (env : Env) (current_build : BuildInfo).
Definition tick : X nat := λ w, (Ok (turn w), mkWorld (disk w) (mem w) (S (turn w))).
(** A step that changes nothing on the disk. *)
Definition look : X unit := let* t := tick in match failing env t with Some c => fail_with c | None => ret tt end.
Definition mutate (f : Disk → Disk) : X unit := λ w,
  let w' d := mkWorld d (mem w) (S (turn w)) in
  match fault env (turn w) with
  | None => (Ok tt, w' (f (disk w)))
  | Some (applied, c) =>
      (Err (match c with None => Crashed | Some c => Error c end), w' (if applied then f (disk w) else disk w))
  end.
Definition now : X Z := let* t := tick in ret (clock env t).
Definition new_nonce : X Str := let* t := tick in ret (nonce env t).

(** ** Files *)
Definition actual_hash : X Str := look;;; λ w, match live (disk w) with Some h => (Ok h, w) | None => (Err (Error OtherCause), w) end.
Definition child (dir : Str) : X unit := look;;; λ w, match staging (disk w) !! dir with Some _ => (Ok tt, w) | None => (Err (Error OtherCause), w) end.
Definition lookup_file (dir : Str) (n : FileName) (d : Disk) : option Str := staging d !! dir ≫= file n.
Definition hash_file (dir : Str) (n : FileName) : X Str :=
  look;;; λ w, match lookup_file dir n (disk w) with Some h => (Ok h, w) | None => (Err (Error OtherCause), w) end.
Definition create_dir (dir : Str) : X unit :=
  let* w := get in
  match staging (disk w) !! dir with
  | Some _ => look
  | None => mutate (λ d, set_staging (<[dir := no_files]> (staging d)) d)
  end.
(** [create]: exclusive; the new file holds nothing of interest yet. *)
Definition create (dir : Str) (n : FileName) : X unit :=
  let* t := tick in
  let* w := get in
  match lookup_file dir n (disk w) with
  | Some _ => fail_with OtherCause
  | None => mutate (on_files dir (set_file n (Some (garbage env t))))
  end.
(** Written and synced. *)
Definition write (dir : Str) (n : FileName) (h : Str) : X unit := mutate (on_files dir (set_file n (Some h))).
Definition remove (dir : Str) (n : FileName) : X unit :=
  let* w := get in
  match lookup_file dir n (disk w) with Some _ => mutate (on_files dir (set_file n None)) | None => look end.
Definition remove_dir (dir : Str) : X unit :=
  let* w := get in
  demand (bool_decide (staging (disk w) !! dir = Some no_files));;;
  mutate (λ d, set_staging (delete dir (staging d)) d).
Definition rename_part (dir : Str) : X unit :=
  mutate (on_files dir (λ f, set_file CandidatePart None (set_file Candidate (part f) f))).
(** A staged file replaces the installed program. *)
Definition install (dir : Str) (n : FileName) : X unit :=
  let* w := get in
  match lookup_file dir n (disk w) with
  | None => fail_with OtherCause
  | Some h => mutate (λ d, set_live (Some h) (on_files dir (set_file n None) d))
  end.

(** ** The journal *)
Definition publish : X unit :=
  let* t := now in
  let* j := journal_of in
  demand (bool_decide (status_size (status t j) ≤ 32768)%nat);;;
  mutate (set_status (status t j)).
Definition save : X unit :=
  let* j := journal_of in
  demand (bool_decide (journal_size j ≤ 32768)%nat);;;
  mutate (set_journal j).
Definition persist : X unit := save;;; publish.
Definition load : X unit :=
  look;;; λ w, match d_journal (disk w) with
               | Some j => if journal_valid j then (Ok tt, mkWorld (disk w) j (turn w)) else (Err (Error OtherCause), w)
               | None => (Err (Error OtherCause), w)
               end.
Definition to_phase (p : Phase) : X unit :=
  operation_of;;;
  let* t := now in
  modify (on_operation (with_status (set_phase p t)));;;
  persist.
Definition finish_as (p : Phase) (why : option Str) : X unit :=
  let* t := now in
  modify (finish p why t);;;
  persist.
Definition launch_as (p : Phase) : X unit :=
  let* o := operation_of in
  let rollback := negb (bool_decide (p = Starting)) in
  let* n := new_nonce in
  modify (on_operation (λ o, with_status (λ s, mkStatus (operation_id s) (phase_nonce s) p (os_version s) (reason s) (updated_at_ms s) (downloaded_bytes s) (total_bytes s))
    (with_pending (Some (mkLaunch (operation_id (op_status o)) n (if rollback then old o else candidate o) rollback p (phase_nonce (op_status o)) true)) o)));;;
  persist.

(** ** The service *)
Definition EQUALS : Str := [61].
(** [str::lines]: a line end may be preceded by a carriage return. *)
Fixpoint strip_returns (l : list Str) : list Str :=
  match l with
  | [] => []
  | [line] => if bool_decide (line = []) then [] else [line]
  | line :: l => (if bool_decide (last line = Some 13) then removelast line else line) :: strip_returns l
  end.
Definition parse_service (output : Str) : Service :=
  foldl (λ m line, match split_once EQUALS line with Some (k, v) => <[k := v]> m | None => m end) ∅ (strip_returns (split_on 10 output)).
Definition service : X Service := look;;; (let* t := tick in ret (parse_service (service_output env t))).
Definition control : X unit := look.
Definition stop_clean : X unit :=
  control;;;
  let* p := service in
  demand (bool_decide (p !! lit "MainPID" = Some (lit "0")) && bool_decide (p !! lit "Result" = Some (lit "success")) &&
          bool_decide (p !! lit "ExecMainCode" = Some (lit "1")) && bool_decide (p !! lit "ExecMainStatus" = Some (lit "0"))).
Definition manager_running : X bool := let* t := tick in ret (answer env t).
Definition u32_of (t : Str) : option Z :=
  let digits := match t with 43 :: d => d | d => d end in
  if bool_decide (digits = []) then None else
  n ← digits_value digits 0; if bool_decide (n ≤ u32_max) then Some n else None.
Record Watch : Type := mkWatch { w_readiness : Readiness; w_invocation : Str; w_executable : ExecutableIdentity }.
Definition watch_default : Watch := mkWatch readiness_default [] None.
(** One turn of the loop: an error, readiness, or the watch as it goes on. *)
Definition watch_step (pending : PendingLaunch) (revision : Z) (s : Sample) (w : Watch) : Cause + (bool * Watch) :=
  match observed s with
  | inl c => inl c
  | inr info =>
      let pid := default 0 (info !! lit "MainPID" ≫= u32_of) in
      let current := default [] (info !! lit "InvocationID") in
      let readiness := if bool_decide (w_invocation w = current) then w_readiness w else readiness_default in
      let (ok, e) := verified (w_executable w) (health s) pid current (sha256 (pl_identity pending)) (executable s) in
      let matching := when (λ _, ok && valid_id current) (health s) in
      let (ready, readiness) := Journal.observe (at_ms s) matching pending pid current revision readiness in
      inr (ready, mkWatch readiness current e)
  end.
Fixpoint watch (pending : PendingLaunch) (revision : Z) (l : list Sample) (w : Watch) : X unit :=
  match l with
  | [] => fail_with OtherCause
  | s :: l =>
      if bool_decide (60000 ≤ begun_ms s) then fail_with OtherCause else
      match watch_step pending revision s w with
      | inl c => fail_with c
      | inr (ready, w) => if ready : bool then ret tt else watch pending revision l w
      end
  end.
Definition wait_launch (pending : PendingLaunch) (revision : Z) : X unit :=
  let* t := tick in watch pending revision (samples env t) watch_default.
Definition wait_ready : X unit :=
  let* o := operation_of in
  let* pending := match pending_launch o with Some l => ret l | None => fail_with OtherCause end in
  wait_launch pending (op_config_revision o).

(** ** Fences *)
Definition terminal_fence (i : Inbox) : X bool :=
  let* j := journal_of in
  match list_find (λ s, operation_id s = i_operation_id i) (option_list (op_status <$> operation j) ++ option_list (last_operation j)) with
  | Some (_, s) => demand (bool_decide (phase_nonce s = i_phase_nonce i));;; ret (terminal (phase s))
  | None => ret false
  end.
Definition matching (i : Inbox) : X Operation :=
  let* o := operation_of in
  demand (bool_decide (operation_id (op_status o) = i_operation_id i) && bool_decide (phase_nonce (op_status o) = i_phase_nonce i));;;
  ret o.
Definition not_installing : X unit := let* j := journal_of in demand (bool_decide (installation_pending j = None)).

(** ** Stage *)
Record StageRequest : Type := mkStage {
  sr_inbox : Inbox;
  download : DownloadTuple;
  current_sha256 : Str;
  sr_invocation_id : Str;
  sr_config_revision : Z;
  sr_version : Str;
}.
Definition parse_stage (i : Inbox) : X StageRequest :=
  match i_request i with
  | Stage d current invocation revision =>
      let* v := contract (parse_tag (dl_tag d)) in
      ret (mkStage i d current invocation revision (version_text v))
  | _ => fail_with OtherCause
  end.
Definition reject_stage (r : StageRequest) (why : Str) : X unit :=
  let* t := now in
  modify (with_last (Some (mkStatus (i_operation_id (sr_inbox r)) (i_phase_nonce (sr_inbox r)) Failed (sr_version r) (Some why) t 0 (dl_size (download r)))));;;
  persist.
Definition refusal (at_ : Z) (j : Journal) : option Str :=
  match installation_pending j with
  | Some _ => Some (lit "installation_pending")
  | None =>
      match operation j with
      | None => None
      | Some o =>
          if negb (terminal (phase (op_status o))) then Some (lit "update_in_progress")
          else if bool_decide (phase (op_status o) = ManualRequired) then Some (lit "manual_recovery_required")
          else if bool_decide (saturating_sub at_ (started_at_ms o) < 60000) then Some (lit "rate_limited")
          else None
      end
  end.
Definition same_stage (o : Operation) (r : StageRequest) : bool :=
  bool_decide (phase_nonce (op_status o) = i_phase_nonce (sr_inbox r)) && bool_decide (op_invocation_id o = sr_invocation_id r) &&
  bool_decide (op_config_revision o = sr_config_revision r) && bool_decide (sha256 (old o) = current_sha256 r) &&
  bool_decide (sha256 (candidate o) = dl_sha256 (download r)).
Definition stage_gate (r : StageRequest) (at_ : Z) : X bool :=
  demand (valid_sha256 (dl_sha256 (download r)));;;
  let* j := journal_of in
  match when (λ o, bool_decide (operation_id (op_status o) = i_operation_id (sr_inbox r))) (operation j) with
  | Some o => demand (same_stage o r);;; publish;;; ret false
  | None =>
      let* fenced := terminal_fence (sr_inbox r) in
      if fenced : bool then publish;;; ret false else
      match refusal at_ j with
      | Some why => reject_stage r why;;; ret false
      | None => ret true
      end
  end.
Definition begin_stage (r : StageRequest) (at_ : Z) : X unit :=
  modify (λ j,
    let b := build (installed j) in
    let candidate := mkIdentity (mkBuild (sr_version r) (b_target b) (b_source_commit b) (official_release b) (b_update_protocol b) (b_helper_protocol b)
      (b_install_contract b) (b_durable_contract_epoch b) (b_runtime_database_format b) (b_cache_snapshot_format b) (b_cache_semantics b)) (dl_sha256 (download r)) in
    with_operation (Some (mkOperation (mkStatus (i_operation_id (sr_inbox r)) (i_phase_nonce (sr_inbox r)) Accepted (sr_version r) None at_ 0 (dl_size (download r)))
      (installed j) candidate (sr_invocation_id r) (sr_config_revision r) at_ false false None))
      (with_last (op_status <$> operation j) j));;;
  persist.
Fixpoint remove_all (dir : Str) (l : list FileName) : X unit :=
  match l with [] => ret tt | n :: l => remove dir n;;; remove_all dir l end.
(** The staging files of the previous operation. *)
Definition clean_staging : X unit :=
  let* j := journal_of in
  match operation j with
  | None => ret tt
  | Some o =>
      let dir := operation_id (op_status o) in
      let* d := catch (child dir) in
      match d with
      | inr _ => ret tt
      | inl _ => remove_all dir [CandidatePart; Candidate; Previous; Rolling];;; remove_dir dir
      end
  end.
(** [Some] reason refuses. *)
Definition admission (r : StageRequest) (units : option Cause) : X (option Str) :=
  match units with Some c => fail_with c | None => ret tt end;;;
  let* j := journal_of in
  if negb (bool_decide (sha256 (installed j) = current_sha256 r)) then ret (Some (lit "config_changed")) else
  let* h := actual_hash in
  if negb (bool_decide (h = current_sha256 r)) then ret (Some (lit "config_changed")) else
  let* s := service in
  if negb (bool_decide (s !! lit "InvocationID" = Some (sr_invocation_id r))) then ret (Some (lit "config_changed")) else
  clean_staging;;;
  ret None.
(** The progress of the download, and whether a second has passed since the
    last report; a failed publication is ignored. *)
Fixpoint report_progress (l : list (Z * bool)) : X unit :=
  match l with
  | [] => ret tt
  | (n, due) :: l =>
      modify (on_operation (with_status (set_downloaded n)));;;
      (if due : bool then catch publish;;; ret tt else ret tt);;;
      report_progress l
  end.
Definition fetch_candidate (r : StageRequest) : X unit :=
  look;;;
  let* t := tick in
  let document := fetched env t in
  (if bool_decide (document_sha256 document = manifest_sha256 (download r)) then ret tt else fail_with (Contract ReleaseChanged));;;
  let m := manifest document in
  let* j := journal_of in
  contract (check_compatible m (build (installed j)) HELPER_PROTOCOL);;;
  let* a := contract (artifact_for m (b_target (build (installed j)))) in
  (if bool_decide (a_name a = asset_name (download r)) && bool_decide (a_size a = dl_size (download r)) && bool_decide (a_sha256 a = dl_sha256 (download r))
   then ret tt else fail_with (Contract ReleaseChanged));;;
  modify (on_operation (with_candidate (mkIdentity
    (mkBuild (m_version m) (a_target a) (m_source_commit m) true (m_update_protocol m) (b_helper_protocol (build (installed j)))
      (m_install_contract m) (m_durable_contract_epoch m) (m_runtime_database_format m) (m_cache_snapshot_format m) (m_cache_semantics m)) (a_sha256 a))));;;
  look;;;
  look;;;
  let dir := i_operation_id (sr_inbox r) in
  create_dir dir;;;
  to_phase Downloading;;;
  create dir CandidatePart;;;
  look;;;
  let* t := tick in
  report_progress (progress env t);;;
  look;;;
  write dir CandidatePart (downloaded env t);;;
  (if bool_decide (downloaded env t = dl_sha256 (download r)) then ret tt else fail_with (ReaderCode (lit "verification_failed")));;;
  look;;;
  rename_part dir;;;
  to_phase Staged.
Definition stage (r : StageRequest) (units : option Cause) : X unit :=
  let* t := now in
  let* admitted := stage_gate r t in
  if negb admitted then ret tt else
  let* a := catch (admission r units) in
  match a with
  | inl (Some why) => reject_stage r why
  | inr c => reject_stage r (failure_code c);;; fail_with c
  | inl None =>
      let* t := now in
      begin_stage r t;;;
      let* outcome := catch (fetch_candidate r) in
      match outcome with
      | inl _ => ret tt
      | inr c => finish_as Failed (Some (failure_code c));;; fail_with c
      end
  end.

(** ** Commit and rollback *)
Definition candidate_dir : X Str :=
  let* o := operation_of in
  child (operation_id (op_status o));;;
  ret (operation_id (op_status o)).
Definition copy_live_to_backup : X unit :=
  let* dir := candidate_dir in
  let* o := operation_of in
  let* h := actual_hash in
  demand (bool_decide (h = sha256 (old o)));;;
  create dir Previous;;;
  let* h := actual_hash in
  write dir Previous h;;;
  let* h := hash_file dir Previous in
  demand (bool_decide (h = sha256 (old o))).
Definition rollback (why : Str) (boot : bool) : X unit :=
  let* o := operation_of in
  demand (negb (rollback_started o) || boot);;;
  let old_ := old o in
  let* actual := actual_hash in
  demand (bool_decide (actual = sha256 old_) || bool_decide (actual = sha256 (candidate o)));;;
  modify (on_operation (with_attempted true));;;
  to_phase RollingBack;;;
  (if boot then ret tt else
     catch control;;;
     let* s := service in
     demand (bool_decide (s !! lit "MainPID" = Some (lit "0"))));;;
  (if bool_decide (actual = sha256 old_) then ret tt else
     let* dir := candidate_dir in
     let* h := hash_file dir Previous in
     demand (bool_decide (h = sha256 old_));;;
     let* h := hash_file dir Previous in
     remove dir Rolling;;;
     create dir Rolling;;;
     write dir Rolling h;;;
     install dir Rolling);;;
  launch_as (if boot then AwaitingReadiness else RollingBack);;;
  if boot then ret tt else
  modify (on_operation (with_started true));;;
  persist;;;
  let* started := catch control in
  let* ready := (match started with inl _ => catch wait_ready | inr c => ret (inr c) end) in
  match ready with
  | inl _ => finish_as RolledBack (Some why)
  | inr _ => finish_as ManualRequired (Some (lit "readiness_failed"))
  end.
(** The steps before the old program stops; they leave the staging directory. *)
Definition verify_commit : X Str :=
  let* o := operation_of in
  let* h := actual_hash in
  demand (bool_decide (h = sha256 (old o)));;;
  let* dir := candidate_dir in
  let* h := hash_file dir Candidate in
  demand (bool_decide (h = sha256 (candidate o)));;;
  copy_live_to_backup;;;
  ret dir.
Definition switch_over (dir : Str) : X unit :=
  install dir Candidate;;;
  launch_as Starting;;;
  control;;;
  to_phase Validating;;;
  wait_ready;;;
  let* t := now in
  let* j := journal_of in
  match commit_journal t j with
  | None => fail_with OtherCause
  | Some j => modify (λ _, j);;; persist
  end.
Definition commit : X unit :=
  let* checked := catch verify_commit in
  match checked with
  | inr c => finish_as Failed (Some (failure_code c));;; fail_with c
  | inl dir =>
      to_phase Committing;;;
      to_phase Stopping;;;
      let* stopped := catch stop_clean in
      match stopped with
      | inr _ => rollback (lit "unclean_shutdown") false
      | inl _ =>
          let* result := catch (switch_over dir) in
          let* j := journal_of in
          match result with
          | inl _ => ret tt
          | inr c =>
              (if negb (settled j) then rollback (lit "readiness_failed") false else ret tt);;;
              fail_with c
          end
      end
  end.

(** ** Requests *)
Definition abort (i : Inbox) : X unit :=
  let* fenced := terminal_fence i in
  if fenced : bool then publish else
  let* j := journal_of in
  match when (λ o, bool_decide (operation_id (op_status o) = i_operation_id i)) (operation j) with
  | None =>
      let* t := now in
      modify (with_last (Some (mkStatus (i_operation_id i) (i_phase_nonce i) Aborted [] (Some (lit "aborted")) t 0 0)));;;
      persist
  | Some _ =>
      let* o := matching i in
      (if precommit (phase (op_status o)) then finish_as Aborted (Some (lit "aborted")) else ret tt);;;
      publish
  end.
Definition commit_service (invocation : Str) (current : Service + Cause) : X bool :=
  match current with
  | inr c => finish_as Failed (Some (failure_code c));;; fail_with c
  | inl s =>
      if negb (bool_decide (s !! lit "InvocationID" = Some invocation)) || negb (bool_decide (s !! lit "ActiveState" = Some (lit "active")))
      then finish_as Failed (Some (lit "config_changed"));;; ret false
      else ret true
  end.
Definition PLAN_LIFETIME : Z := 30 * 60 * 1000.
Definition handle_commit (i : Inbox) (invocation : Str) (revision : Z) (units : option Cause) : X unit :=
  let* fenced := terminal_fence i in
  if fenced : bool then publish else
  let* o := matching i in
  demand (bool_decide (phase (op_status o) = Staged) && bool_decide (op_invocation_id o = invocation) && bool_decide (op_config_revision o = revision));;;
  match units with
  | Some c => finish_as Failed (Some (failure_code c));;; fail_with c
  | None =>
      let* t := now in
      if bool_decide (t < started_at_ms o) || bool_decide (PLAN_LIFETIME < saturating_sub t (started_at_ms o))
      then finish_as Failed (Some (lit "plan_expired")) else
      let* current := catch service in
      let* go := commit_service invocation current in
      if negb go then ret tt else commit
  end.
Definition verify_recovery (i : Inbox) (units : option Cause) : X unit :=
  let* o := matching i in
  demand (bool_decide (phase (op_status o) = AwaitingReadiness));;;
  match units with
  | Some c => finish_as ManualRequired (Some (lit "readiness_failed"));;; fail_with c
  | None =>
      let* ready := catch wait_ready in
      match ready with
      | inl _ => finish_as RolledBack (Some (lit "interrupted"))
      | inr _ => finish_as ManualRequired (Some (lit "readiness_failed"))
      end
  end.
Definition handle (i : Inbox) (units : option Cause) : X unit :=
  match i_request i with
  | Stage _ _ _ _ => let* r := parse_stage i in stage r units
  | Commit invocation revision => not_installing;;; handle_commit i invocation revision units
  | Abort_ => not_installing;;; abort i;;; match units with Some c => fail_with c | None => ret tt end
  | VerifyRecovery => not_installing;;; verify_recovery i units
  end.
Definition validate_units : X unit := look.
(** [request] is what the inbox decodes to; it is consumed first. *)
Definition run (request : option Inbox) : X unit :=
  look;;;
  match when inbox_valid request with
  | None => fail_with OtherCause
  | Some i =>
      let* units := catch validate_units in
      load;;;
      handle i (match units with inl _ => None | inr c => Some c end)
  end.

(** ** Recovery *)
Definition matches_installed : X unit :=
  let* h := actual_hash in
  let* j := journal_of in
  demand (bool_decide (h = sha256 (installed j))).
Definition roll_back_or_give_up (boot : bool) : X unit :=
  let* r := catch (rollback (lit "interrupted") boot) in
  match r with
  | inl _ => ret tt
  | inr _ => finish_as ManualRequired (Some (lit "manual_recovery_required"));;; fail_with OtherCause
  end.
(** [actual_hash()? == old && service().is_ok_and(active)] *)
Definition never_stopped (o : Operation) : X bool :=
  let* h := actual_hash in
  if negb (bool_decide (h = sha256 (old o))) then ret false else
  let* s := catch service in
  ret (match s with inl s => bool_decide (s !! lit "ActiveState" = Some (lit "active")) | inr _ => false end).
Definition recover_operation (boot : bool) (o : Operation) : X unit :=
  let p := phase (op_status o) in
  if terminal p then matches_installed;;; publish else
  if bool_decide (p = Staged) && negb boot then publish else
  if precommit p then finish_as Failed (Some (lit "interrupted")) else
  let* running := (if boot then ret true else manager_running) in
  if negb running then to_phase AwaitingBootRecovery else
  if rollback_started o && negb boot then
    let* h := actual_hash in
    let* ready := (if bool_decide (h = sha256 (old o)) && bool_decide (is_Some (pending_launch o)) then catch wait_ready else ret (inr OtherCause)) in
    match ready with
    | inl _ => finish_as RolledBack (Some (lit "interrupted"))
    | inr _ => finish_as ManualRequired (Some (lit "manual_recovery_required"))
    end
  else
    let* alive := (if negb boot && (bool_decide (p = Committing) || bool_decide (p = Stopping)) then never_stopped o else ret false) in
    if alive : bool then
      launch_as RollingBack;;;
      let* ready := catch wait_ready in
      match ready with
      | inl _ => finish_as RolledBack (Some (lit "interrupted"))
      | inr _ => roll_back_or_give_up boot
      end
    else roll_back_or_give_up boot.
Definition recover (boot : bool) : X unit :=
  validate_units;;;
  load;;;
  let* j := journal_of in
  match installation_pending j with
  | Some _ => matches_installed;;; publish
  | None =>
      match operation j with
      | None => matches_installed;;; publish
      | Some o => recover_operation boot o
      end
  end.

(** ** Installation *)
(** The decoded preflight report, as far as it is used. *)
Record Preflight : Type := mkPreflight { pf_revision : Z; pf_digests : list Str; pf_build : BuildInfo }.
Definition validate_build (p : Preflight) (expected : BuildInfo) : bool :=
  bool_decide (pf_build p = expected) && bool_decide (0 < pf_revision p) && forallb valid_sha256 (pf_digests p).
Definition preflight_ok (p : option Preflight) (expected : BuildInfo) : bool :=
  match p with Some p => validate_build p expected | None => true end.
Definition installation_launch (n nonce_ : Str) (i : InstalledIdentity) (skip initialized_ : bool) : PendingLaunch :=
  mkLaunch n nonce_ i skip AwaitingReadiness n initialized_.
Definition register (saved_build : BuildInfo) (preflight : option Preflight) : X unit :=
  validate_units;;;
  look;;;
  demand (bool_decide (saved_build = current_build));;;
  look;;;
  let* h := actual_hash in
  let identity := mkIdentity saved_build h in
  look;;;
  let* w := get in
  let* previous_ := (match d_journal (disk w) with
                     | None => ret None
                     | Some _ =>
                         load;;;
                         let* j := journal_of in
                         demand (bool_decide (installation_pending j = None) && settled j);;;
                         ret (Some j)
                     end) in
  look;;;
  demand (preflight_ok preflight (build identity));;;
  let* n := new_nonce in
  let* l := new_nonce in
  let revision := pf_revision <$> preflight in
  modify (λ _, installation previous_ identity
    (mkInstallation n revision (installation_launch n l identity false (bool_decide (is_Some revision)))));;;
  persist.
Definition install_check : X unit :=
  look;;;
  let* w := get in
  match d_journal (disk w) with
  | None => ret tt
  | Some _ =>
      load;;;
      let* j := journal_of in
      demand (bool_decide (installation_pending j = None) && settled j);;;
      matches_installed
  end.
Definition install_restore (preflight : option Preflight) : X unit :=
  load;;;
  let* j := journal_of in
  let b := build (installed j) in
  demand (bool_decide (installation_pending j = None) && bool_decide (b_durable_contract_epoch b = b_durable_contract_epoch current_build) &&
          bool_decide (b_runtime_database_format b = b_runtime_database_format current_build) &&
          bool_decide (b_install_contract b = b_install_contract current_build));;;
  matches_installed;;;
  look;;;
  demand (preflight_ok preflight current_build);;;
  let* n := new_nonce in
  let* l := new_nonce in
  let revision := pf_revision <$> preflight in
  modify (with_installation (Some (mkInstallation n revision (installation_launch n l (installed j) true (bool_decide (is_Some revision))))));;;
  persist.
Definition install_match (n : Str) : X unit :=
  load;;;
  let* j := journal_of in
  demand (match installation_pending j with Some p => bool_decide (in_nonce p = n) | None => false end);;;
  matches_installed.
Definition complete_installation : X unit :=
  let* t := now in
  modify (supersede_manual_recovery t);;;
  modify (with_installation None);;;
  persist.
Definition install_verify (n : Str) : X unit :=
  validate_units;;;
  install_match n;;;
  let* j := journal_of in
  match installation_pending j with
  | None => fail_with OtherCause
  | Some p => wait_launch (launch p) (default 0 (in_config_revision p));;; complete_installation
  end.
Definition rebuild_status : X unit := load;;; matches_installed;;; publish.
End executor.
