(* ===== verification/Readiness.v ===== *)
(** * The readiness window

    What [wait_launch] of [src/update/executor/mod.rs] has seen when it
    succeeds: the streak of health reports its [Readiness] state stands for. *)
From S2P Require Import Prelude Std Canonical BlockAnswer Policy Text Release Journal Updater.
Set Default Goal Selector "!".
Set Warnings "-rewrite-rw".
Local Open Scope Z_scope.
Local Open Scope rust_scope.

Section window.
Context (pending : PendingLaunch) (revision : Z).

Definition pid_of (s : Sample) : Z :=
  match observed s with inr info => default 0 (info !! lit "MainPID" ≫= u32_of) | inl _ => 0 end.
Definition invocation_of (s : Sample) : Str :=
  match observed s with inr info => default [] (info !! lit "InvocationID") | inl _ => [] end.
Definition seq_of (s : Sample) : Z := match health s with Some h => sample_seq h | None => 0 end.
(** A turn that shows the expected program at work under [invocation]: the
    report is of this launch, of the process the service runs, and the running
    executable was hashed for that very process in one of the turns [seen]. *)
Record good (invocation : Str) (seen : list Sample) (s : Sample) : Prop := {
  good_service : ∃ info, observed s = inr info;
  good_invocation : invocation_of s = invocation ∧ valid_id invocation = true;
  good_health : ∃ h, health s = Some h ∧ matches h pending (pid_of s) invocation revision = true;
  good_pid : pid_of s ≠ 0;
  good_hash : ∃ t, t ∈ seen ∧ pid_of t = pid_of s ∧ invocation_of t = invocation ∧ executable t = Some (sha256 (pl_identity pending));
}.
(** [streak i seen since seq at l]: the turns [l] are good without a gap; a
    report newer than the last fresh one, or the same one again, each at most
    three seconds after the last fresh one, which was numbered [seq] and came
    at [at]. The first came at [since]. *)
Inductive streak (invocation : Str) (seen : list Sample) : Z → Z → Z → list Sample → Prop :=
  | streak_first s : good invocation seen s → streak invocation seen (at_ms s) (seq_of s) (at_ms s) [s]
  | streak_fresh since seq at_ l s : streak invocation seen since seq at_ l → good invocation seen s →
      seq < seq_of s → at_ms s - at_ ≤ 3000 → streak invocation seen since (seq_of s) (at_ms s) (l ++ [s])
  | streak_same since seq at_ l s : streak invocation seen since seq at_ l → good invocation seen s →
      seq_of s = seq → at_ms s - at_ ≤ 3000 → streak invocation seen since seq at_ (l ++ [s]).
(** The turns [l] end the wait: a streak of at least ten seconds, all of it
    begun within the minute. *)
Definition window (l : list Sample) : Prop :=
  ∃ before run after invocation since seq at_ s,
    l = before ++ run ++ after ∧ last run = Some s ∧ streak invocation (before ++ run) since seq at_ run ∧
    10000 ≤ at_ms s - since ∧ Forall (λ s, begun_ms s < 60000) (before ++ run).

Lemma good_seen invocation l l' s : (∀ t, t ∈ l → t ∈ l') → good invocation l s → good invocation l' s.
Proof. intros Hl [? ? ? ? (t & ? & ?)]. split; [done..|]. exists t. eauto. Qed.
Lemma streak_seen invocation l l' since seq at_ run :
  (∀ t, t ∈ l → t ∈ l') → streak invocation l since seq at_ run → streak invocation l' since seq at_ run.
Proof. intros Hl. induction 1; [apply streak_first|eapply streak_fresh|eapply streak_same]; eauto using good_seen. Qed.

(** What the watch knows after the turns [seen]. *)
Record watching (seen : list Sample) (w : Watch) : Prop := {
  wt_since : ∀ since, Journal.since (w_readiness w) = Some since →
    ∃ before run seq at_, seen = before ++ run ∧ last_seen (w_readiness w) = Some (seq, at_) ∧ streak (w_invocation w) seen since seq at_ run;
  wt_hash : ∀ pid i d, w_executable w = Some (pid, i, d) → ∃ t, t ∈ seen ∧ pid_of t = pid ∧ invocation_of t = i ∧ executable t = Some d;
}.
Lemma watching_default : watching [] watch_default.
Proof. by split. Qed.

Lemma verified_spec seen e h pid i expected hash ok e' :
  (∀ p j d, e = Some (p, j, d) → ∃ t, t ∈ seen ∧ pid_of t = p ∧ invocation_of t = j ∧ executable t = Some d) →
  ∀ s, pid_of s = pid → invocation_of s = i → executable s = hash →
  verified e h pid i expected hash = (ok, e') →
  (∀ p j d, e' = Some (p, j, d) → ∃ t, t ∈ seen ++ [s] ∧ pid_of t = p ∧ invocation_of t = j ∧ executable t = Some d) ∧
  (ok = true → pid ≠ 0 ∧ ∃ t, t ∈ seen ++ [s] ∧ pid_of t = pid ∧ invocation_of t = i ∧ executable t = Some expected).
Proof.
  intros He s Hp Hi Hx Hv. unfold verified in Hv.
  assert (∀ p j d, e = Some (p, j, d) → ∃ t, t ∈ seen ++ [s] ∧ pid_of t = p ∧ invocation_of t = j ∧ executable t = Some d) as He1.
  { intros p j d (t & ? & ?)%He. exists t. split; [apply elem_of_app; by left|done]. }
  destruct (bool_decide (pid = 0)) eqn:Hz; [by injection Hv as <- <-|]. apply bool_decide_eq_false in Hz.
  destruct (negb _); [by injection Hv as <- <-|]. cbn [orb] in Hv.
  assert (match hash with Some d => (bool_decide (d = expected), Some (pid, i, d)) | None => (false, e) end = (ok, e') →
    (∀ p j d, e' = Some (p, j, d) → ∃ t, t ∈ seen ++ [s] ∧ pid_of t = p ∧ invocation_of t = j ∧ executable t = Some d) ∧
    (ok = true → pid ≠ 0 ∧ ∃ t, t ∈ seen ++ [s] ∧ pid_of t = pid ∧ invocation_of t = i ∧ executable t = Some expected)) as Hnew.
  { destruct hash as [d|]; intros [= <- <-]; [|done].
    assert (s ∈ seen ++ [s]) as Hs by (apply elem_of_app; right; by apply list_elem_of_singleton). split.
    - intros p j d' [= <- <- <-]. by exists s.
    - intros ->%bool_decide_eq_true. split; [done|]. by exists s. }
  destruct e as [[[p j] d]|]; [|by apply Hnew].
  destruct (bool_decide (p = pid) && bool_decide (j = i)) eqn:Hk; [|by apply Hnew].
  injection Hv as <- <-. split; [done|]. intros ->%bool_decide_eq_true. split; [done|].
  apply andb_prop in Hk as [->%bool_decide_eq_true ->%bool_decide_eq_true]. by apply He1.
Qed.

Lemma matches_invocation h p i : matches h pending p i revision = true → h_invocation_id h = i ∧ h_pid h = p.
Proof. unfold matches. rewrite !andb_true_iff !bool_decide_eq_true. tauto. Qed.
Lemma when_true {A} (f : A → bool) o a : when f o = Some a ↔ o = Some a ∧ f a = true.
Proof. destruct o as [b|]; simpl; [|naive_solver]. destruct (f b) eqn:Hb; naive_solver congruence. Qed.

(** [observe] keeps the streak, and says so when it has lasted. *)
Lemma observe_spec seen s i sample r ready r' :
  (∀ since, Journal.since r = Some since → ∃ before run seq at_, seen = before ++ run ∧ last_seen r = Some (seq, at_) ∧ streak i seen since seq at_ run) →
  (∀ h, sample = Some h → matches h pending (pid_of s) i revision = true → good i (seen ++ [s]) s ∧ seq_of s = sample_seq h) →
  Journal.observe (at_ms s) sample pending (pid_of s) i revision r = (ready, r') →
  (∀ since, Journal.since r' = Some since →
    ∃ before run seq at_, seen ++ [s] = before ++ run ∧ last run = Some s ∧ last_seen r' = Some (seq, at_) ∧ streak i (seen ++ [s]) since seq at_ run) ∧
  (ready = true → ∃ since, Journal.since r' = Some since ∧ 10000 ≤ at_ms s - since).
Proof.
  intros Hr Hgood Hobs. unfold Journal.observe in Hobs.
  destruct (when _ sample) as [h|] eqn:Hw; [|by injection Hobs as <- <-]. apply when_true in Hw as [Hs Hm].
  destruct (Hgood h Hs Hm) as [Hg Hseq]. rewrite -Hseq in Hobs.
  assert (∀ t, t ∈ seen → t ∈ seen ++ [s]) as Hsub by (intros; apply elem_of_app; by left).
  assert (∀ o, ready_since (at_ms s) o = true → ∃ since, o = Some since ∧ 10000 ≤ at_ms s - since) as Hready.
  { intros [since|]; [|done]. intros H%bool_decide_eq_true. exists since. split; [done|]. unfold saturating_sub in H. lia. }
  assert (∃ before run, seen ++ [s] = before ++ run ∧ last run = Some s ∧ streak i (seen ++ [s]) (at_ms s) (seq_of s) (at_ms s) run) as Hfirst.
  { exists seen, [s]. split; [done|]. split; [done|]. by apply streak_first. }
  destruct Hfirst as (b0 & r0 & Hsplit & Hlast & Hstreak).
  destruct (last_seen r) as [[seq at_]|] eqn:Hl.
  2: { destruct (Journal.since r) as [since|] eqn:Hsince; [by destruct (Hr since eq_refl) as (? & ? & ? & ? & ? & ? & ?)|].
    cbn [default from_option id] in Hobs. injection Hobs as <- <-. split; [|by apply (Hready (Some (at_ms s)))].
    cbn [Journal.since last_seen]. intros x [= <-]. eauto 8. }
  destruct (bool_decide_reflect (seq_of s < seq)) as [Hlt|Hlt]; [by injection Hobs as <- <-|].
  assert (∀ since, (if bool_decide (3000 < saturating_sub (at_ms s) at_) then None else Journal.since r) = Some since →
    at_ms s - at_ ≤ 3000 ∧ ∃ before run, seen = before ++ run ∧ streak i (seen ++ [s]) since seq at_ run) as Hkeep.
  { intros since. destruct (bool_decide_reflect (3000 < saturating_sub (at_ms s) at_)) as [|Hgap]; [done|]. unfold saturating_sub in Hgap.
    intros (b & run & q & a & Hb & [= <- <-] & Hst)%Hr. split; [lia|]. exists b, run. split; [done|]. by eapply streak_seen. }
  destruct (bool_decide_reflect (seq_of s = seq)) as [Heq|Hne].
  - injection Hobs as <- <-. cbn [Journal.since last_seen]. split; [|apply Hready].
    intros since Hsince. assert ((if bool_decide (3000 < saturating_sub (at_ms s) at_) then None else Journal.since r) = Some since) as Hs'
      by (by destruct (bool_decide (3000 < saturating_sub (at_ms s) at_))).
    destruct (Hkeep since Hs') as (Hgap & b & run & Hb & Hst). exists b, (run ++ [s]), seq, at_. rewrite Hb app_assoc last_snoc.
    split_and!; [done..|]. rewrite -Hb. by eapply streak_same.
  - injection Hobs as <- <-. cbn [Journal.since last_seen]. split; [|by apply (Hready (Some _))]. intros x [= <-].
    destruct (if bool_decide _ then None else _) as [since|] eqn:Hs'; cbn [default from_option id].
    + destruct (Hkeep since eq_refl) as (Hgap & b & run & Hb & Hst). exists b, (run ++ [s]), (seq_of s), (at_ms s). rewrite Hb app_assoc last_snoc.
      split_and!; [done..|]. rewrite -Hb. eapply streak_fresh; [done..|lia|done].
    + exists b0, r0, (seq_of s), (at_ms s). done.
Qed.

(** One turn of the loop. *)
Lemma watch_step_spec seen s w ready w' :
  watching seen w → watch_step pending revision s w = inr (ready, w') →
  watching (seen ++ [s]) w' ∧
  (ready = true → ∃ before run since seq at_, seen ++ [s] = before ++ run ∧ last run = Some s ∧
     streak (w_invocation w') (seen ++ [s]) since seq at_ run ∧ 10000 ≤ at_ms s - since).
Proof.
  intros [Hs Hh] Hstep. unfold watch_step in Hstep. destruct (observed s) as [c|info] eqn:Ho; [done|].
  set (pid := default 0 (info !! lit "MainPID" ≫= u32_of)) in *. set (i := default [] (info !! lit "InvocationID")) in *.
  assert (pid_of s = pid) as Hp by (by rewrite /pid_of Ho). assert (invocation_of s = i) as Hi by (by rewrite /invocation_of Ho).
  set (r := if bool_decide (w_invocation w = i) then w_readiness w else readiness_default) in *.
  destruct (verified (w_executable w) (health s) pid i (sha256 (pl_identity pending)) (executable s)) as [ok e] eqn:Hv.
  destruct (verified_spec seen _ _ _ _ _ _ _ _ Hh s Hp Hi eq_refl Hv) as [He Hok]. cbv beta iota in Hstep.
  destruct (Journal.observe _ _ _ _ _ _ _) as [b r'] eqn:Hobs. injection Hstep as -> <-. rewrite -Hp in Hobs.
  destruct (observe_spec seen s i (when (λ _, ok && valid_id i) (health s)) r ready r') as [Hnew Hready]; [| |exact Hobs|].
  - unfold r. case_bool_decide as Hw; [|done]. rewrite -Hw. exact Hs.
  - intros h [Hhs [-> Hid]%andb_prop]%when_true Hm. split; [|by rewrite /seq_of Hhs].
    destruct (Hok eq_refl) as (Hpid & t & ? & ? & ? & ?). split; [by exists info|done|by exists h|by rewrite Hp|]. exists t. by rewrite Hp.
  - split; [split; [|done]|].
    + intros since Hsince. destruct (Hnew since Hsince) as (bf & run & seq & a & ? & ? & ? & ?). by exists bf, run, seq, a.
    + intros Ht. destruct (Hready Ht) as (since & Hsince & Hten). destruct (Hnew since Hsince) as (bf & run & seq & a & ? & ? & ? & ?).
      by exists bf, run, since, seq, a.
Qed.

(** The loop ends well only in a window, and touches nothing. *)
Lemma watch_spec l : ∀ seen w0 W, watching seen w0 → Forall (λ s, begun_ms s < 60000) seen →
  wp (watch pending revision l w0) (λ _ W', W' = W ∧ window (seen ++ l)) (λ e W', W' = W ∧ e ≠ Crashed) W.
Proof.
  induction l as [|s l IH]; intros seen w0 W Hw Hb; cbn [watch]; [by apply wp_fail|].
  case_bool_decide as Hd; [by apply wp_fail|]. destruct (watch_step pending revision s w0) as [c|[ready w1]] eqn:Hstep; [by apply wp_fail|].
  destruct (watch_step_spec seen s w0 ready w1 Hw Hstep) as [Hw1 Hready].
  assert (Forall (λ s, begun_ms s < 60000) (seen ++ [s])) as Hb1 by (apply Forall_app; split; [done|]; apply Forall_singleton; lia).
  destruct ready.
  - apply wp_ret. split; [done|]. destruct (Hready eq_refl) as (b & run & since & seq & a & Hsp & Hl & Hst & Hten).
    exists b, run, l, (w_invocation w1), since, seq, a, s. rewrite -Hsp. split_and!; [|done..].
    change (s :: l) with ([s] ++ l). by rewrite (app_assoc seen) Hsp app_assoc.
  - change (s :: l) with ([s] ++ l). rewrite (app_assoc seen). by apply IH.
Qed.
End window.
