(* ===== verification/UpdaterSteps.v ===== *)
(** * Running the update executor

    The logic in which [UpdaterSafe] reasons about the handlers of [Updater]:
    triples over the disk and the journal in memory whose error case covers
    every failed or cut-off change of the disk, the invariant of the disk, and
    one rule per step. *)
From S2P Require Import Prelude Std Canonical BlockAnswer Policy Text Release Journal Updater Readiness.
Set Default Goal Selector "!".
Set Warnings "-rewrite-rw".
Local Open Scope Z_scope.
Local Open Scope rust_scope.

(** ** Sound disks *)
(** The old program runs, or the candidate does and the old program is kept. *)
Definition intact (d : Disk) (o : Operation) : Prop :=
  live d = Some (sha256 (old o)) ∨
  live d = Some (sha256 (candidate o)) ∧ lookup_file (operation_id (op_status o)) Previous d = Some (sha256 (old o)).
Definition phase_sound (d : Disk) (j : Journal) (o : Operation) : Prop :=
  match phase (op_status o) with
  | Accepted | Downloading | Staged | Committing | AwaitingReadiness => old o = installed j ∧ live d = Some (sha256 (installed j))
  | Stopping | Starting | Validating | RollingBack | AwaitingBootRecovery => old o = installed j ∧ intact d o
  | Succeeded | RolledBack | Failed | Aborted => live d = Some (sha256 (installed j))
  | ManualRequired => live d = Some (sha256 (installed j)) ∨ old o = installed j ∧ intact d o
  end.
(** What the journal [j] says is true of the disk, and it can be loaded. *)
Record sound (d : Disk) (j : Journal) : Prop := {
  sd_valid : journal_valid j = true;
  sd_candidate : ∀ o, operation j = Some o → valid_sha256 (sha256 (candidate o)) = true;
  sd_pending : installation_pending j ≠ None → live d = Some (sha256 (installed j));
  sd_operation : match operation j with Some o => phase_sound d j o | None => live d = Some (sha256 (installed j)) end;
}.
Definition recorded (A : InstalledIdentity → Prop) (d : Disk) : Prop :=
  ∃ j, d_journal d = Some j ∧ sound d j ∧ A (installed j).

Lemma intact_frame d d' o : live d' = live d → (∀ x, lookup_file x Previous d' = lookup_file x Previous d) → intact d o → intact d' o.
Proof. unfold intact. intros -> ->. done. Qed.
Lemma sound_frame d d' j : live d' = live d → (∀ x, lookup_file x Previous d' = lookup_file x Previous d) → sound d j → sound d' j.
Proof.
  intros Hl Hp [? ? ? Hop]. split; [done..|by rewrite Hl|]. destruct (operation j) as [o|]; [|by rewrite Hl].
  unfold phase_sound in *. rewrite Hl. destruct (phase (op_status o)); naive_solver eauto using intact_frame.
Qed.
(** With the recorded program in place the staging directories do not matter. *)
Lemma sound_rest d d' j : live d = Some (sha256 (installed j)) → live d' = live d → sound d j → sound d' j.
Proof.
  intros Hi Hl [? ? ? Hop]. split; [done..|by rewrite Hl|]. destruct (operation j) as [o|]; [|by rewrite Hl].
  unfold phase_sound, intact in *. rewrite Hl Hi. destruct (phase (op_status o)); intuition (try congruence); left; congruence.
Qed.

(** [d'] is [d] up to the staging directories; up to the file [n] of [dir]; up
    to the records. *)
Definition restaged (d d' : Disk) : Prop := d_journal d' = d_journal d ∧ live d' = live d.
Definition touched (dir : Str) (n : FileName) (d d' : Disk) : Prop :=
  restaged d d' ∧ ∀ x m, (x, m) ≠ (dir, n) → lookup_file x m d' = lookup_file x m d.
Definition alike (d d' : Disk) : Prop := live d' = live d ∧ staging d' = staging d.
Lemma alike_lookup d d' x n : alike d d' → lookup_file x n d' = lookup_file x n d.
Proof. intros [_ Hs]. by rewrite /lookup_file Hs. Qed.
Lemma alike_sound d d' j : alike d d' → sound d j → sound d' j.
Proof. intros Ha. apply sound_frame; [apply Ha|intros; by apply alike_lookup]. Qed.
Lemma alike_intact d d' o : alike d d' → intact d o → intact d' o.
Proof. intros Ha. apply intact_frame; [apply Ha|intros; by apply alike_lookup]. Qed.
Lemma touched_sound dir n d d' j : n ≠ Previous → touched dir n d d' → sound d j → sound d' j.
Proof. intros Hn [[_ Hl] Hf]. apply sound_frame; [done|]. intros x. apply Hf. congruence. Qed.
Lemma recorded_touched A dir n d d' : n ≠ Previous → touched dir n d d' → recorded A d → recorded A d'.
Proof. intros Hn Ht (j & Hj & Hs & Hi). exists j. split; [by destruct Ht as [[-> _] _]|]. split; [by eapply touched_sound|done]. Qed.

Lemma lookup_on_files dir f d x n :
  lookup_file x n (on_files dir f d) = if bool_decide (x = dir) then (staging d !! dir ≫= λ fs, file n (f fs)) else lookup_file x n d.
Proof.
  unfold lookup_file, on_files. cbn [staging set_staging]. case_bool_decide as Hx.
  - subst x. rewrite lookup_alter_eq. by destruct (staging d !! dir).
  - by rewrite lookup_alter_ne.
Qed.
Lemma set_file_eq n h f : file n (set_file n h f) = h.
Proof. by destruct n. Qed.
Lemma set_file_ne n m h f : m ≠ n → file m (set_file n h f) = file m f.
Proof. by destruct n, m. Qed.
Lemma touched_set dir n h d : touched dir n d (on_files dir (set_file n h) d).
Proof.
  split; [done|]. intros x m Hne. rewrite lookup_on_files. case_bool_decide as Hx; [|done]. subst x.
  unfold lookup_file. destruct (staging d !! dir); [|done]. simpl. apply set_file_ne. congruence.
Qed.
Lemma touched_refl dir n d : touched dir n d d.
Proof. done. Qed.
Lemma touched_trans dir n d1 d2 d3 : touched dir n d1 d2 → touched dir n d2 d3 → touched dir n d1 d3.
Proof. intros [[H1j H1l] H1] [[H2j H2l] H2]. split; [split; congruence|]. intros x m Hx. by rewrite H2 // H1. Qed.
#[global] Instance restaged_preorder : PreOrder restaged.
Proof. split; [done|]. intros d1 d2 d3 [? ?] [? ?]. split; congruence. Qed.

(** ** Triples *)
Definition runs {A} (d : Disk) (j : Journal) (m : X A) (Q : A → Disk → Journal → Prop) (R : Disk → Journal → Prop) : Prop :=
  ∀ t, wp m (λ a w, Q a (disk w) (mem w)) (λ _ w, R (disk w) (mem w)) (mkWorld d j t).
Section triples.
Context {A B : Type}.
Implicit Types (m : X A) (Q : A → Disk → Journal → Prop) (R : Disk → Journal → Prop).
Lemma runs_mono d j m Q Q' R R' : runs d j m Q R → (∀ a d' j', Q a d' j' → Q' a d' j') → (∀ d' j', R d' j' → R' d' j') → runs d j m Q' R'.
Proof. intros Hm HQ HR t. eapply wp_mono; [| |apply (Hm t)]; simpl; eauto. Qed.
Lemma runs_bind d j m (k : A → X B) Q R (Q' : B → Disk → Journal → Prop) :
  runs d j m Q R → (∀ a d' j', Q a d' j' → runs d' j' (k a) Q' R) → runs d j (bind m k) Q' R.
Proof.
  intros Hm Hk t. apply wp_bind. eapply wp_mono; [| |apply (Hm t)]; simpl; [|done].
  intros a [d' j' t'] Hq. by apply Hk.
Qed.
Lemma runs_ret d j (a : A) Q R : Q a d j → runs d j (ret a) Q R.
Proof. intros HQ t. by apply wp_ret. Qed.
Lemma runs_fail d j e Q R : R d j → runs d j (fail e : X A) Q R.
Proof. intros HR t. by apply wp_fail. Qed.
Lemma runs_catch d j m (Q : A + Cause → Disk → Journal → Prop) R R1 :
  runs d j m (λ a, Q (inl a)) R1 → (∀ d' j', R1 d' j' → R d' j' ∧ ∀ c, Q (inr c) d' j') → runs d j (catch m) Q R.
Proof.
  intros Hm HR t. specialize (Hm t). unfold wp, catch in *. destruct (m (mkWorld d j t)) as [[a|[|c]| |] w]; try done.
  - by apply HR.
  - by apply HR.
Qed.
Lemma runs_get d j (k : World → X B) (Q' : B → Disk → Journal → Prop) R : (∀ t, runs d j (k (mkWorld d j t)) Q' R) → runs d j (bind get k) Q' R.
Proof. intros Hk t. apply wp_bind, wp_get. apply Hk. Qed.
End triples.
Lemma runs_demand d j b (Q : unit → Disk → Journal → Prop) R : (b = true → Q tt d j) → R d j → runs d j (demand b) Q R.
Proof. intros HQ HR. unfold demand. destruct b; [apply runs_ret; auto|by apply runs_fail]. Qed.
Lemma runs_modify d j f (Q : unit → Disk → Journal → Prop) R : Q tt d (f j) → runs d j (modify f) Q R.
Proof. by intros HQ t. Qed.
Lemma runs_journal_of d j (Q : Journal → Disk → Journal → Prop) R : Q j d j → runs d j journal_of Q R.
Proof. by intros HQ t. Qed.
Lemma runs_operation_of d j (Q : Operation → Disk → Journal → Prop) R : (∀ o, operation j = Some o → Q o d j) → R d j → runs d j operation_of Q R.
Proof. intros HQ HR t. unfold wp, operation_of. simpl. destruct (operation j); simpl; auto. Qed.
Lemma runs_contract {A} d j (m : R A) (Q : A → Disk → Journal → Prop) R :
  (∀ a, m tt = (Ok a, tt) → Q a d j) → R d j → wp m (λ _ _, True) (λ _ _, True) tt → runs d j (contract m) Q R.
Proof.
  intros HQ HR Hm. unfold contract, wp in *. destruct (m tt) as [[a|e| |] []]; simpl; try done.
  - apply runs_ret. by apply HQ.
  - by apply runs_fail.
Qed.

Section steps.
Context `{JsonLib} (env : Env).
Implicit Types (R : Disk → Journal → Prop).

Lemma runs_tick d j (Q : nat → Disk → Journal → Prop) R : (∀ t, Q t d j) → runs d j tick Q R.
Proof. intros HQ t. apply HQ. Qed.
Lemma runs_look d j (Q : unit → Disk → Journal → Prop) R : Q tt d j → R d j → runs d j (look env) Q R.
Proof.
  intros HQ HR. eapply runs_bind; [by apply (runs_tick d j (λ _ d' j', d' = d ∧ j' = j))|]. intros t d' j' [-> ->].
  destruct (failing env t); [by apply runs_fail|by apply runs_ret].
Qed.
Lemma runs_mutate d j f (Q : unit → Disk → Journal → Prop) R : Q tt (f d) j → R d j → R (f d) j → runs d j (mutate env f) Q R.
Proof. intros HQ HR HR' t. unfold wp, mutate. simpl. destruct (fault env t) as [[[] [|]]|]; simpl; done. Qed.
Lemma runs_now d j (Q : Z → Disk → Journal → Prop) R : (∀ t, Q t d j) → runs d j (now env) Q R.
Proof. intros HQ t. apply HQ. Qed.
Lemma runs_nonce d j (Q : Str → Disk → Journal → Prop) R : (∀ t, Q (nonce env t) d j) → runs d j (new_nonce env) Q R.
Proof. intros HQ t. apply HQ. Qed.
(** A look at the disk or the memory. *)
Lemma runs_read {A} d j (f : World → option A) (Q : A → Disk → Journal → Prop) R :
  (∀ t a, f (mkWorld d j t) = Some a → Q a d j) → R d j →
  runs d j (look env;;; λ w, match f w with Some a => (Ok a, w) | None => (Err (Error OtherCause), w) end) Q R.
Proof.
  intros HQ HR. eapply runs_bind; [by apply (runs_look d j (λ _ d' j', d' = d ∧ j' = j))|]. intros [] d' j' [-> ->] t.
  unfold wp. destruct (f (mkWorld d j t)) eqn:Hf; simpl; eauto.
Qed.
Lemma runs_actual_hash d j (Q : Str → Disk → Journal → Prop) R : (∀ h, live d = Some h → Q h d j) → R d j → runs d j (actual_hash env) Q R.
Proof. intros HQ HR. apply (runs_read d j (λ w, live (disk w))); auto. Qed.
Lemma runs_hash_file d j dir n (Q : Str → Disk → Journal → Prop) R :
  (∀ h, lookup_file dir n d = Some h → Q h d j) → R d j → runs d j (hash_file env dir n) Q R.
Proof. intros HQ HR. apply (runs_read d j (λ w, lookup_file dir n (disk w))); auto. Qed.
Lemma runs_child d j dir (Q : unit → Disk → Journal → Prop) R : Q tt d j → R d j → runs d j (child env dir) Q R.
Proof.
  intros HQ HR. eapply runs_bind; [by apply (runs_look d j (λ _ d' j', d' = d ∧ j' = j))|]. intros [] d' j' [-> ->] t.
  unfold wp. simpl. by destruct (staging d !! dir).
Qed.
Lemma runs_load d j (Q : unit → Disk → Journal → Prop) R :
  (∀ j', d_journal d = Some j' → journal_valid j' = true → Q tt d j') → R d j → runs d j (load env) Q R.
Proof.
  intros HQ HR. eapply runs_bind; [by apply (runs_look d j (λ _ d' j', d' = d ∧ j' = j))|]. intros [] d' j' [-> ->] t.
  unfold wp. simpl. destruct (d_journal d) as [j'|]; [|done]. destruct (journal_valid j') eqn:Hv; simpl; auto.
Qed.
Lemma runs_service d j (Q : Service → Disk → Journal → Prop) R : (∀ s, Q s d j) → R d j → runs d j (service env) Q R.
Proof.
  intros HQ HR. eapply runs_bind; [by apply (runs_look d j (λ _ d' j', d' = d ∧ j' = j))|]. intros [] d' j' [-> ->].
  eapply runs_bind; [by apply (runs_tick d j (λ _ d' j', d' = d ∧ j' = j))|]. intros t d' j' [-> ->]. by apply runs_ret.
Qed.
Lemma runs_stop_clean d j (Q : unit → Disk → Journal → Prop) R : Q tt d j → R d j → runs d j (stop_clean env) Q R.
Proof.
  intros HQ HR. eapply runs_bind; [by apply (runs_look d j (λ _ d' j', d' = d ∧ j' = j))|]. intros [] d' j' [-> ->].
  eapply runs_bind; [by apply (runs_service d j (λ _ d' j', d' = d ∧ j' = j))|]. intros s d' j' [-> ->]. by apply runs_demand.
Qed.
Lemma runs_manager d j (Q : bool → Disk → Journal → Prop) R : (∀ b, Q b d j) → runs d j (manager_running env) Q R.
Proof. intros HQ t. apply HQ. Qed.

(** *** Staging *)
Lemma runs_create_dir d j dir (Q : unit → Disk → Journal → Prop) R :
  (∀ d', restaged d d' → Q tt d' j) → (∀ d', restaged d d' → R d' j) → runs d j (create_dir env dir) Q R.
Proof.
  intros HQ HR. apply runs_get. intros t. cbn [disk]. destruct (staging d !! dir).
  - by apply runs_look; [apply HQ|apply HR].
  - by apply runs_mutate; [apply HQ|apply HR|apply HR].
Qed.
Lemma runs_create d j dir n (Q : unit → Disk → Journal → Prop) R :
  (∀ d', touched dir n d d' → Q tt d' j) → (∀ d', touched dir n d d' → R d' j) → runs d j (create env dir n) Q R.
Proof.
  intros HQ HR. eapply runs_bind; [by apply (runs_tick d j (λ _ d' j', d' = d ∧ j' = j))|]. intros t d' j' [-> ->].
  apply runs_get. intros t'. cbn [disk]. destruct (lookup_file dir n d); [by apply runs_fail, HR|].
  apply runs_mutate; [apply HQ|apply HR|apply HR]; auto using touched_set, touched_refl.
Qed.
Lemma runs_write d j dir n h (Q : unit → Disk → Journal → Prop) R :
  (∀ d', touched dir n d d' → (∀ x, lookup_file dir n d' = Some x → x = h) → Q tt d' j) → (∀ d', touched dir n d d' → R d' j) →
  runs d j (write env dir n h) Q R.
Proof.
  intros HQ HR. apply runs_mutate; [apply HQ|apply HR|apply HR]; auto using touched_set, touched_refl.
  intros x. rewrite lookup_on_files bool_decide_true //. destruct (staging d !! dir); simpl; [|done]. rewrite set_file_eq. congruence.
Qed.
Lemma runs_remove d j dir n (Q : unit → Disk → Journal → Prop) R :
  (∀ d', touched dir n d d' → Q tt d' j) → (∀ d', touched dir n d d' → R d' j) → runs d j (remove env dir n) Q R.
Proof.
  intros HQ HR. apply runs_get. intros t. cbn [disk]. destruct (lookup_file dir n d).
  - apply runs_mutate; [apply HQ|apply HR|apply HR]; auto using touched_set, touched_refl.
  - apply runs_look; [apply HQ|apply HR]; apply touched_refl.
Qed.
Lemma runs_remove_dir d j dir (Q : unit → Disk → Journal → Prop) R :
  (∀ d', restaged d d' → Q tt d' j) → (∀ d', restaged d d' → R d' j) → runs d j (remove_dir env dir) Q R.
Proof.
  intros HQ HR. apply runs_get. intros t. eapply runs_bind; [by apply (runs_demand d j _ (λ _ d' j', d' = d ∧ j' = j)); [|apply HR]|].
  intros [] d' j' [-> ->]. by apply runs_mutate; [apply HQ|apply HR|apply HR].
Qed.
Lemma runs_rename_part d j dir (Q : unit → Disk → Journal → Prop) R :
  (∀ d', restaged d d' → Q tt d' j) → (∀ d', restaged d d' → R d' j) → runs d j (rename_part env dir) Q R.
Proof. intros HQ HR. by apply runs_mutate; [apply HQ|apply HR|apply HR]. Qed.
Lemma runs_remove_all d j dir l (Q : unit → Disk → Journal → Prop) R :
  (∀ d', restaged d d' → Q tt d' j) → (∀ d', restaged d d' → R d' j) → runs d j (remove_all env dir l) Q R.
Proof.
  revert d. induction l as [|n l IH]; intros d HQ HR; cbn [remove_all]; [by apply runs_ret, HQ|].
  eapply runs_bind; [apply (runs_remove d j dir n (λ _ d' j', restaged d d' ∧ j' = j))|].
  - intros d' [? _]. done.
  - intros d' [? _]. by apply HR.
  - intros [] d' j' [Hd ->]. apply IH; intros d'' Hd'; [apply HQ|apply HR]; by etrans.
Qed.
Lemma runs_install d j dir n (Q : unit → Disk → Journal → Prop) R :
  (∀ h d', lookup_file dir n d = Some h → d_journal d' = d_journal d → live d' = Some h →
     (∀ x m, (x, m) ≠ (dir, n) → lookup_file x m d' = lookup_file x m d) → Q tt d' j ∧ R d' j) →
  R d j → runs d j (install env dir n) Q R.
Proof.
  intros HQ HR. apply runs_get. intros t. cbn [disk]. destruct (lookup_file dir n d) as [h|] eqn:Hh; [|by apply runs_fail].
  destruct (HQ h (set_live (Some h) (on_files dir (set_file n None) d))) as [HQ' HR']; [done..| |].
  - intros x m Hx. by apply (proj2 (touched_set dir n None d)).
  - by apply runs_mutate.
Qed.

(** *** Records *)
Context (A : InstalledIdentity → Prop).
Lemma runs_publish d j (Q : unit → Disk → Journal → Prop) R :
  (∀ d', alike d d' → d_journal d' = d_journal d → Q tt d' j) → (∀ d', alike d d' → d_journal d' = d_journal d → R d' j) → runs d j (publish env) Q R.
Proof.
  intros HQ HR. eapply runs_bind; [by apply (runs_now d j (λ _ d' j', d' = d ∧ j' = j))|]. intros t d' j' [-> ->].
  eapply runs_bind; [by apply (runs_journal_of d j (λ a d' j', a = j ∧ d' = d ∧ j' = j))|]. intros _ d' j' (-> & -> & ->).
  eapply runs_bind; [by apply (runs_demand d j _ (λ _ d' j', d' = d ∧ j' = j)); [|apply HR]|].
  intros [] d' j' [-> ->]. by apply runs_mutate; [apply HQ|apply HR|apply HR].
Qed.
Lemma alike_trans d1 d2 d3 : alike d1 d2 → alike d2 d3 → alike d1 d3.
Proof. intros [? ?] [? ?]. split; congruence. Qed.
Lemma recorded_alike d d' : alike d d' → d_journal d' = d_journal d → recorded A d → recorded A d'.
Proof. intros Ha Hd (i & Hi & Hs & ?). exists i. rewrite Hd. split; [done|]. split; [by eapply alike_sound|done]. Qed.
(** A sound journal is written, or the old one stays. *)
Lemma runs_persist d j (Q : unit → Disk → Journal → Prop) R :
  sound d j → A (installed j) → recorded A d →
  (∀ d', alike d d' → d_journal d' = Some j → recorded A d' → Q tt d' j) → (∀ d', alike d d' → recorded A d' → R d' j) → runs d j (persist env) Q R.
Proof.
  intros Hs Hi Hr HQ HR. assert (∀ d', alike d d' → d_journal d' = Some j → recorded A d') as Hnew.
  { intros d' Ha Hd. exists j. split; [done|]. split; [by eapply alike_sound|done]. }
  eapply (runs_bind _ _ _ _ (λ _ d' j', alike d d' ∧ d_journal d' = Some j ∧ j' = j)).
  - eapply runs_bind; [by apply (runs_journal_of d j (λ a d' j', a = j ∧ d' = d ∧ j' = j))|]. intros _ d' j' (-> & -> & ->).
    eapply runs_bind; [by apply (runs_demand d j _ (λ _ d' j', d' = d ∧ j' = j)); [|apply HR]|].
    intros [] d' j' [-> ->]. apply runs_mutate; [done|by apply HR|]. apply HR; [done|by apply Hnew].
  - intros [] d' j' (Ha & Hd & ->). apply runs_publish.
    + intros d'' Ha' Hd'. apply HQ; [by eapply alike_trans|congruence|]. apply Hnew; [by eapply alike_trans|congruence].
    + intros d'' Ha' Hd'. apply HR; [by eapply alike_trans|]. apply Hnew; [by eapply alike_trans|congruence].
Qed.

(** *** Waiting *)
Lemma runs_wait_launch d j pending revision (Q : unit → Disk → Journal → Prop) R :
  (∀ t, window pending revision (samples env t) → Q tt d j) → R d j → runs d j (wait_launch env pending revision) Q R.
Proof.
  intros HQ HR. eapply runs_bind; [by apply (runs_tick d j (λ _ d' j', d' = d ∧ j' = j))|]. intros t d' j' [-> ->] t'.
  eapply wp_mono; [| |apply (watch_spec pending revision _ []); [apply watching_default|done]]; simpl.
  - intros u w' [HW Hw]. rewrite HW. destruct u. by apply (HQ t).
  - intros e w' [HW _]. by rewrite HW.
Qed.
Lemma runs_wait_ready d j (Q : unit → Disk → Journal → Prop) R :
  (∀ o l t, operation j = Some o → pending_launch o = Some l → window l (op_config_revision o) (samples env t) → Q tt d j) → R d j →
  runs d j (wait_ready env) Q R.
Proof.
  intros HQ HR. eapply runs_bind; [by apply (runs_operation_of d j (λ o d' j', operation j = Some o ∧ d' = d ∧ j' = j))|].
  intros o d' j' (Ho & -> & ->). destruct (pending_launch o) as [l|] eqn:Hl.
  - eapply runs_bind; [by apply (runs_ret d j l (λ a d' j', a = l ∧ d' = d ∧ j' = j))|]. intros _ d' j' (-> & -> & ->).
    apply runs_wait_launch; [|done]. intros t Hw. by eapply HQ.
  - eapply runs_bind; [by apply (runs_fail d j _ (λ _ _ _, False))|done].
Qed.
End steps.
