(* ===== verification/UpdaterSafe.v ===== *)
(** * Updates survive every interruption

    The handlers of [Updater] keep the disk sound, whatever fails and wherever
    they are cut off; and the installed program changes only in a commit whose
    candidate was seen at work. *)
From S2P Require Import Prelude Std Canonical BlockAnswer Policy Text Release ReleaseSafe Journal Updater Readiness UpdaterSteps.
Set Default Goal Selector "!".
Set Warnings "-rewrite-rw".
Local Open Scope Z_scope.
Local Open Scope rust_scope.

(** ** An operation at work *)
Record same_op (o0 o : Operation) : Prop := {
  so_id : operation_id (op_status o) = operation_id (op_status o0);
  so_nonce : phase_nonce (op_status o) = phase_nonce (op_status o0);
  so_old : old o = old o0;
  so_candidate : candidate o = candidate o0;
  so_revision : op_config_revision o = op_config_revision o0;
}.
(** The journal [j] is about the operation [o0], whose old program is the
    installed one. *)
Record holds (o0 : Operation) (j : Journal) : Prop := {
  ho_operation : ∃ o, operation j = Some o ∧ same_op o0 o;
  ho_installed : installed j = old o0;
  ho_schema : j_schema j = 1;
  ho_pending : installation_pending j = None;
  ho_digests : valid_sha256 (sha256 (old o0)) = true ∧ valid_sha256 (sha256 (candidate o0)) = true;
  ho_ids : valid_id (operation_id (op_status o0)) = true ∧ valid_id (phase_nonce (op_status o0)) = true;
}.
Definition phase_ok (p : Phase) (d : Disk) (o : Operation) : Prop :=
  match p with
  | Stopping | Starting | Validating | RollingBack | AwaitingBootRecovery | ManualRequired => intact d o
  | Succeeded => False
  | _ => live d = Some (sha256 (old o))
  end.
Lemma intact_same d o0 o : same_op o0 o → intact d o0 ↔ intact d o.
Proof. intros Hs. unfold intact. by rewrite (so_id _ _ Hs) (so_old _ _ Hs) (so_candidate _ _ Hs). Qed.
Lemma holds_valid o0 j : holds o0 j → journal_valid j = true.
Proof.
  intros [(o & Ho & Hs) Hi Hsc Hp [Hd _] [H1 H2]]. unfold journal_valid. rewrite Hsc Hi Hd Ho Hp (so_id _ _ Hs) (so_nonce _ _ Hs) H1 H2. done.
Qed.
Lemma holds_sound o0 o j d : holds o0 j → operation j = Some o → phase_ok (phase (op_status o)) d o0 → sound d j.
Proof.
  intros Hh Ho Hp. pose proof Hh as [(o1 & Ho1 & Hs) Hi Hsc Hpe [Hd Hc] _]. rewrite Ho in Ho1. injection Ho1 as <-. split.
  - by eapply holds_valid.
  - intros o'. rewrite Ho. intros [= <-]. by rewrite (so_candidate _ _ Hs).
  - by rewrite Hpe.
  - rewrite Ho. unfold phase_sound. pose proof (intact_same d _ _ Hs) as His. rewrite Hi (so_old _ _ Hs).
    unfold phase_ok in Hp. destruct (phase (op_status o)); naive_solver.
Qed.
Lemma sound_holds d j o : sound d j → operation j = Some o → terminal (phase (op_status o)) = false → holds o j ∧ phase_ok (phase (op_status o)) d o.
Proof.
  intros [Hv Hc Hp Hop] Ho Ht. rewrite Ho in Hop. unfold journal_valid in Hv. rewrite Ho in Hv.
  apply andb_prop in Hv as [Hv Hpend]. apply andb_prop in Hv as [Hv Hids]. apply andb_prop in Hv as [Hsc Hd]. apply andb_prop in Hids as [H1 H2].
  apply bool_decide_eq_true in Hsc.
  assert (old o = installed j ∧ phase_ok (phase (op_status o)) d o) as [Hi Hok].
  { unfold phase_sound in Hop. unfold phase_ok. destruct (phase (op_status o)); try done; destruct Hop as [-> ?]; done. }
  split; [|done]. split.
  - by exists o.
  - done.
  - done.
  - destruct (installation_pending j); [|done]. rewrite /settled Ho Ht in Hpend. by rewrite andb_false_r in Hpend.
  - rewrite Hi. split; [done|by apply Hc].
  - done.
Qed.
(** What changes the operation in progress and not its identity. *)
Lemma holds_on f o0 j : (∀ o, same_op o0 o → same_op o0 (f o)) → holds o0 j → holds o0 (on_operation f j).
Proof.
  intros Hf [(o & Ho & Hs) ? ? ? ? ?]. split; [|done..]. exists (f o). simpl. rewrite Ho. split; [done|]. by apply Hf.
Qed.
Lemma holds_phase p t o0 j : holds o0 j → holds o0 (on_operation (with_status (set_phase p t)) j).
Proof. apply holds_on. by intros o [? ? ? ? ?]. Qed.
Lemma finish_operation p why t o j : operation j = Some o →
  ∃ o', operation (finish p why t j) = Some o' ∧ phase (op_status o') = p ∧ same_op o o' ∧
    installed (finish p why t j) = installed j ∧ j_schema (finish p why t j) = j_schema j ∧ installation_pending (finish p why t j) = installation_pending j.
Proof. intros Ho. unfold finish. rewrite Ho. cbv zeta.
  match goal with |- context [if ?b then _ else _] => destruct b end; eexists; split_and!; done. Qed.
Lemma same_op_refl o : same_op o o.
Proof. done. Qed.
Lemma same_op_trans o1 o2 o3 : same_op o1 o2 → same_op o2 o3 → same_op o1 o3.
Proof. intros [? ? ? ? ?] [? ? ? ? ?]. split; congruence. Qed.
Lemma holds_finish p why t o0 j : holds o0 j → holds o0 (finish p why t j).
Proof.
  intros [(o & Ho & Hs) ? ? ? ? ?]. destruct (finish_operation p why t o j Ho) as (o' & Ho' & _ & Hs' & Hi & Hsc & Hp).
  split; [|congruence..|done|done]. exists o'. split; [done|]. by eapply same_op_trans.
Qed.

Lemma still_contract {B} d j (m : R B) (R : Disk → Journal → Prop) : total B m → R d j → runs d j (contract m) (λ _ d' j', d' = d ∧ j' = j) R.
Proof. intros Hm HR. by apply runs_contract. Qed.

Section safe.
Context `{JsonLib} (env : Env) (A : InstalledIdentity → Prop).
Implicit Types (R : Disk → Journal → Prop).

Lemma holds_persist o0 o d j (Q : unit → Disk → Journal → Prop) R :
  holds o0 j → operation j = Some o → phase_ok (phase (op_status o)) d o0 → A (old o0) → recorded A d →
  (∀ d', alike d d' → d_journal d' = Some j → recorded A d' → Q tt d' j) → (∀ d', alike d d' → recorded A d' → R d' j) →
  runs d j (persist env) Q R.
Proof. intros Hh Ho Hp HA Hr. apply runs_persist; [by eapply holds_sound|by rewrite (ho_installed _ _ Hh)|done]. Qed.
Lemma runs_to_phase p o0 d j (Q : unit → Disk → Journal → Prop) R :
  holds o0 j → phase_ok p d o0 → A (old o0) → recorded A d →
  (∀ d' t, let j' := on_operation (with_status (set_phase p t)) j in alike d d' → d_journal d' = Some j' → recorded A d' → holds o0 j' → Q tt d' j') →
  (∀ d' j', alike d d' → recorded A d' → holds o0 j' → R d' j') → runs d j (to_phase env p) Q R.
Proof.
  intros Hh Hp HA Hr HQ HR. pose proof (ho_operation _ _ Hh) as (o & Ho & _).
  eapply runs_bind; [apply (runs_operation_of d j (λ _ d' j', d' = d ∧ j' = j)); [done|by apply HR]|]. intros _ d' j' [-> ->].
  eapply runs_bind; [by apply (runs_now env d j (λ _ d' j', d' = d ∧ j' = j))|]. intros t d' j' [-> ->].
  eapply runs_bind; [by apply (runs_modify d j _ (λ _ d' j', d' = d ∧ j' = on_operation (with_status (set_phase p t)) j))|].
  intros [] d' j' [-> ->]. pose proof (holds_phase p t _ _ Hh) as Hh'.
  eapply (holds_persist o0 _ _ _ _ _ Hh'); [by rewrite /= Ho|done..| |]; intros; [by apply HQ|by apply HR].
Qed.
Lemma runs_finish_as p why o0 d j (Q : unit → Disk → Journal → Prop) R :
  holds o0 j → phase_ok p d o0 → A (old o0) → recorded A d →
  (∀ d' t, let j' := finish p why t j in alike d d' → d_journal d' = Some j' → recorded A d' → holds o0 j' → Q tt d' j') →
  (∀ d' j', alike d d' → recorded A d' → holds o0 j' → R d' j') → runs d j (finish_as env p why) Q R.
Proof.
  intros Hh Hp HA Hr HQ HR. pose proof (ho_operation _ _ Hh) as (o & Ho & _).
  eapply runs_bind; [by apply (runs_now env d j (λ _ d' j', d' = d ∧ j' = j))|]. intros t d' j' [-> ->].
  eapply runs_bind; [by apply (runs_modify d j _ (λ _ d' j', d' = d ∧ j' = finish p why t j))|].
  intros [] d' j' [-> ->]. pose proof (holds_finish p why t _ _ Hh) as Hh'.
  destruct (finish_operation p why t o j Ho) as (o' & Ho' & Hp' & _).
  eapply (holds_persist o0 _ _ _ _ _ Hh'); [done|by rewrite Hp'|done..| |]; intros; [by apply HQ|by apply HR].
Qed.
(** The launch recorded for [p]. *)
Lemma runs_launch_as p o0 d j (Q : unit → Disk → Journal → Prop) R :
  holds o0 j → phase_ok p d o0 → A (old o0) → recorded A d →
  (∀ d' j' o l, alike d d' → d_journal d' = Some j' → recorded A d' → holds o0 j' → operation j' = Some o → phase (op_status o) = p →
     pending_launch o = Some l → pl_identity l = (if bool_decide (p = Starting) then candidate o0 else old o0) → Q tt d' j') →
  (∀ d' j', alike d d' → recorded A d' → holds o0 j' → R d' j') → runs d j (launch_as env p) Q R.
Proof.
  intros Hh Hp HA Hr HQ HR. pose proof (ho_operation _ _ Hh) as (o & Ho & Hs).
  eapply runs_bind; [apply (runs_operation_of d j (λ o' d' j', o' = o ∧ d' = d ∧ j' = j)); [intros; simplify_eq; done|by apply HR]|].
  intros _ d' j' (-> & -> & ->). cbv zeta.
  eapply runs_bind; [by apply (runs_nonce env d j (λ _ d' j', d' = d ∧ j' = j))|]. intros n d' j' [-> ->].
  eapply runs_bind; [by apply runs_modify; instantiate (1 := λ _ d' j', d' = d ∧ j' = on_operation _ j)|].
  intros [] d' j' [-> ->].
  match goal with |- runs _ (on_operation ?f j) _ _ _ => assert (holds o0 (on_operation f j)) as Hh' end.
  { apply holds_on; [|done]. by intros o' [? ? ? ? ?]. }
  eapply (holds_persist o0 _ _ _ _ _ Hh'); [by rewrite /= Ho|done..| |]; intros d' Ha; [|intros; by apply HR].
  intros Hd Hr'. eapply HQ; [done..|by rewrite /= Ho|done|done|]. simpl. rewrite (so_old _ _ Hs) (so_candidate _ _ Hs). by destruct (bool_decide _).
Qed.

(** ** Rollback *)
Section operation.
Context (o0 : Operation).
Hypothesis HA : A (old o0).
(** What holds throughout once a commit has begun. *)
Definition held (d : Disk) (j : Journal) : Prop := recorded A d ∧ holds o0 j ∧ intact d o0.
Lemma held_alike d d' j : alike d d' → recorded A d' → holds o0 j → intact d o0 → held d' j.
Proof. intros. split_and!; [done..|]. by eapply alike_intact. Qed.
Lemma held_touched dir d d' j : touched dir Rolling d d' → held d j → held d' j.
Proof.
  intros Ht (Hr & Hh & Hi). split_and!; [by eapply (recorded_touched A dir Rolling)|done|].
  eapply intact_frame; [apply Ht| |done]. intros x. by apply Ht.
Qed.
Lemma runs_candidate_dir d j R : holds o0 j → R d j →
  runs d j (candidate_dir env) (λ dir d' j', dir = operation_id (op_status o0) ∧ d' = d ∧ j' = j) R.
Proof.
  intros [(o & Ho & Hs) _ _ _ _ _] HR.
  eapply runs_bind; [apply (runs_operation_of d j (λ o' d' j', o' = o ∧ d' = d ∧ j' = j)); [intros; simplify_eq; done|done]|].
  intros _ d' j' (-> & -> & ->). eapply runs_bind; [by apply (runs_child env d j _ (λ _ d' j', d' = d ∧ j' = j))|].
  intros [] d' j' [-> ->]. apply runs_ret. by rewrite (so_id _ _ Hs).
Qed.

(** The old program comes back from the backup. *)
Definition restore_backup : X unit :=
  let* dir := candidate_dir env in
  let* h := hash_file env dir Previous in
  demand (bool_decide (h = sha256 (old o0)));;;
  let* h := hash_file env dir Previous in
  remove env dir Rolling;;;
  create env dir Rolling;;;
  write env dir Rolling h;;;
  install env dir Rolling.
Definition restored (d : Disk) (j : Journal) : Prop := recorded A d ∧ holds o0 j ∧ live d = Some (sha256 (old o0)).
Lemma restored_held d j : restored d j → held d j.
Proof. intros (? & ? & ?). split_and!; [done..|by left]. Qed.
Lemma restore_backup_runs d j o :
  held d j → d_journal d = Some j → operation j = Some o → phase (op_status o) = RollingBack →
  runs d j restore_backup (λ _ d' j', restored d' j' ∧ j' = j) (λ d' j', held d' j' ∧ j' = j).
Proof.
  intros Hd Hj Ho Hp. pose proof Hd as (Hr & Hh & Hi).
  eapply runs_bind; [by apply runs_candidate_dir|]. intros _ d' j' (-> & -> & ->).
  set (dir := operation_id (op_status o0)).
  eapply runs_bind; [by apply (runs_hash_file env d j _ _ (λ h d' j', lookup_file dir Previous d = Some h ∧ d' = d ∧ j' = j))|].
  intros h1 d' j' (Hold & -> & ->).
  eapply runs_bind; [apply (runs_demand d j _ (λ _ d' j', h1 = sha256 (old o0) ∧ d' = d ∧ j' = j)); [by intros ->%bool_decide_eq_true|done]|].
  intros [] d' j' (-> & -> & ->).
  eapply runs_bind; [by apply (runs_hash_file env d j _ _ (λ h d' j', lookup_file dir Previous d = Some h ∧ d' = d ∧ j' = j))|].
  intros h d' j' (Hprev & -> & ->).
  assert (∀ d', touched dir Rolling d d' → held d' j ∧ j = j) as Hkeep by (intros; split; [by eapply held_touched|done]).
  eapply runs_bind; [apply (runs_remove env d j dir Rolling (λ _ d' j', touched dir Rolling d d' ∧ j' = j)); [done|apply Hkeep]|].
  intros [] d1 j' [H1 ->].
  eapply runs_bind; [apply (runs_create env d1 j dir Rolling (λ _ d' j', touched dir Rolling d d' ∧ j' = j))|].
  { intros. split; [by eapply touched_trans|done]. }
  { intros. apply Hkeep. by eapply touched_trans. }
  intros [] d2 j' [H2 ->].
  eapply runs_bind; [apply (runs_write env d2 j dir Rolling h (λ _ d' j', touched dir Rolling d d' ∧ (∀ x, lookup_file dir Rolling d' = Some x → x = h) ∧ j' = j))|].
  { intros. split; [by eapply touched_trans|done]. }
  { intros. apply Hkeep. by eapply touched_trans. }
  intros [] d3 j' (H3 & Hh3 & ->). apply runs_install; [|by apply Hkeep].
  intros h' d4 Hh' Hj4 Hl4 _. apply Hh3 in Hh' as ->. rewrite Hold in Hprev. injection Hprev as <-.
  assert (recorded A d4) as Hr4.
  { exists j. split; [rewrite Hj4 -Hj; apply H3|]. split; [|by rewrite (ho_installed _ _ Hh)].
    eapply (holds_sound o0); [done..|]. rewrite Hp. by left. }
  split; split; [done| |by apply restored_held|]; done.
Qed.

Lemma rollback_runs why boot d j : held d j → runs d j (rollback env why boot) (λ _, held) held.
Proof.
  intros Hd. pose proof Hd as (Hr & Hh & Hi). pose proof (ho_operation _ _ Hh) as (o & Ho & Hs).
  eapply runs_bind; [by apply (runs_operation_of d j (λ o' d' j', o' = o ∧ d' = d ∧ j' = j)); [intros; simplify_eq|]|].
  intros _ d' j' (-> & -> & ->).
  eapply runs_bind; [by apply (runs_demand d j _ (λ _ d' j', d' = d ∧ j' = j))|]. intros [] d' j' [-> ->]. cbv zeta.
  eapply runs_bind; [by apply (runs_actual_hash env d j (λ h d' j', live d = Some h ∧ d' = d ∧ j' = j))|]. intros h d' j' (Hl & -> & ->).
  eapply runs_bind; [by apply (runs_demand d j _ (λ _ d' j', d' = d ∧ j' = j))|]. intros [] d' j' [-> ->].
  eapply runs_bind; [by apply (runs_modify d j _ (λ _ d' j', d' = d ∧ j' = on_operation (with_attempted true) j))|]. intros [] d' j' [-> ->].
  assert (holds o0 (on_operation (with_attempted true) j)) as Hh1 by (apply holds_on; [by intros ? [? ? ? ? ?]|done]).
  eapply runs_bind; [apply (runs_to_phase RollingBack o0 _ _ (λ _ d' j', held d' j' ∧ live d' = Some h ∧ d_journal d' = Some j' ∧
     ∃ o', operation j' = Some o' ∧ phase (op_status o') = RollingBack)); [done..| |by intros; eapply held_alike]|].
  { intros d' t j' Ha Hj' Hr' Hh'. split_and!; [by eapply held_alike|by destruct Ha as [-> _]|done|]. eexists. by rewrite /j' /= Ho. }
  intros [] d1 j1 (Hd1 & Hl1 & Hj1 & o1 & Ho1 & Hp1).
  eapply (runs_bind _ _ _ _ (λ _ d' j', d' = d1 ∧ j' = j1)).
  { destruct boot; [by apply runs_ret|].
    eapply runs_bind; [apply (runs_catch _ _ _ (λ _ d' j', d' = d1 ∧ j' = j1) _ (λ d' j', d' = d1 ∧ j' = j1)); [by apply runs_look|by intros ? ? [-> ->]]|].
    intros _ d' j' [-> ->]. eapply runs_bind; [by apply (runs_service env d1 j1 (λ _ d' j', d' = d1 ∧ j' = j1))|]. intros s d' j' [-> ->].
    by apply runs_demand. }
  intros [] d' j' [-> ->]. rewrite (so_old _ _ Hs).
  eapply (runs_bind _ _ _ _ (λ _, restored)).
  { case_bool_decide as Hold.
    - apply runs_ret. destruct Hd1 as (? & ? & ?). split_and!; [done..|congruence].
    - eapply runs_mono; [by apply (restore_backup_runs d1 j1 o1)|by intros _ ? ? [? _]|by intros ? ? [? _]]. }
  intros [] d2 j2 Hd2. pose proof Hd2 as (Hr2 & Hh2 & Hl2).
  eapply (runs_bind _ _ _ _ (λ _ d' j', restored d' j' ∧ ∃ o', operation j' = Some o' ∧ phase (op_status o') = if boot then AwaitingReadiness else RollingBack)).
  { eapply (runs_launch_as _ o0); [done|by destruct boot; [|left]|done|done| |].
    - intros d' j' o' l Ha Hj' Hr' Hh' Ho' Hp' _ _. split; [|by exists o']. split_and!; [done..|]. by destruct Ha as [-> _].
    - intros d' j' Ha Hr' Hh'. eapply held_alike; [done..|by left]. }
  intros [] d3 j3 ((Hr3 & Hh3 & Hl3) & o3 & Ho3 & Hp3). destruct boot; [apply runs_ret; by split_and!; [..|left]|].
  eapply runs_bind; [by apply (runs_modify d3 j3 _ (λ _ d' j', d' = d3 ∧ j' = on_operation (with_started true) j3))|]. intros [] d' j' [-> ->].
  assert (holds o0 (on_operation (with_started true) j3)) as Hh4 by (apply holds_on; [by intros ? [? ? ? ? ?]|done]).
  eapply (runs_bind _ _ _ _ (λ _, restored)).
  { eapply (holds_persist o0); [done|by rewrite /= Ho3|by rewrite /= Hp3; left|done..| |].
    - intros d' [Hl' _] _ Hr'. split_and!; [done..|congruence].
    - intros d' Ha Hr'. eapply held_alike; [done..|by left]. }
  intros [] d4 j4 Hd4.
  eapply (runs_bind _ _ _ _ (λ _ d' j', d' = d4 ∧ j' = j4)).
  { apply (runs_catch _ _ _ _ _ (λ d' j', d' = d4 ∧ j' = j4)); [by apply runs_look|]. intros ? ? [-> ->]. by split; [apply restored_held|]. }
  intros started d' j' [-> ->].
  eapply (runs_bind _ _ _ _ (λ _ d' j', d' = d4 ∧ j' = j4)).
  { destruct started; [|by apply runs_ret].
    apply (runs_catch _ _ _ _ _ (λ d' j', d' = d4 ∧ j' = j4)); [by apply runs_wait_ready|]. intros ? ? [-> ->]. by split; [apply restored_held|]. }
  intros ready d' j' [-> ->]. pose proof Hd4 as (Hr4 & Hh5 & Hl4).
  destruct ready; (eapply (runs_finish_as _ _ o0); [done|by [|left]|done|done|..]); intros; (eapply held_alike; [done..|by left]).
Qed.

(** ** Commit *)
(** The old program runs and the disk knows all that memory does. *)
Definition parked (d : Disk) (j : Journal) : Prop := restored d j ∧ d_journal d = Some j.
Lemma parked_restaged d d' j : restaged d d' → parked d j → parked d' j.
Proof.
  intros [Hj' Hl'] [(Hr & Hh & Hl) Hj]. split; [|congruence]. split_and!; [|done|congruence].
  destruct Hr as (i & Hi & Hs & HAi). rewrite Hj in Hi. injection Hi as <-.
  exists j. split; [congruence|]. split; [|done]. eapply sound_rest; [by rewrite (ho_installed _ _ Hh)|done..].
Qed.
Definition id0 : Str := operation_id (op_status o0).
(** The candidate and the backup are in place. *)
Definition prepared (d : Disk) : Prop :=
  lookup_file id0 Candidate d = Some (sha256 (candidate o0)) ∧ lookup_file id0 Previous d = Some (sha256 (old o0)).

Lemma copy_live_runs d j : parked d j → lookup_file id0 Candidate d = Some (sha256 (candidate o0)) →
  runs d j (copy_live_to_backup env) (λ _ d' j', parked d' j' ∧ prepared d' ∧ j' = j) (λ d' j', parked d' j' ∧ j' = j).
Proof.
  intros Hp Hc. pose proof Hp as [(Hr & Hh & Hl) Hj]. pose proof (ho_operation _ _ Hh) as (o & Ho & Hs).
  eapply runs_bind; [by apply runs_candidate_dir|]. intros _ d' j' (-> & -> & ->).
  eapply runs_bind; [by apply (runs_operation_of d j (λ o' d' j', o' = o ∧ d' = d ∧ j' = j)); [intros; simplify_eq|]|]. intros _ d' j' (-> & -> & ->).
  eapply runs_bind; [by apply (runs_actual_hash env d j (λ h d' j', d' = d ∧ j' = j))|]. intros h d' j' [-> ->].
  eapply runs_bind; [by apply (runs_demand d j _ (λ _ d' j', d' = d ∧ j' = j))|]. intros [] d' j' [-> ->].
  assert (∀ d', touched id0 Previous d d' → parked d' j ∧ j = j) as Hkeep by (intros d' [Ht _]; split; [by eapply parked_restaged|done]).
  eapply runs_bind; [apply (runs_create env d j id0 Previous (λ _ d' j', touched id0 Previous d d' ∧ j' = j)); [done|apply Hkeep]|].
  intros [] d1 j' [H1 ->].
  eapply runs_bind; [apply (runs_actual_hash env d1 j (λ h d' j', d' = d1 ∧ j' = j)); [done|by apply Hkeep]|]. intros h1 d' j' [-> ->].
  eapply runs_bind; [apply (runs_write env d1 j id0 Previous h1 (λ _ d' j', touched id0 Previous d d' ∧ j' = j))|].
  { intros. split; [by eapply touched_trans|done]. }
  { intros. apply Hkeep. by eapply touched_trans. }
  intros [] d2 j' [H2 ->]. destruct (Hkeep d2 H2) as [Hp2 _].
  eapply runs_bind; [by apply (runs_hash_file env d2 j id0 Previous (λ h d' j', lookup_file id0 Previous d2 = Some h ∧ d' = d2 ∧ j' = j))|].
  intros h2 d' j' (Hh2 & -> & ->). rewrite (so_old _ _ Hs). apply runs_demand; [|done]. intros ->%bool_decide_eq_true.
  split; [done|]. split; [|done]. split; [|done]. rewrite (proj2 H2) //.
Qed.

Lemma verify_commit_runs d j : parked d j →
  runs d j (verify_commit env) (λ dir d' j', dir = id0 ∧ parked d' j' ∧ prepared d' ∧ j' = j) (λ d' j', parked d' j' ∧ j' = j).
Proof.
  intros Hp. pose proof Hp as [(Hr & Hh & Hl) Hj]. pose proof (ho_operation _ _ Hh) as (o & Ho & Hs).
  eapply runs_bind; [by apply (runs_operation_of d j (λ o' d' j', o' = o ∧ d' = d ∧ j' = j)); [intros; simplify_eq|]|]. intros _ d' j' (-> & -> & ->).
  eapply runs_bind; [by apply (runs_actual_hash env d j (λ h d' j', d' = d ∧ j' = j))|]. intros h d' j' [-> ->].
  eapply runs_bind; [by apply (runs_demand d j _ (λ _ d' j', d' = d ∧ j' = j))|]. intros [] d' j' [-> ->].
  eapply runs_bind; [by apply runs_candidate_dir|]. intros _ d' j' (-> & -> & ->).
  eapply runs_bind; [by apply (runs_hash_file env d j id0 Candidate (λ h d' j', lookup_file id0 Candidate d = Some h ∧ d' = d ∧ j' = j))|].
  intros h2 d' j' (Hh2 & -> & ->).
  eapply runs_bind; [apply (runs_demand d j _ (λ _ d' j', h2 = sha256 (candidate o) ∧ d' = d ∧ j' = j)); [by intros ->%bool_decide_eq_true|done]|].
  intros [] d' j' (-> & -> & ->). rewrite (so_candidate _ _ Hs) in Hh2.
  eapply runs_bind; [by apply copy_live_runs|]. intros [] d' j' (? & ? & ->). by apply runs_ret.
Qed.

(** Only a candidate that was seen at work becomes the installed program. *)
Hypothesis Hready : ∀ l t, pl_identity l = candidate o0 → window l (op_config_revision o0) (samples env t) → A (candidate o0).

Lemma commit_sound o j d t j' : holds o0 j → operation j = Some o → live d = Some (sha256 (candidate o0)) →
  commit_journal t j = Some j' → sound d j' ∧ installed j' = candidate o0 ∧ settled j' = true.
Proof.
  intros Hh Ho Hl Hc. pose proof Hh as [(o1 & Ho1 & Hs) Hi Hsc Hpe [Hd Hcd] [Hi1 Hi2]]. rewrite Ho in Ho1. injection Ho1 as <-.
  unfold commit_journal in Hc. rewrite Ho in Hc. cbn [mbind option_bind] in Hc. case_bool_decide; [|done]. injection Hc as <-.
  destruct (finish_operation Succeeded None t o (with_installed (candidate o) j) Ho) as (o' & Ho' & Hp' & Hs' & Hin & Hsch & Hpend).
  set (j' := finish Succeeded None t (with_installed (candidate o) j)) in *. simpl in Hin, Hsch, Hpend. rewrite (so_candidate _ _ Hs) in Hin.
  pose proof (same_op_trans _ _ _ Hs Hs') as Hs0. split_and!; [|done|by rewrite /settled Ho' Hp']. split.
  - unfold journal_valid. rewrite Hsch Hsc Hin Hcd Ho' Hpend Hpe (so_id _ _ Hs0) (so_nonce _ _ Hs0) Hi1 Hi2. done.
  - intros o2. rewrite Ho'. intros [= <-]. by rewrite (so_candidate _ _ Hs0).
  - by rewrite Hpend Hpe.
  - rewrite Ho'. unfold phase_sound. by rewrite Hp' Hin.
Qed.

(** Until the journal is settled, the operation can be rolled back. *)
Definition undone (d : Disk) (j : Journal) : Prop := recorded A d ∧ (settled j = false → holds o0 j ∧ intact d o0).
Lemma held_undone d j : held d j → undone d j.
Proof. intros (? & ? & ?). by split. Qed.
Lemma switch_over_runs o d j : parked d j → prepared d → operation j = Some o → phase (op_status o) = Stopping →
  runs d j (switch_over env id0) (λ _ d' _, recorded A d') undone.
Proof.
  intros [(Hr & Hh & Hl) Hj] [Hc Hp] Ho Hph.
  eapply (runs_bind _ _ _ _ (λ _ d' j', held d' j' ∧ live d' = Some (sha256 (candidate o0)))).
  { apply runs_install; [|by apply held_undone; split_and!; [..|left]]. intros h d' Hh' Hj' Hl' Hf. rewrite Hc in Hh'. injection Hh' as <-.
    assert (intact d' o0) as Hi by (right; split; [done|]; by rewrite Hf).
    assert (held d' j) as Hheld.
    { split_and!; [|done..]. exists j. split; [congruence|]. split; [eapply (holds_sound o0); [done..|by rewrite Hph]|by rewrite (ho_installed _ _ Hh)]. }
    split; [done|by apply held_undone]. }
  intros [] d1 j1 [Hd1 Hl1]. pose proof Hd1 as (Hr1 & Hh1 & Hi1).
  eapply (runs_bind _ _ _ _ (λ _ d' j', held d' j' ∧ live d' = Some (sha256 (candidate o0)) ∧
    ∃ o l, operation j' = Some o ∧ pending_launch o = Some l ∧ pl_identity l = candidate o0)).
  { eapply (runs_launch_as Starting o0); [done..| |].
    - intros d' j' o' l Ha _ Hr' Hh' Ho' _ Hpl Hpi. split; [by eapply held_alike|]. split; [by destruct Ha as [-> _]|by exists o', l].
    - intros. by eapply held_undone, held_alike. }
  intros [] d2 j2 (Hd2 & Hl2 & o2 & l & Ho2 & Hpl & Hpi). pose proof Hd2 as (Hr2 & Hh2 & Hi2).
  eapply (runs_bind _ _ _ _ (λ _ d' j', d' = d2 ∧ j' = j2)); [by apply runs_look; [|apply held_undone]|]. intros [] d' j' [-> ->].
  eapply (runs_bind _ _ _ _ (λ _ d' j', held d' j' ∧ live d' = Some (sha256 (candidate o0)) ∧
    ∃ o, operation j' = Some o ∧ phase (op_status o) = Validating ∧ pending_launch o = Some l)).
  { eapply (runs_to_phase Validating o0); [done..| |].
    - intros d' t j' Ha _ Hr' Hh'. split; [by eapply held_alike|]. split; [by destruct Ha as [-> _]|]. eexists. by rewrite /j' /= Ho2.
    - intros. by eapply held_undone, held_alike. }
  intros [] d3 j3 (Hd3 & Hl3 & o3 & Ho3 & Hp3 & Hpl3). pose proof Hd3 as (Hr3 & Hh3 & Hi3).
  eapply (runs_bind _ _ _ _ (λ _ d' j', A (candidate o0) ∧ d' = d3 ∧ j' = j3)).
  { apply runs_wait_ready; [|by apply held_undone]. intros o' l' t Ho' Hl' Hw. split; [|done]. simplify_eq.
    destruct (ho_operation _ _ Hh3) as (o4 & Ho4 & Hs4). simplify_eq. rewrite (so_revision _ _ Hs4) in Hw. by eapply Hready. }
  intros [] d' j' (HAc & -> & ->).
  eapply runs_bind; [by apply (runs_now env d3 j3 (λ _ d' j', d' = d3 ∧ j' = j3))|]. intros t d' j' [-> ->].
  eapply runs_bind; [by apply (runs_journal_of d3 j3 (λ a d' j', a = j3 ∧ d' = d3 ∧ j' = j3))|]. intros _ d' j' (-> & -> & ->).
  destruct (commit_journal t j3) as [j'|] eqn:Hcj; [|by apply runs_fail, held_undone].
  destruct (commit_sound o3 j3 d3 t j' Hh3 Ho3 Hl3 Hcj) as (Hs' & Hin & Hset).
  eapply runs_bind; [by apply (runs_modify d3 j3 _ (λ _ d' i, d' = d3 ∧ i = j'))|]. intros [] d' i [-> ->].
  apply (runs_persist env A); [done|by rewrite Hin|done|done|]. intros d' Ha Hr'. split; [done|]. by rewrite Hset.
Qed.

Definition good_end {B} : B → Disk → Journal → Prop := λ _ d _, recorded A d.
Definition good_stop : Disk → Journal → Prop := λ d _, recorded A d.
Lemma held_end d j : held d j → recorded A d.
Proof. by intros [? _]. Qed.
Lemma rollback_end why boot d j : held d j → runs d j (rollback env why boot) good_end good_stop.
Proof. intros Hd. eapply runs_mono; [by apply rollback_runs| |]; intros; by eapply held_end. Qed.
Lemma failed_runs c p why d j (Hp : phase_ok p d o0) : recorded A d → holds o0 j →
  runs d j (finish_as env p why;;; fail_with c : X unit) good_end good_stop.
Proof.
  intros Hr Hh. eapply (runs_bind _ _ _ _ good_end); [|intros; by apply runs_fail].
  eapply (runs_finish_as p _ o0); [done..| |]; intros; done.
Qed.
Lemma commit_runs d j : parked d j → runs d j (commit env) good_end good_stop.
Proof.
  intros Hp. pose proof Hp as [Hres Hj].
  eapply (runs_bind _ _ _ _ (λ r d' j', parked d' j' ∧ match r with inl dir => dir = id0 ∧ prepared d' | inr _ => True end)).
  { eapply runs_catch; [eapply runs_mono; [by apply verify_commit_runs|intros ? ? ? (? & ? & ? & _); done|]|].
    - intros d' j' [H1 _]. exact H1.
    - intros d' j' H1. split; [apply H1|done]. }
  intros [dir|c] d1 j1 [[(Hr1 & Hh1 & Hl1) Hj1] Hdir]; [|by apply failed_runs].
  destruct Hdir as [-> Hprep]. pose proof (ho_operation _ _ Hh1) as (o & Ho & Hs).
  assert (∀ p d d' t j, phase_ok p d o0 → prepared d → live d = Some (sha256 (old o0)) → alike d d' → d_journal d' = Some (on_operation (with_status (set_phase p t)) j) →
    recorded A d' → holds o0 (on_operation (with_status (set_phase p t)) j) →
    parked d' (on_operation (with_status (set_phase p t)) j) ∧ prepared d') as Hnext.
  { intros p d2 d' t j2 _ [Hc Hpv] Hl2 Ha Hj' Hr' Hh'. split.
    - split; [|done]. split_and!; [done..|]. by destruct Ha as [-> _].
    - split; by rewrite (alike_lookup d2). }
  eapply (runs_bind _ _ _ _ (λ _ d' j', parked d' j' ∧ prepared d')).
  { eapply (runs_to_phase Committing o0); [done..| |]; [|by intros]. intros. by eapply (Hnext Committing). }
  intros [] d2 j2 [[(Hr2 & Hh2 & Hl2) Hj2] Hprep2]. pose proof (ho_operation _ _ Hh2) as (o2 & Ho2 & Hs2).
  eapply (runs_bind _ _ _ _ (λ _ d' j', parked d' j' ∧ prepared d' ∧ ∃ o, operation j' = Some o ∧ phase (op_status o) = Stopping)).
  { eapply (runs_to_phase Stopping o0); [done|by left|done..| |]; [|by intros]. intros d' t j' Ha Hj' Hr' Hh'.
    destruct (Hnext Stopping d2 d' t j2) as [? ?]; [by left|done..|]. split_and!; [done..|]. eexists. by rewrite /j' /= Ho2. }
  intros [] d3 j3 (Hp3 & Hprep3 & o3 & Ho3 & Hph3). pose proof Hp3 as [(Hr3 & Hh3 & Hl3) Hj3].
  eapply (runs_bind _ _ _ _ (λ _ d' j', d' = d3 ∧ j' = j3)).
  { apply (runs_catch _ _ _ _ _ (λ d' j', d' = d3 ∧ j' = j3)); [by apply runs_stop_clean|]. by intros ? ? [-> ->]. }
  intros [|c] d' j' [-> ->]; [|apply rollback_end; by split_and!; [..|left]].
  eapply (runs_bind _ _ _ _ (λ r d' j', match r with inl _ => recorded A d' | inr _ => undone d' j' end)).
  { eapply runs_catch; [by eapply switch_over_runs|]. intros d' j' Hu. split; [apply Hu|done]. }
  intros r d4 j4 Hr4. eapply runs_bind; [by apply (runs_journal_of d4 j4 (λ a d' j', a = j4 ∧ d' = d4 ∧ j' = j4))|]. intros _ d' j' (-> & -> & ->).
  destruct r as [|c]; [by apply runs_ret|]. destruct Hr4 as [Hr4 Hu].
  eapply (runs_bind _ _ _ _ good_end); [|intros; by apply runs_fail]. destruct (settled j4); simpl; [by apply runs_ret|].
  destruct Hu; [done|]. by apply rollback_end.
Qed.
End operation.

(** ** Recovery *)
Definition loaded (d : Disk) (j : Journal) : Prop := d_journal d = Some j ∧ sound d j ∧ A (installed j).
Lemma loaded_recorded d j : loaded d j → recorded A d.
Proof. intros ?. by exists j. Qed.
Lemma loaded_holds d j o : loaded d j → operation j = Some o → terminal (phase (op_status o)) = false →
  A (old o) ∧ recorded A d ∧ holds o j ∧ phase_ok (phase (op_status o)) d o.
Proof.
  intros Hl Ho Ht. destruct Hl as (Hj & Hs & HAi). destruct (sound_holds d j o Hs Ho Ht) as [Hh Hp].
  split_and!; [by rewrite -(ho_installed _ _ Hh)|by exists j|done|done].
Qed.
Lemma publish_end d j : recorded A d → runs d j (publish env) good_end good_stop.
Proof. intros Hr. apply runs_publish; intros; by eapply (recorded_alike A). Qed.
Lemma matches_installed_runs d j (Q : unit → Disk → Journal → Prop) R :
  (live d = Some (sha256 (installed j)) → Q tt d j) → R d j → runs d j (matches_installed env) Q R.
Proof.
  intros HQ HR. eapply runs_bind; [by apply (runs_actual_hash env d j (λ h d' j', live d = Some h ∧ d' = d ∧ j' = j))|]. intros h d' j' (Hl & -> & ->).
  eapply runs_bind; [by apply (runs_journal_of d j (λ a d' j', a = j ∧ d' = d ∧ j' = j))|]. intros _ d' j' (-> & -> & ->).
  apply runs_demand; [|done]. intros ->%bool_decide_eq_true. auto.
Qed.
Lemma live_intact d o : live d = Some (sha256 (old o)) → intact d o.
Proof. by left. Qed.
(** Every phase after the staging is one to roll back from. *)
Lemma phase_ok_intact p d o : phase_ok p d o → intact d o.
Proof. destruct p; simpl; try done; apply live_intact. Qed.

Lemma give_up_runs o boot d j : A (old o) → held o d j → runs d j (roll_back_or_give_up env boot) good_end good_stop.
Proof.
  intros HA Hd. eapply (runs_bind _ _ _ _ (λ _, held o)).
  { eapply runs_catch; [by apply rollback_runs|]. intros d' j' H'. split; [by eapply held_end|done]. }
  intros [] d1 j1 Hd1; [apply runs_ret; by eapply held_end|]. pose proof Hd1 as (? & ? & ?). by eapply (failed_runs o HA).
Qed.
Lemma wait_catch d j (Q : unit + Cause → Disk → Journal → Prop) R : (∀ r, Q r d j) → R d j → runs d j (catch (wait_ready env)) Q R.
Proof. intros HQ HR. apply (runs_catch _ _ _ _ _ (λ d' j', d' = d ∧ j' = j)); [by apply runs_wait_ready|]. by intros ? ? [-> ->]. Qed.
Lemma finish_end p why o d j : A (old o) → recorded A d → holds o j → phase_ok p d o → runs d j (finish_as env p why) good_end good_stop.
Proof. intros. eapply (runs_finish_as p why o); [done..| |]; intros; done. Qed.
(** The ending of a wait for the old program. *)
Lemma settle_runs o d j (r : unit + Cause) why : A (old o) → recorded A d → holds o j → live d = Some (sha256 (old o)) →
  runs d j (match r with inl _ => finish_as env RolledBack (Some (lit "interrupted")) | inr _ => finish_as env ManualRequired why end) good_end good_stop.
Proof. intros HA Hr Hh Hl. destruct r; eapply (finish_end _ _ o); try done. by left. Qed.

Lemma never_stopped_runs o d j R : R d j →
  runs d j (never_stopped env o) (λ a d' j', (a = true → live d = Some (sha256 (old o))) ∧ d' = d ∧ j' = j) R.
Proof.
  intros HR. eapply (runs_bind _ _ _ _ (λ h d' j', live d = Some h ∧ d' = d ∧ j' = j)); [by apply runs_actual_hash|]. intros h d' j' (Hl & -> & ->).
  destruct (bool_decide_reflect (h = sha256 (old o))) as [->|]; [|by apply runs_ret].
  eapply (runs_bind _ _ _ _ (λ _ d' j', d' = d ∧ j' = j)).
  { apply (runs_catch _ _ _ _ _ (λ d' j', d' = d ∧ j' = j)); [by apply runs_service|]. by intros ? ? [-> ->]. }
  intros s d' j' [-> ->]. by apply runs_ret.
Qed.

Lemma recover_operation_runs boot o d j : loaded d j → operation j = Some o → runs d j (recover_operation env boot o) good_end good_stop.
Proof.
  intros Hld Ho. pose proof (loaded_recorded _ _ Hld) as Hrec. unfold recover_operation. cbv zeta.
  destruct (terminal (phase (op_status o))) eqn:Ht.
  { eapply (runs_bind _ _ _ _ (λ _ d' j', d' = d ∧ j' = j)); [by apply matches_installed_runs|]. intros [] d' j' [-> ->]. by apply publish_end. }
  destruct (loaded_holds d j o Hld Ho Ht) as (HA & _ & Hh & Hp). pose proof (phase_ok_intact _ _ _ Hp) as Hi.
  case_match; [by apply publish_end|]. destruct (precommit (phase (op_status o))) eqn:Hpre.
  { eapply (finish_end _ _ o); [done..|]. by destruct (phase (op_status o)). }
  eapply (runs_bind _ _ _ _ (λ _ d' j', d' = d ∧ j' = j)); [destruct boot; [by apply runs_ret|by apply runs_manager]|]. intros running d' j' [-> ->].
  destruct running; simpl.
  2: { eapply (runs_to_phase AwaitingBootRecovery o); [done..| |]; intros; done. }
  destruct (rollback_started o && negb boot).
  { eapply (runs_bind _ _ _ _ (λ h d' j', live d = Some h ∧ d' = d ∧ j' = j)); [by apply runs_actual_hash|]. intros h d' j' (Hl & -> & ->).
    eapply (runs_bind _ _ _ _ (λ r d' j', (∀ u, r = inl u → live d = Some (sha256 (old o))) ∧ d' = d ∧ j' = j)).
    { destruct (bool_decide (h = sha256 (old o)) && _) eqn:Hc; [|by apply runs_ret]. apply andb_prop in Hc as [->%bool_decide_eq_true _]. by apply wait_catch. }
    intros [u|c] d' j' (Hlr & -> & ->).
    - eapply (finish_end _ _ o); [done..|]. by apply (Hlr u).
    - by eapply (finish_end _ _ o). }
  eapply (runs_bind _ _ _ _ (λ a d' j', (a = true → live d = Some (sha256 (old o))) ∧ d' = d ∧ j' = j)).
  { case_match; [by apply never_stopped_runs|by apply runs_ret]. }
  intros [] d' j' (Hlr & -> & ->); [|by apply (give_up_runs o)].
  specialize (Hlr eq_refl).
  eapply (runs_bind _ _ _ _ (λ _, restored o)).
  { eapply (runs_launch_as RollingBack o); [done..| |]; intros; [|done]. split_and!; [done..|]. match goal with H : alike _ _ |- _ => by destruct H as [-> _] end. }
  intros [] d1 j1 Hd1. pose proof Hd1 as (Hr1 & Hh1 & Hl1).
  eapply (runs_bind _ _ _ _ (λ _ d' j', d' = d1 ∧ j' = j1)); [by apply wait_catch|]. intros r d' j' [-> ->].
  destruct r; [by eapply (finish_end _ _ o)|]. apply (give_up_runs o); [done|]. by apply restored_held.
Qed.

Lemma runs_loaded {B} d (m : X B) (Q : B → Disk → Journal → Prop) R j :
  recorded A d → R d j → (∀ j', loaded d j' → runs d j' m Q R) → runs d j (load env;;; m) Q R.
Proof.
  intros (j0 & Hj & Hs & HAj) HR Hm. eapply (runs_bind _ _ _ _ (λ _ d' j', d' = d ∧ j' = j0)); [|by intros _ d' j' [-> ->]; apply Hm].
  apply runs_load; [|done]. intros j' Hj' _. split; [done|]. congruence.
Qed.
Lemma recover_runs boot d j : recorded A d → runs d j (recover env boot) good_end good_stop.
Proof.
  intros Hr. eapply (runs_bind _ _ _ _ (λ _ d' j', d' = d ∧ j' = j)); [by apply runs_look|]. intros [] d' j' [-> ->].
  apply runs_loaded; [done..|]. intros j0 Hld.
  eapply runs_bind; [by apply (runs_journal_of d j0 (λ a d' j', a = j0 ∧ d' = d ∧ j' = j0))|]. intros _ d' j' (-> & -> & ->).
  assert (runs d j0 (matches_installed env;;; publish env) good_end good_stop) as Hm.
  { eapply (runs_bind _ _ _ _ (λ _ d' j', d' = d ∧ j' = j0)); [by apply matches_installed_runs|]. intros [] d' j' [-> ->]. by apply publish_end. }
  destruct (installation_pending j0); [done|]. destruct (operation j0) as [o|] eqn:Ho; [|done]. by apply recover_operation_runs.
Qed.

(** ** Requests *)
Lemma sound_last x d j : sound d j → sound d (with_last x j).
Proof. intros [? ? ? ?]. by split. Qed.
Lemma record_last d j x : loaded d j → runs d (with_last x j) (persist env) good_end good_stop.
Proof. intros (Hj & Hs & HAi). apply (runs_persist env A); [by apply sound_last|done|by exists j|done|done]. Qed.
Lemma fence_runs i d j (Q : bool → Disk → Journal → Prop) R : (∀ b, Q b d j) → R d j → runs d j (terminal_fence i) Q R.
Proof.
  intros HQ HR. eapply runs_bind; [by apply (runs_journal_of d j (λ a d' j', a = j ∧ d' = d ∧ j' = j))|]. intros _ d' j' (-> & -> & ->).
  destruct (list_find _ _) as [[k s]|]; [|by apply runs_ret].
  eapply runs_bind; [by apply (runs_demand d j _ (λ _ d' j', d' = d ∧ j' = j))|]. intros [] d' j' [-> ->]. by apply runs_ret.
Qed.
Lemma matching_runs i d j (Q : Operation → Disk → Journal → Prop) R :
  (∀ o, operation j = Some o → operation_id (op_status o) = i_operation_id i → phase_nonce (op_status o) = i_phase_nonce i → Q o d j) → R d j →
  runs d j (matching i) Q R.
Proof.
  intros HQ HR. eapply runs_bind; [by apply (runs_operation_of d j (λ o d' j', operation j = Some o ∧ d' = d ∧ j' = j))|]. intros o d' j' (Ho & -> & ->).
  eapply (runs_bind _ _ _ _ (λ _ d' j', (operation_id (op_status o) = i_operation_id i ∧ phase_nonce (op_status o) = i_phase_nonce i) ∧ d' = d ∧ j' = j)).
  { apply runs_demand; [|done]. by intros [?%bool_decide_eq_true ?%bool_decide_eq_true]%andb_prop. }
  intros [] d' j' ([? ?] & -> & ->). apply runs_ret. by apply HQ.
Qed.
Lemma not_installing_runs d j (Q : unit → Disk → Journal → Prop) R : (installation_pending j = None → Q tt d j) → R d j → runs d j not_installing Q R.
Proof.
  intros HQ HR. eapply runs_bind; [by apply (runs_journal_of d j (λ a d' j', a = j ∧ d' = d ∧ j' = j))|]. intros _ d' j' (-> & -> & ->).
  apply runs_demand; [|done]. by intros ?%bool_decide_eq_true; auto.
Qed.
Lemma precommit_live p d o : precommit p = true → phase_ok p d o → live d = Some (sha256 (old o)) ∧ terminal p = false.
Proof. by destruct p. Qed.

Lemma abort_runs i d j : loaded d j → runs d j (abort env i) good_end good_stop.
Proof.
  intros Hld. pose proof (loaded_recorded _ _ Hld) as Hrec.
  eapply runs_bind; [by apply (fence_runs i d j (λ _ d' j', d' = d ∧ j' = j))|]. intros b d' j' [-> ->]. destruct b; [by apply publish_end|].
  eapply runs_bind; [by apply (runs_journal_of d j (λ a d' j', a = j ∧ d' = d ∧ j' = j))|]. intros _ d' j' (-> & -> & ->).
  destruct (when _ _).
  - eapply (runs_bind _ _ _ _ (λ o d' j', operation j = Some o ∧ d' = d ∧ j' = j)); [by apply matching_runs|]. intros o' d' j' (Ho & -> & ->).
    eapply (runs_bind _ _ _ _ good_end).
    + destruct (precommit (phase (op_status o'))) eqn:Hpre; [|by apply runs_ret].
      assert (terminal (phase (op_status o')) = false) as Ht by (by destruct (phase (op_status o'))).
      destruct (loaded_holds d j o' Hld Ho Ht) as (HA & _ & Hh & Hp). eapply (finish_end _ _ o'); try done. by eapply precommit_live.
    + intros [] d1 j1 Hd1. by apply publish_end.
  - eapply runs_bind; [by apply (runs_now env d j (λ _ d' j', d' = d ∧ j' = j))|]. intros t d' j' [-> ->].
    eapply runs_bind; [by apply runs_modify; instantiate (1 := λ _ d' j', d' = d ∧ j' = with_last _ j)|]. intros [] d' j' [-> ->].
    by apply record_last.
Qed.

Lemma commit_service_runs o inv s d j : A (old o) → recorded A d → holds o j → live d = Some (sha256 (old o)) →
  runs d j (commit_service env inv s) (λ b d' j', if b then d' = d ∧ j' = j else recorded A d') good_stop.
Proof.
  intros HA Hr Hh Hl. unfold commit_service. destruct s as [s|c].
  - case_match; [|by apply runs_ret].
    eapply (runs_bind _ _ _ _ good_end); [by eapply (finish_end _ _ o)|]. intros. by apply runs_ret.
  - eapply (runs_bind _ _ _ _ good_end); [by eapply (finish_end _ _ o)|]. intros. by apply runs_fail.
Qed.
Lemma handle_commit_runs i inv rev units d j :
  (∀ o l t, operation j = Some o → phase (op_status o) = Staged → operation_id (op_status o) = i_operation_id i → phase_nonce (op_status o) = i_phase_nonce i →
     op_config_revision o = rev → pl_identity l = candidate o → window l rev (samples env t) → A (candidate o)) →
  loaded d j → runs d j (handle_commit env i inv rev units) good_end good_stop.
Proof.
  intros Hready Hld. pose proof (loaded_recorded _ _ Hld) as Hrec.
  eapply runs_bind; [by apply (fence_runs i d j (λ _ d' j', d' = d ∧ j' = j))|]. intros b d' j' [-> ->]. destruct b; [by apply publish_end|].
  eapply (runs_bind _ _ _ _ (λ o d' j', (operation j = Some o ∧ operation_id (op_status o) = i_operation_id i ∧ phase_nonce (op_status o) = i_phase_nonce i) ∧ d' = d ∧ j' = j)); [by apply matching_runs|].
  intros o d' j' ((Ho & Hid & Hn) & -> & ->).
  eapply (runs_bind _ _ _ _ (λ _ d' j', (phase (op_status o) = Staged ∧ op_config_revision o = rev) ∧ d' = d ∧ j' = j)).
  { apply runs_demand; [|done]. by intros [[?%bool_decide_eq_true _]%andb_prop ?%bool_decide_eq_true]%andb_prop. }
  intros [] d' j' ([Hph Hrev] & -> & ->).
  destruct (loaded_holds d j o Hld Ho) as (HA & _ & Hh & Hp); [by rewrite Hph|]. rewrite Hph in Hp.
  destruct units as [c|]; [by apply (failed_runs o HA)|].
  eapply runs_bind; [by apply (runs_now env d j (λ _ d' j', d' = d ∧ j' = j))|]. intros t d' j' [-> ->].
  case_match; [by eapply (finish_end _ _ o)|].
  eapply (runs_bind _ _ _ _ (λ _ d' j', d' = d ∧ j' = j)).
  { apply (runs_catch _ _ _ _ _ (λ d' j', d' = d ∧ j' = j)); [by apply runs_service|]. by intros ? ? [-> ->]. }
  intros s d' j' [-> ->]. eapply runs_bind; [by apply (commit_service_runs o)|]. intros [] d1 j1; [|intros; by apply runs_ret].
  intros [-> ->]. apply (commit_runs o HA).
  - intros l t' Hl Hw. eapply Hready; [done..|by rewrite -Hrev].
  - destruct Hld as (Hj & _ & _). by split.
Qed.
Lemma verify_recovery_runs i units d j : loaded d j → runs d j (verify_recovery env i units) good_end good_stop.
Proof.
  intros Hld. pose proof (loaded_recorded _ _ Hld) as Hrec.
  eapply (runs_bind _ _ _ _ (λ o d' j', operation j = Some o ∧ d' = d ∧ j' = j)); [by apply matching_runs|]. intros o d' j' (Ho & -> & ->).
  eapply (runs_bind _ _ _ _ (λ _ d' j', phase (op_status o) = AwaitingReadiness ∧ d' = d ∧ j' = j)).
  { apply runs_demand; [|done]. by intros ?%bool_decide_eq_true. }
  intros [] d' j' (Hph & -> & ->). destruct (loaded_holds d j o Hld Ho) as (HA & _ & Hh & Hp); [by rewrite Hph|]. rewrite Hph in Hp. simpl in Hp.
  destruct units as [c|]; [apply (failed_runs o HA); [by left|done..]|].
  eapply (runs_bind _ _ _ _ (λ _ d' j', d' = d ∧ j' = j)); [by apply wait_catch|]. intros r d' j' [-> ->]. by apply (settle_runs o).
Qed.

(** ** Staging *)
Definition at_rest (d : Disk) : Prop := ∃ j, loaded d j ∧ live d = Some (sha256 (installed j)).
Lemma at_rest_recorded d : at_rest d → recorded A d.
Proof. intros (j & Hld & _). by eapply loaded_recorded. Qed.
Lemma loaded_restaged d d' j : live d = Some (sha256 (installed j)) → restaged d d' → loaded d j → loaded d' j.
Proof. intros Hl [Hj' Hl'] (Hj & Hs & HAi). split_and!; [congruence| |done]. by eapply sound_rest. Qed.
Lemma at_rest_restaged d d' : restaged d d' → at_rest d → at_rest d'.
Proof. intros Hr (j & Hld & Hl). exists j. split; [by eapply loaded_restaged|]. by destruct Hr as [_ ->]. Qed.
Lemma at_rest_alike d d' : alike d d' → d_journal d' = d_journal d → at_rest d → at_rest d'.
Proof. intros [Hl _] Hj. by apply at_rest_restaged. Qed.
(** A download at work: memory may be ahead of the disk. *)
Definition fetched_ (d : Disk) (j : Journal) : Prop := ∃ o, A (old o) ∧ restored o d j.
Definition fetching (d : Disk) (j : Journal) : Prop := at_rest d ∧ fetched_ d j.
Lemma fetching_restaged d d' j : fetching d j → restaged d d' → fetching d' j.
Proof.
  intros [Hrest (o & HA & _ & Hh & Hl)] Hr. pose proof (at_rest_restaged _ _ Hr Hrest) as Hrest'. split; [done|].
  exists o. split; [done|]. split_and!; [by apply at_rest_recorded|done|by destruct Hr as [_ ->]].
Qed.
Lemma fetching_mem f d j : (∀ o, holds o j → A (old o) → ∃ o', holds o' (f j) ∧ old o' = old o) → fetching d j → fetching d (f j).
Proof.
  intros Hf [Hrest (o & HA & Hr & Hh & Hl)]. split; [done|]. destruct (Hf o Hh HA) as (o' & Hh' & Ho). exists o'. rewrite /restored Ho. done.
Qed.
Lemma runs_still {B C} d j (m : X B) (k : B → X C) (Q : C → Disk → Journal → Prop) R :
  runs d j m (λ _ d' j', d' = d ∧ j' = j) R → (∀ b, runs d j (k b) Q R) → runs d j (bind m k) Q R.
Proof. intros Hm Hk. eapply runs_bind; [exact Hm|]. by intros b d' j' [-> ->]. Qed.

Lemma progress_runs l d j : fetching d j → runs d j (report_progress env l) (λ _, fetching) fetched_.
Proof.
  revert d j. induction l as [|[n due] l IH]; intros d j Hf; cbn [report_progress]; [by apply runs_ret|].
  eapply runs_bind; [by apply (runs_modify d j _ (λ _ d' j', d' = d ∧ j' = on_operation (with_status (set_downloaded n)) j))|]. intros [] d' j' [-> ->].
  assert (fetching d (on_operation (with_status (set_downloaded n)) j)) as Hf'.
  { apply fetching_mem; [|done]. intros o Hh _. exists o. split; [|done]. apply holds_on; [by intros ? [? ? ? ? ?]|done]. }
  eapply (runs_bind _ _ _ _ (λ _, fetching)); [|intros [] d1 j1 Hf1; by apply IH].
  destruct due; [|by apply runs_ret]. eapply (runs_bind _ _ _ _ (λ _, fetching)); [|intros; by apply runs_ret].
  assert (∀ d', alike d d' → d_journal d' = d_journal d → fetching d' (on_operation (with_status (set_downloaded n)) j)) as Hk.
  { intros d' [Hl _] Hj. by eapply fetching_restaged. }
  apply (runs_catch _ _ _ _ _ fetching); [by apply runs_publish|]. intros d' j' Hf1. by split; [apply Hf1|].
Qed.
(** The phase of a download reaches the disk. *)
Lemma fetching_to p d j : (∀ d o, live d = Some (sha256 (old o)) → phase_ok p d o) → fetching d j → runs d j (to_phase env p) (λ _, fetching) fetched_.
Proof.
  intros Hp [Hrest (o & HA & Hr & Hh & Hl)]. eapply (runs_to_phase p o); [done|by apply Hp|done|done| |].
  - intros d' t j' [Hl' _] Hj' (j1 & Hj1 & Hs1 & HA1) Hh'. rewrite Hj' in Hj1. injection Hj1 as <-.
    assert (live d' = Some (sha256 (old o))) as Hlive by congruence. split.
    + exists j'. split; [done|]. by rewrite (ho_installed _ _ Hh').
    + exists o. split; [done|]. split; [by exists j'|done].
  - intros d' j' [Hl' _] Hr' Hh'. exists o. split; [done|]. split; [done|]. split; [done|congruence].
Qed.
Lemma fetch_runs r d j : valid_sha256 (dl_sha256 (download r)) = true → fetching d j → runs d j (fetch_candidate env r) (λ _, fetching) fetched_.
Proof.
  intros Hsha Hf. assert (fetched_ d j) as Hfd by apply Hf.
  apply runs_still; [by apply runs_look|intros _]. apply runs_still; [by apply runs_tick|intros t]. cbv zeta.
  apply runs_still; [case_match; [by apply runs_ret|by apply runs_fail]|intros _].
  eapply runs_bind; [by apply (runs_journal_of d j (λ a d' j', a = j ∧ d' = d ∧ j' = j))|]. intros _ d' j' (-> & -> & ->).
  apply runs_still; [by apply still_contract; [apply total_compatible|]|intros _].
  eapply runs_bind; [apply (still_contract d j); [apply total_ok_or|done]|]. intros a d' j' [-> ->].
  eapply (runs_bind _ _ _ _ (λ _ d' j', a_sha256 a = dl_sha256 (download r) ∧ d' = d ∧ j' = j)).
  { case_match eqn:Hc; [|by apply runs_fail]. apply runs_ret. apply andb_prop in Hc as [_ Hc%bool_decide_eq_true]. done. }
  intros _ d' j' (Hsa & -> & ->).
  eapply runs_bind; [by apply runs_modify; instantiate (1 := λ _ d' j', d' = d ∧ j' = on_operation (with_candidate _) j)|]. intros [] d' j' [-> ->].
  match goal with |- runs _ ?j1 _ _ _ => assert (fetching d j1) as Hf1 end.
  { apply fetching_mem; [|done]. intros o Hh _.
    match goal with |- ∃ _, holds _ (on_operation (with_candidate ?c) _) ∧ _ => exists (with_candidate c o) end. split; [|done].
    destruct Hh as [(o1 & Ho1 & [? ? ? ? ?]) ? ? ? [? ?] ?]. split; [|done..| |done].
    - eexists. split; [by rewrite /= Ho1|done].
    - split; [done|]. simpl. by rewrite Hsa. }
  match goal with |- runs _ ?j1 _ _ _ => set (j1' := j1) in * end. clearbody j1'.
  apply runs_still; [by apply runs_look; [|apply Hf1]|intros _]. apply runs_still; [by apply runs_look; [|apply Hf1]|intros _].
  assert (∀ n d d' j, fetching d j → touched (i_operation_id (sr_inbox r)) n d d' → fetching d' j) as Hk by (intros ? ? ? ? ? [? _]; by eapply fetching_restaged).
  eapply (runs_bind _ _ _ _ (λ _, fetching)); [apply runs_create_dir; intros; [|eapply proj2]; by eapply fetching_restaged|]. intros [] d1 j1 Hf2.
  eapply (runs_bind _ _ _ _ (λ _, fetching)); [by apply fetching_to|]. intros [] d2 j2 Hf3.
  eapply (runs_bind _ _ _ _ (λ _, fetching)); [apply runs_create; intros; [|eapply proj2]; by eapply Hk|]. intros [] d3 j3 Hf4.
  apply runs_still; [by apply runs_look; [|apply Hf4]|intros _]. apply runs_still; [by apply runs_tick|intros t'].
  eapply (runs_bind _ _ _ _ (λ _, fetching)); [by apply progress_runs|]. intros [] d4 j4 Hf5.
  apply runs_still; [by apply runs_look; [|apply Hf5]|intros _].
  eapply (runs_bind _ _ _ _ (λ _, fetching)); [apply runs_write; intros; [|eapply proj2]; by eapply Hk|]. intros [] d5 j5 Hf6.
  apply runs_still; [case_match; [by apply runs_ret|by apply runs_fail, Hf6]|intros _].
  apply runs_still; [by apply runs_look; [|apply Hf6]|intros _].
  eapply (runs_bind _ _ _ _ (λ _, fetching)); [apply runs_rename_part; intros; [|eapply proj2]; by eapply fetching_restaged|]. intros [] d6 j6 Hf7.
  by apply fetching_to.
Qed.


(** The staging directory of the last operation goes only while the installed
    program is the one that runs. *)
Lemma clean_runs d j : live d = Some (sha256 (installed j)) → loaded d j →
  runs d j (clean_staging env) (λ _ d' j', restaged d d' ∧ j' = j) (λ d' j', restaged d d' ∧ j' = j).
Proof.
  intros Hl Hld. eapply runs_bind; [by apply (runs_journal_of d j (λ a d' j', a = j ∧ d' = d ∧ j' = j))|]. intros _ d' j' (-> & -> & ->).
  destruct (operation j) as [o|]; [|by apply runs_ret]. cbv zeta.
  apply (runs_bind _ _ _ _ (λ _ d' j', d' = d ∧ j' = j)
    (λ d' j', restaged d d' ∧ j' = j)).
  { apply (runs_catch _ _ _ _ _ (λ d' j', d' = d ∧ j' = j)); [by apply runs_child|]. by intros ? ? [-> ->]. }
  intros [|] d' j' [-> ->]; [|by apply runs_ret].
  eapply (runs_bind _ _ _ _ (λ _ d' j', restaged d d' ∧ j' = j)); [by apply runs_remove_all|]. intros [] d1 j' [H1 ->].
  apply runs_remove_dir; intros d2 H2; (split; [by etrans|done]).
Qed.
Lemma admission_runs r units d j : loaded d j →
  runs d j (admission env r units) (λ a d' j', loaded d' j' ∧ j' = j ∧ (a = None → live d' = Some (sha256 (installed j)))) (λ d' j', loaded d' j' ∧ j' = j).
Proof.
  intros Hld. unfold admission. apply runs_still; [destruct units; [by apply runs_fail|by apply runs_ret]|intros _].
  eapply runs_bind; [by apply (runs_journal_of d j (λ a d' j', a = j ∧ d' = d ∧ j' = j))|]. intros _ d' j' (-> & -> & ->).
  destruct (bool_decide_reflect (sha256 (installed j) = current_sha256 r)) as [Hc|]; simpl; [|by apply runs_ret].
  eapply (runs_bind _ _ _ _ (λ h d' j', live d = Some h ∧ d' = d ∧ j' = j)); [by apply runs_actual_hash|]. intros h d' j' (Hl & -> & ->).
  destruct (bool_decide_reflect (h = current_sha256 r)) as [->|]; simpl; [|by apply runs_ret]. rewrite -Hc in Hl.
  apply runs_still; [by apply runs_service|intros s]. case_match; [by apply runs_ret|].
  eapply runs_bind; [eapply runs_mono; [by apply clean_runs|intros ? ? ? Hp; exact Hp|]|].
  - intros d' j' [Hr ->]. split; [by eapply loaded_restaged|done].
  - intros [] d' j' [Hr ->]. apply runs_ret. split; [by eapply loaded_restaged|]. split; [done|]. intros _. by destruct Hr as [_ ->].
Qed.
Lemma reject_runs r why d j : loaded d j → runs d j (reject_stage env r why) good_end good_stop.
Proof.
  intros Hld. apply runs_still; [by apply runs_now|intros t].
  eapply runs_bind; [by apply runs_modify; instantiate (1 := λ _ d' j', d' = d ∧ j' = with_last _ j)|]. intros [] d' j' [-> ->].
  by apply record_last.
Qed.
Lemma refusal_none at_ j : refusal at_ j = None → installation_pending j = None.
Proof. unfold refusal. by destruct (installation_pending j). Qed.
Lemma gate_runs r at_ d j : loaded d j →
  runs d j (stage_gate env r at_) (λ b d' j', if b : bool then valid_sha256 (dl_sha256 (download r)) = true ∧ installation_pending j = None ∧ d' = d ∧ j' = j
    else recorded A d') good_stop.
Proof.
  intros Hld. pose proof (loaded_recorded _ _ Hld) as Hrec.
  eapply (runs_bind _ _ _ _ (λ _ d' j', valid_sha256 (dl_sha256 (download r)) = true ∧ d' = d ∧ j' = j)); [by apply runs_demand|].
  intros _ d' j' (Hv & -> & ->).
  eapply runs_bind; [by apply (runs_journal_of d j (λ a d' j', a = j ∧ d' = d ∧ j' = j))|]. intros _ d' j' (-> & -> & ->).
  assert (∀ d j, recorded A d → runs d j (publish env;;; ret false) (λ b d' j', if b : bool then valid_sha256 (dl_sha256 (download r)) = true ∧ installation_pending j = None ∧ d' = d ∧ j' = j
    else recorded A d') good_stop) as Hpub.
  { intros d1 j1 Hr1. eapply runs_bind; [by apply publish_end|]. intros. by apply runs_ret. }
  destruct (when _ _) as [o|].
  { apply runs_still; [by apply runs_demand|intros _]. eapply runs_bind; [by apply publish_end|]. intros. by apply runs_ret. }
  apply runs_still; [by apply fence_runs|intros b]. destruct b; [eapply runs_bind; [by apply publish_end|]; intros; by apply runs_ret|].
  destruct (refusal at_ j) eqn:Hrf.
  - eapply runs_bind; [by apply reject_runs|]. intros. by apply runs_ret.
  - apply runs_ret. split; [done|]. split; [by eapply refusal_none|done].
Qed.
Lemma begin_runs r at_ d j : loaded d j → live d = Some (sha256 (installed j)) → installation_pending j = None → inbox_valid (sr_inbox r) = true →
  valid_sha256 (dl_sha256 (download r)) = true → runs d j (begin_stage env r at_) (λ _, fetching) good_stop.
Proof.
  intros (Hj & Hs & HAi) Hl Hpe Hv Hsha. unfold begin_stage.
  eapply runs_bind; [by apply runs_modify; instantiate (1 := λ _ d' j', d' = d ∧ j' = with_operation (Some _) (with_last _ j))|]. intros [] d' j' [-> ->].
  match goal with |- runs _ (with_operation (Some ?o) ?j1) _ _ _ => set (o0 := o); assert (holds o0 (with_operation (Some o0) j1)) as Hh end.
  { destruct Hs as [Hval _ _ _]. unfold journal_valid in Hval. unfold inbox_valid in Hv.
    apply andb_prop in Hval as [Hval _]. apply andb_prop in Hval as [Hval _]. apply andb_prop in Hval as [Hsc%bool_decide_eq_true Hd].
    apply andb_prop in Hv as [Hv _]. apply andb_prop in Hv as [Hv Hn]. apply andb_prop in Hv as [_ Hi].
    split; [by exists o0|done..]. }
  eapply (holds_persist o0); [done|done|done|done|by exists j| |].
  - intros d' [Hl' _] Hj' (j1 & Hj1 & Hs1 & HA1). rewrite Hj' in Hj1. injection Hj1 as <-. split.
    + eexists. split; [done|]. by rewrite Hl'.
    + exists o0. split; [done|]. split; [by eexists|]. split; [done|]. by rewrite Hl'.
  - by intros.
Qed.
Lemma stage_runs r units d j : inbox_valid (sr_inbox r) = true → loaded d j → runs d j (stage env r units) good_end good_stop.
Proof.
  intros Hv Hld. pose proof (loaded_recorded _ _ Hld) as Hrec.
  apply runs_still; [by apply runs_now|intros t]. eapply runs_bind; [by apply gate_runs|]. intros [] d' j'; [|intros; by apply runs_ret].
  intros (Hsha & Hpe & -> & ->). simpl.
  eapply (runs_bind _ _ _ _ (λ a d' j', loaded d' j' ∧ j' = j ∧ (a = inl None → live d' = Some (sha256 (installed j))))).
  { eapply runs_catch; [eapply runs_mono; [by apply admission_runs| |intros d' j' H1; exact H1]|].
    - intros a d' j' (? & ? & Ha). split_and!; [done..|]. intros [= ->]. by apply Ha.
    - intros d' j' [Hl ->]. split; [by eapply loaded_recorded|done]. }
  intros [[why|]|c] d1 j' (Hld1 & -> & Ha).
  - by apply reject_runs.
  - apply runs_still; [by apply runs_now|intros t'].
    eapply runs_bind; [apply begin_runs; auto|]. intros [] d2 j2 Hf.
    eapply (runs_bind _ _ _ _ (λ _, fetched_)).
    { eapply (runs_catch _ _ _ _ _ fetched_); [eapply runs_mono; [by apply fetch_runs|by intros _ ? ? [_ ?]|done]|].
      intros d' j' Hf'. split; [|done]. by destruct Hf' as (? & _ & ? & _). }
    intros [u|c] d3 j3 (o & HA & Hr & Hh & Hl); [by apply runs_ret|]. by apply (failed_runs o HA).
  - eapply runs_bind; [by apply reject_runs|]. intros. by apply runs_fail.
Qed.

Lemma handle_runs i units d j : inbox_valid i = true →
  (∀ inv rev o l t, i_request i = Commit inv rev → operation j = Some o → phase (op_status o) = Staged → operation_id (op_status o) = i_operation_id i →
     phase_nonce (op_status o) = i_phase_nonce i → op_config_revision o = rev → pl_identity l = candidate o → window l rev (samples env t) → A (candidate o)) →
  loaded d j → runs d j (handle env i units) good_end good_stop.
Proof.
  intros Hv Hready Hld. pose proof (loaded_recorded _ _ Hld) as Hrec. unfold handle. destruct (i_request i) eqn:Hi.
  - eapply (runs_bind _ _ _ _ (λ r d' j', sr_inbox r = i ∧ d' = d ∧ j' = j)).
    + unfold parse_stage. rewrite Hi. eapply runs_bind; [by apply still_contract; [apply total_tag|]|]. intros v d' j' [-> ->]. by apply runs_ret.
    + intros r d' j' (Hr & -> & ->). apply stage_runs; [by rewrite Hr|done].
  - apply runs_still; [by apply not_installing_runs|intros _]. apply handle_commit_runs; [|done]. intros. by eapply Hready.
  - apply runs_still; [by apply not_installing_runs|intros _]. eapply runs_bind; [by apply abort_runs|]. intros [] d1 j1 Hr1.
    destruct units; [by apply runs_fail|by apply runs_ret].
  - apply runs_still; [by apply not_installing_runs|intros _]. by apply verify_recovery_runs.
Qed.

Lemma run_runs request d j :
  (∀ i inv rev j0 o l t, request = Some i → i_request i = Commit inv rev → d_journal d = Some j0 → operation j0 = Some o → phase (op_status o) = Staged →
     operation_id (op_status o) = i_operation_id i → phase_nonce (op_status o) = i_phase_nonce i → op_config_revision o = rev →
     pl_identity l = candidate o → window l rev (samples env t) → A (candidate o)) →
  recorded A d → runs d j (run env request) good_end good_stop.
Proof.
  intros Hready Hrec. apply runs_still; [by apply runs_look|intros _].
  destruct (when inbox_valid request) as [i|] eqn:Hw; [|by apply runs_fail]. apply when_true in Hw as [Hi Hv].
  apply runs_still.
  { apply (runs_catch _ _ _ _ _ (λ d' j', d' = d ∧ j' = j)); [by apply runs_look|]. by intros ? ? [-> ->]. }
  intros units. apply runs_loaded; [done..|]. intros j0 Hld. apply handle_runs; [done| |done].
  intros inv rev o l t Hreq Ho Hp Hid Hn Hr Hl Hwin. destruct Hld as (Hj & _). by eapply (Hready i inv rev j0 o l t).
Qed.

(** ** Installation *)
Lemma install_check_runs d j : recorded A d → runs d j (install_check env) good_end good_stop.
Proof.
  intros Hrec. apply runs_still; [by apply runs_look|intros _]. apply runs_get. intros t. cbn [disk].
  destruct (d_journal d) eqn:Hdj; [|by apply runs_ret]. apply runs_loaded; [done..|]. intros ji Hld.
  eapply runs_bind; [by apply (runs_journal_of d ji (λ a d' j', a = ji ∧ d' = d ∧ j' = ji))|]. intros _ d' j' (-> & -> & ->).
  apply runs_still; [by apply runs_demand|intros _]. by apply matches_installed_runs.
Qed.
Lemma rebuild_runs d j : recorded A d → runs d j (rebuild_status env) good_end good_stop.
Proof.
  intros Hrec. apply runs_loaded; [done..|]. intros j0 Hld. apply runs_still; [by apply matches_installed_runs|intros _]. by apply publish_end.
Qed.
(** A pending installation of the program in place. *)
Definition pending_ok (i : InstalledIdentity) (p : Installation) : Prop :=
  valid_id (in_nonce p) = true ∧ pl_operation_id (launch p) = in_nonce p ∧ pl_phase_nonce (launch p) = in_nonce p ∧
  valid_id (launch_nonce (launch p)) = true ∧ pl_identity (launch p) = i ∧
  initialized (launch p) = bool_decide (is_Some (in_config_revision p)) ∧ (∀ r, in_config_revision p = Some r → 0 < r).
Lemma pending_sound i p o l d : settled (mkJournal 1 i o l (Some p)) = true → valid_sha256 (sha256 i) = true → pending_ok i p → live d = Some (sha256 i) →
  (∀ op, o = Some op → valid_id (operation_id (op_status op)) = true ∧ valid_id (phase_nonce (op_status op)) = true ∧ valid_sha256 (sha256 (candidate op)) = true) →
  sound d (mkJournal 1 i o l (Some p)).
Proof.
  intros Hset Hd (H1 & H2 & H3 & H4 & H5 & H6 & H7) Hl Ho. split.
  - unfold journal_valid. cbn [j_schema installed operation installation_pending]. rewrite Hd H1 H2 H3 H4 H5 H6 Hset.
    rewrite (bool_decide_true (1 = 1)) // !(bool_decide_true (_ = _)) // eqb_reflx.
    assert (match in_config_revision p with Some r => bool_decide (0 < r) | None => true end = true) as ->.
    { destruct (in_config_revision p) as [r|]; [|done]. apply bool_decide_eq_true. by apply H7. }
    destruct o as [op|]; [|done]. destruct (Ho op eq_refl) as (-> & -> & _). done.
  - simpl; intros op ->. by apply Ho.
  - done.
  - destruct o as [op|]; simpl; [|done]. unfold phase_sound, settled in *. simpl in *. destruct (phase (op_status op)); try done; by left.
Qed.
Lemma installation_pending_ok n l i skip preflight expected :
  valid_id n = true → valid_id l = true → preflight_ok preflight expected = true →
  pending_ok i (mkInstallation n (pf_revision <$> preflight) (installation_launch n l i skip (bool_decide (is_Some (pf_revision <$> preflight))))).
Proof.
  intros Hn Hl Hp. repeat split; [done..|]. intros r Hr. destruct preflight as [p|]; [|done]. simpl in Hr. injection Hr as <-.
  unfold preflight_ok, validate_build in Hp. apply andb_prop in Hp as [[_ Hp%bool_decide_eq_true]%andb_prop _]. done.
Qed.
Lemma sound_ids d j op : sound d j → operation j = Some op →
  valid_id (operation_id (op_status op)) = true ∧ valid_id (phase_nonce (op_status op)) = true ∧ valid_sha256 (sha256 (candidate op)) = true.
Proof.
  intros [Hv Hc _ _] Ho. unfold journal_valid in Hv. rewrite Ho in Hv. apply andb_prop in Hv as [Hv _]. apply andb_prop in Hv as [_ Hi].
  apply andb_prop in Hi as [? ?]. split_and!; [done..|by apply Hc].
Qed.
Lemma sound_schema d j : sound d j → j_schema j = 1 ∧ valid_sha256 (sha256 (installed j)) = true.
Proof.
  intros [Hv _ _ _]. unfold journal_valid in Hv. apply andb_prop in Hv as [Hv _]. apply andb_prop in Hv as [Hv _].
  apply andb_prop in Hv as [Hs%bool_decide_eq_true Hd]. done.
Qed.
Lemma install_verify_runs n d j : recorded A d → runs d j (install_verify env n) good_end good_stop.
Proof.
  intros Hrec. apply runs_still; [by apply runs_look|intros _].
  eapply (runs_bind _ _ _ _ (λ _ d' j', loaded d j' ∧ live d = Some (sha256 (installed j')) ∧ d' = d)).
  { apply runs_loaded; [done..|]. intros j0 Hld.
    eapply runs_bind; [by apply (runs_journal_of d j0 (λ a d' j', a = j0 ∧ d' = d ∧ j' = j0))|]. intros _ d' j' (-> & -> & ->).
    apply runs_still; [by apply runs_demand|intros _]. by apply matches_installed_runs. }
  intros [] d' j0 (Hld & Hl & ->). pose proof Hld as (Hj & Hs & HAi).
  eapply runs_bind; [by apply (runs_journal_of d j0 (λ a d' j', a = j0 ∧ d' = d ∧ j' = j0))|]. intros _ d' j' (-> & -> & ->).
  destruct (installation_pending j0) as [p|] eqn:Hp; [|by apply runs_fail].
  apply runs_still; [by apply runs_wait_launch|intros _]. apply runs_still; [by apply runs_now|intros t].
  eapply runs_bind; [by apply (runs_modify d j0 _ (λ _ d' j', d' = d ∧ j' = supersede_manual_recovery t j0))|]. intros [] d' j' [-> ->].
  eapply runs_bind; [by apply (runs_modify d _ _ (λ _ d' j', d' = d ∧ j' = with_installation None (supersede_manual_recovery t j0)))|]. intros [] d' j' [-> ->].
  assert (installed (supersede_manual_recovery t j0) = installed j0 ∧ sound d (with_installation None (supersede_manual_recovery t j0))) as [Hi Hs'].
  { assert (sound d (with_installation None j0)) as Hplain.
    { destruct Hs as [Hv Hc _ Hop]. split; [|done|done|exact Hop]. unfold journal_valid in *. apply andb_prop in Hv as [Hv _].
      cbn [j_schema installed operation installation_pending with_installation]. by rewrite Hv. }
    unfold supersede_manual_recovery. rewrite Hp. destruct (negb (restores_previous p) && is_manual j0) eqn:Hm; [|done].
    destruct (operation j0) as [o|] eqn:Ho; [|by rewrite /is_manual Ho andb_false_r in Hm].
    destruct (finish_operation Failed (Some (lit "superseded_by_installation")) t o j0 Ho) as (o' & Ho' & Hp' & Hso & Hin & Hsc & Hpe).
    split; [done|]. destruct (sound_schema _ _ Hs) as [Hsc0 Hd0]. destruct (sound_ids _ _ _ Hs Ho) as (Hi1 & Hi2 & Hi3). split.
    - unfold journal_valid. cbn [j_schema installed operation installation_pending with_installation].
      rewrite Hsc Hsc0 Hin Hd0 Ho' (so_id _ _ Hso) (so_nonce _ _ Hso) Hi1 Hi2. done.
    - intros o2. simpl. rewrite Ho'. intros [= <-]. by rewrite (so_candidate _ _ Hso).
    - done.
    - simpl. rewrite Ho'. unfold phase_sound. by rewrite Hp' /= Hin. }
  apply (runs_persist env A); [done|by rewrite /= Hi|done|done|done].
Qed.
End safe.
