(* ===== verification/UpdaterLive.v ===== *)
(** * Boot recovery ends with the old program

    When nothing fails, [recover] at boot restores the installed program
    whatever the interrupted update left behind, and leaves the operation where
    the application's own readiness settles it. *)
From S2P Require Import Prelude Std Canonical BlockAnswer Policy Text Release Journal Updater Readiness UpdaterSteps UpdaterSafe.
Set Default Goal Selector "!".
Set Warnings "-rewrite-rw".
Local Open Scope Z_scope.
Local Open Scope rust_scope.

(** The edits of recovery, none of which adds text to the record that is not
    bounded: phases, times, flags and launches. *)
Inductive edit : Journal → Journal → Prop :=
  | edit_attempted j : edit j (on_operation (with_attempted true) j)
  | edit_phase p t j : edit j (on_operation (with_status (set_phase p t)) j)
  | edit_launch p (l : Operation → PendingLaunch) j :
      (∀ o, valid_id (launch_nonce (l o)) = true ∧ pl_identity (l o) = old o ∧ pl_operation_id (l o) = operation_id (op_status o) ∧
        pl_phase_nonce (l o) = phase_nonce (op_status o)) →
      edit j (on_operation (λ o, with_status (λ s, mkStatus (operation_id s) (phase_nonce s) p (os_version s) (reason s) (updated_at_ms s)
        (downloaded_bytes s) (total_bytes s)) (with_pending (Some (l o)) o)) j)
  | edit_finish p t j : edit j (finish p (Some (lit "interrupted")) t j).
(** The records of recovery are within the limits of the journal and of the
    status. *)
Definition fits `{JsonLib} (j : Journal) : Prop :=
  ∀ j', rtc edit j j' → (journal_size j' ≤ 32768)%nat ∧ ∀ t, (status_size (status t j') ≤ 32768)%nat.
(** Nothing fails. *)
Record calm (env : Env) : Prop := {
  ca_fault t : fault env t = None;
  ca_failing t : failing env t = None;
  ca_nonce t : valid_id (nonce env t) = true;
}.
Lemma fits_edit `{JsonLib} j j' : edit j j' → fits j → fits j'.
Proof. intros He Hf i Hi. apply Hf. by eapply rtc_l. Qed.
Lemma fits_small `{JsonLib} j : fits j → (journal_size j ≤ 32768)%nat ∧ ∀ t, (status_size (status t j) ≤ 32768)%nat.
Proof. intros Hf. by apply Hf. Qed.

Section calm.
Context `{JsonLib} (env : Env) (Hcalm : calm env).
(** Runs that end well. *)
Definition ok {A} (d : Disk) (j : Journal) (m : X A) (Q : A → Disk → Journal → Prop) : Prop := runs d j m Q (λ _ _, False).
Lemma ok_bind {A B} d j (m : X A) (k : A → X B) Q Q' : ok d j m Q → (∀ a d' j', Q a d' j' → ok d' j' (k a) Q') → ok d j (bind m k) Q'.
Proof. apply runs_bind. Qed.
Lemma ok_step {A B} d j (m : X A) (k : A → X B) a d' j' (Q : B → Disk → Journal → Prop) :
  ok d j m (λ b e i, b = a ∧ e = d' ∧ i = j') → ok d' j' (k a) Q → ok d j (bind m k) Q.
Proof. intros Hm Hk. eapply ok_bind; [exact Hm|]. by intros _ _ _ (-> & -> & ->). Qed.
Lemma ok_ret {A} d j (a : A) (Q : A → Disk → Journal → Prop) : Q a d j → ok d j (ret a) Q.
Proof. apply runs_ret. Qed.
Lemma ok_demand d j b : b = true → ok d j (demand b) (λ _ d' j', d' = d ∧ j' = j).
Proof. intros ->. by apply runs_ret. Qed.
Lemma ok_modify d j f (Q : unit → Disk → Journal → Prop) : Q tt d (f j) → ok d j (modify f) Q.
Proof. apply runs_modify. Qed.
Lemma ok_look d j : ok d j (look env) (λ _ d' j', d' = d ∧ j' = j).
Proof. eapply runs_bind; [by apply (runs_tick d j (λ _ d' j', d' = d ∧ j' = j))|]. intros t d' j' [-> ->]. rewrite (ca_failing _ Hcalm). by apply runs_ret. Qed.
Lemma ok_mutate d j f (Q : unit → Disk → Journal → Prop) : Q tt (f d) j → ok d j (mutate env f) Q.
Proof. intros HQ t. unfold wp, mutate. simpl. by rewrite (ca_fault _ Hcalm). Qed.
Lemma ok_read {A} d j (f : World → option A) a :
  (∀ t, f (mkWorld d j t) = Some a) →
  ok d j (look env;;; λ w, match f w with Some a => (Ok a, w) | None => (Err (Error OtherCause), w) end) (λ b d' j', b = a ∧ d' = d ∧ j' = j).
Proof. intros Hf. eapply ok_bind; [apply ok_look|]. intros [] d' j' [-> ->] t. unfold wp. by rewrite Hf. Qed.
Lemma ok_actual_hash d j h : live d = Some h → ok d j (actual_hash env) (λ b d' j', b = h ∧ d' = d ∧ j' = j).
Proof. intros Hl. by apply (ok_read d j (λ w, live (disk w)) h). Qed.
Lemma ok_hash_file d j dir n h : lookup_file dir n d = Some h → ok d j (hash_file env dir n) (λ b d' j', b = h ∧ d' = d ∧ j' = j).
Proof. intros Hl. by apply (ok_read d j (λ w, lookup_file dir n (disk w)) h). Qed.
Lemma ok_child d j dir : is_Some (staging d !! dir) → ok d j (child env dir) (λ b d' j', b = tt ∧ d' = d ∧ j' = j).
Proof. intros [f Hf]. eapply ok_bind; [apply ok_look|]. intros [] d' j' [-> ->] t. unfold wp. simpl. by rewrite Hf. Qed.
Lemma ok_load d j i : d_journal d = Some i → journal_valid i = true → ok d j (load env) (λ b d' j', b = tt ∧ d' = d ∧ j' = i).
Proof. intros Hj Hv. eapply ok_bind; [apply ok_look|]. intros [] d' j' [-> ->] t. unfold wp. simpl. by rewrite Hj Hv. Qed.
Lemma ok_operation_of d j o : operation j = Some o → ok d j operation_of (λ a d' j', a = o ∧ d' = d ∧ j' = j).
Proof. intros Ho t. unfold wp, operation_of. simpl. by rewrite Ho. Qed.
Lemma ok_persist d j (Q : unit → Disk → Journal → Prop) :
  fits j → (∀ d', alike d d' → d_journal d' = Some j → Q tt d' j) → ok d j (persist env) Q.
Proof.
  intros Hf HQ. destruct (fits_small _ Hf) as [Hs Hst]. eapply (ok_bind _ _ _ _ (λ _ d' j', d' = set_journal j d ∧ j' = j)).
  - eapply ok_bind; [by apply (runs_journal_of d j (λ a d' j', a = j ∧ d' = d ∧ j' = j))|]. intros _ d' j' (-> & -> & ->).
    eapply ok_bind; [by apply ok_demand, bool_decide_eq_true|]. intros [] d' j' [-> ->]. by apply ok_mutate.
  - intros [] d' j' [-> ->]. eapply ok_bind; [by apply (runs_now env _ j (λ _ d' j', d' = set_journal j d ∧ j' = j))|]. intros t d' j' [-> ->].
    eapply ok_bind; [by apply (runs_journal_of _ j (λ a d' j', a = j ∧ d' = set_journal j d ∧ j' = j))|]. intros _ d' j' (-> & -> & ->).
    eapply ok_bind; [by apply ok_demand, bool_decide_eq_true|]. intros [] d' j' [-> ->]. apply ok_mutate. by apply HQ.
Qed.
Lemma ok_to_phase p d j o (Q : unit → Disk → Journal → Prop) : operation j = Some o → fits j →
  (∀ d' t, let j' := on_operation (with_status (set_phase p t)) j in alike d d' → d_journal d' = Some j' → fits j' → Q tt d' j') →
  ok d j (to_phase env p) Q.
Proof.
  intros Ho Hf HQ. eapply ok_step; [by apply ok_operation_of|]. eapply ok_bind; [by apply (runs_now env d j (λ _ d' j', d' = d ∧ j' = j))|]. intros t d' j' [-> ->].
  eapply ok_bind; [by apply (ok_modify d j _ (λ _ d' j', d' = d ∧ j' = on_operation (with_status (set_phase p t)) j))|]. intros [] d' j' [-> ->].
  assert (fits (on_operation (with_status (set_phase p t)) j)) as Hf' by (by eapply fits_edit; [apply edit_phase|]).
  apply ok_persist; [done|]. intros d' Ha Hj. by apply HQ.
Qed.

Lemma ok_finish p d j o (Q : unit → Disk → Journal → Prop) : operation j = Some o → fits j →
  (∀ d' t, let j' := finish p (Some (lit "interrupted")) t j in alike d d' → d_journal d' = Some j' → Q tt d' j') →
  ok d j (finish_as env p (Some (lit "interrupted"))) Q.
Proof.
  intros Ho Hf HQ. eapply ok_bind; [by apply (runs_now env d j (λ _ d' j', d' = d ∧ j' = j))|]. intros t d' j' [-> ->].
  eapply ok_bind; [by apply (ok_modify d j _ (λ _ d' j', d' = d ∧ j' = finish p (Some (lit "interrupted")) t j))|]. intros [] d' j' [-> ->].
  apply ok_persist; [by eapply fits_edit; [apply edit_finish|]|]. intros d' Ha Hj. by apply HQ.
Qed.
(** The launch of the old program at boot. *)
Definition awaits (o0 : Operation) (j : Journal) : Prop :=
  ∃ o l, operation j = Some o ∧ same_op o0 o ∧ phase (op_status o) = AwaitingReadiness ∧ pending_launch o = Some l ∧ pl_identity l = old o0 ∧
    skip_cache_restore l = true ∧ initialized l = true ∧ pl_operation_id l = operation_id (op_status o0).
Lemma ok_launch d j o0 : holds o0 j → fits j →
  ok d j (launch_as env AwaitingReadiness) (λ _ d' j', alike d d' ∧ d_journal d' = Some j' ∧ holds o0 j' ∧ awaits o0 j').
Proof.
  intros Hh Hf. pose proof (ho_operation _ _ Hh) as (o & Ho & Hs). eapply ok_step; [by apply ok_operation_of|]. cbv zeta.
  eapply ok_bind; [by apply (runs_nonce env d j (λ n d' j', valid_id n = true ∧ d' = d ∧ j' = j)); intros; split; [apply Hcalm|]|].
  intros n d' j' (Hn & -> & ->).
  eapply ok_bind; [by apply ok_modify; instantiate (1 := λ _ d' j', d' = d ∧ j' = on_operation _ j)|]. intros [] d' j' [-> ->].
  match goal with |- ok _ (on_operation ?f j) _ _ => assert (holds o0 (on_operation f j) ∧ fits (on_operation f j) ∧ awaits o0 (on_operation f j)) as (Hh' & Hf' & Ha) end.
  { split_and!.
    - apply holds_on; [|done]. by intros o' [? ? ? ? ?].
    - eapply fits_edit; [|exact Hf]. by apply (edit_launch AwaitingReadiness (λ o, mkLaunch _ n (old o) true AwaitingReadiness _ true)).
    - eexists _, _. split; [by rewrite /= Ho|]. destruct Hs as [? ? ? ? ?]. by split_and!. }
  apply ok_persist; [done|]. intros d' Hal Hj. done.
Qed.
Lemma ok_candidate_dir d j o0 : holds o0 j → is_Some (staging d !! operation_id (op_status o0)) →
  ok d j (candidate_dir env) (λ b d' j', b = operation_id (op_status o0) ∧ d' = d ∧ j' = j).
Proof.
  intros [(o & Ho & Hs) _ _ _ _ _] Hd. eapply ok_step; [by apply ok_operation_of|]. rewrite (so_id _ _ Hs).
  eapply ok_step; [by apply ok_child|]. by apply ok_ret.
Qed.
(** The files of the directory are there to be replaced. *)
Lemma ok_put d j dir n h (Q : unit → Disk → Journal → Prop) : is_Some (staging d !! dir) →
  (∀ d', d_journal d' = d_journal d → live d' = Some h → Q tt d' j) →
  ok d j (remove env dir n;;; create env dir n;;; write env dir n h;;; install env dir n) Q.
Proof.
  intros [f Hf] HQ.
  eapply (ok_bind _ _ _ _ (λ _ d' j', restaged d d' ∧ is_Some (staging d' !! dir) ∧ lookup_file dir n d' = None ∧ j' = j)).
  { apply runs_get. intros t. cbn [disk]. destruct (lookup_file dir n d) eqn:Hn.
    - apply ok_mutate. split_and!; [done| | |done].
      + simpl. rewrite lookup_alter_eq Hf. by eexists.
      + rewrite lookup_on_files bool_decide_true // Hf. simpl. apply set_file_eq.
    - eapply runs_mono; [apply ok_look| |done]. intros [] ? ? [-> ->]. by split_and!. }
  intros [] d1 j' (H1 & Hd1 & Hn1 & ->). destruct Hd1 as [f1 Hf1].
  eapply (ok_bind _ _ _ _ (λ _ d' j', restaged d d' ∧ is_Some (staging d' !! dir) ∧ j' = j)).
  { eapply ok_bind; [by apply (runs_tick d1 j (λ _ d' j', d' = d1 ∧ j' = j))|]. intros t d' j' [-> ->]. apply runs_get. intros t'. cbn [disk].
    rewrite Hn1. apply ok_mutate. split_and!; [done| |done]. simpl. rewrite lookup_alter_eq Hf1. by eexists. }
  intros [] d2 j' (H2 & [f2 Hf2] & ->).
  eapply (ok_bind _ _ _ _ (λ _ d' j', restaged d d' ∧ lookup_file dir n d' = Some h ∧ j' = j)).
  { apply ok_mutate. split_and!; [done| |done]. rewrite lookup_on_files bool_decide_true // Hf2. simpl. apply set_file_eq. }
  intros [] d3 j' (H3 & Hn3 & ->). apply runs_get. intros t. cbn [disk]. rewrite Hn3. apply ok_mutate. apply HQ; [|done].
  simpl. by destruct H3 as [-> _].
Qed.

Lemma ok_rollback o0 d j why : holds o0 j → fits j → intact d o0 →
  ok d j (rollback env why true) (λ _ d' j', live d' = Some (sha256 (old o0)) ∧ d_journal d' = Some j' ∧ holds o0 j' ∧ awaits o0 j').
Proof.
  intros Hh Hf Hi. pose proof (ho_operation _ _ Hh) as (o & Ho & Hs).
  eapply ok_step; [by apply ok_operation_of|]. eapply ok_bind; [apply ok_demand; by rewrite orb_true_r|]. intros [] d' j' [-> ->]. cbv zeta.
  assert (∃ h, live d = Some h ∧ (h = sha256 (old o0) ∨ h = sha256 (candidate o0) ∧ lookup_file (operation_id (op_status o0)) Previous d = Some (sha256 (old o0))))
    as (h & Hl & Hcase) by (destruct Hi as [Hl|[Hl Hb]]; eauto).
  eapply ok_step; [by apply ok_actual_hash|]. rewrite (so_old _ _ Hs) (so_candidate _ _ Hs).
  eapply ok_bind; [apply ok_demand; apply orb_true_iff; rewrite !bool_decide_eq_true; tauto|]. intros [] d' j' [-> ->].
  eapply ok_bind; [by apply (ok_modify d j _ (λ _ d' j', d' = d ∧ j' = on_operation (with_attempted true) j))|]. intros [] d' j' [-> ->].
  assert (holds o0 (on_operation (with_attempted true) j)) as Hh1 by (apply holds_on; [by intros ? [? ? ? ? ?]|done]).
  eapply (ok_bind _ _ _ _ (λ _ d' j', alike d d' ∧ holds o0 j' ∧ fits j')).
  { eapply ok_to_phase; [by rewrite /= Ho|by eapply fits_edit; [apply edit_attempted|]|]. intros d' t j' Ha _ Hf'. split_and!; [done| |done]. by apply holds_phase. }
  intros [] d1 j1 (Ha1 & Hh2 & Hf2). apply (ok_step _ _ _ _ tt d1 j1); [by apply ok_ret|].
  eapply (ok_bind _ _ _ _ (λ _ d' j', live d' = Some (sha256 (old o0)) ∧ j' = j1)).
  { case_bool_decide as Hold.
    - apply ok_ret. split; [|done]. destruct Ha1 as [-> _]. congruence.
    - destruct Hcase as [|[_ Hb]]; [done|]. rewrite -(alike_lookup _ _ _ _ Ha1) in Hb.
      assert (is_Some (staging d1 !! operation_id (op_status o0))) as Hdir.
      { unfold lookup_file in Hb. destruct (staging d1 !! _); [by eexists|done]. }
      eapply ok_step; [by apply ok_candidate_dir|]. eapply ok_step; [by apply ok_hash_file|].
      eapply ok_bind; [by apply ok_demand, bool_decide_eq_true|]. intros [] d' j' [-> ->]. eapply ok_step; [by apply ok_hash_file|].
      by apply ok_put. }
  intros [] d2 j' [Hl2 ->].
  eapply ok_bind; [by apply ok_launch|]. intros [] d3 j3 (Ha3 & Hj3 & Hh3 & Haw). apply ok_ret. split; [by destruct Ha3 as [-> _]|done].
Qed.

(** What boot recovery leaves. *)
Definition recovered (o0 : Operation) (d : Disk) (j : Journal) : Prop :=
  live d = Some (sha256 (old o0)) ∧ d_journal d = Some j ∧ holds o0 j ∧
  (if precommit (phase (op_status o0)) then ∃ o, operation j = Some o ∧ phase (op_status o) = Failed else awaits o0 j).
Lemma ok_recover d i j o : d_journal d = Some j → sound d j → operation j = Some o → terminal (phase (op_status o)) = false → fits j →
  ok d i (recover env true) (λ _, recovered o).
Proof.
  intros Hj Hs Ho Ht Hf. destruct (sound_holds d j o Hs Ho Ht) as [Hh Hp].
  eapply ok_bind; [apply ok_look|]. intros [] d' j' [-> ->].
  eapply ok_step; [apply (ok_load d i j Hj), Hs|].
  eapply ok_bind; [by apply (runs_journal_of d j (λ a d' j', a = j ∧ d' = d ∧ j' = j))|]. intros _ d' j' (-> & -> & ->).
  rewrite (ho_pending _ _ Hh) Ho. unfold recover_operation. cbv zeta. rewrite Ht andb_false_r. unfold recovered.
  destruct (precommit (phase (op_status o))) eqn:Hpre.
  { eapply ok_finish; [done..|]. intros d' t j' Ha Hj'. destruct (precommit_live _ d o Hpre Hp) as [Hl _].
    split; [by destruct Ha as [-> _]|]. split; [done|]. split; [by apply holds_finish|].
    destruct (finish_operation Failed (Some (lit "interrupted")) t o j Ho) as (o' & ? & ? & _). by exists o'. }
  apply (ok_step _ _ _ _ true d j); [by apply ok_ret|]. cbn [negb andb]. rewrite andb_false_r.
  apply (ok_step _ _ _ _ false d j); [by apply ok_ret|].
  eapply (ok_bind _ _ _ _ (λ r d' j', (∃ u, r = inl u) ∧ live d' = Some (sha256 (old o)) ∧ d_journal d' = Some j' ∧ holds o j' ∧ awaits o j')).
  { eapply (runs_catch _ _ _ _ _ (λ _ _, False)); [|done]. eapply runs_mono; [apply (ok_rollback o); [done..|by eapply phase_ok_intact]| |done].
    intros u d' j' Hq. split; [by exists u|done]. }
  intros r d' j' [[u ->] Hq]. by apply ok_ret.
Qed.
End calm.
