(* ===== verification/Installer.v ===== *)
(** * The installer and the executor

    [scripts/install.sh] replaces the program and then has the helper
    register it, and its rollback restores both; either may be cut off between
    the two changes. The installer is a state machine over the disk of
    [Updater]; the helper's other commands run while it does not hold the
    lock. *)
From S2P Require Import Prelude Std Canonical BlockAnswer Policy Text Release Journal Updater Readiness UpdaterSteps UpdaterSafe.
Set Default Goal Selector "!".
Set Warnings "-rewrite-rw".
Local Open Scope Z_scope.
Local Open Scope rust_scope.

(** ** The system *)
(** What the rollback restores: [backup/parins] and [backup/journal.json]. *)
Record Backup : Type := mkBackup { b_live : option Str; b_journal : option Journal }.
(** [Checked]: the installed program passed [install-check] and the backup is
    taken. [Replaced]: the program is in place and not yet registered.
    [Registered]: it is registered; then [Released]: the lock is free.
    [Failing]: the rollback holds the lock. [Reverting], [Reverted]: it put the
    program back, and the journal; the flag says that no copy of the backup
    failed, which the script does not look at. *)
Inductive InstallStage : Type :=
  | Checked | Replaced | Registered | Released (installation_nonce : option Str) | Failing | Reverting (back : bool) | Reverted (back : bool).
(** The program and the journal are being exchanged. *)
Definition exchanging (s : InstallStage) : bool :=
  match s with Replaced | Failing | Reverting _ => true | Reverted back => negb back | _ => false end.
Definition trapped (s : InstallStage) : bool := match s with Checked | Replaced | Registered => true | _ => false end.
(** [cut_off]: an installer ended while it exchanged them, and no installer has
    found them in order since. *)
Record System : Type := mkSystem { s_disk : Disk; installer : option (Backup * InstallStage); cut_off : bool }.
Definition lock_free (s : System) : Prop :=
  match installer s with None | Some (_, Released _) => True | _ => False end.
Definition pending_nonce (d : Disk) : option Str := in_nonce <$> (d_journal d ≫= installation_pending).
Definition put_journal (j : option Journal) (d : Disk) : Disk := mkDisk j (d_status d) (live d) (staging d).
Definition forget_status (d : Disk) : Disk := mkDisk (d_journal d) None (live d) (staging d).

Section system.
Context `{JsonLib}.
(** The disk a run leaves, however it ends. *)
Definition after {A} (m : X A) (w : World) : Disk := disk (m w).2.
(** The helper's commands, in any environment: any change of the disk may fail
    or be cut off. *)
Inductive act : Disk → Disk → Prop :=
  | act_request env request d j t : act d (after (run env request) (mkWorld d j t))
  | act_recover env boot d j t : act d (after (recover env boot) (mkWorld d j t))
  | act_rebuild env d j t : act d (after (rebuild_status env) (mkWorld d j t))
  | act_check env d j t : act d (after (install_check env) (mkWorld d j t))
  | act_match env n d j t : act d (after (install_match env n) (mkWorld d j t))
  | act_verify env n d j t : act d (after (install_verify env n) (mkWorld d j t)).
Inductive step : System → System → Prop :=
  | step_act s d : lock_free s → act (s_disk s) d → step s (mkSystem d (installer s) (cut_off s))
  | step_begin env d cut j t :
      (install_check env (mkWorld d j t)).1 = Ok tt →
      let d' := after (install_check env) (mkWorld d j t) in
      step (mkSystem d None cut) (mkSystem d' (Some (mkBackup (live d') (d_journal d'), Checked)) false)
  | step_replace d b cut h : valid_sha256 h = true →
      step (mkSystem d (Some (b, Checked)) cut) (mkSystem (set_live (Some h) d) (Some (b, Replaced)) cut)
  | step_register env cb saved preflight d b cut j t : (∀ t, valid_id (nonce env t) = true) →
      let r := register env cb saved preflight (mkWorld d j t) in
      step (mkSystem d (Some (b, Replaced)) cut)
        (mkSystem (disk r.2) (Some (b, match r.1 with Ok _ => Registered | _ => Failing end)) cut)
  | step_release d b cut : step (mkSystem d (Some (b, Registered)) cut) (mkSystem d (Some (b, Released (pending_nonce d))) cut)
  | step_fail d b st cut : trapped st = true → step (mkSystem d (Some (b, st)) cut) (mkSystem d (Some (b, Failing)) cut)
  | step_relock env n d b cut j t :
      (install_match env n (mkWorld d j t)).1 = Ok tt →
      step (mkSystem d (Some (b, Released (Some n))) cut) (mkSystem (after (install_match env n) (mkWorld d j t)) (Some (b, Failing)) cut)
  | step_revert copied d b cut :
      step (mkSystem d (Some (b, Failing)) cut) (mkSystem (if copied : bool then set_live (b_live b) d else d) (Some (b, Reverting copied)) cut)
  | step_journal copied back d b cut :
      step (mkSystem d (Some (b, Reverting back)) cut)
        (mkSystem (if copied : bool then put_journal (b_journal b) d else d) (Some (b, Reverted (back && copied))) cut)
  | step_rebuild env d b back cut j t :
      step (mkSystem d (Some (b, Reverted back)) cut) (mkSystem (after (rebuild_status env) (mkWorld d j t)) (Some (b, Reverted back)) cut)
  | step_forget d b back cut :
      step (mkSystem d (Some (b, Reverted back)) cut) (mkSystem (forget_status d) (Some (b, Reverted back)) cut)
  | step_restore env cb preflight d b back cut j t : (∀ t, valid_id (nonce env t) = true) →
      step (mkSystem d (Some (b, Reverted back)) cut)
        (mkSystem (after (install_restore env cb preflight) (mkWorld d j t)) (Some (b, Reverted back)) cut)
  | step_end d b st cut : step (mkSystem d (Some (b, st)) cut) (mkSystem d None (cut || exchanging st)).
(** From a machine without a journal on. *)
Definition reachable (s : System) : Prop := ∃ d, d_journal d = None ∧ rtc step (mkSystem d None false) s.
Definition everything : InstalledIdentity → Prop := λ _, True.

(** ** Settled journals *)
(** A journal that loads and has nothing unfinished. *)
Definition idle (j : Journal) : Prop :=
  journal_valid j = true ∧ settled j = true ∧ ∀ o, operation j = Some o → valid_sha256 (sha256 (candidate o)) = true.
Lemma idle_sound d j : idle j → live d = Some (sha256 (installed j)) → sound d j.
Proof.
  intros (Hv & Hs & Hc) Hl. split; [done..|]. unfold settled in Hs. destruct (operation j) as [o|]; [|done].
  unfold phase_sound. destruct (phase (op_status o)); try done; by left.
Qed.
Lemma sound_idle d j : sound d j → settled j = true → idle j.
Proof. intros [Hv Hc _ _] Hs. by split_and!. Qed.
Lemma pending_settled j p : journal_valid j = true → installation_pending j = Some p → settled j = true.
Proof. unfold journal_valid. intros Hv Hp. rewrite Hp in Hv. by apply andb_prop in Hv as [_ [_ ?]%andb_prop]. Qed.
Lemma idle_ids j o : idle j → operation j = Some o →
  valid_id (operation_id (op_status o)) = true ∧ valid_id (phase_nonce (op_status o)) = true ∧ valid_sha256 (sha256 (candidate o)) = true.
Proof.
  intros (Hv & _ & Hc) Ho. unfold journal_valid in Hv. rewrite Ho in Hv. apply andb_prop in Hv as [[_ Hi]%andb_prop _].
  apply andb_prop in Hi as [? ?]. split_and!; [done..|by apply Hc].
Qed.
Lemma idle_last j x : idle j → idle (with_last x j).
Proof. intros (? & ? & ?). by split_and!. Qed.
Lemma idle_terminal j o : idle j → operation j = Some o → terminal (phase (op_status o)) = true.
Proof. intros (_ & Hs & _) Ho. by rewrite /settled Ho in Hs. Qed.

(** ** Another program than the recorded one *)
(** The record is settled and names [i], the program in place is [h]. *)
Definition drifted (i : InstalledIdentity) (h : option Str) (d : Disk) : Prop :=
  ∃ j, d_journal d = Some j ∧ idle j ∧ installed j = i ∧ live d = h.
Section drift.
Context (env : Env) (i : InstalledIdentity) (h : option Str) (Hne : h ≠ Some (sha256 i)).
Implicit Types (R : Disk → Journal → Prop).
Notation kept := (λ (d : Disk) (_ : Journal), drifted i h d).
Notation kept_end := (λ _ (d : Disk) (_ : Journal), drifted i h d).
Lemma drifted_alike d d' : alike d d' → d_journal d' = d_journal d → drifted i h d → drifted i h d'.
Proof. intros [Hl _] Hj (j & ? & ? & ? & ?). exists j. split_and!; congruence. Qed.
Lemma drift_publish d j : drifted i h d → runs d j (publish env) kept_end kept.
Proof. intros Hd. apply runs_publish; intros; by eapply drifted_alike. Qed.
Lemma drift_persist d j : drifted i h d → idle j → installed j = i → runs d j (persist env) kept_end kept.
Proof.
  intros (j0 & Hj0 & Hi0 & Hin0 & Hl) Hi Hin. eapply (runs_bind _ _ _ _ (λ _ d' j', j' = j ∧ drifted i h d')); [|intros [] d' j' [-> Hd']; by apply drift_publish].
  assert (drifted i h d) as Hd by (by exists j0).
  eapply runs_bind; [by apply (runs_journal_of d j (λ a d' j', a = j ∧ d' = d ∧ j' = j))|]. intros _ d' j' (-> & -> & ->).
  apply runs_still; [by apply runs_demand|intros _]. apply runs_mutate; [split; [done|]|done|]; by exists j.
Qed.
Lemma drift_matches d j (Q : unit → Disk → Journal → Prop) R : live d = h → installed j = i → R d j → runs d j (matches_installed env) Q R.
Proof. intros Hl Hin HR. apply matches_installed_runs; [|done]. congruence. Qed.
Lemma drift_load {B} d j (m : X B) (Q : B → Disk → Journal → Prop) :
  drifted i h d → (∀ j', idle j' → installed j' = i → live d = h → runs d j' m Q kept) → runs d j (load env;;; m) Q kept.
Proof.
  intros Hd Hm. pose proof Hd as (j0 & Hj0 & Hi0 & Hin0 & Hl). eapply (runs_bind _ _ _ _ (λ _ d' j', d' = d ∧ j' = j0)).
  - apply runs_load; [|done]. intros j' Hj' _. split; [done|]. congruence.
  - intros _ d' j' [-> ->]. by apply Hm.
Qed.
Lemma drift_recorded_last d j (f : Z → option OperationStatus) : drifted i h d → idle j → installed j = i →
  runs d j (let* t := now env in modify (with_last (f t));;; persist env) kept_end kept.
Proof.
  intros Hd Hi Hin. apply runs_still; [by apply runs_now|intros t].
  eapply runs_bind; [by apply (runs_modify d j _ (λ _ d' j', d' = d ∧ j' = with_last (f t) j))|]. intros [] d' j' [-> ->].
  apply drift_persist; [done|by apply idle_last|done].
Qed.

(** *** Requests *)
Lemma drift_gate r at_ d j : drifted i h d → idle j → installed j = i →
  runs d j (stage_gate env r at_) (λ b d' j', drifted i h d' ∧ (b = true → d' = d ∧ j' = j)) kept.
Proof.
  intros Hd Hi Hin. apply runs_still; [by apply runs_demand|intros _].
  eapply runs_bind; [by apply (runs_journal_of d j (λ a d' j', a = j ∧ d' = d ∧ j' = j))|]. intros _ d' j' (-> & -> & ->).
  assert (runs d j (publish env;;; ret false) (λ b d' j', drifted i h d' ∧ (b = true → d' = d ∧ j' = j)) kept) as Hpub.
  { eapply runs_bind; [by apply drift_publish|]. intros. by apply runs_ret. }
  destruct (when _ _); [apply runs_still; [by apply runs_demand|by intros _]|].
  apply runs_still; [by apply fence_runs|intros b]. destruct b; [done|].
  destruct (refusal at_ j); [|by apply runs_ret]. eapply runs_bind; [by apply drift_recorded_last|]. intros. by apply runs_ret.
Qed.
(** No download begins: its request cannot name both programs. *)
Lemma drift_admission r units d j : live d = h → installed j = i →
  runs d j (admission env r units) (λ a d' j', is_Some a ∧ d' = d ∧ j' = j) (λ d' j', d' = d ∧ j' = j).
Proof.
  intros Hl Hin. unfold admission. apply runs_still; [destruct units; [by apply runs_fail|by apply runs_ret]|intros _].
  eapply runs_bind; [by apply (runs_journal_of d j (λ a d' j', a = j ∧ d' = d ∧ j' = j))|]. intros _ d' j' (-> & -> & ->).
  destruct (bool_decide_reflect (sha256 (installed j) = current_sha256 r)) as [Hc|]; simpl; [|by apply runs_ret].
  eapply (runs_bind _ _ _ _ (λ a d' j', live d = Some a ∧ d' = d ∧ j' = j)); [by apply runs_actual_hash|]. intros a d' j' (Ha & -> & ->).
  destruct (bool_decide_reflect (a = current_sha256 r)) as [->|]; simpl; [congruence|by apply runs_ret].
Qed.
Lemma drift_stage r units d j : drifted i h d → idle j → installed j = i → runs d j (stage env r units) kept_end kept.
Proof.
  intros Hd Hi Hin. pose proof Hd as (_ & _ & _ & _ & Hl). apply runs_still; [by apply runs_now|intros t].
  eapply runs_bind; [by apply drift_gate|]. intros [] d' j' [Hd' Hsame]; [|by apply runs_ret]. destruct (Hsame eq_refl) as [-> ->]. simpl.
  eapply (runs_bind _ _ _ _ (λ a d' j', (∀ o, a = inl o → is_Some o) ∧ d' = d ∧ j' = j)).
  { eapply runs_catch; [eapply runs_mono; [by apply (drift_admission r units)| |intros d' j' Hr; exact Hr]|].
    - intros a d' j' (Ha & -> & ->). split; [by intros _ [= <-]|done].
    - intros d' j' [-> ->]. done. }
  intros a d' j' (Ha & -> & ->). destruct a as [[why|]|c]; [by apply drift_recorded_last|by destruct (Ha None)|].
  eapply runs_bind; [by apply drift_recorded_last|]. intros. by apply runs_fail.
Qed.
Lemma drift_abort r d j : drifted i h d → idle j → installed j = i → runs d j (abort env r) kept_end kept.
Proof.
  intros Hd Hi Hin. apply runs_still; [by apply fence_runs|intros b]. destruct b; [by apply drift_publish|].
  eapply runs_bind; [by apply (runs_journal_of d j (λ a d' j', a = j ∧ d' = d ∧ j' = j))|]. intros _ d' j' (-> & -> & ->).
  destruct (when _ _); [|by apply drift_recorded_last].
  eapply (runs_bind _ _ _ _ (λ o d' j', operation j = Some o ∧ d' = d ∧ j' = j)); [by apply matching_runs|]. intros o' d' j' (Ho & -> & ->).
  pose proof (idle_terminal _ _ Hi Ho) as Ht. assert (precommit (phase (op_status o')) = false) as -> by (by destruct (phase (op_status o'))).
  apply runs_still; [by apply runs_ret|intros _]. by apply drift_publish.
Qed.
(** What needs an operation at work stops. *)
Lemma drift_at_work r p d j (k : Operation → X unit) : drifted i h d → idle j → terminal p = false →
  (∀ o, phase (op_status o) ≠ p → runs d j (k o) (λ _ _ _, False) kept) → runs d j (let* o := matching r in k o) kept_end kept.
Proof.
  intros Hd Hi Hp Hk. eapply (runs_bind _ _ _ _ (λ o d' j', operation j = Some o ∧ d' = d ∧ j' = j)); [by apply matching_runs|].
  intros o d' j' (Ho & -> & ->). eapply runs_mono; [apply Hk|done|done]. intros Heq. pose proof (idle_terminal _ _ Hi Ho). congruence.
Qed.
Lemma drift_handle r units d j : drifted i h d → idle j → installed j = i → runs d j (handle env r units) kept_end kept.
Proof.
  intros Hd Hi Hin. unfold handle. destruct (i_request r) eqn:Hreq.
  - eapply (runs_bind _ _ _ _ (λ _ d' j', d' = d ∧ j' = j)); [|intros s d' j' [-> ->]; by apply drift_stage].
    unfold parse_stage. rewrite Hreq. apply runs_still; [by apply still_contract; [apply ReleaseSafe.total_tag|]|]. intros v. by apply runs_ret.
  - apply runs_still; [by apply not_installing_runs|intros _]. apply runs_still; [by apply fence_runs|intros b]. destruct b; [by apply drift_publish|].
    apply (drift_at_work r Staged); [done..|]. intros o Hp. eapply runs_bind; [apply (runs_demand _ _ _ (λ _ _ _, False)); [|done]|done].
    by intros [[?%bool_decide_eq_true _]%andb_prop _]%andb_prop.
  - apply runs_still; [by apply not_installing_runs|intros _]. eapply runs_bind; [by apply drift_abort|]. intros [] d1 j1 Hd1.
    destruct units; [by apply runs_fail|by apply runs_ret].
  - apply runs_still; [by apply not_installing_runs|intros _]. apply (drift_at_work r AwaitingReadiness); [done..|]. intros o Hp.
    eapply runs_bind; [apply (runs_demand _ _ _ (λ _ _ _, False)); [|done]|done]. by intros ?%bool_decide_eq_true.
Qed.
Lemma drift_run request d j : drifted i h d → runs d j (run env request) kept_end kept.
Proof.
  intros Hd. apply runs_still; [by apply runs_look|intros _]. destruct (when inbox_valid request) as [r|]; [|by apply runs_fail].
  apply runs_still; [apply (runs_catch _ _ _ _ _ (λ d' j', d' = d ∧ j' = j)); [by apply runs_look|by intros ? ? [-> ->]]|]. intros units.
  apply drift_load; [done|]. intros. by apply drift_handle.
Qed.

(** *** Recovery and installation *)
Lemma drift_recover boot d j : drifted i h d → runs d j (recover env boot) kept_end kept.
Proof.
  intros Hd. apply runs_still; [by apply runs_look|intros _]. apply drift_load; [done|]. intros j0 Hi Hin Hl.
  eapply runs_bind; [by apply (runs_journal_of d j0 (λ a d' j', a = j0 ∧ d' = d ∧ j' = j0))|]. intros _ d' j' (-> & -> & ->).
  assert (runs d j0 (matches_installed env;;; publish env) kept_end kept) as Hm by (eapply runs_bind; [by apply (drift_matches _ _ (λ _ _ _, False))|done]).
  destruct (installation_pending j0); [done|]. destruct (operation j0) as [o|] eqn:Ho; [|done].
  unfold recover_operation. by rewrite (idle_terminal _ _ Hi Ho).
Qed.
Lemma drift_rebuild d j : drifted i h d → runs d j (rebuild_status env) kept_end kept.
Proof. intros Hd. apply drift_load; [done|]. intros j0 Hi Hin Hl. eapply runs_bind; [by apply (drift_matches _ _ (λ _ _ _, False))|done]. Qed.
(** The next installation is refused. *)
Lemma drift_check d j : drifted i h d → runs d j (install_check env) (λ _ _ _, False) kept.
Proof.
  intros Hd. apply runs_still; [by apply runs_look|intros _]. apply runs_get. intros t. cbn [disk].
  destruct (d_journal d) eqn:Hj; [|by destruct Hd as (? & ? & _); congruence].
  apply drift_load; [done|]. intros j1 Hi Hin Hl.
  eapply runs_bind; [by apply (runs_journal_of d j1 (λ a d' j', a = j1 ∧ d' = d ∧ j' = j1))|]. intros _ d' j' (-> & -> & ->).
  apply runs_still; [by apply runs_demand|intros _]. by apply drift_matches.
Qed.
Lemma drift_match n d j : drifted i h d → runs d j (install_match env n) (λ _ _ _, False) kept.
Proof.
  intros Hd. apply drift_load; [done|]. intros j0 Hi Hin Hl.
  eapply runs_bind; [by apply (runs_journal_of d j0 (λ a d' j', a = j0 ∧ d' = d ∧ j' = j0))|]. intros _ d' j' (-> & -> & ->).
  apply runs_still; [by apply runs_demand|intros _]. by apply drift_matches.
Qed.
Lemma drift_verify n d j : drifted i h d → runs d j (install_verify env n) kept_end kept.
Proof. intros Hd. apply runs_still; [by apply runs_look|intros _]. eapply runs_bind; [by apply drift_match|done]. Qed.
End drift.

(** ** No record *)
Section absent.
Context (env : Env) (d : Disk) (Hd : d_journal d = None).
Notation same := (λ (d' : Disk) (_ : Journal), d' = d).
Lemma absent_load {B} j (m : X B) Q : runs d j (load env;;; m) Q same.
Proof. eapply (runs_bind _ _ _ _ (λ _ _ _, False)); [|done]. apply runs_load; [congruence|done]. Qed.
Lemma absent_looked {B} j (m : X B) (Q : B → Disk → Journal → Prop) : (∀ d' j', d' = d → runs d j' m Q same) → runs d j (look env;;; m) Q same.
Proof. intros Hm. apply runs_still; [by apply runs_look|]. intros _. by apply (Hm d). Qed.
Lemma absent_run request j : runs d j (run env request) (λ _ d' _, d' = d) same.
Proof.
  apply absent_looked. intros _ j1 _. destruct (when inbox_valid request); [|by apply runs_fail].
  apply runs_still; [apply (runs_catch _ _ _ _ _ (λ d' j', d' = d ∧ j' = j1)); [by apply runs_look|by intros ? ? [-> ->]]|]. intros units.
  apply absent_load.
Qed.
Lemma absent_check j : runs d j (install_check env) (λ _ d' _, d' = d) same.
Proof. apply absent_looked. intros _ j1 _. apply runs_get. intros t. cbn [disk]. rewrite Hd. by apply runs_ret. Qed.
Lemma absent_verify n j : runs d j (install_verify env n) (λ _ d' _, d' = d) same.
Proof. apply absent_looked. intros _ j1 _. eapply (runs_bind _ _ _ _ (λ _ _ _, False)); [apply absent_load|done]. Qed.
End absent.

(** ** Registration *)
Lemma register_runs env cb saved preflight d j h : (∀ t, valid_id (nonce env t) = true) → valid_sha256 h = true → live d = Some h →
  (∀ i, d_journal d = Some i → idle i) →
  runs d j (register env cb saved preflight) (λ _ d' _, ∃ i, d_journal d' = Some i ∧ idle i ∧ live d' = Some (sha256 (installed i)))
    (λ d' _, ∀ i, d_journal d' = Some i → idle i).
Proof.
  intros Hn Hh Hl Hd. do 2 (apply runs_still; [by apply runs_look|intros _]). apply runs_still; [by apply runs_demand|intros _]. apply runs_still; [by apply runs_look|intros _].
  eapply (runs_bind _ _ _ _ (λ a d' j', a = h ∧ d' = d ∧ j' = j)); [apply runs_actual_hash; [intros a Ha; by rewrite Hl in Ha; injection Ha as <-|done]|].
  intros _ d' j' (-> & -> & ->). cbv zeta. apply runs_still; [by apply runs_look|intros _]. apply runs_get. intros t. cbn [disk].
  eapply (runs_bind _ _ _ _ (λ a d' _, d' = d ∧ ∀ i, a = Some i → idle i)).
  { destruct (d_journal d) as [i|] eqn:Hi; [|by apply runs_ret].
    eapply (runs_bind _ _ _ _ (λ _ d' j', d' = d ∧ j' = i)); [apply runs_load; [|by rewrite Hi]; intros i' Hi'; split; [done|congruence]|]. intros [] d' j' [-> ->].
    eapply runs_bind; [by apply (runs_journal_of d i (λ a d' j', a = i ∧ d' = d ∧ j' = i))|]. intros _ d' j' (-> & -> & ->).
    apply runs_still; [apply runs_demand; [done|by rewrite Hi]|intros _]. apply runs_ret. split; [done|]. intros i' [= <-]. by apply Hd. }
  intros previous_ d' j' [-> Hprev]. apply runs_still; [by apply runs_look|intros _].
  eapply (runs_bind _ _ _ _ (λ _ d' i, preflight_ok preflight saved = true ∧ d' = d ∧ i = j')); [by apply runs_demand|]. intros _ d' i (Hp & -> & ->).
  eapply (runs_bind _ _ _ _ (λ n d' i, valid_id n = true ∧ d' = d ∧ i = j')); [by apply runs_nonce|]. intros n d' i (Hnn & -> & ->).
  eapply (runs_bind _ _ _ _ (λ n d' i, valid_id n = true ∧ d' = d ∧ i = j')); [by apply runs_nonce|]. intros l d' i (Hll & -> & ->).
  eapply runs_bind; [by apply runs_modify; instantiate (1 := λ _ d' i, d' = d ∧ i = installation _ _ _)|]. intros [] d' i [-> ->].
  match goal with |- runs _ ?i _ _ _ => set (new := i); assert (idle new ∧ sha256 (installed new) = h) as [Hnew Hin] end.
  { split; [|done]. assert (settled new = true) as Hset by (destruct previous_ as [p|]; [exact (proj1 (proj2 (Hprev p eq_refl)))|done]).
    apply (sound_idle d); [|done]. apply pending_sound; [done..|by eapply installation_pending_ok|done|].
    intros op Hop. destruct previous_ as [p|]; [|done]. by apply (idle_ids p), Hop; apply Hprev. }
  clearbody new. eapply (runs_bind _ _ _ _ (λ _ d' i, alike d d' ∧ d_journal d' = Some new)).
  - eapply runs_bind; [by apply (runs_journal_of d new (λ a d' i, a = new ∧ d' = d ∧ i = new))|]. intros _ d' i (-> & -> & ->).
    apply runs_still; [by apply runs_demand|intros _]. apply runs_mutate; [done|done|]. simpl. by intros i [= <-].
  - intros [] d2 i [[Hl2 _] Hj2]. apply runs_publish; intros d3 [Hl3 _] Hj3.
    + exists new. split_and!; [congruence|done|congruence].
    + intros i'. rewrite Hj3 Hj2. by intros [= <-].
Qed.

(** [install-restore] of a settled journal leaves one for the same program. *)
Lemma restore_keeps env cb preflight d j : (∀ t, valid_id (nonce env t) = true) → (∀ i, d_journal d = Some i → idle i) →
  let kept := λ (d' : Disk) (_ : Journal), live d' = live d ∧ ∀ j', d_journal d' = Some j' → idle j' ∧ ∃ j0, d_journal d = Some j0 ∧ installed j' = installed j0 in
  runs d j (install_restore env cb preflight) (λ _, kept) kept.
Proof.
  intros Hn Ho kept. assert (∀ d' j', d' = d → kept d' j') as Hsame by (intros d' j' ->; split; [done|]; intros i Hi; split; [by apply Ho|by exists i]).
  eapply (runs_bind _ _ _ _ (λ _ d' i, d' = d ∧ d_journal d = Some i)); [apply runs_load; [|by apply Hsame]; by intros i Hi|]. intros [] d' j0 [-> Hj].
  pose proof (Ho j0 Hj) as Hi0.
  eapply runs_bind; [by apply (runs_journal_of d j0 (λ a d' j', a = j0 ∧ d' = d ∧ j' = j0))|]. intros _ d' j' (-> & -> & ->). cbv zeta.
  apply runs_still; [by apply runs_demand; [|apply Hsame]|intros _].
  eapply (runs_bind _ _ _ _ (λ _ d' j', live d = Some (sha256 (installed j0)) ∧ d' = d ∧ j' = j0)); [by apply matches_installed_runs; [|apply Hsame]|]. intros _ d' j' (Hl & -> & ->).
  apply runs_still; [by apply runs_look; [|apply Hsame]|intros _].
  eapply (runs_bind _ _ _ _ (λ _ d' j', preflight_ok preflight cb = true ∧ d' = d ∧ j' = j0)); [by apply runs_demand; [|apply Hsame]|]. intros _ d' j' (Hp & -> & ->).
  eapply (runs_bind _ _ _ _ (λ n d' j', valid_id n = true ∧ d' = d ∧ j' = j0)); [by apply runs_nonce|]. intros n d' j' (Hnn & -> & ->).
  eapply (runs_bind _ _ _ _ (λ n d' j', valid_id n = true ∧ d' = d ∧ j' = j0)); [by apply runs_nonce|]. intros l d' j' (Hll & -> & ->).
  eapply runs_bind; [by apply runs_modify; instantiate (1 := λ _ d' j', d' = d ∧ j' = with_installation (Some _) j0)|]. intros [] d' j' [-> ->].
  match goal with |- runs _ ?i _ _ _ => set (new := i); assert (idle new ∧ installed new = installed j0) as [Hnew Hin] end.
  { split; [|done]. pose proof (idle_sound d j0 Hi0 Hl) as Hs. destruct (sound_schema _ _ Hs) as [Hsc Hd]. apply (sound_idle d); [|apply Hi0].
    unfold new, with_installation. rewrite Hsc. apply pending_sound; [apply Hi0|done|by eapply installation_pending_ok|done|by intros op; apply idle_ids]. }
  clearbody new. assert (∀ d' j', live d' = live d → d_journal d' = Some new → kept d' j') as Hk.
  { intros d1 j1 Hl1 Hj1. split; [done|]. intros i. rewrite Hj1. intros [= <-]. split; [done|by exists j0]. }
  eapply (runs_bind _ _ _ _ (λ _ d' i, alike d d' ∧ d_journal d' = Some new)).
  - eapply runs_bind; [by apply (runs_journal_of d new (λ a d' i, a = new ∧ d' = d ∧ i = new))|]. intros _ d' i (-> & -> & ->).
    apply runs_still; [by apply runs_demand; [|apply Hsame]|intros _]. apply runs_mutate; [done|by apply Hsame|by apply Hk].
  - intros [] d2 i [[Hl2 _] Hj2]. apply runs_publish; intros d3 [Hl3 _] Hj3; apply Hk; congruence.
Qed.
Lemma rebuild_keeps env d j : runs d j (rebuild_status env) (λ _ d' _, restaged d d') (λ d' _, restaged d d').
Proof.
  eapply (runs_bind _ _ _ _ (λ _ d' _, d' = d)); [by apply runs_load|]. intros [] d' j1 ->. apply runs_still; [by apply matches_installed_runs|]. intros _.
  apply runs_publish; intros d' [Hl' _] Hj'; split; congruence.
Qed.

(** ** The invariant *)
Definition orderly (d : Disk) : Prop := ∀ j, d_journal d = Some j → idle j.
Definition in_order (d : Disk) : Prop := ∀ j, d_journal d = Some j → idle j ∧ live d = Some (sha256 (installed j)).
Definition good (d : Disk) : Prop := d_journal d = None ∨ recorded everything d.
Definition adrift (d : Disk) : Prop := ∃ i h, h ≠ Some (sha256 i) ∧ drifted i h d.
(** The backup is of a program and its record. *)
Definition clean (b : Backup) : Prop := ∀ j, b_journal b = Some j → idle j ∧ b_live b = Some (sha256 (installed j)).
Definition installer_ok (d : Disk) (b : Backup) (st : InstallStage) (cut : bool) : Prop :=
  clean b ∧ match st with
            | Checked | Registered | Reverted true => in_order d
            | Replaced => (∃ h, valid_sha256 h = true ∧ live d = Some h) ∧ orderly d
            | Released _ => good d ∨ cut = true ∧ adrift d
            | Failing | Reverting false | Reverted false => orderly d
            | Reverting true => live d = b_live b ∧ orderly d
            end.
Definition system_ok (s : System) : Prop :=
  match installer s with
  | None => good (s_disk s) ∨ cut_off s = true ∧ adrift (s_disk s)
  | Some (b, st) => installer_ok (s_disk s) b st (cut_off s)
  end.
Lemma in_order_good d : in_order d → good d.
Proof.
  intros Hd. unfold in_order, good in *. destruct (d_journal d) as [j|] eqn:Hj; [right|by left]. destruct (Hd j eq_refl). exists j. split; [done|]. split; [by apply idle_sound|done].
Qed.
Lemma in_order_orderly d : in_order d → orderly d.
Proof. intros Hd j Hj. by apply Hd. Qed.
Lemma orderly_restaged d d' : restaged d d' → orderly d → orderly d'.
Proof. intros [Hj _] Ho j. rewrite Hj. apply Ho. Qed.
Lemma in_order_restaged d d' : restaged d d' → in_order d → in_order d'.
Proof. intros [Hj Hl] Ho j. rewrite Hj Hl. apply Ho. Qed.
Lemma orderly_either d : orderly d → good d ∨ adrift d.
Proof.
  intros Ho. destruct (d_journal d) as [j|] eqn:Hj; [|by left; left].
  destruct (decide (live d = Some (sha256 (installed j)))) as [Hl|Hl].
  - left. apply in_order_good. intros j' Hj'. rewrite Hj in Hj'. injection Hj' as <-. split; [by apply Ho|done].
  - right. exists (installed j), (live d). split; [done|]. exists j. split_and!; [done|by apply Ho|done|done].
Qed.
Lemma adrift_orderly d : adrift d → orderly d.
Proof. intros (i & h & _ & j & Hj & Hi & _) j'. rewrite Hj. by intros [= <-]. Qed.

Lemma runs_after {A} d j t (m : X A) (P : Disk → Prop) : runs d j m (λ _ d' _, P d') (λ d' _, P d') → P (after m (mkWorld d j t)).
Proof. intros Hm. specialize (Hm t). unfold wp, after in *. by destruct (m (mkWorld d j t)) as [[] ?]. Qed.
Lemma runs_ok {A} d j t (m : X A) a (P : Disk → Prop) R : runs d j m (λ _ d' _, P d') R → (m (mkWorld d j t)).1 = Ok a → P (after m (mkWorld d j t)).
Proof. intros Hm Ha. specialize (Hm t). unfold wp, after in *. destruct (m (mkWorld d j t)) as [[] ?]; done. Qed.

(** *** Each step *)
Lemma act_absent d d' : act d d' → d_journal d = None → d' = d.
Proof.
  intros [env request d0 j t|env boot d0 j t|env d0 j t|env d0 j t|env n d0 j t|env n d0 j t] Hd; apply (runs_after d0 j t _ (λ d', d' = d0)).
  - by apply absent_run.
  - apply absent_looked. intros d1 j1 ->. by apply absent_load.
  - by apply absent_load.
  - by apply absent_check.
  - by apply absent_load.
  - by apply absent_verify.
Qed.
Lemma match_runs env n d j : recorded everything d →
  runs d j (install_match env n) (λ _ d' _, recorded everything d' ∧ orderly d') (λ d' _, recorded everything d').
Proof.
  intros Hrec. apply (runs_loaded env everything); [done..|]. intros j0 Hld.
  eapply runs_bind; [by apply (runs_journal_of d j0 (λ a d' j', a = j0 ∧ d' = d ∧ j' = j0))|]. intros _ d' j' (-> & -> & ->).
  eapply (runs_bind _ _ _ _ (λ _ d' j', is_Some (installation_pending j0) ∧ d' = d ∧ j' = j0)).
  { apply runs_demand; [|done]. by destruct (installation_pending j0). }
  intros [] d' j' ([p Hp] & -> & ->). apply matches_installed_runs; [|done]. intros _. split; [done|].
  destruct Hld as (Hj & Hs & _). intros i Hi. rewrite Hj in Hi. injection Hi as <-. apply (sound_idle d); [done|].
  apply (pending_settled _ p); [|done]. apply Hs.
Qed.
Lemma check_runs env d j : recorded everything d →
  runs d j (install_check env) (λ _ d' _, ∀ i, d_journal d' = Some i → idle i ∧ live d' = Some (sha256 (installed i))) (λ d' _, recorded everything d').
Proof.
  intros Hrec. apply runs_still; [by apply runs_look|intros _]. apply runs_get. intros t. cbn [disk].
  destruct (d_journal d) eqn:Hdj; [|by destruct Hrec as (? & ? & _); congruence]. apply (runs_loaded env everything); [done..|]. intros ji (Hj & Hs & _).
  eapply runs_bind; [by apply (runs_journal_of d ji (λ a d' j', a = ji ∧ d' = d ∧ j' = ji))|]. intros _ d' j' (-> & -> & ->).
  eapply (runs_bind _ _ _ _ (λ _ d' j', settled ji = true ∧ d' = d ∧ j' = ji)); [apply runs_demand; [|done]; by intros [_ ?]%andb_prop|].
  intros [] d' j' (Hset & -> & ->). apply matches_installed_runs; [|done]. intros Hl i Hi. rewrite Hj in Hi. injection Hi as <-.
  split; [by apply (sound_idle d)|done].
Qed.
Lemma act_recorded d d' : act d d' → recorded everything d → recorded everything d'.
Proof.
  intros [] Hr; apply runs_after.
  - by apply run_runs.
  - by apply recover_runs.
  - by apply rebuild_runs.
  - by apply install_check_runs.
  - eapply runs_mono; [by apply match_runs|by intros _ ? ? [? _]|done].
  - by apply install_verify_runs.
Qed.
Lemma act_drifted i h d d' : h ≠ Some (sha256 i) → act d d' → drifted i h d → drifted i h d'.
Proof.
  intros Hne [] Hd; apply runs_after.
  - by apply drift_run.
  - by apply drift_recover.
  - by apply drift_rebuild.
  - eapply runs_mono; [by apply (drift_check _ i h Hne)|done..].
  - eapply runs_mono; [by apply (drift_match _ i h Hne)|done..].
  - by apply drift_verify.
Qed.
Lemma act_good d d' : act d d' → good d → good d'.
Proof. intros Ha [Hd|Hr]; [left; by rewrite (act_absent _ _ Ha Hd)|right; by eapply act_recorded]. Qed.
Lemma act_adrift d d' : act d d' → adrift d → adrift d'.
Proof. intros Ha (i & h & Hne & Hd). exists i, h. split; [done|by eapply act_drifted]. Qed.
Lemma act_check_ok env d j t : (install_check env (mkWorld d j t)).1 = Ok tt → good d ∨ adrift d →
  let d' := after (install_check env) (mkWorld d j t) in ∀ i, d_journal d' = Some i → idle i ∧ live d' = Some (sha256 (installed i)).
Proof.
  intros Hok [[Hd|Hr]|(i & h & Hne & Hd)].
  - cbv zeta. rewrite (act_absent d _ (act_check env d j t) Hd). by rewrite Hd.
  - by apply (runs_ok d j t (install_check env) tt (λ d', ∀ i, d_journal d' = Some i → idle i ∧ live d' = Some (sha256 (installed i))) _ (check_runs env d j Hr)).
  - by destruct (runs_ok d j t (install_check env) tt (λ _, False) _ (drift_check env i h Hne d j Hd) Hok).
Qed.
Lemma match_ok env n d j t : (install_match env n (mkWorld d j t)).1 = Ok tt → good d ∨ adrift d → orderly (after (install_match env n) (mkWorld d j t)).
Proof.
  intros Hok [[Hd|Hr]|Ha].
  - rewrite (act_absent d _ (act_match env n d j t) Hd). intros i. by rewrite Hd.
  - eapply runs_ok; [|exact Hok]. eapply runs_mono; [by apply match_runs|by intros _ ? ? [_ ?]|done].
  - apply adrift_orderly. eapply act_adrift; [by constructor|done].
Qed.
Lemma restore_after env cb preflight d j t : (∀ t, valid_id (nonce env t) = true) → orderly d →
  let d' := after (install_restore env cb preflight) (mkWorld d j t) in orderly d' ∧ (in_order d → in_order d').
Proof.
  intros Hn Ho d'. assert (live d' = live d ∧ ∀ j', d_journal d' = Some j' → idle j' ∧ ∃ j0, d_journal d = Some j0 ∧ installed j' = installed j0) as [Hl Hj].
  { apply (runs_after d j t _ (λ d', live d' = live d ∧ ∀ j', d_journal d' = Some j' → idle j' ∧ ∃ j0, d_journal d = Some j0 ∧ installed j' = installed j0)).
    by apply restore_keeps. }
  split; [intros j' Hj'; by apply Hj|]. intros Hio j' Hj'. destruct (Hj j' Hj') as [Hi (j0 & Hj0 & ->)]. split; [done|]. rewrite Hl. by apply Hio.
Qed.
Lemma register_ok env cb saved preflight d b cut j t : (∀ t, valid_id (nonce env t) = true) → installer_ok d b Replaced cut →
  let r := register env cb saved preflight (mkWorld d j t) in
  installer_ok (disk r.2) b (match r.1 with Ok _ => Registered | _ => Failing end) cut.
Proof.
  intros Hn [Hb [(h & Hh & Hl) Ho]]. pose proof (register_runs env cb saved preflight d j h Hn Hh Hl Ho t) as Hr. cbv zeta. unfold wp in Hr.
  destruct (register _ _ _ _ _) as [[[]|e| |] w]; simpl in *; [|done..]. split; [done|].
  destruct Hr as (i & Hi & Hid & Hlive). intros i'. rewrite Hi. by intros [= <-].
Qed.
Lemma rebuild_after env d j t : restaged d (after (rebuild_status env) (mkWorld d j t)).
Proof. apply (runs_after d j t _ (restaged d)). apply rebuild_keeps. Qed.
(** The copies of the rollback. *)
Lemma reverted_ok d b back cut : clean b → installer_ok d b (Reverting back) cut → ∀ copied : bool,
  installer_ok (if copied then put_journal (b_journal b) d else d) b (Reverted (back && copied)) cut.
Proof.
  intros Hb [_ Hd] copied. split; [done|]. assert (orderly d) as Ho by (destruct back; apply Hd).
  assert (orderly (put_journal (b_journal b) d)) as Hput by (intros j Hj; by apply (Hb j)).
  destruct back, copied; simpl; try done. destruct Hd as [Hl _]. intros j Hj. simpl in *. rewrite Hl. by apply Hb.
Qed.
(** An installer ends. *)
Lemma ended_ok d b st cut : installer_ok d b st cut → good d ∨ cut || exchanging st = true ∧ adrift d.
Proof.
  intros [Hb Hd]. assert (orderly d → exchanging st = true → good d ∨ cut || exchanging st = true ∧ adrift d) as Hex.
  { intros Ho ->. rewrite orb_true_r. destruct (orderly_either _ Ho); [by left|by right]. }
  destruct st as [| | |n| |[]|[]]; simpl in *; rewrite ?orb_false_r; try (left; by apply in_order_good); try apply Hex; try done; apply Hd.
Qed.

Lemma system_step_ok s s' : step s s' → system_ok s → system_ok s'.
Proof.
  intros [s0 d Hfree Hact|env d cut j t Hok d'|d b cut h Hh|env cb saved preflight d b cut j t Hn r|d b cut|d b st cut Htrap|env n d b cut j t Hok|copied d b cut
    |copied back d b cut|env d b back cut j t|d b back cut|env cb preflight d b back cut j t Hn|d b st cut] Hs;
    unfold system_ok in *; cbn [installer s_disk cut_off] in *.
  - unfold lock_free in Hfree. destruct (installer s0) as [[b []]|]; try done.
    + destruct Hs as [Hb Hs]. split; [done|]. destruct Hs as [Hs|[? Hs]]; [left; by eapply act_good|right; by eauto using act_adrift].
    + destruct Hs as [Hs|[? Hs]]; [left; by eapply act_good|right; by eauto using act_adrift].
  - assert (good d ∨ adrift d) as Hd by tauto. pose proof (act_check_ok env d j t Hok Hd) as Hin. by split.
  - destruct Hs as [Hb Hd]. split; [done|]. split; [by exists h|]. exact (in_order_orderly _ Hd).
  - by apply register_ok.
  - destruct Hs as [Hb Hd]. split; [done|]. left. by apply in_order_good.
  - destruct Hs as [Hb Hd]. split; [done|]. destruct st; try done; try (by apply in_order_orderly); apply Hd.
  - destruct Hs as [Hb Hs]. split; [done|]. apply match_ok; [done|]. tauto.
  - destruct Hs as [Hb Ho]. split; [done|]. by destruct copied.
  - apply reverted_ok; [apply Hs|done].
  - destruct Hs as [Hb Hs]. split; [done|]. destruct back; [eapply in_order_restaged|eapply orderly_restaged]; try exact Hs; apply rebuild_after.
  - destruct Hs as [Hb Hs]. split; [done|]. by destruct back.
  - destruct Hs as [Hb Hs]. split; [done|]. assert (orderly d) as Ho by (destruct back; [by apply in_order_orderly|done]).
    destruct (restore_after env cb preflight d j t Hn Ho) as [Hr1 Hr2]. destruct back; [by apply Hr2|done].
  - by apply (ended_ok d b).
Qed.
Lemma system_reachable_ok s : reachable s → system_ok s.
Proof.
  intros (d & Hd & Hst). assert (system_ok (mkSystem d None false)) as H0 by (by left; left). revert H0.
  induction Hst as [|s1 s2 s3 H12 _ IH]; [done|]. intros H1. by apply IH, (system_step_ok s1).
Qed.
(** Either the record is true, or it is settled and another program is in
    place. *)
Lemma reachable_disk s : reachable s →
  good (s_disk s) ∨ ((∃ b st, installer s = Some (b, st) ∧ exchanging st = true) ∨ cut_off s = true) ∧ adrift (s_disk s).
Proof.
  intros Hs%system_reachable_ok. unfold system_ok in Hs. destruct (installer s) as [[b st]|] eqn:Hi; [|tauto].
  destruct (ended_ok _ _ _ _ Hs) as [|[[Hc|He]%orb_true_iff Ha]]; [by left|right; split; [by right|done]|right]. split; [|done]. left. by exists b, st.
Qed.
End system.
