(* ===== verification/UpdaterClaims.v ===== *)
(** * What the updater promises

    Every disk the installer and the helper can leave is recoverable or
    untouched by the helper, only a candidate seen at work becomes the installed
    program, and boot recovery brings the old program back. *)
From S2P Require Import Prelude Std Canonical BlockAnswer Policy Text Release Journal Updater Readiness UpdaterSteps UpdaterSafe UpdaterLive Installer.
Set Default Goal Selector "!".
Set Warnings "-rewrite-rw".
Local Open Scope Z_scope.
Local Open Scope rust_scope.

(** C4. No interruption strands an update, and one that strands an
    installation is contained. Installers that are cut off, fail or roll back
    at any of their steps, and between them requests, recoveries and
    verifications of the helper with any change of the disk failing or cut off
    by a crash before or after it took effect, leave a journal that, once it is
    there, can be loaded and is true: while nothing is being switched the
    recorded program is the one in place; from the stop of the service until
    the operation is settled, the program in place is the old one, or the
    candidate with the old one kept intact in the operation's staging
    directory; and an operation that needs manual recovery has one of these.
    The one exception is an installer that moved the program and has not
    registered it, that is undoing this, or that was cut off there: then
    another program than the recorded one may be in place, but nothing is
    unfinished, no command of the helper touches the program or the recorded
    identity, and the next installation is refused. *)
Theorem update_recoverable `{JsonLib} (s : System) : reachable s → ∀ j, d_journal (s_disk s) = Some j →
  sound (s_disk s) j ∨
  ((∃ b st, installer s = Some (b, st) ∧ exchanging st = true) ∨ cut_off s = true) ∧ journal_valid j = true ∧ settled j = true ∧
  live (s_disk s) ≠ Some (sha256 (installed j)) ∧
  (∀ d', act (s_disk s) d' → live d' = live (s_disk s) ∧
     ∃ j', d_journal d' = Some j' ∧ journal_valid j' = true ∧ settled j' = true ∧ installed j' = installed j) ∧
  (∀ env m t, (install_check env (mkWorld (s_disk s) m t)).1 ≠ Ok tt).
Proof.
  intros Hr j Hj. destruct (reachable_disk s Hr) as [[Hn|(j1 & Hj1 & Hs & _)]|(Hex & i & h & Hne & Hd)]; [congruence|left; congruence|right].
  pose proof Hd as (j1 & Hj1 & (Hv & Hset & _) & Hin & Hl). rewrite Hj in Hj1. injection Hj1 as <-. rewrite -Hin in Hne, Hd. rewrite Hl.
  split_and!; [done..| |].
  - intros d' Ha. destruct (act_drifted _ _ _ _ Hne Ha Hd) as (j' & Hj' & (? & ? & _) & ? & ->). split; [done|]. by exists j'.
  - intros env m t Hok. exact (runs_ok _ m t (install_check env) tt (λ _, False) _ (drift_check env _ _ Hne _ m Hd) Hok).
Qed.

(** C6. Only a candidate seen at work is installed. A request, in any
    environment and however it ends, leaves the recorded installation as it
    was, or it was the [Commit] of the staged operation, for its nonce and
    configuration, and the record names that operation's candidate; then one
    wait of that run saw the candidate for ten seconds on end: fresh health
    reports of this launch by the process the service runs, whose executable
    was hashed as the candidate, no two of them three seconds apart. *)
Theorem installed_after_readiness `{JsonLib} env request d j0 m t :
  d_journal d = Some j0 → sound d j0 →
  ∃ j1, d_journal (after (run env request) (mkWorld d m t)) = Some j1 ∧ sound (after (run env request) (mkWorld d m t)) j1 ∧
    (installed j1 = installed j0 ∨
     ∃ i inv rev o l k, request = Some i ∧ i_request i = Commit inv rev ∧ operation j0 = Some o ∧ phase (op_status o) = Staged ∧
       operation_id (op_status o) = i_operation_id i ∧ phase_nonce (op_status o) = i_phase_nonce i ∧ op_config_revision o = rev ∧
       installed j1 = candidate o ∧ pl_identity l = candidate o ∧ window l rev (samples env k)).
Proof.
  intros Hj Hs.
  set (A := λ id : InstalledIdentity, id = installed j0 ∨
     ∃ i inv rev o l k, request = Some i ∧ i_request i = Commit inv rev ∧ operation j0 = Some o ∧ phase (op_status o) = Staged ∧
       operation_id (op_status o) = i_operation_id i ∧ phase_nonce (op_status o) = i_phase_nonce i ∧ op_config_revision o = rev ∧
       id = candidate o ∧ pl_identity l = candidate o ∧ window l rev (samples env k)).
  assert (runs d m (run env request) (good_end A) (good_stop A)) as Hrun.
  { apply run_runs.
    - intros i inv rev j o l k -> Hi Hj' Ho Hp Hid Hn Hrev Hl Hw. right. exists i, inv, rev, o, l, k. by simplify_eq.
    - exists j0. split_and!; [done..|by left]. }
  specialize (Hrun t). unfold wp, after in *. destruct (run env request (mkWorld d m t)) as [[] w]; [| |done..];
    destruct Hrun as (j1 & Hj1 & Hs1 & HA); by exists j1.
Qed.

(** C8. Boot recovery ends with the old program in place. When nothing fails
    and the records fit their limits, [recover] at boot of any sound disk with
    an unfinished operation returns, the program in place is the one from
    before the update, which the journal still names as installed, and the
    operation is either failed, when nothing had been switched, or waits for
    the readiness of a recorded launch of the old program without a cache
    restore. *)
Theorem boot_recovery `{JsonLib} env d j o m t :
  calm env → d_journal d = Some j → sound d j → operation j = Some o → terminal (phase (op_status o)) = false → fits j →
  ∃ w j', recover env true (mkWorld d m t) = (Ok tt, w) ∧ live (disk w) = Some (sha256 (old o)) ∧ d_journal (disk w) = Some j' ∧ installed j' = old o ∧
    (if precommit (phase (op_status o)) then ∃ o', operation j' = Some o' ∧ phase (op_status o') = Failed else awaits o j').
Proof.
  intros Hc Hj Hs Ho Ht Hf. pose proof (ok_recover env Hc d m j o Hj Hs Ho Ht Hf t) as Hr.
  apply wp_total in Hr as ([] & w & Hw & Hl & Hj' & Hh & Hp). exists w, (mem w). split_and!; [done..|by apply ho_installed|done].
Qed.

(** ** A commit cut off after the switch *)
Module UpdaterWitness.
#[local] Instance json : JsonLib := {| journal_size _ := 900%nat; status_size _ := 900%nat |}.
Definition ID : Str := repeat 49 32.
Definition NONCE : Str := repeat 51 32.
Definition INVOCATION : Str := repeat 53 32.
Definition OLD : Str := repeat 97 64.
Definition NEW : Str := repeat 98 64.
Definition COMMIT_HASH : Str := repeat 99 40.
Definition target : Str := lit "x86_64-unknown-linux-musl".
Definition build_of (v : Str) : BuildInfo := mkBuild v target COMMIT_HASH true 1 HELPER_PROTOCOL INSTALL_CONTRACT 1 1 1 1.
Definition artifact (t : Str) : Artifact := mkArtifact t (artifact_name (lit "v1.1.0") t) 4096 NEW.
Definition new_manifest : Manifest :=
  mkManifest 1 REPOSITORY (lit "1.1.0") (lit "v1.1.0") COMMIT_HASH 1 INSTALL_CONTRACT 4 1 1 1 1 InPlace (artifact <$> SUPPORTED_TARGETS).
Definition new_download : DownloadTuple := mkTuple 7 (lit "v1.1.0") OLD 8 (artifact_name (lit "v1.1.0") target) 4096 NEW.
Definition sample_of (op : Str) (i : InstalledIdentity) (ready : bool) (n : Z) : Sample :=
  mkSample (2500 * n) (2500 * n) (inr (parse_service (lit "MainPID=42
InvocationID=" ++ INVOCATION)))
    (Some (mkHealth op NONCE i (if ready then 9 else 0) (if ready then 1 else 0) ready true true n 42 INVOCATION)) (Some (sha256 i)).
Definition calm_env (op : Str) (i : InstalledIdentity) (ready : bool) : Env :=
  mkEnv (λ _, None) (λ _, None) (λ t, 1000000 + Z.of_nat t) (λ _, NONCE)
    (λ _, lit "MainPID=0
Result=success
ExecMainCode=1
ExecMainStatus=0
ActiveState=active
InvocationID=" ++ INVOCATION)
    (λ _, sample_of op i ready <$> [0; 1; 2; 3; 4]) (λ _, []) (λ _, NEW) (λ _, [(2048, false); (4096, true)]) (λ _, mkDocument new_manifest OLD) (λ _, true).
Definition with_fault (f : nat → option (bool * option Cause)) (e : Env) : Env :=
  mkEnv f (failing e) (clock e) (nonce e) (service_output e) (samples e) (garbage e) (downloaded e) (progress e) (fetched e) (answer e).
Definition first : InstalledIdentity := mkIdentity (build_of (lit "1.0.0")) OLD.
Definition second : InstalledIdentity := mkIdentity (build_of (lit "1.1.0")) NEW.
Definition blank : Journal := mkJournal 1 first None None None.
Definition stage_request : Inbox := mkInbox 1 ID NONCE (Stage new_download OLD INVOCATION 9).
Definition commit_request : Inbox := mkInbox 1 ID NONCE (Commit INVOCATION 9).
Definition d0 : Disk := mkDisk None None None ∅.
Definition env1 : Env := calm_env NONCE first false.
Definition env2 : Env := calm_env ID second true.
Definition from (d : Disk) : World := mkWorld d blank 0.
Definition m1 : X unit := register env1 (build first) (build first) None.
Definition d1 : Disk := after m1 (from (set_live (Some OLD) d0)).
Definition d2 : Disk := after (install_verify env1 NONCE) (from d1).
Definition d3 : Disk := after (run env2 (Some stage_request)) (from d2).
(** The commit cut off just after the candidate was put in
    place. *)
Definition later (d : Disk) : World := mkWorld d blank 100.
Definition cut : Env := with_fault (λ t, if Nat.eqb t 127 then Some (true, None) else None) env2.
Definition d4 : Disk := after (run cut (Some commit_request)) (later d3).
Definition phase_at (d : Disk) : option Phase := phase ∘ op_status <$> (d_journal d ≫= operation).
Lemma nonces op i b t : valid_id (nonce (calm_env op i b) t) = true.
Proof. vm_compute. reflexivity. Qed.
(** A first installation up to the release of the lock. *)
Definition none : Backup := mkBackup None None.
Definition idle_at (d : Disk) : System := mkSystem d None false.
Definition released : InstallStage := Released (pending_nonce d1).
Lemma first_installed : rtc step (idle_at d0) (mkSystem d1 (Some (none, released)) false).
Proof.
  eapply rtc_l; [apply (step_begin env1 d0 false blank 0); vm_compute; reflexivity|].
  eapply rtc_l; [apply (step_replace _ _ false OLD); vm_compute; reflexivity|].
  eapply rtc_l; [apply (step_register env1 (build first) (build first) None _ _ false blank 0); apply nonces|].
  match goal with |- rtc _ ?x _ => assert (x = mkSystem d1 (Some (none, Registered)) false) as -> by (vm_compute; reflexivity) end.
  eapply rtc_l; [apply step_release|]. apply rtc_refl.
Qed.
Lemma verified_system : rtc step (idle_at d0) (idle_at d2).
Proof.
  etrans; [exact first_installed|].
  eapply rtc_l; [apply (step_act (mkSystem d1 (Some (none, released)) false) d2 I), (act_verify env1 NONCE d1 blank 0)|].
  eapply rtc_l; [apply step_end|]. apply rtc_refl.
Qed.
Lemma acts d d' : act d d' → step (idle_at d) (idle_at d').
Proof. intros Ha. exact (step_act (idle_at d) d' I Ha). Qed.
Lemma reached3 : reachable (idle_at d3).
Proof.
  exists d0. split; [done|]. exact (rtc_r _ _ _ verified_system (acts d2 d3 (act_request env2 (Some stage_request) d2 blank 0))).
Qed.
Lemma reached4 : reachable (idle_at d4).
Proof.
  destruct reached3 as (d & Hd & Hst). exists d. split; [exact Hd|].
  exact (rtc_r _ _ _ Hst (acts d3 d4 (act_request cut (Some commit_request) d3 blank 100))).
Qed.
Lemma idle_sound_at d : reachable (idle_at d) → d_journal d ≠ None → ∃ j, d_journal d = Some j ∧ sound d j.
Proof.
  intros Hr Hd. destruct (reachable_disk _ Hr) as [[|(j & Hj & Hs & _)]|[[(b & st & ? & _)|] _]]; [done| |done..]. by exists j.
Qed.
(** An installer cut off after it moved the program of the next version. *)
Definition d5 : Disk := set_live (Some NEW) d2.
Lemma reached5 : reachable (mkSystem d5 None true).
Proof.
  exists d0. split; [done|]. etrans; [exact verified_system|].
  eapply rtc_l; [apply (step_begin env1 d2 false blank 0); vm_compute; reflexivity|].
  eapply rtc_l; [apply (step_replace _ _ false NEW); vm_compute; reflexivity|].
  eapply rtc_l; [apply step_end|]. cbn [orb exchanging].
  match goal with |- rtc _ ?x ?y => assert (x = y) as ->; [|apply rtc_refl] end. vm_compute. reflexivity.
Qed.
Lemma moved_live : live d5 = Some NEW.
Proof. vm_compute. reflexivity. Qed.
Lemma other_program : ∃ j, d_journal d5 = Some j ∧ sha256 (installed j) = OLD ∧ (sound d5 j → False).
Proof.
  destruct (d_journal d5) as [j|] eqn:Hj; [|vm_compute in Hj; discriminate Hj]. exists j. split; [done|].
  vm_compute in Hj. injection Hj as <-. split; [reflexivity|]. intros [_ _ _ Hop]. vm_compute in Hop. discriminate Hop.
Qed.
Lemma switched_phase : phase_at d4 = Some Stopping.
Proof. vm_compute. reflexivity. Qed.
Lemma switched_live : live d4 = Some NEW.
Proof. vm_compute. reflexivity. Qed.
Lemma committed_live : live (after (run env2 (Some commit_request)) (later d3)) = Some NEW.
Proof. vm_compute. reflexivity. Qed.
Lemma calm_calm op i b : calm (calm_env op i b).
Proof. split; [done..|apply nonces]. Qed.
Lemma fits_all j : fits j.
Proof.
  intros j' _. assert (900 ≤ 32768)%nat as Hle by (apply Nat.leb_le; vm_compute; reflexivity). split; [exact Hle|intros; exact Hle].
Qed.
(** The operation of a disk in a phase. *)
Lemma phase_at_operation d p j : phase_at d = Some p → d_journal d = Some j → ∃ o, operation j = Some o ∧ phase (op_status o) = p.
Proof. unfold phase_at. intros Hp Hj. rewrite Hj in Hp. simpl in Hp. destruct (operation j) as [o|]; [|done]. injection Hp as <-. by exists o. Qed.
End UpdaterWitness.

Lemma update_recoverable_witness : ∃ json : JsonLib,
  (∃ d j, live d = Some UpdaterWitness.NEW ∧ UpdaterWitness.phase_at d = Some Stopping ∧ d_journal d = Some j ∧ sound d j) ∧
  ∃ d j, live d = Some UpdaterWitness.NEW ∧ d_journal d = Some j ∧ sha256 (installed j) = UpdaterWitness.OLD ∧
    ∀ env m t, (install_check env (mkWorld d m t)).1 ≠ Ok tt.
Proof.
  exists UpdaterWitness.json.
  assert (∀ d j, reachable (H := UpdaterWitness.json) (UpdaterWitness.idle_at d) → d_journal d = Some j → sound d j) as Hgood.
  { intros d j Hr Hj. destruct (@update_recoverable UpdaterWitness.json (UpdaterWitness.idle_at d) Hr j Hj) as [Hs|([(b & st & Hi & _)|Hc] & _)];
      [exact Hs|discriminate Hi|discriminate Hc]. }
  assert (∀ d j, reachable (H := UpdaterWitness.json) (mkSystem d None true) → d_journal d = Some j → sound d j ∨ ∀ env m t, (install_check env (mkWorld d m t)).1 ≠ Ok tt) as Hcut.
  { intros d j Hr Hj. destruct (@update_recoverable UpdaterWitness.json (mkSystem d None true) Hr j Hj) as [Hs|(_ & _ & _ & _ & _ & Hno)]; [left; exact Hs|right; exact Hno]. }
  split.
  - exists UpdaterWitness.d4. destruct (UpdaterWitness.idle_sound_at _ UpdaterWitness.reached4 ltac:(vm_compute; discriminate)) as (j & Hj & _). exists j.
    split; [exact UpdaterWitness.switched_live|]. split; [exact UpdaterWitness.switched_phase|]. split; [exact Hj|].
    exact (Hgood _ _ UpdaterWitness.reached4 Hj).
  - exists UpdaterWitness.d5. destruct UpdaterWitness.other_program as (j & Hj & Hold & Hns). exists j.
    split; [exact UpdaterWitness.moved_live|]. split; [exact Hj|]. split; [exact Hold|].
    destruct (Hcut _ _ UpdaterWitness.reached5 Hj) as [Hs|Hno]; [destruct (Hns Hs)|exact Hno].
Defined.

Lemma installed_after_readiness_witness : ∃ (json : JsonLib) (d : Disk) (j0 : Journal), d_journal d = Some j0 ∧ sound d j0 ∧
  live (after (run UpdaterWitness.env2 (Some UpdaterWitness.commit_request)) (UpdaterWitness.later d)) = Some UpdaterWitness.NEW ∧
  ∃ j1, d_journal (after (run UpdaterWitness.env2 (Some UpdaterWitness.commit_request)) (UpdaterWitness.later d)) = Some j1.
Proof.
  exists UpdaterWitness.json, UpdaterWitness.d3.
  destruct (UpdaterWitness.idle_sound_at _ UpdaterWitness.reached3 ltac:(vm_compute; discriminate)) as (j0 & Hj & Hs). exists j0. split; [exact Hj|]. split; [exact Hs|].
  split; [exact UpdaterWitness.committed_live|].
  destruct (@installed_after_readiness UpdaterWitness.json UpdaterWitness.env2 (Some UpdaterWitness.commit_request) UpdaterWitness.d3 j0 UpdaterWitness.blank 100 Hj Hs)
    as (j1 & Hj1 & _). exists j1. exact Hj1.
Defined.

Lemma boot_recovery_witness : ∃ (json : JsonLib) (d : Disk), live d = Some UpdaterWitness.NEW ∧
  ∃ w j' o, recover UpdaterWitness.env2 true (UpdaterWitness.later d) = (Ok tt, w) ∧ live (disk w) = Some (sha256 (old o)) ∧ d_journal (disk w) = Some j' ∧ awaits o j'.
Proof.
  exists UpdaterWitness.json, UpdaterWitness.d4. pose proof UpdaterWitness.switched_phase as Hp. split; [exact UpdaterWitness.switched_live|].
  destruct (UpdaterWitness.idle_sound_at _ UpdaterWitness.reached4 ltac:(vm_compute; discriminate)) as (j & Hj & Hs).
  destruct (UpdaterWitness.phase_at_operation _ _ _ Hp Hj) as (o & Ho & Hph).
  destruct (@boot_recovery UpdaterWitness.json UpdaterWitness.env2 UpdaterWitness.d4 j o UpdaterWitness.blank 100 (UpdaterWitness.calm_calm _ _ _) Hj Hs Ho) as (w & j' & Hw & Hlw & Hjw & _ & Ha).
  - rewrite Hph. reflexivity.
  - apply UpdaterWitness.fits_all.
  - exists w, j', o. rewrite Hph in Ha. split; [exact Hw|]. split; [exact Hlw|]. split; [exact Hjw|exact Ha].
Defined.
