(* ===== verification/Coordinator.v ===== *)
(** * The coordinator of updates: its data

    [src/manage/updates/state.rs] and the first half of [src/manage/updates.rs]:
    the persisted state and its checks, the schedule of checks for releases,
    which releases are offered, and what each operation does to the state. One
    reading of the clock serves one change. The requests that reach the root
    helper and the tasks that run side by side are in [UpdateTasks]. *)
From S2P Require Import Prelude Std Canonical BlockAnswer Policy Text Release Journal.
Set Default Goal Selector "!".
Set Warnings "-rewrite-rw".
Local Open Scope Z_scope.
Local Open Scope rust_scope.

(** ** The persisted state *)
Record CheckState : Type := mkCheck {
  ck_validated : bool;
  etag : option Str;
  last_check_at_ms : option Z;
  last_success_at_ms : option Z;
  next_check_at_ms : Z;
  retry_at_ms : Z;
  failures : Z;
  ck_error : option Str;
  manual : bool;
}.
Definition check_default : CheckState := mkCheck false None None None 0 0 0 None false.
Record Candidate : Type := mkCandidate {
  ca_version : Str;
  ca_tag : Str;
  published_at : option Str;
  notes : Str;
  manual_reason : option Str;
  ca_manifest : option Manifest;
  ca_download : option DownloadTuple;
}.
Record Plan : Type := mkPlan { plan_id : Str; expires_at_ms : Z; pl_config_revision : Z; current_sha256 : Str }.
(** [updates::state::Operation]; [Journal.Operation] is root's record of it. *)
Record AppOperation : Type := mkApp {
  ao_plan_id : Str;
  expected_version : Str;
  ao_config_revision : Z;
  ao_operation_id : Str;
  ao_phase_nonce : Str;
  ao_invocation_id : Str;
  ao_download : DownloadTuple;
  ao_manifest : Manifest;
  ao_phase : Str;
  ao_reason : option Str;
  finished : bool;
}.
Record AppState : Type := mkState {
  schema : Z;
  check : CheckState;
  st_candidate : option Candidate;
  st_plan : option Plan;
  st_operation : option AppOperation;
  commit_intent : option Str;
}.
Definition state_default : AppState := mkState 1 check_default None None None None.
Definition with_check (c : CheckState) (s : AppState) : AppState := mkState (schema s) c (st_candidate s) (st_plan s) (st_operation s) (commit_intent s).
Definition with_app_candidate (c : option Candidate) (s : AppState) : AppState :=
  mkState (schema s) (check s) c (st_plan s) (st_operation s) (commit_intent s).
Definition with_plan (p : option Plan) (s : AppState) : AppState := mkState (schema s) (check s) (st_candidate s) p (st_operation s) (commit_intent s).
Definition with_app_operation (o : option AppOperation) (s : AppState) : AppState :=
  mkState (schema s) (check s) (st_candidate s) (st_plan s) o (commit_intent s).
Definition with_intent (i : option Str) (s : AppState) : AppState := mkState (schema s) (check s) (st_candidate s) (st_plan s) (st_operation s) i.
(** The fields of an operation that change. *)
Definition with_progress (phase : Str) (reason : option Str) (done : bool) (o : AppOperation) : AppOperation :=
  mkApp (ao_plan_id o) (expected_version o) (ao_config_revision o) (ao_operation_id o) (ao_phase_nonce o) (ao_invocation_id o) (ao_download o)
    (ao_manifest o) phase reason done.
Definition unfinished (s : AppState) : option AppOperation := o ← st_operation s; if finished o then None else Some o.

(** What [serde_json::to_value] gives for a phase. *)
Definition phase_text (p : Phase) : Str :=
  lit match p with
      | Accepted => "accepted" | Downloading => "downloading" | Staged => "staged" | Committing => "committing"
      | Stopping => "stopping" | Starting => "starting" | Validating => "validating" | RollingBack => "rolling_back"
      | AwaitingBootRecovery => "awaiting_boot_recovery" | AwaitingReadiness => "awaiting_readiness"
      | Succeeded => "succeeded" | RolledBack => "rolled_back" | Failed => "failed" | Aborted => "aborted"
      | ManualRequired => "manual_required"
      end.

Definition succeeds {A} (m : R A) : bool := is_ok (m tt).1.
(** [validate]. *)
Definition state_valid (s : AppState) : bool :=
  bool_decide (schema s = 1) &&
  match st_plan s with
  | Some p => valid_id (plan_id p) && valid_sha256 (current_sha256 p) && bool_decide (is_Some (st_candidate s))
  | None => true
  end &&
  match st_operation s with
  | Some o =>
      valid_id (ao_plan_id o) && valid_id (ao_operation_id o) && valid_id (ao_phase_nonce o) && valid_id (ao_invocation_id o) &&
      succeeds (validate_manifest (ao_manifest o)) &&
      bool_decide (expected_version o = m_version (ao_manifest o)) && bool_decide (dl_tag (ao_download o) = m_tag (ao_manifest o))
  | None => true
  end &&
  match commit_intent s with
  | Some i => match st_operation s with Some o => bool_decide (ao_operation_id o = i) && negb (finished o) | None => false end
  | None => true
  end.
Definition STATE_LIMIT : nat := Z.to_nat (256 * 1024).
(** The length of the encoded state ([serde_json::to_vec]). *)
Class StateJson := { state_size : AppState → nat }.
(** What [update-state.json] holds: nothing, bytes that do not decode, a state. *)
Inductive File : Type := Absent | Corrupt | Holds (s : AppState).
(** [read]: [None] is an error, which I/O can always give. *)
Definition read `{StateJson} (readable : bool) (f : File) : option (option AppState) :=
  if negb readable then None
  else match f with
       | Absent => Some None
       | Corrupt => None
       | Holds s => if bool_decide (state_size s ≤ STATE_LIMIT)%nat && state_valid s then Some (Some s) else None
       end.

(** ** Random identifiers and times *)
Definition hex_char (n : Z) : Z := if bool_decide (n < 10) then 48 + n else 87 + n.
(** [format!("{b:02x}")]. *)
Definition hex_byte (b : Z) : Str := [hex_char (b / 16); hex_char (b mod 16)].
Definition id (random : list Z) : Str := random ≫= hex_byte.
Definition jitter (random ms : Z) : Z := Z.min u64_max (ms * (90 + random mod 21)) / 100.
Definition retry_backoff_ms (n : Z) (jitter : Z → Z) : Z :=
  jitter (if bool_decide (n = 1) then 300000 else if bool_decide (n = 2) then 900000 else 3600000).

(** ** Checks for releases *)
Record ReaderError : Type := mkReaderError { code : Str; retry_after_unix : option Z }.
Definition reader_error (c : Str) : ReaderError := mkReaderError c None.
Definition contract_error (e : ContractError) : ReaderError :=
  reader_error (lit match e with
    | InvalidVersion => "invalid_version" | InvalidManifest => "invalid_manifest" | ReleaseIncomplete => "release_incomplete"
    | ReleaseChanged => "release_changed" | ManualRequired_ => "manual_upgrade_required" | NotNewer => "not_newer" end).
(** A computation without state that fails with a [ReaderError]. *)
Definition F (A : Type) : Type := M unit ReaderError A.
Definition contract {A} (m : R A) : F A := λ u,
  match m u with (Ok a, u) => (Ok a, u) | (Err e, u) => (Err (contract_error e), u) | (Panic, u) => (Panic, u) | (Diverge, u) => (Diverge, u) end.
Definition ensure (c : Str) (b : bool) : F unit := if b then ret tt else fail (reader_error c).
Definition failed_check (now random : Z) (e : ReaderError) (s : AppState) : AppState :=
  let c := check s in
  let n := Z.min u32_max (failures c + 1) in
  let retry := Z.max (saturating_add u64_max now (retry_backoff_ms n (jitter random)))
                     (Z.min u64_max (default 0 (retry_after_unix e) * 1000)) in
  with_check (mkCheck (ck_validated c) (etag c) (last_check_at_ms c) (last_success_at_ms c) retry retry n (Some (code e)) false) s.
Definition version_le (a b : Version) : bool := match version_cmp a b with Gt => false | _ => true end.
Definition value {A} (m : R A) : option A := match (m tt).1 with Ok a => Some a | _ => None end.
Definition not_newer (c : Candidate) (current : BuildInfo) : bool :=
  match value (parse_version (ca_version c)), value (parse_version (b_version current)) with
  | Some a, Some b => version_le a b
  | _, _ => false
  end.
(** [error.to_string()] of [check_compatible]: the code, as [Display] writes it. *)
Definition incompatible (m : Manifest) (current : BuildInfo) (helper_protocol : Z) : option Str :=
  match (check_compatible m current helper_protocol tt).1 with Err e => Some (code (contract_error e)) | _ => None end.
Definition bound_to (c : Candidate) (a : Artifact) : bool :=
  match ca_download c with
  | Some d =>
      bool_decide (dl_tag d = ca_tag c) && bool_decide (asset_name d = a_name a) && bool_decide (dl_size d = a_size a) &&
      bool_decide (dl_sha256 d = a_sha256 a)
  | None => false
  end.
Definition with_reason (r : option Str) (c : Candidate) : Candidate :=
  mkCandidate (ca_version c) (ca_tag c) (published_at c) (notes c) r (ca_manifest c) (ca_download c).
Definition revalidate_cached_candidate (cached : option Candidate) (current : BuildInfo) (helper_protocol : Z) : F (option Candidate) :=
  match cached with
  | None => ret None
  | Some c =>
      let* version := contract (parse_version (ca_version c)) in
      let* tag := contract (parse_tag (ca_tag c)) in
      ensure (lit "invalid_cached_candidate") (bool_decide (version = tag));;;
      let* running := contract (parse_version (b_version current)) in
      if version_le version running then ret None
      else
        let* c := match ca_manifest c with
                  | None => ret (with_reason (Some (lit "manual_upgrade_required")) c)
                  | Some m =>
                      contract (validate_manifest m);;;
                      ensure (lit "invalid_cached_candidate") (bool_decide (m_version m = ca_version c) && bool_decide (m_tag m = ca_tag c));;;
                      ret (with_reason (incompatible m current helper_protocol) c)
                  end in
        if bool_decide (manual_reason c = None) then
          let* m := expect (ca_manifest c) in
          let* artifact := contract (artifact_for m (b_target current)) in
          ret (Some (if bound_to c artifact then c else with_reason (Some (lit "release_incomplete")) c))
        else ret (Some c)
  end.

(** ** The release that a check finds *)
Record ManifestDocument : Type := mkDocument { doc_manifest : Manifest; document_sha256 : Str; document_size : Z }.
Definition document_valid (d : ManifestDocument) (r : GithubRelease) : F unit :=
  contract (validate_release (doc_manifest d) r);;;
  let* asset := ok_or (reader_error (lit "release_incomplete")) (find_asset r (lit "parins-update.json")) in
  ensure (lit "release_changed")
    (bool_decide (as_size asset = document_size d) &&
     match as_digest asset with Some g => bool_decide (g = lit "sha256:" ++ document_sha256 d) | None => true end).
Inductive Latest : Type :=
  | Modified (release : GithubRelease) (published body : option Str) (etag : option Str)
  | NotModified.
(** What the reader returned for a request. *)
Definition answered {A} (r : A + ReaderError) : F A := match r with inl a => ret a | inr e => fail e end.
(** [latest] and [manifest] are the answers to the two requests. *)
Definition fetch_candidate (current : BuildInfo) (helper : Z) (etag : option Str) (validated : bool) (cached : option Candidate)
    (latest : Latest + ReaderError) (manifest : ManifestDocument + ReaderError) : F (option Candidate * option Str) :=
  let* modified := answered latest in
  match modified with
  | NotModified =>
      if validated then
        let* c := revalidate_cached_candidate cached current helper in
        ret (c, etag)
      else fail (reader_error (lit "invalid_not_modified"))
  | Modified release published body etag =>
      let* tag := contract (parse_tag (tag_name release)) in
      let* running := contract (parse_version (b_version current)) in
      if version_le tag running then ret (None, etag)
      else
        let c := mkCandidate (version_text tag) (tag_name release) published (default [] body) None None None in
        if negb (existsb (λ a, bool_decide (as_name a = lit "parins-update.json")) (assets release))
        then ret (Some (with_reason (Some (lit "manual_upgrade_required")) c), etag)
        else
          let* document := answered manifest in
          document_valid document release;;;
          let m := doc_manifest document in
          let reason := incompatible m current helper in
          let* download := match find_artifact m (b_target current) with
                           | Some artifact =>
                               let* asset := expect (find_asset release (a_name artifact)) in
                               ret (Some (mkTuple (r_id release) (tag_name release) (document_sha256 document) (as_id asset) (a_name artifact)
                                            (a_size artifact) (a_sha256 artifact)))
                           | None => ret None
                           end in
          ret (Some (mkCandidate (ca_version c) (ca_tag c) (published_at c) (notes c) reason (Some m) download), etag)
  end.

(** ** The coordinator and the files of its directory *)
Record Coordinator : Type := mkCoordinator {
  mem : AppState;
  root : option PublicStatus;
  unavailable : option Str;
  frozen : bool;
  checking : bool;
  identity : option InstalledIdentity;
  invocation : option Str;
  helper_scoped : bool;
}.
Definition with_mem (s : AppState) (c : Coordinator) : Coordinator :=
  mkCoordinator s (root c) (unavailable c) (frozen c) (checking c) (identity c) (invocation c) (helper_scoped c).
Definition with_root (r : option PublicStatus) (c : Coordinator) : Coordinator :=
  mkCoordinator (mem c) r (unavailable c) (frozen c) (checking c) (identity c) (invocation c) (helper_scoped c).
Definition with_frozen (b : bool) (c : Coordinator) : Coordinator :=
  mkCoordinator (mem c) (root c) (unavailable c) b (checking c) (identity c) (invocation c) (helper_scoped c).
Definition with_checking (b : bool) (c : Coordinator) : Coordinator :=
  mkCoordinator (mem c) (root c) (unavailable c) (frozen c) b (identity c) (invocation c) (helper_scoped c).
(** An operation on the state works on [update-state.json] and the coordinator. *)
Record Local : Type := mkLocal { state_file : File; co : Coordinator }.
(** An error is the code of an [ensure!], or any other error. *)
Inductive Failure : Type := Code (c : Str) | Other.
Definition X (A : Type) : Type := M Local Failure A.
Definition demand {S} (c : Str) (b : bool) : M S Failure unit := if b then ret tt else fail (Code c).
(** A write: [None] if it succeeds, else whether the rename had taken effect;
    and whether the file can be read after a failure. *)
Record Io : Type := mkIo { broken : option bool; reread : bool }.
Definition io_fine : Io := mkIo None true.
Definition is_some {A} (o : option A) : bool := match o with Some _ => true | None => false end.

Section coordinator.
Context `{StateJson} (current : BuildInfo).

Definition writable (s : AppState) : bool := state_valid s && bool_decide (state_size s ≤ STATE_LIMIT)%nat.
Definition save_locked (io : Io) (next : AppState) : X unit := λ l,
  let renamed := writable next && match broken io with None => true | Some b => b end in
  let file := if renamed then Holds next else state_file l in
  if writable next && negb (is_some (broken io)) then (Ok tt, mkLocal file (with_mem next (co l)))
  else
    let c := match read (reread io) file with
             | Some (Some observed) => with_mem observed (if is_some (commit_intent observed) then with_frozen true (co l) else co l)
             | _ => if is_some (commit_intent next) then with_frozen true (co l) else co l
             end in
    (Err Other, mkLocal file c).
(** The closure works on a copy of the state, which is saved if it succeeds. *)
Definition change {A} (io : Io) (f : M AppState Failure A) : X A := λ l,
  match unavailable (co l) with
  | Some _ => (Err (Code (lit "update_state_unavailable")), l)
  | None =>
      match f (mem (co l)) with
      | (Ok a, next) => (save_locked io next;;; ret a) l
      | (Err e, _) => (Err e, l)
      | (Panic, _) => (Panic, l)
      | (Diverge, _) => (Diverge, l)
      end
  end.

Definition unavailable_reason (r : option Str) : Str :=
  if bool_decide (r = Some (lit "manual_recovery_required")) then lit "manual_recovery_required"
  else if bool_decide (r = Some (lit "installation_pending")) then lit "installation_pending"
  else lit "helper_unavailable".
(** Why online updates are not possible. *)
Definition supported (c : Coordinator) : option Str :=
  match unavailable c with
  | Some reason => Some reason
  | None =>
      match identity c with
      | None => Some (lit "unsupported_installation")
      | Some i =>
          if negb (official_release (build i)) || negb (is_some (invocation c)) then Some (lit "unsupported_installation")
          else match root c with
               | None => Some (lit "helper_unavailable")
               | Some r =>
                   if negb (available (capability r)) then Some (unavailable_reason (c_reason (capability r)))
                   else if negb (bool_decide (ps_installed r = i)) || bool_decide (helper_protocol (capability r) < HELPER_PROTOCOL)
                        then Some (lit "helper_unavailable")
                        else None
               end
      end
  end.

(** ** Opening *)
Definition INITIAL_DELAY (random : Z) : Z := (60 + random mod 241) * 1000.
(** [status] is what [read_public_status] gives, [own] the identity of the
    running executable, [scoped] whether this is the directory of the managed
    installation; [now], [random] and [io] serve the first writes. *)
Definition open (readable : bool) (status : option PublicStatus) (own : option InstalledIdentity) (invocation_id : option Str) (scoped : bool)
    (now random : Z) (io : Io) (file : File) : Local :=
  let '(s, missing) := match read readable file with
                       | Some s => (default state_default s, None)
                       | None => (state_default, Some (lit "update_state_unavailable"))
                       end in
  let stale := match st_candidate s with Some c => not_newer c current | None => false end in
  let s := if stale then with_plan None (with_app_candidate None s) else s in
  let file := if stale && negb (is_some missing) && writable s && match broken io with None => true | Some b => b end then Holds s else file in
  let s := if bool_decide (next_check_at_ms (check s) ≤ now)
           then with_check (let c := check s in
                  mkCheck (ck_validated c) (etag c) (last_check_at_ms c) (last_success_at_ms c)
                    (saturating_add u64_max now (INITIAL_DELAY random)) (retry_at_ms c) (failures c) (ck_error c) (manual c)) s
           else s in
  let invocation := match invocation_id with Some v => if valid_id v then Some v else None | None => None end in
  let scoped := scoped && is_some invocation in
  let root := if scoped then status else None in
  let frozen := is_some (commit_intent s) || match root with Some r => is_some (ps_pending_launch r) | None => false end in
  mkLocal file (mkCoordinator s root missing frozen false (if scoped then own else None) invocation scoped).
(** Whether the saved cache is left alone at start. *)
Definition skip_restore (c : Coordinator) : bool :=
  match root c ≫= ps_pending_launch with
  | Some l => skip_cache_restore l || negb (bool_decide (identity c = Some (pl_identity l)))
  | None => is_some (commit_intent (mem c))
  end.

(** ** The checks *)
Record UpdatesConfig : Type := mkUpdates { auto_check : bool; check_interval_hours : Z }.
Definition persistence_failed (now random : Z) : X unit := λ l,
  (Ok tt, mkLocal (state_file l) (with_mem (failed_check now random (reader_error (lit "update_state_unavailable")) (mem (co l))) (co l))).
(** The [Result] of a save. *)
Definition attempt {A} (m : X A) : X (option A) := λ l,
  match m l with (Ok a, l) => (Ok (Some a), l) | (Err _, l) => (Ok None, l) | (Panic, l) => (Panic, l) | (Diverge, l) => (Diverge, l) end.
Definition due (c : Coordinator) (auto : bool) (now : Z) : bool :=
  negb (is_some (unavailable c)) && negb (checking c) && (auto || manual (check (mem c))) &&
  bool_decide (retry_at_ms (check (mem c)) ≤ now) && bool_decide (next_check_at_ms (check (mem c)) ≤ now).
(** The error has the time to retry at. *)
Definition request_check (now random : Z) (io : Io) : X (unit + Str * Z) :=
  let* l := get in
  match unavailable (co l) with
  | Some reason => ret (inr (reason, 0))
  | None =>
      if checking (co l) then ret (inl tt)
      else
        let s := mem (co l) in
        let retry := retry_at_ms (check s) in
        if bool_decide (now < retry) then ret (inr (lit "rate_limited", retry))
        else
          let c := check s in
          let next := with_check (mkCheck (ck_validated c) (etag c) (last_check_at_ms c) (last_success_at_ms c) now retry (failures c) (ck_error c) true) s in
          let* saved := attempt (save_locked io next) in
          match saved with
          | Some _ => ret (inl tt)
          | None =>
              persistence_failed now random;;;
              let* l := get in
              ret (inr (lit "update_state_unavailable", retry_at_ms (check (mem (co l)))))
          end
  end.
(** The first half of [perform_check_with]: the state the fetch starts from. *)
Definition begin_check (settings : UpdatesConfig) (now random : Z) (io : Io) : X (option AppState) :=
  let* l := get in
  if negb (due (co l) (auto_check settings) now) then ret None
  else
    let old := mem (co l) in
    let c := check old in
    let next := with_check (mkCheck (ck_validated c) (etag c) (Some now) (last_success_at_ms c) (next_check_at_ms c)
                              (saturating_add u64_max now 60000) (failures c) (ck_error c) false) old in
    let* saved := attempt (save_locked io next) in
    match saved with
    | Some _ => (λ l, (Ok tt, mkLocal (state_file l) (with_checking true (co l))));;; ret (Some old)
    | None => persistence_failed now random;;; ret None
    end.
(** What the result of the fetch does to the state. *)
Definition checked (settings : UpdatesConfig) (revision now random : Z) (plan_random : list Z) (ready : bool) (current_sha : option Str)
    (result : option Candidate * option Str + ReaderError) (s : AppState) : AppState :=
  match result with
  | inr e => failed_check now random e s
  | inl (candidate, tag) =>
      let c := check s in
      let next := saturating_add u64_max now (jitter random (check_interval_hours settings * 3600000)) in
      let s := with_check (mkCheck true tag (last_check_at_ms c) (Some now) next (retry_at_ms c) 0 None (manual c)) (with_app_candidate candidate s) in
      if is_some (unfinished s) then s
      else with_plan (if ready && match candidate with Some c => negb (is_some (manual_reason c)) | None => false end
                      then sha ← current_sha; Some (mkPlan (id plan_random) (as_u64 (now + 1800000)) revision sha)
                      else None) s
  end.
(** The second half, after which the guard clears the flag. *)
Definition end_check (settings : UpdatesConfig) (revision now random : Z) (plan_random : list Z) (ready : bool) (current_sha : option Str)
    (result : option Candidate * option Str + ReaderError) (io : Io) : X unit :=
  let* l := get in
  let* saved := attempt (save_locked io (checked settings revision now random plan_random ready current_sha result (mem (co l)))) in
  (if is_some saved then ret tt else persistence_failed now random);;;
  (λ l, (Ok tt, mkLocal (state_file l) (with_checking false (co l)))).

(** ** Accepting a plan *)
Record Apply : Type := mkApply { in_plan_id : Str; in_expected_version : Str }.
(** The operation that a new plan becomes. *)
Definition new_operation (input : Apply) (invocation : Str) (revision : Z) (id1 id2 : list Z) (m : Manifest) (d : DownloadTuple) : AppOperation :=
  mkApp (in_plan_id input) (in_expected_version input) revision (id id1) (id id2) invocation d m (lit "accepted") None false.
Definition accept_new (c : Coordinator) (own : InstalledIdentity) (invocation : Str) (input : Apply) (revision : Z) (ready : bool) (now : Z)
    (id1 id2 : list Z) : M AppState Failure Str :=
  match supported c with Some reason => fail (Code reason) | None => ret tt end;;;
  demand (lit "update_in_progress") (negb (frozen c));;;
  demand (lit "readiness_failed") ready;;;
  let* s := get in
  let* plan := ok_or (Code (lit "plan_expired")) (st_plan s) in
  demand (lit "plan_expired") (bool_decide (plan_id plan = in_plan_id input) && bool_decide (now < expires_at_ms plan));;;
  demand (lit "plan_expired") (bool_decide (current_sha256 plan = sha256 own));;;
  let* candidate := ok_or (Code (lit "release_incomplete")) (st_candidate s) in
  demand (lit "manual_upgrade_required")
    (bool_decide (ca_version candidate = in_expected_version input) && negb (is_some (manual_reason candidate)));;;
  let* manifest := ok_or (Code (lit "release_incomplete")) (ca_manifest candidate) in
  let* download := ok_or (Code (lit "release_incomplete")) (ca_download candidate) in
  let o := new_operation input invocation revision id1 id2 manifest download in
  put (with_plan None (with_app_operation (Some o) s));;;
  ret (ao_operation_id o).
Definition accept_change (c : Coordinator) (own : InstalledIdentity) (invocation : Str) (input : Apply) (revision : Z) (ready : bool) (now : Z)
    (id1 id2 : list Z) : M AppState Failure Str :=
  let* s := get in
  match st_operation s with
  | Some o =>
      if bool_decide (ao_plan_id o = in_plan_id input) then
        demand (lit "plan_conflict") (bool_decide (expected_version o = in_expected_version input));;;
        ret (ao_operation_id o)
      else demand (lit "update_in_progress") (finished o);;; accept_new c own invocation input revision ready now id1 id2
  | None => accept_new c own invocation input revision ready now id1 id2
  end.
Definition accept (input : Apply) (revision : Z) (ready : bool) (now : Z) (id1 id2 : list Z) (io : Io) : X Str :=
  let* l := get in
  let* own := ok_or (Code (lit "unsupported_installation")) (identity (co l)) in
  let* invocation := ok_or (Code (lit "unsupported_installation")) (invocation (co l)) in
  change io (accept_change (co l) own invocation input revision ready now id1 id2).

(** ** What an operation does to the state *)
Definition set_phase (o : AppOperation) (phase : Str) (reason : option Str) (io : Io) : X unit :=
  change io (
    let* s := get in
    let* current := ok_or (Code (lit "operation_missing")) (st_operation s) in
    demand (lit "operation_changed") (bool_decide (ao_operation_id current = ao_operation_id o));;;
    put (with_app_operation (Some (with_progress phase reason (finished current) current)) s)).
(** The commit intent, saved before the request is sent. *)
Definition intend (o : AppOperation) (io : Io) : X unit :=
  change io (
    let* s := get in
    let* current := ok_or (Code (lit "operation_missing")) (st_operation s) in
    demand (lit "operation_changed") (bool_decide (ao_operation_id current = ao_operation_id o) && negb (finished current));;;
    put (with_intent (Some (ao_operation_id o))
           (with_app_operation (Some (with_progress (lit "committing") (ao_reason current) (finished current) current)) s))).

(** ** What root's status says of the operation

    [reconcile] only reads, then makes one change of the state, then thaws. *)
Inductive Decision : Type :=
  | Nothing
  | Unfreeze
  | Interrupt (o : AppOperation)
  | Close (o : AppOperation) (t : OperationStatus).
(** Root runs the program that this process is and has nothing open. *)
Definition at_rest (c : Coordinator) (r : PublicStatus) : bool :=
  negb (is_some (ps_pending_launch r)) && negb (is_some (active_operation r)) && bool_decide (identity c = Some (ps_installed r)).
Definition superseded (c : Coordinator) (r : PublicStatus) (o : AppOperation) : bool :=
  match invocation c with Some i => negb (bool_decide (i = ao_invocation_id o)) | None => false end &&
  at_rest c r && negb (bool_decide (c_reason (capability r) = Some (lit "installation_pending"))) &&
  negb (is_some (commit_intent (mem c))) && negb (is_some (terminal_for r (ao_operation_id o) (ao_phase_nonce o))).
Definition decide_reconcile (c : Coordinator) (status : option PublicStatus) : Decision :=
  match status with
  | None => Nothing
  | Some r =>
      if match st_operation (mem c) with Some o => finished o | None => true end && negb (is_some (commit_intent (mem c))) then
        if at_rest c r && (available (capability r) || bool_decide (c_reason (capability r) = Some (lit "unsupported_installation")))
        then Unfreeze else Nothing
      else match st_operation (mem c) with
           | None => Nothing
           | Some o =>
               if superseded c r o then Interrupt o
               else match terminal_for r (ao_operation_id o) (ao_phase_nonce o) with
                    | None => Nothing
                    | Some t => if bool_decide (phase t = ManualRequired) || negb (at_rest c r) then Nothing else Close o t
                    end
           end
  end.
Definition interrupt (o : AppOperation) (io : Io) : X unit :=
  change io (
    let* s := get in
    demand (lit "update_in_progress") (negb (is_some (commit_intent s)));;;
    let* current := ok_or (Code (lit "operation_missing")) (st_operation s) in
    demand (lit "operation_changed") (bool_decide (ao_operation_id current = ao_operation_id o));;;
    put (with_app_operation (Some (with_progress (lit "failed") (Some (lit "interrupted")) true current)) s)).
(** The reason that the application gave for its own abort is kept. *)
Definition closed (t : OperationStatus) (o : AppOperation) : AppOperation :=
  let own_abort := bool_decide (phase t = Aborted) && bool_decide (ao_phase o = lit "aborting") && is_some (ao_reason o) in
  with_progress (phase_text (phase t)) (if own_abort then ao_reason o else reason t) true o.
Definition close (o : AppOperation) (t : OperationStatus) (io : Io) : X bool :=
  change io (
    let* s := get in
    match st_operation s with
    | Some current =>
        if bool_decide (ao_operation_id current = ao_operation_id o)
        then put (with_intent None (with_app_operation (Some (closed t current)) s));;; ret true
        else ret false
    | None => ret false
    end).
End coordinator.
