(* ===== verification/CoordinatorSafe.v ===== *)
(** * What operations on the coordinator's state keep

    An operation whose commit intent is saved stays as it is, in the file and in
    memory, through every operation on the state except root's verdict; and no
    operation on the state thaws. *)
From S2P Require Import Prelude Std Canonical BlockAnswer Policy Text Release Journal Coordinator.
Set Default Goal Selector "!".
Set Warnings "-rewrite-rw".
Local Open Scope Z_scope.
Local Open Scope rust_scope.

(** Operation [i] with nonce [n], accepted under revision [r], is to be
    committed. *)
Definition holds (i n : Str) (r : Z) (s : AppState) : Prop :=
  commit_intent s = Some i ∧
  ∃ o, st_operation s = Some o ∧ ao_operation_id o = i ∧ ao_phase_nonce o = n ∧ ao_config_revision o = r ∧ finished o = false.
Definition file_holds (i n : Str) (r : Z) (f : File) : Prop := ∃ s, f = Holds s ∧ holds i n r s.
Definition keeps (i n : Str) (r : Z) (l : Local) : Prop := file_holds i n r (state_file l) ∧ holds i n r (mem (co l)).

(** The fields of an operation that never change: identifier, nonce, revision
    and invocation. *)
Definition key (o : AppOperation) : Str * Str * Z * Str := (ao_operation_id o, ao_phase_nonce o, ao_config_revision o, ao_invocation_id o).
Lemma holds_core i n r s s' : commit_intent s' = commit_intent s → st_operation s' = st_operation s → holds i n r s → holds i n r s'.
Proof. unfold holds. by intros -> ->. Qed.

(** No operation changes what the coordinator is, nor thaws it. *)
Definition same_side (c c' : Coordinator) : Prop :=
  unavailable c' = unavailable c ∧ identity c' = identity c ∧ invocation c' = invocation c ∧ helper_scoped c' = helper_scoped c ∧
  (frozen c = true → frozen c' = true).
#[export] Instance same_side_preorder : PreOrder same_side.
Proof. unfold same_side. split; red; naive_solver congruence. Qed.
Lemma same_side_mem s c : same_side c (with_mem s c).
Proof. done. Qed.
Lemma same_side_checking b c : same_side c (with_checking b c).
Proof. done. Qed.
#[export] Hint Resolve same_side_mem same_side_checking : parins.

Ltac split_if := match goal with |- context [if ?b then _ else _] => destruct b eqn:? end.

Section state.
Context `{StateJson} (current : BuildInfo).

(** ** Saving *)
Inductive Saved (io : Io) (next : AppState) (l : Local) : outcome Failure unit → Local → Prop :=
  | saved_ok : writable next = true → broken io = None → Saved io next l (Ok tt) (mkLocal (Holds next) (with_mem next (co l)))
  | saved_err file c :
      file = state_file l ∨ writable next = true ∧ file = Holds next →
      mem c = mem (co l) ∨ file = Holds (mem c) →
      same_side (co l) c → checking c = checking (co l) →
      Saved io next l (Err Other) (mkLocal file c).
Lemma save_spec io next l : Saved io next l (save_locked io next l).1 (save_locked io next l).2.
Proof.
  unfold save_locked. set (file := if writable next && match broken io with None => true | Some b => b end then Holds next else state_file l).
  destruct (writable next && negb (is_some (broken io))) eqn:Hok; simpl.
  { apply andb_prop in Hok as [Hw Hb]. unfold file. destruct (broken io) eqn:E; [done|]. rewrite Hw. by constructor. }
  apply saved_err.
  - unfold file. destruct (writable next) eqn:Hw; simpl; [|by left]. destruct (broken io) as [[]|]; eauto.
  - clearbody file. destruct (read (reread io) file) as [[s|]|] eqn:Hr; simpl.
    + right. unfold read in Hr. destruct (negb (reread io)); [done|]. destruct file as [| |s']; [done..|].
      destruct (bool_decide (state_size s' ≤ STATE_LIMIT)%nat && state_valid s'); [|done]. injection Hr as ->. by destruct (is_some (commit_intent s)).
    + left. by destruct (is_some (commit_intent next)).
    + left. by destruct (is_some (commit_intent next)).
  - destruct (read (reread io) file) as [[s|]|]; simpl; split_if; unfold same_side; simpl; naive_solver.
  - destruct (read (reread io) file) as [[s|]|]; simpl; by split_if.
Qed.

Lemma wp_attempt {A} (m : X A) (Q : Local → Prop) l : wp m (λ _, Q) (λ _, Q) l → wp (attempt m) (λ _, Q) (λ _, Q) l.
Proof. rewrite /wp /attempt. by destruct (m l) as [[] ?]. Qed.

(** A property of states that the file and the memory have; whether a file
    without a state has it as well is left open. *)
Section keep.
Context (P : AppState → Prop) (FP : File → Prop) (FPok : ∀ s, FP (Holds s) ↔ P s).
Definition both (l : Local) : Prop := FP (state_file l) ∧ P (mem (co l)).
Notation good l := (λ _ l', both l' ∧ same_side (co l) (co l')).

Lemma wp_save io next l : both l → P next → wp (save_locked io next) (good l) (good l) l.
Proof.
  intros [Hf Hm] Hn. pose proof (save_spec io next l) as Hspec. rewrite /wp.
  destruct (save_locked io next l) as [o l']. simpl in Hspec. destruct Hspec as [Hw Hb|file c Hfile Hmem Hside Hchk].
  - split; [|apply same_side_mem]. split; [by apply FPok|done].
  - split; [|done]. assert (FP file) as Hfile'.
    { destruct Hfile as [->|[_ ->]]; [done|]. by apply FPok. }
    split; [done|]. simpl. destruct Hmem as [->|Hmem]; [done|]. apply FPok. by rewrite -Hmem.
Qed.

Lemma wp_change {A} io (f : M AppState Failure A) l :
  both l → wp f (λ _ s, P s) (λ _ _, True) (mem (co l)) → wp (change io f) (good l) (good l) l.
Proof.
  intros Hl Hf. unfold change. rewrite /wp. destruct (unavailable (co l)).
  { by split. }
  rewrite /wp in Hf. destruct (f (mem (co l))) as [[a|e| |] next]; try done.
  pose proof (wp_save io next l Hl Hf) as Hs. rewrite /wp in Hs. rewrite /bind.
  by destruct (save_locked io next l) as [[] ?].
Qed.

Context (Pcore : ∀ s s', commit_intent s' = commit_intent s → st_operation s' = st_operation s → P s → P s').

Lemma wp_persistence_failed now random l : both l → wp (persistence_failed now random) (good l) (good l) l.
Proof. intros [Hf Hm]. split; [|by apply same_side_mem]. split; [done|]. simpl. by eapply Pcore; [..|exact Hm]. Qed.

Lemma wp_request_check now random io l : both l → wp (request_check now random io) (good l) (good l) l.
Proof.
  intros Hl. unfold request_check. wp_pure. destruct (unavailable (co l)); [by split|].
  destruct (checking (co l)); [by split|]. destruct (bool_decide _); [by split|].
  apply wp_bind. eapply wp_mono; [| |apply wp_attempt, wp_save; [exact Hl|]].
  - intros [] l' [Hl' Hside]; [by split|]. wp_pure.
    eapply wp_mono; [| |by apply wp_persistence_failed].
    + intros _ l'' [Hl'' Hside']. wp_pure. split; [done|]. by etrans.
    + intros _ l'' [Hl'' Hside']. split; [done|]. by etrans.
  - done.
  - by eapply Pcore; [..|apply Hl].
Qed.

Lemma wp_begin_check settings now random io l : both l → wp (begin_check settings now random io) (good l) (good l) l.
Proof.
  intros Hl. unfold begin_check. wp_pure. destruct (negb _); [by split|].
  apply wp_bind. eapply wp_mono; [| |apply wp_attempt, wp_save; [exact Hl|]].
  - intros [] l' [Hl' Hside]; wp_pure.
    + rewrite /wp. split; [by split; apply Hl'|]. etrans; [done|]. apply same_side_checking.
    + eapply wp_mono; [| |by apply wp_persistence_failed]; intros _ l'' [Hl'' Hside'].
      * wp_pure. split; [done|]. by etrans.
      * split; [done|]. by etrans.
  - done.
  - by eapply Pcore; [..|apply Hl].
Qed.

Lemma checked_core settings rev now random plan ready sha result s :
  commit_intent (checked settings rev now random plan ready sha result s) = commit_intent s ∧
  st_operation (checked settings rev now random plan ready sha result s) = st_operation s.
Proof. unfold checked. destruct result as [[]|]; [|done]. by destruct (is_some _). Qed.

Lemma wp_end_check settings rev now random plan ready sha result io l :
  both l → wp (end_check settings rev now random plan ready sha result io) (good l) (good l) l.
Proof.
  intros Hl. unfold end_check. wp_pure.
  eapply wp_mono; [| |apply wp_attempt, wp_save; [exact Hl|]].
  - intros r l' [Hl' Hside]. wp_pure. destruct r; simpl.
    + wp_pure. rewrite /wp. split; [by split; apply Hl'|]. etrans; [done|]. apply same_side_checking.
    + eapply wp_mono; [| |by apply wp_persistence_failed]; intros _ l'' [Hl'' Hside'].
      * rewrite /wp. split; [by split; apply Hl''|]. etrans; [done|]. etrans; [done|]. apply same_side_checking.
      * split; [done|]. by etrans.
  - done.
  - pose proof (checked_core settings rev now random plan ready sha result (mem (co l))) as [??].
    by eapply Pcore; [..|apply Hl].
Qed.

(** ** Changing the operation *)
Context (Pprogress : ∀ s o phase reason, st_operation s = Some o → P s → P (with_app_operation (Some (with_progress phase reason (finished o) o)) s)).

Lemma wp_demand {S} c b (Q : unit → S → Prop) (R : Failure → S → Prop) s : (b = true → Q tt s) → (b = false → R (Code c) s) → wp (demand c b) Q R s.
Proof. destruct b; rewrite /wp /=; eauto. Qed.

Lemma wp_set_phase o phase reason io l : both l → wp (set_phase o phase reason io) (good l) (good l) l.
Proof.
  intros Hl. apply wp_change; [done|]. wp_pure. apply wp_ok_or; [|done]. intros cur Hcur.
  wp_pure. apply wp_demand; [|done]. intros _. wp_pure. by apply Pprogress; [|apply Hl].
Qed.

Lemma wp_intend o io l :
  (∀ s cur, st_operation s = Some cur → ao_operation_id cur = ao_operation_id o → finished cur = false → P s → P (with_intent (Some (ao_operation_id o)) s)) →
  both l → wp (intend o io) (good l) (good l) l.
Proof.
  intros HP Hl. apply wp_change; [done|]. wp_pure. apply wp_ok_or; [|done]. intros cur Hcur.
  wp_pure. apply wp_demand; [|done]. intros [Hid Hfin]%andb_prop. wp_pure.
  eapply HP; [done|by apply bool_decide_eq_true in Hid|by apply negb_true_iff in Hfin|].
  by apply Pprogress; [|apply Hl].
Qed.

Lemma wp_interrupt o io l :
  (∀ s cur phase reason, st_operation s = Some cur → commit_intent s = None → P s → P (with_app_operation (Some (with_progress phase reason true cur)) s)) →
  both l → wp (interrupt o io) (good l) (good l) l.
Proof.
  intros HP Hl. apply wp_change; [done|]. wp_pure. apply wp_demand; [|done]. intros Hint. wp_pure. apply wp_ok_or; [|done].
  intros cur Hcur. wp_pure. apply wp_demand; [|done]. intros _. wp_pure. eapply HP; [done| |apply Hl].
  by destruct (commit_intent (mem (co l))).
Qed.

Lemma wp_close o t io l :
  (∀ s cur, st_operation s = Some cur → ao_operation_id cur = ao_operation_id o → P s → P (with_intent None (with_app_operation (Some (closed t cur)) s))) →
  both l → wp (close o t io) (good l) (good l) l.
Proof.
  intros HP Hl. apply wp_change; [done|]. wp_pure. destruct (st_operation (mem (co l))) as [cur|] eqn:Hcur; [|by apply Hl].
  destruct (bool_decide _) eqn:Hid; [|by apply Hl]. wp_pure. eapply HP; [done|by apply bool_decide_eq_true in Hid|apply Hl].
Qed.

Lemma wp_accept_new c own inv input rev ready now id1 id2 s :
  (∀ m d, P (with_plan None (with_app_operation (Some (new_operation input inv rev id1 id2 m d)) s))) →
  wp (accept_new c own inv input rev ready now id1 id2) (λ _ s, P s) (λ _ _, True) s.
Proof.
  intros HP. unfold accept_new. apply wp_bind. destruct (supported c); [done|]. wp_pure.
  do 2 (apply wp_demand; [|done]; intros _; wp_pure).
  apply wp_ok_or; [|done]; intros plan _; wp_pure. do 2 (apply wp_demand; [|done]; intros _; wp_pure).
  apply wp_ok_or; [|done]; intros cand _; wp_pure. apply wp_demand; [|done]; intros _; wp_pure.
  apply wp_ok_or; [|done]; intros m _; wp_pure. apply wp_ok_or; [|done]; intros d _; wp_pure. apply HP.
Qed.

Lemma wp_accept input rev ready now id1 id2 io l :
  (∀ s inv m d, invocation (co l) = Some inv → match st_operation s with Some o => finished o = true | None => True end → P s →
    P (with_plan None (with_app_operation (Some (new_operation input inv rev id1 id2 m d)) s))) →
  both l → wp (accept input rev ready now id1 id2 io) (good l) (good l) l.
Proof.
  intros HP Hl. unfold accept. wp_pure. apply wp_ok_or; [intros own _|by split]. wp_pure. apply wp_ok_or; [intros inv Hinv|by split].
  apply wp_change; [done|]. unfold accept_change. wp_pure. destruct (st_operation (mem (co l))) as [o|] eqn:Ho.
  - destruct (bool_decide _).
    + wp_pure. apply wp_demand; [|done]. intros _. wp_pure. apply Hl.
    + wp_pure. apply wp_demand; [|done]. intros Hfin. apply wp_accept_new. intros m d. apply HP; [done|by rewrite Ho|apply Hl].
  - apply wp_accept_new. intros m d. apply HP; [done|by rewrite Ho|apply Hl].
Qed.
End keep.

(** ** The two properties *)
Lemma holds_progress i n r s o phase reason :
  st_operation s = Some o → holds i n r s → holds i n r (with_app_operation (Some (with_progress phase reason (finished o) o)) s).
Proof. unfold holds. intros Ho [Hi (o' & Ho' & Hid & Hn & Hr & Hf)]. split; [done|]. simplify_eq. eexists. by split. Qed.
Lemma file_holds_ok i n r s : file_holds i n r (Holds s) ↔ holds i n r s.
Proof. unfold file_holds. split; [|eauto]. by intros (s' & [= <-] & ?). Qed.

(** The operation of the state is one of these. *)
Definition among (D : Str * Str * Z * Str → Prop) (s : AppState) : Prop := ∀ o, st_operation s = Some o → D (key o).
Definition file_among (D : Str * Str * Z * Str → Prop) (f : File) : Prop := match f with Holds s => among D s | _ => True end.
Lemma among_core D s s' : commit_intent s' = commit_intent s → st_operation s' = st_operation s → among D s → among D s'.
Proof. unfold among. by intros _ ->. Qed.
Lemma among_new (D : Str * Str * Z * Str → Prop) s o : D (key o) → among D (with_plan None (with_app_operation (Some o) s)).
Proof. unfold among. intros ? o'. simpl. by intros [= <-]. Qed.
Lemma among_progress D s o phase reason done : st_operation s = Some o → among D s → among D (with_app_operation (Some (with_progress phase reason done o)) s).
Proof. unfold among. intros Ho Hs o'. simpl. intros [= <-]. by apply (Hs o). Qed.

(** An operation that leaves an intended operation, and every operation's
    identity, alone. *)
Record mild {A} (m : X A) : Prop := {
  mi_side l : same_side (co l) (co (m l).2);
  mi_keeps i n r l : keeps i n r l → keeps i n r (m l).2;
  mi_among D l : both (among D) (file_among D) l → both (among D) (file_among D) (m l).2;
}.
Lemma mild_of {A} (m : X A) :
  (∀ P FP l, (∀ s, FP (Holds s) ↔ P s) → (∀ s s', commit_intent s' = commit_intent s → st_operation s' = st_operation s → P s → P s') →
     (∀ s o phase reason, st_operation s = Some o → P s → P (with_app_operation (Some (with_progress phase reason (finished o) o)) s)) →
     (∀ s o, st_operation s = Some o → finished o = false → P s → P (with_intent (Some (ao_operation_id o)) s)) →
     (∀ s o phase reason, st_operation s = Some o → commit_intent s = None → P s → P (with_app_operation (Some (with_progress phase reason true o)) s)) →
     both P FP l → wp m (λ _ l', both P FP l' ∧ same_side (co l) (co l')) (λ _ l', both P FP l' ∧ same_side (co l) (co l')) l) →
  mild m.
Proof.
  intros Hm. split.
  - intros l. apply (wp_state m (λ l', same_side (co l) (co l'))).
    eapply wp_mono; [| |apply (Hm (λ _, True) (λ _, True)); by try split]; naive_solver.
  - intros i n r l Hl. apply (wp_state m (keeps i n r)).
    eapply wp_mono; [| |apply (Hm (holds i n r) (file_holds i n r)); [apply file_holds_ok|intros; by eapply holds_core| | | |exact Hl]].
    + by intros _ l' [??].
    + by intros _ l' [??].
    + intros s o phase reason Ho Hs. by apply holds_progress.
    + intros s o Ho Hf [Hi (o' & Ho' & Hid & Hrest)]. simplify_eq. split; [done|]. by exists o.
    + intros s o phase reason Ho Hi [Hi' _]. by rewrite Hi in Hi'.
  - intros D l Hl. apply (wp_state m (both (among D) (file_among D))).
    eapply wp_mono; [| |apply (Hm (among D) (file_among D)); [done|intros; by eapply among_core| | | |exact Hl]].
    + by intros _ l' [??].
    + by intros _ l' [??].
    + intros s o phase reason Ho Hs. by apply among_progress.
    + intros s o Ho Hf Hs. exact Hs.
    + intros s o phase reason Ho _ Hs. by apply among_progress.
Qed.
Lemma mild_request_check now random io : mild (request_check now random io).
Proof. apply mild_of. intros P FP l HFP Hcore _ _ _ Hl. by apply wp_request_check. Qed.
Lemma mild_begin_check settings now random io : mild (begin_check settings now random io).
Proof. apply mild_of. intros P FP l HFP Hcore _ _ _ Hl. by apply wp_begin_check. Qed.
Lemma mild_end_check settings rev now random plan ready sha result io : mild (end_check settings rev now random plan ready sha result io).
Proof. apply mild_of. intros P FP l HFP Hcore _ _ _ Hl. by apply wp_end_check. Qed.
Lemma mild_set_phase o phase reason io : mild (set_phase o phase reason io).
Proof. apply mild_of. intros P FP l HFP Hcore Hp _ _ Hl. by apply wp_set_phase. Qed.
Lemma mild_intend o io : mild (intend o io).
Proof.
  apply mild_of. intros P FP l HFP Hcore Hp Hi _ Hl. apply wp_intend; [done|done| |done].
  intros s cur Hcur Hid Hf Hs. rewrite -Hid. by apply Hi.
Qed.
Lemma mild_interrupt o io : mild (interrupt o io).
Proof. apply mild_of. intros P FP l HFP Hcore Hp _ Hi Hl. by apply wp_interrupt. Qed.

(** What a saved intent is. *)
Lemma intend_ok o io l l' :
  intend o io l = (Ok tt, l') →
  ∃ cur, st_operation (mem (co l)) = Some cur ∧ ao_operation_id cur = ao_operation_id o ∧
    keeps (ao_operation_id o) (ao_phase_nonce cur) (ao_config_revision cur) l'.
Proof.
  unfold intend, change. destruct (unavailable (co l)); [done|]. rewrite /get /bind /ok_or /demand /put.
  destruct (st_operation (mem (co l))) as [cur|] eqn:Hcur; [|done]. rewrite /ret /=.
  destruct (_ && _) eqn:Hc; [|done]. apply andb_prop in Hc as [Hid%bool_decide_eq_true Hfin%negb_true_iff]. simpl.
  match goal with |- context [save_locked io ?next l] => pose proof (save_spec io next l) as Hs; destruct (save_locked io next l) as [r l1] end.
  simpl in Hs. intros Heq. exists cur. split_and!; [done..|]. destruct Hs as [Hw Hb|]; [|done]. injection Heq as <-.
  assert (∀ s, commit_intent s = Some (ao_operation_id o) → st_operation s = Some (with_progress (lit "committing") (ao_reason cur) (finished cur) cur) →
    holds (ao_operation_id o) (ao_phase_nonce cur) (ao_config_revision cur) s) as Hh.
  { intros s Hi Ho. split; [done|]. eexists. by split_and!. }
  split; [eexists; split; [reflexivity|]|]; by apply Hh.
Qed.

(** A verdict that is saved. *)
Lemma close_ok o t l :
  unavailable (co l) = None → st_operation (mem (co l)) = Some o →
  let s := with_intent None (with_app_operation (Some (closed t o)) (mem (co l))) in
  writable s = true → close o t io_fine l = (Ok true, mkLocal (Holds s) (with_mem s (co l))).
Proof.
  intros Hu Ho s Hw. unfold close, change. rewrite Hu /get /bind /put /ret Ho bool_decide_true //. fold s.
  unfold save_locked. by rewrite Hw.
Qed.

(** ** A coordinator that could not read its state changes nothing *)
Lemma blind_change {A} io (f : M AppState Failure A) l : unavailable (co l) ≠ None → (change io f l).2 = l ∧ ∀ a, (change io f l).1 ≠ Ok a.
Proof. unfold change. by destruct (unavailable (co l)). Qed.
Lemma blind_request_check now random io l : unavailable (co l) ≠ None → (request_check now random io l).2 = l.
Proof. unfold request_check, get, bind. by destruct (unavailable (co l)). Qed.
Lemma blind_begin_check settings now random io l :
  unavailable (co l) ≠ None → begin_check settings now random io l = (Ok None, l).
Proof. unfold begin_check, get, bind, due. by destruct (unavailable (co l)). Qed.
Lemma blind_accept input rev ready now id1 id2 io l : unavailable (co l) ≠ None → (accept input rev ready now id1 id2 io l).2 = l.
Proof.
  intros Hu. unfold accept, get, bind, ok_or. destruct (identity (co l)); [|done]. destruct (invocation (co l)); [|done]. simpl.
  rewrite /ret. by apply blind_change.
Qed.

(** ** Opening *)
Definition opened (readable : bool) (f : File) : AppState * bool :=
  match read readable f with Some s => (default state_default s, true) | None => (state_default, false) end.
(** What opening leaves: the state that was read, up to the schedule and a stale
    offer. *)
Definition same_core (s s' : AppState) : Prop := commit_intent s' = commit_intent s ∧ st_operation s' = st_operation s.
Lemma open_spec readable status own inv scoped now random io f :
  let l := open current readable status own inv scoped now random io f in
  same_core (opened readable f).1 (mem (co l)) ∧ negb (is_some (unavailable (co l))) = (opened readable f).2 ∧
  (is_some (commit_intent (opened readable f).1) = true → frozen (co l) = true) ∧
  (state_file l = f ∨ (opened readable f).2 = true ∧ ∃ s, state_file l = Holds s ∧ same_core (opened readable f).1 s).
Proof.
  unfold open, opened. set (s0 := match read readable f with Some s => default state_default s | None => state_default end).
  assert (∃ missing, (match read readable f with Some s => (default state_default s, None) | None => (state_default, Some (lit "update_state_unavailable")) end) = (s0, missing) ∧
    (match read readable f with Some s => (default state_default s, true) | None => (state_default, false) end) = (s0, negb (is_some missing))) as (missing & -> & ->).
  { unfold s0. destruct (read readable f); by eexists. }
  clearbody s0. simpl. set (stale := match st_candidate s0 with Some c => _ | None => false end). clearbody stale.
  set (s1 := if stale then _ else s0). assert (same_core s0 s1) as H1 by (unfold s1; by destruct stale).
  clearbody s1. split_and!.
  - by destruct (bool_decide _).
  - done.
  - intros Hi. replace (commit_intent _) with (commit_intent s0); [by rewrite Hi|]. destruct H1 as [H1 _]. by destruct (bool_decide _).
  - destruct (stale && negb (is_some missing) && writable s1 && _) eqn:E; [right|by left]. split; [|by exists s1].
    apply andb_prop in E as [[[_ E]%andb_prop _]%andb_prop _]. done.
Qed.
Lemma open_keeps i n r readable status own inv scoped now random io f :
  let l := open current readable status own inv scoped now random io f in
  file_holds i n r f → file_holds i n r (state_file l) ∧ (unavailable (co l) = None → holds i n r (mem (co l)) ∧ frozen (co l) = true).
Proof.
  intros l Hf. destruct (open_spec readable status own inv scoped now random io f) as ([Hmi Hmo] & Hu & Hfr & Hfile).
  fold l in Hmi, Hmo, Hu, Hfr, Hfile. destruct (opened readable f) as [s0 b] eqn:Ho. simpl in *.
  assert (b = true → holds i n r s0) as Hs0.
  { destruct Hf as (s & -> & Hs). unfold opened, read in Ho. intros ->. destruct (negb readable); [done|].
    destruct (bool_decide _ && _); [|done]. by injection Ho as <-. }
  split.
  - destruct Hfile as [->|(Hb & s & Hs & Hi & Hop)]; [done|]. exists s. split; [done|]. eapply holds_core; [done..|by apply Hs0].
  - intros Hn. rewrite Hn in Hu. specialize (Hs0 (eq_sym Hu)). split; [by eapply holds_core|]. apply Hfr. destruct Hs0 as [Hi _]. by rewrite Hi.
Qed.
Lemma open_among D readable status own inv scoped now random io f :
  let l := open current readable status own inv scoped now random io f in
  file_among D f → both (among D) (file_among D) l ∧ (unavailable (co l) ≠ None → st_operation (mem (co l)) = None).
Proof.
  intros l Hf. destruct (open_spec readable status own inv scoped now random io f) as ([Hmi Hmo] & Hu & Hfr & Hfile).
  fold l in Hmi, Hmo, Hu, Hfr, Hfile. destruct (opened readable f) as [s0 b] eqn:Ho. simpl in *.
  assert (among D s0 ∧ (b = false → s0 = state_default)) as [Hs0 Hb].
  { unfold opened, read in Ho. destruct (negb readable); [by injection Ho as <- <-|].
    destruct f as [| |s]; [by injection Ho as <- <-..|]. destruct (bool_decide _ && _); by injection Ho as <- <-. }
  split; [split|].
  - destruct Hfile as [->|(_ & s & -> & Hi & Hop)]; [done|]. simpl. eapply among_core; [done..|exact Hs0].
  - eapply among_core; [done..|exact Hs0].
  - intros Hn. rewrite Hmo. destruct (unavailable (co l)); [|done]. by rewrite (Hb (eq_sym Hu)).
Qed.
End state.
