(* ===== verification/Offers.v ===== *)
(** * What is offered can be installed

    [fetch_candidate] and [revalidate_cached_candidate] of
    [src/manage/updates.rs] and the checks of [src/update/contract.rs] below
    them: what a manifest, a release and a candidate have to be, said without
    the code's checks, and that the checks decide exactly this. *)
From S2P Require Import Prelude Std Canonical BlockAnswer Policy Text Release ReleaseSafe Journal Coordinator.
Set Default Goal Selector "!".
Set Warnings "-rewrite-rw".
Local Open Scope Z_scope.
Local Open Scope rust_scope.

(** ** What an offer promises *)
Definition hex_text (t : Str) (n : nat) : Prop := length (utf8 t) = n ∧ Forall (λ c, 48 ≤ c ≤ 57 ∨ 97 ≤ c ≤ 102) (utf8 t).
(** The texts of two versions, the first of which is later. *)
Definition newer (t u : Str) : Prop :=
  ∃ v w, version_ok v ∧ version_ok w ∧ t = version_text v ∧ u = version_text w ∧
    (major w < major v ∨ major w = major v ∧ (minor w < minor v ∨ minor w = minor v ∧ patch w < patch v)).
Record artifact_ok (m : Manifest) (a : Artifact) : Prop := {
  ar_target : a_target a ∈ SUPPORTED_TARGETS;
  ar_name : a_name a = artifact_name (m_tag m) (a_target a);
  ar_size : 64 ≤ a_size a ≤ 128 * 1024 * 1024;
  ar_digest : hex_text (a_sha256 a) 64;
}.
Record manifest_ok (m : Manifest) : Prop := {
  mo_schema : m_schema m = 1;
  mo_repository : m_repository m = lit "paricafe/PariNS";
  mo_version : ∃ v, version_ok v ∧ m_version m = version_text v;
  mo_tag : m_tag m = lit "v" ++ m_version m;
  mo_commit : hex_text (m_source_commit m) 40;
  mo_contract : m_install_contract m = lit "linux-managed-updater-v1";
  mo_numbers : Forall (λ n, n ≠ 0) [m_update_protocol m; min_helper_protocol m; m_durable_contract_epoch m; m_runtime_database_format m;
                                   m_cache_snapshot_format m; m_cache_semantics m];
  mo_artifacts : Forall (artifact_ok m) (artifacts m);
  mo_targets : a_target <$> artifacts m ≡ₚ SUPPORTED_TARGETS;
}.
(** The running build can be replaced by the manifest's on this machine. *)
Record upgrades (current : BuildInfo) (helper : Z) (m : Manifest) : Prop := {
  up_newer : newer (m_version m) (b_version current);
  up_official : official_release current = true;
  up_mode : upgrade_mode m = InPlace;
  up_protocol : m_update_protocol m = b_update_protocol current;
  up_contract : m_install_contract m = b_install_contract current;
  up_helper : min_helper_protocol m ≤ helper;
  up_epoch : m_durable_contract_epoch m = b_durable_contract_epoch current;
  up_database : m_runtime_database_format m = b_runtime_database_format current;
  up_target : b_target current ∈ SUPPORTED_TARGETS;
}.
(** The asset [s] of a release has this name, size and, if given, digest. *)
Definition carries (r : GithubRelease) (s : ReleaseAsset) (name : Str) (size : Z) (digest : Str) : Prop :=
  s ∈ assets r ∧ as_name s = name ∧ as_size s = size ∧ (as_digest s = None ∨ as_digest s = Some (lit "sha256:" ++ digest)).
(** A published release whose assets are the manifest that was read and the
    artifacts this names. *)
Record published (r : GithubRelease) (doc : ManifestDocument) : Prop := {
  pu_id : r_id r ≠ 0;
  pu_final : draft r = false ∧ prerelease r = false;
  pu_tag : tag_name r = m_tag (doc_manifest doc);
  pu_assets : Forall (λ s, as_id s ≠ 0 ∧ as_state s = lit "uploaded") (assets r);
  pu_ids : NoDup (as_id <$> assets r);
  pu_names : NoDup (as_name <$> assets r);
  pu_manifest : manifest_ok (doc_manifest doc);
  pu_document : ∃ s, carries r s (lit "parins-update.json") (document_size doc) (document_sha256 doc) ∧ document_size doc ≠ 0 ∧ document_size doc ≤ 64 * 1024;
  pu_artifacts a : a ∈ artifacts (doc_manifest doc) → ∃ s, carries r s (a_name a) (a_size a) (a_sha256 a);
}.
(** The candidate and its download name what the manifest describes. *)
Record bound (current : BuildInfo) (c : Candidate) (m : Manifest) (a : Artifact) (d : DownloadTuple) : Prop := {
  bo_manifest : ca_manifest c = Some m;
  bo_version : ca_version c = m_version m;
  bo_tag : ca_tag c = m_tag m;
  bo_artifact : a ∈ artifacts m ∧ a_target a = b_target current;
  bo_download : ca_download c = Some d;
  bo_names : dl_tag d = m_tag m ∧ asset_name d = a_name a ∧ dl_size d = a_size a ∧ dl_sha256 d = a_sha256 a;
}.

(** ** The checks decide this *)
Lemma guard_ok e b u : guard e b tt = (Ok u, tt) ↔ b = true.
Proof. destruct u, b; split; done. Qed.
Lemma ok_or_ok {A} (e : ContractError) (o : option A) a : ok_or e o tt = (Ok a, tt) ↔ o = Some a.
Proof. destruct o; unfold ok_or, ret, fail; split; naive_solver. Qed.
Lemma hex_text_spec t n : valid_hex t n = true ↔ hex_text t n.
Proof.
  unfold valid_hex, hex_text. rewrite andb_true_iff bool_decide_eq_true forallb_forall Forall_forall. f_equiv. unfold hex_digit, is_digit.
  split; intros Hc c Hin; [apply list_elem_of_In, Hc in Hin|apply list_elem_of_In in Hin; apply Hc in Hin];
    rewrite orb_true_iff !bool_decide_eq_true in Hin |- *; exact Hin.
Qed.
Lemma strip_v t r : strip_prefix (lit "v") t = Some r ↔ t = lit "v" ++ r.
Proof.
  change (lit "v") with [118]. destruct t as [|c t]; simpl; [done|]. destruct (bool_decide_reflect (118 = c)); destruct t; naive_solver.
Qed.
Lemma tag_ok t v : parse_tag t tt = (Ok v, tt) ↔ version_ok v ∧ t = lit "v" ++ version_text v.
Proof.
  unfold parse_tag. rewrite run_ok. setoid_rewrite ok_or_ok. setoid_rewrite strip_v. setoid_rewrite version_roundtrip. naive_solver.
Qed.
Lemma version_text_inj v w : version_ok v → version_ok w → version_text v = version_text w → v = w.
Proof.
  intros Hv Hw He. pose proof (proj2 (version_roundtrip (version_text v) v) (conj Hv eq_refl)) as H1.
  pose proof (proj2 (version_roundtrip (version_text v) w) (conj Hw He)) as H2. congruence.
Qed.
Lemma version_gt v w : version_cmp v w = Gt ↔ major w < major v ∨ major w = major v ∧ (minor w < minor v ∨ minor w = minor v ∧ patch w < patch v).
Proof.
  unfold version_cmp, then_. destruct (Z.compare_spec (major v) (major w)), (Z.compare_spec (minor v) (minor w)), (Z.compare_spec (patch v) (patch w));
    split; intros Hx; try done; lia.
Qed.
Lemma newer_spec t u v w : parse_version t tt = (Ok v, tt) → parse_version u tt = (Ok w, tt) → newer t u ↔ version_cmp v w = Gt.
Proof.
  rewrite !version_roundtrip version_gt. intros [Hv ->] [Hw ->]. split; [|intros Hc; by exists v, w].
  intros (v' & w' & Hv' & Hw' & Hev & Hew & Hc). apply version_text_inj in Hev as <-; [|done..]. by apply version_text_inj in Hew as <-.
Qed.
Lemma version_le_spec v w : version_le v w = negb (bool_decide (version_cmp v w = Gt)).
Proof. unfold version_le. by destruct (version_cmp v w). Qed.

(** *** Manifests *)
Lemma two_targets (P : Artifact → Prop) l t1 t2 : t1 ≠ t2 →
  (length l = 2%nat ∧ (∃ a, filter (λ a, a_target a = t1) l = [a] ∧ P a) ∧ (∃ a, filter (λ a, a_target a = t2) l = [a] ∧ P a)) ↔
  Forall P l ∧ a_target <$> l ≡ₚ [t1; t2].
Proof.
  intros Hne. split.
  - intros (Hl & (a & Ha & HPa) & (b & Hb & HPb)). destruct l as [|x [|y [|]]]; try done. rewrite !filter_cons !filter_nil in Ha, Hb.
    repeat case_decide; simplify_eq/=; (split; [by rewrite !Forall_cons Forall_nil|]); first [done|apply perm_swap].
  - intros [HP Hp]. pose proof (Permutation_length Hp) as Hl. rewrite length_fmap in Hl. split; [done|].
    destruct l as [|x [|y [|]]]; try done. rewrite !Forall_cons in HP. destruct HP as (Hx & Hy & _).
    symmetry in Hp. apply Permutation_length_2_inv in Hp as [Hp|Hp]; injection Hp as Hxt Hyt; rewrite !filter_cons !filter_nil Hxt Hyt;
      repeat case_decide; simplify_eq/=; split; eexists; by split.
Qed.
Definition offered_for (m : Manifest) (t : Str) : Prop :=
  ∃ a, target_artifacts m t = [a] ∧ a_name a = artifact_name (m_tag m) t ∧ 64 ≤ a_size a ≤ 128 * 1024 * 1024 ∧ hex_text (a_sha256 a) 64.
Lemma targets_ok m l : check_targets m l tt = (Ok tt, tt) ↔ Forall (offered_for m) l.
Proof.
  induction l as [|t l IH]; cbn [check_targets]; [by rewrite Forall_nil|]. rewrite Forall_cons -IH. clear IH. unfold offered_for.
  destruct (target_artifacts m t) as [|a [|]] eqn:Ht; [by split; [|intros [(? & ? & _) _]]| |by split; [|intros [(? & ? & _) _]]].
  rewrite run_ok. setoid_rewrite guard_ok. split.
  - intros ([] & [[?%bool_decide_eq_true ?%bool_decide_eq_true]%andb_prop ?%hex_text_spec]%andb_prop & ?). split; [|done]. by exists a.
  - intros [(x & [= <-] & ? & ? & ?%hex_text_spec) ?]. exists tt. split; [|done]. by rewrite !bool_decide_true.
Qed.
Lemma offered_spec m t : t ∈ SUPPORTED_TARGETS → offered_for m t ↔ ∃ a, filter (λ a, a_target a = t) (artifacts m) = [a] ∧ artifact_ok m a.
Proof.
  intros Hin. unfold offered_for, target_artifacts. f_equiv. intros a. split; intros [Ha Hr]; (split; [done|]);
    (assert (a_target a = t) as Ht by (assert (a ∈ [a]) as Hx by left; rewrite -Ha in Hx; by apply list_elem_of_filter in Hx as [? _])).
  - destruct Hr as (? & ? & ?). split; by rewrite ?Ht.
  - destruct Hr as [_ Hn ? ?]. by rewrite Hn Ht.
Qed.
Lemma supported_ok m : length (artifacts m) = 2%nat ∧ check_targets m SUPPORTED_TARGETS tt = (Ok tt, tt) ↔
  Forall (artifact_ok m) (artifacts m) ∧ a_target <$> artifacts m ≡ₚ SUPPORTED_TARGETS.
Proof.
  rewrite targets_ok. change SUPPORTED_TARGETS with [lit "x86_64-unknown-linux-musl"; lit "aarch64-unknown-linux-musl"] at 2.
  rewrite -two_targets; [|by vm_compute]. unfold SUPPORTED_TARGETS. rewrite !Forall_cons Forall_nil !offered_spec; [tauto|set_solver..].
Qed.
Lemma manifest_spec m : validate_manifest m tt = (Ok tt, tt) ↔ manifest_ok m.
Proof.
  split.
  - intros (v & [Hv Hm]%version_roundtrip & ([] & Hg1%guard_ok & (w & [Hw Htag]%tag_ok & ([] & Hg2%guard_ok & Hc)%run_ok)%run_ok)%run_ok)%run_ok.
    repeat (apply andb_prop in Hg2 as [Hg2 ?]). apply andb_prop in Hg1 as [? ?].
    repeat match goal with H : negb _ = true |- _ => apply negb_true_iff, bool_decide_eq_false in H | H : bool_decide _ = true |- _ => apply bool_decide_eq_true in H end.
    subst w. destruct (proj1 (supported_ok m)) as [Ha Hp]; [by split|]. split; try done; [by exists v|by rewrite Htag Hm|by apply hex_text_spec|].
    by rewrite !Forall_cons Forall_nil.
  - intros [Hsc Hr (v & Hv & Hm) Ht Hcm Hic Hn Ha Hp]. destruct (proj2 (supported_ok m) (conj Ha Hp)) as [Hl Hc]. rewrite !Forall_cons in Hn.
    destruct Hn as (? & ? & ? & ? & ? & ? & _). apply run_ok. exists v. split; [by apply version_roundtrip|].
    apply run_ok. exists tt. split; [apply guard_ok; by rewrite !bool_decide_true|].
    apply run_ok. exists v. split; [apply tag_ok; by rewrite Ht Hm|]. apply run_ok. exists tt. split; [|done]. apply guard_ok. apply hex_text_spec in Hcm.
    rewrite !andb_true_iff !negb_true_iff !bool_decide_eq_true !bool_decide_eq_false. apply andb_prop in Hcm as [?%bool_decide_eq_true ?]. by split_and!.
Qed.

(** *** Builds *)
Lemma find_artifact_in m t a : find_artifact m t = Some a → a ∈ artifacts m ∧ a_target a = t.
Proof. unfold find_artifact. intros ([i x] & (Hi & Ht & _)%list_find_Some & ->)%fmap_Some. split; [by eapply list_elem_of_lookup_2|done]. Qed.
Lemma artifact_found m t : manifest_ok m → t ∈ SUPPORTED_TARGETS → ∃ a, find_artifact m t = Some a.
Proof.
  intros Hm Ht. rewrite -(mo_targets _ Hm) in Ht. apply list_elem_of_fmap in Ht as (a & -> & Ha). unfold find_artifact.
  destruct (list_find_elem_of (λ x, a_target x = a_target a) (artifacts m) a Ha eq_refl) as [[i x] Hx]. exists x. by rewrite Hx.
Qed.
Lemma artifact_supported m t a : manifest_ok m → find_artifact m t = Some a → t ∈ SUPPORTED_TARGETS.
Proof. intros Hm [Ha <-]%find_artifact_in. pose proof (mo_artifacts _ Hm) as Hf. rewrite Forall_forall in Hf. by apply Hf. Qed.
Lemma compatible_spec m current helper : check_compatible m current helper tt = (Ok tt, tt) ↔ manifest_ok m ∧ upgrades current helper m.
Proof.
  unfold check_compatible. split.
  - intros ([] & Hm%manifest_spec & (v & Hv & (w & Hw & ([] & Hg1%guard_ok%bool_decide_eq_true & ([] & Hg2%guard_ok & (a & Ha%ok_or_ok & _)%run_ok)%run_ok)%run_ok)%run_ok)%run_ok)%run_ok.
    repeat (apply andb_prop in Hg2 as [Hg2 ?]). repeat match goal with H : bool_decide _ = true |- _ => apply bool_decide_eq_true in H end.
    split; [done|]. split; try done; [by eapply newer_spec|by eapply artifact_supported].
  - intros [Hm [Hnew Ho Hmode Hp Hc Hh He Hd Ht]]. destruct (artifact_found m _ Hm Ht) as [a Ha]. pose proof Hnew as (v & w & Hv & Hw & Hev & Hew & _).
    apply run_ok. exists tt. split; [by apply manifest_spec|]. apply run_ok. exists v. split; [by apply version_roundtrip|].
    apply run_ok. exists w. split; [by apply version_roundtrip|]. apply run_ok. exists tt. split.
    { apply guard_ok, bool_decide_eq_true. eapply newer_spec; [by apply version_roundtrip|by apply version_roundtrip|done]. }
    apply run_ok. exists tt. split.
    { apply guard_ok. rewrite !andb_true_iff !bool_decide_eq_true. by split_and!. }
    apply run_ok. exists a. split; [by apply ok_or_ok|done].
Qed.
Lemma incompatible_none m current helper : incompatible m current helper = None ↔ check_compatible m current helper tt = (Ok tt, tt).
Proof.
  unfold incompatible. pose proof (total_compatible m current helper) as Ht. unfold total, wp in Ht.
  destruct (check_compatible m current helper tt) as [[[]|e| |] []]; simpl; split; naive_solver.
Qed.

(** *** Releases *)
Lemma assets_ok l : ∀ ids names, check_assets l ids names tt = (Ok tt, tt) ↔
  Forall (λ s, as_id s ≠ 0 ∧ as_state s = lit "uploaded") l ∧
  (NoDup (as_id <$> l) ∧ ∀ s, s ∈ l → as_id s ∉ ids) ∧ NoDup (as_name <$> l) ∧ ∀ s, s ∈ l → as_name s ∉ names.
Proof.
  induction l as [|s l IH]; intros ids names; cbn [check_assets].
  { split; [|done]. intros _. split_and!; [constructor|constructor|by intros s ?%elem_of_nil|constructor|by intros s ?%elem_of_nil]. }
  rewrite !fmap_cons !NoDup_cons Forall_cons. split.
  - intros ([] & Hg%guard_ok & (Hf & [Hi1 Hi2] & Hn1 & Hn2)%IH)%run_ok. rewrite !andb_true_iff !negb_true_iff bool_decide_eq_false !bool_decide_eq_true in Hg.
    set_solver.
  - intros ([[H1 H2] Hf] & [[Hi0 Hi1] Hi2] & [Hn0 Hn1] & Hn2). apply run_ok. exists tt. split.
    + apply guard_ok. rewrite !andb_true_iff !negb_true_iff bool_decide_eq_false !bool_decide_eq_true. set_solver.
    + apply IH. set_solver.
Qed.
Lemma result_bind_ok {E A B} (m : M unit E A) (k : A → M unit E B) b : (let* a := m in k a) tt = (Ok b, tt) ↔ ∃ a, m tt = (Ok a, tt) ∧ k a tt = (Ok b, tt).
Proof.
  unfold bind. destruct (m tt) as [[a|e| |] []]; split.
  all: try (by intros [=]). all: try (by intros (? & ? & ?)).
  - by exists a.
  - by intros (a' & [= ->] & Hk).
Qed.
Lemma found_asset r name s : find_asset r name = Some s → s ∈ assets r ∧ as_name s = name.
Proof. unfold find_asset. intros ([i x] & (Hi & Hn & _)%list_find_Some & ->)%fmap_Some. split; [by eapply list_elem_of_lookup_2|done]. Qed.
Lemma only_asset r s : NoDup (as_name <$> assets r) → s ∈ assets r → find_asset r (as_name s) = Some s.
Proof.
  intros Hn Hs. unfold find_asset. destruct (list_find_elem_of (λ x, as_name x = as_name s) (assets r) s Hs eq_refl) as [[i x] Hx]. rewrite Hx. simpl.
  apply list_find_Some in Hx as (Hi & Hx & _). apply list_elem_of_lookup in Hs as [k Hk].
  assert (i = k) as -> by (eapply NoDup_lookup; [exact Hn|by rewrite list_lookup_fmap Hi /= Hx|by rewrite list_lookup_fmap Hk]). congruence.
Qed.
Definition digest_given (s : ReleaseAsset) (digest : Str) : bool :=
  match as_digest s with Some d => bool_decide (d = lit "sha256:" ++ digest) | None => true end.
Lemma carries_spec r name size digest : NoDup (as_name <$> assets r) →
  (∃ s, carries r s name size digest) ↔ ∃ s, find_asset r name = Some s ∧ as_size s = size ∧ digest_given s digest = true.
Proof.
  intros Hn. f_equiv. intros s. unfold carries, digest_given. split.
  - intros (Hs & <- & ? & Hd). split; [by apply only_asset|]. split; [done|]. destruct Hd as [-> | ->]; [done|by apply bool_decide_eq_true].
  - intros ([Hs ?]%found_asset & ? & Hd). split_and!; [done..|]. destruct (as_digest s); [right|by left]. by apply bool_decide_eq_true in Hd as ->.
Qed.
Lemma listed_ok r l : NoDup (as_name <$> assets r) → check_artifacts r l tt = (Ok tt, tt) ↔ Forall (λ a, ∃ s, carries r s (a_name a) (a_size a) (a_sha256 a)) l.
Proof.
  intros Hn. induction l as [|a l IH]; cbn [check_artifacts]; [by rewrite Forall_nil|]. rewrite Forall_cons -IH carries_spec // result_bind_ok. split.
  - intros (s & Hs%ok_or_ok & ([] & [?%bool_decide_eq_true Hd]%guard_ok%andb_prop & ?)%run_ok). split; [|done]. by exists s.
  - intros [(s & ? & ? & ?) ?]. exists s. split; [by apply ok_or_ok|]. apply run_ok. exists tt. split; [|done]. apply guard_ok. by rewrite bool_decide_true.
Qed.
Lemma release_spec m r : validate_release m r tt = (Ok tt, tt) ↔
  manifest_ok m ∧ (r_id r ≠ 0 ∧ draft r = false ∧ prerelease r = false ∧ tag_name r = m_tag m) ∧
  (Forall (λ s, as_id s ≠ 0 ∧ as_state s = lit "uploaded") (assets r) ∧ NoDup (as_id <$> assets r) ∧ NoDup (as_name <$> assets r)) ∧
  (∃ s, find_asset r (lit "parins-update.json") = Some s ∧ as_size s ≠ 0 ∧ as_size s ≤ 64 * 1024) ∧
  (∀ a, a ∈ artifacts m → ∃ s, carries r s (a_name a) (a_size a) (a_sha256 a)).
Proof.
  unfold validate_release. split.
  - intros ([] & Hm%manifest_spec & ([] & Hg%guard_ok & ([] & (Hf & [Hi _] & Hn & _)%assets_ok & (s & Hs%ok_or_ok & ([] & Hd%guard_ok & Ha)%run_ok)%run_ok)%run_ok)%run_ok)%run_ok.
    rewrite !andb_true_iff !negb_true_iff bool_decide_eq_true bool_decide_eq_false in Hg. rewrite andb_true_iff negb_true_iff bool_decide_eq_true bool_decide_eq_false in Hd.
    apply listed_ok in Ha; [|done]. rewrite Forall_forall in Ha. destruct Hg as [[[? ?] ?] ?], Hd. split_and!; try done. by exists s.
  - intros (Hm & (? & ? & ? & ?) & (Hf & Hi & Hn) & (s & Hs & ? & ?) & Ha). apply run_ok. exists tt. split; [by apply manifest_spec|].
    apply run_ok. exists tt. split; [apply guard_ok; rewrite !andb_true_iff !negb_true_iff bool_decide_eq_true bool_decide_eq_false; by split_and!|].
    apply run_ok. exists tt. split; [apply assets_ok; set_solver|]. apply run_ok. exists s. split; [by apply ok_or_ok|].
    apply run_ok. exists tt. split; [apply guard_ok; rewrite andb_true_iff negb_true_iff bool_decide_eq_true bool_decide_eq_false; by split_and!|].
    apply listed_ok; [done|]. by apply Forall_forall.
Qed.
Lemma contract_ok {A} (m : R A) a : contract m tt = (Ok a, tt) ↔ m tt = (Ok a, tt).
Proof. unfold contract. destruct (m tt) as [[x|e| |] []]; split; naive_solver. Qed.
Lemma ensure_ok c b u : ensure c b tt = (Ok u, tt) ↔ b = true.
Proof. destruct u, b; split; done. Qed.
Lemma document_spec d r : document_valid d r tt = (Ok tt, tt) ↔ published r d.
Proof.
  unfold document_valid. split.
  - intros ([] & (Hm & (? & ? & ? & ?) & (Hf & Hi & Hn) & (s & Hs & ? & ?) & Ha)%contract_ok%release_spec & (s' & Hs' & [Hz%bool_decide_eq_true Hd]%ensure_ok%andb_prop)%result_bind_ok)%result_bind_ok.
    rewrite Hs in Hs'. injection Hs' as <-. split; try done. destruct (proj2 (carries_spec r (lit "parins-update.json") (document_size d) (document_sha256 d) Hn)) as [x Hx]; [by exists s|].
    exists x. split; [done|]. by rewrite -Hz.
  - intros [? [? ?] ? Hf Hi Hn Hm Hd Ha]. destruct Hd as (s & Hc & Hz1 & Hz2).
    destruct (proj1 (carries_spec r _ _ _ Hn) (ex_intro _ s Hc)) as (x & Hx & Hz & Hg). apply result_bind_ok. exists tt.
    split; [apply contract_ok, release_spec; split_and!; try done; exists x; by rewrite Hz|]. apply result_bind_ok. exists x. split; [by rewrite Hx|].
    apply ensure_ok. rewrite bool_decide_true; [|done]. exact Hg.
Qed.

(** ** What a check offers *)
Lemma total_assets l ids names : total unit (check_assets l ids names).
Proof. revert ids names. induction l as [|a l IH]; intros ids names; cbn [check_assets]; [done|]. apply total_bind; [apply total_guard|done]. Qed.
Lemma total_artifacts r l : total unit (check_artifacts r l).
Proof.
  induction l as [|a l IH]; cbn [check_artifacts]; [done|]. apply total_bind; [apply total_ok_or|intros s]. apply total_bind; [apply total_guard|done].
Qed.
Lemma total_release m r : total unit (validate_release m r).
Proof.
  apply total_bind; [apply total_manifest|intros _]. apply total_bind; [apply total_guard|intros _]. apply total_bind; [apply total_assets|intros _].
  apply total_bind; [apply total_ok_or|intros a]. apply total_bind; [apply total_guard|intros _]. apply total_artifacts.
Qed.
Lemma wp_contract {A} (m : R A) (Q : A → unit → Prop) (E : ReaderError → unit → Prop) u :
  total A m → (∀ a, m tt = (Ok a, tt) → Q a tt) → (∀ e, m tt = (Err e, tt) → E (contract_error e) tt) → wp (contract m) Q E u.
Proof. destruct u. unfold total, wp, contract. destruct (m tt) as [[a|e| |] []]; eauto. Qed.
Lemma wp_required c b (Q : unit → unit → Prop) (E : ReaderError → unit → Prop) u : (b = true → Q tt tt) → (b = false → E (reader_error c) tt) → wp (ensure c b) Q E u.
Proof. destruct u, b; rewrite /wp /=; eauto. Qed.
Lemma document_wp d r (E : ReaderError → unit → Prop) : (∀ e, E e tt) → wp (document_valid d r) (λ _ _, published r d) E tt.
Proof.
  intros HE. assert (wp (document_valid d r) (λ _ _, True) (λ _ _, True) tt) as Ht.
  { apply wp_bind, wp_contract; [apply total_release|intros _ _|done]. apply wp_bind, wp_ok_or; [intros s _|done]. by apply wp_required. }
  pose proof (document_spec d r) as Hs. unfold wp in *. destruct (document_valid d r tt) as [[[]|e| |] []]; [|apply HE|done..]. by apply Hs.
Qed.
Definition installable (current : BuildInfo) (helper : Z) (c : Candidate) (m : Manifest) (a : Artifact) (d : DownloadTuple) : Prop :=
  manifest_ok m ∧ upgrades current helper m ∧ bound current c m a d.
(** The release and the document that the candidate was made from. *)
Definition from_release (r : GithubRelease) (doc : ManifestDocument) (m : Manifest) (a : Artifact) (d : DownloadTuple) : Prop :=
  published r doc ∧ doc_manifest doc = m ∧ release_id d = r_id r ∧ manifest_sha256 d = document_sha256 doc ∧
  ∃ s, carries r s (a_name a) (a_size a) (a_sha256 a) ∧ as_id s = asset_id d.

Lemma revalidate_offers cached current helper :
  wp (revalidate_cached_candidate cached current helper)
    (λ r _, ∀ c, r = Some c → manual_reason c = None → (∃ c0, cached = Some c0 ∧ c = with_reason None c0) ∧ ∃ m a d, installable current helper c m a d)
    (λ _ _, True) tt.
Proof.
  unfold revalidate_cached_candidate. destruct cached as [c0|]; [|done].
  apply wp_bind, wp_contract; [apply total_version|intros v _|done]. apply wp_bind, wp_contract; [apply total_tag|intros tag _|done].
  apply wp_bind, wp_required; [intros _|done]. apply wp_bind, wp_contract; [apply total_version|intros run _|done].
  destruct (version_le v run); [done|]. apply wp_bind.
  destruct (ca_manifest c0) as [m|] eqn:Hm; [|apply wp_ret, wp_ret; by intros c [= <-]].
  apply wp_bind, wp_contract; [apply total_manifest|intros _ _|done]. apply wp_bind, wp_required; [intros Hb|done]. apply wp_ret.
  apply andb_prop in Hb as [Hv%bool_decide_eq_true Ht%bool_decide_eq_true]. simpl. destruct (incompatible m current helper) as [why|] eqn:Hinc; simpl.
  { apply wp_ret. by intros c [= <-]. }
  apply incompatible_none, compatible_spec in Hinc as [Hok Hup]. apply wp_bind. eapply wp_expect; [exact Hm|].
  apply wp_bind, wp_contract; [apply total_ok_or|intros a Ha%ok_or_ok%find_artifact_in|done]. apply wp_ret. intros c.
  destruct (bound_to _ a) eqn:Hb; [|by intros [= <-]]. intros [= <-] _. split; [by exists c0|]. unfold bound_to in Hb. simpl in Hb.
  destruct (ca_download c0) as [d|] eqn:Hd; [|done]. rewrite !andb_true_iff !bool_decide_eq_true in Hb. destruct Hb as [[[? ?] ?] ?].
  exists m, a, d. split; [done|]. split; [done|]. split; try done. by split_and!; [congruence|..].
Qed.
Lemma fresh_offers current helper release published_ body tag doc : published release doc → upgrades current helper (doc_manifest doc) → ∀ etag validated cached,
  ∃ c, fetch_candidate current helper etag validated cached (inl (Modified release published_ body tag)) (inl doc) tt = (Ok (Some c, tag), tt) ∧ manual_reason c = None.
Proof.
  intros Hpub Hup etag validated cached. pose proof (pu_manifest _ _ Hpub) as Hm. destruct (mo_version _ Hm) as (v & Hv & Hmv).
  destruct (up_newer _ _ _ Hup) as (v' & w & Hv' & Hw & Hev & Hew & Hc). rewrite Hmv in Hev. apply version_text_inj in Hev as <-; [|done..].
  destruct (artifact_found _ _ Hm (up_target _ _ _ Hup)) as [a Ha].
  destruct (proj1 (carries_spec release _ _ _ (pu_names _ _ Hpub)) (pu_artifacts _ _ Hpub a (proj1 (find_artifact_in _ _ _ Ha)))) as (x & Hx & _).
  eexists. split.
  - unfold fetch_candidate. apply result_bind_ok. eexists. split; [reflexivity|]. cbv beta iota.
    apply result_bind_ok. exists v. split; [apply contract_ok, tag_ok; by rewrite (pu_tag _ _ Hpub) (mo_tag _ Hm) Hmv|].
    apply result_bind_ok. exists w. split; [by apply contract_ok, version_roundtrip|].
    rewrite version_le_spec bool_decide_true; [|by apply version_gt]. cbv beta iota zeta. cbn [negb].
    assert (existsb (λ a0, bool_decide (as_name a0 = lit "parins-update.json")) (assets release) = true) as ->.
    { destruct (pu_document _ _ Hpub) as (s & (Hs & Hn & _) & _). apply existsb_exists. exists s. split; [by apply list_elem_of_In|by apply bool_decide_eq_true]. }
    cbn [negb]. apply result_bind_ok. exists doc. split; [reflexivity|]. apply result_bind_ok. exists tt. split; [by apply document_spec|].
    apply result_bind_ok. rewrite Ha. eexists. split; [|reflexivity]. unfold expect. rewrite Hx. reflexivity.
  - simpl. by apply incompatible_none, compatible_spec.
Qed.

Section claims.
Context (current : BuildInfo) (helper : Z).

(** C16. Whatever the release server answers and whatever was cached, a check
    ends without a panic, and a release it finds needs no upgrade by hand only
    if it is installable. The manifest is of this repository, its tag is its
    version, it has exactly one artifact per supported machine with the name
    of the tag, a size within the limit and a hash; its version is later than
    the running one; the running build is an official release and the upgrade
    in place keeps its protocol, contract and formats; and the download names
    the artifact for this machine. If the server sent the release anew, it is
    published, its assets are distinct, uploaded and as large, and with the
    hash, as the manifest says, the manifest that was read is its asset, and
    the download names this release and asset; if not, the candidate is the
    cached one, checked again. Conversely a published release of such a
    manifest is offered. *)
Theorem offer_installable etag validated cached latest manifest :
  wp (fetch_candidate current helper etag validated cached latest manifest)
    (λ r _, ∀ c, r.1 = Some c → manual_reason c = None → ∃ m a d, installable current helper c m a d ∧
       match latest with
       | inl (Modified release _ _ _) => ∃ doc, manifest = inl doc ∧ from_release release doc m a d
       | inl NotModified => validated = true ∧ ∃ c0, cached = Some c0 ∧ c = with_reason None c0
       | inr _ => False
       end) (λ _ _, True) tt ∧
  ∀ release published_ body tag doc, latest = inl (Modified release published_ body tag) → manifest = inl doc →
    published release doc → upgrades current helper (doc_manifest doc) →
    ∃ c, fetch_candidate current helper etag validated cached latest manifest tt = (Ok (Some c, tag), tt) ∧ manual_reason c = None.
Proof.
  split; [|intros release published_ body tag doc -> -> ??; by apply fresh_offers].
  unfold fetch_candidate. apply wp_bind. destruct latest as [[release published_ body tag|]|e]; [| |done]; apply wp_ret.
  2:{ destruct validated; [|done]. apply wp_bind. eapply wp_mono; [| |apply revalidate_offers]; [|done]. intros r [] Hr. apply wp_ret.
      intros c Hc Hno. destruct (Hr c Hc Hno) as [Hc0 (m & a & d & Hi)]. by exists m, a, d. }
  apply wp_bind, wp_contract; [apply total_tag|intros v [Hv Htag]%tag_ok|done]. apply wp_bind, wp_contract; [apply total_version|intros run _|done].
  destruct (version_le v run); [by apply wp_ret|]. cbv zeta. destruct (negb _); [apply wp_ret; by intros c [= <-]|].
  apply wp_bind. destruct manifest as [doc|e]; [|done]. apply wp_ret. apply wp_bind. eapply wp_mono; [| |apply (document_wp _ _ (λ _ _, True)); done]; [|done]. intros [] [] Hpub.
  set (m := doc_manifest doc). pose proof (pu_manifest _ _ Hpub) as Hman.
  assert (tag_name release = m_tag m ∧ version_text v = m_version m) as [Ht Hver].
  { split; [by apply Hpub|]. pose proof (pu_tag _ _ Hpub) as Hpt. rewrite Htag (mo_tag _ Hman) in Hpt. by apply app_inv_head in Hpt. }
  destruct (find_artifact m (b_target current)) as [a|] eqn:Ha.
  - destruct (find_artifact_in _ _ _ Ha) as [Hin Hat]. apply wp_bind, wp_bind.
    destruct (proj1 (carries_spec release _ _ _ (pu_names _ _ Hpub)) (pu_artifacts _ _ Hpub a Hin)) as (x & Hx & Hsize & Hdig).
    eapply wp_expect; [exact Hx|]. apply wp_ret. cbv beta. apply wp_ret. intros c [= <-] [Hok Hup]%incompatible_none%compatible_spec.
    eexists m, a, _. split; [split; [done|split; [done|split; try done; by split_and!]]|]. exists doc. split; [done|]. do 4 (split; [done|]).
    exists x. split; [|done]. destruct (found_asset _ _ _ Hx). split_and!; [done..|]. unfold digest_given in Hdig. destruct (as_digest x); [right|by left].
    by apply bool_decide_eq_true in Hdig as ->.
  - apply wp_bind, wp_ret. cbv beta. apply wp_ret. intros c [= <-] [Hok Hup]%incompatible_none%compatible_spec.
    destruct (artifact_found m _ Hok (up_target _ _ _ Hup)) as [a Ha']. congruence.
Qed.
End claims.

(** ** A release that is offered *)
Module OffersWitness.
Definition HASH : Str := repeat 97 64.
Definition running : BuildInfo :=
  mkBuild (lit "1.0.0") (lit "x86_64-unknown-linux-musl") (repeat 99 40) true 1 4 (lit "linux-managed-updater-v1") 1 1 1 1.
Definition artifact (t : Str) : Artifact := mkArtifact t (artifact_name (lit "v1.1.0") t) 4096 HASH.
Definition next : Manifest :=
  mkManifest 1 (lit "paricafe/PariNS") (lit "1.1.0") (lit "v1.1.0") (repeat 99 40) 1 (lit "linux-managed-updater-v1") 4 1 1 1 1 InPlace
    (artifact <$> SUPPORTED_TARGETS).
Definition document : ManifestDocument := mkDocument next HASH 900.
Definition asset (i : Z) (name : Str) (size : Z) : ReleaseAsset := mkAsset i name (lit "uploaded") size (Some (lit "sha256:" ++ HASH)).
Definition release : GithubRelease :=
  mkRelease 7 (lit "v1.1.0") false false
    [asset 8 (lit "parins-update.json") 900; asset 9 (artifact_name (lit "v1.1.0") (lit "x86_64-unknown-linux-musl")) 4096;
     asset 10 (artifact_name (lit "v1.1.0") (lit "aarch64-unknown-linux-musl")) 4096].
Lemma checks : document_valid document release tt = (Ok tt, tt) ∧ check_compatible next running 4 tt = (Ok tt, tt).
Proof. split; vm_compute; reflexivity. Qed.
Lemma published_release : published release document.
Proof. apply document_spec, checks. Qed.
Lemma upgrades_running : upgrades running 4 (doc_manifest document).
Proof. by apply compatible_spec, checks. Qed.
Lemma offer_installable_witness : ∃ c m a d,
  fetch_candidate running 4 None false None (inl (Modified release None None None)) (inl document) tt = (Ok (Some c, None), tt) ∧
  installable running 4 c m a d ∧ from_release release document m a d.
Proof.
  destruct (offer_installable running 4 None false None (inl (Modified release None None None)) (inl document)) as [Hsound Hoffer].
  destruct (Hoffer release None None None document eq_refl eq_refl published_release upgrades_running) as (c & Hc & Hno).
  unfold wp in Hsound. rewrite Hc in Hsound. destruct (Hsound c eq_refl Hno) as (m & a & d & Hi & doc & Hdoc & Hr).
  injection Hdoc as <-. exists c, m, a, d. split; [exact Hc|]. split; [exact Hi|exact Hr].
Defined.
End OffersWitness.
