(* ===== verification/UpdateTasks.v ===== *)
(** * The coordinator of updates: its tasks

    [src/manage/updates/operation.rs] with the mutation permit of
    [src/manage/mod.rs]: the poller that follows root's status, the worker that
    stages and commits an accepted operation, the checker, and the handlers of
    the API that need the permit. Each step is the code between two points where
    another task may run; a write of a file ends well or fails before or after
    the rename, and the process may end anywhere. Root is the environment: its
    status is whatever the reads return, and it takes requests from the inbox. *)
From S2P Require Import Prelude Std Canonical BlockAnswer Policy Text Release Journal Coordinator.
Set Default Goal Selector "!".
Set Warnings "-rewrite-rw".
Local Open Scope Z_scope.
Local Open Scope rust_scope.

(** ** The preflight's report *)
Record CheckReport : Type := mkReport {
  ck_config_revision : Z;
  configuration : Str;
  rule_files : Str;
  subscriptions : Str;
  certificates : Str;
  upstream_ca : Str;
}.
#[export] Instance CheckReport_eq_dec : EqDecision CheckReport.
Proof. solve_decision. Defined.
Record ManagedCheckOutput : Type := mkOutput { mo_check : CheckReport; build_info : BuildInfo }.
Definition differences (a b : CheckReport) : list Str :=
  map fst (filter (λ d, d.2 = false) [
    (lit "revision", bool_decide (ck_config_revision a = ck_config_revision b));
    (lit "configuration", bool_decide (configuration a = configuration b));
    (lit "rule_files", bool_decide (rule_files a = rule_files b));
    (lit "subscriptions", bool_decide (subscriptions a = subscriptions b));
    (lit "certificates", bool_decide (certificates a = certificates b));
    (lit "upstream_ca", bool_decide (upstream_ca a = upstream_ca b))]).

(** ** The saved configuration *)
Record Stored : Type := mkStored { username : Str; password_hash : Str; toml : Str; st_previous : option Str; revision : Z }.
(** What the handlers that hold the permit do to it: [PUT /api/config] and the
    rollback ([None]), the setup, and a change of credentials. *)
Inductive Mutation : Type :=
  | PutConfig (document : option Str) (expected : Z)
  | Setup (user hash document : Str)
  | Credentials (user hash : Str).
Definition next_stored (saved : option Stored) (m : Mutation) : option Stored :=
  match m, saved with
  | PutConfig document expected, Some s =>
      if bool_decide (expected = revision s) then
        t ← match document with Some t => Some t | None => st_previous s end;
        if bool_decide (revision s + 1 ≤ u64_max) then Some (mkStored (username s) (password_hash s) t (Some (toml s)) (revision s + 1)) else None
      else None
  | Setup user hash document, None => Some (mkStored user hash document None 1)
  | Credentials user hash, Some s => Some (mkStored user hash (toml s) (st_previous s) (revision s))
  | _, _ => None
  end.

(** ** Tasks *)
(** Who holds the mutation permit; a handler has seen the freeze flag clear or
    not yet looked. *)
Inductive Holder : Type := HPoller | HWorker | HRequest (cleared : bool).
#[export] Instance Holder_eq_dec : EqDecision Holder.
Proof. solve_decision. Defined.
(** Where the poller is. *)
Inductive Polling : Type :=
  | PIdle
  | PDecide (st : option PublicStatus)
  | PSettle (st : option PublicStatus) (d : Decision)
  | PThaw (st : option PublicStatus)
  | PBeat (st : option PublicStatus)
  | PReceipt (r : PublicStatus) (l : PendingLaunch)
  | PLook (l : PendingLaunch)
  | PRecover (l : PendingLaunch)
  | PLaunch
  | PAbort (o : AppOperation)
  | PAbortSend (o : AppOperation).
(** Where the worker is in [stage_and_commit]. *)
Inductive Working : Type :=
  | JStage | JDownloading | JWait | JPreflight | JBaseline
  | JCandidate (baseline : CheckReport)
  | JAcquire (baseline : CheckReport)
  | JCurrent (baseline : CheckReport)
  | JRoot (baseline : CheckReport)
  | JMaterial (baseline : CheckReport)
  | JIntend | JFreeze | JSend
  | JAborting (why : Str) | JAbortSend | JDone.
Record Job : Type := mkJob { j_op : AppOperation; j_at : Working }.
Inductive Checking : Type :=
  | CIdle
  | CFetching (settings : UpdatesConfig) (rev : Z) (old : AppState)
  | CFetched (settings : UpdatesConfig) (rev : Z) (result : option Candidate * option Str + ReaderError) (ready : bool) (sha : option Str).
Record Process : Type := mkProcess {
  coordinator : Coordinator;
  saved : option Stored;
  permit : option Holder;
  poller : Polling;
  launched : option Str;
  job : option Job;
  checker : Checking;
  sequence : Z;
  pid : Z;
  stopping : bool;
}.
Definition with_coordinator (c : Coordinator) (p : Process) : Process :=
  mkProcess c (saved p) (permit p) (poller p) (launched p) (job p) (checker p) (sequence p) (pid p) (stopping p).
Definition with_saved (s : option Stored) (p : Process) : Process :=
  mkProcess (coordinator p) s (permit p) (poller p) (launched p) (job p) (checker p) (sequence p) (pid p) (stopping p).
Definition with_permit (h : option Holder) (p : Process) : Process :=
  mkProcess (coordinator p) (saved p) h (poller p) (launched p) (job p) (checker p) (sequence p) (pid p) (stopping p).
Definition with_poller (q : Polling) (p : Process) : Process :=
  mkProcess (coordinator p) (saved p) (permit p) q (launched p) (job p) (checker p) (sequence p) (pid p) (stopping p).
Definition with_job (l : option Str) (j : option Job) (p : Process) : Process :=
  mkProcess (coordinator p) (saved p) (permit p) (poller p) l j (checker p) (sequence p) (pid p) (stopping p).
Definition with_checker (k : Checking) (p : Process) : Process :=
  mkProcess (coordinator p) (saved p) (permit p) (poller p) (launched p) (job p) k (sequence p) (pid p) (stopping p).
Definition with_sequence (n : Z) (p : Process) : Process :=
  mkProcess (coordinator p) (saved p) (permit p) (poller p) (launched p) (job p) (checker p) n (pid p) (stopping p).
Definition with_stopping (p : Process) : Process :=
  mkProcess (coordinator p) (saved p) (permit p) (poller p) (launched p) (job p) (checker p) (sequence p) (pid p) true.
Definition set_co (f : Coordinator → Coordinator) (p : Process) : Process := with_coordinator (f (coordinator p)) p.

(** ** The machine

    The log, newest first, is what the theorems speak of. [sighted] is a process
    that could read its state file when it started. *)
Inductive Event : Type :=
  | Opened (own : option InstalledIdentity)
  | Drawn (key : Str * Str * Z * Str)
  | Configured (sighted : bool) (rev : Z)
  | Reported (c : CheckReport)
  | CandidateReported (c : ManagedCheckOutput)
  | Observed (r : PublicStatus)
  | Intended (o : AppOperation)
  | Requested (i : Inbox)
  | Judged (own : option InstalledIdentity) (r : PublicStatus)
  | Receipt (h : Health).
Record World : Type := mkWorld {
  app_file : File;
  config_file : option Stored;
  inbox_file : option Inbox;
  health_file : option Health;
  process : option Process;
  log : list Event;
}.
Definition run (p : Process) (w : World) : World := mkWorld (app_file w) (config_file w) (inbox_file w) (health_file w) (Some p) (log w).
Definition note (e : Event) (w : World) : World := mkWorld (app_file w) (config_file w) (inbox_file w) (health_file w) (process w) (e :: log w).
Definition sighted (p : Process) : bool := negb (is_some (unavailable (coordinator p))).
(** An operation on the state, run by a task. *)
Definition on_state {A} (m : X A) (w : World) (p : Process) : option A * World * Process :=
  let '(r, l) := m (mkLocal (app_file w) (coordinator p)) in
  (match r with Ok a => Some a | _ => None end,
   mkWorld (state_file l) (config_file w) (inbox_file w) (health_file w) (process w) (log w), with_coordinator (co l) p).
(** [Coordinator::inbox], and the write of a recovery request. *)
Definition send (broken : option bool) (i : Inbox) (w : World) : World :=
  if match broken with None => true | Some b => b end
  then mkWorld (app_file w) (config_file w) (Some i) (health_file w) (process w) (Requested i :: log w) else w.
Definition inbox (o : AppOperation) (r : Request) : Inbox := mkInbox 1 (ao_operation_id o) (ao_phase_nonce o) r.
(** What a step learns from outside: how its write ends, what it reads, and
    whether a deadline has passed, a receipt is due or the service is ready. *)
Record Turn : Type := mkTurn {
  t_io : Io;
  t_status : option PublicStatus;
  t_report : option ManagedCheckOutput;
  t_flag : bool;
  t_generation : Z;
  t_health : bool * bool * bool;
}.
Definition quiet : Turn := mkTurn io_fine None None false 0 (false, false, false).

Section tasks.
Context `{StateJson} (current : BuildInfo).

(** ** The poller *)
Definition receipt (t : Turn) (p : Process) (own : InstalledIdentity) (inv : Str) (l : PendingLaunch) (n : Z) : Health :=
  let '(ready, healthy, applied) := t_health t in
  mkHealth (pl_operation_id l) (launch_nonce l) own (match saved p with Some s => revision s | None => 0 end) (t_generation t) ready healthy applied n
    (pid p) inv.
Definition awaits_recovery (r : PublicStatus) (l : PendingLaunch) : bool :=
  bool_decide (pl_phase l = AwaitingReadiness) && negb (bool_decide (c_reason (capability r) = Some (lit "installation_pending"))).
(** The request that asks root to verify a recovered launch. *)
Definition recovery (l : PendingLaunch) : Inbox := mkInbox 1 (pl_operation_id l) (pl_phase_nonce l) VerifyRecovery.
Definition settle (d : Decision) (io : Io) : X bool :=
  match d with Interrupt o => interrupt o io;;; ret true | Close o t => close o t io | _ => ret false end.
Definition poll (t : Turn) (w : World) (p : Process) : option World :=
  match poller p with
  | PIdle =>
      if stopping p then None
      else
        let st := if helper_scoped (coordinator p) then t_status t else None in
        let p := set_co (with_root st) p in
        Some (run (if is_some (permit p) then with_poller (PBeat st) p else with_permit (Some HPoller) (with_poller (PDecide st) p)) w)
  | PDecide st =>
      let d := decide_reconcile (coordinator p) st in
      Some (match d with
            | Nothing => run (with_permit None (with_poller (PBeat st) p)) w
            | Unfreeze => run (with_poller (PThaw st) p) w
            | Interrupt _ => run (with_poller (PSettle st d) p) w
            | Close _ _ =>
                let w := match st with Some r => note (Judged (identity (coordinator p)) r) w | None => w end in
                run (with_poller (PSettle st d) p) w
            end)
  | PSettle st d =>
      let '(r, w, p) := on_state (settle d (t_io t)) w p in
      Some (match r with
            | Some true => run (with_poller (PThaw st) p) w
            | _ => run (with_permit None (with_poller (PBeat st) p)) w
            end)
  | PThaw st => Some (run (with_permit None (with_poller (PBeat st) (set_co (with_frozen false) p))) w)
  | PBeat st =>
      match st with
      | Some r =>
          match ps_pending_launch r with
          | Some l =>
              if t_flag t then
                let p := set_co (with_frozen true) p in
                Some (run (with_poller (if bool_decide (identity (coordinator p) = Some (pl_identity l)) && is_some (invocation (coordinator p))
                                        then PReceipt r l else PLaunch) p) w)
              else Some (run (with_poller PLaunch p) w)
          | None => Some (run (with_poller PLaunch p) w)
          end
      | None => Some (run (with_poller PLaunch p) w)
      end
  | PReceipt r l =>
      match identity (coordinator p), invocation (coordinator p) with
      | Some own, Some inv =>
          if bool_decide (u64_max < sequence p + 1) then Some (run (with_poller PLaunch p) w)
          else
            let p := with_sequence (sequence p + 1) p in
            let h := receipt t p own inv l (sequence p) in
            let w := if match broken (t_io t) with None => true | Some b => b end
                     then mkWorld (app_file w) (config_file w) (inbox_file w) (Some h) (process w) (Receipt h :: log w) else w in
            Some (run (with_poller (if negb (is_some (broken (t_io t))) && awaits_recovery r l
                                    then PLook l else PLaunch) p) w)
      | _, _ => Some (run (with_poller PLaunch p) w)
      end
  | PLook l => Some (run (with_poller (if t_flag t && negb (is_some (inbox_file w)) then PRecover l else PLaunch) p) w)
  | PRecover l => Some (run (with_poller PLaunch p) (send (broken (t_io t)) (recovery l) w))
  | PLaunch =>
      let done := match job p with Some j => match j_at j with JDone => true | _ => false end | None => true end in
      let inv := default [] (invocation (coordinator p)) in
      let p := if done then with_job (launched p) None p else p in
      Some (match unfinished (mem (coordinator p)) with
            | Some o =>
                if done && negb (bool_decide (launched p = Some (ao_operation_id o))) then
                  if bool_decide (ao_invocation_id o = inv) && bool_decide (ao_phase o = lit "accepted")
                  then run (with_poller PIdle (with_job (Some (ao_operation_id o)) (Some (mkJob o JStage)) p)) w
                  else
                    let next := if negb (bool_decide (ao_invocation_id o = inv)) || negb (frozen (coordinator p)) then PAbort o else PIdle in
                    run (with_poller next (with_job (Some (ao_operation_id o)) None p)) w
                else run (with_poller PIdle p) w
            | None => run (with_poller PIdle p) w
            end)
  | PAbort o =>
      let '(_, w, p) := on_state (set_phase o (lit "aborting") (Some (lit "interrupted")) (t_io t)) w p in
      Some (run (with_poller (PAbortSend o) p) w)
  | PAbortSend o => Some (run (with_poller PIdle p) (send (broken (t_io t)) (inbox o Abort_) w))
  end.

(** ** The worker *)
Definition goto (j : Job) (k : Working) (p : Process) : Process := with_job (launched p) (Some (mkJob (j_op j) k)) p.
Definition bail_out (j : Job) (why : Str) (p : Process) : Process :=
  goto j (JAborting why) (if bool_decide (permit p = Some HWorker) then with_permit None p else p).
Definition staged_for (o : AppOperation) (r : PublicStatus) : bool :=
  match active_operation r with
  | Some s => bool_decide (operation_id s = ao_operation_id o) && bool_decide (phase_nonce s = ao_phase_nonce o) && bool_decide (phase s = Staged)
  | None => false
  end.
(** [current]: the configuration is still the one the plan was accepted under. *)
Definition pinned (o : AppOperation) (p : Process) (ready : bool) : bool := bool_decide (revision <$> saved p = Some (ao_config_revision o)) && ready.
Definition phased (j : Job) (text : Str) (next : Working) (t : Turn) (w : World) (p : Process) : World :=
  let '(r, w, p) := on_state (set_phase (j_op j) text None (t_io t)) w p in
  run (match r with Some _ => goto j next p | None => bail_out j (lit "update_state_unavailable") p end) w.
Definition work (t : Turn) (j : Job) (w : World) (p : Process) : option World :=
  let o := j_op j in
  let stay k := Some (run (goto j k p) w) in
  let stop why := Some (run (bail_out j why p) w) in
  match j_at j with
  | JStage =>
      match identity (coordinator p) with
      | None => stop (lit "unsupported_installation")
      | Some own =>
          let w := send (broken (t_io t)) (inbox o (Stage (ao_download o) (sha256 own) (ao_invocation_id o) (ao_config_revision o))) w in
          Some (run (if is_some (broken (t_io t)) then bail_out j (lit "helper_unavailable") p else goto j JDownloading p) w)
      end
  | JDownloading => Some (phased j (lit "downloading") JWait t w p)
  | JWait =>
      if stopping p then stop (lit "interrupted")
      else match root (coordinator p) with
           | Some r =>
               if staged_for o r then stay JPreflight
               else if is_some (terminal_for r (ao_operation_id o) (ao_phase_nonce o)) then stay JDone
               else if t_flag t then stop (lit "helper_unavailable") else stay JWait
           | None => if t_flag t then stop (lit "helper_unavailable") else stay JWait
           end
  | JPreflight => Some (phased j (lit "preflight") JBaseline t w p)
  | JBaseline =>
      match t_report t with
      | Some m => Some (run (goto j (JCandidate (mo_check m)) p) (note (Reported (mo_check m)) w))
      | None => stop (lit "preflight_failed")
      end
  | JCandidate baseline =>
      match t_report t with
      | Some m =>
          let w := note (CandidateReported m) w in
          Some (run (if bool_decide (differences baseline (mo_check m) = []) && matches_build (ao_manifest o) (build_info m)
                     then goto j (JAcquire baseline) p else bail_out j (lit "preflight_failed") p) w)
      | None => stop (lit "preflight_failed")
      end
  | JAcquire baseline =>
      if is_some (permit p) then None
      else if stopping p then stop (lit "interrupted")
      else Some (run (goto j (JCurrent baseline) (with_permit (Some HWorker) p)) w)
  | JCurrent baseline => if pinned o p (t_flag t) then stay (JRoot baseline) else stop (lit "config_changed")
  | JRoot baseline =>
      match t_status t with
      | Some r =>
          let w := note (Observed r) w in
          Some (run (if bool_decide (identity (coordinator p) = Some (ps_installed r)) && staged_for o r
                     then goto j (JMaterial baseline) p else bail_out j (lit "verification_failed") p) w)
      | None => stop (lit "helper_unavailable")
      end
  | JMaterial baseline =>
      match t_report t with
      | Some m =>
          let w := note (Reported (mo_check m)) w in
          Some (run (if bool_decide (mo_check m = baseline) then goto j JIntend p else bail_out j (lit "config_changed") p) w)
      | None => stop (lit "preflight_failed")
      end
  | JIntend =>
      if pinned o p (t_flag t) then
        let '(r, w, p) := on_state (intend o (t_io t)) w p in
        Some (match r with
              | Some _ => run (goto j JFreeze p) (note (Intended o) w)
              | None => run (bail_out j (lit "update_state_unavailable") p) w
              end)
      else stop (lit "config_changed")
  | JFreeze => Some (run (goto j JSend (set_co (with_frozen true) p)) w)
  | JSend =>
      let w := send (broken (t_io t)) (inbox o (Commit (ao_invocation_id o) (ao_config_revision o))) w in
      Some (run (if is_some (broken (t_io t)) then bail_out j (lit "helper_unavailable") p else goto j JDone (with_permit None p)) w)
  | JAborting why =>
      let '(_, w, p) := on_state (set_phase o (lit "aborting") (Some why) (t_io t)) w p in
      Some (run (goto j JAbortSend p) w)
  | JAbortSend => Some (run (goto j JDone p) (send (broken (t_io t)) (inbox o Abort_) w))
  | JDone => None
  end.

(** ** Everything that can happen *)
Inductive Action : Type :=
  | Open (readable : bool) (status : option PublicStatus) (own : option InstalledIdentity) (inv : option Str) (scoped : bool) (now random : Z) (io : Io) (pid : Z)
  | Crash
  | Stop
  | TakeRequest
  | Poll (t : Turn)
  | Work (t : Turn)
  | RequestCheck (now random : Z) (io : Io)
  | BeginCheck (settings : UpdatesConfig) (rev now random : Z) (io : Io)
  | Fetch (latest : Latest + ReaderError) (manifest : ManifestDocument + ReaderError)
  | EndCheck (now random : Z) (plan_random : list Z) (io : Io)
  | Accept (input : Apply) (ready : bool) (now : Z) (id1 id2 : list Z) (io : Io)
  | Admit
  | Test_
  | Mutate (m : Mutation) (applied : bool).
(** Random identifiers do not repeat: that of a new operation was not drawn
    before. *)
Definition drawn (l : list Event) : list Str := omap (λ e, match e with Drawn (i, _, _, _) => Some i | _ => None end) l.
Definition fresh (id1 : list Z) (w : World) : bool := bool_decide (id id1 ∉ drawn (log w)).
Definition fetched (latest : Latest + ReaderError) (manifest : ManifestDocument + ReaderError) (c : Coordinator) (old : AppState)
    : option (option Candidate * option Str + ReaderError) :=
  let helper := match root c with Some r => helper_protocol (capability r) | None => 0 end in
  match (fetch_candidate current helper (etag (check old)) (ck_validated (check old)) (st_candidate old) latest manifest tt).1 with
  | Ok a => Some (inl a)
  | Err e => Some (inr e)
  | _ => None
  end.
(** [POST /api/updates/check] and [POST /api/updates/apply]: the handlers that
    hold the permit from their first look to their last write. *)
Definition check_request (now random : Z) (io : Io) (w : World) (p : Process) : option World :=
  if is_some (permit p) then None else let '(_, w, p) := on_state (request_check now random io) w p in Some (run p w).
Definition accept_plan (input : Apply) (ready : bool) (now : Z) (id1 id2 : list Z) (io : Io) (w : World) (p : Process) : option World :=
  if is_some (permit p) || negb (fresh id1 w) then None
  else
    let rev := match saved p with Some s => revision s | None => 0 end in
    let w := note (Drawn (id id1, id id2, rev, default [] (invocation (coordinator p)))) w in
    let '(_, w, p) := on_state (accept input rev ready now id1 id2 io) w p in Some (run p w).
(** [mutation_permit]: the permit is taken at once or not at all, then the flag is
    read under it. *)
Definition try_acquire (w : World) (p : Process) : option World :=
  if is_some (permit p) then None else Some (run (with_permit (Some (HRequest false)) p) w).
Definition freeze_check (w : World) (p : Process) : option World :=
  if bool_decide (permit p = Some (HRequest false))
  then Some (run (with_permit (if frozen (coordinator p) then None else Some (HRequest true)) p) w) else None.
(** The transaction of an admitted handler, which may still fail before it saves. *)
Definition transact (m : Mutation) (applied : bool) (w : World) (p : Process) : option World :=
  if bool_decide (permit p = Some (HRequest true)) then
    let p := with_permit None p in
    Some (match next_stored (saved p) m with
          | Some next =>
              if applied
              then run (with_saved (Some next) p)
                     (mkWorld (app_file w) (Some next) (inbox_file w) (health_file w) (process w) (Configured (sighted p) (revision next) :: log w))
              else run p w
          | None => run p w
          end)
  else None.
(** The checker's turn, in three steps: before, at and after the requests. *)
Definition start_check (settings : UpdatesConfig) (rev now random : Z) (io : Io) (w : World) (p : Process) : option World :=
  match checker p with
  | CIdle =>
      let '(r, w, p) := on_state (begin_check settings now random io) w p in
      Some (run (match r with Some (Some old) => with_checker (CFetching settings rev old) p | _ => p end) w)
  | _ => None
  end.
Definition run_check (latest : Latest + ReaderError) (manifest : ManifestDocument + ReaderError) (w : World) (p : Process) : option World :=
  match checker p with
  | CFetching settings rev old =>
      let c := coordinator p in
      result ← fetched latest manifest c old;
      Some (run (with_checker (CFetched settings rev result (negb (is_some (supported c))) (sha256 <$> identity c)) p) w)
  | _ => None
  end.
Definition finish_check (now random : Z) (plan_random : list Z) (io : Io) (w : World) (p : Process) : option World :=
  match checker p with
  | CFetched settings rev result ready sha =>
      let '(_, w, p) := on_state (end_check settings rev now random plan_random ready sha result io) w p in
      Some (run (with_checker CIdle p) w)
  | _ => None
  end.
Definition step_process (a : Action) (w : World) (p : Process) : option World :=
  match a with
  | Open _ _ _ _ _ _ _ _ _ => None
  | Crash => Some (mkWorld (app_file w) (config_file w) (inbox_file w) (health_file w) None (log w))
  | Stop => Some (run (with_stopping p) w)
  | TakeRequest => Some (mkWorld (app_file w) (config_file w) None (health_file w) (process w) (log w))
  | Poll t => poll t w p
  | Work t => j ← job p; work t j w p
  | RequestCheck now random io => check_request now random io w p
  | BeginCheck settings rev now random io => start_check settings rev now random io w p
  | Fetch latest manifest => run_check latest manifest w p
  | EndCheck now random plan_random io => finish_check now random plan_random io w p
  | Accept input ready now id1 id2 io => accept_plan input ready now id1 id2 io w p
  | Admit => try_acquire w p
  | Test_ => freeze_check w p
  | Mutate m applied => transact m applied w p
  end.
Definition step (a : Action) (w : World) : option World :=
  match process w with
  | Some p => step_process a w p
  | None =>
      match a with
      | Open readable status own inv scoped now random io pid =>
          let l := open current readable status own inv scoped now random io (app_file w) in
          let p := mkProcess (co l) (config_file w) None PIdle None None CIdle 0 pid false in
          Some (mkWorld (state_file l) (config_file w) (inbox_file w) (health_file w) (Some p) (Opened (identity (co l)) :: log w))
      | TakeRequest => Some (mkWorld (app_file w) (config_file w) None (health_file w) None (log w))
      | _ => None
      end
  end.
Fixpoint steps (l : list Action) (w : World) : option World := match l with [] => Some w | a :: l => w ← step a w; steps l w end.
End tasks.
(** A directory before its first start. *)
Definition fresh_directory : World := mkWorld Absent None None None None [].
Definition reachable `{StateJson} (current : BuildInfo) (w : World) : Prop := ∃ l, steps current l fresh_directory = Some w.
