(* ===== verification/UpdateTasksSafe.v ===== *)
(** * From the commit request to root's verdict

    The invariant of the coordinator's machine. After a request to commit an
    operation was written, the intent stays on the disk, every process that can
    read it stays frozen, and the configuration keeps its revision, until a
    status of root gives the verdict on that operation. The worker's steps before
    the request are in the log in their order. *)
From S2P Require Import Prelude Std Canonical BlockAnswer Policy Text Release Journal Coordinator CoordinatorSafe UpdateTasks.
Set Default Goal Selector "!".
Set Warnings "-rewrite-rw".
Local Open Scope Z_scope.
Local Open Scope rust_scope.

(** ** What the theorems speak of *)
Definition commit_request (i n inv : Str) (r : Z) : Event := Requested (mkInbox 1 i n (Commit inv r)).
(** Root's verdict: a terminal phase of this operation, other than the one that
    asks for manual recovery, from a root at rest with the program that runs. *)
Definition verdict (own : option InstalledIdentity) (r : PublicStatus) (i n : Str) : Prop :=
  ps_pending_launch r = None ∧ active_operation r = None ∧ own = Some (ps_installed r) ∧
  ∃ t, terminal_for r i n = Some t ∧ phase t ≠ ManualRequired.
Definition judged (i n : Str) (l : list Event) : Prop := ∃ own r, Judged own r ∈ l ∧ verdict own r i n.
Definition settling (q : Polling) : bool := match q with PSettle _ _ | PThaw _ => true | _ => false end.
Definition deciding (q : Polling) : bool := match q with PDecide _ => true | _ => settling q end.
Definition critical (k : Working) : bool := match k with JCurrent _ | JRoot _ | JMaterial _ | JIntend | JFreeze | JSend => true | _ => false end.
Definition standing (p : Process) (i n : Str) (r : Z) : Prop :=
  holds i n r (mem (coordinator p)) ∧ frozen (coordinator p) = true ∧ permit p ≠ Some (HRequest true) ∧ settling (poller p) = false.
Definition standing_in (w : World) (i n : Str) (r : Z) : Prop :=
  file_holds i n r (app_file w) ∧ ∀ p, process w = Some p → sighted p = true → standing p i n r.
Definition settled_config (w : World) (new : list Event) (r : Z) : Prop :=
  (∀ rev, Configured true rev ∉ new) ∧
  ((∀ rev, Configured false rev ∉ new) → revision <$> config_file w = Some r ∧ ∀ h, Receipt h ∈ new → h_config_revision h = r).
Definition guarded (w : World) : Prop := ∀ new i n inv r past,
  log w = new ++ commit_request i n inv r :: past → judged i n new ∨ standing_in w i n r ∧ settled_config w new r.

(** ** The worker's trail *)
Definition alive (e : Event) : bool := match e with Opened _ => false | _ => true end.
Definition calm (e : Event) : bool := match e with Opened _ | Configured _ _ => false | _ => true end.
(** An event of this kind is followed by events of [ok] only, and preceded by
    what [before] asks. *)
Definition since (ok : Event → bool) (P : Event → Prop) (before : list Event → Prop) (l : list Event) : Prop :=
  ∃ new e past, l = new ++ e :: past ∧ forallb ok new = true ∧ P e ∧ before past.
Definition started (own : option InstalledIdentity) : list Event → Prop := since alive (λ e, e = Opened own) (λ _, True).
Definition reported (own : option InstalledIdentity) (b : CheckReport) : list Event → Prop := since alive (λ e, e = Reported b) (started own).
Definition verified (own : option InstalledIdentity) (o : AppOperation) (b : CheckReport) : list Event → Prop :=
  since alive (λ e, ∃ m, e = CandidateReported m ∧ differences b (mo_check m) = [] ∧ matches_build (ao_manifest o) (build_info m) = true) (reported own b).
Definition seen (own : option InstalledIdentity) (o : AppOperation) (b : CheckReport) : list Event → Prop :=
  since calm (λ e, ∃ r, e = Observed r ∧ own = Some (ps_installed r) ∧ staged_for o r = true) (verified own o b).
Definition again (own : option InstalledIdentity) (o : AppOperation) (b : CheckReport) : list Event → Prop :=
  since calm (λ e, e = Reported b) (seen own o b).
Definition intended (own : option InstalledIdentity) (o : AppOperation) (b : CheckReport) : list Event → Prop :=
  since calm (λ e, e = Intended o) (again own o b).
Definition trail (own : option InstalledIdentity) (j : Job) (l : list Event) : Prop :=
  match j_at j with
  | JCandidate b => reported own b l
  | JAcquire b | JCurrent b | JRoot b => verified own (j_op j) b l
  | JMaterial b => seen own (j_op j) b l
  | JIntend => ∃ b, again own (j_op j) b l
  | JFreeze | JSend => ∃ b, intended own (j_op j) b l
  | _ => True
  end.
Definition earned (w : World) : Prop := ∀ new i n inv r past,
  log w = new ++ commit_request i n inv r :: past →
  ∃ own o b, ao_operation_id o = i ∧ ao_phase_nonce o = n ∧ ao_invocation_id o = inv ∧ ao_config_revision o = r ∧ intended own o b past.

(** ** The invariant *)
Definition local (w : World) (p : Process) : Local := mkLocal (app_file w) (coordinator p).
Record job_ok (w : World) (p : Process) (j : Job) : Prop := {
  jo_worker : critical (j_at j) = true → permit p = Some HWorker;
  jo_drawn : Drawn (key (j_op j)) ∈ log w;
  jo_intended : j_at j = JFreeze ∨ j_at j = JSend →
    keeps (ao_operation_id (j_op j)) (ao_phase_nonce (j_op j)) (ao_config_revision (j_op j)) (local w p) ∧
    revision <$> saved p = Some (ao_config_revision (j_op j));
  jo_frozen : j_at j = JSend → frozen (coordinator p) = true;
  jo_trail : trail (identity (coordinator p)) j (log w);
}.
Record PInv (w : World) (p : Process) : Prop := {
  pi_config : config_file w = saved p;
  pi_drawn : among (λ k, Drawn k ∈ log w) (mem (coordinator p));
  pi_started : started (identity (coordinator p)) (log w);
  pi_poller : deciding (poller p) = true → permit p = Some HPoller;
  pi_blind : sighted p = false → job p = None ∧ checker p = CIdle ∧ st_operation (mem (coordinator p)) = None;
  pi_job j : job p = Some j → job_ok w p j;
}.
Record Inv (w : World) : Prop := {
  i_fresh : NoDup (drawn (log w));
  i_file : file_among (λ k, Drawn k ∈ log w) (app_file w);
  i_guarded : guarded w;
  i_earned : earned w;
  i_process p : process w = Some p → PInv w p;
}.

(** ** Lists of events *)
Lemma push_cases {A} (e x : A) l new past : e :: l = new ++ x :: past → new = [] ∧ e = x ∧ l = past ∨ ∃ new', new = e :: new' ∧ l = new' ++ x :: past.
Proof. destruct new as [|e' new']; simpl; [naive_solver|]. intros [= <- ->]. eauto. Qed.
Lemma since_push ok P before e l : ok e = true → since ok P before l → since ok P before (e :: l).
Proof. intros He (new & x & past & -> & Hnew & Hx & Hp). exists (e :: new), x, past. simpl. by rewrite He Hnew. Qed.
Lemma since_now ok P before e l : P e → before l → since ok P before (e :: l).
Proof. intros. by exists [], e, l. Qed.
Lemma calm_alive e : calm e = true → alive e = true.
Proof. by destruct e. Qed.
Lemma trail_push own j e l : alive e = true → (critical (j_at j) = true → calm e = true) → trail own j l → trail own j (e :: l).
Proof.
  unfold trail. intros Ha Hc. destruct (j_at j); simpl in Hc; try done;
    [by apply since_push..| | |intros [b Hb]; exists b|intros [b Hb]; exists b|intros [b Hb]; exists b]; apply since_push; eauto.
Qed.
Lemma trail_calm own j e l : calm e = true → trail own j l → trail own j (e :: l).
Proof. intros He. apply trail_push; [by apply calm_alive|done]. Qed.
(** Events that neither draw an identifier, ask for a commit nor touch the
    configuration. *)
Definition harmless (e : Event) : bool :=
  match e with Opened _ | Drawn _ | Configured _ _ | Receipt _ | Requested (mkInbox _ _ _ (Commit _ _)) => false | _ => true end.
Lemma judged_push i n e l : judged i n l → judged i n (e :: l).
Proof. intros (own & r & Hr & Hv). exists own, r. split; [by right|done]. Qed.

Definition spares_config (e : Event) : bool := match e with Configured _ _ | Receipt _ => false | _ => true end.
Lemma settled_push w w' new r e :
  spares_config e = true → config_file w' = config_file w → settled_config w new r → settled_config w' (e :: new) r.
Proof.
  unfold settled_config. intros He -> [H1 H2]. split.
  - intros rev. rewrite not_elem_of_cons. split; [by intros <-|done].
  - intros Hno. destruct H2 as [H2 H3]. { intros rev Hin. apply (Hno rev). by right. }
    split; [done|]. intros h [Hh|Hh]%elem_of_cons; [by subst e|by apply H3].
Qed.
Lemma guarded_frame w w' :
  guarded w → (∀ i n r, standing_in w i n r → standing_in w' i n r) → config_file w' = config_file w → log w' = log w → guarded w'.
Proof.
  unfold guarded. intros Hg Hs Hc Hl new i n inv r past Hnew. rewrite Hl in Hnew.
  destruct (Hg _ _ _ _ _ _ Hnew) as [|[H1 H2]]; [by left|right]. split; [by apply Hs|]. unfold settled_config. by rewrite Hc.
Qed.
Lemma guarded_event w w' e :
  guarded w → (∀ i n r, standing_in w i n r → standing_in w' i n r) → config_file w' = config_file w → log w' = e :: log w → harmless e = true →
  guarded w'.
Proof.
  unfold guarded. intros Hg Hs Hc Hl He new i n inv r past Hnew. rewrite Hl in Hnew.
  apply push_cases in Hnew as [(-> & -> & <-)|(new' & -> & Hnew)]; [done|].
  destruct (Hg _ _ _ _ _ _ Hnew) as [|[H1 H2]]; [left; by apply judged_push|right]. split; [by apply Hs|].
  eapply settled_push; [by destruct e|done..].
Qed.
Lemma earned_frame w w' : earned w → log w' = log w → earned w'.
Proof. unfold earned. by intros ? ->. Qed.
Definition is_commit (e : Event) : bool := match e with Requested (mkInbox _ _ _ (Commit _ _)) => true | _ => false end.
Lemma earned_event w w' e : earned w → log w' = e :: log w → is_commit e = false → earned w'.
Proof.
  unfold earned. intros Hg Hl He new i n inv r past. rewrite Hl.
  intros [(-> & -> & <-)|(new' & -> & Hnew)]%push_cases; [done|by eapply Hg].
Qed.

(** ** Frames

    While root's verdict is being settled nothing stands, so that step may thaw
    and finish the operation. *)
Record framed (w w' : World) (p p' : Process) : Prop := {
  fr_config : config_file w' = config_file w;
  fr_saved : saved p' = saved p;
  fr_sighted : sighted p' = sighted p;
  fr_identity : identity (coordinator p') = identity (coordinator p);
  fr_frozen : settling (poller p) = false → frozen (coordinator p) = true → frozen (coordinator p') = true;
  fr_keeps i n r : settling (poller p) = false → keeps i n r (local w p) → keeps i n r (local w' p');
  fr_among D : D = (λ k, Drawn k ∈ log w) → both (among D) (file_among D) (local w p) → both (among D) (file_among D) (local w' p');
  fr_blind : sighted p = false → app_file w' = app_file w ∧ mem (coordinator p') = mem (coordinator p);
}.
(** A step that leaves the state alone. *)
Lemma framed_same w w' p p' :
  config_file w' = config_file w → app_file w' = app_file w → saved p' = saved p → unavailable (coordinator p') = unavailable (coordinator p) →
  identity (coordinator p') = identity (coordinator p) → (settling (poller p) = false → frozen (coordinator p) = true → frozen (coordinator p') = true) →
  mem (coordinator p') = mem (coordinator p) → framed w w' p p'.
Proof.
  intros Hc Ha Hs Hu Hi Hf Hm. assert (∀ P FP, both P FP (local w p) → both P FP (local w' p')) as Hb.
  { unfold both, local. simpl. by rewrite Ha Hm. }
  split; try done; [by unfold sighted; rewrite Hu|intros i n r _; apply (Hb (holds i n r) (file_holds i n r))|intros D _; apply Hb].
Qed.
(** What the rest of a step does after an operation on the state. *)
Lemma framed_trans w w1 w2 p p1 p2 :
  framed w w1 p p1 → framed w1 w2 p1 p2 → poller p1 = poller p → log w1 = log w → framed w w2 p p2.
Proof.
  intros [H1 H2 H3 H4 H5 H6 H7 H8] [K1 K2 K3 K4 K5 K6 K7 K8] Hq Hj. rewrite Hq in K5, K6. rewrite Hj in K7. split; eauto; try congruence.
  intros Hsi. destruct (H8 Hsi) as [<- <-]. apply K8. congruence.
Qed.

Lemma log_grows w w' (P : Event → Prop) : log w' = log w ∨ (∃ e, log w' = e :: log w ∧ P e) → ∀ e, e ∈ log w → e ∈ log w'.
Proof. intros [->|(e' & -> & _)] e He; [done|by right]. Qed.
(** A working process stays one whose invariant holds. *)
Lemma pinv_frame w w' p p' :
  PInv w p → framed w w' p p' → file_among (λ k, Drawn k ∈ log w) (app_file w) → (log w' = log w ∨ ∃ e, log w' = e :: log w ∧ alive e = true) → (deciding (poller p') = true → permit p' = Some HPoller) → (∀ j, job p' = Some j → job_ok w' p' j) →
  (sighted p = false → job p' = None ∧ checker p' = CIdle) → PInv w' p'.
Proof.
  intros HP Hf Hfile Hlog Hpoll Hjob Hblind. split; [| | |done| |done].
  - rewrite (fr_config _ _ _ _ Hf) (fr_saved _ _ _ _ Hf). apply HP.
  - intros o Ho. apply (log_grows _ _ _ Hlog). eapply (fr_among _ _ _ _ Hf); [done| |exact Ho]. split; [done|apply HP].
  - rewrite (fr_identity _ _ _ _ Hf). destruct Hlog as [->|(e & -> & He)]; [apply HP|apply since_push; [done|apply HP]].
  - rewrite (fr_sighted _ _ _ _ Hf). intros Hsi. destruct (Hblind Hsi) as [??]. split_and!; [done..|].
    destruct (fr_blind _ _ _ _ Hf Hsi) as [_ ->]. by apply HP.
Qed.
Lemma file_frame w w' p p' :
  PInv w p → framed w w' p p' → file_among (λ k, Drawn k ∈ log w) (app_file w) → (∀ e, e ∈ log w → e ∈ log w') →
  file_among (λ k, Drawn k ∈ log w') (app_file w').
Proof.
  intros HP Hf Hfile Hlog. destruct (fr_among _ _ _ _ Hf _ eq_refl) as [H1 _]; [split; [done|apply HP]|].
  simpl in H1. destruct (app_file w'); [done..|]. intros o Ho. by apply Hlog, H1.
Qed.
Lemma drawn_plain e l : (∀ k, e ≠ Drawn k) → drawn (e :: l) = drawn l.
Proof. intros He. destruct e; try done. by edestruct He. Qed.
Lemma stand_frame w w' p p' :
  process w = Some p → process w' = Some p' → framed w w' p p' →
  (∀ i n r, sighted p = true → standing p i n r → permit p' ≠ Some (HRequest true) ∧ settling (poller p') = false) →
  ∀ i n r, standing_in w i n r → standing_in w' i n r.
Proof.
  intros Hw Hw' Hf Hst i n r [Hfile Hall]. destruct (sighted p) eqn:Hsi.
  - destruct (Hall _ Hw Hsi) as (Hh & Hfr & Hpe & Hse). destruct (fr_keeps _ _ _ _ Hf i n r) as [Hfile' Hmem']; [done|by split|].
    split; [done|]. intros p'' [= <-]%(eq_trans (eq_sym Hw')) _. destruct (Hst i n r eq_refl) as [??]; [done|].
    split_and!; [done| |done..]. by apply (fr_frozen _ _ _ _ Hf).
  - destruct (fr_blind _ _ _ _ Hf Hsi) as [Ha _]. split; [by rewrite Ha|].
    intros p'' [= <-]%(eq_trans (eq_sym Hw')). by rewrite (fr_sighted _ _ _ _ Hf) Hsi.
Qed.
Lemma harmless_not_commit e : harmless e = true → is_commit e = false.
Proof. by destruct e as [| | | | | | |[? ? ? []]| |]. Qed.
Lemma harmless_alive e : harmless e = true → alive e = true.
Proof. by destruct e. Qed.
Lemma inv_frame w w' p p' :
  Inv w → process w = Some p → process w' = Some p' → framed w w' p p' →
  (log w' = log w ∨ ∃ e, log w' = e :: log w ∧ harmless e = true) →
  (∀ i n r, sighted p = true → standing p i n r → permit p' ≠ Some (HRequest true) ∧ settling (poller p') = false) →
  (deciding (poller p') = true → permit p' = Some HPoller) →
  (∀ j, job p' = Some j → job_ok w' p' j) →
  (sighted p = false → job p' = None ∧ checker p' = CIdle) →
  Inv w'.
Proof.
  intros [Hn Ha Hg He Hp] Hw Hw' Hf Hlog Hst Hpoll Hjob Hblind. pose proof (stand_frame _ _ _ _ Hw Hw' Hf Hst) as Hstand.
  pose proof (fr_config _ _ _ _ Hf) as Hc. pose proof (log_grows _ _ _ Hlog) as Hgrow. pose proof (Hp _ Hw) as HP. split.
  - destruct Hlog as [->|(e & -> & Hh)]; [done|]. rewrite drawn_plain; [done|]. by intros k ->.
  - by eapply file_frame.
  - destruct Hlog as [Hl|(e & Hl & He')]; [by eapply guarded_frame|by eapply guarded_event].
  - destruct Hlog as [Hl|(e & Hl & He')]; [by eapply earned_frame|]. by eapply earned_event; [..|apply harmless_not_commit].
  - intros p'' [= <-]%(eq_trans (eq_sym Hw')). eapply pinv_frame; eauto.
    destruct Hlog as [|(e & ? & ?)]; [by left|right]. eauto using harmless_alive.
Qed.

(** The job goes on as it was while another task takes a step. *)
Lemma job_frame w w' p p' j :
  PInv w p → job p = Some j → framed w w' p p' → (permit p = Some HWorker → permit p' = Some HWorker) →
  (log w' = log w ∨ ∃ e, log w' = e :: log w ∧ alive e = true ∧ (permit p = Some HWorker → calm e = true)) → job_ok w' p' j.
Proof.
  intros HP Hj Hf Hperm Hlog. pose proof (pi_job _ _ HP _ Hj) as [H1 H2 H3 H4 H5].
  assert (critical (j_at j) = true → settling (poller p) = false) as Hset.
  { intros Hcr%H1. destruct (settling (poller p)) eqn:E; [|done]. rewrite (pi_poller _ _ HP) in Hcr; [done|]. by destruct (poller p). }
  split.
  - auto.
  - by apply (log_grows _ _ _ Hlog).
  - intros Hat. rewrite (fr_saved _ _ _ _ Hf). destruct (H3 Hat) as [Hk Hr]. split; [|done]. apply (fr_keeps _ _ _ _ Hf); [|done].
    apply Hset. by destruct Hat as [->| ->].
  - intros Hat. apply (fr_frozen _ _ _ _ Hf); [|auto]. apply Hset. by rewrite Hat.
  - rewrite (fr_identity _ _ _ _ Hf). destruct Hlog as [->|(e & -> & He & Hc)]; [done|]. apply trail_push; auto.
Qed.
(** What the blind task may not do. *)
Lemma blind_same p p' : job p' = job p → checker p' = checker p → sighted p = false → ∀ w, PInv w p → job p' = None ∧ checker p' = CIdle.
Proof. intros -> -> Hsi w HP. by destruct (pi_blind _ _ HP Hsi) as (? & ? & ?). Qed.

Section steps.
Context `{StateJson} (current : BuildInfo).

(** An operation on the state, as a step of its own. *)
Lemma framed_on_state {A} (m : X A) w p r w' p' :
  on_state m w p = (r, w', p') → (∀ l, same_side (co l) (co (m l).2)) →
  (settling (poller p) = false → ∀ i n rev l, keeps i n rev l → keeps i n rev (m l).2) →
  (∀ D, D = (λ k, Drawn k ∈ log w) → both (among D) (file_among D) (local w p) → both (among D) (file_among D) (m (local w p)).2) →
  (sighted p = false → (m (local w p)).2 = local w p) →
  framed w w' p p' ∧ p' = with_coordinator (coordinator p') p ∧ process w' = process w ∧ log w' = log w ∧ inbox_file w' = inbox_file w.
Proof.
  unfold on_state. fold (local w p). intros Hm Hside Hkeeps Hamong Hblind.
  specialize (Hside (local w p)). specialize (λ H i n rev, Hkeeps H i n rev (local w p)). 
  destruct (m (local w p)) as [o l'] eqn:E. injection Hm as <- <- <-. simpl in *. split; [|by split_and!].
  destruct Hside as (Hu & Hi & _ & _ & Hf). split; simpl; try done.
  - unfold sighted. simpl. by rewrite Hu.
  - intros i n rev Hset Hk. by apply Hkeeps.
  - intros Hsi. by rewrite (Hblind Hsi).
Qed.
Lemma framed_mild {A} (m : X A) w p r w' p' :
  on_state m w p = (r, w', p') → mild m → (sighted p = false → (m (local w p)).2 = local w p) →
  framed w w' p p' ∧ p' = with_coordinator (coordinator p') p ∧ process w' = process w ∧ log w' = log w ∧ inbox_file w' = inbox_file w.
Proof. intros Hm [Hside Hkeeps Hamong] Hblind. eapply framed_on_state; eauto. Qed.
Lemma blind_op p w : sighted p = false → unavailable (co (local w p)) ≠ None.
Proof. unfold sighted. simpl. by destruct (unavailable (coordinator p)). Qed.

(** ** What root's status says of a standing operation *)
Lemma decide_standing i n r c st :
  holds i n r (mem c) →
  decide_reconcile c st = Nothing ∨ ∃ o t rr, st = Some rr ∧ decide_reconcile c st = Close o t ∧ verdict (identity c) rr i n.
Proof.
  intros [Hi (o & Ho & Hid & Hn & _ & Hfin)]. unfold decide_reconcile, superseded. destruct st as [rr|]; [|by left].
  rewrite Ho Hfin Hi /= !andb_false_r /=.
  destruct (terminal_for rr _ _) as [t|] eqn:Ht; [|by left].
  destruct (bool_decide _) eqn:Hm; [by left|]. destruct (at_rest c rr) eqn:Hr; [|by left]. simpl. right.
  exists o, t, rr. split_and!; [done..|]. unfold at_rest in Hr. apply andb_prop in Hr as [[Hp Ha]%andb_prop Hown].
  apply bool_decide_eq_true in Hown. apply bool_decide_eq_false in Hm.
  split_and!; [by destruct (ps_pending_launch rr)|by destruct (active_operation rr)|done|].
  exists t. by rewrite -Hid -Hn.
Qed.

Lemma inv_quiet w w' p p' :
  Inv w → process w = Some p → process w' = Some p' → framed w w' p p' → job p' = job p → checker p' = checker p →
  (log w' = log w ∨ ∃ e, log w' = e :: log w ∧ harmless e = true ∧ calm e = true) →
  (permit p' = permit p ∨ permit p ≠ Some HWorker ∧ (frozen (coordinator p) = false ∨ permit p' ≠ Some (HRequest true))) →
  (deciding (poller p') = true → permit p' = Some HPoller) →
  (∀ i n r, sighted p = true → standing p i n r → settling (poller p') = false) →
  Inv w'.
Proof.
  intros Hinv Hw Hw' Hf Hj Hk Hlog Hpe Hpo Hse. pose proof (i_process _ Hinv _ Hw) as HP.
  eapply inv_frame; [done..| | | | |].
  - destruct Hlog as [|(e & ? & ? & ?)]; eauto.
  - intros i n r Hsi Hst. split; [|by eapply Hse]. destruct Hst as (_ & Hfr & Hp' & _). destruct Hpe as [->|[_ [?|?]]]; congruence.
  - done.
  - rewrite Hj. intros j Hjob. eapply job_frame; [done..| |].
    + intros Hwk. destruct Hpe as [->|[? _]]; [done|]. congruence.
    + destruct Hlog as [|(e & ? & ? & ?)]; [by left|right]. exists e. split_and!; [done|by apply calm_alive|done].
  - intros Hsi. by eapply blind_same.
Qed.
Lemma judged_inv w w' p p' own rr :
  Inv w → process w = Some p → process w' = Some p' → framed w w' p p' → job p' = job p → checker p' = checker p →
  log w' = Judged own rr :: log w → permit p' = permit p → (deciding (poller p') = true → permit p' = Some HPoller) →
  sighted p = true → (∀ i n r, standing p i n r → verdict own rr i n) → Inv w'.
Proof.
  intros Hinv Hw Hw' Hf Hj Hk Hlog Hpe Hpo Hsi Hv. pose proof (i_process _ Hinv _ Hw) as HP. destruct Hinv as [Hn Ha Hg He Hp].
  assert (∀ e, e ∈ log w → e ∈ log w') as Hgrow by (rewrite Hlog; by right). split.
  - by rewrite Hlog drawn_plain.
  - by eapply file_frame.
  - intros new i n inv r past Hnew. rewrite Hlog in Hnew. apply push_cases in Hnew as [(_ & ? & _)|(new' & -> & Hnew)]; [done|].
    left. destruct (Hg _ _ _ _ _ _ Hnew) as [|[Hs _]]; [by apply judged_push|]. exists own, rr. split; [by left|].
    eapply Hv. by apply Hs.
  - by eapply earned_event.
  - intros p'' [= <-]%(eq_trans (eq_sym Hw')). eapply pinv_frame; [done..|right; by eexists|done| |].
    + rewrite Hj. intros j Hjob. eapply job_frame; [done..|by rewrite Hpe|]. right. by eexists.
    + congruence.
Qed.

Lemma settle_among d io D l : both (among D) (file_among D) l → both (among D) (file_among D) (settle d io l).2.
Proof.
  intros Hl. destruct d as [| |o'|o' t]; simpl; try done.
  - unfold bind. pose proof (mi_among _ (mild_interrupt o' io) D l Hl) as H1. by destruct (interrupt o' io l) as [[] ?].
  - apply (wp_state _ (both (among D) (file_among D))). eapply wp_mono; [| |apply (wp_close (among D) (file_among D)); [done| |done]].
    + by intros _ l' [??].
    + by intros _ l' [??].
    + intros s cur Hcur _ Hs. by apply among_progress.
Qed.
Lemma settle_side d io l : same_side (co l) (co (settle d io l).2).
Proof.
  destruct d as [| |o'|o' t]; simpl; try done.
  - unfold bind. pose proof (mi_side _ (mild_interrupt o' io) l) as H1. by destruct (interrupt o' io l) as [[] ?].
  - apply (wp_state _ (λ l', same_side (co l) (co l'))).
    eapply wp_mono; [| |apply (wp_close (λ _, True) (λ _, True)); by try split]; naive_solver.
Qed.
Lemma settle_blind d io l : unavailable (co l) ≠ None → (settle d io l).2 = l.
Proof.
  intros Hu. destruct d as [| |o'|o' t]; simpl; try done.
  - unfold bind, interrupt. match goal with |- context [change io ?f l] => destruct (blind_change io f l Hu) as [H1 H2]; destruct (change io f l) as [[a|e| |] l'] end;
      simpl in *; try done.
  - by apply blind_change.
Qed.

(** ** The poller *)
Lemma run_quiet w w1 p p' :
  Inv w → process w = Some p → config_file w1 = config_file w → app_file w1 = app_file w → saved p' = saved p →
  unavailable (coordinator p') = unavailable (coordinator p) → identity (coordinator p') = identity (coordinator p) →
  mem (coordinator p') = mem (coordinator p) → (settling (poller p) = false → frozen (coordinator p) = true → frozen (coordinator p') = true) →
  job p' = job p → checker p' = checker p →
  (log w1 = log w ∨ ∃ e, log w1 = e :: log w ∧ harmless e = true ∧ calm e = true) →
  (permit p' = permit p ∨ permit p ≠ Some HWorker ∧ (frozen (coordinator p) = false ∨ permit p' ≠ Some (HRequest true))) →
  (deciding (poller p') = true → permit p' = Some HPoller) →
  (∀ i n r, sighted p = true → standing p i n r → settling (poller p') = false) →
  Inv (run p' w1).
Proof. intros. eapply inv_quiet; try done. by apply framed_same. Qed.
Ltac quiet := eapply run_quiet; try (done || by left || by right; eexists).

Lemma poll_decide t st w p w' : Inv w → process w = Some p → poller p = PDecide st → poll t w p = Some w' → Inv w'.
Proof.
  intros Hinv Hw Hq. unfold poll. rewrite Hq. intros Hstep. pose proof (i_process _ Hinv _ Hw) as HP.
  assert (permit p = Some HPoller) as Hpe by (apply HP; by rewrite Hq).
  destruct (decide_reconcile (coordinator p) st) as [| |o|o ts] eqn:Hd; injection Hstep as <-.
  - quiet. right. rewrite Hpe. split; [done|by right].
  - quiet. intros i n r _ (Hh & _). by destruct (decide_standing i n r _ st Hh) as [?|(? & ? & ? & ? & ? & _)]; congruence.
  - quiet. intros i n r _ (Hh & _). by destruct (decide_standing i n r _ st Hh) as [?|(? & ? & ? & ? & ? & _)]; congruence.
  - destruct st as [rr|]; [|done]. eapply (judged_inv w _ p _ (identity (coordinator p)) rr); try done.
    + destruct (sighted p) eqn:Hsi; [done|]. destruct (pi_blind _ _ HP Hsi) as (_ & _ & Hno).
      unfold decide_reconcile in Hd. rewrite Hno /= in Hd. by repeat case_match.
    + intros i n r (Hh & _). destruct (decide_standing i n r _ (Some rr) Hh) as [?|(o' & t' & rr' & Hst & ? & Hv)]; [congruence|].
      by injection Hst as <-.
Qed.
Lemma poll_settle t st d w p w' : Inv w → process w = Some p → poller p = PSettle st d → poll t w p = Some w' → Inv w'.
Proof.
  intros Hinv Hw Hq. unfold poll. rewrite Hq. intros Hstep. pose proof (i_process _ Hinv _ Hw) as HP.
  assert (permit p = Some HPoller) as Hpe by (apply HP; by rewrite Hq).
  destruct (on_state (settle d (t_io t)) w p) as [[r w1] p1] eqn:Hon.
  destruct (framed_on_state _ _ _ _ _ _ Hon) as (Hf & Hp1 & Hproc & Hlog & _).
  { intros l. apply settle_side. }
  { by rewrite Hq. }
  { intros D _. apply settle_among. }
  { intros Hsi. by apply settle_blind, blind_op. }
  assert (poller p1 = poller p ∧ job p1 = job p ∧ permit p1 = permit p ∧ checker p1 = checker p) as (Hq1 & Hj1 & Hpe1 & Hk1) by (by rewrite Hp1).
  assert (∀ i n r, standing p i n r → False) as Hno. { intros i n r' (_ & _ & _ & Hs). by rewrite Hq in Hs. }
  assert (∀ p', app_file w1 = app_file (run p' w1) → permit p' = None ∨ permit p' = Some HPoller ∧ True → coordinator p' = coordinator p1 → saved p' = saved p1 →
    job p' = job p1 → checker p' = checker p1 → (deciding (poller p') = true → permit p' = Some HPoller) → Inv (run p' w1)) as Hgo.
  { intros p' _ Hp' Hc Hs Hj Hk Hde. eapply (inv_quiet w _ p p'); try done.
    - eapply framed_trans; [exact Hf| |done..]. by apply framed_same; rewrite ?Hc.
    - congruence.
    - congruence.
    - left. simpl. done.
    - right. rewrite Hpe. split; [done|]. right. by destruct Hp' as [->|[-> _]].
    - intros i n r' _ Hst. by destruct (Hno i n r'). }
  destruct r as [[]|]; injection Hstep as <-; apply Hgo; try done; simpl; rewrite ?Hpe1; try done; [by right|by left..].
Qed.
Lemma abort_mild o phase reason io w p r w1 p1 :
  on_state (set_phase o phase reason io) w p = (r, w1, p1) →
  framed w w1 p p1 ∧ p1 = with_coordinator (coordinator p1) p ∧ process w1 = process w ∧ log w1 = log w ∧ inbox_file w1 = inbox_file w.
Proof.
  intros Hon. eapply framed_mild; [exact Hon|apply mild_set_phase|]. intros Hsi. by apply blind_change, blind_op.
Qed.
Lemma send_spec b i w :
  app_file (send b i w) = app_file w ∧ config_file (send b i w) = config_file w ∧ process (send b i w) = process w ∧
  (log (send b i w) = log w ∨ log (send b i w) = Requested i :: log w).
Proof. unfold send. destruct (match b with None => true | Some b => b end); simpl; auto. Qed.
Lemma run_send b i w p p' :
  Inv w → process w = Some p → (∀ inv r, i_request i ≠ Commit inv r) → saved p' = saved p → coordinator p' = coordinator p →
  job p' = job p → checker p' = checker p → permit p' = permit p → deciding (poller p') = false → Inv (run p' (send b i w)).
Proof.
  intros Hinv Hw Hi Hs Hc Hj Hk Hpe Hd. destruct (send_spec b i w) as (Ha & Hcf & _ & Hlog).
  eapply run_quiet; try done; rewrite ?Hc; try done.
  - destruct Hlog as [|Hlog]; [by left|right]. eexists. split; [exact Hlog|]. destruct i as [? ? ? []]; simpl in *; split; try done. by edestruct Hi.
  - by left.
  - by rewrite Hd.
  - intros. by destruct (poller p').
Qed.

(** A receipt names the revision of the saved configuration. *)
Lemma receipt_inv w w1 p p' h :
  Inv w → process w = Some p → config_file w1 = config_file w → app_file w1 = app_file w → log w1 = Receipt h :: log w →
  h_config_revision h = match saved p with Some s => revision s | None => 0 end →
  saved p' = saved p → coordinator p' = coordinator p → job p' = job p → checker p' = checker p → permit p' = permit p →
  deciding (poller p') = false → Inv (run p' w1).
Proof.
  intros Hinv Hw Hc Ha Hlog Hh Hs Hco Hj Hk Hpe Hde. pose proof (i_process _ Hinv _ Hw) as HP. destruct Hinv as [Hn Hfm Hg He Hp].
  assert (∀ e, e ∈ log w → e ∈ log (run p' w1)) as Hgrow by (simpl; rewrite Hlog; by right).
  assert (framed w (run p' w1) p p') as Hf by (by apply framed_same; rewrite ?Hco).
  split.
  - by rewrite /= Hlog drawn_plain.
  - by eapply file_frame.
  - intros new i n inv r past Hnew. simpl in Hnew. rewrite Hlog in Hnew. apply push_cases in Hnew as [(_ & ? & _)|(new' & -> & Hnew)]; [done|].
    destruct (Hg _ _ _ _ _ _ Hnew) as [|[Hst [Hcf1 Hcf2]]]; [left; by apply judged_push|right]. split.
    + eapply (stand_frame w _ p p'); [done..| |exact Hst]. intros i' n' r' _ (_ & _ & Hp' & _). rewrite Hpe. by destruct (poller p').
    + split; [intros rev; rewrite not_elem_of_cons; by split|]. intros Hno. destruct Hcf2 as [Hr Hrec].
      { intros rev Hin. apply (Hno rev). by right. }
      simpl. rewrite Hc. split; [done|]. intros h' [[= ->]|Hh']%elem_of_cons; [|by apply Hrec].
      rewrite (pi_config _ _ HP) in Hr. rewrite Hh. destruct (saved p); [|done]. by injection Hr.
  - by eapply earned_event.
  - intros p'' [= <-]. eapply pinv_frame; [done..|right; by exists (Receipt h)|by rewrite Hde| |].
    + rewrite Hj. intros j Hjob. eapply job_frame; [done..|by rewrite Hpe|]. right. by exists (Receipt h).
    + intros Hsi. by eapply blind_same.
Qed.


Lemma poll_launch t w p w' : Inv w → process w = Some p → poller p = PLaunch → poll t w p = Some w' → Inv w'.
Proof.
  intros Hinv Hw Hq. unfold poll. rewrite Hq. pose proof (i_process _ Hinv _ Hw) as HP.
  set (done_ := match job p with Some _ => _ | None => true end).
  assert (∀ p', saved p' = saved p → coordinator p' = coordinator p → checker p' = checker p → permit p' = permit p → deciding (poller p') = false →
    (∀ j, job p' = Some j → job p = Some j ∨ j_at j = JStage ∧ unfinished (mem (coordinator p)) = Some (j_op j)) →
    Inv (run p' w)) as Hgo.
  { intros p' Hs Hc Hk Hpe Hd Hj. assert (framed w (run p' w) p p') as Hf by (by apply framed_same; rewrite ?Hc).
    assert (∀ o, unfinished (mem (coordinator p)) = Some o → st_operation (mem (coordinator p)) = Some o) as Hun.
    { intros o. unfold unfinished. destruct (st_operation _) as [o'|]; simpl; [|done]. by destruct (finished o'). }
    eapply inv_frame; [done..|exact Hf|by left| |by rewrite Hd| |].
    - intros i n r _ (_ & _ & Hp' & _). rewrite Hpe. split; [done|]. by destruct (poller p').
    - intros j Hjob. destruct (Hj j Hjob) as [Hold|(Hat & Ho)].
      + eapply job_frame; [done..|by rewrite Hpe|by left].
      + split; rewrite ?/trail ?Hat; try done; [|by intros [?|?]]. apply (pi_drawn _ _ HP). by apply Hun.
    - intros Hsi. destruct (pi_blind _ _ HP Hsi) as (Hnj & Hck & Hno). rewrite Hk. split; [|done].
      destruct (job p') as [j|]; [|done]. destruct (Hj j eq_refl) as [?|[_ Ho%Hun]]; congruence. }
  assert (∀ l, ∀ j, job (with_job l None p) = Some j → job p = Some j ∨ j_at j = JStage ∧ unfinished (mem (coordinator p)) = Some (j_op j)) as Hnone by done.
  set (p1 := if done_ then with_job (launched p) None p else p).
  assert (coordinator p1 = coordinator p) as Hc1 by (unfold p1; by destruct done_).
  assert (∀ j, job (with_poller PIdle p1) = Some j → job p = Some j ∨ j_at j = JStage ∧ unfinished (mem (coordinator p)) = Some (j_op j)) as Hsame.
  { unfold p1. destruct done_; simpl; [done|]. by left. }
  assert (Inv (run (with_poller PIdle p1) w)) as Hidle.
  { apply Hgo; try done; unfold p1; by destruct done_. }
  rewrite Hc1. intros Hstep. destruct (unfinished (mem (coordinator p))) as [o|] eqn:Ho; [|by injection Hstep as <-].
  destruct (done_ && _) eqn:Hd; [|by injection Hstep as <-]. apply andb_prop in Hd as [Hd _].
  assert (p1 = with_job (launched p) None p) as -> by (unfold p1; by rewrite Hd).
  destruct (bool_decide _ && bool_decide _); injection Hstep as <-; apply Hgo; try done.
  - simpl. intros j [= <-]. right. split; [done|]. done.
  - simpl. by destruct (_ || _).
Qed.
Lemma poll_inv t w p w' : Inv w → process w = Some p → poll t w p = Some w' → Inv w'.
Proof.
  intros Hinv Hw. pose proof (i_process _ Hinv _ Hw) as HP. destruct (poller p) as [|st|st d|st|st|r l|i|i| |o|o] eqn:Hq.
  - unfold poll. rewrite Hq. destruct (stopping p); [done|]. simpl. destruct (is_some (permit p)) eqn:Hpe; intros [= <-]; quiet.
    + right. split; [by destruct (permit p)|by right].
  - by eapply poll_decide.
  - by eapply poll_settle.
  - unfold poll. rewrite Hq. intros [= <-]. assert (permit p = Some HPoller) as Hpe by (apply HP; by rewrite Hq).
    quiet; [by rewrite Hq|]. right. rewrite Hpe. split; [done|by right].
  - unfold poll. rewrite Hq. destruct st as [rr|]; [|intros [= <-]; quiet]. destruct (ps_pending_launch rr) as [pl|]; [|intros [= <-]; quiet].
    destruct (t_flag t); intros [= <-]; [|quiet]. quiet; simpl; by destruct (_ && _).
  - unfold poll. rewrite Hq. destruct (identity (coordinator p)) as [own|]; [|intros [= <-]; quiet].
    destruct (invocation (coordinator p)) as [inv|]; [|intros [= <-]; quiet]. destruct (bool_decide _); [intros [= <-]; quiet|].
    set (q := if negb _ && _ then _ else PLaunch). assert (deciding q = false ∧ settling q = false) as [Hq1 Hq2] by (unfold q; by destruct (negb _ && _)).
    destruct (match broken (t_io t) with None => true | Some b => b end); intros [= <-].
    + eapply receipt_inv; try done; simpl. unfold receipt. by destruct (t_health t) as [[??]?].
    + quiet; simpl; by rewrite ?Hq1 ?Hq2.
  - unfold poll. rewrite Hq. intros [= <-]. quiet; simpl; by destruct (_ && _).
  - unfold poll. rewrite Hq. intros [= <-]. by apply (run_send _ _ w p).
  - by eapply poll_launch.
  - unfold poll. rewrite Hq. destruct (on_state _ w p) as [[r1 w1] p1] eqn:Hon. intros [= <-].
    destruct (abort_mild _ _ _ _ _ _ _ _ _ Hon) as (Hf & Hp1 & Hproc & Hlog & _).
    assert (job p1 = job p ∧ checker p1 = checker p ∧ permit p1 = permit p ∧ poller p1 = poller p) as (Hj1 & Hk1 & Hpe1 & Hq1) by (by rewrite Hp1).
    eapply (inv_quiet w _ p (with_poller (PAbortSend o) p1)); try done.
    + eapply framed_trans; [exact Hf| |done..]. by apply framed_same.
    + by left.
    + by left.
  - unfold poll. rewrite Hq. intros [= <-]. by apply (run_send _ _ w p).
Qed.

(** ** The worker *)
Definition hands_over (p p' : Process) : Prop :=
  permit p' = permit p ∨ permit p = Some HWorker ∧ permit p' = None ∨ permit p = None ∧ permit p' = Some HWorker.
Lemma hands_poller p p' : hands_over p p' → poller p' = poller p → ∀ w, PInv w p → deciding (poller p') = true → permit p' = Some HPoller.
Proof. intros Hh -> w HP Hd. pose proof (pi_poller _ _ HP Hd). destruct Hh as [|[[??]|[??]]]; congruence. Qed.
Lemma hands_standing p p' i n r : hands_over p p' → poller p' = poller p → standing p i n r → permit p' ≠ Some (HRequest true) ∧ settling (poller p') = false.
Proof. intros Hh -> (_ & _ & Hp & Hs). split; [|done]. destruct Hh as [|[[??]|[??]]]; congruence. Qed.
Lemma work_step w w' p p' j k :
  Inv w → process w = Some p → process w' = Some p' → job p = Some j → job p' = Some (mkJob (j_op j) k) → framed w w' p p' →
  poller p' = poller p → checker p' = checker p → (log w' = log w ∨ ∃ e, log w' = e :: log w ∧ harmless e = true) → hands_over p p' →
  (critical k = true → permit p' = Some HWorker) →
  (k = JFreeze ∨ k = JSend →
     keeps (ao_operation_id (j_op j)) (ao_phase_nonce (j_op j)) (ao_config_revision (j_op j)) (local w' p') ∧
     revision <$> saved p' = Some (ao_config_revision (j_op j))) →
  (k = JSend → frozen (coordinator p') = true) → trail (identity (coordinator p')) (mkJob (j_op j) k) (log w') → Inv w'.
Proof.
  intros Hinv Hw Hw' Hj Hj' Hf Hq Hk Hlog Hh Hcr Hin Hfr Htr. pose proof (i_process _ Hinv _ Hw) as HP.
  eapply inv_frame; [done..| | | |].
  - intros i n r _. by apply hands_standing.
  - by eapply hands_poller.
  - rewrite Hj'. intros j' [= <-]. split; try done. simpl. eapply (log_grows _ _ _ Hlog), pi_job; done.
  - intros Hsi. destruct (pi_blind _ _ HP Hsi) as [? _]. congruence.
Qed.
(** The worker gives up, or goes on to a step that has no promises. *)
Lemma work_plain w w1 p p1 p' j k :
  Inv w → process w = Some p → job p = Some j → framed w w1 p p1 → poller p1 = poller p → checker p1 = checker p → permit p1 = permit p →
  (log w1 = log w ∨ ∃ e, log w1 = e :: log w ∧ harmless e = true) → p' = goto j k p1 ∨ p' = goto j k (with_permit None p1) ∧ permit p = Some HWorker →
  critical k = false → (∀ own l, trail own (mkJob (j_op j) k) l) → Inv (run p' w1).
Proof.
  intros Hinv Hw Hj Hf Hq Hk Hpe Hlog Hp' Hcr Htr.
  assert (framed w (run p' w1) p p') as Hf'.
  { destruct Hf as [H1 H2 H3 H4 H5 H6 H7 H8]. destruct Hp' as [->|[-> _]]; by split. }
  eapply (work_step w _ p p' j k); try done.
  - by destruct Hp' as [->|[-> _]].
  - by destruct Hp' as [->|[-> _]].
  - by destruct Hp' as [->|[-> _]].
  - destruct Hp' as [->|[-> ?]]; [by left|right; left]. done.
  - by rewrite Hcr.
  - intros [->| ->]; done.
  - by intros ->.
Qed.
Lemma bail_shape j why p : bail_out j why p = goto j (JAborting why) p ∨ bail_out j why p = goto j (JAborting why) (with_permit None p) ∧ permit p = Some HWorker.
Proof. unfold bail_out. destruct (bool_decide _) eqn:E; [right|by left]. by apply bool_decide_eq_true in E. Qed.
Lemma framed_refl w w1 p : config_file w1 = config_file w → app_file w1 = app_file w → framed w w1 p p.
Proof. intros. by apply framed_same. Qed.
Lemma stop_inv j why w w1 p :
  Inv w → process w = Some p → job p = Some j → config_file w1 = config_file w → app_file w1 = app_file w →
  (log w1 = log w ∨ ∃ e, log w1 = e :: log w ∧ harmless e = true) → Inv (run (bail_out j why p) w1).
Proof.
  intros Hinv Hw Hj Hc Ha Hlog. eapply (work_plain w w1 p p); [done|done|done|by apply framed_refl|done|done|done|done|apply bail_shape|done|done].
Qed.
Lemma stay_inv j k w w1 p :
  Inv w → process w = Some p → job p = Some j → config_file w1 = config_file w → app_file w1 = app_file w →
  (log w1 = log w ∨ ∃ e, log w1 = e :: log w ∧ harmless e = true) → critical k = false → (∀ own l, trail own (mkJob (j_op j) k) l) →
  Inv (run (goto j k p) w1).
Proof. intros Hinv Hw Hj Hc Ha Hlog Hcr Htr. eapply (work_plain w w1 p p); try done; [by apply framed_refl|by left]. Qed.
Lemma phased_inv j text k t w p :
  Inv w → process w = Some p → job p = Some j → critical k = false → (∀ own l, trail own (mkJob (j_op j) k) l) → Inv (phased j text k t w p).
Proof.
  intros Hinv Hw Hj Hcr Htr. unfold phased. destruct (on_state _ w p) as [[r w1] p1] eqn:Hon.
  destruct (abort_mild _ _ _ _ _ _ _ _ _ Hon) as (Hf & Hp1 & Hproc & Hlog & _).
  assert (checker p1 = checker p ∧ permit p1 = permit p ∧ poller p1 = poller p) as (Hk1 & Hpe1 & Hq1) by (by rewrite Hp1).
  destruct r.
  - eapply (work_plain w w1 p p1); try done; [by left|by left].
  - eapply (work_plain w w1 p p1); [done..|by left|rewrite -Hpe1; apply bail_shape|done|done].
Qed.
(** The steps under the permit that change nothing but the place. *)
Lemma onward j k w w1 p :
  Inv w → process w = Some p → job p = Some j → config_file w1 = config_file w → app_file w1 = app_file w →
  (log w1 = log w ∨ ∃ e, log w1 = e :: log w ∧ harmless e = true) → (critical k = true → permit p = Some HWorker) → k ≠ JFreeze → k ≠ JSend →
  trail (identity (coordinator p)) (mkJob (j_op j) k) (log w1) → Inv (run (goto j k p) w1).
Proof.
  intros Hinv Hw Hj Hc Ha Hlog Hcr H1 H2 Htr.
  eapply (work_step w _ p _ j k); try done; [by apply framed_same|by left|by intros [?|?]].
Qed.
Lemma work_pre t j w p w' : Inv w → process w = Some p → job p = Some j → critical (j_at j) = false → work t j w p = Some w' → Inv w'.
Proof.
  intros Hinv Hw Hj Hcr. pose proof (i_process _ Hinv _ Hw) as HP. pose proof (jo_trail _ _ _ (pi_job _ _ HP _ Hj)) as Htr.
  unfold work, trail in *. destruct (j_at j) as [| | | | |b|b|b|b|b| | | |why| |] eqn:Hat; try done.
  - destruct (identity (coordinator p)); [|intros [= <-]; eapply stop_inv; try done; by left].
    match goal with |- context [send ?b ?i w] => destruct (send_spec b i w) as (Ha & Hc & _ & Hl) end.
    destruct (is_some _); intros [= <-]; [eapply stop_inv|eapply stay_inv]; try done; (destruct Hl as [|Hl]; [by left|right; eexists; split; [exact Hl|done]]).
  - intros [= <-]. by apply phased_inv.
  - destruct (stopping p); [intros [= <-]; eapply stop_inv; try done; by left|].
    repeat case_match; intros [= <-]; first [eapply stop_inv; try done; by left|eapply stay_inv; try done; by left].
  - intros [= <-]. by apply phased_inv.
  - destruct (t_report t) as [m|]; intros [= <-]; [|eapply stop_inv; try done; by left].
    eapply onward; try done; [right; by eexists|]. apply since_now; [done|apply HP].
  - destruct (t_report t) as [m|]; [|intros [= <-]; eapply stop_inv; try done; by left].
    destruct (_ && _) eqn:Hok; intros [= <-]; [|eapply stop_inv; try done; right; by eexists].
    apply andb_prop in Hok as [Hd%bool_decide_eq_true Hm]. eapply onward; try done; [right; by eexists|].
    apply since_now; [|done]. by exists m.
  - destruct (is_some (permit p)) eqn:Hpe; [done|]. destruct (stopping p); intros [= <-]; [eapply stop_inv; try done; by left|].
    assert (permit p = None) as Hno by (by destruct (permit p)).
    eapply (work_step w _ p _ j); try done; [by left|right; right; by split|by intros [?|?]].
  - destruct (on_state _ w p) as [[r w1] p1] eqn:Hon. intros [= <-].
    destruct (abort_mild _ _ _ _ _ _ _ _ _ Hon) as (Hf & Hp1 & Hproc & Hlog & _).
    assert (checker p1 = checker p ∧ permit p1 = permit p ∧ poller p1 = poller p) as (Hk1 & Hpe1 & Hq1) by (by rewrite Hp1).
    eapply (work_plain w w1 p p1); [done|done|done|exact Hf|done|done|done|by left|by left|done|done].
  - intros [= <-]. match goal with |- context [send ?b ?i w] => destruct (send_spec b i w) as (Ha & Hc & _ & Hl) end.
    eapply stay_inv; try done. destruct Hl as [|Hl]; [by left|right; eexists; split; [exact Hl|done]].
Qed.

Lemma drawn_unique l i n r inv n' r' inv' :
  NoDup (drawn l) → Drawn (i, n, r, inv) ∈ l → Drawn (i, n', r', inv') ∈ l → n = n' ∧ r = r' ∧ inv = inv'.
Proof.
  assert (∀ l k, Drawn k ∈ l → k.1.1.1 ∈ drawn l) as Hin.
  { clear. intros l [[[i n] r] inv] Hk. apply list_elem_of_omap. by exists (Drawn (i, n, r, inv)). }
  induction l as [|e l IH]; [by intros _ ?%elem_of_nil|]. intros Hn [H1|H1]%elem_of_cons [H2|H2]%elem_of_cons.
  - rewrite -H1 in H2. by injection H2 as <- <- <-.
  - subst e. apply NoDup_cons in Hn as [Hn _]. by apply (Hin _ (i, n', r', inv')) in H2.
  - subst e. apply NoDup_cons in Hn as [Hn _]. by apply (Hin _ (i, n, r, inv)) in H1.
  - apply IH; [|done..]. destruct e as [|[[[??]?]?]| | | | | | | |]; try done. by apply NoDup_cons in Hn as [_ Hn].
Qed.

Lemma work_intend t j w p w' : Inv w → process w = Some p → job p = Some j → j_at j = JIntend → work t j w p = Some w' → Inv w'.
Proof.
  intros Hinv Hw Hj Hat. pose proof (i_process _ Hinv _ Hw) as HP. pose proof (pi_job _ _ HP _ Hj) as [Hwk Hdr _ _ Htr].
  unfold work, trail in *. rewrite Hat in Htr |- *. specialize (Hwk ltac:(by rewrite Hat)).
  destruct (pinned _ _ _) eqn:Hpin; [|intros [= <-]; eapply stop_inv; try done; by left].
  apply andb_prop in Hpin as [Hrev%bool_decide_eq_true _].
  destruct (on_state _ w p) as [[r w1] p1] eqn:Hon. intros Hstep.
  destruct (framed_mild _ _ _ _ _ _ Hon) as (Hf & Hp1 & Hproc & Hlog & _).
  { apply mild_intend. }
  { intros Hsi. by apply blind_change, blind_op. }
  assert (checker p1 = checker p ∧ permit p1 = permit p ∧ poller p1 = poller p ∧ job p1 = job p) as (Hk1 & Hpe1 & Hq1 & Hj1) by (by rewrite Hp1).
  destruct r as [[]|]; injection Hstep as <-.
  - assert (∃ l', intend (j_op j) (t_io t) (local w p) = (Ok tt, l') ∧ l' = local w1 p1) as (l' & Hok & Hl').
    { unfold on_state in Hon. fold (local w p) in Hon. destruct (intend _ _ _) as [o l'] eqn:E. destruct o as [[]| | |]; try done.
      exists l'. split; [done|]. injection Hon as <- <-. by destruct l'. }
    destruct (intend_ok _ _ _ _ Hok) as (cur & Hcur & Hid & Hk). rewrite Hl' in Hk.
    pose proof (pi_drawn _ _ HP cur Hcur) as Hdr'. unfold key in Hdr, Hdr'. rewrite Hid in Hdr'.
    destruct (drawn_unique _ _ _ _ _ _ _ _ (i_fresh _ Hinv) Hdr' Hdr) as (Hn & Hr & _). rewrite Hn Hr in Hk.
    eapply (work_step w _ p (goto j JFreeze p1) j JFreeze); try done.
    + eapply framed_trans; [exact Hf| |done..]. by apply framed_same.
    + right. exists (Intended (j_op j)). simpl. by rewrite Hlog.
    + by left.
    + by rewrite /= Hpe1.
    + intros _. split; [done|]. simpl. by rewrite (fr_saved _ _ _ _ Hf).
    + destruct Htr as [b Hb]. exists b. apply since_now; [done|]. simpl. by rewrite Hlog (fr_identity _ _ _ _ Hf).
  - eapply (work_plain w w1 p p1); [done|done|done|exact Hf|done|done|done|by left|rewrite -Hpe1; apply bail_shape|done|done].
Qed.
Lemma work_freeze t j w p w' : Inv w → process w = Some p → job p = Some j → j_at j = JFreeze → work t j w p = Some w' → Inv w'.
Proof.
  intros Hinv Hw Hj Hat. pose proof (i_process _ Hinv _ Hw) as HP. pose proof (pi_job _ _ HP _ Hj) as [Hwk _ Hin _ Htr].
  unfold work, trail in *. rewrite Hat in Htr |- *. specialize (Hwk ltac:(by rewrite Hat)). intros [= <-].
  eapply (work_step w _ p _ j JSend); try done; [by left|by left|]. intros _. apply Hin. by left.
Qed.
(** The request itself: what the worker holds makes the operation stand. *)
Lemma work_send t j w p w' : Inv w → process w = Some p → job p = Some j → j_at j = JSend → work t j w p = Some w' → Inv w'.
Proof.
  intros Hinv Hw Hj Hat. pose proof (i_process _ Hinv _ Hw) as HP. pose proof (pi_job _ _ HP _ Hj) as [Hwk _ Hin Hfr Htr].
  unfold work, trail in *. rewrite Hat in Htr |- *. specialize (Hwk ltac:(by rewrite Hat)). specialize (Hin ltac:(by right)). specialize (Hfr Hat).
  set (i := inbox _ _). destruct (send_spec (broken (t_io t)) i w) as (Ha & Hc & _ & Hl). set (w1 := send _ i w) in *.
  assert (∀ p', coordinator p' = coordinator p → saved p' = saved p → poller p' = poller p → checker p' = checker p → permit p' = None →
    (∃ k, job p' = Some (mkJob (j_op j) k) ∧ critical k = false ∧ ∀ own l, trail own (mkJob (j_op j) k) l) → log w1 = Requested i :: log w →
    Inv (run p' w1)) as Hgo.
  { clear Hl. intros p' Hco Hs Hq Hk Hpe (k & Hjk & Hcr & Hk') Hl. destruct Hinv as [Hn Hfm Hg He Hp].
    assert (framed w (run p' w1) p p') as Hf by (by apply framed_same; rewrite ?Hco).
    assert (∀ e, e ∈ log w → e ∈ log (run p' w1)) as Hgrow by (simpl; rewrite Hl; by right).
    assert (deciding (poller p') = false) as Hde.
    { rewrite Hq. destruct (deciding (poller p)) eqn:E; [|done]. pose proof (pi_poller _ _ HP E). congruence. }
    assert (settling (poller p') = false) as Hse by (by destruct (poller p')).
    split.
    - by rewrite /= Hl drawn_plain.
    - by eapply file_frame.
    - intros new i' n inv r past Hnew. simpl in Hnew. rewrite Hl in Hnew. apply push_cases in Hnew as [(-> & Heq & _)|(new' & -> & Hnew)].
      + right. unfold i, inbox, commit_request in Heq. injection Heq as <- <- <- <-. destruct Hin as [[Hfile Hmem] Hrev]. split.
        * split; [by rewrite /= Ha|]. intros p'' [= <-] _. split; [by rewrite Hco|]. by rewrite Hco Hpe.
        * split; [by intros ? ?%elem_of_nil|]. intros _. simpl. rewrite Hc (pi_config _ _ HP). split; [done|]. by intros ? ?%elem_of_nil.
      + destruct (Hg _ _ _ _ _ _ Hnew) as [|[Hst Hset]]; [left; by apply judged_push|right]. split.
        * eapply (stand_frame w _ p p'); [done..| |exact Hst]. intros. by rewrite Hpe.
        * by eapply settled_push.
    - intros new i' n inv r past Hnew. simpl in Hnew. rewrite Hl in Hnew. apply push_cases in Hnew as [(_ & Heq & <-)|(new' & -> & Hnew)]; [|by eapply He].
      unfold i, inbox, commit_request in Heq. injection Heq as <- <- <- <-. destruct Htr as [b Hb]. by exists (identity (coordinator p)), (j_op j), b.
    - intros p'' [= <-]. eapply pinv_frame; [done..|right; by exists (Requested i)|by rewrite Hde| |].
      + rewrite Hjk. intros j' [= <-]. split; try done; simpl; [by rewrite Hcr| |by intros [->| ->]|by intros ->].
        apply Hgrow. apply (jo_drawn _ _ _ (pi_job _ _ HP _ Hj)).
      + intros Hsi. destruct (pi_blind _ _ HP Hsi) as [? _]. congruence. }
  destruct Hl as [Hl|Hl]; intros Hstep.
  - assert (broken (t_io t) ≠ None) as Hb.
    { intros Hb. unfold w1, send in Hl. rewrite Hb in Hl. simpl in Hl. by apply (f_equal length) in Hl; simpl in Hl; lia. }
    destruct (broken (t_io t)) eqn:E; [|done]. injection Hstep as <-. eapply stop_inv; try done. by left.
  - assert (∀ why, bail_out j why p = goto j (JAborting why) (with_permit None p)) as Hgu by (intros why; unfold bail_out; by rewrite Hwk).
    destruct (is_some _); rewrite ?Hgu in Hstep; injection Hstep as <-; apply Hgo; try done; by eexists.
Qed.

Lemma work_inv t j w p w' : Inv w → process w = Some p → job p = Some j → work t j w p = Some w' → Inv w'.
Proof.
  intros Hinv Hw Hj. destruct (critical (j_at j)) eqn:Hcr; [|by apply work_pre].
  pose proof (i_process _ Hinv _ Hw) as HP. pose proof (pi_job _ _ HP _ Hj) as [Hwk _ _ _ Htr]. specialize (Hwk Hcr).
  destruct (j_at j) as [| | | | |b|b|b|b|b| | | |why| |] eqn:Hat; try done;
    [| | |by eapply work_intend|by eapply work_freeze|by eapply work_send]; unfold work, trail in *; rewrite Hat in Htr |- *.
  - destruct (pinned _ _ _); intros [= <-]; [|eapply stop_inv; try done; by left].
    eapply onward; try done. by left.
  - destruct (t_status t) as [rr|]; [|intros [= <-]; eapply stop_inv; try done; by left].
    destruct (_ && _) eqn:Hok; intros [= <-]; [|eapply stop_inv; try done; right; by eexists].
    apply andb_prop in Hok as [Hown%bool_decide_eq_true Hst]. eapply onward; try done; [right; by eexists|].
    apply since_now; [|done]. by exists rr.
  - destruct (t_report t) as [m|]; [|intros [= <-]; eapply stop_inv; try done; by left].
    destruct (bool_decide _) eqn:Hok; intros [= <-]; [|eapply stop_inv; try done; right; by eexists].
    apply bool_decide_eq_true in Hok. eapply onward; try done; [right; by eexists|].
    exists b. apply since_now; [by rewrite Hok|done].
Qed.

(** ** The handlers, the checker and the rest *)
Lemma state_step {A} (m : X A) w p r w1 p1 p' :
  Inv w → process w = Some p → on_state m w p = (r, w1, p1) → mild m → (sighted p = false → (m (local w p)).2 = local w p) →
  p' = p1 ∨ (∃ k, p' = with_checker k p1 ∧ (sighted p = false → k = CIdle)) → Inv (run p' w1).
Proof.
  intros Hinv Hw Hon Hm Hbl Hp'. pose proof (i_process _ Hinv _ Hw) as HP.
  destruct (framed_mild _ _ _ _ _ _ Hon Hm Hbl) as (Hf & Hp1 & Hproc & Hlog & _).
  assert (saved p' = saved p1 ∧ coordinator p' = coordinator p1 ∧ job p' = job p ∧ permit p' = permit p ∧ poller p' = poller p ∧
    (sighted p = false → checker p' = CIdle)) as (Hs & Hco & Hj & Hpe & Hq & Hk).
  { destruct Hp' as [->|(k & -> & Hk)]; rewrite Hp1; split_and!; try done. intros Hsi. by destruct (pi_blind _ _ HP Hsi) as (? & ? & ?). }
  assert (framed w (run p' w1) p p') as Hf'.
  { eapply framed_trans; [exact Hf| |by rewrite Hp1|done]. by apply framed_same; rewrite ?Hco. }
  eapply inv_frame; [done..|by left| | | |].
  - intros i n rr _ (_ & _ & ? & ?). by rewrite Hpe Hq.
  - rewrite Hq Hpe. apply HP.
  - rewrite Hj. intros j Hjob. eapply job_frame; [done..|by rewrite Hpe|by left].
  - intros Hsi. rewrite Hj. split; [by apply HP|by apply Hk].
Qed.
Lemma inv_note_drawn w i n r inv : Inv w → i ∉ drawn (log w) → Inv (note (Drawn (i, n, r, inv)) w).
Proof.
  intros [Hn Ha Hg He Hp] Hi. assert (∀ e, e ∈ log w → e ∈ log (note (Drawn (i, n, r, inv)) w)) as Hgrow by (by right).
  split; simpl.
  - by constructor.
  - destruct (app_file w); [done..|]. intros o Ho. by apply Hgrow, Ha.
  - intros new i' n' inv' r' past [(_ & ? & _)|(new' & -> & Hnew)]%push_cases; [done|].
    destruct (Hg _ _ _ _ _ _ Hnew) as [|[Hst Hset]]; [left; by apply judged_push|right]. split; [done|]. by eapply settled_push.
  - intros new i' n' inv' r' past [(_ & ? & _)|(new' & -> & Hnew)]%push_cases; [done|]. by eapply He.
  - intros p Hw. destruct (Hp p Hw) as [H1 H2 H3 H4 H5 H6]. split; try done.
    + intros o Ho. by apply Hgrow, H2.
    + by apply since_push.
    + intros j Hj. destruct (H6 j Hj) as [K1 K2 K3 K4 K5]. split; try done; [by apply Hgrow|]. by apply trail_calm.
Qed.

Lemma framed_accept input rev ready now id1 id2 io w p r w1 p1 :
  on_state (accept input rev ready now id1 id2 io) w p = (r, w1, p1) →
  Drawn (id id1, id id2, rev, default [] (invocation (coordinator p))) ∈ log w →
  framed w w1 p p1 ∧ p1 = with_coordinator (coordinator p1) p ∧ process w1 = process w ∧ log w1 = log w.
Proof.
  intros Hon Hdr. destruct (framed_on_state _ _ _ _ _ _ Hon) as (Hf & Hp1 & Hproc & Hlog & _); [| | | |done].
  - intros l. apply (wp_state _ (λ l', same_side (co l) (co l'))).
    eapply wp_mono; [| |apply (wp_accept (λ _, True) (λ _, True)); by try split]; naive_solver.
  - intros _ i n rr l Hl. apply (wp_state _ (keeps i n rr)).
    eapply wp_mono; [| |apply (wp_accept (holds i n rr) (file_holds i n rr)); [apply file_holds_ok| |exact Hl]].
    + by intros _ l' [??].
    + by intros _ l' [??].
    + intros s inv m d _ Hfin [_ (o & Ho & _ & _ & _ & Hno)]. rewrite Ho Hno in Hfin. done.
  - intros D HD Hl. apply (wp_state _ (both (among D) (file_among D))).
    eapply wp_mono; [| |apply (wp_accept (among D) (file_among D)); [done| |exact Hl]].
    + by intros _ l' [??].
    + by intros _ l' [??].
    + intros s inv m d Hinv _ _. apply among_new. simpl in Hinv. rewrite Hinv in Hdr. by subst D.
  - intros Hsi. by apply blind_accept, blind_op.
Qed.
Lemma accept_inv input ready now id1 id2 io w p w' :
  Inv w → process w = Some p → step_process current (Accept input ready now id1 id2 io) w p = Some w' → Inv w'.
Proof.
  intros Hinv Hw. cbn [step_process]. unfold accept_plan. destruct (is_some (permit p)) eqn:Hpe; [done|]. destruct (fresh id1 w) eqn:Hfr; [|done]. simpl.
  apply bool_decide_eq_true in Hfr. set (w0 := note _ w).
  assert (Inv w0) as Hinv0 by (by apply inv_note_drawn). assert (process w0 = Some p) as Hw0 by done.
  pose proof (i_process _ Hinv0 _ Hw0) as HP.
  destruct (on_state _ w0 p) as [[r w1] p1] eqn:Hon. intros [= <-].
  destruct (framed_accept _ _ _ _ _ _ _ _ _ _ _ _ Hon) as (Hf & Hp1 & Hproc & Hlog); [by left|].
  assert (job p1 = job p ∧ permit p1 = permit p ∧ poller p1 = poller p ∧ checker p1 = checker p) as (Hj1 & Hpe1 & Hq1 & Hk1) by (by rewrite Hp1).
  assert (framed w0 (run p1 w1) p p1) as Hf' by (eapply framed_trans; [exact Hf|by apply framed_same|by rewrite Hp1|done]).
  eapply (inv_frame w0 _ p p1); [done..|by left| | | |].
  - intros i n rr _ (_ & _ & ? & ?). by rewrite Hpe1 Hq1.
  - rewrite Hq1 Hpe1. apply HP.
  - rewrite Hj1. intros j Hjob. eapply (job_frame w0); [done..|by rewrite Hpe1|by left].
  - intros Hsi. rewrite Hj1 Hk1. by destruct (pi_blind _ _ HP Hsi) as (? & ? & ?).
Qed.

(** A handler under the permit that saw the flag clear changes the
    configuration: nothing stands then. *)
Lemma mutate_inv m applied w p w' : Inv w → process w = Some p → step_process current (Mutate m applied) w p = Some w' → Inv w'.
Proof.
  intros Hinv Hw. cbn [step_process]. unfold transact. destruct (bool_decide (permit p = _)) eqn:Hpe; [|done]. apply bool_decide_eq_true in Hpe.
  pose proof (i_process _ Hinv _ Hw) as HP. change (saved (with_permit None p)) with (saved p).
  assert (Inv (run (with_permit None p) w)) as Hfail.
  { eapply run_quiet; try done; [by left|right; split; [by rewrite Hpe|by right]| |]; simpl.
    - intros Hd. pose proof (pi_poller _ _ HP Hd). congruence.
    - by intros i n r _ (_ & _ & _ & ?). }
  destruct (next_stored (saved p) m) as [next|] eqn:Hnext; intros [= <-]; [|done]. destruct applied; [|done].
  assert (∀ i n r, standing_in w i n r → sighted p = false ∧ file_holds i n r (app_file w)) as Hblind.
  { intros i n r [Hfile Hall]. split; [|done]. destruct (sighted p) eqn:Hsi; [|done]. by destruct (Hall p Hw Hsi) as (_ & _ & ? & _). }
  destruct Hinv as [Hn Ha Hg He Hp]. split; simpl.
  - done.
  - destruct (app_file w); [done..|]. intros o Ho. right. by apply Ha.
  - intros new i n inv r past [(_ & ? & _)|(new' & -> & Hnew)]%push_cases; [done|].
    destruct (Hg _ _ _ _ _ _ Hnew) as [|[Hst [Hset _]]]; [left; by apply judged_push|right]. destruct (Hblind _ _ _ Hst) as [Hsi Hfile].
    change (sighted (with_permit None p)) with (sighted p). rewrite Hsi. split; [split; [done|]|split].
    + intros p'' [= <-]. by change (sighted p = true → standing (with_saved (Some next) (with_permit None p)) i n r); rewrite Hsi.
    + intros rev. by rewrite not_elem_of_cons.
    + intros Hno. exfalso. apply (Hno (revision next)). by left.
  - intros new i n inv r past [(_ & ? & _)|(new' & -> & Hnew)]%push_cases; [done|]. by eapply He.
  - intros p'' [= <-]. destruct HP as [H1 H2 H3 H4 H5 H6]. split; simpl; try done.
    + intros o Ho. right. by apply H2.
    + by apply since_push.
    + intros Hd. rewrite (H4 Hd) in Hpe. done.
    + intros j Hj. destruct (H6 j Hj) as [K1 K2 K3 K4 K5]. assert (critical (j_at j) = false) as Hcr.
      { destruct (critical (j_at j)); [|done]. rewrite K1 in Hpe; done. }
      split; simpl; try done; [by rewrite Hcr|by right|intros [E|E]; by rewrite E in Hcr|].
      apply trail_push; [done|by rewrite Hcr|done].
Qed.

(** ** Every step keeps the invariant *)
Lemma open_inv readable status own inv scoped now random io n w w' :
  Inv w → process w = None → step current (Open readable status own inv scoped now random io n) w = Some w' → Inv w'.
Proof.
  intros [Hn Ha Hg He Hp] Hw. unfold step. rewrite Hw. set (l := open current _ _ _ _ _ _ _ _ _). intros [= <-].
  destruct (open_among current (λ k, Drawn k ∈ log w) readable status own inv scoped now random io _ Ha) as [[Hfa Hma] Hbl]. fold l in Hfa, Hma, Hbl.
  split; simpl.
  - done.
  - destruct (state_file l); [done..|]. intros o Ho. right. by apply Hfa.
  - intros new i nn inv' r past [(_ & ? & _)|(new' & -> & Hnew)]%push_cases; [done|].
    destruct (Hg _ _ _ _ _ _ Hnew) as [|[[Hfile _] Hset]]; [left; by apply judged_push|right].
    destruct (open_keeps current i nn r readable status own inv scoped now random io _ Hfile) as [Hf Hm]. fold l in Hf, Hm.
    split; [|by eapply settled_push]. split; [done|]. intros p'' [= <-] Hsi. unfold sighted in Hsi. simpl in Hsi.
    destruct Hm as [Hh Hfr]; [by destruct (unavailable (co l))|]. done.
  - intros new i nn inv' r past [(_ & ? & _)|(new' & -> & Hnew)]%push_cases; [done|]. by eapply He.
  - intros p'' [= <-]. split; simpl; try done.
    + intros o Ho. right. by apply Hma.
    + by apply since_now.
    + intros Hsi. split_and!; [done..|]. apply Hbl. unfold sighted in Hsi. simpl in Hsi. by destruct (unavailable (co l)).
Qed.
Lemma crash_inv w w' : Inv w → process w' = None → config_file w' = config_file w → app_file w' = app_file w → log w' = log w → Inv w'.
Proof.
  intros [Hn Ha Hg He Hp] Hw' Hc Hf Hl. split.
  - by rewrite Hl.
  - by rewrite Hf Hl.
  - eapply guarded_frame; [done| |done..]. intros i n r [Hs _]. split; [by rewrite Hf|]. by rewrite Hw'.
  - by eapply earned_frame.
  - by rewrite Hw'.
Qed.
Lemma step_inv a w w' : Inv w → step current a w = Some w' → Inv w'.
Proof.
  intros Hinv. destruct (process w) as [p|] eqn:Hw.
  2:{ destruct a; unfold step; rewrite Hw; try done.
      - intros Hs. eapply open_inv; [done..|]. unfold step. by rewrite Hw.
      - intros [= <-]. by eapply crash_inv. }
  unfold step. rewrite Hw. pose proof (i_process _ Hinv _ Hw) as HP. destruct a; cbn [step_process]; unfold check_request, start_check, run_check, finish_check, try_acquire, freeze_check.
  - done.
  - intros [= <-]. by eapply crash_inv.
  - intros [= <-]. quiet; [apply HP|by intros i n r _ (_ & _ & _ & ?)].
  - intros [= <-]. rewrite Hw.
    assert (Inv (run p (mkWorld (app_file w) (config_file w) None (health_file w) (process w) (log w)))) as Ht; [|done].
    quiet; [apply HP|by intros i n r _ (_ & _ & _ & ?)].
  - by apply poll_inv.
  - destruct (job p) as [j|] eqn:Hj; [|done]. simpl. by apply work_inv.
  - destruct (is_some (permit p)); [done|]. destruct (on_state _ w p) as [[r w1] p1] eqn:Hon. intros [= <-].
    eapply state_step; [done..|apply mild_request_check|intros; by apply blind_request_check, blind_op|by left].
  - destruct (checker p) eqn:Hk; try done. destruct (on_state _ w p) as [[r w1] p1] eqn:Hon. intros [= <-].
    assert (sighted p = false → r = Some None ∧ checker p1 = CIdle) as Hb.
    { intros Hsi%(blind_op _ w). unfold on_state in Hon. fold (local w p) in Hon. rewrite blind_begin_check in Hon; [|done].
      injection Hon as <- _ <-. done. }
    eapply state_step; [done..|apply mild_begin_check|intros; by rewrite blind_begin_check; [|apply blind_op]|].
    destruct r as [[old|]|]; [right|by left..]. eexists. split; [done|]. intros Hsi. by destruct (Hb Hsi).
  - destruct (checker p) eqn:Hk; try done. destruct (fetched _ _ _ _ _) as [result|]; [|done]. simpl. intros [= <-].
    assert (sighted p = true) as Hsi. { destruct (sighted p) eqn:Hsi; [done|]. destruct (pi_blind _ _ HP Hsi) as (_ & ? & _). congruence. }
    eapply inv_frame; [done..|by apply framed_same|by left| | | |by rewrite Hsi].
    + by intros i n r _ (_ & _ & ? & ?).
    + apply HP.
    + intros j Hj. eapply job_frame; [done..|by apply framed_same|done|by left].
  - destruct (checker p) eqn:Hk; try done. destruct (on_state _ w p) as [[r w1] p1] eqn:Hon. intros [= <-].
    assert (sighted p = true) as Hsi. { destruct (sighted p) eqn:Hsi; [done|]. destruct (pi_blind _ _ HP Hsi) as (_ & ? & _). congruence. }
    eapply state_step; [done..|apply mild_end_check|by rewrite Hsi|]. right. by eexists.
  - intros Hs. by eapply accept_inv.
  - destruct (is_some (permit p)) eqn:Hpe; [done|]. intros [= <-].
    assert (permit p = None) as Hno by (by destruct (permit p)).
    quiet; [right; split; [by rewrite Hno|by right]| |by intros i n r _ (_ & _ & _ & ?)].
    intros Hd. pose proof (pi_poller _ _ HP Hd). congruence.
  - destruct (bool_decide _) eqn:Hpe; [|done]. apply bool_decide_eq_true in Hpe. intros [= <-].
    quiet; [| |by intros i n r _ (_ & _ & _ & ?)].
    + right. split; [by rewrite Hpe|]. simpl. destruct (frozen (coordinator p)); [by right|by left].
    + intros Hd. pose proof (pi_poller _ _ HP Hd). congruence.
  - intros Hs. by eapply mutate_inv.
Qed.
Lemma fresh_inv : Inv fresh_directory.
Proof.
  split; simpl; try done; [by constructor| |]; intros [] * H1; simpl in H1; done.
Qed.
Lemma reachable_inv_tasks w : reachable current w → Inv w.
Proof.
  intros [l Hl]. assert (∀ w0, Inv w0 → steps current l w0 = Some w → Inv w) as Hgo; [|by eapply Hgo; [apply fresh_inv|]].
  clear Hl. induction l as [|a l IH]; intros w0 H0; simpl; [by intros [= <-]|].
  destruct (step current a w0) as [w1|] eqn:Hs; simpl; [|done]. apply IH. by eapply step_inv.
Qed.
End steps.
