(* ===== verification/UpdateTasksClaims.v ===== *)
(** * What the coordinator promises root

    The theorems on the machine of [UpdateTasks], and one run of it. *)
From S2P Require Import Prelude Std Canonical BlockAnswer Policy Text Release Journal Coordinator CoordinatorSafe UpdateTasks UpdateTasksSafe.
Set Default Goal Selector "!".
Set Warnings "-rewrite-rw".
Local Open Scope Z_scope.
Local Open Scope rust_scope.

Section claims.
Context `{StateJson} (current : BuildInfo).

(** C7. From a commit request to root's verdict. Take any directory that starts,
    stops, crashes, failed writes, checks, plans and changes of the configuration
    have left, and a request to commit operation [i] under revision [r] that was
    written at some time. Since then either a status of root has given the verdict
    on that operation, or all this holds: the state file keeps the operation with
    its intent; a process that could read its state file has it in memory, is
    frozen and lets no handler change the configuration; no such process has
    changed it; and unless a process that could not read the file has, the saved
    configuration and every health receipt written since have revision [r]. *)
Theorem commit_until_verdict w new i n inv r past :
  reachable current w → log w = new ++ commit_request i n inv r :: past →
  judged i n new ∨
  (file_holds i n r (app_file w) ∧
   (∀ p, process w = Some p → sighted p = true →
      holds i n r (mem (coordinator p)) ∧ frozen (coordinator p) = true ∧ permit p ≠ Some (HRequest true)) ∧
   (∀ rev, Configured true rev ∉ new) ∧
   ((∀ rev, Configured false rev ∉ new) → revision <$> config_file w = Some r ∧ ∀ h, Receipt h ∈ new → h_config_revision h = r)).
Proof.
  intros Hw Hlog. destruct (i_guarded _ (reachable_inv_tasks current w Hw) _ _ _ _ _ _ Hlog) as [|[[Hf Hp] [H1 H2]]]; [by left|right].
  split_and!; [done| |done..]. intros p Hpr Hsi. by destruct (Hp p Hpr Hsi) as (? & ? & ? & _).
Qed.

(** C9. A commit request is earned. Before it, in this order and by one process:
    the program in place reported on the configuration, the candidate reported
    the same inputs and is the build of the manifest; then, with no change of the
    configuration since, root's status showed this operation staged and this
    program (as this process was opened) installed, the program in place reported the same again, and the
    intent was saved. The request carries the operation's own identifiers and the
    revision it was accepted under. *)
Theorem commit_earned w new i n inv r past :
  reachable current w → log w = new ++ commit_request i n inv r :: past →
  ∃ o baseline, ao_operation_id o = i ∧ ao_phase_nonce o = n ∧ ao_invocation_id o = inv ∧ ao_config_revision o = r ∧
    ∃ l1 l2 l3 l4 l5 l6 l7 rr m,
      past = l1 ++ Intended o :: l2 ++ Reported baseline :: l3 ++ Observed rr :: l4 ++ CandidateReported m :: l5 ++ Reported baseline :: l6 ++
             Opened (Some (ps_installed rr)) :: l7 ∧
      forallb calm (l1 ++ l2 ++ l3) = true ∧ forallb alive (l4 ++ l5 ++ l6) = true ∧ staged_for o rr = true ∧
      mo_check m = baseline ∧ matches_build (ao_manifest o) (build_info m) = true.
Proof.
  intros Hw Hlog. destruct (i_earned _ (reachable_inv_tasks current w Hw) _ _ _ _ _ _ Hlog) as (own & o & b & H1 & H2 & H3 & H4 & Ht).
  exists o, b. split_and!; [done..|].
  destruct Ht as (l1 & ? & ? & -> & Hl1 & -> & (l2 & ? & ? & -> & Hl2 & -> & (l3 & ? & ? & -> & Hl3 & (rr & -> & Hown & Hst) &
    (l4 & ? & ? & -> & Hl4 & (m & -> & Hd & Hm) & (l5 & ? & ? & -> & Hl5 & -> & (l6 & ? & l7 & -> & Hl6 & -> & _)))))).
  exists l1, l2, l3, l4, l5, l6, l7, rr, m. rewrite !forallb_app Hl1 Hl2 Hl3 Hl4 Hl5 Hl6 Hown. split_and!; try done.
  unfold differences in Hd. destruct b, (mo_check m). simpl in Hd.
  repeat (match type of Hd with context [bool_decide ?P] => destruct (bool_decide P) eqn:?; [|done] end; simpl in Hd).
  repeat match goal with He : bool_decide _ = true |- _ => apply bool_decide_eq_true in He; simpl in He end. by subst.
Qed.

(** C10. Root's verdict ends the freeze. A process at rest that has an intended
    operation and reads root's verdict on it, with a disk that works, ends the
    operation with root's phase and reason (its own reason if it had asked for the
    abort), removes the intent from the state file and from memory, and thaws
    within one turn of its poller; then a handler may change the configuration
    again. *)
Theorem verdict_thaws w p o rr t turn m next :
  process w = Some p → sighted p = true → helper_scoped (coordinator p) = true → stopping p = false → poller p = PIdle → permit p = None →
  st_operation (mem (coordinator p)) = Some o → commit_intent (mem (coordinator p)) = Some (ao_operation_id o) →
  verdict (identity (coordinator p)) rr (ao_operation_id o) (ao_phase_nonce o) →
  terminal_for rr (ao_operation_id o) (ao_phase_nonce o) = Some t → t_status turn = Some rr → t_io turn = io_fine →
  next_stored (saved p) m = Some next →
  let s := with_intent None (with_app_operation (Some (closed t o)) (mem (coordinator p))) in
  writable s = true →
  ∃ w1 w2 p1,
    steps current (replicate 4 (Poll turn)) w = Some w1 ∧ process w1 = Some p1 ∧ app_file w1 = Holds s ∧ mem (coordinator p1) = s ∧
    frozen (coordinator p1) = false ∧ permit p1 = None ∧
    steps current [Admit; Test_; Mutate m true] w1 = Some w2 ∧ config_file w2 = Some next.
Proof.
  intros Hw Hsi Hhs Hstop Hq Hpe Ho Hi (Hpend & Hact & Hown & t' & Ht' & Hman) Ht Hst Hio Hnext s Hwr.
  rewrite Ht in Ht'. injection Ht' as <-.
  assert (∀ c, mem c = mem (coordinator p) → identity c = identity (coordinator p) → decide_reconcile c (Some rr) = Close o t) as Hdec.
  { intros c Hm Hid. unfold decide_reconcile, superseded, at_rest. rewrite Hm Hid Ho Hi Hpend Hact Hown Ht /= !andb_false_r.
    rewrite (bool_decide_true (Some _ = Some _)) //=. by rewrite bool_decide_false. }
  assert (unavailable (coordinator p) = None) as Hu. { unfold sighted in Hsi. by destruct (unavailable (coordinator p)). }
  set (p1 := with_permit (Some HPoller) (with_poller (PDecide (Some rr)) (set_co (with_root (Some rr)) p))).
  assert (poll turn w p = Some (run p1 w)) as H1. { unfold poll. by rewrite Hq Hstop Hhs Hst /= Hpe. }
  set (p2 := with_poller (PSettle (Some rr) (Close o t)) p1). set (w2 := run p2 (note (Judged (identity (coordinator p)) rr) (run p1 w))).
  assert (poll turn (run p1 w) p1 = Some w2) as H2. { unfold poll. change (poller p1) with (PDecide (Some rr)). cbv iota beta zeta. by rewrite Hdec. }
  set (p3 := with_poller (PThaw (Some rr)) (with_coordinator (with_mem s (coordinator p2)) p2)).
  assert (∃ w3, poll turn w2 p2 = Some (run p3 w3) ∧ app_file w3 = Holds s) as (w3 & H3 & Hf3).
  { unfold poll, p2, settle, on_state. rewrite Hio. cbn [poller with_poller]. rewrite close_ok //. by eexists. }
  set (p4 := with_permit None (with_poller (PBeat (Some rr)) (set_co (with_frozen false) p3))).
  assert (poll turn (run p3 w3) p3 = Some (run p4 (run p3 w3))) as H4 by done.
  exists (run p4 (run p3 w3)), (run (with_saved (Some next) (with_permit None (with_permit (Some (HRequest true)) (with_permit (Some (HRequest false)) p4))))
    (mkWorld (Holds s) (Some next) (inbox_file w3) (health_file w3) (Some (with_permit (Some (HRequest true)) (with_permit (Some (HRequest false)) p4)))
       (Configured true (revision next) :: log w3))), p4.
  split_and!; try done.
  - assert (∀ w p, process w = Some p → step current (Poll turn) w = poll turn w p) as Hs by (intros w' p' Hp'; unfold step; by rewrite Hp').
    cbn [steps replicate]. rewrite (Hs w p) // H1. cbn [mbind option_bind]. rewrite (Hs _ p1) // H2. cbn [mbind option_bind].
    rewrite (Hs _ p2) // H3. cbn [mbind option_bind]. by rewrite (Hs _ p3).
  - cbn [steps]. unfold step, step_process, try_acquire, freeze_check, transact. simpl. rewrite Hnext Hf3. unfold sighted. simpl. by rewrite Hu.
Qed.
End claims.

(** ** A run: an update is committed, the process crashes, root rolls back *)
Module TaskWitness.
#[export] Instance json : StateJson := {| state_size := λ _, 0%nat |}.
Definition hex (c : Z) (n : nat) : Str := replicate n c.
Definition build_of (v : string) : BuildInfo := mkBuild (lit v) (lit "x86_64-unknown-linux-musl") (hex 97 40) true 1 4 INSTALL_CONTRACT 1 1 1 1.
Definition running : BuildInfo := build_of "0.1.4".
Definition new_artifact (t : Str) : Artifact := mkArtifact t (artifact_name (lit "v0.1.5") t) 100 (hex 98 64).
Definition new_manifest : Manifest :=
  mkManifest 1 REPOSITORY (lit "0.1.5") (lit "v0.1.5") (hex 97 40) 1 INSTALL_CONTRACT 4 1 1 1 1 InPlace (map new_artifact SUPPORTED_TARGETS).
Definition assets_of : list ReleaseAsset :=
  mkAsset 1 (lit "parins-update.json") (lit "uploaded") 500 None ::
  imap (λ k a, mkAsset (Z.of_nat k + 2) (a_name a) (lit "uploaded") 100 None) (artifacts new_manifest).
Definition new_release : GithubRelease := mkRelease 7 (lit "v0.1.5") false false assets_of.
Definition new_document : ManifestDocument := mkDocument new_manifest (hex 99 64) 500.
Definition own : InstalledIdentity := mkIdentity running (hex 100 64).
Definition at_rest_ : PublicStatus := mkPublic 1 own (mkCapability true None 0 4 INSTALL_CONTRACT) None None None None.
Definition bytes (n : Z) : list Z := replicate 16 n.
Definition in_phase (p : Phase) : OperationStatus := mkStatus (id (bytes 2)) (id (bytes 3)) p (lit "0.1.5") (Some (lit "readiness_failed")) 0 0 100.
Definition staged_ : PublicStatus :=
  mkPublic 1 own (mkCapability true None 0 4 INSTALL_CONTRACT) (Some (in_phase Staged)) None None None.
Definition rolled_back : PublicStatus :=
  mkPublic 1 own (mkCapability true None 0 4 INSTALL_CONTRACT) None (Some (in_phase RolledBack)) None None.
Definition seeing (st : PublicStatus) : Turn := mkTurn io_fine (Some st) None true 1 (true, true, true).
Definition report_ : CheckReport := mkReport 1 (hex 97 64) (hex 97 64) (hex 97 64) (hex 97 64) (hex 97 64).
Definition telling (st : PublicStatus) (v : string) : Turn := mkTurn io_fine (Some st) (Some (mkOutput report_ (build_of v))) true 1 (true, true, true).
Definition opening (inv : Z) (st : PublicStatus) : Action := Open true (Some st) (Some own) (Some (hex inv 32)) true 1000 0 io_fine 7.
Definition story : list Action :=
  [opening 101 at_rest_; Admit; Test_; Mutate (Setup (lit "admin") (lit "hash") (lit "listen")) true;
   BeginCheck (mkUpdates true 6) 1 100000000 0 io_fine; Fetch (inl (Modified new_release None None None)) (inl new_document);
   EndCheck 100000001 0 (bytes 1) io_fine; Accept (mkApply (id (bytes 1)) (lit "0.1.5")) true 100000002 (bytes 2) (bytes 3) io_fine] ++
  replicate 4 (Poll (seeing at_rest_)) ++ replicate 2 (Work quiet) ++ replicate 4 (Poll (seeing staged_)) ++
  replicate 2 (Work quiet) ++ [Work (telling staged_ "0.1.4"); Work (telling staged_ "0.1.5")] ++ replicate 7 (Work (telling staged_ "0.1.4")) ++
  [Crash; opening 102 rolled_back; Admit; Test_].
Definition world_at (n : nat) : World := default fresh_directory (steps running (take n story) fresh_directory).
Definition last : nat := length story.
Definition the_process : Process := default (mkProcess (mkCoordinator state_default None None false false None None false) None None PIdle None None CIdle 0 0 false)
  (process (world_at last)).


(** The last events: the request, then the start after the crash. *)
Definition before_request : list Event := drop 2 (log (world_at last)).
Lemma story_runs : steps running story fresh_directory = Some (world_at last).
Proof. by vm_compute. Qed.
Lemma story_log : log (world_at last) = [Opened (Some own)] ++ commit_request (id (bytes 2)) (id (bytes 3)) (hex 101 32) 1 :: before_request.
Proof. by vm_compute. Qed.
Lemma world_reachable : reachable running (world_at last).
Proof. exists story. apply story_runs. Qed.
#[local] Opaque world_at.

Lemma commit_until_verdict_witness :
  file_holds (id (bytes 2)) (id (bytes 3)) 1 (app_file (world_at last)) ∧ revision <$> config_file (world_at last) = Some 1.
Proof.
  destruct (commit_until_verdict running (world_at last) [Opened (Some own)] (id (bytes 2)) (id (bytes 3)) (hex 101 32) 1 before_request
    world_reachable story_log) as [(? & ? & Hj & _)|(Hf & _ & _ & Hc)].
  - exfalso. apply elem_of_cons in Hj as [[=]|Hj]. by apply elem_of_nil in Hj.
  - split; [exact Hf|]. apply Hc. intros rev Hr. apply elem_of_cons in Hr as [[=]|Hr]. by apply elem_of_nil in Hr.
Defined.
Lemma commit_earned_witness : ∃ o baseline m rr,
  ao_operation_id o = id (bytes 2) ∧ ao_config_revision o = 1 ∧ staged_for o rr = true ∧ mo_check m = baseline ∧
  matches_build (ao_manifest o) (build_info m) = true.
Proof.
  destruct (commit_earned running (world_at last) [Opened (Some own)] (id (bytes 2)) (id (bytes 3)) (hex 101 32) 1 before_request
    world_reachable story_log) as (o & b & Hi & _ & _ & Hr & _ & _ & _ & _ & _ & _ & _ & rr & m & _ & _ & _ & Hs & Hm & Hb).
  by exists o, b, m, rr.
Defined.

Definition the_operation : AppOperation := default (mkApp [] [] 0 [] [] [] (mkTuple 0 [] [] 0 [] 0 []) new_manifest [] None false)
  (st_operation (mem (coordinator the_process))).
Definition the_next : Stored := mkStored (lit "admin") (lit "hash") (lit "other") (Some (lit "listen")) 2.
Lemma verdict_thaws_witness : ∃ w1 w2,
  steps running (replicate 4 (Poll (seeing rolled_back))) (world_at last) = Some w1 ∧
  steps running [Admit; Test_; Mutate (PutConfig (Some (lit "other")) 1) true] w1 = Some w2 ∧ config_file w2 = Some the_next.
Proof.
  assert (verdict (identity (coordinator the_process)) rolled_back (ao_operation_id the_operation) (ao_phase_nonce the_operation)) as Hv.
  { split; [by vm_compute|]. split; [by vm_compute|]. split; [by vm_compute|]. exists (in_phase RolledBack). split; by vm_compute. }
  destruct (verdict_thaws running (world_at last) the_process the_operation rolled_back (in_phase RolledBack) (seeing rolled_back)
    (PutConfig (Some (lit "other")) 1) the_next ltac:(by vm_compute) ltac:(by vm_compute) ltac:(by vm_compute) ltac:(by vm_compute)
    ltac:(by vm_compute) ltac:(by vm_compute) ltac:(by vm_compute) ltac:(by vm_compute) Hv ltac:(by vm_compute) ltac:(by vm_compute)
    ltac:(by vm_compute) ltac:(by vm_compute) ltac:(by vm_compute)) as (w1 & w2 & p1 & H1 & _ & _ & _ & _ & _ & H2 & H3).
  exists w1, w2. split; [exact H1|]. by split.
Defined.
End TaskWitness.
